(* ===== verification/_CoqProject ===== *)
-Q . S2P
Prelude.v
Text.v
B32.v
Network.v
Crypto.v
Origin.v
Token.v
B64.v
Pow.v
Address.v
Merkle.v
MerkleWalk.v
MerkleProofs.v
MerkleFrontier.v
Reservation.v
Untrusted.v
Civil.v
Compliance.v
Handle.v
Entry.v
Checkpoint.v
WitnessServer.v
WitnessClient.v
WitnessPair.v
AuditReplay.v
AuditFlow.v
RegistryNodes.v
RegistryStore.v
RegistryLimits.v
RegistryFlows.v
RegistryServer.v
RegistryVerify.v
RegistryBinding.v
RegistryInvariant.v
RegistrySteps.v
RegistryRuns.v
RegistryServe.v
RegistryAudit.v
RegistryAuthority.v
RegistryDemo.v
Policy.v
FetchAuth.v
AgentRecord.v
EnvelopeBytes.v
Envelope.v
LoftConfig.v
LoftPeer.v
Limiter.v
LoftStore.v
LoftTrace.v
LoftInvariant.v
LoftSteps.v
LoftControl.v
LoftRuns.v
LoftServer.v
LoftPublish.v
LoftMailbox.v
LoftDemo.v
Layout.v
TraceRecord.v
TraceKey.v
Segment.v
SegmentChain.v
SegmentWriter.v
SegmentRecovery.v
SegmentRuns.v
Custody.v
CustodyFlow.v
Approval.v
LedgerLeaf.v
LedgerState.v
Ledger.v
LedgerIndex.v
LedgerIntent.v
LedgerMerkle.v
LedgerRuns.v
LedgerFlow.v
LedgerWindows.v
LedgerDemo.v
TraceDemo.v
