(* ===== verification/Prelude.v ===== *)
(** Pigeonpost: a verification library for the protocol core of an agent mail system.

    The program.  Agents have Ed25519 identities; an address is a hash of the key, a handle a name that a
    registry reflects.  A message is sealed by its sender, wrapped under an ephemeral key and published to lofts,
    which store wraps for a recipient without learning the sender; the recipient fetches with a signed credential
    and opens.  Recipients sign policies and agent records, rotate keys by pre-committed successors, and may require
    that senders attach an attribution block only a compliance custodian can open.  The registry keeps handle
    bindings and compliance keys in an RFC 6962 log whose checkpoints witnesses cosign; a client replays the log and
    believes only what the witnessed root confirms.  Lofts admit requests under per-minute budgets and seal what the law
    makes them keep in encrypted trace segments; opening those needs two approvers and leaves public records in an
    append-only disclosure ledger.

    What models what (sources under src/crates/):
    - [Prelude], [Text]: results, machine integers, bytes and little/big-endian integers, strings; the standard
      library functions the code calls.
    - [B32] (core/b32.rs), [Network] (core/network.rs, with the IP parser), [Crypto] (core/keys.rs over an
      interface for the primitives), [Origin] (core/fetch_auth.rs, validate_loft_origin), [Token] (core/token.rs),
      [Pow] (core/pow.rs), [Address] (core/address.rs), [Untrusted] (core/untrusted.rs).
    - [Merkle] (registry/log.rs: the log, its proofs and both verifiers), [MerkleWalk] and [MerkleProofs] (their
      correctness), [MerkleFrontier] (the append frontier and its refinement to the log); [Reservation] (leases drawn from a shared counter, the
      argument behind both durable admissions).
    - [Civil] and [Compliance] (compliance-format/lib.rs: calendar, key identifiers, epochs, claims, preimages).
    - [Policy] (core/policy.rs), [FetchAuth] (core/fetch_auth.rs), [AgentRecord] (core/record.rs).
    - [EnvelopeBytes] and [Envelope] (core/envelope.rs: byte formats, then the wrap and open flows).
    - [Handle] (registry/handle.rs, error.rs), [B64] and [Checkpoint] (registry/checkpoint.rs: notes, signature and
      cosignature lines, the witness policy), [Entry] (registry/entry.rs: log entries, their validation, the signed
      directory claims and the leaf bytes).
    - [WitnessServer] (pigeonpost-witness/src/main.rs: the service that cosigns, as a step relation with failing writes,
      crashes, power losses and restarts on a state file that may be gone or unreadable), [WitnessClient] (registry/witness.rs: attempts, conflict recovery, retries, receipts, quorum
      assembly) and [WitnessPair] (the client against the service).
    - [AuditReplay] and [AuditFlow] (registry/client.rs): the replay of pages and dumps into an accumulator (frontier,
      handle projection, compliance keys), then the audited resolution and key listing built on it, with the trust
      anchor, checkpoint growth and the resumable state.
    - The registry's server: [RegistryNodes] (registry/storage.rs: the Merkle node table), [RegistryStore] (storage.rs: the tables, every append
      and the reads), [RegistryFlows] (storage.rs: identity challenges and the binding they authorise, receipts, the published head),
      [RegistryLimits] (registry.rs and storage.rs: the account limiter and the durable global admission), [RegistryServer] (registry.rs: the
      service's reads, publications and witness promotion), [RegistryBinding] (registry.rs, identity.rs: binding a handle from the challenge to
      the receipt, in its phases), [RegistryInvariant], [RegistrySteps] and [RegistryRuns] (the log behind a database; each operation keeps it;
      runs of the service with restarts, in which the phases of calls interleave), [RegistryServe] and [RegistryAuthority] (what clients and owners may rely on), [RegistryVerify] (storage.rs,
      registry.rs: the check at start, the creation of a database, installing a witness policy), [RegistryAudit] (what the check accepts, and that
      a registry's own database passes), [RegistryDemo] (concrete runs).
    - Lofts: [LoftConfig] (loft/error.rs, config.rs, validate_config), [LoftPeer] (server.rs: the source of a proxied request),
      [Limiter] (limiter.rs: the admission controller as a state machine), [LoftStore] (store.rs: the tables and every
      transaction), [LoftTrace] (store.rs: durable trace admission by processes that share the database), [LoftInvariant] (store.rs:
      the check at start, and the invariant behind it), [LoftSteps] and [LoftControl] (each transaction keeps it), [LoftRuns] (runs of
      transactions; the retention pass of retention.rs), [LoftServer] (server.rs, attribution.rs, trace.rs, wire.rs: the handlers),
      [LoftPublish] (publishing against the policy in force), [LoftMailbox] (draining a mailbox), [LoftDemo] (concrete runs).
    - Trace sealing (compliance-seal): [Layout] (fixed-layout byte readers), [TraceRecord] (trace.rs), [TraceKey] (key.rs),
      [Segment] and [SegmentWriter] (segment.rs: formats and public verification; the writer and crash recovery over a
      directory of two names with explicit durability), [SegmentChain], [SegmentRecovery] and [SegmentRuns] (what a
      verified segment binds; what recovery finds; runs with failed writes, crashes and reopening).
    - Trace disclosure (compliance/custody.rs): [Custody] and [CustodyFlow] (unwrapping of epoch keys, selection and
      decryption of segments); [TraceDemo] holds the concrete runs behind the witnesses of this and the previous part.
    - Approval and ledger (compliance/approval.rs, ledger.rs, platform.rs): [Approval] (requests, commitments, the
      two-person rule), [LedgerLeaf] (leaf codecs and the sequence rule), [LedgerState] (the authenticated restart
      state), [Ledger] (create, append, execute, open, recover), [LedgerMerkle] (proofs from block roots),
      [LedgerIndex], [LedgerIntent], [LedgerRuns] and [LedgerFlow] (invariants and runs with power losses),
      [LedgerWindows] (three windows after which a ledger no longer opens), [LedgerDemo] (concrete runs).

    How the code is rendered.  A Rust function is a Rocq function of the same name; [Result] is [result], [?] is the
    bind of that monad, [if c { return Err(e) }] is [guard c e].  A method on [&mut self] returns the new state
    beside its result, also when it fails after changing something.  Fixed-width integers are [Z] with the wrap,
    saturation or check written out at each operation; [usize] lengths of in-memory data are [nat].  [u8; N] is
    a vector, [String] and [Vec<u8>] are byte lists.  Randomness and clock readings are arguments.

    Code outside the repository is a class with its laws: the cryptographic primitives ([Crypto.Crypto], laws
    [CryptoLaws]; [Envelope.EnvelopeCrypto], laws [EnvelopeLaws]), [Url::parse] ([Origin.UrlParser]) and
    [serde_json] on the types concerned ([EnvelopeBytes.StorageJson], [Envelope.EnvelopeJson], [LoftStore.LoftJson],
    [LoftServer.ServerJson], [RegistryStore.EntryJson], [RegistryServer.ReceiptJson]).  The laws are the documented
    correctness of those libraries (a signature made by a key verifies under it, decryption inverts encryption, a value
    reads back from its JSON).  To its clients the registry is [AuditReplay.Server], whose answers (indexed by the number of requests made
    so far) carry no law at all: the client's theorems hold against any server.  The client's own interfaces are classes
    as in the code: [AuditReplay.HandleProjectionStore], with laws [HandleProjectionLaws] that the in-memory store of client.rs
    is proved to satisfy, and [AuditReplay.AuditAccumulator].  The witness client acts on [WitnessClient.World] and
    [WitnessClient.Clock], about which only the order of time is assumed; [WitnessPair] makes the service itself a world.
    The service's state file goes through [WitnessServer.StoredJson] (laws [StoredJsonLaws]: a state reads back from its own text, and
    whatever parses has the fields of a state); a restart whose read fails, and a power loss, are events [Forgot] of a run.  No theorem assumes collision resistance: where
    security rests on it, the conclusion names the explicit list of hash inputs among which a collision would have been
    found ([collision_in]).  Each class has a toy instance on which the witnesses run.
    Files: a run carries what is on disk and how much of it is durable; a crash keeps the durable prefix and any part of the
    rest (in the ledger also any change time of the log, and either the synced or the renamed restart state).  The outcomes of system calls and of the custody checks (ownership, permissions, identity of a named file) are
    arguments ([SegmentWriter.Io], [Ledger.LedgerIo]), so that every theorem holds for every outcome; a rename is taken to be
    atomic, and durable only once the directory was synced.  The operation a disclosure gates acts on a world of its own and sees the directory
    as it is when it runs.  A generator's draws are lists.
    SQLite: a transaction is atomic, so a method of the store is a function from tables to tables or an error, and runs are
    sequences of such functions; constraints ([UNIQUE], [CHECK], [AUTOINCREMENT]) are written out where a statement meets them.
    An [async] handler takes, for each of its awaits, the function by which other requests changed the server meanwhile
    ([LoftServer.Attempt]); its theorems hold for every such function that is a run of the store.  A loft's trace sink is the class
    [LoftPublish.DurableSink], its resolver of attribution keys a record of functions without laws, another one at each attempt.
    The registry's identity providers are the class [RegistryBinding.IdentityProviders], without laws; a call takes its clock readings, the
    answers of file custody and trace sink, and the admission row its first read saw from a [RegistryBinding.BindEnv], and with them the six functions by which other calls changed
    the service while this one recovered, waited for the provider, was admitted, was charged, waited for the trace and answered; each is
    a run of the phases of other calls ([RegistryRuns.others_run]).

    What the theorems show.
    - Log: proofs of inclusion and consistency exist for every size and verify; what verifies is true of the logs
      behind the roots, or a collision is exhibited; the frontier computes the roots of the full log.
    - Envelope: what is wrapped opens to the same sender and text; what opens was signed by the sender it names, and
      everything a loft could see of it by the ephemeral key, in a payload that determines each field;
      a "valid" attribution verdict has a verified claim behind it; a wrap a loft admits is bound by its signature;
      identifiers, padding and the storage record are exact codecs.
    - Records, policies, credentials: what verifies is bound to every field by an unambiguous signed payload; what
      the owner issues verifies; rotations follow the committed successor.
    - Checkpoints and entries: an accepted note was signed, and cosigned by a quorum within the freshness window; two
      accepted quorums share a witness; honest notes are accepted; a leaf determines its entry and directory entries
      carry the loft's signature.
    - Witnesses: over any stretch of a run with crashes and restarts in which a service did not lose its state file, the checkpoints
      it accepts are those of one growing log, so two clients of one roster cannot be shown different logs unless a shared witness signed
      outside the service or forgot in between; a service that restarts without its state does cosign a fork (a defect); a receipt is a
      real, fresh cosignature that will be accepted again; retrying ends; a quorum of receipts assembles; client and
      service in step succeed and stay in step while the service's clock is fresh, its write succeeds and its reply arrives, and a client that lost an answer cannot recover (a defect of the monitoring route).
    - Auditing client: against any server, the key an audited resolution returns is the binding of the witnessed log,
      the key listing is exactly the log's, state carried between audits describes the log and extends the pins, and
      two audits of one root agree or exhibit a collision; a retired or revoked key never becomes active again.
    - Registry: every database a registry reaches is the image of one append-only log (entries, node table, heads, projections, receipts,
      challenges), whatever requests and restarts came before; a handle is bound only with the key's signature, the provider's word for
      the account, the owner's account if it was bound before, a trace and a challenge that is unused when it is spent, whatever calls run
      between the phases; a handle never changes accounts and no account holds more
      than three; a lookup returns the newest binding below the served head, with a proof and a note the client accepts; proofs from the node table are
      those of the whole tree; the published head moves only forward and under a quorum; an answer lost after the commit is recovered by
      repeating the call.  Two repetitions that should be idempotent are refused (defects).  What the check at start accepts has exactly the
      projections of its entries under a signed head, and the database of a run always passes; but an entry can be rewritten below the stored
      inner nodes, and a policy can refuse the head it published (defects).
    - Names: addresses and handles have one canonical form; destinations are fully consumed.
    - Time: the civil-date arithmetic is the Gregorian calendar; epochs partition time.
    - Trace segments: a segment is accepted exactly when it is a signed chain of frames; the signature determines every frame
      or a collision is exhibited; records acknowledged as durable are in what every later recovery finds, and a torn write
      loses only its own record; what was appended is what an authorized disclosure returns.
    - Approval: a request is consumed at most once, only after approvals of two different keys within its lifetime, and
      an approval is bound to every field of the request; commitments determine what they commit to, or a collision.
    - Ledger: an operation runs only after its intent is durable, and its output is released only after its completion
      is; acknowledged leaves survive every run with failures and power losses, as durable bytes and in whatever opens later; reopening
      succeeds if every power loss spared the restart state and the change time it names; a ledger that opens holds a well-sequenced
      log and the root, proofs and checkpoint of the reference log; leaves are exact codecs; three windows make a ledger
      unopenable (defects).
    - Loft store: every database the transactions can produce passes the check at start, its counters are the sums of its rows and
      within the capacity; an admitted agent can always rotate, and the rotation stays; a retention pass ends and removes what expired;
      no minute grants more trace slots than the limit, whatever the processes.
    - Loft service: a stored event met the policy in force at the moment it was stored, and its trace was sealed first; a mailbox is
      drained in order, only of rows the table held for its owner, nothing twice and nothing passed over; a client cannot choose the source it is limited and traced by.
    - Admission: within any window at most twice the configured budget is admitted, whatever the traffic; the state
      stays bounded; service recovers one window after a flood.

    Bounds and fuel.  Recursion is structural except the Merkle functions (well-founded on the number of leaves) and
    twelve loops with fuel: [RegistryNodes.carry_nodes] (the index of the leaf, which halves), [RegistryServer.dump_pages] and [RegistryVerify.replay_loop]
    (the size of the log, a page being at least one entry), [RegistryLimits.reclaim_loop] (the 256 of the code's own bound), [LoftRuns.sweep_loop] (one more than the expired rows, [sweep_once_completes]), [SegmentWriter.recover_loop] (one more than the bytes of the file, proved enough by
    [SegmentRuns.recover_total]), [Ledger.stream] (one more than the length of the log, [stream_total]), [AuditReplay.segments] (one segment per entry is enough, [segments_chained]),
    [WitnessClient.retry_loop] (one attempt per initial delay of the deadline, proved enough by [cosign_retry_total]),
    [B32.encode_drain] (at most two characters per byte), [Merkle.strip_even]/[strip_odd]
    (fuel the node number, which halves) and [Merkle.split_loop] (fuel [n], and [k] doubles up to [n]); the
    theorems are about the functions that supply the fuel.

    Not modelled: HTTP transport, request deadlines, the migrations of older loft and registry schemas and the check of the schema text,
    the identity providers' own protocols (OAuth, OpenID Connect), the serde form of log entries, the command line, the hosted postbox, MLS groups, sandboxes and
    operating-system key custody; formatting for logs ([Debug], [Display]). *)
From stdpp Require Export base tactics option list numbers strings gmap vector.
From Stdlib Require Export ZArith Lia ZifyNat ZifyN.
From Stdlib Require Export Init.Byte.
From Stdlib Require Import Strings.Byte.

#[global] Open Scope Z_scope.

(** * Results: Rust's [Result<T, E>] and the [?] operator *)

Inductive result (E A : Type) : Type :=
| Ok (a : A)
| Err (e : E).
Arguments Ok {E A} _.
Arguments Err {E A} _.

#[global] Instance result_ret {E} : MRet (result E) := fun _ a => Ok a.
#[global] Instance result_bind {E} : MBind (result E) := fun _ _ k r =>
  match r with Ok a => k a | Err e => Err e end.
#[global] Instance result_fmap {E} : FMap (result E) := fun _ _ f r =>
  match r with Ok a => Ok (f a) | Err e => Err e end.

Definition is_ok {E A} (r : result E A) : bool :=
  match r with Ok _ => true | Err _ => false end.

(** [Option::ok_or] and [Result::ok]. *)
Definition ok_or {E A} (o : option A) (e : E) : result E A :=
  match o with Some a => Ok a | None => Err e end.
Definition ok {E A} (r : result E A) : option A :=
  match r with Ok a => Some a | Err _ => None end.

(** [Option::is_some] *)
Definition is_some {A} (o : option A) : bool := match o with Some _ => true | None => false end.

(** An early return [if c { return Err(e) }]. *)
Definition guard {E} (c : bool) (e : E) : result E unit :=
  if c then Err e else Ok tt.

(** * Machine integers

    A [w]-bit unsigned integer is a [Z] in [0, 2^w); the wrap-around of each
    operation is written out. *)

Definition wrap (w z : Z) : Z := z mod 2 ^ w.
Definition in_uint (w z : Z) : Prop := 0 <= z < 2 ^ w.
Definition checked_add (w a b : Z) : option Z :=
  if a + b <? 2 ^ w then Some (a + b) else None.
Definition checked_sub (a b : Z) : option Z :=
  if b <=? a then Some (a - b) else None.
Definition saturating_add (w a b : Z) : Z := Z.min (a + b) (2 ^ w - 1).
Definition saturating_sub (a b : Z) : Z := Z.max (a - b) 0.
Definition abs_diff (a b : Z) : Z := Z.abs (a - b).

(** * Bytes

    A [u8] is Rocq's [byte]; [u8] reads it as an integer and [to_u8] is the
    truncating cast [as u8]. *)

Abbreviation byte := Corelib.Init.Byte.byte.

#[global] Instance byte_eq_dec : EqDecision byte := Byte.byte_eq_dec.

Definition u8 (b : byte) : Z := Z.of_N (Byte.to_N b).
Definition to_u8 (z : Z) : byte :=
  match Byte.of_N (Z.to_N (z mod 256)) with Some b => b | None => x00 end.

Lemma u8_range b : 0 <= u8 b < 256.
Proof. unfold u8. pose proof (Byte.to_N_bounded b). lia. Qed.

Lemma u8_to_u8 z : u8 (to_u8 z) = z mod 256.
Proof.
  unfold u8, to_u8. pose proof (Z.mod_pos_bound z 256 ltac:(lia)).
  destruct (Byte.of_N _) as [b|] eqn:E.
  - apply Byte.to_of_N in E. lia.
  - apply Byte.of_N_None_iff in E. lia.
Qed.

Lemma to_u8_u8 b : to_u8 (u8 b) = b.
Proof.
  unfold to_u8. pose proof (u8_range b). rewrite Z.mod_small by lia.
  unfold u8. rewrite N2Z.id, Byte.of_to_N. done.
Qed.

#[global] Instance u8_inj : Inj (=) (=) u8.
Proof. intros a b H. rewrite <-(to_u8_u8 a), <-(to_u8_u8 b). congruence. Qed.

#[global] Instance byte_countable : Countable byte.
Proof. apply (inj_countable' u8 to_u8). apply to_u8_u8. Defined.

Abbreviation bytes := (list byte).

(** A Rust [str] is its UTF-8 bytes; a literal is the byte string of a Rocq
    string. *)
Abbreviation str := (list byte).
Definition lit (s : string) : str := String.list_byte_of_string s.
#[global] Arguments lit : simpl never.

(** A fixed-size array [[u8; n]]. *)
Abbreviation arr n := (vec byte n).
Definition zeroes (n : nat) : arr n := vreplicate n x00.

Declare Scope pigeon_scope.
Notation "a ≟ b" := (bool_decide (a = b)) (at level 70, no associativity) : pigeon_scope.
#[global] Open Scope pigeon_scope.

(** * Fixed-width integer encodings: [to_le_bytes] and [to_be_bytes] *)

Fixpoint le_bytes (n : nat) (z : Z) : bytes :=
  match n with
  | O => []
  | S n => to_u8 z :: le_bytes n (z / 256)
  end.
Definition be_bytes (n : nat) (z : Z) : bytes := rev (le_bytes n z).

Fixpoint from_le_bytes (bs : bytes) : Z :=
  match bs with
  | [] => 0
  | b :: bs => u8 b + 256 * from_le_bytes bs
  end.
Definition from_be_bytes (bs : bytes) : Z := from_le_bytes (rev bs).

Lemma length_le_bytes n z : length (le_bytes n z) = n.
Proof. revert z; induction n as [|n IH]; intros z; simpl; [done|]. by rewrite IH. Qed.

Lemma length_be_bytes n z : length (be_bytes n z) = n.
Proof. unfold be_bytes. by rewrite length_rev, length_le_bytes. Qed.

Lemma from_le_bytes_le_bytes n z :
  from_le_bytes (le_bytes n z) = z mod 2 ^ (8 * Z.of_nat n).
Proof.
  revert z; induction n as [|n IH]; intros z; simpl from_le_bytes.
  { by rewrite Z.mod_1_r. }
  cbn [le_bytes from_le_bytes]. rewrite IH, u8_to_u8.
  replace (8 * Z.of_nat (S n)) with (8 + 8 * Z.of_nat n) by lia.
  rewrite Z.pow_add_r by lia. change (2 ^ 8) with 256.
  rewrite Z.rem_mul_r by lia. done.
Qed.

Lemma from_le_bytes_id n z :
  in_uint (8 * Z.of_nat n) z -> from_le_bytes (le_bytes n z) = z.
Proof. intros H. rewrite from_le_bytes_le_bytes. by apply Z.mod_small. Qed.

Lemma from_be_bytes_id n z :
  in_uint (8 * Z.of_nat n) z -> from_be_bytes (be_bytes n z) = z.
Proof.
  intros H. unfold from_be_bytes, be_bytes. rewrite rev_involutive.
  by apply from_le_bytes_id.
Qed.

Lemma from_le_bytes_range bs : in_uint (8 * Z.of_nat (length bs)) (from_le_bytes bs).
Proof.
  unfold in_uint. induction bs as [|b bs IH]; simpl from_le_bytes; [simpl; lia|].
  replace (8 * Z.of_nat (length (b :: bs))) with (8 + 8 * Z.of_nat (length bs)) by (simpl; lia).
  rewrite Z.pow_add_r by lia. change (2 ^ 8) with 256.
  pose proof (u8_range b). nia.
Qed.

Lemma le_bytes_inj n a b :
  in_uint (8 * Z.of_nat n) a -> in_uint (8 * Z.of_nat n) b ->
  le_bytes n a = le_bytes n b -> a = b.
Proof.
  intros Ha Hb H. rewrite <-(from_le_bytes_id n a), <-(from_le_bytes_id n b) by done.
  by rewrite H.
Qed.

Lemma be_bytes_inj n a b :
  in_uint (8 * Z.of_nat n) a -> in_uint (8 * Z.of_nat n) b ->
  be_bytes n a = be_bytes n b -> a = b.
Proof.
  unfold be_bytes. intros Ha Hb H. apply (f_equal (@rev byte)) in H.
  rewrite !rev_involutive in H. by eapply le_bytes_inj.
Qed.

(** * Lists *)

(** Splitting two equal concatenations whose first parts have one length: how
    every signed preimage below is taken apart. *)
Lemma app_inj_len {A} (a b c d : list A) :
  length a = length c -> a ++ b = c ++ d -> a = c /\ b = d.
Proof. intros H E. by apply app_inj_1. Qed.

Lemma arr_app_inj {n} (a c : arr n) (b d : bytes) :
  vec_to_list a ++ b = vec_to_list c ++ d -> a = c /\ b = d.
Proof.
  intros H. apply app_inj_len in H as [H ->].
  - split; [|done]. by apply vec_to_list_inj2.
  - by rewrite !length_vec_to_list.
Qed.

Lemma le_app_inj n x y (b d : bytes) :
  in_uint (8 * Z.of_nat n) x -> in_uint (8 * Z.of_nat n) y ->
  le_bytes n x ++ b = le_bytes n y ++ d -> x = y /\ b = d.
Proof.
  intros Hx Hy H. apply app_inj_len in H as [H ->].
  - split; [|done]. by eapply le_bytes_inj.
  - by rewrite !length_le_bytes.
Qed.

Lemma be_app_inj n x y (b d : bytes) :
  in_uint (8 * Z.of_nat n) x -> in_uint (8 * Z.of_nat n) y ->
  be_bytes n x ++ b = be_bytes n y ++ d -> x = y /\ b = d.
Proof.
  intros Hx Hy H. apply app_inj_len in H as [H ->].
  - split; [|done]. by eapply be_bytes_inj.
  - by rewrite !length_be_bytes.
Qed.

(** * Automation *)

Create HintDb pigeon discriminated.
Create Rewrite HintDb pigeon.
#[export] Hint Resolve length_le_bytes length_be_bytes u8_range from_le_bytes_range : pigeon.
#[export] Hint Rewrite length_le_bytes length_be_bytes @length_vec_to_list
  @length_app @length_rev u8_to_u8 to_u8_u8 : pigeon.

(** Case analysis on the [bool] tests and matches of a definition: the innermost
    scrutinee of the goal or of a hypothesis, with its equation. *)
Ltac step_case :=
  match goal with
  | |- context [match ?x with _ => _ end] =>
      lazymatch x with context [match _ with _ => _ end] => fail | _ => destruct x eqn:? end
  end.
Ltac step_case_in H :=
  match type of H with
  | context [match ?x with _ => _ end] =>
      lazymatch x with context [match _ with _ => _ end] => fail | _ => destruct x eqn:? end
  end.

(** Turn boolean comparisons in the context into propositions. *)
Ltac b2p :=
  repeat match goal with
  | H : negb _ = true |- _ => apply negb_true_iff in H
  | H : negb _ = false |- _ => apply negb_false_iff in H
  | H : (_ && _)%bool = true |- _ => apply andb_true_iff in H as [? ?]
  | H : (_ || _)%bool = false |- _ => apply orb_false_iff in H as [? ?]
  | H : bool_decide _ = true |- _ => apply bool_decide_eq_true in H
  | H : bool_decide _ = false |- _ => apply bool_decide_eq_false in H
  | H : (_ <? _) = true |- _ => apply Z.ltb_lt in H
  | H : (_ <? _) = false |- _ => apply Z.ltb_ge in H
  | H : (_ <=? _) = true |- _ => apply Z.leb_le in H
  | H : (_ <=? _) = false |- _ => apply Z.leb_gt in H
  | H : (_ =? _) = true |- _ => apply Z.eqb_eq in H
  | H : (_ =? _) = false |- _ => apply Z.eqb_neq in H
  | H : (_ <? _)%nat = true |- _ => apply Nat.ltb_lt in H
  | H : (_ <? _)%nat = false |- _ => apply Nat.ltb_ge in H
  | H : (_ <=? _)%nat = true |- _ => apply Nat.leb_le in H
  | H : (_ <=? _)%nat = false |- _ => apply Nat.leb_gt in H
  | H : (_ =? _)%nat = true |- _ => apply Nat.eqb_eq in H
  | H : (_ =? _)%nat = false |- _ => apply Nat.eqb_neq in H
  end.

(** Inversion of a monadic computation that returned [Ok]. *)
Lemma bind_Ok {E A B} (r : result E A) (k : A -> result E B) b :
  (r ≫= k) = Ok b -> exists a, r = Ok a /\ k a = Ok b.
Proof. destruct r; simpl; [eauto|discriminate]. Qed.

Lemma guard_Ok {E} c (e : E) u : guard c e = Ok u -> c = false.
Proof. unfold guard. by destruct c. Qed.

Lemma ok_or_Ok {E A} (o : option A) (e : E) a : ok_or o e = Ok a -> o = Some a.
Proof. destruct o; simpl; congruence. Qed.

Lemma bind_bind {E A B C} (r : result E A) (f : A -> result E B) (g : B -> result E C) :
  (r ≫= f) ≫= g = r ≫= (fun a => f a ≫= g).
Proof. by destruct r. Qed.

Lemma Ok_inj {E A} (a b : A) : @Ok E A a = Ok b -> a = b.
Proof. by intros [= ->]. Qed.

Ltac inv_ok :=
  repeat match goal with
  | H : _ ≫= _ = Ok _ |- _ =>
      let a := fresh "a" in let Ha := fresh "Ha" in
      apply bind_Ok in H as (a & Ha & H)
  | H : guard _ _ = Ok _ |- _ => apply guard_Ok in H
  | H : ok_or _ _ = Ok _ |- _ => apply ok_or_Ok in H
  | H : Ok _ = Ok _ |- _ => apply Ok_inj in H
  | H : Err _ = Ok _ |- _ => discriminate H
  end.

(** * Shifts and masks as arithmetic *)

Lemma lor_shiftl_add a b k :
  0 <= k -> 0 <= b < 2 ^ k -> Z.lor (Z.shiftl a k) b = a * 2 ^ k + b.
Proof.
  intros Hk Hb. rewrite <-Z.shiftl_mul_pow2 by done.
  rewrite (Z.add_nocarry_lxor (Z.shiftl a k) b), Z.lxor_lor; try done;
    apply Z.bits_inj'; intros i Hi; rewrite Z.land_spec, Z.bits_0, Z.shiftl_spec by done;
    (destruct (Z.ltb_spec i k);
     [by rewrite Z.testbit_neg_r by lia
     |destruct (Z.eqb_spec b 0) as [->|]; [by rewrite Z.bits_0, andb_false_r|];
      rewrite (Z.bits_above_log2 b i), andb_false_r; [done|lia|];
      apply Z.log2_lt_pow2; [lia|]; eapply Z.lt_le_trans; [apply Hb|];
      apply Z.pow_le_mono_r; lia]).
Qed.

Lemma shiftr_land_ones a s k :
  0 <= s -> 0 <= k -> Z.land (Z.shiftr a s) (Z.ones k) = (a / 2 ^ s) mod 2 ^ k.
Proof. intros Hs Hk. by rewrite Z.land_ones, Z.shiftr_div_pow2. Qed.

(** The low [k] bits survive a truncation to [w >= k] bits. *)
Lemma mod_wrap a w k : 0 <= k <= w -> wrap w a mod 2 ^ k = a mod 2 ^ k.
Proof.
  intros H. unfold wrap. replace w with (k + (w - k)) by lia.
  rewrite Z.pow_add_r by lia. rewrite Z.rem_mul_r by lia.
  rewrite (Z.mul_comm (2 ^ k)), Z.mod_add, Z.mod_mod by lia. done.
Qed.

(** * Big-endian positional values *)

Fixpoint be_val (base acc : Z) (ds : list Z) : Z :=
  match ds with
  | [] => acc
  | d :: ds => be_val base (acc * base + d) ds
  end.

Lemma be_val_app base acc xs ys :
  be_val base acc (xs ++ ys) = be_val base (be_val base acc xs) ys.
Proof. revert acc; induction xs as [|x xs IH]; intros acc; simpl; [done|]. apply IH. Qed.

Lemma be_val_inj base a b xs ys :
  1 < base -> length xs = length ys ->
  Forall (fun d => 0 <= d < base) xs -> Forall (fun d => 0 <= d < base) ys ->
  be_val base a xs = be_val base b ys -> a = b /\ xs = ys.
Proof.
  intros Hb. revert a b ys; induction xs as [|x xs IH]; intros a b [|y ys] Hlen Hx Hy E;
    simpl in *; try done; try lia.
  inversion_clear Hx; inversion_clear Hy.
  destruct (IH _ _ ys ltac:(lia) ltac:(done) ltac:(done) E) as [E' ->].
  assert (a = b) as ->.
  { apply (f_equal (fun z => z / base)) in E'.
    rewrite !Z.div_add_l, !Z.div_small in E' by lia. lia. }
  split; [done|]. f_equal. lia.
Qed.

(** Evaluate [u8] on byte constants. *)
Ltac u8_consts :=
  repeat match goal with
  | H : context [u8 ?c] |- _ => is_constructor c; let v := eval vm_compute in (u8 c) in change (u8 c) with v in H
  | |- context [u8 ?c] => is_constructor c; let v := eval vm_compute in (u8 c) in change (u8 c) with v
  end.

(** [lia] with divisions and remainders turned into their defining equations. *)
Ltac dlia := zify; Z.to_euclidean_division_equations; lia.

(** Evaluate closed powers of two. *)
Ltac compute_pows :=
  repeat match goal with
  | H : context [2 ^ ?k] |- _ => let v := eval vm_compute in (2 ^ k) in
      lazymatch v with Zpos _ => change (2 ^ k) with v in H end
  | |- context [2 ^ ?k] => let v := eval vm_compute in (2 ^ k) in
      lazymatch v with Zpos _ => change (2 ^ k) with v end
  end.

(** * Arrays from slices *)

Fixpoint arr_of_list (n : nat) (l : bytes) : option (arr n) :=
  match n, l with
  | O, [] => Some [#]
  | S n, b :: l => v ← arr_of_list n l; Some (b ::: v)
  | _, _ => None
  end.

Lemma arr_of_list_Some n l (v : arr n) : arr_of_list n l = Some v <-> l = vec_to_list v.
Proof.
  revert l; induction v as [|b n v IH]; intros l.
  - destruct l; simpl; split; done.
  - destruct l as [|c l]; simpl; [split; done|]. split.
    + destruct (arr_of_list n l) as [w|] eqn:E; simpl; [|done].
      intros H. assert (c ::: w = b ::: v) as H' by congruence.
      pose proof (vcons_inj_1 _ _ _ _ H'); pose proof (vcons_inj_2 _ _ _ _ H'). subst.
      f_equal. by apply IH.
    + intros [= -> ->]. by rewrite (proj2 (IH _) eq_refl).
Qed.

Lemma arr_of_list_length n l : is_Some (arr_of_list n l) <-> length l = n.
Proof.
  revert l; induction n as [|n IH]; intros [|b l]; simpl; try by (split; [intros [? ?]|]; eauto).
  specialize (IH l). destruct (arr_of_list n l); simpl; split; intros H; eauto.
  - f_equal. apply IH. eauto.
  - by destruct H.
  - destruct IH as [_ IH]. destruct IH; [lia|done].
Qed.

#[global] Arguments arr_of_list : simpl never.

(** Maps keyed by arrays evaluate. *)
#[global] Instance arr_countable n : Countable (arr n).
Proof. apply (inj_countable vec_to_list (arr_of_list n)). intros v. by apply arr_of_list_Some. Defined.

(** * Properties of bytes by enumeration *)

Definition all_bytes : list byte := map (fun n => to_u8 (Z.of_nat n)) (seq 0 256).

Lemma byte_forall (P : byte -> bool) : forallb P all_bytes = true -> forall b, P b = true.
Proof.
  intros H b. rewrite forallb_forall in H. apply H. unfold all_bytes.
  apply in_map_iff. exists (Z.to_nat (u8 b)). pose proof (u8_range b). split.
  - rewrite Z2Nat.id by lia. apply to_u8_u8.
  - apply in_seq. lia.
Qed.

(** Close [forall b : byte, f b = g b] for computable booleans. *)
Ltac byte_enum :=
  let b := fresh "b" in
  intros b; apply Bool.eqb_prop; revert b;
  match goal with |- forall b, @?P b = true => apply (byte_forall P); vm_compute; reflexivity end.

(** [copy_from_slice] of the first [n] bytes; the callers have checked the length. *)
Fixpoint take_arr (n : nat) (l : bytes) : arr n :=
  match n with
  | O => [#]
  | S n => hd x00 l ::: take_arr n (tl l)
  end.

Lemma take_arr_app {n} (v : arr n) (r : bytes) : take_arr n (vec_to_list v ++ r) = v.
Proof. induction v as [|b n v IH]; [done|]. simpl. by rewrite IH. Qed.

Lemma take_arr_all {n} (v : arr n) : take_arr n (vec_to_list v) = v.
Proof. rewrite <-(app_nil_r (vec_to_list v)). apply take_arr_app. Qed.

Lemma vec_to_list_take_arr n l : (n <= length l)%nat -> vec_to_list (take_arr n l) = take n l.
Proof.
  revert l; induction n as [|n IH]; intros [|b l] H; simpl in *; try done; try lia.
  rewrite IH by lia. done.
Qed.

Lemma le_bytes_from bs : le_bytes (length bs) (from_le_bytes bs) = bs.
Proof.
  induction bs as [|b bs IH]; [done|]. cbn [length le_bytes from_le_bytes]. pose proof (u8_range b).
  replace ((u8 b + 256 * from_le_bytes bs) / 256) with (from_le_bytes bs) by dlia.
  rewrite IH. f_equal. rewrite <-(to_u8_u8 b) at 2.
  rewrite <-(to_u8_u8 (to_u8 (u8 b + _))), <-(to_u8_u8 (to_u8 (u8 b))), !u8_to_u8. f_equal. dlia.
Qed.

Lemma be_bytes_from n bs : length bs = n -> be_bytes n (from_be_bytes bs) = bs.
Proof.
  intros <-. unfold be_bytes, from_be_bytes. rewrite <-(length_rev bs), le_bytes_from. apply rev_involutive.
Qed.

Lemma from_be_bytes_range bs : in_uint (8 * Z.of_nat (length bs)) (from_be_bytes bs).
Proof. unfold from_be_bytes. rewrite <-length_rev. apply from_le_bytes_range. Qed.

(** * Signed preimages

    Payloads are built field by field; the lemmas below take one apart from the left,
    and [payload_inj] applies them until no field is left. *)

(** [u8::from(bool)] *)
Definition bool_byte (b : bool) : byte := if b then x01 else x00.

Lemma bool_byte_inj a b : bool_byte a = bool_byte b -> a = b.
Proof. by destruct a, b. Qed.

(** The arrays of a list, one after the other. *)
Definition concat_arrs {n} (l : list (arr n)) : bytes := concat (map vec_to_list l).

Lemma concat_arrs_inj {n} (l l' : list (arr n)) (r r' : bytes) :
  length l = length l' -> concat_arrs l ++ r = concat_arrs l' ++ r' -> l = l' /\ r = r'.
Proof.
  revert l'; induction l as [|v l IH]; intros [|v' l'] Hl E; simplify_eq/=; [done|].
  unfold concat_arrs in E. simpl in E. rewrite <-!(assoc_L (++)) in E.
  apply arr_app_inj in E as [-> E]. by destruct (IH l' Hl E) as [-> ->].
Qed.

Lemma cons_inj {A} (x y : A) l l' : x :: l = y :: l' -> x = y /\ l = l'.
Proof. intros [= -> ->]. done. Qed.

Ltac payload_inj H :=
  repeat lazymatch type of H with
  | vec_to_list _ ++ _ = vec_to_list _ ++ _ => let E := fresh "E" in apply arr_app_inj in H as [E H]
  | le_bytes _ _ ++ _ = le_bytes _ _ ++ _ =>
      let E := fresh "E" in apply le_app_inj in H as [E H]; [|assumption..]
  | be_bytes _ _ ++ _ = be_bytes _ _ ++ _ =>
      let E := fresh "E" in apply be_app_inj in H as [E H]; [|assumption..]
  | ?a ++ _ = ?a ++ _ => apply app_inv_head in H
  | (_ :: _) ++ _ = (_ :: _) ++ _ => cbn [app] in H
  | bool_byte _ :: _ = bool_byte _ :: _ =>
      let E := fresh "E" in apply cons_inj in H as [E H]; apply bool_byte_inj in E
  | _ :: _ = _ :: _ => let E := fresh "E" in apply cons_inj in H as [E H]
  | vec_to_list _ = vec_to_list _ => let E := fresh "E" in pose proof (vec_to_list_inj2 _ _ H) as E; clear H
  | le_bytes _ _ = le_bytes _ _ => apply le_bytes_inj in H; [|assumption..]
  | be_bytes _ _ = be_bytes _ _ => apply be_bytes_inj in H; [|assumption..]
  end.

(** Payloads of two signing domains of one length differ. *)
Lemma domain_sep (a b x y : bytes) : length a = length b -> a <> b -> a ++ x <> b ++ y.
Proof. intros Hl Hn E. by apply app_inj_len in E as [E _]. Qed.

(** * Sums over finite maps *)

Definition total {K V} `{Countable K} (f : V -> Z) (m : gmap K V) : Z := map_fold (fun _ v acc => f v + acc) 0 m.

Section Total.
Context {K V : Type} `{Countable K} (f : V -> Z).
Implicit Types (m : gmap K V).

Lemma total_empty : total f (∅ : gmap K V) = 0.
Proof. done. Qed.

Lemma total_insert_new m k v : m !! k = None -> total f (<[k := v]> m) = f v + total f m.
Proof. intros Hk. unfold total. rewrite map_fold_insert_L; [done|intros; lia|done]. Qed.

Lemma total_delete m k : total f m = total f (delete k m) + default 0 (f <$> m !! k).
Proof.
  destruct (m !! k) as [v|] eqn:Hk; simpl.
  - rewrite <-(insert_delete_id m k v Hk) at 1. rewrite total_insert_new by apply lookup_delete_eq. lia.
  - rewrite delete_id by done. lia.
Qed.

Lemma total_insert m k v : total f (<[k := v]> m) = total f m - default 0 (f <$> m !! k) + f v.
Proof.
  rewrite (total_delete m k), <-insert_delete_eq, total_insert_new by apply lookup_delete_eq. lia.
Qed.

Lemma total_nonneg m : (forall k v, m !! k = Some v -> 0 <= f v) -> 0 <= total f m.
Proof.
  induction m as [|k v m Hk IH] using map_ind; intros Hv; [done|]. rewrite total_insert_new by done.
  pose proof (Hv k v ltac:(by simplify_map_eq)). enough (0 <= total f m) by lia. apply IH. intros k' v' Hk'.
  apply (Hv k'). rewrite lookup_insert_ne by congruence. done.
Qed.
End Total.
