(* ===== verification/Text.v ===== *)
(** Rust strings: the operations of [str] and [char] the sources use, over the
    UTF-8 bytes of the text. *)
From S2P Require Import Prelude.

(** * Characters *)

(** [str::chars]: the Unicode scalar values of well-formed UTF-8.  A [str] is
    always well formed, so the incomplete-sequence cases never arise. *)
Fixpoint chars (s : str) : list Z :=
  match s with
  | [] => []
  | b0 :: s0 =>
      if u8 b0 <? 128 then u8 b0 :: chars s0
      else match s0 with
           | [] => []
           | b1 :: s1 =>
               if u8 b0 <? 0xe0 then
                 ((u8 b0 - 0xc0) * 64 + (u8 b1 - 0x80)) :: chars s1
               else match s1 with
                    | [] => []
                    | b2 :: s2 =>
                        if u8 b0 <? 0xf0 then
                          ((u8 b0 - 0xe0) * 4096 + (u8 b1 - 0x80) * 64 + (u8 b2 - 0x80)) :: chars s2
                        else match s2 with
                             | [] => []
                             | b3 :: s3 =>
                                 ((u8 b0 - 0xf0) * 262144 + (u8 b1 - 0x80) * 4096
                                  + (u8 b2 - 0x80) * 64 + (u8 b3 - 0x80)) :: chars s3
                             end
                    end
           end
  end.

Definition is_ascii (s : str) : bool := forallb (fun b => u8 b <? 128) s.

(** [char::to_ascii_lowercase] on scalar values and [u8::to_ascii_lowercase]. *)
Definition char_to_ascii_lowercase (c : Z) : Z :=
  if (65 <=? c) && (c <=? 90) then c + 32 else c.
Definition lower (b : byte) : byte :=
  if (65 <=? u8 b) && (u8 b <=? 90) then to_u8 (u8 b + 32) else b.
Definition to_ascii_lowercase (s : str) : str := map lower s.
Definition eq_ignore_ascii_case (a b : str) : bool :=
  to_ascii_lowercase a ≟ to_ascii_lowercase b.

Definition is_ascii_digit (b : byte) : bool := (48 <=? u8 b) && (u8 b <=? 57).
Definition is_ascii_alphanumeric (b : byte) : bool :=
  is_ascii_digit b
  || ((65 <=? u8 b) && (u8 b <=? 90)) || ((97 <=? u8 b) && (u8 b <=? 122)).

(** * Prefixes, suffixes and splitting *)

Fixpoint strip_prefix (p s : str) : option str :=
  match p, s with
  | [], _ => Some s
  | a :: p, b :: s => if a ≟ b then strip_prefix p s else None
  | _ :: _, [] => None
  end.
Definition strip_suffix (p s : str) : option str :=
  option_map (@rev byte) (strip_prefix (rev p) (rev s)).
Definition starts_with (p s : str) : bool := bool_decide (is_Some (strip_prefix p s)).
Definition ends_with (p s : str) : bool := bool_decide (is_Some (strip_suffix p s)).
Definition contains_byte (c : byte) (s : str) : bool := existsb (fun b => b ≟ c) s.

(** [str::split] on an ASCII character: always at least one piece. *)
Fixpoint split (c : byte) (s : str) : list str :=
  match s with
  | [] => [[]]
  | b :: s =>
      if b ≟ c then [] :: split c s
      else match split c s with
           | [] => [[b]]
           | p :: ps => (b :: p) :: ps
           end
  end.

(** [str::split_once]: around the first separator. *)
Fixpoint split_once (c : byte) (s : str) : option (str * str) :=
  match s with
  | [] => None
  | b :: s =>
      if b ≟ c then Some ([], s)
      else match split_once c s with
           | Some (x, y) => Some (b :: x, y)
           | None => None
           end
  end.

(** [str::rsplit_once]: around the last separator. *)
Definition rsplit_once (c : byte) (s : str) : option (str * str) :=
  match split_once c (rev s) with
  | Some (x, y) => Some (rev y, rev x)
  | None => None
  end.

Fixpoint trim_start_matches (c : byte) (s : str) : str :=
  match s with
  | b :: s' => if b ≟ c then trim_start_matches c s' else s
  | [] => []
  end.
Definition trim_end_matches (c : byte) (s : str) : str :=
  rev (trim_start_matches c (rev s)).

(** * Lemmas *)

Lemma chars_ascii s : is_ascii s = true -> chars s = map u8 s.
Proof.
  induction s as [|b s IH]; simpl; intros H; [done|].
  apply andb_true_iff in H as [Hb Hs]. rewrite Hb. by rewrite IH.
Qed.

Lemma is_ascii_app a b : is_ascii (a ++ b) = is_ascii a && is_ascii b.
Proof. apply forallb_app. Qed.

Lemma lower_idem b : lower (lower b) = lower b.
Proof.
  unfold lower. destruct ((65 <=? u8 b) && (u8 b <=? 90)) eqn:E; [|by rewrite E].
  b2p. rewrite u8_to_u8, Z.mod_small by lia.
  replace (u8 b + 32 <=? 90) with false by (symmetry; apply Z.leb_gt; lia).
  by rewrite andb_false_r.
Qed.

Lemma to_ascii_lowercase_idem s :
  to_ascii_lowercase (to_ascii_lowercase s) = to_ascii_lowercase s.
Proof. unfold to_ascii_lowercase. rewrite map_map. apply map_ext, lower_idem. Qed.

Lemma length_to_ascii_lowercase s : length (to_ascii_lowercase s) = length s.
Proof. apply length_map. Qed.

Lemma strip_prefix_Some p s r : strip_prefix p s = Some r <-> s = p ++ r.
Proof.
  revert s; induction p as [|a p IH]; intros s; simpl; [split; congruence|].
  destruct s as [|b s]; simpl; [split; congruence|].
  case_bool_decide as Hab; subst.
  - rewrite IH. split; intros; simplify_eq; done.
  - split; intros; simplify_eq.
Qed.

Lemma strip_prefix_app p s : strip_prefix p (p ++ s) = Some s.
Proof. by apply strip_prefix_Some. Qed.

Lemma strip_suffix_Some p s r : strip_suffix p s = Some r <-> s = r ++ p.
Proof.
  unfold strip_suffix. split.
  - destruct (strip_prefix (rev p) (rev s)) as [q|] eqn:E; simpl; [|done].
    intros [= <-]. apply strip_prefix_Some in E.
    rewrite <-(rev_involutive s), E, rev_app_distr, rev_involutive. done.
  - intros ->. rewrite rev_app_distr, strip_prefix_app. simpl.
    by rewrite rev_involutive.
Qed.

Lemma split_not_nil c s : split c s <> [].
Proof. destruct s as [|b s]; simpl; [done|]. by repeat case_match. Qed.

(** Every piece of a split is free of the separator. *)
Lemma split_pieces c s : Forall (fun p => c ∉ p) (split c s).
Proof.
  induction s as [|b s IH]; simpl.
  { repeat constructor. apply not_elem_of_nil. }
  case_bool_decide as Hb; [constructor; [apply not_elem_of_nil|done]|].
  destruct (split c s) as [|p ps]; inversion IH; subst;
    constructor; try done; apply not_elem_of_cons; split; congruence || done || apply not_elem_of_nil.
Qed.

(** Gluing pieces back with the separator. *)
Fixpoint join (c : byte) (ps : list str) : str :=
  match ps with
  | [] => []
  | [p] => p
  | p :: ps => p ++ c :: join c ps
  end.

Lemma join_cons c p ps : ps <> [] -> join c (p :: ps) = p ++ c :: join c ps.
Proof. by destruct ps. Qed.

Lemma join_split c s : join c (split c s) = s.
Proof.
  induction s as [|b s IH]; [done|]. cbn [split].
  case_bool_decide as Hb.
  - subst. rewrite join_cons by apply split_not_nil. simpl. by rewrite IH.
  - destruct (split c s) as [|p ps] eqn:E; [by destruct (split_not_nil c s)|].
    destruct ps; simpl in *; by rewrite IH.
Qed.

Lemma split_app_sep c p s : c ∉ p -> split c (p ++ c :: s) = p :: split c s.
Proof.
  induction p as [|b p IH]; intros Hp; simpl.
  - by rewrite bool_decide_true.
  - apply not_elem_of_cons in Hp as [Hb Hp].
    rewrite bool_decide_false by congruence. by rewrite IH.
Qed.

Lemma split_no_sep c p : c ∉ p -> split c p = [p].
Proof.
  induction p as [|b p IH]; intros Hp; simpl; [done|].
  apply not_elem_of_cons in Hp as [Hb Hp].
  rewrite bool_decide_false by congruence. by rewrite IH.
Qed.

Lemma split_join c ps :
  ps <> [] -> Forall (fun p => c ∉ p) ps -> split c (join c ps) = ps.
Proof.
  induction ps as [|p ps IH]; intros Hne Hps; [done|].
  inversion_clear Hps. destruct (decide (ps = [])) as [->|Hps].
  - by apply split_no_sep.
  - rewrite join_cons, split_app_sep by done. by rewrite IH.
Qed.

Lemma split_once_Some c s x y :
  split_once c s = Some (x, y) <-> s = x ++ c :: y /\ c ∉ x.
Proof.
  revert x; induction s as [|b s IH]; intros x; simpl.
  - split; [done|]. intros [H _]. by destruct x.
  - case_bool_decide as Hb; subst.
    + split.
      * intros [= <- <-]. split; [done|apply not_elem_of_nil].
      * intros [H Hx]. destruct x as [|a x]; simplify_eq/=; [done|].
        apply not_elem_of_cons in Hx. naive_solver.
    + split.
      * destruct (split_once c s) as [[u v]|] eqn:E; [|done].
        intros [= <- <-]. destruct (proj1 (IH u) eq_refl) as [-> Hu].
        split; [done|]. apply not_elem_of_cons. naive_solver.
      * intros [H Hx]. destruct x as [|a x]; simplify_eq/=.
        apply not_elem_of_cons in Hx as [_ Hx].
        by rewrite (proj2 (IH x)) by done.
Qed.

Lemma split_once_None c s : split_once c s = None <-> c ∉ s.
Proof.
  induction s as [|b s IH]; simpl.
  - split; [intros _; apply not_elem_of_nil|done].
  - rewrite not_elem_of_cons. case_bool_decide as Hb; subst.
    + split; [done|]. intros [? _]; congruence.
    + rewrite <-IH. destruct (split_once c s) as [[u v]|]; split; intros; try done; naive_solver.
Qed.

Lemma contains_byte_true c s : contains_byte c s = true <-> c ∈ s.
Proof.
  unfold contains_byte. rewrite existsb_exists. split.
  - intros (b & Hin & Hb). apply bool_decide_eq_true in Hb as ->. by apply list_elem_of_In.
  - intros H. exists c. split; [by apply list_elem_of_In|]. by apply bool_decide_eq_true.
Qed.

Lemma split_one c s a : split c s = [a] <-> s = a /\ c ∉ a.
Proof.
  split.
  - intros E. pose proof (join_split c s) as J. pose proof (split_pieces c s) as F.
    rewrite E in J, F. simpl in J. split; [done|]. by inversion_clear F.
  - intros [-> H]. by apply split_no_sep.
Qed.

Lemma split_two c s a b : split c s = [a; b] <-> s = a ++ c :: b /\ c ∉ a /\ c ∉ b.
Proof.
  split.
  - intros E. pose proof (join_split c s) as J. pose proof (split_pieces c s) as F.
    rewrite E in J, F. simpl in J. apply Forall_cons in F as [Ha F].
    inversion_clear F. done.
  - intros (-> & Ha & Hb). by rewrite split_app_sep, split_no_sep.
Qed.

(** * Decimal numbers *)

(** [format!("{n}")] of an unsigned integer: no leading zero, no sign.  The fuel
    bounds the number of digits. *)
Fixpoint decimal_loop (fuel : nat) (n : Z) (acc : str) : str :=
  match fuel with
  | O => acc
  | S fuel =>
      let acc := to_u8 (48 + n mod 10) :: acc in
      if n <? 10 then acc else decimal_loop fuel (n / 10) acc
  end.
Definition decimal (n : Z) : str := decimal_loop (S (Z.to_nat (Z.log2 n))) n [].

Definition digits_value (s : str) : Z := be_val 10 0 (map (fun b => u8 b - 48) s).

(** [str::parse] to a [w]-bit unsigned integer: digits after an optional plus sign,
    an error on overflow.  The checked steps of the accumulation overflow exactly when
    the value does. *)
Definition parse_uint (w : Z) (s : str) : option Z :=
  let ds := match s with x2b :: ds => ds | _ => s end in
  if (ds ≟ []) || negb (forallb is_ascii_digit ds) then None
  else if digits_value ds <? 2 ^ w then Some (digits_value ds) else None.

Lemma decimal_loop_app fuel n acc : decimal_loop fuel n acc = decimal_loop fuel n [] ++ acc.
Proof.
  revert n acc; induction fuel as [|fuel IH]; intros n acc; [done|]. simpl.
  destruct (n <? 10); [done|]. rewrite IH, (IH _ [_]), <-(assoc_L (++)). done.
Qed.

Lemma u8_digit n : u8 (to_u8 (48 + n mod 10)) = 48 + n mod 10.
Proof. rewrite u8_to_u8. apply Z.mod_small. dlia. Qed.

Lemma decimal_loop_spec fuel : forall n,
  0 <= n < 2 ^ Z.of_nat fuel ->
  let s := decimal_loop fuel n [] in
  (fuel <> 0%nat -> s <> []) /\ forallb is_ascii_digit s = true /\ digits_value s = n.
Proof.
  induction fuel as [|fuel IH]; intros n Hn; cbv zeta.
  { change (2 ^ Z.of_nat 0) with 1 in Hn. split_and!; [done..|]. unfold digits_value. simpl. lia. }
  cbn [decimal_loop]. assert (is_ascii_digit (to_u8 (48 + n mod 10)) = true) as Hd.
  { unfold is_ascii_digit. rewrite u8_digit. apply andb_true_iff. rewrite !Z.leb_le. dlia. }
  destruct (n <? 10) eqn:E; b2p.
  - split; [done|]. cbn [forallb]. rewrite Hd. split; [done|]. unfold digits_value. cbn [map be_val].
    rewrite u8_digit. dlia.
  - destruct (IH (n / 10)) as (Hne & Hf & Hv).
    { replace (Z.of_nat (S fuel)) with (Z.succ (Z.of_nat fuel)) in Hn by lia.
      rewrite Z.pow_succ_r in Hn by lia. dlia. }
    rewrite decimal_loop_app. split; [intros _ H; by apply app_eq_nil in H as [_ ?]|].
    rewrite forallb_app, Hf. cbn [forallb]. rewrite Hd. split; [done|].
    unfold digits_value in *. rewrite map_app, be_val_app, Hv. cbn [map be_val]. rewrite u8_digit. dlia.
Qed.

(** A printed number is a non-empty string of digits that reads back as itself. *)
Lemma decimal_spec n :
  0 <= n -> decimal n <> [] /\ forallb is_ascii_digit (decimal n) = true /\ digits_value (decimal n) = n.
Proof.
  intros Hn. destruct (decimal_loop_spec (S (Z.to_nat (Z.log2 n))) n) as (H1 & H2 & H3).
  { split; [done|]. rewrite Nat2Z.inj_succ, Z2Nat.id by apply Z.log2_nonneg.
    destruct (Z.eq_dec n 0) as [->|]; [done|]. apply Z.log2_spec. lia. }
  unfold decimal. split_and!; [by apply H1|done..].
Qed.

Lemma parse_digits w s :
  s <> [] -> forallb is_ascii_digit s = true -> digits_value s < 2 ^ w ->
  parse_uint w s = Some (digits_value s).
Proof.
  intros Hne Hd Hw. unfold parse_uint.
  assert (match s with x2b :: ds => ds | _ => s end = s) as ->.
  { destruct s as [|b s]; [done|]. cbn [forallb] in Hd. destruct b; done. }
  rewrite bool_decide_false, Hd by done. cbn [orb negb]. destruct (digits_value s <? 2 ^ w) eqn:E; b2p; [done|lia].
Qed.

Lemma parse_decimal w n : 0 <= n < 2 ^ w -> parse_uint w (decimal n) = Some n.
Proof.
  intros [H0 Hw]. destruct (decimal_spec n H0) as (Hne & Hd & Hv).
  rewrite parse_digits by (rewrite ?Hv; done). by rewrite Hv.
Qed.

Lemma digits_nonneg s acc : 0 <= acc -> forallb is_ascii_digit s = true -> 0 <= be_val 10 acc (map (fun b => u8 b - 48) s).
Proof.
  revert acc. induction s as [|b s IH]; intros acc Ha H; [done|]. cbn [forallb map be_val] in *.
  apply andb_true_iff in H as [Hb H]. unfold is_ascii_digit in Hb. b2p. apply IH; [lia|done].
Qed.

Lemma parse_uint_range w s n : parse_uint w s = Some n -> in_uint w n.
Proof.
  unfold parse_uint. set (ds := match s with x2b :: _ => _ | _ => _ end). destruct (_ || _)%bool eqn:E; [done|].
  apply orb_false_iff in E as [_ E]. destruct (digits_value ds <? 2 ^ w) eqn:El; [|done]. intros [= <-]. b2p.
  split; [|done]. by apply digits_nonneg.
Qed.

Lemma decimal_inj m n : 0 <= m -> 0 <= n -> decimal m = decimal n -> m = n.
Proof.
  intros Hm Hn E. destruct (decimal_spec m Hm) as (_ & _ & <-), (decimal_spec n Hn) as (_ & _ & <-). by rewrite E.
Qed.

(** * Lines *)

Definition NL : byte := x0a.

(** [str::split_once] on a string pattern. *)
Fixpoint split_once_str (p s : str) : option (str * str) :=
  match strip_prefix p s with
  | Some r => Some ([], r)
  | None =>
      match s with
      | [] => None
      | b :: s => match split_once_str p s with Some (x, y) => Some (b :: x, y) | None => None end
      end
  end.

Definition strip_cr (s : str) : str := match strip_suffix [x0d] s with Some t => t | None => s end.

(** [str::lines]: the pieces between newlines, a carriage return before the newline dropped, and no empty last piece. *)
Fixpoint lines_of (pieces : list str) : list str :=
  match pieces with
  | [] => []
  | [last] => if last ≟ [] then [] else [last]
  | p :: ps => strip_cr p :: lines_of ps
  end.
Definition lines (s : str) : list str := lines_of (split NL s).

Lemma lines_app p s : NL ∉ p -> lines (p ++ NL :: s) = strip_cr p :: lines s.
Proof.
  intros Hp. unfold lines. rewrite split_app_sep by done. cbn [lines_of].
  destruct (split NL s) eqn:E; [by apply split_not_nil in E|done].
Qed.

Lemma lines_last p : NL ∉ p -> lines p = if p ≟ [] then [] else [p].
Proof. intros Hp. unfold lines. by rewrite split_no_sep. Qed.

Lemma strip_cr_id p : x0d ∉ p -> strip_cr p = p.
Proof.
  intros Hp. unfold strip_cr. destruct (strip_suffix [x0d] p) eqn:E; [|done].
  apply strip_suffix_Some in E as ->. set_solver.
Qed.

Lemma split_once_str_Some p s x y : split_once_str p s = Some (x, y) -> s = x ++ p ++ y.
Proof.
  revert x y. induction s as [|b s IH]; intros x y; cbn [split_once_str].
  - destruct (strip_prefix p []) eqn:E; [|done]. intros [= <- <-]. by apply strip_prefix_Some in E.
  - destruct (strip_prefix p (b :: s)) eqn:E; [intros [= <- <-]; by apply strip_prefix_Some in E|].
    destruct (split_once_str p s) as [[x' y']|]; [|done]. intros [= <- <-]. cbn. f_equal. by apply IH.
Qed.

(** The first blank line: a line that is not followed by one is skipped, and a line that is ends the search. *)
Lemma split_blank_skip p s : NL ∉ p -> (forall t, s <> NL :: t) ->
  split_once_str [NL; NL] (p ++ NL :: s) =
  match split_once_str [NL; NL] s with Some (x, y) => Some (p ++ NL :: x, y) | None => None end.
Proof.
  intros Hp Hs. induction p as [|b p IH]; cbn [app split_once_str strip_prefix].
  - rewrite bool_decide_true by done. destruct s as [|c s]; [done|].
    rewrite bool_decide_false by (intros <-; by apply (Hs s)). done.
  - rewrite bool_decide_false by set_solver. rewrite IH by set_solver. by destruct (split_once_str _ s) as [[??]|].
Qed.

Lemma split_blank_here p s : NL ∉ p -> split_once_str [NL; NL] (p ++ NL :: NL :: s) = Some (p, s).
Proof.
  intros Hp. induction p as [|b p IH]; cbn [app split_once_str strip_prefix].
  - by rewrite !bool_decide_true.
  - rewrite bool_decide_false by set_solver. by rewrite IH by set_solver.
Qed.

Lemma starts_with_true p s : starts_with p s = true <-> exists r, s = p ++ r.
Proof.
  unfold starts_with. rewrite bool_decide_eq_true. split.
  - intros [r Hr%strip_prefix_Some]. eauto.
  - intros [r ->]. exists r. apply strip_prefix_app.
Qed.

Lemma ends_with_true p s : ends_with p s = true <-> exists r, s = r ++ p.
Proof.
  unfold ends_with. rewrite bool_decide_eq_true. split.
  - intros [r Hr%strip_suffix_Some]. eauto.
  - intros [r ->]. exists r. by apply strip_suffix_Some.
Qed.

Lemma strip_prefix_mono p s t r : strip_prefix p s = Some r -> strip_prefix p (s ++ t) = Some (r ++ t).
Proof. rewrite !strip_prefix_Some. intros ->. by rewrite (assoc_L (++)). Qed.

(** Text after the part that was split does not move the first occurrence. *)
Lemma split_once_str_app p s x y t : split_once_str p s = Some (x, y) -> split_once_str p (s ++ t) = Some (x, y ++ t).
Proof.
  revert x. induction s as [|b s IH]; intros x H.
  - cbn [split_once_str] in H. destruct (strip_prefix p []) as [r|] eqn:E; [|done]. injection H as <- <-.
    apply strip_prefix_mono with (t := t) in E. destruct t; cbn [app split_once_str] in *; by rewrite E.
  - cbn [app split_once_str] in *. destruct (strip_prefix p (b :: s)) as [r|] eqn:E.
    + injection H as <- <-. apply strip_prefix_mono with (t := t) in E. cbn [app] in E. by rewrite E.
    + destruct (split_once_str p s) as [[x' y']|] eqn:Es; [|done]. injection H as <- <-. rewrite (IH x' eq_refl).
      destruct (strip_prefix p (b :: s ++ t)) as [r|] eqn:E'; [|done]. exfalso.
      apply split_once_str_Some in Es. apply strip_prefix_Some in E'. rewrite Es in E'.
      assert (length p <= length (b :: s))%nat as Hl by (rewrite Es; cbn; rewrite !length_app; lia).
      assert (take (length p) (b :: s) = p) as Hp.
      { rewrite <-(take_app_le (b :: s) t) by done. cbn [app]. rewrite Es, E'. by rewrite take_app_length. }
      rewrite <-(take_drop (length p) (b :: s)), Hp, strip_prefix_app in E. done.
Qed.

(** Lines up to a newline, then the rest. *)
Lemma lines_app_nl a b : lines (a ++ NL :: b) = lines (a ++ [NL]) ++ lines b.
Proof.
  induction a as [a IH] using (well_founded_induction (well_founded_ltof _ length)). unfold ltof in IH.
  destruct (split_once NL a) as [[p r]|] eqn:E.
  - apply split_once_Some in E as [-> Hp]. rewrite <-!(assoc_L (++)). cbn [app]. rewrite lines_app by done.
    rewrite (lines_app p (r ++ [NL])) by done. cbn [app]. f_equal. apply IH. rewrite length_app. cbn. lia.
  - apply split_once_None in E. rewrite lines_app, (lines_app a []) by done. done.
Qed.
