(* ===== verification/B32.v ===== *)
(** Crockford base32, lowercase, no padding: [pigeonpost-core/src/b32.rs] and the
    error type of [pigeonpost-core/src/error.rs].  The encoder and the decoder
    keep their [u16] accumulator and [u8] bit count as in the code. *)
From S2P Require Import Prelude Text.

(** * The core crate's error type *)

Inductive Error :=
| MalformedAddress (why : string)
| InvalidBase32
| InvalidKey
| BadSignature
| DecryptionFailed
| MalformedEnvelope (why : string)
| SenderMismatch
| SuccessorMismatch
| StaleSequence
| InsufficientWork
| TooLarge
| StaleTimestamp.

#[global] Instance Error_eq_dec : EqDecision Error.
Proof. solve_decision. Defined.

(** * The codec *)

Definition ALPHABET : bytes := lit "0123456789abcdefghjkmnpqrstvwxyz".
Definition alphabet (index : Z) : byte := nth (Z.to_nat index) ALPHABET Byte.x00.

(** The inner loop [while bits >= 5]; [bits] itself bounds its iterations. *)
Fixpoint encode_drain (fuel : nat) (buffer bits : Z) (out : str) : Z * str :=
  match fuel with
  | O => (bits, out)
  | S fuel =>
      if 5 <=? bits then
        let bits := bits - 5 in
        let index := Z.land (Z.shiftr buffer bits) 0x1f in
        encode_drain fuel buffer bits (out ++ [alphabet index])
      else (bits, out)
  end.

Definition encode_step (st : Z * Z * str) (b : byte) : Z * Z * str :=
  let '(buffer, bits, out) := st in
  let buffer := Z.lor (wrap 16 (Z.shiftl buffer 8)) (u8 b) in
  let bits := bits + 8 in
  let '(bits, out) := encode_drain (Z.to_nat bits) buffer bits out in
  (buffer, bits, out).

Definition encode (input : bytes) : str :=
  let '(buffer, bits, out) := fold_left encode_step input (0, 0, []) in
  if 0 <? bits then
    let index := Z.land (wrap 16 (Z.shiftl buffer (5 - bits))) 0x1f in
    out ++ [alphabet index]
  else out.

Definition decode_char (ch : Z) : result Error Z :=
  let lower := char_to_ascii_lowercase ch in
  let between a b := (u8 a <=? lower) && (lower <=? u8 b) in
  let same a := lower =? u8 a in
  if same "0"%byte || same "o"%byte then Ok 0
  else if same "1"%byte || same "i"%byte || same "l"%byte then Ok 1
  else if between "2"%byte "9"%byte then Ok (lower - u8 "0"%byte)
  else if between "a"%byte "h"%byte then Ok (lower - u8 "a"%byte + 10)
  else if same "j"%byte || same "k"%byte then Ok (lower - u8 "a"%byte + 9)
  else if same "m"%byte || same "n"%byte then Ok (lower - u8 "a"%byte + 8)
  else if between "p"%byte "t"%byte then Ok (lower - u8 "a"%byte + 7)
  else if between "v"%byte "z"%byte then Ok (lower - u8 "a"%byte + 6)
  else Err InvalidBase32.

Fixpoint decode_loop (buffer bits : Z) (out : bytes) (cs : list Z) : result Error bytes :=
  match cs with
  | [] => Ok out
  | ch :: cs =>
      value ← decode_char ch;
      let buffer := Z.lor (wrap 16 (Z.shiftl buffer 5)) value in
      let bits := bits + 5 in
      if 8 <=? bits then
        let bits := bits - 8 in
        decode_loop buffer bits (out ++ [to_u8 (Z.land (Z.shiftr buffer bits) 0xff)]) cs
      else decode_loop buffer bits out cs
  end.

Definition decode (input : str) : result Error bytes := decode_loop 0 0 [] (chars input).

(** * Correctness

    Both loops are read as positional arithmetic: what has been emitted, followed
    by the low [bits] bits of the accumulator, is the big-endian value of what has
    been consumed. *)

Definition five (d : Z) : Prop := 0 <= d < 32.
Definition eight (d : Z) : Prop := 0 <= d < 256.

Lemma alphabet_decode d : five d -> decode_char (u8 (alphabet d)) = Ok d.
Proof.
  intros [H0 H1]. assert (In d (map Z.of_nat (seq 0 32))) as Hin.
  { apply in_map_iff. exists (Z.to_nat d). split; [lia|]. apply in_seq. lia. }
  clear H0 H1. simpl in Hin. repeat (destruct Hin as [<-|Hin]; [reflexivity|]). done.
Qed.

Lemma alphabet_ascii d : u8 (alphabet d) < 128.
Proof.
  unfold alphabet. destruct (Nat.lt_ge_cases (Z.to_nat d) (length ALPHABET)) as [H|H].
  - apply (Forall_forall (fun b => u8 b < 128) ALPHABET).
    + apply Forall_forall. intros x Hx. apply list_elem_of_In in Hx.
      apply Z.ltb_lt. revert x Hx. apply (forallb_forall _ ALPHABET). reflexivity.
    + apply list_elem_of_In, nth_In, H.
  - rewrite nth_overflow by done. reflexivity.
Qed.

Lemma is_ascii_alphabet ds : is_ascii (map alphabet ds) = true.
Proof.
  unfold is_ascii. apply forallb_forall. intros b Hb. apply in_map_iff in Hb as (d & <- & _).
  apply Z.ltb_lt, alphabet_ascii.
Qed.

Lemma decode_char_range c d : decode_char c = Ok d -> five d.
Proof.
  unfold decode_char, five. generalize (char_to_ascii_lowercase c) as k. intros k. u8_consts.
  repeat case_match; intros; simplify_eq; try lia;
    repeat match goal with H : (_ || _)%bool = true |- _ => apply orb_true_iff in H as [H|H] end;
    b2p; lia.
Qed.

(** The low [w + k] bits are a [k]-bit digit followed by the low [w] bits. *)
Lemma low_bits_split x w k :
  0 <= w -> 0 <= k -> x mod 2 ^ (w + k) = ((x / 2 ^ w) mod 2 ^ k) * 2 ^ w + x mod 2 ^ w.
Proof. intros. rewrite Z.pow_add_r, Z.rem_mul_r by lia. lia. Qed.

Lemma encode_drain_spec fuel : forall buffer bits out v,
  0 <= bits -> (Z.to_nat bits <= fuel)%nat ->
  exists ds bits',
    encode_drain fuel buffer bits out = (bits', out ++ map alphabet ds) /\
    0 <= bits' < 5 /\ 5 * Z.of_nat (length ds) + bits' = bits /\ Forall five ds /\
    be_val 32 v ds * 2 ^ bits' + buffer mod 2 ^ bits' = v * 2 ^ bits + buffer mod 2 ^ bits.
Proof.
  induction fuel as [|fuel IH]; intros buffer bits out v Hb Hf; simpl.
  { exists [], bits. assert (bits = 0) as -> by lia. simpl. rewrite app_nil_r. repeat split; try lia. done. }
  destruct (5 <=? bits) eqn:E; b2p.
  2:{ exists [], bits. simpl. rewrite app_nil_r. repeat split; try lia. done. }
  change 0x1f with (Z.ones 5). rewrite shiftr_land_ones by lia.
  set (d := (buffer / 2 ^ (bits - 5)) mod 2 ^ 5).
  assert (five d) as Hd. { by apply Z.mod_pos_bound. }
  destruct (IH buffer (bits - 5) (out ++ [alphabet d]) (v * 32 + d) ltac:(lia) ltac:(lia))
    as (ds & b' & -> & Hb' & Hlen & Hds & Hval).
  exists (d :: ds), b'. rewrite <-app_assoc. simpl. repeat split; try lia.
  { by constructor. }
  rewrite Hval. pose proof (low_bits_split buffer (bits - 5) 5 ltac:(lia) ltac:(lia)) as Hs.
  fold d in Hs. replace (bits - 5 + 5) with bits in Hs by lia. rewrite Hs.
  replace (2 ^ bits) with (2 ^ (bits - 5) * 32) by (rewrite <-(Z.pow_add_r 2 _ 5) by lia; f_equal; lia).
  lia.
Qed.

(** The encoder's invariant after [seen] has been consumed. *)
Definition encode_inv (seen : bytes) (st : Z * Z * str) : Prop :=
  let '(buffer, bits, out) := st in
  exists ds, out = map alphabet ds /\ Forall five ds /\ 0 <= bits < 5 /\
    5 * Z.of_nat (length ds) + bits = 8 * Z.of_nat (length seen) /\
    be_val 256 0 (map u8 seen) = be_val 32 0 ds * 2 ^ bits + buffer mod 2 ^ bits.

Lemma encode_step_inv seen st b :
  encode_inv seen st -> encode_inv (seen ++ [b]) (encode_step st b).
Proof.
  destruct st as [[buffer bits] out]. intros (ds & -> & Hds & Hbits & Hlen & Hval).
  unfold encode_step. set (buf := Z.lor _ _).
  assert (buf mod 2 ^ (bits + 8) = (buffer mod 2 ^ bits) * 256 + u8 b) as Hbuf.
  { unfold buf. pose proof (u8_range b).
    replace (wrap 16 (Z.shiftl buffer 8)) with (Z.shiftl (buffer mod 2 ^ 8) 8).
    2:{ unfold wrap. rewrite !Z.shiftl_mul_pow2 by lia.
        change (2 ^ 16) with (2 ^ 8 * 2 ^ 8). by rewrite Zmult_mod_distr_r. }
    rewrite lor_shiftl_add by lia. rewrite (Z.add_comm bits 8), (low_bits_split _ 8 bits) by lia.
    rewrite Z.div_add_l, (Z.div_small (u8 b)), Z.add_0_r by lia.
    rewrite (Z.add_comm _ (u8 b)), Z.mod_add, (Z.mod_small (u8 b)) by lia.
    change (buffer mod 2 ^ 8) with (wrap 8 buffer). rewrite mod_wrap by lia. done. }
  destruct (encode_drain_spec (Z.to_nat (bits + 8)) buf (bits + 8) (map alphabet ds) (be_val 32 0 ds)
              ltac:(lia) ltac:(lia)) as (ds' & b' & -> & Hb' & Hlen' & Hds' & Hval').
  exists (ds ++ ds'). rewrite map_app, !length_app. repeat split; try lia.
  - by apply Forall_app.
  - simpl. lia.
  - rewrite map_app, !be_val_app, Hval'. simpl. rewrite Hval, Hbuf, Z.pow_add_r by lia. lia.
Qed.

Lemma encode_fold_inv input seen st :
  encode_inv seen st -> encode_inv (seen ++ input) (fold_left encode_step input st).
Proof.
  revert seen st; induction input as [|b input IH]; intros seen st H; simpl.
  - by rewrite app_nil_r.
  - rewrite (cons_middle b seen input), app_assoc. by apply IH, encode_step_inv.
Qed.

(** What the encoder emits: base-32 digits of the input, zero-padded on the right
    to a whole number of digits. *)
Lemma encode_digits input :
  exists ds pad, encode input = map alphabet ds /\ Forall five ds /\ 0 <= pad < 5 /\
    5 * Z.of_nat (length ds) = 8 * Z.of_nat (length input) + pad /\
    be_val 32 0 ds = be_val 256 0 (map u8 input) * 2 ^ pad.
Proof.
  unfold encode. pose proof (encode_fold_inv input [] (0, 0, [])) as Hinv.
  destruct (fold_left _ _ _) as [[buffer bits] out].
  destruct Hinv as (ds & -> & Hds & Hbits & Hlen & Hval).
  { exists []. simpl. repeat split; try lia. constructor. }
  simpl in Hlen, Hval. destruct (0 <? bits) eqn:E; b2p.
  2:{ exists ds, 0. assert (bits = 0) as -> by lia. rewrite Z.mod_1_r in Hval.
      repeat split; try done; lia. }
  set (d := Z.land _ _).
  assert (d = (buffer mod 2 ^ bits) * 2 ^ (5 - bits)) as Hd.
  { unfold d. change 0x1f with (Z.ones 5). rewrite Z.land_ones, mod_wrap by lia.
    rewrite Z.shiftl_mul_pow2 by lia. replace (2 ^ 5) with (2 ^ bits * 2 ^ (5 - bits)).
    - by rewrite Zmult_mod_distr_r.
    - rewrite <-Z.pow_add_r by lia. f_equal; lia. }
  exists (ds ++ [d]), (5 - bits). rewrite map_app, length_app, be_val_app. simpl.
  assert (2 ^ bits * 2 ^ (5 - bits) = 32) as Hp.
  { rewrite <-Z.pow_add_r by lia. replace (bits + (5 - bits)) with 5 by lia. done. }
  pose proof (Z.mod_pos_bound buffer (2 ^ bits) ltac:(lia)).
  repeat split; try lia.
  - apply Forall_app. split; [done|]. repeat constructor; nia.
  - rewrite Hval, Hd, Z.mul_add_distr_r, <-Z.mul_assoc, Hp. done.
Qed.

(** The decoder's loop on the characters of a digit string, from any state whose
    accumulator agrees with what has been consumed. *)
Lemma decode_loop_digits ds : forall buffer bits out,
  Forall five ds -> 0 <= bits < 8 ->
  exists es bits' buffer',
    decode_loop buffer bits out (map u8 (map alphabet ds)) = Ok (out ++ map to_u8 es) /\
    Forall eight es /\ 0 <= bits' < 8 /\
    8 * Z.of_nat (length es) + bits' = 5 * Z.of_nat (length ds) + bits /\
    forall v, be_val 256 v es * 2 ^ bits' + buffer' mod 2 ^ bits'
      = be_val 32 (v * 2 ^ bits + buffer mod 2 ^ bits) ds.
Proof.
  induction ds as [|d ds IH]; intros buffer bits out Hds Hb; simpl.
  { exists [], bits, buffer. rewrite app_nil_r. simpl. repeat split; try lia. constructor. }
  inversion_clear Hds as [|? ? Hd Hds']. rewrite alphabet_decode by done. simpl.
  set (buf := Z.lor _ _).
  assert (forall k, 0 <= k <= 8 -> buf mod 2 ^ (k + 5) = (buffer mod 2 ^ k) * 32 + d) as Hbuf.
  { intros k Hk. unfold buf, five in *.
    replace (wrap 16 (Z.shiftl buffer 5)) with (Z.shiftl (buffer mod 2 ^ 11) 5).
    2:{ unfold wrap. rewrite !Z.shiftl_mul_pow2 by lia.
        change (2 ^ 16) with (2 ^ 11 * 2 ^ 5). by rewrite Zmult_mod_distr_r. }
    rewrite lor_shiftl_add by lia. rewrite (Z.add_comm k 5), (low_bits_split _ 5 k) by lia.
    rewrite Z.div_add_l, (Z.div_small d), Z.add_0_r by lia.
    rewrite (Z.add_comm _ d), Z.mod_add, (Z.mod_small d) by lia.
    change (buffer mod 2 ^ 11) with (wrap 11 buffer). rewrite mod_wrap by lia. done. }
  destruct (8 <=? bits + 5) eqn:E; b2p.
  - change 0xff with (Z.ones 8). rewrite shiftr_land_ones by lia.
    set (e := (buf / 2 ^ (bits + 5 - 8)) mod 2 ^ 8).
    assert (eight e) as He by (by apply Z.mod_pos_bound).
    destruct (IH buf (bits + 5 - 8) (out ++ [to_u8 e]) Hds' ltac:(lia))
      as (es & b' & buf' & -> & Hes & Hb' & Hlen & Hval).
    exists (e :: es), b', buf'. rewrite <-app_assoc. simpl. repeat split; try lia.
    { by constructor. }
    intros v. rewrite Hval. f_equal.
    pose proof (Hbuf bits ltac:(lia)) as H1.
    replace (bits + 5) with (bits + 5 - 8 + 8) in H1 by lia.
    rewrite (low_bits_split _ _ 8) in H1 by lia. fold e in H1.
    assert (2 ^ bits * 32 = 256 * 2 ^ (bits + 5 - 8)) as Hp.
    { change 256 with (2 ^ 8). change 32 with (2 ^ 5).
      rewrite <-!Z.pow_add_r by lia. f_equal; lia. }
    transitivity (v * (256 * 2 ^ (bits + 5 - 8)) + (e * 2 ^ (bits + 5 - 8) + buf mod 2 ^ (bits + 5 - 8)));
      [ring|]. rewrite H1, <-Hp. ring.
  - destruct (IH buf (bits + 5) out Hds' ltac:(lia))
      as (es & b' & buf' & -> & Hes & Hb' & Hlen & Hval).
    exists es, b', buf'. repeat split; try lia; [done|].
    intros v. rewrite Hval. f_equal. rewrite Hbuf, Z.pow_add_r by lia. lia.
Qed.

Lemma map_to_u8_inv es input :
  Forall eight es -> es = map u8 input -> map to_u8 es = input.
Proof.
  intros _ ->. rewrite map_map. rewrite <-(map_id input) at 2. apply map_ext, to_u8_u8.
Qed.

(** [decode] inverts [encode] exactly: no byte is lost and the padding bits never
    surface as a further byte. *)
Lemma decode_encode_ok input : decode (encode input) = Ok input.
Proof.
  destruct (encode_digits input) as (ds & pad & -> & Hds & Hpad & Hlen & Hval).
  unfold decode. rewrite chars_ascii by apply is_ascii_alphabet.
  destruct (decode_loop_digits ds 0 0 [] Hds ltac:(lia))
    as (es & bits & buf & -> & Hes & Hbits & Hlen' & Hval').
  simpl. f_equal. apply map_to_u8_inv; [done|].
  assert (length es = length input /\ bits = pad) as [Hl ->] by lia.
  specialize (Hval' 0). change (0 * 2 ^ 0 + 0 mod 2 ^ 0) with 0 in Hval'. rewrite Hval in Hval'.
  pose proof (Z.mod_pos_bound buf (2 ^ pad) ltac:(lia)).
  assert (Forall eight (map u8 input)) as Hin.
  { apply Forall_forall. intros z Hz. apply list_elem_of_In, in_map_iff in Hz as (b & <- & _).
    apply u8_range. }
  destruct (be_val_inj 256 0 0 es (map u8 input)) as [_ ->]; try done; [by rewrite length_map|].
  nia.
Qed.

Lemma length_encode input :
  Z.of_nat (length (encode input)) = (8 * Z.of_nat (length input) + 4) / 5.
Proof.
  destruct (encode_digits input) as (ds & pad & -> & _ & Hpad & Hlen & _).
  rewrite length_map. apply Z.div_unique with (4 - pad); lia.
Qed.

(** The base-32 text of a byte string reads back to exactly those bytes, whatever its length, and is as
    short as five bits per character allow. *)
Theorem b32_roundtrip (input : bytes) :
  decode (encode input) = Ok input /\
  5 * Z.of_nat (length (encode input)) - 8 * Z.of_nat (length input) < 5 /\
  8 * Z.of_nat (length input) <= 5 * Z.of_nat (length (encode input)).
Proof. rewrite length_encode. split; [apply decode_encode_ok|dlia]. Qed.
