(* ===== verification/Network.v ===== *)
(** Network-address classification: [pigeonpost-core/src/network.rs], with the part
    of the standard library's address parser ([core::net::parser]) the code calls
    through [str::parse::<IpAddr>]. *)
From S2P Require Import Prelude Text.

(** * Addresses *)

Record Ipv4Addr := V4Addr { o0 : byte; o1 : byte; o2 : byte; o3 : byte }.

(** The eight 16-bit segments of an [Ipv6Addr]. *)
Record Ipv6Addr := V6Addr { segments : vec Z 8 }.

Inductive IpAddr := V4 (a : Ipv4Addr) | V6 (a : Ipv6Addr).

#[global] Instance Ipv4Addr_eq_dec : EqDecision Ipv4Addr.
Proof. solve_decision. Defined.

Definition seg (a : Ipv6Addr) (i : nat) : Z := nth i (vec_to_list (segments a)) 0.

Definition is_unspecified (a : Ipv6Addr) : bool := vec_to_list (segments a) ≟ [0; 0; 0; 0; 0; 0; 0; 0].
Definition v6_is_loopback (a : Ipv6Addr) : bool := vec_to_list (segments a) ≟ [0; 0; 0; 0; 0; 0; 0; 1].
Definition is_multicast (a : Ipv6Addr) : bool := Z.land (seg a 0) 0xff00 =? 0xff00.
Definition is_loopback (a : IpAddr) : bool :=
  match a with V4 a => u8 (o0 a) =? 127 | V6 a => v6_is_loopback a end.

(** [Ipv6Addr::to_ipv4_mapped]: [::ffff:a.b.c.d]. *)
Definition to_ipv4_mapped (a : Ipv6Addr) : option Ipv4Addr :=
  match vec_to_list (segments a) with
  | [0; 0; 0; 0; 0; 0xffff; ab; cd] =>
      Some (V4Addr (to_u8 (ab / 256)) (to_u8 ab) (to_u8 (cd / 256)) (to_u8 cd))
  | _ => None
  end.

(** * Classification *)

Definition is_public_ipv4 (address : Ipv4Addr) : bool :=
  let a := u8 (o0 address) in
  let b := u8 (o1 address) in
  let c := u8 (o2 address) in
  negb ((a =? 0)
    || (a =? 10)
    || (a =? 127)
    || ((a =? 100) && ((64 <=? b) && (b <=? 127)))
    || ((a =? 169) && (b =? 254))
    || ((a =? 172) && ((16 <=? b) && (b <=? 31)))
    || ((a =? 192) && (b =? 0) && (c =? 0))
    || ((a =? 192) && (b =? 0) && (c =? 2))
    || ((a =? 192) && (b =? 88) && (c =? 99))
    || ((a =? 192) && (b =? 168))
    || ((a =? 198) && ((b =? 18) || (b =? 19)))
    || ((a =? 198) && (b =? 51) && (c =? 100))
    || ((a =? 203) && (b =? 0) && (c =? 113))
    || (224 <=? a)).

Definition is_public_ipv6 (address : Ipv6Addr) : bool :=
  let s0 := seg address 0 in
  let s1 := seg address 1 in
  let s2 := seg address 2 in
  negb (is_unspecified address
    || v6_is_loopback address
    || is_multicast address
    || negb (Z.land s0 0xe000 =? 0x2000)
    || ((s0 =? 0x2001) && (s1 =? 0x0000))
    || ((s0 =? 0x2001) && (s1 =? 0x0002))
    || ((s0 =? 0x2001) && (s1 =? 0x0db8))
    || ((s0 =? 0x2001) && (Z.land s1 0xfff0 =? 0x0010))
    || ((s0 =? 0x2001) && (Z.land s1 0xfff0 =? 0x0020))
    || ((s0 =? 0x3fff) && (Z.land s1 0xf000 =? 0))
    || ((s0 =? 0x2002)
        && negb (is_public_ipv4
             (V4Addr (to_u8 (Z.shiftr s1 8)) (to_u8 s1) (to_u8 (Z.shiftr s2 8)) (to_u8 s2))))).

Definition is_public_network_address (address : IpAddr) : bool :=
  match address with
  | V4 address => is_public_ipv4 address
  | V6 address =>
      match to_ipv4_mapped address with
      | Some mapped => is_public_ipv4 mapped
      | None => is_public_ipv6 address
      end
  end.

(** * The standard library's address parser

    Each reader takes the remaining input and returns its value with the rest. *)

Definition hex_digit (b : byte) : option Z :=
  let c := u8 b in
  if (48 <=? c) && (c <=? 57) then Some (c - 48)
  else if (97 <=? c) && (c <=? 102) then Some (c - 87)
  else if (65 <=? c) && (c <=? 70) then Some (c - 55)
  else None.

(** [char::to_digit] for the radices 10 and 16. *)
Definition to_digit (radix : Z) (b : byte) : option Z :=
  match hex_digit b with
  | Some d => if d <? radix then Some d else None
  | None => None
  end.

(** The digit loop of [read_number] with [max_digits = Some(max)]. *)
Fixpoint read_digits (radix : Z) (max : nat) (acc : Z) (count : nat) (s : str) : option (Z * nat * str) :=
  match s with
  | [] => Some (acc, count, s)
  | b :: s' =>
      match to_digit radix b with
      | Some d =>
          if (max <? S count)%nat then None
          else read_digits radix max (acc * radix + d) (S count) s'
      | None => Some (acc, count, s)
      end
  end.

Definition read_number (radix : Z) (max : nat) (limit : Z) (allow_zero_prefix : bool) (s : str)
  : option (Z * str) :=
  let has_leading_zero := match s with b :: _ => b ≟ "0"%byte | [] => false end in
  match read_digits radix max 0 0 s with
  | Some (v, count, rest) =>
      if (count =? 0)%nat then None
      else if negb allow_zero_prefix && has_leading_zero && (1 <? count)%nat then None
      else if v <? limit then Some (v, rest) else None
  | None => None
  end.

Definition read_given_char (c : byte) (s : str) : option str :=
  match s with b :: s' => if b ≟ c then Some s' else None | [] => None end.

(** [read_separator(sep, index, inner)]: the separator is read before every item
    but the first. *)
Definition read_separator {A} (sep : byte) (index : nat) (inner : str -> option (A * str)) (s : str)
  : option (A * str) :=
  match index with
  | O => inner s
  | S _ => s' ← read_given_char sep s; inner s'
  end.

Definition read_ipv4_addr (s : str) : option (Ipv4Addr * str) :=
  let octet i := read_separator "."%byte i (read_number 10 3 256 false) in
  '(a, s) ← octet 0%nat s;
  '(b, s) ← octet 1%nat s;
  '(c, s) ← octet 2%nat s;
  '(d, s) ← octet 3%nat s;
  Some (V4Addr (to_u8 a) (to_u8 b) (to_u8 c) (to_u8 d), s).

(** [read_groups] over a slice of [limit] slots, from slot [i]: the groups read, and
    whether they end in an embedded IPv4 address. *)
Fixpoint read_groups (todo : nat) (limit i : nat) (s : str) : list Z * bool * str :=
  match todo with
  | O => ([], false, s)
  | S todo =>
      let plain :=
        match read_separator ":"%byte i (read_number 16 4 65536 true) s with
        | Some (g, s') =>
            let '(gs, v4, rest) := read_groups todo limit (S i) s' in (g :: gs, v4, rest)
        | None => ([], false, s)
        end in
      if (i <? limit - 1)%nat then
        match read_separator ":"%byte i read_ipv4_addr s with
        | Some (a, s') =>
            ([u8 (o0 a) * 256 + u8 (o1 a); u8 (o2 a) * 256 + u8 (o3 a)], true, s')
        | None => plain
        end
      else plain
  end.

Definition to_segments (gs : list Z) : vec Z 8 :=
  [# nth 0 gs 0; nth 1 gs 0; nth 2 gs 0; nth 3 gs 0; nth 4 gs 0; nth 5 gs 0; nth 6 gs 0; nth 7 gs 0].

Definition read_ipv6_addr (s : str) : option (Ipv6Addr * str) :=
  let '(head, head_ipv4, s) := read_groups 8 8 0 s in
  if (length head =? 8)%nat then Some (V6Addr (to_segments head), s)
  else if head_ipv4 then None
  else
    s ← read_given_char ":"%byte s;
    s ← read_given_char ":"%byte s;
    let limit := (8 - (length head + 1))%nat in
    let '(tail, _, s) := read_groups limit limit 0 s in
    let gap := (8 - length tail - length head)%nat in
    Some (V6Addr (to_segments (head ++ repeat 0 gap ++ tail)), s).

(** [str::parse::<IpAddr>]. *)
Definition parse_ip (s : str) : option IpAddr :=
  let result :=
    match read_ipv4_addr s with
    | Some (a, rest) => Some (V4 a, rest)
    | None => '(a, rest) ← read_ipv6_addr s; Some (V6 a, rest)
    end in
  match result with
  | Some (a, []) => Some a
  | _ => None
  end.

(** * Hosts *)

Definition is_numeric_loopback_host (host : str) : bool :=
  let candidate :=
    match strip_prefix (lit "[") host ≫= strip_suffix (lit "]") with
    | Some inner => inner
    | None => host
    end in
  match parse_ip candidate with
  | Some address => is_loopback address
  | None => false
  end.

Definition is_localhost_name (host : str) : bool :=
  let candidate := trim_end_matches "."%byte host in
  eq_ignore_ascii_case candidate (lit "localhost")
  || match rsplit_once "."%byte candidate with
     | Some (_, suffix) => eq_ignore_ascii_case suffix (lit "localhost")
     | None => false
     end.

(** * The published conformance vectors *)

Definition NETWORK_ADDRESS_VECTORS : list (string * bool) :=
  [ ("0.0.0.0", false);
    ("10.0.0.1", false);
    ("100.64.0.1", false);
    ("127.0.0.1", false);
    ("169.254.169.254", false);
    ("172.16.0.1", false);
    ("192.0.0.1", false);
    ("192.0.2.1", false);
    ("192.88.99.1", false);
    ("192.168.0.1", false);
    ("198.18.0.1", false);
    ("198.51.100.1", false);
    ("203.0.113.1", false);
    ("224.0.0.1", false);
    ("240.0.0.1", false);
    ("255.255.255.255", false);
    ("8.8.8.8", true);
    ("93.184.216.34", true);
    ("::", false);
    ("::1", false);
    ("::ffff:127.0.0.1", false);
    ("::ffff:8.8.8.8", true);
    ("64:ff9b::808:808", false);
    ("100::1", false);
    ("2001::1", false);
    ("2001:2::1", false);
    ("2001:db8::1", false);
    ("2001:10::1", false);
    ("2001:20::1", false);
    ("2002:0a00:0001::1", false);
    ("2002:0808:0808::1", true);
    ("3fff::1", false);
    ("4000::1", false);
    ("5f00::1", false);
    ("fc00::1", false);
    ("fe80::1", false);
    ("fec0::1", false);
    ("2001:4860:4860::8888", true);
    ("2606:4700:4700::1111", true) ]%string.

(** * Correctness *)

(** The classifier agrees with every published vector, through the address parser. *)
Lemma vectors_classified :
  forallb (fun '(s, public) =>
    match parse_ip (lit s) with
    | Some a => Bool.eqb (is_public_network_address a) public
    | None => false
    end) NETWORK_ADDRESS_VECTORS = true.
Proof. vm_compute. reflexivity. Qed.

(** The reference: an address as one number, and CIDR blocks [base/len]. *)
Definition v4_num (a : Ipv4Addr) : Z :=
  u8 (o0 a) * 2 ^ 24 + u8 (o1 a) * 2 ^ 16 + u8 (o2 a) * 2 ^ 8 + u8 (o3 a).
Definition dotted (a b c d : Z) : Z := a * 2 ^ 24 + b * 2 ^ 16 + c * 2 ^ 8 + d.
Definition in_cidr (w : Z) (n : Z) (block : Z * Z) : bool :=
  let '(base, len) := block in n / 2 ^ (w - len) =? base / 2 ^ (w - len).

(** The IANA special-purpose IPv4 blocks, multicast and class E space included. *)
Definition special_v4 : list (Z * Z) :=
  [ (dotted 0 0 0 0, 8); (dotted 10 0 0 0, 8); (dotted 127 0 0 0, 8);
    (dotted 100 64 0 0, 10); (dotted 169 254 0 0, 16); (dotted 172 16 0 0, 12);
    (dotted 192 0 0 0, 24); (dotted 192 0 2 0, 24); (dotted 192 88 99 0, 24);
    (dotted 192 168 0 0, 16); (dotted 198 18 0 0, 15); (dotted 198 51 100 0, 24);
    (dotted 203 0 113 0, 24); (dotted 224 0 0 0, 3) ].

Definition v6_num (a : Ipv6Addr) : Z := be_val 65536 0 (vec_to_list (segments a)).
Definition wf_v6 (a : Ipv6Addr) : Prop := Forall (in_uint 16) (vec_to_list (segments a)).

(** The blocks inside [2000::/3] that are not routable; [2002::/16] is decided by the
    IPv4 address it embeds. *)
Definition special_v6 : list (Z * Z) :=
  [ (0x2001 * 2 ^ 112, 32); (0x2001 * 2 ^ 112 + 0x2 * 2 ^ 96, 32);
    (0x2001 * 2 ^ 112 + 0xdb8 * 2 ^ 96, 32); (0x2001 * 2 ^ 112 + 0x10 * 2 ^ 96, 28);
    (0x2001 * 2 ^ 112 + 0x20 * 2 ^ 96, 28); (0x3fff * 2 ^ 112, 20) ].

Lemma existsb_orb {A} (f : A -> bool) x l : existsb f (x :: l) = f x || existsb f l.
Proof. done. Qed.

Lemma v4_blocks a : is_public_ipv4 a = negb (existsb (in_cidr 32 (v4_num a)) special_v4).
Proof.
  destruct a as [a b c d]. unfold is_public_ipv4, v4_num, special_v4, in_cidr, dotted.
  cbn [o0 o1 o2 o3]. f_equal.
  pose proof (u8_range a); pose proof (u8_range b); pose proof (u8_range c); pose proof (u8_range d).
  generalize dependent (u8 a); generalize dependent (u8 b);
    generalize dependent (u8 c); generalize dependent (u8 d). clear a b c d.
  intros d Hd c Hc b Hb a Ha. rewrite !existsb_orb. cbn [existsb]. rewrite orb_false_r, <-!orb_assoc.
  repeat match goal with |- (?x || ?y)%bool = (?x' || ?y')%bool => f_equal end;
    match goal with |- ?l = (?n / ?k =? ?m) =>
      let m' := eval vm_compute in m in change m with m';
      let k' := eval vm_compute in k in change k with k' end;
    (apply Bool.eq_true_iff_eq; rewrite ?andb_true_iff, ?orb_true_iff, ?Z.eqb_eq, ?Z.leb_le; dlia).
Qed.

Definition v4_of_num (m : Z) : Ipv4Addr :=
  V4Addr (to_u8 (m / 2 ^ 24)) (to_u8 (m / 2 ^ 16)) (to_u8 (m / 2 ^ 8)) (to_u8 m).

Lemma to_u8_mod x y : x mod 256 = y mod 256 -> to_u8 x = to_u8 y.
Proof. intros H. unfold to_u8. by rewrite H. Qed.

(** A mask of the high bits of a 16-bit segment. *)
Lemma land_high s j :
  0 <= s < 2 ^ 16 -> 0 <= j <= 16 -> Z.land s (2 ^ 16 - 2 ^ j) = s / 2 ^ j * 2 ^ j.
Proof.
  intros Hs Hj. replace (2 ^ 16 - 2 ^ j) with (Z.shiftl (Z.ones (16 - j)) j).
  2:{ rewrite Z.shiftl_mul_pow2, Z.ones_equiv by lia.
      replace (2 ^ 16) with (2 ^ (16 - j) * 2 ^ j) by (rewrite <-Z.pow_add_r by lia; f_equal; lia).
      lia. }
  replace (Z.land s (Z.shiftl (Z.ones (16 - j)) j))
    with (Z.shiftl (Z.land (Z.shiftr s j) (Z.ones (16 - j))) j).
  2:{ apply Z.bits_inj'. intros i Hi. rewrite Z.land_spec, !Z.shiftl_spec, Z.land_spec by done.
      destruct (Z.ltb_spec i j) as [H|H].
      - rewrite !(Z.testbit_neg_r _ (i - j)) by lia. by rewrite !andb_false_r.
      - rewrite Z.shiftr_spec by lia. by rewrite Z.sub_add. }
  rewrite shiftr_land_ones, Z.shiftl_mul_pow2 by lia. rewrite Z.mod_small; [done|].
  split; [apply Z.div_pos; lia|]. apply Z.div_lt_upper_bound; [lia|].
  rewrite <-Z.pow_add_r by lia. replace (j + (16 - j)) with 16 by lia. lia.
Qed.

(** The leading three segments of the 128-bit number. *)
Lemma v6_num_split a : wf_v6 a ->
  exists r, 0 <= r < 2 ^ 80 /\ 0 <= seg a 0 < 2 ^ 16 /\ 0 <= seg a 1 < 2 ^ 16 /\
    0 <= seg a 2 < 2 ^ 16 /\
    v6_num a = seg a 0 * 2 ^ 112 + seg a 1 * 2 ^ 96 + seg a 2 * 2 ^ 80 + r.
Proof.
  unfold wf_v6, v6_num, seg, in_uint. destruct a as [v]. cbn [segments].
  inv_vec v. intros s0 s1 s2 s3 s4 s5 s6 s7.
  simpl. intros H. repeat (apply Forall_cons in H as [? H]).
  exists (s3 * 2 ^ 64 + s4 * 2 ^ 48 + s5 * 2 ^ 32 + s6 * 2 ^ 16 + s7). repeat split; lia.
Qed.

(** The block of an address, from its leading segments. *)
Lemma v6_blocks a : wf_v6 a ->
  let n := v6_num a in
  is_public_ipv6 a =
    in_cidr 128 n (0x2000 * 2 ^ 112, 3)
    && negb (existsb (in_cidr 128 n) special_v6)
    && implb (in_cidr 128 n (0x2002 * 2 ^ 112, 16))
             (is_public_ipv4 (v4_of_num ((n / 2 ^ 80) mod 2 ^ 32))).
Proof.
  intros Hwf n. subst n. destruct (v6_num_split a Hwf) as (r & Hr & H0 & H1 & H2 & ->).
  unfold is_public_ipv6, special_v6, in_cidr, is_multicast.
  change 0xe000 with (2 ^ 16 - 2 ^ 13). change 0xff00 with (2 ^ 16 - 2 ^ 8).
  change 0xfff0 with (2 ^ 16 - 2 ^ 4). change 0xf000 with (2 ^ 16 - 2 ^ 12).
  rewrite !land_high by lia.
  set (E := V4Addr _ _ _ _).
  replace (v4_of_num _) with E.
  2:{ unfold E, v4_of_num. rewrite !Z.shiftr_div_pow2 by lia. f_equal; apply to_u8_mod; dlia. }
  generalize (is_public_ipv4 E) as pub. clear E. intros pub.
  assert (is_unspecified a = true -> seg a 0 = 0) as Hu.
  { unfold is_unspecified, seg. intros Hb. b2p. by rewrite Hb. }
  assert (v6_is_loopback a = true -> seg a 0 = 0) as Hl.
  { unfold v6_is_loopback, seg. intros Hb. b2p. by rewrite Hb. }
  generalize dependent (is_unspecified a). generalize dependent (v6_is_loopback a).
  generalize dependent (seg a 0). generalize dependent (seg a 1). generalize dependent (seg a 2).
  clear a Hwf. intros s2 H2 s1 H1 s0 H0 lo Hl un Hu.
  rewrite !existsb_orb. cbn [existsb]. rewrite orb_false_r.
  set (N := s0 * 2 ^ 112 + s1 * 2 ^ 96 + s2 * 2 ^ 80 + r).
  assert (forall k b c d, (N / 2 ^ k = b <-> c = d) -> (N / 2 ^ k =? b) = (c =? d)) as Hiff.
  { intros. apply Bool.eq_true_iff_eq. by rewrite !Z.eqb_eq. }
  assert (forall k b c d e f, (N / 2 ^ k = b <-> c = d /\ e = f) ->
    (N / 2 ^ k =? b) = (c =? d) && (e =? f)) as Hiff2.
  { intros. apply Bool.eq_true_iff_eq. by rewrite andb_true_iff, !Z.eqb_eq. }
  rewrite (Hiff (128 - 3) _ (s0 / 2 ^ 13 * 2 ^ 13) 0x2000) by (unfold N; compute_pows; dlia).
  rewrite (Hiff (128 - 16) _ s0 0x2002) by (unfold N; compute_pows; dlia).
  rewrite (Hiff2 (128 - 32) (0x2001 * 2 ^ 112 / 2 ^ (128 - 32)) s0 0x2001 s1 0) by (unfold N; compute_pows; dlia).
  rewrite (Hiff2 (128 - 32) ((0x2001 * 2 ^ 112 + 0x2 * 2 ^ 96) / 2 ^ (128 - 32)) s0 0x2001 s1 2)
    by (unfold N; compute_pows; dlia).
  rewrite (Hiff2 (128 - 32) ((0x2001 * 2 ^ 112 + 0xdb8 * 2 ^ 96) / 2 ^ (128 - 32)) s0 0x2001 s1 0xdb8)
    by (unfold N; compute_pows; dlia).
  rewrite (Hiff2 (128 - 28) ((0x2001 * 2 ^ 112 + 0x10 * 2 ^ 96) / 2 ^ (128 - 28)) s0 0x2001 (s1 / 2 ^ 4 * 2 ^ 4) 0x10)
    by (unfold N; compute_pows; dlia).
  rewrite (Hiff2 (128 - 28) ((0x2001 * 2 ^ 112 + 0x20 * 2 ^ 96) / 2 ^ (128 - 28)) s0 0x2001 (s1 / 2 ^ 4 * 2 ^ 4) 0x20)
    by (unfold N; compute_pows; dlia).
  rewrite (Hiff2 (128 - 20) _ s0 0x3fff (s1 / 2 ^ 12 * 2 ^ 12) 0) by (unfold N; compute_pows; dlia).
  clear Hiff Hiff2 N. destruct (s0 / 2 ^ 13 * 2 ^ 13 =? 0x2000) eqn:E3; b2p.
  2:{ cbn [negb]. by rewrite !orb_true_r. }
  assert (un = false) as -> by (destruct un; [rewrite Hu in E3 by done; done|done]).
  assert (lo = false) as -> by (destruct lo; [rewrite Hl in E3 by done; done|done]).
  replace (s0 / 2 ^ 8 * 2 ^ 8 =? 2 ^ 16 - 2 ^ 8) with false by (symmetry; apply Z.eqb_neq; dlia).
  cbn [orb negb andb]. rewrite <-!orb_assoc, implb_orb.
  rewrite !orb_assoc, (negb_orb _ (_ && negb pub)), negb_andb, negb_involutive. done.
Qed.

(** * The classifier against the registry of special-purpose blocks *)

Definition wf_ip (a : IpAddr) : Prop := match a with V4 _ => True | V6 a => wf_v6 a end.

Definition routable_v4 (n : Z) : bool := negb (existsb (in_cidr 32 n) special_v4).

(** The reference: IPv4 by its blocks; IPv6 by the IPv4 address it maps or, inside
    [2000::/3] and outside the special blocks, by the IPv4 address a 6to4 prefix embeds. *)
Definition routable (a : IpAddr) : bool :=
  match a with
  | V4 a => routable_v4 (v4_num a)
  | V6 a =>
      let n := v6_num a in
      if in_cidr 128 n (0xffff * 2 ^ 32, 96) then routable_v4 (n mod 2 ^ 32)
      else in_cidr 128 n (0x2000 * 2 ^ 112, 3)
           && negb (existsb (in_cidr 128 n) special_v6)
           && implb (in_cidr 128 n (0x2002 * 2 ^ 112, 16)) (routable_v4 ((n / 2 ^ 80) mod 2 ^ 32))
  end.

Lemma v4_num_of_num m : 0 <= m < 2 ^ 32 -> v4_num (v4_of_num m) = m.
Proof. intros Hm. unfold v4_num, v4_of_num. cbn [o0 o1 o2 o3]. rewrite !u8_to_u8. compute_pows. dlia. Qed.

Lemma mapped_block a : wf_v6 a ->
  to_ipv4_mapped a =
    if in_cidr 128 (v6_num a) (0xffff * 2 ^ 32, 96) then Some (v4_of_num (v6_num a mod 2 ^ 32)) else None.
Proof.
  unfold wf_v6, v6_num, to_ipv4_mapped, in_cidr. destruct a as [v]. cbn [segments].
  inv_vec v. intros s0 s1 s2 s3 s4 s5 s6 s7. simpl vec_to_list. intros H. unfold in_uint in H.
  repeat (apply Forall_cons in H as [? H]). cbn [be_val].
  set (n := _ * 65536 + s7).
  assert (n = s0 * 2 ^ 112 + s1 * 2 ^ 96 + s2 * 2 ^ 80 + s3 * 2 ^ 64 + s4 * 2 ^ 48 + s5 * 2 ^ 32 + s6 * 2 ^ 16 + s7) as En
    by (unfold n; lia).
  clearbody n. change (128 - 96) with 32. change (0xffff * 2 ^ 32 / 2 ^ 32) with 0xffff.
  assert (n / 2 ^ 32 = s0 * 2 ^ 80 + s1 * 2 ^ 64 + s2 * 2 ^ 48 + s3 * 2 ^ 32 + s4 * 2 ^ 16 + s5) as Hd.
  { symmetry. apply Z.div_unique with (s6 * 2 ^ 16 + s7); lia. }
  assert (n mod 2 ^ 32 = s6 * 2 ^ 16 + s7) as Hm.
  { symmetry. apply Z.mod_unique with (s0 * 2 ^ 80 + s1 * 2 ^ 64 + s2 * 2 ^ 48 + s3 * 2 ^ 32 + s4 * 2 ^ 16 + s5); lia. }
  rewrite Hd, Hm. destruct (_ =? 0xffff) eqn:E; b2p.
  - assert (s0 = 0 /\ s1 = 0 /\ s2 = 0 /\ s3 = 0 /\ s4 = 0 /\ s5 = 0xffff) as (-> & -> & -> & -> & -> & ->) by lia.
    unfold v4_of_num. do 2 f_equal; apply to_u8_mod; compute_pows; dlia.
  - repeat case_match; simplify_eq; done || lia.
Qed.

(** An outbound destination counts as public exactly when the address, read as a number, lies in no
    special-purpose block, IPv4 addresses mapped or embedded (6to4) in IPv6 ones included, so
    no spelling of a private destination passes; and the published test vectors classify, through the
    address parser, as they say. *)
Theorem public_address_blocks (a : IpAddr) :
  wf_ip a ->
  is_public_network_address a = routable a /\
  forallb (fun '(s, public) =>
    match parse_ip (lit s) with
    | Some a => Bool.eqb (is_public_network_address a) public
    | None => false
    end) NETWORK_ADDRESS_VECTORS = true.
Proof.
  intros Hwf. split; [|exact vectors_classified].
  assert (forall m, 0 <= m < 2 ^ 32 -> is_public_ipv4 (v4_of_num m) = routable_v4 m) as Hv4.
  { intros m Hm. by rewrite v4_blocks, v4_num_of_num. }
  destruct a as [a|a]; cbn [is_public_network_address routable]; [apply v4_blocks|].
  cbn [wf_ip] in Hwf. rewrite (mapped_block a Hwf). destruct (in_cidr 128 (v6_num a) (0xffff * 2 ^ 32, 96)).
  - apply Hv4. apply Z.mod_pos_bound. lia.
  - rewrite (v6_blocks a Hwf). do 2 f_equal. apply Hv4, Z.mod_pos_bound. lia.
Qed.

Lemma public_address_blocks_witness :
  wf_ip (V6 (V6Addr [#0x2002; 0x0a00; 1; 0; 0; 0; 0; 1])) /\
  is_public_network_address (V6 (V6Addr [#0x2002; 0x0a00; 1; 0; 0; 0; 0; 1])) = false.
Proof.
  assert (wf_ip (V6 (V6Addr [#0x2002; 0x0a00; 1; 0; 0; 0; 0; 1]))) as H
    by (unfold wf_ip, wf_v6, in_uint; cbn; repeat constructor; lia).
  split; [exact H|]. exact (proj1 (public_address_blocks _ H)).
Defined.
