(* ===== verification/Crypto.v ===== *)
(** The cryptographic crates the sources call ([sha2], [hmac], [ed25519-dalek]) as
    an interface: their functions are the operations of a class, the documented
    behaviour the code relies on the laws of another.  A concrete instance shows the
    laws can hold.  The wrappers of [pigeonpost-core/src/keys.rs] are defined over
    the interface. *)
From S2P Require Import Prelude Text B32.

(** An Ed25519 [VerifyingKey] is identified with its 32 compressed bytes, as its
    [PartialEq] and [to_bytes] do. *)
Abbreviation VerifyingKey := (arr 32).
Abbreviation Signature := (arr 64).

Class Crypto := {
  sha256 : bytes -> arr 32;
  hmac_sha256 : bytes -> bytes -> arr 32;
  (** [SigningKey::from_bytes(seed).verifying_key()] *)
  public_key : arr 32 -> VerifyingKey;
  (** [SigningKey::sign] *)
  ed25519_sign : arr 32 -> bytes -> Signature;
  (** whether [VerifyingKey::from_bytes] accepts the encoding *)
  vk_decodes : arr 32 -> bool;
  vk_is_weak : arr 32 -> bool;
  verify_strict : VerifyingKey -> bytes -> Signature -> bool;
}.

(** What [ed25519-dalek] documents of keys and signatures it produces itself. *)
Class CryptoLaws `{Crypto} : Prop := {
  public_key_decodes seed : vk_decodes (public_key seed) = true;
  public_key_strong seed : vk_is_weak (public_key seed) = false;
  sign_verifies seed m : verify_strict (public_key seed) m (ed25519_sign seed m) = true;
}.

(** Two different strings of [inputs] with one SHA-256 digest. *)
Definition collision_in `{Crypto} (inputs : list bytes) : Prop :=
  exists x y, x ∈ inputs /\ y ∈ inputs /\ x <> y /\ sha256 x = sha256 y.

Lemma collision_in_mono `{Crypto} (l l' : list bytes) : l ⊆ l' -> collision_in l -> collision_in l'.
Proof. intros Hs (x & y & Hx & Hy & H'). exists x, y. set_solver. Qed.

Lemma collision_in_pair `{Crypto} (x y : bytes) : sha256 x = sha256 y -> x = y \/ collision_in [x; y].
Proof. intros E. destruct (decide (x = y)) as [->|Hne]; [by left|right]. exists x, y. set_solver. Qed.


(** * keys.rs *)

Section Keys.
Context `{Crypto}.

(** [Identity]: the signing key is a function of the seed. *)
Record Identity := from_seed { seed : arr 32 }.

Definition to_seed (id : Identity) : arr 32 := seed id.
Definition verifying_key (id : Identity) : VerifyingKey := public_key (seed id).
Definition sign (id : Identity) (message : bytes) : Signature := ed25519_sign (seed id) message.

Record SuccessorCommitment := Commitment { commitment : arr 32 }.

Definition for_key (pubkey : VerifyingKey) : SuccessorCommitment :=
  Commitment (sha256 (vec_to_list pubkey)).
Definition accepts (c : SuccessorCommitment) (candidate : VerifyingKey) : bool :=
  sha256 (vec_to_list candidate) ≟ commitment c.

Definition verifying_key_from_bytes (bs : arr 32) : result Error VerifyingKey :=
  if negb (vk_decodes bs) then Err InvalidKey
  else if vk_is_weak bs then Err InvalidKey
  else Ok bs.

Definition verify (pubkey : VerifyingKey) (message : bytes) (signature : Signature)
  : result Error unit :=
  if verify_strict pubkey message signature then Ok tt else Err BadSignature.

Lemma verify_Ok pubkey m s u : verify pubkey m s = Ok u <-> verify_strict pubkey m s = true.
Proof. unfold verify. destruct u. case_match; split; congruence. Qed.

Lemma verifying_key_from_bytes_Ok bs k :
  verifying_key_from_bytes bs = Ok k <->
  k = bs /\ vk_decodes bs = true /\ vk_is_weak bs = false.
Proof.
  unfold verifying_key_from_bytes. destruct (vk_decodes bs), (vk_is_weak bs); simpl;
    split; intros; try done; destruct_and?; simplify_eq; done.
Qed.

(** A commitment accepts its own key, and another key only at a collision. *)
Lemma accepts_for_key k : accepts (for_key k) k = true.
Proof. unfold accepts, for_key. simpl. by rewrite bool_decide_true. Qed.

Lemma accepts_inj k k' :
  accepts (for_key k) k' = true -> k' = k \/ collision_in [vec_to_list k'; vec_to_list k].
Proof.
  unfold accepts, for_key. simpl. intros E. b2p.
  destruct (collision_in_pair _ _ E) as [E'|]; [left; by apply vec_to_list_inj2|by right].
Qed.

Context {CL : CryptoLaws}.

Lemma verify_sign id m : verify (verifying_key id) m (sign id m) = Ok tt.
Proof. apply verify_Ok, sign_verifies. Qed.

Lemma own_key_decodes id : verifying_key_from_bytes (verifying_key id) = Ok (verifying_key id).
Proof.
  apply verifying_key_from_bytes_Ok. repeat split; [apply public_key_decodes|apply public_key_strong].
Qed.
End Keys.

#[export] Hint Resolve verify_sign own_key_decodes accepts_for_key : pigeon.

(** * A concrete instance

    A "signature" is the key followed by a digest of the message, a digest is a
    rolling checksum: enough to make every law hold and every definition compute. *)

Definition toy_mix (bs : bytes) (salt : Z) : byte :=
  to_u8 (fold_left (fun acc b => Z.land (acc * 31 + u8 b + salt) 255) bs (7 + salt)).
Definition toy_digest (bs : bytes) : arr 32 :=
  vmap (fun i => toy_mix bs (Z.of_nat (fin_to_nat i))) (fun_to_vec (fun i : fin 32 => i)).
Definition toy_sign (key : arr 32) (m : bytes) : arr 64 := key +++ toy_digest m.

Definition toy_crypto : Crypto := {|
  sha256 := toy_digest;
  hmac_sha256 k m := toy_digest (k ++ m);
  public_key s := if s ≟ zeroes 32 then vreplicate 32 Byte.x01 else s;
  ed25519_sign s := toy_sign (if s ≟ zeroes 32 then vreplicate 32 Byte.x01 else s);
  vk_decodes _ := true;
  vk_is_weak k := k ≟ zeroes 32;
  verify_strict k m s := s ≟ toy_sign k m;
|}.

Lemma toy_laws : @CryptoLaws toy_crypto.
Proof.
  split; intros s; simpl; [done|..].
  - repeat case_bool_decide; done.
  - intros m. by rewrite bool_decide_true.
Qed.
