(* ===== verification/Origin.v ===== *)
(** Service origins: the [url] crate's parser as an interface, and the canonical
    origin check of [pigeonpost-core/src/fetch_auth.rs]. *)
From S2P Require Import Prelude Text B32 Network.

(** [url::Host]. *)
Inductive UrlHost := HostDomain (domain : str) | HostIpv4 (a : Ipv4Addr) | HostIpv6 (a : Ipv6Addr).

(** What the sources read of a parsed [url::Url]. *)
Record Url := {
  url_str : str;
  scheme : str;
  username : str;
  password : option str;
  host_str : option str;
  host : option UrlHost;
  port : option Z;
  path : str;
  query : option str;
  fragment : option str;
  cannot_be_a_base : bool;
}.

(** [Url::parse]. *)
Class UrlParser := url_parse : str -> option Url.

Definition MAX_LOFT_ORIGIN_BYTES : nat := 2048.

Section Origin.
Context {UP : UrlParser}.

Definition invalid_origin : Error := MalformedEnvelope "invalid loft origin".

Definition validate_loft_origin (origin : str) : result Error unit :=
  _ ← guard ((origin ≟ []) || (MAX_LOFT_ORIGIN_BYTES <? length origin)%nat) invalid_origin;
  parsed ← ok_or (url_parse origin) invalid_origin;
  _ ← guard (negb (username parsed ≟ [])
             || is_some (password parsed)
             || is_some (query parsed)
             || is_some (fragment parsed)
             || negb ((path parsed ≟ []) || (path parsed ≟ lit "/"))
             || negb (is_some (host_str parsed))
             || (port parsed ≟ Some 0)) invalid_origin;
  host ← ok_or (host_str parsed) invalid_origin;
  _ ← guard (is_localhost_name host) invalid_origin;
  let exact_loopback := is_numeric_loopback_host host in
  _ ← guard (negb (scheme parsed ≟ lit "https")
             && negb ((scheme parsed ≟ lit "http") && exact_loopback)) invalid_origin;
  guard (negb (trim_end_matches "/"%byte (url_str parsed) ≟ origin))
        (MalformedEnvelope "noncanonical loft origin").

(** An origin the check accepts, field by field. *)
Record good_origin (origin : str) (u : Url) (host : str) : Prop := {
  go_parse : url_parse origin = Some u;
  go_len : (0 < length origin <= MAX_LOFT_ORIGIN_BYTES)%nat;
  go_creds : username u = [] /\ password u = None;
  go_tail : query u = None /\ fragment u = None /\ (path u = [] \/ path u = lit "/");
  go_host : host_str u = Some host /\ is_localhost_name host = false;
  go_port : port u <> Some 0;
  go_scheme : scheme u = lit "https" \/ scheme u = lit "http" /\ is_numeric_loopback_host host = true;
  go_canonical : trim_end_matches "/"%byte (url_str u) = origin;
}.

Lemma validate_loft_origin_Ok origin :
  validate_loft_origin origin = Ok tt <-> exists u host, good_origin origin u host.
Proof.
  unfold validate_loft_origin. split.
  - intros H. inv_ok. rename a0 into u, a2 into host.
    repeat match goal with H : (_ || _)%bool = false |- _ => apply orb_false_iff in H as [? H] end.
    exists u, host. b2p. split; try done.
    + split; [|done]. destruct origin; [done|]. cbn [length]. lia.
    + split; [done|]. by destruct (password u).
    + destruct (query u), (fragment u); try done. repeat split.
      match goal with H : (_ || _)%bool = true |- _ => apply orb_true_iff in H as [H|H] end; b2p; auto.
    + match goal with H : (_ && _)%bool = false |- _ => apply andb_false_iff in H as [H|H] end; b2p; auto.
  - intros (u & host & [Hp [Hl0 Hl1] [Hu Hpw] (Hq & Hf & Hpath) [Hh Hlh] Hport Hs Hc]).
    rewrite (bool_decide_false (origin = [])) by (intros ->; simpl in Hl0; lia).
    replace (MAX_LOFT_ORIGIN_BYTES <? length origin)%nat with false by (symmetry; by apply Nat.ltb_ge).
    rewrite Hp. cbn -[Nat.ltb lit is_localhost_name is_numeric_loopback_host trim_end_matches].
    rewrite Hu, Hpw, Hq, Hf, Hh, (bool_decide_true (@nil byte = [])), (bool_decide_false (port u = Some 0)) by done.
    replace ((path u ≟ []) || (path u ≟ lit "/"))%bool with true
      by (destruct Hpath as [->| ->]; done).
    cbn -[Nat.ltb lit is_localhost_name is_numeric_loopback_host trim_end_matches].
    rewrite Hlh, (bool_decide_true (_ = origin)) by done.
    destruct Hs as [->|[-> ->]]; done.
Qed.

(** The spelling is canonical: two accepted origins of one URL are the same text. *)
Lemma validate_loft_origin_canonical o1 o2 u1 u2 :
  validate_loft_origin o1 = Ok tt -> validate_loft_origin o2 = Ok tt ->
  url_parse o1 = Some u1 -> url_parse o2 = Some u2 -> url_str u1 = url_str u2 -> o1 = o2.
Proof.
  intros H1 H2 P1 P2 E.
  apply validate_loft_origin_Ok in H1 as (v1 & h1 & [Q1 _ _ _ _ _ _ C1]).
  apply validate_loft_origin_Ok in H2 as (v2 & h2 & [Q2 _ _ _ _ _ _ C2]).
  simplify_eq. congruence.
Qed.
End Origin.

(** * A concrete parser

    Enough of [Url::parse] to accept plain HTTPS origins. *)
Definition toy_url_parser : UrlParser := fun s =>
  match strip_prefix (lit "https://") s with
  | Some host =>
      if (host ≟ []) || contains_byte "/"%byte host then None
      else Some {| url_str := s ++ lit "/"; scheme := lit "https"; username := []; password := None;
                   host_str := Some host; host := Some (HostDomain host); port := None; path := lit "/"; query := None;
                   fragment := None;
                   cannot_be_a_base := false |}
  | None => None
  end.
