(* ===== verification/Token.v ===== *)
(** Capability tokens: [pigeonpost-core/src/token.rs], with the standard library's
    [str::from_utf8] and [u8::from_str_radix] as the code uses them. *)
From S2P Require Import Prelude Text B32 Network Crypto Origin.

(** * Standard library *)

Definition cont (b : byte) : bool := (0x80 <=? u8 b) && (u8 b <=? 0xbf).

(** [core::str::from_utf8(bs).is_ok()]. *)
Fixpoint utf8_ok (bs : bytes) : bool :=
  match bs with
  | [] => true
  | b0 :: r0 =>
      let c := u8 b0 in
      if c <? 0x80 then utf8_ok r0
      else match r0 with
           | [] => false
           | b1 :: r1 =>
               if (0xc2 <=? c) && (c <=? 0xdf) then cont b1 && utf8_ok r1
               else match r1 with
                    | [] => false
                    | b2 :: r2 =>
                        let d := u8 b1 in
                        if ((c =? 0xe0) && (0xa0 <=? d) && (d <=? 0xbf))
                           || ((0xe1 <=? c) && (c <=? 0xec) && cont b1)
                           || ((c =? 0xed) && (0x80 <=? d) && (d <=? 0x9f))
                           || ((0xee <=? c) && (c <=? 0xef) && cont b1)
                        then cont b2 && utf8_ok r2
                        else match r2 with
                             | [] => false
                             | b3 :: r3 =>
                                 (((c =? 0xf0) && (0x90 <=? d) && (d <=? 0xbf))
                                  || ((0xf1 <=? c) && (c <=? 0xf3) && cont b1)
                                  || ((c =? 0xf4) && (0x80 <=? d) && (d <=? 0x8f)))
                                 && cont b2 && cont b3 && utf8_ok r3
                             end
                    end
           end
  end.

Fixpoint radix_digits (radix limit acc : Z) (s : str) : option Z :=
  match s with
  | [] => Some acc
  | b :: s =>
      match to_digit radix b with
      | Some d => let acc := acc * radix + d in
                  if acc <? limit then radix_digits radix limit acc s else None
      | None => None
      end
  end.

(** [uN::from_str_radix]: one leading [+] is accepted, a lone sign is not, and an
    empty string is an error. *)
Definition from_str_radix (radix limit : Z) (s : str) : option Z :=
  match s with
  | [] => None
  | [b] => if (b ≟ "+"%byte) || (b ≟ "-"%byte) then None else radix_digits radix limit 0 s
  | b :: rest => if b ≟ "+"%byte then radix_digits radix limit 0 rest
                 else radix_digits radix limit 0 s
  end.

(** * The hex codec *)

Definition hex_char (d : Z) : byte := nth (Z.to_nat d) (lit "0123456789abcdef") Byte.x00.

(** [format!("{b:02x}")] over the bytes. *)
Definition hex_of (bs : bytes) : str :=
  flat_map (fun b => [hex_char (u8 b / 16); hex_char (u8 b mod 16)]) bs.

(** The loop over [as_bytes().chunks(2)]. *)
Fixpoint unhex (bs : bytes) : option bytes :=
  match bs with
  | [] => Some []
  | a :: [] => if utf8_ok [a] then v ← from_str_radix 16 256 [a]; Some [to_u8 v] else None
  | a :: b :: rest =>
      if utf8_ok [a; b] then
        v ← from_str_radix 16 256 [a; b];
        vs ← unhex rest;
        Some (to_u8 v :: vs)
      else None
  end.

(** * Tokens *)

Record Token := MkToken { token_bytes : arr 32 }.
Record Presentation := MkPresentation { presentation_bytes : arr 32 }.

#[global] Instance Token_eq_dec : EqDecision Token.
Proof. solve_decision. Defined.

Definition to_hex (t : Token) : str := hex_of (vec_to_list (token_bytes t)).

Definition from_hex (hex : str) : option Token :=
  if negb (length hex =? 64)%nat then None
  else bs ← unhex hex; v ← arr_of_list 32 bs; Some (MkToken v).

Section Token.
Context {C : Crypto} {UP : UrlParser}.

Definition TOKEN_DOMAIN : bytes := lit "pigeonpost/token/v1".
Definition BOUND_DOMAIN : bytes := lit "pigeonpost/token-bound/v2".

Definition mint (secret : arr 32) (label : str) : Token :=
  MkToken (hmac_sha256 (vec_to_list secret) (TOKEN_DOMAIN ++ label)).

Definition presentation (t : Token) (loft_pubkey : arr 32) (loft_origin : str)
  : result Error Presentation :=
  _ ← validate_loft_origin loft_origin;
  let origin_len := Z.of_nat (length loft_origin) in
  Ok (MkPresentation (sha256 (BOUND_DOMAIN ++ vec_to_list (token_bytes t)
        ++ vec_to_list loft_pubkey ++ le_bytes 2 origin_len ++ loft_origin))).

Definition presentation_matches (p registered : Presentation) : bool :=
  presentation_bytes p ≟ presentation_bytes registered.
End Token.

(** * Correctness *)

Lemma nibble_cases (P : Z -> Prop) :
  Forall P (map Z.of_nat (seq 0 16)) -> forall d, 0 <= d < 16 -> P d.
Proof.
  intros H d Hd. rewrite Forall_forall in H. apply H, list_elem_of_In, in_map_iff.
  exists (Z.to_nat d). split; [lia|]. apply in_seq. lia.
Qed.

Lemma hex_char_digit d : 0 <= d < 16 -> to_digit 16 (hex_char d) = Some d.
Proof. revert d. apply nibble_cases. repeat constructor. Qed.

Lemma hex_char_ascii d : 0 <= d < 16 -> (u8 (hex_char d) <? 0x80) = true.
Proof. revert d. apply nibble_cases. repeat constructor. Qed.

Lemma hex_char_plain d : 0 <= d < 16 -> (hex_char d ≟ "+"%byte) = false.
Proof. revert d. apply nibble_cases. repeat constructor. Qed.

Lemma unhex_pair h l rest :
  0 <= h < 16 -> 0 <= l < 16 ->
  unhex (hex_char h :: hex_char l :: rest) = (vs ← unhex rest; Some (to_u8 (h * 16 + l) :: vs)).
Proof.
  intros Hh Hl. cbn -[to_u8 Z.mul hex_char to_digit]. rewrite !hex_char_ascii by done. cbn -[to_u8 Z.mul hex_char to_digit].
  rewrite hex_char_plain by done. cbn -[to_u8 Z.mul hex_char to_digit]. rewrite !hex_char_digit by done.
  replace (0 * 16 + h) with h by lia.
  replace (h <? 256) with true by (symmetry; apply Z.ltb_lt; lia).
  by replace (h * 16 + l <? 256) with true by (symmetry; apply Z.ltb_lt; lia).
Qed.

Lemma unhex_hex_of bs : unhex (hex_of bs) = Some bs.
Proof.
  induction bs as [|b bs IH]; [done|]. unfold hex_of in *. cbn [flat_map app].
  pose proof (u8_range b). rewrite (unhex_pair (u8 b / 16) (u8 b mod 16)) by dlia.
  rewrite IH. simpl. do 2 f_equal.
  transitivity (to_u8 (u8 b)); [f_equal; dlia|apply to_u8_u8].
Qed.

Lemma length_hex_of bs : length (hex_of bs) = (2 * length bs)%nat.
Proof. induction bs as [|b bs IH]; [done|]. unfold hex_of in *. simpl. lia. Qed.

Lemma from_hex_to_hex t : from_hex (to_hex t) = Some t.
Proof.
  destruct t as [v]. unfold from_hex, to_hex. simpl.
  rewrite length_hex_of, length_vec_to_list, unhex_hex_of. simpl.
  by rewrite (proj2 (arr_of_list_Some 32 _ v) eq_refl).
Qed.

(** The texts [from_hex] accepts, pair by pair: two hex digits, or a [+] and one. *)
Definition hex_pair (a b : byte) (v : Z) : Prop :=
  (exists h l, to_digit 16 a = Some h /\ to_digit 16 b = Some l /\ v = h * 16 + l) \/
  (a = "+"%byte /\ to_digit 16 b = Some v).

Lemma to_digit_range radix b d : to_digit radix b = Some d -> 0 <= d < radix /\ d < 16 /\ u8 b < 128.
Proof.
  unfold to_digit, hex_digit. intros H. repeat case_match; simplify_eq; b2p; lia.
Qed.

Lemma ltb_256 x : x < 256 -> (x <? 256) = true.
Proof. apply Z.ltb_lt. Qed.

Lemma from_str_radix_pair a b v : from_str_radix 16 256 [a; b] = Some v <-> hex_pair a b v.
Proof.
  unfold hex_pair. cbn -[Z.mul Z.add to_digit].
  destruct (a ≟ "+"%byte) eqn:Ea; b2p; subst; cbn -[Z.mul Z.add to_digit].
  - change (to_digit 16 "+"%byte) with (@None Z).
    destruct (to_digit 16 b) as [l|] eqn:El; [|naive_solver].
    apply to_digit_range in El as Hl. rewrite ltb_256 by lia. replace (0 * 16 + l) with l by lia.
    naive_solver.
  - destruct (to_digit 16 a) as [h|] eqn:Eh; [|naive_solver].
    apply to_digit_range in Eh as Hh. rewrite ltb_256 by lia. replace (0 * 16 + h) with h by lia.
    destruct (to_digit 16 b) as [l|] eqn:El; [|naive_solver].
    apply to_digit_range in El as Hl. rewrite ltb_256 by lia. naive_solver.
Qed.

Lemma hex_pair_ascii a b v : hex_pair a b v -> utf8_ok [a; b] = true.
Proof.
  assert (u8 a < 128 -> u8 b < 128 -> utf8_ok [a; b] = true) as Hlt.
  { intros Ha Hb. apply Z.ltb_lt in Ha, Hb. cbn -[Z.ltb]. by rewrite Ha, Hb. }
  intros [(h & l & Ha & Hb & _)|[-> Hb]]; apply Hlt;
    try (by apply to_digit_range in Ha as (_ & _ & ?)); try (by apply to_digit_range in Hb as (_ & _ & ?)).
Qed.

Lemma unhex_pair_inv a b rest bs :
  unhex (a :: b :: rest) = Some bs <->
  exists v vs, hex_pair a b v /\ unhex rest = Some vs /\ bs = to_u8 v :: vs.
Proof.
  cbn -[to_u8 from_str_radix utf8_ok]. split.
  - destruct (utf8_ok [a; b]); [|done].
    destruct (from_str_radix 16 256 [a; b]) as [v|] eqn:E; simpl; [|done].
    destruct (unhex rest) as [vs|]; simpl; [|done]. intros [= <-].
    apply from_str_radix_pair in E. eauto.
  - intros (v & vs & Hp & -> & ->). rewrite (hex_pair_ascii _ _ _ Hp).
    apply from_str_radix_pair in Hp. by rewrite Hp.
Qed.

(** ** Presentations are bound to the token, the loft key and the origin *)
Section Bound.
Context {C : Crypto} {UP : UrlParser}.

Lemma presentation_Ok t k o p :
  presentation t k o = Ok p <->
  validate_loft_origin o = Ok tt /\
  p = MkPresentation (sha256 (BOUND_DOMAIN ++ vec_to_list (token_bytes t)
        ++ vec_to_list k ++ le_bytes 2 (Z.of_nat (length o)) ++ o)).
Proof.
  unfold presentation. destruct (validate_loft_origin o) as [[]|e]; simpl; split;
    intros; destruct_and?; simplify_eq; done.
Qed.

Lemma presentation_preimage_inj (t t' k k' : arr 32) (o o' : str) :
  BOUND_DOMAIN ++ vec_to_list t ++ vec_to_list k ++ le_bytes 2 (Z.of_nat (length o)) ++ o =
  BOUND_DOMAIN ++ vec_to_list t' ++ vec_to_list k' ++ le_bytes 2 (Z.of_nat (length o')) ++ o' ->
  t = t' /\ k = k' /\ o = o'.
Proof.
  intros E. apply app_inv_head in E.
  apply arr_app_inj in E as [-> E]. apply arr_app_inj in E as [-> E].
  apply app_inj_len in E as [_ ->]; [done|]. by rewrite !length_le_bytes.
Qed.
End Bound.

(** A token's published text reads back to the token, but is not its only text: the parser, which
    takes each pair through [from_str_radix], also takes upper-case digits and a plus sign before a
    single digit. *)
Theorem token_hex_codec :
  (forall t, from_hex (to_hex t) = Some t) /\
  (forall a b rest bs, unhex (a :: b :: rest) = Some bs <->
     exists v vs, hex_pair a b v /\ unhex rest = Some vs /\ bs = to_u8 v :: vs) /\
  (let hex := lit "+f" ++ replicate 62 "0"%byte in
   exists t, from_hex hex = Some t /\ to_hex t <> hex).
Proof.
  split_and!; [apply from_hex_to_hex|apply unhex_pair_inv|].
  exists (MkToken (x0f ::: zeroes 31)). split; [vm_compute; reflexivity|vm_compute; discriminate].
Qed.

Section BoundClaim.
Context {C : Crypto} {UP : UrlParser}.

(** A presentation is bound to the token, the loft's key and the loft's origin: one that matches a
    registered value was made from the same three, or the two hash inputs collide; and it is
    only ever made for a canonical origin. *)
Theorem presentation_binds (t t' : Token) (k k' : arr 32) (o o' : str) (p p' : Presentation) :
  presentation t k o = Ok p -> presentation t' k' o' = Ok p' -> presentation_matches p p' = true ->
  validate_loft_origin o = Ok tt /\
  ((t, k, o) = (t', k', o') \/
   collision_in [BOUND_DOMAIN ++ vec_to_list (token_bytes t) ++ vec_to_list k ++ le_bytes 2 (Z.of_nat (length o)) ++ o;
                 BOUND_DOMAIN ++ vec_to_list (token_bytes t') ++ vec_to_list k' ++ le_bytes 2 (Z.of_nat (length o')) ++ o']).
Proof.
  intros H H' Hm. apply presentation_Ok in H as [Ho ->], H' as [_ ->]. split; [done|].
  unfold presentation_matches in Hm. b2p. cbn [presentation_bytes] in Hm.
  destruct (collision_in_pair _ _ Hm) as [E|Hc]; [left|by right].
  apply presentation_preimage_inj in E as (Et & -> & ->). destruct t, t'. cbn in Et. congruence.
Qed.
End BoundClaim.

Lemma presentation_binds_witness :
  exists p, presentation (C := toy_crypto) (UP := toy_url_parser) (MkToken (zeroes 32)) (zeroes 32) (lit "https://a.example") = Ok p /\
    presentation_matches p p = true /\
    validate_loft_origin (UP := toy_url_parser) (lit "https://a.example") = Ok tt.
Proof.
  assert (exists p, presentation (C := toy_crypto) (UP := toy_url_parser) (MkToken (zeroes 32)) (zeroes 32)
    (lit "https://a.example") = Ok p) as [p E] by (eexists; reflexivity).
  assert (presentation_matches p p = true) as Em by (apply bool_decide_true; reflexivity).
  exists p. split; [exact E|split; [exact Em|]].
  exact (proj1 (presentation_binds (C := toy_crypto) (UP := toy_url_parser) _ _ _ _ _ _ _ _ E E Em)).
Defined.
