(* ===== verification/B64.v ===== *)
(** The base64 codec of signed notes: [pigeonpost-registry/src/checkpoint.rs], [b64] and [unb64]. *)
From S2P Require Import Prelude Text.

Definition B64 : bytes := lit "ABCDEFGHIJKLMNOPQRSTUVWXYZabcdefghijklmnopqrstuvwxyz0123456789+/".
Definition b64_char (i : Z) : byte := nth (Z.to_nat i) B64 x00.

(** One chunk of at most three bytes, the missing ones read as zero. *)
Definition b64_word (b0 b1 b2 : byte) : Z :=
  Z.lor (Z.lor (Z.shiftl (u8 b0) 16) (Z.shiftl (u8 b1) 8)) (u8 b2).
Definition b64_digit (n shift : Z) : byte := b64_char (Z.land (Z.shiftr n shift) 63).

(** [input.chunks(3)] *)
Fixpoint b64 (input : bytes) : str :=
  match input with
  | [] => []
  | [x] =>
      let n := b64_word x x00 x00 in
      [b64_digit n 18; b64_digit n 12; "="%byte; "="%byte]
  | [x; y] =>
      let n := b64_word x y x00 in
      [b64_digit n 18; b64_digit n 12; b64_digit n 6; "="%byte]
  | x :: y :: z :: rest =>
      let n := b64_word x y z in
      b64_digit n 18 :: b64_digit n 12 :: b64_digit n 6 :: b64_digit n 0 :: b64 rest
  end.

(** [iter().position(|&c| c == ch)] and [str::find] of one character. *)
Fixpoint position (c : byte) (l : bytes) : option nat :=
  match l with
  | [] => None
  | b :: l => if b ≟ c then Some 0%nat else option_map S (position c l)
  end.

Definition b64_text_byte (b : byte) : bool :=
  is_ascii_alphanumeric b || (b ≟ "+"%byte) || (b ≟ "/"%byte) || (b ≟ "="%byte).

(** The loop; [trim] removes nothing from a text that passed the character test.  [u32] shifts drop high bits. *)
Fixpoint unb64_loop (buffer bits : Z) (out : bytes) (s : str) : option bytes :=
  match s with
  | [] => Some out
  | ch :: s =>
      if ch ≟ "="%byte then Some out
      else
        value ← position ch B64;
        let buffer := Z.lor (wrap 32 (Z.shiftl buffer 6)) (Z.of_nat value) in
        let bits := bits + 6 in
        if 8 <=? bits then
          let bits := bits - 8 in
          unb64_loop buffer bits (out ++ [to_u8 (Z.shiftr buffer bits)]) s
        else unb64_loop buffer bits out s
  end.

Definition unb64 (input : str) : option bytes :=
  if negb (length input mod 4 =? 0)%nat
     || existsb (fun b => negb (b64_text_byte b)) input
     || match position "="%byte input with Some first => (first <? length input - 2)%nat | None => false end
  then None
  else
    out ← unb64_loop 0 0 [] input;
    if b64 out ≟ input then Some out else None.

(** * The codec is exact *)

(** The digits of a word. *)
Lemma b64_word_value x y z : b64_word x y z = u8 x * 65536 + u8 y * 256 + u8 z.
Proof.
  unfold b64_word. pose proof (u8_range x). pose proof (u8_range y). pose proof (u8_range z).
  rewrite (lor_shiftl_add (u8 x) (Z.shiftl (u8 y) 8) 16) by (rewrite ?Z.shiftl_mul_pow2 by lia; lia).
  replace (u8 x * 2 ^ 16 + Z.shiftl (u8 y) 8) with (Z.shiftl (u8 x * 256 + u8 y) 8)
    by (rewrite !Z.shiftl_mul_pow2 by lia; lia).
  rewrite lor_shiftl_add by lia. lia.
Qed.

Lemma b64_digit_value n k : 0 <= k -> b64_digit n k = b64_char (n / 2 ^ k mod 64).
Proof. intros Hk. unfold b64_digit. change 63 with (Z.ones 6). by rewrite shiftr_land_ones by lia. Qed.

Lemma sixty_four (P : Z -> Prop) : Forall P (map Z.of_nat (seq 0 64)) -> forall d, 0 <= d < 64 -> P d.
Proof.
  intros H d Hd. rewrite Forall_forall in H. apply H, list_elem_of_In, in_map_iff.
  exists (Z.to_nat d). split; [lia|]. apply in_seq. lia.
Qed.

Lemma b64_char_position d : 0 <= d < 64 -> position (b64_char d) B64 = Some (Z.to_nat d).
Proof. revert d. apply sixty_four. repeat constructor. Qed.
Lemma b64_char_plain d : 0 <= d < 64 -> b64_text_byte (b64_char d) = true /\ (b64_char d ≟ "="%byte) = false.
Proof. revert d. apply sixty_four. repeat constructor. Qed.

(** Reading one digit shifts six bits in. *)
Lemma unb64_step buffer bits out d s : 0 <= d < 64 ->
  exists m, let buffer' := m * 2 ^ 32 + buffer * 64 + d in
  unb64_loop buffer bits out (b64_char d :: s) =
  if 8 <=? bits + 6 then unb64_loop buffer' (bits - 2) (out ++ [to_u8 (Z.shiftr buffer' (bits - 2))]) s
  else unb64_loop buffer' (bits + 6) out s.
Proof.
  intros Hd. cbn [unb64_loop]. destruct (b64_char_plain d Hd) as [_ ->]. rewrite b64_char_position by done. cbn [mbind option_bind].
  rewrite Z2Nat.id by lia. exists (- (buffer * 64 / 2 ^ 32)). cbv zeta.
  replace (Z.lor (wrap 32 (Z.shiftl buffer 6)) d) with (- (buffer * 64 / 2 ^ 32) * 2 ^ 32 + buffer * 64 + d); [by replace (bits + 6 - 8) with (bits - 2) by lia|].
  assert (wrap 32 (Z.shiftl buffer 6) = Z.shiftl (buffer mod 2 ^ 26) 6) as ->.
  { unfold wrap. rewrite !Z.shiftl_mul_pow2 by lia. change (2 ^ 32) with (2 ^ 26 * 2 ^ 6). by rewrite Z.mul_mod_distr_r. }
  rewrite lor_shiftl_add by lia. change (2 ^ 32) with 4294967296. change (2 ^ 26) with 67108864. change (2 ^ 6) with 64. dlia.
Qed.

(** The byte pushed with [k] bits left over depends on the low bits only. *)
Lemma pushed_byte buffer k x : 0 <= k -> (buffer / 2 ^ k) mod 256 = u8 x -> to_u8 (Z.shiftr buffer k) = x.
Proof. intros Hk H. apply u8_inj. by rewrite u8_to_u8, Z.shiftr_div_pow2. Qed.

Ltac b64_push :=
  apply pushed_byte; [lia|];
  change (2 ^ 32) with 4294967296; change (2 ^ 4) with 16; change (2 ^ 2) with 4; change (2 ^ 0) with 1; dlia.

Section Quad.
Context (x y z : byte).

Let d1 := u8 x / 4.
Let d2 := u8 x mod 4 * 16 + u8 y / 16.
Let d3 := u8 y mod 16 * 4 + u8 z / 64.
Let d4 := u8 z mod 64.

Lemma quad_digits :
  let n := b64_word x y z in
  [b64_digit n 18; b64_digit n 12; b64_digit n 6; b64_digit n 0] = map b64_char [d1; d2; d3; d4].
Proof.
  cbv zeta. pose proof (u8_range x). pose proof (u8_range y). pose proof (u8_range z).
  rewrite !b64_digit_value, b64_word_value by lia. cbn [map]. unfold d1, d2, d3, d4.
  repeat (apply f_equal2; [apply (f_equal b64_char)|]); [..|done];
    repeat match goal with |- context [2 ^ ?k] => let v := eval compute in (2 ^ k) in change (2 ^ k) with v end; dlia.
Qed.

Lemma quad_range : 0 <= d1 < 64 /\ 0 <= d2 < 64 /\ 0 <= d3 < 64 /\ 0 <= d4 < 64.
Proof.
  pose proof (u8_range x). pose proof (u8_range y). pose proof (u8_range z). unfold d1, d2, d3, d4.
  split_and!; dlia.
Qed.

Lemma unb64_one buffer out s :
  exists buffer', unb64_loop buffer 0 out (map b64_char [d1; d2] ++ s) = unb64_loop buffer' 4 (out ++ [x]) s /\
  exists m, buffer' = m * 256 + u8 x mod 16 * 16 + u8 y / 16.
Proof.
  destruct quad_range as (R1 & R2 & _). pose proof (u8_range x). pose proof (u8_range y). cbn [map app].
  destruct (unb64_step buffer 0 out d1 (b64_char d2 :: s) R1) as (m1 & ->). change (8 <=? 0 + 6) with false. cbv zeta iota.
  change (0 + 6) with 6.
  destruct (unb64_step (m1 * 2 ^ 32 + buffer * 64 + d1) 6 out d2 s R2) as (m2 & ->). change (8 <=? 6 + 6) with true. cbv zeta iota.
  change (6 - 2) with 4. eexists. split.
  - do 3 f_equal. unfold d1, d2. b64_push.
  - exists (m2 * 2 ^ 24 + (m1 * 2 ^ 32 + buffer * 64) / 4 + u8 x / 16). unfold d1, d2.
    change (2 ^ 32) with 4294967296. change (2 ^ 24) with 16777216. dlia.
Qed.

Lemma unb64_two buffer out s :
  exists buffer', unb64_loop buffer 0 out (map b64_char [d1; d2; d3] ++ s) = unb64_loop buffer' 2 (out ++ [x; y]) s /\
  exists m, buffer' = m * 64 + u8 y mod 16 * 4 + u8 z / 64.
Proof.
  destruct quad_range as (_ & _ & R3 & _). pose proof (u8_range y). pose proof (u8_range z).
  destruct (unb64_one buffer out (b64_char d3 :: s)) as (B & E & m & ->). cbn [map app] in *. rewrite E. clear E.
  destruct (unb64_step (m * 256 + u8 x mod 16 * 16 + u8 y / 16) 4 (out ++ [x]) d3 s R3) as (m3 & ->).
  change (8 <=? 4 + 6) with true. cbv zeta iota. change (4 - 2) with 2. eexists. split.
  - rewrite <-(assoc_L (++)). cbn [app]. do 4 f_equal. unfold d3. b64_push.
  - exists (m3 * 2 ^ 26 + (m * 256 + u8 x mod 16 * 16 + u8 y / 16)). unfold d3.
    change (2 ^ 32) with 4294967296. change (2 ^ 26) with 67108864. dlia.
Qed.

Lemma unb64_quad buffer out s :
  exists buffer', unb64_loop buffer 0 out (map b64_char [d1; d2; d3; d4] ++ s) = unb64_loop buffer' 0 (out ++ [x; y; z]) s.
Proof.
  destruct quad_range as (_ & _ & _ & R4). pose proof (u8_range z).
  destruct (unb64_two buffer out (b64_char d4 :: s)) as (B & E & m & ->). cbn [map app] in *. rewrite E. clear E.
  destruct (unb64_step (m * 64 + u8 y mod 16 * 4 + u8 z / 64) 2 (out ++ [x; y]) d4 s R4) as (m4 & ->).
  change (8 <=? 2 + 6) with true. cbv zeta iota. change (2 - 2) with 0. eexists.
  rewrite <-(assoc_L (++)). cbn [app]. do 5 f_equal. unfold d4. b64_push.
Qed.
End Quad.

(** Induction by chunks of three bytes. *)
Lemma chunks3_ind (P : bytes -> Prop) :
  P [] -> (forall x, P [x]) -> (forall x y, P [x; y]) -> (forall x y z l, P l -> P (x :: y :: z :: l)) -> forall l, P l.
Proof.
  intros H0 H1 H2 H3. fix IH 1. intros [|x [|y [|z l]]]; [done|apply H1|apply H2|apply H3, IH].
Qed.

Lemma b64_quads x y z :
  let n := b64_word x y z in
  exists c1 c2 c3 c4, [b64_digit n 18; b64_digit n 12; b64_digit n 6; b64_digit n 0] = [c1; c2; c3; c4] /\
  Forall (fun c => b64_text_byte c = true /\ (c ≟ "="%byte) = false) [c1; c2; c3; c4] /\
  (forall buffer out, unb64_loop buffer 0 out [c1; c2; "="%byte; "="%byte] = Some (out ++ [x])) /\
  (forall buffer out, unb64_loop buffer 0 out [c1; c2; c3; "="%byte] = Some (out ++ [x; y])) /\
  (forall buffer out s, exists buffer', unb64_loop buffer 0 out (c1 :: c2 :: c3 :: c4 :: s)
                                        = unb64_loop buffer' 0 (out ++ [x; y; z]) s).
Proof.
  cbv zeta. pose proof (quad_digits x y z) as E. cbv zeta in E. destruct (quad_range x y z) as (R1 & R2 & R3 & R4).
  eexists _, _, _, _. split; [exact E|]. split_and!.
  - repeat constructor; by apply b64_char_plain.
  - intros buffer out. destruct (unb64_one x y z buffer out ["="%byte; "="%byte]) as (B & HB & _). cbn [map app] in HB.
    rewrite HB. done.
  - intros buffer out. destruct (unb64_two x y z buffer out ["="%byte]) as (B & HB & _). cbn [map app] in HB. by rewrite HB.
  - intros buffer out s. destruct (unb64_quad x y z buffer out s) as (B & HB). cbn [map app] in HB. eauto.
Qed.

Lemma position_skip c l s :
  Forall (fun b => (b ≟ c) = false) l -> position c (l ++ s) = option_map (Nat.add (length l)) (position c s).
Proof.
  induction 1 as [|b l Hb _ IH]; cbn [app position length]; [by destruct (position c s)|].
  rewrite Hb, IH. by destruct (position c s).
Qed.

(** What the encoder's text looks like to the decoder's checks. *)
Definition b64_shape (s : str) : Prop :=
  (length s mod 4 = 0)%nat /\ forallb b64_text_byte s = true /\
  match position "="%byte s with Some i => (length s - 2 <= i)%nat | None => True end.

Lemma b64_decodes bs :
  b64_shape (b64 bs) /\ forall buffer out, unb64_loop buffer 0 out (b64 bs) = Some (out ++ bs).
Proof.
  induction bs as [|x|x y|x y z l [(Hl & Hf & Hp) IH]] using chunks3_ind.
  - split; [by vm_compute|]. intros buffer out. cbn. by rewrite app_nil_r.
  - destruct (b64_quads x x00 x00) as (c1 & c2 & c3 & c4 & E & HF & H1 & _ & _). injection E as E1 E2 E3 E4.
    cbn [b64]. rewrite E1, E2. split; [|done].
    rewrite !Forall_cons in HF. destruct HF as ([T1 N1] & [T2 N2] & _).
    unfold b64_shape. cbn [forallb position length]. rewrite T1, T2, N1, N2. split_and!; [done|done|].
    rewrite (bool_decide_true ("="%byte = "="%byte)) by done. cbn [option_map]. lia.
  - destruct (b64_quads x y x00) as (c1 & c2 & c3 & c4 & E & HF & _ & H2 & _). injection E as E1 E2 E3 E4.
    cbn [b64]. rewrite E1, E2, E3. split; [|done].
    rewrite !Forall_cons in HF. destruct HF as ([T1 N1] & [T2 N2] & [T3 N3] & _).
    unfold b64_shape. cbn [forallb position length]. rewrite T1, T2, T3, N1, N2, N3. split_and!; [done|done|].
    rewrite (bool_decide_true ("="%byte = "="%byte)) by done. cbn [option_map]. lia.
  - destruct (b64_quads x y z) as (c1 & c2 & c3 & c4 & E & HF & _ & _ & H3). injection E as E1 E2 E3 E4.
    cbn [b64]. rewrite E1, E2, E3, E4. split.
    + change (c1 :: c2 :: c3 :: c4 :: b64 l) with ([c1; c2; c3; c4] ++ b64 l). unfold b64_shape.
      rewrite length_app, forallb_app, position_skip by (eapply Forall_impl; [exact HF|by intros ? [_ ?]]).
      rewrite !Forall_cons in HF. destruct HF as ([T1 _] & [T2 _] & [T3 _] & [T4 _] & _).
      split_and!; [|cbn [forallb]; by rewrite T1, T2, T3, T4|].
      * change (length [c1; c2; c3; c4]) with (1 * 4)%nat. by rewrite Nat.add_comm, Nat.Div0.mod_add.
      * destruct (position _ (b64 l)) as [i|]; cbn [option_map length]; lia.
    + intros buffer out. destruct (H3 buffer out (b64 l)) as [B ->]. rewrite IH. by rewrite <-(assoc_L (++)).
Qed.

(** Encoding and decoding are inverse: [unb64] accepts exactly the texts [b64] writes. *)
Lemma unb64_iff s bs : unb64 s = Some bs <-> s = b64 bs.
Proof.
  split.
  - unfold unb64. destruct (_ || _)%bool; [done|]. intros (o & _ & H)%bind_Some. by case_bool_decide; simplify_eq.
  - intros ->. destruct (b64_decodes bs) as ((Hl & Hf & Hp) & Hd). unfold unb64.
    rewrite Hl, Nat.eqb_refl. cbn [negb orb].
    replace (existsb _ (b64 bs)) with false.
    + cbn [orb]. replace (match position _ _ with Some _ => _ | None => _ end) with false.
      * rewrite Hd. cbn [mbind option_bind app]. by rewrite bool_decide_true.
      * destruct (position _ _); [|done]. symmetry. by apply Nat.ltb_ge.
    + symmetry. apply not_true_iff_false. rewrite existsb_exists. intros (b & Hin & Hb). rewrite forallb_forall in Hf.
      by rewrite (Hf b Hin) in Hb.
Qed.

Lemma b64_inj a b : b64 a = b64 b -> a = b.
Proof. intros E. pose proof (proj2 (unb64_iff (b64 a) a) eq_refl) as Ha. rewrite E in Ha.
  pose proof (proj2 (unb64_iff (b64 b) b) eq_refl) as Hb. congruence. Qed.

Lemma b64_text bs : forallb b64_text_byte (b64 bs) = true.
Proof. by destruct (b64_decodes bs) as ((_ & ? & _) & _). Qed.

Lemma length_b64 bs : (length (b64 bs) <= 2 * length bs + 2)%nat.
Proof. induction bs using chunks3_ind; cbn [b64 length] in *; lia. Qed.
