(* ===== verification/Pow.v ===== *)
(** Proof-of-work stamps: [pigeonpost-core/src/pow.rs]. *)
From S2P Require Import Prelude Text B32 Crypto.

(** [u8::leading_zeros]. *)
Definition leading_zeros (b : byte) : Z := if u8 b =? 0 then 8 else 7 - Z.log2 (u8 b).

Fixpoint leading_zero_bits (digest : bytes) : Z :=
  match digest with
  | [] => 0
  | b :: rest => if u8 b =? 0 then 8 + leading_zero_bits rest else leading_zeros b
  end.

Section Pow.
Context {C : Crypto}.

Definition POW_DOMAIN : bytes := lit "pigeonpost/pow/v1".

Definition work (id : arr 32) (nonce : Z) : Z :=
  leading_zero_bits (vec_to_list (sha256 (POW_DOMAIN ++ vec_to_list id ++ le_bytes 8 nonce))).

(** [(0..max_attempts).find(..)]: from [nonce], [attempts] candidates. *)
Fixpoint mine_from (id : arr 32) (difficulty : Z) (attempts : nat) (nonce : Z) : option Z :=
  match attempts with
  | O => None
  | S attempts =>
      if difficulty <=? work id nonce then Some nonce
      else mine_from id difficulty attempts (nonce + 1)
  end.
Definition mine (id : arr 32) (difficulty max_attempts : Z) : option Z :=
  mine_from id difficulty (Z.to_nat max_attempts) 0.

Definition pow_verify (id : arr 32) (nonce difficulty : Z) : result Error unit :=
  if difficulty =? 0 then Ok tt
  else if difficulty <=? work id nonce then Ok tt
  else Err InsufficientWork.

(** ** The search is bounded, finds the least nonce, and what it finds verifies *)

Lemma mine_from_Some id d n nonce k :
  mine_from id d n nonce = Some k <->
  nonce <= k < nonce + Z.of_nat n /\ d <= work id k /\
  forall j, nonce <= j < k -> work id j < d.
Proof.
  revert nonce; induction n as [|n IH]; intros nonce; simpl.
  { split; [done|]. lia. }
  destruct (d <=? work id nonce) eqn:E; b2p.
  - split; [intros [= <-]; split; [lia|]; split; [done|]; lia|].
    intros (Hr & Hk & Hmin). destruct (Z.eq_dec k nonce) as [->|]; [done|].
    specialize (Hmin nonce ltac:(lia)). lia.
  - rewrite IH. split; intros (Hr & Hk & Hmin); (split; [|split; [done|]]).
    + lia.
    + intros j Hj. destruct (Z.eq_dec j nonce) as [->|]; [lia|]. apply Hmin. lia.
    + destruct (Z.eq_dec k nonce) as [->|]; lia.
    + intros j Hj. apply Hmin. lia.
Qed.

Lemma mine_from_None id d n nonce :
  mine_from id d n nonce = None <-> forall j, nonce <= j < nonce + Z.of_nat n -> work id j < d.
Proof.
  revert nonce; induction n as [|n IH]; intros nonce; simpl.
  { split; [lia|done]. }
  destruct (d <=? work id nonce) eqn:E; b2p.
  - split; [done|]. intros Hj. specialize (Hj nonce ltac:(lia)). lia.
  - rewrite IH. split; intros Hall j Hj.
    + destruct (Z.eq_dec j nonce) as [->|]; [lia|]. apply Hall. lia.
    + apply Hall. lia.
Qed.
End Pow.

(** ** Difficulty as a bound on the digest read as a number *)

Lemma be_val_bound acc bs :
  be_val 256 acc (map u8 bs) = acc * 2 ^ (8 * Z.of_nat (length bs)) + be_val 256 0 (map u8 bs) /\
  0 <= be_val 256 0 (map u8 bs) < 2 ^ (8 * Z.of_nat (length bs)).
Proof.
  revert acc; induction bs as [|b bs IH]; intros acc; simpl be_val; [simpl; lia|].
  replace (8 * Z.of_nat (length (b :: bs))) with (8 + 8 * Z.of_nat (length bs)) by (simpl; lia).
  rewrite Z.pow_add_r by lia. change (2 ^ 8) with 256. pose proof (u8_range b).
  destruct (IH (acc * 256 + u8 b)) as [-> Hr]. destruct (IH (0 * 256 + u8 b)) as [-> _].
  nia.
Qed.

Lemma leading_zero_bits_nonneg bs : 0 <= leading_zero_bits bs.
Proof.
  induction bs as [|b bs IH]; simpl; [lia|]. unfold leading_zeros.
  destruct (u8 b =? 0) eqn:E; b2p; [lia|]. pose proof (u8_range b).
  assert (Z.log2 (u8 b) < 8) by (apply Z.log2_lt_pow2; simpl; lia). lia.
Qed.

Lemma leading_zero_bits_spec bs d :
  0 <= d <= 8 * Z.of_nat (length bs) ->
  d <= leading_zero_bits bs <-> be_val 256 0 (map u8 bs) < 2 ^ (8 * Z.of_nat (length bs) - d).
Proof.
  revert d; induction bs as [|b bs IH]; intros d Hd; simpl leading_zero_bits.
  { simpl in *. assert (d = 0) as -> by lia. simpl. lia. }
  simpl length in *. set (n := Z.of_nat (length bs)) in *.
  replace (Z.of_nat (S (length bs))) with (1 + n) in * by lia.
  pose proof (u8_range b). destruct (be_val_bound (u8 b) bs) as [Hv Hr]. fold n in Hv, Hr.
  change (be_val 256 0 (map u8 (b :: bs))) with (be_val 256 (u8 b) (map u8 bs)). rewrite Hv. destruct (u8 b =? 0) eqn:E; b2p.
  - rewrite E, Z.mul_0_l, Z.add_0_l. destruct (Z.leb_spec d 8) as [Hd8|Hd8].
    + split; intros _.
      * eapply Z.lt_le_trans; [apply Hr|]. apply Z.pow_le_mono_r; lia.
      * assert (0 <= leading_zero_bits bs) by apply leading_zero_bits_nonneg. lia.
    + replace (8 * (1 + n) - d) with (8 * n - (d - 8)) by lia.
      rewrite <-(IH (d - 8)) by lia. lia.
  - unfold leading_zeros. rewrite (proj2 (Z.eqb_neq (u8 b) 0)) by done.
    assert (Z.log2 (u8 b) < 8) by (apply Z.log2_lt_pow2; simpl; lia).
    pose proof (Z.log2_nonneg (u8 b)).
    destruct (Z.log2_spec (u8 b) ltac:(lia)) as [Hlo Hhi].
    split; intros Hc.
    + assert (u8 b < 2 ^ (8 - d)).
      { eapply Z.lt_le_trans; [apply Hhi|]. apply Z.pow_le_mono_r; lia. }
      replace (8 * (1 + n) - d) with (8 - d + 8 * n) by lia. rewrite Z.pow_add_r by lia. nia.
    + destruct (Z.le_gt_cases d (7 - Z.log2 (u8 b))) as [|Hgt]; [done|exfalso].
      assert (2 ^ (8 * (1 + n) - d) <= 2 ^ Z.log2 (u8 b) * 2 ^ (8 * n)).
      { rewrite <-Z.pow_add_r by lia. apply Z.pow_le_mono_r; lia. }
      nia.
Qed.

(** ** The stamp as a search for a small hash *)
Section Mining.
Context {C : Crypto}.

(** The digest of a candidate, as a 256-bit number. *)
Definition digest_num (id : arr 32) (nonce : Z) : Z :=
  be_val 256 0 (map u8 (vec_to_list (sha256 (POW_DOMAIN ++ vec_to_list id ++ le_bytes 8 nonce)))).

Lemma work_digest id nonce d : 0 <= d <= 256 -> d <= work id nonce <-> digest_num id nonce < 2 ^ (256 - d).
Proof.
  intros Hd. unfold work, digest_num. rewrite leading_zero_bits_spec; rewrite length_vec_to_list; [done|]. simpl. lia.
Qed.

(** Mining finds the least nonce below the bound whose digest, as a number, is under
    2^(256 - difficulty), and the stamp verifies; it gives up exactly when there is none. *)
Theorem mine_least (id : arr 32) (difficulty max_attempts : Z) :
  0 <= difficulty <= 256 -> 0 <= max_attempts ->
  match mine id difficulty max_attempts with
  | Some n => 0 <= n < max_attempts /\ digest_num id n < 2 ^ (256 - difficulty) /\
              (forall j, 0 <= j < n -> 2 ^ (256 - difficulty) <= digest_num id j) /\
              pow_verify id n difficulty = Ok tt
  | None => forall j, 0 <= j < max_attempts -> 2 ^ (256 - difficulty) <= digest_num id j
  end.
Proof.
  intros Hd Hm. assert (forall j, work id j < difficulty -> 2 ^ (256 - difficulty) <= digest_num id j) as Hlow.
  { intros j Hj. apply Z.nlt_ge. rewrite <-work_digest by done. lia. }
  destruct (mine id difficulty max_attempts) as [n|] eqn:E.
  - apply mine_from_Some in E as (Hn & Hw & Hmin). split_and!; [lia..|by apply work_digest| |].
    + intros j Hj. apply Hlow, Hmin. lia.
    + unfold pow_verify. rewrite (proj2 (Z.leb_le _ _) Hw). by destruct (difficulty =? 0).
  - intros j Hj. apply Hlow. apply (proj1 (mine_from_None _ _ _ _) E). lia.
Qed.
End Mining.

Lemma mine_least_witness :
  (0 <= 3 <= 256 /\ 0 <= 40) /\ mine (C := toy_crypto) (zeroes 32) 3 40 = Some 2 /\
  pow_verify (C := toy_crypto) (zeroes 32) 2 3 = Ok tt.
Proof.
  assert (0 <= 3 <= 256 /\ 0 <= 40) as [H H'] by lia.
  assert (mine (C := toy_crypto) (zeroes 32) 3 40 = Some 2) as E by (vm_compute; reflexivity).
  pose proof (mine_least (C := toy_crypto) (zeroes 32) 3 40 H H') as M. rewrite E in M.
  split; [split; [exact H|exact H']|split; [exact E|]]. exact (proj2 (proj2 (proj2 M))).
Defined.
