(* ===== verification/Address.v ===== *)
(** Key addresses, destinations and handles: [pigeonpost-core/src/address.rs]. *)
From S2P Require Import Prelude Text B32 Network Crypto Origin Token.

Definition ADDRESS_BYTES : nat := 16.
Definition ADDRESS_CHARS : nat := 26.
Definition KEY_PREFIX : str := lit "/k/".
Definition MAX_LOFT_HINT_BYTES : nat := 2048.
Definition MAX_HANDLE_BYTES : nat := 320.
Definition MAX_HANDLE_NAMESPACE_BYTES : nat := 32.
Definition MAX_ADDRESS_BYTES : nat := 254.
Definition MAX_HANDLE_NAME_BYTES : nat := 39.

(** * Data *)

Record Address := MkAddress { address_str : str }.
#[global] Instance Address_eq_dec : EqDecision Address.
Proof. solve_decision. Defined.

Inductive DestinationTarget :=
| Key (a : Address)
| Handle (h : str).
#[global] Instance DestinationTarget_eq_dec : EqDecision DestinationTarget.
Proof. solve_decision. Defined.

Record Destination := {
  target : DestinationTarget;
  loft_hint : option str;
  dest_token : option Token;
}.

(** * Key addresses *)

Definition parse (input : str) : result Error Address :=
  body ← ok_or (strip_prefix KEY_PREFIX input) (MalformedAddress "missing /k/ prefix");
  _ ← guard (negb (length body =? ADDRESS_CHARS)%nat) (MalformedAddress "wrong length");
  decoded ← match decode body with
            | Ok d => Ok d
            | Err _ => Err (MalformedAddress "bad base32")
            end;
  _ ← guard (length decoded <? ADDRESS_BYTES)%nat (MalformedAddress "insufficient entropy");
  Ok (MkAddress (KEY_PREFIX ++ encode (take ADDRESS_BYTES decoded))).

Section KeyAddress.
Context {C : Crypto}.

Definition from_pubkey (pubkey : VerifyingKey) : Address :=
  let digest := sha256 (vec_to_list pubkey) in
  MkAddress (KEY_PREFIX ++ encode (take ADDRESS_BYTES (vec_to_list digest))).

Definition address_matches (a : Address) (pubkey : VerifyingKey) : bool :=
  a ≟ from_pubkey pubkey.
End KeyAddress.

(** * Handles *)

Definition plain_byte (b : byte) : bool :=
  is_ascii_alphanumeric b || (b ≟ "-"%byte) || (b ≟ "_"%byte) || (b ≟ "."%byte).

Definition address_local_byte (b : byte) : bool :=
  is_ascii_alphanumeric b || existsb (fun c => b ≟ c) (lit "!$&'*+-=^_`{|}~.").

Definition edge_char (b : byte) : bool := (b ≟ "-"%byte) || (b ≟ "."%byte) || (b ≟ "@"%byte).
Definition edge_marked (segment : str) : bool :=
  match segment with b :: _ => edge_char b | [] => false end
  || match last segment with Some b => edge_char b | None => false end.

Definition looks_like_address (segment : str) : bool :=
  match split_once "@"%byte segment with
  | Some (local, domain) => negb (local ≟ []) && contains_byte "."%byte domain
  | None => false
  end.

Definition bad_chars : Error := MalformedAddress "bad handle characters".
Definition bad_shape : Error := MalformedAddress "bad handle shape".
Definition bad_length : Error := MalformedAddress "bad handle length".

Definition count_byte (c : byte) (s : str) : nat := length (List.filter (fun b => b ≟ c) s).

Definition bad_label (label : str) : bool :=
  (label ≟ [])
  || (63 <? length label)%nat
  || negb (forallb (fun b => is_ascii_alphanumeric b || (b ≟ "-"%byte)) label)
  || starts_with (lit "-") label
  || ends_with (lit "-") label.

Definition validate_address_segment (segment : str) : result Error unit :=
  _ ← guard (MAX_ADDRESS_BYTES <? length segment)%nat bad_length;
  '(local, domain) ← ok_or (split_once "@"%byte segment) bad_shape;
  _ ← guard (1 <? count_byte "@"%byte segment)%nat bad_chars;
  _ ← guard ((local ≟ []) || (domain ≟ [])) bad_shape;
  _ ← guard (negb (forallb address_local_byte local) || edge_marked local) bad_chars;
  let labels := split "."%byte domain in
  _ ← guard (length labels <? 2)%nat bad_shape;
  guard (existsb bad_label labels) bad_chars.

(** The two branches of a segment's check; [max] is the bound of its position. *)
Definition validate_segment (max : nat) (segment : str) : result Error unit :=
  if looks_like_address segment then validate_address_segment segment
  else
    _ ← guard ((segment ≟ []) || (max <? length segment)%nat) bad_shape;
    guard (negb (forallb plain_byte segment) || edge_marked segment) bad_chars.

Fixpoint validate_names (segments : list str) : result Error unit :=
  match segments with
  | [] => Ok tt
  | s :: rest => _ ← validate_segment MAX_HANDLE_NAME_BYTES s; validate_names rest
  end.

Definition canonical_handle (input : str) : result Error str :=
  _ ← guard ((input ≟ []) || (MAX_HANDLE_BYTES <? length input)%nat || negb (is_ascii input)) bad_length;
  let trimmed := match strip_prefix (lit "/") input with Some t => t | None => input end in
  let segments := split "/"%byte trimmed in
  _ ← guard (3 <? length segments)%nat (MalformedAddress "too many segments in handle");
  match segments with
  | [only] =>
      _ ← guard (negb (looks_like_address only)) (MalformedAddress "expected /<namespace>/<name>");
      _ ← validate_address_segment only;
      Ok (lit "/" ++ to_ascii_lowercase only)
  | head :: names =>
      _ ← guard (eq_ignore_ascii_case head (lit "gh"))
                (MalformedAddress "legacy /gh namespace is not supported; use /github");
      _ ← validate_segment MAX_HANDLE_NAMESPACE_BYTES head;
      _ ← validate_names names;
      Ok (flat_map (fun segment => lit "/" ++ to_ascii_lowercase segment) segments)
  | [] => Err bad_shape
  end.

Definition namespace_root (input : str) : option str :=
  if (input ≟ []) || (MAX_HANDLE_BYTES <? length input)%nat || negb (is_ascii input) then None
  else
    trimmed ← strip_prefix (lit "/") input;
    let namespace := match strip_suffix (lit "/") trimmed with Some n => n | None => trimmed end in
    if (namespace ≟ [])
       || (MAX_HANDLE_NAMESPACE_BYTES <? length namespace)%nat
       || contains_byte "/"%byte namespace
       || eq_ignore_ascii_case namespace (lit "gh")
       || starts_with (lit "-") namespace
       || ends_with (lit "-") namespace
    then None
    else if negb (forallb plain_byte namespace) then None
    else if eq_ignore_ascii_case namespace (lit "k") then None
    else Some (to_ascii_lowercase namespace).

(** * Loft hints *)

(** [char::is_control] (category Cc) and [char::is_whitespace] (White_Space). *)
Definition is_control (c : Z) : bool := (c <=? 0x1f) || ((0x7f <=? c) && (c <=? 0x9f)).
Definition is_whitespace (c : Z) : bool :=
  ((9 <=? c) && (c <=? 13)) || (c =? 32) || (c =? 0x85) || (c =? 0xa0) || (c =? 0x1680)
  || ((0x2000 <=? c) && (c <=? 0x200a)) || (c =? 0x2028) || (c =? 0x2029)
  || (c =? 0x202f) || (c =? 0x205f) || (c =? 0x3000).

Section Destinations.
Context {UP : UrlParser}.

Definition validate_loft_hint (hint : str) : result Error unit :=
  _ ← guard ((hint ≟ []) || (MAX_LOFT_HINT_BYTES <? length hint)%nat)
            (MalformedAddress "bad loft hint length");
  _ ← guard (existsb (fun c => is_control c || is_whitespace c) (chars hint))
            (MalformedAddress "bad loft hint");
  url ← ok_or (url_parse hint) (MalformedAddress "bad loft hint URL");
  _ ← guard (cannot_be_a_base url
             || negb (username url ≟ [])
             || is_some (password url)
             || negb (is_some (host_str url))
             || (port url ≟ Some 0)
             || negb ((path url ≟ []) || (path url ≟ lit "/"))
             || is_some (query url)
             || is_some (fragment url)) (MalformedAddress "loft hint must be an origin");
  host ← ok_or (host_str url) (MalformedAddress "loft hint has no host");
  _ ← guard (is_localhost_name host) (MalformedAddress "loft hint cannot use localhost");
  guard (negb (scheme url ≟ lit "https")
         && negb ((scheme url ≟ lit "http") && is_numeric_loopback_host host))
        (MalformedAddress "loft hint must use HTTPS").

Definition for_address (a : Address) : Destination :=
  {| target := Key a; loft_hint := None; dest_token := None |}.

Definition for_handle (handle : str) : result Error Destination :=
  h ← canonical_handle handle;
  Ok {| target := Handle h; loft_hint := None; dest_token := None |}.

Definition parse_token (fragment : option str) : result Error (option Token) :=
  match fragment with
  | Some value =>
      hex ← ok_or (strip_prefix (lit "t=") value) (MalformedAddress "unknown fragment");
      t ← ok_or (from_hex hex) (MalformedAddress "bad capability token");
      Ok (Some t)
  | None => Ok None
  end.

Definition parse_hint (query : option str) : result Error (option str) :=
  match query with
  | Some value =>
      hint ← ok_or (strip_prefix (lit "l=") value) (MalformedAddress "unknown query");
      _ ← validate_loft_hint hint;
      Ok (Some hint)
  | None => Ok None
  end.

Definition parse_target (bare : str) : result Error DestinationTarget :=
  if starts_with KEY_PREFIX bare
  then a ← parse bare; Ok (Key a)
  else h ← canonical_handle bare; Ok (Handle h).

(** The iterator pattern [let mut it = s.split(c); it.next(); it.next(); it.next().is_some()]:
    the text before the only separator, and the text after it. *)
Definition cut (c : byte) (e : Error) (s : str) : result Error (str * option str) :=
  match split c s with
  | [a] => Ok (a, None)
  | [a; f] => Ok (a, Some f)
  | _ => Err e
  end.

Definition destination_parse (input : str) : result Error Destination :=
  '(before_fragment, fragment) ← cut "#"%byte (MalformedAddress "multiple fragments") input;
  token ← parse_token fragment;
  '(bare, query) ← cut "?"%byte (MalformedAddress "multiple queries") before_fragment;
  hint ← parse_hint query;
  target ← parse_target bare;
  Ok {| target := target; loft_hint := hint; dest_token := token |}.

Definition dest_address (d : Destination) : option Address :=
  match target d with Key a => Some a | Handle _ => None end.
Definition dest_handle (d : Destination) : option str :=
  match target d with Key _ => None | Handle h => Some h end.
End Destinations.

(** * Canonical key addresses *)

Lemma parse_encode bs :
  length bs = ADDRESS_BYTES ->
  parse (KEY_PREFIX ++ encode bs) = Ok (MkAddress (KEY_PREFIX ++ encode bs)).
Proof.
  intros Hlen. unfold parse. rewrite strip_prefix_app. cbn [ok_or mbind result_bind].
  assert (length (encode bs) = ADDRESS_CHARS) as ->.
  { pose proof (length_encode bs) as H. rewrite Hlen in H. unfold ADDRESS_BYTES in H.
    change ((8 * Z.of_nat 16 + 4) / 5) with 26 in H. unfold ADDRESS_CHARS. lia. }
  cbn [Nat.eqb negb guard mbind result_bind ADDRESS_CHARS]. rewrite decode_encode_ok.
  cbn [guard mbind result_bind]. rewrite Hlen. cbn [guard mbind result_bind Nat.ltb Nat.leb ADDRESS_BYTES].
  rewrite take_ge by lia. done.
Qed.

Lemma parse_Ok s a :
  parse s = Ok a -> exists bs, length bs = ADDRESS_BYTES /\ address_str a = KEY_PREFIX ++ encode bs.
Proof.
  unfold parse. intros H. inv_ok. subst a. b2p. eexists. split; [|done].
  rewrite length_take. lia.
Qed.

Lemma parse_idempotent s a : parse s = Ok a -> parse (address_str a) = Ok a.
Proof.
  intros H. apply parse_Ok in H as (bs & Hlen & E). destruct a as [t]. simpl in *. subst t.
  by apply parse_encode.
Qed.

Lemma encode_inj a b : encode a = encode b -> a = b.
Proof.
  intros E. pose proof (decode_encode_ok a) as Ha. rewrite E, decode_encode_ok in Ha. congruence.
Qed.

(** * Lower case and the handle grammar

    Every test of the grammar is insensitive to ASCII case. *)

Section Lower.
Variable c : byte.
Hypothesis Hc : forall b, (lower b ≟ c) = (b ≟ c).

Lemma split_lower s : split c (to_ascii_lowercase s) = map to_ascii_lowercase (split c s).
Proof.
  induction s as [|b s IH]; [done|]. cbn [to_ascii_lowercase map split]. rewrite Hc.
  unfold to_ascii_lowercase in IH at 1. rewrite IH. case_bool_decide; [done|].
  by destruct (split c s).
Qed.

Lemma split_once_lower s :
  split_once c (to_ascii_lowercase s) =
  match split_once c s with
  | Some (x, y) => Some (to_ascii_lowercase x, to_ascii_lowercase y)
  | None => None
  end.
Proof.
  induction s as [|b s IH]; [done|]. cbn [to_ascii_lowercase map split_once]. rewrite Hc.
  unfold to_ascii_lowercase in IH at 1. rewrite IH. case_bool_decide; [done|].
  by destruct (split_once c s) as [[x y]|].
Qed.

Lemma contains_byte_lower s : contains_byte c (to_ascii_lowercase s) = contains_byte c s.
Proof.
  unfold contains_byte, to_ascii_lowercase. induction s as [|b s IH]; [done|].
  simpl. by rewrite Hc, IH.
Qed.

Lemma count_byte_lower s : count_byte c (to_ascii_lowercase s) = count_byte c s.
Proof.
  unfold count_byte, to_ascii_lowercase. induction s as [|b s IH]; [done|].
  simpl. rewrite Hc. case_bool_decide; simpl; by rewrite IH.
Qed.

Lemma starts_with_lower s : starts_with [c] (to_ascii_lowercase s) = starts_with [c] s.
Proof.
  unfold starts_with. destruct s as [|b s]; [done|]. simpl.
  assert ((c ≟ lower b) = (c ≟ b)) as ->; [|by destruct (c ≟ b)].
  rewrite (bool_decide_ext (c = lower b) (lower b = c)), (bool_decide_ext (c = b) (b = c)) by done.
  apply Hc.
Qed.

Lemma ends_with_lower s : ends_with [c] (to_ascii_lowercase s) = ends_with [c] s.
Proof.
  assert (forall t, ends_with [c] t = starts_with [c] (rev t)) as E.
  { intros t. unfold ends_with, starts_with, strip_suffix. change (rev [c]) with [c].
    by destruct (strip_prefix [c] (rev t)). }
  rewrite !E. unfold to_ascii_lowercase. rewrite <-map_rev. apply starts_with_lower.
Qed.
End Lower.

Lemma forallb_lower f s :
  (forall b, f (lower b) = f b) -> forallb f (to_ascii_lowercase s) = forallb f s.
Proof. intros H. induction s as [|b s IH]; [done|]. simpl. by rewrite H, IH. Qed.

Lemma to_ascii_lowercase_nil s : (to_ascii_lowercase s ≟ []) = (s ≟ []).
Proof. by destruct s. Qed.

Lemma eq_ignore_ascii_case_lower s t :
  eq_ignore_ascii_case (to_ascii_lowercase s) t = eq_ignore_ascii_case s t.
Proof. unfold eq_ignore_ascii_case. by rewrite to_ascii_lowercase_idem. Qed.

Lemma is_ascii_lower s : is_ascii (to_ascii_lowercase s) = is_ascii s.
Proof. apply forallb_lower. byte_enum. Qed.

Lemma edge_marked_lower s : edge_marked (to_ascii_lowercase s) = edge_marked s.
Proof.
  assert (forall b, edge_char (lower b) = edge_char b) as Hb by byte_enum.
  unfold edge_marked. f_equal; [destruct s; simpl; [done|apply Hb]|].
  assert (last (to_ascii_lowercase s) = lower <$> last s) as ->.
  { unfold to_ascii_lowercase. change (map lower s) with (lower <$> s). by rewrite fmap_last. }
  destruct (last s); simpl; [apply Hb|done].
Qed.

Lemma looks_like_address_lower s :
  looks_like_address (to_ascii_lowercase s) = looks_like_address s.
Proof.
  unfold looks_like_address. rewrite split_once_lower by byte_enum.
  destruct (split_once _ s) as [[x y]|]; [|done].
  by rewrite to_ascii_lowercase_nil, contains_byte_lower by byte_enum.
Qed.

Lemma bad_label_lower s : bad_label (to_ascii_lowercase s) = bad_label s.
Proof.
  unfold bad_label.
  rewrite to_ascii_lowercase_nil, length_to_ascii_lowercase, forallb_lower by byte_enum.
  change (lit "-") with ["-"%byte]. by rewrite starts_with_lower, ends_with_lower by byte_enum.
Qed.

Lemma existsb_map {A B} (f : A -> B) (g : B -> bool) l : existsb g (map f l) = existsb (fun x => g (f x)) l.
Proof. induction l; simpl; congruence. Qed.

Lemma existsb_ext {A} (f g : A -> bool) l : (forall x, f x = g x) -> existsb f l = existsb g l.
Proof. intros H. induction l; simpl; congruence. Qed.

Lemma validate_address_segment_lower s :
  validate_address_segment (to_ascii_lowercase s) = validate_address_segment s.
Proof.
  unfold validate_address_segment.
  rewrite length_to_ascii_lowercase, split_once_lower, count_byte_lower by byte_enum.
  destruct (MAX_ADDRESS_BYTES <? length s)%nat; [done|]. cbn [guard mbind result_bind].
  destruct (split_once _ s) as [[x y]|]; [|done]. cbn [ok_or mbind result_bind].
  rewrite !to_ascii_lowercase_nil, forallb_lower, edge_marked_lower, split_lower by byte_enum.
  rewrite length_map, existsb_map, (existsb_ext _ bad_label) by apply bad_label_lower. done.
Qed.

Lemma validate_segment_lower max s :
  validate_segment max (to_ascii_lowercase s) = validate_segment max s.
Proof.
  unfold validate_segment. rewrite looks_like_address_lower, validate_address_segment_lower.
  rewrite to_ascii_lowercase_nil, length_to_ascii_lowercase, edge_marked_lower, forallb_lower by byte_enum.
  done.
Qed.

Lemma validate_names_Ok segs :
  validate_names segs = Ok tt <-> Forall (fun s => validate_segment MAX_HANDLE_NAME_BYTES s = Ok tt) segs.
Proof.
  induction segs as [|s segs IH]; simpl; [by split|]. rewrite Forall_cons.
  destruct (validate_segment _ s) as [[]|e]; simpl; [rewrite IH; naive_solver|naive_solver].
Qed.

(** ** The grammar, declaratively *)

Definition trim_slash (input : str) : str :=
  match strip_prefix (lit "/") input with Some t => t | None => input end.

(** The canonical text of a list of segments. *)
Definition handle_text (segs : list str) : str :=
  flat_map (fun s => lit "/" ++ to_ascii_lowercase s) segs.

Definition valid_segments (segs : list str) : Prop :=
  match segs with
  | [] => False
  | [only] => looks_like_address only = true /\ validate_address_segment only = Ok tt
  | head :: names =>
      (length names <= 2)%nat /\ eq_ignore_ascii_case head (lit "gh") = false /\
      validate_segment MAX_HANDLE_NAMESPACE_BYTES head = Ok tt /\
      Forall (fun s => validate_segment MAX_HANDLE_NAME_BYTES s = Ok tt) names
  end.

Definition bounded_ascii (input : str) : Prop :=
  input <> [] /\ (length input <= MAX_HANDLE_BYTES)%nat /\ is_ascii input = true.

Lemma guard_bounded input (E : bool) :
  E = ((input ≟ []) || (MAX_HANDLE_BYTES <? length input)%nat || negb (is_ascii input)) ->
  E = false <-> bounded_ascii input.
Proof.
  intros ->. unfold bounded_ascii. rewrite !orb_false_iff, negb_false_iff, bool_decide_eq_false, Nat.ltb_ge.
  tauto.
Qed.

Ltac solve_iff := split; intros; destruct_and?; simplify_eq; repeat split; try done; try lia.

Lemma canonical_handle_Ok input h :
  canonical_handle input = Ok h <->
  bounded_ascii input /\ valid_segments (split "/"%byte (trim_slash input)) /\
  h = handle_text (split "/"%byte (trim_slash input)).
Proof.
  unfold canonical_handle. fold (trim_slash input).
  set (E := (_ || negb (is_ascii input))%bool).
  rewrite <-(guard_bounded input E eq_refl). destruct E; simpl; [solve_iff|].
  generalize (split "/"%byte (trim_slash input)) as segs. intros segs.
  destruct segs as [|only [|name names]].
  - simpl. solve_iff.
  - cbn -[looks_like_address validate_address_segment]. rewrite app_nil_r.
    destruct (looks_like_address only); simpl; [|solve_iff].
    destruct (validate_address_segment only) as [[]|e]; simpl; solve_iff.
  - cbn -[validate_segment validate_names handle_text Nat.ltb eq_ignore_ascii_case flat_map].
    change (flat_map _ _) with (handle_text (only :: name :: names)).
    rewrite <-validate_names_Ok. destruct (3 <? _)%nat eqn:E3; b2p; simpl in E3.
    { simpl. split; [done|]. intros (_ & (? & _) & _). lia. }
    cbn -[validate_segment validate_names handle_text eq_ignore_ascii_case].
    destruct (eq_ignore_ascii_case only (lit "gh")); simpl; [solve_iff|].
    destruct (validate_segment _ only) as [[]|e]; simpl; [|solve_iff].
    destruct (validate_segment _ name) as [[]|e]; simpl; [|solve_iff].
    destruct (validate_names names) as [[]|e]; simpl; [|solve_iff].
    split; [intros [= <-]; repeat split; lia|]. by intros (_ & _ & ->).
Qed.

Lemma handle_text_join segs :
  segs <> [] -> handle_text segs = "/"%byte :: join "/"%byte (map to_ascii_lowercase segs).
Proof.
  induction segs as [|s segs IH]; intros Hne; [done|]. simpl handle_text.
  destruct segs as [|s' segs]; [simpl; by rewrite app_nil_r|].
  rewrite IH by done. change (map to_ascii_lowercase (s :: s' :: segs))
    with (to_ascii_lowercase s :: map to_ascii_lowercase (s' :: segs)).
  by rewrite join_cons.
Qed.

Lemma split_handle_text segs :
  segs <> [] -> Forall (fun p => "/"%byte ∉ p) segs ->
  split "/"%byte (trim_slash (handle_text segs)) = map to_ascii_lowercase segs.
Proof.
  intros Hne Hsl. rewrite handle_text_join by done. unfold trim_slash.
  change (strip_prefix (lit "/") ("/"%byte :: ?x)) with (Some x). cbn iota.
  rewrite split_join; [done|by destruct segs|].
  apply Forall_map. eapply Forall_impl; [done|]. intros p Hp Hin. apply Hp.
  unfold to_ascii_lowercase in Hin. apply list_elem_of_In, in_map_iff in Hin as (b & Hb & Hin).
  apply list_elem_of_In. assert (forall b, (lower b ≟ "/"%byte) = (b ≟ "/"%byte)) as H by byte_enum.
  specialize (H b). rewrite Hb, bool_decide_true in H by done. symmetry in H. b2p. by subst.
Qed.

Lemma valid_segments_lower segs : valid_segments segs -> valid_segments (map to_ascii_lowercase segs).
Proof.
  destruct segs as [|s [|t segs]]; simpl; [done|..].
  - by rewrite looks_like_address_lower, validate_address_segment_lower.
  - rewrite length_map, eq_ignore_ascii_case_lower, validate_segment_lower.
    intros (? & ? & ? & Hn). repeat split; try done.
    change (Forall (fun s => validate_segment MAX_HANDLE_NAME_BYTES s = Ok tt)
              (map to_ascii_lowercase (t :: segs))). apply Forall_map.
    eapply Forall_impl; [done|]. intros x Hx. cbn beta in *. by rewrite validate_segment_lower.
Qed.

Lemma handle_text_lower segs : handle_text (map to_ascii_lowercase segs) = handle_text segs.
Proof.
  induction segs as [|s segs IH]; [done|]. unfold handle_text in *. cbn [map flat_map].
  by rewrite to_ascii_lowercase_idem, IH.
Qed.

Lemma length_join c ps : ps <> [] ->
  S (length (join c ps)) = (sum_list (length <$> ps) + length ps)%nat.
Proof.
  induction ps as [|p ps IH]; intros Hne; [done|]. destruct ps as [|q ps].
  - simpl. lia.
  - rewrite join_cons, length_app by done. cbn [length]. rewrite IH by done. simpl. lia.
Qed.

Lemma is_ascii_handle_text segs : is_ascii (handle_text segs) = forallb is_ascii segs.
Proof.
  induction segs as [|s segs IH]; [done|]. unfold handle_text in *. cbn [flat_map forallb].
  by rewrite !is_ascii_app, is_ascii_lower, IH.
Qed.

Lemma is_ascii_join c ps : is_ascii (join c ps) = true -> forallb is_ascii ps = true.
Proof.
  induction ps as [|p ps IH]; [done|]. destruct ps as [|q ps].
  - simpl. by rewrite andb_true_r.
  - rewrite join_cons, is_ascii_app by done. intros H. b2p.
    change (is_ascii (c :: ?x)) with ((u8 c <? 128) && is_ascii x) in *. b2p.
    change (is_ascii p && forallb is_ascii (q :: ps) = true). by rewrite IH, andb_true_r.
Qed.

Lemma length_handle_text segs : segs <> [] ->
  length (handle_text segs) = S (length (join "/"%byte segs)).
Proof.
  intros Hne. rewrite handle_text_join by done. simpl. f_equal.
  apply (f_equal pred (x := S _) (y := S _)).
  rewrite !length_join, length_map by (by destruct segs). f_equal. f_equal.
  induction segs as [|s segs IH]; [done|]. simpl. rewrite length_to_ascii_lowercase. f_equal.
  destruct segs; [done|]. by apply IH.
Qed.

Lemma canonical_handle_length input h :
  canonical_handle input = Ok h -> length h = S (length (trim_slash input)).
Proof.
  intros H. apply canonical_handle_Ok in H as (_ & _ & ->).
  rewrite length_handle_text, join_split by apply split_not_nil. done.
Qed.

Lemma is_ascii_trim_slash input : is_ascii input = true -> is_ascii (trim_slash input) = true.
Proof.
  unfold trim_slash. destruct (strip_prefix _ _) as [t|] eqn:E; [|done].
  apply strip_prefix_Some in E as ->. rewrite is_ascii_app. intros H. by b2p.
Qed.

Lemma canonical_handle_idem input h :
  canonical_handle input = Ok h -> (length h <= MAX_HANDLE_BYTES)%nat -> canonical_handle h = Ok h.
Proof.
  intros H Hlen. apply canonical_handle_Ok in H as ((Hne & Hl & Ha) & Hv & ->).
  set (segs := split "/"%byte (trim_slash input)) in *.
  assert (segs <> []) as Hs by apply split_not_nil.
  apply canonical_handle_Ok. rewrite split_handle_text by (done || apply split_pieces).
  split; [|by split; [apply valid_segments_lower|rewrite handle_text_lower]].
  split; [|split; [done|]].
  - rewrite handle_text_join by done. done.
  - rewrite is_ascii_handle_text. apply (is_ascii_join "/"%byte). unfold segs.
    rewrite join_split. by apply is_ascii_trim_slash.
Qed.

(** * Properties *)

(** Parsing is canonicalising: whatever spelling was accepted, the stored
    text parses back to the same address, and it is the key prefix followed by 26
    characters. *)
Theorem address_parse_canonical (s : str) (a : Address) :
  parse s = Ok a ->
  parse (address_str a) = Ok a /\
  exists body, address_str a = KEY_PREFIX ++ body /\ length body = ADDRESS_CHARS /\
    exists bs, body = encode bs /\ length bs = ADDRESS_BYTES.
Proof.
  intros H. split; [by eapply parse_idempotent|].
  apply parse_Ok in H as (bs & Hlen & ->). exists (encode bs). split; [done|]. split; [|by exists bs].
  pose proof (length_encode bs) as E. rewrite Hlen in E. unfold ADDRESS_CHARS.
  change ((8 * Z.of_nat ADDRESS_BYTES + 4) / 5) with 26 in E. lia.
Qed.

Lemma address_parse_canonical_witness :
  let typed := lit "/k/OOOOIIIILLLL0123456789ABCD" in
  let stored := MkAddress (lit "/k/0000111111110123456789abcc") in
  parse typed = Ok stored /\ parse (address_str stored) = Ok stored.
Proof.
  split; [vm_compute; reflexivity|].
  exact (proj1 (address_parse_canonical (lit "/k/OOOOIIIILLLL0123456789ABCD") _
                  ltac:(vm_compute; reflexivity))).
Defined.

(** An address is self-certifying: the derived address parses to itself,
    matches its key, and matches another key only when the first 16 bytes of the two
    SHA-256 digests agree. *)
Theorem address_self_certifying {C : Crypto} (k k' : VerifyingKey) :
  parse (address_str (from_pubkey k)) = Ok (from_pubkey k) /\
  address_matches (from_pubkey k) k = true /\
  (address_matches (from_pubkey k) k' = true <->
   take ADDRESS_BYTES (vec_to_list (sha256 (vec_to_list k))) =
   take ADDRESS_BYTES (vec_to_list (sha256 (vec_to_list k')))).
Proof.
  unfold address_matches, from_pubkey. split; [|split].
  - apply parse_encode. by rewrite length_take, length_vec_to_list.
  - by apply bool_decide_eq_true.
  - rewrite bool_decide_eq_true. split; [|by intros ->].
    intros E. injection E as E. by apply encode_inj.
Qed.

(** A canonical handle is stable: it is lower case, at most one byte longer than
    the accepted input, and, within the length bound, canonicalises to itself. *)
Theorem canonical_handle_stable (input h : str) :
  canonical_handle input = Ok h ->
  to_ascii_lowercase h = h /\ (length h <= S (length input))%nat /\
  ((length h <= MAX_HANDLE_BYTES)%nat -> canonical_handle h = Ok h).
Proof.
  intros H. split; [|split].
  - apply canonical_handle_Ok in H as (_ & _ & ->). rewrite handle_text_join by apply split_not_nil.
    generalize (split "/"%byte (trim_slash input)) as segs. intros segs. simpl. f_equal.
    induction segs as [|s segs IH]; [done|]. destruct segs as [|t segs].
    + apply to_ascii_lowercase_idem.
    + change (map to_ascii_lowercase (s :: t :: segs))
        with (to_ascii_lowercase s :: map to_ascii_lowercase (t :: segs)).
      rewrite join_cons by done. unfold to_ascii_lowercase at 1. rewrite map_app.
      f_equal; [apply to_ascii_lowercase_idem|]. cbn [map]. f_equal. apply IH.
  - rewrite (canonical_handle_length _ _ H). unfold trim_slash.
    destruct (strip_prefix _ _) eqn:E; [apply strip_prefix_Some in E as ->|lia].
    rewrite length_app. lia.
  - by apply (canonical_handle_idem input).
Qed.

Lemma canonical_handle_stable_witness :
  canonical_handle (lit "GitHub/Alex/Agent1") = Ok (lit "/github/alex/agent1") /\
  canonical_handle (lit "/github/alex/agent1") = Ok (lit "/github/alex/agent1").
Proof.
  split; [vm_compute; reflexivity|].
  apply (canonical_handle_stable (lit "GitHub/Alex/Agent1") _ ltac:(vm_compute; reflexivity)).
  vm_compute. lia.
Defined.

(** The bound is on the input, not on the canonical text: an accepted handle of
    exactly 320 bytes with no leading slash has a canonical form of 321 bytes, which
    the same function rejects. *)
Theorem canonical_handle_can_exceed_bound :
  exists input h, canonical_handle input = Ok h /\ length h = S MAX_HANDLE_BYTES /\
    canonical_handle h = Err bad_length.
Proof.
  exists (repeat "a"%byte 250 ++ lit "@b.c" ++ lit "/" ++ repeat "a"%byte 61 ++ lit "@b.c").
  eexists. split; [vm_compute; reflexivity|]. split; vm_compute; reflexivity.
Qed.

(** Handles can take the spelling of the key tier: an upper-case key prefix is not
    recognised as one, and the text is canonicalised into a handle that reads as a key
    address (and as such parses to a key destination). *)
Theorem handle_can_shadow_key_address {UP : UrlParser} :
  exists input h a, destination_parse input =
      Ok {| target := Handle h; loft_hint := None; dest_token := None |} /\
    destination_parse h = Ok {| target := Key a; loft_hint := None; dest_token := None |} /\
    address_str a = h.
Proof.
  exists (lit "/K/j5pxq82nf4wt3h9m6rbdck0syr"), (lit "/k/j5pxq82nf4wt3h9m6rbdck0syr").
  eexists (MkAddress _). repeat split; vm_compute; reflexivity.
Qed.

(** The text of a decoration: a marker and its value, or nothing. *)
Definition decoration (mark : string) (v : option str) : str :=
  match v with Some v => lit mark ++ v | None => [] end.

Definition free_of (c : byte) (v : option str) : Prop :=
  match v with Some v => c ∉ v | None => True end.

Section Decorations.
Context {UP : UrlParser}.

Lemma parse_token_Ok f t :
  parse_token f = Ok t <->
  exists hex, f = (fun h => lit "t=" ++ h) <$> hex /\
    match hex, t with
    | Some h, Some t => from_hex h = Some t
    | None, None => True
    | _, _ => False
    end.
Proof.
  unfold parse_token. destruct f as [v|].
  - split.
    + intros H. inv_ok. apply strip_prefix_Some in Ha as ->. exists (Some a). subst t. done.
    + intros ([h|] & E & Ht); [|done]. destruct t as [t|]; [|done].
      assert (v = lit "t=" ++ h) as -> by (by injection E). rewrite strip_prefix_app. simpl. by rewrite Ht.
  - split.
    + intros [= <-]. by exists None.
    + intros ([h|] & E & Ht); [done|]. by destruct t.
Qed.

Lemma parse_hint_Ok q h :
  parse_hint q = Ok h <->
  q = (fun x => lit "l=" ++ x) <$> h /\
  match h with Some x => validate_loft_hint x = Ok tt | None => True end.
Proof.
  unfold parse_hint. destruct q as [v|].
  - split.
    + intros H. inv_ok. apply strip_prefix_Some in Ha as ->. subst h.
      match goal with x : unit |- _ => destruct x end. done.
    + intros [E Hv]. destruct h as [h|]; [|done].
      assert (v = lit "l=" ++ h) as -> by (by injection E). rewrite strip_prefix_app. simpl. by rewrite Hv.
  - split; [intros [= <-]; done|]. intros [E _]. by destruct h.
Qed.

Lemma cut_Ok c e s a o :
  cut c e s = Ok (a, o) <->
  s = a ++ match o with Some f => c :: f | None => [] end /\ c ∉ a /\ free_of c o.
Proof.
  unfold cut. split.
  - destruct (split c s) as [|x [|y [|z l]]] eqn:E; try done; intros [= <- <-].
    + apply split_one in E as [-> ?]. by rewrite app_nil_r.
    + by apply split_two in E.
  - intros (-> & Ha & Ho). destruct o as [f|].
    + by rewrite (proj2 (split_two c _ a f)).
    + rewrite app_nil_r. by rewrite (proj2 (split_one c a a)).
Qed.

Lemma free_of_marked c mark o :
  c ∉ mark -> free_of c ((fun x => mark ++ x) <$> o) <-> free_of c o.
Proof. intros Hm. destruct o as [x|]; simpl; [|done]. rewrite not_elem_of_app. tauto. Qed.

(** Nothing of a destination is ignored: an accepted input is exactly its
    target's text, at most one [?l=] origin and at most one [#t=] token, in that
    order, each of which passed its own check; and every such text is accepted. *)
Theorem destination_parse_complete (input : str) (d : Destination) :
  destination_parse input = Ok d <->
  exists bare hex,
    input = bare ++ decoration "?l=" (loft_hint d) ++ decoration "#t=" hex /\
    "#"%byte ∉ bare /\ "?"%byte ∉ bare /\
    free_of "#"%byte (loft_hint d) /\ free_of "?"%byte (loft_hint d) /\ free_of "#"%byte hex /\
    parse_target bare = Ok (target d) /\
    match loft_hint d with Some h => validate_loft_hint h = Ok tt | None => True end /\
    match hex, dest_token d with
    | Some x, Some t => from_hex x = Some t
    | None, None => True
    | _, _ => False
    end.
Proof.
  assert ("#"%byte ∉ lit "t=" /\ "#"%byte ∉ lit "l=" /\ "?"%byte ∉ lit "l=") as (M1 & M2 & M3).
  { repeat split; intros Hin; apply list_elem_of_In in Hin; vm_compute in Hin; intuition discriminate. }
  unfold destination_parse. split.
  - intros H. inv_ok. destruct a as [bf f]. inv_ok. destruct a0 as [bare q]. inv_ok. subst d.
    apply parse_token_Ok in Ha0 as (hex & -> & Hhex). apply parse_hint_Ok in Ha2 as (-> & Hhint).
    apply cut_Ok in Ha as (-> & Hbf & Hf), Ha1 as (-> & Hbare & Hq).
    apply free_of_marked in Hf, Hq; [|done..]. apply not_elem_of_app in Hbf as [Hb1 Hb2].
    exists bare, hex. cbn [loft_hint target dest_token]. repeat split; try done.
    + rewrite <-app_assoc. by destruct hex, a0.
    + destruct a0 as [x|]; [|done]. apply not_elem_of_cons in Hb2 as [_ Hb2].
      by apply not_elem_of_app in Hb2 as [_ ?].
  - destruct d as [t h tok]. cbn [loft_hint target dest_token].
    intros (bare & hex & -> & B1 & B2 & H1 & H2 & X1 & Ht & Hh & Hx).
    rewrite (proj2 (cut_Ok "#"%byte _ _ (bare ++ decoration "?l=" h) ((fun x => lit "t=" ++ x) <$> hex))).
    2:{ repeat split.
        - rewrite <-app_assoc. by destruct hex.
        - apply not_elem_of_app. split; [done|]. destruct h as [h|]; [|apply not_elem_of_nil].
          change (decoration "?l=" (Some h)) with ("?"%byte :: lit "l=" ++ h).
          apply not_elem_of_cons. split; [done|]. by apply not_elem_of_app.
        - by apply free_of_marked. }
    cbn [mbind result_bind]. rewrite (proj2 (parse_token_Ok _ tok)) by (exists hex; split; [done|]; by destruct hex, tok).
    cbn [mbind result_bind].
    rewrite (proj2 (cut_Ok "?"%byte _ _ bare ((fun x => lit "l=" ++ x) <$> h))).
    2:{ repeat split; [by destruct h|done|]. by apply free_of_marked. }
    cbn [mbind result_bind]. rewrite (proj2 (parse_hint_Ok _ h)) by done.
    cbn [mbind result_bind]. by rewrite Ht.
Qed.
End Decorations.
