(* ===== verification/Merkle.v ===== *)
(** The transparency log: [pigeonpost-registry/src/log.rs].  RFC 6962 Merkle trees
    over leaf hashes, the inclusion and consistency proofs a server produces, the
    two verifiers a client or witness runs, and the compact append frontier.

    [usize] lengths and the [u64] positions of the verifiers are natural numbers:
    the code only compares, halves and decrements them.  The frontier's [u64] size,
    whose overflow the code guards, is an [N]. *)
From S2P Require Import Prelude B32 Crypto.
From Equations Require Import Equations.

#[local] Open Scope nat_scope.

Abbreviation Hash := (arr 32).

(** Largest power of two strictly less than [n]: the loop [while k << 1 < n]. *)
Fixpoint split_loop (fuel k n : nat) : nat :=
  match fuel with
  | O => k
  | S fuel => if Nat.shiftl k 1 <? n then split_loop fuel (Nat.shiftl k 1) n else k
  end.
Definition split (n : nat) : nat := split_loop n 1 n.

Lemma split_loop_spec fuel n a :
  2 ^ a < n -> n <= 2 ^ (a + S fuel) ->
  exists m, split_loop fuel (2 ^ a) n = 2 ^ m /\ 2 ^ m < n <= 2 ^ S m.
Proof.
  revert a; induction fuel as [|fuel IH]; intros a Ha Hn; cbn [split_loop].
  { exists a. replace (a + 1) with (S a) in Hn by lia. done. }
  replace (Nat.shiftl (2 ^ a) 1) with (2 ^ S a) by (rewrite Nat.shiftl_mul_pow2; simpl; lia).
  destruct (2 ^ S a <? n) eqn:E; b2p.
  - apply IH; [done|]. by replace (S a + S fuel) with (a + S (S fuel)) by lia.
  - exists a. done.
Qed.

(** The split point is the power of two [2^m < n <= 2^(m+1)]. *)
Lemma split_spec n : 2 <= n -> exists m, split n = 2 ^ m /\ 2 ^ m < n <= 2 ^ S m.
Proof.
  intros Hn. apply (split_loop_spec n n 0); [simpl; lia|].
  simpl. pose proof (Nat.pow_gt_lin_r 2 n). simpl in *. lia.
Qed.

Lemma split_unique n m : 2 ^ m < n <= 2 ^ S m -> split n = 2 ^ m.
Proof.
  intros [H1 H2]. assert (2 <= n) as Hn by (pose proof (Nat.pow_nonzero 2 m); lia).
  destruct (split_spec n Hn) as (m' & -> & H1' & H2'). f_equal.
  destruct (Nat.lt_trichotomy m m') as [Hlt|[->|Hlt]]; [exfalso|done|exfalso].
  - pose proof (Nat.pow_le_mono_r 2 (S m) m'). lia.
  - pose proof (Nat.pow_le_mono_r 2 (S m') m). lia.
Qed.

Lemma split_bounds n : 2 <= n -> 1 <= split n < n.
Proof.
  intros Hn. destruct (split_spec n Hn) as (m & -> & H). pose proof (Nat.pow_nonzero 2 m). lia.
Qed.

(** The split as the shift [1 << (63 - (n - 1).leading_zeros())]. *)
Lemma split_shift n : 2 <= n -> 2 ^ Nat.log2 (n - 1) = split n.
Proof.
  intros H. symmetry. apply split_unique. pose proof (Nat.log2_spec (n - 1) ltac:(lia)) as [H1 H2]. lia.
Qed.

(** Slices of a list and the two sides of their split. *)
Section Slices.
Context {A : Type} (hs : list A).

Lemma take_drop_slice s n k : k <= n -> take k (take n (drop s hs)) = take k (drop s hs).
Proof. intros H. rewrite take_take. f_equal. lia. Qed.

Lemma drop_take_slice s n k : drop k (take n (drop s hs)) = take (n - k) (drop (s + k) hs).
Proof. rewrite <-take_drop_commute || rewrite skipn_firstn_comm. by rewrite drop_drop. Qed.

Lemma length_window start count : start + count <= length hs -> length (take count (drop start hs)) = count.
Proof. intros H. rewrite length_take, length_drop. lia. Qed.

Lemma slice_split start n :
  start + S (S n) <= length hs ->
  let k := split (S (S n)) in let ls := take (S (S n)) (drop start hs) in
  split (length ls) = k /\ 1 <= k < S (S n) /\ take k ls = take k (drop start hs) /\
  drop k ls = take (S (S n) - k) (drop (start + k) hs) /\ 2 <= length ls.
Proof.
  intros H k ls. pose proof (split_bounds (S (S n)) ltac:(lia)) as Hb. unfold ls. rewrite length_window by done.
  split; [done|]. split; [done|]. split; [apply take_drop_slice; unfold k; lia|]. split; [apply drop_take_slice|lia].
Qed.
End Slices.

Section Log.
Context {C : Crypto}.

Definition LEAF_PREFIX : byte := Byte.x00.
Definition NODE_PREFIX : byte := Byte.x01.

Definition empty_root : Hash := sha256 [].
Definition leaf_hash (data : bytes) : Hash := sha256 (LEAF_PREFIX :: data).
Definition node_hash (left right : Hash) : Hash :=
  sha256 (NODE_PREFIX :: vec_to_list left ++ vec_to_list right).
Definition hash_eq (left right : Hash) : bool := left ≟ right.

(** ** The full log *)

Record MerkleLog := { leaves : list Hash }.

Equations? root_range (ls : list Hash) : Hash by wf (length ls) lt :=
  root_range [] := empty_root;
  root_range [h] := h;
  root_range (a :: b :: rest) :=
    let k := split (length (a :: b :: rest)) in
    node_hash (root_range (take k (a :: b :: rest))) (root_range (drop k (a :: b :: rest))).
Proof.
  all: pose proof (split_bounds (length (a :: b :: rest)) ltac:(simpl; lia)) as H;
    change (S (S (length rest))) with (length (a :: b :: rest)) in *;
    rewrite ?length_take, ?length_drop; lia.
Qed.

Equations? path (ls : list Hash) (index : nat) : list Hash by wf (length ls) lt :=
  path [] index := [];
  path [h] index := [];
  path (a :: b :: rest) index :=
    let k := split (length (a :: b :: rest)) in
    if index <? k then
      path (take k (a :: b :: rest)) index ++ [root_range (drop k (a :: b :: rest))]
    else
      path (drop k (a :: b :: rest)) (index - k) ++ [root_range (take k (a :: b :: rest))].
Proof.
  all: pose proof (split_bounds (length (a :: b :: rest)) ltac:(simpl; lia)) as H;
    change (S (S (length rest))) with (length (a :: b :: rest)) in *;
    rewrite ?length_take, ?length_drop; lia.
Qed.

(** Called with [1 <= m <= length ls] only, where a list of fewer than two leaves is
    the old tree itself. *)
Equations? consistency (ls : list Hash) (m : nat) (is_root : bool) : list Hash by wf (length ls) lt :=
  consistency [] m is_root := if is_root then [] else [root_range []];
  consistency [h] m is_root := if is_root then [] else [root_range [h]];
  consistency (a :: b :: rest) m is_root :=
    if m =? length (a :: b :: rest) then
      if is_root then [] else [root_range (a :: b :: rest)]
    else
      let k := split (length (a :: b :: rest)) in
      if m <=? k then
        consistency (take k (a :: b :: rest)) m is_root ++ [root_range (drop k (a :: b :: rest))]
      else
        consistency (drop k (a :: b :: rest)) (m - k) false ++ [root_range (take k (a :: b :: rest))].
Proof.
  all: pose proof (split_bounds (length (a :: b :: rest)) ltac:(simpl; lia)) as H;
    change (S (S (length rest))) with (length (a :: b :: rest)) in *;
    rewrite ?length_take, ?length_drop; lia.
Qed.

Definition log_new : MerkleLog := {| leaves := [] |}.
Definition from_leaves (ls : list Hash) : MerkleLog := {| leaves := ls |}.
(** Returns the index of the new entry. *)
Definition log_append (log : MerkleLog) (data : bytes) : nat * MerkleLog :=
  let ls := leaves log ++ [leaf_hash data] in
  (length ls - 1, {| leaves := ls |}).
Definition log_size (log : MerkleLog) : nat := length (leaves log).

Definition root_of (log : MerkleLog) (n : nat) : Hash :=
  if n =? 0 then empty_root else root_range (take n (leaves log)).
Definition log_root (log : MerkleLog) : Hash := root_of log (length (leaves log)).

Definition inclusion_proof (log : MerkleLog) (index size : nat) : option (list Hash) :=
  if (length (leaves log) <? size) || (size <=? index) then None
  else Some (path (take size (leaves log)) index).

Definition consistency_proof (log : MerkleLog) (old new : nat) : option (list Hash) :=
  if (new <? old) || (length (leaves log) <? new) || (old =? 0) then None
  else Some (consistency (take new (leaves log)) old true).

(** ** The verifiers *)

(** The inner loop [while node != 0 && node % 2 == 0]; [node] halves each time. *)
Fixpoint strip_even (fuel node last : nat) : nat * nat :=
  match fuel with
  | O => (node, last)
  | S fuel =>
      if negb (node =? 0) && (node mod 2 =? 0) then strip_even fuel (node / 2) (last / 2)
      else (node, last)
  end.

(** The loop over the siblings: [None] is the early [return false]. *)
Fixpoint inclusion_loop (node last : nat) (hash : Hash) (proof : list Hash) : option (nat * Hash) :=
  match proof with
  | [] => Some (last, hash)
  | sibling :: proof =>
      if last =? 0 then None
      else if (node mod 2 =? 1) || (node =? last) then
        let hash := node_hash sibling hash in
        let '(node, last) := strip_even node node last in
        inclusion_loop (node / 2) (last / 2) hash proof
      else inclusion_loop (node / 2) (last / 2) (node_hash hash sibling) proof
  end.

Definition verify_inclusion (leaf : Hash) (index size : nat) (proof : list Hash)
  (expected_root : Hash) : bool :=
  if size <=? index then false
  else match inclusion_loop index (size - 1) leaf proof with
       | Some (last, hash) => (last =? 0) && hash_eq hash expected_root
       | None => false
       end.

(** The loop [while node % 2 == 1]. *)
Fixpoint strip_odd (fuel node last : nat) : nat * nat :=
  match fuel with
  | O => (node, last)
  | S fuel => if node mod 2 =? 1 then strip_odd fuel (node / 2) (last / 2) else (node, last)
  end.

Fixpoint consistency_loop (node last : nat) (old_hash new_hash : Hash) (proof : list Hash)
  : option (nat * Hash * Hash) :=
  match proof with
  | [] => Some (last, old_hash, new_hash)
  | step :: proof =>
      if last =? 0 then None
      else if (node mod 2 =? 1) || (node =? last) then
        let old_hash := node_hash step old_hash in
        let new_hash := node_hash step new_hash in
        let '(node, last) := strip_even node node last in
        consistency_loop (node / 2) (last / 2) old_hash new_hash proof
      else consistency_loop (node / 2) (last / 2) old_hash (node_hash new_hash step) proof
  end.

(** [u64::is_power_of_two]. *)
Definition is_power_of_two (n : nat) : bool := negb (n =? 0) && (n =? 2 ^ Nat.log2 n).

Definition verify_consistency (old : nat) (old_root : Hash) (new : nat) (new_root : Hash)
  (proof : list Hash) : bool :=
  if (old =? 0) || (new <? old) then false
  else if old =? new then (length proof =? 0) && hash_eq old_root new_root
  else
    let proof := if is_power_of_two old then old_root :: proof else proof in
    match proof with
    | [] => false
    | first :: rest =>
        let '(node, last) := strip_odd (old - 1) (old - 1) (new - 1) in
        match consistency_loop node last first first rest with
        | Some (last, old_hash, new_hash) =>
            (last =? 0) && hash_eq old_hash old_root && hash_eq new_hash new_root
        | None => false
        end
    end.

(** ** Unfolding and induction over the split *)

Lemma root_range_split ls :
  2 <= length ls ->
  root_range ls = node_hash (root_range (take (split (length ls)) ls))
                            (root_range (drop (split (length ls)) ls)).
Proof. destruct ls as [|a [|b rest]]; simpl length; intros; [lia..|]. by simp root_range. Qed.

Lemma path_split ls index :
  2 <= length ls ->
  path ls index =
    let k := split (length ls) in
    if index <? k then path (take k ls) index ++ [root_range (drop k ls)]
    else path (drop k ls) (index - k) ++ [root_range (take k ls)].
Proof. destruct ls as [|a [|b rest]]; simpl length; intros; [lia..|]. by simp path. Qed.

Lemma consistency_split ls m is_root :
  2 <= length ls ->
  consistency ls m is_root =
    if m =? length ls then if is_root then [] else [root_range ls]
    else
      let k := split (length ls) in
      if m <=? k then consistency (take k ls) m is_root ++ [root_range (drop k ls)]
      else consistency (drop k ls) (m - k) false ++ [root_range (take k ls)].
Proof. destruct ls as [|a [|b rest]]; simpl length; intros; [lia..|]. by simp consistency. Qed.

Lemma leaves_ind (P : list Hash -> Prop) :
  P [] -> (forall h, P [h]) ->
  (forall ls, 2 <= length ls -> P (take (split (length ls)) ls) ->
     P (drop (split (length ls)) ls) -> P ls) ->
  forall ls, P ls.
Proof.
  intros H0 H1 H2 ls. induction ls as [ls IH] using (well_founded_induction (well_founded_ltof _ length)).
  destruct ls as [|a [|b rest]]; [done|done|].
  pose proof (split_bounds (length (a :: b :: rest)) ltac:(simpl; lia)).
  apply H2; [simpl; lia|..]; apply IH; unfold ltof; rewrite ?length_take, ?length_drop; lia.
Qed.

(** ** What is hashed

    Collision resistance is not a property of a function with a fixed-size result, so
    the soundness theorems name the finitely many strings a collision would be among. *)

Definition node_input (left right : Hash) : bytes := NODE_PREFIX :: vec_to_list left ++ vec_to_list right.

(** The inputs of the hash calls of [root_range]. *)
Equations? tree_inputs (ls : list Hash) : list bytes by wf (length ls) lt :=
  tree_inputs [] := [[]];
  tree_inputs [h] := [];
  tree_inputs (a :: b :: rest) :=
    let k := split (length (a :: b :: rest)) in
    node_input (root_range (take k (a :: b :: rest))) (root_range (drop k (a :: b :: rest)))
      :: tree_inputs (take k (a :: b :: rest)) ++ tree_inputs (drop k (a :: b :: rest)).
Proof.
  all: pose proof (split_bounds (length (a :: b :: rest)) ltac:(simpl; lia)) as H;
    change (S (S (length rest))) with (length (a :: b :: rest)) in *;
    rewrite ?length_take, ?length_drop; lia.
Qed.

Lemma tree_inputs_split ls :
  2 <= length ls ->
  let k := split (length ls) in
  tree_inputs ls = node_input (root_range (take k ls)) (root_range (drop k ls))
    :: tree_inputs (take k ls) ++ tree_inputs (drop k ls).
Proof. destruct ls as [|a [|b rest]]; simpl length; intros; [lia..|]. by simp tree_inputs. Qed.

(** Equal node hashes have equal children, or the two inputs collide. *)
Lemma node_hash_inj l r l' r' :
  node_hash l r = node_hash l' r' ->
  (l = l' /\ r = r') \/ collision_in [node_input l r; node_input l' r'].
Proof.
  intros E. destruct (collision_in_pair _ _ E) as [[= Heq]|]; [left|by right].
  apply arr_app_inj in Heq as [-> Heq]. split; [done|]. by apply vec_to_list_inj2.
Qed.
End Log.
