(* ===== verification/MerkleWalk.v ===== *)
(** The walk of the Merkle verifiers over positions: the order in which
    [verify_inclusion] and [verify_consistency] put siblings on the left or on the right
    is the order of the recursive split of [root_range]. *)
From S2P Require Import Prelude B32 Crypto Merkle.

#[local] Open Scope nat_scope.

Section Walk.
Context {C : Crypto}.

(** ** The verifier's walk, as a list of sides

    The positions alone decide on which side each sibling goes ([true]: on the left). *)

Fixpoint sides (fuel node last : nat) : list bool :=
  match fuel with
  | O => []
  | S fuel =>
      if last =? 0 then []
      else if (node mod 2 =? 1) || (node =? last) then
        let '(node, last) := strip_even node node last in
        true :: sides fuel (node / 2) (last / 2)
      else false :: sides fuel (node / 2) (last / 2)
  end.

(** Hashing up a path from [h]. *)
Fixpoint climb (h : Hash) (proof : list Hash) (ds : list bool) : Hash :=
  match proof, ds with
  | s :: proof, true :: ds => climb (node_hash s h) proof ds
  | s :: proof, false :: ds => climb (node_hash h s) proof ds
  | _, _ => h
  end.

(** The inputs of its hash calls. *)
Fixpoint climb_inputs (h : Hash) (proof : list Hash) (ds : list bool) : list bytes :=
  match proof, ds with
  | s :: proof, true :: ds => node_input s h :: climb_inputs (node_hash s h) proof ds
  | s :: proof, false :: ds => node_input h s :: climb_inputs (node_hash h s) proof ds
  | _, _ => []
  end.

(** The same walk for the old root: right siblings were not there yet. *)
Fixpoint climb_old (h : Hash) (proof : list Hash) (ds : list bool) : Hash :=
  match proof, ds with
  | s :: proof, true :: ds => climb_old (node_hash s h) proof ds
  | s :: proof, false :: ds => climb_old h proof ds
  | _, _ => h
  end.

Lemma strip_even_le fuel node last n l :
  strip_even fuel node last = (n, l) -> n <= node /\ l <= last.
Proof.
  revert node last; induction fuel as [|fuel IH]; cbn [strip_even]; intros node last H; [injection H as <- <-; lia|].
  destruct (_ && _); [|injection H as <- <-; lia]. apply IH in H. dlia.
Qed.

Lemma inclusion_loop_sides fuel proof : forall node last h r,
  last <= fuel ->
  inclusion_loop node last h proof = Some (0, r) <->
  length proof = length (sides fuel node last) /\ r = climb h proof (sides fuel node last).
Proof.
  revert proof; induction fuel as [|fuel IH]; intros proof node last h r Hf.
  { assert (last = 0) as -> by lia. destruct proof; simpl; [naive_solver|]. split; [done|]. by intros [? _]. }
  destruct proof as [|s proof]; cbn [inclusion_loop sides].
  - destruct (last =? 0) eqn:E; b2p; [subst; simpl; naive_solver|].
    split; [intros [= -> _]; lia|]. intros [Hl _]. destruct (_ || _); [|done].
    by destruct (strip_even _ _ _).
  - destruct (last =? 0) eqn:E; b2p; [split; [done|intros [? _]; done]|].
    destruct (_ || _) eqn:E'.
    + destruct (strip_even node node last) as [n l] eqn:Es. apply strip_even_le in Es.
      rewrite IH by dlia. cbn [length climb]. naive_solver lia.
    + rewrite IH by dlia. cbn [length climb]. naive_solver lia.
Qed.

Lemma consistency_loop_sides fuel proof : forall node last o h ro r,
  last <= fuel ->
  consistency_loop node last o h proof = Some (0, ro, r) <->
  length proof = length (sides fuel node last) /\
  ro = climb_old o proof (sides fuel node last) /\ r = climb h proof (sides fuel node last).
Proof.
  revert proof; induction fuel as [|fuel IH]; intros proof node last o h ro r Hf.
  { assert (last = 0) as -> by lia. destruct proof; simpl; [naive_solver|]. split; [done|]. by intros [? _]. }
  destruct proof as [|s proof]; cbn [consistency_loop sides].
  - destruct (last =? 0) eqn:E; b2p; [subst; simpl; naive_solver|].
    split; [intros [= -> _ _]; lia|]. intros [Hl _]. destruct (_ || _); [|done].
    by destruct (strip_even _ _ _).
  - destruct (last =? 0) eqn:E; b2p; [split; [done|intros [? _]; done]|].
    destruct (_ || _) eqn:E'.
    + destruct (strip_even node node last) as [n l] eqn:Es. apply strip_even_le in Es.
      rewrite IH by dlia. cbn [length climb climb_old]. naive_solver lia.
    + rewrite IH by dlia. cbn [length climb climb_old]. naive_solver lia.
Qed.

Lemma climb_snoc h proof ds s d :
  length proof = length ds ->
  climb h (proof ++ [s]) (ds ++ [d]) =
    if d then node_hash s (climb h proof ds) else node_hash (climb h proof ds) s.
Proof.
  revert h ds; induction proof as [|x proof IH]; intros h [|[] ds] Hl; simpl in *; try lia;
    [by destruct d|apply IH; lia..].
Qed.

Lemma climb_inputs_snoc h proof ds s d :
  length proof = length ds ->
  climb_inputs h (proof ++ [s]) (ds ++ [d]) =
    climb_inputs h proof ds ++
    [if d then node_input s (climb h proof ds) else node_input (climb h proof ds) s].
Proof.
  revert h ds; induction proof as [|x proof IH]; intros h [|[] ds] Hl; simpl in *; try lia;
    [by destruct d|by rewrite IH by lia..].
Qed.

Lemma climb_old_snoc h proof ds s d :
  length proof = length ds ->
  climb_old h (proof ++ [s]) (ds ++ [d]) =
    if d then node_hash s (climb_old h proof ds) else climb_old h proof ds.
Proof.
  revert h ds; induction proof as [|x proof IH]; intros h [|[] ds] Hl; simpl in *; try lia;
    [by destruct d|apply IH; lia..].
Qed.

(** Splitting a proof whose walk ends in [d]. *)
Lemma proof_snoc (proof : list Hash) (ds : list bool) d :
  length proof = length (ds ++ [d]) ->
  exists proof' s, proof = proof' ++ [s] /\ length proof' = length ds.
Proof.
  rewrite length_app. simpl. intros H. destruct (exists_last (l := proof)) as (p & s & ->).
  { intros ->. simpl in H. lia. }
  exists p, s. rewrite length_app in H. simpl in H. split; [done|lia].
Qed.

(** ** The walk follows the recursive split *)

Lemma sides_fuel f : forall g node last,
  last <= f -> last <= g -> sides f node last = sides g node last.
Proof.
  induction f as [|f IH]; intros g node last Hf Hg.
  { assert (last = 0) as -> by lia. by destruct g. }
  destruct g as [|g]; [by assert (last = 0) as -> by lia|]. cbn [sides].
  destruct (last =? 0) eqn:E; b2p; [done|].
  destruct (_ || _); [|f_equal; apply IH; lia].
  destruct (strip_even node node last) as [n l] eqn:Es. apply strip_even_le in Es.
  f_equal. apply IH; lia.
Qed.

Lemma sides_0 f node : sides f node 0 = [].
Proof. by destruct f. Qed.

(** One step of the walk, with the fuel hidden. *)
Definition walk (node last : nat) : list bool := sides last node last.

Lemma walk_0 node : walk node 0 = [].
Proof. done. Qed.

Lemma walk_right node last :
  last <> 0 -> node mod 2 <> 1 -> node <> last -> walk node last = false :: walk (node / 2) (last / 2).
Proof.
  intros Hl Hn Hne. unfold walk at 1. destruct last as [|last]; [done|]. cbn [sides].
  rewrite (proj2 (Nat.eqb_neq _ _) Hn), (proj2 (Nat.eqb_neq node _) Hne). simpl orb. cbn [Nat.eqb].
  f_equal. apply sides_fuel; lia.
Qed.

Lemma walk_left node last n l :
  last <> 0 -> node mod 2 = 1 \/ node = last -> strip_even node node last = (n, l) ->
  walk node last = true :: walk (n / 2) (l / 2).
Proof.
  intros Hl Hn Es. unfold walk at 1. destruct last as [|last]; [done|]. cbn [sides Nat.eqb].
  replace ((node mod 2 =? 1) || (node =? S last))%bool with true
    by (symmetry; apply orb_true_iff; rewrite !Nat.eqb_eq; done).
  rewrite Es. apply strip_even_le in Es. f_equal. apply sides_fuel; lia.
Qed.

Lemma double_even x :
  x <> 0 -> (negb (2 * x =? 0) && (2 * x mod 2 =? 0))%bool = true /\ 2 * x / 2 = x.
Proof.
  intros Hx. split; [|lia]. apply andb_true_iff.
  rewrite negb_true_iff, Nat.eqb_neq, Nat.eqb_eq. lia.
Qed.

Lemma strip_even_spec t : forall fuel o last,
  o mod 2 = 1 -> 2 ^ t * o <= fuel -> strip_even fuel (2 ^ t * o) last = (o, last / 2 ^ t).
Proof.
  induction t as [|t IH]; intros fuel o last Ho Hf.
  - rewrite Nat.pow_0_r, Nat.mul_1_l, Nat.div_1_r in *. destruct fuel; cbn [strip_even]; [done|].
    by rewrite Ho, andb_false_r.
  - rewrite Nat.pow_succ_r', <-Nat.mul_assoc in *.
    assert (2 ^ t * o <> 0) by (apply Nat.neq_mul_0; split; [by apply Nat.pow_nonzero|intros ->; done]).
    destruct fuel as [|fuel]; [lia|]. cbn [strip_even].
    destruct (double_even (2 ^ t * o)) as [-> ->]; [done|].
    rewrite IH by lia. f_equal. rewrite Nat.Div0.div_div. f_equal.
Qed.

Lemma strip_even_odd fuel o last : o mod 2 = 1 -> o <= fuel -> strip_even fuel o last = (o, last).
Proof.
  intros Ho Hf. pose proof (strip_even_spec 0 fuel o last Ho) as H.
  rewrite Nat.pow_0_r, Nat.mul_1_l, Nat.div_1_r in H. auto.
Qed.

Lemma odd_part x : x <> 0 -> exists t o, x = 2 ^ t * o /\ o mod 2 = 1.
Proof.
  induction x as [x IH] using lt_wf_ind. intros Hx.
  destruct (Nat.eq_dec (x mod 2) 1) as [Ho|Ho]; [exists 0, x; rewrite Nat.pow_0_r; lia|].
  destruct (IH (x / 2)) as (t & o & E & Ho'); [lia..|].
  exists (S t), o. rewrite Nat.pow_succ_r'. rewrite <-Nat.mul_assoc, <-E. split; [lia|done].
Qed.

(** A position in the left, perfect, subtree of [2^m] leaves. *)
Lemma walk_in_left m : forall node last,
  node < 2 ^ m -> 2 ^ m <= last < 2 ^ S m -> walk node last = walk node (2 ^ m - 1) ++ [false].
Proof.
  induction m as [|m IH]; intros node last Hn Hl.
  - simpl in *. assert (node = 0) as -> by lia. assert (last = 1) as -> by lia. done.
  - rewrite !Nat.pow_succ_r' in *. pose proof (Nat.pow_nonzero 2 m ltac:(lia)).
    assert ((2 * 2 ^ m - 1) / 2 = 2 ^ m - 1) as Eh by lia.
    destruct (Nat.eq_dec (node mod 2) 1) as [Ho|Ho].
    + rewrite (walk_left node last node last) by (try lia; apply strip_even_odd; lia).
      rewrite (walk_left node (2 * 2 ^ m - 1) node (2 * 2 ^ m - 1)) by (try lia; apply strip_even_odd; lia).
      rewrite Eh, (IH (node / 2) (last / 2)) by lia. done.
    + rewrite (walk_right node last), (walk_right node (2 * 2 ^ m - 1)) by lia.
      rewrite Eh, (IH (node / 2) (last / 2)) by lia. done.
Qed.

(** A position in the right subtree, shifted by the [2^m] leaves on its left. *)
Lemma walk_in_right m : forall node last,
  node <= last -> last < 2 ^ m -> walk (2 ^ m + node) (2 ^ m + last) = walk node last ++ [true].
Proof.
  induction m as [m IH] using lt_wf_ind. intros node last Hn Hl.
  pose proof (Nat.pow_nonzero 2 m ltac:(lia)) as Hp.
  destruct (Nat.eq_dec last 0) as [->|Hl0].
  { assert (node = 0) as -> by lia. rewrite !Nat.add_0_r.
    rewrite (walk_left (2 ^ m) (2 ^ m) 1 1) by (try lia;
      rewrite <-(Nat.mul_1_r (2 ^ m)) at 2; rewrite strip_even_spec by lia;
      by rewrite Nat.div_same by done).
    done. }
  destruct m as [|m]; [simpl in *; lia|]. rewrite !Nat.pow_succ_r' in *.
  assert (forall x, (2 * 2 ^ m + x) / 2 = 2 ^ m + x / 2) as Eh by (intros; lia).
  assert (forall x, (2 * 2 ^ m + x) mod 2 = x mod 2) as Em by (intros; lia).
  destruct (Nat.eq_dec (node mod 2) 1) as [Ho|Ho].
  { rewrite (walk_left _ _ (2 * 2 ^ m + node) (2 * 2 ^ m + last))
      by (rewrite ?Em; try lia; apply strip_even_odd; rewrite ?Em; lia).
    rewrite (walk_left node last node last) by (try lia; apply strip_even_odd; lia).
    rewrite !Eh, (IH m) by lia. done. }
  destruct (Nat.eq_dec node last) as [->|Hne].
  2:{ rewrite (walk_right (_ + node)), (walk_right node last) by (rewrite ?Em; lia).
      rewrite !Eh, (IH m) by lia. done. }
  destruct (odd_part last Hl0) as (t & o & -> & Hodd).
  assert (t < S m) as Ht.
  { destruct (Nat.lt_ge_cases t (S m)) as [|Hge]; [done|].
    pose proof (Nat.pow_le_mono_r 2 (S m) t ltac:(lia) Hge). rewrite Nat.pow_succ_r' in *.
    assert (1 <= o) by lia. nia. }
  assert (2 * 2 ^ m = 2 ^ t * (2 * 2 ^ (m - t))) as Es.
  { rewrite <-Nat.pow_succ_r', <-Nat.pow_succ_r', <-Nat.pow_add_r. f_equal. lia. }
  rewrite Es, <-Nat.mul_add_distr_l.
  assert (2 ^ t <> 0) as Ht0 by (by apply Nat.pow_nonzero).
  assert (forall y, y mod 2 = 1 -> strip_even (2 ^ t * y) (2 ^ t * y) (2 ^ t * y) = (y, y)) as Hs.
  { intros y Hy. rewrite strip_even_spec by lia. by rewrite Nat.mul_comm, Nat.div_mul. }
  assert ((2 * 2 ^ (m - t) + o) mod 2 = 1) as Hodd' by lia.
  assert (2 ^ t * (2 * 2 ^ (m - t) + o) <> 0) as Hnz by (apply Nat.neq_mul_0; lia).
  rewrite (walk_left _ _ _ _ Hnz (or_intror eq_refl) (Hs _ Hodd')).
  rewrite (walk_left _ _ _ _ Hl0 (or_intror eq_refl) (Hs _ Hodd)).
  replace ((2 * 2 ^ (m - t) + o) / 2) with (2 ^ (m - t) + o / 2) by lia.
  assert (o < 2 * 2 ^ (m - t)) by nia.
  rewrite (IH (m - t)) by lia. done.
Qed.
(** ** The start of a consistency walk

    The largest perfect subtree that ends the old tree: with [m = 2^t * o], [o] odd,
    position [o - 1] of level [t]. *)

Lemma strip_odd_spec t : forall fuel o last,
  o mod 2 = 1 -> 2 ^ t * o - 1 <= fuel ->
  strip_odd fuel (2 ^ t * o - 1) last = (o - 1, last / 2 ^ t).
Proof.
  induction t as [|t IH]; intros fuel o last Ho Hf.
  - rewrite Nat.pow_0_r, Nat.mul_1_l, Nat.div_1_r in *. destruct fuel; cbn [strip_odd].
    { by replace (o - 1) with 0 by lia. }
    by replace ((o - 1) mod 2 =? 1) with false by (symmetry; apply Nat.eqb_neq; lia).
  - rewrite Nat.pow_succ_r', <-Nat.mul_assoc in *.
    assert (2 ^ t * o <> 0) as Hnz
      by (apply Nat.neq_mul_0; split; [by apply Nat.pow_nonzero|intros ->; done]).
    destruct fuel as [|fuel]; [lia|]. cbn [strip_odd].
    replace ((2 * (2 ^ t * o) - 1) mod 2 =? 1) with true by (symmetry; apply Nat.eqb_eq; lia).
    replace ((2 * (2 ^ t * o) - 1) / 2) with (2 ^ t * o - 1) by lia.
    rewrite IH by lia. f_equal. rewrite Nat.Div0.div_div. f_equal.
Qed.

Definition cwalk (m n : nat) : list bool :=
  let '(node, last) := strip_odd (m - 1) (m - 1) (n - 1) in walk node last.

Lemma cwalk_spec t o n : o mod 2 = 1 -> cwalk (2 ^ t * o) n = walk (o - 1) ((n - 1) / 2 ^ t).
Proof. intros Ho. unfold cwalk. rewrite strip_odd_spec by (done || lia). done. Qed.

Lemma div_pow_sub j t : t <= j -> (2 ^ j - 1) / 2 ^ t = 2 ^ (j - t) - 1.
Proof.
  intros H. replace j with (t + (j - t)) at 1 by lia. rewrite Nat.pow_add_r.
  assert (2 ^ t <> 0) by (by apply Nat.pow_nonzero).
  assert (2 ^ (j - t) <> 0) by (by apply Nat.pow_nonzero).
  symmetry. apply Nat.div_unique with (2 ^ t - 1); nia.
Qed.

Lemma cwalk_perfect j : cwalk (2 ^ j) (2 ^ j) = [].
Proof.
  rewrite <-(Nat.mul_1_r (2 ^ j)) at 1. rewrite cwalk_spec by done.
  rewrite div_pow_sub by lia. by replace (j - j) with 0 by lia.
Qed.

Lemma cwalk_left j m n :
  0 < m <= 2 ^ j -> 2 ^ j < n <= 2 ^ S j -> cwalk m n = cwalk m (2 ^ j) ++ [false].
Proof.
  intros Hm Hn. destruct (odd_part m ltac:(lia)) as (t & o & -> & Ho).
  assert (2 ^ t <> 0) as Ht0 by (by apply Nat.pow_nonzero).
  assert (1 <= o) by (destruct o; [done|lia]).
  assert (t <= j) as Ht.
  { destruct (Nat.le_gt_cases t j) as [|Hgt]; [done|].
    pose proof (Nat.pow_lt_mono_r 2 j t ltac:(lia) Hgt). nia. }
  rewrite !cwalk_spec, div_pow_sub by done.
  assert (2 ^ j = 2 ^ t * 2 ^ (j - t)) as Ej by (rewrite <-Nat.pow_add_r; f_equal; lia).
  apply walk_in_left; [nia|]. rewrite Nat.pow_succ_r' in *. split.
  - apply Nat.div_le_lower_bound; lia.
  - apply Nat.Div0.div_lt_upper_bound; lia.
Qed.

Lemma cwalk_right j m n :
  2 ^ j < m < n -> n <= 2 ^ S j -> cwalk m n = cwalk (m - 2 ^ j) (n - 2 ^ j) ++ [true].
Proof.
  intros Hm Hn. rewrite Nat.pow_succ_r' in Hn.
  destruct (odd_part (m - 2 ^ j) ltac:(lia)) as (t & o & E & Ho).
  assert (2 ^ t <> 0) as Ht0 by (by apply Nat.pow_nonzero).
  assert (1 <= o) by (destruct o; [done|lia]).
  assert (t < j) as Ht.
  { destruct (Nat.lt_ge_cases t j) as [|Hge]; [done|].
    pose proof (Nat.pow_le_mono_r 2 j t ltac:(lia) Hge). nia. }
  assert (2 ^ j = 2 ^ t * 2 ^ (j - t)) as Ej by (rewrite <-Nat.pow_add_r; f_equal; lia).
  assert (2 ^ (j - t) = 2 * 2 ^ (j - t - 1)) as Eo
    by (rewrite <-Nat.pow_succ_r'; f_equal; lia).
  assert (m = 2 ^ t * (2 ^ (j - t) + o)) as Em by nia.
  rewrite E. rewrite Em at 1. rewrite !cwalk_spec by lia.
  replace (2 ^ (j - t) + o - 1) with (2 ^ (j - t) + (o - 1)) by lia.
  replace ((n - 1) / 2 ^ t) with (2 ^ (j - t) + (n - 2 ^ j - 1) / 2 ^ t).
  2:{ replace (n - 1) with (2 ^ (j - t) * 2 ^ t + (n - 2 ^ j - 1)) by lia.
      by rewrite Nat.div_add_l by done. }
  apply walk_in_right.
  - apply Nat.div_le_lower_bound; [done|]. nia.
  - apply Nat.Div0.div_lt_upper_bound. lia.
Qed.

End Walk.
