(* ===== verification/MerkleProofs.v ===== *)
(** Completeness and soundness of the transparency log's proofs: every proof the log
    produces verifies, and a proof that verifies against the log's root is about the
    log's content, unless it exhibits a SHA-256 collision. *)
From S2P Require Import Prelude B32 Crypto Merkle MerkleWalk.
From Equations Require Import Equations.

#[local] Open Scope nat_scope.

Section Proofs.
Context {C : Crypto}.

(** A collision among some inputs is one among more. *)
Local Ltac coll H := revert H; apply collision_in_mono; set_solver.

(** ** Lists cut at the split point *)

Lemma split_take (ls : list Hash) n : 2 <= n <= length ls -> length (take (split n) ls) = split n.
Proof. intros H. rewrite length_take. pose proof (split_bounds n). lia. Qed.

(** The walk from leaf [i] of a tree of [n] leaves. *)
Lemma walk_split_left n i :
  2 <= n -> i < split n -> walk i (n - 1) = walk i (split n - 1) ++ [false].
Proof.
  intros Hn Hi. destruct (split_spec n Hn) as (m & E & H). rewrite E in *.
  apply walk_in_left; [done|]. lia.
Qed.

Lemma walk_split_right n i :
  2 <= n -> split n <= i < n -> walk i (n - 1) = walk (i - split n) (n - split n - 1) ++ [true].
Proof.
  intros Hn Hi. destruct (split_spec n Hn) as (m & E & H). rewrite E in *.
  rewrite Nat.pow_succ_r' in *.
  replace (n - 1) with (2 ^ m + (n - 2 ^ m - 1)) by lia.
  replace i with (2 ^ m + (i - 2 ^ m)) at 1 by lia. apply walk_in_right; lia.
Qed.

(** ** Inclusion *)

Lemma path_correct ls : forall i h,
  ls !! i = Some h ->
  length (path ls i) = length (walk i (length ls - 1)) /\
  climb h (path ls i) (walk i (length ls - 1)) = root_range ls.
Proof.
  induction ls as [|x|ls Hlen IHl IHr] using leaves_ind; intros i h Hi.
  - done.
  - destruct i; simplify_eq/=. done.
  - pose proof (split_bounds _ Hlen) as Hk. pose proof (split_take ls (length ls) ltac:(lia)) as Hl.
    pose proof (lookup_lt_Some _ _ _ Hi).
    rewrite path_split, root_range_split by done. cbv zeta.
    destruct (i <? split (length ls)) eqn:E; b2p.
    + rewrite walk_split_left by done.
      destruct (IHl i h) as [El Ec]; [by rewrite lookup_take_lt|]. rewrite Hl in *.
      rewrite !length_app, El, climb_snoc, Ec by done. done.
    + rewrite walk_split_right by lia.
      destruct (IHr (i - split (length ls)) h) as [El Ec].
      { rewrite lookup_drop. by replace (split (length ls) + (i - split (length ls))) with i by lia. }
      rewrite length_drop in *.
      rewrite !length_app, El, climb_snoc, Ec by done. done.
Qed.

Lemma path_sound ls : forall i h proof,
  i < length ls ->
  length proof = length (walk i (length ls - 1)) ->
  climb h proof (walk i (length ls - 1)) = root_range ls ->
  ls !! i = Some h \/ collision_in (tree_inputs ls ++ climb_inputs h proof (walk i (length ls - 1))).
Proof.
  induction ls as [|x|ls Hlen IHl IHr] using leaves_ind; intros i h proof Hi Hp Hc.
  - simpl in Hi. lia.
  - assert (i = 0) as -> by (simpl in Hi; lia). destruct proof; [|done]. left. by simpl in *; subst.
  - pose proof (split_bounds _ Hlen) as Hk. pose proof (split_take ls (length ls) ltac:(lia)) as Hl.
    rewrite root_range_split in Hc by done. rewrite tree_inputs_split by done.
    destruct (Nat.lt_ge_cases i (split (length ls))) as [Hlt|Hge].
    + rewrite walk_split_left in * by done.
      destruct (proof_snoc _ _ _ Hp) as (p & s & -> & Hp'). rewrite climb_snoc in Hc by done.
      rewrite climb_inputs_snoc by done.
      apply node_hash_inj in Hc as [[Hc _]|Hx]; [|right; coll Hx].
      destruct (IHl i h p) as [H|Hx]; rewrite ?Hl in *; try done; [|right; coll Hx].
      left. by rewrite lookup_take_lt in H.
    + rewrite walk_split_right in * by done.
      destruct (proof_snoc _ _ _ Hp) as (p & s & -> & Hp'). rewrite climb_snoc in Hc by done.
      rewrite climb_inputs_snoc by done.
      apply node_hash_inj in Hc as [[_ Hc]|Hx]; [|right; coll Hx].
      destruct (IHr (i - split (length ls)) h p) as [H|Hx]; rewrite ?length_drop in *; try done;
        [lia| |right; coll Hx].
      left. rewrite lookup_drop in H. by replace (split (length ls) + (i - split (length ls))) with i in H by lia.
Qed.

Lemma verify_inclusion_walk leaf i n proof r :
  verify_inclusion leaf i n proof r = true <->
  i < n /\ length proof = length (walk i (n - 1)) /\ climb leaf proof (walk i (n - 1)) = r.
Proof.
  unfold verify_inclusion, hash_eq. destruct (n <=? i) eqn:E; b2p; [split; [done|lia]|].
  pose proof (inclusion_loop_sides (n - 1) proof i (n - 1) leaf) as H. fold (walk i (n - 1)) in H.
  split.
  - destruct (inclusion_loop i (n - 1) leaf proof) as [[l h]|] eqn:El; [|done].
    intros Hv. b2p. subst. destruct (proj1 (H r ltac:(lia)) eq_refl) as [? ->]. done.
  - intros (_ & Hp & <-). rewrite (proj2 (H _ ltac:(lia)) (conj Hp eq_refl)).
    by rewrite bool_decide_true.
Qed.
(** ** Consistency *)

Definition pow2 (n : nat) : Prop := exists j, n = 2 ^ j.

(** What holds of the old size [m] in a tree of [n] leaves along the recursion. *)
Definition old_in (m n : nat) : Prop := 0 < m <= n /\ (m < n \/ pow2 n).

Lemma split_pow2 n : 2 <= n -> pow2 (split n).
Proof. intros Hn. destruct (split_spec n Hn) as (j & -> & _). by exists j. Qed.

Lemma old_in_left m n : 2 <= n -> 0 < m <= split n -> old_in m (split n).
Proof. intros Hn Hm. split; [done|]. right. by apply split_pow2. Qed.

Lemma old_in_right m n : 2 <= n -> split n < m < n -> old_in (m - split n) (n - split n).
Proof. intros Hn Hm. split; [lia|left; lia]. Qed.

Lemma cwalk_split_left n m :
  2 <= n -> 0 < m <= split n -> cwalk m n = cwalk m (split n) ++ [false].
Proof.
  intros Hn Hm. destruct (split_spec n Hn) as (j & E & H). rewrite E in *. by apply cwalk_left.
Qed.

Lemma cwalk_split_right n m :
  2 <= n -> split n < m < n -> cwalk m n = cwalk (m - split n) (n - split n) ++ [true].
Proof.
  intros Hn Hm. destruct (split_spec n Hn) as (j & E & H). rewrite E in *. apply cwalk_right; [lia|apply H].
Qed.

(** The old tree's root, by the split of the new one. *)
Lemma root_take_right (ls : list Hash) m :
  2 <= length ls -> split (length ls) < m <= length ls ->
  root_range (take m ls) =
    node_hash (root_range (take (split (length ls)) ls))
              (root_range (take (m - split (length ls)) (drop (split (length ls)) ls))).
Proof.
  intros Hn Hm. destruct (split_spec _ Hn) as (j & E & H).
  assert (split m = split (length ls)) as Em by (rewrite E in *; apply split_unique; lia).
  assert (length (take m ls) = m) as Hl by (rewrite length_take; lia).
  rewrite (root_range_split (take m ls)) by (rewrite Hl; pose proof (split_bounds _ Hn); lia).
  rewrite Hl, Em, take_take, Nat.min_l, skipn_firstn_comm by lia. done.
Qed.

(** The produced proof, with the root of its first subtree kept: it re-creates both
    roots along the walk. *)
Lemma consistency_full ls : forall m,
  old_in m (length ls) ->
  exists first rest, consistency ls m false = first :: rest /\
    length rest = length (cwalk m (length ls)) /\
    climb first rest (cwalk m (length ls)) = root_range ls /\
    climb_old first rest (cwalk m (length ls)) = root_range (take m ls).
Proof.
  induction ls as [|x|ls Hlen IHl IHr] using leaves_ind; intros m [Hm Hp].
  - simpl in Hm. lia.
  - assert (m = 1) as -> by (simpl in Hm; lia). exists (root_range [x]), []. by simp consistency.
  - pose proof (split_bounds _ Hlen) as Hk. pose proof (split_take ls (length ls) ltac:(lia)) as Hl.
    rewrite consistency_split by done. cbv zeta. destruct (m =? length ls) eqn:Em; b2p.
    { subst m. exists (root_range ls), []. destruct Hp as [|[j E]]; [lia|].
      rewrite E, cwalk_perfect, <-E, firstn_all. done. }
    rewrite (root_range_split ls) by done. destruct (m <=? split (length ls)) eqn:E; b2p.
    + rewrite Hl in IHl.
      destruct (IHl m (old_in_left m _ Hlen ltac:(lia))) as (f & r & -> & Hr & Hc & Ho).
      exists f, (r ++ [root_range (drop (split (length ls)) ls)]).
      rewrite cwalk_split_left by lia. rewrite !length_app, Hr, climb_snoc, climb_old_snoc, Hc, Ho by done.
      rewrite take_take, Nat.min_l by lia. done.
    + rewrite length_drop in IHr.
      destruct (IHr (m - split (length ls)) (old_in_right m _ Hlen ltac:(lia))) as (f & r & -> & Hr & Hc & Ho).
      exists f, (r ++ [root_range (take (split (length ls)) ls)]).
      rewrite cwalk_split_right by lia. rewrite !length_app, Hr, climb_snoc, climb_old_snoc, Hc, Ho by done.
      rewrite (root_take_right ls m) by lia. done.
Qed.

Lemma is_power_of_two_spec n : is_power_of_two n = true <-> pow2 n.
Proof.
  unfold is_power_of_two, pow2. rewrite andb_true_iff, negb_true_iff, Nat.eqb_neq, Nat.eqb_eq. split.
  - intros [_ E]. eauto.
  - intros [j ->]. split; [by apply Nat.pow_nonzero|]. by rewrite Nat.log2_pow2 by lia.
Qed.

(** What the log omits: the root of an old tree that is a perfect subtree. *)
Lemma consistency_root ls : forall m,
  old_in m (length ls) ->
  consistency ls m false =
    if is_power_of_two m then root_range (take m ls) :: consistency ls m true
    else consistency ls m true.
Proof.
  induction ls as [|x|ls Hlen IHl _] using leaves_ind; intros m [Hm Hp].
  - simpl in Hm. lia.
  - assert (m = 1) as -> by (simpl in Hm; lia). by simp consistency.
  - pose proof (split_bounds _ Hlen) as Hk. pose proof (split_take ls (length ls) ltac:(lia)) as Hl.
    rewrite !consistency_split by done. cbv zeta. destruct (m =? length ls) eqn:Em; b2p.
    { subst m. destruct Hp as [|Hp]; [lia|]. rewrite (proj2 (is_power_of_two_spec _) Hp), firstn_all. done. }
    destruct (m <=? split (length ls)) eqn:E; b2p.
    + rewrite Hl in IHl. rewrite (IHl m (old_in_left m _ Hlen ltac:(lia))).
      rewrite take_take, Nat.min_l by lia. by destruct (is_power_of_two m).
    + destruct (is_power_of_two m) eqn:Ep; [exfalso|done]. apply is_power_of_two_spec in Ep as [j ->].
      destruct (split_spec _ Hlen) as (i & Ei & Hi). rewrite Ei in *.
      apply Nat.pow_lt_mono_r_iff in E; [|lia].
      pose proof (Nat.pow_le_mono_r 2 (S i) j ltac:(lia) ltac:(lia)). lia.
Qed.

Lemma climb_consistent ls : forall m first rest,
  old_in m (length ls) ->
  length rest = length (cwalk m (length ls)) ->
  climb first rest (cwalk m (length ls)) = root_range ls ->
  climb_old first rest (cwalk m (length ls)) = root_range (take m ls) \/
  collision_in (tree_inputs ls ++ climb_inputs first rest (cwalk m (length ls))).
Proof.
  induction ls as [|x|ls Hlen IHl IHr] using leaves_ind; intros m first rest [Hm Hp] Hr Hc.
  - simpl in Hm. lia.
  - assert (m = 1) as -> by (simpl in Hm; lia). destruct rest; [|done]. left. done.
  - pose proof (split_bounds _ Hlen) as Hk. pose proof (split_take ls (length ls) ltac:(lia)) as Hl.
    destruct (Nat.eq_dec m (length ls)) as [->|Hne].
    { destruct Hp as [|[j E]]; [lia|]. rewrite E, cwalk_perfect in *. rewrite <-E, firstn_all.
      destruct rest; [|done]. left. done. }
    rewrite (root_range_split ls) in Hc by done. rewrite tree_inputs_split by done.
    destruct (Nat.le_gt_cases m (split (length ls))) as [Hle|Hgt].
    + rewrite cwalk_split_left in * by lia. destruct (proof_snoc _ _ _ Hr) as (p & s & -> & Hr').
      rewrite climb_snoc in Hc by done. rewrite climb_old_snoc, climb_inputs_snoc by done.
      apply node_hash_inj in Hc as [[Hc _]|Hx]; [|right; coll Hx]. rewrite Hl in IHl.
      destruct (IHl m first p (old_in_left m _ Hlen ltac:(lia)) Hr' Hc) as [->|Hx]; [left|right; coll Hx].
      by rewrite take_take, Nat.min_l by lia.
    + rewrite cwalk_split_right in * by lia. destruct (proof_snoc _ _ _ Hr) as (p & s & -> & Hr').
      rewrite climb_snoc in Hc by done. rewrite climb_old_snoc, climb_inputs_snoc by done.
      apply node_hash_inj in Hc as [[-> Hc]|Hx]; [|right; coll Hx]. rewrite length_drop in IHr.
      destruct (IHr (m - split (length ls)) first p (old_in_right m _ Hlen ltac:(lia)) Hr' Hc)
        as [->|Hx]; [left|right; coll Hx].
      by rewrite (root_take_right ls m) by lia.
Qed.

Lemma verify_consistency_walk old old_root new new_root proof :
  0 < old < new ->
  verify_consistency old old_root new new_root proof = true <->
  exists first rest,
    (if is_power_of_two old then old_root :: proof else proof) = first :: rest /\
    length rest = length (cwalk old new) /\
    climb_old first rest (cwalk old new) = old_root /\ climb first rest (cwalk old new) = new_root.
Proof.
  intros Ho. unfold verify_consistency, hash_eq, cwalk.
  replace ((old =? 0) || (new <? old))%bool with false
    by (symmetry; apply orb_false_iff; rewrite Nat.eqb_neq, Nat.ltb_ge; lia).
  replace (old =? new) with false by (symmetry; apply Nat.eqb_neq; lia).
  destruct (if is_power_of_two old then _ else _) as [|first rest]; [split; [done|by intros (? & ? & ? & _)]|].
  destruct (strip_odd (old - 1) (old - 1) (new - 1)) as [node last].
  pose proof (consistency_loop_sides last rest node last first first) as H. fold (walk node last) in H.
  split.
  - destruct (consistency_loop node last first first rest) as [[[l o] h]|] eqn:El; [|done].
    intros Hv. b2p. subst. destruct (proj1 (H old_root new_root ltac:(lia)) eq_refl) as (? & -> & ->).
    eauto 10.
  - intros (f & r & [= <- <-] & Hr & <- & <-).
    rewrite (proj2 (H _ _ ltac:(lia)) (conj Hr (conj eq_refl eq_refl))).
    by rewrite !bool_decide_true.
Qed.

(** A tree's root determines its leaves. *)
Lemma root_range_inj ls : forall ls',
  length ls = length ls' -> root_range ls = root_range ls' ->
  ls = ls' \/ collision_in (tree_inputs ls ++ tree_inputs ls').
Proof.
  induction ls as [|x|ls Hlen IHl IHr] using leaves_ind; intros ls' El Er.
  - destruct ls'; [by left|done].
  - destruct ls' as [|y [|z ls']]; try done. left. by simp root_range in Er; subst.
  - rewrite (root_range_split ls), (root_range_split ls') in Er by lia. rewrite <-El in Er.
    rewrite (tree_inputs_split ls), (tree_inputs_split ls') by lia. rewrite <-El.
    apply node_hash_inj in Er as [[E1 E2]|Hx]; [|right; coll Hx].
    pose proof (split_bounds _ Hlen).
    destruct (IHl (take (split (length ls)) ls')) as [H1|Hx]; [rewrite !length_take; lia|done| |right; coll Hx].
    destruct (IHr (drop (split (length ls)) ls')) as [H2|Hx]; [rewrite !length_drop; lia|done| |right; coll Hx].
    left. rewrite <-(take_drop (split (length ls)) ls), <-(take_drop (split (length ls)) ls').
    by rewrite H1, H2.
Qed.

(** ** Size of proofs *)
(** A split halves the exponent on both sides. *)
Lemma split_log2 (ls : list Hash) : 2 <= length ls ->
  exists m, split (length ls) = 2 ^ m /\ Nat.log2_up (length ls) = S m /\
  Nat.log2_up (length (take (2 ^ m) ls)) <= m /\ Nat.log2_up (length (drop (2 ^ m) ls)) <= m.
Proof.
  intros Hlen. destruct (split_spec _ Hlen) as (m & E & Hm). exists m. split_and!; [done|..].
  - apply Nat.log2_up_unique; [lia|]. simpl Nat.pred. lia.
  - rewrite length_take, Nat.min_l, Nat.log2_up_pow2 by lia. lia.
  - rewrite length_drop. apply Nat.log2_up_le_pow2; [lia|]. rewrite Nat.pow_succ_r' in Hm. lia.
Qed.

Lemma path_length ls : forall i, length (path ls i) <= Nat.log2_up (length ls).
Proof.
  induction ls as [|x|ls Hlen IHl IHr] using leaves_ind; intros i; [by simp path..|].
  destruct (split_log2 ls Hlen) as (m & E & Hm & Hl & Hr). rewrite path_split by done. cbv zeta. rewrite E in *.
  destruct (i <? 2 ^ m); rewrite length_app; simpl length.
  - specialize (IHl i). lia.
  - specialize (IHr (i - 2 ^ m)). lia.
Qed.

Lemma consistency_length ls : forall m b, length (consistency ls m b) <= S (Nat.log2_up (length ls)).
Proof.
  induction ls as [|x|ls Hlen IHl IHr] using leaves_ind; intros m b; [by simp consistency; destruct b; simpl; lia..|].
  destruct (split_log2 ls Hlen) as (j & E & Hj & Hl & Hr). rewrite consistency_split by done. cbv zeta. rewrite E in *.
  destruct (m =? length ls); [destruct b; simpl length; lia|]. destruct (m <=? 2 ^ j); rewrite length_app; simpl length.
  - specialize (IHl m b). lia.
  - specialize (IHr (m - 2 ^ j) false). lia.
Qed.

Lemma root_of_take log n :
  0 < n <= log_size log -> root_of log n = root_range (take n (leaves log)).
Proof. intros Hn. unfold root_of. by replace (n =? 0) with false by (symmetry; apply Nat.eqb_neq; lia). Qed.

Lemma log_root_range log : log_root log = root_range (leaves log).
Proof.
  unfold log_root, root_of. destruct (length (leaves log) =? 0) eqn:E; b2p.
  - destruct (leaves log); [by simp root_range|done].
  - by rewrite firstn_all.
Qed.

(** * Properties *)

(** Every leaf of every prefix of the log has an inclusion proof, of at most
    the logarithm of the prefix's size in hashes, which verifies against the prefix's root; outside the
    tree no proof is issued. *)
Theorem inclusion_complete (log : MerkleLog) (i n : nat) :
  (i < n <= log_size log ->
   exists h proof, leaves log !! i = Some h /\ inclusion_proof log i n = Some proof /\
     length proof <= Nat.log2_up n /\
     verify_inclusion h i n proof (root_of log n) = true) /\
  (~ (i < n <= log_size log) -> inclusion_proof log i n = None).
Proof.
  unfold inclusion_proof, log_size. split.
  - intros [Hi Hn]. destruct (lookup_lt_is_Some_2 (leaves log) i) as [h Hh]; [lia|].
    exists h, (path (take n (leaves log)) i). split; [done|]. split.
    { replace ((length (leaves log) <? n) || (n <=? i))%bool with false; [done|].
      symmetry. apply orb_false_iff. rewrite Nat.ltb_ge, Nat.leb_gt. lia. }
    assert (length (take n (leaves log)) = n) as Hl by (rewrite length_take; lia). split.
    { rewrite <-Hl at 2. apply path_length. }
    rewrite root_of_take by (unfold log_size; lia). apply verify_inclusion_walk. split; [done|].
    rewrite <-Hl at 2 4. apply path_correct. by rewrite lookup_take_lt.
  - intros Hn. replace ((length (leaves log) <? n) || (n <=? i))%bool with true; [done|].
    symmetry. apply orb_true_iff. rewrite Nat.ltb_lt, Nat.leb_le. lia.
Qed.

(** C6: an inclusion proof that verifies against the root of a log is about that
    log: the entry hashed to the leaf is the one at the claimed index, unless two of the strings
    hashed to build the log's tree and to check the proof are a SHA-256 collision. *)
Theorem inclusion_sound (entries : list bytes) (data : bytes) (i : nat) (proof : list Hash) :
  let log := from_leaves (leaf_hash <$> entries) in
  verify_inclusion (leaf_hash data) i (log_size log) proof (log_root log) = true ->
  entries !! i = Some data \/
  collision_in ((cons LEAF_PREFIX <$> data :: entries) ++ tree_inputs (leaves log) ++
                climb_inputs (leaf_hash data) proof (walk i (log_size log - 1))).
Proof.
  intros log Hv. rewrite log_root_range in Hv. apply verify_inclusion_walk in Hv as (Hi & Hp & Hc).
  destruct (path_sound _ _ _ _ Hi Hp Hc) as [Hl|Hx]; [|right; coll Hx].
  apply list_lookup_fmap_Some in Hl as (d & He & Hd). rewrite Hd.
  destruct (collision_in_pair _ _ He) as [[= ->]|Hx]; [by left|right].
  apply list_elem_of_lookup_2 in Hd. revert Hx. apply collision_in_mono. set_solver.
Qed.

Lemma consistency_proof_accepted (log : MerkleLog) (old new : nat) :
  0 < old <= new -> new <= log_size log ->
  exists proof, consistency_proof log old new = Some proof /\
    verify_consistency old (root_of log old) new (root_of log new) proof = true /\ length proof <= S (Nat.log2_up new).
Proof.
  intros Ho Hn. unfold consistency_proof, log_size in *. replace (_ || _ || _)%bool with false.
  2:{ symmetry. rewrite !orb_false_iff, !Nat.ltb_ge, Nat.eqb_neq. lia. }
  eexists. split; [done|]. apply and_comm; split; [etrans; [apply consistency_length|]; rewrite length_take, Nat.min_l by lia; done|]. assert (length (take new (leaves log)) = new) as Hl by (rewrite length_take; lia).
  rewrite !root_of_take by (unfold log_size; lia).
  destruct (Nat.eq_dec old new) as [->|Hne].
  + unfold verify_consistency, hash_eq. rewrite Nat.eqb_refl, bool_decide_true by done.
    replace ((new =? 0) || (new <? new))%bool with false
      by (symmetry; rewrite orb_false_iff, Nat.eqb_neq, Nat.ltb_ge; lia).
    rewrite andb_true_r. destruct (take new (leaves log)) as [|a [|b l]] eqn:E; simpl in Hl; [lia|..].
    * subst. by simp consistency.
    * rewrite <-E. rewrite consistency_split by (rewrite E; simpl; lia). rewrite E. simpl length.
      by rewrite Hl, Nat.eqb_refl.
  + assert (old_in old (length (take new (leaves log)))) as Hin by (rewrite Hl; split; [|left]; lia).
    destruct (consistency_full _ _ Hin) as (f & r & E & Hr & Hc & Hco).
    rewrite (consistency_root _ _ Hin) in E. rewrite take_take, Nat.min_l, Hl in * by lia.
    apply verify_consistency_walk; [lia|]. eauto 10.
Qed.

(** Between any two sizes of one log there is a consistency proof, of at most one hash more than the height of the
    larger tree, and it verifies against the two roots; no proof is issued from the empty tree, backwards or beyond the
    log. *)
Theorem consistency_complete (log : MerkleLog) (old new : nat) :
  (0 < old <= new /\ new <= log_size log ->
   exists proof, consistency_proof log old new = Some proof /\
     verify_consistency old (root_of log old) new (root_of log new) proof = true /\ length proof <= S (Nat.log2_up new)) /\
  (~ (0 < old <= new /\ new <= log_size log) -> consistency_proof log old new = None).
Proof.
  split; [intros [Ho Hn]; by apply consistency_proof_accepted|]. intros H. unfold consistency_proof, log_size in *.
  replace (_ || _ || _)%bool with true; [done|]. symmetry. rewrite !orb_true_iff, !Nat.ltb_lt, Nat.eqb_eq. lia.
Qed.

(** The strings hashed to check a consistency proof from size [m] to size [n]. *)
Definition consistency_inputs (old_root : Hash) (m n : nat) (proof : list Hash) : list bytes :=
  match (if is_power_of_two m then old_root :: proof else proof) with
  | first :: rest => climb_inputs first rest (cwalk m n)
  | [] => []
  end.

(** C7: the log only ever appends: if a proof links the root of one log to the root of
    another, the first is a prefix of the second, leaf for leaf, unless two of the strings
    hashed to build the trees and to check the proof are a SHA-256 collision. *)
Theorem consistency_sound (before after : MerkleLog) (proof : list Hash) :
  let m := log_size before in
  verify_consistency m (log_root before) (log_size after) (log_root after) proof = true ->
  leaves before = take m (leaves after) \/
  collision_in (tree_inputs (leaves before) ++ tree_inputs (take m (leaves after)) ++
                tree_inputs (leaves after) ++
                consistency_inputs (log_root before) m (log_size after) proof).
Proof.
  cbv zeta. unfold log_size. rewrite !log_root_range. intros Hv.
  remember (length (leaves before)) as m eqn:Hm0. remember (length (leaves after)) as n eqn:Hn0.
  destruct (Nat.eq_dec m 0) as [Hm|Hm].
  { left. rewrite Hm. by destruct (leaves before); [|simplify_eq/=]. }
  assert (m <= n) as Hle.
  { unfold verify_consistency in Hv. destruct (m =? 0), (n <? m) eqn:E; simpl in Hv; try done. by b2p. }
  assert (forall r, r = root_range (take m (leaves after)) -> r = root_range (leaves before) ->
    leaves before = take m (leaves after) \/
    collision_in (tree_inputs (leaves before) ++ tree_inputs (take m (leaves after)))) as Hinj.
  { intros r -> E. apply root_range_inj; [|done]. rewrite length_take. lia. }
  destruct (Nat.eq_dec m n) as [E|Hne].
  - unfold verify_consistency, hash_eq in Hv. rewrite E, Nat.eqb_refl in Hv.
    destruct (_ || _); [done|]. b2p. destruct (Hinj (root_range (leaves before))) as [H'|Hx];
      [|done|by left|right; coll Hx]. rewrite E, Hn0, firstn_all. done.
  - apply verify_consistency_walk in Hv as (f & r & Hf & Hr & Ho & Hc); [|lia].
    unfold consistency_inputs. rewrite Hf. rewrite Hn0 in *.
    assert (old_in m (length (leaves after))) as Hin by (split; [|left]; lia).
    destruct (climb_consistent (leaves after) m f r Hin Hr Hc) as [E|Hx]; [|right; coll Hx].
    destruct (Hinj _ E Ho) as [|Hx]; [by left|right; coll Hx].
Qed.

(** A proof that links a pinned root to the root of a log says the pin is a root of the log, unless two hash inputs
    collide. *)
Lemma consistency_extends (log : MerkleLog) (m : nat) (old_root : Hash) (proof : list Hash) :
  0 < m < log_size log -> verify_consistency m old_root (log_size log) (log_root log) proof = true ->
  root_of log m = old_root \/
  collision_in (tree_inputs (leaves log) ++ consistency_inputs old_root m (log_size log) proof).
Proof.
  intros Hm Hv. rewrite log_root_range in Hv. apply verify_consistency_walk in Hv as (f & r & Hf & Hr & Ho & Hc); [|lia].
  unfold consistency_inputs. rewrite Hf. unfold log_size in *.
  assert (old_in m (length (leaves log))) as Hin by (split; [lia|left; lia]).
  destruct (climb_consistent (leaves log) m f r Hin Hr Hc) as [E|Hx]; [left|by right].
  rewrite root_of_take by (unfold log_size; lia). congruence.
Qed.

End Proofs.

(** * Concrete logs *)

Definition demo_entries : list bytes := [lit "a"; lit "b"; lit "c"; lit "d"; lit "e"].
Definition demo_log (n : nat) : MerkleLog := from_leaves (leaf_hash (C := toy_crypto) <$> take n demo_entries).

Lemma inclusion_sound_witness :
  let log := demo_log 5 in
  let proof := path (C := toy_crypto) (leaves log) 3 in
  verify_inclusion (C := toy_crypto) (leaf_hash (C := toy_crypto) (lit "d")) 3 (log_size log) proof
    (log_root (C := toy_crypto) log) = true /\
  (demo_entries !! 3 = Some (lit "d") \/
   collision_in (H := toy_crypto)
     ((cons LEAF_PREFIX <$> lit "d" :: demo_entries) ++ tree_inputs (C := toy_crypto) (leaves log) ++
      climb_inputs (C := toy_crypto) (leaf_hash (C := toy_crypto) (lit "d")) proof (walk 3 (log_size log - 1)))).
Proof.
  assert (verify_inclusion (C := toy_crypto) (leaf_hash (C := toy_crypto) (lit "d")) 3 5
    (path (C := toy_crypto) (leaves (demo_log 5)) 3) (log_root (C := toy_crypto) (demo_log 5)) = true) as H
    by (vm_compute; reflexivity).
  split; [exact H|]. exact (inclusion_sound (C := toy_crypto) demo_entries (lit "d") 3 _ H).
Defined.

Lemma consistency_sound_witness :
  let before := demo_log 3 in let after := demo_log 5 in
  let proof := consistency (C := toy_crypto) (leaves after) 3 true in
  let m := log_size before in
  verify_consistency (C := toy_crypto) m (log_root (C := toy_crypto) before) (log_size after)
    (log_root (C := toy_crypto) after) proof = true /\
  (leaves before = take m (leaves after) \/
   collision_in (H := toy_crypto)
     (tree_inputs (C := toy_crypto) (leaves before) ++ tree_inputs (C := toy_crypto) (take m (leaves after)) ++
      tree_inputs (C := toy_crypto) (leaves after) ++
      consistency_inputs (C := toy_crypto) (log_root (C := toy_crypto) before) m (log_size after) proof)).
Proof.
  assert (verify_consistency (C := toy_crypto) 3 (log_root (C := toy_crypto) (demo_log 3)) 5
    (log_root (C := toy_crypto) (demo_log 5)) (consistency (C := toy_crypto) (leaves (demo_log 5)) 3 true) = true) as H
    by (vm_compute; reflexivity).
  split; [exact H|]. exact (consistency_sound (C := toy_crypto) (demo_log 3) (demo_log 5) _ H).
Defined.

Lemma inclusion_complete_witness :
  3 < 5 <= log_size (demo_log 5) /\
  exists h proof, leaves (demo_log 5) !! 3 = Some h /\
    inclusion_proof (C := toy_crypto) (demo_log 5) 3 5 = Some proof /\ length proof <= Nat.log2_up 5 /\
    verify_inclusion (C := toy_crypto) h 3 5 proof (root_of (C := toy_crypto) (demo_log 5) 5) = true.
Proof. split; [cbv; lia|]. apply (proj1 (inclusion_complete (C := toy_crypto) (demo_log 5) 3 5)). cbv; lia. Defined.

Lemma consistency_complete_witness :
  (0 < 3 <= 5 /\ 5 <= log_size (demo_log 5)) /\
  exists proof, consistency_proof (C := toy_crypto) (demo_log 5) 3 5 = Some proof /\
    verify_consistency (C := toy_crypto) 3 (root_of (C := toy_crypto) (demo_log 5) 3) 5
      (root_of (C := toy_crypto) (demo_log 5) 5) proof = true /\ length proof <= S (Nat.log2_up 5).
Proof. split; [cbv; lia|]. apply (proj1 (consistency_complete (C := toy_crypto) (demo_log 5) 3 5)). cbv; lia. Defined.
