(* ===== verification/MerkleFrontier.v ===== *)
(** The compact append frontier of the transparency log: [MerkleFrontier] of
    [pigeonpost-registry/src/log.rs], and its refinement to the full log.

    The [u64] size is an [N]; [append_hash] refuses the one size from which it would
    overflow.  A mutating method returns its result beside the state it leaves, also
    where it returns early. *)
From S2P Require Import Prelude Crypto Merkle MerkleProofs.
From Equations Require Import Equations.

#[local] Open Scope nat_scope.

Section Frontier.
Context {C : Crypto}.

Record MerkleFrontier := { size : N; peaks : list (option Hash) }.

Definition u64_BITS : nat := 64.
Definition u64_MAX : N := 2 ^ 64 - 1.

Definition frontier_new : MerkleFrontier := {| size := 0; peaks := [] |}.

(** Bit [level] of [n], as the code reads it. *)
Definition bit_at (n : N) (level : nat) : bool := (N.land (N.shiftr n (N.of_nat level)) 1 =? 1)%N.

Definition validate (f : MerkleFrontier) : bool :=
  (length (peaks f) <=? u64_BITS) &&
  forallb (fun '(level, peak) => eqb (is_some peak) (bit_at (size f) level))
    (imap pair (peaks f)) &&
  ((length (peaks f) =? u64_BITS) ||
   (N.shiftr (size f) (N.of_nat (length (peaks f))) =? 0)%N).

(** The loop [while occupied & 1 == 1]: the peaks as it leaves them, and the merged
    hash with the level it stops at ([None] is the early return of [?]). *)
Fixpoint carry (fuel : nat) (ps : list (option Hash)) (level : nat) (hash : Hash) (occupied : N)
  : list (option Hash) * option (Hash * nat) :=
  match fuel with
  | O => (ps, Some (hash, level))
  | S fuel =>
      if (N.land occupied 1 =? 1)%N then
        match ps !! level with
        | Some (Some left_peak) =>
            carry fuel (<[level := None]> ps) (S level) (node_hash left_peak hash) (N.shiftr occupied 1)
        | _ => (ps, None)
        end
      else (ps, Some (hash, level))
  end.

(** [Vec::resize(n, None)] where it grows. *)
Definition resize_none (ps : list (option Hash)) (n : nat) : list (option Hash) :=
  ps ++ replicate (n - length ps) None.

Definition append_hash (f : MerkleFrontier) (leaf : Hash) : option N * MerkleFrontier :=
  if negb (validate f) || (size f =? u64_MAX)%N then (None, f)
  else
    let index := size f in
    match carry u64_BITS (peaks f) 0 leaf (size f) with
    | (ps, None) => (None, {| size := size f; peaks := ps |})
    | (ps, Some (hash, level)) =>
        let ps := if length ps <=? level then resize_none ps (level + 1) else ps in
        (Some index, {| size := size f + 1; peaks := <[level := Some hash]> ps |})
    end.

Definition frontier_append (f : MerkleFrontier) (data : bytes) : option N * MerkleFrontier :=
  append_hash f (leaf_hash data).

Definition merge_peak (root peak : option Hash) : option Hash :=
  match peak with
  | None => root
  | Some peak => Some (match root with Some right_root => node_hash peak right_root | None => peak end)
  end.

Definition frontier_root (f : MerkleFrontier) : option Hash :=
  if negb (validate f) then None
  else if (size f =? 0)%N then Some empty_root
  else fold_left merge_peak (peaks f) None.

Lemma land_1_odd n : (N.land n 1 =? 1)%N = N.odd n.
Proof.
  change 1%N with (N.ones 1) at 1. rewrite N.land_ones, <-N.bit0_mod, N.bit0_odd. by destruct (N.odd n).
Qed.

Lemma bit_at_testbit n level : bit_at n level = N.testbit n (N.of_nat level).
Proof. unfold bit_at. by rewrite land_1_odd, N.testbit_odd. Qed.

(** The number whose bits are the occupied levels. *)
Fixpoint occupancy (ps : list (option Hash)) : N :=
  match ps with
  | [] => 0
  | p :: ps => (if is_some p then 1 else 0) + 2 * occupancy ps
  end.

Lemma occupancy_testbit ps i :
  N.testbit (occupancy ps) (N.of_nat i) = match ps !! i with Some p => is_some p | None => false end.
Proof.
  revert i; induction ps as [|p ps IH]; intros i; [by rewrite N.bits_0|].
  cbn [occupancy]. destruct i as [|i].
  - destruct p; simpl is_some; simpl N.of_nat; rewrite ?N.add_0_l.
    + by rewrite N.add_comm, N.testbit_odd_0.
    + by rewrite N.testbit_even_0.
  - rewrite Nat2N.inj_succ. destruct p; simpl is_some.
    + rewrite N.add_comm, N.testbit_odd_succ by lia. apply IH.
    + rewrite N.add_0_l, N.testbit_even_succ by lia. apply IH.
Qed.

Lemma occupancy_bound ps : (occupancy ps < 2 ^ N.of_nat (length ps))%N.
Proof.
  induction ps as [|p ps IH]; [done|]. cbn [occupancy length].
  rewrite Nat2N.inj_succ, N.pow_succ_r'. destruct (is_some p); lia.
Qed.

Lemma insert_level (n : nat) (p q : option Hash) ps :
  <[n := q]> (replicate n None ++ p :: ps) = replicate n None ++ q :: ps.
Proof. rewrite insert_app_r_alt by (rewrite length_replicate; lia). by rewrite length_replicate, Nat.sub_diag. Qed.

(** ** What the peaks stand for

    [blocks k ps ls]: the peaks [ps] of levels [k], [k+1], ... cut [ls] into blocks of
    [2^level] elements, the lowest level last, and [R] relates each to its peak. *)

Section Blocks.
Context {A : Type} (R : list A -> Hash -> Prop).

Inductive blocks : nat -> list (option Hash) -> list A -> Prop :=
| blocks_nil k : blocks k [] []
| blocks_none k ps ls : blocks (S k) ps ls -> blocks k (None :: ps) ls
| blocks_some k ps ls block h :
    blocks (S k) ps ls -> length block = 2 ^ k -> R block h ->
    blocks k (Some h :: ps) (ls ++ block).

Lemma blocks_length k ps ls :
  blocks k ps ls -> N.of_nat (length ls) = (2 ^ N.of_nat k * occupancy ps)%N.
Proof.
  induction 1 as [k|k ps ls H IH|k ps ls block h H IH Hb Hr]; cbn [occupancy is_some].
  - by rewrite N.mul_0_r.
  - rewrite IH, Nat2N.inj_succ, N.pow_succ_r'. lia.
  - rewrite length_app, Nat2N.inj_add, IH, Hb, Nat2N.inj_pow, Nat2N.inj_succ, N.pow_succ_r'. change (N.of_nat 2) with 2%N. lia.
Qed.

Lemma blocks_replicate k n ps ls : blocks (k + n) ps ls -> blocks k (replicate n None ++ ps) ls.
Proof.
  revert k; induction n as [|n IH]; intros k; simpl; [by rewrite Nat.add_0_r|].
  rewrite Nat.add_succ_r. intros H. constructor. by apply IH.
Qed.

(** Merging two blocks of one size. *)
Context (R_merge : forall b1 b2 h1 h2 k,
  length b1 = 2 ^ k -> length b2 = 2 ^ k -> R b1 h1 -> R b2 h2 -> R (b1 ++ b2) (node_hash h1 h2)).

Lemma carry_blocks fuel : forall k ps ls block h,
  blocks k ps ls -> length ps <= fuel -> length block = 2 ^ k -> R block h ->
  exists level ps' ls' block' h',
    carry fuel (replicate k None ++ ps) k h (occupancy ps) =
      (replicate level None ++ ps', Some (h', level)) /\
    (ps' = [] \/ exists rest, ps' = None :: rest) /\
    level + length ps' = k + length ps /\
    blocks level ps' ls' /\ length block' = 2 ^ level /\ R block' h' /\
    ls' ++ block' = ls ++ block.
Proof.
  induction fuel as [|fuel IH]; intros k ps ls block h Hb Hf Hl Hr.
  { destruct ps; [|simpl in Hf; lia]. exists k, [], ls, block, h. naive_solver. }
  cbn [carry]. rewrite land_1_odd.
  inversion Hb as [|k' ps' ls' H|k' ps' ls' b h' H Hbl Hrb]; subst; cbn [occupancy is_some].
  - exists k, [], [], block, h. naive_solver.
  - rewrite N.odd_add_mul_2. simpl N.odd. cbv iota.
    exists k, (None :: ps'), ls, block, h. naive_solver.
  - rewrite N.odd_add_mul_2. simpl N.odd. cbv iota.
    rewrite lookup_app_r, length_replicate, Nat.sub_diag by (rewrite length_replicate; lia).
    cbn [lookup list_lookup]. rewrite insert_level.
    replace (N.shiftr (1 + 2 * occupancy ps') 1) with (occupancy ps')
      by (rewrite N.shiftr_div_pow2; simpl N.pow; lia).
    replace (replicate k None ++ None :: ps') with (replicate (S k) None ++ ps')
      by (rewrite replicate_S_end, <-(assoc_L (++)); done).
    destruct (IH (S k) ps' ls' (b ++ block) (node_hash h' h)) as (lv & p & l & bl & hh & -> & Hp & Hlen & Hrest);
      [done|simpl in Hf; lia|rewrite length_app, Nat.pow_succ_r'; lia|by eapply R_merge|].
    exists lv, p, l, bl, hh. rewrite (assoc_L (++)) in Hrest. simpl length. repeat split_and; naive_solver lia.
Qed.
End Blocks.
(** ** Well-formedness *)

Definition fits (f : MerkleFrontier) : Prop := (size f < 2 ^ 64)%N.

Lemma validate_iff f :
  fits f ->
  validate f = true <-> length (peaks f) <= u64_BITS /\ size f = occupancy (peaks f).
Proof.
  intros Hs. unfold fits, validate, u64_BITS in *.
  rewrite !andb_true_iff, orb_true_iff, Nat.leb_le, Nat.eqb_eq, N.eqb_eq, forallb_forall. split.
  - intros [[Hlen Hall] Htop]. split; [done|]. apply N.bits_inj. intros i.
    rewrite <-(N2Nat.id i). set (j := N.to_nat i). rewrite occupancy_testbit.
    destruct (peaks f !! j) as [p|] eqn:Ej.
    + assert ((j, p) ∈ imap pair (peaks f)) as Hin.
      { apply list_elem_of_lookup. exists j. by rewrite list_lookup_imap, Ej. }
      apply list_elem_of_In, Hall in Hin. rewrite bit_at_testbit in Hin. by apply eqb_prop in Hin.
    + apply lookup_ge_None in Ej. destruct Htop as [H64|H0].
      * rewrite <-(N.mod_small (size f) (2 ^ 64)) by done. apply N.mod_pow2_bits_high. lia.
      * replace (N.of_nat j) with (N.of_nat (j - length (peaks f)) + N.of_nat (length (peaks f)))%N by lia.
        rewrite <-N.shiftr_spec', H0. apply N.bits_0.
  - intros [Hlen Ho]. split; [split; [done|]|].
    + intros [j p] Hin. apply list_elem_of_In, list_elem_of_lookup in Hin as [i Hi].
      rewrite list_lookup_imap in Hi. apply fmap_Some in Hi as (q & Hq & [= -> ->]).
      rewrite bit_at_testbit, Ho, occupancy_testbit, Hq. by destruct (is_some q).
    + right. rewrite Ho, N.shiftr_div_pow2. apply N.div_small, occupancy_bound.
Qed.

(** Appending to a well-formed frontier, whatever its peaks stand for. *)
Lemma append_hash_blocks {A} (R : list A -> Hash -> Prop) f ls a h :
  (forall b1 b2 h1 h2 k, length b1 = 2 ^ k -> length b2 = 2 ^ k -> R b1 h1 -> R b2 h2 ->
     R (b1 ++ b2) (node_hash h1 h2)) ->
  fits f -> validate f = true -> size f <> u64_MAX ->
  blocks R 0 (peaks f) ls -> R [a] h ->
  exists f', append_hash f h = (Some (size f), f') /\ size f' = (size f + 1)%N /\
    fits f' /\ validate f' = true /\ blocks R 0 (peaks f') (ls ++ [a]).
Proof.
  intros Hm Hs Hv Hmax Hb Hr. pose proof (proj1 (validate_iff f Hs) Hv) as [Hlen Ho].
  unfold append_hash. rewrite Hv, (proj2 (N.eqb_neq _ _) Hmax). simpl orb. cbv iota zeta.
  destruct (carry_blocks R Hm u64_BITS 0 (peaks f) ls [a] h Hb Hlen eq_refl Hr)
    as (level & ps & ls' & block & h' & E & Hps & Hl & Hb' & Hbl & Hr' & Els).
  simpl app in E. rewrite Ho, E. set (ps1 := if length (replicate level None ++ ps) <=? level then _ else _).
  assert (exists rest, <[level := Some h']> ps1 = replicate level None ++ Some h' :: rest /\
            length (replicate level None ++ Some h' :: rest) = max (length (peaks f)) (S level) /\
            blocks R (S level) rest ls') as (rest & -> & Hlr & Hbr).
  { unfold ps1. rewrite length_app, length_replicate. destruct Hps as [->|[rest ->]].
    - inversion Hb'; subst. exists []. rewrite app_nil_r.
      replace (level + length [] <=? level) with true by (symmetry; apply Nat.leb_le; simpl; lia).
      unfold resize_none. rewrite length_replicate. replace (level + 1 - level) with 1 by lia.
      change (replicate 1 None) with [@None Hash].
      rewrite insert_level. split; [done|]. rewrite length_app, length_replicate. cbn [length] in *.
      split; [lia|constructor].
    - inversion Hb'; subst. exists rest.
      replace (_ <=? _) with false by (symmetry; apply Nat.leb_gt; simpl; lia).
      rewrite insert_level. split; [done|]. rewrite length_app, length_replicate. cbn [length] in *. split; [lia|done]. }
  assert (blocks R 0 (replicate level None ++ Some h' :: rest) (ls ++ [a])) as Hblocks.
  { rewrite <-Els. apply blocks_replicate. by constructor. }
  pose proof (blocks_length _ _ _ _ Hb) as Ell. pose proof (blocks_length _ _ _ _ Hblocks) as Ell'.
  rewrite N.mul_1_l in Ell, Ell'. rewrite length_app, Nat2N.inj_add, Ell in Ell'. simpl length in Ell'.
  unfold fits, u64_MAX in *. eexists. split; [done|]. split; [done|].
  assert (occupancy (peaks f) + 1 < 2 ^ 64)%N as Hfit by lia.
  split; [done|]. split; [|done]. apply validate_iff; [done|]. split; [|exact Ell'].
  cbn [peaks]. rewrite Hlr. apply Nat.max_lub; [done|].
  assert (2 ^ N.of_nat level < 2 ^ 64)%N as Hlv.
  { apply (f_equal length) in Els. rewrite !length_app, Hbl in Els. simpl length in Els.
    apply (f_equal N.of_nat) in Els. rewrite !Nat2N.inj_add, Nat2N.inj_pow, Ell in Els.
    change (N.of_nat 2) with 2%N in Els. lia. }
  apply N.pow_lt_mono_r_iff in Hlv; [unfold u64_BITS; lia|done].
Qed.

(** ** Refinement of the full log *)

Definition rooted (block : list Hash) (h : Hash) : Prop := root_range block = h.

(** The frontier [f] represents the log [log]. *)
Definition rep (f : MerkleFrontier) (log : MerkleLog) : Prop :=
  fits f /\ validate f = true /\ blocks rooted 0 (peaks f) (leaves log).

Lemma root_range_app b s k :
  length b = 2 ^ k -> 0 < length s <= 2 ^ k ->
  root_range (b ++ s) = node_hash (root_range b) (root_range s).
Proof.
  intros Hb Hs. assert (split (length (b ++ s)) = length b) as E.
  { rewrite Hb. apply split_unique. rewrite length_app, Nat.pow_succ_r'. lia. }
  pose proof (Nat.pow_nonzero 2 k). rewrite root_range_split by (rewrite length_app; lia).
  by rewrite E, take_app_length, drop_app_length.
Qed.

Lemma rooted_merge b1 b2 h1 h2 k :
  length b1 = 2 ^ k -> length b2 = 2 ^ k -> rooted b1 h1 -> rooted b2 h2 ->
  rooted (b1 ++ b2) (node_hash h1 h2).
Proof.
  unfold rooted. intros H1 H2 <- <-. apply (root_range_app _ _ k); [done|].
  pose proof (Nat.pow_nonzero 2 k). lia.
Qed.

Definition root_opt (ls : list Hash) : option Hash :=
  match ls with [] => None | _ => Some (root_range ls) end.

Lemma fold_peaks k ps ls : blocks rooted k ps ls -> forall s,
  length s < 2 ^ k -> fold_left merge_peak ps (root_opt s) = root_opt (ls ++ s).
Proof.
  induction 1 as [k|k ps ls H IH|k ps ls block h H IH Hb Hr]; intros s Hs; cbn [fold_left]; [done|..].
  - apply IH. rewrite Nat.pow_succ_r'. lia.
  - rewrite <-(assoc_L (++)). rewrite <-IH by (rewrite length_app, Nat.pow_succ_r'; lia). f_equal.
    destruct block as [|b block]; [simpl in Hb; pose proof (Nat.pow_nonzero 2 k); lia|].
    destruct s as [|x s]; unfold rooted in Hr; subst h; [by rewrite app_nil_r|].
    cbn [merge_peak root_opt]. by rewrite <-(root_range_app (b :: block) (x :: s) k) by (simpl in *; lia).
Qed.

Lemma rep_size f log : rep f log -> size f = N.of_nat (log_size log).
Proof.
  intros (Hf & Hv & Hb). apply validate_iff in Hv as [_ ->]; [|done].
  apply blocks_length in Hb. rewrite N.mul_1_l in Hb. done.
Qed.

Lemma rep_new : rep frontier_new log_new.
Proof. repeat split; constructor. Qed.

Lemma rep_append f log data :
  rep f log -> size f <> u64_MAX ->
  exists f', frontier_append f data = (Some (size f), f') /\ rep f' (snd (log_append log data)).
Proof.
  intros (Hf & Hv & Hb) Hm.
  destruct (append_hash_blocks rooted f (leaves log) (leaf_hash data) (leaf_hash data))
    as (f' & E & _ & Hf' & Hv' & Hb'); [exact rooted_merge|done..|by unfold rooted; simp root_range|].
  exists f'. done.
Qed.

Lemma rep_root f log : rep f log -> frontier_root f = Some (log_root log).
Proof.
  intros Hr. pose proof (rep_size f log Hr) as Es. destruct Hr as (Hf & Hv & Hb).
  unfold frontier_root. rewrite Hv. cbn [negb]. rewrite log_root_range.
  destruct (leaves log) as [|x ls] eqn:El; unfold log_size in Es; rewrite El in Es.
  - rewrite Es. by simp root_range.
  - replace (size f =? 0)%N with false by (symmetry; apply N.eqb_neq; rewrite Es; simpl length; lia).
    change None with (root_opt []). rewrite (fold_peaks 0 _ (x :: ls)); [by rewrite app_nil_r|done|simpl; lia].
Qed.

Lemma blocks_shape k ps : exists ls : list unit, blocks (fun _ _ => True) k ps ls.
Proof.
  revert k; induction ps as [|[h|] ps IH]; intros k.
  - exists []. constructor.
  - destruct (IH (S k)) as [ls H]. exists (ls ++ replicate (2 ^ k) tt). constructor; [done|by rewrite length_replicate|done].
  - destruct (IH (S k)) as [ls H]. exists ls. by constructor.
Qed.

(** * Properties *)

(** C37: the frontier refines the full log.  A frontier that represents a log
    computes the log's root, and appending an entry to both gives the entry the same index
    and keeps the frontier representing the log, up to the one size at which the
    frontier refuses and stays as it is. *)
Theorem frontier_refines_log (f : MerkleFrontier) (log : MerkleLog) (data : bytes) :
  rep f log ->
  frontier_root f = Some (log_root log) /\
  let '(index, log') := log_append log data in
  if (N.of_nat (log_size log) =? u64_MAX)%N then frontier_append f data = (None, f)
  else exists f', frontier_append f data = (Some (N.of_nat index), f') /\ rep f' log'.
Proof.
  intros Hr. split; [by apply rep_root|]. pose proof (rep_size f log Hr) as Es. rewrite <-Es.
  cbn [log_append fst snd]. destruct (size f =? u64_MAX)%N eqn:Em.
  - unfold frontier_append, append_hash. by rewrite Em, orb_true_r.
  - apply N.eqb_neq in Em. destruct (rep_append f log data Hr Em) as (f' & E & Hf').
    exists f'. split; [|done]. rewrite E, Es, length_app. simpl length.
    unfold log_size. by rewrite Nat.add_sub.
Qed.

(** A persisted frontier that validates stays usable: whatever hashes it holds,
    an append below the size limit succeeds with the old size as the index, and leaves a frontier one
    larger that validates and holds at most 64 hashes; a frontier that does not validate, or is full,
    refuses and is left as it is. *)
Theorem append_hash_total (f : MerkleFrontier) (leaf : Hash) :
  fits f ->
  if validate f && negb (size f =? u64_MAX)%N then
    exists f', append_hash f leaf = (Some (size f), f') /\ size f' = (size f + 1)%N /\
      validate f' = true /\ length (peaks f') <= 64
  else append_hash f leaf = (None, f).
Proof.
  intros Hf. destruct (validate f) eqn:Hv, (size f =? u64_MAX)%N eqn:Em; cbn [andb negb];
    try (unfold append_hash; rewrite Hv, Em; done).
  apply N.eqb_neq in Em. destruct (blocks_shape 0 (peaks f)) as [ls Hb].
  destruct (append_hash_blocks (fun _ _ => True) f ls tt leaf) as (f' & E & Hs & Hf' & Hv' & _); try done.
  exists f'. split; [done|]. split; [done|]. split; [done|]. by apply validate_iff in Hv' as [? _].
Qed.

End Frontier.

(** * A frontier of one entry *)

Definition demo_frontier : MerkleFrontier :=
  {| size := 1; peaks := [Some (leaf_hash (C := toy_crypto) (lit "a"))] |}.

Lemma frontier_refines_log_witness :
  let log := from_leaves [leaf_hash (C := toy_crypto) (lit "a")] in
  rep (C := toy_crypto) demo_frontier log /\
  frontier_root (C := toy_crypto) demo_frontier = Some (log_root (C := toy_crypto) log) /\
  exists f', frontier_append (C := toy_crypto) demo_frontier (lit "b") = (Some 1%N, f') /\
    rep (C := toy_crypto) f' (snd (log_append (C := toy_crypto) log (lit "b"))).
Proof.
  assert (rep (C := toy_crypto) demo_frontier (from_leaves [leaf_hash (C := toy_crypto) (lit "a")])) as H.
  { repeat split. apply (blocks_some _ 0 [] [] [leaf_hash (C := toy_crypto) (lit "a")]); [constructor|done|].
    unfold rooted. by simp root_range. }
  split; [exact H|]. exact (frontier_refines_log (C := toy_crypto) _ _ (lit "b") H).
Defined.

Lemma append_hash_total_witness :
  fits demo_frontier /\
  exists f', append_hash (C := toy_crypto) demo_frontier (zeroes 32) = (Some 1%N, f') /\ size f' = 2%N /\
    validate f' = true /\ length (peaks f') <= 64.
Proof.
  split; [done|]. exact (append_hash_total (C := toy_crypto) demo_frontier (zeroes 32) eq_refl).
Defined.
