(* ===== verification/Reservation.v ===== *)
(** Admission by reservation: the argument the loft's trace admission and the registry's global binding admission share.

    Processes share one durable row (window, admitted).  A process reserves slots of a window by moving the row, keeps what it
    has not spent as a lease in memory, and loses it when it restarts.  Whatever the interleaving, the slots
    granted in one window are at most the limit. *)
From S2P Require Import Prelude.

Section Reservation.
Context {B : Type} (fresh : B) (lease_of : B -> option (Z * Z)) (Hfresh : lease_of fresh = None).

(** The row, the processes' memories, and the windows of the granted slots. *)
Record Node := {
  nd_row : Z * Z;
  nd_processes : gmap nat B;
  nd_granted : list Z;
}.

Definition memory_of (p : nat) (n : Node) : B := default fresh (nd_processes n !! p).

(** What one call does to the row and to the lease [(window, remaining)] of its process. *)
Inductive grant_effect (window limit : Z) (b : B) (stored : Z * Z) : bool -> B -> Z * Z -> Prop :=
| grant_refused b' : lease_of b' = None \/ lease_of b' = lease_of b -> grant_effect window limit b stored false b' stored
| grant_spent r b' : lease_of b = Some (window, r) -> 0 < r -> lease_of b' = Some (window, r - 1) ->
    grant_effect window limit b stored true b' stored
| grant_reserved k b' row : 1 <= k -> stored.1 <= window -> row = (window, (if stored.1 <? window then 0 else stored.2) + k) ->
    row.2 <= limit -> lease_of b' = Some (window, k - 1) ->
    grant_effect window limit b stored true b' row.

Inductive grant_step (max_limit : Z) (n : Node) : Node -> Prop :=
| grant_charge p window limit granted b row :
    0 <= limit <= max_limit -> grant_effect window limit (memory_of p n) (nd_row n) granted b row ->
    grant_step max_limit n
      {| nd_row := row; nd_processes := <[p := b]> (nd_processes n);
         nd_granted := if granted then window :: nd_granted n else nd_granted n |}
| grant_restart p :
    grant_step max_limit n {| nd_row := nd_row n; nd_processes := delete p (nd_processes n); nd_granted := nd_granted n |}.

Definition granted_at (window : Z) (granted : list Z) : Z := Z.of_nat (length (filter (fun w => w = window) granted)).

(** The slots of a window a process still holds. *)
Definition holds (window : Z) (b : B) : Z :=
  match lease_of b with Some (w, r) => if w =? window then r else 0 | None => 0 end.

(** [reserved w] slots of window [w] have ever been reserved. *)
Record reservation_inv (max_limit : Z) (reserved : Z -> Z) (n : Node) : Prop := {
  rs_spent w : granted_at w (nd_granted n) + total (holds w) (nd_processes n) <= reserved w;
  rs_later w : (nd_row n).1 < w -> reserved w = 0;
  rs_row : reserved (nd_row n).1 <= (nd_row n).2;
  rs_bound w : 0 <= reserved w <= max_limit;
  rs_leases p b w r : nd_processes n !! p = Some b -> lease_of b = Some (w, r) -> 0 <= r;
}.

Lemma memory_holds w p n : holds w (memory_of p n) = default 0 (holds w <$> nd_processes n !! p).
Proof. unfold memory_of. destruct (nd_processes n !! p); [done|]. cbn. unfold holds. by rewrite Hfresh. Qed.

Lemma granted_at_cons w v l : granted_at w (v :: l) = granted_at w l + (if decide (v = w) then 1 else 0).
Proof. unfold granted_at. rewrite filter_cons. destruct (decide (v = w)); simpl length; lia. Qed.

Lemma holds_nonneg max_limit reserved n w p : reservation_inv max_limit reserved n -> 0 <= holds w (memory_of p n).
Proof.
  intros I. rewrite memory_holds. destruct (nd_processes n !! p) as [b|] eqn:Hp; simpl; [|done]. unfold holds.
  destruct (lease_of b) as [[v r]|] eqn:Hl; [|done]. case_match; [|done]. by eapply rs_leases.
Qed.

Lemma total_holds_nonneg max_limit reserved n w : reservation_inv max_limit reserved n -> 0 <= total (holds w) (nd_processes n).
Proof.
  intros I. apply total_nonneg. intros p b Hp. pose proof (holds_nonneg _ _ _ w p I) as Hh. rewrite memory_holds, Hp in Hh. done.
Qed.

Definition bump (reserved : Z -> Z) (window k : Z) : Z -> Z := fun w => if w =? window then reserved w + k else reserved w.

Lemma charge_keeps max_limit reserved n p window limit granted b row :
  reservation_inv max_limit reserved n -> 0 <= limit <= max_limit ->
  grant_effect window limit (memory_of p n) (nd_row n) granted b row ->
  exists reserved', reservation_inv max_limit reserved'
    {| nd_row := row; nd_processes := <[p := b]> (nd_processes n); nd_granted := if granted then window :: nd_granted n else nd_granted n |}.
Proof.
  intros I Hl E.
  assert (forall w, total (holds w) (<[p := b]> (nd_processes n)) = total (holds w) (nd_processes n) - holds w (memory_of p n) + holds w b) as T
    by (intros w; rewrite total_insert, memory_holds; done).
  destruct E as [b' Hb|r b' Hb Hr Hb'|k b' row Hk Hle -> Hrow Hb].
  - exists reserved. split; simpl; try apply I.
    + intros w. rewrite T. pose proof (rs_spent _ _ _ I w) as Hs. pose proof (holds_nonneg _ _ _ w p I) as Hn.
      assert (holds w b' <= holds w (memory_of p n)); [|lia].
      unfold holds at 1. destruct Hb as [-> | ->]; [done|]. by unfold holds.
    + intros q c v r Hq Hc. destruct (decide (p = q)) as [<-|Hne]; simplify_map_eq; [|by eapply rs_leases].
      destruct Hb as [Hb|Hb]; [congruence|]. unfold memory_of in Hb. rewrite Hb in Hc.
      destruct (nd_processes n !! p) eqn:Hp; [by eapply (rs_leases _ _ _ I)|]. cbn in Hc. congruence.
  - exists reserved. split; simpl; try apply I.
    + intros w. rewrite T. pose proof (rs_spent _ _ _ I w) as Hs. rewrite granted_at_cons.
      assert (holds w b' = holds w (memory_of p n) - (if decide (window = w) then 1 else 0)) as ->; [|lia].
      unfold holds. rewrite Hb, Hb'. destruct (decide (window = w)) as [->|Hne]; [rewrite Z.eqb_refl; lia|].
      by rewrite (proj2 (Z.eqb_neq window w)).
    + intros q c v r' Hq Hc. destruct (decide (p = q)) as [<-|Hne]; simplify_map_eq; [lia|by eapply rs_leases].
  - simpl in Hrow.
    assert (reserved window <= (if (nd_row n).1 <? window then 0 else (nd_row n).2)) as Hres.
    { destruct ((nd_row n).1 <? window) eqn:Hlt; b2p.
      - by rewrite (rs_later _ _ _ I).
      - replace window with (nd_row n).1 by lia. apply I. }
    exists (bump reserved window k). split; simpl.
    + intros w. rewrite T. pose proof (rs_spent _ _ _ I w) as Hs. pose proof (holds_nonneg _ _ _ w p I).
      rewrite granted_at_cons. unfold holds at 3, bump. rewrite Hb.
      destruct (decide (window = w)) as [->|Hne]; [rewrite !Z.eqb_refl; lia|].
      rewrite (proj2 (Z.eqb_neq window w)), (proj2 (Z.eqb_neq w window)) by congruence. lia.
    + intros w Hlt. unfold bump. rewrite (proj2 (Z.eqb_neq w window)) by lia. apply (rs_later _ _ _ I). lia.
    + unfold bump. rewrite Z.eqb_refl. lia.
    + intros w. pose proof (rs_bound _ _ _ I w). unfold bump. destruct (w =? window) eqn:Ew; b2p; [subst; lia|lia].
    + intros q c v r' Hq Hc. destruct (decide (p = q)) as [<-|Hne]; simplify_map_eq; [lia|by eapply rs_leases].
Qed.

Lemma grant_step_keeps max_limit reserved n n' :
  reservation_inv max_limit reserved n -> grant_step max_limit n n' -> exists reserved', reservation_inv max_limit reserved' n'.
Proof.
  intros I [p window limit granted b row Hl E|p].
  - by eapply charge_keeps.
  - exists reserved. split; simpl; try apply I.
    + intros w. pose proof (rs_spent _ _ _ I w) as Hs. pose proof (holds_nonneg _ _ _ w p I) as Hn.
      rewrite memory_holds in Hn. rewrite (total_delete _ _ p) in Hs. lia.
    + intros q b v r Hq. apply lookup_delete_Some in Hq as [_ Hq]. by eapply rs_leases.
Qed.

Definition node_started (row : Z * Z) : Node := {| nd_row := row; nd_processes := ∅; nd_granted := [] |}.

Lemma reservation_started max_limit row : 0 <= max_limit -> 0 <= row.2 -> reservation_inv max_limit (fun _ => 0) (node_started row).
Proof. intros Hm Hr. split; simpl; intros; try lia; [by rewrite total_empty|]. by rewrite lookup_empty in *. Qed.

(** No window grants more than the limit. *)
Lemma grants_bounded max_limit row n window : 0 <= max_limit -> 0 <= row.2 ->
  rtc (grant_step max_limit) (node_started row) n -> granted_at window (nd_granted n) <= max_limit.
Proof.
  intros Hm Hr R. assert (exists reserved, reservation_inv max_limit reserved n) as (reserved & I).
  { pattern n. eapply rtc_ind_r; [|clear n R|exact R].
    - eexists. by apply reservation_started.
    - intros m n _ St (reserved & I). by eapply grant_step_keeps. }
  pose proof (rs_spent _ _ _ I window). pose proof (total_holds_nonneg _ _ _ window I). pose proof (rs_bound _ _ _ I window). lia.
Qed.
End Reservation.
Arguments Node : clear implicits.
