(* ===== verification/Civil.v ===== *)
(** Civil dates: the proleptic-Gregorian conversions [civil_from_days] and
    [days_from_civil] of [pigeonpost-compliance-format/src/lib.rs], and their agreement
    with a day-by-day reference calendar. *)
From S2P Require Import Prelude.

(** * The conversions *)

(** [i64] arithmetic that reports overflow. *)
Definition i64_checked (z : Z) : option Z :=
  if (- 2 ^ 63 <=? z) && (z <? 2 ^ 63) then Some z else None.

(** [days] is far below the [i64] limits at every call, so no operation of this function
    overflows; [/] on non-negative operands is [Z.div], [div_euclid] by a positive number
    is too. *)
Definition civil_from_days (days : Z) : Z * Z * Z :=
  let z := days + 719468 in
  let era := z / 146097 in
  let day_of_era := z - era * 146097 in
  let year_of_era :=
    (day_of_era - day_of_era / 1460 + day_of_era / 36524 - day_of_era / 146096) / 365 in
  let year := year_of_era + era * 400 in
  let day_of_year := day_of_era - (365 * year_of_era + year_of_era / 4 - year_of_era / 100) in
  let month_prime := (5 * day_of_year + 2) / 153 in
  let day := day_of_year - (153 * month_prime + 2) / 5 + 1 in
  let month := month_prime + (if month_prime <? 10 then 3 else -9) in
  let year := year + (if month <=? 2 then 1 else 0) in
  (year, month, day).

Definition days_from_civil (year month day : Z) : option Z :=
  if negb ((1 <=? month) && (month <=? 12)) || negb ((1 <=? day) && (day <=? 31)) then None
  else
    year ← i64_checked (year - (if month <=? 2 then 1 else 0));
    let era := year / 400 in
    era400 ← i64_checked (era * 400);
    year_of_era ← i64_checked (year - era400);
    let month_prime := month + (if 2 <? month then -3 else 9) in
    let day_of_year := (153 * month_prime + 2) / 5 + day - 1 in
    a ← i64_checked (year_of_era * 365);
    b ← i64_checked (a + year_of_era / 4);
    c ← i64_checked (b - year_of_era / 100);
    day_of_era ← i64_checked (c + day_of_year);
    x ← i64_checked (era * 146097);
    y ← i64_checked (x + day_of_era);
    i64_checked (y - 719468).

(** * The reference calendar *)

Definition is_leap (year : Z) : bool :=
  (year mod 4 =? 0) && (negb (year mod 100 =? 0) || (year mod 400 =? 0)).

Definition days_in_month (year month : Z) : Z :=
  if month =? 2 then (if is_leap year then 29 else 28)
  else if (month =? 4) || (month =? 6) || (month =? 9) || (month =? 11) then 30 else 31.

Definition valid_date (date : Z * Z * Z) : Prop :=
  let '(y, m, d) := date in 1 <= m <= 12 /\ 1 <= d <= days_in_month y m.

Definition next_month (y m : Z) : Z * Z := if m =? 12 then (y + 1, 1) else (y, m + 1).

Definition next_day (date : Z * Z * Z) : Z * Z * Z :=
  let '(y, m, d) := date in
  if d <? days_in_month y m then (y, m, d + 1)
  else let '(y, m) := next_month y m in (y, m, 1).

(** * The year of an era

    Years are counted from March here: day 0 of an era is a 1 March. *)

(** Days of an era before its year [y]. *)
Definition days_before_year (y : Z) : Z := 365 * y + y / 4 - y / 100 + y / 400.

Definition era_year_num (doe : Z) : Z := doe - doe / 1460 + doe / 36524 - doe / 146096.

Lemma era_year_num_mono a b : 0 <= a <= b -> b <= 146096 -> era_year_num a <= era_year_num b.
Proof. unfold era_year_num. intros. dlia. Qed.

(** The bounds of each of the 400 years, by evaluation. *)
Fixpoint check_years (fuel : nat) (y : Z) : bool :=
  match fuel with
  | O => true
  | S fuel =>
      (era_year_num (days_before_year y) / 365 =? y)
      && (era_year_num (days_before_year (y + 1) - 1) / 365 =? y) && check_years fuel (y + 1)
  end.

Lemma check_years_ok fuel : forall y0 y,
  check_years fuel y0 = true -> y0 <= y < y0 + Z.of_nat fuel ->
  era_year_num (days_before_year y) / 365 = y /\
  era_year_num (days_before_year (y + 1) - 1) / 365 = y.
Proof.
  induction fuel as [|fuel IH]; intros y0 y Hc Hy; [lia|]. cbn [check_years] in Hc. b2p.
  destruct (Z.eq_dec y y0) as [->|]; [done|]. apply (IH (y0 + 1)); [done|lia].
Qed.

Lemma find_year fuel : forall doe,
  0 <= doe < days_before_year (Z.of_nat fuel) ->
  exists y, 0 <= y < Z.of_nat fuel /\ days_before_year y <= doe < days_before_year (y + 1).
Proof.
  induction fuel as [|fuel IH]; intros doe Hd; [change (days_before_year (Z.of_nat 0)) with 0 in Hd; lia|].
  destruct (Z.lt_ge_cases doe (days_before_year (Z.of_nat fuel))) as [Hlt|Hge].
  - destruct (IH doe ltac:(lia)) as (y & Hy & H). exists y. split; [lia|done].
  - exists (Z.of_nat fuel). split; [lia|]. rewrite Nat2Z.inj_succ in Hd.
    unfold Z.succ in Hd. lia.
Qed.

Lemma days_before_year_le y : 0 <= y < 400 -> 0 <= days_before_year y /\ days_before_year (y + 1) <= 146097.
Proof. unfold days_before_year. intros. dlia. Qed.

Lemma year_of_era_spec doe :
  0 <= doe < 146097 ->
  let y := era_year_num doe / 365 in
  0 <= y < 400 /\ days_before_year y <= doe < days_before_year (y + 1).
Proof.
  intros Hd. destruct (find_year 400 doe Hd) as (y & Hy & H).
  assert (era_year_num doe / 365 = y) as E; [|cbv zeta; by rewrite E].
  destruct (check_years_ok 400 0 y) as [E1 E2]; [by vm_compute|lia|].
  pose proof (days_before_year_le y ltac:(lia)).
  pose proof (era_year_num_mono (days_before_year y) doe ltac:(lia) ltac:(lia)) as M1.
  pose proof (era_year_num_mono doe (days_before_year (y + 1) - 1) ltac:(lia) ltac:(lia)) as M2.
  apply (Z.div_le_mono _ _ 365) in M1; [|lia]. apply (Z.div_le_mono _ _ 365) in M2; [|lia]. lia.
Qed.

(** * Month and day of a year that starts in March *)

(** Days of the year before month [mp], March being month 0. *)
Definition days_before_month (mp : Z) : Z := (153 * mp + 2) / 5.

Lemma month_prime_spec doy :
  0 <= doy <= 365 ->
  let mp := (5 * doy + 2) / 153 in
  0 <= mp <= 11 /\ days_before_month mp <= doy < days_before_month (mp + 1).
Proof. unfold days_before_month. intros. cbv zeta. dlia. Qed.

Lemma month_prime_unique doy mp :
  0 <= mp <= 11 -> days_before_month mp <= doy < days_before_month (mp + 1) -> (5 * doy + 2) / 153 = mp.
Proof. unfold days_before_month. intros. dlia. Qed.

(** The month numbered from January, and back. *)
Definition month_of (mp : Z) : Z := mp + (if mp <? 10 then 3 else -9).
Definition prime_of (m : Z) : Z := m + (if 2 <? m then -3 else 9).

Lemma month_of_range mp : 0 <= mp <= 11 -> 1 <= month_of mp <= 12 /\ prime_of (month_of mp) = mp.
Proof. unfold month_of, prime_of. intros. destruct (mp <? 10) eqn:E; b2p; destruct (2 <? _) eqn:E'; b2p; lia. Qed.

Lemma prime_of_range m : 1 <= m <= 12 -> 0 <= prime_of m <= 11 /\ month_of (prime_of m) = m.
Proof. unfold month_of, prime_of. intros. destruct (2 <? m) eqn:E; b2p; destruct (_ <? 10) eqn:E'; b2p; lia. Qed.

(** * Dates as an era, a year of it, a month and a day *)

(** The day number of a date, without the overflow checks. *)
Definition day_number (era yoe mp day : Z) : Z :=
  era * 146097 + (365 * yoe + yoe / 4 - yoe / 100) + days_before_month mp + day - 1 - 719468.

Definition civil_date (era yoe mp day : Z) : Z * Z * Z :=
  let month := month_of mp in
  (yoe + era * 400 + (if month <=? 2 then 1 else 0), month, day).

(** The last day of a year that ends in February: leap when the year after it is. *)
Definition year_length (yoe : Z) : Z := days_before_year (yoe + 1) - days_before_year yoe.

Definition valid_parts (yoe mp day : Z) : Prop :=
  0 <= yoe < 400 /\ 0 <= mp <= 11 /\ 1 <= day /\
  days_before_month mp + day <= Z.min (days_before_month (mp + 1)) (year_length yoe).

Lemma days_before_year_small y : 0 <= y < 400 -> days_before_year y = 365 * y + y / 4 - y / 100.
Proof. unfold days_before_year. intros. dlia. Qed.

Lemma year_length_cases y : 0 <= y -> year_length y = 365 \/ year_length y = 366.
Proof. unfold year_length, days_before_year. intros. dlia. Qed.

Lemma civil_from_days_parts days :
  exists era yoe mp day, days = day_number era yoe mp day /\ valid_parts yoe mp day /\
    civil_from_days days = civil_date era yoe mp day.
Proof.
  unfold civil_from_days. cbv zeta. set (z := days + 719468). set (era := z / 146097).
  set (doe := z - era * 146097). assert (0 <= doe < 146097) as Hdoe by (subst doe era; dlia).
  destruct (year_of_era_spec doe Hdoe) as [Hy Hd]. unfold era_year_num in Hy, Hd.
  set (yoe := (doe - doe / 1460 + doe / 36524 - doe / 146096) / 365) in *.
  rewrite <-(days_before_year_small yoe Hy). set (doy := doe - days_before_year yoe).
  pose proof (year_length_cases yoe ltac:(lia)) as Hlen. unfold year_length in Hlen.
  destruct (month_prime_spec doy ltac:(lia)) as [Hm Hdm]. set (mp := (5 * doy + 2) / 153) in *.
  exists era, yoe, mp, (doy - days_before_month mp + 1). split; [|split; [|done]].
  - unfold day_number. rewrite <-(days_before_year_small yoe Hy). subst doy doe z. lia.
  - unfold valid_parts, year_length. lia.
Qed.

Lemma civil_from_days_unique era yoe mp day :
  valid_parts yoe mp day -> civil_from_days (day_number era yoe mp day) = civil_date era yoe mp day.
Proof.
  intros (Hy & Hm & Hd & Hb).
  destruct (civil_from_days_parts (day_number era yoe mp day)) as (era' & yoe' & mp' & day' & E & (Hy' & Hm' & Hd' & Hb') & ->).
  unfold day_number in E. rewrite <-!days_before_year_small in E by done.
  unfold year_length in *. pose proof (days_before_year_le yoe Hy). pose proof (days_before_year_le yoe' Hy').
  assert (0 <= days_before_month mp /\ 0 <= days_before_month mp') as [] by (unfold days_before_month; dlia).
  assert (era' = era) as -> by lia.
  assert (yoe' = yoe) as ->.
  { destruct (Z.lt_trichotomy yoe yoe') as [Hlt|[|Hlt]]; [exfalso|done|exfalso].
    - assert (days_before_year (yoe + 1) <= days_before_year yoe') by (unfold days_before_year; dlia). lia.
    - assert (days_before_year (yoe' + 1) <= days_before_year yoe) by (unfold days_before_year; dlia). lia. }
  assert (mp' = mp) as ->.
  { rewrite <-(month_prime_unique (days_before_month mp + day - 1) mp) by lia.
    symmetry. apply month_prime_unique; lia. }
  by assert (day' = day) as -> by lia.
Qed.

(** * Agreement with the reference calendar *)

Lemma year_length_leap era yoe :
  0 <= yoe < 400 -> year_length yoe = if is_leap (yoe + era * 400 + 1) then 366 else 365.
Proof.
  intros Hy. unfold year_length, days_before_year, is_leap.
  destruct (_ mod 4 =? 0) eqn:E4, (_ mod 100 =? 0) eqn:E100, (_ mod 400 =? 0) eqn:E400; cbn [andb orb negb]; b2p; dlia.
Qed.

Ltac mp_cases mp :=
  let H := fresh in
  assert (mp = 0 \/ mp = 1 \/ mp = 2 \/ mp = 3 \/ mp = 4 \/ mp = 5 \/
          mp = 6 \/ mp = 7 \/ mp = 8 \/ mp = 9 \/ mp = 10 \/ mp = 11) as H by lia;
  destruct H as [->|[->|[->|[->|[->|[->|[->|[->|[->|[->|[->| ->]]]]]]]]]]].

Ltac date_eq :=
  repeat match goal with
  | |- context [month_of ?c] => let v := eval vm_compute in (month_of c) in change (month_of c) with v
  end;
  unfold next_month; simpl; do 2 f_equal; lia.

(** How many days a month of the March-based year has. *)
Lemma month_length era yoe mp :
  0 <= yoe < 400 -> 0 <= mp <= 11 ->
  let '(y, m, _) := civil_date era yoe mp 1 in
  days_in_month y m = Z.min (days_before_month (mp + 1)) (year_length yoe) - days_before_month mp.
Proof.
  intros Hy Hm. pose proof (year_length_leap era yoe Hy) as Hl. unfold civil_date.
  mp_cases mp; unfold days_before_month, days_in_month, month_of; simpl;
    (destruct (is_leap _); lia) || (destruct (year_length_cases yoe); lia) || idtac.
Qed.

Lemma valid_parts_date era yoe mp day :
  0 <= yoe < 400 -> 0 <= mp <= 11 -> valid_parts yoe mp day <-> valid_date (civil_date era yoe mp day).
Proof.
  intros Hy Hm. pose proof (month_length era yoe mp Hy Hm) as Hl. pose proof (month_of_range mp Hm) as [Hr _].
  unfold civil_date in *. cbn [fst snd] in *. unfold valid_date, valid_parts. rewrite Hl. lia.
Qed.

(** Every date has its parts. *)
Lemma date_parts y m d :
  1 <= m <= 12 ->
  let y' := y - (if m <=? 2 then 1 else 0) in
  civil_date (y' / 400) (y' mod 400) (prime_of m) d = (y, m, d) /\
  0 <= y' mod 400 < 400 /\ 0 <= prime_of m <= 11.
Proof.
  intros Hm y'. destruct (prime_of_range m Hm) as [Hp Em]. unfold civil_date. rewrite Em. split_and!; [|dlia..].
  do 2 f_equal. unfold y'. destruct (m <=? 2); dlia.
Qed.

Lemma i64_checked_Some z : - 2 ^ 63 <= z < 2 ^ 63 -> i64_checked z = Some z.
Proof. intros H. unfold i64_checked. destruct (_ && _) eqn:E; b2p; [done|lia]. Qed.

Lemma days_from_civil_parts y m d :
  1 <= m <= 12 -> 1 <= d <= 31 -> - 2 ^ 50 <= y <= 2 ^ 50 ->
  let y' := y - (if m <=? 2 then 1 else 0) in
  days_from_civil y m d = Some (day_number (y' / 400) (y' mod 400) (prime_of m) d).
Proof.
  intros Hm Hd Hy y'. destruct (prime_of_range m Hm) as [Hp _].
  assert (- 2 ^ 51 <= y' <= 2 ^ 51) as Hy' by (unfold y'; destruct (m <=? 2); lia).
  unfold days_from_civil. fold y' (prime_of m) (days_before_month (prime_of m)).
  assert (0 <= days_before_month (prime_of m) <= 366) as Hdm by (unfold days_before_month; dlia).
  replace (_ || _) with false by (symmetry; rewrite orb_false_iff, !negb_false_iff, !andb_true_iff, !Z.leb_le; lia).
  assert (y' - y' / 400 * 400 = y' mod 400) as Emod by dlia.
  assert (0 <= y' mod 400 < 400) as Hmod by dlia.
  assert (- 2 ^ 51 <= y' / 400 <= 2 ^ 51) as Hera by dlia.
  assert (0 <= y' mod 400 / 4 < 100 /\ 0 <= y' mod 400 / 100 < 4) as Hq by dlia.
  rewrite (i64_checked_Some y') by lia. cbn [mbind option_bind].
  rewrite (i64_checked_Some (y' / 400 * 400)) by lia. cbn [mbind option_bind].
  rewrite Emod. repeat (rewrite i64_checked_Some by lia; cbn [mbind option_bind]).
  f_equal. unfold day_number. lia.
Qed.

Lemma civil_valid days : valid_date (civil_from_days days).
Proof.
  destruct (civil_from_days_parts days) as (era & yoe & mp & day & -> & Hv & ->).
  apply valid_parts_date; [apply Hv|apply Hv|done].
Qed.

Lemma days_in_month_range y m : 28 <= days_in_month y m <= 31.
Proof. unfold days_in_month. repeat case_match; lia. Qed.

(** The March-based successor of a date. *)
Lemma next_day_parts era yoe mp day :
  valid_parts yoe mp day ->
  exists era' yoe' mp' day', valid_parts yoe' mp' day' /\
    day_number era' yoe' mp' day' = day_number era yoe mp day + 1 /\
    civil_date era' yoe' mp' day' = next_day (civil_date era yoe mp day).
Proof.
  intros Hv. assert (Hv' := Hv). destruct Hv' as (Hy & Hm & Hd & Hb).
  pose proof (month_length era yoe mp Hy Hm) as Hl. pose proof (year_length_cases yoe ltac:(lia)) as Hyl.
  unfold next_day, civil_date in *. cbn [fst snd] in *. rewrite Hl.
  destruct (day <? _) eqn:Ed; b2p.
  { exists era, yoe, mp, (day + 1). unfold valid_parts, day_number. repeat split; lia. }
  assert (days_before_month mp + day = Z.min (days_before_month (mp + 1)) (year_length yoe)) as Ed' by lia. clear Ed Hl.
  destruct (Z.eq_dec mp 11) as [->|Hne].
  - assert (days_before_month 11 + day = year_length yoe) as Ed'' by (change (days_before_month (11 + 1)) with 367 in Ed'; lia).
    unfold year_length in *. destruct (Z.eq_dec yoe 399) as [->|Hn].
    + exists (era + 1), 0, 0, 1. split_and!; [unfold valid_parts; vm_compute; repeat split; congruence| |].
      * unfold day_number. change (days_before_year (399 + 1)) with 146097 in *.
        change (days_before_year 399) with 145731 in *. vm_compute (days_before_month 0). vm_compute (0 / 4). lia.
      * date_eq.
    + exists era, (yoe + 1), 0, 1. split_and!.
      * unfold valid_parts. pose proof (year_length_cases (yoe + 1) ltac:(lia)).
        change (days_before_month (0 + 1)) with 31. change (days_before_month 0) with 0. lia.
      * unfold day_number. rewrite <-!days_before_year_small by lia. change (days_before_month 0) with 0. lia.
      * date_eq.
  - assert (days_before_month (mp + 1) <= 337) as Hle by (unfold days_before_month; dlia).
    exists era, yoe, (mp + 1), 1. split_and!.
    + unfold valid_parts. assert (days_before_month (mp + 1) + 1 <= days_before_month (mp + 1 + 1)) by (unfold days_before_month; dlia).
      lia.
    + unfold day_number. lia.
    + mp_cases mp; try lia; date_eq.
Qed.

Lemma civil_date_inj era yoe mp day era' yoe' mp' day' :
  valid_parts yoe mp day -> valid_parts yoe' mp' day' ->
  civil_date era yoe mp day = civil_date era' yoe' mp' day' ->
  era = era' /\ yoe = yoe' /\ mp = mp' /\ day = day'.
Proof.
  intros (Hy & Hm & _) (Hy' & Hm' & _) E. unfold civil_date in E. injection E as E1 E2 ->.
  assert (mp = mp') as ->.
  { destruct (month_of_range mp Hm) as [_ <-], (month_of_range mp' Hm') as [_ <-]. by rewrite E2. }
  lia.
Qed.

Lemma civil_inj a b : civil_from_days a = civil_from_days b -> a = b.
Proof.
  destruct (civil_from_days_parts a) as (? & ? & ? & ? & -> & Ha & ->),
    (civil_from_days_parts b) as (? & ? & ? & ? & -> & Hb & ->).
  intros E. destruct (civil_date_inj _ _ _ _ _ _ _ _ Ha Hb E) as (-> & -> & -> & ->). done.
Qed.

Lemma civil_succ days : civil_from_days (days + 1) = next_day (civil_from_days days).
Proof.
  destruct (civil_from_days_parts days) as (era & yoe & mp & day & -> & Hv & ->).
  destruct (next_day_parts era yoe mp day Hv) as (era' & yoe' & mp' & day' & Hv' & <- & <-).
  by apply civil_from_days_unique.
Qed.

(** A date goes to the day number it comes from. *)
Lemma days_from_civil_civil y m d :
  valid_date (y, m, d) -> - 2 ^ 50 <= y <= 2 ^ 50 ->
  exists days, days_from_civil y m d = Some days /\ civil_from_days days = (y, m, d).
Proof.
  intros [Hm Hd] Hy. pose proof (days_in_month_range y m).
  destruct (date_parts y m d Hm) as (E & Hyoe & Hmp).
  eexists. split; [apply days_from_civil_parts; lia|]. rewrite civil_from_days_unique; [done|].
  apply (valid_parts_date ((y - (if m <=? 2 then 1 else 0)) / 400)); [done..|]. by rewrite E.
Qed.

(** The days of a month follow its first. *)
Lemma civil_month d y m k :
  civil_from_days d = (y, m, 1) -> (Z.of_nat k < days_in_month y m) ->
  civil_from_days (d + Z.of_nat k) = (y, m, 1 + Z.of_nat k).
Proof.
  intros E. induction k as [|k IH]; intros Hk; [by rewrite !Z.add_0_r|].
  replace (d + Z.of_nat (S k)) with (d + Z.of_nat k + 1) by lia. rewrite civil_succ, IH by lia.
  unfold next_day. replace (_ <? _) with true by (symmetry; apply Z.ltb_lt; lia). f_equal. lia.
Qed.

Lemma civil_next_month d y m :
  civil_from_days d = (y, m, 1) ->
  civil_from_days (d + days_in_month y m) = ((next_month y m).1, (next_month y m).2, 1).
Proof.
  intros E. pose proof (days_in_month_range y m).
  pose proof (civil_month d y m (Z.to_nat (days_in_month y m - 1)) E ltac:(lia)) as E'.
  replace (d + days_in_month y m) with (d + Z.of_nat (Z.to_nat (days_in_month y m - 1)) + 1) by lia.
  rewrite civil_succ, E'. unfold next_day.
  replace (_ <? _) with false by (symmetry; apply Z.ltb_ge; lia). by destruct (next_month y m).
Qed.

(** Years stay small on the days of a [u64] of milliseconds. *)
Lemma civil_year_bound days y m d :
  0 <= days <= 2 ^ 40 -> civil_from_days days = (y, m, d) -> 0 <= y <= 2 ^ 41.
Proof.
  intros Hd. destruct (civil_from_days_parts days) as (era & yoe & mp & day & E & (Hy & Hm & H1 & Hb) & ->).
  intros Ec. unfold civil_date in Ec. injection Ec as <- _ _. unfold day_number in E.
  assert (0 <= days_before_month mp) by (unfold days_before_month; dlia).
  assert (days_before_month mp + day <= 366) by (pose proof (year_length_cases yoe); lia).
  assert (0 <= yoe / 4 < 100 /\ 0 <= yoe / 100 < 4) by dlia. destruct (_ <=? 2); lia.
Qed.

(** * Properties *)

(** The closed-form conversion from Unix days is the Gregorian calendar: day 0
    is 1 January 1970, and each day's date is the successor of the day before it, with the
    months' lengths and the leap years of the reference. *)
Theorem civil_is_calendar :
  civil_from_days 0 = (1970, 1, 1) /\
  forall days, valid_date (civil_from_days days) /\ civil_from_days (days + 1) = next_day (civil_from_days days).
Proof. split; [done|]. intros days. split; [apply civil_valid|apply civil_succ]. Qed.

(** The two conversions are inverse on every valid date of some 2^50 years
    around the epoch, where no checked step of [days_from_civil] overflows. *)
Theorem civil_roundtrip (y m d days : Z) :
  valid_date (y, m, d) -> - 2 ^ 50 <= y <= 2 ^ 50 ->
  days_from_civil y m d = Some days <-> civil_from_days days = (y, m, d).
Proof.
  intros Hv Hy. destruct (days_from_civil_civil y m d Hv Hy) as (n & -> & E). rewrite <-E. split.
  - by intros [= ->].
  - intros Ec. by rewrite (civil_inj _ _ Ec).
Qed.

Lemma civil_roundtrip_witness :
  (valid_date (2024, 2, 29) /\ - 2 ^ 50 <= 2024 <= 2 ^ 50) /\
  (days_from_civil 2024 2 29 = Some 19782 <-> civil_from_days 19782 = (2024, 2, 29)).
Proof.
  assert (valid_date (2024, 2, 29)) as H by (vm_compute; repeat split; congruence).
  split; [split; [exact H|lia]|]. apply (civil_roundtrip 2024 2 29 19782 H). lia.
Defined.
