(* ===== verification/Compliance.v ===== *)
(** The compliance record formats: [pigeonpost-compliance-format/src/lib.rs].  Key
    identifiers, the daily trace and calendar-month attribution epochs, the retention
    runway, attribution claims and the two attribution preimages. *)
From S2P Require Import Prelude Civil.

Definition COMPLIANCE_KEY_ID_VERSION : byte := x01.
Definition COMPLIANCE_KEY_ID_LEN : nat := 47.
Definition TRACE_EPOCH_DURATION_MS : Z := 86400000.
Definition ATTRIBUTION_BLOCK_VERSION : byte := x03.
Definition ATTRIBUTION_CLAIM_LEN : nat := 104.
Definition ATTRIBUTION_SIGNATURE_DOMAIN : bytes := lit "pigeonpost/attribution-claim/v3".
Definition ATTRIBUTION_AAD_DOMAIN : bytes := lit "pigeonpost/attribution-aad/v3".

Inductive FormatError :=
| InvalidLength (expected actual : nat)
| UnknownKeyIdVersion (value : byte)
| UnknownAttributionVersion (value : byte)
| UnknownPurpose (value : byte)
| UnknownJurisdiction (value : byte)
| NotTracePurpose
| InvalidTraceEpoch
| InvalidTraceRetentionPolicy
| NotAttributionPurpose
| InvalidAttributionEpoch.

#[global] Instance FormatError_eq_dec : EqDecision FormatError.
Proof. solve_decision. Defined.

(** * Purposes and jurisdictions *)

Inductive CompliancePurpose := Attribution | NetworkTrace | IdentityTrace.
Inductive Jurisdiction := Us | Eu | Tr | TestJurisdiction.

#[global] Instance CompliancePurpose_eq_dec : EqDecision CompliancePurpose.
Proof. solve_decision. Defined.
#[global] Instance Jurisdiction_eq_dec : EqDecision Jurisdiction.
Proof. solve_decision. Defined.

Definition purpose_try_from (value : byte) : result FormatError CompliancePurpose :=
  match value with
  | x01 => Ok Attribution
  | x02 => Ok NetworkTrace
  | x03 => Ok IdentityTrace
  | _ => Err (UnknownPurpose value)
  end.
Definition purpose_u8 (purpose : CompliancePurpose) : byte :=
  match purpose with Attribution => x01 | NetworkTrace => x02 | IdentityTrace => x03 end.

Definition jurisdiction_try_from (value : byte) : result FormatError Jurisdiction :=
  match value with
  | x01 => Ok Us
  | x02 => Ok Eu
  | x03 => Ok Tr
  | xff => Ok TestJurisdiction
  | _ => Err (UnknownJurisdiction value)
  end.
Definition jurisdiction_u8 (jurisdiction : Jurisdiction) : byte :=
  match jurisdiction with Us => x01 | Eu => x02 | Tr => x03 | TestJurisdiction => xff end.

Lemma purpose_codec b p : purpose_try_from b = Ok p <-> b = purpose_u8 p.
Proof. split; [destruct b; simpl; congruence || (intros [= <-]; done)|]. intros ->. by destruct p. Qed.

Lemma jurisdiction_codec b j : jurisdiction_try_from b = Ok j <-> b = jurisdiction_u8 j.
Proof. split; [destruct b; simpl; congruence || (intros [= <-]; done)|]. intros ->. by destruct j. Qed.

Lemma purpose_u8_inj p q : purpose_u8 p = purpose_u8 q -> p = q.
Proof. by destruct p, q. Qed.
Lemma jurisdiction_u8_inj p q : jurisdiction_u8 p = jurisdiction_u8 q -> p = q.
Proof. by destruct p, q. Qed.

(** * Trace retention *)

Inductive TraceCapturePolicy :=
| Standing
| Preservation (starts_at_ms expires_at_ms : Z).

Definition captures (policy : TraceCapturePolicy) (timestamp_ms : Z) : bool :=
  match policy with
  | Standing => true
  | Preservation starts_at_ms expires_at_ms => (starts_at_ms <=? timestamp_ms) && (timestamp_ms <? expires_at_ms)
  end.

Record TraceRetentionPolicy := {
  trp_jurisdiction : Jurisdiction;
  trp_capture : TraceCapturePolicy;
  trp_retention_days : option Z;
}.

Definition required_capacity_epochs (policy : TraceRetentionPolicy) : result FormatError Z :=
  match trp_jurisdiction policy, trp_capture policy, trp_retention_days policy with
  | Eu, Preservation starts_at_ms expires_at_ms, None =>
      if (0 <? starts_at_ms) && (starts_at_ms <? expires_at_ms) then
        let first_epoch := starts_at_ms / TRACE_EPOCH_DURATION_MS in
        before ← ok_or (checked_sub expires_at_ms 1) InvalidTraceRetentionPolicy;
        let last_epoch := before / TRACE_EPOCH_DURATION_MS in
        ok_or (epochs ← checked_sub last_epoch first_epoch; checked_add 64 epochs 1)
          InvalidTraceRetentionPolicy
      else Err InvalidTraceRetentionPolicy
  | Us, Standing, Some days => if days =? 30 then Ok 31 else Err InvalidTraceRetentionPolicy
  | Tr, Standing, Some days =>
      if (365 <=? days) && (days <=? 730) then ok_or (checked_add 64 days 1) InvalidTraceRetentionPolicy
      else Err InvalidTraceRetentionPolicy
  | TestJurisdiction, Standing, None => Ok 1
  | _, _, _ => Err InvalidTraceRetentionPolicy
  end.

(** * Key identifiers *)

Record ComplianceKeyId := {
  version : byte;
  purpose : CompliancePurpose;
  jurisdiction : Jurisdiction;
  authority : arr 32;
  epoch_start_ms : Z;
  generation : Z;
}.

#[global] Instance ComplianceKeyId_eq_dec : EqDecision ComplianceKeyId.
Proof. solve_decision. Defined.

Definition key_id_new (purpose : CompliancePurpose) (jurisdiction : Jurisdiction) (authority : arr 32)
  (epoch_start_ms generation : Z) : ComplianceKeyId :=
  {| version := COMPLIANCE_KEY_ID_VERSION; purpose := purpose; jurisdiction := jurisdiction;
     authority := authority; epoch_start_ms := epoch_start_ms; generation := generation |}.

Definition key_id_validate (id : ComplianceKeyId) : result FormatError unit :=
  guard (negb (version id ≟ COMPLIANCE_KEY_ID_VERSION)) (UnknownKeyIdVersion (version id)).

Definition key_id_encode (id : ComplianceKeyId) : result FormatError bytes :=
  _ ← key_id_validate id;
  Ok ([version id; purpose_u8 (purpose id); jurisdiction_u8 (jurisdiction id)]
      ++ vec_to_list (authority id) ++ be_bytes 8 (epoch_start_ms id) ++ be_bytes 4 (generation id)).

(** [bytes[i]], [i] in range. *)
Definition byte_at (i : nat) (bs : bytes) : byte := nth i bs x00.
(** [bytes[from..to]] *)
Definition slice (from to : nat) (bs : bytes) : bytes := take (to - from) (drop from bs).

Definition key_id_decode (bs : bytes) : result FormatError ComplianceKeyId :=
  _ ← guard (negb (length bs =? COMPLIANCE_KEY_ID_LEN)%nat) (InvalidLength COMPLIANCE_KEY_ID_LEN (length bs));
  _ ← guard (negb (byte_at 0 bs ≟ COMPLIANCE_KEY_ID_VERSION)) (UnknownKeyIdVersion (byte_at 0 bs));
  let authority := take_arr 32 (slice 3 35 bs) in
  let epoch_start_ms := from_be_bytes (slice 35 43 bs) in
  let generation := from_be_bytes (slice 43 47 bs) in
  purpose ← purpose_try_from (byte_at 1 bs);
  jurisdiction ← jurisdiction_try_from (byte_at 2 bs);
  Ok {| version := byte_at 0 bs; purpose := purpose; jurisdiction := jurisdiction;
        authority := authority; epoch_start_ms := epoch_start_ms; generation := generation |}.

(** The machine widths of the fields. *)
Definition key_id_wf (id : ComplianceKeyId) : Prop :=
  in_uint 64 (epoch_start_ms id) /\ in_uint 32 (generation id).

(** * Epochs *)

Definition trace_epoch_end_ms (id : ComplianceKeyId) : result FormatError Z :=
  _ ← guard (negb ((purpose id ≟ NetworkTrace) || (purpose id ≟ IdentityTrace))) NotTracePurpose;
  _ ← key_id_validate id;
  _ ← guard (negb (epoch_start_ms id mod TRACE_EPOCH_DURATION_MS =? 0)) InvalidTraceEpoch;
  ok_or (checked_add 64 (epoch_start_ms id) TRACE_EPOCH_DURATION_MS) InvalidTraceEpoch.

Definition validate_trace_epoch (id : ComplianceKeyId) (not_before_ms not_after_ms : Z) : result FormatError unit :=
  expected_end ← trace_epoch_end_ms id;
  guard (negb (not_before_ms =? epoch_start_ms id) || negb (not_after_ms =? expected_end)) InvalidTraceEpoch.

Definition trace_epoch_contains (id : ComplianceKeyId) (timestamp_ms : Z) : result FormatError bool :=
  e ← trace_epoch_end_ms id;
  Ok ((epoch_start_ms id <=? timestamp_ms) && (timestamp_ms <? e)).

Definition checked_mul (w a b : Z) : option Z := if a * b <? 2 ^ w then Some (a * b) else None.

Definition attribution_epoch_end_ms (id : ComplianceKeyId) : result FormatError Z :=
  _ ← guard (negb (purpose id ≟ Attribution)) NotAttributionPurpose;
  _ ← key_id_validate id;
  _ ← guard (negb (epoch_start_ms id mod TRACE_EPOCH_DURATION_MS =? 0)) InvalidAttributionEpoch;
  days ← ok_or (i64_checked (epoch_start_ms id / TRACE_EPOCH_DURATION_MS)) InvalidAttributionEpoch;
  let '(year, month, day) := civil_from_days days in
  _ ← guard (negb (day =? 1)) InvalidAttributionEpoch;
  next ← (if month =? 12 then
            next_year ← ok_or (i64_checked (year + 1)) InvalidAttributionEpoch; Ok (next_year, 1)
          else Ok (year, month + 1));
  next_days ← ok_or (days_from_civil next.1 next.2 1) InvalidAttributionEpoch;
  ok_or (value ← (if 0 <=? next_days then Some next_days else None);
         e ← checked_mul 64 value TRACE_EPOCH_DURATION_MS;
         if epoch_start_ms id <? e then Some e else None) InvalidAttributionEpoch.

Definition validate_attribution_epoch (id : ComplianceKeyId) (not_before_ms not_after_ms : Z)
  : result FormatError unit :=
  expected_end ← attribution_epoch_end_ms id;
  guard (negb (not_before_ms =? epoch_start_ms id) || negb (not_after_ms =? expected_end)) InvalidAttributionEpoch.

Definition attribution_epoch_contains (id : ComplianceKeyId) (timestamp_ms : Z) : result FormatError bool :=
  e ← attribution_epoch_end_ms id;
  Ok ((epoch_start_ms id <=? timestamp_ms) && (timestamp_ms <? e)).

Definition compliance_epoch_end_ms (id : ComplianceKeyId) : result FormatError Z :=
  match purpose id with
  | Attribution => attribution_epoch_end_ms id
  | NetworkTrace | IdentityTrace => trace_epoch_end_ms id
  end.

Definition validate_compliance_epoch (id : ComplianceKeyId) (not_before_ms not_after_ms : Z)
  : result FormatError unit :=
  match purpose id with
  | Attribution => validate_attribution_epoch id not_before_ms not_after_ms
  | NetworkTrace | IdentityTrace => validate_trace_epoch id not_before_ms not_after_ms
  end.

Definition compliance_epoch_contains (id : ComplianceKeyId) (timestamp_ms : Z) : result FormatError bool :=
  match purpose id with
  | Attribution => attribution_epoch_contains id timestamp_ms
  | NetworkTrace | IdentityTrace => trace_epoch_contains id timestamp_ms
  end.

(** * Attribution claims and preimages *)

Record AttributionClaim := { sender_pubkey : arr 32; sent_at_ms : Z; claim_signature : arr 64 }.

Definition claim_encode (c : AttributionClaim) : bytes :=
  vec_to_list (sender_pubkey c) ++ be_bytes 8 (sent_at_ms c) ++ vec_to_list (claim_signature c).

Definition claim_decode (bs : bytes) : result FormatError AttributionClaim :=
  _ ← guard (negb (length bs =? ATTRIBUTION_CLAIM_LEN)%nat) (InvalidLength ATTRIBUTION_CLAIM_LEN (length bs));
  Ok {| sender_pubkey := take_arr 32 (slice 0 32 bs); sent_at_ms := from_be_bytes (slice 32 40 bs);
        claim_signature := take_arr 64 (slice 40 104 bs) |}.

Definition validate_block_version (v : byte) : result FormatError unit :=
  guard (negb (v ≟ ATTRIBUTION_BLOCK_VERSION)) (UnknownAttributionVersion v).

Definition attribution_signing_preimage (block_version : byte) (key_id : ComplianceKeyId)
  (compliance_key_digest e_pk event_id recipient : arr 32) (sent_at_ms : Z) : result FormatError bytes :=
  _ ← validate_block_version block_version;
  key_id ← key_id_encode key_id;
  Ok (ATTRIBUTION_SIGNATURE_DOMAIN ++ [block_version] ++ key_id ++ vec_to_list compliance_key_digest
      ++ vec_to_list e_pk ++ vec_to_list event_id ++ vec_to_list recipient ++ be_bytes 8 sent_at_ms).

Definition attribution_aad (block_version : byte) (key_id : ComplianceKeyId)
  (compliance_key_digest e_pk event_id recipient : arr 32) : result FormatError bytes :=
  _ ← validate_block_version block_version;
  key_id ← key_id_encode key_id;
  Ok (ATTRIBUTION_AAD_DOMAIN ++ [block_version] ++ key_id ++ vec_to_list compliance_key_digest
      ++ vec_to_list e_pk ++ vec_to_list event_id ++ vec_to_list recipient).

Definition attribution_hkdf_salt (e_pk compliance_key_digest : arr 32) : bytes :=
  vec_to_list e_pk ++ vec_to_list compliance_key_digest.

(** * Lemmas *)

Lemma length_key_id_encode id bs : key_id_encode id = Ok bs -> length bs = COMPLIANCE_KEY_ID_LEN.
Proof. unfold key_id_encode. intros H. inv_ok. subst bs. rewrite !length_app, !length_be_bytes, length_vec_to_list. done. Qed.

Lemma slice_app (a b r : bytes) n m :
  length a = n -> length b = (m - n)%nat -> slice n m (a ++ b ++ r) = b.
Proof.
  intros Ha Hb. unfold slice. rewrite <-Ha, drop_app_length, Ha, <-Hb. apply take_app_length.
Qed.

Lemma slice_end (a b : bytes) n m :
  length a = n -> length b = (m - n)%nat -> slice n m (a ++ b) = b.
Proof. intros Ha Hb. rewrite <-(app_nil_r b) at 1. by apply slice_app. Qed.

(** A byte string cut at given places. *)
Lemma length_slice n m bs : (n <= m <= length bs)%nat -> length (slice n m bs) = (m - n)%nat.
Proof. intros H. unfold slice. rewrite length_take, length_drop. lia. Qed.

Lemma drop_slice n m bs : (n <= m)%nat -> drop n bs = slice n m bs ++ drop m bs.
Proof.
  intros H. unfold slice. rewrite <-(take_drop (m - n) (drop n bs)) at 1. f_equal.
  rewrite drop_drop. f_equal. lia.
Qed.

Lemma vec_slice (n m k : nat) bs :
  (n + k = m)%nat -> (m <= length bs)%nat -> vec_to_list (take_arr k (slice n m bs)) = slice n m bs.
Proof.
  intros Hk Hm. rewrite vec_to_list_take_arr by (rewrite length_slice; lia).
  apply take_ge. rewrite length_slice; lia.
Qed.

Lemma bytes_head3 (bs : bytes) :
  (3 <= length bs)%nat -> bs = [byte_at 0 bs; byte_at 1 bs; byte_at 2 bs] ++ drop 3 bs.
Proof. destruct bs as [|a [|b [|c bs]]]; simpl; try lia. done. Qed.

Lemma key_id_encode_inj id id' bs :
  key_id_wf id -> key_id_wf id' -> key_id_encode id = Ok bs -> key_id_encode id' = Ok bs -> id = id'.
Proof.
  intros [He Hg] [He' Hg'] H H'. unfold key_id_encode in *. inv_ok. subst bs. rename H' into P.
  payload_inj P. apply purpose_u8_inj in E0. apply jurisdiction_u8_inj in E1.
  destruct id, id'; simpl in *; congruence.
Qed.

(** ** Lexicographic order *)

(** The order of byte slices. *)
Fixpoint bytes_cmp (a b : bytes) : comparison :=
  match a, b with
  | [], [] => Eq
  | [], _ :: _ => Lt
  | _ :: _, [] => Gt
  | x :: a, y :: b => match u8 x ?= u8 y with Eq => bytes_cmp a b | c => c end
  end.

Definition then_cmp (c d : comparison) : comparison := match c with Eq => d | c => c end.

Lemma bytes_cmp_app a r r' : bytes_cmp (a ++ r) (a ++ r') = bytes_cmp r r'.
Proof. induction a as [|x a IH]; [done|]. simpl. by rewrite Z.compare_refl. Qed.

Lemma bytes_cmp_be n a b r r' :
  in_uint (8 * Z.of_nat n) a -> in_uint (8 * Z.of_nat n) b ->
  bytes_cmp (be_bytes n a ++ r) (be_bytes n b ++ r') = then_cmp (a ?= b) (bytes_cmp r r').
Proof.
  revert a b r r'; induction n as [|n IH]; intros a b r r' Ha Hb; unfold in_uint in *.
  { change (2 ^ (8 * Z.of_nat 0)) with 1 in *. by assert (a = 0) as -> by lia; assert (b = 0) as -> by lia. }
  replace (8 * Z.of_nat (S n)) with (8 * Z.of_nat n + 8) in * by lia. rewrite Z.pow_add_r in * by lia.
  change (2 ^ 8) with 256 in *. unfold be_bytes in *. cbn [le_bytes rev]. rewrite <-!(assoc_L (++)), IH by (unfold in_uint; dlia).
  cbn [app bytes_cmp]. rewrite !u8_to_u8.
  destruct (Z.compare_spec (a / 256) (b / 256)) as [E|E|E]; cbn [then_cmp];
    [destruct (Z.compare_spec (a mod 256) (b mod 256))|..]; destruct (Z.compare_spec a b); try done; exfalso; dlia.
Qed.

(** ** Epochs *)

Lemma key_id_validate_Ok id u : key_id_validate id = Ok u <-> version id = COMPLIANCE_KEY_ID_VERSION.
Proof.
  unfold key_id_validate, guard. destruct u. split; [intros H; case_match; [done|]; by b2p|].
  intros ->. by rewrite bool_decide_true.
Qed.

Lemma trace_epoch_end_Ok id e :
  trace_epoch_end_ms id = Ok e <->
  purpose id <> Attribution /\ version id = COMPLIANCE_KEY_ID_VERSION /\
  epoch_start_ms id mod TRACE_EPOCH_DURATION_MS = 0 /\
  e = epoch_start_ms id + TRACE_EPOCH_DURATION_MS /\ e < 2 ^ 64.
Proof.
  unfold trace_epoch_end_ms, checked_add. split.
  - intros H. inv_ok. apply key_id_validate_Ok in Ha0. b2p. case_match; simplify_eq. b2p.
    split_and!; try done. destruct (purpose id); [|done..]. simpl in *. done.
  - intros (Hp & Hv & Hm & -> & Hlt). rewrite (proj2 (key_id_validate_Ok id tt) Hv), Hm.
    rewrite (proj2 (Z.ltb_lt _ _) Hlt). by destruct (purpose id).
Qed.

(** The UTC day a timestamp is in, and its month. *)
Definition day_of (timestamp_ms : Z) : Z := timestamp_ms / TRACE_EPOCH_DURATION_MS.
Definition month_of_ms (timestamp_ms : Z) : Z * Z :=
  let '(y, m, _) := civil_from_days (day_of timestamp_ms) in (y, m).

(** The start of the month after a first of a month, as the code computes it. *)
Lemma next_month_start days y m :
  0 <= days <= 2 ^ 40 -> civil_from_days days = (y, m, 1) ->
  (next ← (if m =? 12 then
             next_year ← ok_or (i64_checked (y + 1)) InvalidAttributionEpoch; Ok (next_year, 1)
           else Ok (y, m + 1));
   ok_or (days_from_civil next.1 next.2 1) InvalidAttributionEpoch)
  = Ok (days + days_in_month y m).
Proof.
  intros Hd E. pose proof (civil_year_bound _ _ _ _ Hd E).
  pose proof (civil_next_month _ _ _ E) as En. unfold next_month in En.
  destruct (m =? 12); [rewrite i64_checked_Some by lia|]; cbn [ok_or mbind result_bind fst snd] in *;
    (pose proof (civil_valid (days + days_in_month y m)) as Hv; rewrite En in Hv;
     destruct (days_from_civil_civil _ _ _ Hv ltac:(lia)) as (n & -> & En');
     rewrite <-En' in En; apply civil_inj in En; by rewrite En).
Qed.

(** An attribution epoch starts at a first of a month, at midnight, and ends where the
    next month starts. *)
Lemma attribution_epoch_end_Ok id e :
  in_uint 64 (epoch_start_ms id) ->
  attribution_epoch_end_ms id = Ok e <->
  purpose id = Attribution /\ version id = COMPLIANCE_KEY_ID_VERSION /\
  epoch_start_ms id mod TRACE_EPOCH_DURATION_MS = 0 /\
  exists y m, civil_from_days (day_of (epoch_start_ms id)) = (y, m, 1) /\
    e = epoch_start_ms id + days_in_month y m * TRACE_EPOCH_DURATION_MS /\ e < 2 ^ 64.
Proof.
  intros [Hs0 Hs]. unfold attribution_epoch_end_ms, day_of, TRACE_EPOCH_DURATION_MS.
  set (s := epoch_start_ms id) in *. assert (0 <= s / 86400000 <= 2 ^ 40) as Hd by dlia.
  destruct (decide (purpose id = Attribution)) as [->|Hp]; [|rewrite bool_decide_false by done; naive_solver].
  destruct (decide (version id = COMPLIANCE_KEY_ID_VERSION)) as [Hv|Hv].
  2:{ unfold key_id_validate. rewrite (bool_decide_false (version id = _)) by done. naive_solver. }
  rewrite bool_decide_true, (proj2 (key_id_validate_Ok id tt) Hv) by done.
  destruct (s mod 86400000 =? 0) eqn:Em; b2p; [|naive_solver].
  rewrite i64_checked_Some by lia. cbn [guard negb ok_or mbind result_bind].
  destruct (civil_from_days (s / 86400000)) as [[y m] d] eqn:E.
  destruct (d =? 1) eqn:Ed; b2p; [subst d|naive_solver].
  cbn [guard negb mbind result_bind]. rewrite <-bind_bind, (next_month_start _ _ _ Hd E). cbn [mbind result_bind].
  pose proof (days_in_month_range y m). rewrite (proj2 (Z.leb_le _ _)) by lia. cbn [mbind option_bind].
  unfold checked_mul. replace ((s / 86400000 + days_in_month y m) * 86400000)
    with (s + days_in_month y m * 86400000) by dlia.
  destruct (_ <? 2 ^ 64) eqn:Elt; b2p; cbn [mbind option_bind ok_or].
  - rewrite (proj2 (Z.ltb_lt _ _)) by lia. cbn [ok_or]. split; [intros [= <-]|]; naive_solver.
  - naive_solver lia.
Qed.

(** A timestamp is in the epoch exactly when it is in the month. *)
Lemma in_month_iff start y m t :
  start mod TRACE_EPOCH_DURATION_MS = 0 -> civil_from_days (day_of start) = (y, m, 1) ->
  start <= t < start + days_in_month y m * TRACE_EPOCH_DURATION_MS <-> month_of_ms t = month_of_ms start.
Proof.
  unfold month_of_ms, day_of, TRACE_EPOCH_DURATION_MS. intros Hm E. rewrite E. split.
  - intros Ht. pose proof (civil_month _ _ _ (Z.to_nat (t / 86400000 - start / 86400000)) E) as E'.
    rewrite Z2Nat.id in E' by dlia.
    replace (start / 86400000 + (t / 86400000 - start / 86400000)) with (t / 86400000) in E' by lia.
    rewrite E' by dlia. done.
  - destruct (civil_from_days (t / 86400000)) as [[y' m'] d] eqn:Et. intros [= -> ->].
    pose proof (civil_valid (t / 86400000)) as Hv. rewrite Et in Hv. destruct Hv as [_ Hd].
    pose proof (civil_month _ _ _ (Z.to_nat (d - 1)) E ltac:(lia)) as E'. rewrite Z2Nat.id in E' by lia.
    replace (1 + (d - 1)) with d in E' by lia. rewrite <-Et in E'. apply civil_inj in E'. dlia.
Qed.

(** * Properties *)

(** The canonical encoding of a compliance key identifier: a byte string decodes to
    an identifier exactly when it is that identifier's encoding, so decoding inverts encoding and no
    two byte strings decode to one identifier. *)
Theorem key_id_codec (bs : bytes) (id : ComplianceKeyId) :
  key_id_decode bs = Ok id <-> key_id_wf id /\ key_id_encode id = Ok bs.
Proof.
  split.
  - unfold key_id_decode. intros H.
    apply bind_Ok in H as (? & Hl & H). apply bind_Ok in H as (? & Hv & H).
    apply bind_Ok in H as (p & Hp & H). apply bind_Ok in H as (j & Hj & H). inv_ok. b2p. subst id.
    apply purpose_codec in Hp. apply jurisdiction_codec in Hj. unfold COMPLIANCE_KEY_ID_LEN in Hl. split.
    + split; [pose proof (from_be_bytes_range (slice 35 43 bs)) as R|pose proof (from_be_bytes_range (slice 43 47 bs)) as R];
        rewrite length_slice in R by lia; exact R.
    + unfold key_id_encode, key_id_validate. cbn [version purpose jurisdiction authority epoch_start_ms generation].
      rewrite Hv, bool_decide_true by done. cbn [guard negb mbind result_bind]. f_equal. rewrite <-Hv, <-Hp, <-Hj.
      rewrite vec_slice by lia. rewrite !be_bytes_from by (rewrite length_slice; lia).
      etrans; [|symmetry; apply (bytes_head3 bs); lia]. f_equal.
      rewrite (drop_slice 3 35), (drop_slice 35 43), (drop_slice 43 47) by lia.
      by rewrite (drop_ge bs 47), app_nil_r by lia.
  - intros [[He Hg] H]. pose proof (length_key_id_encode id bs H) as Hl. unfold key_id_encode in H.
    inv_ok. unfold key_id_validate in Ha. inv_ok. b2p. unfold key_id_decode. rewrite Hl. subst bs.
    replace (byte_at 0 _) with (version id) by done. rewrite Ha.
    replace (byte_at 1 _) with (purpose_u8 (purpose id)) by done.
    replace (byte_at 2 _) with (jurisdiction_u8 (jurisdiction id)) by done.
    rewrite (proj2 (purpose_codec _ _) eq_refl), (proj2 (jurisdiction_codec _ _) eq_refl).
    rewrite bool_decide_true by done. cbn [Nat.eqb COMPLIANCE_KEY_ID_LEN guard negb mbind result_bind]. f_equal.
    set (h := [_; _; _]). rewrite (slice_app h), take_arr_all by (done || by rewrite length_vec_to_list).
    rewrite (assoc_L (++) h), (slice_app (h ++ _)) by (rewrite ?length_app, ?length_vec_to_list, ?length_be_bytes; done).
    rewrite (assoc_L (++) (h ++ _)), slice_end
      by (rewrite ?length_app, ?length_app, ?length_vec_to_list, ?length_be_bytes; done).
    rewrite !from_be_bytes_id by done. rewrite <-Ha. by destruct id.
Qed.

(** Within one purpose, jurisdiction and authority, the lexicographic order of the
    encodings is the order of the epochs, and of the generations within an epoch. *)
Theorem key_id_order (p : CompliancePurpose) (j : Jurisdiction) (a : arr 32) (e g e' g' : Z) (bs bs' : bytes) :
  key_id_wf (key_id_new p j a e g) -> key_id_wf (key_id_new p j a e' g') ->
  key_id_encode (key_id_new p j a e g) = Ok bs -> key_id_encode (key_id_new p j a e' g') = Ok bs' ->
  bytes_cmp bs bs' = then_cmp (e ?= e') (g ?= g').
Proof.
  intros [He Hg] [He' Hg'] H H'. unfold key_id_encode in *. inv_ok. subst bs bs'.
  cbn [version purpose jurisdiction authority epoch_start_ms generation key_id_new] in *.
  rewrite !bytes_cmp_app, bytes_cmp_be by done.
  rewrite <-(app_nil_r (be_bytes 4 g)), <-(app_nil_r (be_bytes 4 g')), bytes_cmp_be by done.
  by destruct (g ?= g').
Qed.

Lemma key_id_order_witness :
  let id e g := key_id_new Attribution Eu (zeroes 32) e g in
  (key_id_wf (id 255 7) /\ key_id_wf (id 256 0)) /\
  exists bs bs', key_id_encode (id 255 7) = Ok bs /\ key_id_encode (id 256 0) = Ok bs' /\ bytes_cmp bs bs' = Lt.
Proof.
  assert (key_id_wf (key_id_new Attribution Eu (zeroes 32) 255 7)) as H by (unfold key_id_wf, in_uint; simpl; lia).
  assert (key_id_wf (key_id_new Attribution Eu (zeroes 32) 256 0)) as H' by (unfold key_id_wf, in_uint; simpl; lia).
  split; [done|]. eexists _, _. split; [reflexivity|]. split; [reflexivity|].
  exact (key_id_order Attribution Eu (zeroes 32) 255 7 256 0 _ _ H H' eq_refl eq_refl).
Defined.

Definition same_epoch (p : CompliancePurpose) (t start : Z) : Prop :=
  match p with
  | Attribution => month_of_ms t = month_of_ms start
  | NetworkTrace | IdentityTrace => day_of t = day_of start
  end.

Lemma compliance_epoch_contains_iff id t b :
  in_uint 64 (epoch_start_ms id) ->
  compliance_epoch_contains id t = Ok b -> b = true <-> same_epoch (purpose id) t (epoch_start_ms id).
Proof.
  intros Hs. unfold compliance_epoch_contains, same_epoch. destruct (purpose id) eqn:Ep; cbn [same_epoch].
  - unfold attribution_epoch_contains. intros H. inv_ok.
    apply attribution_epoch_end_Ok in Ha as (_ & _ & Hm & y & m & E & -> & _); [|done].
    rewrite <-(in_month_iff _ y m t Hm E), <-H, andb_true_iff, Z.leb_le, Z.ltb_lt. lia.
  - unfold trace_epoch_contains. intros H. inv_ok. apply trace_epoch_end_Ok in Ha as (_ & _ & Hm & -> & _).
    rewrite <-H, andb_true_iff, Z.leb_le, Z.ltb_lt. unfold day_of, TRACE_EPOCH_DURATION_MS in *. dlia.
  - unfold trace_epoch_contains. intros H. inv_ok. apply trace_epoch_end_Ok in Ha as (_ & _ & Hm & -> & _).
    rewrite <-H, andb_true_iff, Z.leb_le, Z.ltb_lt. unfold day_of, TRACE_EPOCH_DURATION_MS in *. dlia.
Qed.

(** Whenever an epoch is canonical, it contains exactly the instants of its
    calendar period: the UTC day of its start for a trace key, the Gregorian month
    of its start for an attribution key. *)
Theorem compliance_epoch_is_period (id : ComplianceKeyId) (t : Z) (b : bool) :
  key_id_wf id -> compliance_epoch_contains id t = Ok b ->
  b = true <-> same_epoch (purpose id) t (epoch_start_ms id).
Proof. intros [Hs _]. by apply compliance_epoch_contains_iff. Qed.

Lemma compliance_epoch_is_period_witness :
  let id := key_id_new Attribution Eu (zeroes 32) 1706745600000 0 in
  (key_id_wf id /\ compliance_epoch_contains id 1709251199999 = Ok true) /\
  (true = true <-> same_epoch Attribution 1709251199999 1706745600000).
Proof.
  assert (key_id_wf (key_id_new Attribution Eu (zeroes 32) 1706745600000 0)) as H
    by (unfold key_id_wf, in_uint; simpl; lia).
  split; [split; [exact H|vm_compute; reflexivity]|].
  apply (compliance_epoch_is_period (key_id_new Attribution Eu (zeroes 32) 1706745600000 0)); [exact H|].
  vm_compute. reflexivity.
Defined.

(** The first day of a day's month is not before 1970 if the day is not. *)
Lemma month_first days y m d :
  civil_from_days days = (y, m, d) -> civil_from_days (days - (d - 1)) = (y, m, 1).
Proof.
  intros E. pose proof (civil_valid days) as Hv. rewrite E in Hv. destruct Hv as [Hm Hd].
  revert days E Hd. generalize d. clear d.
  assert (forall k days, civil_from_days days = (y, m, 1 + Z.of_nat k) ->
    civil_from_days (days - Z.of_nat k) = (y, m, 1)) as H.
  { induction k as [|k IH]; intros days E; [by rewrite Z.sub_0_r|].
    replace (days - Z.of_nat (S k)) with (days - 1 - Z.of_nat k) by lia. apply IH.
    pose proof (civil_succ (days - 1)) as Es. replace (days - 1 + 1) with days in Es by lia.
    rewrite E in Es. unfold next_day in Es. destruct (civil_from_days (days - 1)) as [[y' m'] d'] eqn:E'.
    destruct (d' <? _); [|unfold next_month in Es; destruct (m' =? 12); simplify_eq; lia].
    injection Es as -> -> Ed. f_equal. lia. }
  intros d days E Hd. replace (d - 1) with (Z.of_nat (Z.to_nat (d - 1))) by lia. apply H. rewrite E. f_equal. lia.
Qed.

Lemma month_first_nonneg days y m d : 0 <= days -> civil_from_days days = (y, m, d) -> 0 <= days - (d - 1).
Proof.
  intros H0 E. pose proof (month_first _ _ _ _ E) as E1. pose proof (civil_valid days) as Hv. rewrite E in Hv.
  destruct Hv as [_ Hd]. destruct (Z.le_gt_cases 0 (days - (d - 1))) as [|Hlt]; [done|exfalso].
  pose proof (civil_month _ _ _ (Z.to_nat (- (days - (d - 1)))) E1 ltac:(lia)) as E2.
  rewrite Z2Nat.id in E2 by lia. replace (_ + - _) with 0 in E2 by lia.
  vm_compute (civil_from_days 0) in E2. injection E2 as _ _ E2. lia.
Qed.

(** The canonical start of the epoch of an instant. *)
Definition epoch_start (p : CompliancePurpose) (t : Z) : Z :=
  match p with
  | Attribution => let '(_, _, d) := civil_from_days (day_of t) in (day_of t - (d - 1)) * TRACE_EPOCH_DURATION_MS
  | NetworkTrace | IdentityTrace => day_of t * TRACE_EPOCH_DURATION_MS
  end.

Lemma attribution_epoch_exists j a g t :
  0 <= t -> t + 31 * TRACE_EPOCH_DURATION_MS < 2 ^ 64 ->
  in_uint 64 (epoch_start Attribution t) /\
  attribution_epoch_contains (key_id_new Attribution j a (epoch_start Attribution t) g) t = Ok true.
Proof.
  unfold epoch_start, day_of, TRACE_EPOCH_DURATION_MS. intros H0 Ht.
  destruct (civil_from_days (t / 86400000)) as [[y m] d] eqn:E.
  pose proof (month_first _ _ _ _ E) as E1. pose proof (month_first_nonneg (t / 86400000) _ _ _ ltac:(apply Z.div_pos; lia) E) as Hn.
  pose proof (civil_valid (t / 86400000)) as Hv. rewrite E in Hv. destruct Hv as [_ Hd].
  pose proof (days_in_month_range y m). set (first := t / 86400000 - (d - 1)) in *.
  assert (in_uint 64 (first * 86400000)) as Hs by (unfold in_uint; dlia). split; [done|].
  unfold attribution_epoch_contains.
  rewrite (proj2 (attribution_epoch_end_Ok (key_id_new _ _ _ _ _)
    (first * 86400000 + days_in_month y m * 86400000) Hs)).
  { cbn. f_equal. apply andb_true_iff. rewrite Z.leb_le, Z.ltb_lt. dlia. }
  cbn [epoch_start_ms key_id_new version purpose]. unfold day_of, TRACE_EPOCH_DURATION_MS.
  rewrite Z.mod_mul, Z.div_mul by done. split_and!; [done..|]. exists y, m. split_and!; [done..|]. subst first. dlia.
Qed.

Lemma trace_epoch_exists p j a g t :
  p <> Attribution -> 0 <= t -> t + 31 * TRACE_EPOCH_DURATION_MS < 2 ^ 64 ->
  in_uint 64 (epoch_start p t) /\ trace_epoch_contains (key_id_new p j a (epoch_start p t) g) t = Ok true.
Proof.
  intros Hp H0 Ht. replace (epoch_start p t) with (day_of t * TRACE_EPOCH_DURATION_MS) by (by destruct p).
  unfold day_of, TRACE_EPOCH_DURATION_MS in *. split; [unfold in_uint; dlia|]. unfold trace_epoch_contains.
  rewrite (proj2 (trace_epoch_end_Ok (key_id_new _ _ _ _ _) (t / 86400000 * 86400000 + 86400000))).
  { cbn. f_equal. apply andb_true_iff. rewrite Z.leb_le, Z.ltb_lt. dlia. }
  cbn [epoch_start_ms key_id_new version purpose]. unfold TRACE_EPOCH_DURATION_MS.
  rewrite Z.mod_mul by done. split_and!; [done..|dlia].
Qed.

Lemma epoch_start_unique id t :
  in_uint 64 (epoch_start_ms id) -> compliance_epoch_contains id t = Ok true ->
  epoch_start_ms id = epoch_start (purpose id) t.
Proof.
  intros Hs Hc. pose proof (proj1 (compliance_epoch_contains_iff id t true Hs Hc) eq_refl) as Hp.
  unfold compliance_epoch_contains in Hc. unfold same_epoch, month_of_ms in Hp. unfold epoch_start.
  destruct (purpose id).
  - unfold attribution_epoch_contains in Hc. inv_ok.
    apply attribution_epoch_end_Ok in Ha as (_ & _ & Hm & y & m & E & _); [|done].
    rewrite E in Hp. destruct (civil_from_days (day_of t)) as [[y' m'] d] eqn:Et. injection Hp as -> ->.
    apply month_first in Et. rewrite <-E in Et. apply civil_inj in Et. rewrite Et.
    unfold day_of, TRACE_EPOCH_DURATION_MS in *. dlia.
  - unfold trace_epoch_contains in Hc. inv_ok. apply trace_epoch_end_Ok in Ha as (_ & _ & Hm & _).
    rewrite Hp. unfold day_of, TRACE_EPOCH_DURATION_MS in *. dlia.
  - unfold trace_epoch_contains in Hc. inv_ok. apply trace_epoch_end_Ok in Ha as (_ & _ & Hm & _).
    rewrite Hp. unfold day_of, TRACE_EPOCH_DURATION_MS in *. dlia.
Qed.

(** The epochs of a purpose partition time: every instant (up to a month before
    the end of the [u64] range) is in the epoch of exactly one canonical start. *)
Theorem compliance_epochs_partition (p : CompliancePurpose) (j : Jurisdiction) (a : arr 32) (g t : Z) :
  0 <= t -> t + 31 * TRACE_EPOCH_DURATION_MS < 2 ^ 64 ->
  exists start, in_uint 64 start /\
    compliance_epoch_contains (key_id_new p j a start g) t = Ok true /\
    forall start', in_uint 64 start' ->
      compliance_epoch_contains (key_id_new p j a start' g) t = Ok true -> start' = start.
Proof.
  intros H0 Ht. exists (epoch_start p t).
  assert (in_uint 64 (epoch_start p t) /\
    compliance_epoch_contains (key_id_new p j a (epoch_start p t) g) t = Ok true) as [Hs Hc].
  { destruct p; unfold compliance_epoch_contains; cbn [purpose key_id_new];
      [by apply attribution_epoch_exists|by apply trace_epoch_exists..]. }
  split_and!; [done..|]. intros start' Hs' Hc'. by apply (epoch_start_unique (key_id_new p j a start' g)).
Qed.

Lemma compliance_epochs_partition_witness :
  (0 <= 1709251199999 /\ 1709251199999 + 31 * TRACE_EPOCH_DURATION_MS < 2 ^ 64) /\
  exists start, in_uint 64 start /\
    compliance_epoch_contains (key_id_new Attribution Tr (zeroes 32) start 1) 1709251199999 = Ok true /\
    forall start', in_uint 64 start' ->
      compliance_epoch_contains (key_id_new Attribution Tr (zeroes 32) start' 1) 1709251199999 = Ok true ->
      start' = start.
Proof.
  assert (1709251199999 + 31 * TRACE_EPOCH_DURATION_MS < 2 ^ 64) as H by (vm_compute; reflexivity).
  split; [split; [lia|exact H]|].
  exact (compliance_epochs_partition Attribution Tr (zeroes 32) 1 1709251199999 ltac:(lia) H).
Defined.

(** The sender's signature over an attribution preimage fixes every field: two
    signing preimages are equal only if the block version, key identifier, key digest, ephemeral
    key, event, recipient and time are; two AEAD contexts only if theirs are; and no signing
    preimage is an AEAD context. *)
Theorem attribution_preimages_bind
  (v v' : byte) (id id' : ComplianceKeyId) (dg dg' e e' ev ev' r r' : arr 32) (t t' : Z) (out : bytes) :
  key_id_wf id -> key_id_wf id' -> in_uint 64 t -> in_uint 64 t' ->
  (attribution_signing_preimage v id dg e ev r t = Ok out ->
   attribution_signing_preimage v' id' dg' e' ev' r' t' = Ok out ->
   (v, id, dg, e, ev, r, t) = (v', id', dg', e', ev', r', t')) /\
  (attribution_aad v id dg e ev r = Ok out -> attribution_aad v' id' dg' e' ev' r' = Ok out ->
   (v, id, dg, e, ev, r) = (v', id', dg', e', ev', r')) /\
  (attribution_signing_preimage v id dg e ev r t = Ok out -> attribution_aad v' id' dg' e' ev' r' <> Ok out).
Proof.
  intros Hid Hid' Ht Ht'. unfold attribution_signing_preimage, attribution_aad. split_and!.
  - intros H H'. apply bind_Ok in H as (? & _ & H), H' as (? & _ & H').
    apply bind_Ok in H as (k & Hk & H), H' as (k' & Hk' & H'). inv_ok. subst out.
    payload_inj H'. apply app_inj_len in H' as [-> P];
      [|by rewrite (length_key_id_encode _ _ Hk), (length_key_id_encode _ _ Hk')].
    payload_inj P. rewrite (key_id_encode_inj id id' k) by done. congruence.
  - intros H H'. apply bind_Ok in H as (? & _ & H), H' as (? & _ & H').
    apply bind_Ok in H as (k & Hk & H), H' as (k' & Hk' & H'). inv_ok. subst out.
    payload_inj H'. apply app_inj_len in H' as [-> P];
      [|by rewrite (length_key_id_encode _ _ Hk), (length_key_id_encode _ _ Hk')].
    payload_inj P. rewrite (key_id_encode_inj id id' k) by done. congruence.
  - intros H H'. apply bind_Ok in H as (? & _ & H), H' as (? & _ & H').
    apply bind_Ok in H as (k & _ & H), H' as (k' & _ & H'). inv_ok. subst out.
    apply (f_equal (take 25)) in H'. rewrite !take_app_le in H' by (vm_compute; lia). vm_compute in H'. done.
Qed.

Lemma attribution_preimages_bind_witness :
  let id := key_id_new Attribution Eu (zeroes 32) 0 0 in
  (key_id_wf id /\ in_uint 64 5 /\ in_uint 64 6) /\
  attribution_signing_preimage x03 id (zeroes 32) (zeroes 32) (zeroes 32) (zeroes 32) 5 <>
  attribution_signing_preimage x03 id (zeroes 32) (zeroes 32) (zeroes 32) (zeroes 32) 6.
Proof.
  assert (key_id_wf (key_id_new Attribution Eu (zeroes 32) 0 0)) as H by (unfold key_id_wf, in_uint; simpl; lia).
  assert (in_uint 64 5 /\ in_uint 64 6) as [H5 H6] by (unfold in_uint; lia).
  split; [done|]. intros E.
  destruct (attribution_signing_preimage x03 (key_id_new Attribution Eu (zeroes 32) 0 0) (zeroes 32) (zeroes 32)
    (zeroes 32) (zeroes 32) 5) as [out|] eqn:E5; [|vm_compute in E5; discriminate].
  pose proof (proj1 (attribution_preimages_bind _ _ _ _ _ _ _ _ _ _ _ _ _ _ out H H H5 H6) E5 (eq_sym E)) as E'.
  discriminate E'.
Defined.

(** The key runway a retention policy asks for is exactly what its capture needs: for a
    preservation order, every captured instant falls in one of that many consecutive UTC days
    from its start, the last of them included; for standing capture, the retained days and the current one. *)
Theorem required_capacity_exact (policy : TraceRetentionPolicy) (n : Z) :
  required_capacity_epochs policy = Ok n ->
  match trp_capture policy with
  | Preservation starts expires =>
      (forall t, captures (trp_capture policy) t = true -> 0 <= day_of t - day_of starts < n) /\
      (exists t, captures (trp_capture policy) t = true /\ day_of t - day_of starts = n - 1)
  | Standing => n = from_option Z.succ 1 (trp_retention_days policy)
  end.
Proof.
  destruct policy as [j c r]. unfold required_capacity_epochs, captures, day_of, TRACE_EPOCH_DURATION_MS.
  cbn [trp_jurisdiction trp_capture trp_retention_days]. intros H.
  destruct j, c as [|starts expires], r as [days|]; try discriminate H.
  - destruct (days =? 30) eqn:E; inv_ok. b2p. subst. done.
  - destruct (_ && _) eqn:E; inv_ok. b2p. unfold checked_sub, checked_add in *.
    destruct (1 <=? expires) eqn:E1; simplify_eq. b2p.
    destruct (_ <=? _) eqn:E2 in H; [|discriminate]. cbn [mbind option_bind] in H.
    destruct (_ <? _) eqn:E3 in H; simplify_eq. split.
    + intros t Ht. b2p. dlia.
    + exists (expires - 1). split; [apply andb_true_iff; rewrite Z.leb_le, Z.ltb_lt; lia|lia].
  - destruct (_ && _) eqn:E; inv_ok. unfold checked_add in H. destruct (_ <? _); simplify_eq. simpl. lia.
  - inv_ok. subst. done.
Qed.

Lemma required_capacity_exact_witness :
  let policy := {| trp_jurisdiction := Eu; trp_capture := Preservation 86399999 86400001;
                   trp_retention_days := None |} in
  required_capacity_epochs policy = Ok 2 /\
  exists t, captures (trp_capture policy) t = true /\ day_of t - day_of 86399999 = 1.
Proof.
  split; [reflexivity|].
  exact (proj2 (required_capacity_exact {| trp_jurisdiction := Eu; trp_capture := Preservation 86399999 86400001;
                   trp_retention_days := None |} 2 eq_refl)).
Defined.
