(* ===== verification/Handle.v ===== *)
(** Registry handles: [pigeonpost-registry/src/handle.rs], the registry's error type, and how the
    names it registers relate to the destinations of [Address]. *)
From S2P Require Import Prelude Text B32 Address Compliance.

(** [EntryError(String)]: a message, or the rendering of a format error. *)
Inductive EntryError := EntryMessage (message : str) | EntryFormat (error : FormatError).

(** [RegistryError], the variants the modelled code raises.  [InvalidEntry] is a [MalformedEntry] whose text is
    the rendering of an entry error. *)
Inductive RegistryError :=
| UnknownNamespace (namespace : str)
| MalformedHandle (why : string)
| MalformedCheckpoint (why : string)
| MalformedEntry (why : string)
| InvalidEntry (error : EntryError)
| InvalidConfiguration (why : string)
| RegistryUnavailable
| Overloaded
| NotFound
| CorruptStorage (why : string)
| WitnessUnavailable
| WitnessConflict
| RateLimited
| ProofRejected (why : string)
| HandleQuotaExceeded (limit : nat)
| AlreadyBound
| DirectoryReplay
| KeyPossessionNotProved
| SubjectMismatch (proved claimed : str)
| ProviderNotConfigured
| ClaimTraceUnavailable
| Core (error : Error)
| Storage
| Serialization.

Definition NAMESPACES : list str := [lit "github"; lit "google"].
Definition MAX_NAME : nat := 39.

Record Handle := MkHandle { namespace : str; name : str }.

#[global] Instance Handle_eq_dec : EqDecision Handle.
Proof. solve_decision. Defined.

(** The characters a name may hold; a character outside ASCII has only bytes outside it. *)
Definition name_byte (b : byte) : bool :=
  is_ascii_alphanumeric b || (b ≟ "-"%byte) || (b ≟ "_"%byte) || (b ≟ "."%byte) || (b ≟ "@"%byte).

Definition validate_name (name : str) : result RegistryError str :=
  _ ← guard ((name ≟ []) || (MAX_NAME <? length name)%nat) (MalformedHandle "name must be 1..=39 characters");
  _ ← guard (negb (forallb name_byte name))
        (MalformedHandle "name may contain only letters, digits, '-', '_', '.', and '@'");
  _ ← guard ((1 <? count_byte "@"%byte name)%nat || starts_with (lit "@") name || ends_with (lit "@") name)
        (MalformedHandle "'@' belongs inside a name, once");
  _ ← guard (starts_with (lit "-") name || ends_with (lit "-") name)
        (MalformedHandle "name may not start or end with '-'");
  Ok (to_ascii_lowercase name).

Definition handle_new (namespace name : str) : result RegistryError Handle :=
  let namespace := to_ascii_lowercase namespace in
  _ ← guard (negb (existsb (fun n => n ≟ namespace) NAMESPACES)) (UnknownNamespace namespace);
  name ← validate_name name;
  Ok {| namespace := namespace; name := name |}.

Definition handle_parse (input : str) : result RegistryError Handle :=
  let trimmed := match strip_prefix (lit "/") input with Some t => t | None => input end in
  '(namespace, name) ← ok_or (split_once "/"%byte trimmed) (MalformedHandle "expected /<namespace>/<name>");
  handle_new namespace name.

Definition as_path (h : Handle) : str := lit "/" ++ namespace h ++ lit "/" ++ name h.

(** * Canonical handles *)

(** What a parsed handle is: a known namespace and a name in lower case that passes the check. *)
Record handle_ok (h : Handle) : Prop := {
  ho_namespace : namespace h ∈ NAMESPACES;
  ho_name : validate_name (name h) = Ok (name h);
}.

Lemma validate_name_case s : validate_name (to_ascii_lowercase s) = validate_name s.
Proof.
  unfold validate_name. change (lit "@") with ["@"%byte]. change (lit "-") with ["-"%byte].
  rewrite to_ascii_lowercase_nil, length_to_ascii_lowercase, to_ascii_lowercase_idem.
  rewrite forallb_lower by byte_enum.
  rewrite count_byte_lower, (starts_with_lower "@"%byte), (ends_with_lower "@"%byte) by byte_enum.
  by rewrite (starts_with_lower "-"%byte), (ends_with_lower "-"%byte) by byte_enum.
Qed.

Lemma validate_name_lower s t : validate_name s = Ok t -> t = to_ascii_lowercase s /\ validate_name t = Ok t.
Proof.
  intros H. assert (t = to_ascii_lowercase s) as -> by (unfold validate_name in H; inv_ok; done).
  by rewrite validate_name_case.
Qed.

Lemma handle_parse_case s : handle_parse (to_ascii_lowercase s) = handle_parse s.
Proof.
  assert (forall x, match strip_prefix (lit "/") (to_ascii_lowercase x) with Some t => t | None => to_ascii_lowercase x end
    = to_ascii_lowercase (match strip_prefix (lit "/") x with Some t => t | None => x end)) as Hstrip.
  { assert (forall b, (lower b ≟ "/"%byte) = (b ≟ "/"%byte)) as Hb by byte_enum.
    intros [|b x]; [done|]. change (lit "/") with ["/"%byte]. cbn [to_ascii_lowercase map strip_prefix].
    specialize (Hb b). repeat case_bool_decide; try done; congruence. }
  unfold handle_parse. rewrite Hstrip, split_once_lower by byte_enum.
  destruct (split_once _ _) as [[n m]|]; [|done]. cbn [ok_or mbind result_bind].
  unfold handle_new. by rewrite to_ascii_lowercase_idem, validate_name_case.
Qed.

Lemma namespaces_lower n : n ∈ NAMESPACES -> to_ascii_lowercase n = n /\ "/"%byte ∉ n /\ is_ascii n = true.
Proof.
  unfold NAMESPACES. rewrite !elem_of_cons, elem_of_nil.
  intros [->|[->|[]]]; (split; [reflexivity|split; [|reflexivity]]);
    intros Hin; apply contains_byte_true in Hin; vm_compute in Hin; discriminate.
Qed.

Lemma handle_new_Ok n m h : handle_new n m = Ok h <->
  to_ascii_lowercase n ∈ NAMESPACES /\ validate_name m = Ok (name h) /\ namespace h = to_ascii_lowercase n.
Proof.
  unfold handle_new. destruct (existsb _ NAMESPACES) eqn:E; cbn [negb guard mbind result_bind].
  - apply existsb_exists in E as (x & Hx & E). b2p. subst x. apply list_elem_of_In in Hx.
    destruct (validate_name m) as [t|e]; cbn [mbind result_bind]; split.
    + intros [= <-]. done.
    + intros (_ & [= ->] & En). destruct h. cbn in *. by subst.
    + done.
    + naive_solver.
  - split; [done|]. intros (Hin & _ & _). exfalso. apply not_true_iff_false in E. apply E, existsb_exists.
    exists (to_ascii_lowercase n). split; [by apply list_elem_of_In|by apply bool_decide_true].
Qed.

Lemma handle_parse_ok s h : handle_parse s = Ok h -> handle_ok h.
Proof.
  unfold handle_parse. intros H. apply bind_Ok in H as ([n m] & _ & H). apply handle_new_Ok in H as (Hn & Hm & En).
  split; [by rewrite En|]. by apply (validate_name_lower m).
Qed.

Lemma name_no_slash h : handle_ok h -> "/"%byte ∉ name h /\ is_ascii (name h) = true /\ to_ascii_lowercase (name h) = name h.
Proof.
  intros [_ H]. apply validate_name_lower in H as HL. destruct HL as [HL _]. unfold validate_name in H. inv_ok. b2p.
  rewrite forallb_forall in Ha0. split_and!; [| |done].
  - intros Hin. apply list_elem_of_In in Hin. specialize (Ha0 _ Hin). discriminate Ha0.
  - apply forallb_forall. intros b Hb. specialize (Ha0 b Hb). revert b Ha0 Hb.
    assert (forall b, implb (name_byte b) (u8 b <? 128) = true) as Hbyte by byte_enum.
    intros b Ha0 _. specialize (Hbyte b). by rewrite Ha0 in Hbyte.
Qed.

Lemma parse_as_path h : handle_ok h -> handle_parse (as_path h) = Ok h.
Proof.
  intros Hh. pose proof (name_no_slash h Hh) as (Hs & _ & _). destruct Hh as [Hn Hm].
  destruct (namespaces_lower _ Hn) as (Hl & Hns & _). unfold handle_parse, as_path. rewrite strip_prefix_app.
  rewrite (proj2 (split_once_Some "/"%byte _ (namespace h) (name h))) by done. cbn [ok_or mbind result_bind].
  apply handle_new_Ok. by rewrite Hl.
Qed.

(** * Registered names as destinations *)

Definition addressable_name (n : str) : bool := negb (contains_byte "@"%byte n) && negb (edge_marked n).

Lemma path_segments h : handle_ok h ->
  split "/"%byte (trim_slash (as_path h)) = [namespace h; name h] /\ as_path h = handle_text [namespace h; name h].
Proof.
  intros Hh. pose proof (name_no_slash h Hh) as (Hs & _ & Hl). destruct Hh as [Hn _].
  destruct (namespaces_lower _ Hn) as (Hnl & Hns & _). split.
  - unfold trim_slash, as_path. rewrite strip_prefix_app. by apply split_two.
  - unfold handle_text. cbn [flat_map]. rewrite Hnl, Hl, app_nil_r. unfold as_path. by rewrite <-!(assoc_L (++)).
Qed.

Lemma namespace_valid n : n ∈ NAMESPACES ->
  (length n <= 6)%nat /\ eq_ignore_ascii_case n (lit "gh") = false /\
  validate_segment MAX_HANDLE_NAMESPACE_BYTES n = Ok tt.
Proof.
  unfold NAMESPACES. rewrite !elem_of_cons, elem_of_nil. intros [->|[->|[]]]; split_and!; reflexivity || (simpl; lia).
Qed.

Lemma addressable_segment h : handle_ok h -> addressable_name (name h) = true ->
  (length (name h) <= MAX_NAME)%nat /\ validate_segment MAX_HANDLE_NAME_BYTES (name h) = Ok tt.
Proof.
  intros [_ H] Ha. unfold validate_name in H. inv_ok. unfold addressable_name in Ha. apply andb_true_iff in Ha as [Hat He].
  apply orb_false_iff in Ha0 as [Hne Hlen]. apply Nat.ltb_ge in Hlen. split; [done|].
  apply negb_true_iff in Hat, He.
  assert ("@"%byte ∉ name h) as Hno by (rewrite <-contains_byte_true; congruence).
  unfold validate_segment, looks_like_address. rewrite (proj2 (split_once_None _ _) Hno). rewrite Hne, He.
  rewrite (proj2 (Nat.ltb_ge _ _)) by (unfold MAX_HANDLE_NAME_BYTES, MAX_NAME in *; lia). cbn [orb guard mbind result_bind].
  replace (forallb plain_byte (name h)) with true; [done|]. symmetry. b2p. rewrite forallb_forall in *. intros b Hb.
  specialize (Ha1 b Hb). assert (b <> "@"%byte) as Hne' by (intros ->; apply Hno; by apply list_elem_of_In).
  assert (forall b, implb (name_byte b) ((b ≟ "@"%byte) || plain_byte b) = true) as Hbyte by byte_enum.
  specialize (Hbyte b). rewrite Ha1, bool_decide_false in Hbyte by done. done.
Qed.

(** A registered name has one path, from which it reads back, and two spellings that differ in case are
    one name.  A name without an at sign and without a dot at either end is also a destination senders can write; the
    registry's grammar is wider than the sender's, though, and [/github/.x] can be registered but not addressed. *)
Theorem registry_handle_canonical (s : str) (h : Handle) :
  handle_parse s = Ok h ->
  handle_parse (as_path h) = Ok h /\
  (forall t, to_ascii_lowercase t = to_ascii_lowercase s -> handle_parse t = Ok h) /\
  (addressable_name (name h) = true -> canonical_handle (as_path h) = Ok (as_path h)) /\
  (exists t g e, handle_parse t = Ok g /\ canonical_handle (as_path g) = Err e).
Proof.
  intros H. pose proof (handle_parse_ok s h H) as Hh. split_and!.
  - by apply parse_as_path.
  - intros t Ht. by rewrite <-(handle_parse_case t), Ht, handle_parse_case.
  - intros Ha. destruct (path_segments h Hh) as [Hsplit Htext]. pose proof (addressable_segment h Hh Ha) as [Hlen Hseg].
    destruct (namespace_valid _ (ho_namespace h Hh)) as (Hnl & Hgh & Hns).
    pose proof (name_no_slash h Hh) as (_ & Hascii & _). destruct (namespaces_lower _ (ho_namespace h Hh)) as (_ & _ & Hnascii).
    apply canonical_handle_Ok. rewrite Hsplit. split; [|split; [|exact Htext]].
    + unfold bounded_ascii, as_path. split_and!; [done| |].
      * rewrite !length_app. change (length (lit "/")) with 1%nat. unfold MAX_HANDLE_BYTES, MAX_NAME in *. lia.
      * rewrite !is_ascii_app, Hascii, Hnascii. done.
    + cbn. split_and!; [lia|done|done|]. by constructor.
  - exists (lit "/github/.x"), (MkHandle (lit "github") (lit ".x")). eexists. split; reflexivity.
Qed.

Lemma registry_handle_canonical_witness :
  handle_parse (lit "github/Ada-L") = Ok (MkHandle (lit "github") (lit "ada-l")) /\
  canonical_handle (lit "/github/ada-l") = Ok (lit "/github/ada-l").
Proof.
  split; [reflexivity|].
  apply (registry_handle_canonical (lit "github/Ada-L") (MkHandle (lit "github") (lit "ada-l"))); reflexivity.
Defined.
