(* ===== verification/Entry.v ===== *)
(** Log entries: [pigeonpost-registry/src/entry.rs].  The five entry kinds, their validation, and the exact
    bytes each commits to the log as an RFC 6962 leaf; the payloads a loft signs to enter or leave the
    directory. *)
From S2P Require Import Prelude Text B32 Network Crypto Origin Token Address Compliance Handle.

Definition LOG_ENTRY_VERSION : byte := x01.
Definition LEGACY_LOG_ENTRY_VERSION : byte := x00.
Definition LEGACY_LEAF_DOMAIN : bytes := lit "pigeonpost/log-entry/v1".
Definition LEAF_DOMAIN : bytes := lit "pigeonpost/log-entry/strict-v1".
Definition SIG_DOMAIN_CLAIM : bytes := lit "pigeonpost/handle-claim/v1".
Definition SIG_DOMAIN_DIRECTORY_ENTRY_V1 : bytes := lit "pigeonpost/directory-entry/v1".
Definition SIG_DOMAIN_DIRECTORY_ENTRY_V2 : bytes := lit "pigeonpost/directory-entry/v2".
Definition SIG_DOMAIN_DIRECTORY_DRAIN_V1 : bytes := lit "pigeonpost/directory-drain/v1".
Definition GIB : Z := 1024 * 1024 * 1024.
Definition DIRECTORY_AUTH_VERSION : byte := x01.

Definition entry_error (message : string) : EntryError := EntryMessage (lit message).
Definition unsupported_version (version : byte) : EntryError :=
  EntryMessage (lit "unsupported log entry version " ++ decimal (u8 version)).

(** [Result::map_err]. *)
Definition map_err {E F A} (f : E -> F) (r : result E A) : result F A :=
  match r with Ok a => Ok a | Err e => Err (f e) end.

(** * Entries *)

Inductive EntryKind :=
| KindHandleClaim
| KindHandleRotation
| KindDirectoryAdd
| KindDirectoryRemove
| KindComplianceKeyPublish.

Definition kind_tag (k : EntryKind) : byte :=
  match k with
  | KindHandleClaim => x01
  | KindHandleRotation => x02
  | KindDirectoryAdd => x03
  | KindDirectoryRemove => x04
  | KindComplianceKeyPublish => x05
  end.

Record HandleClaim := { hc_handle : str; hc_pubkey : str; hc_subject : str }.
Record HandleRotation := { hr_handle : str; hr_pubkey : str; hr_subject : str }.

Record DirectoryAddAuthentication := {
  da_version : byte;
  retention_days : Z;
  policy_open : bool;
  pow_floor : Z;
  max_event_bytes : Z;
  da_mutation_sequence : Z;
  da_loft_signature : str;
}.

Record DirectoryAdd := {
  da_endpoint : str;
  da_loft_pubkey : str;
  operator : str;
  capacity_bytes : Z;
  da_authentication : option DirectoryAddAuthentication;
}.

Record DirectoryRemoveAuthentication := {
  dr_version : byte;
  drain_after : Z;
  dr_mutation_sequence : Z;
  dr_loft_signature : str;
}.

Record DirectoryRemove := {
  dr_endpoint : str;
  dr_loft_pubkey : str;
  reason : str;
  dr_authentication : option DirectoryRemoveAuthentication;
}.

Inductive ComplianceKeyStatus := Active | Retired | Revoked.

Definition status_tag (s : ComplianceKeyStatus) : byte :=
  match s with Active => x01 | Retired => x02 | Revoked => x03 end.

Record ComplianceKeyPublish := {
  key_id : ComplianceKeyId;
  cp_public_key : str;
  not_before_ms : Z;
  not_after_ms : Z;
  status : ComplianceKeyStatus;
}.

Record Versioned (T : Type) := MkVersioned {
  v_version : byte;
  v_seq : Z;
  payload : T;
  v_ts_ms : Z;
}.
Arguments MkVersioned {T} _ _ _ _.
Arguments v_version {T} _.
Arguments v_seq {T} _.
Arguments payload {T} _.
Arguments v_ts_ms {T} _.

Inductive LogEntry :=
| EHandleClaim (v : Versioned HandleClaim)
| EHandleRotation (v : Versioned HandleRotation)
| EDirectoryAdd (v : Versioned DirectoryAdd)
| EDirectoryRemove (v : Versioned DirectoryRemove)
| EComplianceKeyPublish (v : Versioned ComplianceKeyPublish).

#[global] Instance ComplianceKeyStatus_eq_dec : EqDecision ComplianceKeyStatus.
Proof. solve_decision. Defined.
#[global] Instance ComplianceKeyPublish_eq_dec : EqDecision ComplianceKeyPublish.
Proof. solve_decision. Defined.
#[global] Instance HandleClaim_eq_dec : EqDecision HandleClaim.
Proof. solve_decision. Defined.
#[global] Instance HandleRotation_eq_dec : EqDecision HandleRotation.
Proof. solve_decision. Defined.
#[global] Instance DirectoryAddAuthentication_eq_dec : EqDecision DirectoryAddAuthentication.
Proof. solve_decision. Defined.
#[global] Instance DirectoryAdd_eq_dec : EqDecision DirectoryAdd.
Proof. solve_decision. Defined.
#[global] Instance DirectoryRemoveAuthentication_eq_dec : EqDecision DirectoryRemoveAuthentication.
Proof. solve_decision. Defined.
#[global] Instance DirectoryRemove_eq_dec : EqDecision DirectoryRemove.
Proof. solve_decision. Defined.
#[global] Instance Versioned_eq_dec `{EqDecision T} : EqDecision (Versioned T).
Proof. solve_decision. Defined.
#[global] Instance LogEntry_eq_dec : EqDecision LogEntry.
Proof. solve_decision. Defined.

Definition entry_handle_claim (seq : Z) (handle pubkey subject : str) (ts_ms : Z) : LogEntry :=
  EHandleClaim (MkVersioned LOG_ENTRY_VERSION seq {| hc_handle := handle; hc_pubkey := pubkey; hc_subject := subject |} ts_ms).
Definition entry_handle_rotation (seq : Z) (handle pubkey subject : str) (ts_ms : Z) : LogEntry :=
  EHandleRotation (MkVersioned LOG_ENTRY_VERSION seq {| hr_handle := handle; hr_pubkey := pubkey; hr_subject := subject |} ts_ms).
Definition compliance_key (seq : Z) (payload : ComplianceKeyPublish) (ts_ms : Z) : LogEntry :=
  EComplianceKeyPublish (MkVersioned LOG_ENTRY_VERSION seq payload ts_ms).
Definition directory_add (seq : Z) (payload : DirectoryAdd) (ts_ms : Z) : LogEntry :=
  EDirectoryAdd (MkVersioned LOG_ENTRY_VERSION seq payload ts_ms).
Definition directory_remove (seq : Z) (payload : DirectoryRemove) (ts_ms : Z) : LogEntry :=
  EDirectoryRemove (MkVersioned LOG_ENTRY_VERSION seq payload ts_ms).

Definition add_authenticated (endpoint loft_pubkey : str) (operator : option str) (capacity_gb retention_days : Z)
  (policy_open : bool) (pow_floor max_event_bytes mutation_sequence : Z) (loft_signature : str)
  : result EntryError DirectoryAdd :=
  capacity_bytes ← ok_or (checked_mul 64 capacity_gb GIB) (entry_error "directory capacity overflows bytes");
  Ok {| da_endpoint := endpoint; da_loft_pubkey := loft_pubkey; operator := default [] operator;
        capacity_bytes := capacity_bytes;
        da_authentication := Some
          {| da_version := DIRECTORY_AUTH_VERSION; retention_days := retention_days; policy_open := policy_open;
             pow_floor := pow_floor; max_event_bytes := max_event_bytes;
             da_mutation_sequence := mutation_sequence; da_loft_signature := loft_signature |} |}.

Definition remove_authenticated (endpoint loft_pubkey : str) (drain_after mutation_sequence : Z)
  (loft_signature : str) : DirectoryRemove :=
  {| dr_endpoint := endpoint; dr_loft_pubkey := loft_pubkey; reason := lit "operator_drain";
     dr_authentication := Some
       {| dr_version := DIRECTORY_AUTH_VERSION; drain_after := drain_after;
          dr_mutation_sequence := mutation_sequence; dr_loft_signature := loft_signature |} |}.

(** ** Accessors *)

Definition kind (e : LogEntry) : EntryKind :=
  match e with
  | EHandleClaim _ => KindHandleClaim
  | EHandleRotation _ => KindHandleRotation
  | EDirectoryAdd _ => KindDirectoryAdd
  | EDirectoryRemove _ => KindDirectoryRemove
  | EComplianceKeyPublish _ => KindComplianceKeyPublish
  end.

Definition entry_version (e : LogEntry) : byte :=
  match e with
  | EHandleClaim v => v_version v
  | EHandleRotation v => v_version v
  | EDirectoryAdd v => v_version v
  | EDirectoryRemove v => v_version v
  | EComplianceKeyPublish v => v_version v
  end.

Definition seq (e : LogEntry) : Z :=
  match e with
  | EHandleClaim v => v_seq v
  | EHandleRotation v => v_seq v
  | EDirectoryAdd v => v_seq v
  | EDirectoryRemove v => v_seq v
  | EComplianceKeyPublish v => v_seq v
  end.

Definition ts_ms (e : LogEntry) : Z :=
  match e with
  | EHandleClaim v => v_ts_ms v
  | EHandleRotation v => v_ts_ms v
  | EDirectoryAdd v => v_ts_ms v
  | EDirectoryRemove v => v_ts_ms v
  | EComplianceKeyPublish v => v_ts_ms v
  end.

Definition handle_binding (e : LogEntry) : option (str * str * str) :=
  match e with
  | EHandleClaim v => Some (hc_handle (payload v), hc_pubkey (payload v), hc_subject (payload v))
  | EHandleRotation v => Some (hr_handle (payload v), hr_pubkey (payload v), hr_subject (payload v))
  | _ => None
  end.

Definition compliance_publication (e : LogEntry) : option ComplianceKeyPublish :=
  match e with EComplianceKeyPublish v => Some (payload v) | _ => None end.
Definition directory_addition (e : LogEntry) : option DirectoryAdd :=
  match e with EDirectoryAdd v => Some (payload v) | _ => None end.
Definition directory_removal (e : LogEntry) : option DirectoryRemove :=
  match e with EDirectoryRemove v => Some (payload v) | _ => None end.

Definition authenticated_directory_mutation (e : LogEntry) : option (str * str * Z) :=
  match e with
  | EDirectoryAdd v =>
      option_map (fun auth => (da_endpoint (payload v), da_loft_pubkey (payload v), da_mutation_sequence auth))
        (da_authentication (payload v))
  | EDirectoryRemove v =>
      option_map (fun auth => (dr_endpoint (payload v), dr_loft_pubkey (payload v), dr_mutation_sequence auth))
        (dr_authentication (payload v))
  | _ => None
  end.

(** * Fields *)

Definition is_ascii_control (b : byte) : bool := (u8 b <? 32) || (u8 b =? 127).

(** The test of [decode_hex32] and [decode_hex64], and the loop over [chunks_exact(2)]. *)
Definition lower_hex (b : byte) : bool := is_ascii_digit b || ((97 <=? u8 b) && (u8 b <=? 102)).
Definition decode_hex (n : nat) (value : str) : option (arr n) :=
  if negb (length value =? 2 * n)%nat || existsb (fun b => negb (lower_hex b)) value then None
  else bs ← unhex value; arr_of_list n bs.
Definition decode_hex32 (value : str) : option (arr 32) := decode_hex 32 value.
Definition decode_hex64 (value : str) : option (arr 64) := decode_hex 64 value.

Definition hex32_error (field : string) : EntryError :=
  EntryMessage (lit field ++ lit " must be 32 lower-case hex bytes").

Definition validate_hex32 (field : string) (value : str) : result EntryError unit :=
  guard (negb (is_some (decode_hex32 value))) (hex32_error field).

Definition push_field (out field : bytes) : result EntryError bytes :=
  len ← ok_or (if Z.of_nat (length field) <? 2 ^ 32 then Some (Z.of_nat (length field)) else None)
          (entry_error "field is too large");
  Ok (out ++ le_bytes 4 len ++ field).

Definition push_handle (out : bytes) (handle pubkey subject : str) : result EntryError bytes :=
  out ← push_field out handle;
  out ← push_field out pubkey;
  push_field out subject.

(** What a claimant signs; [expect] on a longer handle would panic, which is [None]. *)
Definition claim_payload (handle : str) (pubkey : arr 32) : option bytes :=
  out ← ok (push_field SIG_DOMAIN_CLAIM handle);
  Some (out ++ vec_to_list pubkey).

Definition directory_add_claim_payload (endpoint loft_pubkey : str) (operator : option str)
  (capacity_gb retention_days : Z) (policy_open : bool) (pow_floor max_event_bytes mutation_sequence : Z)
  : result EntryError bytes :=
  let domain := if mutation_sequence =? 0 then SIG_DOMAIN_DIRECTORY_ENTRY_V1 else SIG_DOMAIN_DIRECTORY_ENTRY_V2 in
  out ← push_field domain endpoint;
  out ← push_field out loft_pubkey;
  out ← push_field out (default [] operator);
  let out := out ++ le_bytes 8 capacity_gb ++ le_bytes 8 retention_days ++ [bool_byte policy_open]
             ++ le_bytes 4 pow_floor ++ le_bytes 8 max_event_bytes in
  Ok (if negb (mutation_sequence =? 0) then out ++ le_bytes 8 mutation_sequence else out).

Definition directory_remove_claim_payload (endpoint : str) (drain_after mutation_sequence : Z)
  : result EntryError bytes :=
  out ← push_field SIG_DOMAIN_DIRECTORY_DRAIN_V1 endpoint;
  Ok (out ++ le_bytes 8 drain_after ++ le_bytes 8 mutation_sequence).

(** * Validation *)

Definition validate_current (version : byte) : result EntryError unit :=
  if version ≟ LOG_ENTRY_VERSION then Ok tt else Err (unsupported_version version).

Definition validate_handle (handle pubkey subject : str) (version : byte) (ts_ms : Z) : result EntryError unit :=
  _ ← guard (negb (version ≟ LOG_ENTRY_VERSION) && negb (version ≟ LEGACY_LOG_ENTRY_VERSION))
        (unsupported_version version);
  _ ← guard ((version ≟ LEGACY_LOG_ENTRY_VERSION) && negb (ts_ms mod 1000 =? 0))
        (entry_error "legacy timestamp is not an exact number of seconds");
  _ ← guard (negb (starts_with (lit "/") handle) || (256 <? length handle)%nat || existsb is_ascii_control handle)
        (entry_error "handle is not canonical");
  current_handle ←
    (if version ≟ LOG_ENTRY_VERSION then
       parsed ← map_err (fun _ => entry_error "handle is not a canonical current provider handle") (handle_parse handle);
       _ ← guard (negb (as_path parsed ≟ handle)) (entry_error "handle is not canonical");
       Ok (Some parsed)
     else Ok None);
  _ ← validate_hex32 "pubkey" pubkey;
  '(namespace', opaque) ← ok_or (split_once ":"%byte subject) (entry_error "subject must be provider-namespaced");
  _ ← guard ((namespace' ≟ []) || (opaque ≟ []) || (512 <? length subject)%nat || existsb is_ascii_control subject)
        (entry_error "subject is malformed");
  guard (match current_handle with Some h => negb (namespace h ≟ namespace') | None => false end)
    (entry_error "subject namespace does not match handle namespace").

Definition validate_compliance (v : Versioned ComplianceKeyPublish) : result EntryError unit :=
  _ ← validate_current (v_version v);
  _ ← map_err EntryFormat (key_id_validate (key_id (payload v)));
  _ ← validate_hex32 "public_key" (cp_public_key (payload v));
  _ ← guard (authority (key_id (payload v)) ≟ zeroes 32) (entry_error "compliance authority must not be all zeroes");
  _ ← guard (cp_public_key (payload v) ≟ concat (replicate 32 (lit "00")))
        (entry_error "compliance public key must not be all zeroes");
  map_err EntryFormat
    (validate_compliance_epoch (key_id (payload v)) (not_before_ms (payload v)) (not_after_ms (payload v))).

Section Directory.
Context {C : Crypto} {UP : UrlParser}.

Definition endpoint_error : EntryError := entry_error
  "directory endpoint must be a public HTTPS origin or an exact numeric loopback HTTP origin".

Definition allowed_origin (parsed : Url) : bool :=
  if scheme parsed ≟ lit "http" then
    match host parsed with
    | Some (HostIpv4 address) => is_loopback (V4 address)
    | Some (HostIpv6 address) => is_loopback (V6 address)
    | _ => false
    end
  else if scheme parsed ≟ lit "https" then
    match host parsed with
    | Some (HostIpv4 address) => is_public_network_address (V4 address)
    | Some (HostIpv6 address) => is_public_network_address (V6 address)
    | Some (HostDomain domain) => negb (is_localhost_name domain)
    | None => false
    end
  else false.

Definition validate_endpoint (endpoint : str) : result EntryError unit :=
  parsed ← ok_or (url_parse endpoint) endpoint_error;
  guard ((2048 <? length endpoint)%nat
         || negb (allowed_origin parsed)
         || cannot_be_a_base parsed
         || negb (username parsed ≟ [])
         || is_some (password parsed)
         || (port parsed ≟ Some 0)
         || is_some (query parsed)
         || is_some (fragment parsed)
         || negb ((path parsed ≟ []) || (path parsed ≟ lit "/"))) endpoint_error.

Definition validate_ed25519_key (field : string) (value : str) : result EntryError VerifyingKey :=
  bs ← ok_or (decode_hex32 value) (hex32_error field);
  map_err (fun _ => EntryMessage (lit field ++ lit " is invalid")) (verifying_key_from_bytes bs).

Definition signature_error : EntryError := entry_error "loft_signature must be 64 lower-case hex bytes".

Definition validate_directory_add (v : Versioned DirectoryAdd) : result EntryError unit :=
  let p := payload v in
  _ ← validate_current (v_version v);
  _ ← validate_endpoint (da_endpoint p);
  key ← validate_ed25519_key "loft_pubkey" (da_loft_pubkey p);
  _ ← guard (capacity_bytes p =? 0) (entry_error "capacity_bytes must be non-zero");
  match da_authentication p with
  | None =>
      guard ((operator p ≟ []) || (256 <? length (operator p))%nat) (entry_error "operator must be 1..=256 bytes")
  | Some auth =>
      _ ← guard (negb (da_version auth ≟ DIRECTORY_AUTH_VERSION))
            (entry_error "unsupported directory authentication version");
      _ ← guard ((256 <? length (operator p))%nat || existsb is_ascii_control (operator p))
            (entry_error "operator must be at most 256 safe bytes");
      _ ← guard (negb (capacity_bytes p mod GIB =? 0)) (entry_error "authenticated capacity_bytes must be whole GiB");
      let capacity_gb := capacity_bytes p / GIB in
      _ ← guard ((retention_days auth =? 0) || (max_event_bytes auth =? 0) || (2 * 1024 * 1024 <? max_event_bytes auth))
            (entry_error "directory retention and event-size claims are invalid");
      signature ← ok_or (decode_hex64 (da_loft_signature auth)) signature_error;
      payload ← directory_add_claim_payload (da_endpoint p) (da_loft_pubkey p)
                  (if negb (operator p ≟ []) then Some (operator p) else None)
                  capacity_gb (retention_days auth) (policy_open auth) (pow_floor auth) (max_event_bytes auth)
                  (da_mutation_sequence auth);
      map_err (fun _ => entry_error "directory addition is not signed by the loft key") (verify key payload signature)
  end.

Definition validate_directory_remove (v : Versioned DirectoryRemove) : result EntryError unit :=
  let p := payload v in
  _ ← validate_current (v_version v);
  _ ← validate_endpoint (dr_endpoint p);
  key ← validate_ed25519_key "loft_pubkey" (dr_loft_pubkey p);
  match dr_authentication p with
  | None => guard ((reason p ≟ []) || (512 <? length (reason p))%nat) (entry_error "reason must be 1..=512 bytes")
  | Some auth =>
      _ ← guard (negb (dr_version auth ≟ DIRECTORY_AUTH_VERSION) || negb (reason p ≟ lit "operator_drain"))
            (entry_error "authenticated removals require the operator_drain reason and supported auth version");
      signature ← ok_or (decode_hex64 (dr_loft_signature auth)) signature_error;
      payload ← directory_remove_claim_payload (dr_endpoint p) (drain_after auth) (dr_mutation_sequence auth);
      map_err (fun _ => entry_error "directory removal is not signed by the loft key") (verify key payload signature)
  end.

Definition is_handle_entry (e : LogEntry) : bool :=
  match e with EHandleClaim _ | EHandleRotation _ => true | _ => false end.

Definition entry_validate (e : LogEntry) : result EntryError unit :=
  let version := entry_version e in
  _ ← guard (negb (version ≟ LOG_ENTRY_VERSION)
             && negb ((version ≟ LEGACY_LOG_ENTRY_VERSION) && is_handle_entry e)) (unsupported_version version);
  match e with
  | EHandleClaim v =>
      validate_handle (hc_handle (payload v)) (hc_pubkey (payload v)) (hc_subject (payload v)) (v_version v) (v_ts_ms v)
  | EHandleRotation v =>
      validate_handle (hr_handle (payload v)) (hr_pubkey (payload v)) (hr_subject (payload v)) (v_version v) (v_ts_ms v)
  | EDirectoryAdd v => validate_directory_add v
  | EDirectoryRemove v => validate_directory_remove v
  | EComplianceKeyPublish v => validate_compliance v
  end.

(** * Leaves *)

Definition legacy_leaf_bytes (e : LogEntry) : result EntryError bytes :=
  '(handle, pubkey, subject) ← ok_or (handle_binding e) (entry_error "only handle entries have a legacy codec");
  _ ← guard (negb (ts_ms e mod 1000 =? 0)) (entry_error "legacy timestamp is not an exact number of seconds");
  let out := LEGACY_LEAF_DOMAIN ++ [kind_tag (kind e)] ++ le_bytes 8 (seq e) in
  out ← push_handle out handle pubkey subject;
  Ok (out ++ le_bytes 8 (ts_ms e / 1000)).

Definition push_add_auth (out : bytes) (auth : DirectoryAddAuthentication) : result EntryError bytes :=
  signature ← ok_or (decode_hex64 (da_loft_signature auth)) signature_error;
  Ok (out ++ [da_version auth] ++ le_bytes 8 (retention_days auth) ++ [bool_byte (policy_open auth)]
      ++ le_bytes 4 (pow_floor auth) ++ le_bytes 8 (max_event_bytes auth)
      ++ le_bytes 8 (da_mutation_sequence auth) ++ vec_to_list signature).

Definition push_remove_auth (out : bytes) (auth : DirectoryRemoveAuthentication) : result EntryError bytes :=
  signature ← ok_or (decode_hex64 (dr_loft_signature auth)) signature_error;
  Ok (out ++ [dr_version auth] ++ le_bytes 8 (drain_after auth) ++ le_bytes 8 (dr_mutation_sequence auth)
      ++ vec_to_list signature).

Definition leaf_body (out : bytes) (e : LogEntry) : result EntryError bytes :=
  match e with
  | EHandleClaim v => push_handle out (hc_handle (payload v)) (hc_pubkey (payload v)) (hc_subject (payload v))
  | EHandleRotation v => push_handle out (hr_handle (payload v)) (hr_pubkey (payload v)) (hr_subject (payload v))
  | EDirectoryAdd v =>
      out ← push_field out (da_endpoint (payload v));
      out ← push_field out (da_loft_pubkey (payload v));
      out ← push_field out (operator (payload v));
      let out := out ++ le_bytes 8 (capacity_bytes (payload v)) in
      match da_authentication (payload v) with Some auth => push_add_auth out auth | None => Ok out end
  | EDirectoryRemove v =>
      out ← push_field out (dr_endpoint (payload v));
      out ← push_field out (dr_loft_pubkey (payload v));
      out ← push_field out (reason (payload v));
      match dr_authentication (payload v) with Some auth => push_remove_auth out auth | None => Ok out end
  | EComplianceKeyPublish v =>
      id ← map_err EntryFormat (key_id_encode (key_id (payload v)));
      public_key ← ok_or (decode_hex32 (cp_public_key (payload v))) (entry_error "public_key must be 32 lower-case hex bytes");
      Ok (out ++ id ++ vec_to_list public_key ++ le_bytes 8 (not_before_ms (payload v))
          ++ le_bytes 8 (not_after_ms (payload v)) ++ [status_tag (status (payload v))])
  end.

Definition leaf_bytes (e : LogEntry) : result EntryError bytes :=
  _ ← entry_validate e;
  if entry_version e ≟ LEGACY_LOG_ENTRY_VERSION then legacy_leaf_bytes e
  else
    let out := LEAF_DOMAIN ++ [LOG_ENTRY_VERSION; kind_tag (kind e)] ++ le_bytes 8 (seq e) in
    out ← leaf_body out e;
    Ok (out ++ le_bytes 8 (ts_ms e)).

Definition legacy_handle (k : EntryKind) (seq : Z) (handle pubkey subject : str) (timestamp_s : Z)
  : result EntryError LogEntry :=
  ts_ms ← ok_or (checked_mul 64 timestamp_s 1000) (entry_error "legacy timestamp overflows milliseconds");
  entry ←
    match k with
    | KindHandleClaim => Ok (EHandleClaim (MkVersioned LEGACY_LOG_ENTRY_VERSION seq
                               {| hc_handle := handle; hc_pubkey := pubkey; hc_subject := subject |} ts_ms))
    | KindHandleRotation => Ok (EHandleRotation (MkVersioned LEGACY_LOG_ENTRY_VERSION seq
                               {| hr_handle := handle; hr_pubkey := pubkey; hr_subject := subject |} ts_ms))
    | _ => Err (entry_error "legacy rows may only be handle entries")
    end;
  _ ← entry_validate entry;
  Ok entry.
End Directory.

(** * Lemmas *)

(** ** Hexadecimal fields: one text per value *)

Lemma lower_hex_char b d : lower_hex b = true -> to_digit 16 b = Some d -> hex_char d = b.
Proof.
  assert (forall b, implb (lower_hex b) (match to_digit 16 b with Some d => hex_char d ≟ b | None => true end) = true)
    as Hb by byte_enum.
  intros Hl Hd. specialize (Hb b). rewrite Hl, Hd in Hb. by apply bool_decide_eq_true in Hb.
Qed.

Lemma hex_char_lower d : 0 <= d < 16 -> lower_hex (hex_char d) = true.
Proof. revert d. apply nibble_cases. repeat constructor. Qed.

Lemma unhex_lower n : forall s bs, length s = (2 * n)%nat -> forallb lower_hex s = true -> unhex s = Some bs -> s = hex_of bs.
Proof.
  induction n as [|n IH]; intros [|a [|b s]] bs Hlen Hl H; simpl in Hlen; try lia.
  { cbn in H. by injection H as <-. }
  cbn [forallb] in Hl. b2p. apply unhex_pair_inv in H as (v & vs & Hp & Hr & ->).
  destruct Hp as [(h & l & Ha & Hb & ->)|[-> _]]; [|done].
  pose proof (to_digit_range _ _ _ Ha) as (? & ? & _). pose proof (to_digit_range _ _ _ Hb) as (? & ? & _).
  unfold hex_of. cbn [flat_map app]. rewrite u8_to_u8, Z.mod_small by lia.
  rewrite (IH s vs) by (done || lia). fold (hex_of vs).
  replace ((h * 16 + l) / 16) with h by dlia. replace ((h * 16 + l) mod 16) with l by dlia.
  by rewrite (lower_hex_char a h), (lower_hex_char b l).
Qed.

Lemma hex_of_lower bs : forallb lower_hex (hex_of bs) = true.
Proof.
  induction bs as [|b bs IH]; [done|]. unfold hex_of in *. cbn [flat_map app forallb]. pose proof (u8_range b).
  rewrite !hex_char_lower, IH by dlia. done.
Qed.

Lemma existsb_negb_forallb {A} (f : A -> bool) l : existsb (fun x => negb (f x)) l = negb (forallb f l).
Proof. induction l as [|x l IH]; [done|]. cbn. rewrite IH. by destruct (f x). Qed.

Lemma decode_hex_iff n s v : decode_hex n s = Some v <-> s = hex_of (vec_to_list v).
Proof.
  unfold decode_hex. rewrite existsb_negb_forallb. split.
  - destruct (_ || _)%bool eqn:E; [done|]. b2p. destruct (unhex s) as [bs|] eqn:Eu; [|done].
    intros Hv%arr_of_list_Some. subst bs. by apply (unhex_lower n).
  - intros ->. rewrite length_hex_of, length_vec_to_list, Nat.eqb_refl, hex_of_lower, unhex_hex_of. cbn.
    by apply arr_of_list_Some.
Qed.

Lemma decode_hex_inj n s s' v : decode_hex n s = Some v -> decode_hex n s' = Some v -> s = s'.
Proof. rewrite !decode_hex_iff. congruence. Qed.

Lemma length_decode_hex n s v : decode_hex n s = Some v -> length s = (2 * n)%nat.
Proof. intros ->%decode_hex_iff. by rewrite length_hex_of, length_vec_to_list. Qed.

(** ** Length-prefixed fields *)

Definition field (f : bytes) : bytes := le_bytes 4 (Z.of_nat (length f)) ++ f.
Definition field_ok (f : bytes) : Prop := Z.of_nat (length f) < 2 ^ 32.

Lemma push_field_Ok out f r : push_field out f = Ok r <-> field_ok f /\ r = out ++ field f.
Proof.
  unfold push_field, field_ok, field. destruct (Z.ltb_spec (Z.of_nat (length f)) (2 ^ 32)); cbn [ok_or mbind result_bind].
  - split; [intros [= <-]|intros [_ ->]]; done.
  - split; [done|]. lia.
Qed.

Lemma push_field_total out f : field_ok f -> push_field out f = Ok (out ++ field f).
Proof. intros H. by apply push_field_Ok. Qed.

Lemma field_inj f f' r r' : field_ok f -> field_ok f' -> field f ++ r = field f' ++ r' -> f = f' /\ r = r'.
Proof.
  unfold field, field_ok. intros Hf Hf' E. rewrite <-!(assoc_L (++)) in E.
  apply le_app_inj in E as [E1 E]; [|unfold in_uint; change (2 ^ (8 * Z.of_nat 4)) with (2 ^ 32); lia..].
  apply app_inj_len in E; [done|lia].
Qed.

Lemma push_handle_Ok out h k s r :
  push_handle out h k s = Ok r <->
  (field_ok h /\ field_ok k /\ field_ok s) /\ r = out ++ field h ++ field k ++ field s.
Proof.
  unfold push_handle. split.
  - intros H. inv_ok. apply push_field_Ok in Ha as [? ->], Ha0 as [? ->], H as [? ->].
    by rewrite <-!(assoc_L (++)).
  - intros [(? & ? & ?) ->].
    rewrite push_field_total by done. cbn [mbind result_bind]. rewrite push_field_total by done. cbn [mbind result_bind].
    rewrite push_field_total by done. by rewrite <-!(assoc_L (++)).
Qed.

Lemma push_handle_total out h k s : field_ok h -> field_ok k -> field_ok s ->
  push_handle out h k s = Ok (out ++ field h ++ field k ++ field s).
Proof. intros. by apply push_handle_Ok. Qed.

(** Take apart an equation between two field sequences. *)
Ltac field_inj_in H :=
  repeat (rewrite <-?(assoc_L (++)) in H;
    lazymatch type of H with
    | field _ ++ _ = field _ ++ _ => let E := fresh "E" in apply field_inj in H as [E H]; [|assumption..]
    | le_bytes _ _ ++ _ = le_bytes _ _ ++ _ =>
        let E := fresh "E" in apply le_app_inj in H as [E H]; [|assumption..]
    | _ => progress payload_inj H
    end).

(** ** Leaf bodies *)

(** The machine widths of an entry's integers. *)
Definition add_auth_wf (a : DirectoryAddAuthentication) : Prop :=
  in_uint 64 (retention_days a) /\ in_uint 32 (pow_floor a) /\ in_uint 64 (max_event_bytes a) /\
  in_uint 64 (da_mutation_sequence a).
Definition remove_auth_wf (a : DirectoryRemoveAuthentication) : Prop :=
  in_uint 64 (drain_after a) /\ in_uint 64 (dr_mutation_sequence a).
Definition entry_wf (e : LogEntry) : Prop :=
  in_uint 64 (seq e) /\ in_uint 64 (ts_ms e) /\
  match e with
  | EDirectoryAdd v => in_uint 64 (capacity_bytes (payload v)) /\ from_option add_auth_wf True (da_authentication (payload v))
  | EDirectoryRemove v => from_option remove_auth_wf True (dr_authentication (payload v))
  | EComplianceKeyPublish v =>
      key_id_wf (key_id (payload v)) /\ in_uint 64 (not_before_ms (payload v)) /\ in_uint 64 (not_after_ms (payload v))
  | _ => True
  end.

Lemma kind_tag_inj k k' : kind_tag k = kind_tag k' -> k = k'.
Proof. by destruct k, k'. Qed.
Lemma status_tag_inj s s' : status_tag s = status_tag s' -> s = s'.
Proof. by destruct s, s'. Qed.

(** The body of a leaf as it stands behind [out]: the fields, and which texts they need. *)
Definition add_auth_bytes (a : DirectoryAddAuthentication) (signature : arr 64) : bytes :=
  [da_version a] ++ le_bytes 8 (retention_days a) ++ [bool_byte (policy_open a)]
  ++ le_bytes 4 (pow_floor a) ++ le_bytes 8 (max_event_bytes a) ++ le_bytes 8 (da_mutation_sequence a)
  ++ vec_to_list signature.
Definition remove_auth_bytes (a : DirectoryRemoveAuthentication) (signature : arr 64) : bytes :=
  [dr_version a] ++ le_bytes 8 (drain_after a) ++ le_bytes 8 (dr_mutation_sequence a) ++ vec_to_list signature.

Inductive body_of : LogEntry -> bytes -> Prop :=
| body_claim v h k s : handle_binding (EHandleClaim v) = Some (h, k, s) -> field_ok h -> field_ok k -> field_ok s ->
    body_of (EHandleClaim v) (field h ++ field k ++ field s)
| body_rotation v h k s : handle_binding (EHandleRotation v) = Some (h, k, s) -> field_ok h -> field_ok k -> field_ok s ->
    body_of (EHandleRotation v) (field h ++ field k ++ field s)
| body_add v t :
    field_ok (da_endpoint (payload v)) -> field_ok (da_loft_pubkey (payload v)) -> field_ok (operator (payload v)) ->
    match da_authentication (payload v) with
    | Some a => exists g, decode_hex64 (da_loft_signature a) = Some g /\ t = add_auth_bytes a g
    | None => t = []
    end ->
    body_of (EDirectoryAdd v)
      (field (da_endpoint (payload v)) ++ field (da_loft_pubkey (payload v)) ++ field (operator (payload v))
       ++ le_bytes 8 (capacity_bytes (payload v)) ++ t)
| body_remove v t :
    field_ok (dr_endpoint (payload v)) -> field_ok (dr_loft_pubkey (payload v)) -> field_ok (reason (payload v)) ->
    match dr_authentication (payload v) with
    | Some a => exists g, decode_hex64 (dr_loft_signature a) = Some g /\ t = remove_auth_bytes a g
    | None => t = []
    end ->
    body_of (EDirectoryRemove v)
      (field (dr_endpoint (payload v)) ++ field (dr_loft_pubkey (payload v)) ++ field (reason (payload v)) ++ t)
| body_compliance v id k :
    key_id_encode (key_id (payload v)) = Ok id -> decode_hex32 (cp_public_key (payload v)) = Some k ->
    body_of (EComplianceKeyPublish v)
      (id ++ vec_to_list k ++ le_bytes 8 (not_before_ms (payload v)) ++ le_bytes 8 (not_after_ms (payload v))
       ++ [status_tag (status (payload v))]).

Lemma map_err_Ok {E F A} (f : E -> F) (r : result E A) a : map_err f r = Ok a <-> r = Ok a.
Proof. destruct r; cbn; split; congruence. Qed.

Lemma leaf_body_spec out e r : leaf_body out e = Ok r -> exists t, body_of e t /\ r = out ++ t.
Proof.
  destruct e as [v|v|v|v|v]; cbn [leaf_body]; intros H.
  1,2: apply push_handle_Ok in H as [(? & ? & ?) ->]; eexists; split; [by econstructor|done].
  - inv_ok. apply push_field_Ok in Ha as [? ->], Ha0 as [? ->], Ha1 as [? ->].
    assert (exists t, match da_authentication (payload v) with
      | Some a => exists g, decode_hex64 (da_loft_signature a) = Some g /\ t = add_auth_bytes a g
      | None => t = [] end /\ r = (((out ++ field (da_endpoint (payload v))) ++ field (da_loft_pubkey (payload v)))
              ++ field (operator (payload v))) ++ le_bytes 8 (capacity_bytes (payload v)) ++ t) as (t & Ht & ->).
    { destruct (da_authentication _) as [a|].
      - unfold push_add_auth in H. inv_ok. subst r. exists (add_auth_bytes a a0). unfold add_auth_bytes.
        split; [eauto|]. by rewrite <-!(assoc_L (++)).
      - inv_ok. exists []. by rewrite app_nil_r. }
    eexists. split; [by apply body_add|]. by rewrite <-!(assoc_L (++)).
  - inv_ok. apply push_field_Ok in Ha as [? ->], Ha0 as [? ->], Ha1 as [? ->].
    assert (exists t, match dr_authentication (payload v) with
      | Some a => exists g, decode_hex64 (dr_loft_signature a) = Some g /\ t = remove_auth_bytes a g
      | None => t = [] end /\ r = (((out ++ field (dr_endpoint (payload v))) ++ field (dr_loft_pubkey (payload v)))
              ++ field (reason (payload v))) ++ t) as (t & Ht & ->).
    { destruct (dr_authentication _) as [a|].
      - unfold push_remove_auth in H. inv_ok. subst r. exists (remove_auth_bytes a a0). unfold remove_auth_bytes.
        split; [eauto|]. by rewrite <-!(assoc_L (++)).
      - inv_ok. exists []. by rewrite app_nil_r. }
    eexists. split; [by apply body_remove|]. by rewrite <-!(assoc_L (++)).
  - inv_ok. subst r. apply map_err_Ok in Ha. eexists. split; [by apply body_compliance|]. done.
Qed.

Lemma add_tail_inj p p' t t' (x y : Z) :
  let spec p t := match da_authentication p with
    | Some a => exists g, decode_hex64 (da_loft_signature a) = Some g /\ t = add_auth_bytes a g
    | None => t = [] end in
  spec p t -> spec p' t' ->
  from_option add_auth_wf True (da_authentication p) -> from_option add_auth_wf True (da_authentication p') ->
  in_uint 64 x -> in_uint 64 y -> t ++ le_bytes 8 x = t' ++ le_bytes 8 y ->
  x = y /\ da_authentication p = da_authentication p'.
Proof.
  intros spec Hs Hs' Hw Hw' Hx Hy E. unfold spec in *. clear spec.
  destruct (da_authentication p) as [a|], (da_authentication p') as [a'|]; cbn in Hw, Hw'.
  - destruct Hs as (g & Hg & ->), Hs' as (g' & Hg' & ->), Hw as (? & ? & ? & ?), Hw' as (? & ? & ? & ?).
    unfold add_auth_bytes in E. field_inj_in E. subst g'. split; [done|]. f_equal.
    pose proof (decode_hex_inj _ _ _ _ Hg Hg'). destruct a, a'; cbn in *; congruence.
  - subst t'. destruct Hs as (g & Hg & ->). apply (f_equal length) in E. unfold add_auth_bytes in E.
    rewrite !length_app, !length_le_bytes in E. cbn in E. lia.
  - subst t. destruct Hs' as (g & Hg & ->). apply (f_equal length) in E. unfold add_auth_bytes in E.
    rewrite !length_app, !length_le_bytes in E. cbn in E. lia.
  - subst. cbn [app] in E. by apply le_bytes_inj in E.
Qed.

Lemma remove_tail_inj p p' t t' (x y : Z) :
  let spec p t := match dr_authentication p with
    | Some a => exists g, decode_hex64 (dr_loft_signature a) = Some g /\ t = remove_auth_bytes a g
    | None => t = [] end in
  spec p t -> spec p' t' ->
  from_option remove_auth_wf True (dr_authentication p) -> from_option remove_auth_wf True (dr_authentication p') ->
  in_uint 64 x -> in_uint 64 y -> t ++ le_bytes 8 x = t' ++ le_bytes 8 y ->
  x = y /\ dr_authentication p = dr_authentication p'.
Proof.
  intros spec Hs Hs' Hw Hw' Hx Hy E. unfold spec in *. clear spec.
  destruct (dr_authentication p) as [a|], (dr_authentication p') as [a'|]; cbn in Hw, Hw'.
  - destruct Hs as (g & Hg & ->), Hs' as (g' & Hg' & ->), Hw as (? & ?), Hw' as (? & ?).
    unfold remove_auth_bytes in E. field_inj_in E. subst g'. split; [done|]. f_equal.
    pose proof (decode_hex_inj _ _ _ _ Hg Hg'). destruct a, a'; cbn in *; congruence.
  - subst t'. destruct Hs as (g & Hg & ->). apply (f_equal length) in E. unfold remove_auth_bytes in E.
    rewrite !length_app, !length_le_bytes in E. cbn in E. lia.
  - subst t. destruct Hs' as (g & Hg & ->). apply (f_equal length) in E. unfold remove_auth_bytes in E.
    rewrite !length_app, !length_le_bytes in E. cbn in E. lia.
  - subst. cbn [app] in E. by apply le_bytes_inj in E.
Qed.

Lemma versioned_ext {T} (v w : Versioned T) :
  v_version v = v_version w -> v_seq v = v_seq w -> v_ts_ms v = v_ts_ms w -> payload v = payload w -> v = w.
Proof. destruct v, w; cbn; congruence. Qed.

Lemma leaf_body_inj e e' t t' (x y : Z) :
  kind e = kind e' -> entry_wf e -> entry_wf e' -> in_uint 64 x -> in_uint 64 y ->
  body_of e t -> body_of e' t' -> t ++ le_bytes 8 x = t' ++ le_bytes 8 y ->
  x = y /\ (entry_version e = entry_version e' -> seq e = seq e' -> ts_ms e = ts_ms e' -> e = e').
Proof.
  intros Hk (_ & _ & Hw) (_ & _ & Hw') Hx Hy H H' E. destruct H, H'; try discriminate Hk.
  - cbn [handle_binding] in H, H3. revert E. simplify_eq. intros E. field_inj_in E. split; [done|]. intros. f_equal.
    apply versioned_ext; try done.
    destruct (payload v), (payload v0); cbn in *; congruence.
  - cbn [handle_binding] in H, H3. revert E. simplify_eq. intros E. field_inj_in E. split; [done|]. intros. f_equal.
    apply versioned_ext; try done.
    destruct (payload v), (payload v0); cbn in *; congruence.
  - destruct Hw as [Hc Hw], Hw' as [Hc' Hw']. rewrite <-!(assoc_L (++)) in E. field_inj_in E.
    destruct (add_tail_inj (payload v) (payload v0) t t0 x y) as [-> ?]; try done. split; [done|].
    intros. f_equal. apply versioned_ext; try done. destruct (payload v), (payload v0); cbn in *; congruence.
  - field_inj_in E.
    destruct (remove_tail_inj (payload v) (payload v0) t t0 x y) as [-> ?]; try done. split; [done|].
    intros. f_equal. apply versioned_ext; try done. destruct (payload v), (payload v0); cbn in *; congruence.
  - destruct Hw as (Hi & ? & ?), Hw' as (Hi' & ? & ?).
    rewrite <-!(assoc_L (++)) in E. apply app_inj_len in E as [-> E];
      [|by rewrite (length_key_id_encode _ _ H), (length_key_id_encode _ _ H1)].
    field_inj_in E. split; [done|]. subst k0.
    pose proof (key_id_encode_inj _ _ _ Hi Hi' H H1). pose proof (decode_hex_inj _ _ _ _ H0 H2).
    apply status_tag_inj in E3 as ?.
    intros. f_equal. apply versioned_ext; try done. destruct (payload v), (payload v0); cbn in *; congruence.
Qed.

(** ** Validity bounds every field *)

Lemma validate_hex32_Ok f s u : validate_hex32 f s = Ok u -> exists v, decode_hex32 s = Some v.
Proof. unfold validate_hex32. intros H. inv_ok. destruct (decode_hex32 s); [eauto|done]. Qed.

Lemma validate_current_Ok ver u : validate_current ver = Ok u -> ver = LOG_ENTRY_VERSION.
Proof. unfold validate_current. by case_bool_decide. Qed.

Lemma hex_field_ok n s v : (n <= 64)%nat -> decode_hex n s = Some v -> field_ok s.
Proof. intros Hn H%length_decode_hex. unfold field_ok. lia. Qed.

Lemma validate_handle_fields h k s ver ts u : validate_handle h k s ver ts = Ok u -> field_ok h /\ field_ok k /\ field_ok s.
Proof.
  unfold validate_handle. intros H. inv_ok. destruct a4 as [ns op]. inv_ok.
  apply validate_hex32_Ok in Ha3 as [v Hv]. apply (hex_field_ok 32) in Hv; [|lia]. b2p.
  unfold field_ok in *. split_and!; try done; lia.
Qed.

Section Valid.
Context {C : Crypto} {UP : UrlParser}.

Lemma validate_endpoint_length s u : validate_endpoint s = Ok u -> field_ok s.
Proof. unfold validate_endpoint. intros H. inv_ok. b2p. unfold field_ok. lia. Qed.

Lemma validate_key_field f s k : validate_ed25519_key f s = Ok k -> field_ok s /\ decode_hex32 s = Some k.
Proof.
  unfold validate_ed25519_key. intros H. inv_ok. apply map_err_Ok, verifying_key_from_bytes_Ok in H as (-> & _).
  split; [|done]. by apply (hex_field_ok 32) in Ha; [|lia].
Qed.

(** What a valid authenticated addition and a valid authenticated removal carry: the loft's signature. *)
Lemma validate_directory_add_Ok v u :
  validate_directory_add v = Ok u ->
  let p := payload v in
  v_version v = LOG_ENTRY_VERSION /\ field_ok (da_endpoint p) /\ field_ok (operator p) /\ capacity_bytes p <> 0 /\
  exists key, field_ok (da_loft_pubkey p) /\ decode_hex32 (da_loft_pubkey p) = Some key /\
  match da_authentication p with
  | None => True
  | Some a => exists g m, decode_hex64 (da_loft_signature a) = Some g /\ capacity_bytes p mod GIB = 0 /\
      directory_add_claim_payload (da_endpoint p) (da_loft_pubkey p) (Some (operator p)) (capacity_bytes p / GIB)
        (retention_days a) (policy_open a) (pow_floor a) (max_event_bytes a) (da_mutation_sequence a) = Ok m /\
      verify_strict key m g = true
  end.
Proof.
  unfold validate_directory_add. cbv zeta. intros H. inv_ok. rename a1 into key.
  apply validate_current_Ok in Ha. apply validate_endpoint_length in Ha0. apply validate_key_field in Ha1 as [? ?].
  split; [done|]. split; [done|].
  assert (field_ok (operator (payload v)) /\ match da_authentication (payload v) with
    | None => True
    | Some a => exists g m, decode_hex64 (da_loft_signature a) = Some g /\ capacity_bytes (payload v) mod GIB = 0 /\
      directory_add_claim_payload (da_endpoint (payload v)) (da_loft_pubkey (payload v)) (Some (operator (payload v)))
        (capacity_bytes (payload v) / GIB)
        (retention_days a) (policy_open a) (pow_floor a) (max_event_bytes a) (da_mutation_sequence a) = Ok m /\
      verify_strict key m g = true
    end) as [Hop Hauth].
  { destruct (da_authentication _) as [au|]; inv_ok; b2p; (split; [unfold field_ok; lia|]); [|done].
    apply map_err_Ok, verify_Ok in H. eexists _, _. split_and!; [eassumption|done| |eassumption].
    rewrite <-Ha7. destruct (operator (payload v)); done. }
  b2p. split_and!; try done. exists key. done.
Qed.

Lemma validate_directory_remove_Ok v u :
  validate_directory_remove v = Ok u ->
  let p := payload v in
  v_version v = LOG_ENTRY_VERSION /\ field_ok (dr_endpoint p) /\ field_ok (reason p) /\
  exists key, field_ok (dr_loft_pubkey p) /\ decode_hex32 (dr_loft_pubkey p) = Some key /\
  match dr_authentication p with
  | None => True
  | Some a => exists g m, decode_hex64 (dr_loft_signature a) = Some g /\
      directory_remove_claim_payload (dr_endpoint p) (drain_after a) (dr_mutation_sequence a) = Ok m /\
      verify_strict key m g = true
  end.
Proof.
  unfold validate_directory_remove. cbv zeta. intros H. inv_ok. rename a1 into key.
  apply validate_current_Ok in Ha. apply validate_endpoint_length in Ha0. apply validate_key_field in Ha1 as [? ?].
  split; [done|]. split; [done|].
  destruct (dr_authentication _) as [au|]; inv_ok; b2p.
  - apply map_err_Ok, verify_Ok in H. split; [|exists key; naive_solver].
    match goal with Hr : reason _ = _ |- _ => rewrite Hr end. by vm_compute.
  - split; [unfold field_ok; lia|]. exists key. done.
Qed.

Lemma entry_validate_version e u : entry_validate e = Ok u ->
  entry_version e = LOG_ENTRY_VERSION \/ entry_version e = LEGACY_LOG_ENTRY_VERSION /\ is_handle_entry e = true.
Proof.
  unfold entry_validate. intros H. inv_ok. apply andb_false_iff in Ha as [Ha|Ha]; b2p; auto.
Qed.
End Valid.

(** * Properties *)

Section Leaves.
Context {C : Crypto} {UP : UrlParser}.

Lemma leaf_body_total out e : entry_version e <> LEGACY_LOG_ENTRY_VERSION -> entry_validate e = Ok tt ->
  exists r, leaf_body out e = Ok r.
Proof.
  intros Hver H. unfold entry_validate in H. inv_ok. destruct e as [v|v|v|v|v]; cbn [leaf_body].
  - apply validate_handle_fields in H as (? & ? & ?). rewrite push_handle_total by done. eauto.
  - apply validate_handle_fields in H as (? & ? & ?). rewrite push_handle_total by done. eauto.
  - apply validate_directory_add_Ok in H as (_ & ? & ? & _ & key & ? & _ & H).
    repeat (rewrite push_field_total by done; cbn [mbind result_bind]).
    destruct (da_authentication _) as [au|]; [|eauto]. destruct H as (g & m & Hg & _). unfold push_add_auth. rewrite Hg.
    cbn [ok_or mbind result_bind]. eauto.
  - apply validate_directory_remove_Ok in H as (_ & ? & ? & key & ? & _ & H).
    repeat (rewrite push_field_total by done; cbn [mbind result_bind]).
    destruct (dr_authentication _) as [au|]; [|eauto]. destruct H as (g & m & Hg & _). unfold push_remove_auth. rewrite Hg.
    cbn [ok_or mbind result_bind]. eauto.
  - unfold validate_compliance in H. inv_ok. apply map_err_Ok in Ha1. apply validate_hex32_Ok in Ha2 as [k Hk].
    unfold key_id_encode. rewrite Ha1, Hk. cbn. eauto.
Qed.

Lemma legacy_leaf_total e : is_handle_entry e = true -> entry_version e = LEGACY_LOG_ENTRY_VERSION ->
  entry_validate e = Ok tt -> exists r, legacy_leaf_bytes e = Ok r.
Proof.
  intros Hh Hver H. unfold entry_validate in H. inv_ok.
  destruct e as [v|v|v|v|v]; try discriminate Hh; unfold legacy_leaf_bytes; cbn [handle_binding ok_or mbind result_bind ts_ms];
    pose proof (validate_handle_fields _ _ _ _ _ _ H) as (? & ? & ?); cbn in Hver; unfold validate_handle in H; inv_ok;
    rewrite Hver, bool_decide_true, andb_true_l in Ha1 by done; rewrite Ha1; cbn [guard mbind result_bind];
    rewrite push_handle_total by done; cbn [mbind result_bind]; eauto.
Qed.

(** A legacy leaf, taken apart. *)
Lemma legacy_leaf_spec e b : legacy_leaf_bytes e = Ok b ->
  ts_ms e mod 1000 = 0 /\ exists t, body_of e t /\
  b = LEGACY_LEAF_DOMAIN ++ [kind_tag (kind e)] ++ le_bytes 8 (seq e) ++ t ++ le_bytes 8 (ts_ms e / 1000).
Proof.
  unfold legacy_leaf_bytes. intros H. apply bind_Ok in H as ([[h k] s] & Hb & H). inv_ok. b2p.
  apply push_handle_Ok in Ha0 as [(? & ? & ?) ->]. split; [done|]. exists (field h ++ field k ++ field s). split.
  - destruct e as [v|v|v|v|v]; try discriminate Hb; by constructor.
  - subst b. by rewrite <-!(assoc_L (++)).
Qed.

Lemma leaf_spec e b : leaf_bytes e = Ok b ->
  entry_version e = LEGACY_LOG_ENTRY_VERSION /\ legacy_leaf_bytes e = Ok b \/
  entry_version e = LOG_ENTRY_VERSION /\ exists t, body_of e t /\
    b = LEAF_DOMAIN ++ [LOG_ENTRY_VERSION; kind_tag (kind e)] ++ le_bytes 8 (seq e) ++ t ++ le_bytes 8 (ts_ms e).
Proof.
  unfold leaf_bytes. intros H. apply bind_Ok in H as (u & Hv & H). apply entry_validate_version in Hv as Hver.
  case_bool_decide as Hl; [by left|right]. destruct Hver as [Hver|[Hver _]]; [|done]. split; [done|].
  inv_ok. apply leaf_body_spec in Ha as (t & Ht & ->). exists t. split; [done|]. subst b. by rewrite <-!(assoc_L (++)).
Qed.

Lemma leaf_bytes_inj e e' b : entry_wf e -> entry_wf e' -> leaf_bytes e = Ok b -> leaf_bytes e' = Ok b -> e = e'.
Proof.
  intros Hw Hw' H H'. pose proof Hw as (Hs & Ht & _). pose proof Hw' as (Hs' & Ht' & _).
  apply leaf_spec in H as [[Hv H]|(Hv & t & Hb & ->)]; apply leaf_spec in H' as [[Hv' H']|(Hv' & t' & Hb' & E)].
  - apply legacy_leaf_spec in H as (Hm & t & Hb & ->), H' as (Hm' & t' & Hb' & E). payload_inj E.
    apply kind_tag_inj in E0. unfold in_uint in Ht, Ht'.
    destruct (leaf_body_inj e e' t t' (ts_ms e / 1000) (ts_ms e' / 1000)) as [Ex He];
      try done; [unfold in_uint; dlia..|]. apply He; [congruence|done|dlia].
  - apply legacy_leaf_spec in H as (_ & t & _ & ->). discriminate E.
  - apply legacy_leaf_spec in H' as (_ & t' & _ & E). discriminate E.
  - payload_inj E. apply kind_tag_inj in E1.
    destruct (leaf_body_inj e e' t t' (ts_ms e) (ts_ms e')) as [Ex He]; try done. apply He; congruence.
Qed.

(** The log leaf of an entry says everything about it.  A leaf is produced for exactly the valid entries, with the
    validation's own error otherwise, and two entries with one leaf are the same entry: kinds, versions, optional
    authentication blocks, field boundaries and the two leaf formats cannot be confused. *)
Theorem leaf_bytes_faithful (e e' : LogEntry) (b : bytes) :
  entry_wf e -> entry_wf e' ->
  (forall x, leaf_bytes e = Err x <-> entry_validate e = Err x) /\
  (leaf_bytes e = Ok b -> leaf_bytes e' = Ok b -> e = e').
Proof.
  intros Hw Hw'. split.
  - intros x. unfold leaf_bytes. destruct (entry_validate e) as [[]|y] eqn:Hv; cbn [mbind result_bind];
      [|split; by intros [= ->]].
    split; [|done]. pose proof (entry_validate_version e tt Hv) as Hver. case_bool_decide as Hl.
    + destruct Hver as [Hver|[_ Hh]]; [by rewrite Hl in Hver|]. destruct (legacy_leaf_total e Hh Hl Hv) as [r ->]. done.
    + destruct (leaf_body_total (LEAF_DOMAIN ++ [LOG_ENTRY_VERSION; kind_tag (kind e)] ++ le_bytes 8 (seq e)) e Hl Hv) as [r ->].
      done.
  - by apply leaf_bytes_inj.
Qed.

(** ** What the loft signed *)

(** The message an authenticated directory entry carries a signature on, and the key it names. *)
Definition directory_claim (e : LogEntry) : option (str * bytes * str) :=
  match e with
  | EDirectoryAdd v =>
      let p := payload v in
      a ← da_authentication p;
      m ← ok (directory_add_claim_payload (da_endpoint p) (da_loft_pubkey p) (Some (operator p)) (capacity_bytes p / GIB)
                (retention_days a) (policy_open a) (pow_floor a) (max_event_bytes a) (da_mutation_sequence a));
      Some (da_loft_pubkey p, m, da_loft_signature a)
  | EDirectoryRemove v =>
      let p := payload v in
      a ← dr_authentication p;
      m ← ok (directory_remove_claim_payload (dr_endpoint p) (drain_after a) (dr_mutation_sequence a));
      Some (dr_loft_pubkey p, m, dr_loft_signature a)
  | _ => None
  end.

(** Two entries make the same statement: all but position, time and signature, and for a removal the key. *)
Definition same_statement (e e' : LogEntry) : Prop :=
  match e, e' with
  | EDirectoryAdd v, EDirectoryAdd v' =>
      let '(p, q) := (payload v, payload v') in
      (da_endpoint p, da_loft_pubkey p, operator p, capacity_bytes p) = (da_endpoint q, da_loft_pubkey q, operator q, capacity_bytes q) /\
      option_map (fun a => (retention_days a, policy_open a, pow_floor a, max_event_bytes a, da_mutation_sequence a)) (da_authentication p)
      = option_map (fun a => (retention_days a, policy_open a, pow_floor a, max_event_bytes a, da_mutation_sequence a)) (da_authentication q)
  | EDirectoryRemove v, EDirectoryRemove v' =>
      let '(p, q) := (payload v, payload v') in
      dr_endpoint p = dr_endpoint q /\
      option_map (fun a => (drain_after a, dr_mutation_sequence a)) (dr_authentication p)
      = option_map (fun a => (drain_after a, dr_mutation_sequence a)) (dr_authentication q)
  | _, _ => False
  end.

Lemma add_payload_Ok ep k op c r po pf me ms m :
  directory_add_claim_payload ep k (Some op) c r po pf me ms = Ok m ->
  field_ok ep /\ field_ok k /\ field_ok op /\
  m = (if ms =? 0 then SIG_DOMAIN_DIRECTORY_ENTRY_V1 else SIG_DOMAIN_DIRECTORY_ENTRY_V2)
      ++ field ep ++ field k ++ field op ++ le_bytes 8 c ++ le_bytes 8 r ++ [bool_byte po] ++ le_bytes 4 pf
      ++ le_bytes 8 me ++ (if ms =? 0 then [] else le_bytes 8 ms).
Proof.
  unfold directory_add_claim_payload. cbn [default]. intros H. inv_ok.
  apply push_field_Ok in Ha as [? ->], Ha0 as [? ->], Ha1 as [? ->]. split_and!; try done. subst m.
  destruct (ms =? 0); cbn [negb]; rewrite <-!(assoc_L (++)), ?app_nil_r; done.
Qed.

Lemma remove_payload_Ok ep d ms m :
  directory_remove_claim_payload ep d ms = Ok m ->
  field_ok ep /\ m = SIG_DOMAIN_DIRECTORY_DRAIN_V1 ++ field ep ++ le_bytes 8 d ++ le_bytes 8 ms.
Proof.
  unfold directory_remove_claim_payload. intros H. inv_ok. apply push_field_Ok in Ha as [? ->]. split; [done|].
  subst m. by rewrite <-!(assoc_L (++)).
Qed.

Lemma ok_Some {E A} (r : result E A) a : ok r = Some a <-> r = Ok a.
Proof. destruct r; cbn; split; congruence. Qed.

Lemma directory_claim_add v k m g : directory_claim (EDirectoryAdd v) = Some (k, m, g) ->
  exists a, da_authentication (payload v) = Some a /\ k = da_loft_pubkey (payload v) /\ g = da_loft_signature a /\
  directory_add_claim_payload (da_endpoint (payload v)) (da_loft_pubkey (payload v)) (Some (operator (payload v)))
    (capacity_bytes (payload v) / GIB) (retention_days a) (policy_open a) (pow_floor a) (max_event_bytes a)
    (da_mutation_sequence a) = Ok m.
Proof.
  cbn [directory_claim]. intros (a & Ha & H)%bind_Some. apply bind_Some in H as (m' & Hm%ok_Some & H).
  simplify_eq. eauto.
Qed.

Lemma directory_claim_remove v k m g : directory_claim (EDirectoryRemove v) = Some (k, m, g) ->
  exists a, dr_authentication (payload v) = Some a /\ k = dr_loft_pubkey (payload v) /\ g = dr_loft_signature a /\
  directory_remove_claim_payload (dr_endpoint (payload v)) (drain_after a) (dr_mutation_sequence a) = Ok m.
Proof.
  cbn [directory_claim]. intros (a & Ha & H)%bind_Some. apply bind_Some in H as (m' & Hm%ok_Some & H).
  simplify_eq. eauto.
Qed.

Lemma directory_claim_signed e k m g : entry_validate e = Ok tt -> directory_claim e = Some (k, m, g) ->
  exists key signature, decode_hex32 k = Some key /\ decode_hex64 g = Some signature /\ verify_strict key m signature = true.
Proof.
  intros H Hc. unfold entry_validate in H. inv_ok. destruct e as [v|v|v|v|v]; try discriminate Hc.
  - apply directory_claim_add in Hc as (a' & Ea & -> & -> & Hm).
    apply validate_directory_add_Ok in H as (_ & _ & _ & _ & key & _ & Hk & H). rewrite Ea in H.
    destruct H as (s & m' & Hs & _ & Hm' & Hver). rewrite Hm in Hm'. injection Hm' as <-. eauto.
  - apply directory_claim_remove in Hc as (a' & Ea & -> & -> & Hm).
    apply validate_directory_remove_Ok in H as (_ & _ & _ & key & _ & Hk & H). rewrite Ea in H.
    destruct H as (s & m' & Hs & Hm' & Hver). rewrite Hm in Hm'. injection Hm' as <-. eauto.
Qed.

Lemma capacity_whole v a : entry_validate (EDirectoryAdd v) = Ok tt -> da_authentication (payload v) = Some a ->
  capacity_bytes (payload v) mod GIB = 0.
Proof.
  intros H Ha. unfold entry_validate in H. inv_ok.
  apply validate_directory_add_Ok in H as (_ & _ & _ & _ & key & _ & _ & H). rewrite Ha in H.
  by destruct H as (_ & _ & _ & ? & _).
Qed.

(** The message of an addition determines it, whichever of the two domains it is in. *)
Lemma add_payload_inj ep k op c r po pf me ms ep' k' op' c' r' po' pf' me' ms' m :
  in_uint 64 c -> in_uint 64 c' -> in_uint 64 r -> in_uint 64 r' -> in_uint 32 pf -> in_uint 32 pf' ->
  in_uint 64 me -> in_uint 64 me' -> in_uint 64 ms -> in_uint 64 ms' ->
  directory_add_claim_payload ep k (Some op) c r po pf me ms = Ok m ->
  directory_add_claim_payload ep' k' (Some op') c' r' po' pf' me' ms' = Ok m ->
  (ep, k, op, c) = (ep', k', op', c') /\ (r, po, pf, me, ms) = (r', po', pf', me', ms').
Proof.
  intros ? ? ? ? ? ? ? ? ? ? (? & ? & ? & ->)%add_payload_Ok (? & ? & ? & E)%add_payload_Ok.
  destruct (Z.eqb_spec ms 0) as [->|Hms], (Z.eqb_spec ms' 0) as [->|Hms'];
    try (exfalso; by apply domain_sep in E);
    field_inj_in E; subst; done.
Qed.

(** A directory entry speaks for the loft.  A valid authenticated addition or removal carries a
    signature, under the key it names, on a message that determines what the entry says: no other valid addition
    or removal (another endpoint, capacity, policy, mutation number, or the opposite act) fits the same signature. *)
Theorem directory_claim_binds (e e' : LogEntry) (k m g k' g' : bytes) :
  entry_wf e -> entry_wf e' -> entry_validate e = Ok tt -> entry_validate e' = Ok tt ->
  directory_claim e = Some (k, m, g) -> directory_claim e' = Some (k', m, g') ->
  (exists key signature, decode_hex32 k = Some key /\ decode_hex64 g = Some signature /\
     verify_strict key m signature = true) /\
  same_statement e e'.
Proof.
  intros (_ & _ & Hw) (_ & _ & Hw') Hv Hv' Hc Hc'. split; [by apply (directory_claim_signed e)|].
  destruct e as [v|v|v|v|v]; try discriminate Hc; destruct e' as [v'|v'|v'|v'|v']; try discriminate Hc'; cbn [same_statement].
  - apply directory_claim_add in Hc as (a & Ea & _ & _ & Hm), Hc' as (a' & Ea' & _ & _ & Hm').
    pose proof (capacity_whole v a Hv Ea) as Hg. pose proof (capacity_whole v' a' Hv' Ea') as Hg'.
    rewrite Ea in Hw |- *. rewrite Ea' in Hw' |- *. destruct Hw as (Hcw & ? & ? & ? & ?), Hw' as (Hcw' & ? & ? & ? & ?).
    unfold in_uint, GIB in *. eapply add_payload_inj in Hm' as [E1 E2]; [..|exact Hm]; try (unfold in_uint; dlia).
    cbn [option_map]. rewrite E2. split; [|done]. injection E1 as -> -> -> Ec.
    by assert (capacity_bytes (payload v) = capacity_bytes (payload v')) as -> by dlia.
  - apply directory_claim_add in Hc as (a & _ & _ & _ & (_ & _ & _ & ->)%add_payload_Ok).
    apply directory_claim_remove in Hc' as (a' & _ & _ & _ & [_ E]%remove_payload_Ok).
    exfalso. revert E. case_match; by apply domain_sep.
  - apply directory_claim_remove in Hc as (a & _ & _ & _ & [_ ->]%remove_payload_Ok).
    apply directory_claim_add in Hc' as (a' & _ & _ & _ & (_ & _ & _ & E)%add_payload_Ok).
    exfalso. revert E. case_match; by apply domain_sep.
  - apply directory_claim_remove in Hc as (a & Ea & _ & _ & [? ->]%remove_payload_Ok).
    apply directory_claim_remove in Hc' as (a' & Ea' & _ & _ & [? E]%remove_payload_Ok).
    rewrite Ea in Hw |- *. rewrite Ea' in Hw' |- *. destruct Hw, Hw'. field_inj_in E. cbn. split; congruence.
Qed.

Context {CL : CryptoLaws}.

Lemma own_key_valid id f : validate_ed25519_key f (hex_of (vec_to_list (verifying_key id))) = Ok (verifying_key id).
Proof.
  unfold validate_ed25519_key, decode_hex32. rewrite (proj2 (decode_hex_iff 32 _ (verifying_key id)) eq_refl).
  cbn [ok_or mbind result_bind]. by rewrite own_key_decodes.
Qed.

Lemma key_field_ok (k : arr 32) : field_ok (hex_of (vec_to_list k)).
Proof. apply (hex_field_ok 32 _ k); [lia|]. by apply decode_hex_iff. Qed.

Lemma current_leaf e : entry_version e = LOG_ENTRY_VERSION -> entry_validate e = Ok tt -> exists b, leaf_bytes e = Ok b.
Proof.
  intros Hver Hv. unfold leaf_bytes. rewrite Hv, Hver. cbn [mbind result_bind]. rewrite bool_decide_false by done.
  destruct (leaf_body_total (LEAF_DOMAIN ++ [LOG_ENTRY_VERSION; kind_tag (kind e)] ++ le_bytes 8 (seq e)) e) as [r Hr];
    [by rewrite Hver|done|]. rewrite Hr. eexists. reflexivity.
Qed.

Lemma own_add_valid id endpoint op gb ret pf me ms sq ts po m :
  validate_endpoint endpoint = Ok tt -> (length op <= 256)%nat -> existsb is_ascii_control op = false ->
  0 < gb -> 0 < ret -> 0 < me <= 2 * 1024 * 1024 ->
  let key := hex_of (vec_to_list (verifying_key id)) in
  directory_add_claim_payload endpoint key (Some op) gb ret po pf me ms = Ok m ->
  entry_validate (directory_add sq
    {| da_endpoint := endpoint; da_loft_pubkey := key; operator := op; capacity_bytes := gb * GIB;
       da_authentication := Some {| da_version := DIRECTORY_AUTH_VERSION; retention_days := ret; policy_open := po;
         pow_floor := pf; max_event_bytes := me; da_mutation_sequence := ms;
         da_loft_signature := hex_of (vec_to_list (sign id m)) |} |} ts) = Ok tt.
Proof.
  intros He Hop Hctl Hgb Hret Hme key Hm. subst key. unfold entry_validate. cbn [entry_version directory_add v_version].
  rewrite bool_decide_true by done. cbn [negb andb guard mbind result_bind].
  unfold validate_directory_add, validate_current. cbn [payload v_version]. rewrite (bool_decide_true (LOG_ENTRY_VERSION = _)) by done.
  cbn [mbind result_bind da_endpoint da_loft_pubkey capacity_bytes da_authentication operator].
  rewrite He. cbn [mbind result_bind]. rewrite own_key_valid. cbn [mbind result_bind].
  replace (gb * GIB =? 0) with false by (symmetry; apply Z.eqb_neq; unfold GIB; lia).
  cbn [guard mbind result_bind da_version]. rewrite (bool_decide_true (DIRECTORY_AUTH_VERSION = _)) by done. cbn [negb guard mbind result_bind].
  rewrite (proj2 (Nat.ltb_ge 256 (length op))), Hctl by done. cbn [orb guard mbind result_bind].
  rewrite Z.mod_mul, Z.div_mul by done. change (0 =? 0) with true.
  cbn [negb guard mbind result_bind retention_days max_event_bytes].
  rewrite (proj2 (Z.eqb_neq ret 0)), (proj2 (Z.eqb_neq me 0)), (proj2 (Z.ltb_ge _ me)) by lia.
  cbn [orb guard mbind result_bind da_loft_signature]. unfold decode_hex64.
  rewrite (proj2 (decode_hex_iff 64 _ (sign id m)) eq_refl). cbn [ok_or mbind result_bind policy_open pow_floor da_mutation_sequence].
  replace (directory_add_claim_payload _ _ _ _ _ _ _ _ _) with (Ok (E := EntryError) m) by (rewrite <-Hm; by destruct op).
  cbn [mbind result_bind]. by rewrite verify_sign.
Qed.

Lemma own_remove_valid id endpoint drain ms sq ts m :
  validate_endpoint endpoint = Ok tt -> directory_remove_claim_payload endpoint drain ms = Ok m ->
  entry_validate (directory_remove sq (remove_authenticated endpoint (hex_of (vec_to_list (verifying_key id))) drain ms
                                         (hex_of (vec_to_list (sign id m)))) ts) = Ok tt.
Proof.
  intros He Hm. unfold entry_validate. cbn [entry_version directory_remove v_version].
  rewrite bool_decide_true by done. cbn [negb andb guard mbind result_bind].
  unfold validate_directory_remove, validate_current. cbn [payload v_version]. rewrite (bool_decide_true (LOG_ENTRY_VERSION = _)) by done.
  unfold remove_authenticated. cbn [mbind result_bind dr_endpoint dr_loft_pubkey dr_authentication].
  rewrite He. cbn [mbind result_bind]. rewrite own_key_valid. cbn [mbind result_bind dr_version reason].
  rewrite (bool_decide_true (DIRECTORY_AUTH_VERSION = _)), (bool_decide_true (lit _ = _)) by done.
  cbn [negb orb guard mbind result_bind dr_loft_signature].
  unfold decode_hex64. rewrite (proj2 (decode_hex_iff 64 _ (sign id m)) eq_refl).
  cbn [ok_or mbind result_bind drain_after dr_mutation_sequence]. rewrite Hm. cbn [mbind result_bind]. by rewrite verify_sign.
Qed.

(** What a loft signs is accepted.  For a well-formed public endpoint, an addition assembled with the
    loft's signature on its claim payload yields a leaf, whatever position and time the registry gives it; so does a
    removal. *)
Theorem directory_issue_accepted (id : Identity) (endpoint op : str) (gb ret pf me ms drain sq ts : Z) (po : bool) :
  validate_endpoint endpoint = Ok tt -> (length op <= 256)%nat -> existsb is_ascii_control op = false ->
  0 < gb -> gb * GIB < 2 ^ 64 -> 0 < ret -> 0 < me <= 2 * 1024 * 1024 ->
  let key := hex_of (vec_to_list (verifying_key id)) in
  (exists m p b,
     directory_add_claim_payload endpoint key (Some op) gb ret po pf me ms = Ok m /\
     add_authenticated endpoint key (Some op) gb ret po pf me ms (hex_of (vec_to_list (sign id m))) = Ok p /\
     leaf_bytes (directory_add sq p ts) = Ok b) /\
  (exists m b,
     directory_remove_claim_payload endpoint drain ms = Ok m /\
     leaf_bytes (directory_remove sq (remove_authenticated endpoint key drain ms (hex_of (vec_to_list (sign id m)))) ts)
       = Ok b).
Proof.
  intros He Hop Hctl Hgb Hover Hret Hme key. pose proof (validate_endpoint_length _ _ He) as Hel.
  pose proof (key_field_ok (verifying_key id)) as Hkl. fold key in Hkl. split.
  - assert (exists m, directory_add_claim_payload endpoint key (Some op) gb ret po pf me ms = Ok m) as [m Hm].
    { unfold directory_add_claim_payload. change (default [] (Some op)) with op.
      do 3 (rewrite push_field_total by (done || (unfold field_ok; lia)); cbn [mbind result_bind]). eauto. }
    exists m. unfold add_authenticated, checked_mul. rewrite (proj2 (Z.ltb_lt _ _) Hover). cbn [ok_or mbind result_bind].
    edestruct current_leaf as [b Hb]; [|by apply (own_add_valid id endpoint op gb ret pf me ms sq ts po m)|]; [done|]. eauto.
  - assert (exists m, directory_remove_claim_payload endpoint drain ms = Ok m) as [m Hm].
    { unfold directory_remove_claim_payload. rewrite push_field_total by done. cbn [mbind result_bind]. eauto. }
    edestruct current_leaf as [b Hb]; [|by apply (own_remove_valid id endpoint drain ms sq ts m)|]; [done|]. eauto.
Qed.
End Leaves.

(** * Witnesses *)

Section Witnesses.
#[local] Existing Instance toy_crypto.
#[local] Existing Instance toy_laws.
#[local] Existing Instance toy_url_parser.

Definition demo_key : Identity := from_seed (vreplicate 32 x07).
Definition demo_key_hex : str := hex_of (vec_to_list (verifying_key demo_key)).
Definition demo_claim (sq : Z) : LogEntry := entry_handle_claim sq (lit "/github/ada") demo_key_hex (lit "github:1815") 5.
Definition demo_endpoint : str := lit "https://loft.example".

Definition demo_message : bytes :=
  match directory_remove_claim_payload demo_endpoint 9 2 with Ok m => m | Err _ => [] end.
Definition demo_remove (sq : Z) : LogEntry :=
  directory_remove sq (remove_authenticated demo_endpoint demo_key_hex 9 2 (hex_of (vec_to_list (sign demo_key demo_message)))) 5.

Lemma leaf_bytes_faithful_witness :
  exists b, leaf_bytes (demo_claim 3) = Ok b /\ leaf_bytes (demo_claim 4) <> Ok b.
Proof.
  assert (entry_wf (demo_claim 3) /\ entry_wf (demo_claim 4)) as [H3 H4] by (unfold entry_wf, in_uint; cbn; lia).
  eexists. split; [vm_compute; reflexivity|]. intros H.
  pose proof (proj2 (leaf_bytes_faithful (demo_claim 3) (demo_claim 4) _ H3 H4) eq_refl H) as E. discriminate E.
Defined.

Lemma directory_claim_binds_witness :
  exists key signature, decode_hex32 demo_key_hex = Some key /\ verify_strict key demo_message signature = true.
Proof.
  assert (forall sq, 0 <= sq < 9 -> entry_wf (demo_remove sq)) as Hwf
    by (intros; unfold entry_wf, in_uint, remove_auth_wf; cbn; unfold in_uint; lia).
  destruct (directory_claim_binds (demo_remove 0) (demo_remove 1) demo_key_hex demo_message
    (hex_of (vec_to_list (sign demo_key demo_message))) demo_key_hex (hex_of (vec_to_list (sign demo_key demo_message))))
    as [(key & g & Hk & _ & Hv) _];
    [apply Hwf; lia|apply Hwf; lia|vm_compute; reflexivity|vm_compute; reflexivity|vm_compute; reflexivity
    |vm_compute; reflexivity|].
  exists key, g. split; assumption.
Defined.

Lemma directory_issue_accepted_witness :
  exists m p b,
    directory_add_claim_payload demo_endpoint demo_key_hex (Some (lit "ada")) 100 30 true 0 65536 1 = Ok m /\
    add_authenticated demo_endpoint demo_key_hex (Some (lit "ada")) 100 30 true 0 65536 1
      (hex_of (vec_to_list (sign demo_key m))) = Ok p /\
    leaf_bytes (directory_add 7 p 5) = Ok b.
Proof.
  apply (directory_issue_accepted demo_key demo_endpoint (lit "ada") 100 30 0 65536 1 0 7 5 true);
    [vm_compute; reflexivity|vm_compute; lia|reflexivity|lia|vm_compute; reflexivity|lia|lia].
Defined.
End Witnesses.
