(* ===== verification/Checkpoint.v ===== *)
(** Signed tree heads in the C2SP note format: [pigeonpost-registry/src/checkpoint.rs].  Operator signatures,
    timestamped witness cosignatures, and the witness policy clients check. *)
From stdpp Require Import sorting.
From S2P Require Import Prelude Text B32 Crypto Compliance Handle Entry B64.

Definition ALG_ED25519 : byte := x01.
Definition ALG_ED25519_COSIGNATURE : byte := x04.
Definition I64_MAX : Z := 2 ^ 63 - 1.

Definition witness_quorum_intersects (threshold witness_count : nat) : bool :=
  negb (threshold =? 0)%nat && (threshold <=? witness_count)%nat && (witness_count / 2 <? threshold)%nat.

Record Checkpoint := { cp_origin : str; cp_size : Z; cp_root : arr 32 }.
Record WitnessKey := MkWitnessKey { w_name : str; w_key : VerifyingKey }.
Record VerifiedCheckpoint := { vc_checkpoint : Checkpoint; witnessed_at : option Z }.

#[global] Instance Checkpoint_eq_dec : EqDecision Checkpoint.
Proof. solve_decision. Defined.
#[global] Instance WitnessKey_eq_dec : EqDecision WitnessKey.
Proof. solve_decision. Defined.
#[global] Instance VerifiedCheckpoint_eq_dec : EqDecision VerifiedCheckpoint.
Proof. solve_decision. Defined.

Definition is_ascii_whitespace (b : byte) : bool :=
  (b ≟ x20) || (b ≟ x09) || (b ≟ x0a) || (b ≟ x0c) || (b ≟ x0d).

(** The dash and space that open a signature line. *)
Definition DASH : str := [xe2; x80; x94; x20].
Definition SP : byte := x20.

Definition malformed {A} (why : string) : result RegistryError A := Err (MalformedCheckpoint why).

Definition checkpoint_body (c : Checkpoint) : str :=
  cp_origin c ++ [NL] ++ decimal (cp_size c) ++ [NL] ++ b64 (vec_to_list (cp_root c)) ++ [NL].

(** What a witness signs for the body [body] (without its last newline) at time [timestamp]. *)
Definition cosignature_message (timestamp : Z) (body : str) : bytes :=
  lit "cosignature/v1" ++ [NL] ++ lit "time " ++ decimal timestamp ++ [NL] ++ body ++ [NL].

Section Checkpoint.
Context {C : Crypto}.

Definition witness_new (name : str) (key : VerifyingKey) : result RegistryError WitnessKey :=
  _ ← guard ((name ≟ []) || (256 <? length name)%nat
             || existsb (fun b => is_ascii_control b || is_ascii_whitespace b) name)
        (MalformedCheckpoint "witness name is malformed");
  _ ← guard (vk_is_weak key) (InvalidConfiguration "invalid registry witness key");
  Ok (MkWitnessKey name key).

Definition key_hash (origin : str) (key : VerifyingKey) : bytes :=
  take 4 (vec_to_list (sha256 (origin ++ [NL] ++ [ALG_ED25519] ++ vec_to_list key))).
Definition cosignature_key_hash (name : str) (key : VerifyingKey) : bytes :=
  take 4 (vec_to_list (sha256 (name ++ [NL] ++ [ALG_ED25519_COSIGNATURE] ++ vec_to_list key))).

Definition checkpoint_sign (c : Checkpoint) (key : Identity) : str :=
  let body := checkpoint_body c in
  let signature := sign key body in
  let blob := key_hash (cp_origin c) (verifying_key key) ++ vec_to_list signature in
  body ++ [NL] ++ DASH ++ cp_origin c ++ [SP] ++ b64 blob ++ [NL].

Definition cosignature_line (c : Checkpoint) (witness_name : str) (witness_key : Identity) (timestamp : Z)
  : result RegistryError str :=
  _ ← witness_new witness_name (verifying_key witness_key);
  _ ← guard (I64_MAX <? timestamp) (MalformedCheckpoint "cosignature timestamp exceeds the C2SP limit");
  let message := lit "cosignature/v1" ++ [NL] ++ lit "time " ++ decimal timestamp ++ [NL] ++ checkpoint_body c in
  let signature := sign witness_key message in
  let blob := cosignature_key_hash witness_name (verifying_key witness_key) ++ be_bytes 8 timestamp ++ vec_to_list signature in
  Ok (DASH ++ witness_name ++ [SP] ++ b64 blob ++ [NL]).

(** The blob of a signature line [— <name> <base64>] for the expected name, whose length and key hash match. *)
Definition line_blob (line expected_name : str) (len : nat) (expected_keyhash : bytes) : option bytes :=
  rest ← strip_prefix DASH line;
  '(name, encoded) ← split_once SP rest;
  if negb (name ≟ expected_name) || contains_byte SP encoded then None
  else
    blob ← unb64 encoded;
    if negb (length blob =? len)%nat || negb (take 4 blob ≟ expected_keyhash) then None else Some blob.

Definition signature_line_valid (body expected_name : str) (key : VerifyingKey) (line : str) : bool :=
  match line_blob line expected_name (4 + 64) (key_hash expected_name key) with
  | None => false
  | Some blob => verify_strict key (body ++ [NL]) (take_arr 64 (drop 4 blob))
  end.

Definition has_valid_signature (body signatures expected_name : str) (key : VerifyingKey) : bool :=
  existsb (signature_line_valid body expected_name key) (lines signatures).

Definition cosignature_time (body expected_name : str) (key : VerifyingKey) (freshness : option (Z * Z * Z)) (line : str)
  : option Z :=
  blob ← line_blob line expected_name (4 + 8 + 64) (cosignature_key_hash expected_name key);
  let timestamp := from_be_bytes (slice 4 12 blob) in
  if I64_MAX <? timestamp then None
  else if match freshness with
          | Some (now, max_age, future_skew) =>
              (saturating_add 64 now future_skew <? timestamp) || (timestamp <? saturating_sub now max_age)
          | None => false
          end then None
  else if verify_strict key (cosignature_message timestamp body) (take_arr 64 (drop 12 blob)) then Some timestamp
  else None.

(** [Iterator::max] *)
Definition max_of (l : list Z) : option Z :=
  fold_left (fun acc x => Some (match acc with Some m => Z.max m x | None => x end)) l None.

Definition newest_valid_cosignature (body signatures expected_name : str) (key : VerifyingKey)
  (freshness : option (Z * Z * Z)) : option Z :=
  max_of (omap (cosignature_time body expected_name key freshness) (lines signatures)).

Definition checkpoint_verify (text : str) (key : VerifyingKey) : result RegistryError Checkpoint :=
  _ ← guard (64 * 1024 <? Z.of_nat (length text)) (MalformedCheckpoint "checkpoint exceeds 64 KiB");
  '(body, signatures) ← ok_or (split_once_str [NL; NL] text) (MalformedCheckpoint "missing signature block");
  '(origin, rest) ← match lines body with o :: r => Ok (o, r) | [] => malformed "no origin" end;
  '(size_text, rest) ← match rest with s :: r => Ok (s, r) | [] => malformed "no size" end;
  size ← ok_or (parse_uint 64 size_text) (MalformedCheckpoint "size is not a number");
  '(root_b64, rest) ← match rest with s :: r => Ok (s, r) | [] => malformed "no root" end;
  _ ← guard (negb (rest ≟ [])) (MalformedCheckpoint "checkpoint body has extra fields");
  root ← ok_or (unb64 root_b64 ≫= arr_of_list 32) (MalformedCheckpoint "root is not 32 bytes");
  _ ← guard (negb (has_valid_signature body signatures origin key))
        (MalformedCheckpoint "no valid signature from the expected key");
  Ok {| cp_origin := origin; cp_size := size; cp_root := root |}.

(** The loop over [witnesses[..index]]. *)
Fixpoint duplicate_witness (prior witnesses : list WitnessKey) : bool :=
  match witnesses with
  | [] => false
  | w :: ws =>
      existsb (fun p => (w_name p ≟ w_name w) || (w_key p ≟ w_key w)) prior || duplicate_witness (prior ++ [w]) ws
  end.

(** [sort_unstable_by(|left, right| right.cmp(left))]: equal timestamps are indistinguishable. *)
Definition sort_newest_first (l : list Z) : list Z := merge_sort (flip Z.le) l.

Definition verify_witness_policy (text : str) (registry_key : VerifyingKey) (witnesses : list WitnessKey)
  (threshold : nat) (freshness : option (Z * Z * Z)) : result RegistryError VerifiedCheckpoint :=
  _ ← guard (negb (threshold =? 0)%nat && negb (witness_quorum_intersects threshold (length witnesses)))
        (MalformedCheckpoint "witness threshold does not guarantee quorum intersection");
  _ ← guard (duplicate_witness [] witnesses) (MalformedCheckpoint "duplicate witness configuration");
  checkpoint ← checkpoint_verify text registry_key;
  if (threshold =? 0)%nat then Ok {| vc_checkpoint := checkpoint; witnessed_at := None |}
  else
    '(body, signatures) ← ok_or (split_once_str [NL; NL] text) (MalformedCheckpoint "missing signature block");
    let verified := omap (fun w => newest_valid_cosignature body signatures (w_name w) (w_key w) freshness) witnesses in
    _ ← guard (length verified <? threshold)%nat (MalformedCheckpoint "fresh witness cosignature threshold not met");
    Ok {| vc_checkpoint := checkpoint;
          witnessed_at := Some (nth (threshold - 1) (sort_newest_first verified) 0) |}.

Definition verify_with_witnesses (text : str) (registry_key : VerifyingKey) (witnesses : list WitnessKey)
  (threshold : nat) : result RegistryError Checkpoint :=
  v ← verify_witness_policy text registry_key witnesses threshold None;
  Ok (vc_checkpoint v).

Definition verify_with_fresh_witnesses (text : str) (registry_key : VerifyingKey) (witnesses : list WitnessKey)
  (threshold : nat) (now_secs max_age_secs future_skew_secs : Z) : result RegistryError VerifiedCheckpoint :=
  _ ← guard ((I64_MAX <? now_secs) || (max_age_secs =? 0) || (max_age_secs <? future_skew_secs))
        (MalformedCheckpoint "invalid witness freshness policy");
  verify_witness_policy text registry_key witnesses threshold (Some (now_secs, max_age_secs, future_skew_secs)).
End Checkpoint.

(** * Lemmas *)

Lemma b64_no_space bs : SP ∉ b64 bs /\ NL ∉ b64 bs /\ x0d ∉ b64 bs.
Proof.
  pose proof (b64_text bs) as H. rewrite forallb_forall in H.
  split_and!; intros Hin%list_elem_of_In; apply H in Hin; discriminate Hin.
Qed.

Lemma max_of_snoc l x : max_of (l ++ [x]) = Some (match max_of l with Some m => Z.max m x | None => x end).
Proof. unfold max_of. by rewrite fold_left_app. Qed.

Lemma max_of_spec l :
  match max_of l with
  | Some m => m ∈ l /\ forall x, x ∈ l -> x <= m
  | None => l = []
  end.
Proof.
  induction l as [|x l IH] using rev_ind; [done|]. rewrite max_of_snoc.
  destruct (max_of l) as [m|].
  - destruct IH as [Hm Hle]. split; [|intros y; rewrite elem_of_app, list_elem_of_singleton; intros [Hy| ->]; [specialize (Hle y Hy)|]; lia].
    destruct (Z.max_spec m x) as [[_ ->]|[_ ->]]; rewrite elem_of_app, ?list_elem_of_singleton; auto.
  - subst l. cbn [app]. split; [by apply list_elem_of_singleton|]. intros y ->%list_elem_of_singleton. lia.
Qed.

Lemma filter_all {A} (P : A -> Prop) `{forall x, Decision (P x)} (l : list A) : (forall x, x ∈ l -> P x) -> filter P l = l.
Proof.
  induction l as [|x l IH]; intros HP; [done|]. rewrite filter_cons_True by (apply HP; set_solver).
  f_equal. apply IH. set_solver.
Qed.

(** The newest-first sort puts, at place [n], an element that at least [n + 1] elements reach. *)
Lemma sort_newest_count (l : list Z) (n : nat) : (n < length l)%nat ->
  (S n <= length (filter (fun x => (nth n (sort_newest_first l) 0 <= x)%Z) l))%nat.
Proof.
  intros Hn. unfold sort_newest_first. pose proof (merge_sort_Permutation (flip Z.le) l) as HP.
  assert (Total (flip Z.le)) as HT by (intros x y; unfold flip; lia).
  assert (Transitive (flip Z.le)) as HTr by (intros x y z; unfold flip; lia).
  pose proof (StronglySorted_merge_sort (flip Z.le) l) as HS. set (s := merge_sort (flip Z.le) l) in *.
  assert (length s = length l) as Hlen by by rewrite HP.
  set (v := nth n s 0). rewrite <-HP.
  assert (s !! n = Some v) as Hv. { unfold v. rewrite nth_lookup. destruct (s !! n) eqn:E; [done|]. apply lookup_ge_None in E. lia. }
  pose proof (take_drop_middle s n v Hv) as Hs. rewrite <-Hs in HS. apply StronglySorted_app in HS as (Hle & _ & _).
  rewrite <-Hs at 1. rewrite filter_app, filter_cons_True by (unfold v; lia).
  rewrite length_app. cbn [length].
  assert (filter (fun x => v <= x) (take n s) = take n s) as ->.
  { apply filter_all. intros x Hx. specialize (Hle x v Hx ltac:(set_solver)). unfold flip in Hle. lia. }
  rewrite length_take. lia.
Qed.

Lemma line_blob_Some line name len kh blob :
  line_blob line name len kh = Some blob <->
  SP ∉ name /\ line = DASH ++ name ++ SP :: b64 blob /\ length blob = len /\ take 4 blob = kh.
Proof.
  unfold line_blob. split.
  - intros (rest & Hr%strip_prefix_Some & H)%bind_Some. apply bind_Some in H as ([n enc] & Hs%split_once_Some & H).
    destruct Hs as [-> Hn]. destruct (_ || _)%bool eqn:E; [done|]. b2p. subst n.
    apply bind_Some in H as (b & Hb%unb64_iff & H). subst enc. destruct (_ || _)%bool eqn:E; [done|]. b2p.
    simplify_eq. done.
  - intros (Hn & -> & Hl & Hk). rewrite strip_prefix_app. cbn [mbind option_bind].
    rewrite (proj2 (split_once_Some SP _ name (b64 blob))) by done. cbn [mbind option_bind].
    rewrite (bool_decide_true (name = name)) by done. cbn [negb orb].
    replace (contains_byte SP (b64 blob)) with false
      by (symmetry; apply not_true_iff_false; rewrite contains_byte_true; apply b64_no_space).
    rewrite (proj2 (unb64_iff _ blob) eq_refl). cbn [mbind option_bind].
    by rewrite Hl, Hk, Nat.eqb_refl, bool_decide_true.
Qed.

Section Facts.
Context {C : Crypto}.

(** [body] reads as the checkpoint [c]. *)
Definition reads (body : str) (c : Checkpoint) : Prop :=
  exists size_text, lines body = [cp_origin c; size_text; b64 (vec_to_list (cp_root c))] /\
  parse_uint 64 size_text = Some (cp_size c).

(** The holder of [key] cosigned [body] at [timestamp]. *)
Definition cosigned (key : VerifyingKey) (body : str) (timestamp : Z) : Prop :=
  exists signature, verify_strict key (cosignature_message timestamp body) signature = true.

(** The times a freshness policy admits. *)
Definition fresh_at (freshness : option (Z * Z * Z)) (timestamp : Z) : Prop :=
  0 <= timestamp <= I64_MAX /\
  match freshness with
  | Some (now, max_age, future_skew) => now - max_age <= timestamp <= now + future_skew
  | None => True
  end.

Lemma reads_fun body c c' : reads body c -> reads body c' -> c = c'.
Proof.
  intros (s & Hl & Hs) (s' & Hl' & Hs'). rewrite Hl in Hl'. injection Hl' as Ho <- Hr.
  apply b64_inj, vec_to_list_inj2 in Hr. rewrite Hs in Hs'. injection Hs' as Hz. destruct c, c'; cbn in *; congruence.
Qed.

Lemma has_valid_signature_true body sigs name key :
  has_valid_signature body sigs name key = true -> exists g, verify_strict key (body ++ [NL]) g = true.
Proof.
  unfold has_valid_signature. intros (line & _ & H)%existsb_exists. unfold signature_line_valid in H.
  destruct (line_blob _ _ _ _); [eauto|done].
Qed.

Lemma checkpoint_verify_Ok text key c :
  checkpoint_verify text key = Ok c <->
  Z.of_nat (length text) <= 64 * 1024 /\
  exists body sigs, split_once_str [NL; NL] text = Some (body, sigs) /\ reads body c /\
  has_valid_signature body sigs (cp_origin c) key = true.
Proof.
  unfold checkpoint_verify. split.
  - intros H. apply bind_Ok in H as (u & Hg%guard_Ok & H). b2p. split; [lia|].
    apply bind_Ok in H as ([body sigs] & Hs%ok_or_Ok & H). exists body, sigs. split; [done|]. unfold reads.
    destruct (lines body) as [|o [|s [|r rest]]]; cbn [mbind result_bind malformed] in H; try done; [by inv_ok|].
    apply bind_Ok in H as (z & Hz%ok_or_Ok & H). cbn [mbind result_bind] in H.
    apply bind_Ok in H as (u' & Hr%guard_Ok & H). b2p. subst rest.
    apply bind_Ok in H as (root & Hroot%ok_or_Ok & H). apply bind_Some in Hroot as (bs & ->%unb64_iff & ->%arr_of_list_Some).
    apply bind_Ok in H as (u'' & Hv%guard_Ok & H). b2p. injection H as <-. cbn. eauto.
  - intros (Hlen & body & sigs & -> & (s & Hl & Hs) & Hv). cbn [ok_or mbind result_bind].
    rewrite (proj2 (Z.ltb_ge _ _)) by lia. cbn [guard mbind result_bind]. rewrite Hl. cbn [mbind result_bind]. rewrite Hs.
    cbn [ok_or mbind result_bind]. rewrite bool_decide_true by done. cbn [negb guard mbind result_bind].
    rewrite (proj2 (unb64_iff _ _) eq_refl). cbn [mbind option_bind].
    rewrite (proj2 (arr_of_list_Some 32 _ (cp_root c)) eq_refl). cbn [ok_or mbind result_bind].
    rewrite Hv. cbn [negb guard mbind result_bind]. by destruct c.
Qed.

Lemma cosignature_time_Some body name key fr line t :
  cosignature_time body name key fr line = Some t -> fresh_at fr t /\ cosigned key body t.
Proof.
  unfold cosignature_time, cosigned, fresh_at.
  intros (blob & (_ & _ & Hl & _)%line_blob_Some & H)%bind_Some. cbv zeta in H.
  pose proof (from_be_bytes_range (slice 4 12 blob)) as Hr.
  destruct (I64_MAX <? _) eqn:E1; [done|]. destruct (match fr with Some _ => _ | None => _ end) eqn:E2; [done|].
  destruct (verify_strict _ _ _) eqn:E3; [|done]. injection H as <-. b2p. split; [|eauto]. unfold in_uint in Hr. split; [lia|].
  destruct fr as [[[now age] skew]|]; [|done]. unfold saturating_add, saturating_sub in E2. b2p. lia.
Qed.

Lemma newest_valid_cosignature_Some body sigs name key fr t :
  newest_valid_cosignature body sigs name key fr = Some t -> fresh_at fr t /\ cosigned key body t.
Proof.
  unfold newest_valid_cosignature. intros H. pose proof (max_of_spec (omap (cosignature_time body name key fr) (lines sigs))) as Hm.
  rewrite H in Hm. destruct Hm as [Hin _]. apply list_elem_of_omap in Hin as (line & _ & Hl).
  by apply cosignature_time_Some in Hl.
Qed.

Lemma duplicate_witness_NoDup prior ws :
  duplicate_witness prior ws = false -> NoDup ws /\ forall w, w ∈ ws -> w ∉ prior.
Proof.
  revert prior. induction ws as [|w ws IH]; intros prior H; [split; [constructor|set_solver]|].
  cbn [duplicate_witness] in H. apply orb_false_iff in H as [Hw H]. apply IH in H as [Hn Hd]. split.
  - constructor; [|done]. intros Hin. apply (Hd w Hin). set_solver.
  - intros v [->|Hv]%elem_of_cons Hp; [|apply (Hd v Hv); set_solver].
    apply not_true_iff_false in Hw. apply Hw, existsb_exists. exists w. split; [by apply list_elem_of_In|].
    by rewrite bool_decide_true.
Qed.

Definition reaches (v : Z) (o : option Z) : bool := match o with Some x => v <=? x | None => false end.

Lemma omap_filter_length {A} (f : A -> option Z) (v : Z) (l : list A) :
  length (filter (fun x => v <= x) (omap f l)) = length (filter (fun a => reaches v (f a) = true) l).
Proof.
  induction l as [|a l IH]; [done|]. cbn [omap list_omap]. destruct (f a) as [x|] eqn:E.
  - destruct (decide (v <= x)).
    + rewrite filter_cons_True by done. rewrite filter_cons_True by (rewrite E; by apply Z.leb_le). cbn [length]. by rewrite IH.
    + rewrite filter_cons_False by done. rewrite filter_cons_False by (rewrite E; cbn; rewrite Z.leb_le; done). done.
  - rewrite filter_cons_False by (rewrite E; done). done.
Qed.
End Facts.

Section Policy.
Context {C : Crypto}.

(** What a nonzero witness policy establishes: a set [Q] of at least [threshold] of the pinned witnesses that
    cosigned the accepted body at admissible times, none before [witnessed_at]. *)
Record witnessed (body : str) (ws : list WitnessKey) (threshold : nat) (fr : option (Z * Z * Z)) (since : Z)
  (Q : list WitnessKey) : Prop := {
  wq_roster : NoDup ws /\ NoDup Q /\ Q ⊆ ws;
  wq_count : (threshold <= length Q)%nat;
  wq_majority : (length ws / 2 < threshold <= length ws)%nat;
  wq_cosigned : forall w, w ∈ Q -> exists timestamp, since <= timestamp /\ fresh_at fr timestamp /\ cosigned (w_key w) body timestamp;
}.

Lemma quorum_intersects_true t n : witness_quorum_intersects t n = true <-> (n / 2 < t <= n)%nat.
Proof.
  unfold witness_quorum_intersects. rewrite !andb_true_iff, negb_true_iff, Nat.eqb_neq, Nat.leb_le, Nat.ltb_lt.
  lia.
Qed.

Lemma verify_witness_policy_Ok text key ws t fr v :
  t <> 0%nat -> verify_witness_policy text key ws t fr = Ok v ->
  checkpoint_verify text key = Ok (vc_checkpoint v) /\
  exists body sigs since Q, split_once_str [NL; NL] text = Some (body, sigs) /\ witnessed_at v = Some since /\
  witnessed body ws t fr since Q.
Proof.
  intros Ht. unfold verify_witness_policy. rewrite (proj2 (Nat.eqb_neq t 0) Ht). cbn [negb andb].
  intros H. inv_ok. destruct a2 as [body sigs]. apply bind_Ok in H as (u & Hlen%guard_Ok & H). injection H as <-.
  cbn [vc_checkpoint witnessed_at]. split; [done|]. b2p. apply quorum_intersects_true in Ha.
  apply duplicate_witness_NoDup in Ha0 as [Hn _].
  set (f := fun w => newest_valid_cosignature body sigs (w_name w) (w_key w) fr) in *.
  set (since := nth (t - 1) (sort_newest_first (omap f ws)) 0).
  exists body, sigs, since, (filter (fun w => reaches since (f w) = true) ws). split; [done|]. split; [done|]. split; [|..|done|].
  - split_and!; [done|by apply NoDup_filter|]. intros w. rewrite list_elem_of_filter. tauto.
  - rewrite <-omap_filter_length. pose proof (sort_newest_count (omap f ws) (t - 1) ltac:(lia)) as Hc. fold since in Hc. lia.
  - intros w [Hr _]%list_elem_of_filter. destruct (f w) as [x|] eqn:E; [|done]. cbn in Hr. b2p. exists x.
    apply newest_valid_cosignature_Some in E as [? ?]. done.
Qed.

(** Two majorities of one roster share a witness. *)
Lemma quorums_meet body body' ws t t' fr fr' s s' Q Q' :
  witnessed body ws t fr s Q -> witnessed body' ws t' fr' s' Q' -> exists w, w ∈ Q /\ w ∈ Q'.
Proof.
  intros [(Hn & HQ & Hs) Hc Hm _] [(_ & HQ' & Hs') Hc' Hm' _].
  destruct (decide (Exists (fun w => w ∈ Q') Q)) as [HE|HE].
  { apply Exists_exists in HE as (w & ? & ?). eauto. }
  assert (NoDup (Q ++ Q')) as HN.
  { apply NoDup_app. split_and!; [done| |done]. intros w HwQ HwQ'. apply HE, Exists_exists. eauto. }
  assert (Q ++ Q' ⊆+ ws) as HS.
  { apply NoDup_submseteq; [done|]. intros w [?|?]%elem_of_app; auto. }
  apply submseteq_length in HS. rewrite length_app in HS. exfalso.
  pose proof (Nat.div_mod_eq (length ws) 2). pose proof (Nat.mod_upper_bound (length ws) 2 ltac:(lia)). lia.
Qed.

(** A checkpoint body never is a cosignature message, whose second line is not a number. *)
Lemma cosignature_not_body t b body c : 0 <= t -> reads body c -> cosignature_message t b <> body ++ [NL].
Proof.
  intros Ht (s & Hl & Hs) E.
  assert (body = lit "cosignature/v1" ++ [NL] ++ (lit "time " ++ decimal t) ++ [NL] ++ b) as ->.
  { apply (app_inv_tail [NL]). rewrite <-E. unfold cosignature_message. by rewrite <-!(assoc_L (++)). }
  assert (forall p, NL ∉ p <-> contains_byte NL p = false) as Hc.
  { intros p. rewrite <-not_true_iff_false, contains_byte_true. done. }
  destruct (decimal_spec t Ht) as (Hne & Hd & _).
  cbn [app] in Hl. rewrite lines_app in Hl by (apply Hc; reflexivity). apply cons_inj in Hl as [_ Hl].
  assert (forall b, b ∈ decimal t -> is_ascii_digit b = true) as Hdig.
  { intros x Hx%list_elem_of_In. rewrite forallb_forall in Hd. by apply Hd. }
  rewrite lines_app in Hl.
  2:{ rewrite not_elem_of_app. split; [apply Hc; reflexivity|]. intros Hx%Hdig. discriminate Hx. }
  apply cons_inj in Hl as [Hl _]. rewrite strip_cr_id in Hl.
  2:{ rewrite not_elem_of_app. split.
      - intros Hx%contains_byte_true. discriminate Hx.
      - intros Hx%Hdig. discriminate Hx. }
  subst s. discriminate Hs.
Qed.

(** An accepted checkpoint was signed.  The text holds a body and the key's signature on it; the body
    determines origin, size and root, so no other checkpoint can be read from what was signed; and what was signed is
    not a witness's cosignature message, so a cosignature can never pass for an operator signature. *)
Theorem checkpoint_verify_binds (text : str) (key : VerifyingKey) (c : Checkpoint) :
  checkpoint_verify text key = Ok c ->
  exists body sigs g,
    text = body ++ [NL; NL] ++ sigs /\ verify_strict key (body ++ [NL]) g = true /\
    (forall text' sigs' key' c', split_once_str [NL; NL] text' = Some (body, sigs') ->
       checkpoint_verify text' key' = Ok c' -> c' = c) /\
    (forall timestamp body', 0 <= timestamp -> cosignature_message timestamp body' <> body ++ [NL]).
Proof.
  intros (_ & body & sigs & Hs & Hr & Hv)%checkpoint_verify_Ok.
  destruct (has_valid_signature_true _ _ _ _ Hv) as [g Hg]. exists body, sigs, g. split_and!.
  - by apply split_once_str_Some.
  - done.
  - intros text' sigs' key' c' Hs' (_ & b & s & Hs'' & Hr' & _)%checkpoint_verify_Ok.
    rewrite Hs' in Hs''. injection Hs'' as <- _. by apply (reads_fun body).
  - intros t b Ht. by apply (cosignature_not_body t b body c).
Qed.

(** [witnessed_at] is real.  When the fresh-witness check accepts, at least [threshold] different pinned
    witnesses, a strict majority of the roster, each cosigned exactly the accepted body, at a time not before
    [witnessed_at], not older than the allowed age and not further ahead than the allowed skew. *)
Theorem fresh_witnesses_sound (text : str) (key : VerifyingKey) (ws : list WitnessKey) (threshold : nat)
  (now max_age skew : Z) (v : VerifiedCheckpoint) :
  threshold <> 0%nat -> verify_with_fresh_witnesses text key ws threshold now max_age skew = Ok v ->
  checkpoint_verify text key = Ok (vc_checkpoint v) /\
  exists body sigs since Q,
    split_once_str [NL; NL] text = Some (body, sigs) /\ witnessed_at v = Some since /\
    witnessed body ws threshold (Some (now, max_age, skew)) since Q.
Proof.
  intros Ht H. unfold verify_with_fresh_witnesses in H. inv_ok. by apply verify_witness_policy_Ok in H.
Qed.

(** Whatever two policies over one roster accept, some witness of the roster cosigned both bodies. *)
Lemma shared_witness text text' key key' ws t t' fr fr' v v' :
  t <> 0%nat -> t' <> 0%nat ->
  verify_witness_policy text key ws t fr = Ok v -> verify_witness_policy text' key' ws t' fr' = Ok v' ->
  exists w body body' timestamp timestamp',
    w ∈ ws /\ reads body (vc_checkpoint v) /\ reads body' (vc_checkpoint v') /\
    cosigned (w_key w) body timestamp /\ cosigned (w_key w) body' timestamp'.
Proof.
  intros Ht Ht' H H'.
  apply verify_witness_policy_Ok in H as (Hv & body & sigs & s & Q & Hs & _ & HQ); [|done].
  apply verify_witness_policy_Ok in H' as (Hv' & body' & sigs' & s' & Q' & Hs' & _ & HQ'); [|done].
  destruct (quorums_meet _ _ _ _ _ _ _ _ _ _ _ HQ HQ') as (w & Hw & Hw').
  apply checkpoint_verify_Ok in Hv as (_ & b & x & Eb & Hr & _). rewrite Hs in Eb. injection Eb as <- <-.
  apply checkpoint_verify_Ok in Hv' as (_ & b' & x' & Eb' & Hr' & _). rewrite Hs' in Eb'. injection Eb' as <- <-.
  destruct (wq_cosigned _ _ _ _ _ _ HQ w Hw) as (ts & _ & _ & Hco).
  destruct (wq_cosigned _ _ _ _ _ _ HQ' w Hw') as (ts' & _ & _ & Hco').
  exists w, body, body', ts, ts'. split_and!; try done. by apply (wq_roster _ _ _ _ _ _ HQ).
Qed.

Lemma fresh_policy text key ws t now max_age skew v : verify_with_fresh_witnesses text key ws t now max_age skew = Ok v ->
  verify_witness_policy text key ws t (Some (now, max_age, skew)) = Ok v.
Proof. unfold verify_with_fresh_witnesses. by intros (u & _ & H)%bind_Ok. Qed.

(** One roster cannot accept two histories unseen.  If two texts pass the policy under one witness roster, with
    whatever thresholds, times and operator keys, some single witness of the roster cosigned both bodies. *)
Theorem witness_quorums_intersect (text text' : str) (key key' : VerifyingKey) (ws : list WitnessKey)
  (t t' : nat) (c : Checkpoint) (now max_age skew : Z) (v : VerifiedCheckpoint) :
  t <> 0%nat -> t' <> 0%nat ->
  verify_with_witnesses text key ws t = Ok c ->
  verify_with_fresh_witnesses text' key' ws t' now max_age skew = Ok v ->
  exists w body body' timestamp timestamp',
    w ∈ ws /\ reads body c /\ reads body' (vc_checkpoint v) /\
    cosigned (w_key w) body timestamp /\ cosigned (w_key w) body' timestamp'.
Proof.
  intros Ht Ht' H H'. unfold verify_with_witnesses in H. apply bind_Ok in H as (v' & Ha & H). injection H as <-.
  apply fresh_policy in H'. exact (shared_witness _ _ _ _ _ _ _ _ _ _ _ Ht Ht' Ha H').
Qed.
End Policy.

(** * What the operator and the witnesses write is accepted *)

Definition plain_name (name : str) : Prop := existsb (fun b => is_ascii_control b || is_ascii_whitespace b) name = false.

Lemma plain_name_no name b : plain_name name -> is_ascii_control b || is_ascii_whitespace b = true -> b ∉ name.
Proof.
  intros Hp Hb Hin. apply not_true_iff_false in Hp. apply Hp, existsb_exists. exists b.
  split; [by apply list_elem_of_In|done].
Qed.

Lemma decimal_no n b : 0 <= n -> is_ascii_digit b = false -> b ∉ decimal n.
Proof.
  intros Hn Hb Hin. destruct (decimal_spec n Hn) as (_ & Hd & _). rewrite forallb_forall in Hd.
  apply list_elem_of_In, Hd in Hin. congruence.
Qed.

Lemma lines_concat ls : Forall (fun l => NL ∉ l /\ x0d ∉ l) ls -> lines (concat (map (fun l => l ++ [NL]) ls)) = ls.
Proof.
  induction 1 as [|l ls [Hn Hc] _ IH]; [done|]. cbn [map concat]. rewrite <-(assoc_L (++)). cbn [app].
  by rewrite lines_app, strip_cr_id, IH.
Qed.

(** The body without its last newline. *)
Definition note_body (c : Checkpoint) : str :=
  cp_origin c ++ NL :: decimal (cp_size c) ++ NL :: b64 (vec_to_list (cp_root c)).

Lemma note_body_nl c : checkpoint_body c = note_body c ++ [NL].
Proof. unfold checkpoint_body, note_body. rewrite <-(assoc_L (++)). cbn [app]. rewrite <-(assoc_L (++)). done. Qed.

Section Honest.
Context {C : Crypto} {CL : CryptoLaws}.
Context (c : Checkpoint) (Horigin : plain_name (cp_origin c)) (Hsize : in_uint 64 (cp_size c)).

Lemma origin_no b : is_ascii_control b || is_ascii_whitespace b = true -> b ∉ cp_origin c.
Proof. by apply plain_name_no. Qed.

Lemma root_text : exists b s, b64 (vec_to_list (cp_root c)) = b :: s /\ b <> NL.
Proof.
  destruct (b64_no_space (cp_root c)) as (_ & HN & _). destruct (b64 _) as [|b s] eqn:E.
  - change [] with (b64 []) in E. apply b64_inj in E. by destruct (cp_root c) using vec_S_inv.
  - exists b, s. split; [done|]. intros ->. apply HN. set_solver.
Qed.

Lemma note_reads : reads (note_body c) c.
Proof.
  unfold in_uint in Hsize. exists (decimal (cp_size c)). destruct (b64_no_space (cp_root c)) as (_ & HN & _).
  split; [|by apply parse_decimal]. unfold note_body.
  rewrite lines_app, strip_cr_id, lines_app, strip_cr_id, lines_last by (apply origin_no || apply decimal_no || idtac; done || lia).
  destruct root_text as (b & s & -> & _). done.
Qed.

Lemma note_split s : split_once_str [NL; NL] (note_body c ++ NL :: NL :: s) = Some (note_body c, s).
Proof.
  unfold in_uint in Hsize. destruct (b64_no_space (cp_root c)) as (_ & HN & _). unfold note_body.
  rewrite <-(assoc_L (++)). cbn [app]. rewrite <-(assoc_L (++)). cbn [app].
  rewrite split_blank_skip; [|by apply origin_no|].
  - rewrite split_blank_skip; [|apply decimal_no; [lia|done]|].
    + by rewrite split_blank_here.
    + intros t. destruct root_text as (b & x & -> & Hb). cbn. congruence.
  - intros t E. destruct (decimal_spec (cp_size c)) as (Hne & Hd & _); [lia|].
    destruct (decimal (cp_size c)) as [|b x]; [done|]. injection E as -> _. discriminate Hd.
Qed.

Lemma signature_line_own op :
  signature_line_valid (note_body c) (cp_origin c) (verifying_key op)
    (DASH ++ cp_origin c ++ SP :: b64 (key_hash (cp_origin c) (verifying_key op) ++ vec_to_list (sign op (checkpoint_body c)))) = true.
Proof.
  unfold signature_line_valid. erewrite (proj2 (line_blob_Some _ _ _ _ _)).
  2:{ split_and!; [by apply origin_no|reflexivity| |].
      - unfold key_hash. rewrite length_app, length_take, !length_vec_to_list. done.
      - rewrite take_app_length'; [done|]. unfold key_hash. by rewrite length_take, length_vec_to_list. }
  rewrite drop_app_length' by (unfold key_hash; by rewrite length_take, length_vec_to_list).
  rewrite take_arr_all, <-note_body_nl. apply sign_verifies.
Qed.

(** A witness's line gives its time back, when the policy admits the time. *)
Lemma cosignature_line_own name id ts fr line :
  cosignature_line c name id ts = Ok line -> fresh_at fr ts ->
  exists l, line = l ++ [NL] /\ (NL ∉ l /\ x0d ∉ l) /\
  cosignature_time (note_body c) name (verifying_key id) fr l = Some ts.
Proof.
  intros H [Hmax Hfresh]. unfold cosignature_line, witness_new in H.
  apply bind_Ok in H as (w & Hw & H). apply bind_Ok in Hw as (u & Hg%guard_Ok & _). apply bind_Ok in H as (u' & _ & H).
  apply Ok_inj in H. subst line. apply orb_false_iff in Hg as [_ Hname]. set (blob := _ ++ be_bytes 8 ts ++ _).
  set (kh := cosignature_key_hash name (verifying_key id)) in *.
  assert (length kh = 4%nat) as Hkh by (unfold kh, cosignature_key_hash; by rewrite length_take, length_vec_to_list).
  destruct (b64_no_space blob) as (_ & Hbn & Hbr).
  exists (DASH ++ name ++ SP :: b64 blob). split_and!.
  - rewrite <-!(assoc_L (++)). done.
  - rewrite !not_elem_of_app, not_elem_of_cons. split_and!; [|by apply plain_name_no| |done];
      intros Hx; [apply contains_byte_true in Hx|]; discriminate Hx.
  - rewrite !not_elem_of_app, not_elem_of_cons. split_and!; [|by apply plain_name_no| |done];
      intros Hx; [apply contains_byte_true in Hx|]; discriminate Hx.
  - unfold cosignature_time. rewrite (proj2 (line_blob_Some _ name _ _ blob)).
    2:{ split_and!; [by apply plain_name_no|done| |].
        - unfold blob. rewrite !length_app, length_be_bytes, length_vec_to_list, Hkh. done.
        - unfold blob. by rewrite take_app_length' by done. }
    cbn [mbind option_bind]. assert (in_uint 64 ts) as Hts by (unfold in_uint, I64_MAX in *; lia).
    assert (from_be_bytes (slice 4 12 blob) = ts) as ->.
    { unfold blob. rewrite slice_app by (rewrite ?length_be_bytes; done). by apply from_be_bytes_id. }
    rewrite (proj2 (Z.ltb_ge I64_MAX ts)) by lia.
    replace (match fr with Some _ => _ | None => _ end) with false.
    2:{ destruct fr as [[[now age] skew]|]; [|done]. symmetry. unfold saturating_add, saturating_sub, in_uint, I64_MAX in *.
        apply orb_false_iff. rewrite !Z.ltb_ge. lia. }
    unfold blob. rewrite (assoc_L (++) kh), drop_app_length' by (rewrite length_app, length_be_bytes, Hkh; done).
    rewrite take_arr_all. unfold cosignature_message. rewrite <-note_body_nl.
    unfold verifying_key, sign. rewrite sign_verifies. done.
Qed.

(** ** The note with its cosignatures *)

Definition roster (cs : list (str * Identity * Z)) : list WitnessKey :=
  map (fun '(name, id, _) => MkWitnessKey name (verifying_key id)) cs.

Definition operator_line (op : Identity) : str :=
  DASH ++ cp_origin c ++ SP :: b64 (key_hash (cp_origin c) (verifying_key op) ++ vec_to_list (sign op (checkpoint_body c))).

Lemma operator_line_plain op : NL ∉ operator_line op /\ x0d ∉ operator_line op.
Proof.
  unfold operator_line. set (blob := key_hash _ _ ++ _). destruct (b64_no_space blob) as (_ & Hn & Hr).
  split; rewrite !not_elem_of_app, not_elem_of_cons; (split_and!; [|by apply origin_no| |done]);
    intros Hx; [apply contains_byte_true in Hx; discriminate Hx|discriminate Hx| |]; (apply contains_byte_true in Hx || idtac); discriminate Hx.
Qed.

Lemma own_lines cs lns fr :
  Forall2 (fun '(name, id, ts) line => cosignature_line c name id ts = Ok line) cs lns ->
  Forall (fun '(_, _, ts) => fresh_at fr ts) cs ->
  exists ls, concat lns = concat (map (fun l => l ++ [NL]) ls) /\ Forall (fun l => NL ∉ l /\ x0d ∉ l) ls /\
  Forall (fun '(name, id, ts) => exists l, l ∈ ls /\ cosignature_time (note_body c) name (verifying_key id) fr l = Some ts) cs.
Proof.
  intros H. induction H as [|[[name id] ts] line cs lns Hl _ IH]; intros Hf; [by exists []|].
  apply Forall_cons in Hf as [Hts Hf]. destruct (IH Hf) as (ls & E & Hp & Hcs).
  destruct (cosignature_line_own name id ts fr line Hl Hts) as (l & -> & Hpl & Hc).
  exists (l :: ls). split_and!.
  - cbn [map concat]. by rewrite E.
  - by constructor.
  - constructor; [exists l; split; [set_solver|done]|]. eapply Forall_impl; [exact Hcs|].
    intros [[n i] t] (l' & Hin & Ht). exists l'. split; [set_solver|done].
Qed.

Lemma distinct_witnesses prior ws :
  NoDup (map w_name (prior ++ ws)) -> NoDup (map w_key (prior ++ ws)) -> duplicate_witness prior ws = false.
Proof.
  revert prior. induction ws as [|w ws IH]; intros prior Hn Hk; [done|]. cbn [duplicate_witness].
  rewrite IH by (by rewrite <-(assoc_L (++))). rewrite orb_false_r. apply not_true_iff_false. rewrite existsb_exists.
  intros (p & Hp%list_elem_of_In & H). rewrite map_app in Hn, Hk. apply NoDup_app in Hn as (_ & Hn & _), Hk as (_ & Hk & _).
  apply orb_true_iff in H as [H|H]; b2p.
  - apply (Hn (w_name p)); [by apply list_elem_of_fmap_2|]. rewrite H. cbn [map]. set_solver.
  - apply (Hk (w_key p)); [by apply list_elem_of_fmap_2|]. rewrite H. cbn [map]. set_solver.
Qed.

Lemma omap_all {A} (f : A -> option Z) l : (forall a, a ∈ l -> is_Some (f a)) -> length (omap f l) = length l.
Proof.
  induction l as [|a l IH]; intros H; [done|]. cbn [omap list_omap]. destruct (H a ltac:(set_solver)) as [x ->].
  cbn [length]. f_equal. apply IH. set_solver.
Qed.

Lemma newest_some body sigs name key fr l ts :
  l ∈ lines sigs -> cosignature_time body name key fr l = Some ts -> is_Some (newest_valid_cosignature body sigs name key fr).
Proof.
  intros Hl Ht. unfold newest_valid_cosignature.
  assert (ts ∈ omap (cosignature_time body name key fr) (lines sigs)) as Hin by (apply list_elem_of_omap; eauto).
  pose proof (max_of_spec (omap (cosignature_time body name key fr) (lines sigs))) as Hm.
  destruct (max_of _); [eauto|]. rewrite Hm in Hin. by apply not_elem_of_nil in Hin.
Qed.

(** What the operator and its witnesses write is accepted.  A checkpoint the operator signs, with the cosignature
    lines of a roster of distinct witnesses whose times the policy admits, verifies under any majority threshold, and
    yields that checkpoint. *)
Theorem honest_note_accepted (op : Identity) (cs : list (str * Identity * Z)) (lns : list str) (threshold : nat)
  (now max_age skew : Z) :
  let text := checkpoint_sign c op ++ concat lns in
  Forall2 (fun '(name, id, ts) line => cosignature_line c name id ts = Ok line) cs lns ->
  Forall (fun '(_, _, ts) => fresh_at (Some (now, max_age, skew)) ts) cs ->
  NoDup (map w_name (roster cs)) -> NoDup (map w_key (roster cs)) ->
  witness_quorum_intersects threshold (length cs) = true ->
  now <= I64_MAX -> max_age <> 0 -> skew <= max_age -> Z.of_nat (length text) <= 64 * 1024 ->
  exists since, verify_with_fresh_witnesses text (verifying_key op) (roster cs) threshold now max_age skew =
    Ok {| vc_checkpoint := c; witnessed_at := Some since |}.
Proof.
  intros text HL HF Hn Hk Hq Hnow Hage Hskew Hlen. pose proof Hq as Hq'. apply quorum_intersects_true in Hq'.
  destruct (own_lines cs lns _ HL HF) as (ls & E & Hp & Hcs).
  assert (exists sigs, split_once_str [NL; NL] text = Some (note_body c, sigs) /\ lines sigs = operator_line op :: ls) as (sigs & Hsplit & Hlines).
  { exists (concat (map (fun l => l ++ [NL]) (operator_line op :: ls))). split.
    - rewrite <-(note_split (concat _)). f_equal. unfold text. rewrite E. unfold checkpoint_sign, operator_line.
      rewrite note_body_nl. cbn [map concat]. rewrite <-!(assoc_L (++)). cbn [app]. rewrite <-?(assoc_L (++)). done.
    - apply lines_concat. constructor; [apply operator_line_plain|done]. }
  assert (checkpoint_verify text (verifying_key op) = Ok c) as Hv.
  { apply checkpoint_verify_Ok. split; [done|]. exists (note_body c), sigs. split_and!; [done|by apply note_reads|].
    unfold has_valid_signature. rewrite Hlines. cbn [existsb]. unfold operator_line at 1. by rewrite signature_line_own. }
  unfold verify_with_fresh_witnesses. rewrite (proj2 (Z.ltb_ge _ _) Hnow), (proj2 (Z.eqb_neq _ _) Hage), (proj2 (Z.ltb_ge _ _) Hskew).
  cbn [orb guard mbind result_bind]. unfold verify_witness_policy.
  assert (length (roster cs) = length cs) as -> by apply length_map.
  rewrite Hq, (proj2 (Nat.eqb_neq threshold 0)) by lia. cbn [negb andb guard mbind result_bind].
  rewrite (distinct_witnesses []) by done. cbn [guard mbind result_bind]. rewrite Hv, Hsplit. cbn [ok_or mbind result_bind].
  rewrite omap_all.
  - assert (length (roster cs) = length cs) as -> by apply length_map.
    rewrite (proj2 (Nat.ltb_ge _ _)) by lia. cbn [guard mbind result_bind]. eauto.
  - intros w Hw. apply list_elem_of_fmap in Hw as ([[name id] ts] & -> & Hin). rewrite Forall_forall in Hcs.
    destruct (Hcs _ Hin) as (l & Hl & Ht). cbn [w_name w_key]. apply (newest_some _ _ _ _ _ l ts); [|done].
    rewrite Hlines. set_solver.
Qed.
End Honest.

(** * Witnesses *)

Section Witnesses.
#[local] Existing Instance toy_crypto.
#[local] Existing Instance toy_laws.

Definition demo_head : Checkpoint := {| cp_origin := lit "log"; cp_size := 5; cp_root := zeroes 32 |}.
Definition demo_operator : Identity := from_seed (vreplicate 32 x07).
Definition demo_witness : Identity := from_seed (vreplicate 32 x09).
Definition demo_line : str :=
  match cosignature_line demo_head (lit "w") demo_witness 1000 with Ok l => l | Err _ => [] end.
Definition demo_note : str := checkpoint_sign demo_head demo_operator ++ concat [demo_line].
Definition demo_roster : list WitnessKey := [MkWitnessKey (lit "w") (verifying_key demo_witness)].

Lemma demo_note_verifies :
  verify_witness_policy demo_note (verifying_key demo_operator) demo_roster 1 None =
  Ok {| vc_checkpoint := demo_head; witnessed_at := Some 1000 |}.
Proof. vm_compute. reflexivity. Qed.

Lemma demo_note_fresh :
  verify_with_fresh_witnesses demo_note (verifying_key demo_operator) demo_roster 1 1010 60 5 =
  Ok {| vc_checkpoint := demo_head; witnessed_at := Some 1000 |}.
Proof. vm_compute. reflexivity. Qed.

Lemma demo_note_checkpoint : checkpoint_verify demo_note (verifying_key demo_operator) = Ok demo_head.
Proof. pose proof demo_note_verifies as H. apply verify_witness_policy_Ok in H as [H _]; done. Qed.

Lemma checkpoint_verify_binds_witness :
  exists body g, verify_strict (verifying_key demo_operator) (body ++ [NL]) g = true.
Proof.
  destruct (checkpoint_verify_binds demo_note (verifying_key demo_operator) demo_head demo_note_checkpoint)
    as (body & sigs & g & _ & H & _). exists body, g. exact H.
Defined.

Lemma fresh_witnesses_sound_witness :
  exists body since Q, witnessed body demo_roster 1 (Some (1010, 60, 5)) since Q.
Proof.
  destruct (fresh_witnesses_sound demo_note (verifying_key demo_operator) demo_roster 1 1010 60 5 _ ltac:(discriminate) demo_note_fresh)
    as (_ & body & sigs & since & Q & _ & _ & H). exists body, since, Q. exact H.
Defined.

Lemma witness_quorums_intersect_witness :
  exists w body body' t t', cosigned (w_key w) body t /\ cosigned (w_key w) body' t'.
Proof.
  destruct (witness_quorums_intersect demo_note demo_note (verifying_key demo_operator) (verifying_key demo_operator)
    demo_roster 1 1 demo_head 1010 60 5 {| vc_checkpoint := demo_head; witnessed_at := Some 1000 |})
    as (w & b & b' & t & t' & _ & _ & _ & H & H').
  - discriminate.
  - discriminate.
  - unfold verify_with_witnesses. rewrite demo_note_verifies. reflexivity.
  - exact demo_note_fresh.
  - exists w, b, b', t, t'. split; assumption.
Defined.

Lemma honest_note_accepted_witness :
  exists since, verify_with_fresh_witnesses demo_note (verifying_key demo_operator) demo_roster 1 1010 60 5 =
    Ok {| vc_checkpoint := demo_head; witnessed_at := Some since |}.
Proof.
  apply (honest_note_accepted demo_head ltac:(reflexivity) ltac:(unfold in_uint; simpl; lia) demo_operator
    [(lit "w", demo_witness, 1000)] [demo_line] 1 1010 60 5).
  - constructor; [vm_compute; reflexivity|constructor].
  - constructor; [unfold fresh_at, I64_MAX; lia|constructor].
  - apply NoDup_singleton.
  - apply NoDup_singleton.
  - reflexivity.
  - unfold I64_MAX. lia.
  - discriminate.
  - lia.
  - vm_compute. discriminate.
Defined.
End Witnesses.
