(* ===== verification/WitnessServer.v ===== *)
(** The witness service: [pigeonpost-witness/src/main.rs].  It remembers the last checkpoint it accepted, in memory and in
    a state file, and cosigns a new one only when it extends that one.  The service is modelled as a step relation with
    failing writes, crashes, restarts, power losses and failing reads of the state file.  The code replaces the file without syncing it and takes
    an unreadable file for an absent one, so the last two can make it forget: the theorems say that the checkpoints accepted between two such
    moments, over any run, are those of one growing log, and that two clients with one roster therefore cannot be shown different logs unless a witness
    they share forgot or signed outside the service; a run in which a witness forgets and then cosigns a fork is exhibited. *)
From S2P Require Import Prelude Text B32 Network Crypto Origin Token Merkle MerkleWalk MerkleProofs.
From S2P Require Import Handle Entry B64 Checkpoint.

(** * Requests and responses *)

Definition MAX_REQUEST_BYTES : Z := 64 * 1024.
Definition MAX_PROOF_HASHES : nat := 63.

Record Response := { status : Z; content_type : str; response_body : str }.

Definition text (code : Z) (body : str) : Response :=
  {| status := code; content_type := lit "text/plain; charset=utf-8"; response_body := body |}.
Definition conflict (size : Z) : Response :=
  {| status := 409; content_type := lit "text/x.tlog.size"; response_body := decimal size ++ [NL] |}.
Definition line_text (s : string) : str := lit s ++ [NL].

(** The loop is that of the note codec, without its checks of the alphabet, the length and the padding. *)
Definition b64_decode (input : str) : option bytes := unb64_loop 0 0 [] input.

Record Submission := { old_size : Z; sub_proof : list Hash; sub_note : str }.

(** The loop over the lines after the first. *)
Fixpoint proof_lines (lines : list str) (proof : list Hash) : option (list Hash) :=
  match lines with
  | [] => Some proof
  | line :: lines =>
      if line ≟ [] then proof_lines lines proof
      else if (MAX_PROOF_HASHES <=? length proof)%nat then None
      else
        hash ← b64_decode line ≫= arr_of_list 32;
        proof_lines lines (proof ++ [hash])
  end.

Definition parse_submission (body : str) : option Submission :=
  '(head, note) ← split_once_str [NL; NL] body;
  match Text.split NL head with
  | [] => None
  | first :: rest =>
      old ← strip_prefix (lit "old ") first ≫= parse_uint 64;
      proof ← proof_lines rest [];
      if (old =? 0) && negb (proof ≟ []) then None
      else Some {| old_size := old; sub_proof := proof; sub_note := note |}
  end.

(** * The stored checkpoint *)

Record Stored := { st_size : Z; st_root : Hash; st_note : str }.

#[global] Instance Stored_eq_dec : EqDecision Stored.
Proof. solve_decision. Defined.

(** What a call that may panic does. *)
Inductive panics (A : Type) : Type := Panic | Returns (a : A).
Arguments Panic {A}.
Arguments Returns {A} _.

(** [serde_json] on the three fields of [Stored], the root as the text [hex_hash] makes of it. *)
Class StoredJson := {
  stored_to_vec_pretty : Z -> str -> str -> bytes;
  stored_from_slice : bytes -> option (Z * str * str);
}.

(** A [u64] and two strings read back from the JSON they were written to, and what is read has those types. *)
Class StoredJsonLaws `{StoredJson} : Prop := {
  stored_json_roundtrip size root note :
    in_uint 64 size -> utf8_ok root = true -> utf8_ok note = true ->
    stored_from_slice (stored_to_vec_pretty size root note) = Some (size, root, note);
  stored_json_typed bs size root note :
    stored_from_slice bs = Some (size, root, note) -> in_uint 64 size /\ utf8_ok note = true;
}.

(** [&text[i..i + 2]] panics past the end of the text and inside a character. *)
Definition char_boundary (rest : str) : bool := match rest with b :: _ => negb (cont b) | [] => true end.

(** The lazy iterator of [hex_hash::deserialize], which stops at the first pair that is not a number. *)
Fixpoint hex_pairs (text : str) : panics (option bytes) :=
  match text with
  | [] => Returns (Some [])
  | [_] => Panic
  | a :: b :: rest =>
      if char_boundary rest then
        match from_str_radix 16 256 [a; b] with
        | None => Returns None
        | Some v =>
            match hex_pairs rest with
            | Returns (Some bs) => Returns (Some (to_u8 v :: bs))
            | r => r
            end
        end
      else Panic
  end.

Definition hex_serialize (value : Hash) : str := hex_of (vec_to_list value).
Definition hex_deserialize (text : str) : panics (option Hash) :=
  match hex_pairs text with
  | Returns o => Returns (o ≫= arr_of_list 32)
  | Panic => Panic
  end.

Section Service.
Context {C : Crypto} {SJ : StoredJson}.

Record Witness := { wt_name : str; signing_key : Identity; log_origin : str; log_key : VerifyingKey }.

(** The state file is replaced by a rename, so a failed write leaves it as it was; [written] says whether the file system
    did its part.  Nothing is synced: what a power loss leaves is up to [step_power]. *)
Definition save_state (disk : option bytes) (stored : Stored) (written : bool) : bool * option bytes :=
  if written then
    (true, Some (stored_to_vec_pretty (st_size stored) (hex_serialize (st_root stored)) (st_note stored)))
  else (false, disk).

(** [readable] says whether [std::fs::read] succeeds on a file that is there. *)
Definition load_state (disk : option bytes) (readable : bool) : panics (option Stored) :=
  match (if readable then disk else None) ≫= stored_from_slice with
  | None => Returns None
  | Some (size, root, note) =>
      match hex_deserialize root with
      | Panic => Panic
      | Returns None => Returns None
      | Returns (Some root) => Returns (Some {| st_size := size; st_root := root; st_note := note |})
      end
  end.

(** The checks on a submission against the checkpoint held, before anything is written. *)
Definition check_extension (state : option Stored) (checkpoint : Checkpoint) (submission : Submission) : result Response unit :=
  match state with
  | None => guard (negb (old_size submission =? 0)) (conflict 0)
  | Some stored =>
      _ ← guard (negb (old_size submission =? st_size stored)) (conflict (st_size stored));
      if cp_size checkpoint =? st_size stored then
        guard (negb (cp_root checkpoint ≟ st_root stored))
          (text 403 (line_text "tree size unchanged but root differs — the log was rewritten"))
      else if st_size stored =? 0 then
        guard (negb (st_root stored ≟ empty_root)) (text 403 (line_text "stored empty root is invalid"))
      else
        guard (negb (verify_consistency (Z.to_nat (st_size stored)) (st_root stored)
                       (Z.to_nat (cp_size checkpoint)) (cp_root checkpoint) (sub_proof submission)))
          (text 403 (line_text "consistency proof did not verify"))
  end.

Definition review (w : Witness) (state : option Stored) (body : bytes) (now : Z)
  : result Response (Checkpoint * Submission * str) :=
  _ ← guard (MAX_REQUEST_BYTES <? Z.of_nat (length body)) (text 413 (line_text "submission too large"));
  _ ← guard (negb (utf8_ok body)) (text 400 (line_text "submission is not UTF-8"));
  submission ← ok_or (parse_submission body) (text 400 (line_text "malformed submission"));
  checkpoint ← ok_or (ok (checkpoint_verify (sub_note submission) (log_key w)))
                 (text 403 (line_text "checkpoint signature did not verify"));
  _ ← guard (negb (cp_origin checkpoint ≟ log_origin w)) (text 403 (line_text "checkpoint is for another log"));
  _ ← guard ((cp_size checkpoint =? 0) && negb (cp_root checkpoint ≟ empty_root))
        (text 422 (line_text "empty checkpoint has an invalid root"));
  _ ← check_extension state checkpoint submission;
  line ← ok_or (ok (cosignature_line checkpoint (wt_name w) (signing_key w) now)) (text 500 (line_text "could not cosign"));
  Ok (checkpoint, submission, line).

Definition add_checkpoint (w : Witness) (state : option Stored) (disk : option bytes) (body : bytes) (now : Z)
  (written : bool) : Response * option Stored * option bytes :=
  match review w state body now with
  | Err refusal => (refusal, state, disk)
  | Ok (checkpoint, submission, line) =>
      let next := {| st_size := cp_size checkpoint; st_root := cp_root checkpoint; st_note := sub_note submission |} in
      match save_state disk next written with
      | (false, disk) => (text 500 (line_text "could not persist"), state, disk)
      | (true, disk) => (text 200 line, Some next, disk)
      end
  end.

Definition monitoring (w : Witness) (state : option Stored) (origin_hash : str) : Response :=
  if negb (origin_hash ≟ hex_of (vec_to_list (sha256 (log_origin w)))) then text 404 (line_text "unknown log")
  else match state with
       | Some stored => text 200 (st_note stored)
       | None => text 404 (line_text "nothing observed yet")
       end.

(** * The service as a machine *)

(** [running] is the memory of the process, [None] when it is down; the file outlives it. *)
Record Node := { running : option (option Stored); disk : option bytes }.

(** An accepted checkpoint: what it was checked against, the proof, and the cosignature line if it was sent. *)
Record Accepted := { ac_base : option Stored; ac_checkpoint : Checkpoint; ac_proof : list Hash; ac_line : option str }.

(** What a run shows: an accepted checkpoint, or a moment at which the service may have lost what it held. *)
Inductive Event := Accept (a : Accepted) | Forgot.

Inductive wstep (w : Witness) : Node -> list Event -> Node -> Prop :=
| step_start d (readable : bool) m : load_state d readable = Returns m ->
    wstep w {| running := None; disk := d |} (if readable then [] else [Forgot]) {| running := Some m; disk := d |}
| step_refuse m d body now written resp m' d' :
    add_checkpoint w m d body now written = (resp, m', d') -> status resp <> 200 ->
    wstep w {| running := Some m; disk := d |} [] {| running := Some m'; disk := d' |}
| step_cosign m d body now written resp m' d' c sub line :
    add_checkpoint w m d body now written = (resp, m', d') -> status resp = 200 ->
    review w m body now = Ok (c, sub, line) ->
    wstep w {| running := Some m; disk := d |}
      [Accept {| ac_base := m; ac_checkpoint := c; ac_proof := sub_proof sub; ac_line := Some (response_body resp) |}]
      {| running := Some m'; disk := d' |}
| step_crash_saved m d body now resp m' d' c sub line :
    add_checkpoint w m d body now true = (resp, m', d') -> status resp = 200 ->
    review w m body now = Ok (c, sub, line) ->
    wstep w {| running := Some m; disk := d |}
      [Accept {| ac_base := m; ac_checkpoint := c; ac_proof := sub_proof sub; ac_line := None |}]
      {| running := None; disk := d' |}
| step_crash m d :
    wstep w {| running := Some m; disk := d |} [] {| running := None; disk := d |}
| step_power m d d' :
    wstep w {| running := m; disk := d |} [Forgot] {| running := None; disk := d' |}.

(** Runs from a fresh installation, with everything that happened so far in order. *)
Inductive run (w : Witness) : list Event -> Node -> Prop :=
| run_init : run w [] {| running := None; disk := None |}
| run_step evs n ev n' : run w evs n -> wstep w n ev n' -> run w (evs ++ ev) n'.

Definition accepted_of (e : Event) : option Accepted := match e with Accept a => Some a | Forgot => None end.
Definition accepted (evs : list Event) : list Accepted := omap accepted_of evs.

(** What was accepted since the service last may have forgotten. *)
Definition remember (held : list Accepted) (e : Event) : list Accepted :=
  match e with Accept a => held ++ [a] | Forgot => [] end.
Definition segment (evs : list Event) : list Accepted := foldl remember [] evs.
End Service.

(** * Lemmas *)

Lemma b64_decode_b64 bs : b64_decode (b64 bs) = Some bs.
Proof.
  assert (unb64 (b64 bs) = Some bs) as H by by apply unb64_iff. unfold unb64 in H. destruct (_ || _)%bool; [done|].
  apply bind_Some in H as (out & H & E). unfold b64_decode. rewrite H. destruct (bool_decide _); [done|discriminate].
Qed.

Lemma hex_char_not_cont d : 0 <= d < 16 -> cont (hex_char d) = false.
Proof.
  intros Hd. apply hex_char_ascii in Hd. b2p. unfold cont. apply andb_false_iff. left. apply Z.leb_gt. lia.
Qed.

Lemma hex_pairs_hex_of bs : hex_pairs (hex_of bs) = Returns (Some bs).
Proof.
  induction bs as [|b bs IH]; [done|]. unfold hex_of in *. cbn [flat_map app hex_pairs]. rewrite IH.
  pose proof (u8_range b). assert (0 <= u8 b / 16 < 16 /\ 0 <= u8 b mod 16 < 16) as [Hh Hl] by dlia.
  replace (char_boundary _) with true.
  - rewrite (proj2 (from_str_radix_pair _ _ (u8 b))); [by rewrite to_u8_u8|].
    left. exists (u8 b / 16), (u8 b mod 16). rewrite !hex_char_digit by done. split_and!; try done; dlia.
  - symmetry. unfold char_boundary. destruct bs as [|b' bs]; [done|]. cbn [flat_map app]. pose proof (u8_range b').
    rewrite hex_char_not_cont; [done|]. dlia.
Qed.

Lemma hex_of_utf8 bs : utf8_ok (hex_of bs) = true.
Proof.
  induction bs as [|b bs IH]; [done|]. unfold hex_of in *. cbn [flat_map app]. pose proof (u8_range b).
  cbn [utf8_ok]. rewrite !hex_char_ascii by dlia. done.
Qed.

(** What follows an ASCII character of a valid text is valid: no character spans it. *)
Lemma utf8_after_ascii x b : u8 x < 128 -> forall a, utf8_ok (a ++ x :: b) = true -> utf8_ok b = true.
Proof.
  intros Hx. assert (cont x = false) as Hc by (unfold cont; apply andb_false_iff; left; apply Z.leb_gt; lia).
  assert (forall r, utf8_ok (x :: r) = utf8_ok r) as H1.
  { intros r. cbn [utf8_ok]. by rewrite (proj2 (Z.ltb_lt _ _) Hx). }
  intros a. induction a as [a IH] using (well_founded_induction (well_founded_ltof _ length)). unfold ltof in IH.
  destruct a as [|a0 a]; cbn [app]; [by rewrite H1|]. cbn [utf8_ok]. destruct (u8 a0 <? 128); [apply IH; cbn; lia|].
  destruct a as [|a1 a]; cbn [app].
  { rewrite Hc. cbn [andb]. rewrite !andb_false_r. destruct (_ && _)%bool; [done|]. destruct b as [|b0 b]; [done|].
    replace ((_ =? 0xe0) && _ && _)%bool with false by (symmetry; rewrite !andb_false_iff; left; right; apply Z.leb_gt; lia).
    replace ((_ =? 0xed) && _ && _)%bool with false by (symmetry; rewrite !andb_false_iff; left; right; apply Z.leb_gt; lia).
    cbn [orb]. destruct b as [|b1 b]; [done|].
    replace ((_ =? 0xf0) && _ && _)%bool with false by (symmetry; rewrite !andb_false_iff; left; right; apply Z.leb_gt; lia).
    replace ((_ =? 0xf4) && _ && _)%bool with false by (symmetry; rewrite !andb_false_iff; left; right; apply Z.leb_gt; lia).
    done. }
  destruct (_ && _)%bool.
  { rewrite andb_true_iff. intros [_ H]. revert H. apply IH. cbn; lia. }
  destruct a as [|a2 a]; cbn [app].
  { rewrite Hc. cbn [andb]. destruct (_ || _)%bool; [done|]. destruct b as [|b0 b]; [done|]. by rewrite !andb_false_r. }
  destruct (_ || _)%bool.
  { rewrite andb_true_iff. intros [_ H]. revert H. apply IH. cbn; lia. }
  destruct a as [|a3 a]; cbn [app].
  { rewrite Hc. cbn [andb]. by rewrite !andb_false_r. }
  rewrite andb_true_iff. intros [_ H]. revert H. apply IH. cbn; lia.
Qed.

Lemma parse_submission_utf8 body sub : parse_submission body = Some sub -> utf8_ok body = true -> utf8_ok (sub_note sub) = true.
Proof.
  unfold parse_submission. intros ([head note] & Hs%split_once_str_Some & H)%bind_Some Hu. cbn in Hs. subst body.
  destruct (Text.split NL head) as [|first rest]; [done|]. apply bind_Some in H as (old & _ & H). apply bind_Some in H as (pf & _ & H).
  destruct (_ && _)%bool; [done|]. injection H as <-. cbn [sub_note].
  apply (utf8_after_ascii NL note ltac:(reflexivity) (head ++ [NL])). by rewrite <-(assoc_L (++)).
Qed.

Section Machine.
Context {C : Crypto} {SJ : StoredJson}.

(** How an accepted checkpoint relates to the one held before. *)
Definition extends (base : option Stored) (c : Checkpoint) (proof : list Hash) : Prop :=
  match base with
  | None => True
  | Some st =>
      (cp_size c = st_size st /\ cp_root c = st_root st) \/
      (st_size st = 0 /\ st_root st = empty_root /\ 0 < cp_size c) \/
      (0 < st_size st < cp_size c /\
       verify_consistency (Z.to_nat (st_size st)) (st_root st) (Z.to_nat (cp_size c)) (cp_root c) proof = true)
  end.

Definition stored_ok (s : option Stored) : Prop :=
  match s with Some st => in_uint 64 (st_size st) /\ utf8_ok (st_note st) = true | None => True end.

Definition next_of (c : Checkpoint) (sub : Submission) : Stored :=
  {| st_size := cp_size c; st_root := cp_root c; st_note := sub_note sub |}.

Lemma checkpoint_size note key c : checkpoint_verify note key = Ok c -> in_uint 64 (cp_size c).
Proof.
  intros (_ & body & sigs & _ & (s & _ & Hs) & _)%checkpoint_verify_Ok. by apply parse_uint_range in Hs.
Qed.

Lemma consistency_order m r n r' proof : verify_consistency m r n r' proof = true -> (0 < m <= n)%nat.
Proof.
  unfold verify_consistency. destruct (m =? 0)%nat eqn:E, (n <? m)%nat eqn:E'; cbn [orb]; try done. b2p. lia.
Qed.

Lemma check_extension_Ok s c sub u : in_uint 64 (cp_size c) -> stored_ok s -> check_extension s c sub = Ok u ->
  extends s c (sub_proof sub).
Proof.
  intros Hc Hs H. destruct s as [st|]; [|done]. destruct Hs as [Hs _]. unfold in_uint in *. cbn [check_extension extends] in *.
  apply bind_Ok in H as (u' & _ & H). destruct (cp_size c =? st_size st) eqn:E1; b2p.
  { left. apply guard_Ok in H. by b2p. }
  destruct (st_size st =? 0) eqn:E2; b2p; right.
  - left. apply guard_Ok in H. b2p. split_and!; [done|done|lia].
  - right. apply guard_Ok in H. b2p. split; [|done].
    match goal with Hv : verify_consistency _ _ _ _ _ = true |- _ => apply consistency_order in Hv end. lia.
Qed.

Lemma review_Ok w s body now c sub line : stored_ok s -> review w s body now = Ok (c, sub, line) ->
  cp_origin c = log_origin w /\ extends s c (sub_proof sub) /\ stored_ok (Some (next_of c sub)) /\
  (cp_size c = 0 -> cp_root c = empty_root) /\ parse_submission body = Some sub /\
  cosignature_line c (wt_name w) (signing_key w) now = Ok line.
Proof.
  intros Hs H. unfold review in H. apply bind_Ok in H as (u1 & _ & H). apply bind_Ok in H as (u2 & Hu%guard_Ok & H).
  apply bind_Ok in H as (sub' & Hp%ok_or_Ok & H). apply bind_Ok in H as (c' & Hc%ok_or_Ok & H).
  apply bind_Ok in H as (u3 & Ho%guard_Ok & H). apply bind_Ok in H as (u4 & He%guard_Ok & H).
  apply bind_Ok in H as (u5 & Ha & H). apply bind_Ok in H as (line' & Hl%ok_or_Ok & H). injection H as -> -> ->. b2p.
  destruct (checkpoint_verify (sub_note sub) (log_key w)) as [c'|] eqn:Hv; [|done]. injection Hc as ->.
  destruct (cosignature_line c _ _ _) as [l|] eqn:El; [|done]. injection Hl as ->.
  apply checkpoint_size in Hv. split_and!; try done.
  - by apply (check_extension_Ok s c sub u5).
  - split; [done|]. by apply (parse_submission_utf8 body).
  - intros Hz. rewrite Hz in He. cbn in He. by b2p.
Qed.

(** No refusal has the status of success. *)
Definition refuses {A} (r : result Response A) : Prop := match r with Err e => status e <> 200 | Ok _ => True end.

Lemma refuses_bind {A B} (r : result Response A) (k : A -> result Response B) :
  refuses r -> (forall a, refuses (k a)) -> refuses (r ≫= k).
Proof. destruct r; cbn; auto. Qed.
Lemma refuses_guard c e : status e <> 200 -> refuses (guard c e).
Proof. by destruct c. Qed.
Lemma refuses_ok_or {A} (o : option A) e : status e <> 200 -> refuses (ok_or o e).
Proof. by destruct o. Qed.

Lemma review_refuses w s body now : refuses (review w s body now).
Proof.
  unfold review. repeat (apply refuses_bind; [|intros ?]); try (apply refuses_guard || apply refuses_ok_or; done); [|done].
  destruct s as [st|]; cbn [check_extension]; [|by apply refuses_guard]. apply refuses_bind; [by apply refuses_guard|].
  intros _. repeat case_match; by apply refuses_guard.
Qed.

Lemma add_checkpoint_spec w s d body now written resp s' d' : add_checkpoint w s d body now written = (resp, s', d') ->
  (status resp <> 200 /\ s' = s /\ d' = d) \/
  (exists c sub line, review w s body now = Ok (c, sub, line) /\ written = true /\ resp = text 200 line /\
   s' = Some (next_of c sub) /\
   d' = Some (stored_to_vec_pretty (cp_size c) (hex_serialize (cp_root c)) (sub_note sub))).
Proof.
  unfold add_checkpoint. pose proof (review_refuses w s body now) as Hr. destruct (review w s body now) as [[[c sub] line]|e].
  - unfold save_state. destruct written; intros [= <- <- <-]; [right|left; done]. exists c, sub, line. done.
  - intros [= <- <- <-]. by left.
Qed.

Context {SL : StoredJsonLaws}.

Lemma load_saved c sub : stored_ok (Some (next_of c sub)) ->
  load_state (Some (stored_to_vec_pretty (cp_size c) (hex_serialize (cp_root c)) (sub_note sub))) true = Returns (Some (next_of c sub)).
Proof.
  intros [Hs Hn]. unfold load_state. cbn [mbind option_bind]. unfold hex_serialize.
  rewrite stored_json_roundtrip by (done || apply hex_of_utf8). unfold hex_deserialize. rewrite hex_pairs_hex_of.
  cbn [mbind option_bind]. by rewrite (proj2 (arr_of_list_Some 32 _ (cp_root c)) eq_refl).
Qed.

Lemma load_typed d readable s : load_state d readable = Returns s -> stored_ok s.
Proof.
  unfold load_state. destruct (_ ≫= _) as [[[size root] note]|] eqn:E; [|by intros [= <-]].
  apply bind_Some in E as (bs & _ & E%stored_json_typed). destruct (hex_deserialize root) as [|[rt|]]; intros [= <-]; done.
Qed.

(** Accepted checkpoints follow one another: each was checked against the one before, which is what the service holds. *)
Inductive linked : list Accepted -> option Stored -> Prop :=
| linked_nil s : stored_ok s -> linked [] s
| linked_snoc tr s a note : linked tr s -> ac_base a = s -> extends s (ac_checkpoint a) (ac_proof a) ->
    in_uint 64 (cp_size (ac_checkpoint a)) -> utf8_ok note = true ->
    linked (tr ++ [a]) (Some {| st_size := cp_size (ac_checkpoint a); st_root := cp_root (ac_checkpoint a); st_note := note |}).

Lemma linked_ok tr s : linked tr s -> stored_ok s.
Proof. by destruct 1. Qed.

(** The invariant of every run: what a start would read from the file, and what a running process holds, is the end of the chain of
    checkpoints accepted since the service last may have forgotten. *)
Definition holds (evs : list Event) (n : Node) : Prop :=
  (forall s, load_state (disk n) true = Returns s -> linked (segment evs) s) /\ (forall m, running n = Some m -> linked (segment evs) m).

Lemma segment_app evs evs' : segment (evs ++ evs') = foldl remember (segment evs) evs'.
Proof. apply foldl_app. Qed.

Lemma accept_holds w evs m d body now written resp m' d' c sub line sent r :
  linked (segment evs) m -> add_checkpoint w m d body now written = (resp, m', d') -> status resp = 200 ->
  review w m body now = Ok (c, sub, line) -> r = Some m' \/ r = None ->
  holds (evs ++ [Accept {| ac_base := m; ac_checkpoint := c; ac_proof := sub_proof sub; ac_line := sent |}]) {| running := r; disk := d' |}.
Proof.
  intros HL Hadd H200 Hrev Hr. pose proof (linked_ok _ _ HL) as Hok. destruct (review_Ok _ _ _ _ _ _ _ Hok Hrev) as (_ & Hext & Hok' & _ & _ & _).
  apply add_checkpoint_spec in Hadd as [[? _]|(c' & sub' & line' & Hrev' & _ & _ & -> & ->)]; [done|].
  rewrite Hrev in Hrev'. injection Hrev' as <- <- <-.
  assert (linked (segment evs ++ [{| ac_base := m; ac_checkpoint := c; ac_proof := sub_proof sub; ac_line := sent |}]) (Some (next_of c sub))) as HL'.
  { apply (linked_snoc _ m {| ac_base := m; ac_checkpoint := c; ac_proof := sub_proof sub; ac_line := sent |} (sub_note sub)); [done|done|done|apply Hok'|apply Hok']. }
  unfold holds. rewrite segment_app. cbn [foldl remember disk running]. split.
  - intros s. rewrite load_saved by done. by intros [= <-].
  - destruct Hr as [-> | ->]; [|done]. by intros ? [= <-].
Qed.

Lemma run_holds w evs n : run w evs n -> holds evs n.
Proof.
  induction 1 as [|evs n ev n' _ [Hd Hm] Hstep].
  { split; [|done]. intros s [= <-]. by constructor. }
  destruct Hstep as [d readable m Hload|m d body now written resp m' d' Hadd Hne|m d body now written resp m' d' c sub line Hadd H200 Hrev
    |m d body now resp m' d' c sub line Hadd H200 Hrev|m d|m d d']; cbn [running disk] in *.
  - destruct readable.
    + rewrite app_nil_r. split; [done|]. intros m' [= <-]. by apply Hd.
    + unfold holds. rewrite segment_app. cbn. split; [intros s Hs; constructor; by eapply load_typed|].
      intros m' [= <-]. constructor. by eapply load_typed.
  - apply add_checkpoint_spec in Hadd as [(_ & -> & ->)|(c & sub & line & _ & _ & -> & _)]; [|done]. by rewrite app_nil_r.
  - eapply accept_holds; eauto.
  - eapply accept_holds; eauto.
  - rewrite app_nil_r. done.
  - unfold holds. rewrite segment_app. cbn. split; [|done]. intros s Hs. constructor. by eapply load_typed.
Qed.

Lemma run_linked w evs n : run w evs n -> exists s, linked (segment evs) s.
Proof.
  induction 1 as [|evs n ev n' R [s0 IH] Hstep]; [exists None; by constructor|]. pose proof (run_holds _ _ _ R) as [Hd Hm].
  pose proof (run_holds _ _ _ (run_step _ _ _ _ _ R Hstep)) as [Hd' Hm'].
  destruct Hstep as [d [] m Hload|m d body now written resp m' d' Hadd Hne|m d body now written resp m' d' c sub line Hadd H200 Hrev
    |m d body now resp m' d' c sub line Hadd H200 Hrev|m d|m d d']; cbn [running disk] in *; rewrite ?app_nil_r; eauto.
  - apply add_checkpoint_spec in Hadd as [[? _]|(c' & sub' & line' & Hrev' & _ & _ & -> & ->)]; [done|].
    eexists. apply Hd'. apply load_saved. by destruct (review_Ok _ _ _ _ _ _ _ (linked_ok _ _ (Hm _ eq_refl)) Hrev') as (_ & _ & ? & _).
  - rewrite segment_app. exists None. by constructor.
Qed.

(** A beginning of what happened is what happened in a shorter run. *)
Lemma run_prefix w evs n : run w evs n -> forall k, exists n', run w (take k evs) n'.
Proof.
  induction 1 as [|evs n ev n' R IH Hstep]; intros k; [exists {| running := None; disk := None |}; rewrite take_nil; constructor|].
  destruct (Nat.le_gt_cases k (length evs)) as [Hle|Hgt]; [rewrite take_app_le by done; apply IH|].
  assert (length ev <= 1)%nat as Hl by (destruct Hstep; repeat case_match; cbn; lia).
  rewrite take_ge by (rewrite length_app; lia). exists n'. by eapply run_step.
Qed.

Lemma segment_accepted evs : segment evs ⊆ accepted evs.
Proof.
  induction evs as [|e evs IH] using rev_ind; [done|]. rewrite segment_app. unfold accepted. rewrite omap_app.
  destruct e as [a|]; cbn [foldl remember omap list_omap accepted_of mbind option_bind app]; set_solver.
Qed.

Lemma remember_all held l : foldl remember held (Accept <$> l) = held ++ l.
Proof. revert held. induction l as [|a l IH]; intros held; [by rewrite app_nil_r|]. cbn. rewrite IH, <-(assoc_L (++)). done. Qed.

(** Events without a loss are acceptances. *)
Lemma all_accepted evs : Forgot ∉ evs -> evs = Accept <$> accepted evs.
Proof. induction evs as [|[a|] evs IH]; intros H; [done| |set_solver]. cbn. f_equal. apply IH. set_solver. Qed.

(** Two acceptances without a loss between them are in one chain. *)
Lemma same_chain w evs n i j a b : run w evs n -> evs !! i = Some (Accept a) -> evs !! j = Some (Accept b) -> (i <= j)%nat ->
  (forall k, (i < k < j)%nat -> evs !! k <> Some Forgot) ->
  exists tr s i' j', linked tr s /\ tr ⊆ accepted evs /\ tr !! i' = Some a /\ tr !! j' = Some b /\ (i' <= j')%nat.
Proof.
  intros R Hi Hj Hij Hk. destruct (run_prefix _ _ _ R (S j)) as [n' R']. apply run_linked in R' as [s HL].
  pose proof (segment_accepted (take (S j) evs)) as Hsub. set (mid := drop i (take (S j) evs)).
  pose proof (take_drop i (take (S j) evs)) as E. fold mid in E. rewrite take_take, Nat.min_l in E by lia.
  assert (forall k, mid !! k = if decide (k <= j - i)%nat then evs !! (i + k)%nat else None) as Hmid.
  { intros k. unfold mid. rewrite lookup_drop. case_decide; [by rewrite lookup_take_lt by lia|]. by rewrite lookup_take_ge by lia. }
  assert (Forgot ∉ mid) as Hnf.
  { intros [k Hf]%list_elem_of_lookup. rewrite Hmid in Hf. case_decide; [|done]. destruct (decide (k = 0)%nat) as [->|]; [rewrite Nat.add_0_r in Hf; congruence|].
    destruct (decide (k = j - i)%nat) as [->|]; [replace (i + (j - i))%nat with j in Hf by lia; congruence|]. by apply (Hk (i + k)%nat); [lia|]. }
  apply all_accepted in Hnf. set (l := accepted mid) in *. rewrite <-E, segment_app, Hnf, remember_all in HL, Hsub.
  assert (forall k x, (k <= j - i)%nat -> evs !! (i + k)%nat = Some (Accept x) -> l !! k = Some x) as Hl.
  { intros k x Hle Hx. pose proof (Hmid k) as Hm. rewrite decide_True, Hx, Hnf, list_lookup_fmap in Hm by done. by destruct (l !! k); [injection Hm as ->|]. }
  exists (segment (take i evs) ++ l), s, (length (segment (take i evs))), (length (segment (take i evs)) + (j - i))%nat. split_and!.
  - done.
  - etrans; [exact Hsub|]. intros x (e & He & Hx)%list_elem_of_omap. apply list_elem_of_omap. exists e. split; [|done].
    rewrite <-Hnf, E in He. by apply (subseteq_take (S j) evs).
  - rewrite lookup_app_r, Nat.sub_diag by lia. apply Hl; [lia|]. by rewrite Nat.add_0_r.
  - rewrite lookup_app_r by lia. replace (_ + (j - i) - _)%nat with (j - i)%nat by lia. apply Hl; [lia|]. by replace (i + (j - i))%nat with j by lia.
  - lia.
Qed.

(** Two acceptances of a stretch without a loss, in either order. *)
Lemma one_chain w before evs after n a b : run w (before ++ evs ++ after) n -> Forgot ∉ evs -> a ∈ accepted evs -> b ∈ accepted evs ->
  exists tr s i j, linked tr s /\ tr ⊆ accepted (before ++ evs ++ after) /\ tr !! i = Some a /\ tr !! j = Some b.
Proof.
  intros R Hnf [i Hi]%list_elem_of_lookup [j Hj]%list_elem_of_lookup. set (all := before ++ evs ++ after) in *.
  assert (forall k, evs !! k = Some Forgot -> False) as Hno by (intros k Hk; apply Hnf; by eapply list_elem_of_lookup_2).
  assert (forall k x, accepted evs !! k = Some x -> all !! (length before + k)%nat = Some (Accept x)) as Hat.
  { intros k x Hx. unfold all. rewrite lookup_app_r, Nat.add_sub' by lia. apply lookup_app_l_Some. rewrite (all_accepted evs Hnf), list_lookup_fmap, Hx. done. }
  assert (forall k, (k < length evs)%nat -> all !! (length before + k)%nat <> Some Forgot) as Hin.
  { intros k Hk. unfold all. rewrite lookup_app_r, Nat.add_sub', lookup_app_l by lia. intros H. by eapply Hno. }
  pose proof (f_equal length (all_accepted evs Hnf)) as El. rewrite length_fmap in El.
  pose proof (lookup_lt_Some _ _ _ Hi). pose proof (lookup_lt_Some _ _ _ Hj).
  assert (forall x y, (x <= y)%nat -> (y < length evs)%nat -> forall k, (length before + x < k < length before + y)%nat -> all !! k <> Some Forgot) as Hgap.
  { intros x y Hxy Hy k Hk. replace k with (length before + (k - length before))%nat by lia. apply Hin. lia. }
  destruct (Nat.le_ge_cases i j) as [Hij|Hij].
  - destruct (same_chain w all n (length before + i) (length before + j) a b R) as (tr & s & i' & j' & ? & ? & ? & ? & _); eauto; [lia|apply Hgap; lia|].
    by exists tr, s, i', j'.
  - destruct (same_chain w all n (length before + j) (length before + i) b a R) as (tr & s & i' & j' & ? & ? & ? & ? & _); eauto; [lia|apply Hgap; lia|].
    by exists tr, s, j', i'.
Qed.

Lemma run_accept w evs m d body now c sub line : run w evs {| running := Some m; disk := d |} ->
  review w m body now = Ok (c, sub, line) ->
  exists a d', run w (evs ++ [Accept a]) {| running := Some (Some (next_of c sub)); disk := d' |} /\
    ac_checkpoint a = c /\ ac_line a = Some line.
Proof.
  intros HR Hrev. destruct (add_checkpoint w m d body now true) as [[resp m'] d'] eqn:E.
  assert (add_checkpoint w m d body now true = (text 200 line, Some (next_of c sub), snd (add_checkpoint w m d body now true))) as E'
    by (unfold add_checkpoint; by rewrite Hrev).
  rewrite E in E'. injection E' as -> ->. do 2 eexists. split; [|shelve].
  eapply run_step; [exact HR|]. eapply step_cosign; [exact E|done|exact Hrev].
  Unshelve. done.
Qed.

(** [log] is a log with the size and root of [c]. *)
Definition behind (log : MerkleLog) (c : Checkpoint) : Prop :=
  Z.of_nat (log_size log) = cp_size c /\ log_root log = cp_root c.

(** The strings hashed to build the trees of the accepted checkpoints over [ls], and to check the proofs between them. *)
Definition journal_inputs (ls : list Hash) (tr : list Accepted) : list bytes :=
  flat_map (fun a =>
    tree_inputs (take (Z.to_nat (cp_size (ac_checkpoint a))) ls) ++
    match ac_base a with
    | Some st => consistency_inputs (st_root st) (Z.to_nat (st_size st)) (Z.to_nat (cp_size (ac_checkpoint a))) (ac_proof a)
    | None => []
    end) tr.

Lemma journal_inputs_take ls n tr : (forall a, a ∈ tr -> (Z.to_nat (cp_size (ac_checkpoint a)) <= n)%nat) ->
  journal_inputs (take n ls) tr = journal_inputs ls tr.
Proof.
  induction tr as [|a tr IH]; intros H; [done|]. unfold journal_inputs in *. cbn [flat_map].
  rewrite take_take, Nat.min_l, IH; [done| |]; set_solver.
Qed.

Lemma extends_size st c proof : in_uint 64 (st_size st) -> extends (Some st) c proof -> st_size st <= cp_size c.
Proof. unfold in_uint. intros Hu [[E _]|[(E & _ & ?)|[? _]]]; lia. Qed.

Lemma linked_sizes tr s : linked tr s -> forall a, a ∈ tr ->
  exists st, s = Some st /\ 0 <= cp_size (ac_checkpoint a) <= st_size st.
Proof.
  induction 1 as [|tr s b note HL IH Hbase Hext Hu _]; intros a Ha; [by apply not_elem_of_nil in Ha|].
  eexists. split; [done|]. cbn [st_size]. unfold in_uint in Hu. apply elem_of_app in Ha as [Ha| ->%list_elem_of_singleton]; [|lia].
  destruct (IH a Ha) as (st & -> & Hle). apply linked_ok in HL as [HL _].
  pose proof (extends_size st _ _ HL Hext). lia.
Qed.

(** One accepted step: the base is the root of the log's first leaves. *)
Lemma extends_root st c proof log : in_uint 64 (st_size st) -> extends (Some st) c proof -> behind log c ->
  root_of log (Z.to_nat (st_size st)) = st_root st \/
  collision_in (tree_inputs (leaves log) ++
    consistency_inputs (st_root st) (Z.to_nat (st_size st)) (Z.to_nat (cp_size c)) proof).
Proof.
  intros Hu He [Hs Hr]. unfold in_uint in Hu. destruct He as [[E1 E2]|[(E1 & E2 & Hlt)|[Hlt Hv]]].
  - left. rewrite <-E1, <-E2, <-Hs, Nat2Z.id. done.
  - left. rewrite E1, E2. done.
  - rewrite <-Hs in *. rewrite Nat2Z.id in *. rewrite <-Hr in Hv. apply consistency_extends; [lia|done].
Qed.

Lemma root_of_prefix log m n : (m <= n <= log_size log)%nat -> root_of {| leaves := take n (leaves log) |} m = root_of log m.
Proof. intros H. unfold root_of. cbn [leaves]. rewrite take_take, Nat.min_l by lia. done. Qed.

Lemma log_root_prefix log n : (n <= log_size log)%nat -> log_root {| leaves := take n (leaves log) |} = root_of log n.
Proof.
  intros H. unfold log_root. cbn [leaves]. unfold log_size in H. rewrite length_take, Nat.min_l by lia.
  apply root_of_prefix. unfold log_size. lia.
Qed.

(** Every checkpoint accepted so far is a root of any log behind the last. *)
Lemma linked_history tr s : linked tr s -> forall st log, s = Some st ->
  Z.of_nat (log_size log) = st_size st -> log_root log = st_root st ->
  forall a, a ∈ tr ->
    root_of log (Z.to_nat (cp_size (ac_checkpoint a))) = cp_root (ac_checkpoint a) \/
    collision_in (journal_inputs (leaves log) tr).
Proof.
  induction 1 as [s _|tr s b note HL IH Hbase Hext Hu _]; [by intros ? ? _ _ _ a Ha%not_elem_of_nil|]. intros st log [= <-] Hs Hr a Ha. cbn [st_size st_root] in *.
  apply elem_of_app in Ha as [Ha| ->%list_elem_of_singleton]; [|left; by rewrite <-Hs, Nat2Z.id].
  destruct (linked_sizes _ _ HL a Ha) as (st & -> & Hle). apply linked_ok in HL as Hok. destruct Hok as [Hok _].
  pose proof (extends_size st _ _ Hok Hext) as Hle'.
  assert (Z.to_nat (st_size st) <= log_size log)%nat as Hn by (unfold in_uint in Hok; lia).
  assert (journal_inputs (leaves log) (tr ++ [b]) = journal_inputs (leaves log) tr ++ journal_inputs (leaves log) [b]) as EJ
    by apply flat_map_app.
  destruct (extends_root st (ac_checkpoint b) (ac_proof b) log Hok Hext (conj Hs Hr)) as [Hroot|Hx].
  - destruct (IH st {| leaves := take (Z.to_nat (st_size st)) (leaves log) |} eq_refl) with (a := a) as [Ea|Hx]; try done.
    + unfold log_size in *. cbn [leaves]. rewrite length_take. unfold in_uint in Hok. lia.
    + by rewrite log_root_prefix.
    + left. rewrite <-Ea. symmetry. apply root_of_prefix. lia.
    + right. eapply collision_in_mono; [|exact Hx]. cbn [leaves]. rewrite journal_inputs_take, EJ; [set_solver|].
      intros x Hin. destruct (linked_sizes _ _ HL x Hin) as (st' & [= <-] & ?). lia.
  - right. eapply collision_in_mono; [|exact Hx]. rewrite EJ. unfold journal_inputs at 2. cbn [flat_map]. rewrite Hbase, app_nil_r.
    replace (take (Z.to_nat (cp_size (ac_checkpoint b))) (leaves log)) with (leaves log); [set_solver|].
    rewrite <-Hs, Nat2Z.id. unfold log_size. by rewrite firstn_all.
Qed.

Lemma linked_prefix tr s : linked tr s -> forall j b, tr !! j = Some b ->
  exists note, linked (take (S j) tr)
    (Some {| st_size := cp_size (ac_checkpoint b); st_root := cp_root (ac_checkpoint b); st_note := note |}).
Proof.
  induction 1 as [|tr s a note HL IH Hbase Hext Hu Hn]; intros j b Hj; [done|].
  apply lookup_app_Some in Hj as [Hj|[Hge Hj]].
  - pose proof (lookup_lt_Some _ _ _ Hj). rewrite take_app_le by lia. by apply IH.
  - assert (j = length tr /\ b = a) as [-> ->].
    { destruct (j - length tr)%nat eqn:E; [|done]. injection Hj as <-. split; [lia|done]. }
    exists note. rewrite take_ge by (rewrite length_app; cbn; lia). by apply (linked_snoc tr s).
Qed.

Lemma journal_inputs_sub ls tr tr' : tr ⊆ tr' -> journal_inputs ls tr ⊆ journal_inputs ls tr'.
Proof.
  intros Hs x Hx. unfold journal_inputs in *. apply list_elem_of_In in Hx. apply list_elem_of_In.
  apply in_flat_map in Hx as (a & Ha & Hx). apply in_flat_map. exists a. split; [|done].
  apply list_elem_of_In, Hs, list_elem_of_In, Ha.
Qed.

(** Two checkpoints accepted in this order are of one log. *)
Lemma linked_forward tr s i j a b (La Lb : MerkleLog) : linked tr s ->
  tr !! i = Some a -> tr !! j = Some b -> (i <= j)%nat -> behind La (ac_checkpoint a) -> behind Lb (ac_checkpoint b) ->
  cp_size (ac_checkpoint a) <= cp_size (ac_checkpoint b) /\
  (leaves La = take (log_size La) (leaves Lb) \/
   collision_in (tree_inputs (leaves La) ++ journal_inputs (leaves Lb) tr)).
Proof.
  intros HL Hi Hj Hij [HsA HrA] [HsB HrB]. destruct (linked_prefix _ _ HL j b Hj) as (note & HP).
  assert (a ∈ take (S j) tr) as Ha by (apply (list_elem_of_lookup_2 _ i); rewrite lookup_take_lt by lia; done).
  destruct (linked_sizes _ _ HP a Ha) as (st & [= <-] & Hle). cbn [st_size] in Hle. split; [lia|].
  assert (take (S j) tr ⊆ tr) as Hsub. { intros x Hx. rewrite <-(take_drop (S j) tr). set_solver. }
  destruct (linked_history _ _ HP _ Lb eq_refl HsB HrB a Ha) as [E|Hx].
  2:{ right. eapply collision_in_mono; [|exact Hx]. pose proof (journal_inputs_sub (leaves Lb) _ _ Hsub). set_solver. }
  rewrite <-HsA, Nat2Z.id in E. destruct (decide (log_size La = 0%nat)) as [E0|Hne].
  { left. rewrite E0. by apply nil_length_inv. }
  assert (log_size La <= log_size Lb)%nat as Hle' by lia. rewrite root_of_take in E by lia.
  rewrite <-HrA, log_root_range in E. symmetry in E.
  destruct (root_range_inj (leaves La) (take (log_size La) (leaves Lb))) as [?|Hx]; [|done|by left|right].
  { rewrite length_take. unfold log_size in *. lia. }
  eapply collision_in_mono; [|exact Hx]. pose proof (list_elem_of_lookup_2 _ _ _ Hi) as Hin.
  pose proof (journal_inputs_sub (leaves Lb) [a] tr ltac:(set_solver)) as Hs.
  intros x [Hx'|Hx']%elem_of_app; apply elem_of_app; [by left|right]. apply Hs. unfold journal_inputs. cbn [flat_map].
  rewrite <-HsA, Nat2Z.id. set_solver.
Qed.

(** C18: a witness that remembers follows one log.  Over any run of the service, with refused submissions, failing writes,
    crashes before and after a write, restarts, power losses and unreadable state files, take two checkpoints it accepted with no
    power loss and no failed reading of the state file between them: the later is at least as large, and
    the log behind the earlier is a prefix of the log behind the later, leaf for leaf, unless two of the strings hashed
    for the logs and for the submitted proofs are a SHA-256 collision. *)
Theorem witness_never_forks (w : Witness) (evs : list Event) (n : Node) (i j : nat) (a b : Accepted) (La Lb : MerkleLog) :
  run w evs n -> evs !! i = Some (Accept a) -> evs !! j = Some (Accept b) -> (i <= j)%nat ->
  (forall k, (i < k < j)%nat -> evs !! k <> Some Forgot) ->
  behind La (ac_checkpoint a) -> behind Lb (ac_checkpoint b) ->
  cp_size (ac_checkpoint a) <= cp_size (ac_checkpoint b) /\
  (leaves La = take (log_size La) (leaves Lb) \/
   collision_in (tree_inputs (leaves La) ++ journal_inputs (leaves Lb) (accepted evs))).
Proof.
  intros R Hi Hj Hij Hk HA HB. destruct (same_chain _ _ _ _ _ _ _ R Hi Hj Hij Hk) as (tr & s & i' & j' & HL & Hsub & Hi' & Hj' & Hij').
  destruct (linked_forward _ _ _ _ _ _ _ _ HL Hi' Hj' Hij' HA HB) as [Hle [?|Hx]]; split; [done|by left|done|right].
  eapply collision_in_mono; [|exact Hx]. pose proof (journal_inputs_sub (leaves Lb) _ _ Hsub). set_solver.
Qed.

(** The service is the only signer of [body] under its key. *)
Definition only_by_service (w : Witness) (tr : list Accepted) (body : str) : Prop :=
  forall timestamp, cosigned (verifying_key (signing_key w)) body timestamp ->
  exists a line, a ∈ tr /\ ac_line a = Some line /\ reads body (ac_checkpoint a).

(** C2: two clients cannot be shown different logs.  If two notes pass the witness policy under one roster,
    there is a single witness that cosigned both, and if its cosignatures on these two bodies came from a run of the
    witness service in which no power loss and no failed reading of the state file fell between the two acceptances, then of the two logs behind the notes one is a prefix of the other, unless two of the strings hashed
    for the logs and the submitted proofs are a SHA-256 collision. *)
Theorem no_split_view (text text' : str) (key key' : VerifyingKey) (ws : list WitnessKey) (t t' : nat)
  (now now' max_age max_age' skew skew' : Z) (v v' : VerifiedCheckpoint) (L L' : MerkleLog) :
  t <> 0%nat -> t' <> 0%nat ->
  verify_with_fresh_witnesses text key ws t now max_age skew = Ok v ->
  verify_with_fresh_witnesses text' key' ws t' now' max_age' skew' = Ok v' ->
  behind L (vc_checkpoint v) -> behind L' (vc_checkpoint v') ->
  exists k body body' timestamp timestamp',
    k ∈ ws /\ cosigned (w_key k) body timestamp /\ cosigned (w_key k) body' timestamp' /\
    reads body (vc_checkpoint v) /\ reads body' (vc_checkpoint v') /\
    forall w before evs after n, verifying_key (signing_key w) = w_key k -> run w (before ++ evs ++ after) n -> Forgot ∉ evs ->
      only_by_service w (accepted evs) body -> only_by_service w (accepted evs) body' ->
      leaves L = take (log_size L) (leaves L') \/ leaves L' = take (log_size L') (leaves L) \/
      collision_in (tree_inputs (leaves L) ++ tree_inputs (leaves L') ++
                    journal_inputs (leaves L) (accepted (before ++ evs ++ after)) ++ journal_inputs (leaves L') (accepted (before ++ evs ++ after))).
Proof.
  intros Ht Ht' Hv%fresh_policy Hv'%fresh_policy HL HL'.
  destruct (shared_witness _ _ _ _ _ _ _ _ _ _ _ Ht Ht' Hv Hv') as (k & body & body' & ts & ts' & Hk & Hr & Hr' & Hc & Hc').
  exists k, body, body', ts, ts'. split_and!; try done. intros w before evs after n Ek Hrun Hnf Hb Hb'. rewrite <-Ek in Hc, Hc'.
  destruct (Hb ts Hc) as (a & _ & Ha & _ & Ra). destruct (Hb' ts' Hc') as (b & _ & Hb1 & _ & Rb).
  rewrite (reads_fun _ _ _ Hr Ra) in HL. rewrite (reads_fun _ _ _ Hr' Rb) in HL'.
  destruct (one_chain _ _ _ _ _ a b Hrun Hnf Ha Hb1) as (tr & s & i & j & HLk & Hsub & Hi & Hj).
  pose proof (journal_inputs_sub (leaves L) _ _ Hsub) as S1. pose proof (journal_inputs_sub (leaves L') _ _ Hsub) as S2.
  destruct (decide (i <= j)%nat) as [Hij|Hij].
  - destruct (linked_forward _ _ _ _ _ _ _ _ HLk Hi Hj Hij HL HL') as [_ [?|Hx]]; [by left|]. do 2 right.
    eapply collision_in_mono; [|exact Hx]. set_solver.
  - destruct (linked_forward _ _ _ _ _ _ _ _ HLk Hj Hi ltac:(lia) HL' HL) as [_ [?|Hx]]; [by right; left|]. do 2 right.
    eapply collision_in_mono; [|exact Hx]. set_solver.
Qed.
End Machine.

(** * A concrete service *)

(** A reading of the three fields: the size in eight bytes, the root with each byte marked, then the note. *)
Fixpoint toy_text (s rest : bytes) : bytes := match s with [] => x00 :: rest | b :: s => x01 :: b :: toy_text s rest end.
Fixpoint toy_untext (bs : bytes) : option (bytes * bytes) :=
  match bs with
  | x01 :: b :: bs => '(s, rest) ← toy_untext bs; Some (b :: s, rest)
  | x00 :: rest => Some ([], rest)
  | _ => None
  end.

#[global] Instance toy_stored : StoredJson := {
  stored_to_vec_pretty size root note := le_bytes 8 size ++ toy_text root note;
  stored_from_slice bs :=
    '(root, note) ← toy_untext (drop 8 bs);
    if utf8_ok note then Some (from_le_bytes (take 8 bs), root, note) else None;
}.

Lemma toy_untext_text s rest : toy_untext (toy_text s rest) = Some (s, rest).
Proof. induction s as [|b s IH]; [done|]. cbn. by rewrite IH. Qed.

#[global] Instance toy_stored_laws : StoredJsonLaws.
Proof.
  split.
  - intros size root note Hs _ Hn. cbn [stored_from_slice stored_to_vec_pretty toy_stored].
    rewrite drop_app_length', take_app_length' by (by rewrite length_le_bytes). rewrite toy_untext_text. cbn [mbind option_bind].
    by rewrite Hn, from_le_bytes_id.
  - intros bs size root note H. cbn in H. apply bind_Some in H as ([r t] & _ & H). destruct (utf8_ok t) eqn:E; [|done]. injection H as <- <- <-.
    split; [|done]. pose proof (from_le_bytes_range (take 8 bs)) as Hr. rewrite length_take in Hr. unfold in_uint in *.
    assert (2 ^ (8 * Z.of_nat (Nat.min 8 (length bs))) <= 2 ^ 64) by (apply Z.pow_le_mono_r; lia). lia.
Qed.

Section Demo.
#[local] Existing Instance toy_crypto.
#[local] Existing Instance toy_laws.

Definition demo_tree (n : nat) : Checkpoint :=
  {| cp_origin := lit "log"; cp_size := Z.of_nat n; cp_root := log_root (demo_log n) |}.
Definition demo_service : Witness :=
  {| wt_name := lit "w"; signing_key := demo_witness; log_origin := lit "log"; log_key := verifying_key demo_operator |}.

(** The operator submits the log of one entry, then that of two. *)
Definition demo_body1 : str := lit "old 0" ++ [NL; NL] ++ checkpoint_sign (demo_tree 1) demo_operator.
Definition demo_body2 : str :=
  lit "old 1" ++ [NL] ++ b64 (vec_to_list (leaf_hash (lit "b"))) ++ [NL; NL] ++ checkpoint_sign (demo_tree 2) demo_operator.

Lemma demo_review1 : exists sub line, review demo_service None demo_body1 1000 = Ok (demo_tree 1, sub, line) /\
  review demo_service (Some (next_of (demo_tree 1) sub)) demo_body2 1001 =
    match review demo_service (Some (next_of (demo_tree 1) sub)) demo_body2 1001 with
    | Ok (_, sub2, line2) => Ok (demo_tree 2, sub2, line2) | Err e => Err e end /\
  is_ok (review demo_service (Some (next_of (demo_tree 1) sub)) demo_body2 1001) = true.
Proof. eexists _, _. split_and!; vm_compute; reflexivity. Qed.

(** The service starts and accepts both. *)
Lemma demo_run : exists a b n line line', run demo_service [Accept a; Accept b] n /\
  ac_checkpoint a = demo_tree 1 /\ ac_checkpoint b = demo_tree 2 /\ ac_line a = Some line /\ ac_line b = Some line'.
Proof.
  destruct demo_review1 as (s1 & l1 & H1 & E2 & H2).
  destruct (review _ (Some _) _ _) as [[[c s2] l2]|] eqn:R2; [|done]. injection E2 as ->.
  assert (run demo_service [] {| running := Some None; disk := None |}) as R0.
  { apply (run_step _ [] {| running := None; disk := None |} []); [apply run_init|]. by apply (step_start _ None true). }
  destruct (run_accept _ _ _ _ _ _ _ _ _ R0 H1) as (a & d1 & R1 & Ea & La).
  destruct (run_accept _ _ _ _ _ _ _ _ _ R1 R2) as (b & d2 & R & Eb & Lb).
  eexists a, b, _, l1, l2. split_and!; [exact R|exact Ea|exact Eb|exact La|exact Lb].
Qed.

Lemma demo_behind n : (n <= 5)%nat -> behind (demo_log n) (demo_tree n).
Proof.
  intros Hn. split; [|done]. unfold log_size, demo_log, from_leaves, demo_tree. cbn [leaves cp_size].
  rewrite length_fmap, length_take. cbn. lia.
Qed.

Lemma witness_never_forks_witness :
  exists evs, cp_size (demo_tree 1) <= cp_size (demo_tree 2) /\
  (leaves (demo_log 1) = take (log_size (demo_log 1)) (leaves (demo_log 2)) \/
   collision_in (tree_inputs (leaves (demo_log 1)) ++ journal_inputs (leaves (demo_log 2)) (accepted evs))).
Proof.
  destruct demo_run as (a & b & n & l & l' & R & Ea & Eb & _). exists [Accept a; Accept b].
  rewrite <-Ea, <-Eb. apply (witness_never_forks demo_service [Accept a; Accept b] n 0 1 a b (demo_log 1) (demo_log 2)).
  - exact R.
  - reflexivity.
  - reflexivity.
  - lia.
  - intros k Hk. lia.
  - rewrite Ea. apply demo_behind. lia.
  - rewrite Eb. apply demo_behind. lia.
Defined.

(** The operator's other log of one entry. *)
Definition fork_tree : Checkpoint :=
  {| cp_origin := lit "log"; cp_size := 1; cp_root := leaf_hash (lit "z") |}.
Definition fork_body : str := lit "old 0" ++ [NL; NL] ++ checkpoint_sign fork_tree demo_operator.

Lemma fork_review : exists sub line, review demo_service None fork_body 1002 = Ok (fork_tree, sub, line).
Proof. eexists _, _. vm_compute. reflexivity. Qed.

(** A witness that cannot read its state file at a restart cosigns a fork: it accepts two different roots of one size, and sends both cosignatures. *)
Lemma forgetful_witness_forks : exists a b n line line', run demo_service [Accept a; Forgot; Accept b] n /\
  ac_line a = Some line /\ ac_line b = Some line' /\
  cp_size (ac_checkpoint a) = cp_size (ac_checkpoint b) /\ cp_root (ac_checkpoint a) <> cp_root (ac_checkpoint b).
Proof.
  destruct demo_review1 as (s1 & l1 & H1 & _). destruct fork_review as (s2 & l2 & H2).
  assert (run demo_service [] {| running := Some None; disk := None |}) as R0.
  { apply (run_step _ [] {| running := None; disk := None |} []); [apply run_init|]. by apply (step_start _ None true). }
  destruct (run_accept _ _ _ _ _ _ _ _ _ R0 H1) as (a & d1 & R1 & Ea & La).
  pose proof (run_step _ _ _ _ _ R1 (step_crash _ _ _)) as R2. rewrite app_nil_r in R2.
  pose proof (run_step _ _ _ _ _ R2 (step_start _ d1 false None eq_refl)) as R3.
  destruct (run_accept _ _ _ _ _ _ _ _ _ R3 H2) as (b & d2 & R & Eb & Lb).
  eexists a, b, _, l1, l2. split; [exact R|]. rewrite Ea, Eb. split_and!; [done|done|done|]. vm_compute. discriminate.
Qed.

Definition demo_seen (n : nat) : str :=
  checkpoint_sign (demo_tree n) demo_operator ++
  match cosignature_line (demo_tree n) (lit "w") demo_witness 1000 with Ok l => l | Err _ => [] end.

Lemma demo_seen_verifies n : n = 1%nat \/ n = 2%nat ->
  verify_with_fresh_witnesses (demo_seen n) (verifying_key demo_operator) demo_roster 1 1010 60 5 =
  Ok {| vc_checkpoint := demo_tree n; witnessed_at := Some 1000 |}.
Proof. intros [-> | ->]; vm_compute; reflexivity. Qed.

Lemma no_split_view_witness :
  exists evs, leaves (demo_log 1) = take (log_size (demo_log 1)) (leaves (demo_log 2)) \/
  leaves (demo_log 2) = take (log_size (demo_log 2)) (leaves (demo_log 1)) \/
  collision_in (tree_inputs (leaves (demo_log 1)) ++ tree_inputs (leaves (demo_log 2)) ++
                journal_inputs (leaves (demo_log 1)) (accepted evs) ++ journal_inputs (leaves (demo_log 2)) (accepted evs)).
Proof.
  destruct demo_run as (a & b & n & l & l' & R & Ea & Eb & La & Lb). exists ([] ++ [Accept a; Accept b] ++ []).
  destruct (no_split_view (demo_seen 1) (demo_seen 2) (verifying_key demo_operator) (verifying_key demo_operator)
    demo_roster 1 1 1010 1010 60 60 5 5 _ _ (demo_log 1) (demo_log 2) ltac:(discriminate) ltac:(discriminate)
    (demo_seen_verifies 1 ltac:(by left)) (demo_seen_verifies 2 ltac:(by right)) (demo_behind 1 ltac:(lia)) (demo_behind 2 ltac:(lia)))
    as (k & body & body' & ts & ts' & Hk & _ & _ & Hr & Hr' & H).
  apply list_elem_of_singleton in Hk. subst k. apply (H demo_service [] [Accept a; Accept b] [] n).
  - reflexivity.
  - exact R.
  - set_solver.
  - intros t _. exists a, l. split_and!; [apply list_elem_of_here|exact La|]. rewrite Ea. exact Hr.
  - intros t _. exists b, l'. split_and!; [apply list_elem_of_further, list_elem_of_here|exact Lb|]. rewrite Eb. exact Hr'.
Defined.
End Demo.
