(* ===== verification/WitnessClient.v ===== *)
(** The registry's client of a witness: [pigeonpost-registry/src/witness.rs].  It submits the operator's checkpoint with a
    consistency proof, turns the answer into a receipt that can be checked again later, recovers from a witness that is
    ahead of its last receipt, and assembles receipts into one quorum note.  The network, the registry's proofs and the
    clock are operations on an opaque world. *)
From S2P Require Import Prelude Text B32 Network Crypto Origin Token Merkle MerkleWalk MerkleProofs.
From S2P Require Import Handle Entry B64 Checkpoint.

Definition MAX_CHECKPOINT_BYTES : Z := 64 * 1024.
Definition MAX_RESPONSE_BYTES : Z := 64 * 1024.
Definition MAX_REQUEST_BYTES : Z := 72 * 1024.
Definition MAX_CONSISTENCY_HASHES : nat := 63.
Definition MAX_SIGNATURE_LINES : nat := 64.
Definition MAX_SIGNATURE_LINE_BYTES : nat := 512.
Definition MAX_CONFLICT_BODY_BYTES : Z := 32.
Definition RECEIPT_VERSION : Z := 1.

Inductive WitnessError :=
| InvalidWitnessConfiguration
| InvalidCheckpoint
| InvalidConsistencyProof
| RequestTooLarge
| ResponseTooLarge
| TransportUnavailable
| Rejected
| InvalidCosignature
| Rollback
| Equivocation
| WitnessAhead
| RecoveryUnavailable
| DeadlineExceeded
| ProofUnavailable
| PublicationUnavailable.

#[global] Instance WitnessError_eq_dec : EqDecision WitnessError.
Proof. solve_decision. Defined.

Abbreviation WitnessResult := (result WitnessError).

(** [map_err(|_| e)] *)
Definition or_err {E A} (r : result E A) (e : WitnessError) : WitnessResult A := ok_or (ok r) e.

Definition size_over (s : bytes) (limit : Z) : bool := limit <? Z.of_nat (length s).

Definition retryable (e : WitnessError) : bool :=
  match e with TransportUnavailable | RecoveryUnavailable => true | _ => false end.

(** * Durations, in nanoseconds *)

Definition SECOND : Z := 1000000000.
Definition DURATION_MAX : Z := (2 ^ 64 - 1) * SECOND + (SECOND - 1).

Record WitnessTiming := {
  connect_timeout : Z;
  request_timeout : Z;
  max_cosignature_age : Z;
  future_clock_skew : Z;
  retry_initial : Z;
  retry_max : Z;
  retry_deadline : Z;
}.

Definition timing_validate (t : WitnessTiming) : WitnessResult WitnessTiming :=
  _ ← guard ((connect_timeout t =? 0) || (30 * SECOND <? connect_timeout t)
             || (request_timeout t <? connect_timeout t) || (60 * SECOND <? request_timeout t)
             || (max_cosignature_age t =? 0) || (24 * 60 * 60 * SECOND <? max_cosignature_age t)
             || (max_cosignature_age t <? future_clock_skew t)
             || (retry_initial t =? 0) || (retry_max t <? retry_initial t) || (30 * SECOND <? retry_max t)
             || (retry_deadline t <? request_timeout t) || (5 * 60 * SECOND <? retry_deadline t))
        InvalidWitnessConfiguration;
  Ok t.

Definition as_secs (d : Z) : Z := d / SECOND.

(** * Text *)

(** Printable ASCII other than the space. *)
Definition is_ascii_graphic (b : byte) : bool := (33 <=? u8 b) && (u8 b <=? 126).

Definition valid_origin (origin : str) : bool :=
  negb (origin ≟ []) && (length origin <=? 256)%nat && forallb is_ascii_graphic origin.

Definition line_prefix (name : str) : str := DASH ++ name ++ [SP].

Definition append_signature (operator_note line : str) : WitnessResult str :=
  _ ← guard (negb (ends_with [NL] operator_note) || (line ≟ []) || contains_byte NL line || contains_byte x0d line)
        InvalidCosignature;
  _ ← guard (MAX_CHECKPOINT_BYTES <? Z.of_nat (length operator_note + length line + 1)) ResponseTooLarge;
  Ok (operator_note ++ line ++ [NL]).

(** The loop over the signature lines: what is written, and whether a line was found. *)
Fixpoint operator_lines (prefix : str) (ls : list str) (out : str) (found : bool) : WitnessResult (str * bool) :=
  match ls with
  | [] => Ok (out, found)
  | line :: ls =>
      if starts_with prefix line then
        if (MAX_SIGNATURE_LINE_BYTES <? length line)%nat then Err InvalidCheckpoint
        else operator_lines prefix ls (out ++ line ++ [NL]) true
      else operator_lines prefix ls out found
  end.

Definition operator_only_note (note operator_name : str) : WitnessResult str :=
  '(body, signatures) ← ok_or (split_once_str [NL; NL] note) InvalidCheckpoint;
  '(out, found) ← operator_lines (line_prefix operator_name) (lines signatures) (body ++ [NL; NL]) false;
  if found : bool then Ok out else Err InvalidCheckpoint.

(** The loop that stops at the first line of another name, at a long line or after too many. *)
Fixpoint named_lines (prefix : str) (ls : list str) (count : nat) : bool :=
  match ls with
  | [] => (0 <? count)%nat
  | line :: ls =>
      if (MAX_SIGNATURE_LINES <? S count)%nat || (MAX_SIGNATURE_LINE_BYTES <? length line)%nat
         || negb (starts_with prefix line) then false
      else named_lines prefix ls (S count)
  end.

Definition only_named_signatures (note expected_name : str) : WitnessResult bool :=
  '(_, signatures) ← ok_or (split_once_str [NL; NL] note) InvalidCheckpoint;
  Ok (named_lines (line_prefix expected_name) (lines signatures) 0).

Definition parse_size_line (body : bytes) : option Z :=
  if negb (utf8_ok body) then None
  else
    digits ← strip_suffix [NL] body;
    if (digits ≟ []) || ((1 <? length digits)%nat && starts_with (lit "0") digits)
       || negb (forallb is_ascii_digit digits) then None
    else parse_uint 64 digits.

Definition request_body (old_size : Z) (proof : list Hash) (operator_note : str) : WitnessResult bytes :=
  _ ← guard ((MAX_CONSISTENCY_HASHES <? length proof)%nat || ((old_size =? 0) && negb (proof ≟ []))
             || (operator_note ≟ []) || size_over operator_note MAX_CHECKPOINT_BYTES
             || negb (ends_with [NL] operator_note)) InvalidConsistencyProof;
  let body := lit "old " ++ decimal old_size ++ [NL] ++ concat (map (fun h => b64 (vec_to_list h) ++ [NL]) proof)
              ++ [NL] ++ operator_note in
  _ ← guard (size_over body MAX_REQUEST_BYTES) RequestTooLarge;
  Ok body.

(** * Order of checkpoints *)

Definition ensure_order (old new : Checkpoint) : WitnessResult unit :=
  _ ← guard (negb (cp_origin old ≟ cp_origin new) || (cp_size new <? cp_size old)) Rollback;
  guard ((cp_size old =? cp_size new) && negb (hash_eq (cp_root old) (cp_root new))) Equivocation.

(** * Receipts *)

Record WitnessReceipt := {
  rc_version : Z;
  rc_witness_name : str;
  rc_origin : str;
  rc_size : Z;
  rc_root : Hash;
  rc_note : str;
  rc_witnessed_at : Z;
}.

Definition receipt_checkpoint (r : WitnessReceipt) : Checkpoint :=
  {| cp_origin := rc_origin r; cp_size := rc_size r; cp_root := rc_root r |}.

Section Client.
Context {C : Crypto}.

(** [WitnessClient] without its URLs and HTTP handle. *)
Record WitnessClient := { wc_witness : WitnessKey; wc_origin : str; operator_key : VerifyingKey; timing : WitnessTiming }.

Definition client_new (witness : WitnessKey) (origin : str) (operator_key : VerifyingKey) (timing : WitnessTiming)
  : WitnessResult WitnessClient :=
  timing ← timing_validate timing;
  _ ← guard (negb (valid_origin origin) || (origin ≟ w_name witness)) InvalidWitnessConfiguration;
  Ok {| wc_witness := witness; wc_origin := origin; operator_key := operator_key; timing := timing |}.

Definition verify_operator_note (k : WitnessClient) (note : str) : WitnessResult Checkpoint :=
  _ ← guard ((note ≟ []) || size_over note MAX_CHECKPOINT_BYTES || negb (ends_with [NL] note)) InvalidCheckpoint;
  named ← only_named_signatures note (wc_origin k);
  _ ← guard (negb named) InvalidCheckpoint;
  checkpoint ← or_err (checkpoint_verify note (operator_key k)) InvalidCheckpoint;
  _ ← guard (negb (cp_origin checkpoint ≟ wc_origin k)) InvalidCheckpoint;
  Ok checkpoint.

Definition verify_stored_receipt (k : WitnessClient) (receipt : WitnessReceipt) : WitnessResult Checkpoint :=
  _ ← guard (negb (rc_version receipt =? RECEIPT_VERSION) || negb (rc_witness_name receipt ≟ w_name (wc_witness k))
             || negb (rc_origin receipt ≟ wc_origin k) || (rc_witnessed_at receipt =? 0)
             || size_over (rc_note receipt) MAX_CHECKPOINT_BYTES) InvalidCosignature;
  verified ← or_err (verify_with_fresh_witnesses (rc_note receipt) (operator_key k) [wc_witness k] 1 I64_MAX I64_MAX 0)
               InvalidCosignature;
  _ ← guard (negb (witnessed_at verified ≟ Some (rc_witnessed_at receipt))
             || negb (cp_origin (vc_checkpoint verified) ≟ rc_origin receipt)
             || negb (cp_size (vc_checkpoint verified) =? rc_size receipt)
             || negb (hash_eq (cp_root (vc_checkpoint verified)) (rc_root receipt))) InvalidCosignature;
  Ok (vc_checkpoint verified).

(** Whether one line is this witness's fresh cosignature on the checkpoint: its time and the note it makes. *)
Definition candidate (k : WitnessClient) (operator_note : str) (checkpoint : Checkpoint) (now_secs : Z) (line : str)
  : WitnessResult (option (Z * str)) :=
  candidate_note ← append_signature operator_note line;
  match verify_with_fresh_witnesses candidate_note (operator_key k) [wc_witness k] 1 now_secs
          (as_secs (max_cosignature_age (timing k))) (as_secs (future_clock_skew (timing k))) with
  | Err _ => Ok None
  | Ok verified =>
      match witnessed_at verified with
      | None => Ok None
      | Some timestamp =>
          if (timestamp =? 0) || negb (cp_origin (vc_checkpoint verified) ≟ cp_origin checkpoint)
             || negb (cp_size (vc_checkpoint verified) =? cp_size checkpoint)
             || negb (hash_eq (cp_root (vc_checkpoint verified)) (cp_root checkpoint)) then Ok None
          else Ok (Some (timestamp, candidate_note))
      end
  end.

(** The loop over the answered lines keeps the newest. *)
Fixpoint receipt_loop (k : WitnessClient) (operator_note : str) (checkpoint : Checkpoint) (now_secs : Z) (ls : list str)
  (count : nat) (accepted : option (Z * str)) : WitnessResult (option (Z * str)) :=
  match ls with
  | [] => Ok accepted
  | line :: ls =>
      if (MAX_SIGNATURE_LINES <? S count)%nat || (MAX_SIGNATURE_LINE_BYTES <? length line)%nat then Err InvalidCosignature
      else if negb (starts_with (line_prefix (w_name (wc_witness k))) line)
      then receipt_loop k operator_note checkpoint now_secs ls (S count) accepted
      else
        found ← candidate k operator_note checkpoint now_secs line;
        let accepted :=
          match found, accepted with
          | Some (timestamp, note), Some (accepted_at, _) => if accepted_at <? timestamp then Some (timestamp, note) else accepted
          | Some c, None => Some c
          | None, _ => accepted
          end in
        receipt_loop k operator_note checkpoint now_secs ls (S count) accepted
  end.

Definition receipt_from_lines (k : WitnessClient) (operator_note : str) (checkpoint : Checkpoint) (ls : str) (now_secs : Z)
  : WitnessResult WitnessReceipt :=
  _ ← guard (size_over ls MAX_RESPONSE_BYTES) ResponseTooLarge;
  _ ← guard ((ls ≟ []) || negb (ends_with [NL] ls)) InvalidCosignature;
  accepted ← receipt_loop k operator_note checkpoint now_secs (lines ls) 0 None;
  '(witnessed_at, note) ← ok_or accepted InvalidCosignature;
  Ok {| rc_version := RECEIPT_VERSION; rc_witness_name := w_name (wc_witness k); rc_origin := cp_origin checkpoint;
        rc_size := cp_size checkpoint; rc_root := cp_root checkpoint; rc_note := note; rc_witnessed_at := witnessed_at |}.

Definition receipt_from_note (k : WitnessClient) (note : str) (now_secs : Z) : WitnessResult WitnessReceipt :=
  _ ← guard ((note ≟ []) || size_over note MAX_RESPONSE_BYTES || negb (ends_with [NL] note)) InvalidCosignature;
  operator_note ← operator_only_note note (wc_origin k);
  checkpoint ← verify_operator_note k operator_note;
  '(_, signatures) ← ok_or (split_once_str [NL; NL] note) InvalidCosignature;
  receipt_from_lines k operator_note checkpoint signatures now_secs.
End Client.

(** * The world *)

(** An HTTP response: its body arrives in chunks and may break off. *)
Record Reply := { rp_status : Z; rp_content_type : option str; rp_content_length : option Z; rp_chunks : list bytes; rp_broken : bool }.

Fixpoint read_chunks (chunks : list bytes) (broken : bool) (limit : Z) (body : bytes) : WitnessResult bytes :=
  match chunks with
  | [] => if broken then Err TransportUnavailable else Ok body
  | chunk :: chunks =>
      if limit <? Z.of_nat (length body + length chunk) then Err ResponseTooLarge
      else read_chunks chunks broken limit (body ++ chunk)
  end.

Definition read_limited (response : Reply) (limit : Z) : WitnessResult bytes :=
  _ ← guard (match rp_content_length response with Some len => limit <? len | None => false end) ResponseTooLarge;
  read_chunks (rp_chunks response) (rp_broken response) limit [].

(** What the client does to the world [S]: it posts a submission, gets the monitored checkpoint and asks the registry for a
    consistency proof.  No reply is a failed or timed-out request. *)
Class World (S : Type) := {
  post : S -> bytes -> option Reply * S;
  get_monitored : S -> option Reply * S;
  proof_for : S -> Z -> Z -> WitnessResult (list Hash) * S;
}.

(** Computations on the world; an error leaves the world as it was when it occurred. *)
Definition Io (S A : Type) : Type := S -> WitnessResult A * S.
#[global] Instance Io_ret {S} : MRet (Io S) := fun A a s => (Ok a, s).
#[global] Instance Io_bind {S} : MBind (Io S) := fun A B k m s =>
  match m s with (Ok a, s') => k a s' | (Err e, s') => (Err e, s') end.
Definition pure_ {S A} (r : WitnessResult A) : Io S A := fun s => (r, s).

Inductive SubmitResponse := Cosignatures (text : str) | Conflict (size : Z).

Section Flow.
Context {C : Crypto} {S : Type} {W : World S}.

Definition server_failed (status : Z) : bool := ((500 <=? status) && (status <? 600)) || (status =? 429).

(** What [submit] makes of a response. *)
Definition read_submission (response : Reply) : WitnessResult SubmitResponse :=
  if rp_status response =? 200 then
    body ← read_limited response MAX_RESPONSE_BYTES;
    _ ← guard (negb (utf8_ok body)) InvalidCosignature;
    Ok (Cosignatures body)
  else if rp_status response =? 409 then
    _ ← guard (negb (match rp_content_type response with
                     | Some value => eq_ignore_ascii_case value (lit "text/x.tlog.size")
                     | None => false end)) RecoveryUnavailable;
    body ← read_limited response MAX_CONFLICT_BODY_BYTES;
    size ← ok_or (parse_size_line body) RecoveryUnavailable;
    Ok (Conflict size)
  else if server_failed (rp_status response) then Err TransportUnavailable
  else Err Rejected.

Definition submit (old_size : Z) (proof : list Hash) (operator_note : str) : Io S SubmitResponse :=
  body ← pure_ (request_body old_size proof operator_note);
  response ← (fun s => let '(r, s) := post s body in (ok_or r TransportUnavailable, s)) : Io S Reply;
  pure_ (read_submission response).

Definition read_monitored (response : Reply) : WitnessResult str :=
  _ ← guard (rp_status response =? 404) RecoveryUnavailable;
  _ ← guard (server_failed (rp_status response)) TransportUnavailable;
  _ ← guard (negb (rp_status response =? 200)) Rejected;
  body ← read_limited response MAX_RESPONSE_BYTES;
  _ ← guard (negb (utf8_ok body)) InvalidCosignature;
  Ok body.

Definition fetch_monitored_checkpoint : Io S str :=
  response ← (fun s => let '(r, s) := get_monitored s in (ok_or r TransportUnavailable, s)) : Io S Reply;
  pure_ (read_monitored response).

(** A proof from the registry, its error replaced. *)
Definition ask_proof (old new : Z) : Io S (list Hash) := fun s =>
  let '(r, s) := proof_for s old new in (or_err r ProofUnavailable, s).

Definition checked_proof (old : option Checkpoint) (target : Checkpoint) : Io S (list Hash) :=
  match old with
  | None => mret []
  | Some old =>
      _ ← pure_ (ensure_order old target);
      if (cp_size old =? 0) || (cp_size old =? cp_size target) then mret []
      else
        proof ← ask_proof (cp_size old) (cp_size target);
        _ ← pure_ (guard ((MAX_CONSISTENCY_HASHES <? length proof)%nat
                     || negb (verify_consistency (Z.to_nat (cp_size old)) (cp_root old)
                                (Z.to_nat (cp_size target)) (cp_root target) proof)) InvalidConsistencyProof);
        mret proof
  end.

(** The second half of the recovery, through the witness's monitoring endpoint. *)
Definition recover_monitored (k : WitnessClient) (expected_size : Z) (operator_note : str) (target : Checkpoint)
  (previous : option Checkpoint) (now_secs : Z) : Io S WitnessReceipt :=
  monitored_note ← fetch_monitored_checkpoint;
  monitored ← pure_ (receipt_from_note k monitored_note now_secs);
  _ ← pure_ (guard (negb (rc_size monitored =? expected_size)) RecoveryUnavailable);
  let monitored_checkpoint := receipt_checkpoint monitored in
  _ ← pure_ (guard (cp_size target <? cp_size monitored_checkpoint) WitnessAhead);
  _ ← match previous with
      | None => mret tt
      | Some previous =>
          _ ← pure_ (ensure_order previous monitored_checkpoint);
          if cp_size previous <? rc_size monitored then
            proof ← ask_proof (cp_size previous) (rc_size monitored);
            pure_ (guard ((MAX_CONSISTENCY_HASHES <? length proof)%nat
                     || negb (verify_consistency (Z.to_nat (cp_size previous)) (cp_root previous)
                                (Z.to_nat (rc_size monitored)) (rc_root monitored) proof)) Equivocation)
          else mret tt
      end;
  _ ← pure_ (ensure_order monitored_checkpoint target);
  if rc_size monitored =? cp_size target then mret monitored
  else
    proof ← checked_proof (Some monitored_checkpoint) target;
    answer ← submit (rc_size monitored) proof operator_note;
    match answer with
    | Cosignatures ls => pure_ (receipt_from_lines k operator_note target ls now_secs)
    | Conflict _ => pure_ (Err RecoveryUnavailable)
    end.

(** The crash-after-submit case: the witness already holds the target's size. *)
Definition resubmit (k : WitnessClient) (expected_size : Z) (operator_note : str) (target : Checkpoint)
  (previous : option Checkpoint) (now_secs : Z) : Io S WitnessReceipt := fun s =>
  match submit expected_size [] operator_note s with
  | (Ok (Cosignatures ls), s) => (receipt_from_lines k operator_note target ls now_secs, s)
  | (Ok (Conflict _), s) | (Err Rejected, s) =>
      recover_monitored k expected_size operator_note target previous now_secs s
  | (Err error, s) => (Err error, s)
  end.

Definition recover_conflict (k : WitnessClient) (expected_size : Z) (operator_note : str) (target : Checkpoint)
  (previous : option Checkpoint) (now_secs : Z) : Io S WitnessReceipt :=
  _ ← pure_ (guard (cp_size target <? expected_size) WitnessAhead);
  if expected_size =? cp_size target then resubmit k expected_size operator_note target previous now_secs
  else recover_monitored k expected_size operator_note target previous now_secs.

Definition cosign_attempt (k : WitnessClient) (operator_note : str) (previous : option WitnessReceipt) (now_secs : Z)
  : Io S WitnessReceipt :=
  target ← pure_ (verify_operator_note k operator_note);
  previous_checkpoint ← match previous with
                        | Some receipt => c ← pure_ (verify_stored_receipt k receipt); mret (Some c)
                        | None => mret None
                        end;
  _ ← match previous_checkpoint with Some old => pure_ (ensure_order old target) | None => mret tt end;
  let old_size := match previous_checkpoint with Some old => cp_size old | None => 0 end in
  proof ← checked_proof previous_checkpoint target;
  answer ← submit old_size proof operator_note;
  match answer with
  | Cosignatures ls => pure_ (receipt_from_lines k operator_note target ls now_secs)
  | Conflict expected_size => recover_conflict k expected_size operator_note target previous_checkpoint now_secs
  end.
End Flow.

(** * Retrying within a deadline *)

(** The monotonic clock: [elapsed] since the call started, [sleep], and a timeout around an attempt, which either cuts
    it off or lets it finish. *)
Class Clock (S : Type) := {
  elapsed : S -> Z * S;
  sleep : S -> Z -> S;
  cut_off : S -> Z -> option S;
}.

Section Retry.
Context {C : Crypto} {S : Type} {W : World S} {CK : Clock S}.

(** The loop, [None] when the fuel runs out. *)
Fixpoint retry_loop (k : WitnessClient) (operator_note : str) (previous : option WitnessReceipt) (now_secs : Z)
  (fuel : nat) (delay : Z) (s : S) : option (WitnessResult WitnessReceipt * S) :=
  match fuel with
  | O => None
  | Datatypes.S fuel =>
      let '(e, s) := elapsed s in
      let remaining := saturating_sub (retry_deadline (timing k)) e in
      if remaining =? 0 then Some (Err DeadlineExceeded, s)
      else
        let '(e, s) := elapsed s in
        let attempt_now := saturating_add 64 now_secs (as_secs e) in
        match cut_off s remaining with
        | Some s => Some (Err DeadlineExceeded, s)
        | None =>
            match cosign_attempt k operator_note previous attempt_now s with
            | (Ok receipt, s) => Some (Ok receipt, s)
            | (Err error, s) =>
                if negb (retryable error) then Some (Err error, s)
                else
                  let '(e, s) := elapsed s in
                  let remaining := saturating_sub (retry_deadline (timing k)) e in
                  if remaining <=? delay then Some (Err DeadlineExceeded, s)
                  else
                    let s := sleep s delay in
                    retry_loop k operator_note previous now_secs fuel
                      (Z.min (Z.min (delay * 2) DURATION_MAX) (retry_max (timing k))) s
            end
        end
  end.

(** One attempt per [retry_initial] of the deadline, and one more. *)
Definition retry_fuel (k : WitnessClient) : nat :=
  Datatypes.S (Z.to_nat (retry_deadline (timing k) / retry_initial (timing k))).

Definition cosign_retry (k : WitnessClient) (operator_note : str) (previous : option WitnessReceipt) (now_secs : Z) (s : S)
  : option (WitnessResult WitnessReceipt * S) :=
  retry_loop k operator_note previous now_secs (retry_fuel k) (retry_initial (timing k)) s.
End Retry.

(** * The quorum *)

Record WitnessPolicy := {
  wp_witnesses : list WitnessKey;
  wp_threshold : nat;
  wp_max_cosignature_age_secs : Z;
  wp_future_clock_skew_secs : Z;
  wp_max_lag_entries : Z;
}.

Section Quorum.
Context {C : Crypto}.

Definition policy_new (witnesses : list WitnessKey) (threshold : nat) (max_cosignature_age_secs future_clock_skew_secs max_lag_entries : Z)
  : WitnessResult WitnessPolicy :=
  _ ← guard ((witnesses ≟ []) || (64 <? length witnesses)%nat || negb (witness_quorum_intersects threshold (length witnesses))
             || (max_cosignature_age_secs =? 0) || (24 * 60 * 60 <? max_cosignature_age_secs)
             || (max_cosignature_age_secs <? future_clock_skew_secs)) InvalidWitnessConfiguration;
  _ ← guard (duplicate_witness [] witnesses) InvalidWitnessConfiguration;
  Ok {| wp_witnesses := witnesses; wp_threshold := threshold; wp_max_cosignature_age_secs := max_cosignature_age_secs;
        wp_future_clock_skew_secs := future_clock_skew_secs; wp_max_lag_entries := max_lag_entries |}.

Definition policy_verify_checkpoint (p : WitnessPolicy) (note : str) (operator_key : VerifyingKey) (now_secs : Z)
  : WitnessResult VerifiedCheckpoint :=
  or_err (verify_with_fresh_witnesses note operator_key (wp_witnesses p) (wp_threshold p) now_secs
            (wp_max_cosignature_age_secs p) (wp_future_clock_skew_secs p)) InvalidCosignature.

(** The line a receipt contributes, after the receipt was checked against the target. *)
Definition receipt_line (p : WitnessPolicy) (target : Checkpoint) (operator_key : VerifyingKey) (now_secs : Z)
  (witness : WitnessKey) (receipt : WitnessReceipt) : WitnessResult str :=
  _ ← guard (negb (rc_version receipt =? RECEIPT_VERSION) || negb (rc_origin receipt ≟ cp_origin target)
             || negb (rc_size receipt =? cp_size target) || negb (hash_eq (rc_root receipt) (cp_root target))) InvalidCosignature;
  verified ← or_err (verify_with_fresh_witnesses (rc_note receipt) operator_key [witness] 1 now_secs
                       (wp_max_cosignature_age_secs p) (wp_future_clock_skew_secs p)) InvalidCosignature;
  _ ← guard (negb (witnessed_at verified ≟ Some (rc_witnessed_at receipt))) InvalidCosignature;
  '(_, signatures) ← ok_or (split_once_str [NL; NL] (rc_note receipt)) InvalidCosignature;
  ok_or (List.find (starts_with (line_prefix (w_name witness))) (lines signatures)) InvalidCosignature.

Fixpoint assemble_receipts (p : WitnessPolicy) (target : Checkpoint) (operator_key : VerifyingKey) (now_secs : Z)
  (receipts : list WitnessReceipt) (names : list str) (note : str) : WitnessResult str :=
  match receipts with
  | [] => Ok note
  | receipt :: receipts =>
      match List.find (fun w => w_name w ≟ rc_witness_name receipt) (wp_witnesses p) with
      | None => assemble_receipts p target operator_key now_secs receipts names note
      | Some witness =>
          if bool_decide (w_name witness ∈ names) then Err InvalidCosignature
          else
            line ← receipt_line p target operator_key now_secs witness receipt;
            note ← append_signature note line;
            assemble_receipts p target operator_key now_secs receipts (w_name witness :: names) note
      end
  end.

Definition assemble_checkpoint (p : WitnessPolicy) (operator_note : str) (operator_key : VerifyingKey)
  (receipts : list WitnessReceipt) (now_secs : Z) : WitnessResult (VerifiedCheckpoint * str) :=
  _ ← guard ((length (wp_witnesses p) <? length receipts)%nat || size_over operator_note MAX_CHECKPOINT_BYTES) InvalidCosignature;
  target ← or_err (checkpoint_verify operator_note operator_key) InvalidCheckpoint;
  note ← assemble_receipts p target operator_key now_secs receipts [] operator_note;
  verified ← policy_verify_checkpoint p note operator_key now_secs;
  Ok (verified, note).
End Quorum.

(** * Lemmas *)

Lemma or_err_Ok {E A} (r : result E A) e a : or_err r e = Ok a <-> r = Ok a.
Proof. unfold or_err. destruct r; cbn; split; congruence. Qed.

Lemma io_bind_Ok {S A B} (m : Io S A) (k : A -> Io S B) s b s' :
  (m ≫= k) s = (Ok b, s') -> exists a s1, m s = (Ok a, s1) /\ k a s1 = (Ok b, s').
Proof. unfold mbind, Io_bind. destruct (m s) as [[a|e] s1]; [eauto|done]. Qed.

Lemma io_bind_run {S A B} (m : Io S A) (k : A -> Io S B) s a s1 : m s = (Ok a, s1) -> (m ≫= k) s = k a s1.
Proof. unfold mbind, Io_bind. by intros ->. Qed.

Lemma io_bind_Err {S A B} (m : Io S A) (k : A -> Io S B) s e s1 : m s = (Err e, s1) -> (m ≫= k) s = (Err e, s1).
Proof. unfold mbind, Io_bind. by intros ->. Qed.

Lemma pure_Ok {S A} (r : WitnessResult A) (s s' : S) a : pure_ r s = (Ok a, s') -> r = Ok a /\ s' = s.
Proof. unfold pure_. by intros [= -> ->]. Qed.

Lemma io_ret_Ok {S A} (a b : A) (s s' : S) : mret (M := Io S) a s = (Ok b, s') -> b = a /\ s' = s.
Proof. by intros [= -> ->]. Qed.

Section Receipts.
Context {C : Crypto}.

(** The policy with one witness. *)
Lemma single_witness_Ok text key w fr v :
  verify_witness_policy text key [w] 1 fr = Ok v <->
  checkpoint_verify text key = Ok (vc_checkpoint v) /\
  exists body sigs ts, split_once_str [NL; NL] text = Some (body, sigs) /\
    newest_valid_cosignature body sigs (w_name w) (w_key w) fr = Some ts /\ witnessed_at v = Some ts.
Proof.
  unfold verify_witness_policy. cbn [Nat.eqb negb andb length guard mbind result_bind duplicate_witness existsb orb].
  change (witness_quorum_intersects 1 1) with true. cbn [negb guard mbind result_bind].
  destruct (checkpoint_verify text key) as [c|e]; cbn [mbind result_bind]; [|split; [done|by intros [? _]]].
  destruct (split_once_str [NL; NL] text) as [[body sigs]|]; cbn [ok_or mbind result_bind];
    [|split; [done|by intros [_ (? & ? & ? & ? & _)]]].
  cbn [omap list_omap]. destruct (newest_valid_cosignature _ _ _ _ _) as [ts|] eqn:E; cbn.
  - split.
    + intros [= <-]. split; [done|]. exists body, sigs, ts. done.
    + intros [[= ->] (b & g & t & [= <- <-] & Ht & Hv)]. rewrite E in Ht. injection Ht as <-. destruct v; cbn in *. by subst.
  - split; [done|]. intros [_ (b & g & t & [= <- <-] & Ht & _)]. congruence.
Qed.

Lemma named_lines_true prefix ls count : named_lines prefix ls count = true ->
  Forall (fun l => starts_with prefix l = true) ls /\ (ls = [] -> (0 < count)%nat).
Proof.
  revert count. induction ls as [|l ls IH]; intros count; cbn [named_lines].
  - intros H. b2p. split; [constructor|done].
  - destruct (_ || _)%bool eqn:E; [done|]. intros [H _]%IH. b2p. split; [by constructor|done].
Qed.

(** An operator note: its checkpoint, and its signature lines, all the operator's. *)
Lemma verify_operator_note_Ok k note c : verify_operator_note k note = Ok c ->
  checkpoint_verify note (operator_key k) = Ok c /\ cp_origin c = wc_origin k /\ ends_with [NL] note = true /\
  exists body u, split_once_str [NL; NL] note = Some (body, u ++ [NL]) /\
  Forall (fun l => starts_with (line_prefix (wc_origin k)) l = true) (lines (u ++ [NL])).
Proof.
  unfold verify_operator_note. intros H. apply bind_Ok in H as (u1 & Hg%guard_Ok & H). apply bind_Ok in H as (named & Hn & H).
  apply bind_Ok in H as (u2 & Hnm%guard_Ok & H). apply bind_Ok in H as (c' & Hv%or_err_Ok & H).
  apply bind_Ok in H as (u3 & Ho%guard_Ok & H). injection H as ->. b2p. subst named.
  split_and!; [done|done|done|]. unfold only_named_signatures in Hn. apply bind_Ok in Hn as ([body sigs] & Hs%ok_or_Ok & Hn).
  injection Hn as Hn. apply named_lines_true in Hn as [Hall Hne].
  match goal with He : ends_with _ _ = true |- _ => apply ends_with_true in He as [t ->] end.
  pose proof (split_once_str_Some _ _ _ _ Hs) as E.
  destruct sigs as [|x sigs _] using rev_ind; [specialize (Hne eq_refl); lia|].
  rewrite !(assoc_L (++)) in E. apply app_inj_tail in E as [_ <-]. eauto.
Qed.

(** ** Whose line it is *)

(** A client that [client_new] made: its origin is not its witness's name, and neither name has a space. *)
Definition client_ok (k : WitnessClient) : Prop :=
  valid_origin (wc_origin k) = true /\ wc_origin k <> w_name (wc_witness k) /\ SP ∉ w_name (wc_witness k).

Lemma valid_origin_no origin b : valid_origin origin = true -> is_ascii_graphic b = false -> b ∉ origin.
Proof.
  unfold valid_origin. intros H Hb Hin. b2p. match goal with Hf : forallb _ _ = true |- _ => rewrite forallb_forall in Hf;
    apply list_elem_of_In, Hf in Hin end. congruence.
Qed.

(** No line is the operator's and the witness's. *)
Lemma prefixes_differ k l : client_ok k -> starts_with (line_prefix (wc_origin k)) l = true ->
  starts_with (line_prefix (w_name (wc_witness k))) l = false.
Proof.
  intros (Hv & Hne & Hsp) [x ->]%starts_with_true. apply not_true_iff_false. intros [y E]%starts_with_true. unfold line_prefix in E.
  rewrite <-!(assoc_L (++)) in E. apply app_inv_head in E. cbn [app] in E.
  assert (split_once SP (wc_origin k ++ SP :: x) = Some (wc_origin k, x)) as H1
    by (apply split_once_Some; split; [done|]; by apply valid_origin_no).
  rewrite E in H1. rewrite (proj2 (split_once_Some SP _ (w_name (wc_witness k)) y)) in H1 by done. injection H1 as E1 _. congruence.
Qed.

(** An operator line is no cosignature line of the witness. *)
Lemma operator_line_blob k l len kh : client_ok k -> starts_with (line_prefix (wc_origin k)) l = true ->
  line_blob l (w_name (wc_witness k)) len kh = None.
Proof.
  intros Hk Hl. destruct (line_blob _ _ _ _) as [blob|] eqn:E; [|done]. exfalso. apply line_blob_Some in E as (_ & E & _).
  apply (prefixes_differ k l Hk) in Hl. apply not_true_iff_false in Hl. apply Hl, starts_with_true. exists (b64 blob).
  rewrite E. unfold line_prefix. by rewrite <-!(assoc_L (++)).
Qed.

(** Among lines of the operator and one more, only the last can be the witness's. *)
Lemma newest_last k body u line fr : client_ok k -> NL ∉ line -> x0d ∉ line -> line <> [] ->
  Forall (fun l => starts_with (line_prefix (wc_origin k)) l = true) (lines (u ++ [NL])) ->
  newest_valid_cosignature body ((u ++ [NL]) ++ line ++ [NL]) (w_name (wc_witness k)) (w_key (wc_witness k)) fr =
  cosignature_time body (w_name (wc_witness k)) (w_key (wc_witness k)) fr line.
Proof.
  intros Hk Hn Hr Hne Hall. unfold newest_valid_cosignature. rewrite <-(assoc_L (++)). cbn [app].
  rewrite lines_app_nl, (lines_app line []), strip_cr_id by done. set (f := cosignature_time _ _ _ _).
  assert (omap f (lines (u ++ [NL]) ++ line :: lines []) = omap f [line]) as ->.
  { rewrite omap_app. change (lines []) with (@nil str). replace (omap f (lines (u ++ [NL]))) with (@nil Z); [done|].
    symmetry. induction Hall as [|l ls Hl _ IH]; [done|]. cbn [omap list_omap].
    replace (f l) with (@None Z); [done|]. unfold f, cosignature_time. by rewrite operator_line_blob. }
  cbn [omap list_omap]. by destruct (f line).
Qed.

(** ** Receipts *)

Definition window (k : WitnessClient) (now : Z) : option (Z * Z * Z) :=
  Some (now, as_secs (max_cosignature_age (timing k)), as_secs (future_clock_skew (timing k))).

(** A receipt for [c] made at [now]: the operator note with one line of the witness, whose time it carries. *)
Record receipt_for (k : WitnessClient) (note : str) (c : Checkpoint) (now : Z) (r : WitnessReceipt) : Prop := {
  rf_note : exists line, rc_note r = note ++ line ++ [NL] /\ NL ∉ line /\ x0d ∉ line /\
    starts_with (line_prefix (w_name (wc_witness k))) line = true /\ (length line <= MAX_SIGNATURE_LINE_BYTES)%nat;
  rf_verified : verify_witness_policy (rc_note r) (operator_key k) [wc_witness k] 1 (window k now) =
    Ok {| vc_checkpoint := c; witnessed_at := Some (rc_witnessed_at r) |};
  rf_time : rc_witnessed_at r <> 0;
  rf_checkpoint : receipt_checkpoint r = c;
  rf_tags : rc_version r = RECEIPT_VERSION /\ rc_witness_name r = w_name (wc_witness k);
  rf_size : Z.of_nat (length (rc_note r)) <= MAX_CHECKPOINT_BYTES;
}.

Lemma append_signature_Ok note line n : append_signature note line = Ok n ->
  n = note ++ line ++ [NL] /\ NL ∉ line /\ x0d ∉ line /\ line <> [] /\ Z.of_nat (length n) <= MAX_CHECKPOINT_BYTES.
Proof.
  unfold append_signature. intros H. apply bind_Ok in H as (u & Hg%guard_Ok & H). apply bind_Ok in H as (u' & Hl%guard_Ok & H).
  injection H as <-. b2p.
  assert (forall b, contains_byte b line = false -> b ∉ line) as Hc by (intros b Hb; rewrite <-contains_byte_true; congruence).
  split_and!; auto. rewrite !length_app. cbn [length]. lia.
Qed.

Lemma candidate_Ok k note c now line ts n : candidate k note c now line = Ok (Some (ts, n)) ->
  n = note ++ line ++ [NL] /\ NL ∉ line /\ x0d ∉ line /\ line <> [] /\ Z.of_nat (length n) <= MAX_CHECKPOINT_BYTES /\ ts <> 0 /\
  verify_witness_policy n (operator_key k) [wc_witness k] 1 (window k now) = Ok {| vc_checkpoint := c; witnessed_at := Some ts |}.
Proof.
  unfold candidate. intros H. apply bind_Ok in H as (n' & Hn%append_signature_Ok & H).
  destruct (verify_with_fresh_witnesses _ _ _ _ _ _ _) as [[c' at_]|] eqn:Hv; [|done]. cbn [witnessed_at vc_checkpoint] in H.
  destruct at_ as [t|]; [|done]. destruct (_ || _)%bool eqn:E; [done|]. injection H as <- <-. apply fresh_policy in Hv.
  unfold hash_eq in E. b2p. destruct Hn as (? & ? & ? & ? & ?). split_and!; try done. fold (window k now) in Hv. rewrite Hv.
  do 3 f_equal. destruct c, c'; cbn in *. by subst.
Qed.

Lemma receipt_loop_Ok k note c now ls : forall count acc ts n,
  receipt_loop k note c now ls count acc = Ok (Some (ts, n)) ->
  acc = Some (ts, n) \/ exists line, line ∈ ls /\ (length line <= MAX_SIGNATURE_LINE_BYTES)%nat /\
    starts_with (line_prefix (w_name (wc_witness k))) line = true /\ candidate k note c now line = Ok (Some (ts, n)).
Proof.
  induction ls as [|line ls IH]; intros count acc ts n H; cbn [receipt_loop] in H; [injection H as ->; by left|].
  destruct (_ || _)%bool eqn:Eg; [done|]. b2p. destruct (starts_with _ line) eqn:Es; cbn [negb] in H.
  2:{ destruct (IH _ _ _ _ H) as [->|(l & Hl & ?)]; [by left|right]. exists l. split; [set_solver|done]. }
  apply bind_Ok in H as (found & Hf & H). destruct (IH _ _ _ _ H) as [E|(l & Hl & ?)].
  2:{ right. exists l. split; [set_solver|done]. }
  assert (found = Some (ts, n) \/ acc = Some (ts, n)) as [-> | ->]; [|right; exists line; split; [set_solver|done]|by left].
  destruct found as [[t m]|]; [|by right]. destruct acc as [[t' m']|]; [destruct (t' <? t)|]; auto.
Qed.

Lemma receipt_from_lines_Ok k note c ls now r : receipt_from_lines k note c ls now = Ok r ->
  receipt_for k note c now r /\ exists l, l ∈ lines ls /\ starts_with (line_prefix (w_name (wc_witness k))) l = true.
Proof.
  unfold receipt_from_lines. intros H. apply bind_Ok in H as (u & _ & H). apply bind_Ok in H as (u' & _ & H).
  apply bind_Ok in H as (acc & Hacc & H). apply bind_Ok in H as ([ts n] & ->%ok_or_Ok & H). injection H as <-.
  apply receipt_loop_Ok in Hacc as [?|(line & Hin & Hlen & Hsw & Hc)]; [done|].
  apply candidate_Ok in Hc as (-> & ? & ? & ? & ? & ? & ?). split; [|eauto]. split; cbn; eauto 7. by destruct c.
Qed.

Lemma prefix_not_nil name line : starts_with (line_prefix name) line = true -> line <> [].
Proof. intros [r ->]%starts_with_true. done. Qed.

(** A cosignature line that one window admits gives the same time in every window that admits the time. *)
Lemma cosignature_time_window body name key fr fr' line ts : cosignature_time body name key fr line = Some ts -> fresh_at fr' ts ->
  in_uint 64 ts -> cosignature_time body name key fr' line = Some ts.
Proof.
  unfold cosignature_time. intros (blob & -> & H)%bind_Some [Hr Hf] Hu. cbn [mbind option_bind]. cbv zeta in *.
  destruct (I64_MAX <? _) eqn:E1; [done|]. destruct (match fr with Some _ => _ | None => _ end); [done|].
  destruct (verify_strict _ _ _); [|done]. injection H as H. rewrite H in *.
  replace (match fr' with Some _ => _ | None => _ end) with false; [done|]. symmetry.
  destruct fr' as [[[now age] skew]|]; [|done]. unfold saturating_add, saturating_sub, in_uint in *.
  apply orb_false_iff. rewrite !Z.ltb_ge. lia.
Qed.

(** The receipt's line carries the receipt's time, in every window that admits it. *)
Lemma receipt_time k note c now r : client_ok k -> verify_operator_note k note = Ok c -> receipt_for k note c now r ->
  exists body u line, split_once_str [NL; NL] note = Some (body, u ++ [NL]) /\ rc_note r = note ++ line ++ [NL] /\
    Forall (fun l => starts_with (line_prefix (wc_origin k)) l = true) (lines (u ++ [NL])) /\
    NL ∉ line /\ x0d ∉ line /\ starts_with (line_prefix (w_name (wc_witness k))) line = true /\
    (length line <= MAX_SIGNATURE_LINE_BYTES)%nat /\ checkpoint_verify (rc_note r) (operator_key k) = Ok c /\
    forall fr, fresh_at fr (rc_witnessed_at r) ->
      cosignature_time body (w_name (wc_witness k)) (w_key (wc_witness k)) fr line = Some (rc_witnessed_at r).
Proof.
  intros Hk Hnote [(line & En & Hnl & Hcr & Hsw & Hll) Hv Ht Hc _ _].
  apply verify_operator_note_Ok in Hnote as (_ & _ & _ & body & u & Hs & Hall).
  apply single_witness_Ok in Hv as (Hcv & b & sg & ts & Hs' & Hts & Hat). cbn [vc_checkpoint witnessed_at] in *.
  injection Hat as <-. rewrite En in Hs'. rewrite (split_once_str_app _ _ _ _ _ Hs) in Hs'. injection Hs' as <- <-.
  rewrite newest_last in Hts by (done || by eapply prefix_not_nil).
  exists body, u, line. split_and!; try done. intros fr Hf. apply (cosignature_time_window _ _ _ _ _ _ _ Hts Hf).
  destruct Hf as [Hr _]. unfold in_uint, I64_MAX in *. lia.
Qed.

(** The receipt passes the policy of its witness alone, in every window that admits its time. *)
Lemma receipt_verifies k note c now r fr : client_ok k -> verify_operator_note k note = Ok c -> receipt_for k note c now r ->
  fresh_at fr (rc_witnessed_at r) ->
  verify_witness_policy (rc_note r) (operator_key k) [wc_witness k] 1 fr =
  Ok {| vc_checkpoint := c; witnessed_at := Some (rc_witnessed_at r) |}.
Proof.
  intros Hk Hnote Hr Hf. destruct (receipt_time k note c now r Hk Hnote Hr) as (body & u & line & Hs & En & Hall & Hnl & Hcr & Hsw & _ & Hcv & Ht).
  apply single_witness_Ok. cbn [vc_checkpoint witnessed_at]. split; [done|].
  exists body, ((u ++ [NL]) ++ line ++ [NL]), (rc_witnessed_at r). split_and!; [rewrite En; by apply split_once_str_app| |done].
  rewrite newest_last by (done || by eapply prefix_not_nil). by apply Ht.
Qed.

(** A receipt is accepted when it is read back, however much later. *)
Lemma receipt_resumes k note c now r : client_ok k -> verify_operator_note k note = Ok c -> receipt_for k note c now r ->
  verify_stored_receipt k r = Ok c.
Proof.
  intros Hk Hnote Hr. destruct (receipt_time k note c now r Hk Hnote Hr) as (body & u & line & _ & _ & _ & _ & _ & _ & _ & _ & Htime).
  pose proof Hr as [_ Hv Ht Hc [Hver Hname] Hlen]. apply single_witness_Ok in Hv as (_ & b & sg & ts & _ & Hts & Hat).
  injection Hat as <-. apply newest_valid_cosignature_Some in Hts as [[Hr0 _] _].
  assert (fresh_at (Some (I64_MAX, I64_MAX, 0)) (rc_witnessed_at r)) as Hf by (split; [done|]; unfold I64_MAX in *; lia).
  pose proof (receipt_verifies k note c now r _ Hk Hnote Hr Hf) as Hw.
  apply verify_operator_note_Ok in Hnote as (_ & Ho & _). unfold verify_stored_receipt. rewrite Hver, Hname. subst c. cbn in Ho.
  rewrite Ho. unfold size_over. rewrite !(bool_decide_true (_ = _)) by done.
  rewrite (proj2 (Z.eqb_neq _ _) Ht), (proj2 (Z.ltb_ge _ _) Hlen).
  cbn [Z.eqb RECEIPT_VERSION negb orb guard mbind result_bind Pos.eqb]. unfold verify_with_fresh_witnesses.
  change ((I64_MAX <? I64_MAX) || (I64_MAX =? 0) || (I64_MAX <? 0)) with false. cbn [guard mbind result_bind]. rewrite Hw.
  cbn [or_err ok ok_or mbind result_bind witnessed_at vc_checkpoint receipt_checkpoint cp_origin cp_size cp_root].
  unfold hash_eq. rewrite Z.eqb_refl, Ho, !(bool_decide_true (_ = _)) by done. done.
Qed.
End Receipts.

Lemma ensure_order_Ok old new u : ensure_order old new = Ok u ->
  cp_origin old = cp_origin new /\ cp_size old <= cp_size new /\ (cp_size old = cp_size new -> cp_root old = cp_root new).
Proof.
  unfold ensure_order. intros H. apply bind_Ok in H as (u' & Hg%guard_Ok & H). apply guard_Ok in H. b2p. split_and!; [done|lia|].
  intros E. rewrite E, Z.eqb_refl in H. cbn [andb] in H. unfold hash_eq in H. by b2p.
Qed.

Section Attempt.
Context {C : Crypto} {S : Type} {W : World S}.

(** [c] grows [old]: a consistency proof links them, where one is needed. *)
Definition grows (old c : Checkpoint) : Prop :=
  cp_origin old = cp_origin c /\ cp_size old <= cp_size c /\ (cp_size old = cp_size c -> cp_root old = cp_root c) /\
  (cp_size old <> 0 -> cp_size old < cp_size c -> exists proof (s s' : S),
     proof_for s (cp_size old) (cp_size c) = (Ok proof, s') /\
     verify_consistency (Z.to_nat (cp_size old)) (cp_root old) (Z.to_nat (cp_size c)) (cp_root c) proof = true).

Lemma ask_proof_Ok old new (s s' : S) proof : ask_proof old new s = (Ok proof, s') -> proof_for s old new = (Ok proof, s').
Proof. unfold ask_proof. destruct (proof_for s old new) as [r s1]. intros [= Hr <-]. by apply or_err_Ok in Hr as ->. Qed.

Lemma checked_proof_Ok old target (s s' : S) proof : checked_proof (Some old) target s = (Ok proof, s') -> grows old target.
Proof.
  intros H. cbn [checked_proof] in H. apply io_bind_Ok in H as (u & s1 & Ho & H). apply pure_Ok in Ho as [Ho ->].
  apply ensure_order_Ok in Ho as (E & Hle & Heq). split_and!; [done|done|done|]. intros Hz Hlt.
  rewrite (proj2 (Z.eqb_neq _ _) Hz), (proj2 (Z.eqb_neq _ _)) in H by lia. cbn [orb] in H.
  apply io_bind_Ok in H as (p & s2 & Hp%ask_proof_Ok & H). apply io_bind_Ok in H as (u' & s3 & Hg & H).
  apply pure_Ok in Hg as [Hg%guard_Ok ->]. b2p. eauto.
Qed.

(** What a receipt returned for the operator note establishes. *)
Definition receipted (k : WitnessClient) (c : Checkpoint) (now : Z) (r : WitnessReceipt) : Prop :=
  exists note, verify_operator_note k note = Ok c /\ receipt_for k note c now r.

Lemma receipt_from_note_Ok k note now r : receipt_from_note k note now = Ok r -> receipted k (receipt_checkpoint r) now r.
Proof.
  unfold receipt_from_note. intros H. apply bind_Ok in H as (u & _ & H). apply bind_Ok in H as (n & _ & H).
  apply bind_Ok in H as (c & Hc & H). apply bind_Ok in H as ([b g] & _ & H). apply receipt_from_lines_Ok in H as [H _].
  rewrite (rf_checkpoint _ _ _ _ _ H). by exists n.
Qed.

Lemma recover_monitored_Ok k size note target previous now (s s' : S) r :
  verify_operator_note k note = Ok target ->
  recover_monitored k size note target previous now s = (Ok r, s') -> receipted k target now r.
Proof.
  intros Hn H. unfold recover_monitored in H.
  apply io_bind_Ok in H as (mn & s1 & _ & H). apply io_bind_Ok in H as (m & s2 & Hm & H). apply pure_Ok in Hm as [Hm%receipt_from_note_Ok _].
  apply io_bind_Ok in H as (u1 & s3 & _ & H). apply io_bind_Ok in H as (u2 & s4 & _ & H). apply io_bind_Ok in H as (u3 & s5 & _ & H).
  apply io_bind_Ok in H as (u4 & s6 & Ho & H). apply pure_Ok in Ho as [(Eo & _ & Er)%ensure_order_Ok _].
  destruct (rc_size m =? cp_size target) eqn:E.
  - apply io_ret_Ok in H as [-> _]. b2p. replace target with (receipt_checkpoint m); [done|].
    unfold receipt_checkpoint in *. cbn in Eo, Er. destruct target; cbn in *. by rewrite Eo, E, Er by done.
  - apply io_bind_Ok in H as (proof & s7 & _ & H). apply io_bind_Ok in H as (answer & s8 & _ & H).
    destruct answer as [ls|]; apply pure_Ok in H as [H _]; [|done]. apply receipt_from_lines_Ok in H as [H _]. by exists note.
Qed.

Lemma recover_conflict_Ok k size note target previous now (s s' : S) r :
  verify_operator_note k note = Ok target ->
  recover_conflict k size note target previous now s = (Ok r, s') -> receipted k target now r.
Proof.
  intros Hn H. unfold recover_conflict in H. apply io_bind_Ok in H as (u & s1 & _ & H).
  destruct (size =? cp_size target); [|by apply recover_monitored_Ok in H]. unfold resubmit in H.
  destruct (submit size [] note s1) as [[[ls|]|[]] s2]; try done; try by apply recover_monitored_Ok in H.
  injection H as H _. apply receipt_from_lines_Ok in H as [H _]. by exists note.
Qed.

Lemma cosign_attempt_Ok k note previous now (s s' : S) r :
  cosign_attempt k note previous now s = (Ok r, s') ->
  exists c, verify_operator_note k note = Ok c /\ receipted k c now r /\
    forall p, previous = Some p -> exists old, verify_stored_receipt k p = Ok old /\ grows old c.
Proof.
  intros H. unfold cosign_attempt in H. apply io_bind_Ok in H as (c & s1 & Hn & H). apply pure_Ok in Hn as [Hn _].
  apply io_bind_Ok in H as (old & s2 & Hold & H). apply io_bind_Ok in H as (u & s3 & _ & H).
  apply io_bind_Ok in H as (proof & s4 & Hp & H). apply io_bind_Ok in H as (answer & s5 & _ & H).
  exists c. split_and!; [done| |].
  - destruct answer as [ls|size]; [|by apply recover_conflict_Ok in H]. apply pure_Ok in H as [H _].
    apply receipt_from_lines_Ok in H as [H _]. by exists note.
  - intros p ->. apply io_bind_Ok in Hold as (o & s6 & Ho & Hold). apply pure_Ok in Ho as [Ho _]. apply io_ret_Ok in Hold as [-> _].
    exists o. split; [done|]. by eapply checked_proof_Ok.
Qed.

(** C40: a receipt is a real cosignature on the operator's checkpoint.  Whatever the witness, the network and the
    monitoring endpoint answer, an attempt that returns a receipt returns one for the submitted checkpoint: the witness
    cosigned a body of exactly that origin, size and root, at the time the receipt carries, within the freshness window;
    the receipt is accepted when it is read back from storage at any later time; and the checkpoint grows the one of the
    previous receipt, by a consistency proof checked here. *)
Theorem cosign_attempt_sound (k : WitnessClient) (note : str) (previous : option WitnessReceipt) (now : Z) (s s' : S)
  (r : WitnessReceipt) :
  client_ok k -> cosign_attempt k note previous now s = (Ok r, s') ->
  exists c body, verify_operator_note k note = Ok c /\ receipt_checkpoint r = c /\ verify_stored_receipt k r = Ok c /\
    reads body c /\ cosigned (w_key (wc_witness k)) body (rc_witnessed_at r) /\ fresh_at (window k now) (rc_witnessed_at r) /\
    forall p, previous = Some p -> exists old, verify_stored_receipt k p = Ok old /\ grows old c.
Proof.
  intros Hk (c & Hn & (n & Hn' & Hr) & Hp)%cosign_attempt_Ok.
  pose proof (rf_verified _ _ _ _ _ Hr) as Hv. apply single_witness_Ok in Hv as (Hcv & body & sg & ts & Hs & Hts & Hat).
  injection Hat as <-. apply newest_valid_cosignature_Some in Hts as [Hf Hc]. cbn [vc_checkpoint] in Hcv.
  apply checkpoint_verify_Ok in Hcv as (_ & b & g & Hs' & Hreads & _). rewrite Hs in Hs'. injection Hs' as <- <-.
  exists c, body. split_and!; try done; [by apply Hr|]. by apply (receipt_resumes k n c now).
Qed.
End Attempt.

(** * Receipts make a quorum *)

Section Assembly.
Context {C : Crypto}.

Lemma duplicate_witness_names prior ws : duplicate_witness prior ws = false ->
  NoDup (map w_name ws) /\ forall w v, w ∈ ws -> v ∈ prior -> w_name v <> w_name w.
Proof.
  revert prior. induction ws as [|w ws IH]; intros prior H; [split; [constructor|set_solver]|].
  cbn [duplicate_witness] in H. apply orb_false_iff in H as [Hw H]. apply IH in H as [Hn Hd]. split.
  - cbn [map]. constructor; [|done]. intros (v & E & Hv)%list_elem_of_fmap. apply (Hd v w Hv); [set_solver|done].
  - intros w' v [->|Hw']%elem_of_cons Hp; [|apply Hd; set_solver]. intros E. apply not_true_iff_false in Hw. apply Hw, existsb_exists.
    exists v. split; [by apply list_elem_of_In|]. by rewrite bool_decide_true.
Qed.

Lemma find_by_name ws w : NoDup (map w_name ws) -> w ∈ ws -> List.find (fun v => w_name v ≟ w_name w) ws = Some w.
Proof.
  induction ws as [|v ws IH]; intros Hn Hw; [by apply not_elem_of_nil in Hw|]. cbn [map] in Hn. apply NoDup_cons in Hn as [Hv Hn].
  cbn [List.find]. destruct (bool_decide (w_name v = w_name w)) eqn:E; b2p.
  - apply elem_of_cons in Hw as [->|Hw]; [done|]. destruct Hv. rewrite E. by apply list_elem_of_fmap_2.
  - apply IH; [done|]. apply elem_of_cons in Hw as [->|Hw]; done.
Qed.

Lemma find_skip {A} (f : A -> bool) l x : Forall (fun a => f a = false) l -> f x = true -> List.find f (l ++ [x]) = Some x.
Proof. induction 1 as [|a l Ha _ IH]; intros Hx; cbn [app List.find]; [by rewrite Hx|]. rewrite Ha. auto. Qed.

Lemma omap_count {A B} (f : A -> option B) (Q l : list A) : NoDup Q -> Q ⊆ l -> (forall a, a ∈ Q -> is_Some (f a)) ->
  (length Q <= length (omap f l))%nat.
Proof.
  intros HQ Hs Hf. apply (NoDup_submseteq Q) in Hs; [|done]. apply submseteq_Permutation in Hs as [more Hp].
  rewrite Hp, omap_app, length_app. clear Hp. induction Q as [|a Q IH]; [cbn; lia|]. cbn [omap list_omap].
  destruct (Hf a ltac:(set_solver)) as [b ->]. apply NoDup_cons in HQ as [_ HQ]. cbn [length]. specialize (IH HQ ltac:(set_solver)). lia.
Qed.

(** The receipt [r] of the witness [w] for the note, with a time the policy's window admits. *)
Definition contributes (p : WitnessPolicy) (key : VerifyingKey) (note : str) (c : Checkpoint) (now : Z)
  (r : WitnessReceipt) (w : WitnessKey) : Prop :=
  exists k at_, client_ok k /\ wc_witness k = w /\ operator_key k = key /\ verify_operator_note k note = Ok c /\
    receipt_for k note c at_ r /\
    fresh_at (Some (now, wp_max_cosignature_age_secs p, wp_future_clock_skew_secs p)) (rc_witnessed_at r).

(** The line a receipt contributes is its witness's cosignature on the note. *)
Lemma receipt_line_Ok p key note c now r w body sigs : contributes p key note c now r w ->
  split_once_str [NL; NL] note = Some (body, sigs) ->
  now <= I64_MAX -> wp_max_cosignature_age_secs p <> 0 -> wp_future_clock_skew_secs p <= wp_max_cosignature_age_secs p ->
  rc_witness_name r = w_name w /\
  exists line, receipt_line p c key now w r = Ok line /\ NL ∉ line /\ x0d ∉ line /\ line <> [] /\
    (length line <= MAX_SIGNATURE_LINE_BYTES)%nat /\
    is_Some (cosignature_time body (w_name w) (w_key w) (Some (now, wp_max_cosignature_age_secs p, wp_future_clock_skew_secs p)) line).
Proof.
  intros (k & at_ & Hk & <- & <- & Hn & Hr & Hf) Hs Hnow Hage Hskew.
  pose proof (receipt_verifies k note c at_ r _ Hk Hn Hr Hf) as Hv. pose proof (rf_checkpoint _ _ _ _ _ Hr) as Hc.
  destruct (rf_tags _ _ _ _ _ Hr) as [Hver Hname].
  destruct (receipt_time k note c at_ r Hk Hn Hr) as (b & u & line & Hs' & En & Hall & Hnl & Hcr & Hsw & Hll & _ & Ht).
  rewrite Hs in Hs'. injection Hs' as <- ->. split; [done|]. exists line.
  split_and!; [|done|done|by eapply prefix_not_nil|done|rewrite Ht by done; eauto].
  unfold receipt_line. rewrite Hver, <-Hc. cbn [receipt_checkpoint cp_origin cp_size cp_root]. unfold hash_eq.
  rewrite !(bool_decide_true (_ = _)), !Z.eqb_refl by done.
  cbn [Z.eqb RECEIPT_VERSION Pos.eqb negb orb guard mbind result_bind]. unfold verify_with_fresh_witnesses.
  rewrite (proj2 (Z.ltb_ge _ _) Hnow), (proj2 (Z.eqb_neq _ _) Hage), (proj2 (Z.ltb_ge _ _) Hskew).
  cbn [orb guard mbind result_bind]. rewrite Hv. cbn [or_err ok ok_or mbind result_bind witnessed_at].
  rewrite (bool_decide_true (_ = _)) by done. cbn [negb guard mbind result_bind].
  rewrite En, (split_once_str_app _ _ _ _ _ Hs). cbn [ok_or mbind result_bind]. rewrite <-(assoc_L (++)). cbn [app].
  rewrite lines_app_nl, (lines_app line []), strip_cr_id by done. change (lines []) with (@nil str). rewrite find_skip; [done| |done].
  eapply Forall_impl; [exact Hall|]. intros l Hl. by apply prefixes_differ.
Qed.

Context (p : WitnessPolicy) (key : VerifyingKey) (note : str) (c : Checkpoint) (now : Z) (body u : str).
Context (Hp : duplicate_witness [] (wp_witnesses p) = false) (Hnow : now <= I64_MAX).
Context (Hage : wp_max_cosignature_age_secs p <> 0) (Hskew : wp_future_clock_skew_secs p <= wp_max_cosignature_age_secs p).
Context (Hsplit : split_once_str [NL; NL] note = Some (body, u ++ [NL])) (Hend : ends_with [NL] note = true).

Let window_p := Some (now, wp_max_cosignature_age_secs p, wp_future_clock_skew_secs p).

Lemma assemble_receipts_Ok rws : forall names acc,
  Forall (fun '(r, w) => contributes p key note c now r w) rws -> NoDup (map snd rws) -> map snd rws ⊆ wp_witnesses p ->
  (forall w, w ∈ map snd rws -> w_name w ∉ names) -> ends_with [NL] acc = true ->
  Z.of_nat (length acc + length rws * S MAX_SIGNATURE_LINE_BYTES) <= MAX_CHECKPOINT_BYTES ->
  exists ls, assemble_receipts p c key now (map fst rws) names acc = Ok (acc ++ concat (map (fun l => l ++ [NL]) ls)) /\
    (length (acc ++ concat (map (fun l => l ++ [NL]) ls)) <= length acc + length rws * S MAX_SIGNATURE_LINE_BYTES)%nat /\
    Forall (fun l => NL ∉ l /\ x0d ∉ l) ls /\
    Forall (fun '(_, w) => exists l, l ∈ ls /\ is_Some (cosignature_time body (w_name w) (w_key w) window_p l)) rws.
Proof.
  induction rws as [|[r w] rws IH]; intros names acc Hall Hnd Hsub Hnames Hacc Hlen.
  { exists []. cbn [map assemble_receipts concat length Nat.mul]. rewrite app_nil_r. split_and!; [done|lia|constructor|constructor]. }
  apply Forall_cons in Hall as [Hr Hall]. cbn [map fst snd] in *. apply NoDup_cons in Hnd as [Hw Hnd].
  destruct (receipt_line_Ok p key note c now r w body _ Hr Hsplit Hnow Hage Hskew) as (Hname & line & Hline & Hnl & Hcr & Hne & Hll & Ht).
  destruct (duplicate_witness_names _ _ Hp) as [Hnames' _].
  cbn [assemble_receipts]. rewrite Hname, find_by_name by (done || set_solver).
  rewrite bool_decide_false by (apply Hnames; set_solver). rewrite Hline. cbn [mbind result_bind].
  assert (forall b, b ∉ line -> contains_byte b line = false) as Hcb by (intros b Hb; apply not_true_iff_false; by rewrite contains_byte_true).
  unfold append_signature. rewrite Hacc, bool_decide_false, !Hcb by done. cbn [negb orb guard mbind result_bind].
  cbn [length Nat.mul] in Hlen.
  rewrite (proj2 (Z.ltb_ge _ _)) by lia. cbn [guard mbind result_bind].
  destruct (IH (w_name w :: names) (acc ++ line ++ [NL])) as (ls & E & Hb & Hplain & Hcos); [done|done|set_solver| | | |].
  - intros w' Hw'. rewrite not_elem_of_cons. split; [|apply Hnames; set_solver]. intros E. apply Hw.
    assert (w = w') as <-; [|done]. assert (Some w = Some w') as [= ?]; [|done].
    rewrite <-(find_by_name (wp_witnesses p) w), <-(find_by_name (wp_witnesses p) w'), E by (done || set_solver). done.
  - apply ends_with_true. exists (acc ++ line). by rewrite <-(assoc_L (++)).
  - rewrite !length_app. cbn [length]. lia.
  - exists (line :: ls). rewrite E. cbn [map concat]. rewrite <-!(assoc_L (++)) in *. split_and!; [done| | |].
    + etrans; [exact Hb|]. rewrite !length_app. cbn [length Nat.mul]. lia.
    + by constructor.
    + constructor; [exists line; split; [set_solver|done]|]. eapply Forall_impl; [exact Hcos|].
      intros [r' w'] (l & Hl & Hx). exists l. split; [set_solver|done].
Qed.

(** The note with the contributed lines passes the policy. *)
Lemma assembled_verifies (rws : list (WitnessReceipt * WitnessKey)) ls : checkpoint_verify note key = Ok c ->
  witness_quorum_intersects (wp_threshold p) (length (wp_witnesses p)) = true -> (wp_threshold p <= length rws)%nat ->
  NoDup (map snd rws) -> map snd rws ⊆ wp_witnesses p -> Forall (fun l => NL ∉ l /\ x0d ∉ l) ls ->
  Forall (fun '(r, w) => exists l, l ∈ ls /\ is_Some (cosignature_time body (w_name w) (w_key w) window_p l)) rws ->
  Z.of_nat (length (note ++ concat (map (fun l => l ++ [NL]) ls))) <= MAX_CHECKPOINT_BYTES ->
  exists v, verify_with_fresh_witnesses (note ++ concat (map (fun l => l ++ [NL]) ls)) key (wp_witnesses p) (wp_threshold p) now
    (wp_max_cosignature_age_secs p) (wp_future_clock_skew_secs p) = Ok v /\ vc_checkpoint v = c.
Proof.
  intros Hv Hq Ht Hnd Hsub Hplain Hcos Hlen. set (text := note ++ _) in *.
  assert (lines ((u ++ [NL]) ++ concat (map (fun l => l ++ [NL]) ls)) = lines (u ++ [NL]) ++ ls) as Hlines.
  { rewrite <-(assoc_L (++)). cbn [app]. by rewrite lines_app_nl, lines_concat. }
  assert (checkpoint_verify text key = Ok c) as Hcv.
  { apply checkpoint_verify_Ok in Hv as (_ & b & g & Hs & Hr & Hsig). rewrite Hsplit in Hs. injection Hs as <- <-.
    apply checkpoint_verify_Ok. split; [exact Hlen|]. exists body. eexists. split_and!; [by apply split_once_str_app|done|].
    unfold has_valid_signature in *. rewrite Hlines, existsb_app, Hsig. done. }
  unfold verify_with_fresh_witnesses. rewrite (proj2 (Z.ltb_ge _ _) Hnow), (proj2 (Z.eqb_neq _ _) Hage), (proj2 (Z.ltb_ge _ _) Hskew).
  cbn [orb guard mbind result_bind]. fold window_p. unfold verify_witness_policy. rewrite Hq, Hp. cbn [negb andb guard mbind result_bind].
  apply quorum_intersects_true in Hq. rewrite (proj2 (Nat.eqb_neq (wp_threshold p) 0)) by lia. cbn [negb andb guard mbind result_bind].
  rewrite Hcv. cbn [mbind result_bind]. unfold text. rewrite (split_once_str_app _ _ _ _ _ Hsplit). cbn [ok_or mbind result_bind].
  set (f := fun w => newest_valid_cosignature _ _ _ _ _).
  assert (length rws <= length (omap f (wp_witnesses p)))%nat as Hcount.
  { rewrite <-(length_map snd rws). apply omap_count; [done|done|]. intros w ((r & w') & -> & Hin)%list_elem_of_fmap.
    rewrite Forall_forall in Hcos. destruct (Hcos _ Hin) as (l & Hl & ts & Hts). unfold f.
    apply (newest_some _ _ _ _ _ l ts); [|done]. rewrite Hlines. set_solver. }
  rewrite (proj2 (Nat.ltb_ge _ _)) by lia. cbn [guard mbind result_bind]. eauto.
Qed.
End Assembly.

Section QuorumTheorem.
Context {C : Crypto}.

(** A quorum of receipts makes a note every client accepts.  When at least the threshold of different witnesses
    of a valid policy gave receipts for the operator's note, with times the policy's window admits, assembling them
    succeeds whatever their order, and the assembled note passes the policy with the operator's checkpoint. *)
Theorem quorum_assembles (ws : list WitnessKey) (t : nat) (age skew lag : Z) (p : WitnessPolicy) (key : VerifyingKey)
  (note : str) (c : Checkpoint) (now : Z) (rws : list (WitnessReceipt * WitnessKey)) :
  policy_new ws t age skew lag = Ok p ->
  Forall (fun '(r, w) => contributes p key note c now r w) rws -> NoDup (map snd rws) -> map snd rws ⊆ ws ->
  (t <= length rws)%nat -> now <= I64_MAX ->
  Z.of_nat (length note + length rws * S MAX_SIGNATURE_LINE_BYTES) <= MAX_CHECKPOINT_BYTES ->
  exists v note', assemble_checkpoint p note key (map fst rws) now = Ok (v, note') /\ vc_checkpoint v = c /\
    verify_with_fresh_witnesses note' key ws t now age skew = Ok v.
Proof.
  intros Hpol Hall Hnd Hsub Ht Hnow Hlen. unfold policy_new in Hpol. apply bind_Ok in Hpol as (u1 & Hg%guard_Ok & Hpol).
  apply bind_Ok in Hpol as (u2 & Hdup%guard_Ok & Hpol). injection Hpol as <-. b2p.
  match goal with Hq : witness_quorum_intersects _ _ = true |- _ => pose proof Hq as Hq'; apply quorum_intersects_true in Hq' end.
  destruct rws as [|[r0 w0] rws']; [cbn in Ht; lia|]. set (rws := (r0, w0) :: rws') in *.
  pose proof Hall as Hall'. apply Forall_cons in Hall' as [(k & at_ & _ & _ & <- & Hn & _) _].
  destruct (verify_operator_note_Ok _ _ _ Hn) as (Hcv & _ & Hend & body & u & Hs & _).
  set (p := {| wp_witnesses := ws |}) in *.
  destruct (assemble_receipts_Ok p (operator_key k) note c now body u Hdup Hnow) with (rws := rws) (names := @nil str) (acc := note)
    as (ls & E & Hb & Hplain & Hcos); try done.
  { intros w _. apply not_elem_of_nil. }
  destruct (assembled_verifies p (operator_key k) note c now body u Hdup Hnow) with (rws := rws) (ls := ls) as (v & Hv & Hc); try done.
  { lia. }
  exists v. eexists. split_and!; [|done|exact Hv]. unfold assemble_checkpoint, size_over.
  assert (length (map snd rws) <= length ws)%nat as Hle by (apply submseteq_length, NoDup_submseteq; done). rewrite length_map in Hle.
  rewrite (proj2 (Nat.ltb_ge _ _)) by (rewrite length_map; exact Hle). rewrite (proj2 (Z.ltb_ge _ _)) by lia.
  cbn [orb guard mbind result_bind]. rewrite Hcv. cbn [or_err ok ok_or mbind result_bind]. rewrite E. cbn [mbind result_bind].
  unfold policy_verify_checkpoint. rewrite Hv. done.
Qed.
End QuorumTheorem.

(** * The retry loop ends *)

(** The clock of the world, of which [elapsed] gives a reading: it never runs backwards, and [sleep] lets time pass. *)
Class ClockLaws (S : Type) `{World S} `{Clock S} (time : S -> Z) : Prop := {
  elapsed_law s e s' : elapsed s = (e, s') -> time s <= e <= time s';
  sleep_law s d : time s + d <= time (sleep s d);
  post_law s body : time s <= time (snd (post s body));
  get_law s : time s <= time (snd (get_monitored s));
  proof_law s old new : time s <= time (snd (proof_for s old new));
}.

Section Total.
Context {C : Crypto} {S : Type} {W : World S} {CK : Clock S} {time : S -> Z} {CL : ClockLaws S time}.

(** Time does not run backwards through [m]. *)
Definition forwards {A} (m : Io S A) : Prop := forall s, time s <= time (snd (m s)).

Lemma forwards_bind {A B} (m : Io S A) (k : A -> Io S B) : forwards m -> (forall a, forwards (k a)) -> forwards (m ≫= k).
Proof.
  intros Hm Hk s. unfold mbind, Io_bind. specialize (Hm s). destruct (m s) as [[a|e] s1]; cbn in *; [|lia].
  specialize (Hk a s1). lia.
Qed.
Lemma forwards_pure {A} (r : WitnessResult A) : forwards (pure_ r).
Proof. intros s. cbn. lia. Qed.
Lemma forwards_ret {A} (a : A) : forwards (mret a).
Proof. intros s. cbn. lia. Qed.
Lemma forwards_ask old new : forwards (ask_proof old new).
Proof. intros s. unfold ask_proof. pose proof (proof_law s old new). by destruct (proof_for s old new). Qed.

Create HintDb forwards.
#[local] Hint Resolve forwards_pure forwards_ret forwards_ask : forwards.

Lemma forwards_post body : forwards ((fun s => let '(r, s) := post s body in (ok_or r TransportUnavailable, s)) : Io S Reply).
Proof. intros s. pose proof (post_law s body). by destruct (post s body). Qed.
Lemma forwards_get : forwards ((fun s => let '(r, s) := get_monitored s in (ok_or r TransportUnavailable, s)) : Io S Reply).
Proof. intros s. pose proof (get_law s). by destruct (get_monitored s). Qed.
#[local] Hint Resolve forwards_post forwards_get : forwards.

Ltac forwards :=
  repeat match goal with
  | |- forwards (_ ≫= _) => apply forwards_bind; [|intros ?]
  | |- forwards (if ?b then _ else _) => destruct b
  | |- forwards (match ?x with _ => _ end) => destruct x
  | _ => solve [auto with forwards]
  end.

Lemma forwards_submit old proof note : forwards (submit old proof note).
Proof. unfold submit. forwards. Qed.
Lemma forwards_checked old target : forwards (checked_proof old target).
Proof. unfold checked_proof. forwards. Qed.
Lemma forwards_fetch : forwards fetch_monitored_checkpoint.
Proof. unfold fetch_monitored_checkpoint. forwards. Qed.
#[local] Hint Resolve forwards_submit forwards_checked forwards_fetch : forwards.

Lemma forwards_monitored k size note target previous now : forwards (recover_monitored k size note target previous now).
Proof. unfold recover_monitored. forwards. Qed.
#[local] Hint Resolve forwards_monitored : forwards.

Lemma forwards_resubmit k size note target previous now : forwards (resubmit k size note target previous now).
Proof.
  intros s. unfold resubmit. pose proof (forwards_submit size [] note s) as Hs. destruct (submit size [] note s) as [r s1].
  pose proof (forwards_monitored k size note target previous now s1) as Hm. cbn in *. repeat case_match; cbn; lia.
Qed.
#[local] Hint Resolve forwards_resubmit : forwards.

Lemma forwards_attempt k note previous now : forwards (cosign_attempt k note previous now).
Proof. unfold cosign_attempt, recover_conflict. forwards. Qed.

Lemma timing_validate_Ok t t' : timing_validate t = Ok t' ->
  retry_initial t <> 0 /\ retry_initial t <= retry_max t <= 30 * SECOND /\ retry_deadline t <= 300 * SECOND.
Proof. unfold timing_validate. intros H. inv_ok. b2p. lia. Qed.

Lemma retry_loop_total k note previous now fuel : forall delay s,
  0 < retry_initial (timing k) <= retry_max (timing k) -> retry_max (timing k) <= 30 * SECOND ->
  retry_initial (timing k) <= delay ->
  retry_deadline (timing k) <= time s + Z.of_nat fuel * retry_initial (timing k) + retry_initial (timing k) ->
  is_Some (retry_loop k note previous now (Datatypes.S fuel) delay s).
Proof.
  induction fuel as [|fuel IH]; intros delay s Hi Hm Hd Hf; cbn [retry_loop].
  all: destruct (elapsed s) as [e1 s1] eqn:E1; apply elapsed_law in E1; destruct (_ =? 0); [eauto|].
  all: destruct (elapsed s1) as [e2 s2] eqn:E2; apply elapsed_law in E2; destruct (cut_off s2 _); [eauto|].
  all: set (now' := saturating_add 64 now (as_secs e2)); pose proof (forwards_attempt k note previous now' s2) as Ha.
  all: destruct (cosign_attempt k note previous now' s2) as [[r|err] s3]; [eauto|]; cbn in Ha; destruct (negb _); [eauto|].
  all: destruct (elapsed s3) as [e3 s4] eqn:E3; apply elapsed_law in E3; destruct (_ <=? delay) eqn:Er; [eauto|].
  - b2p. unfold saturating_sub in Er. lia.
  - apply IH; [done|done| |].
    + unfold DURATION_MAX, SECOND in *. lia.
    + pose proof (sleep_law s4 delay). lia.
Qed.

(** Retrying ends.  For a client whose timing was validated, whatever the witness answers and however the clock
    advances, the retry loop returns a receipt or an error, after at most one attempt per initial delay of the deadline
    and one more; and a receipt it returns is one an attempt returned. *)
Theorem cosign_retry_total (k : WitnessClient) (note : str) (previous : option WitnessReceipt) (now : Z) (s : S) :
  timing_validate (timing k) = Ok (timing k) -> 0 <= retry_initial (timing k) -> 0 <= time s ->
  exists result s', cosign_retry k note previous now s = Some (result, s') /\
    forall r, result = Ok r -> exists now' s1, cosign_attempt k note previous now' s1 = (Ok r, s').
Proof.
  intros (Hi & Hm & _)%timing_validate_Ok Hp Hs.
  assert (forall fuel delay s0 r s', retry_loop k note previous now fuel delay s0 = Some (Ok r, s') ->
    exists now' s1, cosign_attempt k note previous now' s1 = (Ok r, s')) as Hok.
  { induction fuel as [|fuel IH]; intros delay s0 r s' H; cbn [retry_loop] in H; [done|].
    destruct (elapsed s0) as [e1 s1], (_ =? 0); [done|]. destruct (elapsed s1) as [e2 s2], (cut_off s2 _); [done|].
    destruct (cosign_attempt _ _ _ _ s2) as [[r'|err] s3] eqn:E; [injection H as -> ->; eauto|].
    destruct (negb _); [done|]. destruct (elapsed s3) as [e3 s4], (_ <=? delay); [done|]. by apply IH in H. }
  destruct (retry_loop_total k note previous now (Z.to_nat (retry_deadline (timing k) / retry_initial (timing k)))
    (retry_initial (timing k)) s) as [[result s'] H]; [lia|lia|lia| |].
  - destruct (Z_le_gt_dec (retry_deadline (timing k)) 0); [|dlia].
    pose proof (Nat2Z.is_nonneg (Z.to_nat (retry_deadline (timing k) / retry_initial (timing k)))). nia.
  - exists result, s'. split; [exact H|]. intros r ->. by eapply Hok.
Qed.
End Total.
