(* ===== verification/WitnessPair.v ===== *)
(** The witness client of [pigeonpost-registry/src/witness.rs] talking to the witness service of
    [pigeonpost-witness/src/main.rs]: what one writes the other reads, an operator in step with its witness gets its
    cosignature and stays in step, and a client that lost an answer while the log grew cannot recover. *)
From S2P Require Import Prelude Text B32 Network Crypto Origin Token Merkle MerkleWalk MerkleProofs.
From S2P Require Import Handle Entry B64 Checkpoint WitnessServer WitnessClient.

(** * Text *)

Lemma utf8_ok_app a b : utf8_ok a = true -> utf8_ok b = true -> utf8_ok (a ++ b) = true.
Proof.
  intros Ha Hb. revert Ha. induction a as [a IH] using (well_founded_induction (well_founded_ltof _ length)). unfold ltof in IH.
  destruct a as [|a0 a]; [done|]. cbn [app utf8_ok]. destruct (u8 a0 <? 128); [apply IH; cbn; lia|].
  destruct a as [|a1 a]; [done|]. cbn [app]. destruct (_ && _)%bool.
  { rewrite !andb_true_iff. intros [? H]. split; [done|]. revert H. apply IH. cbn; lia. }
  destruct a as [|a2 a]; [done|]. cbn [app]. destruct (_ || _)%bool.
  { rewrite !andb_true_iff. intros [? H]. split; [done|]. revert H. apply IH. cbn; lia. }
  destruct a as [|a3 a]; [done|]. cbn [app].
  rewrite !andb_true_iff. intros [? H]. split; [done|]. revert H. apply IH. cbn; lia.
Qed.

Lemma utf8_ascii s : forallb (fun b => u8 b <? 128) s = true -> utf8_ok s = true.
Proof. induction s as [|b s IH]; [done|]. cbn [forallb utf8_ok]. intros H. b2p. by rewrite (proj2 (Z.ltb_lt _ _)), IH by done. Qed.

Lemma forallb_weaken {A} (f g : A -> bool) l : (forall a, f a = true -> g a = true) -> forallb f l = true -> forallb g l = true.
Proof. intros H. rewrite !forallb_forall. auto. Qed.

Lemma b64_utf8 bs : utf8_ok (b64 bs) = true.
Proof.
  apply utf8_ascii. eapply forallb_weaken; [|apply b64_text]. intros b Hb.
  pose proof (byte_forall (fun b => implb (b64_text_byte b) (u8 b <? 128)) ltac:(vm_compute; reflexivity) b) as H.
  cbv beta in H. rewrite Hb in H. done.
Qed.

Lemma decimal_utf8 n : 0 <= n -> utf8_ok (decimal n) = true.
Proof.
  intros Hn. destruct (decimal_spec n Hn) as (_ & Hd & _). apply utf8_ascii. eapply forallb_weaken; [|exact Hd].
  intros b Hb. unfold is_ascii_digit in Hb. b2p. apply Z.ltb_lt. lia.
Qed.

Lemma decimal_loop_length fuel n acc : (length (decimal_loop fuel n acc) <= fuel + length acc)%nat.
Proof.
  revert n acc. induction fuel as [|fuel IH]; intros n acc; cbn [decimal_loop]; [done|].
  destruct (n <? 10); [cbn; lia|]. etrans; [apply IH|]. cbn. lia.
Qed.

Lemma decimal_length n : in_uint 64 n -> (length (decimal n) <= 64)%nat.
Proof.
  intros Hn. unfold in_uint in Hn. unfold decimal. etrans; [apply decimal_loop_length|]. cbn [length].
  destruct (decide (n = 0)) as [->|Hz]; [cbn; lia|]. pose proof (Z.log2_lt_pow2 n 64 ltac:(lia)). lia.
Qed.

(** * Submissions *)

Definition hash_lines (proof : list Hash) : str := concat (map (fun h => b64 (vec_to_list h) ++ [NL]) proof).

Lemma b64_hash (h : Hash) : exists b s, b64 (vec_to_list h) = b :: s /\ b <> NL.
Proof.
  destruct (b64_no_space h) as (_ & HN & _). destruct (b64 h) as [|b s] eqn:E.
  - change [] with (b64 []) in E. apply b64_inj in E. by destruct h using vec_S_inv.
  - exists b, s. split; [done|]. intros ->. apply HN. set_solver.
Qed.

Lemma submission_split proof note : forall p, NL ∉ p ->
  split_once_str [NL; NL] (p ++ NL :: hash_lines proof ++ NL :: note) =
  Some (p ++ concat (map (fun h => NL :: b64 (vec_to_list h)) proof), note).
Proof.
  induction proof as [|h proof IH]; intros p Hp.
  - cbn [hash_lines map concat app]. rewrite app_nil_r. by apply split_blank_here.
  - unfold hash_lines in *. cbn [map concat]. destruct (b64_no_space h) as (_ & HN & _).
    rewrite <-!(assoc_L (++)). cbn [app]. rewrite split_blank_skip, IH; [|done|done|].
    + done.
    + intros t E. destruct (b64_hash h) as (b & s & Eb & Hb). rewrite Eb in E. cbn in E. congruence.
Qed.

Lemma submission_lines proof : forall p, NL ∉ p ->
  Text.split NL (p ++ concat (map (fun h => NL :: b64 (vec_to_list h)) proof)) = p :: map (fun h => b64 (vec_to_list (h : Hash))) proof.
Proof.
  induction proof as [|h proof IH]; intros p Hp; cbn [map concat].
  - rewrite app_nil_r. by apply split_no_sep.
  - cbn [app]. rewrite split_app_sep, IH by (done || apply b64_no_space). done.
Qed.

Lemma proof_lines_own proof : forall acc, (length acc + length proof <= MAX_PROOF_HASHES)%nat ->
  proof_lines (map (fun h => b64 (vec_to_list (h : Hash))) proof) acc = Some (acc ++ proof).
Proof.
  induction proof as [|h proof IH]; intros acc Hl; cbn [map proof_lines length] in *; [by rewrite app_nil_r|].
  destruct (b64_hash h) as (b & s & Eb & _). rewrite bool_decide_false by (by rewrite Eb).
  rewrite (proj2 (Nat.leb_gt _ _)) by lia. rewrite b64_decode_b64. cbn [mbind option_bind].
  rewrite (proj2 (arr_of_list_Some 32 _ h) eq_refl). cbn [mbind option_bind].
  rewrite IH by (rewrite length_app; cbn; lia). by rewrite <-(assoc_L (++)).
Qed.

(** What the client writes the service reads. *)
Lemma submission_roundtrip old proof note body : in_uint 64 old -> request_body old proof note = Ok body ->
  parse_submission body = Some {| old_size := old; sub_proof := proof; sub_note := note |}.
Proof.
  intros Ho H. unfold request_body in H. apply bind_Ok in H as (u & Hg%guard_Ok & H). apply bind_Ok in H as (u' & _ & H).
  apply Ok_inj in H. subst body. b2p. fold (hash_lines proof).
  assert (NL ∉ lit "old " ++ decimal old) as Hp.
  { rewrite not_elem_of_app. split; [intros Hx%contains_byte_true; discriminate Hx|]. unfold in_uint in Ho. apply decimal_no; [lia|done]. }
  replace (lit "old " ++ decimal old ++ [NL] ++ hash_lines proof ++ [NL] ++ note)
    with ((lit "old " ++ decimal old) ++ NL :: hash_lines proof ++ NL :: note) by (by rewrite <-(assoc_L (++))).
  unfold parse_submission. rewrite submission_split by done. cbn [mbind option_bind].
  rewrite submission_lines by done. rewrite strip_prefix_app. cbn [mbind option_bind]. unfold in_uint in Ho.
  rewrite parse_decimal by done. cbn [mbind option_bind]. rewrite proof_lines_own by done. cbn [app mbind option_bind].
  match goal with E : (_ && _)%bool = false |- _ => by rewrite E end.
Qed.

(** * Notes the operator signs *)

Lemma valid_origin_plain origin : valid_origin origin = true -> plain_name origin /\ (length origin <= 256)%nat /\ utf8_ok origin = true.
Proof.
  unfold valid_origin. intros H. b2p. split_and!; [|done|].
  - apply not_true_iff_false. rewrite existsb_exists. intros (b & Hin & Hb).
    match goal with Hf : forallb _ _ = true |- _ => rewrite forallb_forall in Hf; apply Hf in Hin end.
    pose proof (byte_forall (fun b => negb (is_ascii_graphic b && (is_ascii_control b || is_ascii_whitespace b)))
      ltac:(vm_compute; reflexivity) b) as Hx. cbv beta in Hx. rewrite Hin, Hb in Hx. done.
  - apply utf8_ascii. eapply forallb_weaken; [|eassumption]. intros b Hb. unfold is_ascii_graphic in Hb. b2p. apply Z.ltb_lt. lia.
Qed.

Section Notes.
Context {C : Crypto} {CL : CryptoLaws}.
Context (c : Checkpoint) (op : Identity) (Horigin : valid_origin (cp_origin c) = true) (Hsize : in_uint 64 (cp_size c)).

Definition signed_lines : str := operator_line c op ++ [NL].

Lemma sign_shape : checkpoint_sign c op = note_body c ++ NL :: NL :: signed_lines.
Proof.
  unfold checkpoint_sign, signed_lines, operator_line. rewrite note_body_nl. cbv zeta. rewrite <-!(assoc_L (++)). cbn [app].
  rewrite <-?(assoc_L (++)). done.
Qed.

Lemma sign_split : split_once_str [NL; NL] (checkpoint_sign c op) = Some (note_body c, signed_lines).
Proof. rewrite sign_shape. apply note_split; [by apply valid_origin_plain|done]. Qed.

Lemma sign_lines extra : lines (signed_lines ++ extra) = operator_line c op :: lines extra.
Proof.
  unfold signed_lines. rewrite <-(assoc_L (++)). cbn [app]. destruct (operator_line_plain c) with (op := op) as [Hn Hr];
    [by apply valid_origin_plain|]. by rewrite lines_app, strip_cr_id.
Qed.

Lemma sign_verifies_with extra : Z.of_nat (length (checkpoint_sign c op ++ extra)) <= 64 * 1024 ->
  checkpoint_verify (checkpoint_sign c op ++ extra) (verifying_key op) = Ok c.
Proof.
  intros Hl. apply checkpoint_verify_Ok. split; [done|]. exists (note_body c), (signed_lines ++ extra). split_and!.
  - apply split_once_str_app, sign_split.
  - apply note_reads; [by apply valid_origin_plain|done].
  - unfold has_valid_signature. rewrite sign_lines. cbn [existsb]. unfold operator_line.
    rewrite signature_line_own; [done|by apply valid_origin_plain].
Qed.

Lemma operator_line_length : (length (operator_line c op) <= 400)%nat.
Proof.
  unfold operator_line. rewrite !length_app. cbn [length]. destruct (valid_origin_plain _ Horigin) as (_ & Ho & _).
  etrans; [apply Nat.add_le_mono_l, Nat.add_le_mono_l, le_n_S, length_b64|].
  rewrite length_app, length_vec_to_list. unfold key_hash. rewrite length_take, length_vec_to_list. cbn [length DASH]. lia.
Qed.

Lemma sign_length : (length (checkpoint_sign c op) <= 800)%nat.
Proof.
  rewrite sign_shape. unfold note_body, signed_lines. rewrite !length_app. cbn [length]. rewrite !length_app. cbn [length].
  rewrite ?length_app. cbn [length].
  destruct (valid_origin_plain _ Horigin) as (_ & Ho & _). pose proof operator_line_length. pose proof (decimal_length _ Hsize).
  pose proof (length_b64 (cp_root c)) as Hb. rewrite length_vec_to_list in Hb. lia.
Qed.

Lemma dash_utf8 : utf8_ok DASH = true.
Proof. reflexivity. Qed.

Lemma sign_utf8 : utf8_ok (checkpoint_sign c op) = true.
Proof.
  destruct (valid_origin_plain _ Horigin) as (_ & _ & Ho). unfold in_uint in Hsize. unfold checkpoint_sign, checkpoint_body.
  repeat apply utf8_ok_app; try done; try apply b64_utf8. apply decimal_utf8. lia.
Qed.

Lemma sign_ends : exists u, checkpoint_sign c op = u ++ [NL].
Proof. unfold checkpoint_sign. cbv zeta. rewrite !(assoc_L (++)). eauto. Qed.

Lemma operator_line_prefix : starts_with (line_prefix (cp_origin c)) (operator_line c op) = true.
Proof. apply starts_with_true. unfold operator_line, line_prefix. eexists. rewrite <-!(assoc_L (++)). done. Qed.
End Notes.

(** * The two together *)

(** The registry's log, the service with its memory, file and clock, and whether its file system writes and the transport brings replies back. *)
Record Pair := { pw_memory : option Stored; pw_disk : option bytes; pw_log : MerkleLog; pw_clock : Z; pw_writes : bool; pw_delivers : bool }.

(** A response that is delivered is delivered whole. *)
Definition reply_of (r : Response) : Reply :=
  {| rp_status := status r; rp_content_type := Some (content_type r);
     rp_content_length := Some (Z.of_nat (length (response_body r))); rp_chunks := [response_body r]; rp_broken := false |}.

Section Pair.
Context {C : Crypto} {SJ : StoredJson} (w : Witness).

Definition set_service (s : Pair) (m : option Stored) (d : option bytes) : Pair :=
  {| pw_memory := m; pw_disk := d; pw_log := pw_log s; pw_clock := pw_clock s; pw_writes := pw_writes s; pw_delivers := pw_delivers s |}.

(** The registry's log has grown. *)
Definition grown (s : Pair) (log : MerkleLog) : Pair :=
  {| pw_memory := pw_memory s; pw_disk := pw_disk s; pw_log := log; pw_clock := pw_clock s; pw_writes := pw_writes s; pw_delivers := pw_delivers s |}.

#[local] Instance pair_world : World Pair := {
  post s body :=
    let '(resp, m, d) := add_checkpoint w (pw_memory s) (pw_disk s) body (pw_clock s) (pw_writes s) in
    (if pw_delivers s then Some (reply_of resp) else None, set_service s m d);
  get_monitored s :=
    (if pw_delivers s then Some (reply_of (monitoring w (pw_memory s) (hex_of (vec_to_list (sha256 (log_origin w)))))) else None, s);
  proof_for s old new := (ok_or (consistency_proof (pw_log s) (Z.to_nat old) (Z.to_nat new)) ProofUnavailable, s);
}.

(** A client configured for this service and the operator [op]. *)
Record paired (k : WitnessClient) (op : Identity) : Prop := {
  pr_client : client_ok k;
  pr_origin : wc_origin k = log_origin w;
  pr_operator : operator_key k = verifying_key op /\ log_key w = verifying_key op;
  pr_witness : witness_new (wt_name w) (verifying_key (signing_key w)) = Ok (wc_witness k);
  pr_name : utf8_ok (wt_name w) = true;
  pr_window : 0 < as_secs (max_cosignature_age (timing k)) /\
    as_secs (future_clock_skew (timing k)) <= as_secs (max_cosignature_age (timing k));
}.

(** The operator's head of a log, and its note. *)
Definition head_of (log : MerkleLog) : Checkpoint :=
  {| cp_origin := log_origin w; cp_size := Z.of_nat (log_size log); cp_root := log_root log |}.

(** The service holds what the client's last receipt says, which is a prefix of the log. *)
Definition in_step (k : WitnessClient) (s : Pair) (previous : option WitnessReceipt) : Prop :=
  match pw_memory s, previous with
  | None, None => True
  | Some st, Some p =>
      verify_stored_receipt k p = Ok {| cp_origin := log_origin w; cp_size := st_size st; cp_root := st_root st |} /\
      (exists n, st_size st = Z.of_nat n /\ (n <= log_size (pw_log s))%nat /\ st_root st = root_of (pw_log s) n)
  | _, _ => False
  end.

Context {CL : CryptoLaws}.

Lemma witness_new_Ok name key wk : witness_new name key = Ok wk ->
  wk = MkWitnessKey name key /\ plain_name name /\ (length name <= 256)%nat /\ name <> [].
Proof.
  unfold witness_new. intros H. apply bind_Ok in H as (u & Hg%guard_Ok & H). apply bind_Ok in H as (u' & _ & H). injection H as <-.
  apply orb_false_iff in Hg as [Hg Hp]. b2p. done.
Qed.

(** A cosignature line of the service. *)
Lemma service_line c ts wk : witness_new (wt_name w) (verifying_key (signing_key w)) = Ok wk -> utf8_ok (wt_name w) = true ->
  in_uint 64 ts -> ts <= I64_MAX ->
  exists l, cosignature_line c (wt_name w) (signing_key w) ts = Ok (l ++ [NL]) /\
    starts_with (line_prefix (wt_name w)) l = true /\ (length l <= 512)%nat /\ utf8_ok (l ++ [NL]) = true.
Proof.
  intros Hw Hu Hts Hmax. unfold cosignature_line. rewrite Hw. cbn [mbind result_bind]. rewrite (proj2 (Z.ltb_ge _ _) Hmax).
  cbn [guard mbind result_bind]. apply witness_new_Ok in Hw as (_ & _ & Hn & _). set (blob := cosignature_key_hash _ _ ++ _).
  exists (DASH ++ wt_name w ++ [SP] ++ b64 blob). split_and!.
  - by rewrite <-!(assoc_L (++)).
  - apply starts_with_true. exists (b64 blob). unfold line_prefix. by rewrite <-!(assoc_L (++)).
  - rewrite !length_app. cbn [length DASH]. pose proof (length_b64 blob) as Hb. unfold blob in Hb at 2.
    rewrite !length_app, length_be_bytes, length_vec_to_list in Hb. unfold cosignature_key_hash in Hb.
    rewrite length_take, length_vec_to_list in Hb. lia.
  - repeat apply utf8_ok_app; try done; try apply b64_utf8.
Qed.

(** ** One exchange *)

Section Exchange.
Context (k : WitnessClient) (op : Identity) (log : MerkleLog) (HP : paired k op) (Hlog : Z.of_nat (log_size log) < 2 ^ 62).
Let c := head_of log.
Let note := checkpoint_sign c op.

Lemma head_ok : valid_origin (cp_origin c) = true /\ in_uint 64 (cp_size c).
Proof.
  destruct HP as [(Hv & _ & _) Ho _ _ _ _]. rewrite Ho in Hv. split; [done|]. unfold in_uint, c, head_of. cbn [cp_size]. lia.
Qed.

Lemma own_note_verifies : checkpoint_verify note (verifying_key op) = Ok c.
Proof.
  destruct head_ok as [Hv Hs]. pose proof (sign_length c op Hv Hs) as Hl. pose proof (sign_verifies_with c op Hv Hs []) as H.
  rewrite app_nil_r in H. apply H. lia.
Qed.

Lemma own_note_accepted : verify_operator_note k note = Ok c.
Proof.
  destruct head_ok as [Hv Hs]. pose proof (sign_length c op Hv Hs) as Hl. fold note in Hl. unfold verify_operator_note.
  destruct (sign_ends c op) as [u Hu]. fold note in Hu.
  rewrite bool_decide_false by (rewrite Hu; by destruct u). unfold size_over, MAX_CHECKPOINT_BYTES.
  rewrite (proj2 (Z.ltb_ge _ _)) by lia. rewrite (proj2 (ends_with_true [NL] note)) by eauto.
  cbn [orb negb guard mbind result_bind]. unfold only_named_signatures, note. rewrite sign_split by done.
  cbn [ok_or mbind result_bind]. rewrite <-(app_nil_r (signed_lines c op)), sign_lines by done. change (lines []) with (@nil str).
  rewrite (pr_origin _ _ HP). cbn [named_lines]. unfold c at 1 2. pose proof (operator_line_prefix c op) as Hpre.
  unfold c in Hpre at 1. cbn [head_of cp_origin] in Hpre. fold c. rewrite Hpre.
  rewrite (proj2 (Nat.ltb_ge _ _)) by (unfold MAX_SIGNATURE_LINES; lia).
  rewrite (proj2 (Nat.ltb_ge MAX_SIGNATURE_LINE_BYTES _)) by (pose proof (operator_line_length c op Hv); unfold MAX_SIGNATURE_LINE_BYTES; lia).
  change (0 <? 1)%nat with true. cbn [orb negb guard mbind result_bind]. rewrite (proj1 (pr_operator _ _ HP)).
  fold note. rewrite own_note_verifies. cbn [or_err ok ok_or mbind result_bind]. change (cp_origin c) with (log_origin w). by rewrite bool_decide_true.
Qed.

(** The registry proves its own growth. *)
Lemma own_proof (s : Pair) n : pw_log s = log -> (n <= log_size log)%nat ->
  exists proof, checked_proof (Some {| cp_origin := log_origin w; cp_size := Z.of_nat n; cp_root := root_of log n |}) c s = (Ok proof, s) /\
    (length proof <= 63)%nat /\ (n = 0%nat -> proof = []) /\
    ((0 < n < log_size log)%nat -> verify_consistency n (root_of log n) (log_size log) (log_root log) proof = true).
Proof.
  intros Es Hn. cbn [checked_proof]. unfold ensure_order. cbn [cp_origin cp_size cp_root c head_of].
  rewrite bool_decide_true, (proj2 (Z.ltb_ge _ _)) by (done || lia). cbn [negb orb guard mbind result_bind Io_bind pure_].
  replace ((Z.of_nat n =? Z.of_nat (log_size log)) && negb (hash_eq (root_of log n) (log_root log))) with false.
  2:{ symmetry. destruct (Z.of_nat n =? Z.of_nat (log_size log)) eqn:E; [|done]. b2p. assert (n = log_size log) as -> by lia.
      unfold hash_eq. by rewrite bool_decide_true. }
  cbn [guard mbind Io_bind pure_]. destruct (_ || _)%bool eqn:Ez.
  { exists []. split_and!; [done|cbn; lia|done|]. intros Hlt. apply orb_true_iff in Ez as [Ez|Ez]; b2p; lia. }
  b2p. destruct (consistency_proof_accepted log n (log_size log)) as (proof & Hp & Hv & Hl); [lia|lia|].
  assert (length proof <= 63)%nat as Hl63.
  { etrans; [exact Hl|]. assert (Nat.log2_up (log_size log) <= 62)%nat; [|lia]. apply Nat.log2_up_le_pow2; [lia|].
    rewrite <-(Nat2Z.inj_pow 2 62) in Hlog || idtac. apply Nat2Z.inj_le. rewrite Nat2Z.inj_pow. lia. }
  exists proof. split_and!; [|done|lia|done]. rewrite (io_bind_run _ _ s tt s) by done.
  rewrite (io_bind_run _ _ s proof s).
  2:{ unfold ask_proof. cbn [proof_for pair_world]. rewrite Es, !Nat2Z.id, Hp. done. }
  rewrite (io_bind_run _ _ s tt s); [done|]. unfold pure_. rewrite (proj2 (Nat.ltb_ge _ _)) by done.
  rewrite !Nat2Z.id. unfold log_root in *. unfold log_size in Hv at 2. rewrite Hv. done.
Qed.

Lemma own_request n proof : (n <= log_size log)%nat -> (length proof <= 63)%nat -> (n = 0%nat -> proof = []) ->
  exists body, request_body (Z.of_nat n) proof note = Ok body /\ Z.of_nat (length body) <= 64 * 1024 /\ utf8_ok body = true.
Proof.
  intros Hn Hl Hz. destruct head_ok as [Hv Hs]. pose proof (sign_length c op Hv Hs) as Hnl. fold note in Hnl.
  destruct (sign_ends c op) as [u Hu]. fold note in Hu. unfold request_body.
  rewrite (proj2 (Nat.ltb_ge _ _)) by done. replace ((Z.of_nat n =? 0) && negb (proof ≟ [])) with false.
  2:{ symmetry. destruct (Z.of_nat n =? 0) eqn:E; [|done]. b2p. rewrite Hz by lia. done. }
  rewrite bool_decide_false by (rewrite Hu; by destruct u). unfold size_over.
  rewrite (proj2 (Z.ltb_ge MAX_CHECKPOINT_BYTES _)) by (unfold MAX_CHECKPOINT_BYTES; lia). rewrite (proj2 (ends_with_true [NL] note)) by eauto.
  cbn [orb negb guard mbind result_bind]. fold (hash_lines proof).
  assert (length (hash_lines proof) <= 67 * length proof)%nat as Hh.
  { unfold hash_lines. clear. induction proof as [|h proof IH]; [done|]. cbn [map concat length]. rewrite !length_app. cbn [length].
    pose proof (length_b64 h) as Hb. rewrite length_vec_to_list in Hb. lia. }
  set (body := lit "old " ++ _). assert (Z.of_nat (length body) <= 64 * 1024) as Hb.
  { unfold body. rewrite !length_app. change (length (lit "old ")) with 4%nat. cbn [length].
    pose proof (decimal_length (Z.of_nat n) ltac:(unfold in_uint; lia)). lia. }
  rewrite (proj2 (Z.ltb_ge _ _)) by (unfold MAX_REQUEST_BYTES; lia). cbn [guard mbind result_bind]. exists body. split_and!; [done|done|].
  unfold body. apply utf8_ok_app; [done|]. apply utf8_ok_app; [apply decimal_utf8; lia|]. apply utf8_ok_app; [done|].
  apply utf8_ok_app; [|apply utf8_ok_app; [done|by apply sign_utf8]].
  unfold hash_lines. clear. induction proof as [|h proof IH]; [done|]. cbn [map concat].
  repeat apply utf8_ok_app; [apply b64_utf8|done|done].
Qed.

(** The service accepts the head of the log it follows. *)
Lemma own_review memory n proof body ts line :
  match memory with
  | None => n = 0%nat
  | Some st => st_size st = Z.of_nat n /\ st_root st = root_of log n
  end -> (n <= log_size log)%nat ->
  ((0 < n < log_size log)%nat -> verify_consistency n (root_of log n) (log_size log) (log_root log) proof = true) ->
  request_body (Z.of_nat n) proof note = Ok body -> Z.of_nat (length body) <= 64 * 1024 -> utf8_ok body = true ->
  cosignature_line c (wt_name w) (signing_key w) ts = Ok line ->
  review w memory body ts = Ok (c, {| old_size := Z.of_nat n; sub_proof := proof; sub_note := note |}, line).
Proof.
  intros Hm Hn Hv Hreq Hl Hu Hline.
  apply submission_roundtrip in Hreq; [|unfold in_uint; lia]. unfold review, WitnessServer.MAX_REQUEST_BYTES.
  rewrite (proj2 (Z.ltb_ge _ _) Hl), Hu, Hreq. cbn [negb guard mbind result_bind ok_or sub_note].
  rewrite (proj2 (pr_operator _ _ HP)), own_note_verifies. cbn [ok ok_or mbind result_bind].
  change (cp_origin c) with (log_origin w). rewrite (bool_decide_true (log_origin w = log_origin w)) by done. cbn [negb guard mbind result_bind].
  replace ((cp_size c =? 0) && negb (cp_root c ≟ empty_root)) with false.
  2:{ symmetry. destruct (cp_size c =? 0) eqn:E; [|done]. b2p. unfold c, head_of in *. cbn in *. unfold log_root, root_of, log_size in *.
      replace (length (leaves log)) with 0%nat by lia. by rewrite bool_decide_true. }
  cbn [guard mbind result_bind]. assert (check_extension memory c {| old_size := Z.of_nat n; sub_proof := proof; sub_note := note |} = Ok tt) as ->.
  { unfold check_extension. cbn [old_size sub_proof]. destruct memory as [st|]; [|by subst n]. destruct Hm as [-> ->]. rewrite Z.eqb_refl.
    cbn [negb guard mbind result_bind]. change (cp_size c) with (Z.of_nat (log_size log)). change (cp_root c) with (log_root log).
    destruct (Z.of_nat (log_size log) =? Z.of_nat n) eqn:E1; b2p.
    - assert (n = log_size log) as -> by lia. by rewrite bool_decide_true.
    - destruct (Z.of_nat n =? 0) eqn:E2; b2p; [assert (n = 0%nat) as -> by lia; by rewrite bool_decide_true|].
      rewrite !Nat2Z.id, Hv by lia. done. }
  cbn [mbind result_bind]. rewrite Hline. done.
Qed.

(** The client makes its receipt of the service's line. *)
Lemma own_receipt ts l now :
  cosignature_line c (wt_name w) (signing_key w) ts = Ok (l ++ [NL]) -> starts_with (line_prefix (wt_name w)) l = true ->
  (length l <= 512)%nat -> fresh_at (window k now) ts -> ts <> 0 -> now <= I64_MAX ->
  receipt_from_lines k note c (l ++ [NL]) now =
  Ok {| rc_version := RECEIPT_VERSION; rc_witness_name := w_name (wc_witness k); rc_origin := cp_origin c;
        rc_size := cp_size c; rc_root := cp_root c; rc_note := note ++ l ++ [NL]; rc_witnessed_at := ts |}.
Proof.
  intros Hline Hsw Hl Hf Hts Hnow. destruct head_ok as [Hov Hs]. pose proof (sign_length c op Hov Hs) as Hnl.
  destruct (witness_new_Ok _ _ _ (pr_witness _ _ HP)) as (Ew & _ & _ & Hne). destruct (pr_window _ _ HP) as [Hage Hskew].
  destruct (valid_origin_plain _ Hov) as (Hplain & _ & _).
  destruct (cosignature_line_own c Hs _ _ _ _ _ Hline Hf) as (l' & El & [Hnl' Hcr] & Ht).
  apply app_inj_tail in El as [<- _].
  assert (l <> []) as Hlne. { intros ->. apply starts_with_true in Hsw as [r E]. discriminate E. }
  unfold receipt_from_lines, size_over. rewrite (proj2 (Z.ltb_ge _ _)) by (rewrite length_app; cbn [length]; unfold MAX_RESPONSE_BYTES; lia).
  rewrite bool_decide_false by (by destruct l). rewrite (proj2 (ends_with_true [NL] _)) by eauto.
  cbn [guard negb orb mbind result_bind]. rewrite lines_app, strip_cr_id by done. change (lines []) with (@nil str).
  cbn [receipt_loop]. rewrite (proj2 (Nat.ltb_ge _ _)) by (unfold MAX_SIGNATURE_LINES; lia).
  rewrite (proj2 (Nat.ltb_ge MAX_SIGNATURE_LINE_BYTES _)) by done. rewrite Ew. cbn [w_name orb]. rewrite Hsw. cbn [negb].
  assert (append_signature note l = Ok (note ++ l ++ [NL])) as Happ.
  { unfold append_signature. destruct (sign_ends c op) as [u Hu]. fold note in Hu, Hnl.
    rewrite (proj2 (ends_with_true [NL] note)) by eauto. rewrite bool_decide_false by done.
    assert (forall b, b ∉ l -> contains_byte b l = false) as Hc by (intros b Hb; apply not_true_iff_false; by rewrite contains_byte_true).
    rewrite !Hc by done. cbn [negb orb guard mbind result_bind].
    rewrite (proj2 (Z.ltb_ge _ _)) by (unfold MAX_CHECKPOINT_BYTES; lia). done. }
  assert (verify_with_fresh_witnesses (note ++ l ++ [NL]) (operator_key k) [wc_witness k] 1 now
    (as_secs (max_cosignature_age (timing k))) (as_secs (future_clock_skew (timing k))) =
    Ok {| vc_checkpoint := c; witnessed_at := Some ts |}) as Hver.
  { unfold verify_with_fresh_witnesses. rewrite (proj2 (Z.ltb_ge _ _) Hnow), (proj2 (Z.eqb_neq _ _)), (proj2 (Z.ltb_ge _ _) Hskew) by lia.
    cbn [orb guard mbind result_bind]. fold (window k now). apply single_witness_Ok. cbn [vc_checkpoint witnessed_at]. split.
    - rewrite (proj1 (pr_operator _ _ HP)). apply sign_verifies_with; [done|done|]. fold note. fold note in Hnl.
      rewrite !length_app. cbn [length]. lia.
    - exists (note_body c), (signed_lines c op ++ l ++ [NL]), ts. split_and!; [apply split_once_str_app, sign_split; done| |done].
      unfold signed_lines. rewrite newest_last; [by rewrite Ew|apply HP|done|done|done|].
      pose proof (sign_lines c op Hov []) as Hsl. rewrite app_nil_r in Hsl. unfold signed_lines in Hsl. rewrite Hsl.
      repeat constructor. rewrite (pr_origin _ _ HP). apply (operator_line_prefix c op). }
  unfold candidate. rewrite Happ. cbn [mbind result_bind]. rewrite Hver. cbn [witnessed_at vc_checkpoint].
  rewrite (proj2 (Z.eqb_neq _ _) Hts), !(bool_decide_true (_ = _)), Z.eqb_refl by done. unfold hash_eq.
  rewrite (bool_decide_true (_ = _)) by done. cbn [negb orb mbind result_bind receipt_loop ok_or]. done.
Qed.
End Exchange.

(** ** In step *)

Lemma submit_accepted (s : Pair) old proof note body c sub line :
  pw_writes s = true -> pw_delivers s = true ->
  request_body old proof note = Ok body -> review w (pw_memory s) body (pw_clock s) = Ok (c, sub, line) ->
  Z.of_nat (length line) <= MAX_RESPONSE_BYTES -> utf8_ok line = true ->
  exists d, submit old proof note s = (Ok (Cosignatures line), set_service s (Some (next_of c sub)) d).
Proof.
  intros Hwr Hdel Hreq Hrev Hl Hu. unfold submit. rewrite (io_bind_run _ _ s body s) by (unfold pure_; by rewrite Hreq).
  eexists. rewrite (io_bind_run _ _ s (reply_of (text 200 line)) (set_service s (Some (next_of c sub))
    (Some (stored_to_vec_pretty (cp_size c) (hex_serialize (cp_root c)) (sub_note sub))))).
  2:{ cbn [post pair_world]. unfold add_checkpoint. rewrite Hrev, Hwr, Hdel. reflexivity. }
  unfold pure_, read_submission. cbn [reply_of rp_status rp_chunks rp_broken rp_content_length text status response_body Z.eqb Pos.eqb].
  unfold read_limited. cbn [rp_content_length rp_chunks rp_broken reply_of text response_body].
  rewrite (proj2 (Z.ltb_ge _ _) Hl). cbn [guard mbind result_bind read_chunks length Nat.add app].
  rewrite (proj2 (Z.ltb_ge _ _) Hl). cbn [mbind result_bind]. rewrite Hu. reflexivity.
Qed.

Lemma in_step_grows k s r log' : in_step k s (Some r) -> leaves (pw_log s) `prefix_of` leaves log' ->
  in_step k (grown s log') (Some r).
Proof.
  unfold in_step. cbn [grown pw_memory pw_log]. destruct (pw_memory s) as [st|]; [|done]. intros (Hr & n & En & Hn & Er) [more Hm].
  split; [done|]. exists n. unfold log_size in *. rewrite Hm, length_app. split_and!; [done|lia|]. rewrite Er. unfold root_of.
  rewrite Hm, take_app_le by lia. done.
Qed.

(** C39: an operator in step with its witness gets its cosignature.  Suppose the service can write its state file, its reply arrives whole, and its clock
    lies within the client's freshness window.  When it holds the checkpoint of the
    client's last receipt (or neither has any), submitting the head of any log that extends it succeeds: the request the
    client writes is read back by the service, its proof is accepted, and the line the service answers becomes a receipt for
    that head with the service's time.  Client and service are then in step again, and stay so however the log grows. *)
Theorem cosign_in_step (k : WitnessClient) (op : Identity) (s : Pair) (previous : option WitnessReceipt) (now : Z) :
  paired k op -> in_step k s previous -> pw_writes s = true -> pw_delivers s = true -> Z.of_nat (log_size (pw_log s)) < 2 ^ 62 ->
  fresh_at (window k now) (pw_clock s) -> pw_clock s <> 0 -> now <= I64_MAX ->
  exists r s', cosign_attempt k (checkpoint_sign (head_of (pw_log s)) op) previous now s = (Ok r, s') /\
    receipt_checkpoint r = head_of (pw_log s) /\ rc_witnessed_at r = pw_clock s /\
    forall log', leaves (pw_log s) `prefix_of` leaves log' ->
      in_step k (grown s' log') (Some r).
Proof.
  intros HP Hstep Hwr Hdel Hlog Hf Hts Hnow. set (log := pw_log s) in *. set (c := head_of log). set (note := checkpoint_sign c op).
  pose proof (own_note_accepted k op log HP Hlog) as Hnote. fold c note in Hnote.
  pose proof Hf as [[Hts0 Hmax] _].
  destruct (service_line c (pw_clock s) (wc_witness k) (pr_witness _ _ HP) (pr_name _ _ HP)) as (l & Hline & Hsw & Hl & Hu);
    [unfold in_uint, I64_MAX in *; lia|done|].
  assert (exists n proof, (n <= log_size log)%nat /\ (length proof <= 63)%nat /\ (n = 0%nat -> proof = []) /\
    ((0 < n < log_size log)%nat -> verify_consistency n (root_of log n) (log_size log) (log_root log) proof = true) /\
    match pw_memory s with None => n = 0%nat | Some st => st_size st = Z.of_nat n /\ st_root st = root_of log n end /\
    forall r s', submit (Z.of_nat n) proof note s = (Ok (Cosignatures (l ++ [NL])), s') ->
      receipt_from_lines k note c (l ++ [NL]) now = Ok r -> cosign_attempt k note previous now s = (Ok r, s'))
    as (n & proof & Hn & Hlen & Hz & Hv & Hmem & Hrun).
  { unfold in_step in Hstep. destruct (pw_memory s) as [st|], previous as [p|]; try done.
    - destruct Hstep as (Hp & n & En & Hn & Er). fold log in Hn, Er.
      destruct (own_proof log Hlog s n eq_refl Hn) as (proof & Hc & Hlen & Hz & Hv). rewrite En, Er in Hp.
      exists n, proof. split_and!; try done. intros r s' Hsub Hr. unfold cosign_attempt.
      rewrite (io_bind_run _ _ s c s) by (unfold pure_; by rewrite Hnote).
      rewrite (io_bind_run _ _ s (Some {| cp_origin := log_origin w; cp_size := Z.of_nat n; cp_root := root_of log n |}) s).
      2:{ rewrite (io_bind_run _ _ s {| cp_origin := log_origin w; cp_size := Z.of_nat n; cp_root := root_of log n |} s);
            [done|]. unfold pure_. by rewrite Hp. }
      pose proof Hc as Ho. cbn [checked_proof] in Ho. apply io_bind_Ok in Ho as (u & s1 & Ho & _). apply pure_Ok in Ho as [Ho ->].
      rewrite (io_bind_run _ _ s u s) by (unfold pure_; fold c in Ho; by rewrite Ho).
      rewrite (io_bind_run _ _ s proof s Hc). cbn [cp_size]. rewrite (io_bind_run _ _ s _ s' Hsub). unfold pure_. by rewrite Hr.
    - exists 0%nat, []. split_and!; try done; [lia|cbn; lia|lia|]. intros r s' Hsub Hr. unfold cosign_attempt.
      rewrite (io_bind_run _ _ s c s) by (unfold pure_; by rewrite Hnote). rewrite (io_bind_run _ _ s None s) by done.
      rewrite (io_bind_run _ _ s tt s) by done. rewrite (io_bind_run _ _ s [] s) by done.
      rewrite (io_bind_run _ _ s _ s' Hsub). unfold pure_. by rewrite Hr. }
  destruct (own_request k op log HP Hlog n proof Hn Hlen Hz) as (body & Hreq & Hbl & Hbu). fold c note in Hreq.
  pose proof (own_review k op log HP Hlog (pw_memory s) n proof body (pw_clock s) _ Hmem Hn Hv Hreq Hbl Hbu Hline) as Hrev.
  pose proof (own_receipt k op log HP Hlog (pw_clock s) l now Hline Hsw Hl Hf Hts Hnow) as Hr. fold c note in Hr.
  destruct (submit_accepted s (Z.of_nat n) proof note body c _ _ Hwr Hdel Hreq Hrev) as (d & Hsub);
    [rewrite length_app; cbn [length]; unfold MAX_RESPONSE_BYTES; lia|done|].
  eexists _, _. split_and!; [exact (Hrun _ _ Hsub Hr)|done|done|]. intros log' Hpre.
  apply (in_step_grows k (set_service s _ d) _ log'); [|done]. unfold in_step. cbn [set_service pw_memory next_of st_size st_root pw_log].
  split.
  - apply receipt_from_lines_Ok in Hr as [Hr _]. apply (receipt_resumes k note c now); [apply HP|done|done].
  - exists (log_size log). done.
Qed.

(** ** A lost answer *)

(** A note with operator signatures only makes no receipt. *)
Lemma operator_note_no_receipt k note c now r : client_ok k -> verify_operator_note k note = Ok c ->
  receipt_from_note k note now <> Ok r.
Proof.
  intros Hk (_ & _ & _ & body & u & Hs & Hall)%verify_operator_note_Ok H. unfold receipt_from_note in H.
  apply bind_Ok in H as (u1 & _ & H). apply bind_Ok in H as (n & _ & H). apply bind_Ok in H as (c' & _ & H).
  apply bind_Ok in H as ([b g] & Hg%ok_or_Ok & H). rewrite Hs in Hg. injection Hg as <- <-.
  apply receipt_from_lines_Ok in H as (_ & l & Hl & Hsw). rewrite Forall_forall in Hall.
  apply Hall, (prefixes_differ k l Hk) in Hl. congruence.
Qed.

(** A submission from another size than the one held is not cosigned, and changes nothing. *)
Lemma behind_refused (s : Pair) st old proof note body c sub line : pw_memory s = Some st -> in_uint 64 old -> old <> st_size st ->
  request_body old proof note = Ok body -> review w (pw_memory s) body (pw_clock s) <> Ok (c, sub, line).
Proof.
  intros Hm Hu Hne Hreq Hrev. apply submission_roundtrip in Hreq; [|done]. unfold review in Hrev. rewrite Hm in Hrev.
  apply bind_Ok in Hrev as (u1 & _ & Hrev). apply bind_Ok in Hrev as (u2 & _ & Hrev). rewrite Hreq in Hrev. cbn [ok_or mbind result_bind] in Hrev.
  apply bind_Ok in Hrev as (c' & _ & Hrev). apply bind_Ok in Hrev as (u3 & _ & Hrev). apply bind_Ok in Hrev as (u4 & _ & Hrev).
  apply bind_Ok in Hrev as (u5 & Ha & _). cbn [check_extension old_size] in Ha. apply bind_Ok in Ha as (u6 & Hg%guard_Ok & _). b2p. done.
Qed.

Lemma submit_behind (s : Pair) st old proof note r s' : pw_memory s = Some st -> in_uint 64 old -> old <> st_size st ->
  submit old proof note s = (r, s') -> pw_memory s' = Some st /\ forall ls, r <> Ok (Cosignatures ls).
Proof.
  intros Hm Hu Hne H. unfold submit in H. destruct (request_body old proof note) as [body|e] eqn:Hreq.
  2:{ rewrite (io_bind_Err _ _ s e s) in H by done. injection H as <- <-. done. }
  rewrite (io_bind_run _ _ s body s) in H by done. unfold mbind, Io_bind, pure_ in H. cbn [post pair_world] in H.
  destruct (add_checkpoint _ _ _ _ _ _) as [[resp m] d] eqn:Hadd. destruct (pw_delivers s); cbn [ok_or] in H; injection H as <- <-; cbn [set_service pw_memory].
  2:{ apply add_checkpoint_spec in Hadd as [(_ & -> & _)|(c & sub & line & Hrev & _)]; [done|]. by destruct (behind_refused s st old proof note body c sub line Hm Hu Hne Hreq). }
  apply add_checkpoint_spec in Hadd as [(H200 & -> & _)|(c & sub & line & Hrev & _)].
  - split; [done|]. intros ls. unfold read_submission. cbn [reply_of rp_status].
    rewrite (proj2 (Z.eqb_neq _ _) H200). repeat case_match; try done. intros Hx. inv_ok. done.
  - by destruct (behind_refused s st old proof note body c sub line Hm Hu Hne Hreq).
Qed.

(** Asking for a proof changes nothing. *)
Lemma checked_keeps old target (s s' : Pair) proof : checked_proof old target s = (Ok proof, s') -> s' = s.
Proof.
  destruct old as [old|]; cbn [checked_proof]; [|by intros [_ ->]%io_ret_Ok].
  intros (u & s1 & H1 & H)%io_bind_Ok. apply pure_Ok in H1 as [_ ->]. destruct (_ || _)%bool; [by apply io_ret_Ok in H as [_ ->]|].
  apply io_bind_Ok in H as (p & s2 & Hp%ask_proof_Ok & H). cbn [proof_for pair_world] in Hp. injection Hp as _ <-.
  apply io_bind_Ok in H as (u' & s3 & H3 & H). apply pure_Ok in H3 as [_ ->]. by apply io_ret_Ok in H as [_ ->].
Qed.

Lemma recover_monitored_stuck k (s : Pair) st c0 size note target previous now r s' : client_ok k -> pw_memory s = Some st ->
  verify_operator_note k (st_note st) = Ok c0 ->
  recover_monitored k size note target previous now s <> (Ok r, s').
Proof.
  intros Hk Hm Hst H. unfold recover_monitored in H. apply io_bind_Ok in H as (mn & s1 & Hf & H).
  apply io_bind_Ok in H as (m & s2 & Hr & _). apply pure_Ok in Hr as [Hr _]. unfold fetch_monitored_checkpoint in Hf.
  apply io_bind_Ok in Hf as (reply & s3 & Hg & Hf). apply pure_Ok in Hf as [Hf _]. cbn [get_monitored pair_world] in Hg.
  destruct (pw_delivers s); [|done]. injection Hg as <- <-.
  assert (mn = st_note st) as ->.
  { unfold monitoring in Hf. rewrite bool_decide_true, Hm in Hf by done. unfold read_monitored, read_limited in Hf.
    cbn [negb reply_of rp_status rp_content_length rp_chunks rp_broken text status response_body read_chunks app Z.eqb Pos.eqb] in Hf.
    apply bind_Ok in Hf as (u1 & _ & Hf). apply bind_Ok in Hf as (u2 & _ & Hf). apply bind_Ok in Hf as (u3 & _ & Hf).
    apply bind_Ok in Hf as (b & Hb & Hf). apply bind_Ok in Hf as (u4 & _ & Hf). injection Hf as <-.
    apply bind_Ok in Hb as (u5 & _ & Hb). destruct (_ <? _); [done|]. by injection Hb as <-. }
  by apply (operator_note_no_receipt k _ c0 now m) in Hr.
Qed.

(** The service cannot give back an answer that was lost.  When the service holds a checkpoint this client
    submitted, of another size than the client's last receipt says (the answer was lost) and than the one now submitted
    (the log has grown since), no attempt ever returns a receipt: the service serves the note it was sent, without its own
    cosignature, and the client needs that cosignature to learn what the service holds. *)
Theorem lost_answer_unrecoverable (k : WitnessClient) (s : Pair) (note : str) (previous : option WitnessReceipt) (now : Z)
  (st : Stored) (c0 target : Checkpoint) :
  client_ok k -> pw_memory s = Some st -> verify_operator_note k (st_note st) = Ok c0 ->
  verify_operator_note k note = Ok target -> st_size st <> cp_size target ->
  match previous with
  | None => st_size st <> 0
  | Some p => forall old, verify_stored_receipt k p = Ok old -> cp_size old <> st_size st
  end ->
  forall r s', cosign_attempt k note previous now s <> (Ok r, s').
Proof.
  intros Hk Hm Hst Hn Hne Hprev r s' H. unfold cosign_attempt in H.
  rewrite (io_bind_run _ _ s target s) in H by (unfold pure_; by rewrite Hn).
  apply io_bind_Ok in H as (old & s1 & Hold & H).
  assert (s1 = s /\ in_uint 64 (match old with Some o => cp_size o | None => 0 end) /\
    (match old with Some o => cp_size o | None => 0 end) <> st_size st) as (-> & Hu & Hdiff).
  { destruct previous as [p|]; [|apply io_ret_Ok in Hold as [-> ->]; split_and!; [done|done|congruence]].
    apply io_bind_Ok in Hold as (o & s2 & Ho & Hold). apply pure_Ok in Ho as [Ho ->]. apply io_ret_Ok in Hold as [-> ->].
    split_and!; [done| |by apply Hprev]. unfold verify_stored_receipt in Ho. apply bind_Ok in Ho as (u & _ & Ho).
    apply bind_Ok in Ho as (v & Hv%or_err_Ok & Ho). apply bind_Ok in Ho as (u' & _ & Ho). injection Ho as <-.
    apply fresh_policy, single_witness_Ok in Hv as [Hv _]. by apply checkpoint_size in Hv. }
  apply io_bind_Ok in H as (u & s2 & Ho & H).
  assert (s2 = s) as ->. { destruct old; [by apply pure_Ok in Ho as [_ ->]|by apply io_ret_Ok in Ho as [_ ->]]. }
  apply io_bind_Ok in H as (proof & s3 & Hp & H).
  assert (pw_memory s3 = Some st) as Hm3. { apply checked_keeps in Hp. by rewrite Hp. }
  apply io_bind_Ok in H as (answer & s4 & Hsub & H).
  destruct (submit_behind s3 st _ _ _ _ _ Hm3 Hu Hdiff Hsub) as [Hm4 Hno].
  destruct answer as [ls|size]; [by destruct (Hno ls)|]. unfold recover_conflict in H.
  apply io_bind_Ok in H as (u2 & s5 & Hg & H). apply pure_Ok in Hg as [_ ->].
  destruct (size =? cp_size target) eqn:E; [|by apply (recover_monitored_stuck k s4 st c0) in H]. b2p. subst size.
  unfold resubmit in H. destruct (submit (cp_size target) [] note s4) as [r2 s6] eqn:Hsub2.
  apply verify_operator_note_Ok in Hn as (Hcv & _). apply checkpoint_size in Hcv.
  destruct (submit_behind s4 st _ _ _ _ _ Hm4 Hcv (not_eq_sym Hne) Hsub2) as [Hm6 Hno2].
  destruct r2 as [[ls|]|e]; [by destruct (Hno2 ls)|by apply (recover_monitored_stuck k s6 st c0) in H|].
  destruct e; try done. by apply (recover_monitored_stuck k s6 st c0) in H.
Qed.
End Pair.

(** * Concrete exchanges *)

Section Demo.
#[local] Existing Instance toy_crypto.
#[local] Existing Instance toy_laws.

Definition default_timing : WitnessTiming := {|
  connect_timeout := 5 * SECOND;
  request_timeout := 15 * SECOND;
  max_cosignature_age := 10 * 60 * SECOND;
  future_clock_skew := 30 * SECOND;
  retry_initial := SECOND / 4;
  retry_max := 15 * SECOND;
  retry_deadline := 60 * SECOND;
|}.

Definition demo_client : WitnessClient := {|
  wc_witness := MkWitnessKey (lit "w") (verifying_key demo_witness);
  wc_origin := lit "log";
  operator_key := verifying_key demo_operator;
  timing := default_timing;
|}.

Lemma demo_client_ok : client_ok demo_client.
Proof. split_and!; [vm_compute; reflexivity|vm_compute; discriminate|]. intros H%contains_byte_true. discriminate H. Qed.

Lemma demo_paired : paired demo_service demo_client demo_operator.
Proof. split; [exact demo_client_ok|reflexivity|split; reflexivity|vm_compute; reflexivity|reflexivity|vm_compute; split; congruence]. Qed.

(** The service before its first checkpoint, and after one the client did not hear about. *)
Definition demo_fresh : Pair := {| pw_memory := None; pw_disk := None; pw_log := demo_log 2; pw_clock := 1000; pw_writes := true; pw_delivers := true |}.
Definition demo_held : Stored := {| st_size := 1; st_root := log_root (demo_log 1); st_note := checkpoint_sign (demo_tree 1) demo_operator |}.
Definition demo_ahead : Pair := {| pw_memory := Some demo_held; pw_disk := None; pw_log := demo_log 2; pw_clock := 1000; pw_writes := true; pw_delivers := true |}.

(** The receipt of the first checkpoint, which the service still holds when the log has two entries. *)
Definition demo_line1 : str := match cosignature_line (demo_tree 1) (lit "w") demo_witness 990 with Ok l => l | Err _ => [] end.
Definition demo_receipt1 : option WitnessReceipt :=
  Eval vm_compute in ok (receipt_from_lines demo_client (checkpoint_sign (demo_tree 1) demo_operator) (demo_tree 1) demo_line1 1000).

Lemma demo_in_step : match demo_receipt1 with Some r => in_step demo_service demo_client demo_ahead (Some r) | None => False end.
Proof. split; [vm_compute; reflexivity|]. exists 1%nat. split; [reflexivity|]. split; [vm_compute; lia|vm_compute; reflexivity]. Qed.

(** Both cases: a first submission, and one that extends the checkpoint held, with its consistency proof. *)
Lemma cosign_in_step_witness :
  (exists r s', cosign_attempt (W := pair_world demo_service) demo_client
    (checkpoint_sign (head_of demo_service (demo_log 2)) demo_operator) None 1010 demo_fresh = (Ok r, s') /\
    rc_witnessed_at r = 1000) /\
  match demo_receipt1 with
  | None => False
  | Some previous => exists r s', cosign_attempt (W := pair_world demo_service) demo_client
      (checkpoint_sign (head_of demo_service (demo_log 2)) demo_operator) (Some previous) 1010 demo_ahead = (Ok r, s') /\
      rc_witnessed_at previous = 990 /\ rc_witnessed_at r = 1000 /\ rc_size previous = 1 /\ rc_size r = 2
  end.
Proof.
  split.
  - destruct (cosign_in_step demo_service demo_client demo_operator demo_fresh None 1010) as (r & s' & H & _ & Ht & _).
    + exact demo_paired.
    + exact I.
    + reflexivity.
    + reflexivity.
    + vm_compute. reflexivity.
    + vm_compute. repeat split; discriminate.
    + discriminate.
    + vm_compute. discriminate.
    + exists r, s'. split; [exact H|exact Ht].
  - pose proof demo_in_step as Hin. destruct demo_receipt1 as [previous|] eqn:Ep; [|exact Hin].
    destruct (cosign_in_step demo_service demo_client demo_operator demo_ahead (Some previous) 1010) as (r & s' & H & Hc & Ht & _).
    + exact demo_paired.
    + exact Hin.
    + reflexivity.
    + reflexivity.
    + vm_compute. reflexivity.
    + vm_compute. repeat split; discriminate.
    + discriminate.
    + vm_compute. discriminate.
    + exists r, s'. injection Ep as <-. split; [exact H|]. split; [reflexivity|]. split; [exact Ht|]. split; [reflexivity|].
      exact (f_equal cp_size Hc).
Defined.

Definition demo_note2 : str := checkpoint_sign (demo_tree 2) demo_operator.

Lemma demo_attempt : exists r s',
  cosign_attempt (W := pair_world demo_service) demo_client demo_note2 None 1010 demo_fresh = (Ok r, s').
Proof.
  assert (is_ok (fst (cosign_attempt (W := pair_world demo_service) demo_client demo_note2 None 1010 demo_fresh)) = true) as H
    by (vm_compute; reflexivity).
  destruct (cosign_attempt demo_client demo_note2 None 1010 demo_fresh) as [[r|e] s']; [exists r, s'; reflexivity|discriminate H].
Qed.

Lemma cosign_attempt_sound_witness :
  exists body t, reads body (demo_tree 2) /\ cosigned (verifying_key demo_witness) body t.
Proof.
  destruct demo_attempt as (r & s' & H).
  destruct (cosign_attempt_sound (W := pair_world demo_service) demo_client demo_note2 None 1010 demo_fresh s' r demo_client_ok H)
    as (c & body & Hn & _ & _ & Hr & Hc & _ & _).
  exists body, (rc_witnessed_at r). assert (c = demo_tree 2) as <-; [|split; assumption].
  assert (verify_operator_note demo_client demo_note2 = Ok (demo_tree 2)) as Hn' by (vm_compute; reflexivity).
  rewrite Hn in Hn'. injection Hn' as ->. reflexivity.
Defined.

Lemma lost_answer_unrecoverable_witness :
  is_ok (fst (cosign_attempt (W := pair_world demo_service) demo_client demo_note2 None 1010 demo_ahead)) = false.
Proof.
  assert (forall r s', cosign_attempt (W := pair_world demo_service) demo_client demo_note2 None 1010 demo_ahead <> (Ok r, s')) as H.
  { apply (lost_answer_unrecoverable demo_service demo_client demo_ahead demo_note2 None 1010 demo_held (demo_tree 1) (demo_tree 2)).
    - exact demo_client_ok.
    - reflexivity.
    - vm_compute. reflexivity.
    - vm_compute. reflexivity.
    - discriminate.
    - discriminate. }
  destruct (cosign_attempt demo_client demo_note2 None 1010 demo_ahead) as [[r|e] s']; [|reflexivity]. destruct (H r s' eq_refl).
Defined.

Definition demo_answer : str :=
  match cosignature_line (demo_tree 2) (lit "w") demo_witness 1000 with Ok l => l | Err _ => [] end.

Lemma demo_receipt : exists r, receipt_for demo_client demo_note2 (demo_tree 2) 1010 r /\ rc_witnessed_at r = 1000.
Proof.
  assert (exists r, receipt_from_lines demo_client demo_note2 (demo_tree 2) demo_answer 1010 = Ok r /\ rc_witnessed_at r = 1000)
    as (r & H & Ht) by (eexists; split; vm_compute; reflexivity).
  apply receipt_from_lines_Ok in H as [H _]. exists r. split; assumption.
Qed.

Definition demo_policy : WitnessPolicy := {|
  wp_witnesses := demo_roster; wp_threshold := 1; wp_max_cosignature_age_secs := 600; wp_future_clock_skew_secs := 30;
  wp_max_lag_entries := 0;
|}.

Lemma quorum_assembles_witness : exists r v note',
  assemble_checkpoint demo_policy demo_note2 (verifying_key demo_operator) [r] 1010 = Ok (v, note') /\ vc_checkpoint v = demo_tree 2.
Proof.
  destruct demo_receipt as (r & Hr & Ht). exists r.
  destruct (quorum_assembles demo_roster 1 600 30 0 demo_policy (verifying_key demo_operator) demo_note2 (demo_tree 2) 1010
    [(r, wc_witness demo_client)]) as (v & note' & H & Hc & _).
  - vm_compute. reflexivity.
  - constructor; [|constructor]. exists demo_client, 1010. split_and!; [exact demo_client_ok|reflexivity|reflexivity| |exact Hr|].
    + vm_compute. reflexivity.
    + rewrite Ht. vm_compute. repeat split; discriminate.
  - apply NoDup_singleton.
  - intros w Hw. exact Hw.
  - apply Nat.le_refl.
  - vm_compute. discriminate.
  - vm_compute. discriminate.
  - exists v, note'. split; assumption.
Defined.

(** A world in which nothing answers and only sleeping takes time. *)
#[local] Instance silent_world : World Z := {
  post s _ := (None, s); get_monitored s := (None, s); proof_for s _ _ := (Err ProofUnavailable, s);
}.
#[local] Instance silent_clock : Clock Z := { elapsed s := (s, s); sleep s d := s + d; cut_off _ _ := None }.
#[local] Instance silent_laws : ClockLaws Z (fun s => s).
Proof. split; [intros s e s' [= <- <-]|..]; intros; cbn; lia. Qed.

Lemma cosign_retry_total_witness : exists result s', cosign_retry demo_client demo_note2 None 1010 0 = Some (result, s').
Proof.
  destruct (cosign_retry_total (time := fun s : Z => s) demo_client demo_note2 None 1010 0) as (result & s' & H & _).
  - vm_compute. reflexivity.
  - vm_compute. discriminate.
  - lia.
  - exists result, s'. exact H.
Defined.
End Demo.
