(* ===== verification/AuditReplay.v ===== *)
(** The registry client's replay of the log: [pigeonpost-registry/src/client.rs].  What each delivered entry does
    to the frontier and to the projection of handle bindings or compliance keys, the projection store as an
    interface with its in-memory implementation, and the two ways a range of entries is delivered (an NDJSON
    stream, or bounded pages).  [AuditFlow] composes them into the two audited reads.

    The server is a parameter: [Server] gives its reply to each request, and a request carries the number of
    requests before it, so that the same question may be answered differently each time. *)
From S2P Require Import Prelude Crypto Merkle MerkleProofs MerkleFrontier.
From S2P Require Import Text B32 Network Origin Token Compliance Handle Entry Checkpoint.

Definition MAX_CHECKPOINT_NOTE_BYTES : Z := 64 * 1024.
Definition MAX_COMPLIANCE_KEYS : nat := 4096.
Definition AUDIT_PAGE_ENTRIES : Z := 256.
Definition MAX_AUDIT_DUMP_LINE_BYTES : Z := 64 * 1024.
Definition MAX_AUDIT_SEGMENT_BYTES : Z := 32 * 1024 * 1024.
Definition AUDIT_DUMP_SEGMENT_ENTRIES : Z := 8192.

Abbreviation R := (result RegistryError).

Definition malformed_entry {A} (why : string) : R A := Err (MalformedEntry why).

(** * Hexadecimal fields of replies *)

Definition is_ascii_hexdigit (b : byte) : bool :=
  is_ascii_digit b || ((65 <=? u8 b) && (u8 b <=? 70)) || ((97 <=? u8 b) && (u8 b <=? 102)).

Definition parse_hex32 (input : str) : option (arr 32) :=
  if negb (length input =? 64)%nat || existsb (fun b => negb (is_ascii_hexdigit b)) input then None
  else
    bs ← unhex input;
    out ← arr_of_list 32 bs;
    if hex_of (vec_to_list out) ≟ input then Some out else None.

Fixpoint parse_hashes (values : list str) : R (list (arr 32)) :=
  match values with
  | [] => Ok []
  | value :: values =>
      h ← ok_or (parse_hex32 value) (MalformedCheckpoint "proof hash is not canonical hex");
      hs ← parse_hashes values;
      Ok (h :: hs)
  end.

(** * Handle bindings *)

Record AuditedHandleBinding := { hb_pubkey : arr 32; hb_subject : str; hb_log_index : Z }.
Record AuditedHandleMutation := {
  m_kind : EntryKind;
  m_handle : str;
  m_pubkey : arr 32;
  m_subject : str;
  m_log_index : Z;
}.

#[global] Instance AuditedHandleBinding_eq_dec : EqDecision AuditedHandleBinding.
Proof. solve_decision. Defined.
#[global] Instance EntryKind_eq_dec : EqDecision EntryKind.
Proof. solve_decision. Defined.

Definition validate_handle_transition (previous : option AuditedHandleBinding) (mutation : AuditedHandleMutation) : R unit :=
  match m_kind mutation with
  | KindHandleClaim =>
      guard (is_some previous) (MalformedEntry "audited handle was claimed more than once")
  | KindHandleRotation =>
      previous ← ok_or previous (MalformedEntry "audited handle rotation appears before its claim");
      _ ← guard (negb (hb_subject previous ≟ m_subject mutation))
            (MalformedEntry "audited handle rotation changed its provider subject");
      _ ← guard (hb_pubkey previous ≟ m_pubkey mutation)
            (MalformedEntry "audited handle rotation did not change its key");
      guard (m_log_index mutation <=? hb_log_index previous)
        (MalformedEntry "audited handle rotation did not advance its log index")
  | _ => malformed_entry "handle projection received a non-handle mutation"
  end.

Definition binding_of (m : AuditedHandleMutation) : AuditedHandleBinding :=
  {| hb_pubkey := m_pubkey m; hb_subject := m_subject m; hb_log_index := m_log_index m |}.

(** ** The projection store *)

(** The trait [HandleProjectionStore]: operations on a store [P]. *)
Class HandleProjectionStore (P : Type) := {
  store_reset : P -> R P;
  store_begin_segment : P -> R P;
  store_commit_segment : P -> R P;
  store_rollback_segment : P -> R P;
  store_apply : P -> AuditedHandleMutation -> R P;
  store_binding : P -> Handle -> R (P * option AuditedHandleBinding);
}.

(** What the trait's documentation asks of an implementation, over the map of bindings it holds and the map it
    held when the open segment began. *)
Class HandleProjectionLaws (P : Type) {S : HandleProjectionStore P} := {
  bindings : P -> gmap str AuditedHandleBinding;
  segment_start : P -> option (gmap str AuditedHandleBinding);
  reset_law p p' : store_reset p = Ok p' -> bindings p' = ∅ /\ segment_start p' = None;
  begin_law p p' : store_begin_segment p = Ok p' -> bindings p' = bindings p /\ segment_start p' = Some (bindings p);
  commit_law p p' : store_commit_segment p = Ok p' -> bindings p' = bindings p /\ segment_start p' = None;
  rollback_law p p' : store_rollback_segment p = Ok p' -> segment_start p = Some (bindings p') /\ segment_start p' = None;
  apply_law p m p' : store_apply p m = Ok p' ->
    validate_handle_transition (bindings p !! m_handle m) m = Ok tt /\
    bindings p' = <[m_handle m := binding_of m]> (bindings p) /\ segment_start p' = segment_start p;
  binding_law p h p' b : store_binding p h = Ok (p', b) ->
    b = bindings p !! as_path h /\ bindings p' = bindings p /\ segment_start p' = segment_start p;
}.

Record InMemoryHandleProjection := {
  im_bindings : gmap str AuditedHandleBinding;
  segment_undo : option (gmap str (option AuditedHandleBinding));
}.

Definition segment_inactive : RegistryError := InvalidConfiguration "handle projection segment is not active".

Definition mem_reset (p : InMemoryHandleProjection) : R InMemoryHandleProjection :=
  Ok {| im_bindings := ∅; segment_undo := None |}.

Definition mem_begin_segment (p : InMemoryHandleProjection) : R InMemoryHandleProjection :=
  _ ← guard (is_some (segment_undo p)) (InvalidConfiguration "handle projection segment is already active");
  Ok {| im_bindings := im_bindings p; segment_undo := Some ∅ |}.

Definition mem_commit_segment (p : InMemoryHandleProjection) : R InMemoryHandleProjection :=
  _ ← ok_or (segment_undo p) segment_inactive;
  Ok {| im_bindings := im_bindings p; segment_undo := None |}.

(** One iteration of the loop [for (handle, previous) in undo]. *)
Definition undo_one (handle : str) (previous : option AuditedHandleBinding) (b : gmap str AuditedHandleBinding)
  : gmap str AuditedHandleBinding :=
  match previous with Some binding => <[handle := binding]> b | None => delete handle b end.

Definition mem_rollback_segment (p : InMemoryHandleProjection) : R InMemoryHandleProjection :=
  undo ← ok_or (segment_undo p) segment_inactive;
  Ok {| im_bindings := map_fold undo_one (im_bindings p) undo; segment_undo := None |}.

(** [undo.entry(handle).or_insert_with(previous)] *)
Definition or_insert (undo : gmap str (option AuditedHandleBinding)) (handle : str) (previous : option AuditedHandleBinding)
  : gmap str (option AuditedHandleBinding) :=
  match undo !! handle with Some _ => undo | None => <[handle := previous]> undo end.

Definition mem_apply (p : InMemoryHandleProjection) (m : AuditedHandleMutation) : R InMemoryHandleProjection :=
  let previous := im_bindings p !! m_handle m in
  _ ← validate_handle_transition previous m;
  Ok {| im_bindings := <[m_handle m := binding_of m]> (im_bindings p);
        segment_undo := option_map (fun undo => or_insert undo (m_handle m) previous) (segment_undo p) |}.

Definition mem_binding (p : InMemoryHandleProjection) (h : Handle)
  : R (InMemoryHandleProjection * option AuditedHandleBinding) :=
  Ok (p, im_bindings p !! as_path h).

#[global] Instance InMemoryHandleProjection_store : HandleProjectionStore InMemoryHandleProjection := {|
  store_reset := mem_reset;
  store_begin_segment := mem_begin_segment;
  store_commit_segment := mem_commit_segment;
  store_rollback_segment := mem_rollback_segment;
  store_apply := mem_apply;
  store_binding := mem_binding;
|}.

(** The bindings before the segment: what rolling back gives. *)
Definition undone (undo : gmap str (option AuditedHandleBinding)) (b : gmap str AuditedHandleBinding)
  : gmap str AuditedHandleBinding :=
  merge (fun u v => match u with Some previous => previous | None => v end) undo b.

Lemma lookup_undone undo b k : undone undo b !! k = match undo !! k with Some previous => previous | None => b !! k end.
Proof. unfold undone. rewrite lookup_merge. destruct (undo !! k), (b !! k); done. Qed.

Lemma lookup_undo_one k previous b i :
  undo_one k previous b !! i = if k ≟ i then previous else b !! i.
Proof.
  unfold undo_one. case_bool_decide; subst; destruct previous.
  - by rewrite lookup_insert_eq.
  - by rewrite lookup_delete_eq.
  - by rewrite lookup_insert_ne.
  - by rewrite lookup_delete_ne.
Qed.

(** The order of the undo map's iteration does not matter. *)
Lemma map_fold_undo undo b : map_fold undo_one b undo = undone undo b.
Proof.
  induction undo as [|k previous undo Hk IH] using map_ind.
  - rewrite map_fold_empty. apply map_eq. intros i. by rewrite lookup_undone, lookup_empty.
  - rewrite map_fold_insert_L; [|intros; apply map_eq; intros; rewrite !lookup_undo_one; repeat case_bool_decide; congruence|done].
    rewrite IH. apply map_eq. intros i. rewrite lookup_undo_one, !lookup_undone.
    case_bool_decide as E; [subst; by rewrite lookup_insert_eq|by rewrite lookup_insert_ne].
Qed.

Lemma undone_apply undo b k v : undone (or_insert undo k (b !! k)) (<[k := v]> b) = undone undo b.
Proof.
  apply map_eq. intros i. rewrite !lookup_undone. unfold or_insert. destruct (undo !! k) eqn:E.
  - destruct (decide (k = i)) as [->|Hne]; [by rewrite E|]. by rewrite lookup_insert_ne by done.
  - destruct (decide (k = i)) as [->|Hne]; [by rewrite E, lookup_insert_eq|by rewrite !lookup_insert_ne by done].
Qed.

#[global] Program Instance InMemoryHandleProjection_laws : HandleProjectionLaws InMemoryHandleProjection := {|
  bindings := im_bindings;
  segment_start p := option_map (fun undo => undone undo (im_bindings p)) (segment_undo p);
|}.
Next Obligation. intros p p' [= <-]. done. Qed.
Next Obligation.
  intros p p' H. unfold store_begin_segment in H. cbn in H. unfold mem_begin_segment in H. inv_ok. subst p'. cbn. split; [done|].
  f_equal. apply map_eq. intros i. by rewrite lookup_undone, lookup_empty.
Qed.
Next Obligation. intros p p' H. cbn in H. unfold mem_commit_segment in H. inv_ok. by subst p'. Qed.
Next Obligation.
  intros p p' H. cbn in H. unfold mem_rollback_segment in H. inv_ok. subst p'. cbn. rewrite Ha. cbn. by rewrite map_fold_undo.
Qed.
Next Obligation.
  intros p m p' H. cbn in H. unfold mem_apply in H. inv_ok. subst p'. destruct a. cbn. split_and!; [done|done|].
  destruct (segment_undo p); [|done]. cbn. by rewrite undone_apply.
Qed.
Next Obligation. intros p h p' b [= <- <-]. done. Qed.

(** [Hash] and [Eq] of [ComplianceKeyId], as a map key. *)
#[global] Instance CompliancePurpose_countable : Countable CompliancePurpose.
Proof.
  apply (inj_countable purpose_u8 (fun b => ok (purpose_try_from b))). intros p. by destruct p.
Defined.
#[global] Instance Jurisdiction_countable : Countable Jurisdiction.
Proof.
  apply (inj_countable jurisdiction_u8 (fun b => ok (jurisdiction_try_from b))). intros j. by destruct j.
Defined.
#[global] Instance ComplianceKeyId_countable : Countable ComplianceKeyId.
Proof.
  apply (inj_countable' (fun id => (version id, purpose id, jurisdiction id, authority id, epoch_start_ms id, generation id))
    (fun '(v, p, j, a, e, g) => {| version := v; purpose := p; jurisdiction := j; authority := a; epoch_start_ms := e; generation := g |})).
  by intros [].
Defined.

(** * One delivered entry *)

Record HandleAuditAccumulator (P : Type) := MkHandleAccumulator {
  ha_frontier : MerkleFrontier;
  projection : P;
  requested_path : str;
  target_binding : option AuditedHandleBinding;
}.
Arguments MkHandleAccumulator {P} _ _ _ _.
Arguments ha_frontier {P} _.
Arguments projection {P} _.
Arguments requested_path {P} _.
Arguments target_binding {P} _.

Section Append.
Context {C : Crypto} {UP : UrlParser}.

Definition frontier_malformed : RegistryError := MalformedCheckpoint "registry audit frontier is malformed".

(** [frontier.append(&leaf) != Some(index)], with the frontier it leaves when they agree. *)
Definition append_leaf (frontier : MerkleFrontier) (leaf : bytes) (index : Z) : R MerkleFrontier :=
  let '(got, frontier) := frontier_append frontier leaf in
  _ ← guard (negb (option_map Z.of_N got ≟ Some index)) frontier_malformed;
  Ok frontier.

(** The first half of both append functions: the entry is where it says it is, and the frontier takes its leaf. *)
Definition admit_leaf (frontier : MerkleFrontier) (entry : LogEntry) (index : Z) : R MerkleFrontier :=
  _ ← guard (negb (seq entry =? index)) (MalformedEntry "registry audit changed a log sequence");
  leaf ← map_err InvalidEntry (leaf_bytes entry);
  append_leaf frontier leaf index.

(** The handle mutation of an entry, if it is one that is projected. *)
Definition mutation_of (entry : LogEntry) (index : Z) : R (option AuditedHandleMutation) :=
  match handle_binding entry with
  | None => Ok None
  | Some (handle, encoded_key, subject) =>
      if negb (is_ok (handle_parse handle)) then Ok None
      else
        pubkey ← ok_or (parse_hex32 encoded_key) (MalformedEntry "handle key is not canonical hex");
        _ ← map_err (fun _ => MalformedEntry "handle key is invalid") (verifying_key_from_bytes pubkey);
        Ok (Some {| m_kind := kind entry; m_handle := handle; m_pubkey := pubkey; m_subject := subject; m_log_index := index |})
  end.

(** ** Handles *)

Definition append_handle_audited_entry {P} {S : HandleProjectionStore P} (acc : HandleAuditAccumulator P) (entry : LogEntry)
  (index : Z) : R (HandleAuditAccumulator P) :=
  frontier ← admit_leaf (ha_frontier acc) entry index;
  mutation ← mutation_of entry index;
  match mutation with
  | None => Ok (MkHandleAccumulator frontier (projection acc) (requested_path acc) (target_binding acc))
  | Some m =>
      target ←
        (if m_handle m ≟ requested_path acc then
           _ ← validate_handle_transition (target_binding acc) m;
           Ok (Some (binding_of m))
         else Ok (target_binding acc));
      p ← store_apply (projection acc) m;
      Ok (MkHandleAccumulator frontier p (requested_path acc) target)
  end.

Definition begin_segment {P} {S : HandleProjectionStore P} (acc : HandleAuditAccumulator P) : R (HandleAuditAccumulator P) :=
  p ← store_begin_segment (projection acc);
  Ok (MkHandleAccumulator (ha_frontier acc) p (requested_path acc) (target_binding acc)).
Definition commit_segment {P} {S : HandleProjectionStore P} (acc : HandleAuditAccumulator P) : R (HandleAuditAccumulator P) :=
  p ← store_commit_segment (projection acc);
  Ok (MkHandleAccumulator (ha_frontier acc) p (requested_path acc) (target_binding acc)).
Definition rollback_segment {P} {S : HandleProjectionStore P} (acc : HandleAuditAccumulator P) (frontier : MerkleFrontier)
  (target : option AuditedHandleBinding) : R (HandleAuditAccumulator P) :=
  p ← store_rollback_segment (projection acc);
  Ok (MkHandleAccumulator frontier p (requested_path acc) target).

(** ** Compliance keys *)

Record AuditedComplianceKey := { ck_publication : ComplianceKeyPublish; ck_public_key : arr 32; ck_log_index : Z }.
Record ComplianceAuditAccumulator := MkComplianceAccumulator {
  ca_frontier : MerkleFrontier;
  ca_keys : gmap ComplianceKeyId AuditedComplianceKey;
}.

Definition audited_compliance_key (publication : ComplianceKeyPublish) (log_index : Z) : R AuditedComplianceKey :=
  _ ← map_err (fun e => InvalidEntry (EntryFormat e)) (key_id_encode (key_id publication));
  public_key ← ok_or (parse_hex32 (cp_public_key publication)) (MalformedEntry "compliance public key is not canonical hex");
  _ ← guard ((public_key ≟ zeroes 32)
             || negb (is_ok (validate_compliance_epoch (key_id publication) (not_before_ms publication) (not_after_ms publication))))
        (MalformedEntry "compliance key has an invalid publication interval");
  Ok {| ck_publication := publication; ck_public_key := public_key; ck_log_index := log_index |}.

Definition is_final (s : ComplianceKeyStatus) : bool := match s with Retired | Revoked => true | Active => false end.

Definition validate_compliance_transition (previous : option AuditedComplianceKey) (next : AuditedComplianceKey) : R unit :=
  match previous with
  | None =>
      if status (ck_publication next) ≟ Active then Ok tt
      else malformed_entry "an audited compliance key must be published active before status changes"
  | Some previous =>
      guard ((ck_log_index next <=? ck_log_index previous)
             || negb (ck_public_key next ≟ ck_public_key previous)
             || negb (not_before_ms (ck_publication next) =? not_before_ms (ck_publication previous))
             || negb (not_after_ms (ck_publication next) =? not_after_ms (ck_publication previous))
             || (u8 (status_tag (status (ck_publication next))) <=? u8 (status_tag (status (ck_publication previous))))
             || negb (is_final (status (ck_publication next))))
        (MalformedEntry "audited compliance-key status transition is invalid")
  end.

Definition append_audited_entry (acc : ComplianceAuditAccumulator) (entry : LogEntry) (index : Z)
  : R ComplianceAuditAccumulator :=
  frontier ← admit_leaf (ca_frontier acc) entry index;
  match compliance_publication entry with
  | None => Ok (MkComplianceAccumulator frontier (ca_keys acc))
  | Some publication =>
      audited ← audited_compliance_key publication index;
      _ ← validate_compliance_transition (ca_keys acc !! key_id publication) audited;
      _ ← guard (negb (is_some (ca_keys acc !! key_id publication)) && (MAX_COMPLIANCE_KEYS <=? base.size (ca_keys acc))%nat)
            (MalformedEntry "audited compliance-key state exceeds the configured bound");
      Ok (MkComplianceAccumulator frontier (<[key_id publication := audited]> (ca_keys acc)))
  end.
End Append.

(** * Delivery *)

(** The trait [AuditAccumulator].  An error ends the audit, and the accumulator with it. *)
Class AuditAccumulator (A : Type) := acc_append : A -> LogEntry -> Z -> R A.

#[global] Instance ComplianceAuditAccumulator_append {C : Crypto} {UP : UrlParser} : AuditAccumulator ComplianceAuditAccumulator :=
  append_audited_entry.
#[global] Instance HandleAuditAccumulator_append {C : Crypto} {UP : UrlParser} {P} {S : HandleProjectionStore P}
  : AuditAccumulator (HandleAuditAccumulator P) := append_handle_audited_entry.

Record InclusionProof := { ip_tree_size : Z; ip_root : str; ip_path : list str; ip_checkpoint : str }.
Record ResolveResponse := { rr_handle : str; rr_pubkey : str; rr_log_index : Z; rr_inclusion_proof : InclusionProof }.
Record EntriesResponse := {
  er_from : Z;
  er_to : Z;
  er_tree_size : Z;
  er_root : str;
  er_checkpoint : str;
  er_entries : list LogEntry;
}.
Record ConsistencyResponse := { cr_from : Z; cr_to : Z; cr_root : str; cr_path : list str }.
(** The listed keys are only counted. *)
Record ComplianceKeysResponse := { kr_tree_size : Z; kr_root : str; kr_checkpoint : str; kr_keys : nat }.

(** A reply to the dump route: no response at all, or a status with the stream's chunks, each of which may be a
    transport error. *)
Inductive DumpReply :=
| DumpUnsent
| DumpResponse (status_code : Z) (content_length : option Z) (chunks : list (option bytes)).

(** The server as the client meets it: [get_json] at each route, the dump stream, and [serde_json] on one line. *)
Class Server := {
  get_resolve : nat -> Handle -> R ResolveResponse;
  get_entries : nat -> Z -> Z -> R EntriesResponse;
  get_consistency : nat -> Z -> Z -> R ConsistencyResponse;
  get_compliance_keys : nat -> R ComplianceKeysResponse;
  get_dump : nat -> Z -> Z -> DumpReply;
  entry_from_json : bytes -> option LogEntry;
}.

(** Requests are numbered through an audit. *)
Definition Net (A : Type) : Type := nat -> R (A * nat).
#[global] Instance Net_ret : MRet Net := fun A a n => Ok (a, n).
#[global] Instance Net_bind : MBind Net := fun A B k m n => match m n with Ok (a, n') => k a n' | Err e => Err e end.
Definition pure_ {A} (r : R A) : Net A := fun n => match r with Ok a => Ok (a, n) | Err e => Err e end.
Definition request {A} (r : nat -> R A) : Net A := fun n => match r n with Ok a => Ok (a, S n) | Err e => Err e end.

Lemma net_bind_Ok {A B} (m : Net A) (k : A -> Net B) n r :
  (m ≫= k) n = Ok r -> exists a n', m n = Ok (a, n') /\ k a n' = Ok r.
Proof. unfold mbind, Net_bind. destruct (m n) as [[a n']|]; [eauto|done]. Qed.
Lemma net_pure_Ok {A} (r : R A) n a n' : pure_ r n = Ok (a, n') -> r = Ok a /\ n' = n.
Proof. unfold pure_. destruct r; [by intros [= -> ->]|done]. Qed.
Lemma net_request_Ok {A} (r : nat -> R A) n a n' : request r n = Ok (a, n') -> r n = Ok a /\ n' = S n.
Proof. unfold request. destruct (r n); [by intros [= -> ->]|done]. Qed.
Lemma net_ret_Ok {A} (a b : A) n n' : mret (M := Net) a n = Ok (b, n') -> b = a /\ n' = n.
Proof. by intros [= -> ->]. Qed.

Section Delivery.
Context {C : Crypto} {UP : UrlParser} {SV : Server} {A : Type} {ACC : AuditAccumulator A}.

Inductive AuditDumpOutcome := Complete | UseRangePages.

Record DumpCpuState := { accumulator : A; pending : bytes; dump_index : Z }.

Definition line_too_long : RegistryError := MalformedEntry "registry dump entry exceeds the client limit".

(** One complete line. *)
Definition dump_line (st : DumpCpuState) (line : bytes) (to : Z) : R (DumpCpuState * option AuditDumpOutcome) :=
  _ ← guard (MAX_AUDIT_DUMP_LINE_BYTES <? Z.of_nat (length (pending st)) + Z.of_nat (length line)) line_too_long;
  let pending := pending st ++ line in
  _ ← guard (pending ≟ []) (MalformedEntry "registry dump contains an empty entry");
  entry ← ok_or (entry_from_json pending) (MalformedEntry "registry dump entry is malformed");
  if to <=? dump_index st then
    if (dump_index st =? to) && (seq entry =? dump_index st) && is_ok (leaf_bytes entry)
    then Ok ({| accumulator := accumulator st; pending := []; dump_index := dump_index st |}, Some UseRangePages)
    else malformed_entry "registry dump contains entries outside its exact range"
  else
    acc ← acc_append (accumulator st) entry (dump_index st);
    index ← ok_or (checked_add 64 (dump_index st) 1) (MalformedEntry "log index overflowed");
    Ok ({| accumulator := acc; pending := []; dump_index := index |}, None).

(** The loop over the newlines of a chunk: every piece but the last ends a line. *)
Fixpoint dump_pieces (st : DumpCpuState) (pieces : list bytes) (to : Z) : R (DumpCpuState * option AuditDumpOutcome) :=
  match pieces with
  | [] => Ok (st, None)
  | [rest] =>
      if rest ≟ [] then Ok (st, None)
      else
        _ ← guard (MAX_AUDIT_DUMP_LINE_BYTES <? Z.of_nat (length (pending st)) + Z.of_nat (length rest)) line_too_long;
        Ok ({| accumulator := accumulator st; pending := pending st ++ rest; dump_index := dump_index st |}, None)
  | line :: pieces =>
      '(st, outcome) ← dump_line st line to;
      match outcome with
      | Some outcome => Ok (st, Some outcome)
      | None => dump_pieces st pieces to
      end
  end.

Definition process_dump_chunk (st : DumpCpuState) (chunk : bytes) (to : Z) : R (DumpCpuState * option AuditDumpOutcome) :=
  dump_pieces st (Text.split NL chunk) to.

(** The loop over [response.chunk()]. *)
Fixpoint dump_chunks (st : DumpCpuState) (transferred : Z) (chunks : list (option bytes)) (to : Z) : R (A * AuditDumpOutcome) :=
  match chunks with
  | [] =>
      if (dump_index st =? to) && (pending st ≟ []) then Ok (accumulator st, Complete)
      else if dump_index st <? to then Ok (accumulator st, UseRangePages)
      else malformed_entry "registry dump contains trailing partial data"
  | None :: _ => Ok (accumulator st, UseRangePages)
  | Some chunk :: chunks =>
      match checked_add 64 transferred (Z.of_nat (length chunk)) with
      | Some transferred =>
          if transferred <=? MAX_AUDIT_SEGMENT_BYTES then
            '(st, outcome) ← process_dump_chunk st chunk to;
            match outcome with
            | Some outcome => Ok (accumulator st, outcome)
            | None => dump_chunks st transferred chunks to
            end
          else Ok (accumulator st, UseRangePages)
      | None => Ok (accumulator st, UseRangePages)
      end
  end.

(** The statuses after which the range is fetched as pages instead. *)
Definition dump_declined (status_code : Z) : bool :=
  existsb (Z.eqb status_code) [404; 405; 501; 408; 413; 429; 503; 504].

Definition audit_dump_range (from to : Z) (acc : A) : Net (A * AuditDumpOutcome) := fun n =>
  if from =? to then Ok ((acc, Complete), n)
  else if (to <? from) || (AUDIT_DUMP_SEGMENT_ENTRIES <? to - from) then
    Err (InvalidConfiguration "registry dump segment is outside the client bound")
  else
    match get_dump n from to with
    | DumpUnsent => Ok ((acc, UseRangePages), S n)
    | DumpResponse status_code content_length chunks =>
        if dump_declined status_code then Ok ((acc, UseRangePages), S n)
        else if negb ((200 <=? status_code) && (status_code <? 300)) then Err RegistryUnavailable
        else if match content_length with Some length => MAX_AUDIT_SEGMENT_BYTES <? length | None => false end
             then Ok ((acc, UseRangePages), S n)
        else
          r ← dump_chunks {| accumulator := acc; pending := []; dump_index := from |} 0 chunks to;
          Ok (r, S n)
    end.

(** ** Pages *)

Fixpoint append_page (acc : A) (entries : list LogEntry) (index : Z) : R A :=
  match entries with
  | [] => Ok acc
  | entry :: entries =>
      _ ← guard (negb (index <? 2 ^ 64)) (MalformedEntry "log index overflowed");
      acc ← acc_append acc entry index;
      append_page acc entries (index + 1)
  end.

(** The bounds [while from < to { let next = from.saturating_add(step).min(to); ...; from = next }] runs through;
    a step advances, so [to - from] of them are enough. *)
Fixpoint segments (n : nat) (step from to : Z) : list (Z * Z) :=
  match n with
  | O => []
  | S n =>
      if from <? to then
        let next := Z.min (saturating_add 64 from step) to in
        (from, next) :: segments n step next to
      else []
  end.
Definition ranges (step from to : Z) : list (Z * Z) := segments (Z.to_nat (to - from)) step from to.

Definition audit_page (acc : A) (range : Z * Z) : Net A :=
  let '(from, page_to) := range in
  page ← request (fun n => get_entries n from page_to);
  pure_ (
    _ ← guard (negb (er_from page =? from) || negb (er_to page =? page_to)
               || negb (Z.of_nat (length (er_entries page)) =? page_to - from) || (er_tree_size page <? page_to))
          (MalformedEntry "registry audit page is not the requested continuous range");
    append_page acc (er_entries page) from).

Fixpoint foldM {B} (f : A -> B -> Net A) (acc : A) (l : list B) : Net A :=
  match l with
  | [] => mret acc
  | x :: l => acc ← f acc x; foldM f acc l
  end.

Definition audit_json_pages (from to : Z) (acc : A) : Net A := foldM audit_page acc (ranges AUDIT_PAGE_ENTRIES from to).
End Delivery.

(** * What delivery does to an accumulator *)

Section Delivered.
Context {C : Crypto} {UP : UrlParser} {SV : Server} {A : Type} {ACC : AuditAccumulator A}.

(** [es] appended in order, from index [i]. *)
Inductive appended : A -> Z -> list LogEntry -> A -> Prop :=
| appended_nil acc i : appended acc i [] acc
| appended_cons acc i e es acc1 acc2 :
    acc_append acc e i = Ok acc1 -> appended acc1 (i + 1) es acc2 -> appended acc i (e :: es) acc2.

Lemma appended_app acc i es acc' es' acc'' :
  appended acc i es acc' -> appended acc' (i + Z.of_nat (length es)) es' acc'' -> appended acc i (es ++ es') acc''.
Proof.
  induction 1 as [acc i|acc i e es acc1 acc2 He _ IH]; cbn [app length]; intros H'.
  - by replace (i + Z.of_nat 0) with i in H' by lia.
  - econstructor; [done|]. apply IH. by replace (i + 1 + Z.of_nat (length es)) with (i + Z.of_nat (S (length es))) by lia.
Qed.

Lemma append_page_Ok acc es i acc' : append_page acc es i = Ok acc' -> appended acc i es acc'.
Proof.
  revert acc i. induction es as [|e es IH]; intros acc i H; cbn [append_page] in H; inv_ok; [subst; constructor|].
  econstructor; [done|]. by apply IH.
Qed.

(** The ranges of a loop follow one another from its start to its end. *)
Fixpoint chained (from to : Z) (l : list (Z * Z)) : Prop :=
  match l with
  | [] => from = to
  | (a, b) :: l => a = from /\ a < b /\ chained b to l
  end.

Lemma segments_chained n step from to :
  0 < step -> 0 <= from <= to -> to < 2 ^ 64 -> to - from <= Z.of_nat n -> chained from to (segments n step from to).
Proof.
  intros Hs. revert from. induction n as [|n IH]; intros from Hf Ht Hn; cbn [segments chained]; [lia|].
  destruct (from <? to) eqn:E; b2p; cbn [chained]; [|lia]. unfold saturating_add.
  split_and!; [done|lia|]. apply IH; lia.
Qed.

Lemma ranges_chained step from to : 0 < step -> 0 <= from <= to -> to < 2 ^ 64 -> chained from to (ranges step from to).
Proof. intros Hs Hf Ht. apply segments_chained; lia. Qed.

Lemma chained_le l : forall from to, chained from to l -> from <= to.
Proof. induction l as [|[a b] l IH]; intros from to H; cbn in H; [lia|]. destruct H as (-> & ? & ?%IH). lia. Qed.

(** A loop over chained ranges that delivers each one delivers the whole. *)
Lemma foldM_delivers (Inv : A -> Z -> Prop) (f : A -> Z * Z -> Net A) to l : forall from acc n acc' n',
  (forall acc a b n acc' n', a < b <= to -> Inv acc a -> f acc (a, b) n = Ok (acc', n') -> Inv acc' b) ->
  chained from to l -> Inv acc from -> foldM f acc l n = Ok (acc', n') -> Inv acc' to.
Proof.
  induction l as [|[a b] l IH]; intros from acc n acc' n' Hf Hc Hi H; cbn [foldM chained] in *.
  - subst to. by apply net_ret_Ok in H as [-> _].
  - destruct Hc as (-> & Hlt & Hc). apply net_bind_Ok in H as (acc1 & n1 & H1 & H2).
    pose proof (chained_le _ _ _ Hc). eapply (IH b acc1); [done|done| |done]. eapply (Hf acc); [|done|done]. lia.
Qed.

Lemma audit_json_pages_Ok from to acc n acc' n' :
  0 <= from <= to -> to < 2 ^ 64 -> audit_json_pages from to acc n = Ok (acc', n') ->
  exists es, from + Z.of_nat (length es) = to /\ appended acc from es acc'.
Proof.
  intros Hf Ht H. unfold audit_json_pages in H.
  apply (foldM_delivers (fun acc1 i => exists es, from + Z.of_nat (length es) = i /\ appended acc from es acc1))
    with (from := from) (to := to) in H; [done|..].
  - intros acc1 a b n1 acc2 n2 Hab (es & Hl & Hap) Hp. unfold audit_page in Hp.
    apply net_bind_Ok in Hp as (page & n3 & _ & Hp). apply net_pure_Ok in Hp as [Hp _].
    apply bind_Ok in Hp as (u & Hg%guard_Ok & Hp). b2p. apply append_page_Ok in Hp.
    exists (es ++ er_entries page). rewrite length_app. split; [lia|].
    eapply appended_app; [done|]. by replace (from + Z.of_nat (length es)) with a by lia.
  - by apply ranges_chained.
  - exists []. cbn [length]. split; [lia|constructor].
Qed.

(** ** The stream *)

Definition dump_inv (acc : A) (from : Z) (st : DumpCpuState) : Prop :=
  exists es, from + Z.of_nat (length es) = dump_index st /\ appended acc from es (accumulator st).

Lemma dump_line_inv acc from st line to st' o :
  dump_inv acc from st -> dump_line st line to = Ok (st', o) -> dump_inv acc from st'.
Proof.
  intros (es & Hl & Hap) H. unfold dump_line in H. inv_ok. destruct (to <=? dump_index st); [destruct (_ && _)%bool|].
  - injection H as <- _. by exists es.
  - done.
  - inv_ok. injection H as <- _. exists (es ++ [a1]). rewrite length_app. cbn [length accumulator dump_index].
    unfold checked_add in Ha3. destruct (_ <? _) in Ha3; [|done]. injection Ha3 as <-. split; [lia|].
    eapply appended_app; [done|]. econstructor; [|constructor]. by rewrite Hl.
Qed.

Lemma dump_line_outcome st line to st' o : dump_line st line to = Ok (st', Some o) -> o = UseRangePages.
Proof.
  intros H. unfold dump_line in H. inv_ok. destruct (to <=? dump_index st); [destruct (_ && _)%bool|]; [by injection H as _ <-|done|].
  inv_ok. done.
Qed.

Lemma dump_pieces_inv acc from to pieces : forall st st' o,
  dump_inv acc from st -> dump_pieces st pieces to = Ok (st', o) ->
  dump_inv acc from st' /\ (o = None \/ o = Some UseRangePages).
Proof.
  induction pieces as [|line [|p pieces] IH]; intros st st' o Hi H.
  - cbn in H. by injection H as <- <-; auto.
  - cbn [dump_pieces] in H. case_bool_decide; [injection H as <- <-; auto|]. inv_ok. injection H as <- <-. auto.
  - cbn [dump_pieces] in H. apply bind_Ok in H as ([st1 o1] & Hl & H).
    pose proof (dump_line_inv _ _ _ _ _ _ _ Hi Hl) as Hi1. destruct o1 as [o1|].
    + injection H as <- <-. apply dump_line_outcome in Hl as ->. auto.
    + by apply (IH st1).
Qed.

Lemma dump_chunks_inv acc from to chunks : forall st transferred acc' o,
  dump_inv acc from st -> dump_chunks st transferred chunks to = Ok (acc', o) ->
  exists es, appended acc from es acc' /\ (o = Complete -> from + Z.of_nat (length es) = to).
Proof.
  induction chunks as [|[chunk|] chunks IH]; intros st tr acc' o Hi H; cbn [dump_chunks] in H.
  - destruct Hi as (es & Hl & Hap). destruct (_ && _)%bool eqn:E.
    + injection H as <- <-. b2p. exists es. split; [done|]. lia.
    + destruct (_ <? _); [|done]. injection H as <- <-. by exists es.
  - destruct (checked_add _ _ _) as [tr'|]; [destruct (_ <=? _)|].
    2,3: destruct Hi as (es & _ & Hap); injection H as <- <-; by exists es.
    apply bind_Ok in H as ([st1 o1] & Hp & H). unfold process_dump_chunk in Hp.
    apply (dump_pieces_inv acc from) in Hp as [Hi1 Ho]; [|done]. destruct o1 as [o1|].
    + destruct Hi1 as (es & _ & Hap). injection H as <- <-. exists es. split; [done|]. destruct Ho as [|[= ->]]; done.
    + by apply (IH st1 tr').
  - destruct Hi as (es & _ & Hap). injection H as <- <-. by exists es.
Qed.

Lemma audit_dump_range_Ok from to acc n acc' o n' :
  audit_dump_range from to acc n = Ok ((acc', o), n') ->
  exists es, appended acc from es acc' /\ (o = Complete -> from + Z.of_nat (length es) = to).
Proof.
  unfold audit_dump_range. destruct (from =? to) eqn:E; b2p.
  { intros [= <- <- <-]. exists []. split; [constructor|]. cbn. lia. }
  destruct (_ || _)%bool; [done|]. destruct (get_dump n from to) as [|code len chunks].
  { intros [= <- <- <-]. exists []. by split; [constructor|]. }
  destruct (dump_declined code). { intros [= <- <- <-]. exists []. by split; [constructor|]. }
  destruct (negb _); [done|]. destruct (match len with Some _ => _ | None => _ end).
  { intros [= <- <- <-]. exists []. by split; [constructor|]. }
  intros H. apply bind_Ok in H as ([a o1] & Hd & H). injection H as <- <- <-.
  eapply dump_chunks_inv; [|done]. exists []. split; [cbn; lia|constructor].
Qed.
End Delivered.

(** * The log behind an audit *)

Section History.
Context {C : Crypto} {UP : UrlParser}.

(** [log] is the log of the entries [es]: each is where its number says, and valid. *)
Definition logged (es : list LogEntry) (log : MerkleLog) : Prop :=
  (forall i e, es !! i = Some e -> seq e = Z.of_nat i) /\
  exists bs, Forall2 (fun e b => leaf_bytes e = Ok b) es bs /\ leaves log = map leaf_hash bs.

(** The bindings the entries [es] establish, every transition of a handle being legal. *)
Inductive history : list LogEntry -> gmap str AuditedHandleBinding -> Prop :=
| history_nil : history [] ∅
| history_skip es b e : history es b -> mutation_of e (Z.of_nat (length es)) = Ok None -> history (es ++ [e]) b
| history_apply es b e m :
    history es b -> mutation_of e (Z.of_nat (length es)) = Ok (Some m) ->
    validate_handle_transition (b !! m_handle m) m = Ok tt ->
    history (es ++ [e]) (<[m_handle m := binding_of m]> b).

(** The keys the entries [es] establish. *)
Inductive key_history : list LogEntry -> gmap ComplianceKeyId AuditedComplianceKey -> Prop :=
| key_history_nil : key_history [] ∅
| key_history_skip es ks e : key_history es ks -> compliance_publication e = None -> key_history (es ++ [e]) ks
| key_history_publish es ks e p k :
    key_history es ks -> compliance_publication e = Some p -> audited_compliance_key p (Z.of_nat (length es)) = Ok k ->
    validate_compliance_transition (ks !! key_id p) k = Ok tt -> key_history (es ++ [e]) (<[key_id p := k]> ks).

Lemma logged_length es log : logged es log -> log_size log = length es.
Proof.
  intros (_ & bs & HF & Hl). unfold log_size. rewrite Hl, length_map. symmetry. by eapply Forall2_length.
Qed.

Lemma logged_nil : logged [] log_new.
Proof. split; [done|]. by exists []. Qed.

Lemma append_leaf_Ok f log leaf index f' :
  rep f log -> append_leaf f leaf index = Ok f' ->
  index = Z.of_nat (log_size log) /\ rep f' (snd (log_append log leaf)).
Proof.
  intros Hr H. unfold append_leaf in H. pose proof (rep_size f log Hr) as Es.
  destruct (size f =? u64_MAX)%N eqn:Em.
  - unfold frontier_append, append_hash in H. rewrite Em, orb_true_r in H. by inv_ok.
  - apply N.eqb_neq in Em. destruct (rep_append f log leaf Hr Em) as (f1 & E & Hf1). rewrite E in H. inv_ok. subst f'.
    b2p. cbn in Ha. injection Ha as <-. rewrite Es. split; [lia|done].
Qed.

(** What [admit_leaf] establishes: one more entry of the log. *)
Lemma admit_leaf_Ok f es log e index f' :
  rep f log -> logged es log -> admit_leaf f e index = Ok f' ->
  index = Z.of_nat (length es) /\ exists log', rep f' log' /\ logged (es ++ [e]) log'.
Proof.
  intros Hr Hl H. unfold admit_leaf in H. inv_ok. apply map_err_Ok in Ha0. b2p.
  apply (append_leaf_Ok f log) in H as [Hi Hr']; [|done]. rewrite (logged_length es log Hl) in Hi. split; [done|].
  eexists. split; [done|]. destruct Hl as (Hseq & bs & HF & HL). split.
  - intros i x Hx. apply lookup_app_Some in Hx as [Hx|[Hge Hx]]; [by apply Hseq|].
    apply list_lookup_singleton_Some in Hx as [Hz <-]. lia.
  - exists (bs ++ [a0]). split; [by apply Forall2_app; [|constructor]|]. cbn [log_append snd leaves]. by rewrite HL, map_app.
Qed.
End History.

(** ** Handles *)

Section HandleInv.
Context {C : Crypto} {UP : UrlParser} {P : Type} {ST : HandleProjectionStore P} {SL : HandleProjectionLaws P}.

(** The accumulator has absorbed exactly the entries [es]. *)
Record absorbed (path : str) (acc : HandleAuditAccumulator P) (es : list LogEntry) : Prop := {
  ab_path : requested_path acc = path;
  ab_log : exists log, rep (ha_frontier acc) log /\ logged es log;
  ab_history : history es (bindings (projection acc));
  ab_target : target_binding acc = bindings (projection acc) !! path;
}.

Lemma absorb_entry path acc es e index acc' :
  absorbed path acc es -> acc_append acc e index = Ok acc' ->
  index = Z.of_nat (length es) /\ absorbed path acc' (es ++ [e]) /\
  segment_start (projection acc') = segment_start (projection acc).
Proof.
  intros [Hp (log & Hr & Hl) Hh Ht] H. unfold acc_append, HandleAuditAccumulator_append, append_handle_audited_entry in H.
  apply bind_Ok in H as (f & Hf & H). apply (admit_leaf_Ok _ es log) in Hf as [-> Hlog]; [|done..]. split; [done|].
  apply bind_Ok in H as ([m|] & Hm & H).
  - apply bind_Ok in H as (t & Htg & H). apply bind_Ok in H as (p & (Hv & Hb & Hs)%apply_law & H). injection H as <-.
    split; [|done]. split; [done|done| |]; cbn [projection target_binding].
    + rewrite Hb. by econstructor.
    + rewrite Hb. destruct (decide (m_handle m = path)) as [Heq|Hne].
      * rewrite bool_decide_true in Htg by congruence. inv_ok. rewrite Heq, lookup_insert_eq. congruence.
      * rewrite bool_decide_false in Htg by congruence. injection Htg as <-. by rewrite lookup_insert_ne.
  - injection H as <-. split; [|done]. split; [done|done| |done]. by apply history_skip.
Qed.

Lemma absorb_entries path acc i es acc' : forall es0,
  appended acc i es acc' -> absorbed path acc es0 -> i = Z.of_nat (length es0) ->
  absorbed path acc' (es0 ++ es) /\ segment_start (projection acc') = segment_start (projection acc).
Proof.
  intros es0 H. revert es0. induction H as [acc i|acc i e es acc1 acc2 He _ IH]; intros es0 Hab Hi.
  - by rewrite app_nil_r.
  - destruct (absorb_entry _ _ _ _ _ _ Hab He) as (_ & Hab1 & Hs1).
    destruct (IH (es0 ++ [e]) Hab1) as [Hab2 Hs2]; [rewrite length_app; cbn; lia|].
    rewrite <-(assoc_L (++)) in Hab2. cbn in Hab2. split; [done|congruence].
Qed.
End HandleInv.

(** ** Compliance keys *)

Section KeyInv.
Context {C : Crypto} {UP : UrlParser}.

Record keys_absorbed (acc : ComplianceAuditAccumulator) (es : list LogEntry) : Prop := {
  ka_log : exists log, rep (ca_frontier acc) log /\ logged es log;
  ka_history : key_history es (ca_keys acc);
}.

Lemma keys_absorb_entry acc es e index acc' :
  keys_absorbed acc es -> acc_append acc e index = Ok acc' ->
  index = Z.of_nat (length es) /\ keys_absorbed acc' (es ++ [e]).
Proof.
  intros [(log & Hr & Hl) Hk] H. unfold acc_append, ComplianceAuditAccumulator_append, append_audited_entry in H.
  apply bind_Ok in H as (f & Hf & H). apply (admit_leaf_Ok _ es log) in Hf as [-> Hlog]; [|done..]. split; [done|].
  destruct (compliance_publication e) as [p|] eqn:Ep.
  - apply bind_Ok in H as (k & Hka & H). apply bind_Ok in H as ([] & Hv & H). apply bind_Ok in H as (u & _ & H).
    injection H as <-. split; [done|]. cbn. by eapply key_history_publish.
  - injection H as <-. split; [done|]. by apply key_history_skip.
Qed.

Lemma keys_absorb_entries acc i es acc' : forall es0,
  appended acc i es acc' -> keys_absorbed acc es0 -> i = Z.of_nat (length es0) -> keys_absorbed acc' (es0 ++ es).
Proof.
  intros es0 H. revert es0. induction H as [acc i|acc i e es acc1 acc2 He _ IH]; intros es0 Hab Hi.
  - by rewrite app_nil_r.
  - destruct (keys_absorb_entry _ _ _ _ _ Hab He) as (_ & Hab1).
    specialize (IH (es0 ++ [e]) Hab1). rewrite length_app, <-(assoc_L (++)) in IH. apply IH. cbn. lia.
Qed.
End KeyInv.
