(* ===== verification/AuditFlow.v ===== *)
(** The registry client's audited reads: [pigeonpost-registry/src/client.rs], from the trust policy to the two
    operations that return keys.  [resolve_audited] resolves a handle, [compliance_keys_audited] lists compliance
    keys; both rebuild the witnessed log from what the server delivers before they believe it.

    The admission permit and the deadlines around the two operations, which only turn them into errors, are left
    out. *)
From stdpp Require Import sorting.
From S2P Require Import Prelude Crypto Merkle MerkleWalk MerkleProofs MerkleFrontier.
From S2P Require Import Text B32 Network Origin Token Compliance Handle Entry Checkpoint AuditReplay.

Definition MAX_URL_BYTES : nat := 2048.

Record CheckpointPin := { pin_size : Z; pin_root : arr 32 }.
Definition pin_of (c : Checkpoint) : CheckpointPin := {| pin_size := cp_size c; pin_root := cp_root c |}.

Record RegistryTrust := {
  expected_origin : str;
  checkpoint_key : VerifyingKey;
  witnesses : list WitnessKey;
  witness_threshold : nat;
  minimum_checkpoint : CheckpointPin;
  max_cosignature_age_secs : Z;
  future_clock_skew_secs : Z;
}.

Record HandleAuditState := {
  hs_origin : str;
  hs_size : Z;
  hs_root : arr 32;
  hs_checkpoint_note : str;
  hs_witnessed_at : Z;
  hs_frontier : MerkleFrontier;
}.
Definition hs_checkpoint (s : HandleAuditState) : Checkpoint :=
  {| cp_origin := hs_origin s; cp_size := hs_size s; cp_root := hs_root s |}.

Record VerifiedHandle := {
  vh_handle : Handle;
  vh_pubkey : arr 32;
  vh_subject : str;
  vh_log_index : Z;
  vh_entry_kind : EntryKind;
  vh_checkpoint : Checkpoint;
  vh_witnessed_at : option Z;
}.

Record ComplianceAuditState := {
  cs_origin : str;
  cs_size : Z;
  cs_root : arr 32;
  cs_checkpoint_note : str;
  cs_witnessed_at : Z;
  cs_frontier : MerkleFrontier;
  cs_keys : list AuditedComplianceKey;
}.
Definition cs_checkpoint (s : ComplianceAuditState) : Checkpoint :=
  {| cp_origin := cs_origin s; cp_size := cs_size s; cp_root := cs_root s |}.

(** [VerifiedComplianceKey] has the fields of [AuditedComplianceKey], copied one by one. *)
Record VerifiedComplianceKeys := {
  vk_keys : list AuditedComplianceKey;
  vk_checkpoint : Checkpoint;
  vk_witnessed_at : option Z;
}.

#[global] Instance AuditedComplianceKey_eq_dec : EqDecision AuditedComplianceKey.
Proof. solve_decision. Defined.

Definition entry_kind_str (k : EntryKind) : str :=
  match k with
  | KindHandleClaim => lit "handle_bind"
  | KindHandleRotation => lit "handle_rotate"
  | KindDirectoryAdd => lit "directory_add"
  | KindDirectoryRemove => lit "directory_remove"
  | KindComplianceKeyPublish => lit "compliance_key_publish"
  end.

Inductive HandlePublication := Pending | Ready | Mismatch.

Definition publication_against (v : VerifiedHandle) (expected_index : Z) (expected_pubkey : arr 32) (expected_entry_kind : str)
  : HandlePublication :=
  if vh_log_index v <? expected_index then Pending
  else if (vh_log_index v =? expected_index) && (vh_pubkey v ≟ expected_pubkey)
          && (entry_kind_str (vh_entry_kind v) ≟ expected_entry_kind) then Ready
  else Mismatch.

(** [sort_by_key(|key| key.log_index)] *)
Definition index_le (a b : AuditedComplianceKey) : Prop := ck_log_index a <= ck_log_index b.
#[global] Instance index_le_dec : RelDecision index_le := fun a b => Z_le_dec (ck_log_index a) (ck_log_index b).
Definition sort_by_index (keys : list AuditedComplianceKey) : list AuditedComplianceKey := merge_sort index_le keys.

Section Flow.
Context {C : Crypto} {UP : UrlParser}.

(** * Trust *)

Definition trust_new (origin : str) (key : arr 32) (ws : list WitnessKey) (threshold : nat) (minimum : CheckpointPin)
  (max_age skew : Z) : R RegistryTrust :=
  _ ← guard ((origin ≟ []) || (MAX_URL_BYTES <? length origin)%nat
             || existsb (fun b => is_ascii_control b || is_ascii_whitespace b) origin
             || negb (witness_quorum_intersects threshold (length ws))
             || (max_age =? 0) || (max_age <? skew)
             || ((pin_size minimum =? 0) && negb (pin_root minimum ≟ empty_root)))
        (InvalidConfiguration "invalid registry trust policy");
  key ← map_err (fun _ => InvalidConfiguration "invalid registry checkpoint key") (verifying_key_from_bytes key);
  _ ← guard (duplicate_witness [] ws) (InvalidConfiguration "duplicate registry witness");
  Ok {| expected_origin := origin; checkpoint_key := key; witnesses := ws; witness_threshold := threshold;
        minimum_checkpoint := minimum; max_cosignature_age_secs := max_age; future_clock_skew_secs := skew |}.

Definition verify_checkpoint_with_trust (trust : RegistryTrust) (text : str) (size : Z) (root : arr 32) (now_secs : Z)
  : R VerifiedCheckpoint :=
  verified ←
    (if (witness_threshold trust =? 0)%nat then
       checkpoint ← verify_with_witnesses text (checkpoint_key trust) (witnesses trust) 0;
       Ok {| vc_checkpoint := checkpoint; witnessed_at := None |}
     else
       verify_with_fresh_witnesses text (checkpoint_key trust) (witnesses trust) (witness_threshold trust) now_secs
         (max_cosignature_age_secs trust) (future_clock_skew_secs trust));
  _ ← guard (negb (cp_origin (vc_checkpoint verified) ≟ expected_origin trust)
             || negb (cp_size (vc_checkpoint verified) =? size) || negb (cp_root (vc_checkpoint verified) ≟ root))
        (MalformedCheckpoint "checkpoint does not match the trusted origin or proof root");
  Ok verified.

Definition base_step (trust : RegistryTrust) (base : CheckpointPin) (checkpoint : Checkpoint) : R CheckpointPin :=
  let minimum := minimum_checkpoint trust in
  _ ← guard (negb (cp_origin checkpoint ≟ expected_origin trust)
             || (cp_size checkpoint <? pin_size minimum)
             || ((cp_size checkpoint =? pin_size minimum) && negb (cp_root checkpoint ≟ pin_root minimum)))
        (MalformedCheckpoint "accepted registry checkpoint conflicts with configured trust");
  if pin_size base <? cp_size checkpoint then Ok (pin_of checkpoint)
  else if (cp_size checkpoint =? pin_size base) && negb (cp_root checkpoint ≟ pin_root base) then
    Err (MalformedCheckpoint "accepted registry checkpoints equivocate")
  else Ok base.

(** The loop over [previous.iter().chain(accepted.iter())]. *)
Definition select_audit_base (trust : RegistryTrust) (previous accepted : option Checkpoint) : R CheckpointPin :=
  base ← match previous with Some c => base_step trust (minimum_checkpoint trust) c | None => Ok (minimum_checkpoint trust) end;
  match accepted with Some c => base_step trust base c | None => Ok base end.

Definition validate_handle_audit_state (state : HandleAuditState) (origin : str) : R unit :=
  guard (negb (hs_origin state ≟ origin)
         || (hs_checkpoint_note state ≟ [])
         || (MAX_CHECKPOINT_NOTE_BYTES <? Z.of_nat (length (hs_checkpoint_note state)))
         || (hs_witnessed_at state =? 0)
         || negb (Z.of_N (size (hs_frontier state)) =? hs_size state)
         || negb (validate (hs_frontier state))
         || negb (frontier_root (hs_frontier state) ≟ Some (hs_root state)))
    (MalformedCheckpoint "persisted handle audit state is malformed").

Fixpoint keys_wellformed (size : Z) (keys : list AuditedComplianceKey) : R unit :=
  match keys with
  | [] => Ok tt
  | key :: keys =>
      _ ← guard (size <=? ck_log_index key) (MalformedEntry "persisted audited compliance key is malformed");
      again ← audited_compliance_key (ck_publication key) (ck_log_index key);
      _ ← guard (negb (again ≟ key)) (MalformedEntry "persisted audited compliance key is malformed");
      keys_wellformed size keys
  end.

Definition validate_audit_state (state : ComplianceAuditState) (origin : str) : R unit :=
  _ ← guard (negb (cs_origin state ≟ origin)
         || (cs_checkpoint_note state ≟ [])
         || (MAX_CHECKPOINT_NOTE_BYTES <? Z.of_nat (length (cs_checkpoint_note state)))
         || (cs_witnessed_at state =? 0)
         || negb (Z.of_N (size (cs_frontier state)) =? cs_size state)
         || negb (validate (cs_frontier state))
         || negb (frontier_root (cs_frontier state) ≟ Some (cs_root state))
         || (MAX_COMPLIANCE_KEYS <? length (cs_keys state))%nat)
    (MalformedCheckpoint "persisted compliance audit state is malformed");
  keys_wellformed (cs_size state) (cs_keys state).

(** [ComplianceAuditState::verify_witnesses] *)
Definition audit_verify_witnesses (state : ComplianceAuditState) (trust : RegistryTrust) (now_secs : Z) : R VerifiedCheckpoint :=
  _ ← validate_audit_state state (expected_origin trust);
  _ ← guard (witness_threshold trust =? 0)%nat (InvalidConfiguration "compliance audit requires a nonzero witness quorum");
  _ ← guard ((cs_size state <? pin_size (minimum_checkpoint trust))
             || ((cs_size state =? pin_size (minimum_checkpoint trust))
                 && negb (cs_root state ≟ pin_root (minimum_checkpoint trust))))
        (MalformedCheckpoint "persisted compliance audit is below the configured checkpoint pin");
  verified ← verify_with_fresh_witnesses (cs_checkpoint_note state) (checkpoint_key trust) (witnesses trust)
               (witness_threshold trust) now_secs (max_cosignature_age_secs trust) (future_clock_skew_secs trust);
  _ ← guard (negb (vc_checkpoint verified ≟ cs_checkpoint state) || negb (witnessed_at verified ≟ Some (cs_witnessed_at state)))
        (MalformedCheckpoint "persisted compliance audit checkpoint proof does not match its state");
  Ok verified.

Definition validate_audited_handle_binding (handle : Handle) (binding : AuditedHandleBinding) : R unit :=
  _ ← map_err (fun _ => MalformedEntry "persisted handle key is invalid") (verifying_key_from_bytes (hb_pubkey binding));
  _ ← map_err InvalidEntry (leaf_bytes (entry_handle_claim (hb_log_index binding) (as_path handle)
                              (hex_of (vec_to_list (hb_pubkey binding))) (hb_subject binding) 1));
  Ok tt.

Definition binding_new (handle : Handle) (pubkey : arr 32) (subject : str) (log_index : Z) : R AuditedHandleBinding :=
  let binding := {| hb_pubkey := pubkey; hb_subject := subject; hb_log_index := log_index |} in
  _ ← validate_audited_handle_binding handle binding;
  Ok binding.

(** The answer set of the resolver; [None] stands for the [io::Error]. *)
Definition MAX_RESOLVED_ADDRESSES : nat := 16.
Definition validate_resolved_addresses (addresses : list IpAddr) : option (list IpAddr) :=
  if (length addresses =? 0)%nat || (MAX_RESOLVED_ADDRESSES <? length addresses)%nat then None
  else if existsb (fun a => negb (is_public_network_address a)) addresses then None
  else Some addresses.

Context {SV : Server}.

(** * Growth *)

Definition verify_growth (base : CheckpointPin) (next : Checkpoint) : Net unit := fun n =>
  if (cp_size next <? pin_size base) || ((cp_size next =? pin_size base) && negb (cp_root next ≟ pin_root base)) then
    Err (MalformedCheckpoint "registry checkpoint rolled back or equivocated")
  else if cp_size next =? pin_size base then Ok (tt, n)
  else if pin_size base =? 0 then
    if negb (pin_root base ≟ empty_root) then Err (MalformedCheckpoint "invalid empty-tree trust anchor") else Ok (tt, n)
  else
    proof ← get_consistency n (pin_size base) (cp_size next);
    proof_root ← ok_or (parse_hex32 (cr_root proof)) (MalformedCheckpoint "consistency root is not canonical hex");
    path ← parse_hashes (cr_path proof);
    _ ← guard (negb (cr_from proof =? pin_size base) || negb (cr_to proof =? cp_size next)
               || negb (proof_root ≟ cp_root next)
               || negb (verify_consistency (Z.to_nat (pin_size base)) (pin_root base) (Z.to_nat (cp_size next)) (cp_root next) path))
          (MalformedCheckpoint "registry consistency proof failed");
    Ok (tt, S n).

(** * Handles *)

Section Handles.
Context {P : Type} {ST : HandleProjectionStore P}.

(** The resolve response against the request, and its checkpoint against the policy. *)
Definition check_resolved (trust : RegistryTrust) (handle : Handle) (resolved : ResolveResponse) (now_secs : Z)
  : R (VerifiedCheckpoint * list (arr 32)) :=
  let proof := rr_inclusion_proof resolved in
  _ ← guard (negb (rr_handle resolved ≟ as_path handle) || (ip_tree_size proof <=? rr_log_index resolved))
        (MalformedEntry "resolve response does not name the requested leaf");
  root ← ok_or (parse_hex32 (ip_root proof)) (MalformedCheckpoint "checkpoint root is not canonical hex");
  inclusion_path ← parse_hashes (ip_path proof);
  verified ← verify_checkpoint_with_trust trust (ip_checkpoint proof) (ip_tree_size proof) root now_secs;
  Ok (verified, inclusion_path).

(** The exact leaf the response names, against its inclusion proof. *)
Definition check_leaf (handle : Handle) (resolved : ResolveResponse) (checkpoint : Checkpoint) (inclusion_path : list (arr 32))
  (next : Z) (page : EntriesResponse) : R (arr 32 * str * EntryKind) :=
  _ ← guard (negb (er_from page =? rr_log_index resolved) || negb (er_to page =? next)
             || negb (er_tree_size page =? cp_size checkpoint)
             || negb (parse_hex32 (er_root page) ≟ Some (cp_root checkpoint))
             || negb (er_checkpoint page ≟ ip_checkpoint (rr_inclusion_proof resolved))
             || negb (length (er_entries page) =? 1)%nat)
        (MalformedEntry "exact log range disagrees with the resolved checkpoint");
  entry ← ok_or (head (er_entries page)) (MalformedEntry "missing exact log leaf");
  '(entry_handle, entry_pubkey, entry_subject) ← ok_or (handle_binding entry) (MalformedEntry "resolved leaf is not a handle binding");
  _ ← guard (negb (seq entry =? rr_log_index resolved) || negb (entry_handle ≟ as_path handle)
             || negb (entry_pubkey ≟ rr_pubkey resolved))
        (MalformedEntry "resolved projection disagrees with its exact log leaf");
  leaf ← map_err InvalidEntry (leaf_bytes entry);
  _ ← guard (negb (verify_inclusion (leaf_hash leaf) (Z.to_nat (rr_log_index resolved)) (Z.to_nat (cp_size checkpoint))
                     inclusion_path (cp_root checkpoint)))
        (MalformedEntry "handle inclusion proof failed");
  pubkey ← ok_or (parse_hex32 (rr_pubkey resolved)) (MalformedEntry "handle key is not canonical hex");
  _ ← map_err (fun _ => MalformedEntry "handle key is invalid") (verifying_key_from_bytes pubkey);
  Ok (pubkey, entry_subject, kind entry).

Definition handle_start (handle : Handle) (previous : option HandleAuditState) (checkpoint : Checkpoint) (projection : P)
  : R (HandleAuditAccumulator P * Z) :=
  match previous with
  | Some state =>
      _ ← guard ((cp_size checkpoint <? hs_size state)
                 || ((hs_size state =? cp_size checkpoint) && negb (hs_root state ≟ cp_root checkpoint)))
            (MalformedCheckpoint "audited handle state does not extend to this checkpoint");
      '(projection, target) ← store_binding projection handle;
      Ok (MkHandleAccumulator (hs_frontier state) projection (as_path handle) target, hs_size state)
  | None =>
      projection ← store_reset projection;
      Ok (MkHandleAccumulator frontier_new projection (as_path handle) None, 0)
  end.

Definition handle_segment (acc : HandleAuditAccumulator P) (range : Z * Z) : Net (HandleAuditAccumulator P) :=
  let '(from, to) := range in
  let frontier_before := ha_frontier acc in
  let target_before := target_binding acc in
  started ← pure_ (begin_segment acc);
  '(acc, delivered) ← audit_dump_range from to started;
  match delivered with
  | Complete => pure_ (commit_segment acc)
  | UseRangePages =>
      acc ← pure_ (acc ← rollback_segment acc frontier_before target_before; begin_segment acc);
      acc ← audit_json_pages from to acc;
      pure_ (commit_segment acc)
  end.

Definition handle_finish (handle : Handle) (resolved : ResolveResponse) (pubkey : arr 32) (entry_subject : str)
  (entry_kind : EntryKind) (verified : VerifiedCheckpoint) (acc : HandleAuditAccumulator P)
  : R (VerifiedHandle * HandleAuditState * P) :=
  let checkpoint := vc_checkpoint verified in
  _ ← guard (negb (Z.of_N (size (ha_frontier acc)) =? cp_size checkpoint)
             || negb (frontier_root (ha_frontier acc) ≟ Some (cp_root checkpoint)))
        (MalformedCheckpoint "complete registry audit does not reconstruct the witnessed root");
  binding ← ok_or (target_binding acc) NotFound;
  '(projection, projected) ← store_binding (projection acc) handle;
  _ ← guard (negb (projected ≟ Some binding))
        (MalformedEntry "normalized handle projection disagrees with audited target state");
  _ ← guard (negb (hb_log_index binding =? rr_log_index resolved) || negb (hb_pubkey binding ≟ pubkey)
             || negb (hb_subject binding ≟ entry_subject))
        (MalformedEntry "resolved projection is not the latest audited handle binding");
  witnessed_at ← ok_or (witnessed_at verified) (MalformedCheckpoint "handle audit is missing its witnessed timestamp");
  Ok ({| vh_handle := handle; vh_pubkey := pubkey; vh_subject := entry_subject; vh_log_index := rr_log_index resolved;
         vh_entry_kind := entry_kind; vh_checkpoint := checkpoint; vh_witnessed_at := Some witnessed_at |},
      {| hs_origin := cp_origin checkpoint; hs_size := cp_size checkpoint; hs_root := cp_root checkpoint;
         hs_checkpoint_note := ip_checkpoint (rr_inclusion_proof resolved); hs_witnessed_at := witnessed_at;
         hs_frontier := ha_frontier acc |},
      projection).

Definition resolve_audited (trust : RegistryTrust) (handle : Handle) (previous : option HandleAuditState)
  (accepted_checkpoint : option Checkpoint) (now_secs : Z) (projection : P) : Net (VerifiedHandle * HandleAuditState * P) :=
  base ← pure_ (
    _ ← guard (witness_threshold trust =? 0)%nat (InvalidConfiguration "handle resolution requires a nonzero witness quorum");
    _ ← match previous with Some state => validate_handle_audit_state state (expected_origin trust) | None => Ok tt end;
    select_audit_base trust (option_map hs_checkpoint previous) accepted_checkpoint);
  resolved ← request (fun n => get_resolve n handle);
  '(verified, inclusion_path) ← pure_ (check_resolved trust handle resolved now_secs);
  _ ← verify_growth base (vc_checkpoint verified);
  next ← pure_ (ok_or (checked_add 64 (rr_log_index resolved) 1) (MalformedEntry "log index overflowed"));
  page ← request (fun n => get_entries n (rr_log_index resolved) next);
  '(pubkey, entry_subject, entry_kind) ← pure_ (check_leaf handle resolved (vc_checkpoint verified) inclusion_path next page);
  '(acc, start) ← pure_ (handle_start handle previous (vc_checkpoint verified) projection);
  acc ← foldM handle_segment acc (ranges AUDIT_DUMP_SEGMENT_ENTRIES start (cp_size (vc_checkpoint verified)));
  pure_ (handle_finish handle resolved pubkey entry_subject entry_kind verified acc).
End Handles.

(** [RegistryClient::resolve]: from leaf zero, with a projection that is dropped. *)
Definition resolve (trust : RegistryTrust) (handle : Handle) (previous : option Checkpoint) (now_secs : Z) : Net VerifiedHandle :=
  '(verified, _, _) ← resolve_audited trust handle None previous now_secs {| im_bindings := ∅; segment_undo := None |};
  mret verified.

(** * Compliance keys *)

(** The loop that rebuilds the map from a persisted list. *)
Fixpoint index_keys (keys : list AuditedComplianceKey) (m : gmap ComplianceKeyId AuditedComplianceKey)
  : R (gmap ComplianceKeyId AuditedComplianceKey) :=
  match keys with
  | [] => Ok m
  | key :: keys =>
      let id := key_id (ck_publication key) in
      _ ← guard (is_some (m !! id)) (MalformedEntry "audited compliance state contains duplicate key ids");
      index_keys keys (<[id := key]> m)
  end.

Definition compliance_start (previous : option ComplianceAuditState) (checkpoint : Checkpoint) : R (ComplianceAuditAccumulator * Z) :=
  match previous with
  | Some state =>
      _ ← guard ((cp_size checkpoint <? cs_size state)
                 || ((cs_size state =? cp_size checkpoint) && negb (cs_root state ≟ cp_root checkpoint)))
            (MalformedCheckpoint "audited registry state does not extend to this checkpoint");
      keys ← index_keys (cs_keys state) ∅;
      Ok (MkComplianceAccumulator (cs_frontier state) keys, cs_size state)
  | None => Ok (MkComplianceAccumulator frontier_new ∅, 0)
  end.

Definition compliance_segment (acc : ComplianceAuditAccumulator) (range : Z * Z) : Net ComplianceAuditAccumulator :=
  let '(from, to) := range in
  let before := MkComplianceAccumulator (ca_frontier acc) (ca_keys acc) in
  '(acc, outcome) ← audit_dump_range from to acc;
  match outcome with
  | Complete => mret acc
  | UseRangePages => audit_json_pages from to before
  end.

Definition compliance_finish (metadata : ComplianceKeysResponse) (verified : VerifiedCheckpoint) (acc : ComplianceAuditAccumulator)
  : R (VerifiedComplianceKeys * ComplianceAuditState) :=
  let checkpoint := vc_checkpoint verified in
  _ ← guard (negb (Z.of_N (size (ca_frontier acc)) =? cp_size checkpoint)
             || negb (frontier_root (ca_frontier acc) ≟ Some (cp_root checkpoint)))
        (MalformedCheckpoint "complete registry audit does not reconstruct the witnessed root");
  let audited_keys := sort_by_index (map snd (map_to_list (ca_keys acc))) in
  _ ← guard (MAX_COMPLIANCE_KEYS <? length audited_keys)%nat
        (MalformedEntry "audited compliance-key state exceeds the configured bound");
  at_ ← ok_or (witnessed_at verified) (MalformedCheckpoint "compliance audit is missing its witnessed timestamp");
  Ok ({| vk_keys := audited_keys; vk_checkpoint := checkpoint; vk_witnessed_at := witnessed_at verified |},
      {| cs_origin := cp_origin checkpoint; cs_size := cp_size checkpoint; cs_root := cp_root checkpoint;
         cs_checkpoint_note := kr_checkpoint metadata; cs_witnessed_at := at_; cs_frontier := ca_frontier acc;
         cs_keys := audited_keys |}).

Definition compliance_keys_audited (trust : RegistryTrust) (previous : option ComplianceAuditState)
  (accepted_checkpoint : option Checkpoint) (now_secs : Z) : Net (VerifiedComplianceKeys * ComplianceAuditState) :=
  base ← pure_ (
    _ ← guard (witness_threshold trust =? 0)%nat (InvalidConfiguration "compliance keys require a nonzero witness quorum");
    _ ← match previous with Some state => validate_audit_state state (expected_origin trust) | None => Ok tt end;
    select_audit_base trust (option_map cs_checkpoint previous) accepted_checkpoint);
  metadata ← request get_compliance_keys;
  verified ← pure_ (
    _ ← guard (MAX_COMPLIANCE_KEYS <? kr_keys metadata)%nat (MalformedEntry "compliance-key metadata response exceeds its bound");
    root ← ok_or (parse_hex32 (kr_root metadata)) (MalformedCheckpoint "checkpoint root is not canonical hex");
    verify_checkpoint_with_trust trust (kr_checkpoint metadata) (kr_tree_size metadata) root now_secs);
  _ ← verify_growth base (vc_checkpoint verified);
  '(acc, start) ← pure_ (compliance_start previous (vc_checkpoint verified));
  acc ← foldM compliance_segment acc (ranges AUDIT_DUMP_SEGMENT_ENTRIES start (cp_size (vc_checkpoint verified)));
  pure_ (compliance_finish metadata verified acc).
End Flow.

(** * Lemmas *)

(** ** Hexadecimal *)

Lemma parse_hex32_iff s v : parse_hex32 s = Some v <-> s = hex_of (vec_to_list v).
Proof.
  unfold parse_hex32. rewrite existsb_negb_forallb. split.
  - destruct (_ || _)%bool; [done|]. intros (bs & _ & H)%bind_Some. apply bind_Some in H as (o & _ & H).
    by case_bool_decide; simplify_eq.
  - intros ->. rewrite length_hex_of, length_vec_to_list, unhex_hex_of. cbn [negb orb Nat.mul Nat.add Nat.eqb mbind option_bind].
    assert (forallb is_ascii_hexdigit (hex_of v) = true) as ->.
    { pose proof (hex_of_lower v) as H. rewrite forallb_forall in *. intros b Hb. apply H in Hb. revert Hb.
      unfold lower_hex, is_ascii_hexdigit. destruct (is_ascii_digit b), ((97 <=? u8 b) && (u8 b <=? 102))%bool; try done.
      intros _. by rewrite orb_true_r. }
    cbn [negb]. rewrite (proj2 (arr_of_list_Some 32 _ v) eq_refl). cbn [mbind option_bind]. by rewrite bool_decide_true.
Qed.

(** ** Growth *)

Section Growth.
Context {C : Crypto}.

Context {SV : Server}.

(** A pin agrees with a log: it is the root of the log's first leaves, or the proof with which the server answered
    request [k] exhibits a collision. *)
Definition pinned (log : MerkleLog) (pin : CheckpointPin) (k : nat) : Prop :=
  (Z.to_nat (pin_size pin) <= log_size log)%nat /\
  (root_of log (Z.to_nat (pin_size pin)) = pin_root pin \/
   exists answer proof,
     get_consistency k (pin_size pin) (Z.of_nat (log_size log)) = Ok answer /\ parse_hashes (cr_path answer) = Ok proof /\
     collision_in (tree_inputs (leaves log) ++
       consistency_inputs (pin_root pin) (Z.to_nat (pin_size pin)) (log_size log) proof)).

Lemma verify_growth_Ok base next n r log :
  0 <= pin_size base -> verify_growth base next n = Ok r ->
  log_root log = cp_root next -> Z.of_nat (log_size log) = cp_size next -> pinned log base n.
Proof.
  intros Hb H Hroot Hsize. unfold verify_growth in H. destruct (_ || _)%bool eqn:E1; [done|]. apply orb_false_iff in E1 as [E1 E2].
  b2p. split; [lia|]. destruct (cp_size next =? pin_size base) eqn:E3; b2p.
  { left. assert (Z.to_nat (pin_size base) = log_size log) as -> by lia. cbn [andb] in E2. b2p.
    unfold log_root in Hroot. unfold log_size. congruence. }
  destruct (pin_size base =? 0) eqn:E4; b2p.
  { left. rewrite E4. unfold root_of. cbn. destruct (negb _) eqn:E5 in H; [done|]. by b2p. }
  apply bind_Ok in H as (proof & Hp & H). apply bind_Ok in H as (pr & _ & H). apply bind_Ok in H as (path & Hh & H).
  apply bind_Ok in H as (u & Hg%guard_Ok & _). b2p. rewrite <-Hsize in Hp.
  replace (Z.to_nat (cp_size next)) with (log_size log) in * by lia. rewrite <-Hroot in *.
  match goal with Hv : verify_consistency _ _ _ _ _ = true |- _ => apply consistency_extends in Hv as [?|?]; [by left|right; eauto|lia] end.
Qed.

(** The base is no older than any checkpoint it was chosen from, and agrees with those of its size. *)
Definition covers (base : CheckpointPin) (c : Checkpoint) : Prop :=
  cp_size c <= pin_size base /\ (cp_size c = pin_size base -> cp_root c = pin_root base).

Lemma base_step_Ok trust base c base' :
  base_step trust base c = Ok base' -> covers base' c /\ pin_size base <= pin_size base' /\
  (pin_size base' = pin_size base -> base' = base).
Proof.
  unfold base_step, covers. intros H. inv_ok. destruct (pin_size base <? cp_size c) eqn:E; b2p.
  - injection H as <-. cbn. split_and!; [lia|done|lia|lia].
  - destruct ((cp_size c =? pin_size base) && negb _)%bool eqn:E2; [done|]. injection H as <-. split_and!; [lia| |lia|done].
    intros Heq. rewrite Heq, Z.eqb_refl in E2. cbn [andb] in E2. by b2p.
Qed.

Lemma select_audit_base_Ok trust previous accepted base :
  select_audit_base trust previous accepted = Ok base ->
  pin_size (minimum_checkpoint trust) <= pin_size base /\
  (pin_size base = pin_size (minimum_checkpoint trust) -> base = minimum_checkpoint trust) /\
  (forall c, previous = Some c \/ accepted = Some c -> covers base c).
Proof.
  unfold select_audit_base. intros H. apply bind_Ok in H as (b1 & H1 & H2).
  assert (pin_size (minimum_checkpoint trust) <= pin_size b1 /\
    (pin_size b1 = pin_size (minimum_checkpoint trust) -> b1 = minimum_checkpoint trust) /\
    (forall c, previous = Some c -> covers b1 c)) as (Hle1 & Heq1 & Hc1).
  { destruct previous as [c|]; [|injection H1 as <-; split_and!; [lia|done|done]].
    apply base_step_Ok in H1 as (? & ? & ?). split_and!; [done|done|]. by intros ? [= <-]. }
  destruct accepted as [c|]; [|injection H2 as <-; split_and!; [done|done|intros ? [?|?]; auto; done]].
  apply base_step_Ok in H2 as (Hc & Hle2 & Heq2). split_and!; [lia|intros E; rewrite Heq2 by lia; apply Heq1; rewrite <-Heq2; lia|].
  intros d [Hd|[= <-]]; [|done]. destruct (Hc1 d Hd) as [Hs Hr]. split; [lia|]. intros E.
  rewrite Heq2 by lia. apply Hr. rewrite <-Heq2 in * by lia. lia.
Qed.
End Growth.

(** ** Segments *)

Section HandleSound.
Context {C : Crypto} {UP : UrlParser} {SV : Server}.
Context {P : Type} {ST : HandleProjectionStore P} {SL : HandleProjectionLaws P}.

Lemma begin_segment_Ok path acc es acc' :
  absorbed path acc es -> begin_segment acc = Ok acc' ->
  absorbed path acc' es /\ segment_start (projection acc') = Some (bindings (projection acc)).
Proof.
  intros [Hp Hl Hh Ht] H. unfold begin_segment in H. inv_ok. subst acc'. apply begin_law in Ha as [Hb Hs].
  split; [|done]. split; cbn; rewrite ?Hb; done.
Qed.

Lemma commit_segment_Ok path acc es acc' : absorbed path acc es -> commit_segment acc = Ok acc' -> absorbed path acc' es.
Proof.
  intros [Hp Hl Hh Ht] H. unfold commit_segment in H. inv_ok. subst acc'. apply commit_law in Ha as [Hb Hs].
  split; cbn; rewrite ?Hb; done.
Qed.

(** Rolling back returns to what had been absorbed when the segment began, whatever was delivered since. *)
Lemma rollback_segment_Ok path acc0 es0 acc acc' :
  absorbed path acc0 es0 -> requested_path acc = path -> segment_start (projection acc) = Some (bindings (projection acc0)) ->
  rollback_segment acc (ha_frontier acc0) (target_binding acc0) = Ok acc' -> absorbed path acc' es0.
Proof.
  intros [Hp Hl Hh Ht] Hr Hs H. unfold rollback_segment in H. inv_ok. subst acc'. apply rollback_law in Ha as [Hb _].
  rewrite Hs in Hb. injection Hb as Hb. split; cbn; rewrite <-?Hb; done.
Qed.

Lemma handle_segment_Ok path acc es0 from to n acc' n' :
  absorbed path acc es0 -> Z.of_nat (length es0) = from -> from < to -> to < 2 ^ 64 ->
  handle_segment acc (from, to) n = Ok (acc', n') ->
  exists es, Z.of_nat (length (es0 ++ es)) = to /\ absorbed path acc' (es0 ++ es).
Proof.
  intros Hab Hfrom Hlt Hto H. unfold handle_segment in H.
  apply net_bind_Ok in H as (started & n1 & H1 & H). apply net_pure_Ok in H1 as [H1 _].
  destruct (begin_segment_Ok _ _ _ _ Hab H1) as [Hst Hseg].
  apply net_bind_Ok in H as ([acc1 o] & n2 & H2 & H). apply audit_dump_range_Ok in H2 as (es & Hap & Hc).
  destruct (absorb_entries path _ _ _ _ es0 Hap Hst ltac:(lia)) as [Hab1 Hseg1]. destruct o.
  - apply net_pure_Ok in H as [H _]. exists es. rewrite length_app. specialize (Hc eq_refl). split; [lia|].
    by apply (commit_segment_Ok path acc1).
  - apply net_bind_Ok in H as (acc2 & n3 & H3 & H). apply net_pure_Ok in H3 as [H3 _]. apply bind_Ok in H3 as (acc3 & Hrb & Hbg).
    assert (absorbed path acc3 es0) as Hab3.
    { eapply (rollback_segment_Ok path acc); [done|apply Hab1| |done]. congruence. }
    destruct (begin_segment_Ok _ _ _ _ Hab3 Hbg) as [Hab2 _].
    apply net_bind_Ok in H as (acc4 & n4 & H4 & H). apply audit_json_pages_Ok in H4 as (es' & Hl & Hap'); [|lia|done].
    destruct (absorb_entries path _ _ _ _ es0 Hap' Hab2 ltac:(lia)) as [Hab4 _].
    apply net_pure_Ok in H as [H _]. exists es'. rewrite length_app. split; [lia|]. by apply (commit_segment_Ok path acc4).
Qed.

(** A state and a projection that an audit of [es] left, or none. *)
Definition resumes (previous : option HandleAuditState) (p : P) (es : list LogEntry) : Prop :=
  match previous with
  | Some state => (exists log, rep (hs_frontier state) log /\ logged es log) /\ history es (bindings p)
  | None => es = []
  end.

Lemma handle_start_Ok handle previous c p acc start es :
  resumes previous p es ->
  match previous with Some state => validate_handle_audit_state state (cp_origin c) = Ok tt | None => True end ->
  handle_start handle previous c p = Ok (acc, start) ->
  absorbed (as_path handle) acc es /\ start = Z.of_nat (length es) /\ (0 <= cp_size c -> start <= cp_size c).
Proof.
  intros Hr Hv H. unfold handle_start in H. destruct previous as [state|].
  - destruct Hr as [(log & Hrep & Hl) Hh]. apply bind_Ok in H as (u & Hg%guard_Ok & H).
    apply bind_Ok in H as ([p' t] & Hb & H). injection H as <- <-. apply binding_law in Hb as (-> & Hb & _).
    unfold validate_handle_audit_state in Hv. apply guard_Ok in Hv. b2p. split; [split; cbn; rewrite ?Hb; eauto|].
    rewrite (rep_size _ _ Hrep), (logged_length es log Hl) in *. split; lia.
  - cbn in Hr. subst es. apply bind_Ok in H as (p' & [Hb _]%reset_law & H). injection H as <- <-. split; [|cbn; lia].
    split; cbn; rewrite ?Hb; [done| |constructor|by rewrite lookup_empty].
    exists log_new. split; [apply rep_new|apply logged_nil].
Qed.

(** What the policy says of an accepted head. *)
Lemma verify_checkpoint_with_trust_Ok trust text sz root now v :
  witness_threshold trust <> 0%nat -> verify_checkpoint_with_trust trust text sz root now = Ok v ->
  cp_origin (vc_checkpoint v) = expected_origin trust /\ cp_size (vc_checkpoint v) = sz /\ cp_root (vc_checkpoint v) = root /\
  in_uint 64 sz /\
  exists body since Q, witnessed_at v = Some since /\ reads body (vc_checkpoint v) /\
    witnessed body (witnesses trust) (witness_threshold trust)
      (Some (now, max_cosignature_age_secs trust, future_clock_skew_secs trust)) since Q.
Proof.
  intros Ht H. unfold verify_checkpoint_with_trust in H. rewrite (proj2 (Nat.eqb_neq _ _) Ht) in H.
  apply bind_Ok in H as (v' & Hv & H). apply bind_Ok in H as (u & Hg%guard_Ok & H). injection H as <-. b2p.
  unfold verify_with_fresh_witnesses in Hv. apply bind_Ok in Hv as (u' & _ & Hv).
  apply verify_witness_policy_Ok in Hv as (Hc & body & sigs & since & Q & Hs & Hsince & HQ); [|done].
  apply checkpoint_verify_Ok in Hc as (_ & b & x & Eb & Hr & _). rewrite Hs in Eb. injection Eb as <- <-.
  split_and!; [done..| |by exists body, since, Q].
  destruct Hr as (s & _ & Hp%parse_uint_range). congruence.
Qed.

(** ** The meaning of a history *)

(** [e], at index [i], is a mutation of the handle path [k]. *)
Definition mutates (k : str) (e : LogEntry) (i : nat) (m : AuditedHandleMutation) : Prop :=
  mutation_of e (Z.of_nat i) = Ok (Some m) /\ m_handle m = k.

Lemma mutates_app es e k i x m :
  (es ++ [e]) !! i = Some x -> mutates k x i m -> es !! i = Some x \/ i = length es /\ x = e.
Proof.
  intros Hx _. apply lookup_app_Some in Hx as [Hx|[Hge Hx]]; [by left|right].
  apply list_lookup_singleton_Some in Hx as [Hz <-]. split; [lia|done].
Qed.

Lemma mutation_index e i m : mutation_of e i = Ok (Some m) -> m_log_index m = i.
Proof.
  unfold mutation_of. destruct (handle_binding e) as [[[h k] s]|]; [|done]. destruct (negb _); [done|]. intros H. inv_ok.
  by injection H as <-.
Qed.

(** The binding of a path is its last mutation, all its mutations carry one provider subject, and a path without a
    binding was never mutated. *)
Definition binding_spec (es : list LogEntry) (k : str) (o : option AuditedHandleBinding) : Prop :=
  match o with
  | Some v => (exists i e m, es !! i = Some e /\ mutates k e i m /\ binding_of m = v /\ hb_log_index v = Z.of_nat i /\
                 forall j x m', (i < j)%nat -> es !! j = Some x -> ~ mutates k x j m') /\
              (forall j x m', es !! j = Some x -> mutates k x j m' -> m_subject m' = hb_subject v)
  | None => forall j x m', es !! j = Some x -> ~ mutates k x j m'
  end.

Lemma binding_spec_frame es e k o :
  (forall m, ~ mutates k e (length es) m) -> binding_spec es k o -> binding_spec (es ++ [e]) k o.
Proof.
  intros Hno.
  assert (forall j x m', (es ++ [e]) !! j = Some x -> mutates k x j m' -> es !! j = Some x) as Hold.
  { intros j x m' Hx Hmu. destruct (mutates_app _ _ _ _ _ _ Hx Hmu) as [?|[-> ->]]; [done|]. by apply Hno in Hmu. }
  destruct o as [v|]; cbn; [|intros IH j x m' Hx Hmu; apply (IH j x m' (Hold j x m' Hx Hmu) Hmu)].
  intros [(i & x & m & Hx & Hmu & Hbm & Hi & Hlast) Hsub]. split.
  - exists i, x, m. split; [by apply lookup_app_l_Some|]. split_and!; try done.
    intros j y m' Hlt Hy Hmu'. apply (Hlast j y m' Hlt (Hold j y m' Hy Hmu') Hmu').
  - intros j y m' Hy Hmu'. apply (Hsub j y m' (Hold j y m' Hy Hmu') Hmu').
Qed.

Lemma history_spec es b k : history es b -> binding_spec es k (b !! k).
Proof.
  induction 1 as [|es b e Hh IH Hm|es b e m Hh IH Hm Hv].
  - rewrite lookup_empty. intros j x m' Hx. by rewrite lookup_nil in Hx.
  - apply binding_spec_frame; [|done]. intros m' [Hm' _]. by rewrite Hm in Hm'.
  - destruct (decide (m_handle m = k)) as [Hk|Hk].
    2:{ rewrite lookup_insert_ne by done. apply binding_spec_frame; [|done]. intros m' [Hm' Hk']. rewrite Hm in Hm'. congruence. }
    rewrite Hk in *. rewrite lookup_insert_eq. split.
    + exists (length es), e, m. split; [by rewrite lookup_app_r, Nat.sub_diag by lia|].
      split_and!; [by split|done|by apply mutation_index in Hm|].
      intros j x m' Hlt Hx. apply lookup_lt_Some in Hx. rewrite length_app in Hx. cbn in Hx. lia.
    + intros j x m' Hx Hmu. destruct (mutates_app _ _ _ _ _ _ Hx Hmu) as [Hx'|[-> ->]].
      * destruct (b !! k) as [v|]; cbn in IH; [|exfalso; by apply (IH j x m')]. destruct IH as [_ Hsub]. cbn.
        rewrite (Hsub j x m' Hx' Hmu). unfold validate_handle_transition in Hv.
        destruct (m_kind m); cbn in Hv; inv_ok; try done. by b2p.
      * destruct Hmu as [Hm' _]. rewrite Hm in Hm'. by injection Hm' as <-.
Qed.

(** What the final checks of a resolution establish, once the accumulator has absorbed [es]. *)
Lemma handle_finish_Ok handle resolved pk sub knd verified acc es v state p' :
  absorbed (as_path handle) acc es ->
  handle_finish handle resolved pk sub knd verified acc = Ok (v, state, p') ->
  vh_checkpoint v = vc_checkpoint verified /\ hs_checkpoint state = vc_checkpoint verified /\
  vh_witnessed_at v = witnessed_at verified /\ resumes (Some state) p' es /\ history es (bindings p') /\
  bindings p' !! as_path handle =
    Some {| hb_pubkey := vh_pubkey v; hb_subject := vh_subject v; hb_log_index := vh_log_index v |} /\
  exists log, logged es log /\ log_root log = cp_root (vc_checkpoint verified) /\
    Z.of_nat (log_size log) = cp_size (vc_checkpoint verified).
Proof.
  intros [_ (log & Hrep & Hlog) Hhist Htgt] H.
  unfold handle_finish in H. apply bind_Ok in H as (u3 & Hg%guard_Ok & H). apply orb_false_iff in Hg as [Hg1 Hg2]. b2p.
  apply bind_Ok in H as (bnd & Hbnd%ok_or_Ok & H). apply bind_Ok in H as ([p1 proj] & Hpb & H).
  apply binding_law in Hpb as (-> & Hb1 & _). apply bind_Ok in H as (u4 & Hg3%guard_Ok & H).
  apply bind_Ok in H as (u5 & Hg4%guard_Ok & H). apply bind_Ok in H as (at_ & Hat%ok_or_Ok & H). b2p. injection H as <- <- <-.
  pose proof (rep_root _ _ Hrep) as Hroot. rewrite Hg2 in Hroot. injection Hroot as Hroot.
  rewrite (rep_size _ _ Hrep) in Hg1. cbn. rewrite Hb1. split_and!; try done.
  - by destruct (vc_checkpoint verified).
  - eauto.
  - rewrite Hg3. destruct bnd; cbn in *; by subst.
  - exists log. split_and!; [done|done|lia].
Qed.

(** Everything a successful resolution establishes. *)
Lemma resolve_audited_Ok trust handle previous accepted now p es0 n v state p' n' :
  resumes previous p es0 ->
  resolve_audited trust handle previous accepted now p n = Ok ((v, state, p'), n') ->
  exists es log base body since Q,
    logged (es0 ++ es) log /\
    log_root log = cp_root (vh_checkpoint v) /\ Z.of_nat (log_size log) = cp_size (vh_checkpoint v) /\
    cp_origin (vh_checkpoint v) = expected_origin trust /\
    history (es0 ++ es) (bindings p') /\
    bindings p' !! as_path handle =
      Some {| hb_pubkey := vh_pubkey v; hb_subject := vh_subject v; hb_log_index := vh_log_index v |} /\
    hs_checkpoint state = vh_checkpoint v /\ resumes (Some state) p' (es0 ++ es) /\
    vh_witnessed_at v = Some since /\ reads body (vh_checkpoint v) /\
    witnessed body (witnesses trust) (witness_threshold trust)
      (Some (now, max_cosignature_age_secs trust, future_clock_skew_secs trust)) since Q /\
    select_audit_base trust (option_map hs_checkpoint previous) accepted = Ok base /\ (0 <= pin_size base -> pinned log base (S n)).
Proof.
  intros Hres H. unfold resolve_audited in H.
  apply net_bind_Ok in H as (base & n1 & Hbase & H). apply net_pure_Ok in Hbase as [Hbase ->].
  apply bind_Ok in Hbase as (u & Ht%guard_Ok & Hbase). apply Nat.eqb_neq in Ht. apply bind_Ok in Hbase as ([] & Hval & Hbase).
  apply net_bind_Ok in H as (resolved & n2 & Hrq & H). apply net_request_Ok in Hrq as [_ ->].
  apply net_bind_Ok in H as ([verified path] & n3 & Hchk & H). apply net_pure_Ok in Hchk as [Hchk ->].
  unfold check_resolved in Hchk. apply bind_Ok in Hchk as (u1 & _ & Hchk). apply bind_Ok in Hchk as (root & _ & Hchk).
  apply bind_Ok in Hchk as (ipath & _ & Hchk). apply bind_Ok in Hchk as (vf & Hvf & Hchk). injection Hchk as -> ->.
  apply verify_checkpoint_with_trust_Ok in Hvf as (Ho & Hsz & Hrt & Hu & body & since & Q & Hsince & Hreads & HQ); [|done].
  apply net_bind_Ok in H as (u2 & n4 & Hgrow & H).
  apply net_bind_Ok in H as (next & n5 & _ & H). apply net_bind_Ok in H as (page & n6 & _ & H).
  apply net_bind_Ok in H as ([[pk sub] knd] & n7 & _ & H).
  apply net_bind_Ok in H as ([acc0 start] & n8 & Hstart & H). apply net_pure_Ok in Hstart as [Hstart _].
  apply (handle_start_Ok _ _ _ _ _ _ es0) in Hstart as (Hab0 & -> & Hle); [|done|by rewrite Ho; destruct previous].
  apply net_bind_Ok in H as (acc & n9 & Hfold & H). apply net_pure_Ok in H as [H _].
  unfold in_uint in Hu. rewrite <-Hsz in Hu. specialize (Hle ltac:(lia)).
  apply (foldM_delivers (fun a i => exists es, Z.of_nat (length (es0 ++ es)) = i /\ absorbed (as_path handle) a (es0 ++ es))
    _ (cp_size (vc_checkpoint verified))) with (from := Z.of_nat (length es0)) in Hfold as (es & Hlen & Hab).
  2:{ intros a1 x y m1 a2 m2 Hxy (es & Hl & Ha) Hs.
      destruct (handle_segment_Ok (as_path handle) a1 (es0 ++ es) x y m1 a2 m2 Ha Hl ltac:(lia) ltac:(lia) Hs) as (es' & Hl' & Ha').
      exists (es ++ es'). by rewrite (assoc_L (++)). }
  2:{ apply ranges_chained; [done|lia|lia]. }
  2:{ exists []. by rewrite app_nil_r. }
  apply (handle_finish_Ok _ _ _ _ _ _ _ (es0 ++ es)) in H as (Ev & Es & Ew & Hrs & Hh & Hb & log & Hlog & Hroot & Hsize); [|done].
  rewrite Ev. exists es, log, base, body, since, Q. split_and!; try done; try congruence.
  intros Hbs. by eapply verify_growth_Ok.
Qed.

(** C1: an audited resolution is the truth of the witnessed log.  Whatever the server answers, a key is returned
    only if there is a log of valid, consecutively numbered entries, continuing the entries audited before, whose
    size and root are those of a checkpoint of the trusted origin that a fresh majority of the pinned witnesses cosigned;
    in that log every change of a handle was legal, and the returned key, subject and index are those of the handle's last
    entry, the subject the one of all its entries. *)
Theorem resolve_audited_sound (trust : RegistryTrust) (handle : Handle) (previous : option HandleAuditState)
  (accepted : option Checkpoint) (now : Z) (p : P) (es0 : list LogEntry) (n : nat)
  (v : VerifiedHandle) (state : HandleAuditState) (p' : P) (n' : nat) :
  resumes previous p es0 ->
  resolve_audited trust handle previous accepted now p n = Ok ((v, state, p'), n') ->
  exists es log,
    logged (es0 ++ es) log /\ history (es0 ++ es) (bindings p') /\
    log_root log = cp_root (vh_checkpoint v) /\ Z.of_nat (log_size log) = cp_size (vh_checkpoint v) /\
    cp_origin (vh_checkpoint v) = expected_origin trust /\
    binding_spec (es0 ++ es) (as_path handle)
      (Some {| hb_pubkey := vh_pubkey v; hb_subject := vh_subject v; hb_log_index := vh_log_index v |}) /\
    exists body since Q, vh_witnessed_at v = Some since /\ reads body (vh_checkpoint v) /\
      witnessed body (witnesses trust) (witness_threshold trust)
        (Some (now, max_cosignature_age_secs trust, future_clock_skew_secs trust)) since Q.
Proof.
  intros Hr H. destruct (resolve_audited_Ok _ _ _ _ _ _ es0 _ _ _ _ _ Hr H)
    as (es & log & base & body & since & Q & Hl & Hrt & Hsz & Ho & Hh & Hb & _ & _ & Hs & Hbody & HQ & _ & _).
  exists es, log. split_and!; try done; [|by exists body, since, Q]. rewrite <-Hb. by apply history_spec.
Qed.

(** Audits chain.  The state and the projection a resolution returns describe exactly the log it witnessed, so
    that they are a sound start for the next; and the log extends the largest of the pinned minimum, the previous
    state's checkpoint and the caller's accepted checkpoint: that checkpoint's root is the root of the log's first
    entries, unless the consistency proof the server answered with (to the second request) exhibits a SHA-256 collision. *)
Theorem resolve_audited_resumes (trust : RegistryTrust) (handle : Handle) (previous : option HandleAuditState)
  (accepted : option Checkpoint) (now : Z) (p : P) (es0 : list LogEntry) (n : nat)
  (v : VerifiedHandle) (state : HandleAuditState) (p' : P) (n' : nat) :
  resumes previous p es0 -> 0 <= pin_size (minimum_checkpoint trust) ->
  resolve_audited trust handle previous accepted now p n = Ok ((v, state, p'), n') ->
  exists es log base,
    resumes (Some state) p' (es0 ++ es) /\ hs_checkpoint state = vh_checkpoint v /\
    logged (es0 ++ es) log /\ log_root log = cp_root (vh_checkpoint v) /\
    pinned log base (S n) /\
    pin_size (minimum_checkpoint trust) <= pin_size base /\
    (pin_size base = pin_size (minimum_checkpoint trust) -> base = minimum_checkpoint trust) /\
    (forall c, option_map hs_checkpoint previous = Some c \/ accepted = Some c -> covers base c).
Proof.
  intros Hr Hmin H. destruct (resolve_audited_Ok _ _ _ _ _ _ es0 _ _ _ _ _ Hr H)
    as (es & log & base & body & since & Q & Hl & Hrt & Hsz & Ho & Hh & Hb & Hcp & Hres & _ & _ & _ & Hbase & Hpin).
  apply select_audit_base_Ok in Hbase as (Hle & Heq & Hcov).
  exists es, log, base. split_and!; try done. apply Hpin. lia.
Qed.
End HandleSound.

(** ** One root, one history *)

Section Agreement.
Context {C : Crypto} {UP : UrlParser}.

Lemma history_fun es b : history es b -> forall b', history es b' -> b = b'.
Proof.
  induction 1 as [|es b e Hh IH Hm|es b e m Hh IH Hm Hv]; intros b' H'; inversion H' as [E|es' b1 e' Hh' Hm' E|es' b1 e' m' Hh' Hm' Hv' E];
    try (by destruct es); try (by destruct es'); try done;
    apply app_inj_tail in E as [-> ->]; rewrite Hm in Hm'; try discriminate Hm'.
  - by apply IH.
  - injection Hm' as <-. by rewrite (IH b1 Hh').
Qed.

(** The strings hashed for the leaves of [es]. *)
Definition leaf_inputs (es : list LogEntry) : list bytes := map (cons LEAF_PREFIX) (omap (fun e => ok (leaf_bytes e)) es).

Lemma leaf_texts es bs : Forall2 (fun e b => leaf_bytes e = Ok b) es bs -> omap (fun e => ok (leaf_bytes e)) es = bs.
Proof. induction 1 as [|e b es bs He _ IH]; [done|]. cbn [omap list_omap]. rewrite He. cbn. by f_equal. Qed.

Lemma leaf_hashes_inj (bs bs' : list bytes) :
  map leaf_hash bs = map leaf_hash bs' -> bs = bs' \/ collision_in (map (cons LEAF_PREFIX) bs ++ map (cons LEAF_PREFIX) bs').
Proof.
  revert bs'. induction bs as [|b bs IH]; intros [|b' bs'] E; try done; [by left|]. cbn [map] in E. apply cons_inj in E as [Eb E].
  destruct (collision_in_pair _ _ Eb) as [[= ->]|Hx]; [|right; eapply collision_in_mono; [|exact Hx]; set_solver].
  destruct (IH bs' E) as [->|Hx]; [by left|right]. eapply collision_in_mono; [|exact Hx]. set_solver.
Qed.

Lemma entries_inj es es' bs :
  Forall entry_wf es -> Forall entry_wf es' ->
  Forall2 (fun e b => leaf_bytes e = Ok b) es bs -> Forall2 (fun e b => leaf_bytes e = Ok b) es' bs -> es = es'.
Proof.
  intros Hw Hw' H. revert es' Hw'. induction H as [|e b es bs He _ IH]; intros es' Hw' H'; inversion H' as [|e' ? es2 ? He' H2]; subst; [done|].
  apply Forall_cons in Hw as [We Hw]. apply Forall_cons in Hw' as [We' Hw'].
  rewrite (leaf_bytes_inj e e' b) by done. f_equal. by apply IH.
Qed.

(** One witnessed root, one set of keys.  Two audits that rebuilt logs of one size and root, from whatever servers,
    audited the same entries and hold the same binding for every handle, unless two of the strings they hashed are a
    SHA-256 collision. *)
Theorem witnessed_root_determines_bindings (es es' : list LogEntry) (log log' : MerkleLog)
  (b b' : gmap str AuditedHandleBinding) :
  Forall entry_wf es -> Forall entry_wf es' -> logged es log -> logged es' log' -> history es b -> history es' b' ->
  log_size log = log_size log' -> log_root log = log_root log' ->
  (es = es' /\ b = b') \/
  collision_in (tree_inputs (leaves log) ++ tree_inputs (leaves log') ++ leaf_inputs es ++ leaf_inputs es').
Proof.
  intros Hw Hw' (_ & bs & HF & HL) (_ & bs' & HF' & HL') Hh Hh' Hsz Hrt. rewrite !log_root_range in Hrt.
  unfold leaf_inputs. rewrite (leaf_texts _ _ HF), (leaf_texts _ _ HF').
  destruct (root_range_inj _ _ Hsz Hrt) as [E|Hx]; [|right; eapply collision_in_mono; [|exact Hx]; set_solver].
  rewrite HL, HL' in E. destruct (leaf_hashes_inj _ _ E) as [->|Hx]; [left|right; eapply collision_in_mono; [|exact Hx]; set_solver].
  rewrite (entries_inj es es' bs') in * by done. split; [done|]. by apply (history_fun es').
Qed.
End Agreement.

(** ** Compliance keys *)

Section KeysSound.
Context {C : Crypto} {UP : UrlParser} {SV : Server}.

Definition kid (k : AuditedComplianceKey) : ComplianceKeyId := key_id (ck_publication k).

Lemma audited_key_fields p i k : audited_compliance_key p i = Ok k -> ck_publication k = p /\ ck_log_index k = i.
Proof. unfold audited_compliance_key. intros H. inv_ok. by subst k. Qed.

Lemma key_history_kid es ks id k : key_history es ks -> ks !! id = Some k -> kid k = id.
Proof.
  intros H. revert id k. induction H as [|es ks e Hh IH Hp|es ks e p a Hh IH Hp Ha Hv]; intros id k Hk; [done|by apply IH|].
  apply lookup_insert_Some in Hk as [[<- <-]|[_ Hk]]; [|by apply IH]. apply audited_key_fields in Ha as [Hpub _]. unfold kid. by rewrite Hpub.
Qed.

Lemma index_keys_Ok vs : forall m,
  NoDup (map kid vs) -> (forall v, v ∈ vs -> m !! kid v = None) ->
  index_keys vs m = Ok (list_to_map (map (fun v => (kid v, v)) vs) ∪ m).
Proof.
  induction vs as [|v vs IH]; intros m Hnd Hm; cbn [index_keys map].
  - by rewrite list_to_map_nil, (left_id_L ∅ (∪)).
  - apply NoDup_cons in Hnd as [Hv Hnd]. fold (kid v). rewrite (Hm v) by set_solver. cbn [is_some guard mbind result_bind].
    rewrite IH; [|done|].
    + rewrite list_to_map_cons. f_equal. rewrite <-insert_union_l, insert_union_r; [done|].
      apply not_elem_of_list_to_map. intros Hin. apply Hv. apply list_elem_of_fmap in Hin as ([a b] & Ha & Hin).
      apply list_elem_of_fmap in Hin as (w & [= -> ->] & Hw). cbn in Ha. rewrite Ha. by apply list_elem_of_fmap_2.
    + intros w Hw. rewrite lookup_insert_ne; [apply Hm; set_solver|]. intros E. apply Hv. rewrite E. by apply list_elem_of_fmap_2.
Qed.

(** The list a finished audit persists rebuilds the map it was made from. *)
Lemma index_sorted_keys es ks :
  key_history es ks -> index_keys (sort_by_index (map snd (map_to_list ks))) ∅ = Ok ks.
Proof.
  intros Hh. unfold sort_by_index. pose proof (merge_sort_Permutation index_le (map snd (map_to_list ks))) as HP.
  set (vs := merge_sort index_le (map snd (map_to_list ks))) in *.
  assert (map (fun v => (kid v, v)) (map snd (map_to_list ks)) = map_to_list ks) as Hpairs.
  { rewrite map_map. rewrite <-(map_id (map_to_list ks)) at 2. apply map_ext_in. intros [id k] Hin.
    apply list_elem_of_In, elem_of_map_to_list in Hin. cbn. by rewrite (key_history_kid es ks id k). }
  assert (map (fun v => (kid v, v)) vs ≡ₚ map_to_list ks) as HP2 by (rewrite <-Hpairs; by apply Permutation_map).
  assert (NoDup (map kid vs)) as Hnd.
  { replace (map kid vs) with (map fst (map (fun v => (kid v, v)) vs)) by (rewrite map_map; done).
    rewrite HP2. apply NoDup_fst_map_to_list. }
  rewrite index_keys_Ok by (done || (intros; apply lookup_empty)). rewrite (right_id_L ∅ (∪)). f_equal.
  rewrite <-(list_to_map_to_list ks). apply list_to_map_proper; [|done]. rewrite HP2. apply NoDup_fst_map_to_list.
Qed.

Definition keys_resume (previous : option ComplianceAuditState) (es : list LogEntry) : Prop :=
  match previous with
  | Some state => (exists log, rep (cs_frontier state) log /\ logged es log) /\
                  exists ks, index_keys (cs_keys state) ∅ = Ok ks /\ key_history es ks
  | None => es = []
  end.

Lemma compliance_segment_Ok acc es0 from to n acc' n' :
  keys_absorbed acc es0 -> Z.of_nat (length es0) = from -> from < to -> to < 2 ^ 64 ->
  compliance_segment acc (from, to) n = Ok (acc', n') ->
  exists es, Z.of_nat (length (es0 ++ es)) = to /\ keys_absorbed acc' (es0 ++ es).
Proof.
  intros Hab Hfrom Hlt Hto H. unfold compliance_segment in H. apply net_bind_Ok in H as ([acc1 o] & n1 & H1 & H).
  apply audit_dump_range_Ok in H1 as (es & Hap & Hc). destruct o.
  - apply net_ret_Ok in H as [-> _]. specialize (Hc eq_refl). exists es. rewrite length_app. split; [lia|].
    eapply keys_absorb_entries; [done|done|lia].
  - apply audit_json_pages_Ok in H as (es' & Hl & Hap'); [|lia|done]. exists es'. rewrite length_app. split; [lia|].
    eapply keys_absorb_entries; [done| |lia]. by destruct acc.
Qed.

Lemma compliance_start_Ok previous c acc start es :
  keys_resume previous es ->
  match previous with Some state => validate_audit_state state (cp_origin c) = Ok tt | None => True end ->
  compliance_start previous c = Ok (acc, start) ->
  keys_absorbed acc es /\ start = Z.of_nat (length es) /\ (0 <= cp_size c -> start <= cp_size c).
Proof.
  intros Hr Hv H. unfold compliance_start in H. destruct previous as [state|].
  - destruct Hr as [(log & Hrep & Hl) (ks & Hk & Hh)]. apply bind_Ok in H as (u & Hg%guard_Ok & H). rewrite Hk in H.
    injection H as <- <-. unfold validate_audit_state in Hv. apply bind_Ok in Hv as (u' & Hv%guard_Ok & _). b2p.
    split; [split; [by exists log|done]|]. rewrite (rep_size _ _ Hrep), (logged_length es log Hl) in *. split; lia.
  - cbn in Hr. subst es. injection H as <- <-. split; [|cbn; lia].
    split; [exists log_new; split; [apply rep_new|apply logged_nil]|constructor].
Qed.

Lemma compliance_finish_Ok metadata verified acc es v state :
  keys_absorbed acc es -> compliance_finish metadata verified acc = Ok (v, state) ->
  vk_checkpoint v = vc_checkpoint verified /\ vk_witnessed_at v = witnessed_at verified /\ keys_resume (Some state) es /\
  (forall k, k ∈ vk_keys v <-> ca_keys acc !! kid k = Some k) /\
  exists log, logged es log /\ log_root log = cp_root (vc_checkpoint verified) /\
    Z.of_nat (log_size log) = cp_size (vc_checkpoint verified).
Proof.
  intros [(log & Hrep & Hlog) Hk] H. unfold compliance_finish in H.
  apply bind_Ok in H as (u3 & Hg%guard_Ok & H). apply orb_false_iff in Hg as [Hg1 Hg2]. b2p.
  apply bind_Ok in H as (u4 & _ & H). apply bind_Ok in H as (at_ & Hat%ok_or_Ok & H). injection H as <- <-.
  pose proof (rep_root _ _ Hrep) as Hroot. rewrite Hg2 in Hroot. injection Hroot as Hroot.
  rewrite (rep_size _ _ Hrep) in Hg1. cbn. split_and!; try done.
  - by exists log.
  - exists (ca_keys acc). split; [by eapply index_sorted_keys|done].
  - intros k. unfold sort_by_index. rewrite merge_sort_Permutation, list_elem_of_fmap. split.
    + intros ([id x] & -> & Hin). apply elem_of_map_to_list in Hin. cbn. by rewrite (key_history_kid _ _ _ _ Hk Hin).
    + intros Hin. exists (kid k, k). split; [done|]. by apply elem_of_map_to_list.
  - exists log. split_and!; [done|done|lia].
Qed.

(** C19: a compliance-key listing leaves nothing out.  The keys an audited read returns are exactly those the witnessed
    log establishes: the log's entries continue what was audited before, have the size and root of a checkpoint of the
    trusted origin cosigned by a fresh majority, and every publication in them was a legal transition; and the returned
    state, its key list included, is a sound start for the next audit. *)
Theorem compliance_keys_audited_sound (trust : RegistryTrust) (previous : option ComplianceAuditState)
  (accepted : option Checkpoint) (now : Z) (es0 : list LogEntry) (n : nat)
  (v : VerifiedComplianceKeys) (state : ComplianceAuditState) (n' : nat) :
  keys_resume previous es0 ->
  compliance_keys_audited trust previous accepted now n = Ok ((v, state), n') ->
  exists es log ks,
    logged (es0 ++ es) log /\ key_history (es0 ++ es) ks /\
    (forall k, k ∈ vk_keys v <-> ks !! kid k = Some k) /\
    log_root log = cp_root (vk_checkpoint v) /\ Z.of_nat (log_size log) = cp_size (vk_checkpoint v) /\
    cp_origin (vk_checkpoint v) = expected_origin trust /\
    keys_resume (Some state) (es0 ++ es) /\
    exists body since Q, vk_witnessed_at v = Some since /\ reads body (vk_checkpoint v) /\
      witnessed body (witnesses trust) (witness_threshold trust)
        (Some (now, max_cosignature_age_secs trust, future_clock_skew_secs trust)) since Q.
Proof.
  intros Hres H. unfold compliance_keys_audited in H.
  apply net_bind_Ok in H as (base & n1 & Hbase & H). apply net_pure_Ok in Hbase as [Hbase _].
  apply bind_Ok in Hbase as (u & Ht%guard_Ok & Hbase). apply Nat.eqb_neq in Ht. apply bind_Ok in Hbase as ([] & Hval & Hbase).
  apply net_bind_Ok in H as (metadata & n2 & _ & H).
  apply net_bind_Ok in H as (verified & n3 & Hvf & H). apply net_pure_Ok in Hvf as [Hvf _].
  apply bind_Ok in Hvf as (u1 & _ & Hvf). apply bind_Ok in Hvf as (root & _ & Hvf).
  apply verify_checkpoint_with_trust_Ok in Hvf as (Ho & Hsz & Hrt & Hu & body & since & Q & Hsince & Hreads & HQ); [|done].
  apply net_bind_Ok in H as (u2 & n4 & _ & H).
  apply net_bind_Ok in H as ([acc0 start] & n8 & Hstart & H). apply net_pure_Ok in Hstart as [Hstart _].
  apply (compliance_start_Ok _ _ _ _ es0) in Hstart as (Hab0 & -> & Hle); [|done|by rewrite Ho; destruct previous].
  apply net_bind_Ok in H as (acc & n9 & Hfold & H). apply net_pure_Ok in H as [H _].
  unfold in_uint in Hu. rewrite <-Hsz in Hu. specialize (Hle ltac:(lia)).
  apply (foldM_delivers (fun a i => exists es, Z.of_nat (length (es0 ++ es)) = i /\ keys_absorbed a (es0 ++ es))
    _ (cp_size (vc_checkpoint verified))) with (from := Z.of_nat (length es0)) in Hfold as (es & Hlen & Hab).
  2:{ intros a1 x y m1 a2 m2 Hxy (es & Hl & Ha) Hs.
      destruct (compliance_segment_Ok a1 (es0 ++ es) x y m1 a2 m2 Ha Hl ltac:(lia) ltac:(lia) Hs) as (es' & Hl' & Ha').
      exists (es ++ es'). by rewrite (assoc_L (++)). }
  2:{ apply ranges_chained; [done|lia|lia]. }
  2:{ exists []. by rewrite app_nil_r. }
  pose proof (ka_history _ _ Hab) as Hk.
  apply (compliance_finish_Ok _ _ _ (es0 ++ es)) in H as (Ev & Ew & Hrs & Hkeys & log & Hlog & Hroot & Hsize); [|done].
  rewrite Ev, Ew. exists es, log, (ca_keys acc). split_and!; try done. by exists body, since, Q.
Qed.

(** ** The life of a compliance key *)

Definition rank (p : ComplianceKeyPublish) : Z := u8 (status_tag (status p)).

(** [p] is published for [id] by the entry at [j]. *)
Definition published (es : list LogEntry) (id : ComplianceKeyId) (j : nat) (p : ComplianceKeyPublish) : Prop :=
  exists e, es !! j = Some e /\ compliance_publication e = Some p /\ key_id p = id.

(** What the key [k] of [id] says about the publications in [es]. *)
Definition key_spec (es : list LogEntry) (id : ComplianceKeyId) (o : option AuditedComplianceKey) : Prop :=
  match o with
  | Some k => exists i, ck_log_index k = Z.of_nat i /\ published es id i (ck_publication k) /\
      forall j p, published es id j p ->
        (j <= i)%nat /\ ((j < i)%nat -> rank p < rank (ck_publication k)) /\
        parse_hex32 (cp_public_key p) = Some (ck_public_key k) /\
        not_before_ms p = not_before_ms (ck_publication k) /\ not_after_ms p = not_after_ms (ck_publication k)
  | None => forall j p, ~ published es id j p
  end.

Lemma published_app es e id j p :
  published (es ++ [e]) id j p -> published es id j p \/ j = length es /\ compliance_publication e = Some p /\ key_id p = id.
Proof.
  intros (x & Hx & Hp & Hi). apply lookup_app_Some in Hx as [Hx|[Hge Hx]]; [left; by exists x|right].
  apply list_lookup_singleton_Some in Hx as [Hz <-]. split; [lia|done].
Qed.

Lemma published_old es e id j p : published es id j p -> published (es ++ [e]) id j p.
Proof. intros (x & Hx & Hp). exists x. split; [by apply lookup_app_l_Some|done]. Qed.

Lemma key_spec_frame es e id o :
  (forall p, compliance_publication e = Some p -> key_id p <> id) -> key_spec es id o -> key_spec (es ++ [e]) id o.
Proof.
  intros Hno. assert (forall j p, published (es ++ [e]) id j p -> published es id j p) as Hold.
  { intros j p [?|(_ & Hp & Hi)]%published_app; [done|]. by apply Hno in Hp. }
  destruct o as [k|]; cbn; [|intros H j p Hp; by apply (H j p), Hold].
  intros (i & Hi & Hp & H). exists i. split_and!; [done|by apply published_old|]. intros j p Hjp. by apply H, Hold.
Qed.

Lemma published_lt es id j p : published es id j p -> (j < length es)%nat.
Proof. intros (e & He & _). by apply lookup_lt_Some in He. Qed.

Lemma audited_key_parse p i k : audited_compliance_key p i = Ok k ->
  parse_hex32 (cp_public_key p) = Some (ck_public_key k) /\ ck_publication k = p /\ ck_log_index k = i.
Proof. unfold audited_compliance_key. intros H. inv_ok. by subst k. Qed.

Lemma key_history_spec es ks id : key_history es ks -> key_spec es id (ks !! id).
Proof.
  induction 1 as [|es ks e Hh IH Hp|es ks e p k Hh IH Hp Hk Hv].
  - rewrite lookup_empty. intros j p (e & He & _). by rewrite lookup_nil in He.
  - apply key_spec_frame; [|done]. intros p Hp'. by rewrite Hp in Hp'.
  - destruct (decide (key_id p = id)) as [Hid|Hid].
    2:{ rewrite lookup_insert_ne by done. apply key_spec_frame; [|done]. intros p' Hp'. rewrite Hp in Hp'. by injection Hp' as <-. }
    rewrite Hid in *. rewrite lookup_insert_eq. apply audited_key_parse in Hk as (Hpk & Hpub & Hidx).
    exists (length es). rewrite Hpub, Hidx. split_and!; [done| |].
    { exists e. rewrite lookup_app_r, Nat.sub_diag by lia. done. }
    intros j q [Hq|(-> & Hq & _)]%published_app.
    2:{ rewrite Hp in Hq. injection Hq as <-. split_and!; try done; lia. }
    pose proof (published_lt _ _ _ _ Hq) as Hlt. destruct (ks !! id) as [k0|]; cbn in IH; [|exfalso; by apply (IH j q)].
    destruct IH as (i & Hi & Hpi & IH). destruct (IH j q Hq) as (Hle & Hrank & Hq1 & Hq2 & Hq3).
    unfold validate_compliance_transition in Hv. apply guard_Ok in Hv. b2p. rewrite Hpub in *. fold (rank p) in *.
    fold (rank (ck_publication k0)) in *.
    assert (rank q <= rank (ck_publication k0)) as Hr.
    { destruct (Nat.eq_dec j i) as [->|]; [|specialize (Hrank ltac:(lia)); lia].
      destruct Hq as (x & Hx & Hxp & _), Hpi as (y & Hy & Hyp & _). rewrite Hx in Hy. injection Hy as <-. rewrite Hxp in Hyp.
      injection Hyp as ->. lia. }
    split_and!; [lia|lia|congruence|congruence|congruence].
Qed.

(** A compliance key never comes back.  In any legal key history the current state of a key is its last
    publication; every earlier one was of the same public key and interval and of a strictly earlier status, so a
    retired or revoked key has no later publication that is active; and a key without state was never published. *)
Theorem compliance_key_lifecycle (es : list LogEntry) (ks : gmap ComplianceKeyId AuditedComplianceKey) (id : ComplianceKeyId) :
  key_history es ks ->
  key_spec es id (ks !! id) /\
  forall i j p q, published es id i p -> published es id j q -> (i < j)%nat -> status p <> Active -> status q = Revoked.
Proof.
  intros H. pose proof (key_history_spec es ks id H) as Hspec. split; [done|].
  intros i j p q Hp Hq Hlt Hact.
  assert (rank p < rank q) as Hr.
  { revert Hp Hq. clear Hspec. revert q. induction H as [|es ks e Hh IH Hn|es ks e r k Hh IH Hn Hk Hv]; intros q Hp Hq.
    - destruct Hp as (x & Hx & _). by rewrite lookup_nil in Hx.
    - apply published_app in Hp as [Hp|(_ & Hp & _)]; [|by rewrite Hn in Hp].
      apply published_app in Hq as [Hq|(_ & Hq & _)]; [|by rewrite Hn in Hq]. by apply IH.
    - apply published_app in Hp as [Hp|(-> & Hp & _)].
      2:{ apply published_lt in Hq. rewrite length_app in Hq. cbn in Hq. lia. }
      apply published_app in Hq as [Hq|(-> & Hq & Hid)]; [by apply IH|].
      assert (key_history (es ++ [e]) (<[key_id r := k]> ks)) as Hfull by by eapply key_history_publish.
      apply (key_history_spec _ _ id) in Hfull. rewrite Hn in Hq. injection Hq as ->. rewrite Hid, lookup_insert_eq in Hfull.
      destruct Hfull as (i0 & Hi0 & _ & Hall). apply audited_key_parse in Hk as (_ & Hpub & Hidx). rewrite Hpub in Hall.
      destruct (Hall i p) as (_ & Hrank & _); [by apply published_old|]. apply Hrank. lia. }
  unfold rank in Hr. destruct (status p), (status q); try done; vm_compute in Hr; discriminate Hr.
Qed.
End KeysSound.

(** * A server with one entry *)

Section Witnesses.
#[local] Existing Instance toy_crypto.
#[local] Existing Instance toy_laws.
#[local] Existing Instance toy_url_parser.

Definition demo_leaf : bytes := match leaf_bytes (demo_claim 0) with Ok b => b | Err _ => [] end.
Definition demo_root : arr 32 := leaf_hash demo_leaf.
Definition demo_log : MerkleLog := {| leaves := [demo_root] |}.
Definition demo_checkpoint : Checkpoint := {| cp_origin := lit "log"; cp_size := 1; cp_root := demo_root |}.
Definition demo_signed : str :=
  checkpoint_sign demo_checkpoint demo_operator ++
  match cosignature_line demo_checkpoint (lit "w") demo_witness 1000 with Ok l => l | Err _ => [] end.

Definition demo_server : Server := {|
  get_resolve _ _ := Ok {| rr_handle := lit "/github/ada"; rr_pubkey := demo_key_hex; rr_log_index := 0;
    rr_inclusion_proof := {| ip_tree_size := 1; ip_root := hex_of (vec_to_list demo_root); ip_path := [];
                             ip_checkpoint := demo_signed |} |};
  get_entries _ from to := Ok {| er_from := from; er_to := to; er_tree_size := 1; er_root := hex_of (vec_to_list demo_root);
    er_checkpoint := demo_signed; er_entries := [demo_claim 0] |};
  get_consistency _ _ _ := Err RegistryUnavailable;
  get_compliance_keys _ := Ok {| kr_tree_size := 1; kr_root := hex_of (vec_to_list demo_root); kr_checkpoint := demo_signed;
    kr_keys := 0 |};
  get_dump _ _ _ := DumpUnsent;
  entry_from_json _ := None;
|}.
#[local] Existing Instance demo_server.

Definition demo_trust : RegistryTrust := {|
  expected_origin := lit "log"; checkpoint_key := verifying_key demo_operator; witnesses := demo_roster;
  witness_threshold := 1; minimum_checkpoint := {| pin_size := 0; pin_root := empty_root |};
  max_cosignature_age_secs := 60; future_clock_skew_secs := 5 |}.
Definition demo_handle : Handle := MkHandle (lit "github") (lit "ada").
Definition demo_store : InMemoryHandleProjection := {| im_bindings := ∅; segment_undo := None |}.

Definition is_resolved {A} (r : R A) : bool := match r with Ok _ => true | Err _ => false end.

Lemma demo_resolves : is_resolved (resolve_audited demo_trust demo_handle None None 1010 demo_store 0%nat) = true.
Proof. vm_compute. reflexivity. Qed.

Lemma resolve_audited_sound_witness :
  exists es log, logged es log /\ exists v, binding_spec es (lit "/github/ada") (Some v).
Proof.
  destruct (resolve_audited demo_trust demo_handle None None 1010 demo_store 0%nat) as [[[[v st] p'] n']|e] eqn:E;
    [|pose proof demo_resolves as H; rewrite E in H; discriminate H].
  destruct (resolve_audited_sound demo_trust demo_handle None None 1010 demo_store [] 0%nat v st p' n' eq_refl E)
    as (es & log & Hl & _ & _ & _ & _ & Hb & _).
  exists ([] ++ es), log. split; [exact Hl|]. eexists. exact Hb.
Defined.

Lemma resolve_audited_resumes_witness :
  exists st p' es, resumes (P := InMemoryHandleProjection) (Some st) p' es.
Proof.
  destruct (resolve_audited demo_trust demo_handle None None 1010 demo_store 0%nat) as [[[[v st] p'] n']|e] eqn:E;
    [|pose proof demo_resolves as H; rewrite E in H; discriminate H].
  destruct (resolve_audited_resumes demo_trust demo_handle None None 1010 demo_store [] 0%nat v st p' n' eq_refl (Z.le_refl 0) E)
    as (es & log & base & Hr & _).
  exists st, p', ([] ++ es). exact Hr.
Defined.

Definition demo_binding : gmap str AuditedHandleBinding :=
  {[ lit "/github/ada" := {| hb_pubkey := verifying_key demo_key; hb_subject := lit "github:1815"; hb_log_index := 0 |} ]}.

Lemma demo_logged : logged [demo_claim 0] demo_log.
Proof.
  split; [intros [|[|i]] e He; cbn in He; [injection He as <-; reflexivity|discriminate He..]|].
  exists [demo_leaf]. split; [|reflexivity]. constructor; [vm_compute; reflexivity|constructor].
Qed.

Lemma demo_history : history [demo_claim 0] demo_binding.
Proof.
  change [demo_claim 0] with ([] ++ [demo_claim 0]).
  apply (history_apply [] ∅ (demo_claim 0) {| m_kind := KindHandleClaim; m_handle := lit "/github/ada";
    m_pubkey := verifying_key demo_key; m_subject := lit "github:1815"; m_log_index := 0 |});
    [constructor|vm_compute; reflexivity|vm_compute; reflexivity].
Qed.

Lemma witnessed_root_determines_bindings_witness :
  ([demo_claim 0] = [demo_claim 0] /\ demo_binding = demo_binding) \/
  collision_in (tree_inputs (leaves demo_log) ++ tree_inputs (leaves demo_log) ++ leaf_inputs [demo_claim 0] ++ leaf_inputs [demo_claim 0]).
Proof.
  assert (Forall entry_wf [demo_claim 0]) as Hw by (constructor; [unfold entry_wf, in_uint; cbn; lia|constructor]).
  exact (witnessed_root_determines_bindings [demo_claim 0] [demo_claim 0] demo_log demo_log demo_binding demo_binding
    Hw Hw demo_logged demo_logged demo_history demo_history eq_refl eq_refl).
Defined.

(** A key published active, then revoked. *)
Definition demo_key_id : ComplianceKeyId := key_id_new NetworkTrace TestJurisdiction (vreplicate 32 x05) 0 1.
Definition demo_publication (s : ComplianceKeyStatus) : ComplianceKeyPublish :=
  {| key_id := demo_key_id; cp_public_key := demo_key_hex; not_before_ms := 0; not_after_ms := 86400000; status := s |}.
Definition demo_publications : list LogEntry :=
  [compliance_key 0 (demo_publication Active) 1; compliance_key 1 (demo_publication Revoked) 2].

Definition demo_audited (s : ComplianceKeyStatus) (i : Z) : AuditedComplianceKey :=
  {| ck_publication := demo_publication s; ck_public_key := verifying_key demo_key; ck_log_index := i |}.

Lemma demo_key_history :
  key_history demo_publications (<[demo_key_id := demo_audited Revoked 1]> (<[demo_key_id := demo_audited Active 0]> ∅)).
Proof.
  apply (key_history_publish [compliance_key 0 (demo_publication Active) 1] _ (compliance_key 1 (demo_publication Revoked) 2)
           (demo_publication Revoked) (demo_audited Revoked 1)).
  - apply (key_history_publish [] ∅ (compliance_key 0 (demo_publication Active) 1) (demo_publication Active) (demo_audited Active 0));
      [constructor|reflexivity|vm_compute; reflexivity|vm_compute; reflexivity].
  - reflexivity.
  - vm_compute; reflexivity.
  - change (key_id (demo_publication Revoked)) with demo_key_id. rewrite lookup_insert_eq. vm_compute. reflexivity.
Qed.

Lemma compliance_key_lifecycle_witness :
  exists ks : gmap ComplianceKeyId AuditedComplianceKey, key_spec demo_publications demo_key_id (ks !! demo_key_id).
Proof.
  eexists. destruct (compliance_key_lifecycle demo_publications _ demo_key_id demo_key_history) as [Hs _]. exact Hs.
Defined.
(** A server of that log. *)
Definition keys_leaf (e : LogEntry) : arr 32 := match leaf_bytes e with Ok b => leaf_hash b | Err _ => empty_root end.
Definition keys_root : arr 32 := log_root {| leaves := map keys_leaf demo_publications |}.
Definition keys_checkpoint : Checkpoint := {| cp_origin := lit "log"; cp_size := 2; cp_root := keys_root |}.
Definition keys_signed : str :=
  checkpoint_sign keys_checkpoint demo_operator ++
  match cosignature_line keys_checkpoint (lit "w") demo_witness 1000 with Ok l => l | Err _ => [] end.

Definition keys_server : Server := {|
  get_resolve _ _ := Err RegistryUnavailable;
  get_entries _ from to := Ok {| er_from := from; er_to := to; er_tree_size := 2; er_root := hex_of (vec_to_list keys_root);
    er_checkpoint := keys_signed; er_entries := take (Z.to_nat (to - from)) (drop (Z.to_nat from) demo_publications) |};
  get_consistency _ _ _ := Err RegistryUnavailable;
  get_compliance_keys _ := Ok {| kr_tree_size := 2; kr_root := hex_of (vec_to_list keys_root); kr_checkpoint := keys_signed;
    kr_keys := 1 |};
  get_dump _ _ _ := DumpUnsent;
  entry_from_json _ := None;
|}.

Definition lists_revoked (r : R ((VerifiedComplianceKeys * ComplianceAuditState) * nat)) : bool :=
  match r with Ok ((v, _), _) => match vk_keys v with [k] => k ≟ demo_audited Revoked 1 | _ => false end | Err _ => false end.

Lemma demo_lists : lists_revoked (compliance_keys_audited (SV := keys_server) demo_trust None None 1010 0%nat) = true.
Proof. vm_compute. reflexivity. Qed.

(** The listing of the key that was published active and then revoked. *)
Lemma compliance_keys_audited_sound_witness : exists v es ks,
  vk_keys v = [demo_audited Revoked 1] /\ key_history es ks /\ ks !! demo_key_id = Some (demo_audited Revoked 1) /\ length es = 2%nat.
Proof.
  pose proof demo_lists as H. destruct (compliance_keys_audited (SV := keys_server) demo_trust None None 1010 0%nat) as [[[v st] n']|e] eqn:E; [|discriminate H].
  destruct (compliance_keys_audited_sound (SV := keys_server) demo_trust None None 1010 [] 0%nat v st n' eq_refl E)
    as (es & log & ks & Hl & Hk & Hiff & _ & Hsz & _).
  assert (vk_keys v = [demo_audited Revoked 1] /\ cp_size (vk_checkpoint v) = 2) as [Ek Es].
  { split; [|assert (Some 2 = match compliance_keys_audited (SV := keys_server) demo_trust None None 1010 0%nat with
                             | Ok ((v, _), _) => Some (cp_size (vk_checkpoint v)) | Err _ => None end) as E2 by (vm_compute; reflexivity);
             rewrite E in E2; injection E2 as <-; reflexivity].
    unfold lists_revoked in H. destruct (vk_keys v) as [|k [|]]; [discriminate H| |discriminate H]. b2p. congruence. }
  exists v, ([] ++ es), ks. split; [exact Ek|]. split; [exact Hk|]. split.
  - apply (Hiff (demo_audited Revoked 1)). rewrite Ek. apply list_elem_of_here.
  - rewrite Es in Hsz. rewrite (logged_length _ _ Hl) in Hsz. lia.
Defined.
End Witnesses.
