(* ===== verification/RegistryNodes.v ===== *)
(** The persisted Merkle nodes of the registry: [append_merkle_leaf], [root_for_size], the inclusion and consistency
    paths of [pigeonpost-registry/src/storage.rs].

    The service never rebuilds its tree.  A leaf inserts one node for each complete subtree it finishes, and every root
    and proof is read from those nodes.  The table is a map from (level, index) to hashes; sizes and indices are
    [nat] here, the width of the columns is checked where the code calls [to_i64]. *)
From S2P Require Import Prelude Text Crypto Compliance Handle Entry Merkle MerkleProofs MerkleFrontier.
From Equations Require Import Equations.

Abbreviation RegistryResult := (result RegistryError).

(** [i64::try_from] of a [u64], and [u64::try_from] of a column. *)
Definition to_i64 (value : Z) (description : string) : RegistryResult Z :=
  _ ← guard (2 ^ 63 <=? value) (MalformedEntry (description +:+ " exceeds SQLite range")); Ok value.
Definition nonnegative (value : Z) (description : string) : RegistryResult Z :=
  _ ← guard (value <? 0) (CorruptStorage (description +:+ " is negative or out of range")); Ok value.

Lemma to_i64_range v d r : to_i64 v d = Ok r <-> v < 2 ^ 63 /\ r = v.
Proof. unfold to_i64, guard. destruct (Z.leb_spec (2 ^ 63) v); cbn; split; intros ?; intuition (congruence || lia). Qed.

Lemma to_i64_fits v d : v < 2 ^ 63 -> to_i64 v d = Ok v.
Proof. intros H. by apply to_i64_range. Qed.

Lemma nonnegative_Ok v d r : nonnegative v d = Ok r <-> 0 <= v /\ r = v.
Proof. unfold nonnegative, guard. destruct (Z.ltb_spec v 0); cbn; split; intros ?; intuition (congruence || lia). Qed.

Lemma nonnegative_fits v d : 0 <= v -> nonnegative v d = Ok v.
Proof. intros H. by apply nonnegative_Ok. Qed.

#[local] Open Scope nat_scope.

Abbreviation NodeTable := (gmap (nat * nat) Hash).

Section Nodes.
Context {C : Crypto}.

Definition read_node (nodes : NodeTable) (level index : nat) : RegistryResult Hash :=
  _ ← to_i64 (Z.of_nat index) "node index";
  ok_or (nodes !! (level, index)) (CorruptStorage "missing Merkle node").

(** [INSERT INTO merkle_nodes]: the primary key refuses a second row. *)
Definition insert_node (nodes : NodeTable) (level index : nat) (hash : Hash) : RegistryResult NodeTable :=
  _ ← to_i64 (Z.of_nat index) "node index";
  _ ← guard (is_some (nodes !! (level, index))) Storage;
  Ok (<[(level, index) := hash]> nodes).

(** The loop [while node_index % 2 == 1]; the index halves each time, so itself is fuel enough: at zero it is even. *)
Fixpoint carry_nodes (fuel : nat) (nodes : NodeTable) (level node_index : nat) (hash : Hash) : RegistryResult NodeTable :=
  if node_index mod 2 =? 1 then
    match fuel with
    | O => Ok nodes
    | S fuel =>
        left_hash ← read_node nodes level (node_index - 1);
        let hash := node_hash left_hash hash in
        nodes ← insert_node nodes (S level) (node_index / 2) hash;
        carry_nodes fuel nodes (S level) (node_index / 2) hash
    end
  else Ok nodes.

Definition append_merkle_leaf (nodes : NodeTable) (seq : nat) (leaf : Hash) : RegistryResult NodeTable :=
  nodes ← insert_node nodes 0 seq leaf;
  carry_nodes seq nodes 0 seq leaf.

(** [split_u64]: [1 << (63 - (n - 1).leading_zeros())], for [n > 1]. *)
Definition split_u64 (n : nat) : nat := 2 ^ Nat.log2 (n - 1).

Lemma split_u64_eq n : 2 <= n -> split_u64 n = split n.
Proof. apply split_shift. Qed.

Lemma split_u64_bounds n : 1 <= split_u64 (S (S n)) < S (S n).
Proof. rewrite split_u64_eq by lia. apply split_bounds. lia. Qed.

(** [start.is_multiple_of(size)], for [size <> 0]. *)
Definition aligned (start size : nat) : bool := start mod size =? 0.

(** A single leaf is a power of two and always aligned. *)
Equations? tree_hash_range (nodes : NodeTable) (start size : nat) : RegistryResult Hash by wf size lt :=
  tree_hash_range nodes start 0 := Ok empty_root;
  tree_hash_range nodes start 1 := read_node nodes 0 start;
  tree_hash_range nodes start (S (S n)) :=
    if is_power_of_two (S (S n)) && aligned start (S (S n)) then read_node nodes (Nat.log2 (S (S n))) (start / S (S n))
    else
      left_hash ← tree_hash_range nodes start (split_u64 (S (S n)));
      right_hash ← tree_hash_range nodes (start + split_u64 (S (S n))) (S (S n) - split_u64 (S (S n)));
      Ok (node_hash left_hash right_hash).
Proof. all: pose proof (split_u64_bounds n); lia. Qed.

Definition root_for_size (nodes : NodeTable) (size : nat) : RegistryResult Hash :=
  if size =? 0 then Ok empty_root else tree_hash_range nodes 0 size.

Equations? node_inclusion_path (nodes : NodeTable) (start size index : nat) : RegistryResult (list Hash) by wf size lt :=
  node_inclusion_path nodes start 0 index := Ok [];
  node_inclusion_path nodes start 1 index := Ok [];
  node_inclusion_path nodes start (S (S n)) index :=
    let k := split_u64 (S (S n)) in
    if index <? k then
      proof ← node_inclusion_path nodes start k index;
      sibling ← tree_hash_range nodes (start + k) (S (S n) - k);
      Ok (proof ++ [sibling])
    else
      proof ← node_inclusion_path nodes (start + k) (S (S n) - k) (index - k);
      sibling ← tree_hash_range nodes start k;
      Ok (proof ++ [sibling]).
Proof. all: pose proof (split_u64_bounds n); lia. Qed.

(** Called with [1 <= old <= size] only, where fewer than two leaves are the old tree itself. *)
Equations? node_consistency_path (nodes : NodeTable) (start size old : nat) (is_root : bool) : RegistryResult (list Hash) by wf size lt :=
  node_consistency_path nodes start 0 old is_root := if is_root then Ok [] else (fun h => [h]) <$> tree_hash_range nodes start 0;
  node_consistency_path nodes start 1 old is_root := if is_root then Ok [] else (fun h => [h]) <$> tree_hash_range nodes start 1;
  node_consistency_path nodes start (S (S n)) old is_root :=
    if old =? S (S n) then if is_root then Ok [] else (fun h => [h]) <$> tree_hash_range nodes start (S (S n))
    else
      let k := split_u64 (S (S n)) in
      if old <=? k then
        proof ← node_consistency_path nodes start k old is_root;
        sibling ← tree_hash_range nodes (start + k) (S (S n) - k);
        Ok (proof ++ [sibling])
      else
        proof ← node_consistency_path nodes (start + k) (S (S n) - k) (old - k) false;
        sibling ← tree_hash_range nodes start k;
        Ok (proof ++ [sibling]).
Proof. all: pose proof (split_u64_bounds n); lia. Qed.
End Nodes.

(** * The table of a log *)

Section Correct.
Context {C : Crypto}.

(** The leaves of the complete subtree at [(level, index)]. *)
Definition block (hs : list Hash) (level index : nat) : list Hash := take (2 ^ level) (drop (index * 2 ^ level) hs).

(** The table holds one node for every complete subtree of the log, and nothing else. *)
Definition nodes_of (nodes : NodeTable) (hs : list Hash) : Prop :=
  forall level index, nodes !! (level, index) =
    if (index + 1) * 2 ^ level <=? length hs then Some (root_range (block hs level index)) else None.

Lemma nodes_of_empty : nodes_of ∅ [].
Proof.
  intros level index. rewrite lookup_empty. pose proof (Nat.pow_nonzero 2 level ltac:(done)).
  by rewrite (proj2 (Nat.leb_gt _ _)) by (cbn [length]; nia).
Qed.

(** The last block of a log, when the log ends with it. *)
Lemma block_last hs level index : (index + 1) * 2 ^ level = length hs -> block hs level index = drop (index * 2 ^ level) hs.
Proof. intros H. unfold block. apply take_ge. rewrite length_drop. lia. Qed.

Lemma block_app hs x level index : (index + 1) * 2 ^ level <= length hs -> block (hs ++ [x]) level index = block hs level index.
Proof.
  intros H. unfold block. pose proof (Nat.pow_nonzero 2 level ltac:(done)).
  rewrite drop_app_le, take_app_le by (rewrite ?length_drop; nia). done.
Qed.

Lemma length_block hs level index : (index + 1) * 2 ^ level <= length hs -> length (block hs level index) = 2 ^ level.
Proof. intros H. apply length_window. nia. Qed.

(** The nodes of level zero are the leaves. *)
Lemma block_leaf hs index h : hs !! index = Some h -> root_range (block hs 0 index) = h.
Proof. intros H. unfold block. cbn [Nat.pow]. rewrite Nat.mul_1_r, (drop_S _ _ _ H). cbn [take]. by simp root_range. Qed.

(** Two blocks make the block above them. *)
Lemma block_pair hs level index :
  (2 * index + 2) * 2 ^ level <= length hs ->
  root_range (block hs (S level) index) = node_hash (root_range (block hs level (2 * index))) (root_range (block hs level (2 * index + 1))).
Proof.
  intros H. pose proof (Nat.pow_nonzero 2 level ltac:(done)).
  rewrite <-(root_range_app _ _ level) by (rewrite !length_block by nia; lia). f_equal. unfold block.
  rewrite Nat.pow_succ_r'. replace ((2 * index + 1) * 2 ^ level) with (2 * index * 2 ^ level + 2 ^ level) by nia.
  rewrite <-drop_drop. replace (index * (2 * 2 ^ level)) with (2 * index * 2 ^ level) by nia.
  set (l := drop _ hs). replace (2 * 2 ^ level) with (2 ^ level + 2 ^ level) by lia.
  symmetry. apply take_take_drop.
Qed.

Lemma to_i64_nat (n : nat) d : (Z.of_nat n < 2 ^ 63)%Z -> to_i64 (Z.of_nat n) d = Ok (Z.of_nat n).
Proof. apply to_i64_fits. Qed.

Lemma nodes_read nodes hs level index :
  nodes_of nodes hs -> (Z.of_nat (length hs) < 2 ^ 63)%Z -> (index + 1) * 2 ^ level <= length hs ->
  read_node nodes level index = Ok (root_range (block hs level index)).
Proof.
  intros Hn Hl H. unfold read_node. pose proof (Nat.pow_nonzero 2 level ltac:(done)).
  rewrite to_i64_fits by nia. cbn [mbind result_bind]. rewrite Hn. by rewrite (proj2 (Nat.leb_le _ _)) by done.
Qed.

(** ** Reading roots and proofs *)

Section Read.
Context (nodes : NodeTable) (hs : list Hash) (Hn : nodes_of nodes hs) (Hl : (Z.of_nat (length hs) < 2 ^ 63)%Z).

Lemma tree_hash_range_eq size : forall start, start + size <= length hs ->
  tree_hash_range nodes start size = Ok (root_range (take size (drop start hs))).
Proof.
  induction size as [size IH] using lt_wf_ind. intros start H. destruct size as [|[|n]]; simp tree_hash_range.
  - by rewrite take_0.
  - rewrite (nodes_read nodes hs 0 start) by (done || (cbn [Nat.pow]; lia)). unfold block. cbn [Nat.pow]. by rewrite Nat.mul_1_r.
  - destruct (is_power_of_two (S (S n)) && aligned start (S (S n))) eqn:Ep.
    + apply andb_true_iff in Ep as [Hp Ha]. unfold is_power_of_two, aligned in *. apply andb_true_iff in Hp as [_ Hp]. b2p.
      apply Nat.Div0.div_exact in Ha. set (m := Nat.log2 (S (S n))) in *. set (q := start / S (S n)) in *.
      assert (start = q * 2 ^ m) as Es by (rewrite <-Hp; lia).
      rewrite (nodes_read nodes hs m q) by (done || (rewrite <-Hp; lia)). unfold block. by rewrite <-Es, <-Hp.
    + rewrite split_u64_eq by lia. destruct (slice_split hs start n H) as (Es & Hk & Et & Ed & Hlen). rewrite !IH by lia. cbn [mbind result_bind].
      rewrite (root_range_split (take (S (S n)) (drop start hs))) by done. by rewrite Es, Et, Ed.
Qed.

Lemma root_for_size_eq size : size <= length hs -> root_for_size nodes size = Ok (root_of (from_leaves hs) size).
Proof.
  intros H. unfold root_for_size, root_of. cbn [leaves from_leaves].
  destruct (Nat.eqb_spec size 0) as [->|].
  - cbn. done.
  - rewrite tree_hash_range_eq by lia. by rewrite drop_0.
Qed.

Lemma node_inclusion_path_eq size : forall start index, start + size <= length hs ->
  node_inclusion_path nodes start size index = Ok (path (take size (drop start hs)) index).
Proof.
  induction size as [size IH] using lt_wf_ind. intros start index H. destruct size as [|[|n]]; simp node_inclusion_path.
  - by rewrite take_0; simp path.
  - destruct (drop start hs); cbn [take]; by simp path.
  - destruct (slice_split hs start n H) as (Es & Hk & Et & Ed & Hlen). rewrite (path_split (take (S (S n)) (drop start hs))) by done.
    cbv zeta. rewrite split_u64_eq by lia. rewrite Es, Et, Ed.
    destruct (Nat.ltb_spec index (split (S (S n)))); by rewrite IH, tree_hash_range_eq by lia.
Qed.

Lemma node_consistency_path_eq size : forall start old is_root, start + size <= length hs -> 1 <= old <= size ->
  node_consistency_path nodes start size old is_root = Ok (consistency (take size (drop start hs)) old is_root).
Proof.
  induction size as [size IH] using lt_wf_ind. intros start old is_root H Ho. destruct size as [|[|n]]; [lia| |]; simp node_consistency_path.
  - pose proof (length_window hs start 1 H) as Hl1. rewrite (tree_hash_range_eq 1) by done.
    destruct (take 1 (drop start hs)) as [|h [|]]; try (simpl in Hl1; lia). simp consistency. by destruct is_root.
  - destruct (slice_split hs start n H) as (Es & Hk & Et & Ed & Hlen). rewrite (consistency_split (take (S (S n)) (drop start hs))) by done.
    rewrite length_window in * by done. destruct (old =? S (S n)) eqn:Eo.
    { rewrite (tree_hash_range_eq (S (S n))) by done. by destruct is_root. }
    apply Nat.eqb_neq in Eo. cbv zeta. rewrite split_u64_eq by lia. rewrite Et, Ed.
    destruct (Nat.leb_spec old (split (S (S n)))); by rewrite IH, tree_hash_range_eq by lia.
Qed.
End Read.

(** ** Appending *)

(** The table while a leaf is appended: the nodes of the new log up to [level]. *)
Definition nodes_upto (level : nat) (nodes : NodeTable) (hs : list Hash) : Prop :=
  forall lv ix, nodes !! (lv, ix) =
    if ((ix + 1) * 2 ^ lv <? length hs) || (((ix + 1) * 2 ^ lv =? length hs) && (lv <=? level))
    then Some (root_range (block hs lv ix)) else None.

(** The blocks a log ends with: at the next level there is one exactly when the index is odd. *)
Lemma end_block n level index lv ix :
  (index + 1) * 2 ^ level = n -> (ix + 1) * 2 ^ lv = n -> level < lv -> index mod 2 = 1.
Proof.
  intros H E Hlt. replace lv with (S (lv - S level) + level) in E by lia. rewrite Nat.pow_add_r, Nat.pow_succ_r' in E.
  pose proof (Nat.pow_nonzero 2 level ltac:(done)).
  assert (index + 1 = 2 * ((ix + 1) * 2 ^ (lv - S level))) as Ei by nia. set (q := _ * 2 ^ _) in Ei.
  pose proof (Nat.div_mod_eq index 2). pose proof (Nat.mod_upper_bound index 2). lia.
Qed.

Lemma same_end_block n lv ix ix' : (ix + 1) * 2 ^ lv = n -> (ix' + 1) * 2 ^ lv = n -> ix = ix'.
Proof. intros H E. pose proof (Nat.pow_nonzero 2 lv ltac:(done)). nia. Qed.

(** At an even index the carry is over. *)
Lemma nodes_upto_done level index nodes hs :
  (index + 1) * 2 ^ level = length hs -> index mod 2 <> 1 -> nodes_upto level nodes hs -> nodes_of nodes hs.
Proof.
  intros He Ho Hn lv ix. rewrite Hn.
  destruct (Nat.ltb_spec ((ix + 1) * 2 ^ lv) (length hs)) as [Hlt|Hge]; cbn [orb]; [by rewrite (proj2 (Nat.leb_le _ _)) by lia|].
  destruct (Nat.eqb_spec ((ix + 1) * 2 ^ lv) (length hs)) as [Ee|]; cbn [andb]; [|by rewrite (proj2 (Nat.leb_gt _ _)) by lia].
  rewrite Ee, Nat.leb_refl. destruct (Nat.leb_spec lv level); [done|]. exfalso. apply Ho. by apply (end_block _ level index lv ix He Ee).
Qed.

Lemma carry_nodes_eq hs fuel : forall level index nodes,
  (Z.of_nat (length hs) < 2 ^ 63)%Z -> index <= fuel -> (index + 1) * 2 ^ level = length hs -> nodes_upto level nodes hs ->
  exists nodes', carry_nodes fuel nodes level index (root_range (block hs level index)) = Ok nodes' /\ nodes_of nodes' hs.
Proof.
  induction fuel as [|fuel IH]; intros level index nodes Hl Hf He Hn.
  { assert (index = 0) as -> by lia. exists nodes. split; [done|]. by apply (nodes_upto_done level 0). }
  pose proof (Nat.pow_nonzero 2 level ltac:(done)) as Hp. pose proof (Nat.div_mod_eq index 2) as Hd. pose proof (Nat.mod_upper_bound index 2).
  cbn [carry_nodes]. destruct (Nat.eqb_spec (index mod 2) 1) as [Ho|Ho].
  - assert (read_node nodes level (index - 1) = Ok (root_range (block hs level (index - 1)))) as ->.
    { unfold read_node. rewrite to_i64_fits by nia. cbn [mbind result_bind]. rewrite Hn. rewrite (proj2 (Nat.ltb_lt _ _)) by nia. done. }
    cbn [mbind result_bind]. unfold insert_node. rewrite to_i64_fits by nia. cbn [mbind result_bind].
    assert ((index / 2 + 1) * 2 ^ S level = length hs) as He' by (rewrite Nat.pow_succ_r'; nia).
    assert (nodes !! (S level, index / 2) = None) as Hnone.
    { rewrite Hn, He', Nat.ltb_irrefl, Nat.eqb_refl. cbn [orb andb]. by rewrite (proj2 (Nat.leb_gt _ _)) by lia. }
    rewrite Hnone. cbn [is_some guard mbind result_bind].
    replace (node_hash _ _) with (root_range (block hs (S level) (index / 2))).
    2:{ rewrite block_pair by nia. do 2 f_equal; f_equal; lia. }
    apply IH; [done|lia|done|]. intros lv ix. destruct (decide ((S level, index / 2) = (lv, ix))) as [[<- <-]%pair_equal_spec|Hne].
    + rewrite lookup_insert_eq, He', Nat.eqb_refl, Nat.leb_refl. cbn [andb]. by rewrite orb_true_r.
    + rewrite lookup_insert_ne, Hn by done. destruct ((ix + 1) * 2 ^ lv <? length hs); [done|]. cbn [orb].
      destruct (Nat.eqb_spec ((ix + 1) * 2 ^ lv) (length hs)) as [Ee|]; [|done]. cbn [andb].
      destruct (Nat.leb_spec lv level), (Nat.leb_spec lv (S level)); try done; try lia.
      exfalso. apply Hne. assert (lv = S level) as -> by lia. f_equal. by apply (same_end_block _ _ _ _ He' Ee).
  - exists nodes. split; [done|]. by apply (nodes_upto_done level index).
Qed.

(** Appending a leaf to the table of a log gives the table of the longer log. *)
Lemma append_merkle_leaf_eq nodes hs leaf :
  nodes_of nodes hs -> (Z.of_nat (length hs) + 1 < 2 ^ 63)%Z ->
  exists nodes', append_merkle_leaf nodes (length hs) leaf = Ok nodes' /\ nodes_of nodes' (hs ++ [leaf]).
Proof.
  intros Hn Hl. unfold append_merkle_leaf, insert_node. rewrite to_i64_fits by lia. cbn [mbind result_bind].
  assert (nodes !! (0, length hs) = None) as -> by (rewrite Hn; by rewrite (proj2 (Nat.leb_gt _ _)) by (cbn; lia)).
  cbn [is_some guard mbind result_bind].
  assert (block (hs ++ [leaf]) 0 (length hs) = [leaf]) as Hb.
  { unfold block. cbn [Nat.pow]. by rewrite Nat.mul_1_r, drop_app_length. }
  assert (leaf = root_range (block (hs ++ [leaf]) 0 (length hs))) as Hleaf by (rewrite Hb; by simp root_range).
  set (nodes1 := <[(0, length hs) := leaf]> nodes).
  replace (carry_nodes _ nodes1 0 _ leaf) with (carry_nodes (length hs) nodes1 0 (length hs) (root_range (block (hs ++ [leaf]) 0 (length hs))))
    by (by rewrite <-Hleaf).
  apply carry_nodes_eq; [rewrite length_app; cbn [length]; lia|lia|rewrite length_app; cbn; lia|].
  intros lv ix. rewrite length_app. cbn [length]. destruct (decide ((0, length hs) = (lv, ix))) as [[<- <-]%pair_equal_spec|Hne].
  - unfold nodes1. rewrite lookup_insert_eq. cbn [Nat.pow]. rewrite Nat.mul_1_r, Nat.eqb_refl. cbn [Nat.leb andb]. rewrite orb_true_r. by rewrite <-Hleaf.
  - unfold nodes1. rewrite lookup_insert_ne, Hn by done. destruct (Nat.leb_spec ((ix + 1) * 2 ^ lv) (length hs)) as [Hle|Hgt].
    + rewrite (proj2 (Nat.ltb_lt _ _)) by lia. cbn [orb]. by rewrite block_app.
    + rewrite (proj2 (Nat.ltb_ge _ _)) by lia. cbn [orb]. destruct (Nat.eqb_spec ((ix + 1) * 2 ^ lv) (length hs + 1)) as [Ee|]; [|done].
      destruct (Nat.leb_spec lv 0); [|done]. exfalso. apply Hne. assert (lv = 0) as -> by lia. cbn in Ee. f_equal. lia.
Qed.
End Correct.
