(* ===== verification/RegistryStore.v ===== *)
(** The registry's database: the tables of [pigeonpost-registry/src/storage.rs] and the transactions that append to the log.

    A database is its tables.  [entries], [handle_history] and [compliance_keys] are lists in the order of their primary
    key [seq]; the projections are maps by primary key; the one-row tables are fields.  A transaction is a function to
    [RegistryResult (A * Database)], an error rolls it back.  Columns hold the integers the code writes, [UNIQUE], [CHECK] and the
    trigger on [entries] are written out where a statement meets them ([Storage] is SQLite's refusal), BLOB columns with a length check are
    arrays, and [serde_json] on an entry is the class [EntryJson].  The clock readings are arguments. *)
From stdpp Require Import sorting.
From S2P Require Import Prelude Text B32 Network Crypto Origin Token Address Compliance Handle Entry Merkle Checkpoint RegistryNodes.

Definition MAX_HANDLES_PER_SUBJECT : nat := 3.
Definition MAX_PAGE_SIZE : Z := 1000.
Definition IDENTITY_CHALLENGE_RESULT_RETENTION_MS : Z := 5 * 60 * 1000.
Definition MAX_OUTSTANDING_CHALLENGES : nat := Z.to_nat 100000.

Definition kind_str (k : EntryKind) : str :=
  match k with
  | KindHandleClaim => lit "handle_bind"
  | KindHandleRotation => lit "handle_rotate"
  | KindDirectoryAdd => lit "directory_add"
  | KindDirectoryRemove => lit "directory_remove"
  | KindComplianceKeyPublish => lit "compliance_key_publish"
  end.

(** * Rows *)

Record EntryRow := {
  er_seq : Z;
  er_version : Z;
  er_type : str;
  er_json : str;
  er_ts_ms : Z;
  er_leaf : Hash;
}.

Record BindingRow := { bi_pubkey : str; bi_subject : str; bi_seq : Z }.

Record HistoryRow := { hi_seq : Z; hi_handle : str; hi_pubkey : str; hi_subject : str }.

Record ComplianceProjection := {
  cx_key_id : bytes;
  cx_public_key : bytes;
  cx_purpose : Z;
  cx_jurisdiction : Z;
  cx_authority : arr 32;
  cx_epoch_start_ms : Z;
  cx_generation : Z;
  cx_not_before_ms : Z;
  cx_not_after_ms : Z;
  cx_published_at_ms : Z;
  cx_status : Z;
}.

Record ComplianceRow := { ck_seq : Z; ck_projection : ComplianceProjection }.

Record DirectoryRow := { dm_mutation_sequence : Z; dm_entry_seq : Z; dm_kind : str }.

Record CheckpointRow := { cr_root : Hash; cr_note : str; cr_created_at_ms : Z }.

Record TreeState := { ts_size : Z; ts_root : Hash; ts_checkpoint : str }.

Record PublishedState := { pu_state : TreeState; pu_witnessed_at : option Z }.

Record ReceiptRow := {
  rr_tree_size : Z;
  rr_root : Hash;
  rr_witnessed_at : Z;
  rr_receipt_json : str;
  rr_updated_at_ms : Z;
}.

Record StoredIdentityChallenge := {
  ic_provider : str;
  ic_handle : str;
  ic_pubkey : arr 32;
  ic_pkce_challenge : option str;
  ic_expires_at : Z;
  ic_consumed_at : option Z;
  ic_binding_seq : option Z;
}.

#[global] Instance EntryRow_eq_dec : EqDecision EntryRow.
Proof. solve_decision. Defined.
#[global] Instance BindingRow_eq_dec : EqDecision BindingRow.
Proof. solve_decision. Defined.
#[global] Instance HistoryRow_eq_dec : EqDecision HistoryRow.
Proof. solve_decision. Defined.
#[global] Instance ComplianceProjection_eq_dec : EqDecision ComplianceProjection.
Proof. solve_decision. Defined.
#[global] Instance ComplianceRow_eq_dec : EqDecision ComplianceRow.
Proof. solve_decision. Defined.
#[global] Instance DirectoryRow_eq_dec : EqDecision DirectoryRow.
Proof. solve_decision. Defined.
#[global] Instance TreeState_eq_dec : EqDecision TreeState.
Proof. solve_decision. Defined.

Record Database := MkDatabase {
  entries : list EntryRow;
  current_bindings : gmap str BindingRow;
  handle_history : list HistoryRow;
  compliance_keys : list ComplianceRow;
  directory_mutations : gmap (str * str) DirectoryRow;
  merkle_nodes : NodeTable;
  checkpoints : gmap Z CheckpointRow;
  registry_state : TreeState;
  published_state : PublishedState;
  witness_receipts : gmap str ReceiptRow;
  identity_challenges : gmap Hash StoredIdentityChallenge;
  global_binding_admission : Z * Z;
}.

(** What an append rewrites: the log and its projections.  The other tables change one at a time. *)
Definition with_log (es : list EntryRow) (cb : gmap str BindingRow) (hh : list HistoryRow) (ck : list ComplianceRow)
  (dm : gmap (str * str) DirectoryRow) (db : Database) : Database :=
  {| entries := es; current_bindings := cb; handle_history := hh; compliance_keys := ck; directory_mutations := dm;
     merkle_nodes := merkle_nodes db; checkpoints := checkpoints db; registry_state := registry_state db;
     published_state := published_state db; witness_receipts := witness_receipts db;
     identity_challenges := identity_challenges db; global_binding_admission := global_binding_admission db |}.
Definition with_head (ns : NodeTable) (cps : gmap Z CheckpointRow) (st : TreeState) (db : Database) : Database :=
  {| entries := entries db; current_bindings := current_bindings db; handle_history := handle_history db;
     compliance_keys := compliance_keys db; directory_mutations := directory_mutations db;
     merkle_nodes := ns; checkpoints := cps; registry_state := st;
     published_state := published_state db; witness_receipts := witness_receipts db;
     identity_challenges := identity_challenges db; global_binding_admission := global_binding_admission db |}.
Definition with_published (p : PublishedState) (db : Database) : Database :=
  {| entries := entries db; current_bindings := current_bindings db; handle_history := handle_history db;
     compliance_keys := compliance_keys db; directory_mutations := directory_mutations db;
     merkle_nodes := merkle_nodes db; checkpoints := checkpoints db; registry_state := registry_state db;
     published_state := p; witness_receipts := witness_receipts db;
     identity_challenges := identity_challenges db; global_binding_admission := global_binding_admission db |}.
Definition with_receipts (rs : gmap str ReceiptRow) (db : Database) : Database :=
  {| entries := entries db; current_bindings := current_bindings db; handle_history := handle_history db;
     compliance_keys := compliance_keys db; directory_mutations := directory_mutations db;
     merkle_nodes := merkle_nodes db; checkpoints := checkpoints db; registry_state := registry_state db;
     published_state := published_state db; witness_receipts := rs;
     identity_challenges := identity_challenges db; global_binding_admission := global_binding_admission db |}.
Definition with_challenges (cs : gmap Hash StoredIdentityChallenge) (db : Database) : Database :=
  {| entries := entries db; current_bindings := current_bindings db; handle_history := handle_history db;
     compliance_keys := compliance_keys db; directory_mutations := directory_mutations db;
     merkle_nodes := merkle_nodes db; checkpoints := checkpoints db; registry_state := registry_state db;
     published_state := published_state db; witness_receipts := witness_receipts db;
     identity_challenges := cs; global_binding_admission := global_binding_admission db |}.
Definition with_admission (a : Z * Z) (db : Database) : Database :=
  {| entries := entries db; current_bindings := current_bindings db; handle_history := handle_history db;
     compliance_keys := compliance_keys db; directory_mutations := directory_mutations db;
     merkle_nodes := merkle_nodes db; checkpoints := checkpoints db; registry_state := registry_state db;
     published_state := published_state db; witness_receipts := witness_receipts db;
     identity_challenges := identity_challenges db; global_binding_admission := a |}.

(** A transaction that returns an error is rolled back. *)
Definition transact {A} (db : Database) (r : RegistryResult (A * Database)) : RegistryResult A * Database :=
  match r with Ok (a, db') => (Ok a, db') | Err e => (Err e, db) end.

(** * serde_json *)

Class EntryJson := {
  entry_to_string : LogEntry -> option str;
  entry_from_str : str -> option LogEntry;
}.

(** An entry reads back from the JSON it was written to. *)
Class EntryJsonLaws `{EntryJson} : Prop :=
  entry_json e json : entry_to_string e = Some json -> entry_from_str json = Some e.

(** * Helpers *)

Definition malformed_entry {A} (r : result EntryError A) : RegistryResult A := map_err InvalidEntry r.

(** [u8::from_str_radix(chunk, 16)] on the chunks of two bytes; a leading plus sign is accepted. *)
Definition hex_chunk (a b : byte) : option byte :=
  if a ≟ "+"%byte then to_u8 <$> to_digit 16 b
  else high ← to_digit 16 a; low ← to_digit 16 b; Some (to_u8 (16 * high + low)).
Fixpoint hex_chunks (input : str) : option bytes :=
  match input with
  | a :: b :: rest => byte ← hex_chunk a b; bs ← hex_chunks rest; Some (byte :: bs)
  | _ => Some []
  end.
Definition storage_decode_hex (input : str) (len : nat) : option bytes :=
  if negb (length input =? 2 * len)%nat then None else hex_chunks input.

Definition secret_option_eq (left right : option str) : bool := left ≟ right.

(** * Reading *)

Section Store.
Context {C : Crypto} {UP : UrlParser} {EJ : EntryJson}.

Definition load_state (db : Database) : RegistryResult TreeState :=
  let st := registry_state db in
  size ← nonnegative (ts_size st) "tree size";
  Ok {| ts_size := size; ts_root := ts_root st; ts_checkpoint := ts_checkpoint st |}.

Definition load_published_state (db : Database) : RegistryResult PublishedState :=
  let st := pu_state (published_state db) in
  size ← nonnegative (ts_size st) "published tree size";
  witnessed_at ← match pu_witnessed_at (published_state db) with
                 | Some value => Some <$> nonnegative value "published witness timestamp"
                 | None => Ok None
                 end;
  Ok {| pu_state := {| ts_size := size; ts_root := ts_root st; ts_checkpoint := ts_checkpoint st |};
        pu_witnessed_at := witnessed_at |}.

Definition current_binding (db : Database) (handle : str) : RegistryResult (option (Z * str * str)) :=
  match current_bindings db !! handle with
  | None => Ok None
  | Some row => seq ← nonnegative (bi_seq row) "binding sequence"; Ok (Some (seq, bi_pubkey row, bi_subject row))
  end.

(** [SELECT ... WHERE handle = ?1 AND seq < ?2 ORDER BY seq DESC LIMIT 1]. *)
Definition binding_before (db : Database) (handle : str) (upper_bound : Z) : RegistryResult (option (Z * str * str)) :=
  upper ← to_i64 upper_bound "published tree size";
  match last (filter (fun row => hi_handle row = handle /\ hi_seq row < upper) (handle_history db)) with
  | None => Ok None
  | Some row => seq ← nonnegative (hi_seq row) "binding sequence"; Ok (Some (seq, hi_pubkey row, hi_subject row))
  end.

Definition parse_entry_row (row : EntryRow) : RegistryResult LogEntry :=
  row_seq ← nonnegative (er_seq row) "entry sequence";
  version ← ok_or (if (0 <=? er_version row) && (er_version row <? 256) then Some (to_u8 (er_version row)) else None)
              (CorruptStorage "entry version is out of range");
  row_ts ← nonnegative (er_ts_ms row) "entry timestamp";
  entry ← ok_or (entry_from_str (er_json row)) (CorruptStorage "strict entry decode failed");
  _ ← guard (negb (seq entry =? row_seq) || negb (entry_version entry ≟ version) || negb (kind_str (kind entry) ≟ er_type row)
             || negb (ts_ms entry =? row_ts)) (CorruptStorage "entry columns disagree with the canonical entry");
  bytes ← malformed_entry (leaf_bytes entry);
  _ ← guard (negb (leaf_hash bytes ≟ er_leaf row)) (CorruptStorage "entry leaf hash does not match its canonical bytes");
  Ok entry.

Definition entry_at (db : Database) (seq : Z) : RegistryResult (option LogEntry) :=
  seq ← to_i64 seq "entry sequence";
  match list_find (fun row => er_seq row = seq) (entries db) with
  | None => Ok None
  | Some (_, row) => Some <$> parse_entry_row row
  end.

Fixpoint parse_rows (rows : list EntryRow) : RegistryResult (list LogEntry) :=
  match rows with
  | [] => Ok []
  | row :: rows => entry ← parse_entry_row row; rest ← parse_rows rows; Ok (entry :: rest)
  end.

Definition entries_page (db : Database) (from limit : Z) : RegistryResult (list LogEntry) :=
  let limit := Z.max 1 (Z.min limit MAX_PAGE_SIZE) in
  from ← to_i64 from "entry sequence";
  limit ← to_i64 limit "page size";
  parse_rows (take (Z.to_nat limit) (filter (fun row => from <= er_seq row) (entries db))).

Definition storage_inclusion_proof (db : Database) (index size : Z) : RegistryResult (option (list Hash)) :=
  state ← load_state db;
  if (ts_size state <? size) || (size <=? index) then Ok None
  else Some <$> node_inclusion_path (merkle_nodes db) 0 (Z.to_nat size) (Z.to_nat index).

Definition storage_consistency_proof (db : Database) (old new : Z) : RegistryResult (option (list Hash)) :=
  state ← load_state db;
  if (old =? 0) || (new <? old) || (ts_size state <? new) then Ok None
  else Some <$> node_consistency_path (merkle_nodes db) 0 (Z.to_nat new) (Z.to_nat old) true.

Definition current_directory_mutation (db : Database) (endpoint loft_pubkey : str) : RegistryResult (option (Z * Z * str)) :=
  match directory_mutations db !! (endpoint, loft_pubkey) with
  | None => Ok None
  | Some row =>
      entry_seq ← nonnegative (dm_entry_seq row) "directory entry sequence";
      mutation_sequence ← nonnegative (dm_mutation_sequence row) "directory mutation sequence";
      Ok (Some (entry_seq, mutation_sequence, dm_kind row))
  end.

(** * Appending an entry *)

(** [INSERT INTO entries], with its trigger, its checks and its primary key. *)
Definition insert_entry (row : EntryRow) (rows : list EntryRow) : RegistryResult (list EntryRow) :=
  _ ← guard (negb (er_seq row =? Z.of_nat (length rows)) || existsb (fun r => er_seq r =? er_seq row) rows
             || negb ((er_version row =? 0) || (er_version row =? 1))) Storage;
  Ok (rows ++ [row]).

Definition insert_history (row : HistoryRow) (rows : list HistoryRow) : RegistryResult (list HistoryRow) :=
  _ ← guard (existsb (fun r => hi_seq r =? hi_seq row) rows) Storage;
  Ok (rows ++ [row]).

(** [INSERT INTO current_bindings ... ON CONFLICT(handle) DO UPDATE]; [seq] is unique. *)
Definition upsert_binding (handle : str) (row : BindingRow) (rows : gmap str BindingRow) : RegistryResult (gmap str BindingRow) :=
  _ ← guard (bool_decide (map_Exists (fun h r => h <> handle /\ bi_seq r = bi_seq row) rows)) Storage;
  Ok (<[handle := row]> rows).

Definition upsert_mutation (key : str * str) (row : DirectoryRow) (rows : gmap (str * str) DirectoryRow)
  : RegistryResult (gmap (str * str) DirectoryRow) :=
  _ ← guard ((dm_mutation_sequence row <? 0) || bool_decide (map_Exists (fun k r => k <> key /\ dm_entry_seq r = dm_entry_seq row) rows)) Storage;
  Ok (<[key := row]> rows).

Definition insert_compliance (row : ComplianceRow) (rows : list ComplianceRow) : RegistryResult (list ComplianceRow) :=
  _ ← guard (existsb (fun r => ck_seq r =? ck_seq row) rows) Storage;
  Ok (rows ++ [row]).

Definition update_directory_projection (db : Database) (entry : LogEntry) : RegistryResult (gmap (str * str) DirectoryRow) :=
  match authenticated_directory_mutation entry with
  | None => Ok (directory_mutations db)
  | Some (endpoint, loft_pubkey, mutation_sequence) =>
      mutation_sequence ← to_i64 mutation_sequence "directory mutation sequence";
      entry_seq ← to_i64 (seq entry) "entry sequence";
      upsert_mutation (endpoint, loft_pubkey)
        {| dm_mutation_sequence := mutation_sequence; dm_entry_seq := entry_seq; dm_kind := kind_str (kind entry) |} (directory_mutations db)
  end.

(** The row a publication projects to. *)
Definition compliance_projection (entry : LogEntry) (publication : ComplianceKeyPublish) : RegistryResult ComplianceProjection :=
  id ← map_err (fun e => InvalidEntry (EntryFormat e)) (key_id_encode (key_id publication));
  public_key ← ok_or (storage_decode_hex (cp_public_key publication) 32) (MalformedEntry "invalid compliance public key");
  epoch ← to_i64 (epoch_start_ms (key_id publication)) "key epoch";
  start ← to_i64 (not_before_ms publication) "validity start";
  end_ ← to_i64 (not_after_ms publication) "validity end";
  published ← to_i64 (ts_ms entry) "publication timestamp";
  Ok {| cx_key_id := id; cx_public_key := public_key; cx_purpose := u8 (purpose_u8 (purpose (key_id publication)));
        cx_jurisdiction := u8 (jurisdiction_u8 (jurisdiction (key_id publication)));
        cx_authority := authority (key_id publication); cx_epoch_start_ms := epoch;
        cx_generation := generation (key_id publication); cx_not_before_ms := start; cx_not_after_ms := end_;
        cx_published_at_ms := published; cx_status := u8 (status_tag (status publication)) |}.

Definition insert_entry_rows (db : Database) (entry : LogEntry) : RegistryResult Database :=
  json ← ok_or (entry_to_string entry) Serialization;
  bytes ← malformed_entry (leaf_bytes entry);
  entry_seq ← to_i64 (seq entry) "entry sequence";
  entry_ts ← to_i64 (ts_ms entry) "entry timestamp";
  es ← insert_entry {| er_seq := entry_seq; er_version := u8 (entry_version entry); er_type := kind_str (kind entry);
                       er_json := json; er_ts_ms := entry_ts; er_leaf := leaf_hash bytes |} (entries db);
  '(hh, cb) ← match handle_binding entry with
              | None => Ok (handle_history db, current_bindings db)
              | Some (handle, pubkey, subject) =>
                  hh ← insert_history {| hi_seq := entry_seq; hi_handle := handle; hi_pubkey := pubkey; hi_subject := subject |}
                         (handle_history db);
                  cb ← upsert_binding handle {| bi_pubkey := pubkey; bi_subject := subject; bi_seq := entry_seq |}
                         (current_bindings db);
                  Ok (hh, cb)
              end;
  dm ← update_directory_projection db entry;
  ck ← match compliance_publication entry with
       | None => Ok (compliance_keys db)
       | Some publication =>
           projection ← compliance_projection entry publication;
           insert_compliance {| ck_seq := entry_seq; ck_projection := projection |} (compliance_keys db)
       end;
  Ok (with_log es cb hh ck dm db).

Definition append_entry_in_transaction (origin : str) (signing_key : Identity) (now : Z) (entry : LogEntry) (db : Database)
  : RegistryResult (TreeState * Database) :=
  state ← load_state db;
  _ ← guard (negb (seq entry =? ts_size state)) (CorruptStorage "append sequence does not equal current tree size");
  db ← insert_entry_rows db entry;
  bytes ← malformed_entry (leaf_bytes entry);
  nodes ← append_merkle_leaf (merkle_nodes db) (Z.to_nat (seq entry)) (leaf_hash bytes);
  size ← ok_or (checked_add 64 (ts_size state) 1) (CorruptStorage "tree size overflow");
  root ← root_for_size nodes (Z.to_nat size);
  let note := checkpoint_sign {| cp_origin := origin; cp_size := size; cp_root := root |} signing_key in
  tree_size ← to_i64 size "tree size";
  created ← to_i64 now "timestamp";
  _ ← guard (is_some (checkpoints db !! tree_size)) Storage;
  let state := {| ts_size := size; ts_root := root; ts_checkpoint := note |} in
  Ok (state, with_head nodes (<[tree_size := {| cr_root := root; cr_note := note; cr_created_at_ms := created |}]> (checkpoints db)) state db).

(** * Handles *)

Inductive HandleAppendMode := Register | Rotate.

Record HandleAppendRequest := {
  rq_handle : str;
  rq_pubkey : str;
  rq_subject : str;
  rq_ts_ms : Z;
  rq_mode : HandleAppendMode;
}.

(** [HandleAppend], [DirectoryAppend] and [ComplianceAppend]. *)
Record Append := { ap_seq : Z; ap_appended : bool }.

(** [SELECT COUNT(... ) FROM current_bindings WHERE subject = ?1 AND handle <> ?2]. *)
Definition held_by_subject (db : Database) (subject handle : str) : nat :=
  size (filter (fun p : str * BindingRow => bi_subject p.2 = subject /\ p.1 <> handle) (current_bindings db)).

Definition append_handle_in_transaction (origin : str) (signing_key : Identity) (now : Z) (request : HandleAppendRequest) (db : Database)
  : RegistryResult (Append * Database) :=
  state ← load_state db;
  current ← current_binding db (rq_handle request);
  _ ← guard (match rq_mode request, current with
             | Register, None => (MAX_HANDLES_PER_SUBJECT <=? held_by_subject db (rq_subject request) (rq_handle request))%nat
             | _, _ => false
             end) (HandleQuotaExceeded MAX_HANDLES_PER_SUBJECT);
  let append (entry : LogEntry) :=
    _ ← malformed_entry (entry_validate entry);
    '(_, db) ← append_entry_in_transaction origin signing_key now entry db;
    Ok ({| ap_seq := seq entry; ap_appended := true |}, db) in
  match current, rq_mode request with
  | None, Rotate => Err NotFound
  | Some (seq, existing, existing_subject), Register =>
      if (existing ≟ rq_pubkey request) && (existing_subject ≟ rq_subject request)
      then Ok ({| ap_seq := seq; ap_appended := false |}, db)
      else Err AlreadyBound
  | Some (seq, existing, existing_subject), Rotate =>
      if negb (existing_subject ≟ rq_subject request) then Err AlreadyBound
      else if existing ≟ rq_pubkey request then Ok ({| ap_seq := seq; ap_appended := false |}, db)
      else append (entry_handle_rotation (ts_size state) (rq_handle request) (rq_pubkey request) (rq_subject request) (rq_ts_ms request))
  | None, Register =>
      append (entry_handle_claim (ts_size state) (rq_handle request) (rq_pubkey request) (rq_subject request) (rq_ts_ms request))
  end.

(** * Compliance keys *)

(** The newest row of a key: [ORDER BY seq DESC LIMIT 1]. *)
Definition newest_compliance (rows : list ComplianceRow) (id : bytes) : option ComplianceRow :=
  last (filter (fun row => cx_key_id (ck_projection row) = id) rows).

Definition validate_compliance_transition (db : Database) (entry : LogEntry) : RegistryResult (option Z) :=
  publication ← ok_or (compliance_publication entry) (CorruptStorage "compliance append received another entry kind");
  id ← map_err (fun e => InvalidEntry (EntryFormat e)) (key_id_encode (key_id publication));
  match newest_compliance (compliance_keys db) id with
  | None =>
      _ ← guard (negb (status publication ≟ Active)) (MalformedEntry "the first compliance-key publication must be active");
      Ok None
  | Some previous =>
      public_key ← ok_or (storage_decode_hex (cp_public_key publication) 32) (MalformedEntry "invalid compliance public key");
      let row := ck_projection previous in
      differs ← (if negb (cx_public_key row ≟ public_key) then Ok true
                 else start ← nonnegative (cx_not_before_ms row) "previous validity start";
                      if negb (start =? not_before_ms publication) then Ok true
                      else end_ ← nonnegative (cx_not_after_ms row) "previous validity end";
                           Ok (negb (end_ =? not_after_ms publication)));
      _ ← guard differs (MalformedEntry "a compliance key status entry cannot redefine its key or validity interval");
      previous_status ← ok_or (if (0 <=? cx_status row) && (cx_status row <? 256) then Some (cx_status row) else None)
                          (CorruptStorage "previous compliance status is out of range");
      let next_status := u8 (status_tag (status publication)) in
      if next_status =? previous_status then Some <$> nonnegative (ck_seq previous) "previous compliance sequence"
      else
        _ ← guard ((next_status <=? previous_status) || negb ((status publication ≟ Retired) || (status publication ≟ Revoked)))
              (MalformedEntry "compliance key status transitions must advance active -> retired/revoked or retired -> revoked");
        Ok None
  end.

Definition append_compliance_key (origin : str) (signing_key : Identity) (now : Z) (publication : ComplianceKeyPublish) (ts_ms : Z)
  (db : Database) : RegistryResult (Append * Database) :=
  state ← load_state db;
  let seq := ts_size state in
  let entry := compliance_key seq publication ts_ms in
  _ ← malformed_entry (entry_validate entry);
  existing ← validate_compliance_transition db entry;
  match existing with
  | Some existing_seq => Ok ({| ap_seq := existing_seq; ap_appended := false |}, db)
  | None =>
      '(_, db) ← append_entry_in_transaction origin signing_key now entry db;
      Ok ({| ap_seq := seq; ap_appended := true |}, db)
  end.

(** * The directory *)

Inductive DirectoryMutation :=
| MutationAdd (payload : DirectoryAdd)
| MutationRemove (payload : DirectoryRemove).

Definition mutation_entry (seq : Z) (mutation : DirectoryMutation) (ts_ms : Z) : LogEntry :=
  match mutation with
  | MutationAdd payload => directory_add seq payload ts_ms
  | MutationRemove payload => directory_remove seq payload ts_ms
  end.

Definition exact_retry (existing entry : LogEntry) : bool :=
  match existing, entry with
  | EDirectoryAdd previous, EDirectoryAdd next => payload previous ≟ payload next
  | EDirectoryRemove previous, EDirectoryRemove next => payload previous ≟ payload next
  | _, _ => false
  end.

Definition append_directory_mutation (origin : str) (signing_key : Identity) (now : Z) (mutation : DirectoryMutation) (ts_ms : Z)
  (db : Database) : RegistryResult (Append * Database) :=
  state ← load_state db;
  let entry := mutation_entry (ts_size state) mutation ts_ms in
  _ ← malformed_entry (entry_validate entry);
  '(endpoint, loft_pubkey, mutation_sequence) ←
    ok_or (authenticated_directory_mutation entry) (MalformedEntry "directory append requires the original loft authentication");
  current ← current_directory_mutation db endpoint loft_pubkey;
  retry ← match current with
          | None =>
              match mutation with
              | MutationRemove _ => Err NotFound
              | MutationAdd _ => if 1 <? mutation_sequence then Err DirectoryReplay else Ok None
              end
          | Some (entry_seq, current_sequence, _) =>
              if mutation_sequence <? current_sequence then Err DirectoryReplay
              else if mutation_sequence =? current_sequence then
                existing ← entry_at db entry_seq;
                existing ← ok_or existing (CorruptStorage "directory projection points at a missing entry");
                if exact_retry existing entry then Ok (Some entry_seq) else Err DirectoryReplay
              else Ok None
          end;
  match retry with
  | Some entry_seq => Ok ({| ap_seq := entry_seq; ap_appended := false |}, db)
  | None =>
      '(_, db) ← append_entry_in_transaction origin signing_key now entry db;
      Ok ({| ap_seq := seq entry; ap_appended := true |}, db)
  end.

(** * A fresh database *)

(** What [create_fresh] writes.  [verify_storage] runs on it before the commit. *)
Definition fresh_database (origin : str) (signing_key : Identity) (now : Z) : RegistryResult Database :=
  let note := checkpoint_sign {| cp_origin := origin; cp_size := 0; cp_root := empty_root |} signing_key in
  let state := {| ts_size := 0; ts_root := empty_root; ts_checkpoint := note |} in
  created ← to_i64 now "timestamp";
  Ok {| entries := []; current_bindings := ∅; handle_history := []; compliance_keys := []; directory_mutations := ∅;
        merkle_nodes := ∅;
        checkpoints := {[ 0 := {| cr_root := empty_root; cr_note := note; cr_created_at_ms := created |} ]};
        registry_state := state; published_state := {| pu_state := state; pu_witnessed_at := None |};
        witness_receipts := ∅; identity_challenges := ∅; global_binding_admission := (0, 0) |}.
End Store.
