(* ===== verification/RegistryLimits.v ===== *)
(** The registry's admission limits: the per-account budget of [pigeonpost-registry/src/registry.rs], kept in memory, and the global
    binding admission of [storage.rs], reserved in the database.

    Instants are milliseconds of the monotonic clock.  A charge mutates the process's memory also when it refuses, so it
    returns the memory with the result. *)
From S2P Require Import Prelude Text B32 Reservation Crypto Compliance Handle RegistryNodes RegistryStore.

(** * Accounts *)

Definition ACCOUNT_RATE_WINDOW : Z := 60 * 1000.
Definition MAX_ACCOUNT_EXPIRATIONS_PER_CHARGE : nat := 256.

Record RegistrationLimits := {
  global_bindings_per_minute : Z;
  account_bindings_per_minute : Z;
  max_account_keys : nat;
}.

Record AccountRateBucket := { requests : Z; window_start : Z }.

Definition bucket_fresh (now : Z) : AccountRateBucket := {| requests := 0; window_start := now |}.

Definition bucket_charge (b : AccountRateBucket) (now limit : Z) : RegistryResult unit * AccountRateBucket :=
  let b := if ACCOUNT_RATE_WINDOW <=? saturating_sub now (window_start b) then bucket_fresh now else b in
  if limit <=? requests b then (Err RateLimited, b)
  else (Ok tt, {| requests := saturating_add 32 (requests b) 1; window_start := window_start b |}).

Record AccountLimiterState := {
  buckets : gmap (arr 32) AccountRateBucket;
  expirations : list (Z * arr 32);
}.

(** [AccountLimiterState::default] *)
Definition limiter_new : AccountLimiterState := {| buckets := ∅; expirations := [] |}.

Definition schedule (k : arr 32) (start : Z) (st : AccountLimiterState) : AccountLimiterState :=
  {| buckets := buckets st; expirations := expirations st ++ [(start + ACCOUNT_RATE_WINDOW, k)] |}.

(** One bucket whose deadline has passed: kept when it has begun a newer window. *)
Definition expire_bucket (now expires : Z) (k : arr 32) (m : gmap (arr 32) AccountRateBucket) : gmap (arr 32) AccountRateBucket :=
  match m !! k with
  | Some b =>
      let current_expiry := window_start b + ACCOUNT_RATE_WINDOW in
      if (current_expiry <=? now) && (current_expiry =? expires) then delete k m else m
  | None => m
  end.

Fixpoint reclaim_loop (fuel : nat) (now : Z) (st : AccountLimiterState) : AccountLimiterState :=
  match fuel with
  | O => st
  | S fuel =>
      match expirations st with
      | [] => st
      | (expires, k) :: rest =>
          if now <? expires then st
          else reclaim_loop fuel now {| buckets := expire_bucket now expires k (buckets st); expirations := rest |}
      end
  end.

(** The early return on a first deadline in the future is the loop's first test. *)
Definition reclaim_expired (now : Z) (st : AccountLimiterState) : AccountLimiterState :=
  reclaim_loop MAX_ACCOUNT_EXPIRATIONS_PER_CHARGE now st.

Section Account.
Context {C : Crypto}.

Definition account_key (namespace opaque_id : str) : arr 32 :=
  sha256 (lit "pigeonpost/provider-account-rate-limit/v1" ++ [x00] ++ be_bytes 8 (Z.of_nat (length namespace)) ++ namespace
          ++ be_bytes 8 (Z.of_nat (length opaque_id)) ++ opaque_id).

Definition charge_at (limits : RegistrationLimits) (namespace opaque_id : str) (now : Z) (st : AccountLimiterState)
  : RegistryResult unit * AccountLimiterState :=
  let k := account_key namespace opaque_id in
  let st := reclaim_expired now st in
  match buckets st !! k with
  | Some bucket =>
      let '(r, bucket') := bucket_charge bucket now (account_bindings_per_minute limits) in
      let st := {| buckets := <[k := bucket']> (buckets st); expirations := expirations st |} in
      match r with
      | Err e => (Err e, st)
      | Ok _ => (Ok tt, if negb (window_start bucket' =? window_start bucket) then schedule k (window_start bucket') st else st)
      end
  | None =>
      if (max_account_keys limits <=? size (buckets st))%nat then (Err RateLimited, st)
      else
        let '(r, bucket) := bucket_charge (bucket_fresh now) now (account_bindings_per_minute limits) in
        match r with
        | Err e => (Err e, st)
        | Ok _ => (Ok tt, schedule k now {| buckets := <[k := bucket]> (buckets st); expirations := expirations st |})
        end
  end.
End Account.

(** * The global admission *)

Definition GLOBAL_BINDING_ADMISSION_BATCH_SIZE : Z := 64.

Record GlobalBindingAdmissionLease := {
  gl_minute : Z;
  gl_limit : Z;
  gl_remaining : Z;
  gl_reserved_through : Z;
}.

Record GlobalBindingAdmissionBatch := {
  highest_requested_minute : Z;
  gb_durable_high_water : option (Z * Z);
  gb_lease : option GlobalBindingAdmissionLease;
}.

(** [GlobalBindingAdmissionBatch::default] *)
Definition admission_new : GlobalBindingAdmissionBatch :=
  {| highest_requested_minute := 0; gb_durable_high_water := None; gb_lease := None |}.

Definition set_lease (l : option GlobalBindingAdmissionLease) (b : GlobalBindingAdmissionBatch) : GlobalBindingAdmissionBatch :=
  {| highest_requested_minute := highest_requested_minute b; gb_durable_high_water := gb_durable_high_water b; gb_lease := l |}.
Definition set_high_water (o : Z * Z) (b : GlobalBindingAdmissionBatch) : GlobalBindingAdmissionBatch :=
  {| highest_requested_minute := highest_requested_minute b; gb_durable_high_water := Some o; gb_lease := gb_lease b |}.
Definition to_minute (minute : Z) (b : GlobalBindingAdmissionBatch) : GlobalBindingAdmissionBatch :=
  {| highest_requested_minute := minute; gb_durable_high_water := gb_durable_high_water b; gb_lease := None |}.

(** The order of tuples. *)
Definition tuple_ltb (x y : Z * Z) : bool := (x.1 <? y.1) || ((x.1 =? y.1) && (x.2 <? y.2)).

Definition validate_global_binding_observation (b : GlobalBindingAdmissionBatch) (observed : Z * Z)
  : RegistryResult unit * GlobalBindingAdmissionBatch :=
  match gb_durable_high_water b with
  | Some high_water =>
      if tuple_ltb observed high_water then (Err RegistryUnavailable, set_lease None b)
      else if tuple_ltb high_water observed then (Ok tt, set_high_water observed b)
      else (Ok tt, b)
  | None => (Ok tt, set_high_water observed b)
  end.

Definition load_global_binding_admission (row : Z * Z) : RegistryResult (Z * Z) :=
  admissions ← nonnegative row.2 "global binding admissions";
  _ ← guard (2 ^ 32 <=? admissions) (CorruptStorage "global binding admission count is oversized");
  minute ← nonnegative row.1 "global binding admission minute";
  Ok (minute, admissions).

Definition usable_global_lease (minute limit : Z) (b : GlobalBindingAdmissionBatch) : option GlobalBindingAdmissionLease :=
  match gb_lease b with
  | Some l => if (gl_minute l =? minute) && (gl_limit l =? limit) && (0 <? gl_remaining l) then Some l else None
  | None => None
  end.

(** What the transaction reserves, and the row it leaves; the table's check refuses a count above a million. *)
Definition reserve_global (minute limit : Z) (stored : Z * Z) : RegistryResult (Z * (Z * Z)) :=
  let admitted := if stored.1 <? minute then 0 else stored.2 in
  available ← ok_or (checked_sub limit admitted) RateLimited;
  _ ← guard (available =? 0) RateLimited;
  let reserved := Z.min available GLOBAL_BINDING_ADMISSION_BATCH_SIZE in
  next ← ok_or (checked_add 32 admitted reserved) (CorruptStorage "global binding admission count overflowed");
  window ← to_i64 minute "global binding admission minute";
  _ ← to_i64 stored.1 "stored global binding admission minute";
  _ ← guard (1000000 <? next) Storage;
  Ok (reserved, (window, next)).

(** The part after the leases: [stored] is the row the transaction reads. *)
Definition charge_reserved (minute limit : Z) (b : GlobalBindingAdmissionBatch) (stored : Z * Z)
  : RegistryResult unit * GlobalBindingAdmissionBatch * (Z * Z) :=
  let b := set_lease None b in
  match load_global_binding_admission stored with
  | Err e => (Err e, b, stored)
  | Ok _ =>
      match validate_global_binding_observation b stored with
      | (Err e, b) => (Err e, b, stored)
      | (Ok _, b) =>
          if minute <? stored.1 then
            (Err RegistryUnavailable,
             {| highest_requested_minute := stored.1; gb_durable_high_water := gb_durable_high_water b; gb_lease := gb_lease b |}, stored)
          else
            match reserve_global minute limit stored with
            | Err e => (Err e, b, stored)
            | Ok (reserved, row) =>
                let l := {| gl_minute := minute; gl_limit := limit; gl_remaining := reserved - 1; gl_reserved_through := row.2 |} in
                (Ok tt, set_high_water row (set_lease (Some l) b), row)
            end
      end
  end.

(** [observed] is the row the plain read sees, [stored] the row inside the transaction: other processes may have moved it. *)
Definition charge_global_binding_admission (timestamp_ms limit : Z) (observed : Z * Z) (b : GlobalBindingAdmissionBatch) (stored : Z * Z)
  : RegistryResult unit * GlobalBindingAdmissionBatch * (Z * Z) :=
  if limit =? 0 then (Err (InvalidConfiguration "global binding admission limit must not be zero"), b, stored)
  else
    let minute := timestamp_ms / 60000 in
    if minute <? highest_requested_minute b then (Err RegistryUnavailable, b, stored)
    else
      let b := if highest_requested_minute b <? minute then to_minute minute b else b in
      match load_global_binding_admission observed with
      | Err e => (Err e, b, stored)
      | Ok _ =>
          match validate_global_binding_observation b observed with
          | (Err e, b) => (Err e, b, stored)
          | (Ok _, b) =>
              let b := if highest_requested_minute b <? observed.1 then to_minute observed.1 b else b in
              if minute <? observed.1 then (Err RegistryUnavailable, b, stored)
              else
                match usable_global_lease minute limit b with
                | Some l =>
                    if negb (observed.1 =? minute) || (observed.2 <? gl_reserved_through l)
                    then (Err RegistryUnavailable, set_lease None b, stored)
                    else (Ok tt, set_lease (Some {| gl_minute := gl_minute l; gl_limit := gl_limit l; gl_remaining := gl_remaining l - 1;
                                                     gl_reserved_through := gl_reserved_through l |}) b, stored)
                | None => charge_reserved minute limit b stored
                end
          end
      end.

(** ** Memory is bounded *)

(** The limiter's memory: few enough buckets, none over budget, each with a deadline queued that will reclaim it. *)
Record limiter_inv (limits : RegistrationLimits) (st : AccountLimiterState) : Prop := {
  lm_size : (size (buckets st) <= max_account_keys limits)%nat;
  lm_requests : map_Forall (fun _ b => 0 <= requests b <= account_bindings_per_minute limits) (buckets st);
  lm_queued : map_Forall (fun k b => (window_start b + ACCOUNT_RATE_WINDOW, k) ∈ expirations st) (buckets st);
}.

Lemma expire_bucket_inv limits now expires k m rest :
  limiter_inv limits {| buckets := m; expirations := (expires, k) :: rest |} -> expires <= now ->
  limiter_inv limits {| buckets := expire_bucket now expires k m; expirations := rest |}.
Proof.
  intros [Hs Hr Hq] Hexp. cbn [buckets expirations] in *. unfold expire_bucket. destruct (m !! k) as [b|] eqn:Eb.
  - assert ((window_start b + ACCOUNT_RATE_WINDOW =? expires) = true \/ (window_start b + ACCOUNT_RATE_WINDOW, k) ∈ rest) as Hb.
    { pose proof (Hq k b Eb) as Hin. cbn in Hin. apply elem_of_cons in Hin as [E|Hin]; [left|by right]. apply Z.eqb_eq. congruence. }
    destruct (_ && _) eqn:Ec.
    + split; cbn [buckets expirations].
      * rewrite map_size_delete, Eb. lia.
      * by apply map_Forall_delete.
      * intros k' b' Hb'. apply lookup_delete_Some in Hb' as [Hne Hb']. pose proof (Hq k' b' Hb') as Hin. cbn in Hin.
        apply elem_of_cons in Hin as [E|Hin]; [congruence|done].
    + split; cbn; [done|done|]. intros k' b' Hb'. pose proof (Hq k' b' Hb') as Hin. cbn in Hin. apply elem_of_cons in Hin as [E|Hin]; [|done].
      injection E as E ->. rewrite Eb in Hb'. injection Hb' as ->. destruct Hb as [Hb|Hb]; [|done].
      rewrite Hb, andb_true_r in Ec. b2p. lia.
  - split; cbn; [done|done|]. intros k' b' Hb'. pose proof (Hq k' b' Hb') as Hin. cbn in Hin. apply elem_of_cons in Hin as [E|Hin]; [|done].
    injection E as _ ->. congruence.
Qed.

Lemma reclaim_inv limits fuel : forall now st, limiter_inv limits st -> limiter_inv limits (reclaim_loop fuel now st).
Proof.
  induction fuel as [|fuel IH]; intros now st I; [done|]. cbn [reclaim_loop]. destruct (expirations st) as [|[expires k] rest] eqn:Ee; [done|].
  destruct (Z.ltb_spec now expires); [done|]. apply IH, expire_bucket_inv; [|done]. by rewrite <-Ee; destruct st.
Qed.

Lemma reclaim_expired_inv limits now st : limiter_inv limits st -> limiter_inv limits (reclaim_expired now st).
Proof. apply reclaim_inv. Qed.

Lemma bucket_charge_inv b now limit r b' :
  1 <= limit < 2 ^ 32 -> 0 <= requests b <= limit -> bucket_charge b now limit = (r, b') ->
  0 <= requests b' <= limit /\ (window_start b' = window_start b \/ (r = Ok tt /\ window_start b' = now)).
Proof.
  intros Hl Hb. unfold bucket_charge. destruct (ACCOUNT_RATE_WINDOW <=? _); cbn [requests window_start bucket_fresh]; intros H.
  - rewrite (proj2 (Z.leb_gt limit 0)) in H by lia. injection H as <- <-. unfold saturating_add. cbn. split; [lia|by right].
  - destruct (Z.leb_spec limit (requests b)); injection H as <- <-; cbn; [auto|]. unfold saturating_add. split; [lia|by left].
Qed.

Lemma charge_at_inv {C : Crypto} limits ns id now st r st' :
  1 <= account_bindings_per_minute limits < 2 ^ 32 ->
  limiter_inv limits st -> charge_at limits ns id now st = (r, st') -> limiter_inv limits st'.
Proof.
  intros Hl I%(reclaim_expired_inv limits now) H. unfold charge_at in H. cbv zeta in H. revert I H.
  generalize (reclaim_expired now st) (account_key ns id). intros st1 k [Hs Hr Hq] H.
  destruct (buckets st1 !! k) as [b|] eqn:Eb.
  - destruct (bucket_charge b now _) as [r1 b1] eqn:Ec. apply bucket_charge_inv in Ec as [Hb1 Hw]; [|done|by apply (Hr k)].
    assert (size (<[k := b1]> (buckets st1)) = size (buckets st1)) as Es by (rewrite map_size_insert, Eb; done).
    assert (forall q, (window_start b1 + ACCOUNT_RATE_WINDOW, k) ∈ q -> (forall x, x ∈ expirations st1 -> x ∈ q) ->
      limiter_inv limits {| buckets := <[k := b1]> (buckets st1); expirations := q |}) as Hi.
    { intros q Hin Hsub. split; cbn [buckets expirations]; [lia|by apply map_Forall_insert_2|]. apply map_Forall_insert_2; [done|].
      intros k' b' Hb'. apply Hsub. by apply (Hq k'). }
    pose proof (Hq k b Eb) as Hold. cbn in Hold.
    destruct r1 as [[]|e]; injection H as <- <-.
    + destruct (Z.eqb_spec (window_start b1) (window_start b)) as [E|E]; cbn [negb].
      * apply Hi; [by rewrite E|done].
      * unfold schedule. cbn [buckets expirations]. apply Hi; set_solver.
    + destruct Hw as [Hw|[? _]]; [|done]. apply Hi; [by rewrite Hw|done].
  - destruct (Nat.leb_spec (max_account_keys limits) (size (buckets st1))); [injection H as <- <-; by split|].
    destruct (bucket_charge (bucket_fresh now) now _) as [r1 b1] eqn:Ec.
    apply bucket_charge_inv in Ec as [Hb1 Hw]; [|done|cbn; lia].
    destruct r1 as [[]|e]; injection H as <- <-; [|by split].
    assert (window_start b1 = now) as Hw' by (destruct Hw as [Hw|[_ Hw]]; done).
    unfold schedule. split; cbn [buckets expirations].
    + rewrite map_size_insert, Eb. lia.
    + by apply map_Forall_insert_2.
    + apply map_Forall_insert_2; [rewrite Hw'; set_solver|]. intros k' b' Hb'. pose proof (Hq k' b' Hb') as Hin. cbn in Hin. set_solver.
Qed.

(** ** Processes that share a database *)

Definition global_lease (b : GlobalBindingAdmissionBatch) : option (Z * Z) := (fun l => (gl_minute l, gl_remaining l)) <$> gb_lease b.

(** The row, the processes' memories, every value the row has held, and the minutes of the granted slots. *)
Record AdmissionNode := {
  an_row : Z * Z;
  an_processes : gmap nat GlobalBindingAdmissionBatch;
  an_history : list (Z * Z);
  an_granted : list Z;
}.

Definition admission_started (row : Z * Z) : AdmissionNode := {| an_row := row; an_processes := ∅; an_history := [row]; an_granted := [] |}.

Inductive admission_step (max_limit : Z) (n : AdmissionNode) : AdmissionNode -> Prop :=
| admission_charge p timestamp_ms limit observed r b row :
    0 <= limit <= max_limit -> observed ∈ an_history n ->
    charge_global_binding_admission timestamp_ms limit observed (default admission_new (an_processes n !! p)) (an_row n) = (r, b, row) ->
    admission_step max_limit n
      {| an_row := row; an_processes := <[p := b]> (an_processes n); an_history := row :: an_history n;
         an_granted := if is_ok r then timestamp_ms / 60000 :: an_granted n else an_granted n |}
| admission_restart p :
    admission_step max_limit n
      {| an_row := an_row n; an_processes := delete p (an_processes n); an_history := an_history n; an_granted := an_granted n |}.

Definition admission_node (n : AdmissionNode) : Node GlobalBindingAdmissionBatch :=
  {| nd_row := an_row n; nd_processes := an_processes n; nd_granted := an_granted n |}.

Lemma observation_lease b o r b' : validate_global_binding_observation b o = (r, b') -> gb_lease b' = None \/ gb_lease b' = gb_lease b.
Proof.
  unfold validate_global_binding_observation. intros E.
  repeat (step_case_in E; try discriminate); injection E as <- <-; simpl; auto.
Qed.

Lemma to_minute_lease (c : bool) m b : gb_lease (if c then to_minute m b else b) = None \/ gb_lease (if c then to_minute m b else b) = gb_lease b.
Proof. destruct c; auto. Qed.

Lemma reserve_global_Ok minute limit stored k row :
  reserve_global minute limit stored = Ok (k, row) ->
  1 <= k /\ row = (minute, (if stored.1 <? minute then 0 else stored.2) + k) /\ row.2 <= limit.
Proof.
  unfold reserve_global. intros E. inv_ok. repeat match goal with H : to_i64 _ _ = Ok _ |- _ => apply to_i64_range in H as [_ ->] end.
  apply pair_eq in E as [<- <-]. unfold checked_sub, checked_add in *. repeat case_match; simplify_eq; b2p; simpl.
  all: unfold GLOBAL_BINDING_ADMISSION_BATCH_SIZE in *; (split; [lia|]); (split; [|lia]); f_equal; lia.
Qed.

(** The row the table's checks admit. *)
Definition admission_ok (row : Z * Z) : Prop := 0 <= row.1 /\ 0 <= row.2 <= 1000000.

Lemma reserve_global_row minute limit stored k row :
  admission_ok stored -> stored.1 <= minute -> reserve_global minute limit stored = Ok (k, row) -> admission_ok row.
Proof.
  intros [H1 H2] Hm E. pose proof (reserve_global_Ok _ _ _ _ _ E) as (Hk & -> & _). split; [cbn; lia|]. cbn.
  unfold reserve_global in E. inv_ok. repeat match goal with H : to_i64 _ _ = Ok _ |- _ => apply to_i64_range in H as [_ ->] end.
  apply pair_eq in E as [_ [_ E]%pair_eq]. b2p. unfold checked_add in *. repeat case_match; simplify_eq; lia.
Qed.

(** Charging leaves a row the table admits. *)
Lemma charge_reserved_row minute limit b stored r b' row :
  admission_ok stored -> charge_reserved minute limit b stored = (r, b', row) -> admission_ok row.
Proof.
  intros Hs E. unfold charge_reserved in E. repeat (step_case_in E; try by (injection E as _ _ <-)). injection E as _ _ <-. b2p.
  eapply reserve_global_row; [done| |done]. lia.
Qed.

Lemma charge_global_row timestamp_ms limit observed b stored r b' row :
  admission_ok stored -> charge_global_binding_admission timestamp_ms limit observed b stored = (r, b', row) -> admission_ok row.
Proof.
  intros Hs E. unfold charge_global_binding_admission in E. repeat (step_case_in E; try by (injection E as _ _ <-)).
  all: by eapply charge_reserved_row.
Qed.

Lemma load_admission_ok row : admission_ok row -> is_ok (load_global_binding_admission row) = true.
Proof.
  intros [H1 H2]. unfold load_global_binding_admission. rewrite !nonnegative_fits by lia. cbn [mbind result_bind].
  rewrite (proj2 (Z.leb_gt _ _)) by lia. done.
Qed.

Lemma kept_lease_refuses minute limit b stored b' :
  gb_lease b' = None \/ gb_lease b' = gb_lease b -> grant_effect global_lease minute limit b stored false b' stored.
Proof. intros H. apply grant_refused. unfold global_lease. destruct H as [-> | ->]; auto. Qed.

Lemma charge_reserved_grants minute limit b b0 stored r b' row :
  charge_reserved minute limit b stored = (r, b', row) -> grant_effect global_lease minute limit b0 stored (is_ok r) b' row.
Proof.
  unfold charge_reserved. intros E.
  destruct (load_global_binding_admission stored); [|injection E as <- <- <-; apply kept_lease_refuses; by left].
  destruct (validate_global_binding_observation _ stored) as [[|] b1] eqn:V;
    apply observation_lease in V; cbn [gb_lease set_lease] in V;
    assert (gb_lease b1 = None) as V' by (by destruct V); [|injection E as <- <- <-; apply kept_lease_refuses; by left].
  destruct (minute <? stored.1) eqn:Hw; [injection E as <- <- <-; apply kept_lease_refuses; by left|].
  destruct (reserve_global minute limit stored) as [[k row']|] eqn:R; injection E as <- <- <-; [|apply kept_lease_refuses; by left].
  b2p. apply reserve_global_Ok in R as (Hk & -> & Hr). eapply grant_reserved; done.
Qed.

Lemma charge_global_grants timestamp_ms limit observed b stored r b' row :
  charge_global_binding_admission timestamp_ms limit observed b stored = (r, b', row) ->
  grant_effect global_lease (timestamp_ms / 60000) limit b stored (is_ok r) b' row.
Proof.
  unfold charge_global_binding_admission. intros E. set (minute := timestamp_ms / 60000) in *. clearbody minute.
  case_match; [injection E as <- <- <-; apply kept_lease_refuses; by right|].
  case_match; [injection E as <- <- <-; apply kept_lease_refuses; by right|].
  set (b1 := if highest_requested_minute b <? minute then _ else b) in E.
  assert (gb_lease b1 = None \/ gb_lease b1 = gb_lease b) as L1 by apply to_minute_lease. clearbody b1.
  destruct (load_global_binding_admission observed); [|injection E as <- <- <-; by apply kept_lease_refuses].
  destruct (validate_global_binding_observation b1 observed) as [[|] b2] eqn:V; apply observation_lease in V;
    assert (gb_lease b2 = None \/ gb_lease b2 = gb_lease b) as L2 by (destruct V as [V|V]; rewrite V; auto);
    [|injection E as <- <- <-; by apply kept_lease_refuses].
  set (b3 := if highest_requested_minute b2 <? observed.1 then _ else b2) in E.
  assert (gb_lease b3 = None \/ gb_lease b3 = gb_lease b) as L3
    by (destruct (to_minute_lease (highest_requested_minute b2 <? observed.1) observed.1 b2) as [L|L]; subst b3; rewrite L; auto).
  clearbody b3.
  case_match; [injection E as <- <- <-; by apply kept_lease_refuses|].
  destruct (usable_global_lease _ _ b3) as [l|] eqn:U; [|by eapply charge_reserved_grants].
  unfold usable_global_lease in U. destruct (gb_lease b3) as [l'|] eqn:Hl; [|done]. destruct (_ && _) eqn:Hc; [|done]. injection U as ->. b2p.
  destruct L3 as [L3|L3]; [congruence|].
  case_match; injection E as <- <- <-; [apply kept_lease_refuses; by left|]. eapply grant_spent; unfold global_lease; [by rewrite <-L3; cbn; subst|done|by cbn; subst].
Qed.

(** The bindings admitted in one UTC minute stay within the limit across processes, crashes and restarts. *)
Theorem global_admission_bounded (max_limit : Z) (row : Z * Z) (n : AdmissionNode) (minute : Z) :
  0 <= max_limit -> 0 <= row.2 ->
  rtc (admission_step max_limit) (admission_started row) n ->
  granted_at minute (an_granted n) <= max_limit.
Proof.
  intros Hm Hr R. apply (grants_bounded admission_new global_lease eq_refl max_limit row (admission_node n) minute Hm Hr).
  change (node_started row) with (admission_node (admission_started row)).
  eapply rtc_congruence; [|exact R]. intros x y [p ts limit observed r b rw Hl Ho E|p].
  - apply charge_global_grants in E. by apply (grant_charge admission_new global_lease max_limit (admission_node x) p (ts / 60000) limit (is_ok r) b rw).
  - apply (grant_restart admission_new global_lease max_limit (admission_node x) p).
Qed.
