(* ===== verification/RegistryFlows.v ===== *)
(** The registry's database, continued: identity challenges and the binding they authorise, witness receipts and the
    published head, and the queries for compliance keys ([pigeonpost-registry/src/storage.rs]). *)
From stdpp Require Import sorting.
From S2P Require Import Prelude Text B32 Network Crypto Origin Token Address Compliance Handle Entry Merkle Checkpoint WitnessClient RegistryNodes RegistryStore.

(** * Identity challenges *)

(** An unconsumed challenge is stale once it has expired, a consumed one when its result has been kept long enough. *)
Definition stale_challenge (now cutoff : Z) (row : StoredIdentityChallenge) : bool :=
  match ic_consumed_at row with
  | None => ic_expires_at row <? now
  | Some consumed => consumed <? cutoff
  end.

Definition expires_le (p q : Hash * StoredIdentityChallenge) : Prop := ic_expires_at p.2 <= ic_expires_at q.2.
#[global] Instance expires_le_dec : RelDecision expires_le.
Proof. unfold expires_le. intros p q. apply _. Defined.

(** [DELETE ... WHERE challenge_hash IN (SELECT ... ORDER BY expires_at_ms LIMIT 256)]; rows that expire together
    come in the order of the map. *)
Definition purge_challenges (now cutoff : Z) (rows : gmap Hash StoredIdentityChallenge) : gmap Hash StoredIdentityChallenge :=
  let stale := filter (fun p => stale_challenge now cutoff p.2 = true) (map_to_list rows) in
  foldr (fun p rows => delete p.1 rows) rows (take 256 (merge_sort expires_le stale)).

Definition outstanding (now : Z) (rows : gmap Hash StoredIdentityChallenge) : nat :=
  size (filter (fun p : Hash * StoredIdentityChallenge => ic_consumed_at p.2 = None /\ now <= ic_expires_at p.2) rows).

(** The checks of the table on a new row. *)
Definition challenge_row_ok (provider : str) (pkce_challenge : option str) : bool :=
  ((provider ≟ lit "github") && is_some pkce_challenge) || ((provider ≟ lit "google") && negb (is_some pkce_challenge)).

Definition insert_identity_challenge (now : Z) (provider : str) (challenge_hash : Hash) (handle : str) (pubkey : arr 32)
  (pkce_challenge : option str) (expires_at_ms : Z) (db : Database) : RegistryResult (unit * Database) :=
  let cutoff := saturating_sub now IDENTITY_CHALLENGE_RESULT_RETENTION_MS in
  now ← to_i64 now "timestamp";
  cutoff ← to_i64 cutoff "challenge result retention cutoff";
  let rows := purge_challenges now cutoff (identity_challenges db) in
  _ ← guard (MAX_OUTSTANDING_CHALLENGES <=? outstanding now rows)%nat
        (ProofRejected "identity challenge capacity is temporarily exhausted");
  expires ← to_i64 expires_at_ms "challenge expiry";
  _ ← guard (is_some (rows !! challenge_hash) || negb (challenge_row_ok provider pkce_challenge)) Storage;
  let row := {| ic_provider := provider; ic_handle := handle; ic_pubkey := pubkey; ic_pkce_challenge := pkce_challenge;
                ic_expires_at := expires; ic_consumed_at := None; ic_binding_seq := None |} in
  Ok (tt, with_challenges (<[challenge_hash := row]> rows) db).

Definition read_identity_challenge (db : Database) (challenge_hash : Hash) : option StoredIdentityChallenge :=
  identity_challenges db !! challenge_hash.

Definition challenge_rejected : RegistryError := ProofRejected "identity challenge is invalid, expired, or already used".

Definition validate_identity_challenge_fields (stored : StoredIdentityChallenge) (provider handle : str) (pubkey : arr 32)
  (expected_pkce_challenge : option str) : RegistryResult unit :=
  guard (negb (ic_provider stored ≟ provider) || negb (ic_handle stored ≟ handle) || negb (ic_pubkey stored ≟ pubkey)
         || negb (secret_option_eq (ic_pkce_challenge stored) expected_pkce_challenge)) challenge_rejected.

Record IdentityChallengeCommit := {
  co_provider : str;
  co_challenge_hash : Hash;
  co_pubkey : arr 32;
  co_expected_pkce_challenge : option str;
}.

(** The entry kind a mode commits. *)
Definition mode_kind (entry : LogEntry) (mode : HandleAppendMode) : bool :=
  match entry, mode with
  | EHandleClaim _, Register => true
  | EHandleRotation _, Rotate => true
  | _, _ => false
  end.

Section Flows.
Context {C : Crypto} {UP : UrlParser} {EJ : EntryJson}.

Definition validate_recovered_handle_binding (db : Database) (seq : Z) (request : HandleAppendRequest) : RegistryResult unit :=
  entry ← entry_at db seq;
  entry ← ok_or entry (CorruptStorage "challenge result points at a missing entry");
  let expected_binding := handle_binding entry ≟ Some (rq_handle request, rq_pubkey request, rq_subject request) in
  guard (negb (mode_kind entry (rq_mode request)) || negb expected_binding)
    (ProofRejected "identity challenge was already used for another binding").

(** [UPDATE identity_challenges SET ... WHERE challenge_hash = ?3 AND consumed_at_ms IS NULL AND binding_seq IS NULL]
    with its count of changed rows; [binding_seq] is unique. *)
Definition consume_challenge (challenge_hash : Hash) (consumed_at binding_seq : Z) (rows : gmap Hash StoredIdentityChallenge)
  : RegistryResult (gmap Hash StoredIdentityChallenge) :=
  match rows !! challenge_hash with
  | Some row =>
      match ic_consumed_at row, ic_binding_seq row with
      | None, None =>
          _ ← guard (bool_decide (map_Exists (fun h r => h <> challenge_hash /\ ic_binding_seq r = Some binding_seq) rows)) Storage;
          Ok (<[challenge_hash := {| ic_provider := ic_provider row; ic_handle := ic_handle row; ic_pubkey := ic_pubkey row;
                                     ic_pkce_challenge := ic_pkce_challenge row; ic_expires_at := ic_expires_at row;
                                     ic_consumed_at := Some consumed_at; ic_binding_seq := Some binding_seq |}]> rows)
      | _, _ => Err challenge_rejected
      end
  | None => Err challenge_rejected
  end.

(** The checks on the challenge before anything is written: the sequence it already committed, if it was consumed. *)
Definition check_challenge (now : Z) (challenge : IdentityChallengeCommit) (request : HandleAppendRequest) (db : Database)
  : RegistryResult (option Z) :=
  _ ← guard (negb (storage_decode_hex (rq_pubkey request) 32 ≟ Some (vec_to_list (co_pubkey challenge))))
        (CorruptStorage "challenge commit public key encoding disagrees with its bound key");
  stored ← ok_or (read_identity_challenge db (co_challenge_hash challenge)) (ProofRejected "identity challenge is unknown or expired");
  _ ← validate_identity_challenge_fields stored (co_provider challenge) (rq_handle request) (co_pubkey challenge)
        (co_expected_pkce_challenge challenge);
  if is_some (ic_consumed_at stored) then
    seq ← ok_or (ic_binding_seq stored) (CorruptStorage "consumed identity challenge has no binding result");
    seq ← nonnegative seq "challenge binding sequence";
    _ ← validate_recovered_handle_binding db seq request;
    Ok (Some seq)
  else
    expires ← nonnegative (ic_expires_at stored) "challenge expiry";
    _ ← guard (expires <? now) challenge_rejected;
    Ok None.

Definition commit_handle_binding (origin : str) (signing_key : Identity) (now created consumed : Z)
  (challenge : option IdentityChallengeCommit) (request : HandleAppendRequest) (db : Database) : RegistryResult (Append * Database) :=
  recovered ← match challenge with Some challenge => check_challenge now challenge request db | None => Ok None end;
  match recovered with
  | Some seq => Ok ({| ap_seq := seq; ap_appended := false |}, db)
  | None =>
      '(appended, db) ← append_handle_in_transaction origin signing_key created request db;
      match challenge with
      | None => Ok (appended, db)
      | Some challenge =>
          consumed ← to_i64 consumed "timestamp";
          binding_seq ← to_i64 (ap_seq appended) "challenge binding sequence";
          rows ← consume_challenge (co_challenge_hash challenge) consumed binding_seq (identity_challenges db);
          Ok (appended, with_challenges rows db)
      end
  end.

Definition validate_identity_challenge (now : Z) (provider : str) (challenge_hash : Hash) (handle : str) (pubkey : arr 32)
  (expected_pkce_challenge : option str) (db : Database) : RegistryResult (option Z) :=
  stored ← ok_or (read_identity_challenge db challenge_hash) (ProofRejected "identity challenge is unknown or expired");
  _ ← validate_identity_challenge_fields stored provider handle pubkey expected_pkce_challenge;
  _ ← (if is_some (ic_consumed_at stored) then Ok tt
       else expires ← nonnegative (ic_expires_at stored) "challenge expiry"; guard (expires <? now) challenge_rejected);
  _ ← guard (is_some (ic_consumed_at stored) && negb (is_some (ic_binding_seq stored)))
        (CorruptStorage "consumed identity challenge has no binding result");
  match ic_binding_seq stored with
  | Some seq => Some <$> nonnegative seq "challenge binding sequence"
  | None => Ok None
  end.

(** * Receipts and the published head *)

Definition save_witness_receipt (now : Z) (witness_name : str) (size : Z) (root : Hash) (witnessed_at : Z) (receipt_json : str)
  (db : Database) : RegistryResult (bool * Database) :=
  _ ← guard ((witness_name ≟ []) || (256 <? length witness_name)%nat
             || existsb (fun b => is_ascii_control b || is_ascii_whitespace b) witness_name || (witnessed_at =? 0)
             || (receipt_json ≟ []) || (64 * 1024 <? Z.of_nat (length receipt_json))) WitnessConflict;
  committed ← load_state db;
  _ ← guard (ts_size committed <? size) WitnessConflict;
  committed_root ← root_for_size (merkle_nodes db) (Z.to_nat size);
  _ ← guard (negb (hash_eq committed_root root)) WitnessConflict;
  keep ← (match witness_receipts db !! witness_name with
         | None => Ok false
         | Some old =>
             old_size ← nonnegative (rr_tree_size old) "witness receipt size";
             old_witnessed_at ← nonnegative (rr_witnessed_at old) "witness receipt timestamp";
             _ ← guard ((size <? old_size) || ((size =? old_size) && negb (hash_eq root (rr_root old)))) WitnessConflict;
             if (size =? old_size) && (witnessed_at <? old_witnessed_at) then Ok true
             else if (size =? old_size) && (witnessed_at =? old_witnessed_at) then
               _ ← guard (negb (receipt_json ≟ rr_receipt_json old)) WitnessConflict; Ok true
             else Ok false
         end);
  if keep : bool then Ok (false, db)
  else
    tree_size ← to_i64 size "witness receipt size";
    witnessed ← to_i64 witnessed_at "witness receipt timestamp";
    updated ← to_i64 now "timestamp";
    Ok (true, with_receipts (<[witness_name := {| rr_tree_size := tree_size; rr_root := root; rr_witnessed_at := witnessed;
                                                   rr_receipt_json := receipt_json; rr_updated_at_ms := updated |}]> (witness_receipts db)) db).

Definition witness_receipt_json (db : Database) (witness_name : str) : option str :=
  rr_receipt_json <$> witness_receipts db !! witness_name.

Definition name_le (p q : str * ReceiptRow) : Prop := bytes_cmp p.1 q.1 <> Gt.
#[global] Instance name_le_dec : RelDecision name_le.
Proof. unfold name_le. intros p q. apply _. Defined.

(** [ORDER BY witness_name LIMIT 64]. *)
Definition witness_receipt_jsons_at (db : Database) (size : Z) (root : Hash) : RegistryResult (list str) :=
  size ← to_i64 size "witness receipt size";
  Ok (map (fun p => rr_receipt_json p.2)
        (take 64 (merge_sort name_le
          (filter (fun p => rr_tree_size p.2 = size /\ rr_root p.2 = root) (map_to_list (witness_receipts db)))))).

Definition promote_published_state (checkpoint : Checkpoint) (note : str) (witnessed_at : Z) (db : Database)
  : RegistryResult (bool * Database) :=
  _ ← guard ((witnessed_at =? 0) || (note ≟ []) || (64 * 1024 <? Z.of_nat (length note))) WitnessConflict;
  committed ← load_state db;
  _ ← guard (ts_size committed <? cp_size checkpoint) WitnessConflict;
  committed_root ← root_for_size (merkle_nodes db) (Z.to_nat (cp_size checkpoint));
  _ ← guard (negb (hash_eq committed_root (cp_root checkpoint))) WitnessConflict;
  current ← load_published_state db;
  let old := pu_state current in
  _ ← guard ((cp_size checkpoint <? ts_size old)
             || ((cp_size checkpoint =? ts_size old) && negb (hash_eq (cp_root checkpoint) (ts_root old)))) WitnessConflict;
  if (cp_size checkpoint =? ts_size old) && match pu_witnessed_at current with Some at_ => witnessed_at <=? at_ | None => false end
  then Ok (false, db)
  else
    tree_size ← to_i64 (cp_size checkpoint) "published tree size";
    witnessed ← to_i64 witnessed_at "published witness timestamp";
    Ok (true, with_published
      {| pu_state := {| ts_size := tree_size; ts_root := cp_root checkpoint; ts_checkpoint := note |};
         pu_witnessed_at := Some witnessed |} db).
End Flows.
