(* ===== verification/RegistryServer.v ===== *)
(** The registry service over its database: [pigeonpost-registry/src/registry.rs].

    With a witness policy every public read is pinned to the published head, the last one a quorum of witnesses cosigned;
    without one it serves the committed head.  The connection's mutex makes each method one step on the database. *)
From stdpp Require Import sorting.
From S2P Require Import Prelude Text B32 Network Crypto Origin Token Address Compliance Handle Entry Merkle Checkpoint WitnessClient RegistryNodes RegistryStore RegistryFlows.

Record Registry := {
  rg_origin : str;
  rg_signing_key : Identity;
  rg_witness_policy : option WitnessPolicy;
}.

Record ProofBundle := { pb_size : Z; pb_root : Hash; pb_path : list Hash; pb_checkpoint : str }.

Record Resolved := { rs_handle : str; rs_pubkey : str; rs_index : Z; rs_inclusion : ProofBundle }.

Record LoggedDirectoryMutation := { lm_entry : LogEntry; lm_index : Z; lm_appended : bool; lm_inclusion : ProofBundle }.

Record LoggedComplianceKey := { lk_publication : ComplianceKeyPublish; lk_entry : LogEntry; lk_index : Z; lk_inclusion : ProofBundle }.

Record ComplianceKeyPublicationResult := { kr_key : LoggedComplianceKey; kr_appended : bool }.

Record WitnessPublicationStatus := { ws_committed_size : Z; ws_published_size : Z; ws_lag_entries : Z; ws_witnessed_at : option Z }.

Record ComplianceKeyQuery := {
  kq_key_id : option ComplianceKeyId;
  kq_purpose : option CompliancePurpose;
  kq_jurisdiction : option Jurisdiction;
  kq_at_ms : option Z;
  kq_include_inactive : bool;
  kq_metadata_only : bool;
}.

Record ComplianceKeySet := { kt_head : ProofBundle; kt_keys : list LoggedComplianceKey }.

(** [serde_json] on a witness receipt, which reads back from what it was written to. *)
Class ReceiptJson := {
  receipt_to_string : WitnessReceipt -> option str;
  receipt_from_str : str -> option WitnessReceipt;
}.
Class ReceiptJsonLaws `{ReceiptJson} : Prop :=
  receipt_json r json : receipt_to_string r = Some json -> receipt_from_str json = Some r.

Definition bundle_at (state : TreeState) (path : list Hash) : ProofBundle :=
  {| pb_size := ts_size state; pb_root := ts_root state; pb_path := path; pb_checkpoint := ts_checkpoint state |}.

(** * The queries of [compliance_sequences] *)

Definition live_at (at_ms : Z) (row : ComplianceProjection) : bool :=
  (cx_status row =? 1) && (cx_not_before_ms row <=? at_ms) && (at_ms <? cx_not_after_ms row).

(** The rows published by [at_ms] below the bound, and whether a row is the newest of its key among them. *)
Definition published_rows (at_ms upper_bound : Z) (rows : list ComplianceRow) : list ComplianceRow :=
  filter (fun row => cx_published_at_ms (ck_projection row) <= at_ms /\ ck_seq row < upper_bound) rows.
Definition newest_in (rows : list ComplianceRow) (row : ComplianceRow) : bool :=
  forallb (fun r => negb (cx_key_id (ck_projection r) ≟ cx_key_id (ck_projection row)) || (ck_seq r <=? ck_seq row)) rows.

Definition key_order (p q : ComplianceRow) : Prop :=
  let key r := (cx_epoch_start_ms (ck_projection r), cx_generation (ck_projection r), ck_seq r) in
  (key p).1.1 < (key q).1.1 \/
  ((key p).1.1 = (key q).1.1 /\ ((key p).1.2 < (key q).1.2 \/ ((key p).1.2 = (key q).1.2 /\ (key p).2 <= (key q).2))).
#[global] Instance key_order_dec : RelDecision key_order.
Proof. unfold key_order. intros p q. apply _. Defined.

Fixpoint nonnegative_all (values : list Z) (description : string) : RegistryResult (list Z) :=
  match values with
  | [] => Ok []
  | v :: vs => v ← nonnegative v description; vs ← nonnegative_all vs description; Ok (v :: vs)
  end.

Definition compliance_sequences (db : Database) (key_id : option ComplianceKeyId) (purpose jurisdiction : option Z) (at_ms : Z)
  (include_inactive : bool) (upper_bound : Z) : RegistryResult (list Z) :=
  match key_id with
  | Some id =>
      encoded ← map_err (fun e => InvalidEntry (EntryFormat e)) (key_id_encode id);
      at_ms ← to_i64 at_ms "historical lookup time";
      upper ← to_i64 upper_bound "published tree size";
      let rows := published_rows at_ms upper (compliance_keys db) in
      match filter (fun row => cx_key_id (ck_projection row) = encoded /\ newest_in rows row = true
                               /\ (include_inactive || live_at at_ms (ck_projection row)) = true) rows with
      | [] => Ok []
      | row :: _ => value ← nonnegative (ck_seq row) "compliance sequence"; Ok [value]
      end
  | None =>
      at_ms ← to_i64 at_ms "historical lookup time";
      upper ← to_i64 upper_bound "published tree size";
      let rows := published_rows at_ms upper (compliance_keys db) in
      let wanted := filter (fun row =>
            (match purpose with Some p => cx_purpose (ck_projection row) =? p | None => true end) = true /\
            (match jurisdiction with Some j => cx_jurisdiction (ck_projection row) =? j | None => true end) = true /\
            newest_in rows row = true /\ (include_inactive || live_at at_ms (ck_projection row)) = true) rows in
      nonnegative_all (map ck_seq (take 1000 (merge_sort key_order wanted))) "compliance sequence"
  end.

Section Server.
Context {C : Crypto} {UP : UrlParser} {EJ : EntryJson} {RJ : ReceiptJson}.
Context (rg : Registry).

Definition serving_state (db : Database) : RegistryResult TreeState :=
  match rg_witness_policy rg with
  | Some _ => pu_state <$> load_published_state db
  | None => load_state db
  end.

(** A path for an entry below the served head, and none yet for one above it. *)
Definition served_path (db : Database) (index : Z) (serving : TreeState) (missing : string) : RegistryResult (list Hash) :=
  if index <? ts_size serving then
    proof ← storage_inclusion_proof db index (ts_size serving); ok_or proof (CorruptStorage missing)
  else Ok [].

Definition resolve (handle : Handle) (db : Database) : RegistryResult Resolved :=
  state ← serving_state db;
  binding ← binding_before db (as_path handle) (ts_size state);
  '(index, pubkey, _) ← ok_or binding NotFound;
  proof ← storage_inclusion_proof db index (ts_size state);
  path ← ok_or proof (CorruptStorage "binding has no inclusion proof");
  Ok {| rs_handle := as_path handle; rs_pubkey := pubkey; rs_index := index; rs_inclusion := bundle_at state path |}.

Definition publish_compliance_key_idempotent (now created : Z) (publication : ComplianceKeyPublish) (db : Database)
  : RegistryResult ComplianceKeyPublicationResult * Database :=
  match transact db (append_compliance_key (rg_origin rg) (rg_signing_key rg) created publication now db) with
  | (Err e, db) => (Err e, db)
  | (Ok appended, db) =>
      (serving ← serving_state db;
       path ← served_path db (ap_seq appended) serving "published compliance key has no inclusion proof";
       entry ← entry_at db (ap_seq appended);
       entry ← ok_or entry (CorruptStorage "published compliance key has no log leaf");
       Ok {| kr_key := {| lk_publication := publication; lk_entry := entry; lk_index := ap_seq appended;
                          lk_inclusion := bundle_at serving path |};
             kr_appended := ap_appended appended |}, db)
  end.

Definition directory_mutation_result (db : Database) (appended : Append) : RegistryResult LoggedDirectoryMutation :=
  serving ← serving_state db;
  path ← served_path db (ap_seq appended) serving "published directory mutation has no inclusion proof";
  entry ← entry_at db (ap_seq appended);
  entry ← ok_or entry (CorruptStorage "directory mutation has no log leaf");
  _ ← guard (negb (is_some (authenticated_directory_mutation entry)))
        (CorruptStorage "directory projection points at an unauthenticated leaf");
  Ok {| lm_entry := entry; lm_index := ap_seq appended; lm_appended := ap_appended appended; lm_inclusion := bundle_at serving path |}.

(** [append_directory_add] and [append_directory_remove]. *)
Definition append_directory (now created : Z) (mutation : DirectoryMutation) (db : Database)
  : RegistryResult LoggedDirectoryMutation * Database :=
  match transact db (append_directory_mutation (rg_origin rg) (rg_signing_key rg) created mutation now db) with
  | (Err e, db) => (Err e, db)
  | (Ok appended, db) => (directory_mutation_result db appended, db)
  end.

Fixpoint compliance_records (db : Database) (state : TreeState) (sequences : list Z) : RegistryResult (list LoggedComplianceKey) :=
  match sequences with
  | [] => Ok []
  | index :: sequences =>
      entry ← entry_at db index;
      entry ← ok_or entry (CorruptStorage "compliance projection points at missing entry");
      publication ← ok_or (compliance_publication entry) (CorruptStorage "compliance projection points at non-compliance entry");
      proof ← storage_inclusion_proof db index (ts_size state);
      path ← ok_or proof (CorruptStorage "compliance entry has no inclusion proof");
      rest ← compliance_records db state sequences;
      Ok ({| lk_publication := publication; lk_entry := entry; lk_index := index; lk_inclusion := bundle_at state path |} :: rest)
  end.

Definition compliance_key_set (now : Z) (query : ComplianceKeyQuery) (db : Database) : RegistryResult ComplianceKeySet :=
  state ← serving_state db;
  sequences ← (if kq_metadata_only query then Ok []
               else compliance_sequences db (kq_key_id query) ((fun p => u8 (purpose_u8 p)) <$> kq_purpose query)
                      ((fun j => u8 (jurisdiction_u8 j)) <$> kq_jurisdiction query) (default now (kq_at_ms query))
                      (kq_include_inactive query) (ts_size state));
  records ← compliance_records db state sequences;
  Ok {| kt_head := bundle_at state []; kt_keys := records |}.

(** * The log *)

Definition registry_entry (seq : Z) (db : Database) : RegistryResult LogEntry :=
  state ← serving_state db;
  _ ← guard (ts_size state <=? seq) NotFound;
  entry ← entry_at db seq;
  ok_or entry NotFound.

Definition registry_entries (from limit : Z) (db : Database) : RegistryResult (list LogEntry) :=
  state ← serving_state db;
  if ts_size state <=? from then Ok [] else entries_page db from (Z.min limit (ts_size state - from)).

Definition dump_range_root (from to : Z) (db : Database) : RegistryResult Hash :=
  state ← serving_state db;
  _ ← guard (to <=? from) (MalformedEntry "registry dump range must be non-empty and increasing");
  _ ← guard (ts_size state <? to) NotFound;
  root_for_size (merkle_nodes db) (Z.to_nat to).

(** The loop of [dump]: every page holds at least one entry, so the size is fuel enough. *)
Fixpoint dump_pages (fuel : nat) (size from : Z) (out : list LogEntry) (db : Database) : RegistryResult (list LogEntry) :=
  if size <=? from then Ok out
  else
    match fuel with
    | O => Ok out
    | S fuel =>
        page ← entries_page db from (Z.min (size - from) MAX_PAGE_SIZE);
        match page with
        | [] => Err (CorruptStorage "log dump encountered a gap")
        | _ => dump_pages fuel size (from + Z.of_nat (length page)) (out ++ page) db
        end
    end.

Definition dump (db : Database) : RegistryResult (list LogEntry) :=
  state ← serving_state db;
  dump_pages (Z.to_nat (ts_size state)) (ts_size state) 0 [] db.

Definition head (db : Database) : RegistryResult ProofBundle :=
  state ← serving_state db; Ok (bundle_at state []).

Definition registry_consistency_proof (old_size : Z) (db : Database) : RegistryResult (option (Z * Hash * list Hash)) :=
  state ← serving_state db;
  proof ← storage_consistency_proof db old_size (ts_size state);
  Ok (option_map (fun proof => (ts_size state, ts_root state, proof)) proof).

Definition consistency_proof_between (old new : Z) (db : Database) : RegistryResult (list Hash) :=
  proof ← storage_consistency_proof db old new; ok_or proof WitnessConflict.

Definition published_consistency_proof_between (old new : Z) (db : Database) : RegistryResult (Hash * list Hash) :=
  published ← serving_state db;
  _ ← guard ((old =? 0) || (new <? old) || (ts_size published <? new))
        (MalformedEntry "consistency range must be non-zero, ordered, and within the published checkpoint");
  proof ← storage_consistency_proof db old new;
  proof ← ok_or proof (MalformedEntry "consistency range has no proof");
  root ← root_for_size (merkle_nodes db) (Z.to_nat new);
  Ok (root, proof).

(** * Witnesses *)

Definition registry_save_witness_receipt (receipt : WitnessReceipt) (now_secs now : Z) (db : Database) : RegistryResult bool * Database :=
  transact db (
    policy ← ok_or (rg_witness_policy rg) WitnessUnavailable;
    witness ← ok_or (snd <$> list_find (fun w => w_name w = rc_witness_name receipt) (wp_witnesses policy)) WitnessConflict;
    verified ← map_err (fun _ => WitnessConflict)
      (verify_with_fresh_witnesses (rc_note receipt) (verifying_key (rg_signing_key rg)) [witness] 1 now_secs
         (wp_max_cosignature_age_secs policy) (wp_future_clock_skew_secs policy));
    _ ← guard (negb (witnessed_at verified ≟ Some (rc_witnessed_at receipt))
               || negb (cp_origin (vc_checkpoint verified) ≟ rg_origin rg)
               || negb (cp_size (vc_checkpoint verified) =? rc_size receipt)
               || negb (cp_root (vc_checkpoint verified) ≟ rc_root receipt)) WitnessConflict;
    json ← ok_or (receipt_to_string receipt) Serialization;
    save_witness_receipt now (rc_witness_name receipt) (rc_size receipt) (rc_root receipt) (rc_witnessed_at receipt) json db).

Fixpoint parse_receipts (jsons : list str) : RegistryResult (list WitnessReceipt) :=
  match jsons with
  | [] => Ok []
  | json :: jsons =>
      receipt ← ok_or (receipt_from_str json) (CorruptStorage "persisted witness receipt is malformed");
      rest ← parse_receipts jsons;
      Ok (receipt :: rest)
  end.

Definition promote_witnessed_head (now_secs : Z) (db : Database) : RegistryResult bool * Database :=
  transact db (
    policy ← ok_or (rg_witness_policy rg) WitnessUnavailable;
    committed ← load_state db;
    jsons ← witness_receipt_jsons_at db (ts_size committed) (ts_root committed);
    receipts ← parse_receipts jsons;
    '(verified, note) ← map_err (fun _ => WitnessUnavailable)
      (assemble_checkpoint policy (ts_checkpoint committed) (verifying_key (rg_signing_key rg)) receipts now_secs);
    witnessed_at ← ok_or (witnessed_at verified) WitnessUnavailable;
    _ ← guard (negb (cp_origin (vc_checkpoint verified) ≟ rg_origin rg)
               || negb (cp_size (vc_checkpoint verified) =? ts_size committed)
               || negb (cp_root (vc_checkpoint verified) ≟ ts_root committed)) WitnessConflict;
    promote_published_state (vc_checkpoint verified) note witnessed_at db).

Definition witness_publication_status (db : Database) : RegistryResult WitnessPublicationStatus :=
  committed ← load_state db;
  match rg_witness_policy rg with
  | None => Ok {| ws_committed_size := ts_size committed; ws_published_size := ts_size committed; ws_lag_entries := 0;
                  ws_witnessed_at := None |}
  | Some _ =>
      published ← load_published_state db;
      Ok {| ws_committed_size := ts_size committed; ws_published_size := ts_size (pu_state published);
            ws_lag_entries := saturating_sub (ts_size committed) (ts_size (pu_state published));
            ws_witnessed_at := pu_witnessed_at published |}
  end.
End Server.
