(* ===== verification/RegistryVerify.v ===== *)
(** Opening a registry: [verify_storage] and the replay of the whole log behind it ([pigeonpost-registry/src/storage.rs]), the creation of a
    fresh database, and the checks under which a witness policy is installed ([with_witness_policy] of [registry.rs]).

    A table with an integer primary key is a list in the order of that key, as its queries read it. *)
From stdpp Require Import sorting.
From S2P Require Import Prelude Text B32 Network Crypto Origin Token Address Compliance Handle Entry Merkle Checkpoint WitnessClient RegistryNodes RegistryStore RegistryLimits RegistryFlows RegistryServer.

Section Verify.
Context {C : Crypto} {UP : UrlParser} {EJ : EntryJson} {RJ : ReceiptJson}.

(** * The replay *)

(** Where a replay stands: what is left of the two cursors, the directory it expects, and the next sequence number. *)
Record Replay := {
  rp_history : list HistoryRow;
  rp_compliance : list ComplianceRow;
  rp_directory : gmap (str * str) (Z * Z * str);
  rp_from : Z;
}.

Definition replay_history (entry : LogEntry) (rows : list HistoryRow) : RegistryResult (list HistoryRow) :=
  match handle_binding entry with
  | None => Ok rows
  | Some (handle, pubkey, subject) =>
      match rows with
      | [] => Err (CorruptStorage "handle history projection is missing a logged binding")
      | row :: rows =>
          row_seq ← nonnegative (hi_seq row) "handle history sequence";
          _ ← guard (negb ((row_seq, hi_handle row, hi_pubkey row, hi_subject row) ≟ (seq entry, handle, pubkey, subject)))
                (CorruptStorage "handle history projection disagrees with the append-only log");
          Ok rows
      end
  end.

(** The row a logged publication must have; the text of the first error is that of the format error. *)
Definition expected_projection (entry : LogEntry) (publication : ComplianceKeyPublish) : RegistryResult ComplianceProjection :=
  id ← map_err (fun _ => CorruptStorage "compliance key id") (key_id_encode (key_id publication));
  public_key ← ok_or (storage_decode_hex (cp_public_key publication) 32) (CorruptStorage "logged compliance public key is not canonical");
  epoch ← to_i64 (epoch_start_ms (key_id publication)) "compliance key epoch";
  start ← to_i64 (not_before_ms publication) "compliance validity start";
  end_ ← to_i64 (not_after_ms publication) "compliance validity end";
  published ← to_i64 (ts_ms entry) "compliance publication timestamp";
  Ok {| cx_key_id := id; cx_public_key := public_key; cx_purpose := u8 (purpose_u8 (purpose (key_id publication)));
        cx_jurisdiction := u8 (jurisdiction_u8 (jurisdiction (key_id publication)));
        cx_authority := authority (key_id publication); cx_epoch_start_ms := epoch;
        cx_generation := generation (key_id publication); cx_not_before_ms := start; cx_not_after_ms := end_;
        cx_published_at_ms := published; cx_status := u8 (status_tag (status publication)) |}.

Definition replay_compliance (entry : LogEntry) (rows : list ComplianceRow) : RegistryResult (list ComplianceRow) :=
  match compliance_publication entry with
  | None => Ok rows
  | Some publication =>
      expected ← expected_projection entry publication;
      match rows with
      | [] => Err (CorruptStorage "compliance-key projection is missing a logged publication")
      | row :: rows =>
          row_seq ← nonnegative (ck_seq row) "compliance projection sequence";
          _ ← guard (negb (row_seq =? seq entry) || negb (ck_projection row ≟ expected))
                (CorruptStorage "compliance-key projection disagrees with the append-only log");
          Ok rows
      end
  end.

Definition is_directory (entry : LogEntry) : bool :=
  match kind entry with KindDirectoryAdd | KindDirectoryRemove => true | _ => false end.

Definition replay_directory (entry : LogEntry) (expected : gmap (str * str) (Z * Z * str)) : RegistryResult (gmap (str * str) (Z * Z * str)) :=
  if is_directory entry then
    '(endpoint, loft_pubkey, mutation_sequence) ← ok_or (authenticated_directory_mutation entry)
      (CorruptStorage "directory log contains an unauthenticated mutation");
    Ok (<[(endpoint, loft_pubkey) := (mutation_sequence, seq entry, kind_str (kind entry))]> expected)
  else Ok expected.

Definition replay_entry (db : Database) (entry : LogEntry) (st : Replay) : RegistryResult Replay :=
  _ ← guard (negb (seq entry =? rp_from st)) (CorruptStorage "startup replay encountered a non-contiguous sequence");
  bytes ← malformed_entry (leaf_bytes entry);
  node ← read_node (merkle_nodes db) 0 (Z.to_nat (rp_from st));
  _ ← guard (negb (node ≟ leaf_hash bytes)) (CorruptStorage "entry payload disagrees with its Merkle leaf");
  history ← replay_history entry (rp_history st);
  compliance ← replay_compliance entry (rp_compliance st);
  directory ← replay_directory entry (rp_directory st);
  Ok {| rp_history := history; rp_compliance := compliance; rp_directory := directory; rp_from := rp_from st + 1 |}.

Fixpoint replay_page (db : Database) (page : list LogEntry) (st : Replay) : RegistryResult Replay :=
  match page with
  | [] => Ok st
  | entry :: page => st ← replay_entry db entry st; replay_page db page st
  end.

(** [while from < state.size]: a page holds at least one entry, so the size is fuel enough. *)
Fixpoint replay_loop (fuel : nat) (size : Z) (db : Database) (st : Replay) : RegistryResult Replay :=
  if size <=? rp_from st then Ok st
  else
    match fuel with
    | O => Ok st
    | S fuel =>
        page ← entries_page db (rp_from st) MAX_PAGE_SIZE;
        match page with
        | [] => Err (CorruptStorage "entry audit encountered a gap")
        | _ => st ← replay_page db page st; replay_loop fuel size db st
        end
    end.

(** * The projections *)

Definition newest_history (rows : list HistoryRow) (row : HistoryRow) : bool :=
  forallb (fun newer => negb ((hi_handle newer ≟ hi_handle row) && (hi_seq row <? hi_seq newer))) rows.

Definition same_binding (h : str) (current : BindingRow) (row : HistoryRow) : bool :=
  (hi_handle row ≟ h) && (hi_pubkey row ≟ bi_pubkey current) && (hi_subject row ≟ bi_subject current) && (hi_seq row =? bi_seq current).

(** The current rows that are no newest row of the history, and the newest rows that are not current. *)
Definition unlogged_bindings (db : Database) : nat :=
  length (filter (fun p : str * BindingRow =>
    existsb (fun row => same_binding p.1 p.2 row && newest_history (handle_history db) row) (handle_history db) = false)
    (map_to_list (current_bindings db))).
Definition missing_bindings (db : Database) : nat :=
  length (filter (fun row => newest_history (handle_history db) row = true /\
    existsb (fun p => same_binding p.1 p.2 row) (map_to_list (current_bindings db)) = false) (handle_history db)).

Definition verify_current_bindings_projection (db : Database) : RegistryResult unit :=
  guard (negb (unlogged_bindings db + missing_bindings db =? 0)%nat)
    (CorruptStorage "current binding projection disagrees with the append-only log").

Fixpoint directory_rows (rows : list ((str * str) * DirectoryRow)) : RegistryResult (gmap (str * str) (Z * Z * str)) :=
  match rows with
  | [] => Ok ∅
  | (key, row) :: rows =>
      mutation_sequence ← nonnegative (dm_mutation_sequence row) "directory mutation sequence";
      entry_seq ← nonnegative (dm_entry_seq row) "directory entry sequence";
      actual ← directory_rows rows;
      Ok (<[key := (mutation_sequence, entry_seq, dm_kind row)]> actual)
  end.

Definition verify_directory_projection (db : Database) (expected : gmap (str * str) (Z * Z * str)) : RegistryResult unit :=
  actual ← directory_rows (map_to_list (directory_mutations db));
  guard (negb (actual ≟ expected)) (CorruptStorage "directory mutation projection disagrees with the append-only log").

Definition verify_full_authority_replay (db : Database) (state : TreeState) : RegistryResult unit :=
  st ← replay_loop (Z.to_nat (ts_size state)) (ts_size state) db
         {| rp_history := handle_history db; rp_compliance := compliance_keys db; rp_directory := ∅; rp_from := 0 |};
  root ← root_for_size (merkle_nodes db) (Z.to_nat (ts_size state));
  _ ← guard (negb (hash_eq root (ts_root state))) (CorruptStorage "audited Merkle root disagrees with registry state");
  _ ← guard (negb (rp_history st ≟ [])) (CorruptStorage "handle history projection contains an unlogged binding");
  _ ← guard (negb (rp_compliance st ≟ [])) (CorruptStorage "compliance-key projection contains an unlogged publication");
  _ ← verify_current_bindings_projection db;
  verify_directory_projection db (rp_directory st).

Definition audit_all_entries (db : Database) : RegistryResult Z :=
  state ← load_state db;
  _ ← verify_full_authority_replay db state;
  Ok (ts_size state).

(** * The check at start *)

(** [MAX(seq) + 1], or zero; the table admits no negative [seq]. *)
Definition next_seq (rows : list EntryRow) : Z := match max_of (map er_seq rows) with Some v => v + 1 | None => 0 end.

Definition verify_receipt (origin : str) (verifying_key : VerifyingKey) (state : TreeState) (db : Database) (p : str * ReceiptRow) : RegistryResult unit :=
  let '(name, row) := p in
  size ← nonnegative (rr_tree_size row) "witness receipt size";
  row_witnessed_at ← nonnegative (rr_witnessed_at row) "witness receipt timestamp";
  receipt ← ok_or (receipt_from_str (rr_receipt_json row)) (CorruptStorage "persisted witness receipt JSON is malformed");
  checkpoint ← checkpoint_verify (rc_note receipt) verifying_key;
  let disagrees := CorruptStorage "persisted witness receipt disagrees with the local log" in
  _ ← guard (negb (name ≟ rc_witness_name receipt) || negb (size =? rc_size receipt) || (row_witnessed_at =? 0)
             || negb (row_witnessed_at =? rc_witnessed_at receipt) || negb (hash_eq (rr_root row) (rc_root receipt))
             || negb (cp_origin checkpoint ≟ origin) || negb (cp_size checkpoint =? size) || negb (hash_eq (cp_root checkpoint) (rr_root row))
             || (ts_size state <? size)) disagrees;
  root ← root_for_size (merkle_nodes db) (Z.to_nat size);
  guard (negb (hash_eq root (rr_root row))) disagrees.

Fixpoint verify_receipts (origin : str) (verifying_key : VerifyingKey) (state : TreeState) (db : Database) (rows : list (str * ReceiptRow)) : RegistryResult unit :=
  match rows with
  | [] => Ok tt
  | p :: rows => _ ← verify_receipt origin verifying_key state db p; verify_receipts origin verifying_key state db rows
  end.

Definition verify_published (origin : str) (verifying_key : VerifyingKey) (state : TreeState) (db : Database) : RegistryResult unit :=
  published ← load_published_state db;
  let head := pu_state published in
  let outside := CorruptStorage "published checkpoint is outside the committed log" in
  _ ← guard (ts_size state <? ts_size head) outside;
  root ← root_for_size (merkle_nodes db) (Z.to_nat (ts_size head));
  _ ← guard (negb (hash_eq root (ts_root head))) outside;
  checkpoint ← checkpoint_verify (ts_checkpoint head) verifying_key;
  _ ← guard (negb (cp_origin checkpoint ≟ origin) || negb (cp_size checkpoint =? ts_size head) || negb (hash_eq (cp_root checkpoint) (ts_root head)))
        (CorruptStorage "published checkpoint note disagrees with published state");
  size ← to_i64 (ts_size head) "published tree size";
  guard (match checkpoints db !! size with Some row => negb (hash_eq (cr_root row) (ts_root head)) | None => true end)
    (CorruptStorage "published checkpoint is absent from checkpoint history").

(** [WHERE tree_size < ?1 ORDER BY tree_size DESC LIMIT 1]. *)
Definition previous_checkpoint (size : Z) (rows : gmap Z CheckpointRow) : option (Z * CheckpointRow) :=
  n ← max_of (filter (fun n => n < size) (map fst (map_to_list rows)));
  row ← rows !! n;
  Some (n, row).

Definition verify_previous (origin : str) (verifying_key : VerifyingKey) (state : TreeState) (db : Database) : RegistryResult unit :=
  size ← to_i64 (ts_size state) "tree size";
  match previous_checkpoint size (checkpoints db) with
  | None => Ok tt
  | Some (old_size, row) =>
      old_size ← nonnegative old_size "checkpoint size";
      old_checkpoint ← checkpoint_verify (cr_note row) verifying_key;
      _ ← guard (negb (cp_origin old_checkpoint ≟ origin) || negb (cp_size old_checkpoint =? old_size)
                 || negb (hash_eq (cp_root old_checkpoint) (cr_root row)))
            (CorruptStorage "previous signed checkpoint disagrees with checkpoint history");
      if 0 <? old_size then
        proof ← storage_consistency_proof db old_size (ts_size state);
        proof ← ok_or proof (CorruptStorage "cannot construct checkpoint consistency proof");
        guard (negb (verify_consistency (Z.to_nat old_size) (cr_root row) (Z.to_nat (ts_size state)) (ts_root state) proof))
          (CorruptStorage "persisted checkpoints are not mutually consistent")
      else Ok tt
  end.

Definition verify_head (origin : str) (verifying_key : VerifyingKey) (state : TreeState) (db : Database) : RegistryResult unit :=
  _ ← guard (negb (Z.of_nat (length (entries db)) =? ts_size state) || negb (next_seq (entries db) =? ts_size state))
        (CorruptStorage "entries are not a contiguous sequence matching tree_size");
  root ← root_for_size (merkle_nodes db) (Z.to_nat (ts_size state));
  _ ← guard (negb (hash_eq root (ts_root state))) (CorruptStorage "persisted Merkle nodes do not produce the stored root");
  checkpoint ← checkpoint_verify (ts_checkpoint state) verifying_key;
  _ ← guard (negb (cp_origin checkpoint ≟ origin) || negb (cp_size checkpoint =? ts_size state) || negb (hash_eq (cp_root checkpoint) (ts_root state)))
        (CorruptStorage "latest signed checkpoint disagrees with registry state");
  size ← to_i64 (ts_size state) "tree size";
  row ← ok_or (checkpoints db !! size) (CorruptStorage "latest checkpoint is not persisted in checkpoint history");
  guard (negb (hash_eq (cr_root row) (ts_root state)) || negb (cr_note row ≟ ts_checkpoint state))
    (CorruptStorage "checkpoint history disagrees with registry state").

Definition verify_storage_without_global_admission (origin : str) (verifying_key : VerifyingKey) (db : Database) : RegistryResult unit :=
  state ← load_state db;
  _ ← verify_head origin verifying_key state db;
  _ ← verify_published origin verifying_key state db;
  _ ← verify_receipts origin verifying_key state db (merge_sort name_le (map_to_list (witness_receipts db)));
  _ ← verify_full_authority_replay db state;
  verify_previous origin verifying_key state db.

Definition verify_storage (origin : str) (verifying_key : VerifyingKey) (db : Database) : RegistryResult unit :=
  _ ← verify_storage_without_global_admission origin verifying_key db;
  _ ← load_global_binding_admission (global_binding_admission db);
  Ok tt.

Definition create_fresh (origin : str) (signing_key : Identity) (now : Z) : RegistryResult Database :=
  db ← fresh_database origin signing_key now;
  _ ← verify_storage origin (verifying_key signing_key) db;
  Ok db.

(** * Installing a witness policy *)

Definition verify_policy_receipt (rg : Registry) (policy : WitnessPolicy) (db : Database) (witness : WitnessKey) : RegistryResult unit :=
  match witness_receipt_json db (w_name witness) with
  | None => Ok tt
  | Some json =>
      receipt ← ok_or (receipt_from_str json) (CorruptStorage "persisted witness receipt is malformed");
      verified ← map_err (fun _ => WitnessConflict)
        (verify_with_fresh_witnesses (rc_note receipt) (verifying_key (rg_signing_key rg)) [witness] 1 (rc_witnessed_at receipt)
           (wp_max_cosignature_age_secs policy) 0);
      guard (negb (rc_witness_name receipt ≟ w_name witness) || negb (witnessed_at verified ≟ Some (rc_witnessed_at receipt))
             || negb (cp_origin (vc_checkpoint verified) ≟ rg_origin rg) || negb (cp_size (vc_checkpoint verified) =? rc_size receipt)
             || negb (cp_root (vc_checkpoint verified) ≟ rc_root receipt)) WitnessConflict
  end.

Fixpoint verify_policy_receipts (rg : Registry) (policy : WitnessPolicy) (db : Database) (witnesses : list WitnessKey) : RegistryResult unit :=
  match witnesses with
  | [] => Ok tt
  | w :: ws => _ ← verify_policy_receipt rg policy db w; verify_policy_receipts rg policy db ws
  end.

Definition verify_policy_published (rg : Registry) (policy : WitnessPolicy) (db : Database) : RegistryResult unit :=
  published ← load_published_state db;
  match pu_witnessed_at published with
  | None => Ok tt
  | Some at_ =>
      let head := pu_state published in
      verified ← map_err (fun _ => WitnessConflict)
        (policy_verify_checkpoint policy (ts_checkpoint head) (verifying_key (rg_signing_key rg)) at_);
      guard (negb (cp_origin (vc_checkpoint verified) ≟ rg_origin rg) || negb (cp_size (vc_checkpoint verified) =? ts_size head)
             || negb (cp_root (vc_checkpoint verified) ≟ ts_root head)) WitnessConflict
  end.

Definition with_witness_policy (rg : Registry) (policy : WitnessPolicy) (db : Database) : RegistryResult Registry :=
  _ ← guard (existsb (fun w => w_key w ≟ verifying_key (rg_signing_key rg)) (wp_witnesses policy))
        (InvalidConfiguration "witness keys must be distinct from the registry checkpoint key");
  _ ← verify_policy_receipts rg policy db (wp_witnesses policy);
  _ ← verify_policy_published rg policy db;
  Ok {| rg_origin := rg_origin rg; rg_signing_key := rg_signing_key rg; rg_witness_policy := Some policy |}.
End Verify.
