(* ===== verification/RegistryBinding.v ===== *)
(** Binding a handle, end to end: [bind_handle] of [pigeonpost-registry/src/registry.rs] and the proof payloads and challenges of
    [identity.rs].

    A claimant proves possession of the key with a signature, control of the provider account with a proof that answers a
    one-time challenge, and passes the account's and the global limit; the claim is traced before the binding is committed.
    The call releases the database between its phases, and awaits the provider and the trace sink: [BindEnv] holds, for each of these moments, what other
    requests did to the service meanwhile.
    The identity providers (network services) are the class [IdentityProviders]; the custody of the file, the readiness of the
    trace sink and its receipt are outcomes given in [BindEnv] with the clock readings. *)
From stdpp Require Import sorting.
From S2P Require Import Prelude Text B32 Network Crypto Origin Token Address Compliance Handle Entry Merkle Checkpoint WitnessClient RegistryNodes RegistryStore RegistryLimits RegistryFlows RegistryServer.

Definition IDENTITY_CHALLENGE_TTL_MS : Z := 5 * 60 * 1000.

(** * Proofs *)

Record Subject := { sj_namespace : str; sj_name : str; sj_opaque_id : str }.

Inductive ProofPayload :=
| Github (code code_verifier state : str)
| Google (id_token nonce : str).

Definition provider_slug (proof : ProofPayload) : str :=
  match proof with Github _ _ _ => lit "github" | Google _ _ => lit "google" end.

Definition challenge_token (proof : ProofPayload) : str :=
  match proof with Github _ _ state => state | Google _ nonce => nonce end.

Definition BASE64URL : str := lit "ABCDEFGHIJKLMNOPQRSTUVWXYZabcdefghijklmnopqrstuvwxyz0123456789-_".
Definition b64url_char (sextet : Z) : byte := nth (Z.to_nat (Z.land sextet 63)) BASE64URL x00.
Fixpoint base64url (input : bytes) : str :=
  match input with
  | a :: b :: c :: rest =>
      let value := Z.lor (Z.lor (Z.shiftl (u8 a) 16) (Z.shiftl (u8 b) 8)) (u8 c) in
      [b64url_char (Z.shiftr value 18); b64url_char (Z.shiftr value 12); b64url_char (Z.shiftr value 6); b64url_char value] ++ base64url rest
  | [a; b] =>
      let value := Z.lor (Z.shiftl (u8 a) 16) (Z.shiftl (u8 b) 8) in
      [b64url_char (Z.shiftr value 18); b64url_char (Z.shiftr value 12); b64url_char (Z.shiftr value 6)]
  | [a] => let value := Z.shiftl (u8 a) 16 in [b64url_char (Z.shiftr value 18); b64url_char (Z.shiftr value 12)]
  | [] => []
  end.

Definition validate_pkce_verifier (verifier : str) : RegistryResult unit :=
  guard ((length verifier <? 43)%nat || (128 <? length verifier)%nat
         || negb (forallb (fun b => is_ascii_alphanumeric b || existsb (fun c => b ≟ c) (lit "-._~")) verifier))
    (ProofRejected "PKCE verifier is malformed").

Definition validate_pkce_challenge (challenge : str) : RegistryResult unit :=
  guard (negb (length challenge =? 43)%nat
         || negb (forallb (fun b => is_ascii_alphanumeric b || existsb (fun c => b ≟ c) (lit "-_")) challenge))
    (ProofRejected "PKCE S256 challenge is malformed").

Definition is_ascii_hexdigit (b : byte) : bool := is_some (to_digit 16 b).

Definition validate_challenge_token (token : str) : RegistryResult unit :=
  guard (negb (length token =? 64)%nat || negb (forallb is_ascii_hexdigit token)) (ProofRejected "identity challenge is malformed").

(** The providers of the registry: which namespaces are configured, and what a provider says to a proof. *)
Class IdentityProviders := {
  provider_configured : str -> bool;
  provider_verify : str -> ProofPayload -> RegistryResult Subject;
  public_client_id : str -> option str;
}.

Definition validate_public_client_id (client_id : str) : RegistryResult unit :=
  guard ((client_id ≟ []) || (512 <? length client_id)%nat
         || negb (forallb (fun b => is_ascii_alphanumeric b || existsb (fun c => b ≟ c) (lit "._-")) client_id))
    (InvalidConfiguration "identity provider client id is malformed").

(** * The service's state *)

(** The database, and what the process keeps in memory. *)
Record Service := {
  sv_db : Database;
  sv_admission : GlobalBindingAdmissionBatch;
  sv_accounts : AccountLimiterState;
}.

Definition on_db (db : Database) (sv : Service) : Service :=
  {| sv_db := db; sv_admission := sv_admission sv; sv_accounts := sv_accounts sv |}.
Definition on_accounts (accounts : AccountLimiterState) (sv : Service) : Service :=
  {| sv_db := sv_db sv; sv_admission := sv_admission sv; sv_accounts := accounts |}.

Record PreparedHandleBinding := {
  ph_handle : Handle;
  ph_pubkey : arr 32;
  ph_proof : ProofPayload;
  ph_operation : HandleAppendMode;
  ph_challenge : Hash * option str;
  ph_recovered_seq : option Z;
}.

Record VerifiedHandleBinding := { vh_prepared : PreparedHandleBinding; vh_subject_name : str; vh_subject_id : str }.

Record Registration := { re_handle : str; re_index : Z; re_appended : bool; re_inclusion : ProofBundle }.

(** One call's outside world: its clock readings, the row the plain read of the admission sees, and the outcomes of file custody, of the
    trace sink's readiness (with its capacity contract) and of the trace submission.  Then what other requests do to the service while the
    call holds no lock: before a recovered receipt is read, while the provider answers, before the checks of admission, between those and the charge,
    while the trace is written, and before the receipt is read. *)
Record BindEnv := {
  be_prepare_ms : Z;
  be_instant : Z;
  be_ready_ms : Z;
  be_admit_ms : Z;
  be_observed : Z * Z;
  be_custody : RegistryResult unit;
  be_trace_ready : RegistryResult unit;
  be_captured : bool;
  be_commit_ms : Z;
  be_expiry_ms : Z;
  be_created_ms : Z;
  be_consumed_ms : Z;
  be_while_recovering : Service -> Service;
  be_while_verifying : Service -> Service;
  be_while_admitting : Service -> Service;
  be_while_charging : Service -> Service;
  be_while_tracing : Service -> Service;
  be_while_answering : Service -> Service;
}.

Section Binding.
Context {C : Crypto} {UP : UrlParser} {EJ : EntryJson} {IP : IdentityProviders}.
Context (rg : Registry) (limits : RegistrationLimits).

Definition pkce_s256 (verifier : str) : RegistryResult str :=
  _ ← validate_pkce_verifier verifier; Ok (base64url (vec_to_list (sha256 verifier))).

Definition expected_pkce_challenge (proof : ProofPayload) : RegistryResult (option str) :=
  match proof with
  | Github _ code_verifier _ => Some <$> pkce_s256 code_verifier
  | Google _ _ => Ok None
  end.

Definition challenge_hash (provider token : str) : Hash :=
  sha256 (lit "pigeonpost/identity-challenge/v1" ++ [x00] ++ provider ++ [x00] ++ token).

(** Possession of the key: a signature over the claim.  A handle is far shorter than the length at which [claim_payload] would panic. *)
Definition prove_possession (handle : Handle) (pubkey : arr 32) (signature : Signature) : RegistryResult unit :=
  key ← map_err Core (verifying_key_from_bytes pubkey);
  payload ← ok_or (claim_payload (as_path handle) pubkey) KeyPossessionNotProved;
  map_err (fun _ => KeyPossessionNotProved) (verify key payload signature).

(** ** Readiness *)

Definition witness_readiness (custody : RegistryResult unit) (now_secs : Z) (db : Database) : RegistryResult WitnessPublicationStatus :=
  _ ← custody;
  committed ← load_state db;
  match rg_witness_policy rg with
  | None => Ok {| ws_committed_size := ts_size committed; ws_published_size := ts_size committed; ws_lag_entries := 0; ws_witnessed_at := None |}
  | Some policy =>
      published ← load_published_state db;
      let state := pu_state published in
      let lag := saturating_sub (ts_size committed) (ts_size state) in
      verified ← map_err (fun _ => WitnessUnavailable)
        (policy_verify_checkpoint policy (ts_checkpoint state) (verifying_key (rg_signing_key rg)) now_secs);
      _ ← guard (negb (is_some (pu_witnessed_at published)) || negb (witnessed_at verified ≟ pu_witnessed_at published)
                 || negb (cp_origin (vc_checkpoint verified) ≟ rg_origin rg) || negb (cp_size (vc_checkpoint verified) =? ts_size state)
                 || negb (cp_root (vc_checkpoint verified) ≟ ts_root state) || (wp_max_lag_entries policy <? lag)) WitnessUnavailable;
      Ok {| ws_committed_size := ts_size committed; ws_published_size := ts_size state; ws_lag_entries := lag;
            ws_witnessed_at := pu_witnessed_at published |}
  end.

Definition registration_readiness (custody trace_ready : RegistryResult unit) (now_ms : Z) (db : Database) : RegistryResult unit :=
  _ ← custody;
  _ ← trace_ready;
  _ ← witness_readiness custody (now_ms / 1000) db;
  Ok tt.

(** ** Challenges *)

(** [issue_identity_challenge]; [random] are the bytes drawn from the operating system.  The provider's namespace is its slug. *)
Definition issue_identity_challenge (custody trace_ready : RegistryResult unit) (ready_ms issue_ms now : Z) (random : arr 32) (provider : str)
  (handle : Handle) (pubkey : arr 32) (signature : Signature) (pkce_challenge : option str) (db : Database)
  : RegistryResult (str * Z) * Database :=
  transact db (
    _ ← registration_readiness custody trace_ready ready_ms db;
    _ ← guard (negb (namespace handle ≟ provider)) (ProofRejected "identity provider does not match the handle namespace");
    _ ← prove_possession handle pubkey signature;
    _ ← (if provider ≟ lit "github" then
           challenge ← ok_or pkce_challenge (ProofRejected "GitHub challenge requires PKCE S256"); validate_pkce_challenge challenge
         else guard (is_some pkce_challenge) (ProofRejected "Google nonce challenge does not accept PKCE material"));
    client_id ← ok_or (public_client_id provider) ProviderNotConfigured;
    _ ← validate_public_client_id client_id;
    let value := hex_of (vec_to_list random) in
    let hash := challenge_hash provider value in
    expires_at_ms ← ok_or (checked_add 64 issue_ms IDENTITY_CHALLENGE_TTL_MS) (ProofRejected "challenge expiry overflow");
    '(_, db) ← insert_identity_challenge now provider hash (as_path handle) pubkey pkce_challenge expires_at_ms db;
    Ok ((value, expires_at_ms), db)).

(** ** The phases *)

Definition prepare_handle_binding (now : Z) (handle : Handle) (pubkey : arr 32) (signature : Signature) (proof : ProofPayload)
  (operation : HandleAppendMode) (db : Database) : RegistryResult PreparedHandleBinding :=
  _ ← prove_possession handle pubkey signature;
  let token := challenge_token proof in
  _ ← validate_challenge_token token;
  expected_pkce ← expected_pkce_challenge proof;
  let hash := challenge_hash (provider_slug proof) token in
  recovered_seq ← validate_identity_challenge now (provider_slug proof) hash (as_path handle) pubkey expected_pkce db;
  Ok {| ph_handle := handle; ph_pubkey := pubkey; ph_proof := proof; ph_operation := operation; ph_challenge := (hash, expected_pkce);
        ph_recovered_seq := recovered_seq |}.

(** The receipt of a binding at the head being served. *)
Definition registration_at (db : Database) (handle : Handle) (a : Append) (missing : string) : RegistryResult Registration :=
  serving ← serving_state rg db;
  path ← served_path db (ap_seq a) serving missing;
  Ok {| re_handle := as_path handle; re_index := ap_seq a; re_appended := ap_appended a; re_inclusion := bundle_at serving path |}.

Definition recover_handle_binding (prepared : PreparedHandleBinding) (db : Database) : RegistryResult Registration :=
  seq ← ok_or (ph_recovered_seq prepared) (CorruptStorage "recovered challenge has no binding sequence");
  entry ← entry_at db seq;
  entry ← ok_or entry (CorruptStorage "challenge result points at a missing handle binding");
  let expected_binding := match handle_binding entry with
    | Some (handle, pubkey, _) => (handle ≟ as_path (ph_handle prepared)) && (pubkey ≟ hex_of (vec_to_list (ph_pubkey prepared)))
    | None => false
    end in
  _ ← guard (negb (mode_kind entry (ph_operation prepared)) || negb expected_binding)
        (CorruptStorage "challenge result disagrees with its committed handle binding");
  registration_at db (ph_handle prepared) {| ap_seq := seq; ap_appended := false |} "published challenge result has no inclusion proof".

Definition verify_handle_binding (instant : Z) (prepared : PreparedHandleBinding) (accounts : AccountLimiterState)
  : RegistryResult VerifiedHandleBinding * AccountLimiterState :=
  let ns := namespace (ph_handle prepared) in
  match
    (_ ← guard (negb (provider_configured ns)) ProviderNotConfigured;
     subject ← provider_verify ns (ph_proof prepared);
     _ ← guard (negb (sj_namespace subject ≟ ns))
           (SubjectMismatch (sj_namespace subject ++ lit ":" ++ sj_name subject) (as_path (ph_handle prepared)));
     Ok subject)
  with
  | Err e => (Err e, accounts)
  | Ok subject =>
      let '(r, accounts) := charge_at limits (sj_namespace subject) (sj_opaque_id subject) instant accounts in
      (_ ← r;
       Ok {| vh_prepared := prepared; vh_subject_name := sj_name subject;
             vh_subject_id := sj_namespace subject ++ lit ":" ++ sj_opaque_id subject |}, accounts)
  end.

(** The checks of [admit_handle_binding] before the charge. *)
Definition admission_checks (env : BindEnv) (verified : VerifiedHandleBinding) (db : Database) : RegistryResult unit :=
  let prepared := vh_prepared verified in
  _ ← registration_readiness (be_custody env) (be_trace_ready env) (be_ready_ms env) db;
  match ph_operation prepared with
  | Register =>
      guard (negb (eq_ignore_ascii_case (vh_subject_name verified) (name (ph_handle prepared))))
        (SubjectMismatch (namespace (ph_handle prepared) ++ lit ":" ++ vh_subject_name verified) (as_path (ph_handle prepared)))
  | Rotate =>
      binding ← current_binding db (as_path (ph_handle prepared));
      '(_, _, existing_subject) ← ok_or binding NotFound;
      guard (negb (existing_subject ≟ vh_subject_id verified)) AlreadyBound
  end.

(** The durable charge, under both locks. *)
Definition charge_binding (env : BindEnv) (sv : Service) : RegistryResult unit * Service :=
  let '(r, batch, row) := charge_global_binding_admission (be_admit_ms env) (global_bindings_per_minute limits) (be_observed env)
                            (sv_admission sv) (global_binding_admission (sv_db sv)) in
  (r, {| sv_db := with_admission row (sv_db sv); sv_admission := batch; sv_accounts := sv_accounts sv |}).

Definition admit_handle_binding (env : BindEnv) (verified : VerifiedHandleBinding) (sv : Service) : RegistryResult unit * Service :=
  match admission_checks env verified (sv_db sv) with
  | Err e => (Err e, sv)
  | Ok _ => charge_binding env (be_while_charging env sv)
  end.

Definition commit_request (env : BindEnv) (verified : VerifiedHandleBinding) : HandleAppendRequest :=
  let prepared := vh_prepared verified in
  {| rq_handle := as_path (ph_handle prepared); rq_pubkey := hex_of (vec_to_list (ph_pubkey prepared)); rq_subject := vh_subject_id verified;
     rq_ts_ms := be_commit_ms env; rq_mode := ph_operation prepared |}.

Definition commit_challenge (verified : VerifiedHandleBinding) : IdentityChallengeCommit :=
  let prepared := vh_prepared verified in
  {| co_provider := provider_slug (ph_proof prepared); co_challenge_hash := (ph_challenge prepared).1; co_pubkey := ph_pubkey prepared;
     co_expected_pkce_challenge := (ph_challenge prepared).2 |}.

(** The transaction that consumes the challenge and appends. *)
Definition commit_transaction (env : BindEnv) (verified : VerifiedHandleBinding) (db : Database) : RegistryResult Append * Database :=
  transact db (commit_handle_binding (rg_origin rg) (rg_signing_key rg) (be_expiry_ms env) (be_created_ms env) (be_consumed_ms env)
                 (Some (commit_challenge verified)) (commit_request env verified) db).

Definition commit_binding (env : BindEnv) (verified : VerifiedHandleBinding) (sv : Service) : RegistryResult Registration * Service :=
  match commit_transaction env verified (sv_db sv) with
  | (Err e, db) => (Err e, on_db db sv)
  | (Ok appended, db) =>
      let sv := be_while_answering env (on_db db sv) in
      (registration_at (sv_db sv) (ph_handle (vh_prepared verified)) appended "published entry has no inclusion proof", sv)
  end.

(** [register] and [rotate]. *)
Definition bind_handle (env : BindEnv) (handle : Handle) (pubkey : arr 32) (signature : Signature) (proof : ProofPayload)
  (operation : HandleAppendMode) (sv : Service) : RegistryResult Registration * Service :=
  match prepare_handle_binding (be_prepare_ms env) handle pubkey signature proof operation (sv_db sv) with
  | Err e => (Err e, sv)
  | Ok prepared =>
      if is_some (ph_recovered_seq prepared) then
        let sv := be_while_recovering env sv in (recover_handle_binding prepared (sv_db sv), sv)
      else
        let sv := be_while_verifying env sv in
        match verify_handle_binding (be_instant env) prepared (sv_accounts sv) with
        | (Err e, accounts) => (Err e, on_accounts accounts sv)
        | (Ok verified, accounts) =>
            match admit_handle_binding env verified (be_while_admitting env (on_accounts accounts sv)) with
            | (Err e, sv) => (Err e, sv)
            | (Ok _, sv) =>
                let sv := be_while_tracing env sv in
                if negb (be_captured env) then (Err ClaimTraceUnavailable, sv) else commit_binding env verified sv
            end
        end
  end.
End Binding.
