(* ===== verification/RegistryInvariant.v ===== *)
(** The registry's database as the image of its log: the invariant of every reachable database, and that appending an entry keeps it. *)
From stdpp Require Import sorting.
From S2P Require Import Prelude Text B32 Network Crypto Origin Token Address Compliance Handle Entry Merkle MerkleProofs Checkpoint WitnessClient RegistryNodes RegistryStore RegistryFlows RegistryServer.

(** * Projections of a log *)

Definition history_row (e : LogEntry) : option HistoryRow :=
  '(handle, pubkey, subject) ← handle_binding e;
  Some {| hi_seq := seq e; hi_handle := handle; hi_pubkey := pubkey; hi_subject := subject |}.

Definition bind_handle_of (m : gmap str BindingRow) (e : LogEntry) : gmap str BindingRow :=
  match handle_binding e with
  | Some (handle, pubkey, subject) => <[handle := {| bi_pubkey := pubkey; bi_subject := subject; bi_seq := seq e |}]> m
  | None => m
  end.
Definition bindings_of (es : list LogEntry) : gmap str BindingRow := foldl bind_handle_of ∅ es.

Definition mutate_of (m : gmap (str * str) DirectoryRow) (e : LogEntry) : gmap (str * str) DirectoryRow :=
  match authenticated_directory_mutation e with
  | Some (endpoint, loft_pubkey, mutation_sequence) =>
      <[(endpoint, loft_pubkey) := {| dm_mutation_sequence := mutation_sequence; dm_entry_seq := seq e; dm_kind := kind_str (kind e) |}]> m
  | None => m
  end.
Definition mutations_of (es : list LogEntry) : gmap (str * str) DirectoryRow := foldl mutate_of ∅ es.

Definition compliance_row (e : LogEntry) : option ComplianceRow :=
  publication ← compliance_publication e;
  projection ← ok (compliance_projection e publication);
  Some {| ck_seq := seq e; ck_projection := projection |}.

Lemma foldl_snoc {A B} (f : A -> B -> A) a l x : foldl f a (l ++ [x]) = f (foldl f a l) x.
Proof. by rewrite foldl_app. Qed.

Lemma omap_snoc {A B} (f : A -> option B) l x : omap f (l ++ [x]) = omap f l ++ match f x with Some y => [y] | None => [] end.
Proof. by rewrite omap_app. Qed.

Lemma omap_cons {A B} (f : A -> option B) x l : omap f (x :: l) = match f x with Some y => y :: omap f l | None => omap f l end.
Proof. done. Qed.

(** The last binding of a handle in a log. *)
Lemma bindings_of_Some es h row : bindings_of es !! h = Some row ->
  exists e, e ∈ es /\ handle_binding e = Some (h, bi_pubkey row, bi_subject row) /\ bi_seq row = seq e.
Proof.
  induction es as [|e es IH] using rev_ind; [by intros H; cbn in H; rewrite lookup_empty in H|].
  unfold bindings_of. rewrite foldl_snoc. fold (bindings_of es). unfold bind_handle_of.
  destruct (handle_binding e) as [[[h' k] s]|] eqn:Eb; intros H.
  - destruct (decide (h' = h)) as [->|Hne].
    + rewrite lookup_insert_eq in H. injection H as <-. exists e. split; [set_solver|]. done.
    + rewrite lookup_insert_ne in H by done. apply IH in H as (e' & ? & ? & ?). exists e'. split; [set_solver|done].
  - apply IH in H as (e' & ? & ? & ?). exists e'. split; [set_solver|done].
Qed.

Lemma bindings_of_None es h : bindings_of es !! h = None -> forall e k s, e ∈ es -> handle_binding e <> Some (h, k, s).
Proof.
  induction es as [|e es IH] using rev_ind; [set_solver|].
  unfold bindings_of. rewrite foldl_snoc. fold (bindings_of es). unfold bind_handle_of.
  intros H e' k s. rewrite elem_of_app, list_elem_of_singleton. intros [Hin| ->].
  - destruct (handle_binding e) as [[[h' k'] s']|]; [|by apply IH]. apply IH; [|done].
    destruct (decide (h' = h)) as [->|Hne]; [by rewrite lookup_insert_eq in H|by rewrite lookup_insert_ne in H].
  - intros Eb. rewrite Eb, lookup_insert_eq in H. done.
Qed.

Section Invariant.
Context {C : Crypto} {UP : UrlParser} {EJ : EntryJson}.

(** The columns of an entry. *)
Record row_of (row : EntryRow) (e : LogEntry) : Prop := {
  ro_json : entry_to_string e = Some (er_json row);
  ro_seq : er_seq row = seq e;
  ro_version : er_version row = u8 (entry_version e);
  ro_type : er_type row = kind_str (kind e);
  ro_ts : er_ts_ms row = ts_ms e;
  ro_leaf : exists b, leaf_bytes e = Ok b /\ er_leaf row = leaf_hash b;
}.

(** The entry at position [i] of a log. *)
Record entry_ok (i : nat) (e : LogEntry) : Prop := {
  eo_seq : seq e = Z.of_nat i;
  eo_valid : entry_validate e = Ok tt;
  eo_version : entry_version e = LOG_ENTRY_VERSION;
  eo_ts : 0 <= ts_ms e < 2 ^ 63;
}.

Definition log_ok (es : list LogEntry) : Prop := forall i e, es !! i = Some e -> entry_ok i e.

Definition leaf_of (e : LogEntry) : Hash := match leaf_bytes e with Ok b => leaf_hash b | Err _ => empty_root end.
Definition leaves_of (es : list LogEntry) : list Hash := map leaf_of es.

(** The head of the log at a size, and the note the registry signs for it. *)
Definition head_at (es : list LogEntry) (n : nat) : Hash := root_of (from_leaves (leaves_of es)) n.
Definition signed_head (origin : str) (key : Identity) (es : list LogEntry) (n : nat) : str :=
  checkpoint_sign {| cp_origin := origin; cp_size := Z.of_nat n; cp_root := head_at es n |} key.

(** The log tables. *)
Record log_inv (origin : str) (key : Identity) (es : list LogEntry) (db : Database) : Prop := {
  li_ok : log_ok es;
  li_size : Z.of_nat (length es) < 2 ^ 63;
  li_rows : Forall2 row_of (entries db) es;
  li_nodes : nodes_of (merkle_nodes db) (leaves_of es);
  li_state : registry_state db =
    {| ts_size := Z.of_nat (length es); ts_root := head_at es (length es); ts_checkpoint := signed_head origin key es (length es) |};
  li_checkpoints n row : checkpoints db !! n = Some row ->
    0 <= n <= Z.of_nat (length es) /\ cr_root row = head_at es (Z.to_nat n) /\ cr_note row = signed_head origin key es (Z.to_nat n);
  li_checkpointed n : (n <= length es)%nat -> is_Some (checkpoints db !! Z.of_nat n);
  li_history : handle_history db = omap history_row es;
  li_current : current_bindings db = bindings_of es;
  li_directory : directory_mutations db = mutations_of es;
  li_compliance : compliance_keys db = omap compliance_row es;
  li_projected e p : e ∈ es -> compliance_publication e = Some p -> is_Some (ok (compliance_projection e p));
  li_sequenced e ep lk n : e ∈ es -> authenticated_directory_mutation e = Some (ep, lk, n) -> 0 <= n;
}.

Lemma leaves_app es e : leaves_of (es ++ [e]) = leaves_of es ++ [leaf_of e].
Proof. unfold leaves_of. by rewrite map_app. Qed.

Lemma length_leaves es : length (leaves_of es) = length es.
Proof. apply length_map. Qed.

(** A head stays the head at its size when the log grows. *)
Lemma head_app es e n : (n <= length es)%nat -> head_at (es ++ [e]) n = head_at es n.
Proof.
  intros H. unfold head_at, root_of. cbn [leaves from_leaves]. rewrite leaves_app, take_app_le by (by rewrite length_leaves). done.
Qed.

Lemma signed_head_app origin key es e n : (n <= length es)%nat -> signed_head origin key (es ++ [e]) n = signed_head origin key es n.
Proof. intros H. unfold signed_head. by rewrite head_app. Qed.

Lemma leaf_of_Ok e b : leaf_bytes e = Ok b -> leaf_of e = leaf_hash b.
Proof. intros E. unfold leaf_of. by rewrite E. Qed.

(** * The fresh database *)

Lemma fresh_log_inv origin key now db : fresh_database origin key now = Ok db -> log_inv origin key [] db.
Proof.
  unfold fresh_database. intros H. inv_ok. subst db. split; cbn [entries current_bindings handle_history compliance_keys
    directory_mutations merkle_nodes checkpoints registry_state].
  - by intros i e.
  - done.
  - constructor.
  - apply nodes_of_empty.
  - done.
  - intros n row Hr. apply lookup_singleton_Some in Hr as [<- <-]. split; [cbn; lia|done].
  - intros n Hn. cbn in Hn. assert (n = 0%nat) as -> by lia. by rewrite lookup_singleton_eq.
  - done.
  - done.
  - done.
  - done.
  - set_solver.
  - set_solver.
Qed.

(** * Appending *)

Lemma malformed_entry_Ok {A} (r : result EntryError A) a : malformed_entry r = Ok a <-> r = Ok a.
Proof. apply map_err_Ok. Qed.

Lemma load_state_inv origin key es db : log_inv origin key es db -> load_state db = Ok (registry_state db).
Proof.
  intros I. unfold load_state. rewrite (li_state _ _ _ _ I). cbn [ts_size]. rewrite nonnegative_fits by lia. done.
Qed.

Lemma log_ok_snoc es e : log_ok es -> entry_ok (length es) e -> log_ok (es ++ [e]).
Proof.
  intros H He i e' Hi. apply lookup_app_Some in Hi as [Hi|[Hl Hi]]; [by apply H|].
  apply list_lookup_singleton_Some in Hi as [Hi <-]. by replace i with (length es) by lia.
Qed.

(** What inserting an entry's rows does. *)
Lemma insert_entry_rows_Ok db e db' :
  insert_entry_rows db e = Ok db' ->
  exists row, entries db' = entries db ++ [row] /\ row_of row e /\ ts_ms e < 2 ^ 63 /\
    handle_history db' = handle_history db ++ match history_row e with Some r => [r] | None => [] end /\
    current_bindings db' = bind_handle_of (current_bindings db) e /\
    directory_mutations db' = mutate_of (directory_mutations db) e /\
    compliance_keys db' = compliance_keys db ++ match compliance_row e with Some r => [r] | None => [] end /\
    (forall p, compliance_publication e = Some p -> is_Some (ok (compliance_projection e p))) /\
    (forall ep lk n, authenticated_directory_mutation e = Some (ep, lk, n) -> 0 <= n) /\
    merkle_nodes db' = merkle_nodes db /\ checkpoints db' = checkpoints db /\ registry_state db' = registry_state db /\
    published_state db' = published_state db /\ witness_receipts db' = witness_receipts db /\
    identity_challenges db' = identity_challenges db /\ global_binding_admission db' = global_binding_admission db.
Proof.
  unfold insert_entry_rows. intros H. apply bind_Ok in H as (json & Hj%ok_or_Ok & H).
  apply bind_Ok in H as (b & Hb%malformed_entry_Ok & H). apply bind_Ok in H as (sq & [_ ->]%to_i64_range & H).
  apply bind_Ok in H as (ts & [Hts ->]%to_i64_range & H). apply bind_Ok in H as (es & He & H).
  apply bind_Ok in H as ([hh cb] & Hh & H). apply bind_Ok in H as (dm & Hd & H). apply bind_Ok in H as (ck & Hc & H).
  apply Ok_inj in H as <-. unfold insert_entry in He. inv_ok. subst es. eexists. cbn [with_log entries handle_history current_bindings
    directory_mutations compliance_keys merkle_nodes checkpoints registry_state published_state witness_receipts identity_challenges
    global_binding_admission]. split; [done|]. split; [by split; eauto|]. split; [done|].
  assert (hh = handle_history db ++ match history_row e with Some r => [r] | None => [] end /\ cb = bind_handle_of (current_bindings db) e) as [-> ->].
  { unfold history_row, bind_handle_of. destruct (handle_binding e) as [[[h k] s]|]; cbn.
    - unfold insert_history, upsert_binding in Hh. inv_ok. apply pair_eq in Hh as [<- <-]. by subst.
    - apply Ok_inj, pair_eq in Hh as [<- <-]. by rewrite app_nil_r. }
  assert (dm = mutate_of (directory_mutations db) e /\ forall ep lk n, authenticated_directory_mutation e = Some (ep, lk, n) -> 0 <= n) as [-> Hsq].
  { unfold update_directory_projection, mutate_of in *. destruct (authenticated_directory_mutation e) as [[[ep lk] ms]|]; [|inv_ok; done].
    unfold upsert_mutation in Hd. apply bind_Ok in Hd as (m & [_ ->]%to_i64_range & Hd). apply bind_Ok in Hd as (q & [_ ->]%to_i64_range & Hd).
    apply bind_Ok in Hd as ([] & [Hn _]%guard_Ok%orb_false_iff & Hd). cbn in Hn. b2p. apply Ok_inj in Hd as <-. split; [done|]. by intros ? ? ? [= _ _ <-]. }
  split; [done|]. split; [done|]. split; [done|].
  unfold compliance_row. destruct (compliance_publication e) as [p|]; cbn.
  - apply bind_Ok in Hc as (x & Hx & Hc). unfold insert_compliance in Hc. inv_ok. subst ck. rewrite Hx. cbn.
    split_and!; try done. intros p' [= <-]. by rewrite Hx.
  - apply Ok_inj in Hc as <-. rewrite app_nil_r. split_and!; done.
Qed.

Lemma append_entry_inv origin key es now e db st db' :
  log_inv origin key es db -> entry_validate e = Ok tt -> entry_version e = LOG_ENTRY_VERSION -> 0 <= ts_ms e ->
  append_entry_in_transaction origin key now e db = Ok (st, db') ->
  log_inv origin key (es ++ [e]) db' /\ seq e = Z.of_nat (length es) /\
  published_state db' = published_state db /\ witness_receipts db' = witness_receipts db /\
  identity_challenges db' = identity_challenges db /\ global_binding_admission db' = global_binding_admission db.
Proof.
  intros I Hv Hver Hts H. unfold append_entry_in_transaction in H. rewrite (load_state_inv _ _ _ _ I), (li_state _ _ _ _ I) in H.
  cbn [mbind result_bind ts_size] in H. apply bind_Ok in H as (u & Hseq%guard_Ok & H). b2p.
  apply bind_Ok in H as (db1 & Hins & H).
  destruct (insert_entry_rows_Ok _ _ _ Hins) as (row & Hrows & Hrow & Hts' & Hhist & Hcur & Hdir & Hcomp & Hproj & Hsqd & Hnodes & Hcps & Hst & Hpub & Hrec & Hch & Hadm).
  apply bind_Ok in H as (b & Hb%malformed_entry_Ok & H). apply bind_Ok in H as (nodes & Hn & H).
  apply bind_Ok in H as (sz & Hsz%ok_or_Ok & H). unfold checked_add in Hsz. destruct (_ <? 2 ^ 64); [|done]. injection Hsz as <-.
  apply bind_Ok in H as (root & Hroot & H). apply bind_Ok in H as (tsz & [Hfit ->]%to_i64_range & H).
  apply bind_Ok in H as (cr & [_ ->]%to_i64_range & H). apply bind_Ok in H as (u' & Hfree%guard_Ok & H). apply Ok_inj, pair_eq in H as [_ <-].
  assert (log_ok (es ++ [e])) as Hok by (apply log_ok_snoc; [apply I|split; done || lia]).
  rewrite Hnodes, Hseq, Nat2Z.id, <-length_leaves in Hn.
  destruct (append_merkle_leaf_eq (merkle_nodes db) (leaves_of es) (leaf_hash b)) as (nodes' & En & Hn'); [apply I|rewrite length_leaves; lia|].
  rewrite En in Hn. apply Ok_inj in Hn as ->. rewrite <-(leaf_of_Ok e b Hb), <-leaves_app in Hn'.
  replace (Z.to_nat (Z.of_nat (length es) + 1)) with (length (es ++ [e])) in Hroot by (rewrite length_app; cbn; lia).
  rewrite (root_for_size_eq nodes (leaves_of (es ++ [e]))) in Hroot by (done || rewrite ?length_leaves, ?length_app; cbn; lia).
  apply Ok_inj in Hroot as <-. fold (head_at (es ++ [e]) (length (es ++ [e]))).
  replace (Z.of_nat (length es) + 1) with (Z.of_nat (length (es ++ [e]))) in * by (rewrite length_app; cbn; lia).
  split; [|by split_and!]. split; cbn [with_head entries current_bindings handle_history compliance_keys directory_mutations merkle_nodes checkpoints registry_state];
    try done.
  - rewrite Hrows. apply Forall2_app; [apply I|by constructor].
  - intros n r Hr. apply lookup_insert_Some in Hr as [[<- <-]|[Hne Hr]].
    + rewrite Nat2Z.id. split; [lia|done].
    + rewrite Hcps in Hr. apply (li_checkpoints _ _ _ _ I) in Hr as (Hn1 & -> & ->). rewrite length_app. cbn [length].
      split; [lia|]. by rewrite head_app, signed_head_app by lia.
  - intros n Hn1. destruct (decide (n = length (es ++ [e]))) as [->|Hne]; [by rewrite lookup_insert_eq|].
    rewrite lookup_insert_ne by lia. rewrite Hcps. apply I. rewrite length_app in *. cbn in *. lia.
  - by rewrite Hhist, omap_snoc, (li_history _ _ _ _ I).
  - unfold bindings_of. by rewrite Hcur, foldl_snoc, (li_current _ _ _ _ I).
  - unfold mutations_of. by rewrite Hdir, foldl_snoc, (li_directory _ _ _ _ I).
  - by rewrite Hcomp, omap_snoc, (li_compliance _ _ _ _ I).
  - intros e' p. rewrite elem_of_app, list_elem_of_singleton. intros [Hin| ->]; [by apply I|apply Hproj].
  - intros e' ep lk n. rewrite elem_of_app, list_elem_of_singleton. intros [Hin| ->]; [by apply I|apply Hsqd].
Qed.
End Invariant.

(** * Reading *)

Section Reading.
Context {C : Crypto} {UP : UrlParser} {EJ : EntryJson} {EL : EntryJsonLaws}.
Context (origin : str) (key : Identity) (es : list LogEntry) (db : Database) (I : log_inv origin key es db).

Lemma parse_row_eq i row e : row_of row e -> entry_ok i e -> parse_entry_row row = Ok e.
Proof.
  intros [Hj Hs Hv Ht Hts (b & Hb & Hl)] [Es Ev Ever [Ets _]]. unfold parse_entry_row.
  rewrite Hs, Hv, Hts. rewrite !nonnegative_fits by lia. cbn [mbind result_bind]. pose proof (u8_range (entry_version e)) as Hr.
  rewrite (proj2 (Z.leb_le _ _)), (proj2 (Z.ltb_lt _ _)) by lia. cbn [andb ok_or mbind result_bind].
  rewrite (entry_json e (er_json row) Hj). cbn [ok_or mbind result_bind]. rewrite to_u8_u8, Ht, !Z.eqb_refl, !bool_decide_true by done.
  cbn [negb orb guard mbind result_bind]. rewrite Hb. cbn [malformed_entry map_err mbind result_bind]. rewrite bool_decide_true by done. done.
Qed.

Lemma row_lookup i e : es !! i = Some e -> exists row, entries db !! i = Some row /\ row_of row e /\ er_seq row = Z.of_nat i /\ parse_entry_row row = Ok e.
Proof.
  intros Hi. destruct (Forall2_lookup_r _ _ _ _ _ (li_rows _ _ _ _ I) Hi) as (row & Hrow & R). exists row.
  pose proof (li_ok _ _ _ _ I i e Hi) as Hok. split; [done|]. split; [done|]. split; [|by eapply parse_row_eq].
  rewrite (ro_seq _ _ R). apply Hok.
Qed.

Lemma length_rows : length (entries db) = length es.
Proof. eapply Forall2_length, I. Qed.

Lemma rows_seq i row : entries db !! i = Some row -> er_seq row = Z.of_nat i.
Proof.
  intros Hr. destruct (Forall2_lookup_l _ _ _ _ _ (li_rows _ _ _ _ I) Hr) as (e & He & R). rewrite (ro_seq _ _ R). by apply (li_ok _ _ _ _ I).
Qed.

Lemma entry_at_eq (i : nat) : Z.of_nat i < 2 ^ 63 -> entry_at db (Z.of_nat i) = Ok (es !! i).
Proof.
  intros Hi. unfold entry_at. rewrite to_i64_fits by done. cbn [mbind result_bind]. destruct (es !! i) as [e|] eqn:He.
  - destruct (row_lookup i e He) as (row & Hrow & R & Es & Hp).
    assert (list_find (fun r => er_seq r = Z.of_nat i) (entries db) = Some (i, row)) as ->.
    { apply list_find_Some. split; [done|]. split; [done|]. intros j y Hy Hj. rewrite (rows_seq j y Hy). lia. }
    by rewrite Hp.
  - assert (list_find (fun r => er_seq r = Z.of_nat i) (entries db) = None) as ->; [|done].
    apply list_find_None, Forall_lookup. intros j y Hy. rewrite (rows_seq j y Hy). apply lookup_lt_Some in Hy. rewrite length_rows in Hy.
    apply lookup_ge_None in He. lia.
Qed.

(** The rows from a sequence on. *)
Lemma rows_from (rows : list EntryRow) k from :
  (forall i row, rows !! i = Some row -> er_seq row = Z.of_nat (k + i)) -> 0 <= from ->
  filter (fun row => from <= er_seq row) rows = drop (Z.to_nat from - k) rows.
Proof.
  revert k. induction rows as [|r rows IH]; intros k H Hf; [by rewrite drop_nil|].
  pose proof (H 0%nat r eq_refl) as Hr. rewrite filter_cons. specialize (IH (S k)). rewrite IH; [|intros i row Hi; rewrite (H (S i) row Hi); lia|done].
  destruct (decide (from <= er_seq r)).
  - replace (Z.to_nat from - k)%nat with 0%nat by lia. replace (Z.to_nat from - S k)%nat with 0%nat by lia. by rewrite !drop_0.
  - replace (Z.to_nat from - k)%nat with (S (Z.to_nat from - S k)) by lia. done.
Qed.

Lemma parse_rows_eq rows l : Forall2 (fun row e => parse_entry_row row = Ok e) rows l -> parse_rows rows = Ok l.
Proof. induction 1 as [|row e rows l Hr _ IH]; [done|]. cbn [parse_rows]. by rewrite Hr, IH. Qed.

Lemma parsed_rows : Forall2 (fun row e => parse_entry_row row = Ok e) (entries db) es.
Proof.
  apply Forall2_same_length_lookup_2; [apply length_rows|]. intros i row e Hr He. destruct (row_lookup i e He) as (row' & Hr' & _ & _ & Hp).
  rewrite Hr in Hr'. by injection Hr' as ->.
Qed.

Definition page_size (limit : Z) : nat := Z.to_nat (Z.max 1 (Z.min limit MAX_PAGE_SIZE)).

Lemma entries_page_eq from limit : 0 <= from < 2 ^ 63 ->
  entries_page db from limit = Ok (take (page_size limit) (drop (Z.to_nat from) es)).
Proof.
  intros Hf. unfold entries_page. cbv zeta. rewrite (to_i64_fits from) by lia. cbn [mbind result_bind].
  rewrite to_i64_fits by (unfold MAX_PAGE_SIZE; lia). cbn [mbind result_bind].
  rewrite (rows_from (entries db) 0) by (apply rows_seq || lia). rewrite Nat.sub_0_r. apply parse_rows_eq.
  apply Forall2_take, Forall2_drop, parsed_rows.
Qed.

Lemma inclusion_proof_eq (index size : nat) : 
  storage_inclusion_proof db (Z.of_nat index) (Z.of_nat size) = Ok (inclusion_proof (from_leaves (leaves_of es)) index size).
Proof.
  unfold storage_inclusion_proof. rewrite (load_state_inv _ _ _ _ I), (li_state _ _ _ _ I). cbn [mbind result_bind ts_size].
  unfold inclusion_proof. cbn [leaves from_leaves]. rewrite length_leaves.
  destruct (Z.ltb_spec (Z.of_nat (length es)) (Z.of_nat size)), (Nat.ltb_spec (length es) size); try lia; [done|].
  destruct (Z.leb_spec (Z.of_nat size) (Z.of_nat index)), (Nat.leb_spec size index); try lia; [done|]. cbn [orb]. rewrite !Nat2Z.id.
  rewrite (node_inclusion_path_eq (merkle_nodes db) (leaves_of es)); [by rewrite drop_0|apply I|rewrite length_leaves; apply I|rewrite length_leaves; lia].
Qed.

Lemma consistency_proof_eq (old new : nat) :
  storage_consistency_proof db (Z.of_nat old) (Z.of_nat new) = Ok (consistency_proof (from_leaves (leaves_of es)) old new).
Proof.
  unfold storage_consistency_proof. rewrite (load_state_inv _ _ _ _ I), (li_state _ _ _ _ I). cbn [mbind result_bind ts_size].
  unfold consistency_proof. cbn [leaves from_leaves]. rewrite length_leaves.
  destruct (Z.eqb_spec (Z.of_nat old) 0), (Nat.eqb_spec old 0); try lia; [by rewrite ?orb_true_r|].
  destruct (Z.ltb_spec (Z.of_nat new) (Z.of_nat old)), (Nat.ltb_spec new old); try lia; [by rewrite ?orb_true_r|].
  destruct (Z.ltb_spec (Z.of_nat (length es)) (Z.of_nat new)), (Nat.ltb_spec (length es) new); try lia; [done|]. cbn [orb]. rewrite !Nat2Z.id.
  rewrite (node_consistency_path_eq (merkle_nodes db) (leaves_of es)); [by rewrite drop_0|apply I|rewrite length_leaves; apply I|rewrite length_leaves; lia|lia].
Qed.

Lemma size_root_eq (n : nat) : (n <= length es)%nat -> root_for_size (merkle_nodes db) n = Ok (head_at es n).
Proof.
  intros Hn. apply (root_for_size_eq (merkle_nodes db) (leaves_of es)); [apply I|rewrite length_leaves; apply I|by rewrite length_leaves].
Qed.

(** The latest binding of a handle, in the history and in the map. *)
Lemma last_history l h :
  last (filter (fun row => hi_handle row = h) (omap history_row l)) =
  (fun row => {| hi_seq := bi_seq row; hi_handle := h; hi_pubkey := bi_pubkey row; hi_subject := bi_subject row |}) <$> bindings_of l !! h.
Proof.
  induction l as [|e l IH] using rev_ind; [cbn; by rewrite lookup_empty|].
  rewrite omap_snoc. unfold bindings_of. rewrite foldl_snoc. fold (bindings_of l). unfold history_row at 2, bind_handle_of.
  destruct (handle_binding e) as [[[h' k] s]|]; cbn [mbind option_bind]; [|by rewrite app_nil_r].
  rewrite filter_app, filter_cons, filter_nil. cbn [hi_handle]. destruct (decide (h' = h)) as [->|Hne].
  - rewrite last_snoc, lookup_insert_eq. done.
  - rewrite app_nil_r, IH, lookup_insert_ne by done. done.
Qed.

Lemma history_row_seq e r : history_row e = Some r -> hi_seq r = seq e.
Proof. unfold history_row. destruct (handle_binding e) as [[[h k] s]|]; [|done]. by intros [= <-]. Qed.

(** The rows of the history below a size are those of the log cut at it. *)
Lemma history_below l k n :
  (forall i e, l !! i = Some e -> seq e = Z.of_nat (k + i)) ->
  filter (fun row => hi_seq row < Z.of_nat n) (omap history_row l) = omap history_row (take (n - k) l).
Proof.
  revert k. induction l as [|e l IH]; intros k H; [by rewrite take_nil|].
  pose proof (H 0%nat e eq_refl) as He. specialize (IH (S k) ltac:(intros i e' Hi; rewrite (H (S i) e' Hi); lia)).
  rewrite (omap_cons history_row e l). destruct (Nat.le_gt_cases n k) as [Hle|Hgt].
  - replace (n - k)%nat with 0%nat by lia. replace (n - S k)%nat with 0%nat in IH by lia. rewrite take_0 in *.
    destruct (history_row e) as [r|] eqn:Er; [|done]. apply history_row_seq in Er. rewrite filter_cons, decide_False by lia. done.
  - replace (n - k)%nat with (S (n - S k)) by lia. cbn [take]. rewrite (omap_cons history_row e).
    destruct (history_row e) as [r|] eqn:Er; [|done]. apply history_row_seq in Er. rewrite filter_cons, decide_True by lia. by rewrite IH.
Qed.

Lemma binding_before_eq h (n : nat) : (n <= length es)%nat ->
  binding_before db h (Z.of_nat n) = Ok ((fun row => (bi_seq row, bi_pubkey row, bi_subject row)) <$> bindings_of (take n es) !! h).
Proof.
  intros Hn. unfold binding_before. pose proof (li_size _ _ _ _ I). rewrite to_i64_fits by lia. cbn [mbind result_bind].
  rewrite (li_history _ _ _ _ I).
  assert (filter (fun row => hi_handle row = h /\ hi_seq row < Z.of_nat n) (omap history_row es)
    = filter (fun row => hi_handle row = h) (omap history_row (take n es))) as ->.
  { pose proof (history_below es 0 n ltac:(intros i e Hi; apply (li_ok _ _ _ _ I i e Hi))) as E. rewrite Nat.sub_0_r in E. rewrite <-E.
    by rewrite list_filter_filter. }
  rewrite last_history. destruct (bindings_of (take n es) !! h) as [row|] eqn:Er; [|done]. cbn [fmap option_fmap option_map].
  cbn [hi_seq hi_pubkey hi_subject]. rewrite nonnegative_fits; [done|].
  apply bindings_of_Some in Er as (e & Hin & _ & ->). apply list_elem_of_lookup in Hin as [i Hi]. apply lookup_take_Some in Hi as [Hi _].
  rewrite (eo_seq _ _ (li_ok _ _ _ _ I i e Hi)). lia.
Qed.
End Reading.
