(* ===== verification/RegistrySteps.v ===== *)
(** Every transaction of the registry keeps its invariant: ownership and quota of handles, the order of directory
    mutations, the lifecycle of compliance keys, the results of challenges, receipts and the published head. *)
From stdpp Require Import sorting.
From S2P Require Import Prelude Text B32 Network Crypto Origin Token Address Compliance Handle Entry Merkle MerkleProofs Checkpoint WitnessClient WitnessPair RegistryNodes RegistryStore RegistryLimits RegistryFlows RegistryServer RegistryInvariant.

(** * What the log promises *)

(** A handle belongs to one provider account for good. *)
Definition one_owner (es : list LogEntry) : Prop :=
  forall e e' h k s k' s', e ∈ es -> e' ∈ es -> handle_binding e = Some (h, k, s) -> handle_binding e' = Some (h, k', s') -> s = s'.

(** The handles an account holds. *)
Definition held (subject : str) (m : gmap str BindingRow) : nat :=
  size (filter (fun p : str * BindingRow => bi_subject p.2 = subject) m).
Definition within_quota (es : list LogEntry) : Prop := forall subject, (held subject (bindings_of es) <= MAX_HANDLES_PER_SUBJECT)%nat.

(** The mutations of one loft at one endpoint are logged in the order it numbered them, each once. *)
Definition streams_advance (es : list LogEntry) : Prop :=
  forall i j e e' ep lk n n', (i < j)%nat -> es !! i = Some e -> es !! j = Some e' ->
    authenticated_directory_mutation e = Some (ep, lk, n) -> authenticated_directory_mutation e' = Some (ep, lk, n') -> n < n'.

(** A key keeps its public half and its interval, and its status only advances, from active. *)
Definition same_key (r r' : ComplianceProjection) : Prop :=
  cx_public_key r = cx_public_key r' /\ cx_not_before_ms r = cx_not_before_ms r' /\ cx_not_after_ms r = cx_not_after_ms r'.
Record lifecycle (rows : list ComplianceRow) : Prop := {
  lc_first i r : rows !! i = Some r ->
    (forall j r', (j < i)%nat -> rows !! j = Some r' -> cx_key_id (ck_projection r') <> cx_key_id (ck_projection r)) ->
    cx_status (ck_projection r) = u8 (status_tag Active);
  lc_next i j r r' : (i < j)%nat -> rows !! i = Some r -> rows !! j = Some r' ->
    cx_key_id (ck_projection r) = cx_key_id (ck_projection r') ->
    same_key (ck_projection r) (ck_projection r') /\ cx_status (ck_projection r) < cx_status (ck_projection r');
}.

(** A directory entry of the log carries the loft's authentication. *)
Definition directory_signed (e : LogEntry) : Prop :=
  match e with
  | EDirectoryAdd _ | EDirectoryRemove _ => is_Some (authenticated_directory_mutation e)
  | _ => True
  end.

Record log_promises (es : list LogEntry) (keys : list ComplianceRow) : Prop := {
  lp_owner : one_owner es;
  lp_quota : within_quota es;
  lp_streams : streams_advance es;
  lp_keys : lifecycle keys;
  lp_signed : Forall directory_signed es;
}.

(** ** Handles *)

Lemma held_insert_other subject h row m :
  bi_subject row <> subject -> (forall old, m !! h = Some old -> bi_subject old <> subject) ->
  held subject (<[h := row]> m) = held subject m.
Proof. intros Hne Hold. unfold held. rewrite map_filter_insert_not'; [done|done|]. intros y Hy. by apply Hold. Qed.

Lemma held_insert subject h row m : bi_subject row = subject ->
  held subject (<[h := row]> m) =
    match m !! h with Some old => if decide (bi_subject old = subject) then held subject m else S (held subject m) | None => S (held subject m) end.
Proof.
  intros Hs. unfold held. rewrite map_filter_insert_True by done. destruct (m !! h) as [old|] eqn:E.
  - destruct (decide (bi_subject old = subject)).
    + rewrite map_size_insert_Some; [done|]. exists old. by apply map_lookup_filter_Some.
    + rewrite map_size_insert_None; [done|]. apply map_lookup_filter_None. right. intros x Hx. rewrite E in Hx. by injection Hx as <-.
  - rewrite map_size_insert_None; [done|]. apply map_lookup_filter_None. by left.
Qed.

Lemma held_by_subject_free db subject h : current_bindings db !! h = None ->
  held_by_subject db subject h = held subject (current_bindings db).
Proof.
  intros H. unfold held_by_subject, held. f_equal. apply map_filter_ext. intros i x Hi. cbn. split; [tauto|].
  intros Hs. split; [done|]. congruence.
Qed.

(** A binding that follows the rule keeps owners and quotas. *)
Lemma bind_promises es e h k s :
  one_owner es -> within_quota es -> handle_binding e = Some (h, k, s) ->
  match bindings_of es !! h with
  | None => (held s (bindings_of es) < MAX_HANDLES_PER_SUBJECT)%nat
  | Some row => bi_subject row = s
  end ->
  one_owner (es ++ [e]) /\ within_quota (es ++ [e]).
Proof.
  intros Ho Hq He Hrule.
  assert (forall e' k' s', e' ∈ es -> handle_binding e' = Some (h, k', s') -> s' = s) as Hprev.
  { intros e' k' s' Hin He'. destruct (bindings_of es !! h) as [row|] eqn:Er; [|by destruct (bindings_of_None _ _ Er e' k' s' Hin)].
    apply bindings_of_Some in Er as (e0 & Hin0 & He0 & _). rewrite <-Hrule. by eapply (Ho e' e0). }
  split.
  - intros e1 e2 h' k1 s1 k2 s2. rewrite !elem_of_app, !list_elem_of_singleton.
    intros [H1| ->] [H2| ->] E1 E2; [by eapply (Ho e1 e2)| | |congruence].
    + rewrite He in E2. simplify_eq. by eapply Hprev.
    + rewrite He in E1. simplify_eq. symmetry. by eapply Hprev.
  - intros subject. unfold bindings_of. rewrite foldl_snoc. fold (bindings_of es). unfold bind_handle_of. rewrite He.
    specialize (Hq subject). destruct (decide (s = subject)) as [<-|Hne].
    + rewrite held_insert by done. destruct (bindings_of es !! h) as [row|]; [|lia]. by rewrite decide_True.
    + rewrite held_insert_other; [done|done|]. intros old Hold. rewrite Hold in Hrule. congruence.
Qed.

Lemma other_promises es e : handle_binding e = None -> one_owner es -> within_quota es -> one_owner (es ++ [e]) /\ within_quota (es ++ [e]).
Proof.
  intros He Ho Hq. split.
  - intros e1 e2 h k1 s1 k2 s2. rewrite !elem_of_app, !list_elem_of_singleton. intros [H1| ->] [H2| ->] E1 E2; try congruence.
    by eapply (Ho e1 e2).
  - intros subject. unfold bindings_of. rewrite foldl_snoc. unfold bind_handle_of. rewrite He. apply Hq.
Qed.

(** ** Directory streams *)

Lemma mutations_of_Some es ep lk row : mutations_of es !! (ep, lk) = Some row ->
  exists i e, es !! i = Some e /\ authenticated_directory_mutation e = Some (ep, lk, dm_mutation_sequence row) /\ dm_entry_seq row = seq e /\
    forall j e' n, (i < j)%nat -> es !! j = Some e' -> authenticated_directory_mutation e' <> Some (ep, lk, n).
Proof.
  induction es as [|e es IH] using rev_ind; [intros H; cbn in H; by rewrite lookup_empty in H|].
  unfold mutations_of. rewrite foldl_snoc. fold (mutations_of es). unfold mutate_of.
  destruct (authenticated_directory_mutation e) as [[[ep' lk'] n']|] eqn:Ea; intros H.
  - destruct (decide ((ep', lk') = (ep, lk))) as [[= -> ->]|Hne].
    + rewrite lookup_insert_eq in H. injection H as <-. exists (length es), e. cbn. split_and!; [by rewrite list_lookup_middle|done|done|].
      intros j e1 n Hj Hl. apply lookup_lt_Some in Hl. rewrite length_app in Hl. cbn in Hl. lia.
    + rewrite lookup_insert_ne in H by done. destruct (IH H) as (i & e1 & Hi & ? & ? & Hlast). exists i, e1.
      split_and!; [by apply lookup_app_l_Some|done|done|]. intros j e' n Hj Hl. apply lookup_snoc_Some in Hl as [[_ Hl]|[_ <-]]; [by eapply Hlast|].
      rewrite Ea. congruence.
  - destruct (IH H) as (i & e1 & Hi & ? & ? & Hlast). exists i, e1.
    split_and!; [by apply lookup_app_l_Some|done|done|]. intros j e' n Hj Hl. apply lookup_snoc_Some in Hl as [[_ Hl]|[_ <-]]; [by eapply Hlast|].
    by rewrite Ea.
Qed.

Lemma mutations_of_None es ep lk : mutations_of es !! (ep, lk) = None -> forall e n, e ∈ es -> authenticated_directory_mutation e <> Some (ep, lk, n).
Proof.
  induction es as [|e es IH] using rev_ind; [set_solver|]. unfold mutations_of. rewrite foldl_snoc. fold (mutations_of es). unfold mutate_of.
  intros H e' n. rewrite elem_of_app, list_elem_of_singleton. intros [Hin| ->].
  - destruct (authenticated_directory_mutation e) as [[[ep' lk'] n']|]; [|by apply IH]. apply IH; [|done].
    destruct (decide ((ep', lk') = (ep, lk))) as [E|Hne]; [by rewrite E, lookup_insert_eq in H|by rewrite lookup_insert_ne in H].
  - intros Ea. rewrite Ea, lookup_insert_eq in H. done.
Qed.

Lemma streams_snoc es e :
  streams_advance es ->
  (forall ep lk n, authenticated_directory_mutation e = Some (ep, lk, n) ->
     match mutations_of es !! (ep, lk) with Some row => dm_mutation_sequence row < n | None => True end) ->
  streams_advance (es ++ [e]).
Proof.
  intros Hs Hrule i j e1 e2 ep lk n n' Hij H1 H2 E1 E2. apply lookup_snoc_Some in H2 as [[Hj H2]|[Hj <-]].
  - apply lookup_snoc_Some in H1 as [[_ H1]|[-> _]]; [by eapply (Hs i j)|lia].
  - subst j. apply lookup_snoc_Some in H1 as [[_ H1]|[-> _]]; [|lia]. specialize (Hrule _ _ _ E2).
    destruct (mutations_of es !! (ep, lk)) as [row|] eqn:Em; [|by destruct (mutations_of_None _ _ _ Em e1 n (list_elem_of_lookup_2 _ _ _ H1))].
    apply mutations_of_Some in Em as (i0 & e0 & H0 & E0 & _ & Hlast). destruct (lt_eq_lt_dec i i0) as [[Hlt| ->]|Hgt].
    + pose proof (Hs i i0 _ _ _ _ _ _ Hlt H1 H0 E1 E0). lia.
    + rewrite H0 in H1. injection H1 as <-. rewrite E0 in E1. injection E1 as <-. done.
    + by destruct (Hlast i e1 n Hgt H1).
Qed.

(** ** Compliance keys *)

(** The last row that satisfies a predicate. *)
Lemma last_filter_Some {A} (P : A -> Prop) `{HD : !forall x, Decision (P x)} (l : list A) x : last (filter P l) = Some x ->
  exists i, l !! i = Some x /\ P x /\ forall j y, (i < j)%nat -> l !! j = Some y -> ~ P y.
Proof.
  induction l as [|a l IH] using rev_ind; [done|]. rewrite filter_app, filter_cons, filter_nil. destruct (decide (P a)) as [Ha|Ha].
  - rewrite last_snoc. intros [= ->]. exists (length l). split_and!; [by rewrite list_lookup_middle|done|].
    intros j y Hj Hy. apply lookup_lt_Some in Hy. rewrite length_app in Hy. cbn in Hy. lia.
  - rewrite app_nil_r. intros H. destruct (IH H) as (i & Hi & Hp & Hl). exists i. split_and!; [by apply lookup_app_l_Some|done|].
    intros j y Hj Hy. apply lookup_snoc_Some in Hy as [[_ Hy]|[_ <-]]; [by eapply Hl|done].
Qed.

Lemma last_filter_None {A} (P : A -> Prop) `{HD : !forall x, Decision (P x)} (l : list A) : last (filter P l) = None -> forall x, x ∈ l -> ~ P x.
Proof.
  intros H x Hx Hp. apply last_None in H. assert (x ∈ filter P l) as Hin by (by apply list_elem_of_filter). rewrite H in Hin. set_solver.
Qed.

Lemma lifecycle_snoc rows r :
  lifecycle rows ->
  match newest_compliance rows (cx_key_id (ck_projection r)) with
  | None => cx_status (ck_projection r) = u8 (status_tag Active)
  | Some prev => same_key (ck_projection prev) (ck_projection r) /\ cx_status (ck_projection prev) < cx_status (ck_projection r)
  end ->
  lifecycle (rows ++ [r]).
Proof.
  intros [Hf Hn] Hrule. unfold newest_compliance in Hrule. split.
  - intros i x Hi Hnone. apply lookup_snoc_Some in Hi as [[Hlt Hi]|[-> <-]].
    + apply (Hf i x Hi). intros j y Hj Hy. apply (Hnone j y Hj). by apply lookup_app_l_Some.
    + destruct (last _) as [prev|] eqn:El; [|done]. apply last_filter_Some in El as (j & Hj & Ek & _).
      destruct (Hnone j prev); [by apply lookup_lt_Some in Hj|by apply lookup_app_l_Some|done].
  - intros i j x y Hij Hi Hj Ek. apply lookup_snoc_Some in Hj as [[Hlt Hj]|[-> <-]].
    + apply lookup_snoc_Some in Hi as [[_ Hi]|[-> _]]; [by eapply (Hn i j)|lia].
    + apply lookup_snoc_Some in Hi as [[_ Hi]|[-> _]]; [|lia]. destruct (last _) as [prev|] eqn:El.
      * apply last_filter_Some in El as (i0 & H0 & Ek0 & Hlast). destruct Hrule as [[S1 [S2 S3]] S4].
        destruct (lt_eq_lt_dec i i0) as [[Hl| ->]|Hg].
        -- destruct (Hn i i0 _ _ Hl Hi H0) as [[T1 [T2 T3]] T4]; [congruence|]. split; [split_and!; congruence|lia].
        -- rewrite H0 in Hi. injection Hi as ->. done.
        -- by destruct (Hlast i x Hg Hi).
      * by destruct (last_filter_None _ _ El x (list_elem_of_lookup_2 _ _ _ Hi)).
Qed.

(** * The invariant *)

Section Steps.
Context {C : Crypto} {UP : UrlParser} {EJ : EntryJson} {RJ : ReceiptJson}.
Context (rg : Registry).

#[local] Notation origin := (rg_origin rg).
#[local] Notation key := (rg_signing_key rg).

Definition checkpoint_at (es : list LogEntry) (n : nat) : Checkpoint :=
  {| cp_origin := origin; cp_size := Z.of_nat n; cp_root := head_at es n |}.

(** A published head is a head of the log.  Only the empty one can be published without a quorum. *)
Definition published_ok (es : list LogEntry) (p : PublishedState) : Prop :=
  exists n, (n <= length es)%nat /\ ts_size (pu_state p) = Z.of_nat n /\ ts_root (pu_state p) = head_at es n /\
    checkpoint_verify (ts_checkpoint (pu_state p)) (verifying_key key) = Ok (checkpoint_at es n) /\
    match pu_witnessed_at p with
    | None => n = 0%nat
    | Some since => exists policy now v, rg_witness_policy rg = Some policy /\ 0 <= since /\
        policy_verify_checkpoint policy (ts_checkpoint (pu_state p)) (verifying_key key) now = Ok v /\ witnessed_at v = Some since
    end.

Definition receipt_ok (es : list LogEntry) (name : str) (row : ReceiptRow) : Prop :=
  exists r n, receipt_to_string r = Some (rr_receipt_json row) /\ (n <= length es)%nat /\ rr_tree_size row = Z.of_nat n /\
    rc_witness_name r = name /\ rc_size r = rr_tree_size row /\ rc_root r = rr_root row /\ rc_witnessed_at r = rr_witnessed_at row /\
    0 < rr_witnessed_at row /\ rr_root row = head_at es n /\
    checkpoint_verify (rc_note r) (verifying_key key) = Ok (checkpoint_at es n).

(** A consumed challenge names the binding it authorised: of its own handle, to its own key. *)
Definition challenge_ok (es : list LogEntry) (row : StoredIdentityChallenge) : Prop :=
  0 <= ic_expires_at row /\
  match ic_consumed_at row, ic_binding_seq row with
  | None, None => True
  | Some _, Some s => exists i e k subject, s = Z.of_nat i /\ es !! i = Some e /\
      handle_binding e = Some (ic_handle row, k, subject) /\ storage_decode_hex k 32 = Some (vec_to_list (ic_pubkey row))
  | _, _ => False
  end.

Record registry_inv (es : list LogEntry) (db : Database) : Prop := {
  rv_log : log_inv origin key es db;
  rv_promises : log_promises es (compliance_keys db);
  rv_published : published_ok es (published_state db);
  rv_receipts : map_Forall (receipt_ok es) (witness_receipts db);
  rv_challenges : map_Forall (fun _ => challenge_ok es) (identity_challenges db);
  rv_results h h' r r' s : identity_challenges db !! h = Some r -> identity_challenges db !! h' = Some r' ->
    ic_binding_seq r = Some s -> ic_binding_seq r' = Some s -> h = h';
  rv_admission : admission_ok (global_binding_admission db);
}.

(** ** Growth *)

Lemma checkpoint_at_app es e n : (n <= length es)%nat -> checkpoint_at (es ++ [e]) n = checkpoint_at es n.
Proof. intros H. unfold checkpoint_at. by rewrite head_app. Qed.

Lemma published_snoc es e p : published_ok es p -> published_ok (es ++ [e]) p.
Proof.
  intros (n & Hn & H). exists n. rewrite head_app, checkpoint_at_app by done. split; [rewrite length_app; lia|done].
Qed.

Lemma receipt_app es e name row : receipt_ok es name row -> receipt_ok (es ++ [e]) name row.
Proof.
  intros (r & n & Hj & Hn & H). exists r, n. rewrite head_app, checkpoint_at_app by done. split; [done|]. split; [rewrite length_app; lia|done].
Qed.

Lemma challenge_app es e row : challenge_ok es row -> challenge_ok (es ++ [e]) row.
Proof.
  unfold challenge_ok. intros [He H]. split; [done|]. destruct (ic_consumed_at row), (ic_binding_seq row); try done.
  destruct H as (i & e0 & k & s & -> & Hi & H). exists i, e0, k, s. split; [done|]. split; [by apply lookup_app_l_Some|done].
Qed.

(** Appending one valid entry that keeps the promises. *)
Lemma append_registry_inv es now e db st db' :
  registry_inv es db -> entry_validate e = Ok tt -> entry_version e = LOG_ENTRY_VERSION -> 0 <= ts_ms e ->
  append_entry_in_transaction origin key now e db = Ok (st, db') ->
  log_promises (es ++ [e]) (compliance_keys db ++ match compliance_row e with Some r => [r] | None => [] end) ->
  registry_inv (es ++ [e]) db' /\ seq e = Z.of_nat (length es) /\ identity_challenges db' = identity_challenges db /\
  published_state db' = published_state db.
Proof.
  intros I Hv Hver Hts H Hp. destruct (append_entry_inv origin key es now e db st db') as (Hl & Hseq & Hpub & Hrec & Hch & Hadm); [apply I|done..|].
  split; [|done]. split.
  - done.
  - rewrite (li_compliance _ _ _ _ Hl), omap_snoc, <-(li_compliance _ _ _ _ (rv_log _ _ I)). done.
  - rewrite Hpub. apply published_snoc, I.
  - rewrite Hrec. eapply map_Forall_impl; [apply I|]. intros. by apply receipt_app.
  - rewrite Hch. eapply map_Forall_impl; [apply I|]. intros. by apply challenge_app.
  - rewrite Hch. apply I.
  - rewrite Hadm. apply I.
Qed.

(** ** Handles *)

(** What a request to bind a handle does: it finds the binding already there, or appends it. *)
Inductive bound (es : list LogEntry) (db : Database) (request : HandleAppendRequest) : Append -> list LogEntry -> Database -> Prop :=
| bound_already i e :
    es !! i = Some e -> handle_binding e = Some (rq_handle request, rq_pubkey request, rq_subject request) ->
    current_bindings db !! rq_handle request = Some {| bi_pubkey := rq_pubkey request; bi_subject := rq_subject request; bi_seq := Z.of_nat i |} ->
    bound es db request {| ap_seq := Z.of_nat i; ap_appended := false |} es db
| bound_now e db' :
    handle_binding e = Some (rq_handle request, rq_pubkey request, rq_subject request) -> mode_kind e (rq_mode request) = true ->
    (rq_mode request = Rotate -> exists row, bindings_of es !! rq_handle request = Some row /\ bi_subject row = rq_subject request) ->
    identity_challenges db' = identity_challenges db -> published_state db' = published_state db ->
    bound es db request {| ap_seq := Z.of_nat (length es); ap_appended := true |} (es ++ [e]) db'.

Lemma current_binding_inv es db h o : registry_inv es db -> current_binding db h = Ok o ->
  match o with
  | None => bindings_of es !! h = None
  | Some (s, k, subject) => exists i e, s = Z.of_nat i /\ es !! i = Some e /\ handle_binding e = Some (h, k, subject) /\
      bindings_of es !! h = Some {| bi_pubkey := k; bi_subject := subject; bi_seq := s |}
  end.
Proof.
  intros I. unfold current_binding. rewrite (li_current _ _ _ _ (rv_log _ _ I)). destruct (bindings_of es !! h) as [row|] eqn:E.
  - intros H. apply bind_Ok in H as (s & [_ ->]%nonnegative_Ok & H). injection H as <-.
    destruct (bindings_of_Some _ _ _ E) as (e & Hin & He & Hs). apply list_elem_of_lookup in Hin as [i Hi].
    exists i, e. pose proof (eo_seq _ _ (li_ok _ _ _ _ (rv_log _ _ I) i e Hi)). split; [congruence|]. split; [done|]. split; [done|].
    by destruct row.
  - by intros [= <-].
Qed.

Lemma append_handle_inv es now request db a db' :
  registry_inv es db -> 0 <= rq_ts_ms request ->
  append_handle_in_transaction origin key now request db = Ok (a, db') ->
  exists es', registry_inv es' db' /\ bound es db request a es' db'.
Proof.
  intros I Hts H. unfold append_handle_in_transaction in H. apply bind_Ok in H as (st & Hst & H).
  rewrite (load_state_inv _ _ _ _ (rv_log _ _ I)), (li_state _ _ _ _ (rv_log _ _ I)) in Hst. apply Ok_inj in Hst as <-. cbn [ts_size] in H.
  apply bind_Ok in H as (o & Ho & H). pose proof (current_binding_inv _ _ _ _ I Ho) as Hc. apply bind_Ok in H as (u & Hquota%guard_Ok & H).
  pose proof (rv_promises _ _ I) as [Hown Hq Hstr Hkeys Hsg].
  assert (forall e, entry_validate e = Ok tt -> entry_version e = LOG_ENTRY_VERSION -> ts_ms e = rq_ts_ms request ->
    handle_binding e = Some (rq_handle request, rq_pubkey request, rq_subject request) -> mode_kind e (rq_mode request) = true ->
    authenticated_directory_mutation e = None -> compliance_publication e = None ->
    match bindings_of es !! rq_handle request with
    | None => (held (rq_subject request) (bindings_of es) < MAX_HANDLES_PER_SUBJECT)%nat
    | Some row => bi_subject row = rq_subject request
    end -> (rq_mode request = Rotate -> is_Some (bindings_of es !! rq_handle request)) ->
    forall stt db1, append_entry_in_transaction origin key now e db = Ok (stt, db1) ->
    exists es', registry_inv es' db1 /\ bound es db request {| ap_seq := seq e; ap_appended := true |} es' db1) as Happ.
  { intros e Hv Hver Et Hb Hm Had Hcp Hrule Hrot stt db1 Hap. exists (es ++ [e]).
    destruct (append_registry_inv es now e db stt db1) as (I' & -> & Hch & Hpub); [done|done|done|lia|done| |].
    2:{ split; [done|]. constructor; try done. intros Er. destruct (Hrot Er) as [row Hrow]. rewrite Hrow in Hrule. by exists row. }
    destruct (bind_promises es e _ _ _ Hown Hq Hb Hrule) as [Hown' Hq'].
    unfold compliance_row. rewrite Hcp. cbn. rewrite app_nil_r. split; [done|done| |done|].
    - apply streams_snoc; [done|]. by rewrite Had.
    - apply Forall_app. split; [done|]. constructor; [|done]. by destruct e. }
  destruct o as [[[s k] subject]|]; destruct (rq_mode request) eqn:Em.
  - destruct Hc as (i & e & -> & Hi & He & Hbi). destruct (_ && _) eqn:E; [|done]. b2p. apply Ok_inj, pair_eq in H as [<- <-]. subst k subject.
    exists es. split; [done|]. eapply bound_already; [done|done|]. by rewrite (li_current _ _ _ _ (rv_log _ _ I)).
  - destruct Hc as (i & e & -> & Hi & He & Hbi). destruct (negb _) eqn:E; [done|]. b2p. subst subject. destruct (k ≟ rq_pubkey request) eqn:E; b2p.
    + apply Ok_inj, pair_eq in H as [<- <-]. subst k. exists es. split; [done|]. eapply bound_already; [done|done|]. by rewrite (li_current _ _ _ _ (rv_log _ _ I)).
    + cbv zeta in H. apply bind_Ok in H as ([] & Hv%malformed_entry_Ok & H). apply bind_Ok in H as ([stt db1] & Hap & H).
      apply Ok_inj, pair_eq in H as [<- <-]. eapply Happ; try done; by rewrite Hbi.
  - cbv zeta in H. apply bind_Ok in H as ([] & Hv%malformed_entry_Ok & H). apply bind_Ok in H as ([stt db1] & Hap & H).
    apply Ok_inj, pair_eq in H as [<- <-]. eapply Happ; try done. rewrite Hc. b2p.
    rewrite held_by_subject_free, (li_current _ _ _ _ (rv_log _ _ I)) in Hquota by (by rewrite (li_current _ _ _ _ (rv_log _ _ I))). done.
  - done.
Qed.
End Steps.
