(* ===== verification/RegistryRuns.v ===== *)
(** The runs of a registry: its database from creation through any sequence of requests. *)
From stdpp Require Import sorting.
From S2P Require Import Prelude Text B32 Network Crypto Origin Token Address Compliance Handle Entry Merkle MerkleProofs Checkpoint WitnessClient WitnessPair RegistryNodes RegistryStore RegistryLimits RegistryFlows RegistryServer RegistryBinding RegistryInvariant RegistrySteps.

Lemma purge_lookup now cutoff rows h r : purge_challenges now cutoff rows !! h = Some r -> rows !! h = Some r.
Proof.
  unfold purge_challenges. generalize (take 256 (merge_sort expires_le
    (filter (fun p => stale_challenge now cutoff p.2 = true) (map_to_list rows)))). intros l.
  induction l as [|p l IH]; cbn [foldr]; [done|]. intros [_ H]%lookup_delete_Some. by apply IH.
Qed.

Section Runs.
Context {C : Crypto} {UP : UrlParser} {EJ : EntryJson} {RJ : ReceiptJson}.
Context (rg : Registry).

#[local] Notation origin := (rg_origin rg).
#[local] Notation key := (rg_signing_key rg).
#[local] Notation registry_inv := (registry_inv rg).

(** Changing one of the tables beside the log. *)
Lemma with_challenges_inv es db rows :
  registry_inv es db -> map_Forall (fun _ => challenge_ok es) rows ->
  (forall h h' r r' s, rows !! h = Some r -> rows !! h' = Some r' -> ic_binding_seq r = Some s -> ic_binding_seq r' = Some s -> h = h') ->
  registry_inv es (with_challenges rows db).
Proof. intros [L P Hp Hr _ _ Ha] Hc Hu. split; try done. by destruct L. Qed.

Lemma with_receipts_inv es db rows : registry_inv es db -> map_Forall (receipt_ok rg es) rows -> registry_inv es (with_receipts rows db).
Proof. intros [L P Hp _ Hc Hu Ha] Hr. split; try done. by destruct L. Qed.

Lemma with_published_inv es db p : registry_inv es db -> published_ok rg es p -> registry_inv es (with_published p db).
Proof. intros [L P _ Hr Hc Hu Ha] Hp. split; try done. by destruct L. Qed.

Lemma with_admission_inv es db a : registry_inv es db -> admission_ok a -> registry_inv es (with_admission a db).
Proof. intros [L P Hp Hr Hc Hu _] Ha. split; try done. by destruct L. Qed.

(** ** Challenges *)

Lemma insert_challenge_inv es now provider h handle pubkey pkce expires db u db' :
  registry_inv es db -> 0 <= expires ->
  insert_identity_challenge now provider h handle pubkey pkce expires db = Ok (u, db') -> registry_inv es db'.
Proof.
  intros I He H. unfold insert_identity_challenge in H. cbv zeta in H. apply bind_Ok in H as (n & [_ ->]%to_i64_range & H).
  apply bind_Ok in H as (c & [_ ->]%to_i64_range & H). apply bind_Ok in H as ([] & _ & H). apply bind_Ok in H as (x & [_ ->]%to_i64_range & H).
  apply bind_Ok in H as ([] & _ & H). apply Ok_inj, pair_eq in H as [_ <-]. apply with_challenges_inv; [done|..].
  - apply map_Forall_insert_2; [done|]. intros h' r Hr%purge_lookup. by apply (rv_challenges _ _ _ I h').
  - intros h1 h2 r1 r2 s [[<- <-]|[_ H1%purge_lookup]]%lookup_insert_Some [[<- <-]|[_ H2%purge_lookup]]%lookup_insert_Some E1 E2; try done.
    by eapply (rv_results _ _ _ I).
Qed.

Lemma insert_challenge_published now provider h handle pubkey pkce expires db u db' :
  insert_identity_challenge now provider h handle pubkey pkce expires db = Ok (u, db') -> published_state db' = published_state db.
Proof. unfold insert_identity_challenge. intros H. inv_ok. by apply pair_eq in H as [_ <-]. Qed.

(** The request and the stored row agree when the checks pass. *)
Lemma check_challenge_Ok now challenge request db o :
  check_challenge now challenge request db = Ok o ->
  exists row, identity_challenges db !! co_challenge_hash challenge = Some row /\ ic_provider row = co_provider challenge /\
    ic_handle row = rq_handle request /\ ic_pubkey row = co_pubkey challenge /\
    ic_pkce_challenge row = co_expected_pkce_challenge challenge /\
    storage_decode_hex (rq_pubkey request) 32 = Some (vec_to_list (ic_pubkey row)) /\
    match o with
    | None => ic_consumed_at row = None /\ now <= ic_expires_at row
    | Some s => is_Some (ic_consumed_at row) /\ ic_binding_seq row = Some s /\ validate_recovered_handle_binding db s request = Ok tt
    end.
Proof.
  unfold check_challenge. intros H. apply bind_Ok in H as (u & Hk%guard_Ok & H). apply bind_Ok in H as (row & Hrow%ok_or_Ok & H).
  apply bind_Ok in H as ([] & Hf & H). unfold validate_identity_challenge_fields, secret_option_eq in Hf. apply guard_Ok in Hf. b2p.
  exists row. unfold read_identity_challenge in Hrow. split; [done|]. split; [done|]. split; [done|]. split; [done|]. split; [done|].
  split; [congruence|]. destruct (ic_consumed_at row) as [t|] eqn:Ec; cbn [is_some] in H.
  - apply bind_Ok in H as (s & Hs%ok_or_Ok & H). apply bind_Ok in H as (s' & [_ ->]%nonnegative_Ok & H). apply bind_Ok in H as ([] & Hv & H).
    apply Ok_inj in H as <-. eauto.
  - apply bind_Ok in H as (x & [_ ->]%nonnegative_Ok & H). apply bind_Ok in H as ([] & Hg%guard_Ok & H). apply Ok_inj in H as <-. b2p. done.
Qed.

(** The binding a request finds or appends is at the sequence it returns. *)
Lemma bound_entry es db request a es' db' : bound es db request a es' db' ->
  exists i e, ap_seq a = Z.of_nat i /\ es' !! i = Some e /\ handle_binding e = Some (rq_handle request, rq_pubkey request, rq_subject request).
Proof.
  intros [i e Hi He _|e db1 He _ _ _]; [by exists i, e|]. exists (length es), e. split; [done|]. split; [by rewrite list_lookup_middle|done].
Qed.

Lemma bound_challenges es db request a es' db' : bound es db request a es' db' -> identity_challenges db' = identity_challenges db.
Proof. by intros []. Qed.

(** A stored challenge is the one a commit presents. *)
Definition challenge_matches (c : IdentityChallengeCommit) (request : HandleAppendRequest) (row : StoredIdentityChallenge) : Prop :=
  ic_provider row = co_provider c /\ ic_handle row = rq_handle request /\ ic_pubkey row = co_pubkey c /\
  ic_pkce_challenge row = co_expected_pkce_challenge c.

(** A row before and after its challenge was consumed for the binding at [s]. *)
Definition consumed_from (row row' : StoredIdentityChallenge) (s : Z) : Prop :=
  ic_provider row' = ic_provider row /\ ic_handle row' = ic_handle row /\ ic_pubkey row' = ic_pubkey row /\
  ic_pkce_challenge row' = ic_pkce_challenge row /\ is_Some (ic_consumed_at row') /\ ic_binding_seq row' = Some s.

(** What a commit does: it repeats the result of a consumed challenge, or binds and consumes the challenge. *)
Inductive committed (es : list LogEntry) (db : Database) (challenge : option IdentityChallengeCommit) (request : HandleAppendRequest)
  : Append -> list LogEntry -> Database -> Prop :=
| committed_before c row i :
    challenge = Some c -> identity_challenges db !! co_challenge_hash c = Some row -> ic_binding_seq row = Some (Z.of_nat i) ->
    (i < length es)%nat ->
    committed es db challenge request {| ap_seq := Z.of_nat i; ap_appended := false |} es db
| committed_now a es' db1 db' :
    bound es db request a es' db1 ->
    db' = match challenge with
          | None => db1
          | Some c => with_challenges (identity_challenges db') db1
          end ->
    (forall c, challenge = Some c -> exists row row', identity_challenges db !! co_challenge_hash c = Some row /\ ic_consumed_at row = None /\
       challenge_matches c request row /\ identity_challenges db' !! co_challenge_hash c = Some row' /\ consumed_from row row' (ap_seq a)) ->
    committed es db challenge request a es' db'.

Lemma commit_inv es now created consumed challenge request db a db' :
  registry_inv es db -> 0 <= rq_ts_ms request ->
  commit_handle_binding origin key now created consumed challenge request db = Ok (a, db') ->
  exists es', registry_inv es' db' /\ committed es db challenge request a es' db'.
Proof.
  intros I Hts H. unfold commit_handle_binding in H. apply bind_Ok in H as (o & Ho & H). destruct o as [s|].
  - destruct challenge as [c|]; [|done]. apply check_challenge_Ok in Ho as (row & Hrow & _ & _ & _ & _ & _ & [t Ht] & Hs & _).
    apply Ok_inj, pair_eq in H as [<- <-]. exists es. split; [done|].
    pose proof (rv_challenges _ _ _ I _ _ Hrow) as [_ Hc]. cbn in Hc. rewrite Ht, Hs in Hc. destruct Hc as (i & e & k & x & -> & Hi & _).
    eapply committed_before; try done. by apply lookup_lt_Some in Hi.
  - apply bind_Ok in H as ([a1 db1] & Hap & H). destruct (append_handle_inv _ _ _ _ _ _ _ I Hts Hap) as (es' & I' & Hb).
    destruct challenge as [c|].
    + apply check_challenge_Ok in Ho as (row & Hrow & Hpr & Hh & Hk & Hpk & Hdec & Hcon & _).
      apply bind_Ok in H as (t & [_ ->]%to_i64_range & H). apply bind_Ok in H as (s & [_ ->]%to_i64_range & H).
      apply bind_Ok in H as (rows & Hrows & H). apply Ok_inj, pair_eq in H as [<- <-].
      rewrite (bound_challenges _ _ _ _ _ _ Hb) in Hrows. unfold consume_challenge in Hrows. rewrite Hrow, Hcon in Hrows.
      destruct (ic_binding_seq row) eqn:Es; [done|]. apply bind_Ok in Hrows as ([] & Hu%guard_Ok & Hrows). b2p. apply Ok_inj in Hrows as <-.
      exists es'. split.
      * apply with_challenges_inv; [done|..].
        -- apply map_Forall_insert_2; [|intros h r Hr; apply (rv_challenges _ _ _ I' h); by rewrite (bound_challenges _ _ _ _ _ _ Hb)].
           split; [by apply (rv_challenges _ _ _ I _ _ Hrow)|]. cbn. destruct (bound_entry _ _ _ _ _ _ Hb) as (i & e & Ei & Hi & He).
           exists i, e, (rq_pubkey request), (rq_subject request). rewrite Hh. done.
        -- intros h1 h2 r1 r2 s [[<- <-]|[N1 H1]]%lookup_insert_Some [[<- <-]|[N2 H2]]%lookup_insert_Some E1 E2; try done.
           ++ destruct Hu. exists h2, r2. split; [done|]. cbn in E1. split; [done|congruence].
           ++ destruct Hu. exists h1, r1. split; [done|]. cbn in E2. split; [done|congruence].
           ++ by eapply (rv_results _ _ _ I).
      * eapply committed_now; [done|done|]. intros c' [= <-]. exists row. eexists. split; [done|]. split; [done|]. split; [done|].
        cbn [with_challenges identity_challenges]. rewrite lookup_insert_eq. split; [done|]. unfold consumed_from. cbn. eauto 10.
    + apply Ok_inj, pair_eq in H as [<- <-]. exists es'. split; [done|]. eapply committed_now; [done|done|]. by intros c [=].
Qed.

(** ** Compliance keys and the directory *)

(** An append, of an entry of the log already there or of a new one. *)
Inductive appended (es : list LogEntry) (db : Database) (P : LogEntry -> Prop) : Append -> list LogEntry -> Database -> Prop :=
| appended_before i e : es !! i = Some e -> P e -> appended es db P {| ap_seq := Z.of_nat i; ap_appended := false |} es db
| appended_now e db' : P e -> published_state db' = published_state db -> appended es db P {| ap_seq := Z.of_nat (length es); ap_appended := true |} (es ++ [e]) db'.

Lemma compliance_row_of es db row : log_inv origin key es db -> row ∈ compliance_keys db ->
  exists i e p, es !! i = Some e /\ compliance_publication e = Some p /\ compliance_projection e p = Ok (ck_projection row) /\ ck_seq row = Z.of_nat i.
Proof.
  intros L Hin. rewrite (li_compliance _ _ _ _ L) in Hin. apply list_elem_of_omap in Hin as (e & He & Hr). apply list_elem_of_lookup in He as [i Hi].
  unfold compliance_row in Hr. destruct (compliance_publication e) as [p|] eqn:Ep; [|done]. cbn in Hr.
  destruct (compliance_projection e p) as [x|] eqn:Ex; [|done]. cbn in Hr. injection Hr as <-. exists i, e, p.
  split; [done|]. split; [done|]. split; [done|]. cbn. apply (eo_seq _ _ (li_ok _ _ _ _ L i e Hi)).
Qed.

Lemma projection_fields e p x : compliance_projection e p = Ok x ->
  key_id_encode (key_id p) = Ok (cx_key_id x) /\ storage_decode_hex (cp_public_key p) 32 = Some (cx_public_key x) /\
  cx_not_before_ms x = not_before_ms p /\ cx_not_after_ms x = not_after_ms p /\ cx_status x = u8 (status_tag (status p)).
Proof.
  unfold compliance_projection. intros H. apply bind_Ok in H as (i & Hi%map_err_Ok & H). apply bind_Ok in H as (k & Hk%ok_or_Ok & H).
  apply bind_Ok in H as (? & [_ ->]%to_i64_range & H). apply bind_Ok in H as (? & [_ ->]%to_i64_range & H).
  apply bind_Ok in H as (? & [_ ->]%to_i64_range & H). apply bind_Ok in H as (? & [_ ->]%to_i64_range & H). apply Ok_inj in H as <-. done.
Qed.

(** A transition the registry admits continues the lifecycle of the key. *)
Lemma transition_lifecycle db e p x :
  compliance_publication e = Some p -> validate_compliance_transition db e = Ok None -> compliance_projection e p = Ok x ->
  lifecycle (compliance_keys db) -> lifecycle (compliance_keys db ++ [{| ck_seq := seq e; ck_projection := x |}]).
Proof.
  intros Hp H Hx Hl. apply projection_fields in Hx as (Hid & Hk & Hb & Ha & Hs). apply lifecycle_snoc; [done|]. cbn [ck_projection].
  unfold validate_compliance_transition in H. rewrite Hp in H. cbn [ok_or mbind result_bind] in H. rewrite Hid in H. cbn [map_err mbind result_bind] in H.
  destruct (newest_compliance (compliance_keys db) (cx_key_id x)) as [prev|].
  - rewrite Hk in H. cbn [ok_or mbind result_bind] in H. apply bind_Ok in H as (d & Hd & H). apply bind_Ok in H as ([] & Hg%guard_Ok & H). subst d.
    apply bind_Ok in H as (st & Hst%ok_or_Ok & H). destruct (_ && _) in Hst; [|done]. injection Hst as <-.
    destruct (_ =? _) eqn:Ee in H; [by destruct (nonnegative _ _) in H|]. apply bind_Ok in H as ([] & Hg%guard_Ok & _). apply orb_false_iff in Hg as [Hg _]. b2p.
    destruct (negb (cx_public_key _ ≟ _)) eqn:E1 in Hd; [done|]. apply bind_Ok in Hd as (b & [_ ->]%nonnegative_Ok & Hd).
    destruct (negb (_ =? _)) eqn:E2 in Hd; [done|]. apply bind_Ok in Hd as (a & [_ ->]%nonnegative_Ok & Hd). apply Ok_inj in Hd. b2p.
    unfold same_key. rewrite Hs. split; [split_and!; congruence|lia].
  - apply bind_Ok in H as ([] & Hg%guard_Ok & _). b2p. congruence.
Qed.

Lemma append_compliance_inv es now publication ts db a db' :
  registry_inv es db -> 0 <= ts ->
  append_compliance_key origin key now publication ts db = Ok (a, db') ->
  exists es', registry_inv es' db' /\ appended es db (fun e => exists p, compliance_publication e = Some p /\
    key_id_encode (key_id p) = key_id_encode (key_id publication)) a es' db'.
Proof.
  intros I Hts H. unfold append_compliance_key in H. rewrite (load_state_inv _ _ _ _ (rv_log _ _ _ I)), (li_state _ _ _ _ (rv_log _ _ _ I)) in H.
  cbn [mbind result_bind ts_size] in H. set (e := compliance_key _ publication ts) in H.
  apply bind_Ok in H as ([] & Hv%malformed_entry_Ok & H). apply bind_Ok in H as (o & Ho & H). destruct o as [s|].
  - apply Ok_inj, pair_eq in H as [<- <-]. exists es. split; [done|]. unfold validate_compliance_transition in Ho. cbn [compliance_publication e compliance_key payload ok_or mbind result_bind] in Ho.
    apply bind_Ok in Ho as (id & Hid%map_err_Ok & Ho). destruct (newest_compliance (compliance_keys db) id) as [prev|] eqn:En; [|by inv_ok].
    apply bind_Ok in Ho as (pk & _ & Ho). apply bind_Ok in Ho as (d & _ & Ho). apply bind_Ok in Ho as ([] & _ & Ho).
    apply bind_Ok in Ho as (st & _ & Ho). destruct (_ =? _) in Ho; [|by apply bind_Ok in Ho as ([] & _ & Ho)].
    destruct (nonnegative _ _) as [v|] eqn:Ev in Ho; [|done]. apply nonnegative_Ok in Ev as [_ ->]. injection Ho as <-.
    unfold newest_compliance in En. apply last_filter_Some in En as (j & Hj & Ek & _). apply list_elem_of_lookup_2 in Hj.
    destruct (compliance_row_of _ _ _ (rv_log _ _ _ I) Hj) as (i & e0 & p & Hi & Hp & Hx & ->). eapply appended_before; [done|].
    exists p. split; [done|]. apply projection_fields in Hx as (Hid' & _). by rewrite Hid', Ek, Hid.
  - apply bind_Ok in H as ([st db1] & Hap & H). apply Ok_inj, pair_eq in H as [<- <-]. exists (es ++ [e]).
    destruct (append_entry_inv origin key es now e db st db1) as (L & _); [apply I|done|done|done|done|].
    destruct (li_projected _ _ _ _ L e publication) as [x Hx]; [set_solver|done|].
    destruct (compliance_projection e publication) as [x'|] eqn:Ex; [|done]. injection Hx as ->.
    destruct (append_registry_inv rg es now e db st db1) as (I' & _ & _ & Hpub); try done.
    + assert (compliance_row e = Some {| ck_seq := seq e; ck_projection := x |}) as ->.
      { unfold compliance_row. change (compliance_publication e) with (Some publication). cbn [mbind option_bind]. by rewrite Ex. }
      destruct (rv_promises _ _ _ I) as [Hown Hq Hstr Hkeys Hsg].
      destruct (other_promises es e) as [Hown' Hq']; [done..|]. split; [done|done| |by apply (transition_lifecycle db e publication)|].
      * apply streams_snoc; [done|]. done.
      * apply Forall_app. split; [done|]. by constructor.
    + split; [done|]. constructor; [by exists publication|done].
Qed.

(** The payload of a directory entry. *)
Definition carries (mutation : DirectoryMutation) (e : LogEntry) : Prop :=
  match mutation, e with
  | MutationAdd p, EDirectoryAdd v => payload v = p
  | MutationRemove p, EDirectoryRemove v => payload v = p
  | _, _ => False
  end.

Lemma exact_retry_carries mutation e i ts : exact_retry e (mutation_entry i mutation ts) = true -> carries mutation e.
Proof. destruct mutation, e; cbn; try done; intros H; by b2p. Qed.

Lemma append_directory_inv {EL : EntryJsonLaws} es now mutation ts db a db' :
  registry_inv es db -> 0 <= ts ->
  append_directory_mutation origin key now mutation ts db = Ok (a, db') ->
  exists es', registry_inv es' db' /\ appended es db (carries mutation) a es' db'.
Proof.
  intros I Hts H. unfold append_directory_mutation in H. rewrite (load_state_inv _ _ _ _ (rv_log _ _ _ I)), (li_state _ _ _ _ (rv_log _ _ _ I)) in H.
  cbn [mbind result_bind ts_size] in H. set (e := mutation_entry _ mutation ts) in H.
  apply bind_Ok in H as ([] & Hv%malformed_entry_Ok & H). apply bind_Ok in H as ([[ep lk] ms] & Had%ok_or_Ok & H).
  apply bind_Ok in H as (cur & Hcur & H). apply bind_Ok in H as (retry & Hr & H).
  unfold current_directory_mutation in Hcur. rewrite (li_directory _ _ _ _ (rv_log _ _ _ I)) in Hcur.
  destruct retry as [s|].
  - apply Ok_inj, pair_eq in H as [<- <-]. exists es. split; [done|].
    destruct (mutations_of es !! (ep, lk)) as [row|] eqn:Em; cbn [mbind result_bind] in Hcur.
    2:{ injection Hcur as <-. destruct mutation; [by destruct (1 <? ms)|done]. }
    apply bind_Ok in Hcur as (x & [_ ->]%nonnegative_Ok & Hcur). apply bind_Ok in Hcur as (y & [_ ->]%nonnegative_Ok & Hcur). injection Hcur as <-.
    apply mutations_of_Some in Em as (i & e0 & Hi & _ & Es & _). pose proof (eo_seq _ _ (li_ok _ _ _ _ (rv_log _ _ _ I) i e0 Hi)) as Eseq.
    destruct (ms <? _); [done|]. destruct (ms =? _); [|done]. rewrite Es, Eseq in Hr.
    pose proof (li_size _ _ _ _ (rv_log _ _ _ I)). apply lookup_lt_Some in Hi as Hlt.
    rewrite (entry_at_eq origin key es db (rv_log _ _ _ I) i) in Hr by lia. cbn [mbind result_bind] in Hr. rewrite Hi in Hr. cbn [ok_or mbind result_bind] in Hr.
    destruct (exact_retry e0 e) eqn:Ee; [|done]. injection Hr as <-. eapply appended_before; [done|]. by eapply exact_retry_carries.
  - apply bind_Ok in H as ([st db1] & Hap & H). apply Ok_inj, pair_eq in H as [<- <-]. exists (es ++ [e]).
    assert (entry_version e = LOG_ENTRY_VERSION /\ ts_ms e = ts /\ handle_binding e = None /\ compliance_row e = None /\ carries mutation e)
      as (Hver & Et & Hh & Hcr & Hca) by (by destruct mutation).
    destruct (append_registry_inv rg es now e db st db1) as (I' & -> & _ & Hpub); [done|done|done|lia|done| |split; [done|by constructor]].
    rewrite Hcr, app_nil_r. destruct (rv_promises _ _ _ I) as [Hown Hq Hstr Hkeys Hsg].
    destruct (other_promises es e) as [Hown' Hq']; [done..|]. split; [done|done| |done|apply Forall_app; split; [done|]; constructor; [by destruct mutation; exists (ep, lk, ms)|done]]. apply streams_snoc; [done|].
    intros ep' lk' n En. rewrite Had in En. injection En as <- <- <-.
    destruct (mutations_of es !! (ep, lk)) as [row|]; [|done].
    apply bind_Ok in Hcur as (x & [_ ->]%nonnegative_Ok & Hcur). apply bind_Ok in Hcur as (y & [_ ->]%nonnegative_Ok & Hcur). injection Hcur as <-.
    destruct (ms <? _) eqn:E1; [done|]. destruct (ms =? _) eqn:E2; [|b2p; lia].
    apply bind_Ok in Hr as (ex & _ & Hr). apply bind_Ok in Hr as (ex' & _ & Hr). by destruct (exact_retry ex' e).
Qed.

(** ** Witnesses *)

Lemma verify_policy_checkpoint text k ws t fr v : verify_witness_policy text k ws t fr = Ok v -> checkpoint_verify text k = Ok (vc_checkpoint v).
Proof.
  unfold verify_witness_policy. intros H. apply bind_Ok in H as ([] & _ & H). apply bind_Ok in H as ([] & _ & H). apply bind_Ok in H as (c & Hc & H).
  destruct (t =? 0)%nat; [by apply Ok_inj in H as <-|]. apply bind_Ok in H as ([b sg] & _ & H). apply bind_Ok in H as ([] & _ & H). by apply Ok_inj in H as <-.
Qed.

Lemma witnessed_nonneg text k ws t fr v since : verify_witness_policy text k ws t fr = Ok v -> witnessed_at v = Some since -> 0 <= since.
Proof.
  unfold verify_witness_policy. intros H Hw. apply bind_Ok in H as ([] & _ & H). apply bind_Ok in H as ([] & _ & H). apply bind_Ok in H as (c & Hc & H).
  destruct (t =? 0)%nat; [apply Ok_inj in H as <-; done|]. apply bind_Ok in H as ([b sg] & _ & H). apply bind_Ok in H as ([] & _ & H). apply Ok_inj in H as <-.
  cbn in Hw. injection Hw as <-. set (l := omap _ ws). assert (Forall (fun x => 0 <= x) (sort_newest_first l)) as Hf.
  { unfold sort_newest_first. rewrite merge_sort_Permutation. apply Forall_forall. intros x Hx. apply list_elem_of_omap in Hx as (w & _ & Hx).
    apply newest_valid_cosignature_Some in Hx as [[? _] _]. lia. }
  destruct (nth_in_or_default (t - 1) (sort_newest_first l) 0) as [Hin| ->]; [|done]. rewrite Forall_forall in Hf. apply Hf. by apply list_elem_of_In.
Qed.

Lemma checkpoint_size_nonneg text k c : checkpoint_verify text k = Ok c -> 0 <= cp_size c.
Proof. intros (_ & body & sg & _ & (s & _ & Hs%parse_uint_range) & _)%checkpoint_verify_Ok. unfold in_uint in Hs. lia. Qed.

(** A checkpoint the registry signed whose root is that of its log. *)
Lemma own_checkpoint es c : cp_origin c = origin -> 0 <= cp_size c -> cp_root c = head_at es (Z.to_nat (cp_size c)) ->
  c = checkpoint_at rg es (Z.to_nat (cp_size c)).
Proof. intros Ho Hs Hr. unfold checkpoint_at. rewrite Z2Nat.id by done. destruct c; cbn in *. by subst. Qed.

Lemma save_receipt_inv es receipt now_secs now db r db' :
  registry_inv es db -> 0 <= rc_witnessed_at receipt -> registry_save_witness_receipt rg receipt now_secs now db = (r, db') -> registry_inv es db'.
Proof.
  intros I Hw0 H. unfold registry_save_witness_receipt, transact in H.
  match type of H with (match ?x with _ => _ end) = _ => destruct x as [[b db1]|err] eqn:E end; injection H as <- <-; [|done].
  apply bind_Ok in E as (policy & Hp & E). apply bind_Ok in E as (w & _ & E). apply bind_Ok in E as (v & Hv%map_err_Ok & E).
  apply bind_Ok in E as ([] & Hg%guard_Ok & E). b2p. apply bind_Ok in E as (json & Hj%ok_or_Ok & E).
  apply fresh_policy, verify_policy_checkpoint in Hv. pose proof (checkpoint_size_nonneg _ _ _ Hv) as Hsz.
  unfold save_witness_receipt in E. apply bind_Ok in E as ([] & Hg%guard_Ok & E). b2p.
  rewrite (load_state_inv _ _ _ _ (rv_log _ _ _ I)), (li_state _ _ _ _ (rv_log _ _ _ I)) in E. cbn [mbind result_bind ts_size] in E.
  apply bind_Ok in E as ([] & Hle%guard_Ok & E). b2p. rewrite (size_root_eq origin key es db (rv_log _ _ _ I)) in E by lia. cbn [mbind result_bind] in E.
  apply bind_Ok in E as ([] & Hroot%guard_Ok & E). unfold hash_eq in Hroot. b2p. apply bind_Ok in E as (keep & _ & E).
  destruct keep; [by apply Ok_inj, pair_eq in E as [_ <-]|].
  apply bind_Ok in E as (ts & [_ ->]%to_i64_range & E). apply bind_Ok in E as (wt & [_ ->]%to_i64_range & E). apply bind_Ok in E as (up & [_ ->]%to_i64_range & E).
  apply Ok_inj, pair_eq in E as [_ <-]. apply with_receipts_inv; [done|]. apply map_Forall_insert_2; [|apply I].
  assert (vc_checkpoint v = checkpoint_at rg es (Z.to_nat (rc_size receipt))) as Hc.
  { replace (rc_size receipt) with (cp_size (vc_checkpoint v)) by done. apply own_checkpoint; [done|done|]. congruence. }
  rewrite Hc in Hv. exists receipt, (Z.to_nat (rc_size receipt)). cbn [rr_receipt_json rr_tree_size rr_root rr_witnessed_at].
  split_and!; try done; lia.
Qed.

Lemma save_receipt_published now name size root at_ json db b db' :
  save_witness_receipt now name size root at_ json db = Ok (b, db') -> published_state db' = published_state db.
Proof.
  unfold save_witness_receipt. intros H. apply bind_Ok in H as ([] & _ & H). apply bind_Ok in H as (st & _ & H). apply bind_Ok in H as ([] & _ & H).
  apply bind_Ok in H as (rt & _ & H). apply bind_Ok in H as ([] & _ & H). apply bind_Ok in H as (keep & _ & H).
  destruct keep; [by apply Ok_inj, pair_eq in H as [_ <-]|]. inv_ok. by apply pair_eq in H as [_ <-].
Qed.

Lemma promote_inv es now_secs db r db' :
  registry_inv es db -> promote_witnessed_head rg now_secs db = (r, db') ->
  registry_inv es db' /\ ts_size (pu_state (published_state db)) <= ts_size (pu_state (published_state db')).
Proof.
  intros I H. unfold promote_witnessed_head, transact in H.
  match type of H with (match ?x with _ => _ end) = _ => destruct x as [[b db1]|err] eqn:E end; injection H as <- <-; [|done].
  apply bind_Ok in E as (policy & Hp%ok_or_Ok & E).
  rewrite (load_state_inv _ _ _ _ (rv_log _ _ _ I)), (li_state _ _ _ _ (rv_log _ _ _ I)) in E. cbn [mbind result_bind ts_size ts_root ts_checkpoint] in E.
  apply bind_Ok in E as (jsons & _ & E). apply bind_Ok in E as (receipts & _ & E). apply bind_Ok in E as ([v note] & Hv%map_err_Ok & E).
  apply bind_Ok in E as (since & Hs%ok_or_Ok & E). apply bind_Ok in E as ([] & Hg%guard_Ok & E).
  apply orb_false_iff in Hg as [[Ho Hsz]%orb_false_iff Hrt]. b2p.
  unfold assemble_checkpoint in Hv. apply bind_Ok in Hv as ([] & _ & Hv). apply bind_Ok in Hv as (tg & _ & Hv). apply bind_Ok in Hv as (note' & _ & Hv).
  apply bind_Ok in Hv as (v' & Hpol & Hv). apply Ok_inj, pair_eq in Hv as [-> ->]. pose proof Hpol as Hpol'.
  unfold policy_verify_checkpoint in Hpol'. apply or_err_Ok, fresh_policy in Hpol'.
  pose proof (witnessed_nonneg _ _ _ _ _ _ _ Hpol' Hs) as Hnn. apply verify_policy_checkpoint in Hpol'.
  unfold promote_published_state in E. apply bind_Ok in E as ([] & _ & E).
  rewrite (load_state_inv _ _ _ _ (rv_log _ _ _ I)), (li_state _ _ _ _ (rv_log _ _ _ I)) in E. cbn [mbind result_bind ts_size] in E.
  apply bind_Ok in E as ([] & Hle%guard_Ok & E). apply bind_Ok in E as (rt & _ & E). apply bind_Ok in E as ([] & _ & E).
  apply bind_Ok in E as (cur & Hcur & E). apply bind_Ok in E as ([] & Hmono%guard_Ok & E). apply orb_false_iff in Hmono as [Hmono _]. b2p.
  unfold load_published_state in Hcur. apply bind_Ok in Hcur as (psz & [_ ->]%nonnegative_Ok & Hcur). apply bind_Ok in Hcur as (wa & _ & Hcur).
  apply Ok_inj in Hcur as <-. cbn [pu_state ts_size] in *.
  match type of E with (if ?c then _ else _) = _ => destruct c; [by apply Ok_inj, pair_eq in E as [_ <-]|] end.
  apply bind_Ok in E as (ts & [_ ->]%to_i64_range & E). apply bind_Ok in E as (wt & [_ ->]%to_i64_range & E). apply Ok_inj, pair_eq in E as [_ <-].
  split; [|cbn; lia]. apply with_published_inv; [done|]. exists (length es). cbn [pu_state ts_size ts_root ts_checkpoint pu_witnessed_at].
  assert (vc_checkpoint v = checkpoint_at rg es (length es)) as Hc.
  { rewrite (own_checkpoint es (vc_checkpoint v)); [by rewrite Hsz, Nat2Z.id|done|lia|by rewrite Hsz, Nat2Z.id]. }
  rewrite Hc in *. split_and!; try done. exists policy, now_secs, v. done.
Qed.
End Runs.

(** The note the registry signs for a head of its log verifies to that head. *)
Lemma signed_head_verifies {C : Crypto} {CL : CryptoLaws} {UP : UrlParser} (rg : Registry) es n :
  valid_origin (rg_origin rg) = true -> Z.of_nat n < 2 ^ 63 ->
  checkpoint_verify (signed_head (rg_origin rg) (rg_signing_key rg) es n) (verifying_key (rg_signing_key rg)) = Ok (checkpoint_at rg es n).
Proof.
  intros Ho Hn. unfold signed_head. fold (checkpoint_at rg es n). set (c := checkpoint_at rg es n).
  assert (in_uint 64 (cp_size c)) as Hs by (unfold in_uint; cbn; lia). rewrite <-(app_nil_r (checkpoint_sign c _)).
  apply (sign_verifies_with c _ Ho Hs). rewrite app_nil_r. pose proof (sign_length c (rg_signing_key rg) Ho Hs). lia.
Qed.

(** * Runs *)

Section Service.
Context {C : Crypto} {UP : UrlParser} {EJ : EntryJson} {RJ : ReceiptJson} {IP : IdentityProviders}.
Context (rg : Registry) (limits : RegistrationLimits).

(** What can happen to a registry: each phase of a call that changes something is a step of its own, so that the phases of any number of calls
    interleave.  A step takes whatever binding it is given: what is proved of every run does not rest on how a binding was verified.
    A restart keeps the database and loses the memory. *)
Inductive service_step (sv : Service) : Service -> Prop :=
| step_verify instant prepared r accounts :
    verify_handle_binding limits instant prepared (sv_accounts sv) = (r, accounts) -> service_step sv (on_accounts accounts sv)
| step_charge env r sv' :
    charge_binding limits env sv = (r, sv') -> service_step sv sv'
| step_commit env verified r db' :
    0 <= be_commit_ms env -> commit_transaction rg env verified (sv_db sv) = (r, db') -> service_step sv (on_db db' sv)
| step_challenge now provider hash handle pubkey pkce expires_at_ms r db' :
    0 <= expires_at_ms ->
    transact (sv_db sv) (insert_identity_challenge now provider hash handle pubkey pkce expires_at_ms (sv_db sv)) = (r, db') ->
    service_step sv (on_db db' sv)
| step_compliance now created publication r db' :
    0 <= now -> publish_compliance_key_idempotent rg now created publication (sv_db sv) = (r, db') -> service_step sv (on_db db' sv)
| step_directory now created mutation r db' :
    0 <= now -> append_directory rg now created mutation (sv_db sv) = (r, db') -> service_step sv (on_db db' sv)
| step_receipt receipt now_secs now r db' :
    0 <= rc_witnessed_at receipt -> registry_save_witness_receipt rg receipt now_secs now (sv_db sv) = (r, db') -> service_step sv (on_db db' sv)
| step_promote now_secs r db' :
    promote_witnessed_head rg now_secs (sv_db sv) = (r, db') -> service_step sv (on_db db' sv)
| step_restart :
    service_step sv {| sv_db := sv_db sv; sv_admission := admission_new; sv_accounts := limiter_new |}.

Definition service_started (db : Database) : Service := {| sv_db := db; sv_admission := admission_new; sv_accounts := limiter_new |}.

(** A registry that created its database and has run since. *)
Definition reachable (sv : Service) : Prop :=
  exists now db, fresh_database (rg_origin rg) (rg_signing_key rg) now = Ok db /\ rtc service_step (service_started db) sv.

Lemma committed_grows es db challenge request a es' db' : committed es db challenge request a es' db' -> es `prefix_of` es'.
Proof. intros [c row i _ _ _ _|a1 es1 db1 db2 [i e _ _ _|e db3 _ _ _ _] _ _]; try done; apply prefix_app_r; done. Qed.

Lemma appended_grows es db P a es' db' : appended es db P a es' db' -> es `prefix_of` es'.
Proof. intros [i e _ _|e db1 _ _]; [done|]. by apply prefix_app_r. Qed.

Lemma transaction_cases {A} (db : Database) (t : RegistryResult (A * Database)) r db' :
  transact db t = (r, db') -> (exists a, t = Ok (a, db') /\ r = Ok a) \/ (db' = db /\ exists e, r = Err e).
Proof. unfold transact. destruct t as [[a d]|e]; intros [= <- <-]; eauto. Qed.

Context {EL : EntryJsonLaws}.

Lemma committed_published es db challenge request a es' db' : committed es db challenge request a es' db' -> published_state db' = published_state db.
Proof.
  intros [c row i _ _ _ _|a1 es1 db1 db2 B E _]; [done|]. assert (published_state db1 = published_state db) as <- by (by destruct B).
  rewrite E. by destruct challenge.
Qed.

Lemma appended_published es db P a es' db' : appended es db P a es' db' -> published_state db' = published_state db.
Proof. by intros []. Qed.

Lemma commit_transaction_inv es env verified db r db' :
  registry_inv rg es db -> 0 <= be_commit_ms env -> commit_transaction rg env verified db = (r, db') ->
  (db' = db /\ exists e, r = Err e) \/
  exists es' a, r = Ok a /\ registry_inv rg es' db' /\ committed es db (Some (commit_challenge verified)) (commit_request env verified) a es' db'.
Proof.
  intros I Hts H. unfold commit_transaction in H. apply transaction_cases in H as [(a & E & ->)|[-> He]]; [right|left; done].
  apply commit_inv with (es := es) in E as (es' & I' & Hc); [|done|done]. eauto 10.
Qed.

Lemma charge_binding_inv es env sv r sv' :
  registry_inv rg es (sv_db sv) -> charge_binding limits env sv = (r, sv') ->
  registry_inv rg es (sv_db sv') /\ published_state (sv_db sv') = published_state (sv_db sv).
Proof.
  intros I H. unfold charge_binding in H. destruct (charge_global_binding_admission _ _ _ _ _) as [[r2 batch] row] eqn:Eg. injection H as <- <-.
  split; [|done]. apply with_admission_inv; [done|]. eapply charge_global_row; [|exact Eg]. apply (rv_admission _ _ _ I).
Qed.

(** The size of the published head. *)
Definition published_size (sv : Service) : Z := ts_size (pu_state (published_state (sv_db sv))).

Lemma service_step_inv es sv sv' : registry_inv rg es (sv_db sv) -> service_step sv sv' ->
  exists es', registry_inv rg es' (sv_db sv') /\ es `prefix_of` es' /\ published_size sv <= published_size sv'.
Proof.
  intros I [instant prepared r accounts H|env r sv1 H|env verified r db' Hts H
    |now provider hash handle pubkey pkce expires r db' He H
    |now created publication r db' Hn H|now created mutation r db' Hn H|receipt now_secs now r db' Hw H|now_secs r db' H|]; cbn [on_db on_accounts sv_db].
  - by exists es.
  - destruct (charge_binding_inv es env sv r sv1 I H) as [I' E]. exists es. unfold published_size. by rewrite E.
  - destruct (commit_transaction_inv es env verified (sv_db sv) r db' I Hts H) as [[-> _]|(es' & a & _ & I' & Hc)]; [by exists es|].
    exists es'. split; [done|]. split; [by eapply committed_grows|]. unfold published_size. cbn [on_db sv_db]. by rewrite (committed_published _ _ _ _ _ _ _ Hc).
  - exists es. apply transaction_cases in H as [(a & E & _)|[-> _]]; [|done].
    split_and!; [by eapply insert_challenge_inv|done|]. unfold published_size. cbn [on_db sv_db]. by rewrite (insert_challenge_published _ _ _ _ _ _ _ _ _ _ E).
  - unfold publish_compliance_key_idempotent in H. destruct (transact _ _) as [[a|] db1] eqn:Et; injection H as <- <-;
      apply transaction_cases in Et as [(a' & E & Ea)|[-> _]]; try done; try by (exists es).
    apply append_compliance_inv with (es := es) in E as (es' & I' & Ha); [|done|done]. exists es'. split; [done|].
    split; [by eapply appended_grows|]. unfold published_size. cbn [on_db sv_db]. by rewrite (appended_published _ _ _ _ _ _ Ha).
  - unfold append_directory in H. destruct (transact _ _) as [[a|] db1] eqn:Et; injection H as <- <-;
      apply transaction_cases in Et as [(a' & E & Ea)|[-> _]]; try done; try by (exists es).
    destruct (append_directory_inv rg es _ _ _ _ _ _ I Hn E) as (es' & I' & Ha). exists es'. split; [done|].
    split; [by eapply appended_grows|]. unfold published_size. cbn [on_db sv_db]. by rewrite (appended_published _ _ _ _ _ _ Ha).
  - exists es. split; [by eapply save_receipt_inv|]. split; [done|]. unfold published_size. cbn [on_db sv_db].
    unfold registry_save_witness_receipt in H. apply transaction_cases in H as [(a & E & _)|[-> _]]; [|done].
    apply bind_Ok in E as (policy & _ & E). apply bind_Ok in E as (w & _ & E). apply bind_Ok in E as (v & _ & E). apply bind_Ok in E as ([] & _ & E).
    apply bind_Ok in E as (json & _ & E). by rewrite (save_receipt_published _ _ _ _ _ _ _ _ _ E).
  - exists es. destruct (promote_inv rg es now_secs (sv_db sv) r db' I H) as [I' P]. done.
  - by exists es.
Qed.

(** ** Calls are runs *)

(** What other requests do meanwhile is a run. *)
Record others_run (env : BindEnv) : Prop := {
  or_recovering sv : rtc service_step sv (be_while_recovering env sv);
  or_verifying sv : rtc service_step sv (be_while_verifying env sv);
  or_admitting sv : rtc service_step sv (be_while_admitting env sv);
  or_charging sv : rtc service_step sv (be_while_charging env sv);
  or_tracing sv : rtc service_step sv (be_while_tracing env sv);
  or_answering sv : rtc service_step sv (be_while_answering env sv);
}.

Lemma admit_run env verified sv r sv' : others_run env -> admit_handle_binding rg limits env verified sv = (r, sv') -> rtc service_step sv sv'.
Proof.
  intros Ho H. unfold admit_handle_binding in H. destruct (admission_checks _ _ _ _); [|by injection H as <- <-].
  etrans; [apply (or_charging _ Ho)|]. apply rtc_once. by eapply step_charge.
Qed.

Lemma commit_run env verified sv r sv' : others_run env -> 0 <= be_commit_ms env -> commit_binding rg env verified sv = (r, sv') -> rtc service_step sv sv'.
Proof.
  intros Ho Hts H. unfold commit_binding in H. destruct (commit_transaction _ _ _ _) as [[a|e] db] eqn:E; injection H as <- <-.
  - eapply rtc_l; [by eapply step_commit|]. apply (or_answering _ Ho).
  - apply rtc_once. by eapply step_commit.
Qed.

Lemma bind_handle_run env handle pubkey signature proof operation sv r sv' : others_run env -> 0 <= be_commit_ms env ->
  bind_handle rg limits env handle pubkey signature proof operation sv = (r, sv') -> rtc service_step sv sv'.
Proof.
  intros Ho Hts H. unfold bind_handle in H. destruct (prepare_handle_binding _ _ _ _ _ _ _) as [prepared|]; [|by injection H as <- <-].
  destruct (is_some _); [injection H as <- <-; apply (or_recovering _ Ho)|]. cbv zeta in H. etrans; [apply (or_verifying _ Ho)|].
  destruct (verify_handle_binding _ _ _ _) as [[verified|] accounts] eqn:Ev; [|injection H as <- <-; apply rtc_once; by eapply step_verify].
  eapply rtc_l; [by eapply step_verify|]. etrans; [apply (or_admitting _ Ho)|].
  destruct (admit_handle_binding _ _ _ _ _) as [[[]|] sv1] eqn:Ea; [|injection H as <- <-; by eapply admit_run].
  etrans; [by eapply admit_run|]. etrans; [apply (or_tracing _ Ho)|]. destruct (be_captured env); cbn [negb] in H; [|by injection H as <- <-]. by eapply commit_run.
Qed.

Lemma issue_challenge_run custody trace_ready ready_ms issue_ms now random provider handle pubkey signature pkce sv r db' : 0 <= issue_ms ->
  issue_identity_challenge rg custody trace_ready ready_ms issue_ms now random provider handle pubkey signature pkce (sv_db sv) = (r, db') ->
  rtc service_step sv (on_db db' sv).
Proof.
  intros Hi H. unfold issue_identity_challenge in H. apply transaction_cases in H as [(a & E & _)|[-> _]]; [|destruct sv; apply rtc_refl].
  apply bind_Ok in E as ([] & _ & E). apply bind_Ok in E as ([] & _ & E). apply bind_Ok in E as ([] & _ & E). apply bind_Ok in E as ([] & _ & E).
  apply bind_Ok in E as (ci & _ & E). apply bind_Ok in E as ([] & _ & E). cbv zeta in E. apply bind_Ok in E as (ex & Hex%ok_or_Ok & E).
  apply bind_Ok in E as ([u db1] & Hins & E). apply Ok_inj, pair_eq in E as [_ <-]. unfold checked_add in Hex. destruct (_ <? _); [|done]. injection Hex as <-.
  apply rtc_once. eapply step_challenge; [|by rewrite Hins]. unfold IDENTITY_CHALLENGE_TTL_MS. lia.
Qed.

Context {CL : CryptoLaws}.

Lemma fresh_inv now db : valid_origin (rg_origin rg) = true ->
  fresh_database (rg_origin rg) (rg_signing_key rg) now = Ok db -> registry_inv rg [] db.
Proof.
  intros Ho H. pose proof (fresh_log_inv _ _ _ _ H) as L. split; [done|..].
  - rewrite (li_compliance _ _ _ _ L). split.
    + intros e e' h k s k' s' Hin. by apply not_elem_of_nil in Hin.
    + intros subject. unfold held. change (bindings_of []) with (∅ : gmap str BindingRow). rewrite map_filter_empty, map_size_empty. apply Nat.le_0_l.
    + by intros i j e.
    + split; by intros i.
    + done.
  - unfold fresh_database in H. inv_ok. subst db. exists 0%nat. cbn [published_state pu_state ts_size ts_root ts_checkpoint pu_witnessed_at].
    split_and!; try done. by apply (signed_head_verifies rg [] 0).
  - unfold fresh_database in H. inv_ok. subst db. cbn. apply map_Forall_empty.
  - unfold fresh_database in H. inv_ok. subst db. cbn. apply map_Forall_empty.
  - unfold fresh_database in H. inv_ok. subst db. cbn. intros h h' r r' s Hr. by rewrite lookup_empty in Hr.
  - unfold fresh_database in H. inv_ok. subst db. unfold admission_ok. cbn. lia.
Qed.

Lemma run_inv es sv sv' : registry_inv rg es (sv_db sv) -> rtc service_step sv sv' ->
  exists es', registry_inv rg es' (sv_db sv') /\ es `prefix_of` es' /\ published_size sv <= published_size sv'.
Proof.
  intros I R. revert es I. induction R as [sv|sv sv1 sv2 S R IH]; intros es I; [by exists es|].
  destruct (service_step_inv _ _ _ I S) as (es1 & I1 & P1 & Z1). destruct (IH _ I1) as (es2 & I2 & P2 & Z2). exists es2. split; [done|].
  split; [by etrans|lia].
Qed.

Lemma service_reachable_inv sv : valid_origin (rg_origin rg) = true -> reachable sv -> exists es, registry_inv rg es (sv_db sv).
Proof.
  intros Ho (now & db & Hf & R). destruct (run_inv [] (service_started db) sv) as (es & I & _); [by eapply fresh_inv|done|by exists es].
Qed.
End Service.
