(* ===== verification/RegistryServe.v ===== *)
(** What a running registry promises its clients: one owner per handle, an append-only log under one signed head, lookups that verify,
    and a published head that only a quorum of witnesses moves. *)
From stdpp Require Import sorting.
From S2P Require Import Prelude Text B32 Network Crypto Origin Token Address Compliance Handle Entry Merkle MerkleProofs Checkpoint WitnessClient WitnessPair RegistryNodes RegistryStore RegistryLimits RegistryFlows RegistryServer RegistryBinding RegistryInvariant RegistrySteps RegistryRuns.

Section Serve.
Context {C : Crypto} {CL : CryptoLaws} {UP : UrlParser} {EJ : EntryJson} {EL : EntryJsonLaws} {RJ : ReceiptJson} {IP : IdentityProviders}.
Context (rg : Registry) (limits : RegistrationLimits).

#[local] Notation reachable := (reachable rg limits).
#[local] Notation service_step := (service_step rg limits).
#[local] Notation registry_inv := (registry_inv rg).

(** The head being served: its size in the log, and its note. *)
Lemma serving_state_inv es db : registry_inv es db -> valid_origin (rg_origin rg) = true ->
  exists n note, (n <= length es)%nat /\
    serving_state rg db = Ok {| ts_size := Z.of_nat n; ts_root := head_at es n; ts_checkpoint := note |} /\
    checkpoint_verify note (verifying_key (rg_signing_key rg)) = Ok (checkpoint_at rg es n) /\
    match rg_witness_policy rg with
    | None => n = length es
    | Some _ => Z.of_nat n = ts_size (pu_state (published_state db))
    end.
Proof.
  intros I Ho. unfold serving_state. destruct (rg_witness_policy rg).
  - destruct (rv_published _ _ _ I) as (n & Hn & Es & Er & Hv & Hw). exists n, (ts_checkpoint (pu_state (published_state db))).
    split; [done|]. split; [|by rewrite Es]. unfold load_published_state. rewrite Es, nonnegative_fits by lia. cbn [mbind result_bind].
    destruct (pu_witnessed_at (published_state db)) as [since|].
    + destruct Hw as (p & now & v & _ & Hnn & _). rewrite nonnegative_fits by done. cbn. by rewrite Er.
    + cbn. by rewrite Er.
  - exists (length es), (signed_head (rg_origin rg) (rg_signing_key rg) es (length es)). split; [done|].
    rewrite (load_state_inv _ _ _ _ (rv_log _ _ _ I)), (li_state _ _ _ _ (rv_log _ _ _ I)). split; [done|]. split; [|done].
    apply signed_head_verifies; [done|]. apply (li_size _ _ _ _ (rv_log _ _ _ I)).
Qed.

(** An entry of the log has a proof at every head above it, and the client accepts it. *)
Lemma proof_served es db i n e : registry_inv es db -> es !! i = Some e -> (i < n)%nat -> (n <= length es)%nat ->
  exists path b, storage_inclusion_proof db (Z.of_nat i) (Z.of_nat n) = Ok (Some path) /\ leaf_bytes e = Ok b /\
    verify_inclusion (leaf_hash b) i n path (head_at es n) = true.
Proof.
  intros I Hi Hlt Hn. rewrite (inclusion_proof_eq _ _ _ _ (rv_log _ _ _ I)).
  destruct (inclusion_complete (from_leaves (leaves_of es)) i n) as [Hc _].
  destruct Hc as (h & path & Hh & Hp & _ & Hv); [unfold log_size; cbn; rewrite length_leaves; lia|].
  cbn [leaves from_leaves] in Hh. unfold leaves_of in Hh. rewrite list_lookup_fmap, Hi in Hh. injection Hh as <-.
  destruct (row_lookup _ _ _ _ (rv_log _ _ _ I) i e Hi) as (row & _ & R & _). destruct (ro_leaf _ _ R) as (b & Hb & _).
  exists path, b. rewrite Hp, (leaf_of_Ok _ _ Hb) in *. done.
Qed.

Lemma entry_at_lookup es db i e : registry_inv es db -> 0 <= i -> entry_at db i = Ok (Some e) -> es !! Z.to_nat i = Some e.
Proof.
  intros I Hi H. unfold entry_at in H. destruct (to_i64 i _) as [j|] eqn:Ej; [|done]. pose proof Ej as Ej'. apply to_i64_range in Ej' as [Hj ->].
  assert (entry_at db (Z.of_nat (Z.to_nat i)) = Ok (Some e)) as H' by (unfold entry_at; rewrite Z2Nat.id, Ej by done; done).
  rewrite (entry_at_eq _ _ _ _ (rv_log _ _ _ I)) in H' by lia. by injection H'.
Qed.

(** C11: every database a registry reaches is the image of one append-only log.  In every state some log
    [es] of valid entries, numbered from zero, is the content of the entries table; the stored Merkle nodes are those of its tree, the
    registry state and the checkpoint history hold its root at every size under the registry's signature, the handle, directory and
    compliance tables are its projections, receipts and the published head are heads of it, and a consumed challenge names
    its binding.  Whatever happens next, the log only grows at its end. *)
Theorem registry_database_sound (sv : Service) :
  valid_origin (rg_origin rg) = true -> reachable sv ->
  exists es, registry_inv es (sv_db sv) /\
    forall sv', rtc service_step sv sv' -> exists es', registry_inv es' (sv_db sv') /\ es `prefix_of` es'.
Proof.
  intros Ho R. destruct (service_reachable_inv rg limits sv Ho R) as (es & I). exists es. split; [done|]. intros sv' R'.
  destruct (run_inv rg limits es sv sv' I R') as (es' & I' & P & _). by exists es'.
Qed.

(** C4: a handle never changes hands.  In every database a registry reaches, all the bindings of one handle in the log, claims and rotations, name the
    same provider account, and no account holds more than three handles at once. *)
Theorem handle_ownership (sv : Service) (i j : Z) (e e' : LogEntry) (h k s k' s' : str) :
  valid_origin (rg_origin rg) = true -> reachable sv -> 0 <= i -> 0 <= j ->
  entry_at (sv_db sv) i = Ok (Some e) -> entry_at (sv_db sv) j = Ok (Some e') ->
  handle_binding e = Some (h, k, s) -> handle_binding e' = Some (h, k', s') ->
  s = s' /\ (size (filter (fun p : str * BindingRow => bi_subject p.2 = s) (current_bindings (sv_db sv))) <= 3)%nat.
Proof.
  intros Ho R Hi Hj Ei Ej He He'. destruct (service_reachable_inv rg limits sv Ho R) as (es & I).
  pose proof (entry_at_lookup _ _ _ _ I Hi Ei) as Li. pose proof (entry_at_lookup _ _ _ _ I Hj Ej) as Lj.
  destruct (rv_promises _ _ _ I) as [Hown Hq _ _ _]. split.
  - eapply (Hown e e'); [by eapply list_elem_of_lookup_2|by eapply list_elem_of_lookup_2|done|done].
  - rewrite (li_current _ _ _ _ (rv_log _ _ _ I)). apply (Hq s).
Qed.

(** C15: a lookup answers from the head being served, exactly.  In every state of a registry there is a size [n] (all of
    the log without a witness policy, the published size with one) such that a handle without a binding among the first [n]
    entries is not found, and for any other [resolve] returns the newest of them, with a note that verifies to
    the head at [n] and a path the client's [verify_inclusion] accepts for that entry's leaf. *)
Theorem resolve_serves_latest (sv : Service) (handle : Handle) :
  valid_origin (rg_origin rg) = true -> reachable sv ->
  exists es n note, registry_inv es (sv_db sv) /\ (n <= length es)%nat /\
    match rg_witness_policy rg with
    | None => n = length es
    | Some _ => Z.of_nat n = ts_size (pu_state (published_state (sv_db sv)))
    end /\
    checkpoint_verify note (verifying_key (rg_signing_key rg)) = Ok (checkpoint_at rg es n) /\
    match bindings_of (take n es) !! as_path handle with
    | None => resolve rg handle (sv_db sv) = Err NotFound
    | Some row => exists i e b path, bi_seq row = Z.of_nat i /\ es !! i = Some e /\
        handle_binding e = Some (as_path handle, bi_pubkey row, bi_subject row) /\ leaf_bytes e = Ok b /\
        verify_inclusion (leaf_hash b) i n path (head_at es n) = true /\
        resolve rg handle (sv_db sv) = Ok
          {| rs_handle := as_path handle; rs_pubkey := bi_pubkey row; rs_index := bi_seq row;
             rs_inclusion := {| pb_size := Z.of_nat n; pb_root := head_at es n; pb_path := path; pb_checkpoint := note |} |}
    end.
Proof.
  intros Ho R. destruct (service_reachable_inv rg limits sv Ho R) as (es & I). destruct (serving_state_inv es _ I Ho) as (n & note & Hn & Hs & Hv & Hp).
  exists es, n, note. split_and!; try done. unfold resolve. rewrite Hs. cbn [mbind result_bind ts_size].
  rewrite (binding_before_eq _ _ _ _ (rv_log _ _ _ I)) by done. cbn [mbind result_bind].
  destruct (bindings_of (take n es) !! as_path handle) as [row|] eqn:Er; cbn [fmap option_fmap option_map ok_or mbind result_bind]; [|done].
  apply bindings_of_Some in Er as (e & Hin & He & Eseq). apply list_elem_of_lookup in Hin as [i Hi]. apply lookup_take_Some in Hi as [Hi Hlt].
  assert (bi_seq row = Z.of_nat i) as Ei by (rewrite Eseq; apply (eo_seq _ _ (li_ok _ _ _ _ (rv_log _ _ _ I) i e Hi))).
  destruct (proof_served es _ i n e I Hi Hlt Hn) as (path & b & Hpath & Hb & Hver).
  exists i, e, b, path. rewrite Ei, Hpath. cbn [ok_or mbind result_bind]. split_and!; done.
Qed.

(** C17: the incremental node table serves the reference proofs.  For every state of a registry, over the leaves of its
    log, every inclusion and consistency proof read from the stored nodes is the one the whole tree, rebuilt from the leaves, gives, and so is the root at every size up to the log's. *)
Theorem registry_proofs_reference (sv : Service) (i n o : nat) :
  valid_origin (rg_origin rg) = true -> reachable sv ->
  exists es, registry_inv es (sv_db sv) /\
    let log := from_leaves (leaves_of es) in
    storage_inclusion_proof (sv_db sv) (Z.of_nat i) (Z.of_nat n) = Ok (inclusion_proof log i n) /\
    storage_consistency_proof (sv_db sv) (Z.of_nat o) (Z.of_nat n) = Ok (consistency_proof log o n) /\
    ((n <= length es)%nat -> root_for_size (merkle_nodes (sv_db sv)) n = Ok (root_of log n)).
Proof.
  intros Ho R. destruct (service_reachable_inv rg limits sv Ho R) as (es & I). exists es. split; [done|]. split_and!.
  - apply (inclusion_proof_eq _ _ _ _ (rv_log _ _ _ I)).
  - apply (consistency_proof_eq _ _ _ _ (rv_log _ _ _ I)).
  - apply (size_root_eq _ _ _ _ (rv_log _ _ _ I)).
Qed.

(** C14: the head the public sees moves only forward, along the log, and only under a quorum.  From any state to any
    later one the published size does not shrink, both heads are heads of the later log, and a published head that is not
    the empty one carries the fresh cosignatures of at least the policy's threshold of its witnesses. *)
Theorem published_head_witnessed (sv sv' : Service) (policy : WitnessPolicy) :
  valid_origin (rg_origin rg) = true -> rg_witness_policy rg = Some policy -> wp_threshold policy <> 0%nat ->
  reachable sv -> rtc service_step sv sv' ->
  let p := pu_state (published_state (sv_db sv)) in
  let p' := pu_state (published_state (sv_db sv')) in
  ts_size p <= ts_size p' /\
  (exists es, registry_inv es (sv_db sv') /\ ts_root p = head_at es (Z.to_nat (ts_size p)) /\ ts_root p' = head_at es (Z.to_nat (ts_size p'))) /\
  (ts_size p = 0 \/ exists body sigs fr since Q, split_once_str [NL; NL] (ts_checkpoint p) = Some (body, sigs) /\
     pu_witnessed_at (published_state (sv_db sv)) = Some since /\
     witnessed body (wp_witnesses policy) (wp_threshold policy) fr since Q).
Proof.
  intros Ho Hpol Ht R R' p p'. destruct (service_reachable_inv rg limits sv Ho R) as (es & I). destruct (run_inv rg limits es sv sv' I R') as (es' & I' & P & Hmono).
  split; [done|]. destruct (rv_published _ _ _ I) as (n & Hn & Es & Er & Hv & Hw). destruct (rv_published _ _ _ I') as (n' & Hn' & Es' & Er' & _ & _).
  split.
  - exists es'. split; [done|]. unfold p, p'. rewrite Es, Es', !Nat2Z.id. split; [|done]. rewrite Er. destruct P as [l ->].
    unfold head_at, root_of. cbn [leaves from_leaves]. unfold leaves_of. rewrite map_app, take_app_le by (rewrite length_map; lia). done.
  - destruct (pu_witnessed_at (published_state (sv_db sv))) as [since|] eqn:Ew; [right|left; unfold p; by rewrite Es, Hw].
    destruct Hw as (policy' & now & v & Hp' & _ & Hpv & Hs). rewrite Hpol in Hp'. injection Hp' as <-.
    unfold policy_verify_checkpoint in Hpv. apply or_err_Ok, fresh_policy in Hpv.
    destruct (verify_witness_policy_Ok _ _ _ _ _ _ Ht Hpv) as (_ & body & sigs & since' & Q & Hsp & Hs' & HQ).
    rewrite Hs in Hs'. injection Hs' as <-. exists body, sigs. do 2 eexists. exists Q. split; [done|]. split; [done|exact HQ].
Qed.

(** The directory and the compliance keys of a registry have one history.  In every state, of two logged mutations of one
    loft at one endpoint the later has the larger sequence number, so none is replayed or reordered; and of two publications of one
    compliance key the later keeps its public half and its interval and has a strictly later status, the first being active. *)
Theorem registry_streams_advance (sv : Service) :
  valid_origin (rg_origin rg) = true -> reachable sv ->
  exists es, registry_inv es (sv_db sv) /\ streams_advance es /\ lifecycle (compliance_keys (sv_db sv)).
Proof.
  intros Ho R. destruct (service_reachable_inv rg limits sv Ho R) as (es & I). exists es. destruct (rv_promises _ _ _ I) as [_ _ ? ? _]. done.
Qed.
End Serve.
