(* ===== verification/RegistryAudit.v ===== *)
(** What the check at start establishes: every database a registry reaches passes it, and a database that passes, however it came about,
    has exactly the projections of the log in its entries table. *)
From stdpp Require Import sorting.
From S2P Require Import Prelude Text B32 Network Crypto Origin Token Address Compliance Handle Entry Merkle MerkleProofs Checkpoint WitnessClient WitnessPair RegistryNodes RegistryStore RegistryLimits RegistryFlows RegistryServer RegistryVerify RegistryBinding RegistryInvariant RegistrySteps RegistryRuns RegistryServe.

(** * The newest row of a handle *)

(** In a history in the order of its sequence numbers, the newest row of a handle is its last. *)
Definition in_order (rows : list HistoryRow) : Prop :=
  forall i j r r', (i < j)%nat -> rows !! i = Some r -> rows !! j = Some r' -> hi_seq r < hi_seq r'.

Lemma newest_row_last rows r : in_order rows ->
  (r ∈ rows /\ newest_history rows r = true) <-> last (filter (fun row => hi_handle row = hi_handle r) rows) = Some r.
Proof.
  intros Hord. unfold newest_history. rewrite forallb_forall. split.
  - intros [Hin Hnew]. destruct (last _) as [r'|] eqn:El; [|by destruct (last_filter_None _ _ El r Hin)].
    apply last_filter_Some in El as (j & Hj & Eh & Hlast). apply list_elem_of_lookup in Hin as [i Hi].
    destruct (lt_eq_lt_dec i j) as [[Hlt| ->]|Hgt]; [|congruence|by destruct (Hlast i r Hgt Hi)].
    specialize (Hnew r' ltac:(apply list_elem_of_In; by eapply list_elem_of_lookup_2)). pose proof (Hord i j r r' Hlt Hi Hj).
    rewrite Eh, bool_decide_true in Hnew by done. cbn [andb] in Hnew. b2p. lia.
  - intros El. apply last_filter_Some in El as (j & Hj & _ & Hlast). split; [by eapply list_elem_of_lookup_2|].
    intros r' Hin. apply list_elem_of_In, list_elem_of_lookup in Hin as [i Hi].
    destruct (hi_handle r' ≟ hi_handle r) eqn:Eh; [|done]. b2p. cbn [andb negb].
    destruct (lt_eq_lt_dec i j) as [[Hlt| ->]|Hgt]; [| |by destruct (Hlast i r' Hgt Hi)].
    + pose proof (Hord i j r' r Hlt Hi Hj). rewrite (proj2 (Z.ltb_ge _ _)) by lia. done.
    + rewrite Hj in Hi. injection Hi as ->. by rewrite Z.ltb_irrefl.
Qed.

Lemma history_in_order es : (forall i e, es !! i = Some e -> seq e = Z.of_nat i) -> in_order (omap history_row es).
Proof.
  induction es as [|e es IH] using rev_ind; intros Hs i j r r' Hij Hi Hj; [done|]. rewrite omap_snoc in *.
  specialize (IH ltac:(intros k e' Hk; apply Hs; by apply lookup_app_l_Some)).
  assert (forall k q, omap history_row es !! k = Some q -> hi_seq q < Z.of_nat (length es)) as Hb.
  { intros k q Hk. apply list_elem_of_lookup_2, list_elem_of_omap in Hk as (e' & Hin & Hq). apply history_row_seq in Hq as ->.
    apply list_elem_of_lookup in Hin as [m Hm]. rewrite (Hs m e') by (by apply lookup_app_l_Some). apply lookup_lt_Some in Hm. lia. }
  destruct (history_row e) as [q|] eqn:Eq; [|rewrite app_nil_r in *; by eapply (IH i j)].
  apply lookup_snoc_Some in Hj as [[_ Hj]|[-> <-]].
  - apply lookup_snoc_Some in Hi as [[_ Hi]|[-> _]]; [by eapply (IH i j)|]. apply lookup_lt_Some in Hj. lia.
  - apply lookup_snoc_Some in Hi as [[_ Hi]|[-> _]]; [|lia]. apply history_row_seq in Eq as ->.
    rewrite (Hs (length es) e) by (by rewrite list_lookup_middle). by eapply Hb.
Qed.

(** The two counts of [verify_current_bindings_projection] vanish exactly when the current bindings are those of the log. *)
Lemma unlogged_zero db : unlogged_bindings db = 0%nat <->
  forall h row, current_bindings db !! h = Some row ->
    exists r, r ∈ handle_history db /\ same_binding h row r = true /\ newest_history (handle_history db) r = true.
Proof.
  unfold unlogged_bindings. rewrite length_zero_iff_nil. split.
  - intros Hnil h row Hrow. destruct (existsb (fun r => same_binding h row r && newest_history (handle_history db) r) (handle_history db)) eqn:E.
    + apply existsb_exists in E as (r & Hin & [Hb Hn]%andb_true_iff). exists r. split; [by apply list_elem_of_In|done].
    + assert ((h, row) ∈ ([] : list (str * BindingRow))) as Hin; [|by apply not_elem_of_nil in Hin]. rewrite <-Hnil.
      apply list_elem_of_filter. split; [done|by apply elem_of_map_to_list].
  - intros H. apply elem_of_nil_inv. intros [h row] Hin. apply list_elem_of_filter in Hin as [E Hin]. apply elem_of_map_to_list in Hin.
    destruct (H h row Hin) as (r & Hr & Hb & Hn). cbn [fst snd] in E. apply not_true_iff_false in E. destruct E. apply existsb_exists. exists r.
    split; [by apply list_elem_of_In|]. by rewrite Hb, Hn.
Qed.

Lemma missing_zero db : missing_bindings db = 0%nat <->
  forall r, r ∈ handle_history db -> newest_history (handle_history db) r = true ->
    exists h row, current_bindings db !! h = Some row /\ same_binding h row r = true.
Proof.
  unfold missing_bindings. rewrite length_zero_iff_nil. split.
  - intros Hnil r Hin Hn. destruct (existsb (fun p => same_binding p.1 p.2 r) (map_to_list (current_bindings db))) eqn:E.
    + apply existsb_exists in E as ([h row] & Hp & Hb). exists h, row. split; [|done]. by apply elem_of_map_to_list, list_elem_of_In.
    + assert (r ∈ ([] : list HistoryRow)) as Hr; [|by apply not_elem_of_nil in Hr]. rewrite <-Hnil. by apply list_elem_of_filter.
  - intros H. apply elem_of_nil_inv. intros r Hin. apply list_elem_of_filter in Hin as [[Hn E] Hin].
    destruct (H r Hin Hn) as (h & row & Hrow & Hb). apply not_true_iff_false in E. destruct E. apply existsb_exists. exists (h, row).
    split; [|done]. by apply list_elem_of_In, elem_of_map_to_list.
Qed.

Lemma same_binding_true h row r : same_binding h row r = true <->
  hi_handle r = h /\ r = {| hi_seq := bi_seq row; hi_handle := h; hi_pubkey := bi_pubkey row; hi_subject := bi_subject row |}.
Proof.
  unfold same_binding. split.
  - intros H. b2p. split; [done|]. destruct r; cbn in *. congruence.
  - intros [_ ->]. cbn. by rewrite !bool_decide_true, Z.eqb_refl by done.
Qed.

Lemma current_projection_exact es db :
  (forall i e, es !! i = Some e -> seq e = Z.of_nat i) -> handle_history db = omap history_row es ->
  (unlogged_bindings db + missing_bindings db = 0)%nat <-> current_bindings db = bindings_of es.
Proof.
  intros Hs Hh. pose proof (history_in_order es Hs) as Hord. rewrite <-Hh in Hord. split.
  - intros E. assert (unlogged_bindings db = 0%nat) as H1 by lia. assert (missing_bindings db = 0%nat) as H2 by lia.
    pose proof (proj1 (unlogged_zero db) H1) as H1'. pose proof (proj1 (missing_zero db) H2) as H2'. apply map_eq. intros h.
    pose proof (last_history es h) as Hlast. rewrite <-Hh in Hlast. destruct (current_bindings db !! h) as [row|] eqn:Er.
    + destruct (H1' h row Er) as (r & Hin & [Eh Er']%same_binding_true & Hn). pose proof (proj1 (newest_row_last _ r Hord) (conj Hin Hn)) as El.
      rewrite Eh, Hlast in El. destruct (bindings_of es !! h) as [row'|]; [|done]. rewrite Er' in El. injection El as E1 E2 E3.
      destruct row, row'; cbn in *. congruence.
    + destruct (bindings_of es !! h) as [row'|] eqn:Eb; [|done]. cbn in Hlast.
      set (r := {| hi_seq := bi_seq row' |}) in Hlast. destruct (proj2 (newest_row_last (handle_history db) r Hord) Hlast) as [Hin Hn].
      destruct (H2' r Hin Hn) as (h' & row & Hrow & [Eh _]%same_binding_true). subst h'. cbn in Hrow. congruence.
  - intros Ec. assert (unlogged_bindings db = 0%nat /\ missing_bindings db = 0%nat) as [-> ->]; [|done]. split.
    + apply unlogged_zero. intros h row Hrow. rewrite Ec in Hrow. pose proof (last_history es h) as Hlast. rewrite <-Hh, Hrow in Hlast. cbn in Hlast.
      set (r := {| hi_seq := bi_seq row |}) in Hlast. exists r. destruct (proj2 (newest_row_last (handle_history db) r Hord) Hlast) as [Hin Hn].
      split; [done|]. split; [|done]. by apply same_binding_true.
    + apply missing_zero. intros r Hin Hn. pose proof (proj1 (newest_row_last _ r Hord) (conj Hin Hn)) as El.
      rewrite Hh, last_history in El. destruct (bindings_of es !! hi_handle r) as [row|] eqn:Eb; [|done]. exists (hi_handle r), row.
      rewrite Ec. split; [done|]. apply same_binding_true. split; [done|]. by injection El.
Qed.

(** * The directory *)

Definition mutation_fields (row : DirectoryRow) : Z * Z * str := (dm_mutation_sequence row, dm_entry_seq row, dm_kind row).

Lemma mutation_fields_inj : Inj (=) (=) mutation_fields.
Proof. intros [a b c] [a' b' c']. unfold mutation_fields. cbn. by intros [= -> -> ->]. Qed.

Lemma directory_rows_Ok rows m : directory_rows rows = Ok m <->
  Forall (fun p => 0 <= dm_mutation_sequence p.2 /\ 0 <= dm_entry_seq p.2) rows /\ m = mutation_fields <$> list_to_map rows.
Proof.
  revert m. induction rows as [|[k row] rows IH]; intros m; cbn [directory_rows].
  - split; [intros H; apply Ok_inj in H as <-; split; [done|by rewrite list_to_map_nil, fmap_empty]|].
    intros [_ ->]. by rewrite list_to_map_nil, fmap_empty.
  - split.
    + intros H. apply bind_Ok in H as (a & [Ha ->]%nonnegative_Ok & H). apply bind_Ok in H as (b & [Hb ->]%nonnegative_Ok & H).
      apply bind_Ok in H as (m' & Hm%IH & H). apply Ok_inj in H as <-. destruct Hm as [Hf ->]. split; [by constructor|].
      by rewrite list_to_map_cons, fmap_insert.
    + intros [Hf ->]. apply Forall_cons in Hf as [[Ha Hb] Hf]. cbn [snd] in *. rewrite !nonnegative_fits by done. cbn [mbind result_bind].
      rewrite (proj2 (IH _) (conj Hf eq_refl)). cbn [mbind result_bind]. by rewrite list_to_map_cons, fmap_insert.
Qed.

Lemma directory_projection_exact db m : verify_directory_projection db (mutation_fields <$> m) = Ok tt <->
  map_Forall (fun _ row => 0 <= dm_mutation_sequence row /\ 0 <= dm_entry_seq row) (directory_mutations db) /\ directory_mutations db = m.
Proof.
  unfold verify_directory_projection. rewrite map_Forall_to_list. split.
  - intros H. apply bind_Ok in H as (actual & Ha%directory_rows_Ok & H). destruct Ha as [Hf ->]. apply guard_Ok in H. b2p.
    rewrite list_to_map_to_list in H. split; [eapply Forall_impl; [exact Hf|]; by intros [k row]|].
    apply map_eq. intros k. pose proof (f_equal (.!! k) H) as E. cbn beta in E. rewrite !lookup_fmap in E.
    destruct (directory_mutations db !! k), (m !! k); try done. f_equal. by apply mutation_fields_inj, (inj Some).
  - intros [Hf <-]. assert (directory_rows (map_to_list (directory_mutations db)) = Ok (mutation_fields <$> directory_mutations db)) as ->.
    { apply directory_rows_Ok. rewrite list_to_map_to_list. split; [|done]. eapply Forall_impl; [exact Hf|]. by intros [k row]. }
    cbn [mbind result_bind]. by rewrite bool_decide_true.
Qed.

(** * One entry *)

Definition rows_if {A} (o : option A) : list A := match o with Some x => [x] | None => [] end.

Lemma replay_history_Ok e rows rows' : 0 <= seq e -> replay_history e rows = Ok rows' <-> rows = rows_if (history_row e) ++ rows'.
Proof.
  intros Hs. unfold replay_history, history_row. destruct (handle_binding e) as [[[h k] s]|]; cbn [mbind option_bind rows_if app].
  - destruct rows as [|row rows]; [done|]. split.
    + intros H. apply bind_Ok in H as (q & [_ ->]%nonnegative_Ok & H). apply bind_Ok in H as ([] & Hg%guard_Ok & H). b2p.
      apply Ok_inj in H as <-. f_equal. destruct row; cbn in *. congruence.
    + intros [= -> ->]. cbn [hi_seq hi_handle hi_pubkey hi_subject]. rewrite nonnegative_fits by done. cbn [mbind result_bind].
      by rewrite bool_decide_true.
  - split; [by intros [= ->]|by intros ->].
Qed.

Lemma expected_projection_eq e p x : expected_projection e p = Ok x <-> compliance_projection e p = Ok x.
Proof.
  unfold expected_projection, compliance_projection, to_i64. destruct (key_id_encode _); cbn [map_err mbind result_bind]; [|done].
  destruct (storage_decode_hex _ _); cbn [ok_or mbind result_bind]; [|done]. unfold guard. by repeat case_match.
Qed.

Lemma replay_compliance_Ok e rows rows' : 0 <= seq e -> replay_compliance e rows = Ok rows' <->
  (forall p, compliance_publication e = Some p -> is_Some (ok (compliance_projection e p))) /\ rows = rows_if (compliance_row e) ++ rows'.
Proof.
  intros Hs. unfold replay_compliance, compliance_row. destruct (compliance_publication e) as [p|]; cbn [mbind option_bind].
  - split.
    + intros H. apply bind_Ok in H as (x & Hx%expected_projection_eq & H). rewrite Hx. split; [intros p' [= <-]; by rewrite Hx|].
      destruct rows as [|row rows]; [done|]. apply bind_Ok in H as (q & [_ ->]%nonnegative_Ok & H). apply bind_Ok in H as ([] & Hg%guard_Ok & H). b2p.
      apply Ok_inj in H as <-. cbn. f_equal. destruct row; cbn in *. congruence.
    + intros [Hp ->]. destruct (Hp p eq_refl) as [x Hx]. destruct (compliance_projection e p) as [x'|] eqn:Ex; [|done]. injection Hx as ->.
      rewrite (proj2 (expected_projection_eq e p x) Ex). cbn [ok mbind option_bind result_bind rows_if app ck_seq ck_projection].
      rewrite nonnegative_fits by done. cbn [mbind result_bind]. by rewrite Z.eqb_refl, bool_decide_true.
  - split; [intros [= ->]; by split|by intros [_ ->]].
Qed.

(** The directory a replay expects after an entry. *)
Definition expect_of (m : gmap (str * str) (Z * Z * str)) (e : LogEntry) : gmap (str * str) (Z * Z * str) :=
  match authenticated_directory_mutation e with
  | Some (endpoint, loft_pubkey, n) => <[(endpoint, loft_pubkey) := (n, seq e, kind_str (kind e))]> m
  | None => m
  end.

Lemma replay_directory_Ok e m m' : replay_directory e m = Ok m' <-> directory_signed e /\ m' = expect_of m e.
Proof.
  unfold replay_directory, directory_signed, expect_of, is_directory. destruct e as [v|v|v|v|v]; cbn [kind];
    try (split; [intros [= ->]; by split|by intros [_ ->]]);
    (destruct (authenticated_directory_mutation _) as [[[ep lk] n]|]; cbn [ok_or mbind result_bind];
     [split; [intros [= <-]; by split|by intros [_ ->]]|split; [done|by intros [[? ?] _]]]).
Qed.

Lemma expect_fields m e : expect_of (mutation_fields <$> m) e = mutation_fields <$> mutate_of m e.
Proof. unfold expect_of, mutate_of. destruct (authenticated_directory_mutation e) as [[[ep lk] n]|]; [|done]. by rewrite fmap_insert. Qed.

(** * The replay *)

Section Replay.
Context {C : Crypto} {UP : UrlParser} {EJ : EntryJson}.

(** An entry and the level-zero node of its position. *)
Definition leaf_stored (db : Database) (e : LogEntry) : Prop :=
  exists b, leaf_bytes e = Ok b /\ read_node (merkle_nodes db) 0 (Z.to_nat (seq e)) = Ok (leaf_hash b).

(** What the replay of the entries [l] did: it consumed their rows and expects their directory. *)
Record replayed (db : Database) (l : list LogEntry) (st st' : Replay) : Prop := {
  rd_seq i e : l !! i = Some e -> seq e = rp_from st + Z.of_nat i;
  rd_leaves : Forall (leaf_stored db) l;
  rd_signed : Forall directory_signed l;
  rd_projected e p : e ∈ l -> compliance_publication e = Some p -> is_Some (ok (compliance_projection e p));
  rd_history : rp_history st = omap history_row l ++ rp_history st';
  rd_compliance : rp_compliance st = omap compliance_row l ++ rp_compliance st';
  rd_directory : rp_directory st' = foldl expect_of (rp_directory st) l;
  rd_from : rp_from st' = rp_from st + Z.of_nat (length l);
}.

Lemma omap_cons_app {A B} (f : A -> option B) x l : omap f (x :: l) = rows_if (f x) ++ omap f l.
Proof. rewrite omap_cons. by destruct (f x). Qed.

Lemma replay_entry_Ok db e st st' : 0 <= rp_from st -> replay_entry db e st = Ok st' <-> replayed db [e] st st'.
Proof.
  intros Hf. unfold replay_entry. split.
  - intros H. apply bind_Ok in H as ([] & Hs%guard_Ok & H). b2p. apply bind_Ok in H as (b & Hb%malformed_entry_Ok & H).
    apply bind_Ok in H as (node & Hn & H). apply bind_Ok in H as ([] & Hg%guard_Ok & H). b2p. subst node.
    apply bind_Ok in H as (hh & Hh & H). apply bind_Ok in H as (ck & Hc & H). apply bind_Ok in H as (dm & Hd & H). apply Ok_inj in H as <-.
    apply replay_history_Ok in Hh; [|lia]. apply replay_compliance_Ok in Hc as [Hp Hc]; [|lia]. apply replay_directory_Ok in Hd as [Hsg ->].
    split; cbn [rp_history rp_compliance rp_directory rp_from length foldl]; rewrite ?omap_cons_app; cbn [omap list_omap]; rewrite ?app_nil_r; try done.
    + intros [|i] e'; [|done]. intros [= <-]. lia.
    + constructor; [|done]. exists b. by rewrite Hs.
    + by constructor.
    + intros e' p Hin. apply list_elem_of_singleton in Hin as ->. apply Hp.
  - intros [Hs Hl Hsg Hp Hh Hc Hd Hfr]. pose proof (Hs 0%nat e eq_refl) as Es. rewrite Z.add_0_r in Es. rewrite Es, Z.eqb_refl.
    apply Forall_singleton in Hl as (b & Hb & Hn). apply Forall_cons in Hsg as [Hsg _]. rewrite Hb. cbn [negb guard malformed_entry map_err mbind result_bind].
    rewrite Es in Hn. rewrite Hn. cbn [mbind result_bind]. rewrite bool_decide_true by done. cbn [negb guard mbind result_bind].
    rewrite omap_cons_app in Hh. rewrite omap_cons_app in Hc. cbn [omap list_omap] in Hh, Hc. rewrite app_nil_r in Hh. rewrite app_nil_r in Hc.
    rewrite (proj2 (replay_history_Ok e _ (rp_history st') ltac:(lia)) Hh). cbn [mbind result_bind].
    rewrite (proj2 (replay_compliance_Ok e _ (rp_compliance st') ltac:(lia)) (conj (fun p => Hp e p ltac:(set_solver)) Hc)). cbn [mbind result_bind].
    rewrite (proj2 (replay_directory_Ok e _ _) (conj Hsg eq_refl)). cbn [mbind result_bind]. f_equal. destruct st' as [hh ck dm fr]; cbn [rp_history rp_compliance rp_directory rp_from foldl length] in *. by subst.
Qed.

Lemma replayed_app db l l' st st1 st' : replayed db l st st1 -> replayed db l' st1 st' -> replayed db (l ++ l') st st'.
Proof.
  intros [Hs Hl Hsg Hp Hh Hc Hd Hf] [Hs' Hl' Hsg' Hp' Hh' Hc' Hd' Hf']. split.
  - intros i e Hi. apply lookup_app_Some in Hi as [Hi|[Hge Hi]]; [by apply Hs|]. rewrite (Hs' _ _ Hi), Hf. lia.
  - by apply Forall_app.
  - by apply Forall_app.
  - intros e p Hin. apply elem_of_app in Hin as [?|?]; eauto.
  - by rewrite Hh, Hh', omap_app, (assoc_L (++)).
  - by rewrite Hc, Hc', omap_app, (assoc_L (++)).
  - by rewrite Hd', Hd, foldl_app.
  - rewrite Hf', Hf, length_app. lia.
Qed.

Lemma replayed_nil db st : replayed db [] st st.
Proof. split; try done; cbn; set_solver || lia. Qed.

Lemma replay_page_sound db l st st' : 0 <= rp_from st -> replay_page db l st = Ok st' -> replayed db l st st'.
Proof.
  revert st. induction l as [|e l IH]; intros st Hf H; cbn [replay_page] in H; [apply Ok_inj in H as <-; apply replayed_nil|].
  apply bind_Ok in H as (st1 & He & H). apply replay_entry_Ok in He; [|done]. change (e :: l) with ([e] ++ l).
  eapply replayed_app; [exact He|]. apply IH; [|done]. rewrite (rd_from _ _ _ _ He). cbn. lia.
Qed.

(** Where the replay of a log stands after its first [k] entries. *)
Definition replay_at (es : list LogEntry) (k : nat) : Replay :=
  {| rp_history := omap history_row (drop k es); rp_compliance := omap compliance_row (drop k es);
     rp_directory := mutation_fields <$> mutations_of (take k es); rp_from := Z.of_nat k |}.

(** The entries of a database, in the order of their keys. *)
Record keyed (db : Database) : Prop := {
  kd_nonneg row : row ∈ entries db -> 0 <= er_seq row;
  kd_order i j r r' : (i < j)%nat -> entries db !! i = Some r -> entries db !! j = Some r' -> er_seq r < er_seq r';
}.

Lemma keyed_ge db i r : keyed db -> entries db !! i = Some r -> Z.of_nat i <= er_seq r.
Proof.
  intros K. revert r. induction i as [|i IH]; intros r Hr; [apply K; by eapply list_elem_of_lookup_2|].
  destruct (lookup_lt_is_Some_2 (entries db) i) as [r0 H0]; [apply lookup_lt_Some in Hr; lia|].
  specialize (IH r0 H0). pose proof (kd_order _ K i (S i) r0 r ltac:(lia) H0 Hr). lia.
Qed.

Lemma parse_row_seq row e : parse_entry_row row = Ok e -> seq e = er_seq row.
Proof.
  unfold parse_entry_row. intros H. apply bind_Ok in H as (q & [_ ->]%nonnegative_Ok & H). apply bind_Ok in H as (v & _ & H).
  apply bind_Ok in H as (t & _ & H). apply bind_Ok in H as (e' & _ & H). apply bind_Ok in H as ([] & Hg%guard_Ok & H).
  apply bind_Ok in H as (b & _ & H). apply bind_Ok in H as ([] & _ & H). apply Ok_inj in H as <-. b2p. done.
Qed.

Lemma parse_rows_Ok rows l : parse_rows rows = Ok l -> Forall2 (fun row e => parse_entry_row row = Ok e) rows l.
Proof.
  revert l. induction rows as [|row rows IH]; intros l H; cbn [parse_rows] in H; [apply Ok_inj in H as <-; constructor|].
  apply bind_Ok in H as (e & He & H). apply bind_Ok in H as (l' & Hl & H). apply Ok_inj in H as <-. constructor; [done|by apply IH].
Qed.

(** The first [n] rows are read as [l], numbered from zero. *)
Definition read_upto (db : Database) (l : list LogEntry) : Prop :=
  Forall2 (fun row e => parse_entry_row row = Ok e) (take (length l) (entries db)) l /\ forall i e, l !! i = Some e -> seq e = Z.of_nat i.

Lemma filter_split {A} (P : A -> Prop) `{!forall x, Decision (P x)} (l l' : list A) :
  Forall (fun x => ~ P x) l -> Forall P l' -> filter P (l ++ l') = l'.
Proof.
  intros Hl Hl'. rewrite filter_app. replace (filter P l) with ([] : list A); [cbn|].
  - apply filter_all. by apply Forall_forall.
  - symmetry. induction Hl as [|x l Hx _ IH]; [done|]. by rewrite filter_cons, decide_False.
Qed.

Lemma filter_from db l : keyed db -> read_upto db l ->
  filter (fun row => Z.of_nat (length l) <= er_seq row) (entries db) = drop (length l) (entries db).
Proof.
  intros K [HF Hs]. rewrite <-(take_drop (length l) (entries db)) at 1. apply filter_split; apply Forall_lookup; intros i row Hi.
  - destruct (Forall2_lookup_l _ _ _ _ _ HF Hi) as (e & He & Hp). apply parse_row_seq in Hp. rewrite (Hs i e He) in Hp. apply lookup_lt_Some in He. lia.
  - rewrite lookup_drop in Hi. pose proof (keyed_ge _ _ _ K Hi). lia.
Qed.

Lemma take_of_length {A} k (l : list A) : take (length (take k l)) l = take k l.
Proof. rewrite length_take. destruct (Nat.le_ge_cases k (length l)); [by rewrite Nat.min_l|by rewrite Nat.min_r, !take_ge by lia]. Qed.

(** A replay that succeeds has read every row up to the size it was given. *)
Lemma replay_loop_sound db size fuel : keyed db -> size < 2 ^ 63 -> forall l st st',
  read_upto db l -> rp_from st = Z.of_nat (length l) -> (Z.to_nat (size - rp_from st) <= fuel)%nat ->
  replay_loop fuel size db st = Ok st' ->
  exists l', read_upto db (l ++ l') /\ replayed db l' st st' /\ size <= Z.of_nat (length (l ++ l')).
Proof.
  intros K Hsz. induction fuel as [|fuel IH]; intros l st st' Hr Hf Hfuel H; cbn [replay_loop] in H;
    destruct (Z.leb_spec size (rp_from st)) as [Hle|Hgt]; try lia;
    try (apply Ok_inj in H as <-; exists []; rewrite app_nil_r; split; [done|]; split; [apply replayed_nil|lia]).
  apply bind_Ok in H as (page & Hp & H). unfold entries_page in Hp. cbv zeta in Hp. rewrite Hf in Hp.
  rewrite (to_i64_fits (Z.of_nat (length l))) in Hp by lia. cbn [mbind result_bind] in Hp. rewrite to_i64_fits in Hp by (unfold MAX_PAGE_SIZE; lia). cbn [mbind result_bind] in Hp.
  rewrite (filter_from db l K Hr) in Hp. apply parse_rows_Ok in Hp. destruct page as [|e page]; [done|]. set (pg := e :: page) in *.
  apply bind_Ok in H as (st1 & H1 & H). apply replay_page_sound in H1; [|lia]. pose proof (rd_from _ _ _ _ H1) as Hf1.
  assert (read_upto db (l ++ pg)) as Hr1.
  { destruct Hr as [HF Hs]. split.
    - rewrite length_app, <-take_take_drop, <-(Forall2_length _ _ _ Hp), take_of_length. by apply Forall2_app.
    - intros i e' Hi. apply lookup_app_Some in Hi as [Hi|[Hge Hi]]; [by apply Hs|]. rewrite (rd_seq _ _ _ _ H1 _ _ Hi), Hf. lia. }
  destruct (IH (l ++ pg) st1 st' Hr1) as (l' & Hr' & Hd' & Hle'); [rewrite Hf1, length_app; lia| |done|].
  { rewrite Hf1. unfold pg. cbn [length]. lia. }
  exists (pg ++ l'). rewrite (assoc_L (++)). split; [done|]. split; [by eapply replayed_app|done].
Qed.
End Replay.

(** * What passes *)

Section Exact.
Context {C : Crypto} {UP : UrlParser} {EJ : EntryJson} {RJ : ReceiptJson}.

Lemma expect_all m l : foldl expect_of (mutation_fields <$> m) l = mutation_fields <$> foldl mutate_of m l.
Proof. revert m. induction l as [|e l IH]; intros m; [done|]. cbn [foldl]. by rewrite expect_fields, IH. Qed.

(** A database whose tables are the projections of the log [es]. *)
Record projects (db : Database) (es : list LogEntry) : Prop := {
  pj_rows : Forall2 (fun row e => parse_entry_row row = Ok e) (entries db) es;
  pj_seq i e : es !! i = Some e -> seq e = Z.of_nat i;
  pj_leaves : Forall (leaf_stored db) es;
  pj_history : handle_history db = omap history_row es;
  pj_current : current_bindings db = bindings_of es;
  pj_directory : directory_mutations db = mutations_of es;
  pj_compliance : compliance_keys db = omap compliance_row es;
}.

Lemma replay_exact db state : keyed db -> ts_size state < 2 ^ 63 -> Z.of_nat (length (entries db)) = ts_size state ->
  verify_full_authority_replay db state = Ok tt -> exists es, projects db es.
Proof.
  intros K Hfit Hlen H. unfold verify_full_authority_replay in H. apply bind_Ok in H as (st & Hl & H). apply bind_Ok in H as (root & _ & H).
  apply bind_Ok in H as ([] & _ & H). apply bind_Ok in H as ([] & Hh%guard_Ok & H). apply bind_Ok in H as ([] & Hc%guard_Ok & H).
  apply bind_Ok in H as ([] & Hcb & Hd). b2p.
  assert (read_upto db []) as H0 by (split; [constructor|done]).
  apply (replay_loop_sound db (ts_size state) _ K Hfit []) in Hl as (es & [HF Hs] & R & Hle); [|done|done|cbn; lia].
  cbn [app] in *. assert (take (length es) (entries db) = entries db) as Et by (apply take_ge; lia). rewrite Et in HF. exists es.
  pose proof (rd_history _ _ _ _ R) as Rh. pose proof (rd_compliance _ _ _ _ R) as Rc. pose proof (rd_directory _ _ _ _ R) as Rd.
  cbn [rp_history rp_compliance rp_directory] in Rh, Rc, Rd. rewrite Hh, app_nil_r in Rh. rewrite Hc, app_nil_r in Rc.
  assert (rp_directory st = mutation_fields <$> mutations_of es) as Ed by (rewrite Rd, <-(fmap_empty mutation_fields); apply expect_all).
  rewrite Ed in Hd. apply directory_projection_exact in Hd as [_ Hd]. unfold verify_current_bindings_projection in Hcb. apply guard_Ok in Hcb. b2p.
  split; try done; [apply R|]. by apply (current_projection_exact es db Hs Rh).
Qed.

(** C12: what the check at start accepts is what the log says.  Take any database whose entries are in the order of their
    keys, tampered with or not.  If [verify_storage] accepts it, every row of the entries table is a canonical entry, numbered from zero, whose leaf hash is at its
    place in the node table; the history of handles, the current bindings, the directory and the compliance keys are exactly the
    projections of those entries; and the head is signed for this origin at the number of entries and is what the stored nodes give. *)
Theorem storage_audit_exact (origin : str) (key : VerifyingKey) (db : Database) :
  keyed db -> verify_storage origin key db = Ok tt ->
  exists es, projects db es /\ ts_size (registry_state db) = Z.of_nat (length es) /\
    root_for_size (merkle_nodes db) (length es) = Ok (ts_root (registry_state db)) /\
    checkpoint_verify (ts_checkpoint (registry_state db)) key =
      Ok {| cp_origin := origin; cp_size := Z.of_nat (length es); cp_root := ts_root (registry_state db) |}.
Proof.
  intros K H. unfold verify_storage in H. apply bind_Ok in H as ([] & H & _). unfold verify_storage_without_global_admission in H.
  apply bind_Ok in H as (st & Hst & H). unfold load_state in Hst. apply bind_Ok in Hst as (sz & [_ ->]%nonnegative_Ok & Hst). apply Ok_inj in Hst as <-.
  apply bind_Ok in H as ([] & Hhead & H). apply bind_Ok in H as ([] & _ & H). apply bind_Ok in H as ([] & _ & H). apply bind_Ok in H as ([] & Hrep & _).
  unfold verify_head in Hhead. apply bind_Ok in Hhead as ([] & [Hn _]%guard_Ok%orb_false_iff & Hhead). apply bind_Ok in Hhead as (root & Hroot & Hhead).
  apply bind_Ok in Hhead as ([] & Hr%guard_Ok & Hhead). apply bind_Ok in Hhead as (c & Hc & Hhead). apply bind_Ok in Hhead as ([] & Hg%guard_Ok & Hhead).
  apply bind_Ok in Hhead as (n & [Hfit _]%to_i64_range & _). cbn [ts_size ts_root ts_checkpoint] in *. unfold hash_eq in *. b2p.
  destruct (replay_exact db _ K Hfit Hn Hrep) as (es & P). exists es. pose proof (Forall2_length _ _ _ (pj_rows _ _ P)) as Hl.
  assert (ts_size (registry_state db) = Z.of_nat (length es)) as Es by lia. split; [done|]. split; [done|]. split.
  - rewrite Es, Nat2Z.id in Hroot. congruence.
  - rewrite Hc. f_equal. destruct c; cbn in *. congruence.
Qed.
End Exact.

(** * Every database of a registry passes *)

Section Passes.
Context {C : Crypto} {CL : CryptoLaws} {UP : UrlParser} {EJ : EntryJson} {EL : EntryJsonLaws} {RJ : ReceiptJson} {RL : ReceiptJsonLaws} {IP : IdentityProviders}.
Context (rg : Registry) (limits : RegistrationLimits) (Ho : valid_origin (rg_origin rg) = true).
Context (es : list LogEntry) (db : Database) (I : registry_inv rg es db).

#[local] Notation vk := (verifying_key (rg_signing_key rg)).
#[local] Notation L := (rv_log _ _ _ I).

Definition head_state : TreeState :=
  {| ts_size := Z.of_nat (length es); ts_root := head_at es (length es);
     ts_checkpoint := signed_head (rg_origin rg) (rg_signing_key rg) es (length es) |}.

Lemma loaded_state : load_state db = Ok head_state.
Proof. by rewrite (load_state_inv _ _ _ _ L), (li_state _ _ _ _ L). Qed.

Lemma head_root n : (n <= length es)%nat -> root_for_size (merkle_nodes db) (Z.to_nat (Z.of_nat n)) = Ok (head_at es n).
Proof. intros Hn. rewrite Nat2Z.id. by apply (size_root_eq _ _ _ _ L). Qed.

Lemma next_seq_eq : next_seq (entries db) = Z.of_nat (length es).
Proof.
  unfold next_seq. pose proof (max_of_spec (map er_seq (entries db))) as H. pose proof (length_rows _ _ _ _ L) as Hl.
  destruct (max_of _) as [m|].
  - destruct H as [Hin Hmax]. apply list_elem_of_fmap in Hin as (row & -> & Hrow). apply list_elem_of_lookup in Hrow as [i Hi].
    pose proof (rows_seq _ _ _ _ L i row Hi) as Es. pose proof (lookup_lt_Some _ _ _ Hi) as Hlt.
    destruct (lookup_lt_is_Some_2 (entries db) (length es - 1)) as [r Hr]; [lia|].
    pose proof (Hmax (er_seq r) ltac:(apply list_elem_of_fmap; exists r; split; [done|by eapply list_elem_of_lookup_2])).
    rewrite (rows_seq _ _ _ _ L _ r Hr) in *. lia.
  - apply map_eq_nil in H. rewrite H in Hl. cbn in Hl. lia.
Qed.

Lemma checkpoint_row n : (n <= length es)%nat ->
  exists row, checkpoints db !! Z.of_nat n = Some row /\ cr_root row = head_at es n /\ cr_note row = signed_head (rg_origin rg) (rg_signing_key rg) es n.
Proof.
  intros Hn. destruct (li_checkpointed _ _ _ _ L n Hn) as [row Hr]. exists row. split; [done|].
  destruct (li_checkpoints _ _ _ _ L _ _ Hr) as (_ & E1 & E2). by rewrite Nat2Z.id in *.
Qed.

Lemma head_passes : verify_head (rg_origin rg) vk head_state db = Ok tt.
Proof.
  unfold verify_head. cbn [ts_size ts_root ts_checkpoint head_state]. pose proof (li_size _ _ _ _ L) as Hsz. rewrite (length_rows _ _ _ _ L), next_seq_eq, Z.eqb_refl.
  cbn [negb orb guard mbind result_bind]. rewrite head_root by done. cbn [mbind result_bind]. unfold hash_eq. rewrite bool_decide_true by done.
  cbn [negb guard mbind result_bind]. rewrite signed_head_verifies by done. cbn [mbind result_bind checkpoint_at cp_origin cp_size cp_root].
  rewrite !bool_decide_true, Z.eqb_refl by done. cbn [negb orb guard mbind result_bind]. rewrite to_i64_fits by done. cbn [mbind result_bind].
  destruct (checkpoint_row (length es) ltac:(done)) as (row & -> & E1 & E2). cbn [ok_or mbind result_bind]. by rewrite E1, E2, !bool_decide_true.
Qed.

Lemma published_passes : verify_published (rg_origin rg) vk head_state db = Ok tt.
Proof.
  pose proof (li_size _ _ _ _ L) as Hsz. destruct (rv_published _ _ _ I) as (n & Hn & Es & Er & Hv & Hw).
  unfold verify_published, load_published_state. rewrite Es, nonnegative_fits by lia. cbn [mbind result_bind].
  assert (exists w, match pu_witnessed_at (published_state db) with
                    | Some value => Some <$> nonnegative value "published witness timestamp" | None => Ok None end = Ok w) as (w & ->).
  { destruct (pu_witnessed_at (published_state db)) as [since|]; [|by eexists]. destruct Hw as (p & now & v & _ & Hnn & _).
    rewrite nonnegative_fits by done. by eexists. }
  cbn [mbind result_bind pu_state ts_size ts_root ts_checkpoint head_state]. rewrite (proj2 (Z.ltb_ge _ _)) by lia. cbn [guard mbind result_bind].
  rewrite head_root by done. cbn [mbind result_bind]. unfold hash_eq. rewrite Er, bool_decide_true by done. cbn [negb guard mbind result_bind].
  rewrite Hv. cbn [mbind result_bind checkpoint_at cp_origin cp_size cp_root]. rewrite !bool_decide_true, Z.eqb_refl by done.
  cbn [negb orb guard mbind result_bind]. rewrite to_i64_fits by lia. cbn [mbind result_bind].
  destruct (checkpoint_row n Hn) as (row & -> & -> & _). by rewrite bool_decide_true.
Qed.

Lemma receipts_pass rows : (forall name row, (name, row) ∈ rows -> receipt_ok rg es name row) ->
  verify_receipts (rg_origin rg) vk head_state db rows = Ok tt.
Proof.
  induction rows as [|[name row] rows IH]; intros H; [done|]. cbn [verify_receipts].
  destruct (H name row ltac:(set_solver)) as (r & n & Hj & Hn & Es & En & Ez & Er & Ew & Hw & Eh & Hv).
  assert (verify_receipt (rg_origin rg) vk head_state db (name, row) = Ok tt) as ->; [|apply IH; set_solver].
  unfold verify_receipt. rewrite Es, !nonnegative_fits by lia. cbn [mbind result_bind]. rewrite (receipt_json r _ Hj). cbn [ok_or mbind result_bind].
  rewrite Hv. cbn [mbind result_bind checkpoint_at cp_origin cp_size cp_root ts_size head_state]. unfold hash_eq.
  rewrite En, Ez, Er, Ew, Es, Eh, !bool_decide_true, !Z.eqb_refl, (proj2 (Z.eqb_neq _ 0)), (proj2 (Z.ltb_ge _ _)) by (done || lia).
  cbn [negb orb guard mbind result_bind]. rewrite head_root by done. cbn [mbind result_bind]. by rewrite bool_decide_true.
Qed.

Lemma leaf_read k e : es !! k = Some e -> leaf_stored db e.
Proof.
  intros Hk. destruct (row_lookup _ _ _ _ L k e Hk) as (row & _ & R & _). destruct (ro_leaf _ _ R) as (b & Hb & _). exists b. split; [done|].
  pose proof (lookup_lt_Some _ _ _ Hk) as Hlt. rewrite (eo_seq _ _ (li_ok _ _ _ _ L k e Hk)), Nat2Z.id.
  rewrite (nodes_read _ (leaves_of es)); [|apply L|rewrite length_leaves; apply L|rewrite length_leaves; cbn; lia].
  assert (leaves_of es !! k = Some (leaf_hash b)) as Hh by (unfold leaves_of; by rewrite list_lookup_fmap, Hk, <-(leaf_of_Ok e b Hb)).
  by rewrite (block_leaf _ _ _ Hh).
Qed.

Lemma entry_replays k e : es !! k = Some e -> replay_entry db e (replay_at es k) = Ok (replay_at es (S k)).
Proof.
  intros Hk. apply replay_entry_Ok; [cbn; lia|]. split; cbn [replay_at rp_history rp_compliance rp_directory rp_from].
  - intros [|i] e'; [|done]. intros [= <-]. rewrite (eo_seq _ _ (li_ok _ _ _ _ L k e Hk)). lia.
  - constructor; [by eapply leaf_read|done].
  - constructor; [|done]. by apply (Forall_lookup_1 _ _ _ _ (lp_signed _ _ (rv_promises _ _ _ I)) Hk).
  - intros e' p Hin. apply list_elem_of_singleton in Hin as ->. apply (li_projected _ _ _ _ L). by eapply list_elem_of_lookup_2.
  - by rewrite (drop_S _ _ _ Hk), !omap_cons_app, <-(assoc_L (++)).
  - by rewrite (drop_S _ _ _ Hk), !omap_cons_app, <-(assoc_L (++)).
  - rewrite (take_S_r _ _ _ Hk). unfold mutations_of. by rewrite foldl_snoc, <-expect_fields.
  - cbn [length]. lia.
Qed.

Lemma page_replays l : forall k, (forall i e, l !! i = Some e -> es !! (k + i)%nat = Some e) ->
  replay_page db l (replay_at es k) = Ok (replay_at es (k + length l)).
Proof.
  induction l as [|e l IH]; intros k H; cbn [replay_page length]; [by rewrite Nat.add_0_r|].
  pose proof (H 0%nat e eq_refl) as He. rewrite Nat.add_0_r in He. rewrite (entry_replays k e He). cbn [mbind result_bind].
  rewrite IH by (intros i e' Hi; rewrite <-(H (S i) e' Hi); f_equal; lia). do 2 f_equal. lia.
Qed.

Lemma loop_replays fuel : forall k, (k <= length es)%nat -> (length es - k <= fuel)%nat ->
  replay_loop fuel (Z.of_nat (length es)) db (replay_at es k) = Ok (replay_at es (length es)).
Proof.
  induction fuel as [|fuel IH]; intros k Hk Hf; cbn [replay_loop replay_at rp_from].
  - replace k with (length es) by lia. by rewrite (proj2 (Z.leb_le _ _)) by lia.
  - destruct (Z.leb_spec (Z.of_nat (length es)) (Z.of_nat k)) as [Hle|Hgt]; [by replace k with (length es) by lia|].
    pose proof (li_size _ _ _ _ L). rewrite (entries_page_eq _ _ _ _ L) by lia. cbn [mbind result_bind]. rewrite Nat2Z.id.
    fold (replay_at es k). set (page := take _ (drop k es)).
    assert (length page <> 0)%nat as Hne by (unfold page, page_size, MAX_PAGE_SIZE; rewrite length_take, length_drop; lia).
    assert (length page <= length es - k)%nat as Hle by (unfold page; rewrite length_take, length_drop; lia).
    assert (replay_page db page (replay_at es k) = Ok (replay_at es (k + length page))) as Hp.
    { apply page_replays. intros i e Hi. unfold page in Hi. apply lookup_take_Some in Hi as [Hi _]. by rewrite lookup_drop in Hi. }
    destruct page as [|e page]; [done|]. rewrite Hp. cbn [mbind result_bind]. apply IH; lia.
Qed.

Lemma replay_passes : verify_full_authority_replay db head_state = Ok tt.
Proof.
  unfold verify_full_authority_replay. cbn [ts_size ts_root head_state]. rewrite Nat2Z.id.
  assert ({| rp_history := handle_history db; rp_compliance := compliance_keys db; rp_directory := ∅; rp_from := 0 |} = replay_at es 0) as ->.
  { unfold replay_at. rewrite (li_history _ _ _ _ L), (li_compliance _ _ _ _ L). cbn [take]. by rewrite (fmap_empty mutation_fields : _ <$> mutations_of [] = ∅). }
  rewrite loop_replays by lia. cbn [mbind result_bind]. rewrite (size_root_eq _ _ _ _ L) by done. cbn [mbind result_bind]. unfold hash_eq.
  cbn [replay_at rp_history rp_compliance rp_directory]. rewrite drop_all. cbn [omap list_omap]. rewrite !bool_decide_true by done. cbn [negb guard mbind result_bind].
  unfold verify_current_bindings_projection. rewrite (proj2 (current_projection_exact es db (fun i e Hi => eo_seq _ _ (li_ok _ _ _ _ L i e Hi)) (li_history _ _ _ _ L)) (li_current _ _ _ _ L)).
  cbn [Nat.eqb negb guard mbind result_bind]. rewrite take_ge by done. apply directory_projection_exact. split; [|apply L].
  intros [ep lk] row Hrow. rewrite (li_directory _ _ _ _ L) in Hrow. apply mutations_of_Some in Hrow as (i & e & Hi & Ha & -> & _).
  rewrite (eo_seq _ _ (li_ok _ _ _ _ L i e Hi)). split; [|lia]. apply (li_sequenced _ _ _ _ L e ep lk); [by eapply list_elem_of_lookup_2|done].
Qed.

Lemma previous_passes : verify_previous (rg_origin rg) vk head_state db = Ok tt.
Proof.
  unfold verify_previous. cbn [ts_size ts_root head_state]. pose proof (li_size _ _ _ _ L) as Hsz. rewrite to_i64_fits by done. cbn [mbind result_bind].
  unfold previous_checkpoint. destruct (max_of _) as [n|] eqn:Em; cbn [mbind option_bind]; [|done].
  destruct (checkpoints db !! n) as [row|] eqn:Er; cbn [mbind option_bind]; [|done].
  pose proof (max_of_spec (filter (fun n => n < Z.of_nat (length es)) (map fst (map_to_list (checkpoints db))))) as Hm. rewrite Em in Hm.
  destruct Hm as [[Hlt _]%list_elem_of_filter _]. destruct (li_checkpoints _ _ _ _ L n row Er) as (Hn & E1 & E2).
  rewrite nonnegative_fits by lia. cbn [mbind result_bind]. rewrite E1, E2, signed_head_verifies by (done || lia).
  cbn [mbind result_bind checkpoint_at cp_origin cp_size cp_root]. unfold hash_eq. rewrite Z2Nat.id, !bool_decide_true, Z.eqb_refl by (done || lia).
  cbn [negb orb guard mbind result_bind]. destruct (Z.ltb_spec 0 n); [|done].
  destruct (proj1 (consistency_complete (from_leaves (leaves_of es)) (Z.to_nat n) (length es))) as (proof & Hp & Hv & _).
  { unfold log_size. cbn. rewrite length_leaves. lia. }
  rewrite <-(Z2Nat.id n) at 1 by lia. rewrite (consistency_proof_eq _ _ _ _ L), Hp. cbn [ok_or mbind result_bind]. rewrite Nat2Z.id.
  unfold head_at. by rewrite Hv.
Qed.

Lemma registry_keyed : keyed db.
Proof.
  split.
  - intros row Hin. apply list_elem_of_lookup in Hin as [i Hi]. rewrite (rows_seq _ _ _ _ L i row Hi). lia.
  - intros i j r r' Hij Hi Hj. rewrite (rows_seq _ _ _ _ L i r Hi), (rows_seq _ _ _ _ L j r' Hj). lia.
Qed.

(** The check passes on everything but the admission row. *)
Lemma storage_passes : verify_storage_without_global_admission (rg_origin rg) vk db = Ok tt.
Proof.
  unfold verify_storage_without_global_admission. rewrite loaded_state. cbn [mbind result_bind]. rewrite head_passes. cbn [mbind result_bind].
  rewrite published_passes. cbn [mbind result_bind]. rewrite receipts_pass.
  - cbn [mbind result_bind]. rewrite replay_passes. cbn [mbind result_bind]. apply previous_passes.
  - intros name row Hin. rewrite merge_sort_Permutation in Hin. apply elem_of_map_to_list in Hin. by apply (rv_receipts _ _ _ I).
Qed.

Lemma registry_passes : verify_storage (rg_origin rg) vk db = Ok tt.
Proof.
  unfold verify_storage. rewrite storage_passes. cbn [mbind result_bind]. pose proof (load_admission_ok _ (rv_admission _ _ _ I)) as H.
  by destruct (load_global_binding_admission _).
Qed.

Lemma audit_counts : audit_all_entries db = Ok (Z.of_nat (length es)).
Proof. unfold audit_all_entries. rewrite loaded_state. cbn [mbind result_bind]. by rewrite replay_passes. Qed.
End Passes.

(** * A registry can always be opened again *)

Section Reopen.
Context {C : Crypto} {CL : CryptoLaws} {UP : UrlParser} {EJ : EntryJson} {EL : EntryJsonLaws} {RJ : ReceiptJson} {RL : ReceiptJsonLaws} {IP : IdentityProviders}.
Context (rg : Registry) (limits : RegistrationLimits).

(** C13: the check at start never locks a registry out of its own data.  A database that is created is the empty one,
    checked; and whatever requests, crashes and restarts follow, the database passes [verify_storage] under the registry's origin
    and key, and [audit_all_entries] reads every entry of the log and returns their number. *)
Theorem registry_reopens (sv : Service) :
  valid_origin (rg_origin rg) = true -> reachable rg limits sv ->
  (exists now db, create_fresh (rg_origin rg) (rg_signing_key rg) now = Ok db /\ rtc (service_step rg limits) (service_started db) sv) /\
  verify_storage (rg_origin rg) (verifying_key (rg_signing_key rg)) (sv_db sv) = Ok tt /\
  exists es, registry_inv rg es (sv_db sv) /\ audit_all_entries (sv_db sv) = Ok (Z.of_nat (length es)).
Proof.
  intros Ho R. destruct (service_reachable_inv rg limits sv Ho R) as (es & I). destruct R as (now & db & Hf & R). split.
  - exists now, db. split; [|done]. unfold create_fresh. rewrite Hf. cbn [mbind result_bind].
    by rewrite (registry_passes rg Ho [] db (fresh_inv rg now db Ho Hf)).
  - split; [by eapply registry_passes|]. exists es. split; [done|]. by eapply audit_counts.
Qed.
End Reopen.
