(* ===== verification/RegistryAuthority.v ===== *)
(** The authority behind a binding: what a claim must prove before the registry logs it, how a lost answer is recovered, and two ways
    the recovery falls short of its documentation. *)
From stdpp Require Import sorting.
From S2P Require Import Prelude Text B32 Network Crypto Origin Token Address Compliance Handle Entry Merkle MerkleProofs Checkpoint WitnessClient WitnessPair RegistryNodes RegistryStore RegistryLimits RegistryFlows RegistryServer RegistryBinding RegistryInvariant RegistrySteps RegistryRuns RegistryServe.

Section Authority.
Context {C : Crypto} {CL : CryptoLaws} {UP : UrlParser} {EJ : EntryJson} {EL : EntryJsonLaws} {RJ : ReceiptJson} {IP : IdentityProviders}.
Context (rg : Registry) (limits : RegistrationLimits).

(** The signature of the key over the claim. *)
Definition possession (handle : Handle) (pubkey : arr 32) (signature : Signature) : Prop :=
  exists m, claim_payload (as_path handle) pubkey = Some m /\ verify_strict pubkey m signature = true.

Lemma prove_possession_Ok handle pubkey signature u : prove_possession handle pubkey signature = Ok u -> possession handle pubkey signature.
Proof.
  unfold prove_possession. intros H. apply bind_Ok in H as (k & Hk%map_err_Ok & H). apply bind_Ok in H as (m & Hm%ok_or_Ok & H).
  apply map_err_Ok, verify_Ok in H. apply verifying_key_from_bytes_Ok in Hk as [-> _]. by exists m.
Qed.

Lemma validate_challenge_Ok now provider h handle pubkey pkce db o :
  validate_identity_challenge now provider h handle pubkey pkce db = Ok o ->
  exists row, identity_challenges db !! h = Some row /\ ic_provider row = provider /\ ic_handle row = handle /\ ic_pubkey row = pubkey /\
    ic_pkce_challenge row = pkce /\ ic_binding_seq row = o.
Proof.
  unfold validate_identity_challenge. intros H. apply bind_Ok in H as (row & Hrow%ok_or_Ok & H). apply bind_Ok in H as ([] & Hf & H).
  unfold validate_identity_challenge_fields, secret_option_eq in Hf. apply guard_Ok in Hf. b2p. apply bind_Ok in H as ([] & _ & H). apply bind_Ok in H as ([] & _ & H).
  exists row. unfold read_identity_challenge in Hrow. split_and!; try done. destruct (ic_binding_seq row) as [s|]; [|by injection H as <-].
  destruct (nonnegative s _) as [v|] eqn:E; [|done]. apply nonnegative_Ok in E as [_ ->]. by injection H as <-.
Qed.

(** Who may bind a handle: a first claim reflects the account's current name, a rotation belongs to the account that owns the handle. *)
Definition admitted (es : list LogEntry) (handle : Handle) (operation : HandleAppendMode) (subject : Subject) : Prop :=
  match operation with
  | Register => eq_ignore_ascii_case (sj_name subject) (name handle) = true
  | Rotate => exists row, bindings_of es !! as_path handle = Some row /\ bi_subject row = sj_namespace subject ++ lit ":" ++ sj_opaque_id subject
  end.

(** ** What a call does besides the commit *)

(** What others do meanwhile, the charge of the account, which is kept in memory, and the durable charge of the global admission. *)
Inductive quiet_step (env : BindEnv) : Service -> Service -> Prop :=
| quiet_recovering sv : quiet_step env sv (be_while_recovering env sv)
| quiet_verifying sv : quiet_step env sv (be_while_verifying env sv)
| quiet_admitting sv : quiet_step env sv (be_while_admitting env sv)
| quiet_charging sv : quiet_step env sv (be_while_charging env sv)
| quiet_tracing sv : quiet_step env sv (be_while_tracing env sv)
| quiet_answering sv : quiet_step env sv (be_while_answering env sv)
| quiet_accounts accounts sv : quiet_step env sv (on_accounts accounts sv)
| quiet_charge r sv sv' : charge_binding limits env sv = (r, sv') -> quiet_step env sv sv'.

Definition quiet (env : BindEnv) : Service -> Service -> Prop := rtc (quiet_step env).

Lemma quiet_inv env es sv sv' : others_run rg limits env -> registry_inv rg es (sv_db sv) -> quiet env sv sv' ->
  exists es', registry_inv rg es' (sv_db sv') /\ es `prefix_of` es'.
Proof.
  intros Ho I Q. revert es I. induction Q as [sv|sv sv1 sv2 S Q IH]; intros es I; [by exists es|].
  assert (exists es1, registry_inv rg es1 (sv_db sv1) /\ es `prefix_of` es1) as (es1 & I1 & P1).
  { destruct S; try (by exists es);
      try (match goal with |- context [sv_db (?f env ?s)] => destruct (run_inv rg limits es s (f env s) I) as (es1 & ? & ? & _); [apply Ho|by exists es1] end).
    destruct (charge_binding_inv rg limits es env sv r sv' I H) as [? _]. by exists es. }
  destruct (IH _ I1) as (es2 & I2 & P2). exists es2. split; [done|by etrans].
Qed.

(** The phases of a call that reached the commit. *)
Record reached_commit (env : BindEnv) (handle : Handle) (pubkey : arr 32) (signature : Signature) (proof : ProofPayload)
  (operation : HandleAppendMode) (verified : VerifiedHandleBinding) (subject : Subject) : Prop := {
  rc_key : possession handle pubkey signature;
  rc_provider : provider_configured (namespace handle) = true /\ provider_verify (namespace handle) proof = Ok subject /\ sj_namespace subject = namespace handle;
  rc_named : operation = Register -> eq_ignore_ascii_case (sj_name subject) (name handle) = true;
  rc_captured : be_captured env = true;
  rc_request : commit_request env verified =
    {| rq_handle := as_path handle; rq_pubkey := hex_of (vec_to_list pubkey); rq_subject := sj_namespace subject ++ lit ":" ++ sj_opaque_id subject;
       rq_ts_ms := be_commit_ms env; rq_mode := operation |};
  rc_hash : co_challenge_hash (commit_challenge verified) = challenge_hash (provider_slug proof) (challenge_token proof);
  rc_presented : co_provider (commit_challenge verified) = provider_slug proof /\ co_pubkey (commit_challenge verified) = pubkey /\
    Ok (co_expected_pkce_challenge (commit_challenge verified)) = expected_pkce_challenge proof;
}.

Lemma registration_at_fields db handle a missing reg : registration_at rg db handle a missing = Ok reg -> re_index reg = ap_seq a /\ re_appended reg = ap_appended a.
Proof.
  unfold registration_at. intros H. apply bind_Ok in H as (st & _ & H). apply bind_Ok in H as (pa & _ & H). by apply Ok_inj in H as <-.
Qed.

Lemma recover_appends_nothing prepared db reg : recover_handle_binding rg prepared db = Ok reg -> re_appended reg = false.
Proof.
  unfold recover_handle_binding. intros H. apply bind_Ok in H as (s & _ & H). apply bind_Ok in H as (en & _ & H).
  apply bind_Ok in H as (en' & _ & H). apply bind_Ok in H as ([] & _ & H). by apply registration_at_fields in H as [_ ->].
Qed.

(** A call that does not reach the commit does nothing else. *)
Definition ends_early (env : BindEnv) (sv : Service) (r : RegistryResult Registration) (sv' : Service) : Prop :=
  quiet env sv sv' /\ forall reg, r = Ok reg -> re_appended reg = false.

Lemma refused_early env sv e sv' : quiet env sv sv' -> ends_early env sv (Err e) sv'.
Proof. intros K. split; [done|]. by intros reg [=]. Qed.

Lemma verified_by instant prepared accounts verified accounts' :
  verify_handle_binding limits instant prepared accounts = (Ok verified, accounts') ->
  exists subject, provider_configured (namespace (ph_handle prepared)) = true /\ provider_verify (namespace (ph_handle prepared)) (ph_proof prepared) = Ok subject /\
    sj_namespace subject = namespace (ph_handle prepared) /\
    verified = {| vh_prepared := prepared; vh_subject_name := sj_name subject; vh_subject_id := sj_namespace subject ++ lit ":" ++ sj_opaque_id subject |}.
Proof.
  unfold verify_handle_binding. intros Ev. match type of Ev with (match ?x with _ => _ end) = _ => destruct x as [subject|] eqn:Es end; [|done].
  apply bind_Ok in Es as ([] & Hc%guard_Ok & Es). apply bind_Ok in Es as (subject' & Hs & Es). apply bind_Ok in Es as ([] & Hn%guard_Ok & Es).
  apply Ok_inj in Es as ->. b2p. destruct (charge_at _ _ _ _ _) as [rc ac]. injection Ev as Ev <-. apply bind_Ok in Ev as ([] & _ & Ev). apply Ok_inj in Ev as <-.
  by exists subject.
Qed.

Lemma bind_handle_phases env handle pubkey signature proof operation sv r sv' :
  bind_handle rg limits env handle pubkey signature proof operation sv = (r, sv') ->
  ends_early env sv r sv' \/
  exists sv1 verified subject, reached_commit env handle pubkey signature proof operation verified subject /\ quiet env sv sv1 /\
    commit_binding rg env verified sv1 = (r, sv').
Proof.
  intros H. unfold bind_handle in H. destruct (prepare_handle_binding _ _ _ _ _ _ _) as [prepared|] eqn:Ep; [|left; injection H as <- <-; by apply refused_early].
  destruct (is_some _); [left; injection H as <- <-; split; [apply rtc_once, quiet_recovering|intros reg; apply recover_appends_nothing]|].
  unfold prepare_handle_binding in Ep. apply bind_Ok in Ep as ([] & Hpos%prove_possession_Ok & Ep). cbv zeta in Ep. apply bind_Ok in Ep as ([] & _ & Ep).
  apply bind_Ok in Ep as (pk & Hpk & Ep). apply bind_Ok in Ep as (rs & _ & Ep). apply Ok_inj in Ep as <-. cbv zeta in H. set (sva := be_while_verifying env sv) in *.
  assert (quiet env sv sva) as Qa by (apply rtc_once, quiet_verifying). destruct (verify_handle_binding _ _ _ _) as [[verified|] accounts] eqn:Ev.
  2:{ left. injection H as <- <-. apply refused_early. etrans; [done|]. apply rtc_once, quiet_accounts. }
  apply verified_by in Ev as (subject & Hc & Hs & Hn & ->). cbn [ph_handle ph_proof] in Hc, Hs, Hn.
  set (svb := be_while_admitting env (on_accounts accounts sva)) in *.
  assert (quiet env sv svb) as Qb by (etrans; [done|]; eapply rtc_l; [apply quiet_accounts|apply rtc_once, quiet_admitting]).
  unfold admit_handle_binding in H. destruct (admission_checks _ _ _ _) as [[]|] eqn:Ec; [|left; injection H as <- <-; by apply refused_early].
  destruct (charge_binding _ _ _) as [r1 svc] eqn:Eg.
  assert (quiet env sv svc) as Qc by (etrans; [done|]; eapply rtc_l; [apply quiet_charging|by eapply rtc_once, quiet_charge]).
  destruct r1 as [[]|]; [|left; injection H as <- <-; by apply refused_early].
  assert (quiet env sv (be_while_tracing env svc)) as Qd by (etrans; [done|]; apply rtc_once, quiet_tracing).
  destruct (be_captured env) eqn:Ecap; cbn [negb] in H; [|left; injection H as <- <-; by apply refused_early].
  right. do 3 eexists. split; [|split; [exact Qd|exact H]]. split; try done. intros ->.
  unfold admission_checks in Ec. cbn [vh_prepared ph_operation ph_handle vh_subject_name] in Ec. apply bind_Ok in Ec as ([] & _ & Ec). apply guard_Ok in Ec. by b2p.
Qed.

(** The transaction behind a call that reached the commit. *)
Lemma commit_binding_Ok es env verified sv r sv' :
  registry_inv rg es (sv_db sv) -> 0 <= be_commit_ms env -> commit_binding rg env verified sv = (r, sv') ->
  (sv' = sv /\ exists e, r = Err e) \/
  exists es' a db', registry_inv rg es' db' /\ committed es (sv_db sv) (Some (commit_challenge verified)) (commit_request env verified) a es' db' /\
    sv' = be_while_answering env (on_db db' sv) /\
    r = registration_at rg (sv_db sv') (ph_handle (vh_prepared verified)) a "published entry has no inclusion proof".
Proof.
  intros I Hts H. unfold commit_binding in H. destruct (commit_transaction _ _ _ _) as [r1 db1] eqn:Et.
  destruct (commit_transaction_inv rg es env verified (sv_db sv) r1 db1 I Hts Et) as [[-> [e ->]]|(es' & a & -> & I' & Hc)]; injection H as <- <-.
  - left. split; [by destruct sv|eauto].
  - right. exists es', a, db1. done.
Qed.

(** C3: nothing enters the log of handles without authority.  Let a call of [bind_handle] start in any reachable state, while other requests run
    between its phases.  Either all it does itself is to charge the limits; or there is one moment at which it commits,
    and then the key signed the claim, the configured provider of the handle's namespace confirmed the proof for an account, the account's current name is the handle (a first claim)
    or the account owns it at that moment (a rotation), the claim was traced, and the challenge the proof answers, stored for this
    handle, key and provider, is unused in the state just before the commit and names the binding just after it.  That binding of the handle, to the key, for the account, is
    already in the log, which stays as it is, or is the one entry by which the log grows. *)
Theorem binding_authorised (sv sv' : Service) (env : BindEnv) (handle : Handle) (pubkey : arr 32) (signature : Signature)
  (proof : ProofPayload) (operation : HandleAppendMode) (r : RegistryResult Registration) :
  valid_origin (rg_origin rg) = true -> reachable rg limits sv -> 0 <= be_commit_ms env -> others_run rg limits env ->
  bind_handle rg limits env handle pubkey signature proof operation sv = (r, sv') ->
  quiet env sv sv' \/
  exists before db' es es' i e subject row row',
    quiet env sv before /\ quiet env (on_db db' before) sv' /\ registry_inv rg es (sv_db before) /\ registry_inv rg es' db' /\
    handle_binding e = Some (as_path handle, hex_of (vec_to_list pubkey), sj_namespace subject ++ lit ":" ++ sj_opaque_id subject) /\
    (es' = es /\ es !! i = Some e \/ es' = es ++ [e] /\ i = length es /\ mode_kind e operation = true) /\
    possession handle pubkey signature /\
    provider_configured (namespace handle) = true /\ provider_verify (namespace handle) proof = Ok subject /\ sj_namespace subject = namespace handle /\
    admitted es handle operation subject /\ be_captured env = true /\
    let h := challenge_hash (provider_slug proof) (challenge_token proof) in
    identity_challenges (sv_db before) !! h = Some row /\ ic_consumed_at row = None /\
    ic_provider row = provider_slug proof /\ ic_handle row = as_path handle /\ ic_pubkey row = pubkey /\
    identity_challenges db' !! h = Some row' /\ consumed_from row row' (Z.of_nat i).
Proof.
  intros Ho R Hts Hot H. destruct (service_reachable_inv rg limits sv Ho R) as (es0 & I0).
  destruct (bind_handle_phases _ _ _ _ _ _ _ _ _ H) as [[Q _]|(before & verified & subject & P & Q & Hc)]; [by left|].
  destruct (quiet_inv env es0 sv before Hot I0 Q) as (es & I & _).
  destruct (commit_binding_Ok es env verified before r sv' I Hts Hc) as [[-> _]|(es' & a & db' & I' & Hcm & -> & _)]; [by left|].
  destruct Hcm as [c row i _ _ _ _|a es' db1 db2 B Edb Hrow].
  { left. etrans; [done|]. apply rtc_once. destruct before. apply quiet_answering. }
  right. destruct (Hrow _ eq_refl) as (row & row' & Hr & Hn & (M1 & M2 & M3 & _) & Hr' & Hcf).
  destruct P as [Pk (Pc & Pv & Pn) Pa Pcap Prq Pch (Pp & Pu & _)]. rewrite Prq, Pch in *. rewrite Pp, Pu in *. cbn [rq_mode rq_handle rq_pubkey rq_subject] in *.
  assert (quiet env (on_db db2 before) (be_while_answering env (on_db db2 before))) as Q' by (apply rtc_once, quiet_answering).
  destruct B as [i e Hi He Hcur|e db1 He Hm Hrot _ _]; cbn [rq_mode rq_handle rq_pubkey rq_subject ap_seq] in *.
  - rewrite (li_current _ _ _ _ (rv_log _ _ _ I)) in Hcur. exists before, db2, es, es, i, e, subject, row, row'. split_and!; try done; [by left|].
    unfold admitted. destruct operation; [by apply Pa|]. by eexists.
  - exists before, db2, es, (es ++ [e]), (length es), e, subject, row, row'. split_and!; try done; [by right|].
    unfold admitted. destruct operation; [by apply Pa|]. by apply Hrot.
Qed.

(** ** Recovering a lost answer *)

(** A receipt can always be given for an entry of the log. *)
Lemma registration_served es db handle i b missing : registry_inv rg es db -> valid_origin (rg_origin rg) = true -> (i < length es)%nat ->
  exists reg, registration_at rg db handle {| ap_seq := Z.of_nat i; ap_appended := b |} missing = Ok reg /\
    re_index reg = Z.of_nat i /\ re_appended reg = b.
Proof.
  intros I Ho Hi. destruct (serving_state_inv rg es db I Ho) as (n & note & Hn & Hs & _). unfold registration_at. rewrite Hs. cbn [mbind result_bind].
  unfold served_path. cbn [ap_seq ap_appended ts_size]. destruct (Z.ltb_spec (Z.of_nat i) (Z.of_nat n)) as [Hlt|Hge]; [|by eexists].
  destruct (lookup_lt_is_Some_2 es i Hi) as [e He]. destruct (proof_served rg es db i n e I He ltac:(lia) Hn) as (path & bs & Hp & _).
  rewrite Hp. cbn. by eexists.
Qed.

(** The challenge of a committed binding recovers it. *)
Lemma recover_committed es env handle pubkey signature proof operation row e i sv :
  let sv2 := be_while_recovering env sv in
  registry_inv rg es (sv_db sv2) -> valid_origin (rg_origin rg) = true ->
  identity_challenges (sv_db sv) !! challenge_hash (provider_slug proof) (challenge_token proof) = Some row ->
  ic_provider row = provider_slug proof -> ic_handle row = as_path handle -> ic_pubkey row = pubkey ->
  Ok (ic_pkce_challenge row) = expected_pkce_challenge proof -> is_Some (ic_consumed_at row) -> ic_binding_seq row = Some (Z.of_nat i) ->
  prove_possession handle pubkey signature = Ok tt -> validate_challenge_token (challenge_token proof) = Ok tt ->
  es !! i = Some e -> mode_kind e operation = true ->
  (exists s, handle_binding e = Some (as_path handle, hex_of (vec_to_list pubkey), s)) ->
  exists reg, bind_handle rg limits env handle pubkey signature proof operation sv = (Ok reg, sv2) /\ re_index reg = Z.of_nat i /\ re_appended reg = false.
Proof.
  intros sv2 I Ho Hrow Ep Eh Ek Epk [t Et] Es Hpos Htok Hi Hm (s & He). unfold bind_handle, prepare_handle_binding.
  rewrite Hpos, Htok, <-Epk. cbn [mbind result_bind]. unfold validate_identity_challenge, read_identity_challenge. rewrite Hrow. cbn [ok_or mbind result_bind].
  unfold validate_identity_challenge_fields, secret_option_eq. rewrite !bool_decide_true by done. cbn [negb orb guard mbind result_bind].
  rewrite Et, Es. cbn [is_some andb negb guard mbind result_bind]. rewrite nonnegative_fits by lia. cbn [fmap result_fmap mbind result_bind ph_recovered_seq is_some].
  fold sv2. cbv zeta. unfold recover_handle_binding. cbn [ph_recovered_seq ok_or mbind result_bind ph_handle ph_pubkey ph_operation].
  apply lookup_lt_Some in Hi as Hlt. pose proof (li_size _ _ _ _ (rv_log _ _ _ I)).
  rewrite (entry_at_eq _ _ _ _ (rv_log _ _ _ I)) by lia. cbn [mbind result_bind]. rewrite Hi. cbn [ok_or mbind result_bind]. rewrite Hm, He, !bool_decide_true by done.
  cbn [negb andb orb guard mbind result_bind].
  destruct (registration_served es (sv_db sv2) handle i false "published challenge result has no inclusion proof" I Ho Hlt) as (reg & Hr & Hx & Ha).
  rewrite Hr. eauto.
Qed.

Lemma prepared_again env handle pubkey signature proof operation db prepared :
  prepare_handle_binding (be_prepare_ms env) handle pubkey signature proof operation db = Ok prepared ->
  prove_possession handle pubkey signature = Ok tt /\ validate_challenge_token (challenge_token proof) = Ok tt /\
  exists row, identity_challenges db !! challenge_hash (provider_slug proof) (challenge_token proof) = Some row /\
    ic_provider row = provider_slug proof /\ ic_handle row = as_path handle /\ ic_pubkey row = pubkey /\
    Ok (ic_pkce_challenge row) = expected_pkce_challenge proof.
Proof.
  unfold prepare_handle_binding. intros Ep. apply bind_Ok in Ep as ([] & Hpos & Ep). cbv zeta in Ep. apply bind_Ok in Ep as ([] & Htok & Ep).
  apply bind_Ok in Ep as (pk & Hpk & Ep). apply bind_Ok in Ep as (rs & Hrs & _). split; [done|]. split; [done|].
  apply validate_challenge_Ok in Hrs as (row & Hrow & E1 & E2 & E3 & E4 & _). exists row. rewrite Hpk. split_and!; congruence.
Qed.

(** C16: an answer lost after the commit is recovered by repeating the call.  If a call of [bind_handle], with other requests running between its phases, appended a binding, then it left
    the challenge's row in the database, and the same
    call (same handle, key, signature, proof and operation) made in any later state that still retains that row as the commit left it, whatever the
    clocks, the provider, the limits and the trace sink then do, returns the receipt of the same entry and changes nothing itself: no second leaf, no second charge. *)
Theorem binding_retry_recovers (sv sv' : Service) (env : BindEnv) (handle : Handle) (pubkey : arr 32) (signature : Signature)
  (proof : ProofPayload) (operation : HandleAppendMode) (reg : Registration) :
  valid_origin (rg_origin rg) = true -> reachable rg limits sv -> 0 <= be_commit_ms env -> others_run rg limits env ->
  bind_handle rg limits env handle pubkey signature proof operation sv = (Ok reg, sv') -> re_appended reg = true ->
  let h := challenge_hash (provider_slug proof) (challenge_token proof) in
  exists after, sv' = be_while_answering env after /\ is_Some (identity_challenges (sv_db after) !! h) /\
    forall sv'' env', rtc (service_step rg limits) sv' sv'' -> others_run rg limits env' ->
      identity_challenges (sv_db sv'') !! h = identity_challenges (sv_db after) !! h ->
      exists reg', bind_handle rg limits env' handle pubkey signature proof operation sv'' = (Ok reg', be_while_recovering env' sv'') /\
        re_index reg' = re_index reg /\ re_appended reg' = false.
Proof.
  intros Ho R Hts Hot H Happ h. destruct (service_reachable_inv rg limits sv Ho R) as (es0 & I0).
  destruct (prepare_handle_binding (be_prepare_ms env) handle pubkey signature proof operation (sv_db sv)) as [prepared|] eqn:Ep;
    [|unfold bind_handle in H; by rewrite Ep in H].
  apply prepared_again in Ep as (Hpos & Htok & _).
  destruct (bind_handle_phases _ _ _ _ _ _ _ _ _ H) as [[_ K]|(before & verified & subject & P & Q & Hc)]; [rewrite (K reg eq_refl) in Happ; done|].
  destruct (quiet_inv env es0 sv before Hot I0 Q) as (es & I & _).
  destruct (commit_binding_Ok es env verified before (Ok reg) sv' I Hts Hc) as [[_ [? ?]]|(es' & a & db' & I' & Hcm & Esv & Hreg)]; [done|].
  symmetry in Hreg. apply registration_at_fields in Hreg as [Ei Ea]. rewrite Ea in Happ. rewrite Ei.
  destruct Hcm as [c row i _ _ _ _|a es' db1 db2 B Edb Hrow]; [done|].
  destruct (Hrow _ eq_refl) as (row & row' & _ & _ & (M1 & M2 & M3 & M4) & Hr' & F1 & F2 & F3 & F4 & F5 & F6).
  destruct B as [i e _ _ _|e db1 He Hm _ _ _]; [done|]. cbn [ap_seq] in *. destruct P as [_ _ _ _ Prq Pch (Pp & Pu & Pe)]. rewrite Prq, Pch in *. fold h in Hr'.
  cbn [rq_mode rq_handle rq_pubkey rq_subject] in *. exists (on_db db2 before). split; [done|]. split; [by exists row'|]. intros sv'' env' R' Hot' Hkept.
  assert (rtc (service_step rg limits) (on_db db2 before) (be_while_recovering env' sv'')) as R''.
  { etrans; [|apply (or_recovering _ _ _ Hot')]. etrans; [|exact R']. rewrite Esv. apply (or_answering _ _ _ Hot). }
  destruct (run_inv rg limits (es ++ [e]) (on_db db2 before) _ I' R'') as (es'' & I'' & [l ->] & _). cbn [on_db sv_db] in Hkept. rewrite Hr' in Hkept.
  eapply (recover_committed _ env' handle pubkey signature proof operation row' e (length es) sv'' I'' Ho Hkept); try congruence.
  - rewrite <-(assoc_L (++)). by apply list_lookup_middle.
  - eauto.
Qed.

(** ** Where a repetition is refused *)

(** A request for the binding in force appends nothing. *)
Lemma append_repeats es now request db row :
  registry_inv rg es db -> bindings_of es !! rq_handle request = Some row -> bi_pubkey row = rq_pubkey request -> bi_subject row = rq_subject request ->
  append_handle_in_transaction (rg_origin rg) (rg_signing_key rg) now request db = Ok ({| ap_seq := bi_seq row; ap_appended := false |}, db) /\
  exists i e, bi_seq row = Z.of_nat i /\ es !! i = Some e /\ handle_binding e = Some (rq_handle request, rq_pubkey request, rq_subject request).
Proof.
  intros I Hb Ek Esu. destruct (bindings_of_Some _ _ _ Hb) as (e & Hin & He & Hs). apply list_elem_of_lookup in Hin as [i Hi].
  pose proof (eo_seq _ _ (li_ok _ _ _ _ (rv_log _ _ _ I) i e Hi)) as Eseq. split; [|exists i, e; split_and!; congruence].
  unfold append_handle_in_transaction, current_binding. rewrite (load_state_inv _ _ _ _ (rv_log _ _ _ I)), (li_current _ _ _ _ (rv_log _ _ _ I)), Hb.
  cbn [mbind result_bind]. rewrite nonnegative_fits by lia. cbn [mbind result_bind]. rewrite Ek, Esu, !bool_decide_true by done. by destruct (rq_mode request).
Qed.

(** The binding in force cannot be confirmed under a second challenge while the first is retained: a result belongs to one challenge, so
    the whole transaction fails. *)
Theorem second_challenge_refused (es : list LogEntry) (now created consumed : Z) (challenge : IdentityChallengeCommit) (request : HandleAppendRequest)
  (db : Database) (row : BindingRow) (h : Hash) (first : StoredIdentityChallenge) :
  registry_inv rg es db -> 0 <= consumed < 2 ^ 63 ->
  bindings_of es !! rq_handle request = Some row -> bi_pubkey row = rq_pubkey request -> bi_subject row = rq_subject request ->
  check_challenge now challenge request db = Ok None ->
  identity_challenges db !! h = Some first -> h <> co_challenge_hash challenge -> ic_binding_seq first = Some (bi_seq row) ->
  commit_handle_binding (rg_origin rg) (rg_signing_key rg) now created consumed (Some challenge) request db = Err Storage.
Proof.
  intros I Hc Hb Ek Esu Hch Hf Hne Hfs. destruct (append_repeats es created request db row I Hb Ek Esu) as (Happ & i & e & Eseq & Hi & _).
  unfold commit_handle_binding. rewrite Hch. cbn [mbind result_bind]. rewrite Happ. cbn [mbind result_bind ap_seq].
  pose proof (li_size _ _ _ _ (rv_log _ _ _ I)). apply lookup_lt_Some in Hi. rewrite !to_i64_fits by lia. cbn [mbind result_bind].
  unfold check_challenge, read_identity_challenge in Hch. apply bind_Ok in Hch as ([] & _ & Hch). apply bind_Ok in Hch as (stored & Hst%ok_or_Ok & Hch).
  apply bind_Ok in Hch as ([] & _ & Hch). unfold consume_challenge. rewrite Hst.
  pose proof (rv_challenges _ _ _ I _ _ Hst) as [_ Hok]. destruct (ic_consumed_at stored).
  { cbn [is_some] in Hch. apply bind_Ok in Hch as (s1 & _ & Hch). apply bind_Ok in Hch as (s2 & _ & Hch). by apply bind_Ok in Hch as ([] & _ & Hch). }
  destruct (ic_binding_seq stored); [done|]. rewrite bool_decide_true; [done|]. exists h, first. done.
Qed.

(** A rotation to the key a claim already bound is answered with the claim's index and uses up the challenge; its exact retry is then an
    error, because the entry recovered is a claim. *)
Theorem idle_rotation_not_retried (es : list LogEntry) (now created consumed : Z) (challenge : IdentityChallengeCommit) (request : HandleAppendRequest)
  (db db' : Database) (row : BindingRow) (e : LogEntry) (a : Append) :
  registry_inv rg es db -> rq_mode request = Rotate ->
  bindings_of es !! rq_handle request = Some row -> bi_pubkey row = rq_pubkey request -> bi_subject row = rq_subject request ->
  es !! Z.to_nat (bi_seq row) = Some e -> mode_kind e Rotate = false ->
  check_challenge now challenge request db = Ok None ->
  commit_handle_binding (rg_origin rg) (rg_signing_key rg) now created consumed (Some challenge) request db = Ok (a, db') ->
  a = {| ap_seq := bi_seq row; ap_appended := false |} /\
  forall now' created' consumed',
    commit_handle_binding (rg_origin rg) (rg_signing_key rg) now' created' consumed' (Some challenge) request db' =
      Err (ProofRejected "identity challenge was already used for another binding").
Proof.
  intros I Hmode Hb Ek Esu He Hm Hch H. destruct (append_repeats es created request db row I Hb Ek Esu) as (Happ & i & e' & Eseq & Hi & _).
  unfold commit_handle_binding in H. rewrite Hch in H. cbn [mbind result_bind] in H. rewrite Happ in H. cbn [mbind result_bind ap_seq] in H.
  apply bind_Ok in H as (cs & _ & H). apply bind_Ok in H as (bs & [_ ->]%to_i64_range & H). apply bind_Ok in H as (rows & Hrows & H).
  apply Ok_inj, pair_eq in H as [<- <-]. split; [done|]. intros now' created' consumed'. unfold consume_challenge in Hrows.
  unfold check_challenge, read_identity_challenge in Hch. apply bind_Ok in Hch as ([] & Hhex & Hch). apply bind_Ok in Hch as (stored & Hst%ok_or_Ok & Hch).
  apply bind_Ok in Hch as ([] & Hf & _). rewrite Hst in Hrows. destruct (ic_consumed_at stored); [done|]. destruct (ic_binding_seq stored); [done|].
  apply bind_Ok in Hrows as ([] & _ & Hrows). apply Ok_inj in Hrows as <-.
  unfold commit_handle_binding, check_challenge, read_identity_challenge. rewrite Hhex. cbn [mbind result_bind with_challenges identity_challenges].
  rewrite lookup_insert_eq. cbn [ok_or mbind result_bind]. unfold validate_identity_challenge_fields in *. cbn [ic_provider ic_handle ic_pubkey ic_pkce_challenge].
  rewrite Hf. cbn [mbind result_bind ic_consumed_at ic_binding_seq is_some ok_or]. pose proof (li_size _ _ _ _ (rv_log _ _ _ I)). apply lookup_lt_Some in Hi as Hlt.
  rewrite nonnegative_fits by lia. cbn [mbind result_bind]. unfold validate_recovered_handle_binding. rewrite Eseq in *.
  change (entry_at (with_challenges _ db)) with (entry_at db). rewrite (entry_at_eq _ _ _ _ (rv_log _ _ _ I)) by lia. cbn [mbind result_bind].
  rewrite Nat2Z.id in He. rewrite He. cbn [ok_or mbind result_bind]. by rewrite Hmode, Hm.
Qed.
End Authority.
