(* ===== verification/RegistryDemo.v ===== *)
(** A concrete registry, run: its empty head is witnessed and published, an account claims a handle under a challenge, the new head is
    witnessed and published, and the owner rotates its key.  The theorems about registries apply at the states of the run.
    The check at start is run too: it accepts the database of the run, and one in which an entry below the stored parents was rewritten; and
    installing a witness policy refuses a head that the same policy published.
    The JSON of a value is its place in a table here, and the cryptography the toy instance of [Crypto]. *)
From stdpp Require Import sorting.
From S2P Require Import Prelude Text B32 Network Crypto Origin Token Address Compliance Handle Entry Merkle MerkleProofs Checkpoint WitnessClient WitnessPair RegistryNodes RegistryStore RegistryLimits RegistryFlows RegistryServer RegistryVerify RegistryBinding RegistryInvariant RegistrySteps RegistryRuns RegistryServe RegistryAudit RegistryAuthority.

#[local] Existing Instance toy_crypto.
#[local] Existing Instance toy_laws.
#[local] Existing Instance toy_url_parser.

(** * Instances *)

(** A value of a table is written as its index. *)
Definition table_to {A} `{EqDecision A} (l : list A) (x : A) : option str :=
  (fun p => [to_u8 (Z.of_nat p.1)]) <$> list_find (fun y => y = x) (take 256 l).
Definition table_from {A} (l : list A) (s : str) : option A :=
  match s with [b] => take 256 l !! Z.to_nat (u8 b) | _ => None end.

Lemma table_laws {A} `{EqDecision A} (l : list A) x s : table_to l x = Some s -> table_from l s = Some x.
Proof.
  unfold table_to, table_from. destruct (list_find _ _) as [[i y]|] eqn:E; [|done]. cbn. intros [= <-].
  apply list_find_Some in E as (Hi & -> & _). pose proof (lookup_lt_Some _ _ _ Hi) as Hlt. rewrite length_take in Hlt.
  rewrite u8_to_u8, Z.mod_small, Nat2Z.id by lia. done.
Qed.

Definition ada : Handle := MkHandle (lit "github") (lit "ada").
Definition ada_key : Identity := from_seed (vreplicate 32 x11).
Definition ada_next : Identity := from_seed (vreplicate 32 x12).
Definition key_hex (id : Identity) : str := hex_of (vec_to_list (verifying_key id)).

Definition claim_entry : LogEntry := Eval vm_compute in entry_handle_claim 0 (lit "/github/ada") (key_hex ada_key) (lit "github:1815") 1003000.
Definition rotation_entry : LogEntry := Eval vm_compute in entry_handle_rotation 1 (lit "/github/ada") (key_hex ada_next) (lit "github:1815") 1003000.

#[local] Instance toy_entry_json : EntryJson :=
  {| entry_to_string := table_to [claim_entry; rotation_entry]; entry_from_str := table_from [claim_entry; rotation_entry] |}.
#[local] Instance toy_entry_json_laws : EntryJsonLaws.
Proof. intros e json. apply table_laws. Qed.

#[local] Instance StoredIdentityChallenge_eq_dec : EqDecision StoredIdentityChallenge.
Proof. solve_decision. Defined.
#[local] Instance WitnessReceipt_eq_dec : EqDecision WitnessReceipt.
Proof. solve_decision. Defined.

Definition head_note (es : list LogEntry) : str :=
  checkpoint_sign {| cp_origin := lit "log"; cp_size := Z.of_nat (length es); cp_root := head_at es (length es) |} demo_operator.
Definition receipt_of (es : list LogEntry) : WitnessReceipt :=
  let c := {| cp_origin := lit "log"; cp_size := Z.of_nat (length es); cp_root := head_at es (length es) |} in
  match (line ← cosignature_line c (lit "w") demo_witness 1000; Ok (receipt_from_lines demo_client (head_note es) c line 1000)) with
  | Ok (Ok r) => r
  | _ => {| rc_version := 0; rc_witness_name := []; rc_origin := []; rc_size := 0; rc_root := empty_root; rc_note := []; rc_witnessed_at := 0 |}
  end.

Definition receipt0 : WitnessReceipt := Eval vm_compute in receipt_of [].
Definition receipt1 : WitnessReceipt := Eval vm_compute in receipt_of [claim_entry].

#[local] Instance toy_receipt_json : ReceiptJson :=
  {| receipt_to_string := table_to [receipt0; receipt1]; receipt_from_str := table_from [receipt0; receipt1] |}.

#[local] Instance toy_providers : IdentityProviders :=
  {| provider_configured := fun ns => ns ≟ lit "github";
     provider_verify := fun ns _ => Ok {| sj_namespace := ns; sj_name := lit "ada"; sj_opaque_id := lit "1815" |};
     public_client_id := fun _ => Some (lit "client") |}.

(** * The run *)

Definition demo_registry : Registry :=
  {| rg_origin := lit "log"; rg_signing_key := demo_operator; rg_witness_policy := Some demo_policy |}.
Definition demo_limits : RegistrationLimits := {| global_bindings_per_minute := 4; account_bindings_per_minute := 4; max_account_keys := 4 |}.

Definition verifier : str := repeat "v"%byte 43.
Definition pkce : option str := Eval vm_compute in match pkce_s256 verifier with Ok c => Some c | Err _ => None end.
Definition nonce1 : arr 32 := vreplicate 32 xa1.
Definition nonce2 : arr 32 := vreplicate 32 xa2.
Definition nonce3 : arr 32 := vreplicate 32 xa3.
Definition proof_of (nonce : arr 32) : ProofPayload := Github (lit "code") verifier (hex_of (vec_to_list nonce)).
Definition claim_signature (id : Identity) : Signature :=
  sign id (default [] (claim_payload (as_path ada) (verifying_key id))).

Definition challenge (nonce : arr 32) (id : Identity) (sv : Service) : Service :=
  on_db (issue_identity_challenge demo_registry (Ok tt) (Ok tt) 1000500 1000500 1000500 nonce (lit "github") ada (verifying_key id)
           (claim_signature id) pkce (sv_db sv)).2 sv.

(** While a trace is written, someone else asks for a challenge. *)
Definition demo_env (sv : Service) : BindEnv :=
  {| be_prepare_ms := 1001000; be_instant := 1; be_ready_ms := 1001000; be_admit_ms := 1002000;
     be_observed := global_binding_admission (sv_db sv);
     be_custody := Ok tt; be_trace_ready := Ok tt; be_captured := true; be_commit_ms := 1003000; be_expiry_ms := 1003000;
     be_created_ms := 1003000; be_consumed_ms := 1003000;
     be_while_recovering := id; be_while_verifying := id; be_while_admitting := id; be_while_charging := id;
     be_while_tracing := challenge nonce3 ada_next; be_while_answering := id |}.

Definition bind (nonce : arr 32) (id : Identity) (operation : HandleAppendMode) (sv : Service) : RegistryResult Registration * Service :=
  bind_handle demo_registry demo_limits (demo_env sv) ada (verifying_key id) (claim_signature id) (proof_of nonce) operation sv.
Definition witness_head (receipt : WitnessReceipt) (sv : Service) : Service :=
  on_db (registry_save_witness_receipt demo_registry receipt 1000 1000 (sv_db sv)).2 sv.
Definition publish_head (sv : Service) : Service := on_db (promote_witnessed_head demo_registry 1000 (sv_db sv)).2 sv.

Definition blank : Database :=
  {| entries := []; current_bindings := ∅; handle_history := []; compliance_keys := []; directory_mutations := ∅; merkle_nodes := ∅;
     checkpoints := ∅; registry_state := {| ts_size := 0; ts_root := empty_root; ts_checkpoint := [] |};
     published_state := {| pu_state := {| ts_size := 0; ts_root := empty_root; ts_checkpoint := [] |}; pu_witnessed_at := None |};
     witness_receipts := ∅; identity_challenges := ∅; global_binding_admission := (0, 0) |}.
Definition from_ok {E A} (d : A) (r : result E A) : A := match r with Ok a => a | Err _ => d end.
Definition fresh_db : Database := from_ok blank (fresh_database (lit "log") demo_operator 5).

Definition no_registration : Registration :=
  {| re_handle := []; re_index := -1; re_appended := false;
     re_inclusion := {| pb_size := 0; pb_root := empty_root; pb_path := []; pb_checkpoint := [] |} |}.

(** The states of the run. *)
Definition sv_fresh : Service := service_started fresh_db.
Definition sv_open : Service := publish_head (witness_head receipt0 sv_fresh).
Definition sv_asked : Service := challenge nonce1 ada_key sv_open.
Definition claiming : RegistryResult Registration * Service := bind nonce1 ada_key Register sv_asked.
Definition sv_claimed : Service := claiming.2.
Definition claimed : Registration := from_ok no_registration claiming.1.
Definition sv_published : Service := publish_head (witness_head receipt1 sv_claimed).
Definition sv_rotating : Service := challenge nonce2 ada_next sv_published.
Definition sv_rotated : Service := (bind nonce2 ada_next Rotate sv_rotating).2.

(** What the run did, evaluated. *)
Definition entry_is (sv : Service) (i : Z) (e : LogEntry) : bool :=
  match entry_at (sv_db sv) i with Ok (Some e') => e' ≟ e | _ => false end.
Definition kept_row (sv sv' : Service) (h : Hash) : bool :=
  match identity_challenges (sv_db sv) !! h, identity_challenges (sv_db sv') !! h with
  | Some row, Some row' => row ≟ row'
  | _, _ => false
  end.
Definition nonce1_hash : Hash := challenge_hash (provider_slug (proof_of nonce1)) (challenge_token (proof_of nonce1)).

Definition run_facts : bool :=
  is_ok (fresh_database (lit "log") demo_operator 5) &&
  (is_ok claiming.1 && re_appended claimed && (length (entries (sv_db sv_asked)) =? 0)%nat && (length (entries (sv_db sv_claimed)) =? 1)%nat) &&
  ((ts_size (pu_state (published_state (sv_db sv_published))) =? 1) && (ts_size (pu_state (published_state (sv_db sv_rotated))) =? 1)) &&
  (entry_is sv_rotated 0 claim_entry && entry_is sv_rotated 1 rotation_entry && kept_row sv_rotated sv_claimed nonce1_hash) &&
  match resolve demo_registry ada (sv_db sv_rotated) with Ok r => rs_index r =? 0 | Err _ => false end.

Lemma run_facts_hold : run_facts = true.
Proof. vm_compute. reflexivity. Qed.

Lemma is_ok_from {E A} (d : A) (r : result E A) : is_ok r = true -> r = Ok (from_ok d r).
Proof. by destruct r. Qed.

Lemma entry_is_true sv i e : entry_is sv i e = true -> entry_at (sv_db sv) i = Ok (Some e).
Proof. unfold entry_is. destruct (entry_at _ i) as [[e'|]|]; [|done..]. intros H. b2p. congruence. Qed.

Lemma kept_row_true sv sv' h : kept_row sv sv' h = true -> identity_challenges (sv_db sv) !! h = identity_challenges (sv_db sv') !! h.
Proof. unfold kept_row. destruct (_ !! h), (identity_challenges (sv_db sv') !! h); try done. intros H. b2p. congruence. Qed.

Record facts : Prop := {
  f_fresh : fresh_database (lit "log") demo_operator 5 = Ok fresh_db;
  f_claimed : claiming = (Ok claimed, sv_claimed);
  f_appended : re_appended claimed = true;
  f_before : length (entries (sv_db sv_asked)) = 0%nat;
  f_after : length (entries (sv_db sv_claimed)) = 1%nat;
  f_published : ts_size (pu_state (published_state (sv_db sv_published))) = 1;
  f_served : ts_size (pu_state (published_state (sv_db sv_rotated))) = 1;
  f_claim : entry_at (sv_db sv_rotated) 0 = Ok (Some claim_entry);
  f_rotation : entry_at (sv_db sv_rotated) 1 = Ok (Some rotation_entry);
  f_kept : identity_challenges (sv_db sv_rotated) !! nonce1_hash = identity_challenges (sv_db sv_claimed) !! nonce1_hash;
  f_resolved : exists r, resolve demo_registry ada (sv_db sv_rotated) = Ok r /\ rs_index r = 0;
}.

Lemma ran : facts.
Proof.
  pose proof run_facts_hold as H. unfold run_facts in H. apply andb_true_iff in H as [H Hres]. apply andb_true_iff in H as [H He].
  apply andb_true_iff in H as [H Hp]. apply andb_true_iff in H as [Hf Hc].
  apply andb_true_iff in Hc as [[[Hok Hap]%andb_true_iff Hb]%andb_true_iff Ha]. apply andb_true_iff in Hp as [Hp1 Hp2].
  apply andb_true_iff in He as [[He1 He2]%andb_true_iff Hk]. split.
  - apply is_ok_from, Hf.
  - unfold claimed. rewrite <-(is_ok_from no_registration) by exact Hok. apply surjective_pairing.
  - exact Hap.
  - apply Nat.eqb_eq, Hb.
  - apply Nat.eqb_eq, Ha.
  - apply Z.eqb_eq, Hp1.
  - apply Z.eqb_eq, Hp2.
  - apply entry_is_true, He1.
  - apply entry_is_true, He2.
  - apply kept_row_true, Hk.
  - destruct (resolve _ _ _) as [r|]; [|done]. exists r. split; [done|]. apply Z.eqb_eq, Hres.
Qed.

#[local] Notation run := (rtc (service_step demo_registry demo_limits)).
#[local] Notation reachable := (reachable demo_registry demo_limits).

Lemma origin_ok : valid_origin (rg_origin demo_registry) = true.
Proof. vm_compute. reflexivity. Qed.

Lemma published_run receipt sv : 0 <= rc_witnessed_at receipt -> run sv (publish_head (witness_head receipt sv)).
Proof.
  intros H. eapply rtc_l; [by eapply step_receipt, surjective_pairing|]. apply rtc_once. eapply step_promote, surjective_pairing.
Qed.

Lemma challenge_run nonce id sv : run sv (challenge nonce id sv).
Proof. eapply issue_challenge_run; [|apply surjective_pairing]. lia. Qed.

Lemma demo_others sv : others_run demo_registry demo_limits (demo_env sv).
Proof. split; intros sv'; try apply rtc_refl. apply challenge_run. Qed.

Lemma bind_run nonce id operation sv : run sv (bind nonce id operation sv).2.
Proof. eapply bind_handle_run; [apply demo_others| |apply surjective_pairing]. cbn. lia. Qed.

Lemma recovering_alone sv sv' : be_while_recovering (demo_env sv) sv' = sv'.
Proof. reflexivity. Qed.
Lemma answering_alone sv sv' : be_while_answering (demo_env sv) sv' = sv'.
Proof. reflexivity. Qed.

(** Beside the commit, a call of the run leaves the log alone. *)
Lemma challenge_entries nonce id sv : entries (sv_db (challenge nonce id sv)) = entries (sv_db sv).
Proof.
  unfold challenge. cbn [on_db sv_db]. destruct (issue_identity_challenge _ _ _ _ _ _ _ _ _ _ _ _ _) as [r db'] eqn:H. cbn [snd].
  unfold issue_identity_challenge in H. apply transaction_cases in H as [(a & E & _)|[-> _]]; [|done].
  do 6 (apply bind_Ok in E as (? & _ & E)). cbv zeta in E. apply bind_Ok in E as (ex & _ & E). apply bind_Ok in E as ([u db1] & Hins & E).
  apply Ok_inj, pair_eq in E as [_ <-]. unfold insert_identity_challenge in Hins. inv_ok. by apply pair_eq in Hins as [_ <-].
Qed.

Lemma quiet_entries env0 sv sv' : quiet demo_limits (demo_env env0) sv sv' -> entries (sv_db sv') = entries (sv_db sv).
Proof.
  induction 1 as [|sv sv1 sv2 S _ ->]; [done|]. destruct S; try done; [apply challenge_entries|].
  unfold charge_binding in H. destruct (charge_global_binding_admission _ _ _ _ _) as [[? ?] ?]. by injection H as _ <-.
Qed.

Lemma asked_run : run sv_fresh sv_asked.
Proof. transitivity sv_open; [apply (published_run receipt0); cbn; lia|apply challenge_run]. Qed.
Lemma claimed_to_published : run sv_claimed sv_published.
Proof. apply (published_run receipt1). cbn. lia. Qed.
Lemma published_to_rotated : run sv_published sv_rotated.
Proof. transitivity sv_rotating; [apply challenge_run|apply bind_run]. Qed.
Lemma claimed_to_rotated : run sv_claimed sv_rotated.
Proof. transitivity sv_published; [exact claimed_to_published|exact published_to_rotated]. Qed.
Lemma fresh_to_claimed : run sv_fresh sv_claimed.
Proof. transitivity sv_asked; [exact asked_run|apply bind_run]. Qed.

Lemma reached sv : run sv_fresh sv -> reachable sv.
Proof. intros R. exists 5, fresh_db. split; [exact (f_fresh ran)|exact R]. Qed.

Lemma asked_reachable : reachable sv_asked.
Proof. exact (reached _ asked_run). Qed.
Lemma published_reachable : reachable sv_published.
Proof. apply reached. transitivity sv_claimed; [exact fresh_to_claimed|exact claimed_to_published]. Qed.
Lemma rotated_reachable : reachable sv_rotated.
Proof. apply reached. transitivity sv_claimed; [exact fresh_to_claimed|exact claimed_to_rotated]. Qed.

(** * The theorems at the run *)

Lemma registry_database_sound_witness :
  exists es, registry_inv demo_registry es (sv_db sv_rotated) /\ claim_entry ∈ es.
Proof.
  destruct (registry_database_sound demo_registry demo_limits sv_rotated origin_ok rotated_reachable) as (es & I & _). exists es. split; [exact I|].
  apply (list_elem_of_lookup_2 _ 0). exact (entry_at_lookup demo_registry es _ 0 _ I ltac:(lia) (f_claim ran)).
Defined.

Lemma handle_ownership_witness :
  handle_binding claim_entry <> handle_binding rotation_entry /\
  (size (filter (fun p : str * BindingRow => bi_subject p.2 = lit "github:1815") (current_bindings (sv_db sv_rotated))) <= 3)%nat.
Proof.
  split; [vm_compute; discriminate|].
  destruct (handle_ownership demo_registry demo_limits sv_rotated 0 1 claim_entry rotation_entry (lit "/github/ada") (key_hex ada_key)
    (lit "github:1815") (key_hex ada_next) (lit "github:1815") origin_ok rotated_reachable ltac:(lia) ltac:(lia)
    (f_claim ran) (f_rotation ran) ltac:(vm_compute; reflexivity) ltac:(vm_compute; reflexivity)) as [_ H].
  exact H.
Defined.

Lemma resolve_serves_latest_witness :
  (exists r, resolve demo_registry ada (sv_db sv_rotated) = Ok r /\ rs_index r = 0) /\
  exists es n note, registry_inv demo_registry es (sv_db sv_rotated) /\ n = 1%nat /\
    checkpoint_verify note (verifying_key demo_operator) = Ok (checkpoint_at demo_registry es n).
Proof.
  split; [exact (f_resolved ran)|].
  destruct (resolve_serves_latest demo_registry demo_limits sv_rotated ada origin_ok rotated_reachable) as (es & n & note & I & _ & Hn & Hv & _).
  exists es, n, note. split; [exact I|]. split; [|exact Hv]. apply Nat2Z.inj. rewrite Hn. exact (f_served ran).
Defined.

Lemma registry_proofs_reference_witness :
  exists es, registry_inv demo_registry es (sv_db sv_rotated) /\
    storage_inclusion_proof (sv_db sv_rotated) 0 2 = Ok (inclusion_proof (from_leaves (leaves_of es)) 0 2).
Proof.
  destruct (registry_proofs_reference demo_registry demo_limits sv_rotated 0 2 1 origin_ok rotated_reachable) as (es & I & H & _).
  exists es. split; [exact I|exact H].
Defined.

Lemma published_head_witnessed_witness :
  ts_size (pu_state (published_state (sv_db sv_published))) = 1 /\
  exists body fr since Q, witnessed body (wp_witnesses demo_policy) 1 fr since Q.
Proof.
  pose proof (f_published ran) as E. split; [exact E|].
  destruct (published_head_witnessed demo_registry demo_limits sv_published sv_rotated demo_policy origin_ok eq_refl ltac:(discriminate)
    published_reachable published_to_rotated) as (_ & _ & [Hz|(body & sigs & fr & since & Q & _ & _ & H)]).
  - rewrite E in Hz. discriminate Hz.
  - exists body, fr, since, Q. exact H.
Defined.

Lemma binding_authorised_witness :
  exists before db' es e row, registry_inv demo_registry es (sv_db before) /\ registry_inv demo_registry (es ++ [e]) db' /\ mode_kind e Register = true /\
    possession ada (verifying_key ada_key) (claim_signature ada_key) /\
    identity_challenges (sv_db before) !! nonce1_hash = Some row /\ ic_consumed_at row = None.
Proof.
  destruct (binding_authorised demo_registry demo_limits sv_asked sv_claimed (demo_env sv_asked) ada (verifying_key ada_key) (claim_signature ada_key)
    (proof_of nonce1) Register (Ok claimed) origin_ok asked_reachable ltac:(cbn; lia) (demo_others _) (f_claimed ran))
    as [Q|(before & db' & es & es' & i & e & subject & row & row' & Q & Q' & I & I' & _ & Hlog & Hp & _ & _ & _ & _ & _ & Hr & Hn & _)].
  - exfalso. apply quiet_entries in Q. apply (f_equal length) in Q. rewrite (f_before ran), (f_after ran) in Q. discriminate Q.
  - destruct Hlog as [[-> _]|(-> & _ & Hm)].
    + exfalso. apply quiet_entries, (f_equal length) in Q, Q'. cbn [on_db sv_db] in Q'. pose proof (length_rows _ _ _ _ (rv_log _ _ _ I)) as L.
      rewrite <-(length_rows _ _ _ _ (rv_log _ _ _ I')) in L. rewrite (f_before ran) in Q. rewrite (f_after ran) in Q'. rewrite Q, <-Q' in L. discriminate L.
    + exists before, db', es, e, row. split; [exact I|]. split; [exact I'|]. split; [exact Hm|]. split; [exact Hp|]. split; [exact Hr|exact Hn].
Defined.

(** The answer to the claim, lost, is recovered after the rotation. *)
Lemma binding_retry_recovers_witness :
  exists reg, bind nonce1 ada_key Register sv_rotated = (Ok reg, sv_rotated) /\ re_index reg = re_index claimed.
Proof.
  destruct (binding_retry_recovers demo_registry demo_limits sv_asked sv_claimed (demo_env sv_asked) ada
    (verifying_key ada_key) (claim_signature ada_key) (proof_of nonce1) Register claimed origin_ok asked_reachable ltac:(cbn; lia) (demo_others _)
    (f_claimed ran) (f_appended ran)) as (after & Ea & _ & H).
  destruct (H sv_rotated (demo_env sv_rotated) claimed_to_rotated (demo_others _)) as (reg & Hb & Hi & _).
  - rewrite answering_alone in Ea. rewrite <-Ea. exact (f_kept ran).
  - rewrite recovering_alone in Hb. exists reg. split; [exact Hb|exact Hi].
Defined.

(** * The check at start *)

Section Run.
Lemma demo_receipt_laws : ReceiptJsonLaws.
Proof. intros r json. apply table_laws. Qed.
#[local] Existing Instance demo_receipt_laws.

Lemma registry_reopens_witness :
  verify_storage (lit "log") (verifying_key demo_operator) (sv_db sv_rotated) = Ok tt /\ exists n, audit_all_entries (sv_db sv_rotated) = Ok n.
Proof.
  destruct (registry_reopens demo_registry demo_limits sv_rotated origin_ok rotated_reachable) as (_ & H & es & _ & Ha).
  split; [exact H|]. exists (Z.of_nat (length es)). exact Ha.
Defined.

Lemma rotated_inv : exists es, registry_inv demo_registry es (sv_db sv_rotated).
Proof. exact (service_reachable_inv demo_registry demo_limits sv_rotated origin_ok rotated_reachable). Qed.

Lemma rotated_keyed : keyed (sv_db sv_rotated).
Proof. destruct rotated_inv as (es & I). exact (registry_keyed demo_registry es _ I). Qed.

Lemma rotated_passes : verify_storage (lit "log") (verifying_key demo_operator) (sv_db sv_rotated) = Ok tt.
Proof. destruct rotated_inv as (es & I). exact (registry_passes demo_registry origin_ok es (sv_db sv_rotated) I). Qed.

Lemma storage_audit_exact_witness :
  exists es, projects (sv_db sv_rotated) es /\ handle_history (sv_db sv_rotated) = omap history_row es /\
    ts_size (registry_state (sv_db sv_rotated)) = Z.of_nat (length es).
Proof.
  destruct (storage_audit_exact (lit "log") (verifying_key demo_operator) (sv_db sv_rotated) rotated_keyed rotated_passes) as (es & P & H & _).
  exists es. split; [exact P|]. split; [exact (pj_history _ _ P)|exact H].
Defined.
End Run.

(** * A rewritten entry *)

(** The first entry of a log of two, with another owner. *)
Definition forged_entry : LogEntry := Eval vm_compute in entry_handle_claim 0 (lit "/github/ada") (key_hex ada_next) (lit "github:666") 1003000.

Section Rewritten.
#[local] Instance forged_json : EntryJson :=
  {| entry_to_string := table_to [claim_entry; rotation_entry; forged_entry]; entry_from_str := table_from [claim_entry; rotation_entry; forged_entry] |}.

Definition append_to (e : LogEntry) (db : Database) : Database :=
  from_ok blank (snd <$> append_entry_in_transaction (lit "log") demo_operator 5 e db).
Definition honest_db : Database := append_to rotation_entry (append_to claim_entry fresh_db).
Definition other_db : Database := append_to rotation_entry (append_to forged_entry fresh_db).

(** The rows of the other log, and its first leaf, under the honest parents and the honest head. *)
Definition rewritten_db : Database :=
  let db := with_log (entries other_db) (current_bindings honest_db) (handle_history other_db) (compliance_keys honest_db)
              (directory_mutations honest_db) honest_db in
  with_head (match merkle_nodes other_db !! (0%nat, 0%nat) with
             | Some leaf => <[(0%nat, 0%nat) := leaf]> (merkle_nodes honest_db)
             | None => merkle_nodes honest_db
             end) (checkpoints honest_db) (registry_state honest_db) db.

Definition accepts (db : Database) : bool := is_ok (verify_storage (lit "log") (verifying_key demo_operator) db).
Definition first_entry (db : Database) : option LogEntry := match entry_at db 0 with Ok e => e | Err _ => None end.

(** The check at start accepts both databases under the one signed head, though their first entries name different owners: the replay
    compares a leaf with its entry, and the root with the stored inner nodes, but no inner node with the nodes below it. *)
Lemma rewritten_entry_passes :
  accepts honest_db && accepts rewritten_db && (registry_state rewritten_db ≟ registry_state honest_db) &&
  (ts_size (registry_state honest_db) =? 2) &&
  (first_entry honest_db ≟ Some claim_entry) && (first_entry rewritten_db ≟ Some forged_entry) = true.
Proof. vm_compute. reflexivity. Qed.
End Rewritten.

(** * A policy that refuses the head it published *)

Definition second_witness : Identity := from_seed (vreplicate 32 x0a).
Definition second_client : WitnessClient :=
  {| wc_witness := MkWitnessKey (lit "x") (verifying_key second_witness); wc_origin := lit "log"; operator_key := verifying_key demo_operator;
     timing := default_timing |}.
Definition pair_policy : WitnessPolicy :=
  {| wp_witnesses := [wc_witness demo_client; wc_witness second_client]; wp_threshold := 2; wp_max_cosignature_age_secs := 600;
     wp_future_clock_skew_secs := 30; wp_max_lag_entries := 0 |}.
Definition pair_registry : Registry := {| rg_origin := lit "log"; rg_signing_key := demo_operator; rg_witness_policy := Some pair_policy |}.

Definition cosigned (k : WitnessClient) (id : Identity) (at_ : Z) : WitnessReceipt :=
  let c := {| cp_origin := lit "log"; cp_size := 0; cp_root := head_at [] 0 |} in
  from_ok receipt0 (line ← map_err (fun _ => InvalidCosignature) (cosignature_line c (w_name (wc_witness k)) id at_);
                    receipt_from_lines k (head_note []) c line at_).
Definition early_receipt : WitnessReceipt := Eval vm_compute in cosigned demo_client demo_witness 1000.
Definition late_receipt : WitnessReceipt := Eval vm_compute in cosigned second_client second_witness 1100.

Section Reinstalled.
#[local] Instance pair_receipt_json : ReceiptJson :=
  {| receipt_to_string := table_to [early_receipt; late_receipt]; receipt_from_str := table_from [early_receipt; late_receipt] |}.

Definition saved (receipt : WitnessReceipt) (at_ : Z) (db : Database) : Database := (registry_save_witness_receipt pair_registry receipt at_ at_ db).2.
Definition cosigned_db : Database := saved late_receipt 1100 (saved early_receipt 1000 fresh_db).
Definition promoted : RegistryResult bool * Database := promote_witnessed_head pair_registry 1100 cosigned_db.

(** Two witnesses cosign a head a hundred seconds apart, within the age the policy admits, and the registry publishes it under both.  Opened
    again, its database passes the check at start, but the same policy cannot be installed: the published head is verified at the time
    of its oldest cosignature, where the newer one lies more than the clock skew in the future. *)
Lemma published_policy_refused :
  match promoted.1 with Ok true => true | _ => false end && (pu_witnessed_at (published_state promoted.2) ≟ Some 1000) &&
  is_ok (verify_storage (lit "log") (verifying_key demo_operator) promoted.2) &&
  match with_witness_policy pair_registry pair_policy promoted.2 with Err WitnessConflict => true | _ => false end = true.
Proof. vm_compute. reflexivity. Qed.
End Reinstalled.
