(* ===== verification/Policy.v ===== *)
(** Recipient policies: [pigeonpost-core/src/policy.rs].  The attribution requirement and
    its canonical codec, the three signed policy payloads, the policy's constructors,
    verification and migration. *)
From S2P Require Import Prelude Text B32 Network Crypto Origin Token Compliance.

(** * The attribution requirement *)

Definition ATTRIBUTION_REQUIREMENT_VERSION : byte := x01.
Definition ATTRIBUTION_REQUIREMENT_LEN : nat := 34.

Record AttributionRequirement := {
  ar_version : byte;
  ar_jurisdiction : Jurisdiction;
  ar_authority : arr 32;
}.

#[global] Instance AttributionRequirement_eq_dec : EqDecision AttributionRequirement.
Proof. solve_decision. Defined.

Definition requirement_new (jurisdiction : Jurisdiction) (authority : arr 32) : AttributionRequirement :=
  {| ar_version := ATTRIBUTION_REQUIREMENT_VERSION; ar_jurisdiction := jurisdiction; ar_authority := authority |}.

Definition requirement_validate (r : AttributionRequirement) : result Error unit :=
  _ ← guard (negb (ar_version r ≟ ATTRIBUTION_REQUIREMENT_VERSION))
        (MalformedEnvelope "unsupported attribution requirement version");
  guard (ar_authority r ≟ zeroes 32) (MalformedEnvelope "attribution authority must not be all zeroes").

Definition requirement_encode (r : AttributionRequirement) : result Error bytes :=
  _ ← requirement_validate r;
  Ok ([ar_version r; jurisdiction_u8 (ar_jurisdiction r)] ++ vec_to_list (ar_authority r)).

Definition requirement_decode (encoded : bytes) : result Error AttributionRequirement :=
  _ ← guard (negb (length encoded =? ATTRIBUTION_REQUIREMENT_LEN)%nat)
        (MalformedEnvelope "invalid attribution requirement length");
  _ ← guard (negb (byte_at 0 encoded ≟ ATTRIBUTION_REQUIREMENT_VERSION))
        (MalformedEnvelope "unsupported attribution requirement version");
  jurisdiction ← match jurisdiction_try_from (byte_at 1 encoded) with
                 | Ok j => Ok j
                 | Err _ => Err (MalformedEnvelope "invalid attribution jurisdiction")
                 end;
  let requirement := requirement_new jurisdiction (take_arr 32 (slice 2 34 encoded)) in
  _ ← requirement_validate requirement;
  Ok requirement.

Definition matches_key_id (r : AttributionRequirement) (key_id : ComplianceKeyId) : bool :=
  is_ok (requirement_validate r) && is_ok (key_id_validate key_id)
  && (purpose key_id ≟ Attribution) && (jurisdiction key_id ≟ ar_jurisdiction r)
  && (authority key_id ≟ ar_authority r).

(** The option as it is written into a signed payload. *)
Definition requirement_field (r : option AttributionRequirement) : bytes :=
  match r with
  | Some requirement =>
      [x01; ar_version requirement; jurisdiction_u8 (ar_jurisdiction requirement)]
      ++ vec_to_list (ar_authority requirement)
  | None => [x00]
  end.

(** * The policy *)

Definition SIG_DOMAIN_POLICY_V1 : bytes := lit "pigeonpost/recipient-policy/v1".
Definition SIG_DOMAIN_POLICY_V2 : bytes := lit "pigeonpost/recipient-policy/v2".
Definition SIG_DOMAIN_POLICY_V3 : bytes := lit "pigeonpost/recipient-policy/v3".
Definition RECIPIENT_POLICY_VERSION : byte := x03.
Definition LEGACY_RECIPIENT_POLICY_VERSION : byte := x01.
Definition PREVIOUS_RECIPIENT_POLICY_VERSION : byte := x02.
Definition MAX_TOKENS : nat := 64.

Record RecipientPolicy := {
  rp_version : byte;
  rp_pubkey : arr 32;
  pow_min : Z;
  token_required : bool;
  token_hashes : list (arr 32);
  attribution_required : bool;
  attribution_requirement : option AttributionRequirement;
  rp_seq : Z;
  rp_signature : arr 64;
}.

(** [(token_hashes.len() as u32)] *)
Definition len_u32 {A} (l : list A) : Z := wrap 32 (Z.of_nat (length l)).

Definition payload_v1 (pubkey : arr 32) (pow_min : Z) (token_required : bool) (token_hashes : list (arr 32))
  (seq : Z) (attribution_required : bool) : bytes :=
  SIG_DOMAIN_POLICY_V1 ++ vec_to_list pubkey ++ le_bytes 4 pow_min ++ [bool_byte token_required]
  ++ le_bytes 4 (len_u32 token_hashes) ++ concat_arrs token_hashes ++ le_bytes 8 seq
  ++ [bool_byte attribution_required].

Definition payload_v2 (pubkey : arr 32) (pow_min : Z) (token_required : bool) (token_hashes : list (arr 32))
  (seq : Z) (attribution_required : bool) : bytes :=
  SIG_DOMAIN_POLICY_V2 ++ [PREVIOUS_RECIPIENT_POLICY_VERSION] ++ vec_to_list pubkey ++ be_bytes 4 pow_min
  ++ [bool_byte token_required] ++ be_bytes 4 (len_u32 token_hashes) ++ concat_arrs token_hashes
  ++ [bool_byte attribution_required] ++ be_bytes 8 seq.

Definition payload_v3 (pubkey : arr 32) (pow_min : Z) (token_required : bool) (token_hashes : list (arr 32))
  (seq : Z) (attribution_requirement : option AttributionRequirement) : bytes :=
  SIG_DOMAIN_POLICY_V3 ++ [RECIPIENT_POLICY_VERSION] ++ vec_to_list pubkey ++ be_bytes 4 pow_min
  ++ [bool_byte token_required] ++ be_bytes 4 (len_u32 token_hashes) ++ concat_arrs token_hashes
  ++ requirement_field attribution_requirement ++ be_bytes 8 seq.

(** The [match self.version] of [RecipientPolicy::verify]: the arms in their order. *)
Definition policy_payload (p : RecipientPolicy) : result Error bytes :=
  let legacy f := f (rp_pubkey p) (pow_min p) (token_required p) (token_hashes p) (rp_seq p) (attribution_required p) in
  if (rp_version p ≟ LEGACY_RECIPIENT_POLICY_VERSION) && negb (is_some (attribution_requirement p)) then
    Ok (legacy payload_v1)
  else if (rp_version p ≟ PREVIOUS_RECIPIENT_POLICY_VERSION) && negb (is_some (attribution_requirement p)) then
    Ok (legacy payload_v2)
  else if (rp_version p ≟ RECIPIENT_POLICY_VERSION)
          && eqb (attribution_required p) (is_some (attribution_requirement p)) then
    _ ← match attribution_requirement p with
        | Some requirement => requirement_validate requirement
        | None => Ok tt
        end;
    Ok (payload_v3 (rp_pubkey p) (pow_min p) (token_required p) (token_hashes p) (rp_seq p)
          (attribution_requirement p))
  else if (rp_version p ≟ LEGACY_RECIPIENT_POLICY_VERSION) || (rp_version p ≟ PREVIOUS_RECIPIENT_POLICY_VERSION) then
    Err (MalformedEnvelope "legacy policy carries unsigned attribution scope")
  else if rp_version p ≟ RECIPIENT_POLICY_VERSION then
    Err (MalformedEnvelope "inconsistent attribution requirement")
  else Err (MalformedEnvelope "unsupported policy version").

Section Policy.
Context {C : Crypto}.

Definition with_attribution_requirement (identity : Identity) (pow_min : Z) (token_required : bool)
  (token_hashes : list (arr 32)) (seq : Z) (attribution_requirement : option AttributionRequirement)
  : RecipientPolicy :=
  let pubkey := verifying_key identity in
  let payload := payload_v3 pubkey pow_min token_required token_hashes seq attribution_requirement in
  {| rp_version := RECIPIENT_POLICY_VERSION; rp_pubkey := pubkey; pow_min := pow_min;
     token_required := token_required; token_hashes := token_hashes; rp_seq := seq;
     attribution_required := is_some attribution_requirement;
     attribution_requirement := attribution_requirement;
     rp_signature := sign identity payload |}.

Definition policy_new (identity : Identity) (pow_min : Z) (token_required : bool)
  (token_hashes : list (arr 32)) (seq : Z) : RecipientPolicy :=
  with_attribution_requirement identity pow_min token_required token_hashes seq None.

Definition permissive (pubkey : arr 32) : RecipientPolicy :=
  {| rp_version := RECIPIENT_POLICY_VERSION; rp_pubkey := pubkey; pow_min := 0; token_required := false;
     token_hashes := []; rp_seq := 0; attribution_required := false; attribution_requirement := None;
     rp_signature := zeroes 64 |}.

Definition policy_verify (p : RecipientPolicy) (last_seq : option Z) : result Error VerifyingKey :=
  _ ← guard (MAX_TOKENS <? length (token_hashes p))%nat TooLarge;
  _ ← guard (match last_seq with Some last => rp_seq p <=? last | None => false end) StaleSequence;
  key ← verifying_key_from_bytes (rp_pubkey p);
  payload ← policy_payload p;
  _ ← verify key payload (rp_signature p);
  Ok key.

Definition migrate_legacy (p : RecipientPolicy) (identity : Identity) (next_seq : Z)
  (requirement : option AttributionRequirement) : result Error RecipientPolicy :=
  _ ← guard (negb ((rp_version p ≟ LEGACY_RECIPIENT_POLICY_VERSION)
                   || (rp_version p ≟ PREVIOUS_RECIPIENT_POLICY_VERSION)))
        (MalformedEnvelope "policy is not legacy");
  _ ← policy_verify p None;
  _ ← guard (negb (verifying_key identity ≟ rp_pubkey p)) InvalidKey;
  _ ← guard (next_seq <=? rp_seq p) StaleSequence;
  _ ← guard (attribution_required p && negb (is_some requirement))
        (MalformedEnvelope "legacy attribution policy requires an explicit scope");
  _ ← match requirement with Some requirement => requirement_validate requirement | None => Ok tt end;
  Ok (with_attribution_requirement identity (pow_min p) (token_required p) (token_hashes p) next_seq requirement).

Definition accepts_token (p : RecipientPolicy) (presented : Presentation) : bool :=
  existsb (fun registered => presentation_matches presented (MkPresentation registered)) (token_hashes p).
End Policy.

(** * Lemmas *)

Lemma requirement_validate_Ok r u :
  requirement_validate r = Ok u <->
  ar_version r = ATTRIBUTION_REQUIREMENT_VERSION /\ ar_authority r <> zeroes 32.
Proof.
  unfold requirement_validate. destruct u. split.
  - intros H. inv_ok. by b2p.
  - intros [Hv Ha]. by rewrite (bool_decide_true (ar_version r = _)), (bool_decide_false (ar_authority r = _)).
Qed.

Lemma requirement_field_inj r r' x y :
  requirement_field r ++ x = requirement_field r' ++ y -> r = r' /\ x = y.
Proof.
  destruct r as [r|], r' as [r'|]; unfold requirement_field; rewrite <-?(assoc_L (++)); intros P; try done.
  - payload_inj P. apply jurisdiction_u8_inj in E1. destruct r, r'; simpl in *; naive_solver.
  - by payload_inj P.
Qed.

Lemma len_u32_range {A} (l : list A) : in_uint 32 (len_u32 l).
Proof. unfold len_u32, wrap, in_uint. apply Z.mod_pos_bound. lia. Qed.

Lemma len_u32_inj {A} (l l' : list A) :
  Z.of_nat (length l) < 2 ^ 32 -> Z.of_nat (length l') < 2 ^ 32 -> len_u32 l = len_u32 l' -> length l = length l'.
Proof. unfold len_u32, wrap. intros H H'. rewrite !Z.mod_small by lia. lia. Qed.

(** The widths of the numeric fields, and the token bound that verification enforces. *)
Definition policy_wf (p : RecipientPolicy) : Prop :=
  in_uint 32 (pow_min p) /\ in_uint 64 (rp_seq p) /\ (length (token_hashes p) <= MAX_TOKENS)%nat.

(** The signed content of a policy: everything but its signature. *)
Definition signed_fields (p : RecipientPolicy) :=
  (rp_version p, rp_pubkey p, pow_min p, token_required p, token_hashes p,
   (attribution_required p, attribution_requirement p, rp_seq p)).

Lemma policy_payload_Ok p b :
  policy_payload p = Ok b ->
  (rp_version p = x01 /\ attribution_requirement p = None /\
   b = payload_v1 (rp_pubkey p) (pow_min p) (token_required p) (token_hashes p) (rp_seq p) (attribution_required p)) \/
  (rp_version p = x02 /\ attribution_requirement p = None /\
   b = payload_v2 (rp_pubkey p) (pow_min p) (token_required p) (token_hashes p) (rp_seq p) (attribution_required p)) \/
  (rp_version p = x03 /\ attribution_required p = is_some (attribution_requirement p) /\
   from_option (fun r => requirement_validate r = Ok tt) True (attribution_requirement p) /\
   b = payload_v3 (rp_pubkey p) (pow_min p) (token_required p) (token_hashes p) (rp_seq p) (attribution_requirement p)).
Proof.
  unfold policy_payload. intros H.
  destruct (_ && _) eqn:E1 in H; [left|].
  { inv_ok. b2p. destruct (attribution_requirement p); done. }
  destruct (_ && _) eqn:E2 in H; [right; left|].
  { inv_ok. b2p. destruct (attribution_requirement p); done. }
  destruct (_ && _) eqn:E3 in H; [right; right|by repeat case_match].
  inv_ok. b2p. apply eqb_prop in H1. split_and!; [done..| |done].
  destruct (attribution_requirement p); [|done]. by destruct a.
Qed.

Lemma policy_payload_inj p p' b :
  policy_wf p -> policy_wf p' -> policy_payload p = Ok b -> policy_payload p' = Ok b ->
  signed_fields p = signed_fields p'.
Proof.
  intros (Hw & Hs & Ht) (Hw' & Hs' & Ht') H H'. unfold MAX_TOKENS in *.
  pose proof (len_u32_range (token_hashes p)) as Hl. pose proof (len_u32_range (token_hashes p')) as Hl'.
  pose proof (len_u32_inj (token_hashes p) (token_hashes p') ltac:(lia) ltac:(lia)) as Hlen.
  apply policy_payload_Ok in H as [(Hv & Hr & ->)|[(Hv & Hr & ->)|(Hv & Hr & _ & ->)]];
    apply policy_payload_Ok in H' as [(Hv' & Hr' & P)|[(Hv' & Hr' & P)|(Hv' & Hr' & _ & P)]];
    try (exfalso; by apply domain_sep in P).
  all: unfold payload_v1, payload_v2, payload_v3 in P; payload_inj P.
  all: apply concat_arrs_inj in P as [E' P]; [|by auto].
  - payload_inj P. unfold signed_fields. congruence.
  - payload_inj P. unfold signed_fields. congruence.
  - apply requirement_field_inj in P as [E'' P]. payload_inj P. unfold signed_fields. congruence.
Qed.

Section Verification.
Context {C : Crypto}.

Lemma policy_verify_Ok p last k :
  policy_verify p last = Ok k <->
  (length (token_hashes p) <= MAX_TOKENS)%nat /\ from_option (fun l => l < rp_seq p) True last /\
  k = rp_pubkey p /\ verifying_key_from_bytes (rp_pubkey p) = Ok k /\
  exists b, policy_payload p = Ok b /\ verify_strict k b (rp_signature p) = true.
Proof.
  unfold policy_verify. split.
  - intros H. inv_ok. subst a1. apply verify_Ok in Ha3. b2p.
    pose proof (proj1 (verifying_key_from_bytes_Ok _ _) Ha1) as [-> _]. split_and!; [done| |done|done|by eauto].
    destruct last; [|done]. by b2p.
  - intros (Ht & Hl & -> & Hk & b & Hb & Hs).
    rewrite (proj2 (Nat.ltb_ge _ _) Ht), Hk, Hb. apply (verify_Ok _ _ _ tt) in Hs.
    replace (match last with Some l => rp_seq p <=? l | None => false end) with false.
    2:{ destruct last; [|done]. symmetry. apply Z.leb_gt. done. }
    cbn. by rewrite Hs.
Qed.

(** What a recipient signed is what a loft enforces.  If a policy verifies, its
    signature is by the key it names over a payload that no other policy has: any
    well-formed policy with the same payload agrees with it in every field but the signature, of any of
    the three versions; its token list is within bounds and its sequence number exceeds the last one. *)
Theorem policy_verify_binds (p : RecipientPolicy) (last : option Z) (key : VerifyingKey) :
  policy_wf p -> policy_verify p last = Ok key ->
  key = rp_pubkey p /\ from_option (fun l => l < rp_seq p) True last /\
  exists payload, policy_payload p = Ok payload /\ verify_strict key payload (rp_signature p) = true /\
    forall p', policy_wf p' -> policy_payload p' = Ok payload -> signed_fields p' = signed_fields p.
Proof.
  intros Hw H. apply policy_verify_Ok in H as (_ & Hl & -> & _ & b & Hb & Hs).
  split; [done|]. split; [done|]. exists b. split; [done|]. split; [done|].
  intros p' Hw' Hb'. by apply (policy_payload_inj p' p b).
Qed.

(** No accepted policy turns attribution off in transit: an accepted policy
    that requires attribution without naming a scope is of a legacy version, and any accepted
    current policy requires it exactly when it names a valid scope. *)
Theorem policy_attribution_consistent (p : RecipientPolicy) (last : option Z) (key : VerifyingKey) :
  policy_verify p last = Ok key ->
  match attribution_requirement p with
  | Some r => rp_version p = RECIPIENT_POLICY_VERSION /\ attribution_required p = true /\
              ar_version r = ATTRIBUTION_REQUIREMENT_VERSION /\ ar_authority r <> zeroes 32
  | None => rp_version p = RECIPIENT_POLICY_VERSION -> attribution_required p = false
  end.
Proof.
  intros H. apply policy_verify_Ok in H as (_ & _ & _ & _ & b & Hb & _).
  apply policy_payload_Ok in Hb as [(Hv & -> & _)|[(Hv & -> & _)|(Hv & Hr & Hok & _)]]; rewrite ?Hv; [done..|].
  destruct (attribution_requirement p) as [r|]; [|done]. by apply requirement_validate_Ok in Hok.
Qed.

Context {CL : CryptoLaws}.

Lemma with_requirement_verifies id w t hashes seq r last :
  (length hashes <= MAX_TOKENS)%nat -> from_option (fun l => l < seq) True last ->
  from_option (fun r => requirement_validate r = Ok tt) True r ->
  policy_verify (with_attribution_requirement id w t hashes seq r) last = Ok (verifying_key id).
Proof.
  intros Ht Hl Hr. apply policy_verify_Ok. cbn. split_and!; [done..| |].
  - apply own_key_decodes.
  - eexists. split.
    + unfold policy_payload. cbn. rewrite eqb_reflx. destruct r as [r|]; [cbn in Hr |- *; by rewrite Hr|done].
    + apply (verify_Ok _ _ _ tt), verify_sign.
Qed.

(** The owner's own policy is accepted: whatever floor and scope it sets, a policy the constructor
    builds with a valid scope, at most 64 tokens and a fresh sequence number verifies to the owner's key. *)
Theorem policy_new_verifies (id : Identity) (w : Z) (t : bool) (hashes : list (arr 32)) (seq : Z)
  (r : option AttributionRequirement) (last : option Z) :
  (length hashes <= MAX_TOKENS)%nat -> from_option (fun l => l < seq) True last ->
  from_option (fun r => requirement_validate r = Ok tt) True r ->
  policy_verify (with_attribution_requirement id w t hashes seq r) last = Ok (verifying_key id).
Proof. apply with_requirement_verifies. Qed.

(** Migrating a legacy policy gives a current one that the loft holding the old one accepts,
    with the same floor, gate and tokens; and if the old one required attribution the new one does. *)
Theorem migrate_legacy_safe (p q : RecipientPolicy) (id : Identity) (next : Z) (r : option AttributionRequirement) :
  migrate_legacy p id next r = Ok q ->
  policy_verify q (Some (rp_seq p)) = Ok (rp_pubkey p) /\ rp_version q = RECIPIENT_POLICY_VERSION /\
  pow_min q = pow_min p /\ token_required q = token_required p /\ token_hashes q = token_hashes p /\
  (attribution_required p = true -> attribution_required q = true).
Proof.
  unfold migrate_legacy. intros H. inv_ok. subst q. apply policy_verify_Ok in Ha0 as (Ht & _). b2p.
  split_and!; [|done..|].
  - rewrite <-Ha1. apply with_requirement_verifies; [done|simpl; lia|].
    destruct r; [|done]. by destruct a4.
  - cbn. intros Hreq. rewrite Hreq in Ha3. by destruct r.
Qed.
End Verification.

(** The canonical encoding of an attribution requirement: bytes decode to a
    requirement exactly when they are its encoding. *)
Theorem requirement_codec (bs : bytes) (r : AttributionRequirement) :
  requirement_decode bs = Ok r <-> requirement_encode r = Ok bs.
Proof.
  unfold requirement_decode, requirement_encode, ATTRIBUTION_REQUIREMENT_LEN. split.
  - intros H. inv_ok. b2p. subst r. destruct (jurisdiction_try_from _) eqn:Ej; simplify_eq.
    apply jurisdiction_codec in Ej. rewrite Ha2. cbn [mbind result_bind requirement_new ar_version ar_jurisdiction ar_authority].
    f_equal. rewrite vec_slice, <-Ha0, <-Ej by lia.
    destruct bs as [|x [|y bs]]; simpl in Ha; try lia. cbn. f_equal. f_equal. unfold slice. cbn.
    apply take_ge. lia.
  - intros H. inv_ok. subst bs. apply requirement_validate_Ok in Ha as [Hv Ha].
    rewrite length_app, length_vec_to_list. cbn [Nat.eqb Nat.add length guard negb mbind result_bind].
    replace (byte_at 0 _) with (ar_version r) by done. rewrite bool_decide_true by done.
    replace (byte_at 1 _) with (jurisdiction_u8 (ar_jurisdiction r)) by done.
    rewrite (proj2 (jurisdiction_codec _ _) eq_refl). cbn [guard negb mbind result_bind].
    rewrite (slice_end [_; _]), take_arr_all by (done || by rewrite length_vec_to_list).
    replace (requirement_new _ _) with r by (destruct r; simpl in *; by subst).
    by rewrite (proj2 (requirement_validate_Ok r tt)).
Qed.

(** * Concrete policies *)

Definition demo_id : Identity := from_seed (vreplicate 32 x07).
Definition demo_requirement : AttributionRequirement := requirement_new Eu (vreplicate 32 x05).
Definition demo_policy : RecipientPolicy :=
  with_attribution_requirement (C := toy_crypto) demo_id 12 true [zeroes 32] 7 (Some demo_requirement).
Definition demo_legacy : RecipientPolicy :=
  let key := verifying_key (H := toy_crypto) demo_id in
  {| rp_version := x01; rp_pubkey := key; pow_min := 3; token_required := false; token_hashes := [];
     attribution_required := true; attribution_requirement := None; rp_seq := 4;
     rp_signature := sign (H := toy_crypto) demo_id (payload_v1 key 3 false [] 4 true) |}.

Lemma demo_policy_wf : policy_wf demo_policy.
Proof. unfold policy_wf, in_uint, MAX_TOKENS. simpl. lia. Qed.

Lemma policy_verify_binds_witness :
  (policy_wf demo_policy /\ policy_verify (C := toy_crypto) demo_policy (Some 6) = Ok (rp_pubkey demo_policy)) /\
  rp_pubkey demo_policy = rp_pubkey demo_policy /\ 6 < rp_seq demo_policy /\
  exists payload, policy_payload demo_policy = Ok payload /\
    verify_strict (Crypto := toy_crypto) (rp_pubkey demo_policy) payload (rp_signature demo_policy) = true /\
    forall p', policy_wf p' -> policy_payload p' = Ok payload -> signed_fields p' = signed_fields demo_policy.
Proof.
  assert (policy_verify (C := toy_crypto) demo_policy (Some 6) = Ok (rp_pubkey demo_policy)) as H
    by (vm_compute; reflexivity).
  split; [split; [apply demo_policy_wf|exact H]|].
  exact (policy_verify_binds (C := toy_crypto) demo_policy (Some 6) _ demo_policy_wf H).
Defined.

Lemma policy_attribution_consistent_witness :
  policy_verify (C := toy_crypto) demo_policy None = Ok (rp_pubkey demo_policy) /\
  attribution_required demo_policy = true.
Proof.
  assert (policy_verify (C := toy_crypto) demo_policy None = Ok (rp_pubkey demo_policy)) as H
    by (vm_compute; reflexivity).
  split; [exact H|]. exact (proj1 (proj2 (policy_attribution_consistent (C := toy_crypto) demo_policy None _ H))).
Defined.

Lemma policy_new_verifies_witness :
  requirement_validate demo_requirement = Ok tt /\
  policy_verify (C := toy_crypto) demo_policy (Some 6) = Ok (verifying_key (H := toy_crypto) demo_id).
Proof.
  split; [vm_compute; reflexivity|].
  apply (policy_new_verifies (C := toy_crypto) (CL := toy_laws) demo_id 12 true [zeroes 32] 7 (Some demo_requirement) (Some 6));
    [unfold MAX_TOKENS; simpl; lia|simpl; lia|vm_compute; reflexivity].
Defined.

Lemma migrate_legacy_safe_witness :
  exists q, migrate_legacy (C := toy_crypto) demo_legacy demo_id 5 (Some demo_requirement) = Ok q /\
    policy_verify (C := toy_crypto) q (Some 4) = Ok (rp_pubkey demo_legacy) /\ attribution_required q = true.
Proof.
  destruct (migrate_legacy (C := toy_crypto) demo_legacy demo_id 5 (Some demo_requirement)) as [q|e] eqn:E;
    [|vm_compute in E; discriminate].
  destruct (migrate_legacy_safe (C := toy_crypto) (CL := toy_laws) _ _ _ _ _ E) as (Hq & _ & _ & _ & _ & Ha).
  exists q. split; [reflexivity|]. split; [exact Hq|]. apply Ha. reflexivity.
Defined.
