(* ===== verification/FetchAuth.v ===== *)
(** Fetch authentication: [pigeonpost-core/src/fetch_auth.rs].  The stateless credential
    with which a mailbox owner drains one loft, and what it is bound to. *)
From S2P Require Import Prelude Text B32 Network Crypto Origin.

Definition SIG_DOMAIN_FETCH : bytes := lit "pigeonpost/fetch-auth/v2".
Definition CLOCK_SKEW_MINUTES : Z := 5.

Record FetchAuth := {
  fa_recipient : arr 32;
  fa_loft_pubkey : arr 32;
  fa_loft_origin : str;
  minute : Z;
  cursor : Z;
  fa_signature : arr 64;
}.

(** The [expect] on the [u16] length holds: both callers have validated the origin, which
    is at most 2048 bytes. *)
Definition fetch_payload (recipient loft : arr 32) (loft_origin : str) (minute cursor : Z) : bytes :=
  let origin_len := Z.of_nat (length loft_origin) in
  SIG_DOMAIN_FETCH ++ vec_to_list recipient ++ vec_to_list loft ++ le_bytes 2 origin_len ++ loft_origin
  ++ le_bytes 8 minute ++ le_bytes 8 cursor.

Section FetchAuth.
Context {C : Crypto} {UP : UrlParser}.

Definition fetch_new (identity : Identity) (loft_pubkey : arr 32) (loft_origin : str) (minute cursor : Z)
  : result Error FetchAuth :=
  _ ← validate_loft_origin loft_origin;
  let recipient := verifying_key identity in
  let payload := fetch_payload recipient loft_pubkey loft_origin minute cursor in
  Ok {| fa_recipient := recipient; fa_loft_pubkey := loft_pubkey; fa_loft_origin := loft_origin;
        minute := minute; cursor := cursor; fa_signature := sign identity payload |}.

Definition fetch_verify (f : FetchAuth) (loft_pubkey : arr 32) (loft_origin : str) (now_minute : Z)
  : result Error VerifyingKey :=
  _ ← validate_loft_origin loft_origin;
  _ ← validate_loft_origin (fa_loft_origin f);
  _ ← guard (negb (fa_loft_pubkey f ≟ loft_pubkey) || negb (fa_loft_origin f ≟ loft_origin)) BadSignature;
  _ ← guard (CLOCK_SKEW_MINUTES <? abs_diff (minute f) now_minute) StaleTimestamp;
  key ← verifying_key_from_bytes (fa_recipient f);
  let payload := fetch_payload (fa_recipient f) (fa_loft_pubkey f) (fa_loft_origin f) (minute f) (cursor f) in
  _ ← verify key payload (fa_signature f);
  Ok key.

(** ** Lemmas *)

Lemma origin_fits o : validate_loft_origin o = Ok tt -> in_uint 16 (Z.of_nat (length o)).
Proof.
  intros H. apply validate_loft_origin_Ok in H as (u & host & [_ [_ Hl] _ _ _ _ _ _]).
  unfold MAX_LOFT_ORIGIN_BYTES in Hl. unfold in_uint. lia.
Qed.

Lemma fetch_payload_inj r r' k k' o o' m m' c c' :
  in_uint 16 (Z.of_nat (length o)) -> in_uint 16 (Z.of_nat (length o')) ->
  in_uint 64 m -> in_uint 64 m' -> in_uint 64 c -> in_uint 64 c' ->
  fetch_payload r k o m c = fetch_payload r' k' o' m' c' ->
  (r, k, o, m, c) = (r', k', o', m', c').
Proof.
  intros Ho Ho' Hm Hm' Hc Hc' P. unfold fetch_payload in P. cbv zeta in P. payload_inj P.
  apply app_inj_len in P as [-> P]; [|lia]. payload_inj P. congruence.
Qed.

Lemma fetch_verify_Ok f k o now key :
  fetch_verify f k o now = Ok key <->
  validate_loft_origin o = Ok tt /\ fa_loft_pubkey f = k /\ fa_loft_origin f = o /\
  abs_diff (minute f) now <= CLOCK_SKEW_MINUTES /\
  key = fa_recipient f /\ verifying_key_from_bytes (fa_recipient f) = Ok key /\
  verify_strict key (fetch_payload (fa_recipient f) k o (minute f) (cursor f)) (fa_signature f) = true.
Proof.
  unfold fetch_verify. split.
  - intros H. inv_ok. subst key. apply verify_Ok in Ha4. b2p. destruct a, a0. subst k o.
    pose proof (proj1 (verifying_key_from_bytes_Ok _ _) Ha3) as [-> _]. done.
  - intros (Ho & <- & <- & Hs & -> & Hk & Hv). rewrite Ho, !bool_decide_true by done. cbn.
    rewrite (proj2 (Z.ltb_ge _ _) Hs), Hk. cbn. apply (verify_Ok _ _ _ tt) in Hv. by rewrite Hv.
Qed.

(** * Properties *)

(** A fetch credential opens one mailbox at one loft.  If it verifies, the mailbox is
    the signer's, the loft's key and exact origin are the ones signed, the clock is within five
    minutes of the signed one, and the signed text fixes the mailbox, loft, origin, minute and
    cursor together; and the same credential is refused by every other loft key or origin. *)
Theorem fetch_verify_binds (f : FetchAuth) (k : arr 32) (o : str) (now : Z) (key : VerifyingKey) :
  in_uint 64 (minute f) -> in_uint 64 (cursor f) -> fetch_verify f k o now = Ok key ->
  key = fa_recipient f /\ fa_loft_pubkey f = k /\ fa_loft_origin f = o /\
  Z.abs (minute f - now) <= 5 /\
  (exists payload, verify_strict key payload (fa_signature f) = true /\
    payload = fetch_payload (fa_recipient f) k o (minute f) (cursor f) /\
    forall r' k' o' m' c', validate_loft_origin o' = Ok tt -> in_uint 64 m' -> in_uint 64 c' ->
      fetch_payload r' k' o' m' c' = payload -> (r', k', o', m', c') = (fa_recipient f, k, o, minute f, cursor f)) /\
  forall k' o' now', (k', o') <> (k, o) -> is_ok (fetch_verify f k' o' now') = false.
Proof.
  intros Hm Hc H. apply fetch_verify_Ok in H as (Ho & Hk & Hfo & Hs & -> & _ & Hv).
  split_and!; [done|done|done|exact Hs| |].
  - eexists. split; [exact Hv|]. split; [done|]. intros r' k' o' m' c' Ho' Hm' Hc' E.
    apply fetch_payload_inj in E; [done|by apply origin_fits..|done|done|done|done].
  - intros k' o' now' Hne. destruct (fetch_verify f k' o' now') as [key|] eqn:E; [|done].
    apply fetch_verify_Ok in E as (_ & Ek & Eo & _). congruence.
Qed.

Context {CL : CryptoLaws}.

(** The owner's credential is accepted at its loft exactly within the clock window,
    and outside it refused as stale. *)
Theorem fetch_new_window (id : Identity) (k : arr 32) (o : str) (m c now : Z) (f : FetchAuth) :
  fetch_new id k o m c = Ok f ->
  fetch_verify f k o now =
    if Z.abs (m - now) <=? 5 then Ok (verifying_key id) else Err StaleTimestamp.
Proof.
  unfold fetch_new. intros H. inv_ok. subst f. destruct a. destruct (_ <=? 5) eqn:E; b2p.
  - apply fetch_verify_Ok. cbn. split_and!; try done; [apply own_key_decodes|].
    apply (verify_Ok _ _ _ tt), verify_sign.
  - unfold fetch_verify. cbn [fa_loft_origin fa_loft_pubkey minute fa_recipient]. rewrite Ha, !bool_decide_true by done.
    cbn. unfold CLOCK_SKEW_MINUTES, abs_diff. by rewrite (proj2 (Z.ltb_lt _ _) E).
Qed.
End FetchAuth.

(** * A concrete credential *)

Definition demo_origin : str := lit "https://loft.example".
Definition demo_owner : Identity := from_seed (vreplicate 32 x07).
Definition demo_fetch : FetchAuth :=
  {| fa_recipient := verifying_key (H := toy_crypto) demo_owner; fa_loft_pubkey := zeroes 32;
     fa_loft_origin := demo_origin; minute := 100; cursor := 3;
     fa_signature := sign (H := toy_crypto) demo_owner
       (fetch_payload (verifying_key (H := toy_crypto) demo_owner) (zeroes 32) demo_origin 100 3) |}.

Lemma fetch_verify_binds_witness :
  (in_uint 64 (minute demo_fetch) /\ in_uint 64 (cursor demo_fetch) /\
   fetch_verify (C := toy_crypto) (UP := toy_url_parser) demo_fetch (zeroes 32) demo_origin 103 =
     Ok (fa_recipient demo_fetch)) /\
  is_ok (fetch_verify (C := toy_crypto) (UP := toy_url_parser) demo_fetch (zeroes 32)
           (lit "https://other.example") 103) = false.
Proof.
  assert (in_uint 64 (minute demo_fetch) /\ in_uint 64 (cursor demo_fetch)) as [Hm Hc] by (unfold in_uint; simpl; lia).
  assert (fetch_verify (C := toy_crypto) (UP := toy_url_parser) demo_fetch (zeroes 32) demo_origin 103 =
     Ok (fa_recipient demo_fetch)) as H by (vm_compute; reflexivity).
  split; [split; [exact Hm|split; [exact Hc|exact H]]|].
  destruct (fetch_verify_binds (C := toy_crypto) (UP := toy_url_parser) _ _ _ _ _ Hm Hc H) as (_ & _ & _ & _ & _ & Hr).
  apply (Hr (zeroes 32) (lit "https://other.example") 103). intros E. injection E. discriminate.
Defined.

Lemma fetch_new_window_witness :
  fetch_new (C := toy_crypto) (UP := toy_url_parser) demo_owner (zeroes 32) demo_origin 100 3 = Ok demo_fetch /\
  fetch_verify (C := toy_crypto) (UP := toy_url_parser) demo_fetch (zeroes 32) demo_origin 106 = Err StaleTimestamp.
Proof.
  assert (fetch_new (C := toy_crypto) (UP := toy_url_parser) demo_owner (zeroes 32) demo_origin 100 3 = Ok demo_fetch)
    as H by (vm_compute; reflexivity).
  split; [exact H|]. exact (fetch_new_window (C := toy_crypto) (UP := toy_url_parser) (CL := toy_laws) _ _ _ _ _ 106 _ H).
Defined.
