(* ===== verification/AgentRecord.v ===== *)
(** Agent records and key rotation: [pigeonpost-core/src/record.rs].  The routing list
    check, the two signed record payloads, verification and migration of records, and the
    doubly signed rotation to a precommitted successor. *)
From S2P Require Import Prelude Text B32 Network Crypto Origin Token Address Compliance Policy.

Definition SIG_DOMAIN_RECORD_V1 : bytes := lit "pigeonpost/agent-record/v1".
Definition SIG_DOMAIN_RECORD_V2 : bytes := lit "pigeonpost/agent-record/v2".
Definition SIG_DOMAIN_ROTATION_OUTGOING : bytes := lit "pigeonpost/rotation/v2/outgoing".
Definition SIG_DOMAIN_ROTATION_INCOMING : bytes := lit "pigeonpost/rotation/v2/incoming".

Definition ROTATION_RECORD_VERSION : byte := x02.
Definition ROTATION_GRACE_SECS : Z := 90 * 24 * 60 * 60.
Definition ROTATION_CLOCK_SKEW_SECS : Z := 5 * 60.
Definition MAX_AGENT_RECORD_LOFTS : nat := 8.
Definition MAX_AGENT_RECORD_LOFT_URL_BYTES : nat := 2048.
Definition MAX_AGENT_RECORD_LOFT_BYTES : nat := MAX_AGENT_RECORD_LOFTS * MAX_AGENT_RECORD_LOFT_URL_BYTES.
Definition AGENT_RECORD_VERSION : byte := x02.
Definition LEGACY_AGENT_RECORD_VERSION : byte := x01.

Record AgentRecord := {
  rec_version : byte;
  rec_pubkey : arr 32;
  successor_hash : arr 32;
  rec_seq : Z;
  lofts : list str;
  rec_pow_min : Z;
  rec_requirement : option AttributionRequirement;
  rec_signature : arr 64;
}.

Definition bad_record_loft : Error := MalformedEnvelope "agent record loft origin is invalid".

(** Each loft with its length before it. *)
Definition loft_fields (enc : nat -> Z -> bytes) (ls : list str) : bytes :=
  concat (map (fun loft => enc 4%nat (len_u32 loft) ++ loft) ls).

Definition record_payload_v1 (pubkey successor : arr 32) (seq : Z) (lofts : list str) (pow_min : Z) : bytes :=
  SIG_DOMAIN_RECORD_V1 ++ vec_to_list pubkey ++ vec_to_list successor ++ le_bytes 8 seq
  ++ le_bytes 4 (len_u32 lofts) ++ loft_fields le_bytes lofts ++ le_bytes 4 pow_min.

Definition record_payload_v2 (pubkey successor : arr 32) (seq : Z) (lofts : list str) (pow_min : Z)
  (requirement : option AttributionRequirement) : bytes :=
  SIG_DOMAIN_RECORD_V2 ++ [AGENT_RECORD_VERSION] ++ vec_to_list pubkey ++ vec_to_list successor
  ++ be_bytes 8 seq ++ be_bytes 4 (len_u32 lofts) ++ loft_fields be_bytes lofts ++ be_bytes 4 pow_min
  ++ requirement_field requirement.

(** The [match self.version] of [AgentRecord::verify]. *)
Definition record_payload (r : AgentRecord) : result Error bytes :=
  if (rec_version r ≟ LEGACY_AGENT_RECORD_VERSION) && negb (is_some (rec_requirement r)) then
    Ok (record_payload_v1 (rec_pubkey r) (successor_hash r) (rec_seq r) (lofts r) (rec_pow_min r))
  else if rec_version r ≟ AGENT_RECORD_VERSION then
    _ ← match rec_requirement r with
        | Some requirement => requirement_validate requirement
        | None => Ok tt
        end;
    Ok (record_payload_v2 (rec_pubkey r) (successor_hash r) (rec_seq r) (lofts r) (rec_pow_min r)
          (rec_requirement r))
  else if rec_version r ≟ LEGACY_AGENT_RECORD_VERSION then
    Err (MalformedEnvelope "legacy agent record carries unsigned attribution scope")
  else Err (MalformedEnvelope "unsupported agent record version").

Record RotationRecord := {
  rot_version : byte;
  from_key : arr 32;
  to_key : arr 32;
  next_successor_hash : arr 32;
  rot_seq : Z;
  activated_at : Z;
  grace_until : Z;
  outgoing_signature : arr 64;
  incoming_signature : arr 64;
}.

Record VerifiedRotation := {
  incoming : VerifyingKey;
  next_successor : SuccessorCommitment;
  vr_activated_at : Z;
  vr_grace_until : Z;
}.

Definition rotation_body (version : byte) (from to next : arr 32) (seq activated_at grace_until : Z) : bytes :=
  [version] ++ vec_to_list from ++ vec_to_list to ++ vec_to_list next ++ le_bytes 8 seq
  ++ le_bytes 8 activated_at ++ le_bytes 8 grace_until.

Definition rotation_signing_payload (domain body : bytes) : bytes := domain ++ body.

(** The body of a record's own fields, as [verify] rebuilds it. *)
Definition body_of (r : RotationRecord) : bytes :=
  rotation_body (rot_version r) (from_key r) (to_key r) (next_successor_hash r) (rot_seq r)
    (activated_at r) (grace_until r).

Definition retired_key_is_active (r : RotationRecord) (now : Z) : bool :=
  (activated_at r <=? now) && (now <? grace_until r).

Section Records.
Context {C : Crypto} {UP : UrlParser}.

(** One iteration of the loop; the running total is a [usize]. *)
Definition check_loft (total : nat) (loft : str) : result Error nat :=
  _ ← guard ((loft ≟ []) || (MAX_AGENT_RECORD_LOFT_URL_BYTES <? length loft)%nat) TooLarge;
  total ← ok_or (checked_add 64 (Z.of_nat total) (Z.of_nat (length loft))) TooLarge;
  _ ← guard (Z.of_nat MAX_AGENT_RECORD_LOFT_BYTES <? total) TooLarge;
  url ← ok_or (url_parse loft) bad_record_loft;
  _ ← guard (negb (username url ≟ [])
             || is_some (password url)
             || is_some (query url)
             || is_some (fragment url)
             || negb ((path url ≟ []) || (path url ≟ lit "/"))
             || negb (is_some (host_str url))
             || (port url ≟ Some 0)) bad_record_loft;
  host ← ok_or (host_str url) bad_record_loft;
  _ ← guard (is_localhost_name host) bad_record_loft;
  let numeric_loopback := is_numeric_loopback_host host in
  _ ← guard (negb (scheme url ≟ lit "https")
             && negb ((scheme url ≟ lit "http") && numeric_loopback)) bad_record_loft;
  Ok (Z.to_nat total).

Fixpoint check_lofts (total : nat) (ls : list str) : result Error unit :=
  match ls with
  | [] => Ok tt
  | loft :: ls => total ← check_loft total loft; check_lofts total ls
  end.

Definition validate_loft_list (ls : list str) : result Error unit :=
  _ ← guard (MAX_AGENT_RECORD_LOFTS <? length ls)%nat TooLarge;
  check_lofts 0 ls.

Definition with_policy (identity : Identity) (successor : SuccessorCommitment) (seq : Z) (lofts : list str)
  (pow_min : Z) (requirement : option AttributionRequirement) : AgentRecord :=
  let payload := record_payload_v2 (verifying_key identity) (commitment successor) seq lofts pow_min requirement in
  {| rec_version := AGENT_RECORD_VERSION; rec_pubkey := verifying_key identity;
     successor_hash := commitment successor; rec_seq := seq; lofts := lofts; rec_pow_min := pow_min;
     rec_requirement := requirement; rec_signature := sign identity payload |}.

Definition with_pow (identity : Identity) (successor : SuccessorCommitment) (seq : Z) (lofts : list str)
  (pow_min : Z) : AgentRecord := with_policy identity successor seq lofts pow_min None.
Definition record_new (identity : Identity) (successor : SuccessorCommitment) (seq : Z) (lofts : list str)
  : AgentRecord := with_policy identity successor seq lofts 0 None.

Definition record_verify (r : AgentRecord) (address : Address) : result Error VerifyingKey :=
  pubkey ← verifying_key_from_bytes (rec_pubkey r);
  _ ← guard (negb (address_matches address pubkey)) (MalformedAddress "record is for a different address");
  _ ← validate_loft_list (lofts r);
  payload ← record_payload r;
  _ ← verify pubkey payload (rec_signature r);
  Ok pubkey.

Definition successor_commitment (r : AgentRecord) : SuccessorCommitment := Commitment (successor_hash r).

Definition migrate_v1 (r : AgentRecord) (identity : Identity) (next_seq : Z)
  (requirement : option AttributionRequirement) : result Error AgentRecord :=
  _ ← guard (negb (rec_version r ≟ LEGACY_AGENT_RECORD_VERSION)) (MalformedEnvelope "agent record is not v1");
  owner ← verifying_key_from_bytes (rec_pubkey r);
  _ ← record_verify r (from_pubkey owner);
  _ ← guard (negb (verifying_key identity ≟ rec_pubkey r)) InvalidKey;
  _ ← guard (next_seq <=? rec_seq r) StaleSequence;
  _ ← match requirement with Some requirement => requirement_validate requirement | None => Ok tt end;
  Ok (with_policy identity (successor_commitment r) next_seq (lofts r) (rec_pow_min r) requirement).

Definition rotation_new (outgoing incoming : Identity) (next_successor : SuccessorCommitment)
  (seq activated_at : Z) : result Error RotationRecord :=
  grace_until ← ok_or (checked_add 64 activated_at ROTATION_GRACE_SECS) (MalformedEnvelope "invalid rotation timing");
  _ ← guard (activated_at =? 0) (MalformedEnvelope "invalid rotation timing");
  let body := rotation_body ROTATION_RECORD_VERSION (verifying_key outgoing) (verifying_key incoming)
                (commitment next_successor) seq activated_at grace_until in
  Ok {| rot_version := ROTATION_RECORD_VERSION; from_key := verifying_key outgoing;
        to_key := verifying_key incoming; next_successor_hash := commitment next_successor;
        rot_seq := seq; activated_at := activated_at; grace_until := grace_until;
        outgoing_signature := sign outgoing (rotation_signing_payload SIG_DOMAIN_ROTATION_OUTGOING body);
        incoming_signature := sign incoming (rotation_signing_payload SIG_DOMAIN_ROTATION_INCOMING body) |}.

Definition rotation_verify (r : RotationRecord) (pinned : SuccessorCommitment) (last_seq observed_at : Z)
  : result Error VerifiedRotation :=
  _ ← guard (negb (rot_version r ≟ ROTATION_RECORD_VERSION) || (activated_at r =? 0)
             || negb (checked_sub (grace_until r) (activated_at r) ≟ Some ROTATION_GRACE_SECS))
        (MalformedEnvelope "invalid rotation record");
  from ← verifying_key_from_bytes (from_key r);
  to ← verifying_key_from_bytes (to_key r);
  let body := body_of r in
  _ ← verify from (rotation_signing_payload SIG_DOMAIN_ROTATION_OUTGOING body) (outgoing_signature r);
  _ ← verify to (rotation_signing_payload SIG_DOMAIN_ROTATION_INCOMING body) (incoming_signature r);
  _ ← guard (negb (accepts pinned to)) SuccessorMismatch;
  _ ← guard (negb (checked_add 64 last_seq 1 ≟ Some (rot_seq r))) StaleSequence;
  _ ← guard (saturating_add 64 observed_at ROTATION_CLOCK_SKEW_SECS <? activated_at r) StaleTimestamp;
  Ok {| incoming := to; next_successor := Commitment (next_successor_hash r);
        vr_activated_at := activated_at r; vr_grace_until := grace_until r |}.

Definition verify_source_address (r : RotationRecord) (address : Address) : result Error unit :=
  from ← verifying_key_from_bytes (from_key r);
  guard (negb (address_matches address from)) (MalformedAddress "rotation is for a different address").

Definition target_address (r : RotationRecord) : result Error Address :=
  to ← verifying_key_from_bytes (to_key r);
  Ok (from_pubkey to).
End Records.

(** * Lemmas *)

Section RecordLemmas.
Context {C : Crypto} {UP : UrlParser}.

(** ** The routing list *)

(** A loft entry the check accepts. *)
Record good_loft (loft : str) : Prop := {
  gl_len : (0 < length loft <= MAX_AGENT_RECORD_LOFT_URL_BYTES)%nat;
  gl_url : exists u host, url_parse loft = Some u /\ username u = [] /\ password u = None /\
    query u = None /\ fragment u = None /\ (path u = [] \/ path u = lit "/") /\
    host_str u = Some host /\ is_localhost_name host = false /\ port u <> Some 0 /\
    (scheme u = lit "https" \/ scheme u = lit "http" /\ is_numeric_loopback_host host = true);
}.

Lemma check_loft_inv total loft n :
  check_loft total loft = Ok n -> good_loft loft /\ n = (total + length loft)%nat.
Proof.
  unfold check_loft, checked_add, MAX_AGENT_RECORD_LOFT_BYTES, MAX_AGENT_RECORD_LOFTS in *.
  intros H. inv_ok. case_match; simplify_eq. rename a2 into u, a4 into host.
  repeat match goal with H : (_ || _)%bool = false |- _ => apply orb_false_iff in H as [? H] end.
  b2p. split; [split|lia].
  + split; [|done]. destruct loft; [done|]. cbn [length]. lia.
  + exists u, host. split_and!; try done; [by destruct (password u)|by destruct (query u)|by destruct (fragment u)|..].
    * match goal with H : (_ || _)%bool = true |- _ => apply orb_true_iff in H as [H|H] end; b2p; auto.
    * match goal with H : (_ && _)%bool = false |- _ => apply andb_false_iff in H as [H|H] end; b2p; auto.
Qed.

Lemma check_loft_ok total loft :
  good_loft loft -> (total + length loft <= MAX_AGENT_RECORD_LOFT_BYTES)%nat ->
  check_loft total loft = Ok (total + length loft)%nat.
Proof.
  unfold check_loft, checked_add, MAX_AGENT_RECORD_LOFT_BYTES, MAX_AGENT_RECORD_LOFTS in *.
  intros [[Hl0 Hl1] (u & host & Hp & Hu & Hpw & Hq & Hf & Hpath & Hh & Hlh & Hport & Hs)] Hb.
  rewrite (bool_decide_false (loft = [])) by (intros ->; simpl in Hl0; lia).
  replace (MAX_AGENT_RECORD_LOFT_URL_BYTES <? length loft)%nat with false by (symmetry; by apply Nat.ltb_ge).
  rewrite (proj2 (Z.ltb_lt _ _)) by (unfold MAX_AGENT_RECORD_LOFT_URL_BYTES in *; lia).
  rewrite Hp. cbn [guard orb ok_or mbind result_bind].
  rewrite (proj2 (Z.ltb_ge _ _)) by lia. cbn [guard mbind result_bind].
  rewrite Hu, Hpw, Hq, Hf, Hh, (bool_decide_true (@nil byte = [])), (bool_decide_false (port u = Some 0)) by done.
  replace ((path u ≟ []) || (path u ≟ lit "/"))%bool with true by (destruct Hpath as [->| ->]; done).
  cbn [guard is_some negb orb ok_or mbind result_bind]. rewrite Hlh.
  replace (Z.to_nat (Z.of_nat total + Z.of_nat (length loft))) with (total + length loft)%nat by lia.
  destruct Hs as [->|[-> ->]]; done.
Qed.

(** The running total never decides: eight entries of 2048 bytes are within it. *)
Lemma check_lofts_Ok ls : forall total,
  (total + 2048 * length ls <= MAX_AGENT_RECORD_LOFT_BYTES)%nat ->
  check_lofts total ls = Ok tt <-> Forall good_loft ls.
Proof.
  induction ls as [|loft ls IH]; intros total Hb; cbn [check_lofts length] in *; [done|]. split.
  - intros H. apply bind_Ok in H as (n & Hn & H). apply check_loft_inv in Hn as [Hg ->].
    constructor; [done|]. apply (IH _) in H; [done|]. destruct Hg as [[_ Hl] _].
    unfold MAX_AGENT_RECORD_LOFT_URL_BYTES in Hl. lia.
  - intros H. apply Forall_cons in H as [Hg H]. assert (Hg' := Hg). destruct Hg' as [[_ Hl] _].
    unfold MAX_AGENT_RECORD_LOFT_URL_BYTES in Hl.
    rewrite check_loft_ok by (done || lia). cbn. apply IH; [lia|done].
Qed.

Lemma validate_loft_list_Ok ls :
  validate_loft_list ls = Ok tt <-> (length ls <= MAX_AGENT_RECORD_LOFTS)%nat /\ Forall good_loft ls.
Proof.
  unfold validate_loft_list. split.
  - intros H. inv_ok. b2p. split; [done|]. apply (check_lofts_Ok ls 0); [|done].
    unfold MAX_AGENT_RECORD_LOFT_BYTES, MAX_AGENT_RECORD_LOFT_URL_BYTES. lia.
  - intros [Hl H]. rewrite (proj2 (Nat.ltb_ge _ _) Hl). cbn [guard mbind result_bind].
    apply check_lofts_Ok; [|done]. unfold MAX_AGENT_RECORD_LOFT_BYTES, MAX_AGENT_RECORD_LOFT_URL_BYTES. lia.
Qed.

(** ** Payloads *)

Definition len_ok {A} (l : list A) : Prop := Z.of_nat (length l) < 2 ^ 32.

Lemma loft_fields_inj enc (ls ls' : list str) x y :
  (enc = le_bytes \/ enc = be_bytes) -> length ls = length ls' -> Forall len_ok ls -> Forall len_ok ls' ->
  loft_fields enc ls ++ x = loft_fields enc ls' ++ y -> ls = ls' /\ x = y.
Proof.
  intros Henc. revert ls'; induction ls as [|l ls IH]; intros [|l' ls'] Hl Hf Hf' E; simplify_eq/=; [done|].
  apply Forall_cons in Hf as [Hlen Hf], Hf' as [Hlen' Hf']. unfold loft_fields in E. cbn [map concat] in E.
  rewrite <-!(assoc_L (++)) in E. pose proof (len_u32_range l) as Hr. pose proof (len_u32_range l') as Hr'.
  assert (len_u32 l = len_u32 l' /\ l ++ loft_fields enc ls ++ x = l' ++ loft_fields enc ls' ++ y) as [E1 E2].
  { destruct Henc as [-> | ->]; payload_inj E; done. }
  apply len_u32_inj in E1; [|done..]. apply app_inj_len in E2 as [-> E2]; [|done].
  by destruct (IH ls' Hl Hf Hf' E2) as [-> ->].
Qed.

(** The field widths, and the bounds on the routing list. *)
Definition record_wf (r : AgentRecord) : Prop :=
  in_uint 64 (rec_seq r) /\ in_uint 32 (rec_pow_min r) /\ len_ok (lofts r) /\ Forall len_ok (lofts r).

Definition record_fields (r : AgentRecord) :=
  (rec_version r, rec_pubkey r, successor_hash r, rec_seq r, lofts r, (rec_pow_min r, rec_requirement r)).

Lemma record_payload_Ok r b :
  record_payload r = Ok b ->
  (rec_version r = x01 /\ rec_requirement r = None /\
   b = record_payload_v1 (rec_pubkey r) (successor_hash r) (rec_seq r) (lofts r) (rec_pow_min r)) \/
  (rec_version r = x02 /\ from_option (fun q => requirement_validate q = Ok tt) True (rec_requirement r) /\
   b = record_payload_v2 (rec_pubkey r) (successor_hash r) (rec_seq r) (lofts r) (rec_pow_min r) (rec_requirement r)).
Proof.
  unfold record_payload. intros H. destruct (_ && _) eqn:E1 in H; [left|].
  { inv_ok. b2p. by destruct (rec_requirement r). }
  destruct (_ ≟ AGENT_RECORD_VERSION) eqn:E2 in H; [right|by repeat case_match].
  inv_ok. b2p. split_and!; [done| |done]. destruct (rec_requirement r); [|done]. by destruct a.
Qed.

Lemma record_payload_inj r r' b :
  record_wf r -> record_wf r' -> record_payload r = Ok b -> record_payload r' = Ok b ->
  record_fields r = record_fields r'.
Proof.
  intros (Hs & Hw & Hn & Hl) (Hs' & Hw' & Hn' & Hl') H H'.
  pose proof (len_u32_range (lofts r)) as Hr. pose proof (len_u32_range (lofts r')) as Hr'.
  pose proof (len_u32_inj (lofts r) (lofts r') Hn Hn') as Hlen.
  apply record_payload_Ok in H as [(Hv & Hq & ->)|(Hv & Hq & ->)];
    apply record_payload_Ok in H' as [(Hv' & Hq' & P)|(Hv' & Hq' & P)];
    try (exfalso; by apply domain_sep in P).
  all: unfold record_payload_v1, record_payload_v2 in P; payload_inj P.
  all: apply loft_fields_inj in P as [E' P]; [|by auto..].
  - payload_inj P. unfold record_fields. congruence.
  - payload_inj P. rewrite <-(app_nil_r (requirement_field _)) in P.
    rewrite <-(app_nil_r (requirement_field (rec_requirement r'))) in P.
    apply requirement_field_inj in P as [E'' _]. unfold record_fields. congruence.
Qed.

Lemma record_verify_Ok r a key :
  record_verify r a = Ok key <->
  key = rec_pubkey r /\ verifying_key_from_bytes (rec_pubkey r) = Ok key /\ a = from_pubkey key /\
  validate_loft_list (lofts r) = Ok tt /\
  exists b, record_payload r = Ok b /\ verify_strict key b (rec_signature r) = true.
Proof.
  unfold record_verify. split.
  - intros H. inv_ok. subst key. apply verify_Ok in Ha3. unfold address_matches in *. b2p. destruct a2.
    pose proof (proj1 (verifying_key_from_bytes_Ok _ _) Ha) as [-> _]. split_and!; [done..|by eauto].
  - intros (-> & Hk & -> & Hl & b & Hb & Hv). rewrite Hk. cbn [mbind result_bind].
    unfold address_matches. rewrite bool_decide_true by done. cbn [guard negb mbind result_bind]. rewrite Hl, Hb.
    apply (verify_Ok _ _ _ tt) in Hv. cbn. by rewrite Hv.
Qed.
(** ** Rotations *)

Definition rotation_wf (r : RotationRecord) : Prop :=
  in_uint 64 (rot_seq r) /\ in_uint 64 (activated_at r) /\ in_uint 64 (grace_until r).

Definition rotation_fields (r : RotationRecord) :=
  (rot_version r, from_key r, to_key r, next_successor_hash r, rot_seq r, (activated_at r, grace_until r)).

Lemma body_of_inj r r' :
  rotation_wf r -> rotation_wf r' -> body_of r = body_of r' -> rotation_fields r = rotation_fields r'.
Proof.
  intros (Hs & Ha & Hg) (Hs' & Ha' & Hg') P. unfold body_of, rotation_body in P. payload_inj P.
  unfold rotation_fields. congruence.
Qed.

Lemma rotation_verify_Ok r pinned last now v :
  rotation_verify r pinned last now = Ok v <->
  rot_version r = ROTATION_RECORD_VERSION /\ activated_at r <> 0 /\
  grace_until r = activated_at r + ROTATION_GRACE_SECS /\
  verifying_key_from_bytes (from_key r) = Ok (from_key r) /\
  verifying_key_from_bytes (to_key r) = Ok (to_key r) /\
  verify_strict (from_key r) (rotation_signing_payload SIG_DOMAIN_ROTATION_OUTGOING (body_of r)) (outgoing_signature r) = true /\
  verify_strict (to_key r) (rotation_signing_payload SIG_DOMAIN_ROTATION_INCOMING (body_of r)) (incoming_signature r) = true /\
  accepts pinned (to_key r) = true /\ rot_seq r = last + 1 /\ last + 1 < 2 ^ 64 /\
  activated_at r <= saturating_add 64 now ROTATION_CLOCK_SKEW_SECS /\
  v = {| incoming := to_key r; next_successor := Commitment (next_successor_hash r);
         vr_activated_at := activated_at r; vr_grace_until := grace_until r |}.
Proof.
  unfold rotation_verify, checked_add, checked_sub. split.
  - intros H. inv_ok.
    pose proof (proj1 (verifying_key_from_bytes_Ok _ _) Ha0) as [-> _].
    pose proof (proj1 (verifying_key_from_bytes_Ok _ _) Ha1) as [-> _].
    apply verify_Ok in Ha2, Ha3. b2p. repeat case_match; simplify_eq; b2p.
    split_and!; try done; lia.
  - intros (Hv & H0 & Hg & Hf & Ht & Ho & Hi & Hp & Hs & Hl & Hn & ->).
    rewrite Hf, Ht. apply (verify_Ok _ _ _ tt) in Ho, Hi.
    rewrite (bool_decide_true (rot_version r = _)), (proj2 (Z.eqb_neq _ _) H0) by done.
    rewrite (proj2 (Z.leb_le (activated_at r) (grace_until r))) by (unfold ROTATION_GRACE_SECS in *; lia).
    rewrite (bool_decide_true (Some (grace_until r - _) = _)) by (f_equal; lia). cbn [guard negb orb mbind result_bind]. cbv zeta. rewrite Ho. cbn [mbind result_bind].
    rewrite Hi. cbn [mbind result_bind]. rewrite Hp, (proj2 (Z.ltb_lt _ _) Hl), <-Hs, bool_decide_true by done.
    cbn [guard negb mbind result_bind]. by rewrite (proj2 (Z.ltb_ge _ _) Hn).
Qed.

(** * Properties *)

(** A record that verifies for an address is that address's own: its key hashes to the
    address, its routing list is short and holds only credential-free HTTPS or numeric-loopback
    origins, and its signature is over a payload that fixes the version, key, successor, sequence,
    routing, work floor and attribution scope. *)
Theorem record_verify_binds (r : AgentRecord) (a : Address) (key : VerifyingKey) :
  in_uint 64 (rec_seq r) -> in_uint 32 (rec_pow_min r) -> record_verify r a = Ok key ->
  key = rec_pubkey r /\ a = from_pubkey key /\
  (length (lofts r) <= MAX_AGENT_RECORD_LOFTS)%nat /\ Forall good_loft (lofts r) /\
  exists payload, record_payload r = Ok payload /\ verify_strict key payload (rec_signature r) = true /\
    forall r', record_wf r' -> record_payload r' = Ok payload -> record_fields r' = record_fields r.
Proof.
  intros Hs Hw H. apply record_verify_Ok in H as (-> & _ & -> & Hl & b & Hb & Hv).
  apply validate_loft_list_Ok in Hl as [Hn Hg].
  split_and!; [done..|]. exists b. split; [done|]. split; [done|]. intros r' Hw' Hb'.
  apply (record_payload_inj r' r b); [done| |done|done].
  unfold record_wf, len_ok, MAX_AGENT_RECORD_LOFTS in *. split_and!; [done|done|lia|].
  apply (Forall_impl _ _ _ Hg). intros l [[_ Hl] _]. unfold MAX_AGENT_RECORD_LOFT_URL_BYTES in Hl. lia.
Qed.

(** C38: an accepted rotation is signed by both keys over one body (under two domains that no
    string shares), the body fixes every field, the incoming key is the one the pinned commitment
    hashes, the sequence advances by exactly one, and the retired key drains for exactly 90 days from an
    activation at most five minutes ahead of the observer. *)
Theorem rotation_verify_sound (r : RotationRecord) (pinned : SuccessorCommitment) (last now : Z) (v : VerifiedRotation) :
  rotation_wf r -> rotation_verify r pinned last now = Ok v ->
  verify_strict (from_key r) (rotation_signing_payload SIG_DOMAIN_ROTATION_OUTGOING (body_of r)) (outgoing_signature r) = true /\
  verify_strict (incoming v) (rotation_signing_payload SIG_DOMAIN_ROTATION_INCOMING (body_of r)) (incoming_signature r) = true /\
  (forall b, rotation_signing_payload SIG_DOMAIN_ROTATION_OUTGOING b <>
             rotation_signing_payload SIG_DOMAIN_ROTATION_INCOMING (body_of r)) /\
  (forall r', rotation_wf r' -> body_of r' = body_of r -> rotation_fields r' = rotation_fields r) /\
  incoming v = to_key r /\ sha256 (vec_to_list (incoming v)) = commitment pinned /\
  rot_seq r = last + 1 /\ activated_at r <= now + 300 /\
  (forall t, retired_key_is_active r t = true <-> activated_at r <= t < activated_at r + 7776000).
Proof.
  intros Hw H. apply rotation_verify_Ok in H as (_ & _ & Hg & _ & _ & Ho & Hi & Hp & Hs & _ & Hn & ->).
  cbn [incoming]. split_and!; try done.
  - intros r' Hw' E. by apply body_of_inj.
  - unfold accepts in Hp. by b2p.
  - unfold saturating_add, ROTATION_CLOCK_SKEW_SECS in Hn. lia.
  - intros t. unfold retired_key_is_active. rewrite andb_true_iff, Z.leb_le, Z.ltb_lt, Hg.
    unfold ROTATION_GRACE_SECS. lia.
Qed.

(** A compromised key cannot choose its successor: a rotation accepted against the
    commitment to a key goes to that key, unless the two keys are a SHA-256 collision. *)
Theorem rotation_target_committed (r : RotationRecord) (k : VerifyingKey) (last now : Z) (v : VerifiedRotation) :
  rotation_verify r (for_key k) last now = Ok v ->
  incoming v = k \/ collision_in [vec_to_list (incoming v); vec_to_list k].
Proof.
  intros H. apply rotation_verify_Ok in H as (_ & _ & _ & _ & _ & _ & _ & Hp & _ & _ & _ & ->).
  cbn [incoming]. by apply accepts_inj.
Qed.

Context {CL : CryptoLaws}.

(** The rotation its two keys sign is accepted by an observer who pinned the incoming
    key and saw the previous sequence number, once its clock is within the skew; before that it is
    refused as early. *)
Theorem rotation_new_verifies (out inc : Identity) (next : SuccessorCommitment) (last at_ now : Z) (r : RotationRecord) :
  0 <= at_ -> 0 <= last -> last + 1 < 2 ^ 64 -> rotation_new out inc next (last + 1) at_ = Ok r ->
  rotation_verify r (for_key (verifying_key inc)) last now =
    if at_ <=? saturating_add 64 now 300 then
      Ok {| incoming := verifying_key inc; next_successor := next;
            vr_activated_at := at_; vr_grace_until := at_ + 7776000 |}
    else Err StaleTimestamp.
Proof.
  intros Hat Hl Hl64 H. unfold rotation_new, checked_add in H. inv_ok. case_match; simplify_eq. b2p.
  destruct (_ <=? saturating_add 64 now 300) eqn:E; b2p.
  - apply rotation_verify_Ok. cbn. destruct next. split_and!; try done; try apply own_key_decodes;
      try (apply (verify_Ok _ _ _ tt), verify_sign); apply accepts_for_key.
  - unfold rotation_verify. cbn [rot_version activated_at grace_until from_key to_key outgoing_signature incoming_signature rot_seq].
    rewrite !own_key_decodes, (proj2 (Z.eqb_neq _ _) Ha0), (bool_decide_true (ROTATION_RECORD_VERSION = _)) by done.
    unfold checked_sub. rewrite (proj2 (Z.leb_le _ _)) by (unfold ROTATION_GRACE_SECS; lia).
    rewrite (bool_decide_true (Some (_ - at_) = _)) by (f_equal; lia). cbn [guard negb orb mbind result_bind].
    unfold body_of. cbn [rot_version activated_at grace_until from_key to_key rot_seq next_successor_hash].
    rewrite !verify_sign. cbn [mbind result_bind]. rewrite accepts_for_key. unfold checked_add.
    rewrite (proj2 (Z.ltb_lt (last + 1) _)), bool_decide_true by done.
    cbn [guard negb mbind result_bind]. unfold ROTATION_CLOCK_SKEW_SECS.
    change (5 * 60) with 300. by rewrite (proj2 (Z.ltb_lt _ _) E).
Qed.

(** The owner's own record is accepted at the owner's address, whatever it routes to within the
    bounds. *)
Theorem record_new_verifies (id : Identity) (s : SuccessorCommitment) (seq w : Z) (ls : list str)
  (q : option AttributionRequirement) :
  (length ls <= MAX_AGENT_RECORD_LOFTS)%nat -> Forall good_loft ls ->
  from_option (fun q => requirement_validate q = Ok tt) True q ->
  record_verify (with_policy id s seq ls w q) (from_pubkey (verifying_key id)) = Ok (verifying_key id).
Proof.
  intros Hn Hg Hq. apply record_verify_Ok. cbn. split_and!; [done|apply own_key_decodes|done| |].
  - by apply validate_loft_list_Ok.
  - eexists. split.
    + unfold record_payload. cbn. destruct q as [q|]; [cbn in Hq |- *; by rewrite Hq|done].
    + apply (verify_Ok _ _ _ tt), verify_sign.
Qed.

End RecordLemmas.

(** * Concrete records *)

Definition demo_next : Identity := from_seed (vreplicate 32 x09).
Definition demo_lofts : list str := [lit "https://loft.example"].
Definition demo_record : AgentRecord :=
  with_policy (C := toy_crypto) demo_id (for_key (H := toy_crypto) (verifying_key (H := toy_crypto) demo_next))
    1 demo_lofts 8 (Some demo_requirement).
Definition demo_rotation : RotationRecord :=
  let out := verifying_key (H := toy_crypto) demo_id in
  let inc := verifying_key (H := toy_crypto) demo_next in
  let body := rotation_body x02 out inc (zeroes 32) 2 1000 7777000 in
  {| rot_version := x02; from_key := out; to_key := inc; next_successor_hash := zeroes 32;
     rot_seq := 2; activated_at := 1000; grace_until := 7777000;
     outgoing_signature := sign (H := toy_crypto) demo_id (rotation_signing_payload SIG_DOMAIN_ROTATION_OUTGOING body);
     incoming_signature := sign (H := toy_crypto) demo_next (rotation_signing_payload SIG_DOMAIN_ROTATION_INCOMING body) |}.

Lemma demo_rotation_new :
  rotation_new (C := toy_crypto) demo_id demo_next (Commitment (zeroes 32)) 2 1000 = Ok demo_rotation.
Proof. reflexivity. Qed.

Lemma demo_rotation_wf : rotation_wf demo_rotation.
Proof. unfold rotation_wf, in_uint. cbn [rot_seq activated_at grace_until demo_rotation]. lia. Qed.

Definition demo_verified : VerifiedRotation :=
  {| incoming := to_key demo_rotation; next_successor := Commitment (zeroes 32);
     vr_activated_at := 1000; vr_grace_until := 7777000 |}.

Lemma demo_rotation_verifies :
  rotation_verify (C := toy_crypto) demo_rotation
    (for_key (H := toy_crypto) (verifying_key (H := toy_crypto) demo_next)) 1 900 = Ok demo_verified.
Proof. vm_compute. reflexivity. Qed.

Lemma demo_lofts_good : Forall (good_loft (UP := toy_url_parser)) demo_lofts.
Proof.
  assert (validate_loft_list (UP := toy_url_parser) demo_lofts = Ok tt) as H by (vm_compute; reflexivity).
  apply (validate_loft_list_Ok (UP := toy_url_parser)) in H. apply H.
Qed.

Lemma record_verify_binds_witness :
  let a := from_pubkey (C := toy_crypto) (rec_pubkey demo_record) in
  (in_uint 64 (rec_seq demo_record) /\ in_uint 32 (rec_pow_min demo_record) /\
   record_verify (C := toy_crypto) (UP := toy_url_parser) demo_record a = Ok (rec_pubkey demo_record)) /\
  Forall (good_loft (UP := toy_url_parser)) (lofts demo_record).
Proof.
  assert (in_uint 64 (rec_seq demo_record)) as Hs by (unfold in_uint; simpl; lia).
  assert (in_uint 32 (rec_pow_min demo_record)) as Hw by (unfold in_uint; simpl; lia).
  assert (record_verify (C := toy_crypto) (UP := toy_url_parser) demo_record
    (from_pubkey (C := toy_crypto) (rec_pubkey demo_record)) = Ok (rec_pubkey demo_record)) as H
    by (vm_compute; reflexivity).
  split; [split; [exact Hs|split; [exact Hw|exact H]]|].
  destruct (record_verify_binds (C := toy_crypto) (UP := toy_url_parser) _ _ _ Hs Hw H) as (_ & _ & _ & Hg & _).
  exact Hg.
Defined.

Lemma record_new_verifies_witness :
  record_verify (C := toy_crypto) (UP := toy_url_parser) demo_record
    (from_pubkey (C := toy_crypto) (verifying_key (H := toy_crypto) demo_id)) =
  Ok (verifying_key (H := toy_crypto) demo_id).
Proof.
  apply (record_new_verifies (C := toy_crypto) (UP := toy_url_parser) (CL := toy_laws));
    [vm_compute; lia|exact demo_lofts_good|vm_compute; reflexivity].
Defined.

Lemma rotation_verify_sound_witness :
  rotation_wf demo_rotation /\
  rotation_verify (C := toy_crypto) demo_rotation
    (for_key (H := toy_crypto) (verifying_key (H := toy_crypto) demo_next)) 1 900 = Ok demo_verified /\
  forall t, retired_key_is_active demo_rotation t = true <-> 1000 <= t < 1000 + 7776000.
Proof.
  split; [exact demo_rotation_wf|]. split; [exact demo_rotation_verifies|].
  exact (proj2 (proj2 (proj2 (proj2 (proj2 (proj2 (proj2 (proj2
    (rotation_verify_sound (C := toy_crypto) _ _ _ _ _ demo_rotation_wf demo_rotation_verifies))))))))).
Defined.

Lemma rotation_target_committed_witness :
  rotation_verify (C := toy_crypto) demo_rotation
    (for_key (H := toy_crypto) (verifying_key (H := toy_crypto) demo_next)) 1 900 = Ok demo_verified /\
  (incoming demo_verified = verifying_key (H := toy_crypto) demo_next \/
   collision_in (H := toy_crypto)
     [vec_to_list (incoming demo_verified); vec_to_list (verifying_key (H := toy_crypto) demo_next)]).
Proof.
  split; [exact demo_rotation_verifies|].
  exact (rotation_target_committed (C := toy_crypto) _ _ _ _ _ demo_rotation_verifies).
Defined.

Lemma rotation_new_verifies_witness :
  rotation_new (C := toy_crypto) demo_id demo_next (Commitment (zeroes 32)) (1 + 1) 1000 = Ok demo_rotation /\
  rotation_verify (C := toy_crypto) demo_rotation
    (for_key (H := toy_crypto) (verifying_key (H := toy_crypto) demo_next)) 1 100 = Err StaleTimestamp.
Proof.
  split; [exact demo_rotation_new|].
  exact (rotation_new_verifies (C := toy_crypto) (CL := toy_laws) demo_id demo_next (Commitment (zeroes 32)) 1 1000 100
    demo_rotation ltac:(lia) ltac:(lia) ltac:(lia) demo_rotation_new).
Defined.
