(* ===== verification/EnvelopeBytes.v ===== *)
(** The byte formats of the envelope, [pigeonpost-core/src/envelope.rs]: the compact hex
    of ciphertexts, padding, the signed payloads and identifiers of a wrap, and the
    at-rest storage record. *)
From S2P Require Import Prelude Text B32 Crypto Token Pow Compliance.

Definition ENVELOPE_VERSION : byte := x03.
Definition LEGACY_ENVELOPE_VERSION : byte := x02.
Definition SIG_DOMAIN_SEAL : bytes := lit "pigeonpost/envelope/v1/seal-sig".
Definition SIG_DOMAIN_WRAP_V2 : bytes := lit "pigeonpost/envelope/v1/wrap-sig".
Definition SIG_DOMAIN_WRAP_V3 : bytes := lit "pigeonpost/envelope/v3/wrap-sig".
Definition ATTR_BIND_DOMAIN : bytes := lit "pigeonpost/attribution-bind/v1".
Definition PAD_BLOCK : nat := 256.
Definition MAX_PLAINTEXT : Z := 64 * 1024.
Definition MAX_ENVELOPE_CIPHERTEXT : Z := MAX_PLAINTEXT * 16.

(** * Compact bytes *)

Definition HEX : bytes := lit "0123456789abcdef".
Definition hex_digit (index : Z) : byte := nth (Z.to_nat index) HEX x00.

Definition too_long {A} (limit : Z) (l : list A) : bool := limit <? Z.of_nat (length l).

(** [compact_bytes::serialize_slice]; [None] is the serializer's error. *)
Definition serialize_slice (bs : bytes) : option str :=
  if too_long MAX_ENVELOPE_CIPHERTEXT bs then None
  else Some (flat_map (fun b => [hex_digit (Z.shiftr (u8 b) 4); hex_digit (Z.land (u8 b) 0x0f)]) bs).

Definition nibble (b : byte) : option Z :=
  if (48 <=? u8 b) && (u8 b <=? 57) then Some (u8 b - 48)
  else if (97 <=? u8 b) && (u8 b <=? 102) then Some (u8 b - 97 + 10)
  else None.

(** The loop over [chunks_exact(2)]. *)
Fixpoint decode_pairs (s : str) : option bytes :=
  match s with
  | a :: b :: rest =>
      high ← nibble a;
      low ← nibble b;
      decoded ← decode_pairs rest;
      Some (to_u8 (Z.lor (Z.shiftl high 4) low) :: decoded)
  | _ => Some []
  end.

(** [BytesVisitor::visit_str] *)
Definition visit_str (value : str) : option bytes :=
  if too_long (MAX_ENVELOPE_CIPHERTEXT * 2) value || negb (Nat.even (length value)) then None
  else decode_pairs value.

(** [BytesVisitor::visit_seq] over the elements of a JSON array (each one already a [u8]);
    [hinted] is the sequence's size hint. *)
Fixpoint seq_loop (room : Z) (elements : bytes) : option bytes :=
  match elements with
  | [] => Some []
  | b :: rest => if room =? 0 then None else decoded ← seq_loop (room - 1) rest; Some (b :: decoded)
  end.
Definition visit_seq (hinted : option Z) (elements : bytes) : option bytes :=
  if MAX_ENVELOPE_CIPHERTEXT <? default 0 hinted then None else seq_loop MAX_ENVELOPE_CIPHERTEXT elements.

(** [FixedBytesVisitor::<N>::visit_str] *)
Definition fixed_visit_str (n : nat) (value : str) : option (arr n) :=
  if negb (length value =? n * 2)%nat then None
  else bs ← decode_pairs value; arr_of_list n bs.

(** [FixedBytesVisitor::<N>::visit_seq] *)
Definition fixed_visit_seq (n : nat) (hinted : option Z) (elements : bytes) : option (arr n) :=
  if match hinted with Some h => Z.of_nat n <? h | None => false end then None
  else arr_of_list n elements.

(** * Padding *)

Definition div_ceil (a b : nat) : nat := if (a mod b =? 0)%nat then (a / b)%nat else S (a / b).

Definition pad (plaintext : bytes) : bytes :=
  let total := (div_ceil (length plaintext + 4) PAD_BLOCK * PAD_BLOCK)%nat in
  let out := le_bytes 4 (wrap 32 (Z.of_nat (length plaintext))) ++ plaintext in
  (* [out.resize(total, 0)]; [total] is never below the length of [out] *)
  out ++ repeat x00 (total - length out).

Definition unpad (padded : bytes) : bytes :=
  if (length padded <? 4)%nat then []
  else
    let len := from_le_bytes (take 4 padded) in
    let e := saturating_add 64 4 len in
    if Z.of_nat (length padded) <? e then []
    else take (Z.to_nat len) (drop 4 padded).

(** * The wrap and its attribution block *)

Record AttributionBlockV2 := {
  v2_epoch_id : Z;
  v2_e_pk : arr 32;
  v2_nonce : arr 24;
  v2_ciphertext : bytes;
}.

Record AttributionBlockV3 := {
  block_version : byte;
  block_key_id : ComplianceKeyId;
  compliance_key_digest : arr 32;
  e_pk : arr 32;
  block_nonce : arr 24;
  block_ciphertext : arr 120;
}.

Inductive AttributionBlock :=
| V2 (block : AttributionBlockV2)
| V3 (block : AttributionBlockV3).

Record Wrap := {
  w_version : byte;
  ephemeral_pubkey : arr 32;
  recipient : arr 32;
  w_nonce : arr 24;
  ciphertext : bytes;
  created_at : Z;
  w_signature : arr 64;
  pow_nonce : Z;
  attribution : option AttributionBlock;
}.

Definition as_v3 (b : AttributionBlock) : option AttributionBlockV3 :=
  match b with V3 block => Some block | V2 _ => None end.

Definition ciphertext_len (b : AttributionBlock) : nat :=
  match b with V2 block => length (v2_ciphertext block) | V3 block => length (vec_to_list (block_ciphertext block)) end.

(** * Signed payloads *)

Definition len_u64 {A} (l : list A) : Z := wrap 64 (Z.of_nat (length l)).

Definition signing_payload (domain : bytes) (nonce : arr 24) (ct : bytes) : bytes :=
  domain ++ vec_to_list nonce ++ ct.

Definition seal_signing_payload (nonce : arr 24) (ct : bytes) (sk : option (arr 32)) : bytes :=
  signing_payload SIG_DOMAIN_SEAL nonce ct ++
  match sk with Some sk => x01 :: vec_to_list sk | None => [x00] end.

(** The fields of a v3 block, with its key identifier already encoded. *)
Definition block_v3_fields (b : AttributionBlockV3) (key_id : bytes) : bytes :=
  [x01; block_version b] ++ key_id ++ vec_to_list (compliance_key_digest b) ++ vec_to_list (e_pk b)
  ++ vec_to_list (block_nonce b) ++ vec_to_list (block_ciphertext b).

Definition wrap_signing_payload_v2 (version : byte) (recipient : arr 32) (created_at : Z) (nonce : arr 24)
  (ct : bytes) (attribution : option AttributionBlock) : bytes :=
  signing_payload SIG_DOMAIN_WRAP_V2 nonce ct ++ [version] ++ vec_to_list recipient ++ le_bytes 8 created_at
  ++ match attribution with
     | Some (V2 b) =>
         [x01] ++ le_bytes 4 (v2_epoch_id b) ++ vec_to_list (v2_e_pk b) ++ vec_to_list (v2_nonce b)
         ++ le_bytes 8 (len_u64 (v2_ciphertext b)) ++ v2_ciphertext b
     | Some (V3 b) =>
         block_v3_fields b (match key_id_encode (block_key_id b) with
                            | Ok encoded => encoded
                            | Err _ => repeat x00 COMPLIANCE_KEY_ID_LEN
                            end)
     | None => [x00]
     end.

Definition wrap_signing_payload_v3 (version : byte) (ephemeral_pubkey recipient : arr 32) (created_at : Z)
  (nonce : arr 24) (ct : bytes) (attribution : option AttributionBlock) : result Error bytes :=
  tail ← match attribution with
         | Some (V3 b) =>
             match key_id_encode (block_key_id b) with
             | Ok encoded => Ok (block_v3_fields b encoded)
             | Err _ => Err (MalformedEnvelope "attribution key id")
             end
         | Some (V2 _) => Err (MalformedEnvelope "v2 attribution on v3 envelope")
         | None => Ok [x00]
         end;
  Ok (SIG_DOMAIN_WRAP_V3 ++ [version] ++ vec_to_list ephemeral_pubkey ++ vec_to_list recipient
      ++ vec_to_list nonce ++ be_bytes 8 (len_u64 ct) ++ ct ++ be_bytes 8 created_at ++ tail).

(** * Identifiers, work and public validation *)

Section Wrap.
Context {C : Crypto}.

Definition wrap_id_v2 (w : Wrap) : arr 32 :=
  sha256 (lit "pigeonpost/wrap-id/v1" ++ [w_version w] ++ vec_to_list (ephemeral_pubkey w)
          ++ vec_to_list (recipient w) ++ vec_to_list (w_nonce w) ++ le_bytes 8 (len_u64 (ciphertext w))
          ++ ciphertext w ++ le_bytes 8 (created_at w) ++ vec_to_list (w_signature w)).

Definition wrap_id_v3_input (version : byte) (ephemeral_pubkey recipient : arr 32) (nonce : arr 24)
  (ct : bytes) (created_at : Z) : bytes :=
  lit "pigeonpost/wrap-id/v3" ++ [version] ++ vec_to_list ephemeral_pubkey ++ vec_to_list recipient
  ++ vec_to_list nonce ++ be_bytes 8 (len_u64 ct) ++ ct ++ be_bytes 8 created_at.

Definition wrap_id_v3 (version : byte) (ephemeral_pubkey recipient : arr 32) (nonce : arr 24)
  (ct : bytes) (created_at : Z) : arr 32 :=
  sha256 (wrap_id_v3_input version ephemeral_pubkey recipient nonce ct created_at).

Definition wrap_id (w : Wrap) : arr 32 :=
  if w_version w ≟ LEGACY_ENVELOPE_VERSION then wrap_id_v2 w
  else wrap_id_v3 (w_version w) (ephemeral_pubkey w) (recipient w) (w_nonce w) (ciphertext w) (created_at w).

Definition with_pow_nonce (w : Wrap) (nonce : Z) : Wrap :=
  {| w_version := w_version w; ephemeral_pubkey := ephemeral_pubkey w; recipient := recipient w;
     w_nonce := w_nonce w; ciphertext := ciphertext w; created_at := created_at w;
     w_signature := w_signature w; pow_nonce := nonce; attribution := attribution w |}.

Definition stamp (w : Wrap) (difficulty max_attempts : Z) : result Error Wrap :=
  if difficulty =? 0 then Ok (with_pow_nonce w 0)
  else nonce ← ok_or (mine (wrap_id w) difficulty max_attempts) InsufficientWork; Ok (with_pow_nonce w nonce).

Definition verify_work (w : Wrap) (difficulty : Z) : result Error unit :=
  pow_verify (wrap_id w) (pow_nonce w) difficulty.

Definition validate_public_attribution_v3 (b : AttributionBlock) : result Error unit :=
  match b with
  | V2 _ => Err (MalformedEnvelope "v2 attribution on v3 envelope")
  | V3 b =>
      _ ← guard (negb (block_version b ≟ ATTRIBUTION_BLOCK_VERSION)
                 || negb (purpose (block_key_id b) ≟ Attribution)
                 || negb (is_ok (key_id_validate (block_key_id b))))
            (MalformedEnvelope "attribution version or key id");
      _ ← guard (e_pk b ≟ zeroes 32) InvalidKey;
      guard (compliance_key_digest b ≟ zeroes 32) (MalformedEnvelope "empty compliance key digest")
  end.

Definition verify_public (w : Wrap) : result Error unit :=
  _ ← guard (negb (w_version w ≟ ENVELOPE_VERSION)) (MalformedEnvelope "v3 required for publish");
  _ ← verifying_key_from_bytes (recipient w);
  epk ← verifying_key_from_bytes (ephemeral_pubkey w);
  _ ← guard ((length (ciphertext w) <=? 16)%nat
             || negb ((length (ciphertext w) - 16) mod PAD_BLOCK =? 0)%nat)
        (MalformedEnvelope "outer ciphertext length");
  _ ← match attribution w with Some block => validate_public_attribution_v3 block | None => Ok tt end;
  payload ← wrap_signing_payload_v3 (w_version w) (ephemeral_pubkey w) (recipient w) (created_at w)
              (w_nonce w) (ciphertext w) (attribution w);
  verify epk payload (w_signature w).

Definition seal_bind (seal_nonce : arr 24) (seal_ct : bytes) : arr 32 :=
  sha256 (ATTR_BIND_DOMAIN ++ vec_to_list seal_nonce ++ le_bytes 8 (len_u64 seal_ct) ++ seal_ct).
End Wrap.

(** * Storage records *)

(** [serde_json] on an attribution block and on a whole legacy wrap. *)
Class StorageJson := {
  block_to_json : AttributionBlock -> option bytes;
  block_from_json : bytes -> option AttributionBlock;
  wrap_from_json : bytes -> option Wrap;
}.

(** A block reads back from the JSON it was written to. *)
Class StorageJsonLaws `{StorageJson} : Prop :=
  block_json_roundtrip b json : block_to_json b = Some json -> block_from_json json = Some b.

Definition WRAP_STORAGE_MAGIC_V1 : byte := xb1.
Definition MAX_STORAGE_ATTRIBUTION : Z := 16 * 1024.
Definition STORAGE_FLAG_ATTRIBUTION : Z := 0x01.

Definition truncated : Error := MalformedEnvelope "truncated stored wrap".

(** [StorageReader]: the reader's state is the rest of the record. *)
Definition reader_take (n : nat) (r : bytes) : result Error (arr n * bytes) :=
  match arr_of_list n (take n r) with
  | Some head => Ok (head, drop n r)
  | None => Err truncated
  end.

Definition take_len_prefixed (limit : Z) (r : bytes) : result Error (bytes * bytes) :=
  '(len_bytes, r) ← reader_take 4 r;
  let len := from_le_bytes (vec_to_list len_bytes) in
  _ ← guard (limit <? len) (MalformedEnvelope "stored wrap field too large");
  _ ← guard (Z.of_nat (length r) <? len) truncated;
  Ok (take (Z.to_nat len) r, drop (Z.to_nat len) r).

Section Storage.
Context {J : StorageJson}.

Definition to_storage_bytes (w : Wrap) : result Error bytes :=
  _ ← guard (too_long MAX_ENVELOPE_CIPHERTEXT (ciphertext w)) (MalformedEnvelope "ciphertext too large for storage");
  json ← match attribution w with
         | Some block =>
             json ← ok_or (block_to_json block) (MalformedEnvelope "attribution");
             _ ← guard (too_long MAX_STORAGE_ATTRIBUTION json) (MalformedEnvelope "attribution too large for storage");
             Ok (Some json)
         | None => Ok None
         end;
  Ok ([WRAP_STORAGE_MAGIC_V1; w_version w] ++ vec_to_list (ephemeral_pubkey w) ++ vec_to_list (recipient w)
      ++ vec_to_list (w_nonce w) ++ le_bytes 8 (created_at w) ++ le_bytes 8 (pow_nonce w)
      ++ vec_to_list (w_signature w)
      ++ match json with
         | Some json => [to_u8 STORAGE_FLAG_ATTRIBUTION] ++ le_bytes 4 (wrap 32 (Z.of_nat (length json))) ++ json
         | None => [x00]
         end
      ++ le_bytes 4 (wrap 32 (Z.of_nat (length (ciphertext w)))) ++ ciphertext w).

Definition decode_storage_v1 (bs : bytes) : result Error Wrap :=
  '(version, r) ← reader_take 1 bs;
  '(ephemeral_pubkey, r) ← reader_take 32 r;
  '(recipient, r) ← reader_take 32 r;
  '(nonce, r) ← reader_take 24 r;
  '(created_at, r) ← reader_take 8 r;
  '(pow_nonce, r) ← reader_take 8 r;
  '(signature, r) ← reader_take 64 r;
  '(flags, r) ← reader_take 1 r;
  let flags := u8 (Vector.hd flags) in
  _ ← guard (negb (Z.land flags (0xff - STORAGE_FLAG_ATTRIBUTION) =? 0)) (MalformedEnvelope "unknown stored wrap flags");
  '(attribution, r) ← (if negb (Z.land flags STORAGE_FLAG_ATTRIBUTION =? 0) then
                         '(json, r) ← take_len_prefixed MAX_STORAGE_ATTRIBUTION r;
                         block ← ok_or (block_from_json json) (MalformedEnvelope "stored attribution");
                         Ok (Some block, r)
                       else Ok (None, r));
  '(ciphertext, r) ← take_len_prefixed MAX_ENVELOPE_CIPHERTEXT r;
  _ ← guard (negb (r ≟ [])) (MalformedEnvelope "trailing bytes in stored wrap");
  Ok {| w_version := Vector.hd version; ephemeral_pubkey := ephemeral_pubkey; recipient := recipient;
        w_nonce := nonce; ciphertext := ciphertext; created_at := from_le_bytes (vec_to_list created_at);
        w_signature := signature; pow_nonce := from_le_bytes (vec_to_list pow_nonce);
        attribution := attribution |}.

Definition from_storage_bytes (bs : bytes) : result Error Wrap :=
  match bs with
  | [] => Err (MalformedEnvelope "empty stored wrap")
  | first :: rest =>
      if first ≟ WRAP_STORAGE_MAGIC_V1 then decode_storage_v1 rest
      else ok_or (wrap_from_json bs) (MalformedEnvelope "stored wrap")
  end.

Definition is_storage_format (bs : bytes) : bool := hd_error bs ≟ Some WRAP_STORAGE_MAGIC_V1.
End Storage.

(** * Compact bytes: lemmas *)

Definition hex_pairs (bs : bytes) : str :=
  flat_map (fun b => [hex_digit (Z.shiftr (u8 b) 4); hex_digit (Z.land (u8 b) 0x0f)]) bs.

Lemma nibble_hex_digit v : 0 <= v < 16 -> nibble (hex_digit v) = Some v.
Proof. revert v. apply nibble_cases. repeat constructor. Qed.

Lemma nibble_Some b v : nibble b = Some v -> 0 <= v < 16 /\ b = hex_digit v.
Proof.
  intros H. assert (match nibble b with Some v => (0 <=? v) && (v <? 16) && (b ≟ hex_digit v) | None => true end = true) as Hb
    by (revert b H; intros b _; revert b; apply byte_forall; vm_compute; reflexivity).
  rewrite H in Hb. b2p. lia || (split; [lia|done]).
Qed.

Lemma byte_nibbles b : to_u8 (Z.lor (Z.shiftl (Z.shiftr (u8 b) 4) 4) (Z.land (u8 b) 0x0f)) = b.
Proof.
  assert ((to_u8 (Z.lor (Z.shiftl (Z.shiftr (u8 b) 4) 4) (Z.land (u8 b) 0x0f)) ≟ b) = true) as H
    by (revert b; apply byte_forall; vm_compute; reflexivity). by b2p.
Qed.

Lemma nibbles_byte h l :
  0 <= h < 16 -> 0 <= l < 16 ->
  let b := to_u8 (Z.lor (Z.shiftl h 4) l) in Z.shiftr (u8 b) 4 = h /\ Z.land (u8 b) 0x0f = l.
Proof.
  intros Hh Hl. cbv zeta. rewrite lor_shiftl_add by (simpl; lia). change (2 ^ 4) with 16.
  rewrite u8_to_u8, Z.mod_small, Z.shiftr_div_pow2 by lia. change 15 with (Z.ones 4). rewrite Z.land_ones by lia.
  change (2 ^ 4) with 16. dlia.
Qed.

Lemma nibble_range b : 0 <= Z.shiftr (u8 b) 4 < 16 /\ 0 <= Z.land (u8 b) 0x0f < 16.
Proof.
  pose proof (u8_range b). change 15 with (Z.ones 4). rewrite Z.land_ones, Z.shiftr_div_pow2 by lia.
  change (2 ^ 4) with 16. dlia.
Qed.

Lemma decode_pairs_hex bs : decode_pairs (hex_pairs bs) = Some bs.
Proof.
  induction bs as [|b bs IH]; [done|]. destruct (nibble_range b) as [Hh Hl].
  change (hex_pairs (b :: bs)) with (hex_digit (Z.shiftr (u8 b) 4) :: hex_digit (Z.land (u8 b) 0x0f) :: hex_pairs bs).
  cbn [decode_pairs]. rewrite !nibble_hex_digit, IH by done. cbn. by rewrite byte_nibbles.
Qed.

Lemma decode_pairs_inv n : forall s bs,
  length s = (2 * n)%nat -> decode_pairs s = Some bs -> s = hex_pairs bs /\ length bs = n.
Proof.
  induction n as [|n IH]; intros s bs Hl H.
  { destruct s; [|done]. by simplify_eq/=. }
  destruct s as [|a [|b s]]; simpl in Hl; try lia. cbn [decode_pairs] in H.
  destruct (nibble a) as [h|] eqn:Ea; [|done]. destruct (nibble b) as [l|] eqn:Eb; [|done]. cbn in H.
  destruct (decode_pairs s) as [ds|] eqn:Es; [|done]. cbn in H. injection H as <-.
  apply nibble_Some in Ea as [Hh ->], Eb as [Hl' ->]. destruct (IH s ds) as [-> <-]; [lia|done|].
  split; [|done]. unfold hex_pairs. cbn [flat_map app]. destruct (nibbles_byte h l Hh Hl') as [-> ->]. done.
Qed.

Lemma length_hex_pairs bs : length (hex_pairs bs) = (2 * length bs)%nat.
Proof. induction bs as [|b bs IH]; [done|]. unfold hex_pairs in *. simpl in *. lia. Qed.

Lemma even_double n : Nat.even n = true -> exists k, n = (2 * k)%nat.
Proof. intros H. apply Nat.even_spec in H as [k ->]. by exists k. Qed.

Lemma seq_loop_spec bs : forall room,
  0 <= room -> seq_loop room bs = if room <? Z.of_nat (length bs) then None else Some bs.
Proof.
  induction bs as [|b bs IH]; intros room Hr; cbn [seq_loop length].
  { by rewrite (proj2 (Z.ltb_ge _ _)) by lia. }
  destruct (room =? 0) eqn:E; b2p.
  { by rewrite (proj2 (Z.ltb_lt _ _)) by lia. }
  rewrite IH by lia. destruct (_ <? _) eqn:E1, (_ <? Z.of_nat (S _)) eqn:E2; b2p; (done || lia).
Qed.

(** Ciphertexts have one text form: a string decodes to bytes exactly when it is their
    lower-case hex, within the size bound; the fixed-size fields are decoded by the same rule; and a
    legacy array is read back as it is, within the same bound. *)
Theorem compact_codec (s : str) (bs : bytes) :
  (visit_str s = Some bs <-> serialize_slice bs = Some s) /\
  (forall n (v : arr n), fixed_visit_str n s = Some v <-> s = hex_pairs (vec_to_list v)) /\
  (forall hinted, visit_seq hinted bs = if too_long MAX_ENVELOPE_CIPHERTEXT bs || (MAX_ENVELOPE_CIPHERTEXT <? default 0 hinted)
                                        then None else Some bs).
Proof.
  split_and!.
  - unfold visit_str, serialize_slice, too_long. fold (hex_pairs bs). split.
    + destruct (_ || _) eqn:E; [done|]. b2p. apply even_double in H0 as [k Hk].
      intros H'. destruct (decode_pairs_inv k s bs Hk H') as [-> <-].
      rewrite (proj2 (Z.ltb_ge _ _)) by lia. done.
    + destruct (_ <? _) eqn:E; [done|]. b2p. intros [= <-]. rewrite length_hex_pairs.
      rewrite (proj2 (Z.ltb_ge _ _)) by lia. rewrite Nat.even_mul. cbn. apply decode_pairs_hex.
  - intros n v. unfold fixed_visit_str. split.
    + destruct (_ =? _)%nat eqn:E; [|done]. b2p. cbn [negb].
      destruct (decode_pairs s) as [ds|] eqn:Es; [|done]. cbn. intros Hv. apply arr_of_list_Some in Hv as ->.
      destruct (decode_pairs_inv n s _ ltac:(lia) Es) as [-> _]. done.
    + intros ->. rewrite length_hex_pairs, length_vec_to_list, (Nat.mul_comm 2), Nat.eqb_refl. cbn [negb].
      rewrite decode_pairs_hex. cbn. by apply arr_of_list_Some.
  - intros hinted. unfold visit_seq, too_long. rewrite orb_comm. destruct (_ <? default 0 hinted); [done|].
    apply seq_loop_spec. done.
Qed.

(** * Padding: lemmas *)

Lemma div_ceil_256 a : (a <= div_ceil a 256 * 256 < a + 256)%nat.
Proof. unfold div_ceil. destruct (_ =? _)%nat eqn:E; b2p; dlia. Qed.

Lemma length_pad p : length (pad p) = (div_ceil (length p + 4) PAD_BLOCK * PAD_BLOCK)%nat.
Proof.
  unfold pad, PAD_BLOCK. cbv zeta. rewrite !length_app, repeat_length, length_le_bytes.
  pose proof (div_ceil_256 (length p + 4)). lia.
Qed.

Lemma unpad_pad p : Z.of_nat (length p) < 2 ^ 32 -> unpad (pad p) = p.
Proof.
  intros Hp. pose proof (div_ceil_256 (length p + 4)) as Hc.
  unfold unpad. rewrite (proj2 (Nat.ltb_ge _ _)) by (rewrite length_pad; unfold PAD_BLOCK; lia).
  assert (from_le_bytes (take 4 (pad p)) = Z.of_nat (length p)) as ->.
  { unfold pad. cbv zeta. rewrite <-(assoc_L (++)), take_app_length' by by rewrite length_le_bytes.
    unfold wrap. rewrite Z.mod_small by lia. apply from_le_bytes_id. unfold in_uint. simpl. lia. }
  unfold saturating_add. rewrite (proj2 (Z.ltb_ge _ _)) by (rewrite length_pad; unfold PAD_BLOCK; lia).
  unfold pad. cbv zeta. rewrite <-(assoc_L (++)), drop_app_length' by by rewrite length_le_bytes.
  rewrite Nat2Z.id. apply take_app_length.
Qed.

(** Padding hides the length up to a 256-byte bucket and loses nothing: the padded text is a
    non-zero multiple of the block, less than one block longer than the framed text, and
    unpads to the text. *)
Theorem pad_roundtrip (p : bytes) :
  Z.of_nat (length p) < 2 ^ 32 ->
  unpad (pad p) = p /\ (length (pad p) mod PAD_BLOCK = 0)%nat /\
  (length p + 4 <= length (pad p) < length p + 4 + PAD_BLOCK)%nat.
Proof.
  intros Hp. pose proof (div_ceil_256 (length p + 4)) as Hc. split; [by apply unpad_pad|].
  rewrite length_pad. unfold PAD_BLOCK. split; [apply Nat.mod_mul; lia|lia].
Qed.

Lemma pad_roundtrip_witness :
  Z.of_nat (length (lit "hello")) < 2 ^ 32 /\
  unpad (pad (lit "hello")) = lit "hello" /\ (length (pad (lit "hello")) mod PAD_BLOCK = 0)%nat /\
  (length (lit "hello") + 4 <= length (pad (lit "hello")) < length (lit "hello") + 4 + PAD_BLOCK)%nat.
Proof. split; [reflexivity|]. apply (pad_roundtrip (lit "hello")). reflexivity. Defined.

(** * Payloads: lemmas *)

Lemma len_u64_range {A} (l : list A) : in_uint 64 (len_u64 l).
Proof. unfold len_u64, wrap, in_uint. apply Z.mod_pos_bound. lia. Qed.

Lemma len_u64_inj {A} (l l' : list A) :
  Z.of_nat (length l) < 2 ^ 64 -> Z.of_nat (length l') < 2 ^ 64 -> len_u64 l = len_u64 l' -> length l = length l'.
Proof. unfold len_u64, wrap. intros H H'. rewrite !Z.mod_small by lia. lia. Qed.

Definition block_wf (b : AttributionBlock) : Prop :=
  match b with
  | V2 b => in_uint 32 (v2_epoch_id b) /\ Z.of_nat (length (v2_ciphertext b)) < 2 ^ 64
  | V3 b => key_id_wf (block_key_id b)
  end.

(** The widths of a wrap's numbers; a ciphertext in memory is shorter than 2^64. *)
Record wrap_wf (w : Wrap) : Prop := {
  wf_created : in_uint 64 (created_at w);
  wf_pow : in_uint 64 (pow_nonce w);
  wf_len : Z.of_nat (length (ciphertext w)) < 2 ^ 64;
  wf_block : from_option block_wf True (attribution w);
}.

Lemma block_v3_fields_inj b b' k k' :
  key_id_wf (block_key_id b) -> key_id_wf (block_key_id b') ->
  key_id_encode (block_key_id b) = Ok k -> key_id_encode (block_key_id b') = Ok k' ->
  block_v3_fields b k = block_v3_fields b' k' -> b = b'.
Proof.
  intros Hw Hw' Hk Hk' P. unfold block_v3_fields in P. payload_inj P. rename E0 into Ev.
  apply app_inj_len in P as [-> P]; [|by rewrite (length_key_id_encode _ _ Hk), (length_key_id_encode _ _ Hk')].
  pose proof (key_id_encode_inj _ _ _ Hw Hw' Hk Hk') as Ek.
  payload_inj P. destruct b, b'; simpl in *; congruence.
Qed.

Lemma wrap_payload_v3_inj v v' e e' r r' t t' n n' c c' a a' b :
  in_uint 64 t -> in_uint 64 t' -> Z.of_nat (length c) < 2 ^ 64 -> Z.of_nat (length c') < 2 ^ 64 ->
  from_option block_wf True a -> from_option block_wf True a' ->
  wrap_signing_payload_v3 v e r t n c a = Ok b -> wrap_signing_payload_v3 v' e' r' t' n' c' a' = Ok b ->
  (v, e, r, t, n, c, a) = (v', e', r', t', n', c', a').
Proof.
  intros Ht Ht' Hc Hc' Ha Ha' H H'. unfold wrap_signing_payload_v3 in *.
  apply bind_Ok in H as (tail & Htl & H), H' as (tail' & Htl' & H'). inv_ok. subst b.
  pose proof (len_u64_range c) as Hr. pose proof (len_u64_range c') as Hr'. rename H' into P. payload_inj P.
  match goal with E : len_u64 c' = len_u64 c |- _ => apply len_u64_inj in E; [|done..] end.
  apply app_inj_len in P as [-> P]; [|done]. payload_inj P.
  assert (a = a'); [|congruence].
  destruct a as [[b|b]|], a' as [[b'|b']|]; simplify_eq/=; try done;
    repeat case_match; simplify_eq; try done.
  do 2 f_equal. symmetry. eapply block_v3_fields_inj; eauto. unfold block_v3_fields. cbn [app]. congruence.
Qed.

(** A v2 payload has no length before the ciphertext: it is unambiguous between ciphertexts of one length. *)
Definition legacy_block (a : option AttributionBlock) : Prop := match a with Some (V3 _) => False | _ => True end.

Lemma wrap_payload_v2_inj v v' r r' t t' n n' c c' a a' :
  in_uint 64 t -> in_uint 64 t' -> length c = length c' ->
  from_option block_wf True a -> from_option block_wf True a' -> legacy_block a -> legacy_block a' ->
  wrap_signing_payload_v2 v r t n c a = wrap_signing_payload_v2 v' r' t' n' c' a' -> (v, r, t, n, c, a) = (v', r', t', n', c', a').
Proof.
  intros Ht Ht' Hc Ha Ha' L L' P. unfold wrap_signing_payload_v2, signing_payload in P. rewrite <-!(assoc_L (++)) in P. payload_inj P. subst n'.
  apply app_inj_len in P as [-> P]; [|done]. payload_inj P. assert (a = a'); [|congruence].
  destruct a as [[b|b]|], a' as [[b'|b']|]; cbn in L, L', Ha, Ha'; try done; cbn [app] in P; try done.
  destruct Ha as [Hb Hl], Ha' as [Hb' Hl']. change 32 with (8 * Z.of_nat 4) in Hb, Hb'.
  pose proof (len_u64_range (v2_ciphertext b)) as Hr. pose proof (len_u64_range (v2_ciphertext b')) as Hr'. payload_inj P.
  do 2 f_equal. destruct b, b'; cbn in *. congruence.
Qed.

(** The fields the outer signature and the identifier cover. *)
Definition core_fields (w : Wrap) :=
  (w_version w, ephemeral_pubkey w, recipient w, created_at w, w_nonce w, ciphertext w).

Section WrapProperties.
Context {C : Crypto}.

(** A wrap a loft admits is a v3 wrap whose ciphertext is one or more whole padding
    blocks and a tag, whose attribution, if any, is a well-formed v3 block, and whose
    ephemeral key signed all of it: any other well-formed wrap with that signed payload has the same
    core fields and the same attribution, so none can be stripped or swapped in transit. *)
Theorem verify_public_sound (w : Wrap) :
  wrap_wf w -> verify_public w = Ok tt ->
  w_version w = ENVELOPE_VERSION /\
  (exists k, 0 < k /\ length (ciphertext w) = k * PAD_BLOCK + 16)%nat /\
  match attribution w with
  | Some (V3 b) => block_version b = ATTRIBUTION_BLOCK_VERSION /\ purpose (block_key_id b) = Attribution /\
                   e_pk b <> zeroes 32 /\ compliance_key_digest b <> zeroes 32
  | Some (V2 _) => False
  | None => True
  end /\
  exists payload, verify_strict (ephemeral_pubkey w) payload (w_signature w) = true /\
    forall w', wrap_wf w' ->
      wrap_signing_payload_v3 (w_version w') (ephemeral_pubkey w') (recipient w') (created_at w')
        (w_nonce w') (ciphertext w') (attribution w') = Ok payload ->
      core_fields w' = core_fields w /\ attribution w' = attribution w.
Proof.
  intros Hw H. unfold verify_public in H. inv_ok. apply verify_Ok in H. b2p.
  pose proof (proj1 (verifying_key_from_bytes_Ok _ _) Ha1) as [-> _].
  split_and!; [done| | |].
  - exists ((length (ciphertext w) - 16) / PAD_BLOCK)%nat. unfold PAD_BLOCK in *. dlia.
  - destruct (attribution w) as [[b|b]|]; [done| |done]. unfold validate_public_attribution_v3 in Ha3. inv_ok.
    repeat match goal with H : (_ || _)%bool = false |- _ => apply orb_false_iff in H as [? H] end. by b2p.
  - exists a4. split; [done|]. intros w' Hw' E.
    pose proof (wrap_payload_v3_inj _ _ _ _ _ _ _ _ _ _ _ _ _ _ _ (wf_created _ Hw') (wf_created _ Hw)
      (wf_len _ Hw') (wf_len _ Hw) (wf_block _ Hw') (wf_block _ Hw) E Ha4) as Ei.
    unfold core_fields. split; congruence.
Qed.

(** The event identifier is stable under what may change in transit, the work stamp, and (from
    v3 on) the signature and the attribution block; and it identifies the message: two v3 wraps
    with one identifier have the same core fields, or their two hash inputs collide. *)
Theorem wrap_id_identifies (w w' : Wrap) :
  (forall n, wrap_id (with_pow_nonce w n) = wrap_id w) /\
  (w_version w = ENVELOPE_VERSION -> core_fields w' = core_fields w -> wrap_id w' = wrap_id w) /\
  (wrap_wf w -> wrap_wf w' -> w_version w = ENVELOPE_VERSION -> w_version w' = ENVELOPE_VERSION ->
   wrap_id w = wrap_id w' ->
   core_fields w = core_fields w' \/
   collision_in [wrap_id_v3_input x03 (ephemeral_pubkey w) (recipient w) (w_nonce w) (ciphertext w) (created_at w);
                 wrap_id_v3_input x03 (ephemeral_pubkey w') (recipient w') (w_nonce w') (ciphertext w') (created_at w')]).
Proof.
  split_and!; [done| |].
  - unfold wrap_id, core_fields. intros Hv E. injection E as Ev Ee Er Et En Ec.
    rewrite Ev, Hv, Ee, Er, Et, En, Ec. done.
  - intros Hw Hw' Hv Hv' E. unfold wrap_id in E. rewrite Hv, Hv' in E. cbn in E.
    destruct (collision_in_pair _ _ E) as [P|Hc]; [left|by right].
    pose proof (len_u64_range (ciphertext w)) as Hr. pose proof (len_u64_range (ciphertext w')) as Hr'.
    pose proof (wf_created _ Hw). pose proof (wf_created _ Hw').
    unfold wrap_id_v3_input in P. payload_inj P.
    match goal with E : len_u64 (ciphertext w) = _ |- _ => apply len_u64_inj in E; [|by apply wf_len..] end.
    apply app_inj_len in P as [Ec P]; [|done]. payload_inj P. unfold core_fields. congruence.
Qed.

(** Mining a stamp leaves the message as it is and the result passes the check at the
    difficulty it was mined for; it fails only if no nonce below the bound does the work. *)
Theorem stamp_verifies (w : Wrap) (difficulty max_attempts : Z) :
  0 <= max_attempts ->
  match stamp w difficulty max_attempts with
  | Ok w' => wrap_id w' = wrap_id w /\ core_fields w' = core_fields w /\ attribution w' = attribution w /\
             verify_work w' difficulty = Ok tt
  | Err e => e = InsufficientWork /\ forall n, 0 <= n < max_attempts -> work (wrap_id w) n < difficulty
  end.
Proof.
  intros Hm. unfold stamp, verify_work, pow_verify. destruct (difficulty =? 0) eqn:E0; [done|].
  destruct (mine (wrap_id w) difficulty max_attempts) as [n|] eqn:E; cbn.
  - apply mine_from_Some in E as (_ & Hw & _). split_and!; [done..|].
    change (wrap_id (with_pow_nonce w n)) with (wrap_id w).
    by rewrite (proj2 (Z.leb_le _ _) Hw).
  - split; [done|]. intros n Hn. apply (proj1 (mine_from_None _ _ _ _) E). lia.
Qed.
End WrapProperties.

(** The seal's signed payload does not determine its parts: the ciphertext has no length
    before it, so a payload with an attribution secret that ends in a zero byte is also the payload of a
    longer ciphertext without one. *)
Theorem seal_payload_ambiguous (nonce : arr 24) (ct : bytes) (sk31 : arr 31) :
  exists sk ct', seal_signing_payload nonce ct (Some sk) = seal_signing_payload nonce ct' None /\ ct' <> ct.
Proof.
  exists (sk31 +++ [#x00] : arr 32), (ct ++ x01 :: vec_to_list sk31). split.
  - unfold seal_signing_payload, signing_payload.
    replace (vec_to_list (sk31 +++ [#x00] : arr 32)) with (vec_to_list sk31 ++ [x00])
      by (symmetry; exact (vec_to_list_app sk31 [#x00])).
    by rewrite <-!(assoc_L (++)).
  - intros E. apply (f_equal length) in E. rewrite length_app in E. simpl in E. lia.
Qed.

(** Ciphertexts the writers produce: whole padding blocks and a 16-byte tag. *)
Definition sealed_length (ct : bytes) : Prop := (length ct mod PAD_BLOCK = 16)%nat.

(** Between ciphertexts of the length the writers produce the seal's signed payload is
    unambiguous: it fixes the nonce, the ciphertext and the attribution secret. *)
Theorem seal_payload_binds (n n' : arr 24) (ct ct' : bytes) (sk sk' : option (arr 32)) :
  sealed_length ct -> sealed_length ct' ->
  seal_signing_payload n ct sk = seal_signing_payload n' ct' sk' -> (n, ct, sk) = (n', ct', sk').
Proof.
  unfold sealed_length, PAD_BLOCK. intros Hl Hl' P. unfold seal_signing_payload, signing_payload in P.
  rewrite <-!(assoc_L (++)) in P. payload_inj P. subst n'.
  assert (length ct = length ct') as Hlen.
  { apply (f_equal length) in P. rewrite !length_app in P.
    destruct sk, sk'; cbn [length] in P; rewrite ?length_vec_to_list in P; dlia. }
  apply app_inj_len in P as [-> P]; [|done]. destruct sk, sk'; payload_inj P; try done. congruence.
Qed.

(** * Storage: lemmas *)

Lemma reader_take_arr {n} (v : arr n) (r : bytes) : reader_take n (vec_to_list v ++ r) = Ok (v, r).
Proof.
  unfold reader_take. rewrite take_app_length', drop_app_length' by by rewrite length_vec_to_list.
  by rewrite (proj2 (arr_of_list_Some n _ v) eq_refl).
Qed.

Lemma reader_take_list n (l r : bytes) :
  length l = n -> exists v, reader_take n (l ++ r) = Ok (v, r) /\ vec_to_list v = l.
Proof.
  intros <-. exists (list_to_vec l). pose proof (reader_take_arr (list_to_vec l) r) as E.
  rewrite vec_to_list_to_vec in E. split; [exact E|apply vec_to_list_to_vec].
Qed.

Lemma reader_take_le n z (r : bytes) :
  in_uint (8 * Z.of_nat n) z ->
  exists v, reader_take n (le_bytes n z ++ r) = Ok (v, r) /\ from_le_bytes (vec_to_list v) = z.
Proof.
  intros Hz. destruct (reader_take_list n (le_bytes n z) r) as (v & E & Ev); [apply length_le_bytes|].
  exists v. split; [done|]. rewrite Ev. by apply from_le_bytes_id.
Qed.

Lemma reader_take_one (b : byte) (r : bytes) : reader_take 1 (b :: r) = Ok ([#b], r).
Proof. exact (reader_take_arr [#b] r). Qed.

Lemma reader_take_Ok n r v r' : reader_take n r = Ok (v, r') -> r = vec_to_list v ++ r'.
Proof.
  unfold reader_take. case_match eqn:E; [|done]. intros [= <- <-]. apply arr_of_list_Some in E.
  by rewrite <-E, take_drop.
Qed.

(** A length-prefixed field within the bound is read back, the rest left. *)
Lemma take_len_prefixed_app limit (l r : bytes) :
  Z.of_nat (length l) <= limit -> limit < 2 ^ 32 ->
  take_len_prefixed limit (le_bytes 4 (wrap 32 (Z.of_nat (length l))) ++ l ++ r) = Ok (l, r).
Proof.
  intros Hl Hlim. unfold take_len_prefixed.
  destruct (reader_take_list 4 (le_bytes 4 (wrap 32 (Z.of_nat (length l)))) (l ++ r)) as (v & -> & Ev);
    [by rewrite length_le_bytes|]. cbn [mbind result_bind]. rewrite Ev.
  unfold wrap. rewrite Z.mod_small by lia. rewrite from_le_bytes_id by (unfold in_uint; simpl; lia).
  rewrite (proj2 (Z.ltb_ge _ _) Hl). cbn [guard mbind result_bind].
  rewrite (proj2 (Z.ltb_ge _ _)) by (rewrite length_app; lia). cbn [guard mbind result_bind].
  by rewrite Nat2Z.id, take_app_length, drop_app_length.
Qed.

(** One field of a record that was written field by field. *)
Ltac read_field :=
  match goal with
  | |- context [reader_take 1 (?b :: ?r)] => rewrite (reader_take_one b r)
  | |- context [reader_take ?n (vec_to_list ?v ++ ?r)] => rewrite (reader_take_arr v r)
  | |- context [reader_take ?n (le_bytes ?n ?z ++ ?r)] =>
      let v := fresh "v" in let Ev := fresh "Ev" in
      destruct (reader_take_le n z r ltac:(assumption)) as (v & -> & Ev)
  | |- context [take_len_prefixed ?limit (le_bytes 4 (wrap 32 (Z.of_nat (length ?l))) ++ ?l ++ ?r)] =>
      rewrite (take_len_prefixed_app limit l r) by (assumption || (vm_compute; reflexivity))
  end; cbn [mbind result_bind app].

Lemma take_len_prefixed_Ok limit r l r' :
  take_len_prefixed limit r = Ok (l, r') ->
  Z.of_nat (length l) <= limit /\ r = le_bytes 4 (Z.of_nat (length l)) ++ l ++ r'.
Proof.
  unfold take_len_prefixed. intros H. apply bind_Ok in H as ([v r0] & Hv & H). inv_ok. injection H as <- <-. b2p.
  apply reader_take_Ok in Hv as ->. pose proof (from_le_bytes_range (vec_to_list v)) as [H0 _].
  rewrite length_take, Nat.min_l, Z2Nat.id by lia. split; [done|].
  rewrite take_drop. f_equal. pose proof (le_bytes_from (vec_to_list v)) as E. rewrite length_vec_to_list in E. done.
Qed.

Section StorageProperties.
Context {J : StorageJson} {JL : StorageJsonLaws}.

(** The at-rest record loses nothing and is exact: a wrap that is encoded decodes to itself,
    its identifier, signature and stamp unchanged, and a record with bytes added after it is rejected. *)
Theorem storage_roundtrip (w : Wrap) (bs extra : bytes) :
  in_uint 64 (created_at w) -> in_uint 64 (pow_nonce w) -> to_storage_bytes w = Ok bs ->
  from_storage_bytes (bs ++ extra) =
    if extra ≟ [] then Ok w else Err (MalformedEnvelope "trailing bytes in stored wrap").
Proof.
  intros Ht Hn H. unfold to_storage_bytes in H. inv_ok. rename a0 into json. subst bs. unfold too_long in Ha. b2p.
  rewrite <-!(assoc_L (++)). cbn [app from_storage_bytes]. rewrite bool_decide_true by done.
  unfold decode_storage_v1. do 7 read_field.
  rewrite Ev, Ev0. destruct (attribution w) as [block|] eqn:Eb.
  - inv_ok. subst json. unfold too_long in Ha2. b2p.
    cbn [app]. rewrite <-!(assoc_L (++)). read_field.
    change (u8 (Vector.hd [#to_u8 STORAGE_FLAG_ATTRIBUTION])) with 1.
    change (Z.land 1 (255 - STORAGE_FLAG_ATTRIBUTION) =? 0) with true.
    change (Z.land 1 STORAGE_FLAG_ATTRIBUTION =? 0) with false. cbn [guard negb mbind result_bind].
    read_field. rewrite (block_json_roundtrip _ _ Ha1). cbn [ok_or mbind result_bind]. read_field.
    destruct (extra ≟ []); cbn; [|done]. rewrite <-Eb. by destruct w.
  - inv_ok. subst json. cbn [app]. read_field. change (u8 (Vector.hd [#x00])) with 0.
    change (Z.land 0 (255 - STORAGE_FLAG_ATTRIBUTION) =? 0) with true.
    change (Z.land 0 STORAGE_FLAG_ATTRIBUTION =? 0) with true. cbn [guard negb mbind result_bind]. read_field.
    destruct (extra ≟ []); cbn; [|done]. rewrite <-Eb. by destruct w.
Qed.
Lemma flags_zero b :
  Z.land (u8 b) (0xff - STORAGE_FLAG_ATTRIBUTION) = 0 -> Z.land (u8 b) STORAGE_FLAG_ATTRIBUTION = 0 -> b = x00.
Proof.
  assert (negb (Z.land (u8 b) (0xff - STORAGE_FLAG_ATTRIBUTION) =? 0) ||
          negb (Z.land (u8 b) STORAGE_FLAG_ATTRIBUTION =? 0) || (b ≟ x00) = true) as H
    by (revert b; apply byte_forall; vm_compute; reflexivity).
  intros E1 E2. rewrite E1, E2 in H. cbn in H. by b2p.
Qed.

Lemma vec1 (v : arr 1) : vec_to_list v = [Vector.hd v].
Proof. by inv_vec v. Qed.

Lemma le_bytes_vec {n} (v : arr n) : le_bytes n (from_le_bytes (vec_to_list v)) = vec_to_list v.
Proof. rewrite <-(length_vec_to_list v) at 1. apply le_bytes_from. Qed.

(** An unattributed wrap has one storage record: whatever record decodes to it is
    the one it is encoded to. *)
Theorem storage_canonical (w : Wrap) (bs : bytes) :
  is_storage_format bs = true -> attribution w = None ->
  from_storage_bytes bs = Ok w -> to_storage_bytes w = Ok bs.
Proof.
  intros Hf Ha H. unfold is_storage_format in Hf. b2p. destruct bs as [|b bs]; [done|].
  injection Hf as ->. cbn [from_storage_bytes] in H. rewrite bool_decide_true in H by done.
  unfold decode_storage_v1 in H.
  apply bind_Ok in H as ([version r1] & H1 & H). apply bind_Ok in H as ([epk r2] & H2 & H).
  apply bind_Ok in H as ([rcp r3] & H3 & H). apply bind_Ok in H as ([nonce r4] & H4 & H).
  apply bind_Ok in H as ([at_ r5] & H5 & H). apply bind_Ok in H as ([pow r6] & H6 & H).
  apply bind_Ok in H as ([sig r7] & H7 & H). apply bind_Ok in H as ([flags r8] & H8 & H).
  apply bind_Ok in H as (? & Hflags & H). apply bind_Ok in H as ([attr r9] & H9 & H).
  apply bind_Ok in H as ([ct r10] & H10 & H). apply bind_Ok in H as (? & Hend & H). inv_ok. b2p. subst w r10.
  cbn [attribution] in Ha. subst attr.
  assert (Z.land (u8 (Vector.hd flags)) STORAGE_FLAG_ATTRIBUTION = 0 /\ r9 = r8) as [Hz ->].
  { destruct (_ =? 0) eqn:Ez in H9; cbn [negb] in H9; b2p; [by simplify_eq|].
    apply bind_Ok in H9 as ([json r] & _ & H9). inv_ok. by simplify_eq. }
  apply reader_take_Ok in H1, H2, H3, H4, H5, H6, H7, H8. subst.
  apply take_len_prefixed_Ok in H10 as [Hl ->]. rewrite !vec1, (flags_zero (Vector.hd flags)) by done.
  unfold to_storage_bytes, too_long. cbn [ciphertext attribution]. rewrite (proj2 (Z.ltb_ge _ _) Hl).
  cbn [guard mbind result_bind w_version ephemeral_pubkey recipient w_nonce created_at pow_nonce w_signature].
  rewrite !le_bytes_vec, app_nil_r. unfold wrap. rewrite Z.mod_small; [done|].
  unfold MAX_ENVELOPE_CIPHERTEXT, MAX_PLAINTEXT in Hl. lia.
Qed.

End StorageProperties.

(** * A concrete wrap *)

Definition toy_storage_json : StorageJson :=
  {| block_to_json _ := None; block_from_json _ := None; wrap_from_json _ := None |}.

Lemma toy_storage_laws : @StorageJsonLaws toy_storage_json.
Proof. intros b json E. discriminate E. Qed.

Definition demo_ct : bytes := replicate 272 xaa.
Definition demo_payload : bytes :=
  match wrap_signing_payload_v3 x03 (vreplicate 32 x07) (vreplicate 32 x09) 1707000000 (zeroes 24) demo_ct None with
  | Ok payload => payload
  | Err _ => []
  end.
Definition demo_wrap : Wrap :=
  {| w_version := x03; ephemeral_pubkey := vreplicate 32 x07; recipient := vreplicate 32 x09; w_nonce := zeroes 24;
     ciphertext := demo_ct; created_at := 1707000000;
     w_signature := toy_sign (vreplicate 32 x07) demo_payload; pow_nonce := 5; attribution := None |}.

Lemma demo_wrap_wf : wrap_wf demo_wrap.
Proof. split; [unfold in_uint; simpl; lia..|vm_compute; reflexivity|done]. Qed.

Lemma demo_wrap_admitted : verify_public (C := toy_crypto) demo_wrap = Ok tt.
Proof.
  assert (verifying_key_from_bytes (H := toy_crypto) (recipient demo_wrap) = Ok (recipient demo_wrap)) as Hr by reflexivity.
  assert (verifying_key_from_bytes (H := toy_crypto) (ephemeral_pubkey demo_wrap) = Ok (ephemeral_pubkey demo_wrap)) as He
    by reflexivity.
  unfold verify_public. rewrite Hr, He.
  transitivity (verify (H := toy_crypto) (ephemeral_pubkey demo_wrap) demo_payload (w_signature demo_wrap)); [reflexivity|].
  apply verify_Ok. by apply bool_decide_true.
Qed.

Lemma verify_public_sound_witness :
  (wrap_wf demo_wrap /\ verify_public (C := toy_crypto) demo_wrap = Ok tt) /\
  w_version demo_wrap = ENVELOPE_VERSION.
Proof.
  split; [split; [exact demo_wrap_wf|exact demo_wrap_admitted]|].
  exact (proj1 (verify_public_sound (C := toy_crypto) demo_wrap demo_wrap_wf demo_wrap_admitted)).
Defined.

Lemma wrap_id_identifies_witness : wrap_id (C := toy_crypto) (with_pow_nonce demo_wrap 9) = wrap_id (C := toy_crypto) demo_wrap.
Proof. exact (proj1 (wrap_id_identifies (C := toy_crypto) demo_wrap demo_wrap) 9). Defined.

(** What [stamp_verifies] says of one result. *)
Definition stamp_outcome (C : Crypto) (w : Wrap) (difficulty max_attempts : Z) (r : result Error Wrap) : Prop :=
  match r with
  | Ok w' => wrap_id w' = wrap_id w /\ core_fields w' = core_fields w /\ attribution w' = attribution w /\
             verify_work w' difficulty = Ok tt
  | Err e => e = InsufficientWork /\ forall n, 0 <= n < max_attempts -> work (wrap_id w) n < difficulty
  end.

Lemma stamp_verifies_witness :
  0 <= 64 /\ stamp_outcome toy_crypto demo_wrap 1 64 (stamp (C := toy_crypto) demo_wrap 1 64).
Proof.
  assert (0 <= 64) as H by lia. split; [exact H|]. exact (stamp_verifies (C := toy_crypto) demo_wrap 1 64 H).
Defined.

Lemma seal_payload_binds_witness :
  sealed_length demo_ct /\ sealed_length demo_ct /\
  (zeroes 24, demo_ct, Some (zeroes 32)) = (zeroes 24, demo_ct, Some (zeroes 32)).
Proof.
  assert (sealed_length demo_ct) as H by (vm_compute; reflexivity).
  split_and!; [exact H|exact H|].
  exact (seal_payload_binds (zeroes 24) (zeroes 24) demo_ct demo_ct (Some (zeroes 32)) (Some (zeroes 32)) H H eq_refl).
Defined.

Lemma demo_stored : exists bs, to_storage_bytes (J := toy_storage_json) demo_wrap = Ok bs /\ is_storage_format bs = true.
Proof. eexists. split; reflexivity. Qed.

Lemma storage_roundtrip_witness :
  exists bs, to_storage_bytes (J := toy_storage_json) demo_wrap = Ok bs /\
    from_storage_bytes (J := toy_storage_json) (bs ++ [x00]) = Err (MalformedEnvelope "trailing bytes in stored wrap").
Proof.
  destruct demo_stored as (bs & E & _). exists bs. split; [exact E|].
  exact (storage_roundtrip (J := toy_storage_json) (JL := toy_storage_laws) demo_wrap bs [x00]
           (wf_created _ demo_wrap_wf) (wf_pow _ demo_wrap_wf) E).
Defined.

(** The shortest record: every field zero, no attribution, no ciphertext. *)
Definition demo_record : bytes := WRAP_STORAGE_MAGIC_V1 :: replicate 174 x00.

Lemma demo_record_decodes :
  exists w, from_storage_bytes (J := toy_storage_json) demo_record = Ok w /\ attribution w = None.
Proof. eexists. split; [vm_compute; reflexivity|reflexivity]. Qed.

Lemma storage_canonical_witness :
  exists w, from_storage_bytes (J := toy_storage_json) demo_record = Ok w /\
    to_storage_bytes (J := toy_storage_json) w = Ok demo_record.
Proof.
  destruct demo_record_decodes as (w & E & Ea). exists w. split; [exact E|].
  exact (storage_canonical (J := toy_storage_json) w demo_record eq_refl Ea E).
Defined.
