(* ===== verification/Envelope.v ===== *)
(** Envelopes: sealing, wrapping, opening and attribution, the flows of
    [pigeonpost-core/src/envelope.rs], with the key agreement of
    [pigeonpost-core/src/keys.rs].

    The randomness each call draws ([OsRng]) is an argument; X25519, HKDF, the AEAD and
    [serde_json] are interfaces with the laws the code relies on. *)
From S2P Require Import Prelude Text B32 Crypto Pow Civil Compliance EnvelopeBytes.

Definition HKDF_INFO_SEAL : bytes := lit "pigeonpost/envelope/v1/seal".
Definition HKDF_INFO_WRAP : bytes := lit "pigeonpost/envelope/v1/wrap".
Definition ATTRIBUTION_HKDF_INFO : bytes := lit "pigeonpost/envelope/v3/attribution".
Definition MAX_TIMESTAMP_JITTER_SECS : Z := 2 * 24 * 60 * 60.
Definition MAX_ATTRIBUTION_CLOCK_SKEW_MS : Z := 5 * 60 * 1000.
Definition ATTRIBUTION_CIPHERTEXT_LEN : nat := ATTRIBUTION_CLAIM_LEN + 16.

Record Rumor := { from : arr 32; to : arr 32; rumor_created_at : Z; body : str }.

Record Seal := {
  seal_sender : arr 32;
  seal_nonce : arr 24;
  seal_ciphertext : bytes;
  attribution_sk : option (arr 32);
  seal_signature : arr 64;
}.

(** The enum [Attribution]. *)
Inductive Verdict := Absent | Valid | Invalid.

#[global] Instance Verdict_eq_dec : EqDecision Verdict.
Proof. solve_decision. Defined.

Record TrustedAttributionKey := {
  tk_key_id : ComplianceKeyId;
  tk_public_key : arr 32;
  tk_not_before_ms : Z;
  tk_not_after_ms : Z;
}.

Definition trusted_key_new (key_id : ComplianceKeyId) (public_key : arr 32) (not_before_ms not_after_ms : Z)
  : result Error TrustedAttributionKey :=
  _ ← guard (negb (is_ok (validate_attribution_epoch key_id not_before_ms not_after_ms)))
        (MalformedEnvelope "invalid trusted attribution key");
  Ok {| tk_key_id := key_id; tk_public_key := public_key;
        tk_not_before_ms := not_before_ms; tk_not_after_ms := not_after_ms |}.

(** * The primitives *)

Class EnvelopeCrypto := {
  sha512 : bytes -> arr 64;
  to_montgomery : VerifyingKey -> arr 32;
  (** [Scalar::from_bytes_mod_order(clamped) * MontgomeryPoint(point)] *)
  scalar_mul : arr 32 -> arr 32 -> arr 32;
  hkdf_sha256 : option bytes -> bytes -> bytes -> arr 32;
  xchacha_encrypt : arr 32 -> arr 24 -> bytes -> bytes -> option bytes;
  xchacha_decrypt : arr 32 -> arr 24 -> bytes -> bytes -> option bytes;
}.

Class EnvelopeJson := {
  rumor_to_json : Rumor -> option bytes;
  rumor_from_json : bytes -> option Rumor;
  seal_to_json : Seal -> option bytes;
  seal_from_json : bytes -> option Seal;
}.

(** * Key agreement: keys.rs *)

Section Agreement.
Context {C : Crypto} {EC : EnvelopeCrypto}.

Definition agreement_scalar (id : Identity) : arr 32 :=
  let hash := vec_to_list (sha512 (vec_to_list (seed id))) in
  let clamped := take 32 hash in
  let clamped := <[0%nat := to_u8 (Z.land (u8 (byte_at 0 clamped)) 248)]> clamped in
  let clamped := <[31%nat := to_u8 (Z.land (u8 (byte_at 31 clamped)) 127)]> clamped in
  let clamped := <[31%nat := to_u8 (Z.lor (u8 (byte_at 31 clamped)) 64)]> clamped in
  take_arr 32 clamped.

Definition montgomery_of (key : VerifyingKey) : result Error (arr 32) := Ok (to_montgomery key).

Definition agree (id : Identity) (peer : VerifyingKey) : result Error (arr 32) :=
  point ← montgomery_of peer;
  let shared := scalar_mul (agreement_scalar id) point in
  _ ← guard (shared ≟ zeroes 32) InvalidKey;
  Ok shared.

Definition x25519_public (id : Identity) : arr 32 :=
  match montgomery_of (verifying_key id) with Ok point => point | Err _ => zeroes 32 end.

Definition x25519_agree (id : Identity) (peer : arr 32) : result Error (arr 32) :=
  let shared := scalar_mul (agreement_scalar id) peer in
  _ ← guard (shared ≟ zeroes 32) InvalidKey;
  Ok shared.
End Agreement.

(** * The flows *)

(** What one call of [wrap_inner] draws from the generator. *)
Record Randomness := {
  rnd_seal_nonce : arr 24;
  rnd_attribution_seed : arr 32;
  rnd_ephemeral_seed : arr 32;
  rnd_wrap_nonce : arr 24;
  rnd_jitter : Z;
  rnd_attribution_nonce : arr 24;
}.

Definition jitter (now rnd : Z) : Z := saturating_sub now (rnd mod (MAX_TIMESTAMP_JITTER_SECS + 1)).

Definition saturating_mul (w a b : Z) : Z := Z.min (a * b) (2 ^ w - 1).

Section Envelope.
Context {C : Crypto} {EC : EnvelopeCrypto} {EJ : EnvelopeJson}.

Definition derive_key (shared_secret : arr 32) (info : bytes) : arr 32 :=
  hkdf_sha256 None (vec_to_list shared_secret) info.

Definition derive_attr_key_v3 (shared e_pk compliance_key_digest : arr 32) : arr 32 :=
  hkdf_sha256 (Some (attribution_hkdf_salt e_pk compliance_key_digest)) (vec_to_list shared) ATTRIBUTION_HKDF_INFO.

Definition encrypt (key : arr 32) (nonce : arr 24) (plaintext : bytes) (version : byte) : result Error bytes :=
  ok_or (xchacha_encrypt key nonce [version] plaintext) DecryptionFailed.

Definition decrypt (key : arr 32) (nonce : arr 24) (ct : bytes) (version : byte) : result Error bytes :=
  ok_or (xchacha_decrypt key nonce [version] ct) DecryptionFailed.

(** [map_err] from the format crate's error. *)
Definition or_context {A} (r : result FormatError A) (why : string) : result Error A :=
  match r with Ok a => Ok a | Err _ => Err (MalformedEnvelope why) end.

Definition build_attribution_v3 (sender : Identity) (now : Z) (p_c : arr 32) (key_id : ComplianceKeyId)
  (e_sk event_id recipient : arr 32) (nonce : arr 24) : result Error AttributionBlockV3 :=
  let ephemeral := from_seed e_sk in
  let e_pk := x25519_public ephemeral in
  let compliance_key_digest := sha256 (vec_to_list p_c) in
  shared ← x25519_agree ephemeral p_c;
  let k_attr := derive_attr_key_v3 shared e_pk compliance_key_digest in
  let sent_at_ms := saturating_mul 64 now 1000 in
  preimage ← or_context (attribution_signing_preimage ATTRIBUTION_BLOCK_VERSION key_id compliance_key_digest
                           e_pk event_id recipient sent_at_ms) "attribution context";
  let claim := {| sender_pubkey := verifying_key sender; sent_at_ms := sent_at_ms;
                  claim_signature := sign sender preimage |} in
  let plain := claim_encode claim in
  aad ← or_context (attribution_aad ATTRIBUTION_BLOCK_VERSION key_id compliance_key_digest e_pk event_id recipient)
          "attribution context";
  ct ← ok_or (xchacha_encrypt k_attr nonce aad plain) DecryptionFailed;
  ct ← ok_or (arr_of_list 120 ct) (MalformedEnvelope "attribution ciphertext length");
  Ok {| block_version := ATTRIBUTION_BLOCK_VERSION; block_key_id := key_id;
        compliance_key_digest := compliance_key_digest; e_pk := e_pk; block_nonce := nonce;
        block_ciphertext := ct |}.

Definition wrap_inner (sender : Identity) (recipient : VerifyingKey) (body : str) (now : Z)
  (compliance : option (arr 32 * ComplianceKeyId)) (rnd : Randomness) : result Error Wrap :=
  _ ← guard (too_long MAX_PLAINTEXT body) TooLarge;
  let rumor := {| from := verifying_key sender; to := recipient; rumor_created_at := now; body := body |} in
  rumor_bytes ← ok_or (rumor_to_json rumor) (MalformedEnvelope "rumor");
  (* layer 1: the seal *)
  shared ← agree sender recipient;
  let seal_key := derive_key shared HKDF_INFO_SEAL in
  seal_ct ← encrypt seal_key (rnd_seal_nonce rnd) (pad rumor_bytes) ENVELOPE_VERSION;
  let attribution_sk := match compliance with Some _ => Some (rnd_attribution_seed rnd) | None => None end in
  let seal_sig := sign sender (seal_signing_payload (rnd_seal_nonce rnd) seal_ct attribution_sk) in
  let seal := {| seal_sender := verifying_key sender; seal_nonce := rnd_seal_nonce rnd;
                 seal_ciphertext := seal_ct; attribution_sk := attribution_sk; seal_signature := seal_sig |} in
  seal_bytes ← ok_or (seal_to_json seal) (MalformedEnvelope "seal");
  (* layer 2: the wrap *)
  let ephemeral := from_seed (rnd_ephemeral_seed rnd) in
  shared ← agree ephemeral recipient;
  let wrap_key := derive_key shared HKDF_INFO_WRAP in
  wrap_ct ← encrypt wrap_key (rnd_wrap_nonce rnd) (pad seal_bytes) ENVELOPE_VERSION;
  let created_at := jitter now (rnd_jitter rnd) in
  let ephemeral_pubkey := verifying_key ephemeral in
  let event_id := wrap_id_v3 ENVELOPE_VERSION ephemeral_pubkey recipient (rnd_wrap_nonce rnd) wrap_ct created_at in
  attribution ← match compliance, attribution_sk with
                | Some (p_c, key_id), Some e_sk =>
                    block ← build_attribution_v3 sender now p_c key_id e_sk event_id recipient (rnd_attribution_nonce rnd);
                    Ok (Some (V3 block))
                | None, None => Ok None
                | _, _ => Err (MalformedEnvelope "attribution construction")
                end;
  payload ← wrap_signing_payload_v3 ENVELOPE_VERSION ephemeral_pubkey recipient created_at
              (rnd_wrap_nonce rnd) wrap_ct attribution;
  Ok {| w_version := ENVELOPE_VERSION; ephemeral_pubkey := ephemeral_pubkey; recipient := recipient;
        w_nonce := rnd_wrap_nonce rnd; ciphertext := wrap_ct; created_at := created_at;
        w_signature := sign ephemeral payload; pow_nonce := 0; attribution := attribution |}.

(** [pub fn wrap] *)
Definition wrap_message (sender : Identity) (recipient : VerifyingKey) (body : str) (now : Z) (rnd : Randomness)
  : result Error Wrap := wrap_inner sender recipient body now None rnd.

Definition wrap_attributed (sender : Identity) (recipient : VerifyingKey) (body : str) (now : Z)
  (p_c : arr 32) (key_id : ComplianceKeyId) (rnd : Randomness) : result Error Wrap :=
  sent_at_ms ← ok_or (checked_mul 64 now 1000) (MalformedEnvelope "invalid attribution send time");
  _ ← guard (match attribution_epoch_contains key_id sent_at_ms with Ok true => false | _ => true end)
        (MalformedEnvelope "invalid attribution key id");
  wrap_inner sender recipient body now (Some (p_c, key_id)) rnd.

Definition verify_attribution_claim (block : AttributionBlock) (e_sk p_c_expected event_id recipient : arr 32)
  (created_at : Z) (expected_sender : VerifyingKey) : result Error AttributionClaim :=
  match block with
  | V2 _ => Err (MalformedEnvelope "legacy attribution is not compliance-valid")
  | V3 block =>
      _ ← guard (negb (block_version block ≟ ATTRIBUTION_BLOCK_VERSION)
                 || negb (is_ok (attribution_epoch_end_ms (block_key_id block))))
            (MalformedEnvelope "attribution version or key id");
      let ephemeral := from_seed e_sk in
      _ ← guard (negb (x25519_public ephemeral ≟ e_pk block)) (MalformedEnvelope "attribution key mismatch");
      let expected_digest := sha256 (vec_to_list p_c_expected) in
      _ ← guard (negb (compliance_key_digest block ≟ expected_digest)) (MalformedEnvelope "compliance key digest mismatch");
      shared ← x25519_agree ephemeral p_c_expected;
      let k_attr := derive_attr_key_v3 shared (e_pk block) (compliance_key_digest block) in
      aad ← or_context (attribution_aad (block_version block) (block_key_id block) (compliance_key_digest block)
                          (e_pk block) event_id recipient) "attribution context";
      plain ← ok_or (xchacha_decrypt k_attr (block_nonce block) aad (vec_to_list (block_ciphertext block))) DecryptionFailed;
      claim ← or_context (claim_decode plain) "attribution claim";
      _ ← guard (negb (sender_pubkey claim ≟ expected_sender)) SenderMismatch;
      claimed_sender ← verifying_key_from_bytes (sender_pubkey claim);
      preimage ← or_context (attribution_signing_preimage (block_version block) (block_key_id block)
                               (compliance_key_digest block) (e_pk block) event_id recipient (sent_at_ms claim))
                   "attribution context";
      _ ← verify claimed_sender preimage (claim_signature claim);
      created_at_ms ← ok_or (checked_mul 64 created_at 1000) StaleTimestamp;
      let latest := saturating_add 64 (saturating_add 64 created_at_ms (saturating_mul 64 MAX_TIMESTAMP_JITTER_SECS 1000))
                      MAX_ATTRIBUTION_CLOCK_SKEW_MS in
      _ ← guard ((sent_at_ms claim <? created_at_ms) || (latest <? sent_at_ms claim)) StaleTimestamp;
      _ ← guard (match attribution_epoch_contains (block_key_id block) (sent_at_ms claim) with
                 | Ok true => false | _ => true end) StaleTimestamp;
      Ok claim
  end.

Definition verify_attribution (block : AttributionBlock) (e_sk p_c_expected event_id recipient : arr 32)
  (created_at : Z) (expected_sender : VerifyingKey) : result Error unit :=
  _ ← verify_attribution_claim block e_sk p_c_expected event_id recipient created_at expected_sender;
  Ok tt.

(** The closure [is_ok_and] runs on the claim. *)
Definition within_trusted (trusted : option TrustedAttributionKey) (block : AttributionBlock) (claim : AttributionClaim)
  : bool :=
  match trusted with
  | None => true
  | Some key =>
      match as_v3 block with Some block => block_key_id block ≟ tk_key_id key | None => false end
      && (tk_not_before_ms key <=? sent_at_ms claim) && (sent_at_ms claim <? tk_not_after_ms key)
  end.

Definition judge_attribution (w : Wrap) (sk : option (arr 32)) (sender : VerifyingKey)
  (expected_p_c : option (arr 32)) (trusted : option TrustedAttributionKey) : Verdict :=
  match attribution w, sk with
  | None, _ => Absent
  | Some block, sk =>
      if w_version w ≟ LEGACY_ENVELOPE_VERSION then Invalid
      else match sk, w_version w ≟ ENVELOPE_VERSION with
           | Some e_sk, true =>
               match expected_p_c with
               | Some p_c =>
                   match verify_attribution_claim block e_sk p_c (wrap_id w) (recipient w) (created_at w) sender with
                   | Ok claim => if within_trusted trusted block claim then Valid else Invalid
                   | Err _ => Invalid
                   end
               | None => Invalid
               end
           | _, _ => Invalid
           end
  end.

(** The authenticated sender, the body (an [UntrustedBody]) and the verdict. *)
Definition open_attributed_inner (id : Identity) (w : Wrap) (expected_p_c : option (arr 32))
  (trusted : option TrustedAttributionKey) : result Error (VerifyingKey * str * Verdict) :=
  _ ← guard (negb ((w_version w ≟ LEGACY_ENVELOPE_VERSION) || (w_version w ≟ ENVELOPE_VERSION)))
        (MalformedEnvelope "unsupported version");
  _ ← guard (negb (recipient w ≟ verifying_key id)) (MalformedEnvelope "not addressed to this key");
  epk ← verifying_key_from_bytes (ephemeral_pubkey w);
  payload ← (if w_version w ≟ LEGACY_ENVELOPE_VERSION then
               Ok (wrap_signing_payload_v2 (w_version w) (recipient w) (created_at w) (w_nonce w) (ciphertext w) (attribution w))
             else wrap_signing_payload_v3 (w_version w) (ephemeral_pubkey w) (recipient w) (created_at w)
                    (w_nonce w) (ciphertext w) (attribution w));
  _ ← verify epk payload (w_signature w);
  shared ← agree id epk;
  let wrap_key := derive_key shared HKDF_INFO_WRAP in
  padded ← decrypt wrap_key (w_nonce w) (ciphertext w) (w_version w);
  seal ← ok_or (seal_from_json (unpad padded)) (MalformedEnvelope "seal");
  sender ← verifying_key_from_bytes (seal_sender seal);
  _ ← verify sender (seal_signing_payload (seal_nonce seal) (seal_ciphertext seal) (attribution_sk seal)) (seal_signature seal);
  shared ← agree id sender;
  let seal_key := derive_key shared HKDF_INFO_SEAL in
  padded ← decrypt seal_key (seal_nonce seal) (seal_ciphertext seal) (w_version w);
  rumor ← ok_or (rumor_from_json (unpad padded)) (MalformedEnvelope "rumor");
  _ ← guard (negb (from rumor ≟ seal_sender seal)) SenderMismatch;
  _ ← guard (negb (to rumor ≟ verifying_key id)) (MalformedEnvelope "rumor addressed elsewhere");
  Ok (sender, body rumor, judge_attribution w (attribution_sk seal) sender expected_p_c trusted).

Definition open_attributed (id : Identity) (w : Wrap) (expected_p_c : option (arr 32))
  : result Error (VerifyingKey * str * Verdict) := open_attributed_inner id w expected_p_c None.

Definition open_attributed_trusted (id : Identity) (w : Wrap) (trusted : option TrustedAttributionKey)
  : result Error (VerifyingKey * str * Verdict) :=
  open_attributed_inner id w (tk_public_key <$> trusted) trusted.

Definition open (id : Identity) (w : Wrap) : result Error (VerifyingKey * str) :=
  '(sender, body, _) ← open_attributed id w None;
  Ok (sender, body).
End Envelope.

(** * What the primitives promise *)

Class EnvelopeLaws {C : Crypto} {EC : EnvelopeCrypto} {EJ : EnvelopeJson} : Prop := {
  (** Diffie-Hellman between two honest keys is symmetric and contributory. *)
  dh_symmetric a b :
    scalar_mul (agreement_scalar a) (to_montgomery (verifying_key b)) =
    scalar_mul (agreement_scalar b) (to_montgomery (verifying_key a));
  dh_contributory a b : scalar_mul (agreement_scalar a) (to_montgomery (verifying_key b)) <> zeroes 32;
  (** The AEAD encrypts any message of practical size, adds a 16-byte tag and decrypts what it encrypted. *)
  aead_total key nonce aad m :
    Z.of_nat (length m) < 2 ^ 36 ->
    exists c, xchacha_encrypt key nonce aad m = Some c /\ length c = (length m + 16)%nat;
  aead_decrypts key nonce aad m c :
    xchacha_encrypt key nonce aad m = Some c -> xchacha_decrypt key nonce aad c = Some m;
  (** JSON reads back what it wrote; a body byte takes at most six, a ciphertext byte two. *)
  rumor_json_total r :
    in_uint 64 (rumor_created_at r) ->
    exists j, rumor_to_json r = Some j /\ (length j <= 6 * length (body r) + 256)%nat;
  rumor_json_reads r j : rumor_to_json r = Some j -> rumor_from_json j = Some r;
  seal_json_total s :
    Z.of_nat (length (seal_ciphertext s)) <= MAX_ENVELOPE_CIPHERTEXT ->
    exists j, seal_to_json s = Some j /\ (length j <= 2 * length (seal_ciphertext s) + 512)%nat;
  seal_json_reads s j : seal_to_json s = Some j -> seal_from_json j = Some s;
}.

(** * Lemmas *)

Section Lemmas.
Context {C : Crypto} {EC : EnvelopeCrypto} {EJ : EnvelopeJson}.

Lemma claim_roundtrip c : in_uint 64 (sent_at_ms c) -> claim_decode (claim_encode c) = Ok c.
Proof.
  intros Ht. unfold claim_decode, claim_encode.
  rewrite !length_app, !length_vec_to_list, length_be_bytes. cbn [Nat.add Nat.eqb ATTRIBUTION_CLAIM_LEN guard negb mbind result_bind].
  replace (slice 0 32 _) with (vec_to_list (sender_pubkey c))
    by (symmetry; apply (slice_app []); [done|by rewrite length_vec_to_list]).
  rewrite take_arr_all, (slice_app (vec_to_list (sender_pubkey c))), from_be_bytes_id
    by (done || by rewrite ?length_vec_to_list, ?length_be_bytes).
  rewrite (assoc_L (++)), slice_end, take_arr_all
    by (rewrite ?length_app, ?length_vec_to_list, ?length_be_bytes; done).
  by destruct c.
Qed.

Lemma agree_Ok id peer s :
  agree id peer = Ok s <-> s = scalar_mul (agreement_scalar id) (to_montgomery peer) /\ s <> zeroes 32.
Proof.
  unfold agree, montgomery_of. cbn. split.
  - intros H. inv_ok. b2p. by subst.
  - intros [-> Hn]. by rewrite bool_decide_false.
Qed.

Lemma or_context_Ok {A} (r : result FormatError A) why a : or_context r why = Ok a <-> r = Ok a.
Proof. destruct r; simpl; split; congruence. Qed.

(** What an accepted attribution claim establishes. *)
Record claim_ok (b : AttributionBlockV3) (p_c event_id rcp : arr 32) (created : Z) (sender : VerifyingKey)
  (claim : AttributionClaim) : Prop := {
  co_version : block_version b = ATTRIBUTION_BLOCK_VERSION;
  co_digest : compliance_key_digest b = sha256 (vec_to_list p_c);
  co_sender : sender_pubkey claim = sender;
  co_signed : exists preimage,
    attribution_signing_preimage (block_version b) (block_key_id b) (compliance_key_digest b) (e_pk b)
      event_id rcp (sent_at_ms claim) = Ok preimage /\
    verify_strict sender preimage (claim_signature claim) = true;
  co_time : created * 1000 <= sent_at_ms claim <=
            created * 1000 + MAX_TIMESTAMP_JITTER_SECS * 1000 + MAX_ATTRIBUTION_CLOCK_SKEW_MS;
  co_epoch : attribution_epoch_contains (block_key_id b) (sent_at_ms claim) = Ok true;
}.

Lemma verify_claim_sound block e_sk p_c event_id rcp created sender claim :
  verify_attribution_claim block e_sk p_c event_id rcp created sender = Ok claim ->
  exists b, block = V3 b /\ claim_ok b p_c event_id rcp created sender claim.
Proof.
  destruct block as [b|b]; [done|]. unfold verify_attribution_claim. intros H. exists b. split; [done|].
  inv_ok. b2p. repeat match goal with H : or_context _ _ = Ok _ |- _ => apply or_context_Ok in H end.
  match goal with H : verifying_key_from_bytes _ = Ok _ |- _ => apply verifying_key_from_bytes_Ok in H as [? _] end.
  match goal with H : verify _ _ _ = Ok _ |- _ => apply verify_Ok in H end. subst.
  unfold checked_mul in *. repeat case_match; simplify_eq. b2p.
  split; [done|done|done|eauto| |done].
  unfold saturating_add, saturating_mul, MAX_TIMESTAMP_JITTER_SECS, MAX_ATTRIBUTION_CLOCK_SKEW_MS in *. lia.
Qed.

(** What a successful opening has checked. *)
Lemma open_inner_Ok id w expected trusted sender text v :
  open_attributed_inner id w expected trusted = Ok (sender, text, v) ->
  (w_version w = LEGACY_ENVELOPE_VERSION \/ w_version w = ENVELOPE_VERSION) /\
  recipient w = verifying_key id /\
  exists payload shared padded seal shared' padded' rumor,
    (if w_version w ≟ LEGACY_ENVELOPE_VERSION then
       Ok (wrap_signing_payload_v2 (w_version w) (recipient w) (created_at w) (w_nonce w) (ciphertext w) (attribution w))
     else wrap_signing_payload_v3 (w_version w) (ephemeral_pubkey w) (recipient w) (created_at w)
            (w_nonce w) (ciphertext w) (attribution w)) = Ok payload /\
    verify_strict (ephemeral_pubkey w) payload (w_signature w) = true /\
    agree id (ephemeral_pubkey w) = Ok shared /\
    decrypt (derive_key shared HKDF_INFO_WRAP) (w_nonce w) (ciphertext w) (w_version w) = Ok padded /\
    seal_from_json (unpad padded) = Some seal /\ seal_sender seal = sender /\
    verify_strict sender (seal_signing_payload (seal_nonce seal) (seal_ciphertext seal) (attribution_sk seal))
      (seal_signature seal) = true /\
    agree id sender = Ok shared' /\
    decrypt (derive_key shared' HKDF_INFO_SEAL) (seal_nonce seal) (seal_ciphertext seal) (w_version w) = Ok padded' /\
    rumor_from_json (unpad padded') = Some rumor /\
    from rumor = sender /\ to rumor = verifying_key id /\ body rumor = text /\
    v = judge_attribution w (attribution_sk seal) sender expected trusted.
Proof.
  unfold open_attributed_inner. intros H.
  apply bind_Ok in H as (? & Hver & H). apply bind_Ok in H as (? & Hrcp & H).
  apply bind_Ok in H as (epk & Hepk & H). apply bind_Ok in H as (payload & Hpay & H).
  apply bind_Ok in H as (? & Hsig & H). apply bind_Ok in H as (shared & Hsh & H).
  apply bind_Ok in H as (padded & Hdec & H). apply bind_Ok in H as (seal & Hseal & H).
  apply bind_Ok in H as (snd & Hsnd & H). apply bind_Ok in H as (? & Hssig & H).
  apply bind_Ok in H as (shared' & Hsh' & H). apply bind_Ok in H as (padded' & Hdec' & H).
  apply bind_Ok in H as (rumor & Hrum & H). inv_ok. injection H as <- <- <-.
  apply verifying_key_from_bytes_Ok in Hepk as [-> _], Hsnd as [-> _]. apply verify_Ok in Hsig, Hssig. b2p.
  split; [apply orb_true_iff in Hver as [Hv|Hv]; b2p; auto|]. split; [done|].
  exists payload, shared, padded, seal, shared', padded', rumor. split_and!; done.
Qed.
End Lemmas.

Section Soundness.
Context {C : Crypto} {EC : EnvelopeCrypto} {EJ : EnvelopeJson}.





(** "valid" means what it says: a wrap opened as validly attributed is a v3 wrap with a
    v3 block whose key digest is that of the resolved compliance key, and the authenticated sender
    itself signed the claim for this event and recipient, at a time within the jitter window of the visible one
    and inside the key's calendar month (and the trusted interval, when one is given); and "absent" is
    reported exactly for wraps without a block. *)
Theorem verdict_sound (id : Identity) (w : Wrap) (expected : option (arr 32))
  (trusted : option TrustedAttributionKey) (sender : VerifyingKey) (text : str) (v : Verdict) :
  open_attributed_inner id w expected trusted = Ok (sender, text, v) ->
  (v = Absent <-> attribution w = None) /\
  (v = Valid -> w_version w = ENVELOPE_VERSION /\
    exists p_c b claim, expected = Some p_c /\ attribution w = Some (V3 b) /\
      claim_ok b p_c (wrap_id w) (recipient w) (created_at w) sender claim /\
      from_option (fun key => block_key_id b = tk_key_id key /\
                     tk_not_before_ms key <= sent_at_ms claim < tk_not_after_ms key) True trusted).
Proof.
  intros H. apply open_inner_Ok in H as (_ & _ & payload & sh & p1 & seal & sh' & p2 & rumor & H).
  destruct H as (_ & _ & _ & _ & _ & _ & _ & _ & _ & _ & _ & _ & _ & ->). unfold judge_attribution.
  destruct (attribution w) as [block|]; [|done]. split.
  { split; [|done]. repeat case_match; done. }
  destruct (_ ≟ LEGACY_ENVELOPE_VERSION); [done|]. destruct (attribution_sk seal) as [e_sk|]; [|done].
  destruct (_ ≟ ENVELOPE_VERSION) eqn:Ev; [|done]. b2p. destruct expected as [p_c|]; [|done].
  destruct (verify_attribution_claim _ _ _ _ _ _ _) as [claim|] eqn:Ec; [|done].
  destruct (within_trusted trusted block claim) eqn:Et; [|done]. intros _. split; [done|].
  apply verify_claim_sound in Ec as (b & -> & Hok). exists p_c, b, claim. split_and!; [done..|].
  destruct trusted as [key|]; [|done]. unfold within_trusted, as_v3 in Et. b2p. split; [done|lia].
Qed.
End Soundness.

Section Roundtrip.
Context {C : Crypto} {EC : EnvelopeCrypto} {EJ : EnvelopeJson} {CL : CryptoLaws} {EL : EnvelopeLaws}.

Lemma agree_honest a b :
  exists s, agree a (verifying_key b) = Ok s /\ agree b (verifying_key a) = Ok s.
Proof.
  exists (scalar_mul (agreement_scalar a) (to_montgomery (verifying_key b))). split; apply agree_Ok.
  - split; [done|apply dh_contributory].
  - split; [apply dh_symmetric|apply dh_contributory].
Qed.

Lemma encrypt_honest key nonce p v :
  Z.of_nat (length p) < 2 ^ 30 ->
  exists c, encrypt key nonce (pad p) v = Ok c /\ decrypt key nonce c v = Ok (pad p) /\
    length c = (length (pad p) + 16)%nat.
Proof.
  intros Hp. assert (Z.of_nat (length (pad p)) < 2 ^ 36) as Hl.
  { rewrite length_pad. pose proof (div_ceil_256 (length p + 4)). unfold PAD_BLOCK. lia. }
  destruct (aead_total key nonce [v] (pad p) Hl) as (c & E & Ec). exists c.
  unfold encrypt, decrypt. by rewrite E, (aead_decrypts _ _ _ _ _ E).
Qed.
(** What the writer's two layers hold, as the recipient [r] will find them. *)
Record layers (s r : Identity) (text : str) (sk : option (arr 32)) (rnd : Randomness) (wrap_ct : bytes) : Prop := {
  ly_open : exists shared p1 seal shared' p2 rumor,
    agree r (verifying_key (from_seed (rnd_ephemeral_seed rnd))) = Ok shared /\
    decrypt (derive_key shared HKDF_INFO_WRAP) (rnd_wrap_nonce rnd) wrap_ct ENVELOPE_VERSION = Ok p1 /\
    seal_from_json (unpad p1) = Some seal /\ seal_sender seal = verifying_key s /\ attribution_sk seal = sk /\
    verify (verifying_key s) (seal_signing_payload (seal_nonce seal) (seal_ciphertext seal) (attribution_sk seal))
      (seal_signature seal) = Ok tt /\
    agree r (verifying_key s) = Ok shared' /\
    decrypt (derive_key shared' HKDF_INFO_SEAL) (seal_nonce seal) (seal_ciphertext seal) ENVELOPE_VERSION = Ok p2 /\
    rumor_from_json (unpad p2) = Some rumor /\
    from rumor = verifying_key s /\ to rumor = verifying_key r /\ body rumor = text;
  ly_blocks : exists k, (0 < k)%nat /\ length wrap_ct = (k * PAD_BLOCK + 16)%nat;
  ly_bound : Z.of_nat (length wrap_ct) <= MAX_ENVELOPE_CIPHERTEXT;
}.

(** The writer from the outer ciphertext on. *)
Definition finish_wrap (s : Identity) (rcp : VerifyingKey) (now : Z)
  (compliance : option (arr 32 * ComplianceKeyId)) (rnd : Randomness) (wrap_ct : bytes) : result Error Wrap :=
  let eph := from_seed (rnd_ephemeral_seed rnd) in
  let at_ := jitter now (rnd_jitter rnd) in
  let event_id := wrap_id_v3 ENVELOPE_VERSION (verifying_key eph) rcp (rnd_wrap_nonce rnd) wrap_ct at_ in
  attribution ← match compliance with
                | Some (p_c, key_id) =>
                    block ← build_attribution_v3 s now p_c key_id (rnd_attribution_seed rnd) event_id rcp
                              (rnd_attribution_nonce rnd);
                    Ok (Some (V3 block))
                | None => Ok None
                end;
  payload ← wrap_signing_payload_v3 ENVELOPE_VERSION (verifying_key eph) rcp at_ (rnd_wrap_nonce rnd) wrap_ct attribution;
  Ok {| w_version := ENVELOPE_VERSION; ephemeral_pubkey := verifying_key eph; recipient := rcp;
        w_nonce := rnd_wrap_nonce rnd; ciphertext := wrap_ct; created_at := at_;
        w_signature := sign eph payload; pow_nonce := 0; attribution := attribution |}.

Lemma wrap_layers s r text now compliance rnd :
  Z.of_nat (length text) <= MAX_PLAINTEXT -> in_uint 64 now ->
  exists wrap_ct, layers s r text (match compliance with Some _ => Some (rnd_attribution_seed rnd) | None => None end) rnd wrap_ct /\
    wrap_inner s (verifying_key r) text now compliance rnd = finish_wrap s (verifying_key r) now compliance rnd wrap_ct.
Proof.
  intros Hl Hn. unfold MAX_PLAINTEXT in Hl. set (sk := match compliance with Some _ => _ | None => _ end).
  set (rumor := {| from := verifying_key s; to := verifying_key r; rumor_created_at := now; body := text |}).
  destruct (rumor_json_total rumor Hn) as (j & Ej & Hj). cbn [body rumor] in Hj.
  destruct (agree_honest s r) as (sh' & Es & Er).
  destruct (encrypt_honest (derive_key sh' HKDF_INFO_SEAL) (rnd_seal_nonce rnd) j ENVELOPE_VERSION) as (sct & Ec & Ed & Hsct); [lia|].
  pose proof (length_pad j) as Hpj. pose proof (div_ceil_256 (length j + 4)) as Hcj. unfold PAD_BLOCK in Hpj.
  set (seal := {| seal_sender := verifying_key s; seal_nonce := rnd_seal_nonce rnd; seal_ciphertext := sct;
    attribution_sk := sk; seal_signature := sign s (seal_signing_payload (rnd_seal_nonce rnd) sct sk) |}).
  destruct (seal_json_total seal) as (sj & Esj & Hsj); [unfold MAX_ENVELOPE_CIPHERTEXT, MAX_PLAINTEXT; cbn; lia|].
  cbn [seal_ciphertext seal] in Hsj.
  destruct (agree_honest (from_seed (rnd_ephemeral_seed rnd)) r) as (sh & Ee & Ere).
  destruct (encrypt_honest (derive_key sh HKDF_INFO_WRAP) (rnd_wrap_nonce rnd) sj ENVELOPE_VERSION) as (wct & Ew & Edw & Hwct); [lia|].
  pose proof (length_pad sj) as Hps. pose proof (div_ceil_256 (length sj + 4)) as Hcs. unfold PAD_BLOCK in Hps.
  exists wct. split; [split|].
  - exists sh, (pad sj), seal, sh', (pad j), rumor. rewrite !unpad_pad by lia.
    split_and!; try done; [by apply seal_json_reads|apply verify_sign|by apply rumor_json_reads].
  - exists (div_ceil (length sj + 4) 256). unfold PAD_BLOCK. lia.
  - unfold MAX_ENVELOPE_CIPHERTEXT, MAX_PLAINTEXT. lia.
  - unfold wrap_inner, too_long, MAX_PLAINTEXT. rewrite (proj2 (Z.ltb_ge _ _)) by lia. cbn [guard mbind result_bind].
    fold rumor. rewrite Ej. cbn [ok_or mbind result_bind]. rewrite Es. cbn [mbind result_bind]. rewrite Ec. cbn [mbind result_bind].
    fold sk. fold seal. rewrite Esj. cbn [ok_or mbind result_bind]. rewrite Ee. cbn [mbind result_bind]. rewrite Ew.
    cbn [mbind result_bind]. unfold finish_wrap, sk. by destruct compliance as [[p_c key_id]|].
Qed.

(** A wrap over such layers, signed by its ephemeral key, opens. *)
Lemma open_layers s r text sk rnd w payload expected trusted :
  layers s r text sk rnd (ciphertext w) ->
  w_version w = ENVELOPE_VERSION -> recipient w = verifying_key r -> w_nonce w = rnd_wrap_nonce rnd ->
  ephemeral_pubkey w = verifying_key (from_seed (rnd_ephemeral_seed rnd)) ->
  wrap_signing_payload_v3 (w_version w) (ephemeral_pubkey w) (recipient w) (created_at w)
    (w_nonce w) (ciphertext w) (attribution w) = Ok payload ->
  w_signature w = sign (from_seed (rnd_ephemeral_seed rnd)) payload ->
  open_attributed_inner r w expected trusted =
    Ok (verifying_key s, text, judge_attribution w sk (verifying_key s) expected trusted).
Proof.
  intros [(sh & p1 & seal & sh' & p2 & rumor & H1 & H2 & H3 & H4 & <- & H6 & H7 & H8 & H9 & H10 & H11 & <-) _ _] Hv Hr Hn He Hp Hs.
  unfold open_attributed_inner. rewrite Hp. rewrite Hs, Hv, Hr, Hn, He.
  rewrite (bool_decide_true (ENVELOPE_VERSION = ENVELOPE_VERSION)), (bool_decide_false (ENVELOPE_VERSION = LEGACY_ENVELOPE_VERSION)) by done.
  rewrite (bool_decide_true (verifying_key r = _)) by done. cbn [orb guard negb mbind result_bind].
  rewrite own_key_decodes. cbn [mbind result_bind]. rewrite verify_sign. cbn [mbind result_bind].
  rewrite H1. cbn [mbind result_bind]. rewrite H2. cbn [mbind result_bind]. rewrite H3. cbn [ok_or mbind result_bind].
  rewrite H4, own_key_decodes. cbn [mbind result_bind]. rewrite H6. cbn [mbind result_bind]. rewrite H7.
  cbn [mbind result_bind]. rewrite H8. cbn [mbind result_bind]. rewrite H9. cbn [ok_or mbind result_bind].
  rewrite H10, H11, !bool_decide_true by done. done.
Qed.

Lemma jitter_bound now rnd :
  0 <= now -> now - MAX_TIMESTAMP_JITTER_SECS <= jitter now rnd <= now /\ 0 <= jitter now rnd.
Proof.
  intros H. unfold jitter, saturating_sub, MAX_TIMESTAMP_JITTER_SECS.
  pose proof (Z.mod_pos_bound rnd (2 * 24 * 60 * 60 + 1)). lia.
Qed.

Lemma wrapped_opens (s r : Identity) (text : str) (now : Z) (rnd : Randomness) :
  Z.of_nat (length text) <= MAX_PLAINTEXT -> in_uint 64 now ->
  exists w, wrap_message s (verifying_key r) text now rnd = Ok w /\
    open r w = Ok (verifying_key s, text) /\ verify_public w = Ok tt /\
    Z.of_nat (length (ciphertext w)) <= MAX_ENVELOPE_CIPHERTEXT /\
    now - MAX_TIMESTAMP_JITTER_SECS <= created_at w <= now /\ attribution w = None /\ pow_nonce w = 0.
Proof.
  intros Hl Hn. destruct (wrap_layers s r text now None rnd Hl Hn) as (ct & Hly & E).
  unfold wrap_message. rewrite E. unfold finish_wrap. cbn [mbind result_bind wrap_signing_payload_v3].
  eexists. split; [done|]. destruct Hn as [Hn0 _]. pose proof (jitter_bound now (rnd_jitter rnd) Hn0).
  split_and!; [| |apply Hly|cbn; lia|cbn; lia|done|done].
  - unfold open, open_attributed. erewrite open_layers; [|exact Hly|done..]. done.
  - destruct (ly_blocks _ _ _ _ _ _ Hly) as (k & Hk & Hct). unfold verify_public.
    cbn [w_version ephemeral_pubkey recipient w_nonce ciphertext created_at w_signature attribution].
    rewrite bool_decide_true, !own_key_decodes by done. cbn [guard negb mbind result_bind].
    rewrite (proj2 (Nat.leb_gt _ _)) by (unfold PAD_BLOCK in *; lia).
    replace (length ct - 16)%nat with (k * PAD_BLOCK)%nat by lia. rewrite Nat.mod_mul by (unfold PAD_BLOCK; lia).
    cbn [Nat.eqb orb negb guard mbind result_bind wrap_signing_payload_v3]. apply verify_sign.
Qed.

(** Mail arrives: for any sender, recipient, body within the limit, time and randomness, wrapping
    succeeds, the wrap is one a loft admits and storage accepts, its visible time is at most two days
    before the true one, and the recipient opens it to the sender's key and the exact body. *)
Theorem wrap_open_roundtrip (s r : Identity) (text : str) (now : Z) (rnd : Randomness) :
  Z.of_nat (length text) <= MAX_PLAINTEXT -> in_uint 64 now ->
  exists w, wrap_message s (verifying_key r) text now rnd = Ok w /\
    open r w = Ok (verifying_key s, text) /\ verify_public w = Ok tt /\
    Z.of_nat (length (ciphertext w)) <= MAX_ENVELOPE_CIPHERTEXT /\
    now - MAX_TIMESTAMP_JITTER_SECS <= created_at w <= now /\ attribution w = None.
Proof. intros Hl Hn. destruct (wrapped_opens s r text now rnd Hl Hn) as (w & H1 & H2 & H3 & H4 & H5 & H6 & _). by exists w. Qed.

Lemma epoch_contains_end id t b :
  attribution_epoch_contains id t = Ok b -> exists e, attribution_epoch_end_ms id = Ok e.
Proof. unfold attribution_epoch_contains. intros H. inv_ok. eauto. Qed.

Lemma epoch_contains_version id t b :
  attribution_epoch_contains id t = Ok b -> version id = COMPLIANCE_KEY_ID_VERSION /\ purpose id = Attribution.
Proof.
  unfold attribution_epoch_contains, attribution_epoch_end_ms. intros H.
  apply bind_Ok in H as (e & H & _). apply bind_Ok in H as (? & Hp & H). apply bind_Ok in H as (u & Hv & _).
  inv_ok. apply key_id_validate_Ok in Hv. by b2p.
Qed.

Lemma key_id_encode_ok id :
  version id = COMPLIANCE_KEY_ID_VERSION -> exists k, key_id_encode id = Ok k.
Proof. intros Hv. unfold key_id_encode. rewrite (proj2 (key_id_validate_Ok id tt) Hv). cbn. eauto. Qed.

(** The block a sender builds is the one the recipient accepts. *)
Lemma build_attribution_accepted s now p_c key_id e_sk event_id rcp nonce shared created :
  0 <= now -> now * 1000 < 2 ^ 64 -> attribution_epoch_contains key_id (now * 1000) = Ok true ->
  x25519_agree (from_seed e_sk) p_c = Ok shared ->
  0 <= created -> created <= now <= created + MAX_TIMESTAMP_JITTER_SECS ->
  exists b claim, build_attribution_v3 s now p_c key_id e_sk event_id rcp nonce = Ok b /\
    block_key_id b = key_id /\ compliance_key_digest b = sha256 (vec_to_list p_c) /\
    sent_at_ms claim = now * 1000 /\
    verify_attribution_claim (V3 b) e_sk p_c event_id rcp created (verifying_key s) = Ok claim.
Proof.
  intros Hn Hn64 Hep Hsh Hc Hj. destruct (epoch_contains_version _ _ _ Hep) as [Hv _].
  destruct (epoch_contains_end _ _ _ Hep) as [e He]. destruct (key_id_encode_ok _ Hv) as [k Hk].
  assert (saturating_mul 64 now 1000 = now * 1000) as Em by (unfold saturating_mul; lia).
  unfold build_attribution_v3. rewrite Hsh, Em. cbn [mbind result_bind].
  unfold attribution_signing_preimage, attribution_aad, validate_block_version.
  rewrite bool_decide_true by done. rewrite Hk. cbn [guard negb mbind result_bind or_context].
  set (preimage := ATTRIBUTION_SIGNATURE_DOMAIN ++ _). set (aad := ATTRIBUTION_AAD_DOMAIN ++ _).
  set (claim := {| sender_pubkey := verifying_key s; sent_at_ms := now * 1000; claim_signature := sign s preimage |}).
  set (key := derive_attr_key_v3 shared (x25519_public (from_seed e_sk)) (sha256 (vec_to_list p_c))).
  assert (length (claim_encode claim) = 104%nat) as Hlen
    by (unfold claim_encode; by rewrite !length_app, !length_vec_to_list, length_be_bytes).
  destruct (aead_total key nonce aad (claim_encode claim)) as (ct & Ect & Hct); [rewrite Hlen; lia|].
  rewrite Ect. cbn [ok_or mbind result_bind].
  destruct (proj2 (arr_of_list_length 120 ct)) as [v Ev]; [lia|]. rewrite Ev. cbn [ok_or mbind result_bind].
  eexists _, claim. split; [done|]. split; [done|]. split; [done|]. split; [done|].
  unfold verify_attribution_claim. cbn [block_version block_key_id compliance_key_digest e_pk block_nonce block_ciphertext].
  rewrite He, !(bool_decide_true (_ = _)) by done. cbn [is_ok negb orb guard mbind result_bind].
  rewrite Hsh. cbn [mbind result_bind]. unfold attribution_aad, attribution_signing_preimage, validate_block_version.
  rewrite bool_decide_true, Hk by done. cbn [guard negb mbind result_bind or_context]. fold aad key.
  apply arr_of_list_Some in Ev. rewrite <-Ev, (aead_decrypts _ _ _ _ _ Ect). cbn [ok_or mbind result_bind].
  rewrite claim_roundtrip by (unfold in_uint; cbn; lia). cbn [or_context mbind result_bind claim sender_pubkey sent_at_ms claim_signature].
  rewrite bool_decide_true, own_key_decodes by done. cbn [guard negb mbind result_bind]. fold preimage.
  rewrite verify_sign. cbn [mbind result_bind]. unfold checked_mul.
  rewrite (proj2 (Z.ltb_lt _ _)) by lia. cbn [ok_or mbind result_bind]. rewrite Hep.
  rewrite (proj2 (Z.ltb_ge (now * 1000) _)) by lia.
  rewrite (proj2 (Z.ltb_ge _ (now * 1000))); [done|].
  unfold saturating_add, saturating_mul, MAX_TIMESTAMP_JITTER_SECS, MAX_ATTRIBUTION_CLOCK_SKEW_MS in *. lia.
Qed.

Lemma trusted_key_public key_id p_c nb na tk : trusted_key_new key_id p_c nb na = Ok tk -> tk_public_key tk = p_c.
Proof. unfold trusted_key_new. intros H. inv_ok. by subst. Qed.

(** A trusted key's interval is its month, so it admits what the month contains. *)
Lemma trusted_key_contains key_id p_c nb na tk b claim :
  trusted_key_new key_id p_c nb na = Ok tk -> block_key_id b = key_id ->
  attribution_epoch_contains key_id (sent_at_ms claim) = Ok true ->
  within_trusted (Some tk) (V3 b) claim = true.
Proof.
  unfold trusted_key_new, validate_attribution_epoch, attribution_epoch_contains. intros H Hk Hc.
  destruct (attribution_epoch_end_ms key_id) as [e|]; [|done]. cbn [mbind result_bind] in Hc, H. inv_ok. b2p.
  destruct (negb (nb =? _) || _) eqn:E; [done|]. b2p. subst tk nb na.
  unfold within_trusted, as_v3. cbn [tk_key_id tk_not_before_ms tk_not_after_ms].
  rewrite bool_decide_true by done. cbn [andb]. apply andb_true_iff. rewrite Z.leb_le, Z.ltb_lt. done.
Qed.

Lemma attributed_opens (s r : Identity) (text : str) (now : Z) (rnd : Randomness)
  (p_c : arr 32) (key_id : ComplianceKeyId) (shared : arr 32) (nb na : Z) (trusted : TrustedAttributionKey) :
  Z.of_nat (length text) <= MAX_PLAINTEXT -> 0 <= now -> now * 1000 < 2 ^ 64 ->
  attribution_epoch_contains key_id (now * 1000) = Ok true ->
  trusted_key_new key_id p_c nb na = Ok trusted ->
  x25519_agree (from_seed (rnd_attribution_seed rnd)) p_c = Ok shared ->
  exists w, wrap_attributed s (verifying_key r) text now p_c key_id rnd = Ok w /\
    open_attributed_trusted r w (Some trusted) = Ok (verifying_key s, text, Valid) /\
    open_attributed r w None = Ok (verifying_key s, text, Invalid) /\
    forall p, sha256 (vec_to_list p) <> sha256 (vec_to_list p_c) ->
      open_attributed r w (Some p) = Ok (verifying_key s, text, Invalid).
Proof.
  intros Hl Hn Hn64 Hep Htk Hsh. assert (in_uint 64 now) as Hin by (unfold in_uint; lia).
  destruct (wrap_layers s r text now (Some (p_c, key_id)) rnd Hl Hin) as (ct & Hly & E).
  destruct (jitter_bound now (rnd_jitter rnd) Hn) as [Hj Hj0].
  set (event := wrap_id_v3 ENVELOPE_VERSION (verifying_key (from_seed (rnd_ephemeral_seed rnd))) (verifying_key r)
    (rnd_wrap_nonce rnd) ct (jitter now (rnd_jitter rnd))).
  destruct (build_attribution_accepted s now p_c key_id (rnd_attribution_seed rnd) event (verifying_key r)
    (rnd_attribution_nonce rnd) shared (jitter now (rnd_jitter rnd))) as (b & claim & Eb & Ekey & Edig & Et & Ever); [lia|lia|done|done|lia|lia|].
  destruct (epoch_contains_version _ _ _ Hep) as [Hv _]. destruct (key_id_encode_ok _ Hv) as [k Hk].
  unfold wrap_attributed, checked_mul. rewrite (proj2 (Z.ltb_lt _ _)) by lia. cbn [ok_or mbind result_bind]. rewrite Hep.
  cbn [guard mbind result_bind]. rewrite E. unfold finish_wrap. fold event. rewrite Eb.
  cbn [mbind result_bind wrap_signing_payload_v3]. rewrite Ekey, Hk. cbn [mbind result_bind].
  eexists. split; [done|]. set (w := {| w_version := _ |}).
  assert (forall expected t, open_attributed_inner r w expected t = Ok (verifying_key s, text,
    judge_attribution w (Some (rnd_attribution_seed rnd)) (verifying_key s) expected t)) as Hopen.
  { intros expected t. eapply open_layers; [exact Hly|done..| |done]. unfold w.
    cbn [w_version ephemeral_pubkey recipient w_nonce ciphertext created_at attribution].
    unfold wrap_signing_payload_v3. rewrite Ekey, Hk. done. }
  unfold open_attributed_trusted, open_attributed. rewrite !Hopen. split_and!.
  - unfold judge_attribution. change (wrap_id w) with event.
    cbn [attribution w_version recipient created_at w fmap option_fmap option_map].
    rewrite bool_decide_false, bool_decide_true by done.
    rewrite (trusted_key_public _ _ _ _ _ Htk), Ever.
    rewrite <-Et in Hep. by rewrite (trusted_key_contains _ _ _ _ _ b claim Htk Ekey Hep).
  - done.
  - intros p Hp. rewrite Hopen. unfold judge_attribution. change (wrap_id w) with event.
    cbn [attribution w_version recipient created_at w]. rewrite bool_decide_false, bool_decide_true by done.
    destruct (verify_attribution_claim _ _ p _ _ _ _) as [c|] eqn:Ec; [exfalso|done].
    apply verify_claim_sound in Ec as (b' & [= <-] & Hok). apply Hp. rewrite <-Edig. symmetry. apply (co_digest _ _ _ _ _ _ _ Hok).
Qed.

(** Attribution works end to end: a message wrapped under a compliance key in the key's own month
    opens as validly attributed by a recipient who trusts that key for that month; without a resolved
    key, or with one of another digest, the same message opens, to the same sender and body, as invalidly attributed. *)
Theorem attributed_open_roundtrip (s r : Identity) (text : str) (now : Z) (rnd : Randomness)
  (p_c : arr 32) (key_id : ComplianceKeyId) (shared : arr 32) (nb na : Z) (trusted : TrustedAttributionKey) :
  Z.of_nat (length text) <= MAX_PLAINTEXT -> 0 <= now -> now * 1000 < 2 ^ 64 ->
  attribution_epoch_contains key_id (now * 1000) = Ok true ->
  trusted_key_new key_id p_c nb na = Ok trusted ->
  x25519_agree (from_seed (rnd_attribution_seed rnd)) p_c = Ok shared ->
  exists w, wrap_attributed s (verifying_key r) text now p_c key_id rnd = Ok w /\
    open_attributed_trusted r w (Some trusted) = Ok (verifying_key s, text, Valid) /\
    open_attributed r w None = Ok (verifying_key s, text, Invalid) /\
    forall p, sha256 (vec_to_list p) <> sha256 (vec_to_list p_c) ->
      open_attributed r w (Some p) = Ok (verifying_key s, text, Invalid).
Proof. apply attributed_opens. Qed.

End Roundtrip.

(** * A concrete instance of the primitives

    A constant agreement, a keyed checksum as the tag and plain concatenation as JSON:
    enough to make every law hold and the flows compute. *)

Definition toy_tag (key : arr 32) (nonce : arr 24) (aad m : bytes) : bytes :=
  take 16 (vec_to_list (toy_digest (vec_to_list key ++ vec_to_list nonce ++ aad ++ m))).

Definition toy_envelope_crypto : EnvelopeCrypto := {|
  sha512 m := toy_digest m +++ toy_digest m;
  to_montgomery key := key;
  scalar_mul _ _ := vreplicate 32 x01;
  hkdf_sha256 salt ikm info := toy_digest (default [] salt ++ ikm ++ info);
  xchacha_encrypt key nonce aad m := Some (toy_tag key nonce aad m ++ m);
  xchacha_decrypt key nonce aad c :=
    if take 16 c ≟ toy_tag key nonce aad (drop 16 c) then Some (drop 16 c) else None;
|}.

Definition toy_json : EnvelopeJson := {|
  rumor_to_json r :=
    if (0 <=? rumor_created_at r) && (rumor_created_at r <? 2 ^ 64) then
      Some (vec_to_list (from r) ++ vec_to_list (to r) ++ le_bytes 8 (rumor_created_at r) ++ body r)
    else None;
  rumor_from_json j :=
    Some {| from := take_arr 32 j; to := take_arr 32 (drop 32 j);
            rumor_created_at := from_le_bytes (take 8 (drop 64 j)); body := drop 72 j |};
  seal_to_json s :=
    if too_long MAX_ENVELOPE_CIPHERTEXT (seal_ciphertext s) then None
    else Some (vec_to_list (seal_sender s) ++ vec_to_list (seal_nonce s) ++ vec_to_list (seal_signature s)
               ++ match attribution_sk s with Some sk => x01 :: vec_to_list sk | None => [x00] end ++ seal_ciphertext s);
  seal_from_json j :=
    let rest := drop 120 j in
    let flag := byte_at 0 rest in
    Some {| seal_sender := take_arr 32 j; seal_nonce := take_arr 24 (drop 32 j);
            seal_signature := take_arr 64 (drop 56 j);
            attribution_sk := if flag ≟ x01 then Some (take_arr 32 (drop 1 rest)) else None;
            seal_ciphertext := if flag ≟ x01 then drop 33 rest else drop 1 rest |};
|}.

Lemma length_toy_tag key nonce aad m : length (toy_tag key nonce aad m) = 16%nat.
Proof. unfold toy_tag. by rewrite length_take, length_vec_to_list. Qed.

Lemma drop_vec {n} (v : arr n) (r : bytes) k : k = n -> drop k (vec_to_list v ++ r) = r.
Proof. intros ->. apply drop_app_length'. by rewrite length_vec_to_list. Qed.

Lemma drop_vec_add {n} (v : arr n) (r : bytes) k m : (k = n + m)%nat -> drop k (vec_to_list v ++ r) = drop m r.
Proof. intros ->. rewrite <-drop_drop. f_equal. by apply drop_vec. Qed.

Lemma toy_envelope_laws : @EnvelopeLaws toy_crypto toy_envelope_crypto toy_json.
Proof.
  split; cbn [scalar_mul to_montgomery toy_envelope_crypto xchacha_encrypt xchacha_decrypt
              rumor_to_json rumor_from_json seal_to_json seal_from_json toy_json].
  - done.
  - intros a b E. apply (f_equal (fun v => Vector.hd v)) in E. discriminate E.
  - intros key nonce aad m _. eexists. split; [done|]. rewrite length_app, length_toy_tag. lia.
  - intros key nonce aad m c H. apply (inj Some) in H as <-.
    rewrite take_app_length', drop_app_length' by (by rewrite length_toy_tag). by rewrite bool_decide_true.
  - intros r [H0 H1]. rewrite (proj2 (Z.leb_le _ _) H0), (proj2 (Z.ltb_lt _ _) H1). eexists. split; [done|].
    rewrite !length_app, !length_vec_to_list, length_le_bytes. lia.
  - intros r j. destruct (_ && _) eqn:E; [|done]. intros H. apply (inj Some) in H as <-. b2p.
    rewrite take_arr_app, (drop_vec (from r)), take_arr_app by done.
    rewrite (drop_vec_add (from r) _ 64 32), (drop_vec (to r)), take_app_length' by (done || by rewrite length_le_bytes).
    rewrite from_le_bytes_id by (unfold in_uint; simpl; lia).
    rewrite (drop_vec_add (from r) _ 72 40), (drop_vec_add (to r) _ 40 8), drop_app_length' by (done || by rewrite length_le_bytes).
    by destruct r.
  - intros s Hs. unfold too_long. rewrite (proj2 (Z.ltb_ge _ _) Hs). eexists. split; [done|].
    rewrite !length_app, !length_vec_to_list. destruct (attribution_sk s); cbn [length]; rewrite ?length_vec_to_list; lia.
  - intros s j. destruct (too_long _ _); [done|]. intros H. apply (inj Some) in H as <-.
    rewrite take_arr_app, (drop_vec (seal_sender s)), take_arr_app by done.
    rewrite (drop_vec_add (seal_sender s) _ 56 24), (drop_vec (seal_nonce s)), take_arr_app by done.
    rewrite (drop_vec_add (seal_sender s) _ 120 88), (drop_vec_add (seal_nonce s) _ 88 64), (drop_vec (seal_signature s)) by done.
    destruct s as [snd n ct [sk|] sig]; cbn [attribution_sk seal_ciphertext app byte_at nth].
    + rewrite bool_decide_true by done.
      change (drop 33 (x01 :: vec_to_list sk ++ ct)) with (drop 32 (vec_to_list sk ++ ct)).
      change (drop 1 (x01 :: vec_to_list sk ++ ct)) with (vec_to_list sk ++ ct). by rewrite take_arr_app, drop_vec.
    + rewrite bool_decide_false by done. done.
Qed.

(** * A concrete message *)

Section Demo.
#[local] Existing Instances toy_crypto toy_envelope_crypto toy_json toy_laws toy_envelope_laws.

Definition demo_alice : Identity := from_seed (vreplicate 32 x07).
Definition demo_bob : Identity := from_seed (vreplicate 32 x09).
Definition demo_rnd : Randomness :=
  {| rnd_seal_nonce := zeroes 24; rnd_attribution_seed := vreplicate 32 x0b; rnd_ephemeral_seed := vreplicate 32 x0c;
     rnd_wrap_nonce := vreplicate 24 x0d; rnd_jitter := 1000; rnd_attribution_nonce := zeroes 24 |}.
Definition demo_pc : arr 32 := vreplicate 32 x0e.
(** February 2024. *)
Definition demo_key_id : ComplianceKeyId := key_id_new Attribution Eu (vreplicate 32 x05) 1706745600000 0.
Definition demo_trusted : TrustedAttributionKey :=
  {| tk_key_id := demo_key_id; tk_public_key := demo_pc;
     tk_not_before_ms := 1706745600000; tk_not_after_ms := 1709251200000 |}.

Lemma demo_text_fits : Z.of_nat (length (lit "hello")) <= MAX_PLAINTEXT.
Proof. vm_compute. discriminate. Qed.

Lemma demo_month : attribution_epoch_contains demo_key_id (1707000000 * 1000) = Ok true.
Proof. vm_compute. reflexivity. Qed.

Lemma demo_trusted_key : trusted_key_new demo_key_id demo_pc 1706745600000 1709251200000 = Ok demo_trusted.
Proof. vm_compute. reflexivity. Qed.

Lemma demo_agreement : x25519_agree (from_seed (rnd_attribution_seed demo_rnd)) demo_pc = Ok (vreplicate 32 x01).
Proof. vm_compute. reflexivity. Qed.

Lemma wrap_open_roundtrip_witness :
  (Z.of_nat (length (lit "hello")) <= MAX_PLAINTEXT /\ in_uint 64 1707000000) /\
  exists w, wrap_message demo_alice (verifying_key demo_bob) (lit "hello") 1707000000 demo_rnd = Ok w /\
    open demo_bob w = Ok (verifying_key demo_alice, lit "hello") /\ verify_public w = Ok tt /\
    Z.of_nat (length (ciphertext w)) <= MAX_ENVELOPE_CIPHERTEXT /\
    1707000000 - MAX_TIMESTAMP_JITTER_SECS <= created_at w <= 1707000000 /\ attribution w = None.
Proof.
  assert (Z.of_nat (length (lit "hello")) <= MAX_PLAINTEXT) as Hl by (vm_compute; discriminate).
  assert (in_uint 64 1707000000) as Hn by (unfold in_uint; lia).
  split; [split; [exact Hl|exact Hn]|].
  exact (wrap_open_roundtrip demo_alice demo_bob (lit "hello") 1707000000 demo_rnd Hl Hn).
Defined.

Lemma attributed_open_roundtrip_witness :
  exists w, wrap_attributed demo_alice (verifying_key demo_bob) (lit "hello") 1707000000 demo_pc demo_key_id demo_rnd = Ok w /\
    open_attributed_trusted demo_bob w (Some demo_trusted) = Ok (verifying_key demo_alice, lit "hello", Valid) /\
    open_attributed demo_bob w None = Ok (verifying_key demo_alice, lit "hello", Invalid) /\
    forall p, sha256 (vec_to_list p) <> sha256 (vec_to_list demo_pc) ->
      open_attributed demo_bob w (Some p) = Ok (verifying_key demo_alice, lit "hello", Invalid).
Proof.
  exact (attributed_open_roundtrip demo_alice demo_bob (lit "hello") 1707000000 demo_rnd demo_pc demo_key_id
    (vreplicate 32 x01) 1706745600000 1709251200000 demo_trusted demo_text_fits
    ltac:(lia) ltac:(lia) demo_month demo_trusted_key demo_agreement).
Defined.


Lemma verdict_sound_witness :
  exists w, open_attributed_inner demo_bob w (Some (tk_public_key demo_trusted)) (Some demo_trusted) =
    Ok (verifying_key demo_alice, lit "hello", Valid) /\ w_version w = ENVELOPE_VERSION.
Proof.
  destruct (attributed_opens demo_alice demo_bob (lit "hello") 1707000000 demo_rnd demo_pc demo_key_id
    (vreplicate 32 x01) 1706745600000 1709251200000 demo_trusted demo_text_fits
    ltac:(lia) ltac:(lia) demo_month demo_trusted_key demo_agreement) as (w & _ & Ho & _).
  exists w. split; [exact Ho|].
  exact (proj1 (proj2 (verdict_sound demo_bob w _ (Some demo_trusted) _ _ _ Ho) eq_refl)).
Defined.
End Demo.
