(* ===== verification/LoftConfig.v ===== *)
(** Errors and configuration of a loft: [pigeonpost-loft/src/error.rs] and [config.rs], the bounds of [wire.rs],
    and [validate_config] of [server.rs].  Every field of a configuration is bounded before anything is
    allocated from it. *)
From S2P Require Import Prelude Text B32 Network Origin.

#[global] Instance Ipv6Addr_eq_dec : EqDecision Ipv6Addr.
Proof. solve_decision. Defined.
#[global] Instance IpAddr_eq_dec : EqDecision IpAddr.
Proof. solve_decision. Defined.

#[global] Instance IpAddr_countable : Countable IpAddr.
Proof.
  refine (inj_countable'
    (fun a => match a with
              | V4 (V4Addr a b c d) => inl (a, b, c, d)
              | V6 (V6Addr v) => inr v
              end)
    (fun x => match x with
              | inl (a, b, c, d) => V4 (V4Addr a b c d)
              | inr v => V6 (V6Addr v)
              end) _).
  by intros [[] | [v]].
Defined.

Module LoftError.
Inductive LoftError :=
| Core (e : Error)
| Storage
| Serialization
| AtCapacity
| RateLimited
| Overloaded
| PolicyChanged
| AttributionRejected
| AttributionUnavailable
| TraceUnavailable
| TraceMetadata
| NotReady
| UnsupportedSchema (found supported : Z)
| Configuration (why : string)
| NotFound
| Io.
#[global] Instance LoftError_eq_dec : EqDecision LoftError.
Proof. solve_decision. Defined.
End LoftError.
Abbreviation LoftResult A := (result LoftError.LoftError A).

(** [map_err(LoftError::from)], which [?] applies to an error of the core crate. *)
Definition from_core {A} (r : result Error A) : LoftResult A :=
  match r with Ok a => Ok a | Err e => Err (LoftError.Core e) end.

(** The status code of [into_response]. *)
Definition status_code (e : LoftError.LoftError) : Z :=
  match e with
  | LoftError.Core BadSignature | LoftError.Core StaleTimestamp | LoftError.Core InvalidKey => 401
  | LoftError.Core InsufficientWork => 403
  | LoftError.Core StaleSequence => 409
  | LoftError.Core TooLarge => 413
  | LoftError.Core _ => 400
  | LoftError.AtCapacity => 507
  | LoftError.RateLimited | LoftError.Overloaded => 429
  | LoftError.PolicyChanged => 409
  | LoftError.AttributionRejected => 400
  | LoftError.AttributionUnavailable | LoftError.TraceUnavailable | LoftError.NotReady => 503
  | LoftError.NotFound => 404
  | LoftError.Storage | LoftError.Serialization | LoftError.Io | LoftError.TraceMetadata
  | LoftError.UnsupportedSchema _ _ | LoftError.Configuration _ => 500
  end.

(** * Bounds *)

Definition MAX_EVENT_BYTES : Z := 2 * 1024 * 1024.
Definition MAX_RETENTION_DAYS : Z := 3650.
Definition DEFAULT_MAX_EVENT_BYTES : Z := MAX_EVENT_BYTES.
Definition DEFAULT_MAX_REQUEST_BYTES : Z := DEFAULT_MAX_EVENT_BYTES + 64 * 1024.
Definition MAX_CAPACITY_BYTES : Z := 1024 * 1024 * 1024 * 1024 * 1024.
Definition MAX_REQUEST_BYTES : Z := DEFAULT_MAX_REQUEST_BYTES.
Definition MAX_FETCH_LIMIT : Z := 500.
Definition MAX_FETCH_RESPONSE_BYTES : Z := 8 * 1024 * 1024.
Definition MAX_RATE_LIMIT_PER_MINUTE : Z := 1000000.
Definition MAX_GLOBAL_REQUESTS_PER_MINUTE : Z := 10000000.
Definition MAX_RATE_BYTES_PER_MINUTE : Z := 1024 * 1024 * 1024 * 1024.
Definition MAX_CONCURRENT_CONNECTIONS : Z := 4096.
Definition MAX_CONCURRENT_REQUESTS : Z := 4096.
Definition MAX_BLOCKING_OPERATIONS : Z := 256.
Definition MAX_LIMITER_KEYS : Z := 65536.
Definition MAX_REQUEST_TIMEOUT_SECS : Z := 300.
Definition MAX_HEADER_TIMEOUT_SECS : Z := 300.
Definition MAX_RESPONSE_TIMEOUT_SECS : Z := 300.
Definition MAX_TRACE_TIMEOUT_MS : Z := 30000.
Definition MAX_SWEEP_BATCH : Z := 10000.
Definition MAX_SWEEP_INTERVAL_SECS : Z := 86400.
Definition MAX_TRUSTED_PROXIES : Z := 64.

Record LoftConfig := {
  lc_pubkey : arr 32;
  lc_origin : str;
  lc_capacity_bytes : Z;
  lc_retention_days : Z;
  lc_max_event_bytes : Z;
  max_request_bytes : Z;
  default_fetch_limit : Z;
  max_fetch_limit : Z;
  max_fetch_response_bytes : Z;
  rate_limit_per_minute : Z;
  global_requests_per_minute : Z;
  global_bytes_per_minute : Z;
  source_requests_per_minute : Z;
  source_bytes_per_minute : Z;
  recipient_bytes_per_minute : Z;
  max_concurrent_connections : Z;
  max_concurrent_requests : nat;
  max_blocking_operations : Z;
  max_limiter_keys : nat;
  header_timeout_secs : Z;
  request_timeout_secs : Z;
  response_timeout_secs : Z;
  trace_timeout_ms : Z;
  trusted_proxies : list IpAddr;
  sweep_batch : Z;
  sweep_interval_secs : Z;
}.

(** [LoftConfig::new] *)
Definition config_new (pubkey : arr 32) (origin : str) : LoftConfig := {|
  lc_pubkey := pubkey; lc_origin := origin;
  lc_capacity_bytes := 20 * 1024 * 1024 * 1024; lc_retention_days := 30;
  lc_max_event_bytes := DEFAULT_MAX_EVENT_BYTES; max_request_bytes := DEFAULT_MAX_REQUEST_BYTES;
  default_fetch_limit := 100; max_fetch_limit := 500; max_fetch_response_bytes := 8 * 1024 * 1024;
  rate_limit_per_minute := 120; global_requests_per_minute := 2400; global_bytes_per_minute := 128 * 1024 * 1024;
  source_requests_per_minute := 600; source_bytes_per_minute := 32 * 1024 * 1024;
  recipient_bytes_per_minute := 16 * 1024 * 1024;
  max_concurrent_connections := 256; max_concurrent_requests := 128; max_blocking_operations := 8;
  max_limiter_keys := Z.to_nat 4096;
  header_timeout_secs := 5; request_timeout_secs := 15; response_timeout_secs := 15; trace_timeout_ms := 250;
  trusted_proxies := []; sweep_batch := 500; sweep_interval_secs := 300;
|}.

(** [IpAddr::is_unspecified] and [IpAddr::is_multicast] *)
Definition ip_is_unspecified (a : IpAddr) : bool :=
  match a with
  | V4 a => (u8 (o0 a) =? 0) && (u8 (o1 a) =? 0) && (u8 (o2 a) =? 0) && (u8 (o3 a) =? 0)
  | V6 a => is_unspecified a
  end.
Definition ip_is_multicast (a : IpAddr) : bool :=
  match a with
  | V4 a => (224 <=? u8 (o0 a)) && (u8 (o0 a) <=? 239)
  | V6 a => is_multicast a
  end.

(** [0 < value && value <= maximum] of an unsigned field, as the checks write it. *)
Definition outside (maximum value : Z) : bool := (value =? 0) || (maximum <? value).

Definition saturating_mul (w a b : Z) : Z := Z.min (a * b) (2 ^ w - 1).

Section Validate.
Context {UP : UrlParser}.

Definition validate_config (config : LoftConfig) : LoftResult unit :=
  _ ← (if is_ok (validate_loft_origin (lc_origin config)) then Ok tt
       else Err (LoftError.Configuration "invalid canonical loft origin"));
  _ ← guard (outside MAX_CAPACITY_BYTES (lc_capacity_bytes config))
        (LoftError.Configuration "capacity is outside supported bounds");
  _ ← guard (outside MAX_RETENTION_DAYS (lc_retention_days config))
        (LoftError.Configuration "retention is outside supported bounds");
  let minimum_request_bytes := checked_add 64 (lc_max_event_bytes config) (64 * 1024) in
  _ ← guard (outside MAX_EVENT_BYTES (lc_max_event_bytes config)
             || (MAX_REQUEST_BYTES <? max_request_bytes config)
             || match minimum_request_bytes with Some minimum => max_request_bytes config <? minimum | None => true end)
        (LoftError.Configuration "invalid event/request body limits");
  _ ← guard ((max_fetch_limit config =? 0)
             || (default_fetch_limit config =? 0)
             || (max_fetch_limit config <? default_fetch_limit config)
             || (MAX_FETCH_LIMIT <? max_fetch_limit config)
             || (MAX_FETCH_RESPONSE_BYTES <? max_fetch_response_bytes config)
             || (max_fetch_response_bytes config <? saturating_mul 64 (lc_max_event_bytes config) 2))
        (LoftError.Configuration "invalid fetch limits");
  _ ← guard (outside MAX_RATE_LIMIT_PER_MINUTE (rate_limit_per_minute config)
             || outside MAX_GLOBAL_REQUESTS_PER_MINUTE (global_requests_per_minute config)
             || outside MAX_RATE_LIMIT_PER_MINUTE (source_requests_per_minute config)
             || outside MAX_RATE_BYTES_PER_MINUTE (global_bytes_per_minute config)
             || outside MAX_RATE_BYTES_PER_MINUTE (source_bytes_per_minute config)
             || outside MAX_RATE_BYTES_PER_MINUTE (recipient_bytes_per_minute config))
        (LoftError.Configuration "invalid request-rate limits");
  _ ← guard (outside MAX_CONCURRENT_CONNECTIONS (max_concurrent_connections config)
             || outside MAX_CONCURRENT_REQUESTS (Z.of_nat (max_concurrent_requests config))
             || outside MAX_BLOCKING_OPERATIONS (max_blocking_operations config)
             || outside MAX_LIMITER_KEYS (Z.of_nat (max_limiter_keys config)))
        (LoftError.Configuration "admission limits are outside supported bounds");
  _ ← guard (outside MAX_HEADER_TIMEOUT_SECS (header_timeout_secs config)
             || outside MAX_REQUEST_TIMEOUT_SECS (request_timeout_secs config)
             || outside MAX_RESPONSE_TIMEOUT_SECS (response_timeout_secs config)
             || outside MAX_TRACE_TIMEOUT_MS (trace_timeout_ms config)
             || (saturating_mul 64 (request_timeout_secs config) 1000 <? trace_timeout_ms config)
             || outside MAX_SWEEP_BATCH (sweep_batch config)
             || outside MAX_SWEEP_INTERVAL_SECS (sweep_interval_secs config))
        (LoftError.Configuration "timeouts and retention work limits are outside supported bounds");
  guard ((MAX_TRUSTED_PROXIES <? Z.of_nat (length (trusted_proxies config)))
         || existsb (fun address => ip_is_unspecified address || ip_is_multicast address) (trusted_proxies config))
    (LoftError.Configuration "invalid trusted proxy list").
End Validate.

Lemma from_core_Ok {A} (r : result Error A) a : from_core r = Ok a <-> r = Ok a.
Proof. destruct r; simpl; split; congruence. Qed.
