(* ===== verification/LoftPeer.v ===== *)
(** The source of a request: [resolve_peer_source] and [parse_forwarded_socket] of [pigeonpost-loft/src/server.rs].

    A request that reaches a loft through trusted proxies carries one RFC 7239 chain, of which the proxies nearest the loft
    wrote the end.  The resolved source is the one that is rate limited and sealed into a trace, so a client
    must not be able to choose it. *)
From S2P Require Import Prelude Text Network B32 Origin LoftConfig.

(** [std::net::SocketAddr]; a [V6] address has a scope identifier. *)
Record SocketAddr := { sa_ip : IpAddr; sa_port : Z; sa_scope : Z }.

(** A header value is bytes; [to_str] accepts visible ASCII and tabs. *)
Record Peer := {
  connected : option SocketAddr;
  forwarded : option bytes;
  x_forwarded_for_present : bool;
  effective_source : option SocketAddr;
}.

Definition header_to_str (value : bytes) : option str :=
  if forallb (fun b => ((32 <=? u8 b) && (u8 b <? 127)) || (u8 b =? 9)) value then Some value else None.

(** [str::trim] of an ASCII string *)
Definition is_ascii_whitespace_char (b : byte) : bool := ((9 <=? u8 b) && (u8 b <=? 13)) || (u8 b =? 32).
Fixpoint trim_start (s : str) : str :=
  match s with b :: s' => if is_ascii_whitespace_char b then trim_start s' else s | [] => [] end.
Definition trim (s : str) : str := rev (trim_start (rev (trim_start s))).

Definition is_ascii_control (b : byte) : bool := (u8 b <=? 31) || (u8 b =? 127).

(** * std's parser of socket addresses *)

Definition read_port (s : str) : option (Z * str) :=
  s ← read_given_char ":"%byte s; read_number 10 (length s) (2 ^ 16) true s.
Definition read_scope_id (s : str) : option (Z * str) :=
  s ← read_given_char "%"%byte s; read_number 10 (length s) (2 ^ 32) true s.

Definition read_socket_addr (s : str) : option (SocketAddr * str) :=
  match ('(ip, s) ← read_ipv4_addr s; '(port, s) ← read_port s; Some ({| sa_ip := V4 ip; sa_port := port; sa_scope := 0 |}, s)) with
  | Some r => Some r
  | None =>
      s ← read_given_char "["%byte s;
      '(ip, s) ← read_ipv6_addr s;
      let '(scope, s) := default (0, s) (read_scope_id s) in
      s ← read_given_char "]"%byte s;
      '(port, s) ← read_port s;
      Some ({| sa_ip := V6 ip; sa_port := port; sa_scope := scope |}, s)
  end.

Definition parse_socket_addr (s : str) : option SocketAddr :=
  match read_socket_addr s with Some (a, []) => Some a | _ => None end.

(** * The chain *)

Definition QUOTE : byte := x22.
Definition BACKSLASH : byte := x5c.

Definition parse_forwarded_socket (value : str) : LoftResult SocketAddr :=
  value ← (if starts_with [QUOTE] value && ends_with [QUOTE] value && (2 <=? length value)%nat
           then Ok (take (length value - 2) (drop 1 value))
           else if contains_byte QUOTE value then Err LoftError.TraceUnavailable
           else Ok value);
  _ ← guard ((length value =? 0)%nat || existsb (fun b => is_ascii_control b || (b ≟ BACKSLASH)) value) LoftError.TraceUnavailable;
  address ← ok_or (parse_socket_addr value) LoftError.TraceUnavailable;
  _ ← guard ((sa_port address =? 0) || ip_is_unspecified (sa_ip address) || ip_is_multicast (sa_ip address)) LoftError.TraceUnavailable;
  Ok address.

(** The loop over the parameters of an element: the value of its one [for=]. *)
Fixpoint forwarded_for (parameters : list str) (count : nat) (found : option str) : LoftResult str :=
  match parameters with
  | [] => ok_or found LoftError.TraceUnavailable
  | parameter :: parameters =>
      let count := S count in
      if (32 <? count)%nat then Err LoftError.TraceUnavailable
      else
        '(name, value) ← ok_or (split_once "="%byte (trim parameter)) LoftError.TraceUnavailable;
        if eq_ignore_ascii_case (trim name) (lit "for") then
          match found with
          | Some _ => Err LoftError.TraceUnavailable
          | None => forwarded_for parameters count (Some (trim value))
          end
        else forwarded_for parameters count found
  end.

Definition trusts (config : LoftConfig) (a : SocketAddr) : bool := existsb (fun p => p ≟ sa_ip a) (trusted_proxies config).

(** The loop over the elements, from the last. *)
Fixpoint walk (config : LoftConfig) (elements : list str) (current : SocketAddr) (consumed : bool) : LoftResult SocketAddr :=
  match elements with
  | element :: elements =>
      if negb (trusts config current) then _ ← guard (negb consumed) LoftError.TraceUnavailable; Ok current
      else
        value ← forwarded_for (split ";"%byte element) 0 None;
        current ← parse_forwarded_socket value;
        walk config elements current true
  | [] => _ ← guard (negb consumed) LoftError.TraceUnavailable; Ok current
  end.

Definition resolve_peer_source (config : LoftConfig) (peer : Peer) : LoftResult SocketAddr :=
  match effective_source peer with
  | Some source => Ok source
  | None =>
      connected ← ok_or (connected peer) LoftError.TraceUnavailable;
      if negb (trusts config connected) then Ok connected
      else
        _ ← guard (x_forwarded_for_present peer) LoftError.TraceUnavailable;
        forwarded ← ok_or (value ← forwarded peer; value ← header_to_str value;
                           if (length value <=? 4096)%nat then Some value else None) LoftError.TraceUnavailable;
        let elements := split ","%byte forwarded in
        _ ← guard ((length elements =? 0)%nat || (32 <? length elements)%nat) LoftError.TraceUnavailable;
        walk config (rev elements) connected false
  end.

(** * Lemmas *)

Lemma split_app_header c s t : split c (s ++ c :: t) = split c s ++ split c t.
Proof.
  induction s as [|b s IH]; cbn [app split]; [by rewrite bool_decide_true|].
  rewrite IH. destruct (b ≟ c); [done|]. pose proof (split_not_nil c s). by destruct (split c s).
Qed.

(** Once an untrusted source is found, what precedes it in the chain is not read. *)
Lemma walk_stops config elements current consumed source rest :
  walk config elements current consumed = Ok source -> trusts config source = false ->
  walk config (elements ++ rest) current consumed = Ok source.
Proof.
  revert current consumed. induction elements as [|e es IH]; intros current consumed; cbn [walk app].
  - intros H Ht. inv_ok. subst. destruct rest as [|e rest]; cbn [walk]; [|rewrite Ht; cbn [negb]]; by rewrite Ha.
  - destruct (negb (trusts config current)); [done|]. intros H Ht. inv_ok. rewrite Ha. cbn [mbind result_bind]. rewrite Ha0. cbn [mbind result_bind].
    by apply IH.
Qed.

Definition with_forwarded (value : bytes) (peer : Peer) : Peer :=
  {| connected := connected peer; forwarded := Some value; x_forwarded_for_present := x_forwarded_for_present peer;
     effective_source := effective_source peer |}.

(** C35: a client cannot choose the source it is limited and traced by: whatever chain of its own a request carries before the part
    the trusted proxies appended, the loft resolves the source from the proxies' part alone (as long as the whole header is
    within the size the loft reads). *)
Theorem forwarded_source_unforgeable (config : LoftConfig) (peer : Peer) (forged chain : bytes) (source : SocketAddr) :
  resolve_peer_source config (with_forwarded chain peer) = Ok source -> trusts config source = false ->
  header_to_str (forged ++ ","%byte :: chain) = Some (forged ++ ","%byte :: chain) ->
  (length (forged ++ ","%byte :: chain) <= 4096)%nat -> (length (split ","%byte (forged ++ ","%byte :: chain)) <= 32)%nat ->
  resolve_peer_source config (with_forwarded (forged ++ ","%byte :: chain) peer) = Ok source.
Proof.
  intros H Ht Hs Hl He. unfold resolve_peer_source in *. cbn [effective_source connected forwarded x_forwarded_for_present with_forwarded] in *.
  destruct (effective_source peer) as [s|]; [done|]. inv_ok. rewrite Ha. cbn [ok_or mbind result_bind].
  destruct (negb (trusts config a)); [done|]. inv_ok. rewrite Ha0. cbn [guard mbind result_bind option_bind]. rewrite Hs. cbn [mbind option_bind].
  rewrite (proj2 (Nat.leb_le _ _) Hl). cbn [ok_or mbind result_bind].
  cbn [mbind option_bind] in Ha1. destruct (header_to_str chain) as [c|] eqn:Hc; [|done]. cbn [mbind option_bind] in Ha1.
  unfold header_to_str in Hc. destruct (forallb _ chain); [|done]. injection Hc as <-. case_match; [|done]. injection Ha1 as <-.
  rewrite split_app_header in He |- *. rewrite length_app in He |- *.
  rewrite (proj2 (Nat.eqb_neq _ 0)); [|b2p; lia]. rewrite (proj2 (Nat.ltb_ge 32 _)) by lia. cbn [orb guard mbind result_bind].
  rewrite rev_app_distr. by apply walk_stops.
Qed.
