(* ===== verification/Limiter.v ===== *)
(** Request admission of a loft: [pigeonpost-loft/src/limiter.rs].

    A fixed-window bucket counts requests and bytes; keyed buckets are a bounded map of
    them; the controller charges a global, a per-source and a per-recipient budget.
    An [Instant] is a [Z] of nanoseconds, and every call of [Instant::now()] is an
    argument: two threads may read the clock in one order and take the lock in the other, so
    nothing here assumes that the times of successive calls increase.  A method that
    fails still leaves what it changed before it failed, so each returns its state beside its
    result. *)
From S2P Require Import Prelude Text Network LoftConfig.

(** * Buckets *)

Definition WINDOW : Z := 60 * 1000000000.

Record Limits := { max_requests : Z; max_bytes : Z }.
Record Bucket := { requests : Z; bucket_bytes : Z; window_start : Z }.

(** [Instant::duration_since], which saturates at zero. *)
Definition duration_since (now earlier : Z) : Z := Z.max 0 (now - earlier).

Definition fresh (now : Z) : Bucket := {| requests := 0; bucket_bytes := 0; window_start := now |}.

(** The bucket a charge counts in: a fresh one once the window is over. *)
Definition current (b : Bucket) (now : Z) : Bucket :=
  if WINDOW <=? duration_since now (window_start b) then fresh now else b.

Definition charge (b : Bucket) (now bytes : Z) (limits : Limits) : Bucket * LoftResult unit :=
  let b := current b now in
  let next_requests := saturating_add 32 (requests b) 1 in
  let next_bytes := saturating_add 64 (bucket_bytes b) bytes in
  if (negb (max_requests limits =? 0) && (max_requests limits <? next_requests))
     || (negb (max_bytes limits =? 0) && (max_bytes limits <? next_bytes))
  then (b, Err LoftError.RateLimited)
  else ({| requests := next_requests; bucket_bytes := next_bytes; window_start := window_start b |}, Ok tt).

Definition charge_bytes (b : Bucket) (now bytes limit : Z) : Bucket * LoftResult unit :=
  let b := current b now in
  let next_bytes := saturating_add 64 (bucket_bytes b) bytes in
  if negb (limit =? 0) && (limit <? next_bytes) then (b, Err LoftError.RateLimited)
  else ({| requests := requests b; bucket_bytes := next_bytes; window_start := window_start b |}, Ok tt).

(** * Keyed buckets *)

Section Keyed.
Context {K : Type} `{Countable K}.

Record KeyedBucketState := { buckets : gmap K Bucket; next_cleanup_at : option Z }.

Definition keyed_new : KeyedBucketState := {| buckets := ∅; next_cleanup_at := None |}.

Definition live (now : Z) (b : Bucket) : bool := duration_since now (window_start b) <? WINDOW.

(** [retain]: the one scan of the map. *)
Definition cleanup (st : KeyedBucketState) (now : Z) : KeyedBucketState :=
  let kept := filter (fun kb => live now kb.2 = true) (buckets st) in
  {| buckets := kept; next_cleanup_at := if decide (kept = ∅) then None else Some (now + WINDOW) |}.

Definition make_room (st : KeyedBucketState) (key : K) (max_keys : nat) (now : Z)
  : KeyedBucketState * LoftResult unit :=
  if is_some (buckets st !! key) || (size (buckets st) <? max_keys)%nat then (st, Ok tt)
  else
    let st :=
      match next_cleanup_at st with
      | Some deadline => if deadline <=? now then cleanup st now else st
      | None => st
      end in
    if (max_keys <=? size (buckets st))%nat then (st, Err LoftError.RateLimited) else (st, Ok tt).

Definition note_insert (st : KeyedBucketState) (now : Z) : KeyedBucketState :=
  let expiry := now + WINDOW in
  {| buckets := buckets st;
     next_cleanup_at := Some (match next_cleanup_at st with
                              | Some earliest => Z.min earliest expiry
                              | None => expiry
                              end) |}.

(** The part [charge] and [charge_bytes] share: room for the key, then the bucket
    operation on its entry. *)
Definition charge_entry (st : KeyedBucketState) (max_keys : nat) (key : K) (now : Z)
  (op : Bucket -> Bucket * LoftResult unit) : KeyedBucketState * LoftResult unit :=
  let inserting := negb (is_some (buckets st !! key)) in
  match make_room st key max_keys now with
  | (st, Err e) => (st, Err e)
  | (st, Ok _) =>
      let st := if inserting then note_insert st now else st in
      let '(b, r) := op (default (fresh now) (buckets st !! key)) in
      ({| buckets := <[key := b]> (buckets st); next_cleanup_at := next_cleanup_at st |}, r)
  end.

Definition keyed_charge (st : KeyedBucketState) (max_keys : nat) (key : K) (now bytes : Z) (limits : Limits)
  : KeyedBucketState * LoftResult unit :=
  if (max_requests limits =? 0) && (max_bytes limits =? 0) then (st, Ok tt)
  else if (max_keys =? 0)%nat then (st, Err LoftError.RateLimited)
  else charge_entry st max_keys key now (fun b => charge b now bytes limits).

Definition keyed_charge_bytes (st : KeyedBucketState) (max_keys : nat) (key : K) (now bytes limit : Z)
  : KeyedBucketState * LoftResult unit :=
  if limit =? 0 then (st, Ok tt)
  else if (max_keys =? 0)%nat then (st, Err LoftError.RateLimited)
  else charge_entry st max_keys key now (fun b => charge_bytes b now bytes limit).
End Keyed.
Arguments KeyedBucketState K {_ _}.

(** * The admission controller *)

(** The semaphore is its number of free permits. *)
Record AdmissionController := {
  concurrency : nat;
  global : Bucket;
  source : KeyedBucketState IpAddr;
  recipient : KeyedBucketState (arr 32);
}.

Section Controller.
Context (config : LoftConfig).

Definition global_limits : Limits :=
  {| max_requests := global_requests_per_minute config; max_bytes := global_bytes_per_minute config |}.
Definition source_limits : Limits :=
  {| max_requests := source_requests_per_minute config; max_bytes := source_bytes_per_minute config |}.
Definition recipient_limits : Limits :=
  {| max_requests := rate_limit_per_minute config; max_bytes := recipient_bytes_per_minute config |}.

Definition controller_new (now : Z) : AdmissionController :=
  {| concurrency := max_concurrent_requests config; global := fresh now;
     source := keyed_new; recipient := keyed_new |}.

Definition with_global (c : AdmissionController) (b : Bucket) : AdmissionController :=
  {| concurrency := concurrency c; global := b; source := source c; recipient := recipient c |}.
Definition with_source (c : AdmissionController) (st : KeyedBucketState IpAddr) : AdmissionController :=
  {| concurrency := concurrency c; global := global c; source := st; recipient := recipient c |}.
Definition with_recipient (c : AdmissionController) (st : KeyedBucketState (arr 32)) : AdmissionController :=
  {| concurrency := concurrency c; global := global c; source := source c; recipient := st |}.
Definition with_permits (c : AdmissionController) (n : nat) : AdmissionController :=
  {| concurrency := n; global := global c; source := source c; recipient := recipient c |}.

Definition try_enter (c : AdmissionController) : AdmissionController * LoftResult unit :=
  match concurrency c with
  | O => (c, Err LoftError.Overloaded)
  | S n => (with_permits c n, Ok tt)
  end.

(** Dropping an [AdmissionPermit]. *)
Definition leave (c : AdmissionController) : AdmissionController := with_permits c (S (concurrency c)).

Definition charge_shared (c : AdmissionController) (from : option IpAddr) (bytes : Z) (now now' : Z)
  : AdmissionController * LoftResult unit :=
  match charge (global c) now bytes global_limits with
  | (b, Err e) => (with_global c b, Err e)
  | (b, Ok _) =>
      let c := with_global c b in
      match from with
      | None => (c, Ok tt)
      | Some from =>
          let '(st, r) := keyed_charge (source c) (max_limiter_keys config) from now' bytes source_limits in
          (with_source c st, r)
      end
  end.

Definition charge_recipient (c : AdmissionController) (key : arr 32) (bytes : Z) (now : Z)
  : AdmissionController * LoftResult unit :=
  let '(st, r) := keyed_charge (recipient c) (max_limiter_keys config) key now bytes recipient_limits in
  (with_recipient c st, r).

Definition charge_egress (c : AdmissionController) (from : option IpAddr) (key : arr 32) (bytes : Z)
  (now now' now'' : Z) : AdmissionController * LoftResult unit :=
  match charge_bytes (global c) now bytes (max_bytes global_limits) with
  | (b, Err e) => (with_global c b, Err e)
  | (b, Ok _) =>
      let c := with_global c b in
      let '(c, r) :=
        match from with
        | None => (c, Ok tt)
        | Some from =>
            let '(st, r) := keyed_charge_bytes (source c) (max_limiter_keys config) from now' bytes
                              (max_bytes source_limits) in
            (with_source c st, r)
        end in
      match r with
      | Err e => (c, Err e)
      | Ok _ =>
          let '(st, r) := keyed_charge_bytes (recipient c) (max_limiter_keys config) key now'' bytes
                            (max_bytes recipient_limits) in
          (with_recipient c st, r)
      end
  end.
End Controller.

(** * Runs of the controller *)

(** A request with the clock readings of the call that serves it. *)
Inductive Request :=
| Enter
| Leave
| Shared (from : option IpAddr) (bytes now now' : Z)
| Recipient (key : arr 32) (bytes now : Z)
| Egress (from : option IpAddr) (key : arr 32) (bytes now now' now'' : Z).

Definition readings (r : Request) : list Z :=
  match r with
  | Enter | Leave => []
  | Shared _ _ now now' => [now; now']
  | Recipient _ _ now => [now]
  | Egress _ _ _ now now' now'' => [now; now'; now'']
  end.

Definition request_bytes (r : Request) : Z :=
  match r with
  | Enter | Leave => 0
  | Shared _ bytes _ _ | Recipient _ bytes _ | Egress _ _ bytes _ _ _ => bytes
  end.

Definition step (config : LoftConfig) (c : AdmissionController) (r : Request)
  : AdmissionController * LoftResult unit :=
  match r with
  | Enter => try_enter c
  | Leave => (leave c, Ok tt)
  | Shared from bytes now now' => charge_shared config c from bytes now now'
  | Recipient key bytes now => charge_recipient config c key bytes now
  | Egress from key bytes now now' now'' => charge_egress config c from key bytes now now' now''
  end.

Definition after (config : LoftConfig) : AdmissionController -> list Request -> AdmissionController :=
  foldl (fun c r => (step config c r).1).

(** What the admitted requests of a run add up to. *)
Fixpoint admitted (config : LoftConfig) (gain : Request -> Z) (c : AdmissionController) (rs : list Request) : Z :=
  match rs with
  | [] => 0
  | r :: rs =>
      (if is_ok (step config c r).2 then gain r else 0) + admitted config gain (step config c r).1 rs
  end.

(** What a request counts for on each budget, from what the two kinds of charge cost. *)
Definition global_gain (cost egress_cost : Z -> Z) (r : Request) : Z :=
  match r with Shared _ b _ _ => cost b | Egress _ _ b _ _ _ => egress_cost b | _ => 0 end.
Definition source_gain (cost egress_cost : Z -> Z) (s : IpAddr) (r : Request) : Z :=
  match r with
  | Shared (Some s') b _ _ => if s' ≟ s then cost b else 0
  | Egress (Some s') _ b _ _ _ => if s' ≟ s then egress_cost b else 0
  | _ => 0
  end.
Definition recipient_gain (cost egress_cost : Z -> Z) (k : arr 32) (r : Request) : Z :=
  match r with
  | Recipient k' b _ => if k' ≟ k then cost b else 0
  | Egress _ k' b _ _ _ => if k' ≟ k then egress_cost b else 0
  | _ => 0
  end.

Definition all_requests : Request -> Z := global_gain (fun _ => 1) (fun _ => 0).
Definition all_bytes : Request -> Z := global_gain (fun b => b) (fun b => b).
Definition source_requests : IpAddr -> Request -> Z := source_gain (fun _ => 1) (fun _ => 0).
Definition source_bytes : IpAddr -> Request -> Z := source_gain (fun b => b) (fun b => b).
Definition recipient_requests : arr 32 -> Request -> Z := recipient_gain (fun _ => 1) (fun _ => 0).
Definition recipient_bytes : arr 32 -> Request -> Z := recipient_gain (fun b => b) (fun b => b).

(** * Meters

    A bucket operation that charges the counter [f] of the bucket current at [now], at most up
    to [lim], with [cost] when it succeeds. *)
Section Meter.
Context (f : Bucket -> Z) (lim : Z) (Hfresh : forall now, f (fresh now) = 0) (Hlim : 0 <= lim).

Definition within (b : Bucket) : Prop := 0 <= f b <= lim.

Definition metered (now cost : Z) (op : Bucket -> Bucket * LoftResult unit) : Prop :=
  forall b, within b ->
    within (op b).1 /\ window_start (op b).1 = window_start (current b now) /\
    f (op b).1 = f (current b now) + if is_ok (op b).2 then cost else 0.

(** What a bucket can still admit before [t0 + WINDOW]: the rest of its window and, if
    that began before [t0], one more. *)
Definition allowance (t0 : Z) (o : option Bucket) : Z :=
  match o with
  | Some b => (if t0 <=? window_start b then lim else 2 * lim) - f b
  | None => lim
  end.

Lemma allowance_bounds t0 o : from_option within True o -> 0 <= allowance t0 o <= 2 * lim.
Proof. destruct o as [b|]; simpl; unfold within; [|lia]. destruct (t0 <=? window_start b); lia. Qed.

Lemma allowance_current t0 now b :
  within b -> t0 <= now < t0 + WINDOW ->
  within (current b now) /\ allowance t0 (Some (current b now)) <= allowance t0 (Some b).
Proof.
  unfold within, current, duration_since. intros Hb Hn.
  destruct (WINDOW <=? Z.max 0 (now - window_start b)) eqn:E; [|lia]. b2p. split; [rewrite Hfresh; lia|].
  simpl. rewrite Hfresh, (proj2 (Z.leb_le t0 now)), (proj2 (Z.leb_gt t0 (window_start b))) by (unfold WINDOW in *; lia). lia.
Qed.

Lemma metered_allowance t0 now cost op b :
  metered now cost op -> within b -> t0 <= now < t0 + WINDOW ->
  allowance t0 (Some (op b).1) + (if is_ok (op b).2 then cost else 0) <= allowance t0 (Some b).
Proof.
  intros Hop Hb Hn. destruct (Hop b Hb) as (_ & Hw & Hf). destruct (allowance_current t0 now b Hb Hn) as [_ Ha].
  simpl in *. rewrite Hw, Hf. lia.
Qed.
End Meter.

Lemma charge_metered_requests limits now bytes :
  0 < max_requests limits < 2 ^ 32 - 1 ->
  metered requests (max_requests limits) now 1 (fun b => charge b now bytes limits).
Proof.
  intros Hl b Hb. assert (within requests (max_requests limits) (current b now)) as Hc.
  { unfold within, current in *. destruct (_ <=? _); simpl; lia. }
  unfold charge. cbv zeta. set (b' := current b now) in *. unfold within, saturating_add in *.
  destruct (_ || _) eqn:E; cbn [fst snd is_ok requests window_start]; [lia|].
  apply orb_false_iff in E as [E _]. rewrite (proj2 (Z.eqb_neq _ _)) in E by lia. cbn [negb andb] in E. b2p. lia.
Qed.

Lemma charge_metered_bytes limits now bytes :
  0 < max_bytes limits < 2 ^ 64 - 1 -> 0 <= bytes ->
  metered bucket_bytes (max_bytes limits) now bytes (fun b => charge b now bytes limits).
Proof.
  intros Hl Hbytes b Hb. assert (within bucket_bytes (max_bytes limits) (current b now)) as Hc.
  { unfold within, current in *. destruct (_ <=? _); simpl; lia. }
  unfold charge. cbv zeta. set (b' := current b now) in *. unfold within, saturating_add in *.
  destruct (_ || _) eqn:E; cbn [fst snd is_ok bucket_bytes window_start]; [lia|].
  apply orb_false_iff in E as [_ E]. rewrite (proj2 (Z.eqb_neq _ _)) in E by lia. cbn [negb andb] in E. b2p. lia.
Qed.

Lemma charge_bytes_metered_requests lim limit now bytes :
  0 <= lim -> metered requests lim now 0 (fun b => charge_bytes b now bytes limit).
Proof.
  intros Hl b Hb. assert (within requests lim (current b now)) as Hc.
  { unfold within, current in *. destruct (_ <=? _); simpl; lia. }
  unfold charge_bytes. cbv zeta. destruct (_ && _); cbn [fst snd is_ok requests window_start]; (split; [exact Hc|lia]).
Qed.

Lemma charge_bytes_metered_bytes limit now bytes :
  0 < limit < 2 ^ 64 - 1 -> 0 <= bytes ->
  metered bucket_bytes limit now bytes (fun b => charge_bytes b now bytes limit).
Proof.
  intros Hl Hbytes b Hb. assert (within bucket_bytes limit (current b now)) as Hc.
  { unfold within, current in *. destruct (_ <=? _); simpl; lia. }
  unfold charge_bytes. cbv zeta. set (b' := current b now) in *. unfold within, saturating_add in *.
  destruct (_ && _) eqn:E; cbn [fst snd is_ok bucket_bytes window_start]; [lia|].
  rewrite (proj2 (Z.eqb_neq _ _)) in E by lia. cbn [negb andb] in E. b2p. lia.
Qed.

(** * Keyed buckets: room, isolation and budgets *)

Section KeyedFacts.
Context {K : Type} `{Countable K}.
Implicit Types (st : KeyedBucketState K) (k key : K).

(** A bucket of [st'] is the one [st] had; a bucket that is gone had expired. *)
Definition pruned (now : Z) (st st' : KeyedBucketState K) : Prop :=
  forall k, buckets st' !! k = buckets st !! k \/
    (buckets st' !! k = None /\ exists b, buckets st !! k = Some b /\ live now b = false).

Lemma pruned_refl now st : pruned now st st.
Proof. intros k. by left. Qed.

Lemma cleanup_pruned st now : pruned now st (cleanup st now).
Proof.
  intros k. unfold cleanup. simpl. destruct (buckets st !! k) as [b|] eqn:E.
  - destruct (live now b) eqn:El.
    + left. apply map_lookup_filter_Some. done.
    + right. split; [|by exists b]. apply map_lookup_filter_None. right. intros b' E'. simplify_eq. simpl. by rewrite El.
  - left. apply map_lookup_filter_None. by left.
Qed.

Lemma make_room_pruned st key max_keys now : pruned now st (make_room st key max_keys now).1.
Proof.
  unfold make_room. destruct (_ || _); [apply pruned_refl|]. cbv zeta. destruct (next_cleanup_at st) as [d|].
  - destruct (d <=? now); case_match; simpl; (apply cleanup_pruned || apply pruned_refl).
  - case_match; apply pruned_refl.
Qed.

Lemma pruned_size now st st' : pruned now st st' -> (size (buckets st') <= size (buckets st))%nat.
Proof.
  intros Hp. rewrite <-!size_dom. apply subseteq_size. intros k. rewrite !elem_of_dom.
  intros [b Hb]. destruct (Hp k) as [E|[E _]]; [rewrite <-E; by exists b|congruence].
Qed.

Lemma make_room_Ok st key max_keys now st' :
  make_room st key max_keys now = (st', Ok tt) ->
  is_Some (buckets st' !! key) \/ (size (buckets st') < max_keys)%nat.
Proof.
  unfold make_room. destruct (is_some (buckets st !! key)) eqn:E; cbn [orb].
  - intros [= <-]. left. destruct (buckets st !! key); [by eexists|done].
  - destruct (_ <? _)%nat eqn:El; [intros [= <-]; right; by apply Nat.ltb_lt|]. cbv zeta.
    destruct (_ <=? _)%nat eqn:Ec; [done|]. intros [= <-]. right. by apply Nat.leb_gt.
Qed.

(** The cases of a keyed charge. *)
Lemma charge_entry_cases st max_keys key now op :
  (exists st', pruned now st st' /\ charge_entry st max_keys key now op = (st', Err LoftError.RateLimited)) \/
  (exists st' d, pruned now st st' /\
     (is_Some (buckets st' !! key) \/ (size (buckets st') < max_keys)%nat) /\
     charge_entry st max_keys key now op =
       ({| buckets := <[key := (op (default (fresh now) (buckets st' !! key))).1]> (buckets st');
           next_cleanup_at := d |}, (op (default (fresh now) (buckets st' !! key))).2)).
Proof.
  unfold charge_entry. pose proof (make_room_pruned st key max_keys now) as Hp.
  destruct (make_room st key max_keys now) as [st' [[]|e]] eqn:Em.
  - right. apply make_room_Ok in Em. exists st'. cbn [fst] in Hp.
    replace (buckets (if negb (is_some (buckets st !! key)) then note_insert st' now else st')) with (buckets st')
      by (by destruct (negb _)).
    eexists. split; [exact Hp|]. split; [exact Em|]. by destruct (op _).
  - left. exists st'. split; [exact Hp|]. unfold make_room in Em. repeat case_match; by simplify_eq.
Qed.

Lemma charge_entry_size st max_keys key now op :
  (size (buckets st) <= max_keys)%nat -> (size (buckets (charge_entry st max_keys key now op).1) <= max_keys)%nat.
Proof.
  intros Hs. destruct (charge_entry_cases st max_keys key now op) as [(st' & Hp & ->)|(st' & d & Hp & Hroom & ->)];
    apply pruned_size in Hp; cbn [fst buckets]; [lia|].
  destruct (buckets st' !! key) eqn:E.
  - rewrite map_size_insert_Some by (by rewrite E). lia.
  - rewrite map_size_insert_None by done. destruct Hroom as [[? ?]|]; [done|lia].
Qed.

(** Charging a key leaves the bucket of every other, unless that one had expired. *)
Lemma charge_entry_other st max_keys key now op k :
  k <> key ->
  buckets (charge_entry st max_keys key now op).1 !! k = buckets st !! k \/
  (buckets (charge_entry st max_keys key now op).1 !! k = None /\
   exists b, buckets st !! k = Some b /\ live now b = false).
Proof.
  intros Hk. destruct (charge_entry_cases st max_keys key now op) as [(st' & Hp & ->)|(st' & d & Hp & _ & ->)];
    cbn [fst buckets]; [apply Hp|]. rewrite lookup_insert_ne by done. apply Hp.
Qed.

Section Budget.
Context (f : Bucket -> Z) (lim : Z) (Hfresh : forall now, f (fresh now) = 0) (Hlim : 0 <= lim).

Definition all_within st : Prop := map_Forall (fun _ b => within f lim b) (buckets st).

Lemma pruned_within now st st' : pruned now st st' -> all_within st -> all_within st'.
Proof.
  intros Hp Ha k b Hb. destruct (Hp k) as [E|[E _]]; [|congruence]. apply (Ha k). by rewrite <-E.
Qed.

Lemma pruned_allowance t0 now st st' k :
  pruned now st st' -> all_within st -> t0 <= now < t0 + WINDOW ->
  allowance f lim t0 (buckets st' !! k) <= allowance f lim t0 (buckets st !! k).
Proof.
  intros Hp Ha Hn. destruct (Hp k) as [-> |(-> & b & E & Hl)]; [done|].
  pose proof (Ha k b E) as [H0 H1]. rewrite E. simpl. unfold live, duration_since in Hl. b2p.
  rewrite (proj2 (Z.leb_gt t0 (window_start b))) by (unfold WINDOW in *; lia). lia.
Qed.

Lemma default_within now o : from_option (within f lim) True o -> within f lim (default (fresh now) o).
Proof. destruct o; simpl; [done|]. intros _. unfold within. rewrite Hfresh. lia. Qed.

Lemma default_allowance t0 now o :
  t0 <= now -> allowance f lim t0 (Some (default (fresh now) o)) <= allowance f lim t0 o.
Proof. intros Hn. destruct o; simpl; [lia|]. rewrite Hfresh, (proj2 (Z.leb_le t0 now)) by lia. lia. Qed.

Lemma charge_entry_within st max_keys key now cost op :
  metered f lim now cost op -> all_within st -> all_within (charge_entry st max_keys key now op).1.
Proof.
  intros Hop Ha. destruct (charge_entry_cases st max_keys key now op) as [(st' & Hp & ->)|(st' & d & Hp & _ & ->)];
    apply (pruned_within _ _ _ Hp) in Ha; [done|]. apply map_Forall_insert_2; [|done].
  apply Hop, default_within. destruct (buckets st' !! key) eqn:E; [by apply (Ha key)|done].
Qed.

(** Every key's allowance pays for what is admitted on it. *)
Lemma charge_entry_allowance t0 st max_keys key now cost op k :
  metered f lim now cost op -> all_within st -> t0 <= now < t0 + WINDOW ->
  allowance f lim t0 (buckets (charge_entry st max_keys key now op).1 !! k)
    + (if is_ok (charge_entry st max_keys key now op).2 then if key ≟ k then cost else 0 else 0)
  <= allowance f lim t0 (buckets st !! k).
Proof.
  intros Hop Ha Hn. destruct (charge_entry_cases st max_keys key now op) as [(st' & Hp & ->)|(st' & d & Hp & _ & ->)];
    pose proof (pruned_allowance t0 now st st' k Hp Ha Hn) as Hle; cbn [fst snd is_ok buckets]; [lia|].
  destruct (key ≟ k) eqn:E; b2p.
  - subst k. rewrite lookup_insert_eq. etransitivity; [|exact Hle].
    assert (within f lim (default (fresh now) (buckets st' !! key))) as Hw.
    { apply default_within. destruct (buckets st' !! key) eqn:E; [|done]. by apply (pruned_within _ _ _ Hp Ha key). }
    etransitivity; [apply (metered_allowance f lim Hfresh Hlim t0 now cost op _ Hop Hw Hn)|].
    apply default_allowance. lia.
  - rewrite lookup_insert_ne by done. destruct (is_ok _); lia.
Qed.
End Budget.
End KeyedFacts.

(** * Tariffs: what the two kinds of charge cost in one counter *)

Record Tariff (f : Bucket -> Z) (lim : Z) (limits : Limits) (cost egress_cost : Z -> Z) : Prop := {
  tf_fresh : forall now, f (fresh now) = 0;
  tf_lim : 0 <= lim;
  tf_cost : forall bytes, 0 <= bytes -> 0 <= cost bytes /\ 0 <= egress_cost bytes;
  tf_charge : forall now bytes, 0 <= bytes -> metered f lim now (cost bytes) (fun b => charge b now bytes limits);
  tf_egress : forall now bytes, 0 <= bytes ->
    metered f lim now (egress_cost bytes) (fun b => charge_bytes b now bytes (max_bytes limits));
  tf_on : (max_requests limits =? 0) && (max_bytes limits =? 0) = false;
  tf_egress_on : (max_bytes limits =? 0) = true -> forall bytes, egress_cost bytes = 0;
}.

Lemma requests_tariff limits :
  0 < max_requests limits < 2 ^ 32 - 1 -> Tariff requests (max_requests limits) limits (fun _ => 1) (fun _ => 0).
Proof.
  intros Hl. split; [done|lia|lia| | | |done].
  - intros now bytes _. by apply charge_metered_requests.
  - intros now bytes _. apply charge_bytes_metered_requests. lia.
  - by rewrite (proj2 (Z.eqb_neq _ _)) by lia.
Qed.

Lemma bytes_tariff limits :
  0 < max_bytes limits < 2 ^ 64 - 1 -> Tariff bucket_bytes (max_bytes limits) limits (fun b => b) (fun b => b).
Proof.
  intros Hl. assert ((max_bytes limits =? 0) = false) as E by (apply Z.eqb_neq; lia). split; [done|lia|lia| | | |].
  - intros now bytes Hb. by apply charge_metered_bytes.
  - intros now bytes Hb. by apply charge_bytes_metered_bytes.
  - rewrite E. apply andb_false_r.
  - congruence.
Qed.

Section KeyedTariff.
Context {K : Type} `{Countable K} {f lim limits cost egress_cost} (T : Tariff f lim limits cost egress_cost).

Lemma keyed_charge_within st max_keys (key : K) now bytes :
  0 <= bytes -> all_within f lim st -> all_within f lim (keyed_charge st max_keys key now bytes limits).1.
Proof.
  intros Hb Ha. unfold keyed_charge. rewrite (tf_on _ _ _ _ _ T). destruct (_ =? _)%nat; [done|].
  apply (charge_entry_within f lim (tf_fresh _ _ _ _ _ T) (tf_lim _ _ _ _ _ T) _ _ _ _ (cost bytes)); [|done].
  by apply T.
Qed.

Lemma keyed_charge_bytes_within st max_keys (key : K) now bytes :
  0 <= bytes -> all_within f lim st -> all_within f lim (keyed_charge_bytes st max_keys key now bytes (max_bytes limits)).1.
Proof.
  intros Hb Ha. unfold keyed_charge_bytes. destruct (_ =? _); [done|]. destruct (_ =? _)%nat; [done|].
  apply (charge_entry_within f lim (tf_fresh _ _ _ _ _ T) (tf_lim _ _ _ _ _ T) _ _ _ _ (egress_cost bytes)); [|done].
  by apply T.
Qed.

Lemma keyed_charge_allowance t0 st max_keys (key : K) now bytes k :
  0 <= bytes -> all_within f lim st -> t0 <= now < t0 + WINDOW ->
  allowance f lim t0 (buckets (keyed_charge st max_keys key now bytes limits).1 !! k)
    + (if is_ok (keyed_charge st max_keys key now bytes limits).2 then if key ≟ k then cost bytes else 0 else 0)
  <= allowance f lim t0 (buckets st !! k).
Proof.
  intros Hb Ha Hn. unfold keyed_charge. rewrite (tf_on _ _ _ _ _ T). destruct (_ =? _)%nat; [cbn [fst snd is_ok]; lia|].
  apply (charge_entry_allowance f lim (tf_fresh _ _ _ _ _ T) (tf_lim _ _ _ _ _ T)); [|done..]. by apply T.
Qed.

Lemma keyed_charge_bytes_allowance t0 st max_keys (key : K) now bytes k :
  0 <= bytes -> all_within f lim st -> t0 <= now < t0 + WINDOW ->
  allowance f lim t0 (buckets (keyed_charge_bytes st max_keys key now bytes (max_bytes limits)).1 !! k)
    + (if is_ok (keyed_charge_bytes st max_keys key now bytes (max_bytes limits)).2
       then if key ≟ k then egress_cost bytes else 0 else 0)
  <= allowance f lim t0 (buckets st !! k).
Proof.
  intros Hb Ha Hn. unfold keyed_charge_bytes. destruct (max_bytes limits =? 0) eqn:E.
  { cbn [fst snd is_ok]. rewrite (tf_egress_on _ _ _ _ _ T E). destruct (key ≟ k); lia. }
  destruct (_ =? _)%nat; [cbn [fst snd is_ok]; lia|].
  apply (charge_entry_allowance f lim (tf_fresh _ _ _ _ _ T) (tf_lim _ _ _ _ _ T)); [|done..]. by apply T.
Qed.
End KeyedTariff.

(** * The controller's budgets *)

Definition in_burst (t0 : Z) (r : Request) : Prop := Forall (fun t => t0 <= t < t0 + WINDOW) (readings r).

(** A potential that pays for every admission bounds what a run admits. *)
Lemma admitted_le config gain (I : AdmissionController -> Prop) (Φ : AdmissionController -> Z) (P : Request -> Prop) c rs :
  (forall c r, I c -> P r ->
     I (step config c r).1 /\ Φ (step config c r).1 + (if is_ok (step config c r).2 then gain r else 0) <= Φ c) ->
  I c -> Forall P rs -> I (after config c rs) /\ admitted config gain c rs + Φ (after config c rs) <= Φ c.
Proof.
  intros Hstep. revert c. induction rs as [|r rs IH]; intros c Hc Hrs; [simpl; split; [done|lia]|].
  apply Forall_cons in Hrs as [Hr Hrs]. destruct (Hstep c r Hc Hr) as [Hc' Hle].
  destruct (IH _ Hc' Hrs) as [Hi Ha]. cbn [admitted after foldl]. split; [exact Hi|].
  change (foldl _ _ rs) with (after config (step config c r).1 rs). lia.
Qed.

Lemma after_inv config (I : AdmissionController -> Prop) (P : Request -> Prop) c rs :
  (forall c r, I c -> P r -> I (step config c r).1) -> I c -> Forall P rs -> I (after config c rs).
Proof.
  intros Hstep. revert c. induction rs as [|r rs IH]; intros c Hc Hrs; [done|].
  apply Forall_cons in Hrs as [Hr Hrs]. apply IH; [|done]. by apply Hstep.
Qed.

(** Case analysis on the bucket operations a step performs, keeping what each guarantees. *)
Ltac ops :=
    repeat match goal with
    | |- context [charge ?b ?t ?x ?l] => let e := fresh "op" in destruct (charge b t x l) as [? [[]|?]] eqn:e
    | |- context [charge_bytes ?b ?t ?x ?l] => let e := fresh "op" in destruct (charge_bytes b t x l) as [? [[]|?]] eqn:e
    | |- context [keyed_charge ?s ?m ?k ?t ?x ?l] =>
        let e := fresh "op" in destruct (keyed_charge s m k t x l) as [? [[]|?]] eqn:e
    | |- context [keyed_charge_bytes ?s ?m ?k ?t ?x ?l] =>
        let e := fresh "op" in destruct (keyed_charge_bytes s m k t x l) as [? [[]|?]] eqn:e
    end.

Section Budgets.
Context (config : LoftConfig).

Section GlobalBudget.
Context {f lim cost egress_cost} (T : Tariff f lim (global_limits config) cost egress_cost).

Lemma global_step t0 c r :
  0 <= request_bytes r -> within f lim (global c) ->
  within f lim (global (step config c r).1) /\
  (in_burst t0 r ->
   allowance f lim t0 (Some (global (step config c r).1))
     + (if is_ok (step config c r).2 then global_gain cost egress_cost r else 0)
   <= allowance f lim t0 (Some (global c))).
Proof.
  intros Hb Hw. pose proof (tf_cost _ _ _ _ _ T _ Hb) as [Hc He].
  assert (forall now cost op, metered f lim now cost op ->
    within f lim (op (global c)).1 /\
    (t0 <= now < t0 + WINDOW ->
     allowance f lim t0 (Some (op (global c)).1) + (if is_ok (op (global c)).2 then cost else 0)
     <= allowance f lim t0 (Some (global c)))) as Hmet.
  { intros now co op Hop. split; [by apply Hop|]. intros Hn.
    apply (metered_allowance f lim (tf_fresh _ _ _ _ _ T) (tf_lim _ _ _ _ _ T) t0 now); done. }
  assert (forall now, in_burst t0 r -> readings r = now :: tail (readings r) -> t0 <= now < t0 + WINDOW) as Hin.
  { intros now Hi E. unfold in_burst in Hi. rewrite E in Hi. by apply Forall_cons in Hi as [? _]. }
  destruct r as [| |s bytes now now'|k bytes now|s k bytes now now' now'']; cbn [step request_bytes] in *.
  - unfold try_enter. destruct (concurrency c); cbn; split; [done|lia|done|lia].
  - cbn. split; [done|lia].
  - destruct (Hmet now (cost bytes) _ (tf_charge _ _ _ _ _ T now bytes Hb)) as [Hm1 Hm2].
    unfold charge_shared. destruct s; ops; cbn [fst snd is_ok global with_global with_source global_gain] in *;
      (split; [done|]; intros Hi; specialize (Hm2 (Hin now Hi eq_refl)); lia).
  - unfold charge_recipient. ops; cbn; (split; [done|lia]).
  - destruct (Hmet now (egress_cost bytes) _ (tf_egress _ _ _ _ _ T now bytes Hb)) as [Hm1 Hm2].
    unfold charge_egress. destruct s; ops;
      cbn [fst snd is_ok global with_global with_source with_recipient global_gain] in *;
      (split; [done|]; intros Hi; specialize (Hm2 (Hin now Hi eq_refl)); lia).
Qed.
End GlobalBudget.

Section SourceBudget.
Context {f lim cost egress_cost} (T : Tariff f lim (source_limits config) cost egress_cost).

Lemma source_step t0 s c r :
  0 <= request_bytes r -> all_within f lim (source c) ->
  all_within f lim (source (step config c r).1) /\
  (in_burst t0 r ->
   allowance f lim t0 (buckets (source (step config c r).1) !! s)
     + (if is_ok (step config c r).2 then source_gain cost egress_cost s r else 0)
   <= allowance f lim t0 (buckets (source c) !! s)).
Proof.
  intros Hb Hw. pose proof (tf_cost _ _ _ _ _ T _ Hb) as [Hc He]. unfold in_burst.
  destruct r as [| |[s'|] bytes now now'|k bytes now|[s'|] k bytes now now' now'']; cbn [step request_bytes readings] in *.
  - unfold try_enter. destruct (concurrency c); cbn; split; [done|lia|done|lia].
  - cbn. split; [done|lia].
  - unfold charge_shared. pose proof (keyed_charge_within T (source c) (max_limiter_keys config) s' now' bytes Hb Hw) as H1.
    pose proof (keyed_charge_allowance T t0 (source c) (max_limiter_keys config) s' now' bytes s Hb Hw) as H2.
    ops; cbn [fst snd is_ok source with_global with_source source_gain] in *; rewrite ?op0 in *;
      cbn [fst snd is_ok] in *; (split; [done|]; intros Hi; repeat (apply Forall_cons in Hi as [? Hi]); try specialize (H2 ltac:(assumption)); lia).
  - unfold charge_shared. ops; cbn; (split; [done|lia]).
  - unfold charge_recipient. ops; cbn; (split; [done|lia]).
  - unfold charge_egress.
    pose proof (keyed_charge_bytes_within T (source c) (max_limiter_keys config) s' now' bytes Hb Hw) as H1.
    pose proof (keyed_charge_bytes_allowance T t0 (source c) (max_limiter_keys config) s' now' bytes s Hb Hw) as H2.
    ops; cbn [fst snd is_ok source recipient with_global with_source with_recipient source_gain] in *; rewrite ?op0 in *;
      cbn [fst snd is_ok] in *;
      (split; [done|]; intros Hi; repeat (apply Forall_cons in Hi as [? Hi]); try specialize (H2 ltac:(assumption));
       try destruct (s' ≟ s); lia).
  - unfold charge_egress. ops; cbn; (split; [done|lia]).
Qed.
End SourceBudget.

Section RecipientBudget.
Context {f lim cost egress_cost} (T : Tariff f lim (recipient_limits config) cost egress_cost).

Lemma recipient_step t0 k c r :
  0 <= request_bytes r -> all_within f lim (recipient c) ->
  all_within f lim (recipient (step config c r).1) /\
  (in_burst t0 r ->
   allowance f lim t0 (buckets (recipient (step config c r).1) !! k)
     + (if is_ok (step config c r).2 then recipient_gain cost egress_cost k r else 0)
   <= allowance f lim t0 (buckets (recipient c) !! k)).
Proof.
  intros Hb Hw. unfold in_burst.
  destruct r as [| |s' bytes now now'|k' bytes now|s' k' bytes now now' now'']; cbn [step request_bytes readings] in *.
  - unfold try_enter. destruct (concurrency c); cbn; split; [done|lia|done|lia].
  - cbn. split; [done|lia].
  - unfold charge_shared. destruct s'; ops; cbn; (split; [done|lia]).
  - unfold charge_recipient.
    pose proof (keyed_charge_within T (recipient c) (max_limiter_keys config) k' now bytes Hb Hw) as H1.
    pose proof (keyed_charge_allowance T t0 (recipient c) (max_limiter_keys config) k' now bytes k Hb Hw) as H2.
    ops; cbn [fst snd is_ok recipient with_recipient recipient_gain] in *;
      (split; [done|]; intros Hi; repeat (apply Forall_cons in Hi as [? Hi]); specialize (H2 ltac:(assumption)); lia).
  - unfold charge_egress.
    pose proof (keyed_charge_bytes_within T (recipient c) (max_limiter_keys config) k' now'' bytes Hb Hw) as H1.
    pose proof (keyed_charge_bytes_allowance T t0 (recipient c) (max_limiter_keys config) k' now'' bytes k Hb Hw) as H2.
    destruct s'; ops; cbn [fst snd is_ok source recipient with_global with_source with_recipient recipient_gain] in *;
      rewrite ?op0, ?op1 in *; cbn [fst snd is_ok] in *;
      (split; [done|]; intros Hi; repeat (apply Forall_cons in Hi as [? Hi]); try specialize (H2 ltac:(assumption)); lia).
Qed.
End RecipientBudget.
End Budgets.

(** A budget that every step pays for: what a burst admits after any history. *)
Lemma burst_bound config gain t0 lim (I : AdmissionController -> Prop) (Φ : AdmissionController -> Z) c history burst :
  (forall c r, 0 <= request_bytes r -> I c ->
     I (step config c r).1 /\
     (in_burst t0 r -> Φ (step config c r).1 + (if is_ok (step config c r).2 then gain r else 0) <= Φ c)) ->
  (forall c, I c -> 0 <= Φ c <= 2 * lim) -> I c ->
  Forall (fun r => 0 <= request_bytes r) (history ++ burst) -> Forall (in_burst t0) burst ->
  admitted config gain (after config c history) burst <= 2 * lim.
Proof.
  intros Hstep HΦ Hc Hb Hin. apply Forall_app in Hb as [Hh Hb].
  assert (I (after config c history)) as Hi.
  { apply (after_inv config I (fun r => 0 <= request_bytes r)); [|done..]. intros c' r Hc' Hr. by apply Hstep. }
  destruct (admitted_le config gain I Φ (fun r => 0 <= request_bytes r /\ in_burst t0 r) (after config c history) burst)
    as [Hi' Hle]; [|done|by apply Forall_and|].
  - intros c' r Hc' [Hr Ht]. destruct (Hstep c' r Hr Hc') as [? Hs]. split; [done|]. by apply Hs.
  - pose proof (HΦ _ Hi). pose proof (HΦ _ Hi'). lia.
Qed.

Lemma all_within_allowance {K} `{Countable K} f lim t0 (st : KeyedBucketState K) k :
  0 <= lim -> all_within f lim st -> 0 <= allowance f lim t0 (buckets st !! k) <= 2 * lim.
Proof.
  intros Hl Ha. apply allowance_bounds; [done|]. destruct (buckets st !! k) eqn:E; [by apply (Ha k)|done].
Qed.

Section Bursts.
Context (config : LoftConfig) (start t0 : Z) (history burst : list Request)
  (Hbytes : Forall (fun r => 0 <= request_bytes r) (history ++ burst)) (Hburst : Forall (in_burst t0) burst).

Let c := after config (controller_new config start) history.

Lemma global_burst f lim cost egress_cost :
  Tariff f lim (global_limits config) cost egress_cost -> admitted config (global_gain cost egress_cost) c burst <= 2 * lim.
Proof.
  intros T. pose proof (tf_lim _ _ _ _ _ T) as Hl. apply (burst_bound config _ t0 lim
    (fun c => within f lim (global c)) (fun c => allowance f lim t0 (Some (global c)))); [| | |done..].
  - intros c' r Hr Hc. by apply (global_step config T).
  - intros c' Hc. by apply (allowance_bounds f lim Hl).
  - unfold within. simpl. rewrite (tf_fresh _ _ _ _ _ T). lia.
Qed.

Lemma source_burst f lim cost egress_cost s :
  Tariff f lim (source_limits config) cost egress_cost -> admitted config (source_gain cost egress_cost s) c burst <= 2 * lim.
Proof.
  intros T. pose proof (tf_lim _ _ _ _ _ T) as Hl. apply (burst_bound config _ t0 lim
    (fun c => all_within f lim (source c)) (fun c => allowance f lim t0 (buckets (source c) !! s))); [| | |done..].
  - intros c' r Hr Hc. by apply (source_step config T).
  - intros c' Hc. by apply all_within_allowance.
  - apply map_Forall_empty.
Qed.

Lemma recipient_burst f lim cost egress_cost k :
  Tariff f lim (recipient_limits config) cost egress_cost ->
  admitted config (recipient_gain cost egress_cost k) c burst <= 2 * lim.
Proof.
  intros T. pose proof (tf_lim _ _ _ _ _ T) as Hl. apply (burst_bound config _ t0 lim
    (fun c => all_within f lim (recipient c)) (fun c => allowance f lim t0 (buckets (recipient c) !! k))); [| | |done..].
  - intros c' r Hr Hc. by apply (recipient_step config T).
  - intros c' Hc. by apply all_within_allowance.
  - apply map_Forall_empty.
Qed.

(** C31: no traffic pattern beats the budgets: within any sixty seconds, after any history, by any number of
    sources and recipients and with clock readings in any order, the requests admitted are at most twice
    the per-minute limit of the loft, of each source and of each recipient, and so are the
    bytes admitted in and out (twice, since a window may end and another begin in between).  A limit of
    zero is off, and one equal to the largest integer of its type never rejects. *)
Theorem admission_bounded :
  (0 < global_requests_per_minute config < 2 ^ 32 - 1 ->
     admitted config all_requests c burst <= 2 * global_requests_per_minute config) /\
  (0 < source_requests_per_minute config < 2 ^ 32 - 1 ->
     forall s, admitted config (source_requests s) c burst <= 2 * source_requests_per_minute config) /\
  (0 < rate_limit_per_minute config < 2 ^ 32 - 1 ->
     forall k, admitted config (recipient_requests k) c burst <= 2 * rate_limit_per_minute config) /\
  (0 < global_bytes_per_minute config < 2 ^ 64 - 1 ->
     admitted config all_bytes c burst <= 2 * global_bytes_per_minute config) /\
  (0 < source_bytes_per_minute config < 2 ^ 64 - 1 ->
     forall s, admitted config (source_bytes s) c burst <= 2 * source_bytes_per_minute config) /\
  (0 < recipient_bytes_per_minute config < 2 ^ 64 - 1 ->
     forall k, admitted config (recipient_bytes k) c burst <= 2 * recipient_bytes_per_minute config).
Proof.
  split_and!; intros Hl; intros.
  - apply (global_burst requests), (requests_tariff (global_limits config)), Hl.
  - apply (source_burst requests), (requests_tariff (source_limits config)), Hl.
  - apply (recipient_burst requests), (requests_tariff (recipient_limits config)), Hl.
  - apply (global_burst bucket_bytes), (bytes_tariff (global_limits config)), Hl.
  - apply (source_burst bucket_bytes), (bytes_tariff (source_limits config)), Hl.
  - apply (recipient_burst bucket_bytes), (bytes_tariff (recipient_limits config)), Hl.
Qed.
End Bursts.

(** * Bounded state *)

(** Requests in flight: entered and not yet left. *)
Definition in_flight (r : Request) : Z := match r with Enter => 1 | Leave => -1 | _ => 0 end.

Lemma keyed_charge_size {K} `{Countable K} (st : KeyedBucketState K) max_keys key now bytes limits :
  (size (buckets st) <= max_keys)%nat -> (size (buckets (keyed_charge st max_keys key now bytes limits).1) <= max_keys)%nat.
Proof.
  intros Hs. unfold keyed_charge. destruct (_ && _); [done|]. destruct (_ =? _)%nat; [done|]. by apply charge_entry_size.
Qed.

Lemma keyed_charge_bytes_size {K} `{Countable K} (st : KeyedBucketState K) max_keys key now bytes limit :
  (size (buckets st) <= max_keys)%nat ->
  (size (buckets (keyed_charge_bytes st max_keys key now bytes limit).1) <= max_keys)%nat.
Proof.
  intros Hs. unfold keyed_charge_bytes. destruct (_ =? _); [done|]. destruct (_ =? _)%nat; [done|]. by apply charge_entry_size.
Qed.

Section Bounded.
Context (config : LoftConfig).

Definition bounded (c : AdmissionController) : Prop :=
  (size (buckets (source c)) <= max_limiter_keys config)%nat /\
  (size (buckets (recipient c)) <= max_limiter_keys config)%nat.

Lemma step_bounded c r : bounded c -> bounded (step config c r).1.
Proof.
  intros [Hs Hr].
  assert (forall st key now bytes limits, (size (buckets st) <= max_limiter_keys config)%nat ->
    (size (buckets (keyed_charge (K := IpAddr) st (max_limiter_keys config) key now bytes limits).1) <= max_limiter_keys config)%nat)
    as A1 by (intros; by apply keyed_charge_size).
  assert (forall st key now bytes limits, (size (buckets st) <= max_limiter_keys config)%nat ->
    (size (buckets (keyed_charge (K := arr 32) st (max_limiter_keys config) key now bytes limits).1) <= max_limiter_keys config)%nat)
    as A2 by (intros; by apply keyed_charge_size).
  assert (forall st key now bytes limit, (size (buckets st) <= max_limiter_keys config)%nat ->
    (size (buckets (keyed_charge_bytes (K := IpAddr) st (max_limiter_keys config) key now bytes limit).1) <= max_limiter_keys config)%nat)
    as A3 by (intros; by apply keyed_charge_bytes_size).
  assert (forall st key now bytes limit, (size (buckets st) <= max_limiter_keys config)%nat ->
    (size (buckets (keyed_charge_bytes (K := arr 32) st (max_limiter_keys config) key now bytes limit).1) <= max_limiter_keys config)%nat)
    as A4 by (intros; by apply keyed_charge_bytes_size).
  unfold bounded. destruct r as [| |s bytes now now'|k bytes now|s k bytes now now' now'']; cbn [step].
  - unfold try_enter. by destruct (concurrency c).
  - done.
  - unfold charge_shared. destruct (charge _ _ _ _) as [b [u|e]]; [|done]. destruct s as [s|]; [|done].
    specialize (A1 (source c) s now' bytes (source_limits config) Hs). cbn [source with_global].
    destruct (keyed_charge _ _ _ _ _ _) as [st res]. done.
  - unfold charge_recipient. specialize (A2 (recipient c) k now bytes (recipient_limits config) Hr).
    destruct (keyed_charge _ _ _ _ _ _) as [st res]. done.
  - unfold charge_egress. destruct (charge_bytes _ _ _ _) as [b [u|e]]; [|done].
    specialize (A4 (recipient c) k now'' bytes (max_bytes (recipient_limits config)) Hr).
    destruct s as [s|]; cbn [source recipient with_global].
    + specialize (A3 (source c) s now' bytes (max_bytes (source_limits config)) Hs).
      destruct (keyed_charge_bytes (source c) _ _ _ _ _) as [st [u'|e]]; [|done]. cbn [recipient with_source with_global].
      destruct (keyed_charge_bytes (recipient c) _ _ _ _ _) as [st' res]. done.
    + destruct (keyed_charge_bytes (recipient c) _ _ _ _ _) as [st' res]. done.
Qed.

Lemma step_permits c r :
  Z.of_nat (concurrency (step config c r).1) + (if is_ok (step config c r).2 then in_flight r else 0)
  = Z.of_nat (concurrency c).
Proof.
  destruct r as [| |s bytes now now'|k bytes now|s k bytes now now' now'']; cbn [step in_flight].
  - unfold try_enter. destruct (concurrency c) eqn:E; cbn; lia.
  - cbn. lia.
  - unfold charge_shared. destruct s; ops; cbn; lia.
  - unfold charge_recipient. ops; cbn; lia.
  - unfold charge_egress. destruct s; ops; cbn; lia.
Qed.

Lemma permits_run c rs :
  Z.of_nat (concurrency (after config c rs)) + admitted config in_flight c rs = Z.of_nat (concurrency c).
Proof.
  revert c. induction rs as [|r rs IH]; intros c; [simpl; lia|]. cbn [after foldl admitted].
  change (foldl _ _ rs) with (after config (step config c r).1 rs).
  pose proof (IH (step config c r).1). pose proof (step_permits c r). lia.
Qed.

(** Memory and work are bounded whatever arrives: neither keyed map ever holds more buckets than
    configured, and the requests in flight never exceed the configured permits. *)
Theorem limiter_state_bounded (start : Z) (rs : list Request) :
  let c := after config (controller_new config start) rs in
  (size (buckets (source c)) <= max_limiter_keys config)%nat /\
  (size (buckets (recipient c)) <= max_limiter_keys config)%nat /\
  admitted config in_flight (controller_new config start) rs + Z.of_nat (concurrency c)
    = Z.of_nat (max_concurrent_requests config).
Proof.
  cbv zeta. assert (bounded (after config (controller_new config start) rs)) as [Hs Hr].
  { apply (after_inv config bounded (fun _ => True)); [intros; by apply step_bounded| |by apply Forall_true].
    split; simpl; rewrite map_size_empty; lia. }
  split_and!; [done|done|]. rewrite Z.add_comm. apply (permits_run (controller_new config start)).
Qed.
End Bounded.

(** Keys do not share a budget: charging one key leaves the bucket in which any other key's next request
      counts as it was, and where the map was tidied, only expired buckets went, which count as fresh. *)
Theorem keyed_isolation {K} `{Countable K} (st : KeyedBucketState K) (max_keys : nat) (key k : K) (now t bytes : Z)
  (limits : Limits) :
  k <> key -> now <= t ->
  current (default (fresh t) (buckets (keyed_charge st max_keys key now bytes limits).1 !! k)) t =
  current (default (fresh t) (buckets st !! k)) t.
Proof.
  intros Hk Ht. unfold keyed_charge. destruct (_ && _); [done|]. destruct (_ =? _)%nat; [done|].
  destruct (charge_entry_other st max_keys key now (fun b => charge b now bytes limits) k Hk) as [-> |(-> & b & -> & Hl)]; [done|].
  unfold live, duration_since in Hl. b2p. unfold current, duration_since. simpl.
  rewrite (proj2 (Z.leb_gt _ _)), (proj2 (Z.leb_le _ _)) by (unfold WINDOW in *; lia). done.
Qed.

Lemma keyed_isolation_witness :
  1%nat <> 0%nat /\ 5 <= 7 /\
  current (default (fresh 7) (buckets (keyed_charge (K := nat) keyed_new 4 0%nat 5 10
    {| max_requests := 2; max_bytes := 0 |}).1 !! 1%nat)) 7 = fresh 7.
Proof.
  assert (1%nat <> 0%nat) as Hk by lia. assert (5 <= 7) as Ht by lia. split; [exact Hk|split; [exact Ht|]].
  rewrite (keyed_isolation (K := nat) keyed_new 4 0%nat 1%nat 5 7 10 {| max_requests := 2; max_bytes := 0 |} Hk Ht). reflexivity.
Defined.

(** * Recovery *)

(** Nothing in the state is later than [T]: no bucket's window starts after it, and a map with
    buckets is due for its scan a window later at the latest. *)
Definition timely {K} `{Countable K} (T : Z) (st : KeyedBucketState K) : Prop :=
  map_Forall (fun _ b => window_start b <= T) (buckets st) /\
  (buckets st <> ∅ -> exists d, next_cleanup_at st = Some d /\ d <= T + WINDOW).

Section Timely.
Context {K : Type} `{Countable K}.
Implicit Types (st : KeyedBucketState K).

Lemma cleanup_timely T st now : now <= T -> timely T st -> timely T (cleanup st now).
Proof.
  intros Hn [Hw Hd]. unfold cleanup. split; simpl.
  - intros k b Hb. apply map_lookup_filter_Some in Hb as [Hb _]. by apply (Hw k).
  - intros Hne. rewrite decide_False by done. eexists. split; [done|lia].
Qed.

Lemma make_room_timely T st key max_keys now : now <= T -> timely T st -> timely T (make_room st key max_keys now).1.
Proof.
  intros Hn Ht. unfold make_room. destruct (_ || _); [done|]. cbv zeta. destruct (next_cleanup_at st) as [d|].
  - destruct (d <=? now); destruct (_ <=? _)%nat; cbn [fst]; try done; by apply cleanup_timely.
  - by destruct (_ <=? _)%nat.
Qed.

Lemma make_room_present st key max_keys now b :
  buckets st !! key = Some b -> make_room st key max_keys now = (st, Ok tt).
Proof. intros E. unfold make_room. by rewrite E. Qed.

Lemma charge_entry_timely T st max_keys key now op :
  now <= T -> (forall b, window_start b <= T -> window_start (op b).1 <= T) ->
  timely T st -> timely T (charge_entry st max_keys key now op).1.
Proof.
  intros Hn Hop Ht. unfold charge_entry. destruct (buckets st !! key) as [b|] eqn:E; cbn [is_some negb].
  - rewrite (make_room_present st key max_keys now b E), E. cbn [default from_option id].
    pose proof (Hop b (proj1 Ht key b E)) as Hb. destruct (op b) as [b' r]. split; cbn [buckets next_cleanup_at fst].
    + apply map_Forall_insert_2; [done|apply Ht].
    + intros _. apply Ht. intros He. by rewrite He, lookup_empty in E.
  - pose proof (make_room_timely T st key max_keys now Hn Ht) as Hm.
    destruct (make_room st key max_keys now) as [st' [[]|e]]; [|done]. cbn [fst buckets note_insert next_cleanup_at] in *.
    pose proof (Hop (default (fresh now) (buckets st' !! key))) as Ho.
    destruct (op _) as [b' r]. split; cbn [buckets next_cleanup_at fst] in *.
    + apply map_Forall_insert_2; [|apply Hm]. apply Ho.
      destruct (buckets st' !! key) eqn:E'; simpl; [by apply (proj1 Hm key)|lia].
    + intros _. destruct (next_cleanup_at st') as [d|]; eexists; (split; [done|lia]).
Qed.

(** A window after everything happened there is room for any key, in a fresh bucket. *)
Lemma recovered_entry T st max_keys key now op :
  timely T st -> T + WINDOW <= now -> (0 < max_keys)%nat ->
  (forall b, current b now = fresh now -> (op b).2 = Ok tt) ->
  (charge_entry st max_keys key now op).2 = Ok tt.
Proof.
  intros [Hw Hd] Hn Hk Hop.
  assert (forall b, window_start b <= T -> current b now = fresh now) as Hexp.
  { intros b Hb. unfold current, duration_since. by rewrite (proj2 (Z.leb_le _ _)) by lia. }
  assert (current (fresh now) now = fresh now) as Hf by (unfold current; by case_match).
  unfold charge_entry. destruct (buckets st !! key) as [b|] eqn:E; cbn [is_some negb].
  - rewrite (make_room_present st key max_keys now b E), E. cbn [default from_option id].
    pose proof (Hop b (Hexp b (Hw key b E))) as Ho. by destruct (op b).
  - assert (exists st', make_room st key max_keys now = (st', Ok tt) /\ pruned now st st') as (st' & -> & Hp).
    { exists (make_room st key max_keys now).1. split; [|apply make_room_pruned]. unfold make_room. rewrite E. cbn [is_some orb].
      destruct (size (buckets st) <? max_keys)%nat eqn:Es; [done|]. b2p. cbv zeta.
      destruct Hd as (d & -> & Hd); [intros He; rewrite He, map_size_empty in Es; lia|].
      rewrite (proj2 (Z.leb_le d now)) by lia.
      replace (buckets (cleanup st now)) with (∅ : gmap K Bucket).
      - by rewrite map_size_empty, (proj2 (Nat.leb_gt _ _)) by lia.
      - symmetry. apply map_empty. intros k. apply map_lookup_filter_None. right. intros b Hb. simpl.
        unfold live, duration_since. pose proof (Hw k b Hb). rewrite (proj2 (Z.ltb_ge _ _)) by (unfold WINDOW in *; lia). done. }
    cbn [note_insert buckets].
    assert (buckets st' !! key = None) as -> by (destruct (Hp key) as [-> |[-> _]]; done).
    cbn [default from_option id]. pose proof (Hop (fresh now) Hf) as Ho. by destruct (op (fresh now)).
Qed.
End Timely.

Definition controller_timely (T : Z) (c : AdmissionController) : Prop :=
  window_start (global c) <= T /\ timely T (source c) /\ timely T (recipient c).

Lemma current_start T now b : now <= T -> window_start b <= T -> window_start (current b now) <= T.
Proof. intros. unfold current. by case_match. Qed.

Lemma charge_start T now bytes limits b :
  now <= T -> window_start b <= T -> window_start (charge b now bytes limits).1 <= T.
Proof. intros. unfold charge. case_match; by apply current_start. Qed.

Lemma charge_bytes_start T now bytes limit b :
  now <= T -> window_start b <= T -> window_start (charge_bytes b now bytes limit).1 <= T.
Proof. intros. unfold charge_bytes. case_match; by apply current_start. Qed.

Lemma keyed_charge_timely {K} `{Countable K} T (st : KeyedBucketState K) max_keys key now bytes limits :
  now <= T -> timely T st -> timely T (keyed_charge st max_keys key now bytes limits).1.
Proof.
  intros Hn Ht. unfold keyed_charge. destruct (_ && _); [done|]. destruct (_ =? _)%nat; [done|].
  apply charge_entry_timely; [done| |done]. intros b Hb. by apply charge_start.
Qed.

Lemma keyed_charge_bytes_timely {K} `{Countable K} T (st : KeyedBucketState K) max_keys key now bytes limit :
  now <= T -> timely T st -> timely T (keyed_charge_bytes st max_keys key now bytes limit).1.
Proof.
  intros Hn Ht. unfold keyed_charge_bytes. destruct (_ =? _); [done|]. destruct (_ =? _)%nat; [done|].
  apply charge_entry_timely; [done| |done]. intros b Hb. by apply charge_bytes_start.
Qed.

Lemma step_timely config T c r :
  Forall (fun t => t <= T) (readings r) -> controller_timely T c -> controller_timely T (step config c r).1.
Proof.
  intros Hr (Hg & Hs & Hc). unfold controller_timely.
  destruct r as [| |s bytes now now'|k bytes now|s k bytes now now' now'']; cbn [step readings] in *;
    repeat (apply Forall_cons in Hr as [? Hr]).
  - unfold try_enter. by destruct (concurrency c).
  - done.
  - unfold charge_shared. pose proof (charge_start T now bytes (global_limits config) (global c)) as A.
    destruct (charge _ _ _ _) as [b [u|e]]; cbn [fst] in A; [|by auto]. destruct s as [s|]; [|by auto].
    pose proof (keyed_charge_timely T (source c) (max_limiter_keys config) s now' bytes (source_limits config)) as B.
    cbn [source with_global]. destruct (keyed_charge _ _ _ _ _ _) as [st res]. cbn [fst] in *. by auto.
  - unfold charge_recipient.
    pose proof (keyed_charge_timely T (recipient c) (max_limiter_keys config) k now bytes (recipient_limits config)) as B.
    destruct (keyed_charge _ _ _ _ _ _) as [st res]. cbn [fst] in *. by auto.
  - unfold charge_egress. pose proof (charge_bytes_start T now bytes (max_bytes (global_limits config)) (global c)) as A.
    destruct (charge_bytes _ _ _ _) as [b [u|e]]; cbn [fst] in A; [|by auto].
    pose proof (keyed_charge_bytes_timely T (recipient c) (max_limiter_keys config) k now'' bytes
      (max_bytes (recipient_limits config))) as B'.
    destruct s as [s|]; cbn [source recipient with_global].
    + pose proof (keyed_charge_bytes_timely T (source c) (max_limiter_keys config) s now' bytes
        (max_bytes (source_limits config))) as B.
      destruct (keyed_charge_bytes (source c) _ _ _ _ _) as [st [u'|e]]; cbn [fst recipient with_source with_global] in *; [|by auto].
      destruct (keyed_charge_bytes (recipient c) _ _ _ _ _) as [st' res]. cbn [fst] in *. by auto.
    + destruct (keyed_charge_bytes (recipient c) _ _ _ _ _) as [st' res]. cbn [fst] in *. by auto.
Qed.

(** A single request that the limits allow at all. *)
Definition fits (limits : Limits) (bytes : Z) : Prop :=
  0 <= max_requests limits /\ in_uint 64 bytes /\ (max_bytes limits = 0 \/ bytes <= max_bytes limits).

Lemma charge_fresh limits bytes b now :
  fits limits bytes -> current b now = fresh now -> (charge b now bytes limits).2 = Ok tt.
Proof.
  intros (Hr & Hb & Hm) E. unfold charge, saturating_add, in_uint in *. rewrite E. cbn [requests bucket_bytes fresh].
  replace (_ || _) with false; [done|]. symmetry. apply orb_false_iff. split; apply andb_false_iff.
  - destruct (Z.eq_dec (max_requests limits) 0) as [->|]; [by left|right; apply Z.ltb_ge; lia].
  - destruct Hm as [->|Hm]; [by left|right; apply Z.ltb_ge; lia].
Qed.

Lemma keyed_charge_recovers {K} `{Countable K} T (st : KeyedBucketState K) max_keys key now bytes limits :
  timely T st -> T + WINDOW <= now -> (0 < max_keys)%nat -> fits limits bytes ->
  (keyed_charge st max_keys key now bytes limits).2 = Ok tt.
Proof.
  intros Ht Hn Hk Hf. unfold keyed_charge. destruct (_ && _); [done|].
  rewrite (proj2 (Nat.eqb_neq _ _)) by lia. apply (recovered_entry T); [done..|]. intros b Hb. by apply charge_fresh.
Qed.

(** A flood does no lasting harm: one window after the last request, whatever the history was and however
    full the maps were left, a request within the limits is admitted, from any source and for any
    recipient. *)
Theorem limiter_recovers (config : LoftConfig) (start T : Z) (rs : list Request) (from : option IpAddr) (key : arr 32)
  (bytes now now' : Z) :
  start <= T -> Forall (fun r => Forall (fun t => t <= T) (readings r)) rs ->
  T + WINDOW <= now -> T + WINDOW <= now' -> (0 < max_limiter_keys config)%nat ->
  fits (global_limits config) bytes -> fits (source_limits config) bytes -> fits (recipient_limits config) bytes ->
  let c := after config (controller_new config start) rs in
  (charge_shared config c from bytes now now').2 = Ok tt /\ (charge_recipient config c key bytes now').2 = Ok tt.
Proof.
  intros Hs Hr Hn Hn' Hk Hg Hsrc Hrcp. cbv zeta.
  assert (controller_timely T (after config (controller_new config start) rs)) as (Tg & Ts & Tr).
  { apply (after_inv config (controller_timely T) _ _ _ (fun c r Hc Hr => step_timely config T c r Hr Hc)); [|done].
    unfold controller_timely, timely. simpl. repeat split; try done; by apply map_Forall_empty. }
  set (c := after _ _ _) in *. split.
  - unfold charge_shared. pose proof (charge_fresh (global_limits config) bytes (global c) now Hg) as Hc.
    destruct (charge _ _ _ _) as [b r]. cbn [snd] in Hc. rewrite Hc.
    + destruct from as [s|]; [|done]. cbn [source with_global].
      pose proof (keyed_charge_recovers T (source c) (max_limiter_keys config) s now' bytes (source_limits config) Ts Hn' Hk Hsrc) as B.
      by destruct (keyed_charge _ _ _ _ _ _).
    + unfold current, duration_since. by rewrite (proj2 (Z.leb_le _ _)) by lia.
  - unfold charge_recipient.
    pose proof (keyed_charge_recovers T (recipient c) (max_limiter_keys config) key now' bytes (recipient_limits config) Tr Hn' Hk Hrcp) as B.
    by destruct (keyed_charge _ _ _ _ _ _).
Qed.

(** * A concrete loft *)

(** Two requests a minute and one key per map. *)
Definition demo_config : LoftConfig :=
  let c := config_new (zeroes 32) (lit "https://loft.example") in
  {| lc_pubkey := lc_pubkey c; lc_origin := lc_origin c; lc_capacity_bytes := lc_capacity_bytes c; lc_retention_days := lc_retention_days c;
     lc_max_event_bytes := lc_max_event_bytes c; max_request_bytes := max_request_bytes c; default_fetch_limit := default_fetch_limit c;
     max_fetch_limit := max_fetch_limit c; max_fetch_response_bytes := max_fetch_response_bytes c;
     rate_limit_per_minute := 2; global_requests_per_minute := 2; global_bytes_per_minute := 100;
     source_requests_per_minute := 2; source_bytes_per_minute := 100; recipient_bytes_per_minute := 100;
     max_concurrent_connections := max_concurrent_connections c; max_concurrent_requests := 1;
     max_blocking_operations := max_blocking_operations c; max_limiter_keys := 1;
     header_timeout_secs := header_timeout_secs c; request_timeout_secs := request_timeout_secs c;
     response_timeout_secs := response_timeout_secs c; trace_timeout_ms := trace_timeout_ms c;
     trusted_proxies := []; sweep_batch := sweep_batch c; sweep_interval_secs := sweep_interval_secs c |}.
Definition demo_ip (n : byte) : IpAddr := V4 (V4Addr x08 x08 x08 n).
Definition demo_burst : list Request :=
  [Shared (Some (demo_ip x01)) 10 100 101; Shared None 10 102 103; Shared None 10 104 105; Recipient (zeroes 32) 10 106].

Lemma admission_bounded_witness :
  admitted demo_config all_requests (controller_new demo_config 0) demo_burst = 2 /\
  admitted demo_config all_requests (controller_new demo_config 0) demo_burst <= 2 * 2.
Proof.
  split; [vm_compute; reflexivity|].
  assert (Forall (fun r => 0 <= request_bytes r) ([] ++ demo_burst)) as Hb by (repeat constructor; simpl; lia).
  assert (Forall (in_burst 50) demo_burst) as Hi by (repeat constructor; unfold WINDOW; lia).
  assert (0 < 2 < 2 ^ 32 - 1) as Hl by lia.
  exact (proj1 (admission_bounded demo_config 0 50 [] demo_burst Hb Hi) Hl).
Defined.

Lemma limiter_recovers_witness :
  (charge_shared demo_config (after demo_config (controller_new demo_config 0) demo_burst) (Some (demo_ip x02)) 10 120 121).2
    = Err LoftError.RateLimited /\
  (charge_shared demo_config (after demo_config (controller_new demo_config 0) demo_burst) (Some (demo_ip x02)) 10
     (106 + WINDOW) (107 + WINDOW)).2 = Ok tt.
Proof.
  split; [vm_compute; reflexivity|].
  assert (Forall (fun r => Forall (fun t => t <= 106) (readings r)) demo_burst) as Hr by (repeat constructor; lia).
  assert (fits (global_limits demo_config) 10) as H1 by (unfold fits, in_uint; simpl; lia).
  assert (fits (source_limits demo_config) 10) as H2 by (unfold fits, in_uint; simpl; lia).
  assert (fits (recipient_limits demo_config) 10) as H3 by (unfold fits, in_uint; simpl; lia).
  exact (proj1 (limiter_recovers demo_config 0 106 demo_burst (Some (demo_ip x02)) (zeroes 32) 10 (106 + WINDOW) (107 + WINDOW)
    ltac:(lia) Hr ltac:(lia) ltac:(lia) ltac:(simpl; lia) H1 H2 H3)).
Defined.
