(* ===== verification/LoftStore.v ===== *)
(** The durable inbox of a loft: the tables and transactions of [pigeonpost-loft/src/store.rs].

    A database is its tables: events in the order of their cursors, the policy, agent and rotation rows by primary key,
    the counters and the trace window.  A method that runs one SQLite transaction is a function to [LoftResult (A * Database)];
    an error rolls the transaction back, so [transact] leaves the database as it was.  Columns hold the
    integers the code writes ([to_i64] refuses what does not fit), [UNIQUE], [CHECK] and [AUTOINCREMENT] are written out
    where a statement meets them, and [serde_json] is the class [LoftJson].  The clock readings are arguments. *)
From stdpp Require Import sorting.
From S2P Require Import Prelude Text B32 Network Crypto Origin Token Address Compliance Policy AgentRecord EnvelopeBytes LoftConfig.

Definition EVENT_STORAGE_OVERHEAD : Z := 256.
Definition CONTROL_STORAGE_OVERHEAD : Z := 256.
Definition CONTROL_STORAGE_DIVISOR : Z := 20.
Definition ROTATION_STORAGE_RESERVATION : Z := 4 * 1024.
Definition TRACE_ADMISSION_WINDOW_MS : Z := 60000.

(** * Rows *)

Record EventRow := {
  ev_cursor : Z;
  ev_id : arr 32;
  ev_recipient : arr 32;
  ev_stored_at : Z;
  ev_expires_at : Z;
  ev_size : Z;
  ev_blob : bytes;
}.

Record PolicyRow := {
  pr_seq : Z;
  pr_policy : bytes;
  pr_version : Z;
  pr_updated_at : Z;
  pr_accounted : Z;
}.

Record AgentRow := {
  ag_seq : Z;
  ag_record : bytes;
  ag_updated_at : Z;
  ag_accounted : Z;
  ag_reservation : Z;
}.

Record RotationRow := {
  ro_from_pubkey : arr 32;
  ro_to_address : str;
  ro_to_pubkey : arr 32;
  ro_seq : Z;
  ro_activated_at : Z;
  ro_grace_until : Z;
  ro_record : bytes;
  ro_stored_at : Z;
  ro_accounted : Z;
}.

(** The single row of [storage_stats]. *)
Record StatsRow := {
  st_bytes_used : Z;
  st_event_count : Z;
  st_control_bytes : Z;
  st_control_reserved : Z;
}.

(** [event_seq] is the entry of [sqlite_sequence] that [AUTOINCREMENT] keeps: the largest cursor ever given out. *)
Record Database := {
  events : list EventRow;
  event_seq : Z;
  recipient_policy : gmap (arr 32) PolicyRow;
  agent_records : gmap str AgentRow;
  rotation_records : gmap str RotationRow;
  storage_stats : StatsRow;
  trace_admission : Z * Z;
}.

(** What [migrate] leaves in an empty file. *)
Definition empty_database : Database := {|
  events := []; event_seq := 0; recipient_policy := ∅; agent_records := ∅; rotation_records := ∅;
  storage_stats := {| st_bytes_used := 0; st_event_count := 0; st_control_bytes := 0; st_control_reserved := 0 |};
  trace_admission := (0, 0) |}.

Definition with_events (es : list EventRow) (seq : Z) (st : StatsRow) (db : Database) : Database :=
  {| events := es; event_seq := seq; recipient_policy := recipient_policy db; agent_records := agent_records db;
     rotation_records := rotation_records db; storage_stats := st; trace_admission := trace_admission db |}.
Definition with_stats (st : StatsRow) (db : Database) : Database :=
  {| events := events db; event_seq := event_seq db; recipient_policy := recipient_policy db; agent_records := agent_records db;
     rotation_records := rotation_records db; storage_stats := st; trace_admission := trace_admission db |}.
Definition with_policies (ps : gmap (arr 32) PolicyRow) (db : Database) : Database :=
  {| events := events db; event_seq := event_seq db; recipient_policy := ps; agent_records := agent_records db;
     rotation_records := rotation_records db; storage_stats := storage_stats db; trace_admission := trace_admission db |}.
Definition with_agents (ags : gmap str AgentRow) (db : Database) : Database :=
  {| events := events db; event_seq := event_seq db; recipient_policy := recipient_policy db; agent_records := ags;
     rotation_records := rotation_records db; storage_stats := storage_stats db; trace_admission := trace_admission db |}.
Definition with_rotations (ros : gmap str RotationRow) (db : Database) : Database :=
  {| events := events db; event_seq := event_seq db; recipient_policy := recipient_policy db; agent_records := agent_records db;
     rotation_records := ros; storage_stats := storage_stats db; trace_admission := trace_admission db |}.
Definition with_trace (t : Z * Z) (db : Database) : Database :=
  {| events := events db; event_seq := event_seq db; recipient_policy := recipient_policy db; agent_records := agent_records db;
     rotation_records := rotation_records db; storage_stats := storage_stats db; trace_admission := t |}.

(** A transaction that returns an error is rolled back. *)
Definition transact {A} (db : Database) (r : LoftResult (A * Database)) : LoftResult A * Database :=
  match r with Ok (a, db') => (Ok a, db') | Err e => (Err e, db) end.

(** * Integers *)

Definition to_i64 (value : Z) : LoftResult Z :=
  _ ← guard (2 ^ 63 <=? value) (LoftError.Core TooLarge); Ok value.

(** [u64::try_from] of a column. *)
Definition from_column (value : Z) : LoftResult Z :=
  _ ← guard (value <? 0) (LoftError.Core (MalformedEnvelope "negative storage counter")); Ok value.

(** * serde_json *)

Class LoftJson := {
  wrap_to_vec : Wrap -> option bytes;
  wrap_from_slice : bytes -> option Wrap;
  policy_to_vec : RecipientPolicy -> option bytes;
  policy_from_slice : bytes -> option RecipientPolicy;
  record_to_vec : AgentRecord -> option bytes;
  record_from_slice : bytes -> option AgentRecord;
  rotation_to_vec : RotationRecord -> option bytes;
  rotation_from_slice : bytes -> option RotationRecord;
}.

(** A value reads back from the JSON it was written to. *)
Class LoftJsonLaws `{LoftJson} : Prop := {
  wrap_json w bs : wrap_to_vec w = Some bs -> wrap_from_slice bs = Some w;
  policy_json p bs : policy_to_vec p = Some bs -> policy_from_slice bs = Some p;
  record_json r bs : record_to_vec r = Some bs -> record_from_slice bs = Some r;
  rotation_json r bs : rotation_to_vec r = Some bs -> rotation_from_slice bs = Some r;
}.

(** * Accounting *)

Definition control_capacity_bytes (capacity_bytes : Z) : Z := capacity_bytes / CONTROL_STORAGE_DIVISOR.

Definition accounted_size (blob_len identifier_bytes : nat) : LoftResult Z :=
  ok_or (size ← checked_add 64 (Z.of_nat blob_len) (Z.of_nat identifier_bytes);
         checked_add 64 size CONTROL_STORAGE_OVERHEAD) (LoftError.Core TooLarge).

Definition control_counters (db : Database) : LoftResult (Z * Z * Z) :=
  event_bytes ← from_column (st_bytes_used (storage_stats db));
  control_bytes ← from_column (st_control_bytes (storage_stats db));
  control_reserved ← from_column (st_control_reserved (storage_stats db));
  Ok (event_bytes, control_bytes, control_reserved).

Definition replace_control_charge (capacity_bytes old_accounted new_accounted old_reserved new_reserved : Z) (db : Database)
  : LoftResult Database :=
  '(event_bytes, control_bytes, control_reserved) ← control_counters db;
  next_control ← ok_or (value ← checked_sub control_bytes old_accounted; checked_add 64 value new_accounted)
                   (LoftError.Core (MalformedEnvelope "control storage counter mismatch"));
  next_reserved ← ok_or (value ← checked_sub control_reserved old_reserved; checked_add 64 value new_reserved)
                   (LoftError.Core (MalformedEnvelope "control reservation counter mismatch"));
  next_control_total ← ok_or (checked_add 64 next_control next_reserved) (LoftError.Core TooLarge);
  _ ← guard ((control_capacity_bytes capacity_bytes <? next_control_total)
             || match checked_add 64 event_bytes next_control_total with
                | Some total => capacity_bytes <? total
                | None => true
                end) LoftError.AtCapacity;
  next_control ← to_i64 next_control;
  next_reserved ← to_i64 next_reserved;
  Ok (with_stats {| st_bytes_used := st_bytes_used (storage_stats db); st_event_count := st_event_count (storage_stats db);
                    st_control_bytes := next_control; st_control_reserved := next_reserved |} db).

(** The rowid of a new event: [SQLITE_FULL] when the largest one has been given out. *)
Definition next_cursor (db : Database) : LoftResult Z :=
  _ ← guard (2 ^ 63 - 1 <=? event_seq db) LoftError.Storage; Ok (event_seq db + 1).

Section Store.
Context {C : Crypto} {UP : UrlParser} {J : LoftJson}.

Definition decode_policy (blob : bytes) : LoftResult RecipientPolicy :=
  policy ← ok_or (policy_from_slice blob) LoftError.Serialization;
  _ ← from_core (policy_verify policy None);
  Ok policy.

(** The sequence number of the policy a row holds; the signed blob is authoritative. *)
Definition stored_seq (existing : option PolicyRow) : LoftResult (option Z) :=
  match existing with
  | Some row => policy ← decode_policy (pr_policy row); Ok (Some (rp_seq policy))
  | None => Ok None
  end.

(** * Events *)

Definition insert_event (wrap : Wrap) (id : arr 32) (stored_at expires_at capacity_bytes : Z) (expected : option Z) (db : Database)
  : LoftResult (bool * Database) :=
  blob ← ok_or (wrap_to_vec wrap) LoftError.Serialization;
  let accounted := saturating_add 64 (Z.of_nat (length blob)) EVENT_STORAGE_OVERHEAD in
  if existsb (fun e => ev_id e ≟ id) (events db) then Ok (false, db)
  else
    actual ← stored_seq (recipient_policy db !! recipient wrap);
    _ ← guard (negb (actual ≟ expected)) LoftError.PolicyChanged;
    '(event_bytes, control_bytes, control_reserved) ← control_counters db;
    used ← ok_or (value ← checked_add 64 event_bytes control_bytes; checked_add 64 value control_reserved) (LoftError.Core TooLarge);
    _ ← guard (saturating_sub capacity_bytes used <? accounted) LoftError.AtCapacity;
    stored_at ← to_i64 stored_at;
    expires_at ← to_i64 expires_at;
    accounted ← to_i64 accounted;
    cursor ← next_cursor db;
    let row := {| ev_cursor := cursor; ev_id := id; ev_recipient := recipient wrap; ev_stored_at := stored_at;
                  ev_expires_at := expires_at; ev_size := accounted; ev_blob := blob |} in
    let st := storage_stats db in
    Ok (true, with_events (events db ++ [row]) cursor
                {| st_bytes_used := st_bytes_used st + accounted; st_event_count := st_event_count st + 1;
                   st_control_bytes := st_control_bytes st; st_control_reserved := st_control_reserved st |} db).

Definition admit_event (wrap : Wrap) (id : arr 32) (stored_at expires_at capacity_bytes : Z) (expected_policy_seq : option Z)
  (db : Database) : LoftResult (bool * Database) :=
  _ ← from_core (verify_public wrap);
  _ ← guard (negb (id ≟ wrap_id wrap)) (LoftError.Core (MalformedEnvelope "event id mismatch"));
  insert_event wrap id stored_at expires_at capacity_bytes expected_policy_seq db.

Record StoredEvent := { se_cursor : Z; se_wrap : Wrap }.

Definition stored_event (e : EventRow) : LoftResult StoredEvent :=
  cursor ← (if ev_cursor e <? 0 then Err (LoftError.Core (MalformedEnvelope "negative stored cursor")) else Ok (ev_cursor e));
  wrap ← ok_or (wrap_from_slice (ev_blob e)) LoftError.Serialization;
  Ok {| se_cursor := cursor; se_wrap := wrap |}.

Fixpoint stored_events (es : list EventRow) : LoftResult (list StoredEvent) :=
  match es with
  | [] => Ok []
  | e :: es => e ← stored_event e; es ← stored_events es; Ok (e :: es)
  end.

(** The rows of a page: the table is in the order of the cursors. *)
Definition page (recipient : arr 32) (cursor : Z) (limit : nat) (db : Database) : list EventRow :=
  take limit (filter (fun e => ev_recipient e = recipient /\ cursor < ev_cursor e) (events db)).

Definition fetch_events (recipient : arr 32) (cursor : Z) (limit : nat) (db : Database) : LoftResult (list StoredEvent) :=
  cursor ← to_i64 cursor;
  limit' ← to_i64 (Z.of_nat limit);
  stored_events (page recipient cursor (Z.to_nat limit') db).

(** * Policies *)

Definition get_policy (pubkey : arr 32) (db : Database) : LoftResult (option RecipientPolicy) :=
  match recipient_policy db !! pubkey with
  | Some row =>
      policy ← decode_policy (pr_policy row);
      seq ← to_i64 (rp_seq policy);
      _ ← guard (negb (seq =? pr_seq row) || negb (u8 (rp_version policy) =? pr_version row))
            (LoftError.Core (MalformedEnvelope "stored policy mismatch"));
      Ok (Some policy)
  | None => Ok None
  end.

Definition put_policy (policy : RecipientPolicy) (capacity_bytes unix_seconds : Z) (db : Database) : LoftResult (unit * Database) :=
  _ ← guard (negb (rp_version policy ≟ RECIPIENT_POLICY_VERSION)) (LoftError.Core (MalformedEnvelope "v3 policy required for write"));
  blob ← ok_or (policy_to_vec policy) LoftError.Serialization;
  new_accounted ← accounted_size (length blob) 32;
  let existing := recipient_policy db !! rp_pubkey policy in
  if match existing with Some row => pr_policy row ≟ blob | None => false end then Ok (tt, db)
  else
    last_seq ← stored_seq existing;
    _ ← from_core (policy_verify policy last_seq);
    old_accounted ← match existing with Some row => from_column (pr_accounted row) | None => Ok 0 end;
    db ← replace_control_charge capacity_bytes old_accounted new_accounted 0 0 db;
    seq ← to_i64 (rp_seq policy);
    updated_at ← to_i64 unix_seconds;
    accounted ← to_i64 new_accounted;
    let row := {| pr_seq := seq; pr_policy := blob; pr_version := u8 (rp_version policy); pr_updated_at := updated_at;
                  pr_accounted := accounted |} in
    Ok (tt, with_policies (<[rp_pubkey policy := row]> (recipient_policy db)) db).

(** * Agent records *)

Definition get_agent_record (address : str) (db : Database) : LoftResult (option AgentRecord) :=
  match agent_records db !! address with
  | Some row => record ← ok_or (record_from_slice (ag_record row)) LoftError.Serialization; Ok (Some record)
  | None => Ok None
  end.

(** The checks against the record already held at the address. *)
Definition supersedes (address : Address) (record : AgentRecord) (row : AgentRow) (db : Database) : LoftResult unit :=
  _ ← guard (is_some (rotation_records db !! address_str address)) (LoftError.Core StaleSequence);
  prior ← ok_or (record_from_slice (ag_record row)) LoftError.Serialization;
  _ ← from_core (record_verify prior address);
  _ ← guard (negb (successor_hash prior ≟ successor_hash record)) (LoftError.Core SuccessorMismatch);
  guard (rec_seq record <=? rec_seq prior) (LoftError.Core StaleSequence).

Definition put_agent_record (address : str) (record : AgentRecord) (capacity_bytes unix_seconds : Z) (db : Database)
  : LoftResult (unit * Database) :=
  address ← from_core (parse address);
  _ ← guard (negb (rec_version record ≟ AGENT_RECORD_VERSION)) (LoftError.Core (MalformedEnvelope "v2 agent record required for write"));
  _ ← from_core (record_verify record address);
  blob ← ok_or (record_to_vec record) LoftError.Serialization;
  new_accounted ← accounted_size (length blob) (length (address_str address));
  let existing := agent_records db !! address_str address in
  if match existing with Some row => ag_record row ≟ blob | None => false end then Ok (tt, db)
  else
    _ ← match existing with Some row => supersedes address record row db | None => Ok tt end;
    '(old_accounted, reservation) ←
      match existing with
      | Some row => accounted ← from_column (ag_accounted row); reserved ← from_column (ag_reservation row); Ok (accounted, reserved)
      | None => Ok (0, ROTATION_STORAGE_RESERVATION)
      end;
    db ← replace_control_charge capacity_bytes old_accounted new_accounted
           (match existing with Some _ => reservation | None => 0 end) reservation db;
    seq ← to_i64 (rec_seq record);
    updated_at ← to_i64 unix_seconds;
    accounted ← to_i64 new_accounted;
    reserved ← to_i64 reservation;
    (* ON CONFLICT(address) DO UPDATE ... WHERE excluded.seq > agent_records.seq leaves the reservation alone *)
    row ← match existing with
          | Some row =>
              _ ← guard (seq <=? ag_seq row) (LoftError.Core StaleSequence);
              Ok {| ag_seq := seq; ag_record := blob; ag_updated_at := updated_at; ag_accounted := accounted;
                    ag_reservation := ag_reservation row |}
          | None =>
              Ok {| ag_seq := seq; ag_record := blob; ag_updated_at := updated_at; ag_accounted := accounted;
                    ag_reservation := reserved |}
          end;
    Ok (tt, with_agents (<[address_str address := row]> (agent_records db)) db).

(** * Rotations *)

Definition get_rotation_record (address : str) (db : Database) : LoftResult (option RotationRecord) :=
  address ← from_core (parse address);
  match rotation_records db !! address_str address, agent_records db !! address_str address with
  | Some rotation, Some agent =>
      agent ← ok_or (record_from_slice (ag_record agent)) LoftError.Serialization;
      _ ← from_core (record_verify agent address);
      rotation ← ok_or (rotation_from_slice (ro_record rotation)) LoftError.Serialization;
      _ ← from_core (verify_source_address rotation address);
      _ ← from_core (rotation_verify rotation (successor_commitment agent) (rec_seq agent) (activated_at rotation));
      Ok (Some rotation)
  | _, _ => Ok None
  end.

(** The [UNIQUE] and [CHECK] constraints of [rotation_records] beyond its primary key. *)
Definition rotation_row_ok (row : RotationRow) (db : Database) : bool :=
  (0 <? ro_seq row) && (0 <? ro_activated_at row) && (ro_activated_at row <? ro_grace_until row) && (0 <? ro_stored_at row)
  && forallb (fun '(_, other) => negb (ro_from_pubkey other ≟ ro_from_pubkey row)) (map_to_list (rotation_records db)).

Definition put_rotation_record (address : str) (record : RotationRecord) (now_secs capacity_bytes : Z) (db : Database)
  : LoftResult (bool * Database) :=
  address ← from_core (parse address);
  _ ← from_core (verify_source_address record address);
  blob ← ok_or (rotation_to_vec record) LoftError.Serialization;
  target ← from_core (target_address record);
  new_accounted ← accounted_size (length blob) (length (address_str address) + length (address_str target));
  match rotation_records db !! address_str address with
  | Some existing => if ro_record existing ≟ blob then Ok (false, db) else Err (LoftError.Core StaleSequence)
  | None =>
      agent_row ← ok_or (agent_records db !! address_str address) (LoftError.Core (MalformedEnvelope "rotation source record missing"));
      reservation ← from_column (ag_reservation agent_row);
      _ ← guard ((reservation =? 0) || (reservation <? new_accounted)) LoftError.AtCapacity;
      agent ← ok_or (record_from_slice (ag_record agent_row)) LoftError.Serialization;
      _ ← from_core (record_verify agent address);
      _ ← from_core (rotation_verify record (successor_commitment agent) (rec_seq agent) now_secs);
      db ← replace_control_charge capacity_bytes 0 new_accounted reservation 0 db;
      _ ← to_i64 reservation;
      let agent_row := {| ag_seq := ag_seq agent_row; ag_record := ag_record agent_row; ag_updated_at := ag_updated_at agent_row;
                          ag_accounted := ag_accounted agent_row; ag_reservation := 0 |} in
      let db := with_agents (<[address_str address := agent_row]> (agent_records db)) db in
      seq ← to_i64 (rot_seq record);
      activated ← to_i64 (activated_at record);
      grace ← to_i64 (grace_until record);
      stored_at ← to_i64 now_secs;
      accounted ← to_i64 new_accounted;
      let row := {| ro_from_pubkey := from_key record; ro_to_address := address_str target; ro_to_pubkey := to_key record;
                    ro_seq := seq; ro_activated_at := activated; ro_grace_until := grace; ro_record := blob;
                    ro_stored_at := stored_at; ro_accounted := accounted |} in
      _ ← guard (negb (rotation_row_ok row db)) LoftError.Storage;
      Ok (true, with_rotations (<[address_str address := row]> (rotation_records db)) db)
  end.

(** * Retention *)

(** [ORDER BY expires_at]: rows that expire together come in the order of the index, by cursor. *)
Definition expires_before (a b : EventRow) : Prop := ev_expires_at a <= ev_expires_at b.
#[global] Instance expires_before_dec : RelDecision expires_before.
Proof. intros a b. unfold expires_before. apply _. Defined.

Definition expired_batch (now : Z) (batch : nat) (db : Database) : list EventRow :=
  take batch (merge_sort expires_before (filter (fun e => ev_expires_at e <= now) (events db))).

Definition sum_sizes (es : list EventRow) : Z := foldr (fun e acc => ev_size e + acc) 0 es.

Definition sweep_expired (now : Z) (batch : nat) (db : Database) : LoftResult (nat * Database) :=
  if (batch =? 0)%nat then Ok (O, db)
  else
    now ← to_i64 now;
    batch' ← to_i64 (Z.of_nat batch);
    let doomed := expired_batch now (Z.to_nat batch') db in
    let count := length doomed in
    if (count =? 0)%nat then Ok (O, db)
    else
      let kept := filter (fun e => ev_cursor e ∉ map ev_cursor doomed) (events db) in
      let removed := (length (events db) - length kept)%nat in
      _ ← guard (negb (removed =? count)%nat) (LoftError.Core (MalformedEnvelope "retention count mismatch"));
      let st := storage_stats db in
      _ ← guard ((st_bytes_used st <? sum_sizes doomed) || (st_event_count st <? Z.of_nat count))
            (LoftError.Core (MalformedEnvelope "storage counter mismatch"));
      Ok (removed, with_events kept (event_seq db)
                     {| st_bytes_used := st_bytes_used st - sum_sizes doomed; st_event_count := st_event_count st - Z.of_nat count;
                        st_control_bytes := st_control_bytes st; st_control_reserved := st_control_reserved st |} db).

(** * Statistics *)

Record StorageStats := {
  ss_bytes_used : Z;
  ss_event_bytes_used : Z;
  ss_control_bytes_used : Z;
  ss_control_bytes_reserved : Z;
  ss_event_count : Z;
}.

Definition stats (db : Database) : LoftResult StorageStats :=
  event_bytes_used ← from_column (st_bytes_used (storage_stats db));
  control_bytes_used ← from_column (st_control_bytes (storage_stats db));
  control_bytes_reserved ← from_column (st_control_reserved (storage_stats db));
  bytes_used ← ok_or (value ← checked_add 64 event_bytes_used control_bytes_used; checked_add 64 value control_bytes_reserved)
                 (LoftError.Core TooLarge);
  event_count ← from_column (st_event_count (storage_stats db));
  Ok {| ss_bytes_used := bytes_used; ss_event_bytes_used := event_bytes_used; ss_control_bytes_used := control_bytes_used;
        ss_control_bytes_reserved := control_bytes_reserved; ss_event_count := event_count |}.
End Store.
