(* ===== verification/LoftTrace.v ===== *)
(** Durable trace admission: [charge_trace_admission] of [pigeonpost-loft/src/store.rs].

    Every traced request spends one slot of its UTC minute.  A process reserves slots in batches by moving a
    durable counter, keeps the rest of the batch in memory, and burns it when it restarts.  Several processes may share the
    database: the plain read before the transaction sees some value the row has held, the transaction the value it holds.
    Whatever the processes do, no minute grants more than the limit. *)
From S2P Require Import Prelude Text B32 Reservation LoftConfig LoftStore.

Definition TRACE_ADMISSION_BATCH_SIZE : Z := 64.
Definition TRACE_ADMISSION_MIGRATION_CEILING : Z := 2 ^ 32 - 1.

Record TraceAdmissionLease := {
  window_start_ms : Z;
  lease_limit : Z;
  remaining : Z;
  reserved_through : Z;
}.

Record TraceAdmissionBatch := {
  highest_requested_window_start_ms : Z;
  durable_high_water : option (Z * Z);
  lease : option TraceAdmissionLease;
}.

(** [TraceAdmissionBatch::default] *)
Definition batch_new : TraceAdmissionBatch :=
  {| highest_requested_window_start_ms := 0; durable_high_water := None; lease := None |}.

Definition with_lease (l : option TraceAdmissionLease) (b : TraceAdmissionBatch) : TraceAdmissionBatch :=
  {| highest_requested_window_start_ms := highest_requested_window_start_ms b; durable_high_water := durable_high_water b; lease := l |}.
Definition with_high_water (o : Z * Z) (b : TraceAdmissionBatch) : TraceAdmissionBatch :=
  {| highest_requested_window_start_ms := highest_requested_window_start_ms b; durable_high_water := Some o; lease := lease b |}.
(** The watermark moves and the lease goes with the minute it was for. *)
Definition advance (window : Z) (b : TraceAdmissionBatch) : TraceAdmissionBatch :=
  {| highest_requested_window_start_ms := window; durable_high_water := durable_high_water b; lease := None |}.

(** The order of tuples. *)
Definition pair_ltb (x y : Z * Z) : bool := (x.1 <? y.1) || ((x.1 =? y.1) && (x.2 <? y.2)).

Definition validate_trace_admission_observation (b : TraceAdmissionBatch) (observed : Z * Z)
  : LoftResult unit * TraceAdmissionBatch :=
  match durable_high_water b with
  | Some high_water =>
      if pair_ltb observed high_water then (Err LoftError.TraceUnavailable, with_lease None b)
      else if pair_ltb high_water observed then (Ok tt, with_high_water observed b)
      else (Ok tt, b)
  | None => (Ok tt, with_high_water observed b)
  end.

Definition load_trace_admission (row : Z * Z) : LoftResult (Z * Z) :=
  _ ← guard ((row.1 <? 0) || (row.2 <? 0)) (LoftError.Configuration "invalid durable trace admission counter");
  Ok row.

Definition window_of (timestamp_ms : Z) : Z := timestamp_ms - timestamp_ms mod TRACE_ADMISSION_WINDOW_MS.

Definition usable_lease (window limit : Z) (b : TraceAdmissionBatch) : option TraceAdmissionLease :=
  match lease b with
  | Some l => if (window_start_ms l =? window) && (lease_limit l =? limit) && (0 <? remaining l) then Some l else None
  | None => None
  end.

(** The transaction: what it reserves of the window, and the row it leaves. *)
Definition reserve (window limit : Z) (stored : Z * Z) : LoftResult (Z * (Z * Z)) :=
  let admitted := if stored.1 <? window then 0 else stored.2 in
  available ← ok_or (checked_sub limit admitted) LoftError.RateLimited;
  _ ← guard (available =? 0) LoftError.RateLimited;
  let reserved := Z.min available TRACE_ADMISSION_BATCH_SIZE in
  next_admitted ← ok_or (checked_add 64 admitted reserved) LoftError.TraceUnavailable;
  window ← to_i64 window;
  next_admitted ← to_i64 next_admitted;
  Ok (reserved, (window, next_admitted)).

(** The part after the leases: [stored] is the row the transaction reads. *)
Definition charge_durable (window limit : Z) (b : TraceAdmissionBatch) (stored : Z * Z)
  : LoftResult unit * TraceAdmissionBatch * (Z * Z) :=
  let b := with_lease None b in
  match load_trace_admission stored with
  | Err e => (Err e, b, stored)
  | Ok _ =>
      match validate_trace_admission_observation b stored with
      | (Err e, b) => (Err e, b, stored)
      | (Ok _, b) =>
          if window <? stored.1 then
            (Err LoftError.TraceUnavailable,
             {| highest_requested_window_start_ms := stored.1; durable_high_water := durable_high_water b; lease := lease b |}, stored)
          else
            match reserve window limit stored with
            | Err e => (Err e, b, stored)
            | Ok (reserved, row) =>
                let l := {| window_start_ms := window; lease_limit := limit; remaining := reserved - 1; reserved_through := row.2 |} in
                (Ok tt, with_high_water row (with_lease (Some l) b), row)
            end
      end
  end.

Definition charge_trace_admission (timestamp_ms limit : Z) (observed : Z * Z) (b : TraceAdmissionBatch) (stored : Z * Z)
  : LoftResult unit * TraceAdmissionBatch * (Z * Z) :=
  if (timestamp_ms =? 0) || (limit =? 0) then (Err (LoftError.Configuration "invalid durable trace admission input"), b, stored)
  else
    let window := window_of timestamp_ms in
    if window <? highest_requested_window_start_ms b then (Err LoftError.TraceUnavailable, b, stored)
    else
      let b := if highest_requested_window_start_ms b <? window then advance window b else b in
      match load_trace_admission observed with
      | Err e => (Err e, b, stored)
      | Ok _ =>
          match validate_trace_admission_observation b observed with
          | (Err e, b) => (Err e, b, stored)
          | (Ok _, b) =>
              let b := if highest_requested_window_start_ms b <? observed.1 then advance observed.1 b else b in
              if window <? observed.1 then (Err LoftError.TraceUnavailable, b, stored)
              else
                match usable_lease window limit b with
                | Some l =>
                    if negb (observed.1 =? window) || (observed.2 <? reserved_through l)
                    then (Err LoftError.TraceUnavailable, with_lease None b, stored)
                    else (Ok tt, with_lease (Some {| window_start_ms := window_start_ms l; lease_limit := lease_limit l;
                                                      remaining := remaining l - 1; reserved_through := reserved_through l |}) b, stored)
                | None => charge_durable window limit b stored
                end
          end
      end.

(** * Processes that share a database *)

(** The row, the processes' memories, every value the row has held, and the minutes of the granted slots. *)
Record TraceNode := {
  tn_row : Z * Z;
  tn_processes : gmap nat TraceAdmissionBatch;
  tn_history : list (Z * Z);
  tn_granted : list Z;
}.

Definition memory (p : nat) (n : TraceNode) : TraceAdmissionBatch := default batch_new (tn_processes n !! p).

Definition trace_started (row : Z * Z) : TraceNode :=
  {| tn_row := row; tn_processes := ∅; tn_history := [row]; tn_granted := [] |}.

Inductive trace_step (max_limit : Z) (n : TraceNode) : TraceNode -> Prop :=
| trace_charge p timestamp_ms limit observed r b row :
    0 <= timestamp_ms -> 0 <= limit <= max_limit -> observed ∈ tn_history n ->
    charge_trace_admission timestamp_ms limit observed (memory p n) (tn_row n) = (r, b, row) ->
    trace_step max_limit n
      {| tn_row := row; tn_processes := <[p := b]> (tn_processes n); tn_history := row :: tn_history n;
         tn_granted := if is_ok r then window_of timestamp_ms :: tn_granted n else tn_granted n |}
| trace_restart p :
    trace_step max_limit n
      {| tn_row := tn_row n; tn_processes := delete p (tn_processes n); tn_history := tn_history n; tn_granted := tn_granted n |}.

Definition granted_in (window : Z) (n : TraceNode) : Z := Z.of_nat (length (filter (fun w => w = window) (tn_granted n))).

(** ** One call *)

Lemma validate_observation_lease b o r b' :
  validate_trace_admission_observation b o = (r, b') -> lease b' = None \/ lease b' = lease b.
Proof.
  unfold validate_trace_admission_observation. intros E.
  repeat (step_case_in E; try discriminate); injection E as <- <-; simpl; auto.
Qed.

Lemma advance_lease (c : bool) w b : lease (if c then advance w b else b) = None \/ lease (if c then advance w b else b) = lease b.
Proof. destruct c; auto. Qed.

(** What a call does to the row and to the process's lease. *)
Inductive charge_effect (window limit : Z) (b : TraceAdmissionBatch) (stored : Z * Z) : LoftResult unit -> TraceAdmissionBatch -> Z * Z -> Prop :=
| refused e b' : lease b' = None \/ lease b' = lease b -> charge_effect window limit b stored (Err e) b' stored
| spent l b' : lease b = Some l -> window_start_ms l = window -> 0 < remaining l ->
    lease b' = Some {| window_start_ms := window_start_ms l; lease_limit := lease_limit l; remaining := remaining l - 1;
                       reserved_through := reserved_through l |} ->
    charge_effect window limit b stored (Ok tt) b' stored
| reserved_slots k l b' row : reserve window limit stored = Ok (k, row) -> stored.1 <= window ->
    lease b' = Some l -> window_start_ms l = window -> remaining l = k - 1 ->
    charge_effect window limit b stored (Ok tt) b' row.

Lemma charge_durable_effect window limit b b0 stored r b' row :
  charge_durable window limit b stored = (r, b', row) -> charge_effect window limit b0 stored r b' row.
Proof.
  unfold charge_durable. intros E.
  destruct (load_trace_admission stored); [|injection E as <- <- <-; apply refused; by left].
  destruct (validate_trace_admission_observation _ stored) as [[|] b1] eqn:V;
    apply validate_observation_lease in V; cbn [lease with_lease] in V;
    assert (lease b1 = None) as V' by (by destruct V); [|injection E as <- <- <-; apply refused; by left].
  destruct (window <? stored.1) eqn:Hw; [injection E as <- <- <-; apply refused; by left|].
  destruct (reserve window limit stored) as [[k row']|] eqn:R; injection E as <- <- <-; [|apply refused; by left].
  b2p. by eapply reserved_slots.
Qed.

Lemma usable_lease_Some window limit b l :
  usable_lease window limit b = Some l -> lease b = Some l /\ window_start_ms l = window /\ 0 < remaining l.
Proof. unfold usable_lease. destruct (lease b) as [l'|]; [|done]. case_match; [|done]. intros [= ->]. b2p. done. Qed.

Lemma charge_effects timestamp_ms limit observed b stored r b' row :
  charge_trace_admission timestamp_ms limit observed b stored = (r, b', row) ->
  charge_effect (window_of timestamp_ms) limit b stored r b' row.
Proof.
  unfold charge_trace_admission. intros E.
  case_match; [injection E as <- <- <-; apply refused; by right|].
  case_match; [injection E as <- <- <-; apply refused; by right|].
  set (b1 := if highest_requested_window_start_ms b <? window_of timestamp_ms then _ else b) in E.
  assert (lease b1 = None \/ lease b1 = lease b) as L1 by apply advance_lease. clearbody b1.
  destruct (load_trace_admission observed); [|injection E as <- <- <-; by apply refused].
  destruct (validate_trace_admission_observation b1 observed) as [[|] b2] eqn:V; apply validate_observation_lease in V;
    assert (lease b2 = None \/ lease b2 = lease b) as L2 by (destruct V as [V|V]; rewrite V; auto);
    [|injection E as <- <- <-; by apply refused].
  set (b3 := if highest_requested_window_start_ms b2 <? observed.1 then _ else b2) in E.
  assert (lease b3 = None \/ lease b3 = lease b) as L3
    by (destruct (advance_lease (highest_requested_window_start_ms b2 <? observed.1) observed.1 b2) as [L|L]; subst b3; rewrite L; auto).
  clearbody b3.
  case_match; [injection E as <- <- <-; by apply refused|].
  destruct (usable_lease _ _ b3) as [l|] eqn:U; [|by eapply charge_durable_effect].
  apply usable_lease_Some in U as (Hl & Hw & Hr). destruct L3 as [L3|L3]; [congruence|].
  case_match; injection E as <- <- <-; [apply refused; by left|]. eapply spent; [by rewrite <-L3|done..].
Qed.

Lemma reserve_Ok window limit stored k row :
  reserve window limit stored = Ok (k, row) ->
  1 <= k /\ row = (window, (if stored.1 <? window then 0 else stored.2) + k) /\ row.2 <= limit.
Proof.
  unfold reserve. intros E. inv_ok. unfold to_i64 in *. inv_ok.
  apply pair_eq in E as [<- <-]. unfold checked_sub, checked_add in *. repeat case_match; simplify_eq; b2p; simpl.
  all: unfold TRACE_ADMISSION_BATCH_SIZE in *; (split; [lia|]); (split; [|lia]); f_equal; lia.
Qed.

(** ** Runs *)

Definition trace_lease (b : TraceAdmissionBatch) : option (Z * Z) := (fun l => (window_start_ms l, remaining l)) <$> lease b.

Definition trace_node (n : TraceNode) : Node TraceAdmissionBatch :=
  {| nd_row := tn_row n; nd_processes := tn_processes n; nd_granted := tn_granted n |}.

Lemma charge_grants window limit b stored r b' row :
  charge_effect window limit b stored r b' row -> grant_effect trace_lease window limit b stored (is_ok r) b' row.
Proof.
  intros [e b1 Hb|l b1 Hb Hw Hr Hb'|k l b1 row1 R Hle Hb Hw Hr]; cbn [is_ok].
  - apply grant_refused. unfold trace_lease. destruct Hb as [-> | ->]; auto.
  - eapply grant_spent; unfold trace_lease; [by rewrite Hb, <-Hw|done|by rewrite Hb', <-Hw].
  - apply reserve_Ok in R as (Hk & -> & Hrow). eapply grant_reserved; try done. unfold trace_lease. rewrite Hb. cbn. by rewrite Hw, Hr.
Qed.

Lemma trace_step_grants max_limit n n' : trace_step max_limit n n' -> grant_step batch_new trace_lease max_limit (trace_node n) (trace_node n').
Proof.
  intros [p ts limit observed r b row Hts Hl Ho E|p].
  - apply charge_effects, charge_grants in E. by apply (grant_charge batch_new trace_lease max_limit (trace_node n) p (window_of ts) limit (is_ok r) b row).
  - apply (grant_restart batch_new trace_lease max_limit (trace_node n) p).
Qed.

(** C34: however many processes share a loft's database, however often they crash and restart and however their calls
    interleave, the calls of [charge_trace_admission] that succeed for one UTC minute never exceed the configured limit: a
    restart cannot buy capture budget beyond what the storage plan covers. *)
Theorem trace_admission_bounded (max_limit : Z) (row : Z * Z) (n : TraceNode) (minute : Z) :
  0 <= max_limit -> 0 <= row.2 ->
  rtc (trace_step max_limit) (trace_started row) n ->
  granted_in minute n <= max_limit.
Proof.
  intros Hm Hr R. apply (grants_bounded batch_new trace_lease eq_refl max_limit row (trace_node n) minute Hm Hr).
  change (node_started row) with (trace_node (trace_started row)).
  eapply rtc_congruence; [|exact R]. intros x y. apply trace_step_grants.
Qed.
