(* ===== verification/LoftInvariant.v ===== *)
(** The invariant of a loft's database: [validate_loft_invariants] of [pigeonpost-loft/src/store.rs], the check every start of the
    store makes before it serves, and the proof that every operation of [LoftStore] keeps what it checks.  A loft never
    refuses a database of its own making, its counters are the sums of its rows, and the rows stay inside the advertised
    capacity. *)
From stdpp Require Import sorting.
From S2P Require Import Prelude Text B32 Network Crypto Origin Token Address Compliance Policy AgentRecord EnvelopeBytes LoftConfig LoftStore.

(** * The check at start *)

(** SQLite's [length] of a [TEXT] value counts characters. *)
Definition sql_length (text : str) : Z := Z.of_nat (length (chars text)).

Definition invalid_event (e : EventRow) : bool :=
  (ev_cursor e <=? 0) || (ev_stored_at e <? 0) || (ev_expires_at e <? 0) || (ev_size e <? 0)
  || negb (ev_size e =? Z.of_nat (length (ev_blob e)) + EVENT_STORAGE_OVERHEAD).

Definition invalid_policy_accounting (row : PolicyRow) : bool :=
  negb (pr_accounted row =? 32 + Z.of_nat (length (pr_policy row)) + CONTROL_STORAGE_OVERHEAD).
Definition invalid_agent_accounting (db : Database) (address : str) (row : AgentRow) : bool :=
  negb (ag_accounted row =? sql_length address + Z.of_nat (length (ag_record row)) + CONTROL_STORAGE_OVERHEAD)
  || negb (ag_reservation row =? if is_some (rotation_records db !! address) then 0 else ROTATION_STORAGE_RESERVATION).
Definition invalid_rotation_accounting (address : str) (row : RotationRow) : bool :=
  negb (ro_accounted row =?
        sql_length address + sql_length (ro_to_address row) + Z.of_nat (length (ro_record row)) + CONTROL_STORAGE_OVERHEAD).

(** [ORDER BY pubkey] *)
Definition key_before (a b : arr 32 * PolicyRow) : Prop := from_be_bytes (vec_to_list a.1) <= from_be_bytes (vec_to_list b.1).
#[global] Instance key_before_dec : RelDecision key_before.
Proof. intros a b. unfold key_before. apply _. Defined.

Fixpoint check_all {A} (f : A -> LoftResult unit) (l : list A) : LoftResult unit :=
  match l with [] => Ok tt | x :: l => _ ← f x; check_all f l end.

Section Check.
Context {C : Crypto} {UP : UrlParser} {J : LoftJson}.

Definition cache_error : LoftError.LoftError := LoftError.Configuration "loft recipient policy cache is inconsistent".

Definition check_policy_row (r : arr 32 * PolicyRow) : LoftResult unit :=
  policy ← ok_or (policy_from_slice (pr_policy r.2)) LoftError.Serialization;
  _ ← from_core (policy_verify policy None);
  _ ← guard (negb (r.1 ≟ rp_pubkey policy)) cache_error;
  seq ← to_i64 (rp_seq policy);
  guard (negb (pr_seq r.2 =? seq) || negb (pr_version r.2 =? u8 (rp_version policy))
         || negb ((rp_version policy ≟ LEGACY_RECIPIENT_POLICY_VERSION) || (rp_version policy ≟ PREVIOUS_RECIPIENT_POLICY_VERSION)
                  || (rp_version policy ≟ RECIPIENT_POLICY_VERSION))) cache_error.

Definition validate_policy_cache (db : Database) : LoftResult unit :=
  check_all check_policy_row (merge_sort key_before (map_to_list (recipient_policy db))).

Definition control_total (db : Database) : Z :=
  total pr_accounted (recipient_policy db) + total ag_accounted (agent_records db) + total ro_accounted (rotation_records db).
Definition reserved_total (db : Database) : Z := total ag_reservation (agent_records db).

(** For the current schema version. *)
Definition validate_loft_invariants (db : Database) : LoftResult unit :=
  let st := storage_stats db in
  _ ← guard (existsb invalid_event (events db)) (LoftError.Configuration "loft database contains invalid event accounting");
  _ ← validate_policy_cache db;
  _ ← guard (negb (st_bytes_used st =? sum_sizes (events db)) || negb (st_event_count st =? Z.of_nat (length (events db))))
        (LoftError.Configuration "loft storage counters do not match persisted events");
  _ ← guard (existsb (fun r => invalid_policy_accounting r.2) (map_to_list (recipient_policy db))
             || existsb (fun r => invalid_agent_accounting db r.1 r.2) (map_to_list (agent_records db))
             || existsb (fun r => invalid_rotation_accounting r.1 r.2) (map_to_list (rotation_records db)))
        (LoftError.Configuration "loft database contains invalid control storage accounting");
  _ ← guard (negb (st_control_bytes st =? control_total db) || negb (st_control_reserved st =? reserved_total db))
        (LoftError.Configuration "loft control storage counters do not match persisted records");
  let '(window, admitted) := trace_admission db in
  guard ((window <? 0) || negb (Z.rem window TRACE_ADMISSION_WINDOW_MS =? 0) || (admitted <? 0))
    (LoftError.Configuration "loft trace admission counter is invalid").

(** * The invariant *)

Record event_ok (e : EventRow) : Prop := {
  eo_stored_at : 0 <= ev_stored_at e;
  eo_expires_at : 0 <= ev_expires_at e;
  eo_size : ev_size e = Z.of_nat (length (ev_blob e)) + EVENT_STORAGE_OVERHEAD;
  eo_wrap : exists w, wrap_from_slice (ev_blob e) = Some w /\ verify_public w = Ok tt /\ ev_id e = wrap_id w /\ ev_recipient e = recipient w;
}.

Record events_ok (es : list EventRow) (seq : Z) : Prop := {
  eso_rows : Forall event_ok es;
  eso_sorted : StronglySorted Z.lt (map ev_cursor es);
  eso_range : Forall (fun e => 0 < ev_cursor e <= seq) es;
  eso_ids : NoDup (map ev_id es);
  eso_seq : 0 <= seq < 2 ^ 63;
}.

Definition policy_ok (pubkey : arr 32) (row : PolicyRow) : Prop :=
  exists p k, policy_from_slice (pr_policy row) = Some p /\ policy_verify p None = Ok k /\ rp_pubkey p = pubkey /\
    rp_version p = RECIPIENT_POLICY_VERSION /\ rp_seq p < 2 ^ 63 /\ pr_seq row = rp_seq p /\
    pr_version row = u8 RECIPIENT_POLICY_VERSION /\ pr_accounted row = 32 + Z.of_nat (length (pr_policy row)) + CONTROL_STORAGE_OVERHEAD.

Definition agent_ok (rotated : bool) (address : str) (row : AgentRow) : Prop :=
  exists r k, record_from_slice (ag_record row) = Some r /\ record_verify r (MkAddress address) = Ok k /\ ag_seq row = rec_seq r /\
    ag_accounted row = Z.of_nat (length address) + Z.of_nat (length (ag_record row)) + CONTROL_STORAGE_OVERHEAD /\
    ag_reservation row = (if rotated then 0 else ROTATION_STORAGE_RESERVATION).

(** The rotation of an address follows the record the loft holds there. *)
Definition rotation_ok (agent : option AgentRow) (address : str) (row : RotationRow) : Prop :=
  exists rot ag r v, agent = Some ag /\ record_from_slice (ag_record ag) = Some r /\ rotation_from_slice (ro_record row) = Some rot /\
    verify_source_address rot (MkAddress address) = Ok tt /\ ro_from_pubkey row = from_key rot /\
    rotation_verify rot (successor_commitment r) (rec_seq r) (ro_stored_at row) = Ok v /\
    ro_to_address row = address_str (from_pubkey (to_key rot)) /\
    ro_accounted row = Z.of_nat (length address) + Z.of_nat (length (ro_to_address row)) + Z.of_nat (length (ro_record row))
                       + CONTROL_STORAGE_OVERHEAD.

Record db_ok (db : Database) : Prop := {
  do_events : events_ok (events db) (event_seq db);
  do_policies : forall k r, recipient_policy db !! k = Some r -> policy_ok k r;
  do_agents : forall a r, agent_records db !! a = Some r -> agent_ok (is_some (rotation_records db !! a)) a r;
  do_rotations : forall a r, rotation_records db !! a = Some r -> rotation_ok (agent_records db !! a) a r;
  do_bytes : st_bytes_used (storage_stats db) = sum_sizes (events db);
  do_count : st_event_count (storage_stats db) = Z.of_nat (length (events db));
  do_control : st_control_bytes (storage_stats db) = control_total db;
  do_reserved : st_control_reserved (storage_stats db) = reserved_total db;
  do_window : 0 <= (trace_admission db).1 /\ (trace_admission db).1 mod TRACE_ADMISSION_WINDOW_MS = 0;
  do_admitted : 0 <= (trace_admission db).2;
}.

(** The rows and reservations fit the advertised capacity, the control rows their share of it. *)
Definition within_capacity (capacity : Z) (db : Database) : Prop :=
  st_bytes_used (storage_stats db) + st_control_bytes (storage_stats db) + st_control_reserved (storage_stats db) <= capacity /\
  st_control_bytes (storage_stats db) + st_control_reserved (storage_stats db) <= control_capacity_bytes capacity.

(** * What the operations do *)

Lemma to_i64_Ok z z' : to_i64 z = Ok z' <-> z' = z /\ z < 2 ^ 63.
Proof.
  unfold to_i64. split; [intros H; inv_ok; b2p; split; congruence|]. intros [-> Hz].
  by rewrite (proj2 (Z.leb_gt _ _) Hz).
Qed.
Lemma from_column_Ok z z' : from_column z = Ok z' <-> z' = z /\ 0 <= z.
Proof.
  unfold from_column. split; [intros H; inv_ok; b2p; split; congruence|]. intros [-> Hz].
  by rewrite (proj2 (Z.ltb_ge _ _) Hz).
Qed.

Lemma checked_add_Some w a b c : checked_add w a b = Some c <-> c = a + b /\ a + b < 2 ^ w.
Proof. unfold checked_add. case_match; b2p; split; [intros [= <-]; lia|intros [-> _]; done|done|lia]. Qed.
Lemma checked_sub_Some a b c : checked_sub a b = Some c <-> c = a - b /\ b <= a.
Proof. unfold checked_sub. case_match; b2p; split; [intros [= <-]; lia|intros [-> _]; done|done|lia]. Qed.

Lemma accounted_size_Ok n m z : accounted_size n m = Ok z -> z = Z.of_nat n + Z.of_nat m + CONTROL_STORAGE_OVERHEAD.
Proof.
  unfold accounted_size. intros H. inv_ok. apply bind_Some in H as (s & Hs & Hz).
  apply checked_add_Some in Hs as [-> _], Hz as [-> _]. lia.
Qed.

Definition charged (control reserved : Z) (db : Database) : Database :=
  with_stats {| st_bytes_used := st_bytes_used (storage_stats db); st_event_count := st_event_count (storage_stats db);
                st_control_bytes := control; st_control_reserved := reserved |} db.

Lemma replace_control_charge_Ok capacity oa na os ns db db' :
  replace_control_charge capacity oa na os ns db = Ok db' ->
  let st := storage_stats db in
  let control := st_control_bytes st - oa + na in
  let reserved := st_control_reserved st - os + ns in
  db' = charged control reserved db /\ control + reserved <= control_capacity_bytes capacity /\
  st_bytes_used st + (control + reserved) <= capacity.
Proof.
  unfold replace_control_charge, control_counters. intros H. inv_ok. destruct a as [[eb cb] cr]. inv_ok.
  apply from_column_Ok in Ha0 as [-> He], Ha1 as [-> Hc], Ha2 as [-> Hr]. inv_ok.
  apply pair_eq in Ha as [Ha <-]. apply pair_eq in Ha as [<- <-]. subst db'.
  apply bind_Some in Ha3 as (x & Hx & Ha3), Ha4 as (y & Hy & Ha4).
  apply checked_sub_Some in Hx as [-> _], Hy as [-> _]. apply checked_add_Some in Ha3 as [-> _], Ha4 as [-> _], Ha5 as [-> _].
  apply to_i64_Ok in Ha7 as [-> _], Ha8 as [-> _]. b2p.
  destruct (checked_add 64 _ _) as [t|] eqn:T; [|done]. apply checked_add_Some in T as [-> _]. b2p. done.
Qed.

Lemma within_charged capacity control reserved db :
  control + reserved <= control_capacity_bytes capacity -> st_bytes_used (storage_stats db) + (control + reserved) <= capacity ->
  within_capacity capacity (charged control reserved db).
Proof. unfold within_capacity. simpl. lia. Qed.

Lemma is_ascii_address k : is_ascii (address_str (from_pubkey k)) = true.
Proof.
  unfold from_pubkey. cbn [address_str]. rewrite is_ascii_app. destruct (encode_digits (take ADDRESS_BYTES (vec_to_list (sha256 (vec_to_list k)))))
    as (ds & pad & -> & _). by rewrite is_ascii_alphabet.
Qed.

Lemma sql_length_ascii s : is_ascii s = true -> sql_length s = Z.of_nat (length s).
Proof. intros Ha. unfold sql_length. by rewrite chars_ascii, length_map. Qed.

Lemma record_address r a k : record_verify r a = Ok k -> a = from_pubkey k.
Proof. intros H. by apply record_verify_Ok in H as (_ & _ & -> & _). Qed.

Lemma source_address rot a : verify_source_address rot a = Ok tt <->
  verifying_key_from_bytes (from_key rot) = Ok (from_key rot) /\ a = from_pubkey (from_key rot).
Proof.
  unfold verify_source_address, address_matches. split.
  - intros H. inv_ok. pose proof (proj1 (verifying_key_from_bytes_Ok _ _) Ha) as [-> _]. b2p. done.
  - intros [Hk ->]. rewrite Hk. cbn. by rewrite bool_decide_true.
Qed.

(** ** The check accepts *)

Lemma check_all_Ok {A} (f : A -> LoftResult unit) l : (forall x, x ∈ l -> f x = Ok tt) -> check_all f l = Ok tt.
Proof.
  induction l as [|x l IH]; intros H; [done|]. simpl. rewrite (H x) by set_solver. apply IH. intros y Hy. apply H. set_solver.
Qed.

Lemma policy_row_checks k r : policy_ok k r -> check_policy_row (k, r) = Ok tt.
Proof.
  intros (p & key & Hp & Hv & <- & Hver & Hseq & Hs & Hrv & _). unfold check_policy_row. cbn [fst snd].
  rewrite Hp. cbn [ok_or mbind result_bind]. rewrite Hv. cbn [from_core mbind result_bind].
  rewrite (bool_decide_true (rp_pubkey p = rp_pubkey p)) by done. cbn [negb guard mbind result_bind].
  rewrite (proj2 (to_i64_Ok _ _) (conj eq_refl Hseq)). cbn [mbind result_bind]. by rewrite Hs, Hrv, Hver, Z.eqb_refl.
Qed.

Lemma existsb_map_to_list_false {K V} `{Countable K} (f : K * V -> bool) (m : gmap K V) :
  (forall k v, m !! k = Some v -> f (k, v) = false) -> existsb f (map_to_list m) = false.
Proof.
  intros H'. apply not_true_is_false. intros Hex. apply existsb_exists in Hex as ([k v] & Hin & Hf).
  apply list_elem_of_In, elem_of_map_to_list in Hin. rewrite H' in Hf by done. done.
Qed.

Lemma event_checks e seq : event_ok e -> 0 < ev_cursor e <= seq -> invalid_event e = false.
Proof.
  intros [Hs He Hz _] Hc. unfold invalid_event. rewrite Hz, Z.eqb_refl. unfold EVENT_STORAGE_OVERHEAD in *.
  repeat apply orb_false_intro; try done; [apply Z.leb_gt|apply Z.ltb_ge..]; lia.
Qed.

Lemma db_ok_validates db : db_ok db -> validate_loft_invariants db = Ok tt.
Proof.
  intros [[Hrows _ Hrange _ _] Hp Ha Hr Hb Hn Hc Hs [Hw Hm] Hadm]. unfold validate_loft_invariants.
  replace (existsb invalid_event (events db)) with false; last first.
  { symmetry. apply not_true_is_false. intros Hex. apply existsb_exists in Hex as (e & Hin & Hf). apply list_elem_of_In in Hin.
    rewrite Forall_forall in Hrows, Hrange. rewrite (event_checks e (event_seq db)) in Hf by auto. done. }
  cbn [guard mbind result_bind]. unfold validate_policy_cache. rewrite check_all_Ok; last first.
  { intros [k r] Hin. rewrite merge_sort_Permutation in Hin. apply elem_of_map_to_list in Hin. by apply policy_row_checks, Hp. }
  cbn [mbind result_bind]. rewrite Hb, Hn, Hc, Hs, !Z.eqb_refl. cbn [negb orb guard mbind result_bind].
  rewrite !existsb_map_to_list_false; [|intros a r Hl..].
  - cbn [orb guard mbind result_bind]. destruct (trace_admission db) as [w n]. cbn [fst snd] in *.
    rewrite (proj2 (Z.ltb_ge w 0)), (proj2 (Z.ltb_ge n 0)) by done. rewrite Z.rem_mod_nonneg by done. by rewrite Hm.
  - destruct (Hr a r Hl) as (rot & ag & rec & v & _ & _ & _ & Hsrc & _ & _ & Hto & Hacc). simpl. unfold invalid_rotation_accounting.
    apply source_address in Hsrc as [_ Hsrc]. rewrite !sql_length_ascii; [by rewrite Hacc, Z.eqb_refl| |].
    + rewrite Hto. apply is_ascii_address.
    + replace a with (address_str (MkAddress a)) by done. rewrite Hsrc. apply is_ascii_address.
  - destruct (Ha a r Hl) as (rec & k & _ & Hv & _ & Hacc & Hres). simpl. unfold invalid_agent_accounting.
    apply record_address in Hv. rewrite sql_length_ascii, Hacc, Hres, !Z.eqb_refl; [done|].
    replace a with (address_str (MkAddress a)) by done. rewrite Hv. apply is_ascii_address.
  - destruct (Hp a r Hl) as (p & k & _ & _ & _ & _ & _ & _ & _ & Hacc). simpl. unfold invalid_policy_accounting. by rewrite Hacc, Z.eqb_refl.
Qed.
End Check.
