(* ===== verification/LoftSteps.v ===== *)
(** Every operation of a loft's store keeps [db_ok] and the capacity: what each transaction of [LoftStore] does to
    the tables when it commits, and the invariant behind it. *)
From stdpp Require Import sorting.
From S2P Require Import Prelude Text B32 Network Crypto Origin Token Address Compliance Policy AgentRecord EnvelopeBytes LoftConfig LoftStore LoftTrace LoftInvariant.

(** * Lists of rows *)

Lemma sum_sizes_app es es' : sum_sizes (es ++ es') = sum_sizes es + sum_sizes es'.
Proof. induction es as [|e es IH]; simpl; [done|]. unfold sum_sizes in *. lia. Qed.

Lemma sum_sizes_perm es es' : es ≡ₚ es' -> sum_sizes es = sum_sizes es'.
Proof. induction 1; simpl in *; lia. Qed.

Lemma StronglySorted_snoc {A} (R : A -> A -> Prop) l x : StronglySorted R l -> Forall (fun y => R y x) l -> StronglySorted R (l ++ [x]).
Proof.
  induction 1 as [|y l Hs IH Hy]; simpl; intros Hx; [repeat constructor|]. apply Forall_cons in Hx as [Hyx Hx].
  constructor; [by apply IH|]. apply Forall_app. auto.
Qed.

Lemma StronglySorted_sublist {A} (R : A -> A -> Prop) l k : sublist l k -> StronglySorted R k -> StronglySorted R l.
Proof.
  induction 1 as [|x l k Hl IH|x l k Hl IH]; intros Hk; [done| |]; apply StronglySorted_inv in Hk as [Hk Hx]; [|by apply IH].
  constructor; [by apply IH|]. rewrite Forall_forall in *. eauto using elem_of_sublist.
Qed.

Lemma sublist_map {A B} (f : A -> B) l k : sublist l k -> sublist (map f l) (map f k).
Proof. induction 1; simpl; by constructor. Qed.

Lemma sorted_NoDup (l : list Z) : StronglySorted Z.lt l -> NoDup l.
Proof.
  induction 1 as [|x l Hl IH Hx]; constructor; [|done]. intros Hin. rewrite Forall_forall in Hx. specialize (Hx x Hin). lia.
Qed.

Lemma map_NoDup_inj {A B} (f : A -> B) l x y : NoDup (map f l) -> x ∈ l -> y ∈ l -> f x = f y -> x = y.
Proof.
  induction l as [|z l IH]; intros Hn Hx Hy E; [by apply not_elem_of_nil in Hx|]. apply NoDup_cons in Hn as [Hz Hn].
  apply elem_of_cons in Hx as [->|Hx], Hy as [->|Hy]; [done| | |by apply IH].
  - destruct Hz. rewrite E. by apply list_elem_of_fmap_2.
  - destruct Hz. rewrite <-E. by apply list_elem_of_fmap_2.
Qed.

Section Steps.
Context {C : Crypto} {UP : UrlParser} {J : LoftJson} {JL : LoftJsonLaws}.

(** * Events *)

#[global] Instance EventRow_eq_dec : EqDecision EventRow.
Proof. solve_decision. Defined.

Definition appended (row : EventRow) (db : Database) : Database :=
  let st := storage_stats db in
  with_events (events db ++ [row]) (ev_cursor row)
    {| st_bytes_used := st_bytes_used st + ev_size row; st_event_count := st_event_count st + 1;
       st_control_bytes := st_control_bytes st; st_control_reserved := st_control_reserved st |} db.

(** A new event follows every earlier one, and is stored under the policy the caller expected. *)
Lemma insert_event_Ok w id stored expires capacity expected db b db' :
  insert_event w id stored expires capacity expected db = Ok (b, db') ->
  (b = false /\ db' = db /\ id ∈ map ev_id (events db)) \/
  (b = true /\ exists row, db' = appended row db /\ id ∉ map ev_id (events db) /\
     stored_seq (recipient_policy db !! recipient w) = Ok expected /\
     ev_cursor row = event_seq db + 1 /\ ev_cursor row < 2 ^ 63 /\ ev_id row = id /\ ev_recipient row = recipient w /\
     ev_stored_at row = stored /\ ev_expires_at row = expires /\ wrap_to_vec w = Some (ev_blob row) /\
     ev_size row = Z.of_nat (length (ev_blob row)) + EVENT_STORAGE_OVERHEAD /\
     st_bytes_used (storage_stats db) + st_control_bytes (storage_stats db) + st_control_reserved (storage_stats db) + ev_size row <= capacity).
Proof.
  unfold insert_event. intros H. inv_ok. destruct (existsb _ _) eqn:Hdup.
  - left. inv_ok. apply pair_eq in H as [<- <-]. split_and!; [done..|]. apply existsb_exists in Hdup as (e & Hin & He).
    apply list_elem_of_In in Hin. b2p. subst. by apply list_elem_of_fmap_2.
  - right. inv_ok. unfold control_counters in *. destruct a2 as [[eb cb] cr]. inv_ok. unfold next_cursor in *. inv_ok.
    repeat match goal with E : from_column _ = Ok _ |- _ => apply from_column_Ok in E as [-> ?] end.
    repeat match goal with E : to_i64 _ = Ok _ |- _ => apply to_i64_Ok in E as [-> ?] end.
    apply pair_eq in H as [<- <-]. split; [done|]. subst.
    match goal with |- context [events db ++ [?row]] => exists row end. split; [reflexivity|]. b2p.
    apply pair_eq in Ha2 as [Hx <-]. apply pair_eq in Hx as [<- <-]. apply bind_Some in Ha3 as (u & Hu & Ha3).
    apply checked_add_Some in Hu as [-> _], Ha3 as [-> _]. cbn [ev_cursor ev_id ev_recipient ev_stored_at ev_expires_at ev_blob ev_size].
    unfold EVENT_STORAGE_OVERHEAD, saturating_add, saturating_sub in *. split_and!; try done; try lia.
    + intros Hin. apply list_elem_of_fmap in Hin as (e & -> & Hin). apply not_true_iff_false in Hdup. destruct Hdup. apply existsb_exists.
      exists e. split; [by apply list_elem_of_In|by apply bool_decide_eq_true].
    + congruence.
Qed.

Lemma admit_event_Ok w id stored expires capacity expected db b db' :
  admit_event w id stored expires capacity expected db = Ok (b, db') ->
  verify_public w = Ok tt /\ id = wrap_id w /\ insert_event w id stored expires capacity expected db = Ok (b, db').
Proof.
  unfold admit_event. intros H. inv_ok. apply from_core_Ok in Ha. b2p. by destruct a.
Qed.

Lemma admit_preserves w id stored expires capacity expected db b db' :
  0 <= stored -> 0 <= expires -> admit_event w id stored expires capacity expected db = Ok (b, db') ->
  db_ok db -> within_capacity capacity db -> db_ok db' /\ within_capacity capacity db'.
Proof.
  intros Hs He H D W. apply admit_event_Ok in H as (Hv & -> & H).
  apply insert_event_Ok in H as [(_ & -> & _)|(_ & row & -> & Hnew & _ & Hc & Hmax & Hid & Hrec & Hst & Hex & Hblob & Hsize & Hcap)]; [done|].
  destruct D as [[Hrows Hsort Hrange Hids Hseq] ? ? ? Hb Hn ? ? ? ?]. split; [|by destruct W; split; simpl; lia].
  split; simpl; try done; [|rewrite sum_sizes_app; simpl; lia|rewrite length_app; simpl; lia].
  assert (event_ok row) as Hrow.
  { split; [lia..|done|]. exists w. split_and!; [by apply wrap_json|done|congruence|done]. }
  rewrite Forall_forall in Hrange. split.
  - apply Forall_app. auto.
  - rewrite map_app. apply StronglySorted_snoc; [done|]. apply Forall_forall. intros c Hin.
    apply list_elem_of_fmap in Hin as (e & -> & Hin). specialize (Hrange e Hin). lia.
  - apply Forall_app. split; [|by repeat constructor; lia]. apply Forall_forall. intros e Hin. specialize (Hrange e Hin). lia.
  - rewrite map_app. apply NoDup_app. split; [done|]. split; [|apply NoDup_singleton]. intros x Hx Hx'. apply list_elem_of_singleton in Hx'.
    simpl in Hx'. congruence.
  - lia.
Qed.

(** * Retention *)

(** The rows a sweep removes: members of the table, each once. *)
Lemma expired_batch_elem now batch db e : e ∈ expired_batch now batch db -> e ∈ events db /\ ev_expires_at e <= now.
Proof.
  unfold expired_batch. intros Hin. pose proof (elem_of_sublist _ _ _ Hin (sublist_take _ _)) as Hin'.
  rewrite merge_sort_Permutation in Hin'.
  apply list_elem_of_filter in Hin' as [? ?]. done.
Qed.

Lemma expired_batch_NoDup now batch db : NoDup (events db) -> NoDup (expired_batch now batch db).
Proof.
  intros Hn. unfold expired_batch. eapply sublist_NoDup; [|apply sublist_take]. rewrite merge_sort_Permutation. by apply NoDup_filter.
Qed.

Definition swept (doomed : list EventRow) (db : Database) : list EventRow :=
  filter (fun e => ev_cursor e ∉ map ev_cursor doomed) (events db).

Lemma swept_elem doomed db e : events_ok (events db) (event_seq db) -> (forall d, d ∈ doomed -> d ∈ events db) ->
  e ∈ swept doomed db <-> e ∈ events db /\ e ∉ doomed.
Proof.
  intros E Hd. unfold swept. rewrite list_elem_of_filter. split; intros [H1 H2].
  - split; [done|]. intros Hin. destruct H1. by apply list_elem_of_fmap_2.
  - split; [|done]. intros Hin. apply list_elem_of_fmap in Hin as (d & Hc & Hin).
    assert (e = d) as -> by (eapply (map_NoDup_inj ev_cursor); [apply sorted_NoDup, E|done|by apply Hd|done]). done.
Qed.

Lemma events_NoDup es seq : events_ok es seq -> NoDup es.
Proof. intros E. eapply NoDup_fmap_1, (sorted_NoDup (map ev_cursor es)), E. Qed.

(** The table is what is kept and what is removed. *)
Lemma swept_partition doomed db : events_ok (events db) (event_seq db) -> NoDup doomed -> (forall d, d ∈ doomed -> d ∈ events db) ->
  events db ≡ₚ swept doomed db ++ doomed.
Proof.
  intros E Hn Hd. apply NoDup_Permutation; [by eapply events_NoDup| |].
  - apply NoDup_app. split; [by apply NoDup_filter; eapply events_NoDup|]. split; [|done]. intros e He. by apply swept_elem in He as [_ ?].
  - intros e. rewrite elem_of_app, swept_elem by done. destruct (decide (e ∈ doomed)); naive_solver.
Qed.

Lemma swept_events_ok doomed db : events_ok (events db) (event_seq db) -> events_ok (swept doomed db) (event_seq db).
Proof.
  intros [Hrows Hsort Hrange Hids Hseq]. assert (sublist (swept doomed db) (events db)) as Hsub by apply sublist_filter.
  split; [| | | |done].
  - rewrite Forall_forall in *. eauto using elem_of_sublist.
  - eapply StronglySorted_sublist; [by apply sublist_map|done].
  - rewrite Forall_forall in *. eauto using elem_of_sublist.
  - eapply sublist_NoDup; [done|by apply sublist_map].
Qed.

Lemma sweep_Ok now batch db n db' : sweep_expired now batch db = Ok (n, db') -> events_ok (events db) (event_seq db) ->
  let doomed := expired_batch now batch db in
  (n = O /\ db' = db /\ (batch = O \/ doomed = [])) \/
  (n = length doomed /\ n <> O /\
   db' = with_events (swept doomed db) (event_seq db)
           {| st_bytes_used := st_bytes_used (storage_stats db) - sum_sizes doomed;
              st_event_count := st_event_count (storage_stats db) - Z.of_nat (length doomed);
              st_control_bytes := st_control_bytes (storage_stats db); st_control_reserved := st_control_reserved (storage_stats db) |} db).
Proof.
  unfold sweep_expired. intros H E. destruct (batch =? 0)%nat eqn:Hz.
  { inv_ok. apply pair_eq in H as [<- <-]. left. b2p. auto. }
  inv_ok. apply to_i64_Ok in Ha as [-> _], Ha0 as [-> _]. rewrite Nat2Z.id in H.
  destruct (length (expired_batch now batch db) =? 0)%nat eqn:Hc.
  { inv_ok. apply pair_eq in H as [<- <-]. left. b2p. apply nil_length_inv in Hc. auto. }
  inv_ok. apply pair_eq in H as [<- <-]. right. b2p. split; [done|]. split; [lia|done].
Qed.

Lemma sweep_preserves now batch capacity db n db' :
  sweep_expired now batch db = Ok (n, db') -> db_ok db -> within_capacity capacity db ->
  db_ok db' /\ within_capacity capacity db'.
Proof.
  intros H D W. pose proof (do_events _ D) as E. destruct (sweep_Ok _ _ _ _ _ H E) as [(_ & -> & _)|(-> & _ & ->)]; [done|].
  set (doomed := expired_batch now batch db).
  assert (forall d, d ∈ doomed -> d ∈ events db) as Hd by (intros d Hd; exact (proj1 (expired_batch_elem _ _ _ _ Hd))).
  assert (NoDup doomed) as Hn by (apply expired_batch_NoDup; by eapply events_NoDup).
  pose proof (swept_partition doomed db E Hn Hd) as P. destruct D as [_ ? ? ? Hb Hc ? ? ? ?]. split.
  - split; simpl; try done.
    + by apply swept_events_ok.
    + rewrite Hb, (sum_sizes_perm _ _ P), sum_sizes_app. lia.
    + rewrite Hc, (Permutation_length P), length_app. lia.
  - assert (0 <= sum_sizes doomed).
    { clearbody doomed. clear P Hn. induction doomed as [|e es IH]; simpl; [done|]. unfold sum_sizes in *.
      destruct E as [Hr _ _ _ _]. rewrite Forall_forall in Hr. pose proof (eo_size _ (Hr e (Hd e ltac:(set_solver)))).
      unfold EVENT_STORAGE_OVERHEAD in *. specialize (IH ltac:(set_solver)). lia. }
    destruct W; split; simpl; lia.
Qed.
End Steps.
