(* ===== verification/LoftControl.v ===== *)
(** The control rows of a loft's store (policies, agent records, rotations): what each transaction of [LoftStore] writes when it
    commits, and that it keeps [db_ok] and the capacity. *)
From S2P Require Import Prelude Text B32 Network Crypto Origin Token Address Compliance Policy AgentRecord EnvelopeBytes LoftConfig LoftStore LoftTrace LoftInvariant.

Section Control.
Context {C : Crypto} {UP : UrlParser} {J : LoftJson} {JL : LoftJsonLaws}.

(** * Policies *)

Lemma stored_seq_Some row last : stored_seq (Some row) = Ok last ->
  exists p k, policy_from_slice (pr_policy row) = Some p /\ policy_verify p None = Ok k /\ last = Some (rp_seq p).
Proof.
  unfold stored_seq, decode_policy. intros H. inv_ok. apply from_core_Ok in Ha1. subst. eauto.
Qed.

(** Either the very bytes are there already, or the signed policy replaces a row it supersedes. *)
Lemma put_policy_Ok p capacity now db u db' :
  put_policy p capacity now db = Ok (u, db') ->
  (db' = db /\ exists row, recipient_policy db !! rp_pubkey p = Some row /\ policy_to_vec p = Some (pr_policy row)) \/
  exists row k last,
    policy_to_vec p = Some (pr_policy row) /\ rp_version p = RECIPIENT_POLICY_VERSION /\
    stored_seq (recipient_policy db !! rp_pubkey p) = Ok last /\ policy_verify p last = Ok k /\
    pr_seq row = rp_seq p /\ rp_seq p < 2 ^ 63 /\ pr_version row = u8 (rp_version p) /\
    pr_accounted row = 32 + Z.of_nat (length (pr_policy row)) + CONTROL_STORAGE_OVERHEAD /\
    let old := default 0 (pr_accounted <$> recipient_policy db !! rp_pubkey p) in
    let control := st_control_bytes (storage_stats db) - old + pr_accounted row in
    let reserved := st_control_reserved (storage_stats db) in
    db' = with_policies (<[rp_pubkey p := row]> (recipient_policy db)) (charged control reserved db) /\
    control + reserved <= control_capacity_bytes capacity /\ st_bytes_used (storage_stats db) + (control + reserved) <= capacity.
Proof.
  unfold put_policy. intros H. inv_ok. destruct (match recipient_policy db !! rp_pubkey p with Some row => pr_policy row ≟ a0 | None => false end) eqn:Hid.
  - left. inv_ok. apply pair_eq in H as [_ <-]. split; [done|]. destruct (recipient_policy db !! rp_pubkey p) as [row|]; [|done].
    exists row. b2p. by subst.
  - right. inv_ok. b2p. apply pair_eq in H as [_ <-]. apply from_core_Ok in Ha3. apply accounted_size_Ok in Ha1.
    apply to_i64_Ok in Ha6 as [-> Hs], Ha7 as [-> _], Ha8 as [-> _]. apply replace_control_charge_Ok in Ha5 as (-> & Hc & Ht).
    assert (a4 = default 0 (pr_accounted <$> recipient_policy db !! rp_pubkey p)) as ->.
    { destruct (recipient_policy db !! rp_pubkey p); simpl; inv_ok; [|done]. by apply from_column_Ok in Ha4 as [-> _]. }
    match goal with |- context [<[_ := ?row]>] => exists row, a3, a2 end. cbn [pr_policy pr_seq pr_version pr_accounted].
    rewrite Z.sub_0_r, Z.add_0_r in *. split_and!; try done. lia.
Qed.

Lemma policy_verify_fresh p last k : policy_verify p last = Ok k -> policy_verify p None = Ok k.
Proof. rewrite !policy_verify_Ok. intros (? & _ & ?). done. Qed.

Lemma put_policy_preserves p capacity now db u db' :
  put_policy p capacity now db = Ok (u, db') -> db_ok db -> within_capacity capacity db -> db_ok db' /\ within_capacity capacity db'.
Proof.
  intros H D W. apply put_policy_Ok in H as [(-> & _)|(row & k & last & Hb & Hv & _ & Hver & Hseq & Hlt & Hrv & Hacc & -> & Hc & Ht)]; [done|].
  destruct D as [? Hp ? ? ? ? Hcon Hres ? ?]. split; [|by apply within_charged].
  split; simpl; try done.
  - intros key r. rewrite lookup_insert_Some. intros [[<- <-]|[_ Hl]]; [|by apply Hp]. exists p, k.
    split_and!; try done; [by apply policy_json|by eapply policy_verify_fresh|congruence].
  - rewrite Hcon. unfold control_total. simpl. rewrite total_insert. lia.
Qed.

(** * Agent records *)

Lemma supersedes_Ok address record row db :
  supersedes address record row db = Ok tt ->
  rotation_records db !! address_str address = None /\
  exists prior k, record_from_slice (ag_record row) = Some prior /\ record_verify prior address = Ok k /\
    successor_hash prior = successor_hash record /\ rec_seq prior < rec_seq record.
Proof.
  unfold supersedes. intros H. inv_ok. apply from_core_Ok in Ha1. b2p. split; [by destruct (rotation_records db !! _)|]. eauto 8.
Qed.

Lemma put_agent_record_Ok address record capacity now db u db' :
  put_agent_record address record capacity now db = Ok (u, db') ->
  exists a k blob, parse address = Ok a /\ record_verify record a = Ok k /\ record_to_vec record = Some blob /\
  let existing := agent_records db !! address_str a in
  (db' = db /\ exists row, existing = Some row /\ ag_record row = blob) \/
  exists row, ag_record row = blob /\ ag_seq row = rec_seq record /\
    (forall prior, existing = Some prior -> supersedes a record prior db = Ok tt) /\
    ag_accounted row = Z.of_nat (length (address_str a)) + Z.of_nat (length blob) + CONTROL_STORAGE_OVERHEAD /\
    ag_reservation row = default ROTATION_STORAGE_RESERVATION (ag_reservation <$> existing) /\
    let control := st_control_bytes (storage_stats db) - default 0 (ag_accounted <$> existing) + ag_accounted row in
    let reserved := st_control_reserved (storage_stats db) - default 0 (ag_reservation <$> existing) + ag_reservation row in
    db' = with_agents (<[address_str a := row]> (agent_records db)) (charged control reserved db) /\
    control + reserved <= control_capacity_bytes capacity /\ st_bytes_used (storage_stats db) + (control + reserved) <= capacity.
Proof.
  unfold put_agent_record. intros H. inv_ok. apply from_core_Ok in Ha, Ha1. exists a, a1, a2. split_and!; [done..|].
  destruct (match agent_records db !! address_str a with Some row => ag_record row ≟ a2 | None => false end) eqn:Hid.
  - left. inv_ok. apply pair_eq in H as [_ <-]. split; [done|]. destruct (agent_records db !! address_str a) as [row|]; [|done].
    exists row. b2p. by subst.
  - right. inv_ok. apply accounted_size_Ok in Ha3. destruct a5 as [oa reservation]. inv_ok. apply pair_eq in H as [_ <-].
    apply to_i64_Ok in Ha7 as [-> _], Ha8 as [-> _], Ha9 as [-> _], Ha10 as [-> _]. apply replace_control_charge_Ok in Ha6 as (-> & Hc & Ht).
    exists a10. destruct (agent_records db !! address_str a) as [prior|]; cbn [fmap option_fmap option_map default from_option]; inv_ok.
    + apply from_column_Ok in Ha7 as [-> _], Ha8 as [-> _]. apply pair_eq in Ha5 as [<- <-]. subst a10.
      cbn [ag_record ag_seq ag_accounted ag_reservation] in *. split_and!; try done; [|lia]. intros ? [= <-]. by destruct a4.
    + apply pair_eq in Ha5 as [<- <-]. subst a10. cbn [ag_record ag_seq ag_accounted ag_reservation] in *.
      split_and!; try done. lia.
Qed.

Lemma put_agent_record_preserves address record capacity now db u db' :
  put_agent_record address record capacity now db = Ok (u, db') -> db_ok db -> within_capacity capacity db ->
  db_ok db' /\ within_capacity capacity db'.
Proof.
  intros H D W. apply put_agent_record_Ok in H as (a & k & blob & _ & Hv & Hb & [(-> & _)|(row & Hblob & Hseq & Hsup & Hacc & Hrsv & -> & Hc & Ht)]); [done|].
  destruct D as [? ? Ha Hr ? ? Hcon Hres ? ?]. split; [|by apply within_charged].
  assert (rotation_records db !! address_str a = None) as Hnone.
  { destruct (agent_records db !! address_str a) as [prior|] eqn:E; [by eapply supersedes_Ok, Hsup|].
    destruct (rotation_records db !! address_str a) as [ro|] eqn:R; [|done].
    destruct (Hr _ _ R) as (? & ? & ? & ? & Hag & _). rewrite E in Hag. done. }
  split; simpl; try done.
  - intros ad r. rewrite lookup_insert_Some. intros [[<- <-]|[_ Hl]]; [|by apply Ha]. rewrite Hnone.
    exists record, k. split_and!; [rewrite Hblob; by apply record_json|by destruct a|done|by rewrite Hblob, Hacc|].
    rewrite Hrsv. destruct (agent_records db !! address_str a) as [prior|] eqn:E; [|done]. simpl.
    destruct (Ha _ _ E) as (? & ? & _ & _ & _ & _ & Hx). by rewrite Hnone in Hx.
  - intros ad r Hl. destruct (decide (address_str a = ad)) as [<-|Hne]; [by rewrite Hnone in Hl|]. rewrite lookup_insert_ne by done. by apply Hr.
  - rewrite Hcon. unfold control_total. simpl. rewrite total_insert. lia.
  - rewrite Hres. unfold reserved_total. simpl. rewrite total_insert. lia.
Qed.

(** * Rotations *)

Lemma rotation_unique row db a rot :
  db_ok db -> rotation_records db !! a = None -> verify_source_address rot (MkAddress a) = Ok tt -> ro_from_pubkey row = from_key rot ->
  forallb (fun '(_, other) => negb (ro_from_pubkey other ≟ ro_from_pubkey row)) (map_to_list (rotation_records db)) = true.
Proof.
  intros D Hn Hs Hf. apply forallb_forall. intros [ad other] Hin. apply list_elem_of_In, elem_of_map_to_list in Hin.
  apply negb_true_iff, bool_decide_eq_false. intros E. destruct (do_rotations _ D _ _ Hin) as (rot' & ? & ? & ? & _ & _ & _ & Hs' & Hf' & _).
  apply source_address in Hs as [_ Hs], Hs' as [_ Hs']. rewrite <-Hf', E, Hf, <-Hs in Hs'. injection Hs' as ->. congruence.
Qed.

Lemma put_rotation_record_Ok address record now capacity db b db' :
  put_rotation_record address record now capacity db = Ok (b, db') ->
  exists a blob target, parse address = Ok a /\ verify_source_address record a = Ok tt /\ rotation_to_vec record = Some blob /\
  target_address record = Ok target /\
  ((b = false /\ db' = db /\ exists row, rotation_records db !! address_str a = Some row /\ ro_record row = blob) \/
   (b = true /\ rotation_records db !! address_str a = None /\ exists ag r v row,
      agent_records db !! address_str a = Some ag /\ record_from_slice (ag_record ag) = Some r /\
      rotation_verify record (successor_commitment r) (rec_seq r) now = Ok v /\
      ro_from_pubkey row = from_key record /\ ro_to_address row = address_str target /\ ro_record row = blob /\ ro_stored_at row = now /\
      ro_accounted row = Z.of_nat (length (address_str a)) + Z.of_nat (length (address_str target)) + Z.of_nat (length blob) + CONTROL_STORAGE_OVERHEAD /\
      let used := {| ag_seq := ag_seq ag; ag_record := ag_record ag; ag_updated_at := ag_updated_at ag; ag_accounted := ag_accounted ag;
                     ag_reservation := 0 |} in
      let control := st_control_bytes (storage_stats db) + ro_accounted row in
      let reserved := st_control_reserved (storage_stats db) - ag_reservation ag in
      db' = with_rotations (<[address_str a := row]> (rotation_records db))
              (with_agents (<[address_str a := used]> (agent_records db)) (charged control reserved db)) /\
      control + reserved <= control_capacity_bytes capacity /\ st_bytes_used (storage_stats db) + (control + reserved) <= capacity)).
Proof.
  unfold put_rotation_record. intros H. inv_ok. apply from_core_Ok in Ha, Ha0, Ha2. destruct a0. exists a, a1, a2. split_and!; [done..|].
  apply accounted_size_Ok in Ha3. destruct (rotation_records db !! address_str a) as [ro|].
  - left. destruct (ro_record ro ≟ a1) eqn:E; [|done]. inv_ok. apply pair_eq in H as [<- <-]. b2p. eauto 6.
  - right. inv_ok. apply pair_eq in H as [<- <-]. split; [done|]. split; [done|].
    repeat match goal with
    | E : to_i64 _ = Ok _ |- _ => apply to_i64_Ok in E as [-> _]
    | E : from_column _ = Ok _ |- _ => apply from_column_Ok in E as [-> _]
    | E : from_core _ = Ok _ |- _ => apply from_core_Ok in E
    | E : replace_control_charge _ _ _ _ _ _ = Ok _ |- _ => apply replace_control_charge_Ok in E as (-> & Hc & Ht)
    end.
    rewrite Z.sub_0_r, Z.add_0_r in *. do 3 eexists.
    match goal with |- context [with_rotations (<[_ := ?row]> _)] => exists row end.
    cbn [ro_from_pubkey ro_to_address ro_record ro_stored_at ro_accounted]. split_and!; try done; [done..|lia].
Qed.

Lemma target_address_Ok rot a : target_address rot = Ok a -> a = from_pubkey (to_key rot).
Proof.
  unfold target_address. intros H. inv_ok. subst. by pose proof (proj1 (verifying_key_from_bytes_Ok _ _) Ha) as [-> _].
Qed.

Lemma put_rotation_record_preserves address record now capacity db b db' :
  put_rotation_record address record now capacity db = Ok (b, db') -> db_ok db -> within_capacity capacity db ->
  db_ok db' /\ within_capacity capacity db'.
Proof.
  intros H D W. apply put_rotation_record_Ok in H as (a & blob & target & _ & Hs & Hb & Htar &
    [(_ & -> & _)|(_ & Hnone & ag & r & v & row & Hag & Hr & Hv & Hf & Hto & Hblob & Hst & Hacc & -> & Hc & Ht)]); [done|].
  apply target_address_Ok in Htar as ->. destruct D as [? ? Ha Hro ? ? Hcon Hres ? ?]. split; [|by apply within_charged].
  destruct (Ha _ _ Hag) as (r' & k & Hr' & Hv' & Hseq & Hagacc & Hrsv). rewrite Hr in Hr'. injection Hr' as <-. rewrite Hnone in Hrsv.
  split; simpl; try done.
  - intros ad x. rewrite lookup_insert_Some. intros [[<- <-]|[Hne Hl]].
    + rewrite lookup_insert_eq. by exists r, k.
    + rewrite lookup_insert_ne by done. by apply Ha.
  - intros ad x. rewrite lookup_insert_Some. intros [[<- <-]|[Hne Hl]].
    + rewrite lookup_insert_eq. eexists record, _, r, v. split_and!; [done|done|rewrite Hblob; by apply rotation_json|by destruct a|done| |by rewrite Hto|].
      * by rewrite Hst.
      * by rewrite Hacc, Hto, Hblob.
    + rewrite lookup_insert_ne by done. by apply Hro.
  - rewrite Hcon. unfold control_total. simpl. rewrite !total_insert, Hag, Hnone. simpl. lia.
  - rewrite Hres. unfold reserved_total. simpl. rewrite total_insert, Hag. simpl. lia.
Qed.

(** ** A rotation always fits *)

Lemma total_lookup_le {K V} `{Countable K} (f : V -> Z) (m : gmap K V) k v :
  (forall k v, m !! k = Some v -> 0 <= f v) -> m !! k = Some v -> f v <= total f m.
Proof.
  intros Hp Hk. rewrite (total_delete f m k), Hk. simpl.
  enough (0 <= total f (delete k m)) by lia. apply total_nonneg. intros k' v'. rewrite lookup_delete_Some. intros [_ Hl]. by eapply Hp.
Qed.

Lemma reservations_nonneg db : db_ok db -> forall a r, agent_records db !! a = Some r -> 0 <= ag_reservation r.
Proof.
  intros D a r Hl. destruct (do_agents _ D _ _ Hl) as (? & ? & _ & _ & _ & _ & ->). by destruct (is_some _).
Qed.
Lemma control_nonneg db : db_ok db -> 0 <= st_control_bytes (storage_stats db).
Proof.
  intros D. rewrite (do_control _ D). unfold control_total, CONTROL_STORAGE_OVERHEAD.
  enough (0 <= total pr_accounted (recipient_policy db) /\ 0 <= total ag_accounted (agent_records db) /\ 0 <= total ro_accounted (rotation_records db)) by lia.
  split_and!; apply total_nonneg; intros k r Hl.
  - destruct (do_policies _ D _ _ Hl) as (? & ? & _ & _ & _ & _ & _ & _ & _ & ->). unfold CONTROL_STORAGE_OVERHEAD. lia.
  - destruct (do_agents _ D _ _ Hl) as (? & ? & _ & _ & _ & -> & _). unfold CONTROL_STORAGE_OVERHEAD. lia.
  - destruct (do_rotations _ D _ _ Hl) as (? & ? & ? & ? & _ & _ & _ & _ & _ & _ & _ & ->). unfold CONTROL_STORAGE_OVERHEAD. lia.
Qed.
Lemma sum_sizes_nonneg es : Forall event_ok es -> 0 <= sum_sizes es.
Proof.
  induction 1 as [|e es He Hes IH]; simpl; [done|]. pose proof (eo_size _ He). unfold EVENT_STORAGE_OVERHEAD, sum_sizes in *. lia.
Qed.

(** Replacing a charge by one that is no larger never meets a limit. *)
Lemma replace_control_charge_fits capacity oa na os ns db :
  within_capacity capacity db -> capacity < 2 ^ 63 ->
  0 <= st_bytes_used (storage_stats db) -> 0 <= st_control_reserved (storage_stats db) ->
  0 <= oa <= st_control_bytes (storage_stats db) -> 0 <= os <= st_control_reserved (storage_stats db) ->
  0 <= na -> 0 <= ns -> na + ns <= oa + os ->
  replace_control_charge capacity oa na os ns db =
    Ok (charged (st_control_bytes (storage_stats db) - oa + na) (st_control_reserved (storage_stats db) - os + ns) db).
Proof.
  intros [W1 W2] Hcap H0 H1 H2 H3 H4 H5 H6. unfold replace_control_charge, control_counters. set (st := storage_stats db) in *.
  assert (st_control_bytes st + st_control_reserved st < 2 ^ 63) by (unfold control_capacity_bytes, CONTROL_STORAGE_DIVISOR in *; lia).
  repeat (rewrite (proj2 (from_column_Ok _ _)) by (split; [reflexivity|lia]); cbn [mbind result_bind]).
  repeat (rewrite (proj2 (checked_sub_Some _ _ _)) by (split; [reflexivity|lia]); cbn [mbind option_bind ok_or result_bind]).
  repeat (rewrite (proj2 (checked_add_Some _ _ _ _)) by (split; [reflexivity|lia]); cbn [ok_or mbind result_bind]).
  rewrite (proj2 (Z.ltb_ge _ _)) by lia. cbn [orb]. rewrite (proj2 (Z.ltb_ge _ _)) by lia. cbn [guard mbind result_bind].
  repeat (rewrite (proj2 (to_i64_Ok _ _)) by (split; [reflexivity|lia]); cbn [mbind result_bind]). done.
Qed.
End Control.
