(* ===== verification/LoftRuns.v ===== *)
(** Runs of a loft's store: the transactions of [LoftStore] in any order and number, from an empty database.

    [store_step] is one call of the store, committed or rolled back.  Every database a run reaches passes the check the
    store makes at start, reports its rows exactly and keeps inside the capacity; an agent the store has admitted can always rotate; the
    retention loop of [pigeonpost-loft/src/retention.rs] ends whatever else writes. *)
From stdpp Require Import sorting.
From S2P Require Import Prelude Text B32 Network Crypto Origin Token Address Compliance Policy AgentRecord EnvelopeBytes LoftConfig LoftStore LoftTrace LoftInvariant LoftSteps LoftControl.

Section Runs.
Context {C : Crypto} {UP : UrlParser} {J : LoftJson}.

(** One call.  Events admitted expire after [horizon] ([-1] for no constraint). *)
Inductive store_step (capacity horizon : Z) (db : Database) : Database -> Prop :=
| step_admit w id stored expires expected :
    0 <= stored -> horizon < expires ->
    store_step capacity horizon db (transact db (admit_event w id stored expires capacity expected db)).2
| step_policy p now : store_step capacity horizon db (transact db (put_policy p capacity now db)).2
| step_agent address r now : store_step capacity horizon db (transact db (put_agent_record address r capacity now db)).2
| step_rotation address r now : store_step capacity horizon db (transact db (put_rotation_record address r now capacity db)).2
| step_sweep now batch : store_step capacity horizon db (transact db (sweep_expired now batch db)).2
| step_trace timestamp_ms limit observed b r b' row :
    0 <= timestamp_ms -> charge_trace_admission timestamp_ms limit observed b (trace_admission db) = (r, b', row) ->
    store_step capacity horizon db (with_trace row db).

Definition reachable (capacity : Z) (db : Database) : Prop := rtc (store_step capacity (-1)) empty_database db.

(** * The retention loop *)

(** [env i] is what the other transactions did before the [i]-th batch; [checkpoint] what truncating the WAL returned. *)
Fixpoint sweep_loop (fuel : nat) (env : nat -> Database -> Database) (now : Z) (batch : nat) (i total : nat) (db : Database)
  : option (LoftResult nat * Database) :=
  match fuel with
  | O => None
  | S fuel =>
      let db := env i db in
      match transact db (sweep_expired now batch db) with
      | (Err e, db) => Some (Err e, db)
      | (Ok removed, db) =>
          if (removed =? 0)%nat then Some (Ok total, db) else sweep_loop fuel env now batch (S i) (total + removed) db
      end
  end.

Definition sweep_once (fuel : nat) (env : nat -> Database -> Database) (checkpoint : LoftResult unit) (now : Z) (batch : nat) (db : Database)
  : option (LoftResult nat * Database) :=
  if (batch =? 0)%nat then Some (Err (LoftError.Configuration "retention batch must be nonzero"), db)
  else
    match sweep_loop fuel env now batch 0 0 db with
    | Some (Ok total, db) => Some (if (0 <? total)%nat then _ ← checkpoint; Ok total else Ok total, db)
    | other => other
    end.
End Runs.

Section RunFacts.
Context {C : Crypto} {UP : UrlParser} {J : LoftJson} {JL : LoftJsonLaws}.

Lemma transact_cases {A} db (r : LoftResult (A * Database)) : (transact db r).2 = db \/ exists a db', r = Ok (a, db') /\ (transact db r).2 = db'.
Proof. destruct r as [[a db']|e]; [right; eauto|by left]. Qed.

(** * The invariant *)

Lemma trace_preserves capacity timestamp_ms limit observed b r b' row db :
  0 <= timestamp_ms -> charge_trace_admission timestamp_ms limit observed b (trace_admission db) = (r, b', row) ->
  db_ok db -> within_capacity capacity db -> db_ok (with_trace row db) /\ within_capacity capacity (with_trace row db).
Proof.
  intros Ht E D W. split; [|done]. apply charge_effects in E. destruct D as [? ? ? ? ? ? ? ? Hw Ha].
  destruct E as [|?|k l b' row R _ _ _ _]; [by split|by split|]. apply reserve_Ok in R as (Hk & -> & _).
  split; simpl; try done; [|destruct (_ <? _); lia]. unfold window_of, TRACE_ADMISSION_WINDOW_MS. split; [lia|].
  rewrite Zminus_mod_idemp_r. by rewrite Z.sub_diag.
Qed.

Lemma store_step_preserves capacity horizon db db' : -1 <= horizon -> store_step capacity horizon db db' -> db_ok db -> within_capacity capacity db ->
  db_ok db' /\ within_capacity capacity db'.
Proof.
  intros Hh [w id st ex ep Hs He|p now|a r now|a r now|now batch|ts limit o b r b' row Ht E] D W; [..|by eapply trace_preserves].
  all: match goal with |- context [transact ?d ?r] => destruct (transact_cases d r) as [-> | (? & ? & ? & ->)]; [done|] end.
  - eapply admit_preserves; [done| |done..]. lia.
  - by eapply put_policy_preserves.
  - by eapply put_agent_record_preserves.
  - by eapply put_rotation_record_preserves.
  - by eapply sweep_preserves.
Qed.

Lemma store_steps_preserve capacity horizon db db' : -1 <= horizon -> rtc (store_step capacity horizon) db db' -> db_ok db -> within_capacity capacity db ->
  db_ok db' /\ within_capacity capacity db'.
Proof.
  intros Hh. induction 1 as [|db db1 db' H _ IH]; [done|]. intros D W.
  destruct (store_step_preserves _ _ _ _ Hh H D W) as [D' W']. by apply IH.
Qed.

Lemma empty_ok : db_ok empty_database.
Proof.
  split; simpl; try done; try (intros ? ? H; by rewrite lookup_empty in H).
  - split; simpl; try done; [constructor|constructor].
Qed.

Lemma reachable_ok capacity db : 0 <= capacity -> reachable capacity db -> db_ok db /\ within_capacity capacity db.
Proof.
  intros Hc R. eapply store_steps_preserve; [|exact R|apply empty_ok|]; [done|]. split; simpl; [done|].
  unfold control_capacity_bytes, CONTROL_STORAGE_DIVISOR. lia.
Qed.

Lemma reserved_nonneg db : db_ok db -> 0 <= st_control_reserved (storage_stats db).
Proof. intros D. rewrite (do_reserved _ D). apply total_nonneg. by eapply reservations_nonneg. Qed.
Lemma bytes_nonneg db : db_ok db -> 0 <= st_bytes_used (storage_stats db).
Proof. intros D. rewrite (do_bytes _ D). apply sum_sizes_nonneg, D. Qed.

(** C10: whatever sequence of publications, policy, record and rotation writes, trace charges and sweeps a loft's store has run from an empty
    database (each committed or rolled back), the check made at every start accepts the database, the statistics are exactly the
    sums over the rows, rows and rotation reservations together fit the advertised capacity, and the control rows its twentieth. *)
Theorem loft_database_sound (capacity : Z) (db : Database) :
  0 <= capacity < 2 ^ 64 -> reachable capacity db ->
  validate_loft_invariants db = Ok tt /\
  exists s, stats db = Ok s /\
    ss_event_bytes_used s = sum_sizes (events db) /\ ss_event_count s = Z.of_nat (length (events db)) /\
    ss_control_bytes_used s = control_total db /\ ss_control_bytes_reserved s = reserved_total db /\
    ss_bytes_used s = ss_event_bytes_used s + ss_control_bytes_used s + ss_control_bytes_reserved s /\
    ss_bytes_used s <= capacity /\ ss_control_bytes_used s + ss_control_bytes_reserved s <= capacity / 20.
Proof.
  intros Hc R. destruct (reachable_ok _ _ (proj1 Hc) R) as [D [W1 W2]]. split; [by apply db_ok_validates|].
  pose proof (bytes_nonneg _ D). pose proof (control_nonneg _ D). pose proof (reserved_nonneg _ D).
  assert (0 <= st_event_count (storage_stats db)) by (rewrite (do_count _ D); lia).
  unfold stats.
  repeat (rewrite (proj2 (from_column_Ok _ _)) by (split; [reflexivity|lia]); cbn [mbind result_bind]).
  repeat (rewrite (proj2 (checked_add_Some _ _ _ _)) by (split; [reflexivity|lia]); cbn [ok_or mbind option_bind result_bind]).
  repeat (rewrite (proj2 (from_column_Ok _ _)) by (split; [reflexivity|lia]); cbn [mbind result_bind]).
  eexists. split; [reflexivity|]. cbn [ss_bytes_used ss_event_bytes_used ss_control_bytes_used ss_control_bytes_reserved ss_event_count].
  rewrite (do_bytes _ D), (do_count _ D), (do_control _ D), (do_reserved _ D) in *. done.
Qed.

(** * Rotations *)

Lemma parse_length s a : parse s = Ok a -> length (address_str a) = 29%nat.
Proof.
  intros H. apply parse_Ok in H as (bs & Hlen & ->). pose proof (length_encode bs) as E. rewrite Hlen in E.
  change ((8 * Z.of_nat ADDRESS_BYTES + 4) / 5) with 26 in E. rewrite length_app. change (length KEY_PREFIX) with 3%nat. lia.
Qed.

Lemma rotation_verify_any r pinned last now v : rotation_verify r pinned last now = Ok v -> rotation_verify r pinned last (activated_at r) = Ok v.
Proof.
  rewrite !rotation_verify_Ok. intros (? & ? & ? & ? & ? & ? & ? & ? & ? & ? & H & ?). split_and!; try done.
  unfold saturating_add, ROTATION_CLOCK_SKEW_SECS in *. lia.
Qed.

Lemma get_rotation_of_row db address a row rot : db_ok db -> parse address = Ok a ->
  rotation_records db !! address_str a = Some row -> rotation_from_slice (ro_record row) = Some rot ->
  get_rotation_record address db = Ok (Some rot).
Proof.
  intros D Hp Hrow Hrot. destruct (do_rotations _ D _ _ Hrow) as (rot' & ag & r & v & Hag & Hr & Hrot' & Hs & _ & Hv & _).
  rewrite Hrot in Hrot'. injection Hrot' as <-. destruct (do_agents _ D _ _ Hag) as (r' & k & Hr' & Hk & _). rewrite Hr in Hr'. injection Hr' as <-.
  unfold get_rotation_record. rewrite Hp. cbn [from_core mbind result_bind]. rewrite Hrow, Hag, Hr. cbn [ok_or mbind result_bind].
  destruct a as [a]. cbn [address_str] in *. rewrite Hk. cbn [from_core mbind result_bind]. rewrite Hrot. cbn [ok_or mbind result_bind].
  rewrite Hs. cbn [from_core mbind result_bind]. by rewrite (rotation_verify_any _ _ _ _ _ Hv).
Qed.

(** No transaction touches a stored rotation. *)
Lemma rotation_row_stays capacity horizon db db' a row : store_step capacity horizon db db' ->
  rotation_records db !! a = Some row -> rotation_records db' !! a = Some row.
Proof.
  intros H Hrow. destruct H; [..|done].
  all: match goal with |- context [transact ?d ?r] => destruct (transact_cases d r) as [-> | (x & db'' & Hr & ->)]; [done|] end.
  - apply admit_event_Ok in Hr as (_ & _ & Hr). by apply insert_event_Ok in Hr as [(_ & -> & _)|(_ & row' & -> & _)].
  - by apply put_policy_Ok in Hr as [(-> & _)|(? & ? & ? & _ & _ & _ & _ & _ & _ & _ & _ & -> & _)].
  - by apply put_agent_record_Ok in Hr as (? & ? & ? & _ & _ & _ & [(-> & _)|(? & _ & _ & _ & _ & _ & -> & _)]).
  - apply put_rotation_record_Ok in Hr as (ad & ? & ? & _ & _ & _ & _ & [(_ & -> & _)|(_ & Hn & ? & ? & ? & ? & _ & _ & _ & _ & _ & _ & _ & _ & -> & _)]); [done|].
    simpl. rewrite lookup_insert_ne; [done|]. intros <-. congruence.
  - unfold sweep_expired in Hr. destruct (batch =? 0)%nat; inv_ok; [by apply pair_eq in Hr as [_ <-]|].
    destruct (_ =? 0)%nat; inv_ok; by apply pair_eq in Hr as [_ <-].
Qed.

Lemma put_rotation_fits capacity db address a ag r rot blob now v :
  capacity < 2 ^ 63 -> db_ok db -> within_capacity capacity db ->
  parse address = Ok a -> agent_records db !! address_str a = Some ag -> record_from_slice (ag_record ag) = Some r ->
  rotation_records db !! address_str a = None ->
  verify_source_address rot a = Ok tt -> rotation_verify rot (successor_commitment r) (rec_seq r) now = Ok v ->
  rotation_to_vec rot = Some blob -> (length blob <= 3782)%nat ->
  0 < now < 2 ^ 63 -> 0 < rot_seq rot < 2 ^ 63 -> 0 < activated_at rot -> grace_until rot < 2 ^ 63 ->
  exists db', put_rotation_record address rot now capacity db = Ok (true, db') /\
    exists row, rotation_records db' !! address_str a = Some row /\ ro_record row = blob.
Proof.
  intros Hcap D W Hp Hag Hr Hn Hs Hv Hb Hlen Hnow Hseq Hact Hgr. pose proof (parse_length _ _ Hp) as La.
  pose proof (proj1 (rotation_verify_Ok _ _ _ _ _) Hv) as (_ & _ & Hgrace & _ & Htk & _). destruct (do_agents _ D _ _ Hag) as (r' & k & Hr' & Hk & _ & _ & Hrsv).
  rewrite Hr in Hr'. injection Hr' as <-. rewrite Hn in Hrsv. cbn [is_some] in Hrsv.
  assert (length (address_str (from_pubkey (to_key rot))) = 29%nat) as Lt.
  { unfold from_pubkey. eapply (parse_length _ (MkAddress _)), parse_encode. rewrite length_take, length_vec_to_list. done. }
  assert (accounted_size (length blob) (length (address_str a) + length (address_str (from_pubkey (to_key rot)))) = Ok (Z.of_nat (length blob) + 314)) as Hacc.
  { unfold accounted_size, CONTROL_STORAGE_OVERHEAD. rewrite La, Lt. do 2 (rewrite (proj2 (checked_add_Some _ _ _ _)) by (split; [reflexivity|lia]); cbn [mbind option_bind]).
    cbn [ok_or]. f_equal. lia. }
  pose proof (total_lookup_le ag_reservation _ _ _ (reservations_nonneg _ D) Hag) as Hle. fold (reserved_total db) in Hle. rewrite <-(do_reserved _ D), Hrsv in Hle.
  unfold put_rotation_record. rewrite Hp. cbn [from_core mbind result_bind]. rewrite Hs. cbn [from_core mbind result_bind]. rewrite Hb. cbn [ok_or mbind result_bind].
  unfold target_address. rewrite Htk. cbn [from_core mbind result_bind]. rewrite Hacc. cbn [mbind result_bind]. rewrite Hn, Hag. cbn [ok_or mbind result_bind]. rewrite Hrsv.
  rewrite (proj2 (from_column_Ok ROTATION_STORAGE_RESERVATION ROTATION_STORAGE_RESERVATION)) by done. cbn [mbind result_bind].
  rewrite (proj2 (Z.ltb_ge _ _)) by (unfold ROTATION_STORAGE_RESERVATION; lia). change (ROTATION_STORAGE_RESERVATION =? 0) with false. cbn [orb guard mbind result_bind].
  rewrite Hr. cbn [ok_or mbind result_bind]. destruct a as [a]. cbn [address_str] in *. rewrite Hk. cbn [from_core mbind result_bind]. rewrite Hv. cbn [from_core mbind result_bind].
  rewrite replace_control_charge_fits; [|done|done|by apply bytes_nonneg|by apply reserved_nonneg|split; [done|by apply control_nonneg]|unfold ROTATION_STORAGE_RESERVATION in *; lia..].
  cbn [mbind result_bind]. repeat (rewrite (proj2 (to_i64_Ok _ _)) by (split; [reflexivity|unfold ROTATION_STORAGE_RESERVATION, ROTATION_GRACE_SECS in *; lia]); cbn [mbind result_bind]).
  match goal with |- context [rotation_row_ok ?row ?d] => replace (rotation_row_ok row d) with true end.
  - cbn [negb guard mbind result_bind]. eexists. split; [reflexivity|]. eexists. split; [cbn [rotation_records with_rotations]; apply lookup_insert_eq|done].
  - symmetry. unfold rotation_row_ok. cbn [ro_seq ro_activated_at ro_grace_until ro_stored_at rotation_records with_agents charged with_stats].
    rewrite (rotation_unique _ db a rot) by done. rewrite andb_true_r. rewrite !andb_true_iff, !Z.ltb_lt. unfold ROTATION_GRACE_SECS in *. lia.
Qed.

(** C33: the space an admitted agent's rotation needs is set aside when its record is stored: however full the loft is, a
    rotation that verifies against the stored record and whose JSON is at most 3782 bytes is accepted, and every later state of the
    database gives it back, whatever is written afterwards. *)
Theorem admitted_agent_can_rotate (capacity : Z) (db : Database) (address : str) (a : Address) (ag : AgentRow) (r : AgentRecord)
  (rot : RotationRecord) (blob : bytes) (now : Z) (v : VerifiedRotation) :
  0 <= capacity < 2 ^ 63 -> reachable capacity db ->
  parse address = Ok a -> agent_records db !! address_str a = Some ag -> record_from_slice (ag_record ag) = Some r ->
  rotation_records db !! address_str a = None ->
  verify_source_address rot a = Ok tt -> rotation_verify rot (successor_commitment r) (rec_seq r) now = Ok v ->
  rotation_to_vec rot = Some blob -> (length blob <= 3782)%nat ->
  0 < now < 2 ^ 63 -> 0 < rot_seq rot < 2 ^ 63 -> 0 < activated_at rot -> grace_until rot < 2 ^ 63 ->
  exists db', put_rotation_record address rot now capacity db = Ok (true, db') /\
    forall later, rtc (store_step capacity (-1)) db' later -> get_rotation_record address later = Ok (Some rot).
Proof.
  intros Hc R Hp Hag Hr Hn Hs Hv Hb Hlen Hnow Hseq Hact Hgr. destruct (reachable_ok _ _ (proj1 Hc) R) as [D W].
  destruct (put_rotation_fits _ _ _ _ _ _ _ _ _ _ (proj2 Hc) D W Hp Hag Hr Hn Hs Hv Hb Hlen Hnow Hseq Hact Hgr) as (db' & Hput & row & Hrow & Hblob).
  exists db'. split; [done|]. intros later L. destruct (put_rotation_record_preserves _ _ _ _ _ _ _ Hput D W) as [D' W'].
  destruct (store_steps_preserve _ (-1) _ _ ltac:(done) L D' W') as [D'' _].
  apply (get_rotation_of_row _ _ a row); [done|done| |by rewrite Hblob; apply rotation_json].
  clear -L Hrow. induction L as [|x y z Hxy _ IH]; [done|]. apply IH. by eapply rotation_row_stays.
Qed.

(** * Retention *)

Definition expired_count (now : Z) (db : Database) : nat := length (filter (fun e => ev_expires_at e <= now) (events db)).

Lemma filter_length_perm {A} (P : A -> Prop) `{!forall x, Decision (P x)} l l' : l ≡ₚ l' -> length (filter P l) = length (filter P l').
Proof. intros Hp. by rewrite Hp. Qed.
Lemma filter_true {A} (P : A -> Prop) `{!forall x, Decision (P x)} l : Forall P l -> filter P l = l.
Proof. induction 1 as [|x l Hx _ IH]; [done|]. by rewrite filter_cons_True, IH. Qed.
Lemma filter_filter_length {A} (P Q : A -> Prop) `{!forall x, Decision (P x), !forall x, Decision (Q x)} l :
  (length (filter P (filter Q l)) <= length (filter P l))%nat.
Proof.
  induction l as [|x l IH]; [done|]. rewrite !filter_cons. destruct (decide (Q x)); [rewrite filter_cons|]; destruct (decide (P x)); simpl; lia.
Qed.

Lemma expired_count_zero now db : expired_count now db = O -> forall e, e ∈ events db -> now < ev_expires_at e.
Proof.
  unfold expired_count. intros Hz e He. destruct (decide (ev_expires_at e <= now)) as [Hle|]; [|lia].
  apply nil_length_inv in Hz. assert (e ∈ filter (fun e => ev_expires_at e <= now) (events db)) as Hin by (by apply list_elem_of_filter).
  rewrite Hz in Hin. by apply not_elem_of_nil in Hin.
Qed.

Lemma doomed_facts now batch db : db_ok db ->
  let doomed := expired_batch now batch db in
  events db ≡ₚ swept doomed db ++ doomed /\ length doomed = min batch (expired_count now db) /\
  expired_count now db = (length (filter (fun e => (ev_expires_at e <= now)%Z) (swept doomed db)) + length doomed)%nat.
Proof.
  intros D doomed. pose proof (do_events _ D) as E.
  assert (forall d, d ∈ doomed -> d ∈ events db /\ ev_expires_at d <= now) as Hd by (intros d; apply expired_batch_elem).
  assert (events db ≡ₚ swept doomed db ++ doomed) as P.
  { apply swept_partition; [done|apply expired_batch_NoDup; by eapply events_NoDup|]. intros d Hin. by apply Hd. }
  split_and!; [done| |].
  - unfold doomed, expired_batch, expired_count. rewrite length_take. f_equal. by rewrite merge_sort_Permutation.
  - unfold expired_count. rewrite (filter_length_perm _ _ _ P), filter_app, length_app. f_equal.
    rewrite filter_true; [done|]. apply Forall_forall. intros d Hin. by apply Hd.
Qed.

(** A sweep of a sound database succeeds, and removes what it can. *)
Lemma sweep_total now batch db : db_ok db -> now < 2 ^ 63 -> (0 < batch)%nat -> Z.of_nat batch < 2 ^ 63 ->
  exists n db', sweep_expired now batch db = Ok (n, db') /\ (expired_count now db' + n)%nat = expired_count now db /\
    (n = O -> expired_count now db = O) /\ forall e, e ∈ events db -> now < ev_expires_at e -> e ∈ events db'.
Proof.
  intros D Hnow Hb Hb'. destruct (doomed_facts now batch db D) as (P & Hlen & Hcount). unfold sweep_expired.
  rewrite (proj2 (Nat.eqb_neq batch 0)) by lia.
  do 2 (rewrite (proj2 (to_i64_Ok _ _)) by (split; [reflexivity|lia]); cbn [mbind result_bind]). rewrite Nat2Z.id.
  set (doomed := expired_batch now batch db) in *.
  destruct (length doomed =? 0)%nat eqn:Hz; b2p.
  { exists O, db. split_and!; [done|lia|intros _; lia|done]. }
  assert (0 <= sum_sizes (swept doomed db) /\ sum_sizes (events db) = sum_sizes (swept doomed db) + sum_sizes doomed /\
          length (events db) = (length (swept doomed db) + length doomed)%nat) as (Hs0 & Hs & Hl).
  { split_and!; [apply sum_sizes_nonneg; by eapply eso_rows, swept_events_ok, D|by rewrite (sum_sizes_perm _ _ P), sum_sizes_app|by rewrite (Permutation_length P), length_app]. }
  fold (swept doomed db). rewrite Hl. replace (length (swept doomed db) + length doomed - length (swept doomed db))%nat with (length doomed) by lia.
  rewrite Nat.eqb_refl. cbn [negb guard mbind result_bind].
  rewrite (proj2 (Z.ltb_ge _ _)) by (rewrite (do_bytes _ D); lia). rewrite (proj2 (Z.ltb_ge _ _)) by (rewrite (do_count _ D); lia).
  cbn [orb guard mbind result_bind]. do 2 eexists. split; [reflexivity|]. split; [unfold expired_count in *; cbn [events with_events]; lia|]. split; [lia|].
  intros e He Hex. cbn [events with_events]. assert (e ∉ doomed) as Hnd by (intros Hin; apply expired_batch_elem in Hin as [_ ?]; lia).
  rewrite P in He. apply elem_of_app in He as [He|He]; done.
Qed.

(** Other transactions do not add expired rows. *)
Lemma step_expired_count capacity now db db' : store_step capacity now db db' -> (expired_count now db' <= expired_count now db)%nat.
Proof.
  intros H. destruct H; [..|done].
  all: match goal with |- context [transact ?d ?r] => destruct (transact_cases d r) as [-> | (x & db'' & Hr & ->)]; [done|] end.
  - apply admit_event_Ok in Hr as (_ & _ & Hr). apply insert_event_Ok in Hr as [(_ & -> & _)|(_ & row & -> & _ & _ & _ & _ & _ & _ & _ & Hex & _)]; [done|].
    unfold expired_count, appended. cbn [events with_events]. rewrite filter_app, filter_cons, decide_False by lia. by rewrite filter_nil, app_nil_r.
  - by apply put_policy_Ok in Hr as [(-> & _)|(? & ? & ? & _ & _ & _ & _ & _ & _ & _ & _ & -> & _)].
  - by apply put_agent_record_Ok in Hr as (? & ? & ? & _ & _ & _ & [(-> & _)|(? & _ & _ & _ & _ & _ & -> & _)]).
  - by apply put_rotation_record_Ok in Hr as (ad & ? & ? & _ & _ & _ & _ & [(_ & -> & _)|(_ & Hn & ? & ? & ? & ? & _ & _ & _ & _ & _ & _ & _ & _ & -> & _)]).
  - unfold sweep_expired in Hr. destruct (batch =? 0)%nat; inv_ok; [by apply pair_eq in Hr as [_ <-]|].
    destruct (_ =? 0)%nat; inv_ok; apply pair_eq in Hr as [_ <-]; [done|]. unfold expired_count. cbn [events with_events].
    apply filter_filter_length.
Qed.

Lemma env_facts capacity now db db' : -1 <= now -> rtc (store_step capacity now) db db' -> db_ok db -> within_capacity capacity db ->
  db_ok db' /\ within_capacity capacity db' /\ (expired_count now db' <= expired_count now db)%nat.
Proof.
  intros Hn R D W. destruct (store_steps_preserve _ _ _ _ Hn R D W) as [D' W']. split_and!; [done..|].
  clear -R. induction R as [|x y z Hxy _ IH]; [done|]. apply step_expired_count in Hxy. lia.
Qed.

Lemma sweep_loop_total capacity now batch env fuel : -1 <= now < 2 ^ 63 -> (0 < batch)%nat -> Z.of_nat batch < 2 ^ 63 ->
  (forall i d, rtc (store_step capacity now) d (env i d)) ->
  forall i total db, db_ok db -> within_capacity capacity db -> (expired_count now db < fuel)%nat ->
  exists total' db', sweep_loop fuel env now batch i total db = Some (Ok total', db') /\
    db_ok db' /\ within_capacity capacity db' /\ expired_count now db' = O /\
    forall e, e ∈ events db -> now < ev_expires_at e -> (forall i d, e ∈ events d -> e ∈ events (env i d)) -> e ∈ events db'.
Proof.
  intros Hn Hb Hb' Henv. induction fuel as [|fuel IH]; intros i total db D W Hf; [lia|]. cbn [sweep_loop].
  destruct (env_facts _ _ _ _ (proj1 Hn) (Henv i db) D W) as (D1 & W1 & Hc1). set (db1 := env i db) in *.
  destruct (sweep_total now batch db1 D1 (proj2 Hn) Hb Hb') as (n & db2 & Hs & Hcount & Hz & Hkeep). rewrite Hs. cbn [transact].
  destruct (sweep_preserves _ _ _ _ _ _ Hs D1 W1) as [D2 W2].
  destruct (n =? 0)%nat eqn:E; b2p.
  - exists total, db2. split_and!; [done..|lia|]. intros e He Hex Hkeeps. apply Hkeep; [by apply Hkeeps|done].
  - destruct (IH (S i) (total + n)%nat db2 D2 W2 ltac:(lia)) as (total' & db' & Hl & D' & W' & Hc' & Hk').
    exists total', db'. split_and!; [done..|]. intros e He Hex Hkeeps. apply Hk'; [|done..]. apply Hkeep; [by apply Hkeeps|done].
Qed.

(** C36: a retention pass ends, within one batch more than there are expired rows, whatever transactions run between its batches (as
    long as what they admit expires after the pass's clock reading): it leaves no row that had expired by then, loses no
    unexpired row, and the database still passes its check. *)
Theorem sweep_once_completes (capacity now : Z) (batch : nat) (env : nat -> Database -> Database) (db : Database) :
  0 <= capacity -> -1 <= now < 2 ^ 63 -> (0 < batch)%nat -> Z.of_nat batch < 2 ^ 63 ->
  (forall i d, rtc (store_step capacity now) d (env i d)) -> reachable capacity db ->
  exists total db', sweep_once (S (expired_count now db)) env (Ok tt) now batch db = Some (Ok total, db') /\
    (forall e, e ∈ events db' -> now < ev_expires_at e) /\
    (forall e, e ∈ events db -> now < ev_expires_at e -> (forall i d, e ∈ events d -> e ∈ events (env i d)) -> e ∈ events db') /\
    validate_loft_invariants db' = Ok tt.
Proof.
  intros Hc Hn Hb Hb' Henv R. destruct (reachable_ok _ _ Hc R) as [D W]. unfold sweep_once. rewrite (proj2 (Nat.eqb_neq batch 0)) by lia.
  destruct (sweep_loop_total capacity now batch env (S (expired_count now db)) Hn Hb Hb' Henv 0 0 db D W ltac:(lia))
    as (total & db' & -> & D' & _ & Hz & Hk).
  exists total, db'. split_and!; [by destruct (0 <? total)%nat|by apply expired_count_zero|done|by apply db_ok_validates].
Qed.
End RunFacts.
