(* ===== verification/LoftServer.v ===== *)
(** The handlers of a loft: [pigeonpost-loft/src/server.rs] with [attribution.rs], [trace.rs] and the bodies of [wire.rs].

    A server is its database, its admission controller, its share of the trace budget and its trace sink.  The handlers are
    [async]: between two of their awaits any number of other requests may run, so a handler takes, for each await, the function by
    which the others changed the server ([before_policy], ...), the clock readings and whether a blocking lane was free.  The sink and the resolver of
    attribution keys are traits, and stay records of their operations; the resolver's cache is refreshed beside the requests, so each look at it has
    a resolver of its own. *)
From S2P Require Import Prelude Text B32 Network Crypto Origin Limiter Token Address Compliance Entry Policy FetchAuth AgentRecord EnvelopeBytes LoftConfig LoftPeer LoftStore LoftTrace.

Definition MAX_ADDRESS_SEGMENT_BYTES : nat := 256.
Definition POLICY_ADMISSION_RETRIES : nat := 3.

(** * Attribution *)

Record ResolvedAttributionKey := {
  rk_public_key : arr 32;
  rk_not_before_ms : Z;
  rk_not_after_ms : Z;
  rk_status : ComplianceKeyStatus;
}.

(** [resolve] returns [None] for [AttributionResolutionError::Unavailable]. *)
Record AttributionKeyResolver := {
  configured : bool;
  resolver_readiness : Z -> bool;
  resolve : ComplianceKeyId -> option (option ResolvedAttributionKey);
}.

Definition UnconfiguredAttributionResolver : AttributionKeyResolver :=
  {| configured := false; resolver_readiness := fun _ => true; resolve := fun _ => Some None |}.

Section Attribution.
Context {C : Crypto}.

Definition attribution_validate (w : Wrap) (requirement : option AttributionRequirement) (resolver : AttributionKeyResolver) (now_ms : Z)
  : LoftResult unit :=
  match attribution w with
  | None => guard (is_some requirement) LoftError.AttributionRejected
  | Some block =>
      block ← ok_or (as_v3 block) LoftError.AttributionRejected;
      let key_id := block_key_id block in
      _ ← guard (negb (is_ok (attribution_epoch_contains key_id now_ms))) LoftError.AttributionRejected;
      _ ← guard (match requirement with Some required => negb (matches_key_id required key_id) | None => false end)
            LoftError.AttributionRejected;
      _ ← guard (negb (configured resolver)) LoftError.AttributionUnavailable;
      _ ← guard (negb (resolver_readiness resolver now_ms)) LoftError.AttributionUnavailable;
      resolved ← ok_or (resolve resolver key_id) LoftError.AttributionUnavailable;
      resolved ← ok_or resolved LoftError.AttributionUnavailable;
      _ ← guard (negb (rk_status resolved ≟ Active)
                 || negb (is_ok (validate_attribution_epoch key_id (rk_not_before_ms resolved) (rk_not_after_ms resolved)))
                 || match attribution_epoch_contains key_id now_ms with Ok true => false | _ => true end) LoftError.AttributionRejected;
      guard (negb (sha256 (vec_to_list (rk_public_key resolved)) ≟ compliance_key_digest block)) LoftError.AttributionRejected
  end.
End Attribution.

(** * Traces *)

Inductive TraceOperation :=
| PublishOp (event_id recipient : arr 32) (size_bytes : Z)
| FetchOp (owner : arr 32)
| PutAgentOp
| ClaimOp (correlation_id : arr 32).

Record TraceInput := {
  timestamp_ms : Z;
  connected_source : SocketAddr;
  operation : TraceOperation;
}.

(** A sink with state [S]: [capture] says whether it took the record. *)
Record TraceSink (S : Type) := {
  enabled : bool;
  sink_readiness : S -> bool;
  capture : TraceInput -> S -> bool * S;
}.
Arguments enabled {S}.
Arguments sink_readiness {S}.
Arguments capture {S}.

Definition NoopTraceSink {S} : TraceSink S :=
  {| enabled := false; sink_readiness := fun _ => true; capture := fun _ s => (true, s) |}.

(** * The server *)

Record Server (S : Type) := {
  sv_store : Database;
  sv_admission : AdmissionController;
  sv_batch : TraceAdmissionBatch;
  sv_sink : S;
}.
Arguments sv_store {S}.
Arguments sv_admission {S}.
Arguments sv_batch {S}.
Arguments sv_sink {S}.
Arguments Build_Server {S}.

Definition with_store {S} (db : Database) (s : Server S) : Server S := Build_Server db (sv_admission s) (sv_batch s) (sv_sink s).
Definition with_admission {S} (c : AdmissionController) (s : Server S) : Server S := Build_Server (sv_store s) c (sv_batch s) (sv_sink s).

(** Bodies of requests and responses. *)
Record PublishRequest := { req_wrap : Wrap; req_token : option str }.
Record PublishResponse := { resp_id : str; resp_stored : bool }.
Record FetchRequest := { req_auth : FetchAuth; req_limit : option Z }.
Record FetchResponse := { resp_events : list Wrap; resp_next_cursor : Z; resp_more : bool }.
Record PreparedPublish := { pp_wrap : Wrap; pp_token : option str; pp_encoded_size : Z; pp_id : arr 32 }.

Class ServerJson := {
  publish_request_from_slice : bytes -> option PublishRequest;
  fetch_response_to_vec : FetchResponse -> option bytes;
}.

(** A call on a blocking lane: [free] says whether [try_acquire_owned] found a permit. *)
Definition blocking {A S} (free : bool) (s : Server S) (f : Server S -> LoftResult A * Server S) : LoftResult A * Server S :=
  if free then f s else (Err LoftError.Overloaded, s).

(** A trace lane may also be given up on while its closure runs to the end. *)
Inductive TraceLane := LaneFree | LaneBusy | LaneLate.

Section Server.
Context {C : Crypto} {UP : UrlParser} {J : LoftJson} {SJ : ServerJson} {S : Type}.
Context (config : LoftConfig) (sink : TraceSink S).

(** [observed] is the row the plain read of [charge_trace_admission] saw. *)
Record TraceTurn := { tt_now_ms : Z; tt_lane : TraceLane; tt_observed : Z * Z }.

(** The closure [capture_trace] runs on its lane. *)
Definition traced (observed : Z * Z) (input : TraceInput) (s : Server S) : LoftResult unit * Server S :=
  if negb (sink_readiness sink (sv_sink s)) then (Err LoftError.TraceUnavailable, s)
  else
    match charge_trace_admission (timestamp_ms input) (global_requests_per_minute config) observed (sv_batch s)
            (trace_admission (sv_store s)) with
    | (Err e, b, row) => (Err e, Build_Server (with_trace row (sv_store s)) (sv_admission s) b (sv_sink s))
    | (Ok _, b, row) =>
        let '(taken, sk) := capture sink input (sv_sink s) in
        (if taken then Ok tt else Err LoftError.TraceUnavailable,
         Build_Server (with_trace row (sv_store s)) (sv_admission s) b sk)
    end.

Definition capture_trace (peer : Peer) (op : TraceOperation) (turn : TraceTurn) (s : Server S) : LoftResult unit * Server S :=
  if negb (enabled sink) then (Ok tt, s)
  else
    match resolve_peer_source config peer with
    | Err e => (Err e, s)
    | Ok source =>
        let input := {| timestamp_ms := tt_now_ms turn; connected_source := source; operation := op |} in
        match tt_lane turn with
        | LaneBusy => (Err LoftError.TraceUnavailable, s)
        | LaneFree => traced (tt_observed turn) input s
        | LaneLate => (Err LoftError.TraceUnavailable, (traced (tt_observed turn) input s).2)
        end
    end.

(** ** Publishing *)

Definition parse_presentation (value : str) : option Presentation :=
  if negb (length value =? 64)%nat then None
  else bs ← unhex value; v ← arr_of_list 32 bs; Some (MkPresentation v).

Definition prepare_publish (body : bytes) (max_event_bytes : Z) : LoftResult PreparedPublish :=
  request ← ok_or (publish_request_from_slice body) (LoftError.Core (MalformedEnvelope "invalid publish request"));
  encoded ← ok_or (wrap_to_vec (req_wrap request)) LoftError.Serialization;
  let encoded_size := Z.of_nat (length encoded) in
  _ ← guard (max_event_bytes <? encoded_size) (LoftError.Core TooLarge);
  _ ← from_core (verify_public (req_wrap request));
  Ok {| pp_wrap := req_wrap request; pp_token := req_token request; pp_encoded_size := encoded_size; pp_id := wrap_id (req_wrap request) |}.

(** What a policy asks of a publication. *)
Definition check_policy (resolver : AttributionKeyResolver) (policy : RecipientPolicy) (prepared : PreparedPublish) (validation_time_ms : Z) : LoftResult unit :=
  _ ← from_core (verify_work (pp_wrap prepared) (pow_min policy));
  _ ← (if token_required policy then
         presented ← ok_or (token ← pp_token prepared; parse_presentation token) (LoftError.Core (MalformedEnvelope "missing token"));
         guard (negb (accepts_token policy presented)) (LoftError.Core (MalformedEnvelope "token not live"))
       else Ok tt);
  _ ← guard (attribution_required policy && negb (is_some (attribution_requirement policy))) LoftError.AttributionRejected;
  attribution_validate (pp_wrap prepared) (attribution_requirement policy) resolver validation_time_ms.

Definition validate_publish_policy (resolver : AttributionKeyResolver) (db : Database) (prepared : PreparedPublish) (validation_time_ms : Z)
  : LoftResult (option Z) :=
  found ← get_policy (recipient (pp_wrap prepared)) db;
  let '(policy, expected_seq) :=
    match found with
    | Some policy => (policy, Some (rp_seq policy))
    | None => (permissive (recipient (pp_wrap prepared)), None)
    end in
  _ ← check_policy resolver policy prepared validation_time_ms;
  Ok expected_seq.

(** One turn of the retry loop; [keys] is the resolver as the validation found it. *)
Record Attempt := {
  before_policy : Server S -> Server S;
  policy_lane : bool;
  validation_ms : Z;
  keys : AttributionKeyResolver;
  before_trace : Server S -> Server S;
  trace_turn : TraceTurn;
  before_store : Server S -> Server S;
  store_lane : bool;
}.

Fixpoint publish_loop (attempts : nat) (world : nat -> Attempt) (peer : Peer) (prepared : PreparedPublish) (now expires_at : Z)
  (already_traced : bool) (s : Server S) : LoftResult PublishResponse * Server S :=
  match attempts with
  | O => (Err LoftError.PolicyChanged, s)
  | Datatypes.S rest =>
      let a := world (POLICY_ADMISSION_RETRIES - attempts)%nat in
      let s := before_policy a s in
      match blocking (policy_lane a) s (fun s => (validate_publish_policy (keys a) (sv_store s) prepared (validation_ms a), s)) with
      | (Err e, s) => (Err e, s)
      | (Ok expected_seq, s) =>
          let s := before_trace a s in
          let '(r, s) :=
            if already_traced then (Ok tt, s)
            else if 2 ^ 32 <=? pp_encoded_size prepared then (Err (LoftError.Core TooLarge), s)
            else capture_trace peer (PublishOp (pp_id prepared) (recipient (pp_wrap prepared)) (pp_encoded_size prepared))
                   (trace_turn a) s in
          match r with
          | Err e => (Err e, s)
          | Ok _ =>
              let s := before_store a s in
              match blocking (store_lane a) s (fun s =>
                      let '(r, db) := transact (sv_store s) (admit_event (pp_wrap prepared) (pp_id prepared) now expires_at
                                        (lc_capacity_bytes config) expected_seq (sv_store s)) in
                      (r, with_store db s)) with
              | (Ok stored, s) => (Ok {| resp_id := hex_of (vec_to_list (pp_id prepared)); resp_stored := stored |}, s)
              | (Err LoftError.PolicyChanged, s) => publish_loop rest world peer prepared now expires_at true s
              | (Err e, s) => (Err e, s)
              end
          end
      end
  end.

(** [prepare_lane] and [charge_at] are the lane and the limiter's clock reading of the first step; [now] the reading in
    seconds.  Preparing reads nothing of the server, so [s] is the server after it. *)
Definition publish (world : nat -> Attempt) (prepare_lane : bool) (charge_at now : Z) (peer : Peer) (body : bytes) (s : Server S)
  : LoftResult PublishResponse * Server S :=
  match blocking prepare_lane s (fun s => (prepare_publish body (lc_max_event_bytes config), s)) with
  | (Err e, s) => (Err e, s)
  | (Ok prepared, s) =>
      let '(admission, charged) := charge_recipient config (sv_admission s) (recipient (pp_wrap prepared)) (pp_encoded_size prepared) charge_at in
      let s := with_admission admission s in
      match charged with
      | Err e => (Err e, s)
      | Ok _ =>
          match (seconds ← checked_mul 64 (lc_retention_days config) 86400; checked_add 64 now seconds) with
          | None => (Err (LoftError.Core TooLarge), s)
          | Some expires_at => publish_loop POLICY_ADMISSION_RETRIES world peer prepared now expires_at false s
          end
      end
  end.

(** ** Fetching *)

(** The closure of [fetch]: a page, the cursor to resume from and the encoded body. *)
Definition fetch_page (owner : arr 32) (cursor limit max_response_bytes : Z) (db : Database) : LoftResult (FetchResponse * bytes) :=
  events ← fetch_events owner cursor (Z.to_nat (saturating_add 64 limit 1)) db;
  let more := limit <? Z.of_nat (length events) in
  let events := take (Z.to_nat limit) events in
  let next_cursor := match last events with Some event => se_cursor event | None => cursor end in
  let response := {| resp_events := map se_wrap events; resp_next_cursor := next_cursor; resp_more := more |} in
  encoded ← ok_or (fetch_response_to_vec response) LoftError.Serialization;
  _ ← guard (max_response_bytes <? Z.of_nat (length encoded)) (LoftError.Core TooLarge);
  Ok (response, encoded).

Definition fetch_limit (requested : option Z) : Z :=
  let requested_limit := Z.min (Z.max (default (default_fetch_limit config) requested) 1) (max_fetch_limit config) in
  let byte_limited := Z.max (saturating_sub (max_fetch_response_bytes config / lc_max_event_bytes config) 1) 1 in
  Z.min requested_limit byte_limited.

Record FetchTurn := {
  fetch_trace : TraceTurn;
  before_page : Server S -> Server S;
  page_lane : bool;
  before_egress : Server S -> Server S;
  egress_at : Z * Z * Z;
}.

Definition fetch (turn : FetchTurn) (now_secs : Z) (peer : Peer) (req : FetchRequest) (s : Server S)
  : LoftResult (FetchResponse * bytes) * Server S :=
  match from_core (fetch_verify (req_auth req) (lc_pubkey config) (lc_origin config) (now_secs / 60)) with
  | Err e => (Err e, s)
  | Ok owner =>
      let limit := fetch_limit (req_limit req) in
      match capture_trace peer (FetchOp owner) (fetch_trace turn) s with
      | (Err e, s) => (Err e, s)
      | (Ok _, s) =>
          let s := before_page turn s in
          match blocking (page_lane turn) s (fun s =>
                  (fetch_page owner (cursor (req_auth req)) limit (max_fetch_response_bytes config) (sv_store s), s)) with
          | (Err e, s) => (Err e, s)
          | (Ok (response, encoded), s) =>
              let s := before_egress turn s in
              let '(t, t', t'') := egress_at turn in
              let '(admission, charged) :=
                charge_egress config (sv_admission s) (sa_ip <$> effective_source peer) owner (Z.of_nat (length encoded)) t t' t'' in
              let s := with_admission admission s in
              match charged with
              | Err e => (Err e, s)
              | Ok _ => (Ok (response, encoded), s)
              end
          end
      end
  end.

(** ** Records and policies *)

Definition stored {A} (f : Database -> LoftResult (A * Database)) (s : Server S) : LoftResult A * Server S :=
  let '(r, db) := transact (sv_store s) (f (sv_store s)) in (r, with_store db s).

Definition set_policy (lane : bool) (now_secs : Z) (policy : RecipientPolicy) (s : Server S) : LoftResult unit * Server S :=
  match from_core (policy_verify policy None) with
  | Err e => (Err e, s)
  | Ok _ => blocking lane s (stored (put_policy policy (lc_capacity_bytes config) now_secs))
  end.

Definition decode_address (segment : str) : LoftResult Address :=
  _ ← guard (MAX_ADDRESS_SEGMENT_BYTES <? length segment)%nat (LoftError.Core TooLarge);
  let restored := match split_once "-"%byte segment with
                  | Some (tier, body) => lit "/" ++ tier ++ lit "/" ++ body
                  | None => segment
                  end in
  from_core (parse restored).

Definition get_agent (lane : bool) (segment : str) (s : Server S) : LoftResult AgentRecord :=
  address ← decode_address segment;
  _ ← guard (negb lane) LoftError.Overloaded;
  record ← get_agent_record (address_str address) (sv_store s);
  ok_or record LoftError.NotFound.

Record PutTurn := { put_trace : TraceTurn; before_put : Server S -> Server S; put_lane : bool; put_secs : Z }.

Definition put_agent (turn : PutTurn) (peer : Peer) (segment : str) (record : AgentRecord) (s : Server S) : LoftResult unit * Server S :=
  match (address ← decode_address segment; _ ← from_core (record_verify record address); Ok address) with
  | Err e => (Err e, s)
  | Ok address =>
      match capture_trace peer PutAgentOp (put_trace turn) s with
      | (Err e, s) => (Err e, s)
      | (Ok _, s) =>
          blocking (put_lane turn) (before_put turn s)
            (stored (put_agent_record (address_str address) record (lc_capacity_bytes config) (put_secs turn)))
      end
  end.

Definition get_rotation (lane : bool) (segment : str) (s : Server S) : LoftResult RotationRecord :=
  address ← decode_address segment;
  _ ← guard (negb lane) LoftError.Overloaded;
  record ← get_rotation_record (address_str address) (sv_store s);
  ok_or record LoftError.NotFound.

Definition put_rotation (turn : PutTurn) (peer : Peer) (segment : str) (record : RotationRecord) (s : Server S) : LoftResult unit * Server S :=
  match (address ← decode_address segment; _ ← from_core (verify_source_address record address); Ok address) with
  | Err e => (Err e, s)
  | Ok address =>
      match capture_trace peer PutAgentOp (put_trace turn) s with
      | (Err e, s) => (Err e, s)
      | (Ok _, s) =>
          match blocking (put_lane turn) (before_put turn s)
                  (stored (put_rotation_record (address_str address) record (put_secs turn) (lc_capacity_bytes config))) with
          | (Err e, s) => (Err e, s)
          | (Ok _, s) => (Ok tt, s)
          end
      end
  end.

(** ** Requests *)

Inductive Method := Get | Head | OtherMethod.

Record HttpRequest := {
  http_method : Method;
  http_path : str;
  content_encoding : option bytes;
  content_length : option bytes;
  http_connected : option SocketAddr;
  http_forwarded : option bytes;
  http_x_forwarded_for : bool;
}.

(** A response built without running the handler. *)
Inductive Rejection := UnsupportedMediaType | PayloadTooLarge | Refused (e : LoftError.LoftError).

(** [run_admitted_request] up to [next.run]: the effective source handed to the handler. *)
Definition run_admitted_request (request : HttpRequest) (now now' : Z) (s : Server S) : result Rejection (option SocketAddr) * Server S :=
  if match content_encoding request with Some encoding => negb (encoding ≟ lit "identity") | None => false end
  then (Err UnsupportedMediaType, s)
  else
    let declared := value ← content_length request; value ← header_to_str value; parse_uint 64 value in
    if match declared with Some n => max_request_bytes config <? n | None => false end then (Err PayloadTooLarge, s)
    else
      let charged_bytes := match http_method request with Get | Head => 0 | OtherMethod => default (max_request_bytes config) declared end in
      let is_probe := (http_path request ≟ lit "/health") || (http_path request ≟ lit "/ready") in
      let source :=
        if is_probe then Ok None
        else
          let peer := {| connected := http_connected request; forwarded := http_forwarded request;
                         x_forwarded_for_present := http_x_forwarded_for request; effective_source := None |} in
          match connected peer with
          | Some _ => source ← resolve_peer_source config peer; Ok (Some source)
          | None => Ok None
          end in
      match source with
      | Err e => (Err (Refused e), s)
      | Ok source =>
          let '(admission, charged) := charge_shared config (sv_admission s) (sa_ip <$> source) charged_bytes now now' in
          (match charged with Ok _ => Ok source | Err e => Err (Refused e) end, with_admission admission s)
      end.

Definition json_content_type (content_type : option bytes) : bool :=
  match (value ← content_type; value ← header_to_str value; head (split ";"%byte value)) with
  | None => false
  | Some value =>
      match split_once "/"%byte (trim value) with
      | None => false
      | Some (top_level, subtype) =>
          eq_ignore_ascii_case top_level (lit "application")
          && (eq_ignore_ascii_case subtype (lit "json")
              || match rsplit_once "+"%byte subtype with
                 | Some (_, suffix) => eq_ignore_ascii_case suffix (lit "json")
                 | None => false
                 end)
      end
  end.

(** ** Start *)

(** [health] is the store's own health check, [durable] whether it supports durable trace admission. *)
Definition validate_startup (resolver : AttributionKeyResolver) (health : LoftResult unit) (durable : bool) (now_ms : Z) (s : Server S) : LoftResult unit :=
  _ ← validate_config config;
  _ ← health;
  stats ← stats (sv_store s);
  control_total ← ok_or (checked_add 64 (ss_control_bytes_used stats) (ss_control_bytes_reserved stats))
                    (LoftError.Configuration "loft control storage accounting overflow");
  _ ← guard ((lc_capacity_bytes config <? ss_bytes_used stats) || (lc_capacity_bytes config / CONTROL_STORAGE_DIVISOR <? control_total))
        (LoftError.Configuration "persisted loft storage exceeds configured capacity");
  _ ← guard (enabled sink && negb durable) (LoftError.Configuration "durable trace admission is unavailable");
  _ ← guard (negb (sink_readiness sink (sv_sink s))) LoftError.TraceUnavailable;
  guard (configured resolver && negb (resolver_readiness resolver now_ms)) LoftError.AttributionUnavailable.
End Server.
