(* ===== verification/LoftPublish.v ===== *)
(** Publishing at a loft is atomic with the policy it was checked against.

    [publish] reads the policy in one transaction, seals a trace, and stores in another; a policy written in
    between fails the second with [PolicyChanged] and the loop checks again.  [store_step]s only ever raise a policy's
    sequence number, so a stored event met the policy in force at the moment it was stored. *)
From S2P Require Import Prelude Text B32 Network Crypto Origin Limiter Token Pow Address Compliance Entry Policy FetchAuth AgentRecord EnvelopeBytes LoftConfig LoftPeer LoftStore LoftTrace LoftInvariant LoftSteps LoftControl LoftRuns LoftServer.

(** What a sink promises a loft: a record it took is kept. *)
Class DurableSink {S} (sink : TraceSink S) := {
  records : S -> list TraceInput;
  capture_kept input s : forall x, x ∈ records s -> x ∈ records (capture sink input s).2;
  capture_taken input s : (capture sink input s).1 = true -> input ∈ records (capture sink input s).2;
}.

(** * Policies only move forward *)

Section Policies.
Context {C : Crypto} {UP : UrlParser} {J : LoftJson} {JL : LoftJsonLaws}.

Definition moved_forward (old new : option PolicyRow) : Prop :=
  match old, new with
  | Some r, Some r' => r = r' \/ pr_seq r < pr_seq r'
  | Some _, None => False
  | None, _ => True
  end.

#[global] Instance moved_forward_preorder : PreOrder moved_forward.
Proof.
  split; [intros [r|]; simpl; auto|]. intros [a|] [b|] [c|]; simpl; try done. intros [->|H1] [->|H2]; auto; right; lia.
Qed.

Lemma stored_seq_row k r db : db_ok db -> recipient_policy db !! k = Some r -> stored_seq (Some r) = Ok (Some (pr_seq r)).
Proof.
  intros D Hl. destruct (do_policies _ D _ _ Hl) as (p & key & Hp & Hv & _ & _ & _ & Hs & _). unfold stored_seq, decode_policy.
  rewrite Hp. cbn [ok_or mbind result_bind]. rewrite Hv. cbn [from_core mbind result_bind]. by rewrite Hs.
Qed.

Lemma step_moves_forward capacity horizon db db' k : store_step capacity horizon db db' -> db_ok db ->
  moved_forward (recipient_policy db !! k) (recipient_policy db' !! k).
Proof.
  intros H D. destruct H; [..|reflexivity].
  all: match goal with |- context [transact ?d ?r] => destruct (transact_cases d r) as [-> | (x & db'' & Hr & ->)]; [reflexivity|] end.
  - apply admit_event_Ok in Hr as (_ & _ & Hr). apply insert_event_Ok in Hr as [(_ & -> & _)|(_ & row & -> & _)]; reflexivity.
  - apply put_policy_Ok in Hr as [(-> & _)|(row & key & last & _ & _ & Hlast & Hv & Hs & _ & _ & _ & -> & _)]; [reflexivity|]. simpl.
    destruct (decide (rp_pubkey p = k)) as [<-|Hne]; [|by rewrite lookup_insert_ne]. rewrite lookup_insert_eq.
    destruct (recipient_policy db !! rp_pubkey p) as [r|] eqn:E; [|done]. rewrite (stored_seq_row _ _ _ D E) in Hlast. injection Hlast as <-.
    right. apply policy_verify_Ok in Hv as (_ & Hlt & _). simpl in Hlt. lia.
  - apply put_agent_record_Ok in Hr as (? & ? & ? & _ & _ & _ & [(-> & _)|(? & _ & _ & _ & _ & _ & -> & _)]); reflexivity.
  - apply put_rotation_record_Ok in Hr as (ad & ? & ? & _ & _ & _ & _ & [(_ & -> & _)|(_ & Hn & ? & ? & ? & ? & _ & _ & _ & _ & _ & _ & _ & _ & -> & _)]); reflexivity.
  - unfold sweep_expired in Hr. destruct (batch =? 0)%nat; inv_ok; [apply pair_eq in Hr as [_ <-]; reflexivity|].
    destruct (_ =? 0)%nat; inv_ok; apply pair_eq in Hr as [_ <-]; reflexivity.
Qed.

Lemma steps_move_forward capacity db db' k : rtc (store_step capacity (-1)) db db' -> db_ok db -> within_capacity capacity db ->
  moved_forward (recipient_policy db !! k) (recipient_policy db' !! k).
Proof.
  induction 1 as [|db db1 db' H _ IH]; [reflexivity|]. intros D W. etransitivity; [by eapply step_moves_forward|].
  destruct (store_step_preserves capacity (-1) _ _ ltac:(done) H D W). by apply IH.
Qed.

Lemma get_policy_row db k : db_ok db ->
  (recipient_policy db !! k = None /\ get_policy k db = Ok None) \/
  exists r p, recipient_policy db !! k = Some r /\ get_policy k db = Ok (Some p) /\ rp_seq p = pr_seq r /\ rp_pubkey p = k.
Proof.
  intros D. unfold get_policy. destruct (recipient_policy db !! k) as [r|] eqn:E; [right|by left].
  destruct (do_policies _ D _ _ E) as (p & key & Hp & Hv & Hk & Hver & Hlt & Hs & Hrv & _). exists r, p. split_and!; [done| |done|done].
  unfold decode_policy. rewrite Hp. cbn [ok_or mbind result_bind]. rewrite Hv. cbn [from_core mbind result_bind].
  rewrite (proj2 (to_i64_Ok _ _) (conj eq_refl Hlt)). cbn [mbind result_bind]. by rewrite Hs, Hrv, Hver, !Z.eqb_refl.
Qed.

Definition found_seq (found : option RecipientPolicy) : option Z := rp_seq <$> found.

(** The same sequence number later is the same policy. *)
Lemma policy_unchanged capacity db db' k found :
  rtc (store_step capacity (-1)) db db' -> db_ok db -> within_capacity capacity db ->
  get_policy k db = Ok found -> stored_seq (recipient_policy db' !! k) = Ok (found_seq found) -> get_policy k db' = Ok found.
Proof.
  intros R D W Hg Hs. pose proof (steps_move_forward _ _ _ k R D W) as M. destruct (store_steps_preserve capacity (-1) _ _ ltac:(done) R D W) as [D' _].
  destruct (get_policy_row db k D) as [(E & G)|(r & p & E & G & Hp & _)]; rewrite G in Hg; injection Hg as <-; rewrite E in M.
  - destruct (recipient_policy db' !! k) as [r'|] eqn:E'; [|unfold get_policy; by rewrite E'].
    by rewrite (stored_seq_row _ _ _ D' E') in Hs.
  - destruct (recipient_policy db' !! k) as [r'|] eqn:E'; [|done]. rewrite (stored_seq_row _ _ _ D' E') in Hs. injection Hs as Hs.
    destruct M as [<-|M]; [|lia]. unfold get_policy in *. rewrite E'. by rewrite E in G.
Qed.
End Policies.

(** * What a policy admits *)

Section Publish.
Context {C : Crypto} {UP : UrlParser} {J : LoftJson} {JL : LoftJsonLaws} {SJ : ServerJson} {S : Type}.
Context (config : LoftConfig) (sink : TraceSink S) `{DS : !DurableSink sink}.

(** The block of an event is for a key that is registered, active and in its month. *)
Definition block_admissible (resolver : AttributionKeyResolver) (b : AttributionBlockV3) (now_ms : Z) : Prop :=
  exists key, configured resolver = true /\ resolver_readiness resolver now_ms = true /\
    resolve resolver (block_key_id b) = Some (Some key) /\ rk_status key = Active /\
    validate_attribution_epoch (block_key_id b) (rk_not_before_ms key) (rk_not_after_ms key) = Ok tt /\
    attribution_epoch_contains (block_key_id b) now_ms = Ok true /\ sha256 (vec_to_list (rk_public_key key)) = compliance_key_digest b.

Record admissible (resolver : AttributionKeyResolver) (policy : RecipientPolicy) (prepared : PreparedPublish) (now_ms : Z) : Prop := {
  ad_work : pow_min policy = 0 \/ pow_min policy <= work (wrap_id (pp_wrap prepared)) (pow_nonce (pp_wrap prepared));
  ad_token : token_required policy = true ->
    exists text h, pp_token prepared = Some text /\ parse_presentation text = Some (MkPresentation h) /\ h ∈ token_hashes policy;
  ad_scoped : attribution_required policy = true -> is_Some (attribution_requirement policy);
  ad_block block : attribution (pp_wrap prepared) = Some block -> exists b, block = V3 b /\ block_admissible resolver b now_ms;
  ad_required r : attribution_requirement policy = Some r ->
    exists b, attribution (pp_wrap prepared) = Some (V3 b) /\ matches_key_id r (block_key_id b) = true;
}.

Lemma attribution_validate_Ok resolver w requirement now_ms : attribution_validate w requirement resolver now_ms = Ok tt ->
  (forall block, attribution w = Some block -> exists b, block = V3 b /\ block_admissible resolver b now_ms) /\
  (forall r, requirement = Some r -> exists b, attribution w = Some (V3 b) /\ matches_key_id r (block_key_id b) = true).
Proof.
  unfold attribution_validate. destruct (attribution w) as [block|].
  - intros H. inv_ok. destruct block as [|b]; [done|]. injection Ha as <-.
    apply orb_false_iff in Ha6 as [Ha6 Hc]. apply orb_false_iff in Ha6 as [Hst Hep].
    apply negb_false_iff in H, Hst, Hep, Ha2, Ha3. apply bool_decide_eq_true in H, Hst. split.
    + intros block [= <-]. exists b. split; [done|]. exists a5. split_and!; [done|done|congruence|done| | |done].
      * by destruct (validate_attribution_epoch _ _ _) as [[]|].
      * by destruct (attribution_epoch_contains _ _) as [[]|].
    + intros r ->. exists b. split; [done|]. by apply negb_false_iff in Ha1.
  - intros H. apply guard_Ok in H. split; [done|]. intros r ->. done.
Qed.

Lemma check_policy_Ok resolver policy prepared now_ms : check_policy resolver policy prepared now_ms = Ok tt -> admissible resolver policy prepared now_ms.
Proof.
  unfold check_policy. intros H. inv_ok. apply from_core_Ok in Ha. apply attribution_validate_Ok in H as [Hb Hr]. split; [| | |done|done].
  - unfold verify_work, pow_verify in Ha. destruct (pow_min policy =? 0) eqn:E; b2p; [by left|]. right.
    destruct (pow_min policy <=? _) eqn:E'; [by b2p|done].
  - intros Ht. rewrite Ht in Ha0. inv_ok. destruct (pp_token prepared) as [text|]; [|done]. cbn [mbind option_bind] in Ha2.
    destruct a2 as [h]. exists text, h. split_and!; [done..|]. apply negb_false_iff in Ha0. unfold accepts_token in Ha0.
    apply existsb_exists in Ha0 as (x & Hin & Hm). apply list_elem_of_In in Hin. unfold presentation_matches in Hm. b2p. simpl in *. by subst.
  - intros Hreq. rewrite Hreq in Ha1. destruct (attribution_requirement policy); [done|]. done.
Qed.

(** * The handler *)

(** What other requests may do between two awaits. *)
Definition interferes (s s' : Server S) : Prop :=
  rtc (store_step (lc_capacity_bytes config) (-1)) (sv_store s) (sv_store s') /\
  forall x, x ∈ records (sv_sink s) -> x ∈ records (sv_sink s').

Record attempt_ok (a : Attempt (S := S)) : Prop := {
  ao_policy s : interferes s (before_policy a s);
  ao_trace s : interferes s (before_trace a s);
  ao_store s : interferes s (before_store a s);
  ao_ms : 0 <= tt_now_ms (trace_turn a);
}.

#[global] Instance interferes_preorder : PreOrder interferes.
Proof.
  split; [split; [apply rtc_refl|done]|]. intros a b c [H1 H2] [H3 H4]. split; [by etransitivity|auto].
Qed.

Lemma traced_interferes observed input s : 0 <= timestamp_ms input -> interferes s (traced config sink observed input s).2.
Proof.
  intros Ht. unfold traced. destruct (negb _); [reflexivity|]. destruct (charge_trace_admission _ _ _ _ _) as [[[u|e] b] row] eqn:E.
  - pose proof (capture_kept input (sv_sink s)) as Hk. destruct (capture sink input (sv_sink s)) as [taken sk]. split; simpl; [|done].
    apply rtc_once. by eapply step_trace.
  - split; simpl; [|done]. apply rtc_once. by eapply step_trace.
Qed.

Lemma capture_trace_interferes peer op turn s : 0 <= tt_now_ms turn -> interferes s (capture_trace config sink peer op turn s).2.
Proof.
  intros Ht. unfold capture_trace. destruct (negb _); [reflexivity|]. destruct (resolve_peer_source config peer); [|reflexivity].
  destruct (tt_lane turn); [|reflexivity|]; by apply traced_interferes.
Qed.

Definition evidence (peer : Peer) (op : TraceOperation) (s : Server S) : Prop :=
  enabled sink = true -> exists input, input ∈ records (sv_sink s) /\ operation input = op /\
    resolve_peer_source config peer = Ok (connected_source input).

Lemma capture_trace_evidence peer op turn s u s' : capture_trace config sink peer op turn s = (Ok u, s') -> evidence peer op s'.
Proof.
  unfold capture_trace, evidence. intros H He. rewrite He in H. cbn [negb] in H. destruct (resolve_peer_source config peer) as [source|]; [|done].
  destruct (tt_lane turn); [|done|done]. unfold traced in H. destruct (negb _); [done|].
  destruct (charge_trace_admission _ _ _ _ _) as [[[|] b] row]; [|done].
  pose proof (capture_taken {| timestamp_ms := tt_now_ms turn; connected_source := source; operation := op |} (sv_sink s)) as Hc.
  destruct (capture sink _ _) as [[] sk]; [|done]. injection H as _ <-. eexists. split; [by apply Hc|done].
Qed.

Lemma evidence_kept peer op s s' : interferes s s' -> evidence peer op s -> evidence peer op s'.
Proof. intros [_ H] He E. destruct (He E) as (i & Hi & ?). eauto. Qed.

(** An event was stored: how the server stood just before, the policy it met, and the turn of the loop that checked it. *)
Definition stored_under_policy (world : nat -> Attempt (S := S)) (peer : Peer) (prepared : PreparedPublish) (now expires_at : Z) (s' : Server S) : Prop :=
  exists s1 found i row,
    reachable (lc_capacity_bytes config) (sv_store s1) /\ sv_store s' = appended row (sv_store s1) /\
    ev_id row = wrap_id (pp_wrap prepared) /\ ev_recipient row = recipient (pp_wrap prepared) /\ wrap_from_slice (ev_blob row) = Some (pp_wrap prepared) /\
    ev_stored_at row = now /\ ev_expires_at row = expires_at /\
    get_policy (recipient (pp_wrap prepared)) (sv_store s1) = Ok found /\
    admissible (keys (world i)) (default (permissive (recipient (pp_wrap prepared))) found) prepared (validation_ms (world i)) /\
    evidence peer (PublishOp (pp_id prepared) (recipient (pp_wrap prepared)) (pp_encoded_size prepared)) s1.

Lemma validate_publish_policy_Ok resolver db prepared ms expected : validate_publish_policy resolver db prepared ms = Ok expected ->
  exists found, get_policy (recipient (pp_wrap prepared)) db = Ok found /\ expected = found_seq found /\
    admissible resolver (default (permissive (recipient (pp_wrap prepared))) found) prepared ms.
Proof.
  unfold validate_publish_policy. intros H. inv_ok. exists a. split; [done|]. destruct a as [p|]; apply bind_Ok in H as ([] & Hc & H);
    apply Ok_inj in H as <-; (split; [done|]); by apply check_policy_Ok.
Qed.

Lemma reachable_interferes s s' : interferes s s' -> reachable (lc_capacity_bytes config) (sv_store s) -> reachable (lc_capacity_bytes config) (sv_store s').
Proof. intros [H _] R. unfold reachable. by etransitivity. Qed.

(** The last step of a turn: the policy checked in [s0] is the one in force in [s1]. *)
Lemma store_turn world i peer prepared now expires_at found s0 s1 b db :
  0 <= lc_capacity_bytes config -> interferes s0 s1 -> reachable (lc_capacity_bytes config) (sv_store s0) ->
  get_policy (recipient (pp_wrap prepared)) (sv_store s0) = Ok found ->
  admissible (keys (world i)) (default (permissive (recipient (pp_wrap prepared))) found) prepared (validation_ms (world i)) ->
  evidence peer (PublishOp (pp_id prepared) (recipient (pp_wrap prepared)) (pp_encoded_size prepared)) s1 ->
  admit_event (pp_wrap prepared) (pp_id prepared) now expires_at (lc_capacity_bytes config) (found_seq found) (sv_store s1) = Ok (b, db) ->
  b = true -> stored_under_policy world peer prepared now expires_at (with_store db s1).
Proof.
  intros Hc I R Hg Ha He Hadm ->. destruct (reachable_ok _ _ Hc R) as [D W]. apply admit_event_Ok in Hadm as (_ & Hid & Hadm).
  apply insert_event_Ok in Hadm as [(? & _)|(_ & row & -> & _ & Hs & _ & _ & Hi & Hr & Hst & Hex & Hb & _)]; [done|].
  exists s1, found, i, row. split_and!; try done.
  - by eapply reachable_interferes.
  - congruence.
  - by apply wrap_json.
  - eapply policy_unchanged; [apply I|done..].
Qed.

Lemma publish_loop_stored attempts world peer prepared now expires_at traced s resp s' :
  0 <= lc_capacity_bytes config -> (forall i, attempt_ok (world i)) -> reachable (lc_capacity_bytes config) (sv_store s) ->
  (traced = true -> evidence peer (PublishOp (pp_id prepared) (recipient (pp_wrap prepared)) (pp_encoded_size prepared)) s) ->
  publish_loop config sink attempts world peer prepared now expires_at traced s = (Ok resp, s') -> resp_stored resp = true ->
  stored_under_policy world peer prepared now expires_at s'.
Proof.
  intros Hc Hw. revert traced s. induction attempts as [|rest IH]; intros traced s R Htr; [done|]. cbn [publish_loop].
  set (i := (POLICY_ADMISSION_RETRIES - Datatypes.S rest)%nat). set (a := world i). destruct (Hw i) as [Hp Ht Hs Hms]. fold a in Hp, Ht, Hs, Hms. clearbody i.
  intros H Hst. unfold blocking in H. destruct (policy_lane a); [|done].
  destruct (validate_publish_policy (keys a) (sv_store (before_policy a s)) prepared (validation_ms a)) as [expected|] eqn:V; [|done].
  apply validate_publish_policy_Ok in V as (found & Hg & -> & Ha). set (s0 := before_policy a s) in *.
  assert (interferes s s0) as I0 by apply Hp. assert (reachable (lc_capacity_bytes config) (sv_store s0)) as R0 by by eapply reachable_interferes.
  set (op := PublishOp _ _ _) in *.
  destruct (if traced then (Ok tt, before_trace a s0) else _) as [r s2] eqn:T.
  assert (interferes s0 s2 /\ (is_ok r = true -> evidence peer op s2)) as [I2 E2].
  { destruct traced; [injection T as <- <-|].
    - split; [apply Ht|]. intros _. eapply evidence_kept; [|by apply Htr]. by etransitivity; [|apply Ht].
    - destruct (2 ^ 32 <=? pp_encoded_size prepared); [injection T as <- <-; split; [apply Ht|done]|]. split.
      + etransitivity; [apply Ht|]. replace s2 with (capture_trace config sink peer op (trace_turn a) (before_trace a s0)).2 by by rewrite T.
        by apply capture_trace_interferes.
      + intros Hr. destruct r; [|done]. by eapply capture_trace_evidence. }
  destruct r as [u|e]; [|done]. specialize (E2 eq_refl). set (s3 := before_store a s2) in *.
  assert (interferes s2 s3) as I3 by apply Hs. assert (interferes s0 s3) as I03 by by etransitivity.
  assert (evidence peer op s3) as E3 by by apply (evidence_kept _ _ s2).
  destruct (store_lane a); [|done]. destruct (admit_event _ _ _ _ _ _ _) as [[b db]|e] eqn:A; cbn [transact] in H.
  - injection H as <- <-. by eapply (store_turn world i).
  - assert (with_store (sv_store s3) s3 = s3) as Hid by (by destruct s3). rewrite Hid in H. destruct e; try done.
    eapply (IH true s3); [by apply (reachable_interferes s0)|done..].
Qed.

Lemma publish_loop_id attempts world peer prepared now expires_at traced s resp s' :
  publish_loop config sink attempts world peer prepared now expires_at traced s = (Ok resp, s') ->
  resp_id resp = hex_of (vec_to_list (pp_id prepared)).
Proof.
  revert traced s. induction attempts as [|rest IH]; intros traced s; [done|]. cbn [publish_loop]. set (a := world _). clearbody a. intros H.
  destruct (blocking (policy_lane a) _ _) as [[expected|] s0]; [|done]. destruct (if traced then _ else _) as [[] s2]; [|done].
  destruct (blocking (store_lane a) _ _) as [[stored|e] s3]; [by injection H as <- <-|]. destruct e; try done. by eapply IH.
Qed.

Lemma prepare_publish_Ok body max prepared : prepare_publish body max = Ok prepared ->
  verify_public (pp_wrap prepared) = Ok tt /\ pp_encoded_size prepared <= max /\ pp_id prepared = wrap_id (pp_wrap prepared).
Proof.
  unfold prepare_publish. intros P. inv_ok. apply from_core_Ok in Ha2. destruct a2. subst prepared. b2p. done.
Qed.

(** C9: whatever other requests do between the awaits of a publication (policies replaced in between included), an event that [publish] reports
    stored was sent by the signed request of at most the configured size, became the next row of the inbox, and met the recipient
    policy in force at that very moment: its proof of work, a live token when one is required, and an attribution block
    for the required jurisdiction under a key that the resolver, as it stood when that policy was checked, gave as registered and active; and when traces are sealed, the sink already held its record
    with the source the request came from. *)
Theorem publish_under_policy_in_force (world : nat -> Attempt) (prepare_lane : bool) (charge_at now : Z) (peer : Peer) (body : bytes)
  (s : Server S) (resp : PublishResponse) (s' : Server S) :
  0 <= lc_capacity_bytes config -> (forall i, attempt_ok (world i)) -> reachable (lc_capacity_bytes config) (sv_store s) ->
  publish config sink world prepare_lane charge_at now peer body s = (Ok resp, s') -> resp_stored resp = true ->
  exists prepared, prepare_publish body (lc_max_event_bytes config) = Ok prepared /\
    verify_public (pp_wrap prepared) = Ok tt /\ pp_encoded_size prepared <= lc_max_event_bytes config /\
    resp_id resp = hex_of (vec_to_list (wrap_id (pp_wrap prepared))) /\
    stored_under_policy world peer prepared now (now + lc_retention_days config * 86400) s'.
Proof.
  intros Hc Hw R H Hst. unfold publish, blocking in H. destruct prepare_lane; [|done].
  destruct (prepare_publish body _) as [prepared|] eqn:P; [|done]. exists prepared. split; [done|].
  apply prepare_publish_Ok in P as (Hv & Hsz & Hid). split; [done|]. split; [done|].
  destruct (charge_recipient _ _ _ _ _) as [admission [u|e]]; [|done].
  destruct (_ ≫= _) as [expires_at|] eqn:E; [|done]. apply bind_Some in E as (seconds & Hm & Hadd). apply checked_add_Some in Hadd as [-> _].
  unfold checked_mul in Hm. destruct (_ <? _); [|done]. injection Hm as <-. split; [by rewrite <-Hid; eapply publish_loop_id|].
  eapply publish_loop_stored; [exact Hc|exact Hw| | |exact H|exact Hst]; [exact R|done].
Qed.
End Publish.
