(* ===== verification/LoftMailbox.v ===== *)
(** Draining a mailbox: the pages of [fetch] ([pigeonpost-loft/src/server.rs]) while the loft goes on storing, sweeping and replacing.

    An owner resumes each fetch from the cursor the last one returned.  Cursors are never given out twice, so
    a row is delivered once, and no row is passed over. *)
From stdpp Require Import sorting.
From S2P Require Import Prelude Text B32 Network Crypto Origin Limiter Token Pow Address Compliance Entry Policy FetchAuth AgentRecord EnvelopeBytes LoftConfig LoftPeer LoftStore LoftTrace LoftInvariant LoftSteps LoftControl LoftRuns LoftServer.

Section Mailbox.
Context {C : Crypto} {UP : UrlParser} {J : LoftJson} {JL : LoftJsonLaws} {SJ : ServerJson}.

(** The loft's database, and what one owner has: a cursor and the events received. *)
Record Mail := { ml_db : Database; ml_cursor : Z; ml_got : list Wrap }.

Definition mail_started : Mail := {| ml_db := empty_database; ml_cursor := 0; ml_got := [] |}.

Inductive mail_step (capacity max_response_bytes : Z) (owner : arr 32) (m : Mail) : Mail -> Prop :=
| mail_write db' : store_step capacity (-1) (ml_db m) db' ->
    mail_step capacity max_response_bytes owner m {| ml_db := db'; ml_cursor := ml_cursor m; ml_got := ml_got m |}
| mail_fetch limit resp encoded : 1 <= limit < 2 ^ 63 - 1 ->
    fetch_page owner (ml_cursor m) limit max_response_bytes (ml_db m) = Ok (resp, encoded) ->
    mail_step capacity max_response_bytes owner m
      {| ml_db := ml_db m; ml_cursor := resp_next_cursor resp; ml_got := ml_got m ++ resp_events resp |}.

(** * Cursors *)

Lemma step_events capacity horizon db db' : store_step capacity horizon db db' ->
  event_seq db <= event_seq db' /\ forall e, e ∈ events db' -> e ∈ events db \/ event_seq db < ev_cursor e.
Proof.
  intros H. assert (event_seq db <= event_seq db /\ forall e, e ∈ events db -> e ∈ events db \/ event_seq db < ev_cursor e) as Hid
    by (split; [lia|auto]).
  destruct H; [..|exact Hid].
  all: match goal with |- context [transact ?d ?r] => destruct (transact_cases d r) as [-> | (x & db'' & Hr & ->)]; [exact Hid|] end.
  - apply admit_event_Ok in Hr as (_ & _ & Hr). apply insert_event_Ok in Hr as [(_ & -> & _)|(_ & row & -> & _ & _ & Hc & _)]; [exact Hid|].
    simpl. split; [lia|]. intros e He. apply elem_of_app in He as [He|He]; [by left|]. apply list_elem_of_singleton in He as ->. right. lia.
  - by apply put_policy_Ok in Hr as [(-> & _)|(? & ? & ? & _ & _ & _ & _ & _ & _ & _ & _ & -> & _)].
  - by apply put_agent_record_Ok in Hr as (? & ? & ? & _ & _ & _ & [(-> & _)|(? & _ & _ & _ & _ & _ & -> & _)]).
  - by apply put_rotation_record_Ok in Hr as (ad & ? & ? & _ & _ & _ & _ & [(_ & -> & _)|(_ & Hn & ? & ? & ? & ? & _ & _ & _ & _ & _ & _ & _ & _ & -> & _)]).
  - unfold sweep_expired in Hr. destruct (batch =? 0)%nat; inv_ok; [by apply pair_eq in Hr as [_ <-]|].
    destruct (_ =? 0)%nat; inv_ok; apply pair_eq in Hr as [_ <-]; [exact Hid|]. simpl. split; [lia|]. intros e He.
    apply list_elem_of_filter in He as [_ He]. by left.
Qed.

(** * Pages *)

Definition reads (e : EventRow) (w : Wrap) : Prop := wrap_from_slice (ev_blob e) = Some w.

Lemma stored_events_Ok es ses : stored_events es = Ok ses -> map se_cursor ses = map ev_cursor es /\ Forall2 reads es (map se_wrap ses).
Proof.
  revert ses. induction es as [|e es IH]; intros ses H; cbn [stored_events] in H; inv_ok; subst; [done|].
  apply IH in Ha0 as [Hc Hr]. unfold stored_event in Ha. inv_ok. subst a. cbn [map se_cursor se_wrap]. rewrite Hc. destruct (ev_cursor e <? 0); inv_ok. subst.
  split; [done|]. by constructor.
Qed.

Lemma waiting_sorted owner c db : events_ok (events db) (event_seq db) ->
  StronglySorted Z.lt (map ev_cursor (filter (fun e => ev_recipient e = owner /\ c < ev_cursor e) (events db))).
Proof. intros E. eapply StronglySorted_sublist; [apply sublist_map, sublist_filter|apply E]. Qed.

Lemma last_map {A B} (f : A -> B) l : last (map f l) = f <$> last l.
Proof. induction l as [|x [|y l] IH]; [done..|]. exact IH. Qed.

Lemma sorted_take_last {A} (f : A -> Z) l n x z : StronglySorted Z.lt (map f l) -> last (take n l) = Some z -> x ∈ l -> f x <= f z -> x ∈ take n l.
Proof.
  intros Hs Hz Hx Hle. rewrite <-(take_drop n l) in Hs, Hx. rewrite map_app in Hs. apply elem_of_app in Hx as [Hx|Hx]; [done|].
  assert (f z < f x); [|lia]. eapply (StronglySorted_app_1_elem_of _ _ _ _ _ Hs); apply list_elem_of_fmap_2; [|done]. apply last_Some in Hz as [l' ->]. set_solver.
Qed.

Lemma sorted_last_max {A} (f : A -> Z) l x z : StronglySorted Z.lt (map f l) -> last l = Some z -> x ∈ l -> f x <= f z.
Proof.
  intros Hs Hz Hx. apply last_Some in Hz as [l' ->]. rewrite map_app in Hs. apply elem_of_app in Hx as [Hx|Hx].
  - assert (f x < f z); [|lia]. eapply (StronglySorted_app_1_elem_of _ _ _ _ _ Hs); [by apply list_elem_of_fmap_2|]. simpl. set_solver.
  - apply list_elem_of_singleton in Hx as ->. lia.
Qed.

Definition waiting (owner : arr 32) (c : Z) (db : Database) : list EventRow :=
  filter (fun e => ev_recipient e = owner /\ c < ev_cursor e) (events db).

Lemma fetch_page_Ok owner c limit max db resp encoded : 1 <= limit < 2 ^ 63 - 1 ->
  fetch_page owner c limit max db = Ok (resp, encoded) ->
  let rows := take (Z.to_nat limit) (waiting owner c db) in
  Forall2 reads rows (resp_events resp) /\ resp_next_cursor resp = default c (ev_cursor <$> last rows) /\
  resp_more resp = (Z.to_nat limit <? length (waiting owner c db))%nat.
Proof.
  intros Hl H. unfold fetch_page in H. inv_ok. apply pair_eq in H as [<- _]. cbn [resp_events resp_next_cursor resp_more].
  unfold fetch_events in Ha. inv_ok. apply to_i64_Ok in Ha2 as [-> _], Ha3 as [-> _]. rewrite Nat2Z.id in Ha. unfold page in Ha. fold (waiting owner c db) in Ha.
  replace (Z.to_nat (saturating_add 64 limit 1)) with (Datatypes.S (Z.to_nat limit)) in Ha by (unfold saturating_add; lia).
  apply stored_events_Ok in Ha as [Hc Hr]. set (n := Z.to_nat limit) in *. assert (take n (take (Datatypes.S n) (waiting owner c db)) = take n (waiting owner c db)) as Ht
    by (rewrite take_take; f_equal; lia).
  split_and!.
  - rewrite <-Ht, <-firstn_map. by apply Forall2_take.
  - rewrite <-(last_map ev_cursor), <-Ht, <-firstn_map, <-Hc, firstn_map, last_map. by destruct (last (take n a)).
  - apply (f_equal length) in Hc. rewrite !length_map, length_take in Hc. rewrite Hc. apply Bool.eq_true_iff_eq. rewrite Z.ltb_lt, Nat.ltb_lt. lia.
Qed.

(** * The owner's view *)

Record mail_inv (owner : arr 32) (m : Mail) (rows : list EventRow) : Prop := {
  mi_cursor : 0 <= ml_cursor m <= event_seq (ml_db m);
  mi_sorted : StronglySorted Z.lt (map ev_cursor rows);
  mi_below : Forall (fun e => ev_cursor e <= ml_cursor m) rows;
  mi_owner : Forall (fun e => ev_recipient e = owner) rows;
  mi_got : Forall2 reads rows (ml_got m);
  mi_complete e : e ∈ events (ml_db m) -> ev_recipient e = owner -> ev_cursor e <= ml_cursor m -> e ∈ rows;
}.

Lemma fetch_preserves owner m rows limit max resp encoded : events_ok (events (ml_db m)) (event_seq (ml_db m)) -> mail_inv owner m rows ->
  1 <= limit < 2 ^ 63 - 1 -> fetch_page owner (ml_cursor m) limit max (ml_db m) = Ok (resp, encoded) ->
  mail_inv owner {| ml_db := ml_db m; ml_cursor := resp_next_cursor resp; ml_got := ml_got m ++ resp_events resp |}
    (rows ++ take (Z.to_nat limit) (waiting owner (ml_cursor m) (ml_db m))).
Proof.
  intros E I Hl H. apply fetch_page_Ok in H as (Hr & Hn & _); [|done]. pose proof (waiting_sorted owner (ml_cursor m) _ E) as Hs.
  fold (waiting owner (ml_cursor m) (ml_db m)) in Hs. set (w := waiting owner (ml_cursor m) (ml_db m)) in *. set (n := Z.to_nat limit) in *.
  assert (forall e, e ∈ take n w -> e ∈ events (ml_db m) /\ ev_recipient e = owner /\ ml_cursor m < ev_cursor e) as Hw.
  { intros e He. pose proof (elem_of_sublist _ _ _ He (sublist_take _ _)) as Hin. apply list_elem_of_filter in Hin as [[? ?] ?]. done. }
  assert (StronglySorted Z.lt (map ev_cursor (take n w))) as Hst by (eapply StronglySorted_sublist; [apply sublist_map, sublist_take|done]).
  assert (ml_cursor m <= resp_next_cursor resp /\ forall e, e ∈ take n w -> ev_cursor e <= resp_next_cursor resp) as [Hle Hmax].
  { rewrite Hn. destruct (last (take n w)) as [z|] eqn:L; simpl.
    - split; [|intros e He; by eapply sorted_last_max]. apply last_Some in L as [l' L]. destruct (Hw z) as (_ & _ & ?); [rewrite L; set_solver|lia].
    - split; [done|]. apply last_None in L as ->. intros e He. by apply not_elem_of_nil in He. }
  destruct I as [Hc Hso Hb Ho Hg Hco]. split; cbn [ml_db ml_cursor ml_got].
  - split; [lia|]. rewrite Hn. destruct (last (take n w)) as [z|] eqn:L; simpl; [|lia]. apply last_Some in L as [l' L].
    destruct (Hw z) as (Hz & _); [rewrite L; set_solver|]. pose proof (eso_range _ _ E) as Hrange. rewrite Forall_forall in Hrange. by apply Hrange.
  - rewrite map_app. apply StronglySorted_app_2; [|done|done]. intros x y Hx Hy. apply list_elem_of_fmap in Hx as (e & -> & He), Hy as (e' & -> & He').
    rewrite Forall_forall in Hb. specialize (Hb e He). destruct (Hw e' He') as (_ & _ & ?). lia.
  - apply Forall_app. split; [|by apply Forall_forall]. eapply Forall_impl; [exact Hb|]. intros e; simpl; lia.
  - apply Forall_app. split; [done|]. apply Forall_forall. intros e He. by apply Hw.
  - by apply Forall2_app.
  - intros e He Hown Hce. apply elem_of_app. destruct (decide (ev_cursor e <= ml_cursor m)); [left; by apply Hco|right].
    assert (e ∈ w) as Hew by (apply list_elem_of_filter; split; [split; [done|lia]|done]).
    rewrite Hn in Hce. destruct (last (take n w)) as [z|] eqn:L; simpl in Hce; [|lia]. by eapply sorted_take_last.
Qed.

(** A row the table held at some point of the run that led to [m]. *)
Definition held (capacity max : Z) (owner : arr 32) (m : Mail) (e : EventRow) : Prop :=
  exists m', rtc (mail_step capacity max owner) mail_started m' /\ rtc (mail_step capacity max owner) m' m /\ e ∈ events (ml_db m').

Lemma held_later capacity max owner m m' rows : mail_step capacity max owner m m' ->
  Forall (held capacity max owner m) rows -> Forall (held capacity max owner m') rows.
Proof. intros St Hh. eapply Forall_impl; [exact Hh|]. intros e (m0 & ? & ? & ?). exists m0. split_and!; [done| |done]. by eapply rtc_r. Qed.

Lemma waiting_held capacity max owner m n : rtc (mail_step capacity max owner) mail_started m ->
  Forall (held capacity max owner m) (take n (waiting owner (ml_cursor m) (ml_db m))).
Proof.
  intros R. apply Forall_take, Forall_forall. intros e He. apply list_elem_of_filter in He as [_ He]. exists m. split_and!; [done|apply rtc_refl|done].
Qed.

Lemma mail_reachable capacity max owner m : 0 <= capacity -> rtc (mail_step capacity max owner) mail_started m ->
  db_ok (ml_db m) /\ within_capacity capacity (ml_db m) /\ exists rows, mail_inv owner m rows /\ Forall (held capacity max owner m) rows.
Proof.
  intros Hc R. pattern m. eapply rtc_ind_r; [|clear m R|exact R].
  - split_and!; [apply empty_ok|apply (reachable_ok capacity _ Hc), rtc_refl|]. exists []. split; [|constructor]. split; simpl; try done; constructor.
  - intros m m' R St (D & W & rows & I & Hh). apply (held_later _ _ _ _ _ _ St) in Hh as Hh'. pose proof St as St'. destruct St as [db' St|limit resp encoded Hl Hf].
    + destruct (store_step_preserves capacity (-1) _ _ ltac:(done) St D W) as [D' W']. cbn [ml_db]. split_and!; [done..|]. exists rows. split; [|done].
      apply step_events in St as [Hseq Hev]. destruct I as [Hcu Hso Hb Ho Hg Hco]. split; cbn [ml_db ml_cursor ml_got]; try done; [lia|].
      intros e He Hown Hle. destruct (Hev e He) as [He'|Hnew]; [by apply Hco|lia].
    + cbn [ml_db]. split_and!; [done..|]. eexists. split; [eapply fetch_preserves; [apply D|done..]|].
      apply Forall_app. split; [done|]. eapply held_later; [exact St'|]. by apply waiting_held.
Qed.

(** C32: an owner that drains a mailbox page by page, resuming from the returned cursor while the loft stores, sweeps and replaces as it
    likes, has received exactly the readings of rows the table held under its own key at some point of the run, in strictly increasing cursor
    order (so none twice), and every row of its own still in the table behind its cursor is among them.  The next page delivers rows that the
    table holds under its key past the cursor; one with [more] unset leaves nothing of the mailbox unread, one with [more] set is full. *)
Theorem mailbox_delivers (capacity max : Z) (owner : arr 32) (m : Mail) :
  0 <= capacity -> rtc (mail_step capacity max owner) mail_started m ->
  exists rows, StronglySorted Z.lt (map ev_cursor rows) /\ Forall2 reads rows (ml_got m) /\
    (forall e, e ∈ rows -> held capacity max owner m e /\ ev_recipient e = owner) /\
    (forall e, e ∈ events (ml_db m) -> ev_recipient e = owner -> ev_cursor e <= ml_cursor m -> e ∈ rows) /\
    forall limit resp encoded, 1 <= limit < 2 ^ 63 - 1 -> fetch_page owner (ml_cursor m) limit max (ml_db m) = Ok (resp, encoded) ->
      (exists page, Forall2 reads page (resp_events resp) /\
        forall e, e ∈ page -> e ∈ events (ml_db m) /\ ev_recipient e = owner /\ ml_cursor m < ev_cursor e <= resp_next_cursor resp) /\
      if resp_more resp then Z.of_nat (length (resp_events resp)) = limit
      else forall e, e ∈ events (ml_db m) -> ev_recipient e = owner -> exists w, reads e w /\ w ∈ ml_got m ++ resp_events resp.
Proof.
  intros Hc R. destruct (mail_reachable _ _ _ _ Hc R) as (D & _ & rows & I & Hh). exists rows. split_and!; [apply I..| |apply I|].
  { rewrite Forall_forall in Hh. pose proof (mi_owner _ _ _ I) as Ho. rewrite Forall_forall in Ho. auto. }
  intros limit resp encoded Hl H. pose proof (fetch_preserves _ _ _ _ _ _ _ (do_events _ D) I Hl H) as I'.
  apply fetch_page_Ok in H as (Hr & Hn & ->); [|done]. set (n := Z.to_nat limit) in *. set (w := waiting _ _ _) in *. split.
  - exists (take n w). split; [done|]. intros e He. pose proof (mi_below _ _ _ I') as Hb. rewrite Forall_forall in Hb. specialize (Hb e).
    pose proof (elem_of_sublist _ _ _ He (sublist_take _ _)) as Hin. apply list_elem_of_filter in Hin as [[? ?] ?]. split_and!; [done..|].
    apply Hb, elem_of_app. by right.
  - destruct (n <? length w)%nat eqn:E; b2p.
    + apply Forall2_length in Hr. rewrite length_take in Hr. lia.
    + rewrite (take_ge w n) in * by lia. intros e He Hown. assert (e ∈ rows ++ w) as Hin.
      { apply elem_of_app. destruct (decide (ev_cursor e <= ml_cursor m)); [left; by apply I|right]. apply list_elem_of_filter. split; [split; [done|lia]|done]. }
      pose proof (mi_got _ _ _ I') as Hg. simpl in Hg. apply list_elem_of_lookup in Hin as [i Hi].
      destruct (Forall2_lookup_l _ _ _ _ _ Hg Hi) as (x & Hx & Hrd). exists x. split; [done|]. by eapply list_elem_of_lookup_2.
Qed.
End Mailbox.
