(* ===== verification/LoftDemo.v ===== *)
(** Concrete lofts: a run of the store, a publication, a drained mailbox, a rotation and a trace charge, at which the theorems
    about lofts apply.  The JSON of a value is one byte here, and the cryptography the toy instance of [Crypto]. *)
From stdpp Require Import sorting.
From S2P Require Import Prelude Text B32 Network Crypto Origin Limiter Token Pow Address Compliance Entry Policy FetchAuth AgentRecord EnvelopeBytes LoftConfig LoftPeer LoftStore LoftTrace LoftInvariant LoftSteps LoftControl LoftRuns LoftServer LoftPublish LoftMailbox.

#[local] Existing Instance toy_crypto.
#[local] Existing Instance toy_laws.
#[local] Existing Instance toy_url_parser.

(** * Instances *)

#[local] Instance AttributionBlockV2_eq_dec : EqDecision AttributionBlockV2.
Proof. solve_decision. Defined.
#[local] Instance AttributionBlockV3_eq_dec : EqDecision AttributionBlockV3.
Proof. solve_decision. Defined.
#[local] Instance AttributionBlock_eq_dec : EqDecision AttributionBlock.
Proof. solve_decision. Defined.
#[local] Instance Wrap_eq_dec : EqDecision Wrap.
Proof. solve_decision. Defined.
#[local] Instance AgentRecord_eq_dec : EqDecision AgentRecord.
Proof. solve_decision. Defined.
#[local] Instance RotationRecord_eq_dec : EqDecision RotationRecord.
Proof. solve_decision. Defined.
#[local] Instance RecipientPolicy_eq_dec : EqDecision RecipientPolicy.
Proof. solve_decision. Defined.

Definition one_to {A} `{EqDecision A} (x : A) (b : byte) (y : A) : option bytes := if y ≟ x then Some [b] else None.
Definition one_from {A} (x : A) (b : byte) (bs : bytes) : option A := if bs ≟ [b] then Some x else None.
Lemma one_laws {A} `{EqDecision A} (x : A) b y bs : one_to x b y = Some bs -> one_from x b bs = Some y.
Proof.
  unfold one_to, one_from. destruct (y ≟ x) eqn:E; [|done]. intros [= <-]. apply bool_decide_eq_true in E as ->. by rewrite bool_decide_true.
Qed.

Definition bob : Identity := from_seed (vreplicate 32 x09).
Definition bob_token : arr 32 := vreplicate 32 xaa.
Definition bob_policy : RecipientPolicy := with_attribution_requirement bob 0 true [bob_token] 3 None.

#[local] Instance toy_loft_json : LoftJson := {|
  wrap_to_vec := one_to demo_wrap x01; wrap_from_slice := one_from demo_wrap x01;
  policy_to_vec := one_to bob_policy x02; policy_from_slice := one_from bob_policy x02;
  record_to_vec := one_to AgentRecord.demo_record x03; record_from_slice := one_from AgentRecord.demo_record x03;
  rotation_to_vec := one_to demo_rotation x04; rotation_from_slice := one_from demo_rotation x04 |}.
#[local] Instance toy_loft_json_laws : LoftJsonLaws.
Proof. split; intros ? ? H; by apply one_laws in H. Qed.

#[local] Instance toy_server_json : ServerJson := {|
  publish_request_from_slice := fun bs => if bs ≟ [x05] then Some {| req_wrap := demo_wrap; req_token := Some (hex_of (vec_to_list bob_token)) |} else None;
  fetch_response_to_vec := fun r => Some (repeat x06 (length (resp_events r))) |}.

(** * The store *)

Definition cap : Z := 1000000.
Definition owner_address : str := address_str (from_pubkey (rec_pubkey AgentRecord.demo_record)).

Definition db_policy : Database := (transact empty_database (put_policy bob_policy cap 10 empty_database)).2.
Definition db_event : Database :=
  (transact db_policy (admit_event demo_wrap (wrap_id demo_wrap) 100 200 cap (Some 3) db_policy)).2.
Definition db_agent : Database := (transact db_event (put_agent_record owner_address AgentRecord.demo_record cap 100 db_event)).2.

Lemma db_policy_reachable : reachable cap db_policy.
Proof. apply rtc_once. exact (step_policy cap (-1) empty_database bob_policy 10). Qed.
Lemma db_event_reachable : reachable cap db_event.
Proof. eapply rtc_r; [exact db_policy_reachable|]. refine (step_admit cap (-1) db_policy demo_wrap (wrap_id demo_wrap) 100 200 (Some 3) _ _); lia. Qed.
Lemma db_agent_reachable : reachable cap db_agent.
Proof. eapply rtc_r; [exact db_event_reachable|]. exact (step_agent cap (-1) db_event owner_address AgentRecord.demo_record 100). Qed.

Lemma loft_database_sound_witness :
  (length (events db_agent) = 1 /\ size (recipient_policy db_agent) = 1 /\ size (agent_records db_agent) = 1)%nat /\
  validate_loft_invariants db_agent = Ok tt.
Proof.
  split; [vm_compute; done|]. exact (proj1 (loft_database_sound cap db_agent ltac:(unfold cap; lia) db_agent_reachable)).
Defined.

(** A pass after the event has expired removes it. *)
Definition swept_one (r : option (LoftResult nat * Database)) : bool :=
  match r with Some (Ok total, db) => (total =? 1)%nat && (length (events db) =? 0)%nat | _ => false end.

Lemma sweep_once_completes_witness :
  swept_one (sweep_once (S (expired_count 500 db_agent)) (fun _ d => d) (Ok tt) 500 1 db_agent) = true /\
  exists total db', sweep_once (S (expired_count 500 db_agent)) (fun _ d => d) (Ok tt) 500 1 db_agent = Some (Ok total, db') /\
    validate_loft_invariants db' = Ok tt.
Proof.
  split; [vm_compute; reflexivity|].
  destruct (sweep_once_completes cap 500 1 (fun _ d => d) db_agent ltac:(unfold cap; lia) ltac:(lia) ltac:(lia) ltac:(lia)
    (fun _ _ => rtc_refl _ _) db_agent_reachable) as (total & db' & H & _ & _ & Hv).
  exists total, db'. split; [exact H|exact Hv].
Defined.

Definition demo_ag : AgentRow :=
  match agent_records db_agent !! owner_address with
  | Some r => r
  | None => {| ag_seq := 0; ag_record := []; ag_updated_at := 0; ag_accounted := 0; ag_reservation := 0 |}
  end.

Lemma admitted_agent_can_rotate_witness :
  exists db', put_rotation_record owner_address demo_rotation 900 cap db_agent = Ok (true, db') /\
    get_rotation_record owner_address db' = Ok (Some demo_rotation).
Proof.
  destruct (admitted_agent_can_rotate cap db_agent owner_address (MkAddress owner_address) demo_ag AgentRecord.demo_record demo_rotation
    [x04] 900 demo_verified ltac:(unfold cap; lia) db_agent_reachable ltac:(vm_compute; reflexivity) ltac:(vm_compute; reflexivity)
    ltac:(vm_compute; reflexivity) ltac:(vm_compute; reflexivity) ltac:(vm_compute; reflexivity) ltac:(vm_compute; reflexivity)
    ltac:(vm_compute; reflexivity) ltac:(vm_compute; lia) ltac:(lia) ltac:(vm_compute; done) ltac:(vm_compute; reflexivity) ltac:(vm_compute; reflexivity))
    as (db' & Hput & Hget).
  exists db'. split; [exact Hput|]. apply Hget. apply rtc_refl.
Defined.

(** * Traces *)

Definition demo_charge := charge_trace_admission 60123 1 (0, 0) batch_new (0, 0).
Definition demo_trace : TraceNode :=
  {| tn_row := demo_charge.2; tn_processes := {[ 7%nat := demo_charge.1.2 ]}; tn_history := [demo_charge.2; (0, 0)];
     tn_granted := [window_of 60123] |}.

Lemma trace_admission_bounded_witness :
  trace_step 1 (trace_started (0, 0)) demo_trace /\ granted_in 60000 demo_trace = 1 /\ granted_in 60000 demo_trace <= 1 /\
  (charge_trace_admission 60500 1 (60000, 1) batch_new (tn_row demo_trace)).1.1 = Err LoftError.RateLimited.
Proof.
  assert (trace_step 1 (trace_started (0, 0)) demo_trace) as St.
  { refine (trace_charge 1 (trace_started (0, 0)) 7 60123 1 (0, 0) (Ok tt) demo_charge.1.2 demo_charge.2 _ _ _ _);
      [lia|lia|by apply list_elem_of_singleton|vm_compute; reflexivity]. }
  split; [exact St|]. split; [vm_compute; reflexivity|]. split; [|vm_compute; reflexivity].
  exact (trace_admission_bounded 1 (0, 0) demo_trace 60000 ltac:(lia) ltac:(simpl; lia) (rtc_once _ _ St)).
Defined.

(** * Proxies *)

Definition proxy : SocketAddr := {| sa_ip := V4 (V4Addr x0a x00 x00 x01); sa_port := 443; sa_scope := 0 |}.
Definition proxied : LoftConfig :=
  let c := config_new (zeroes 32) (lit "https://loft.example") in
  {| lc_pubkey := lc_pubkey c; lc_origin := lc_origin c; lc_capacity_bytes := cap; lc_retention_days := lc_retention_days c;
     lc_max_event_bytes := lc_max_event_bytes c; max_request_bytes := max_request_bytes c; default_fetch_limit := default_fetch_limit c;
     max_fetch_limit := max_fetch_limit c; max_fetch_response_bytes := max_fetch_response_bytes c; rate_limit_per_minute := rate_limit_per_minute c;
     global_requests_per_minute := global_requests_per_minute c; global_bytes_per_minute := global_bytes_per_minute c;
     source_requests_per_minute := source_requests_per_minute c; source_bytes_per_minute := source_bytes_per_minute c;
     recipient_bytes_per_minute := recipient_bytes_per_minute c; max_concurrent_connections := max_concurrent_connections c;
     max_concurrent_requests := 1; max_blocking_operations := max_blocking_operations c; max_limiter_keys := 4;
     header_timeout_secs := header_timeout_secs c; request_timeout_secs := request_timeout_secs c;
     response_timeout_secs := response_timeout_secs c; trace_timeout_ms := trace_timeout_ms c;
     trusted_proxies := [sa_ip proxy]; sweep_batch := sweep_batch c; sweep_interval_secs := sweep_interval_secs c |}.
Definition through_proxy : Peer :=
  {| connected := Some proxy; forwarded := Some (lit "for=8.8.8.8:99"); x_forwarded_for_present := false; effective_source := None |}.
Definition client : SocketAddr := {| sa_ip := V4 (V4Addr x08 x08 x08 x08); sa_port := 99; sa_scope := 0 |}.

Lemma forwarded_source_unforgeable_witness :
  resolve_peer_source proxied (with_forwarded (lit "for=8.8.8.8:99") through_proxy) = Ok client /\
  resolve_peer_source proxied (with_forwarded (lit "for=1.2.3.4:5," ++ lit "for=8.8.8.8:99") through_proxy) = Ok client.
Proof.
  assert (resolve_peer_source proxied (with_forwarded (lit "for=8.8.8.8:99") through_proxy) = Ok client) as H by (vm_compute; reflexivity).
  split; [exact H|].
  exact (forwarded_source_unforgeable proxied through_proxy (lit "for=1.2.3.4:5") (lit "for=8.8.8.8:99") client H
    ltac:(vm_compute; reflexivity) ltac:(vm_compute; reflexivity) ltac:(vm_compute; lia) ltac:(vm_compute; lia)).
Defined.

(** * Publishing *)

(** A sink that keeps what it is given. *)
Definition list_sink : TraceSink (list TraceInput) :=
  {| enabled := true; sink_readiness := fun _ => true; capture := fun input s => (true, s ++ [input]) |}.
#[local] Instance list_sink_durable : DurableSink list_sink.
Proof.
  refine {| records := fun s => s |}; simpl.
  - intros input s x Hx. by apply elem_of_app; left.
  - intros input s _. apply elem_of_app. right. by apply list_elem_of_singleton.
Defined.

(** The world in which nobody else writes. *)
Definition quiet : nat -> Attempt (S := list TraceInput) := fun _ =>
  {| before_policy := fun s => s; policy_lane := true; validation_ms := 100000; keys := UnconfiguredAttributionResolver; before_trace := fun s => s;
     trace_turn := {| tt_now_ms := 100000; tt_lane := LaneFree; tt_observed := (0, 0) |}; before_store := fun s => s; store_lane := true |}.
Definition demo_server : Server (list TraceInput) := Build_Server db_policy (controller_new proxied 0) batch_new [].

#[local] Notation demo_publish := (publish proxied list_sink quiet true 5 100 through_proxy [x05] demo_server) (only parsing).
Definition stored_and_traced (r : LoftResult PublishResponse * Server (list TraceInput)) : bool :=
  match r with
  | (Ok resp, s) => resp_stored resp && (length (events (sv_store s)) =? 1)%nat && (length (sv_sink s) =? 1)%nat
  | _ => false
  end.

Lemma publish_under_policy_in_force_witness :
  stored_and_traced demo_publish = true /\
  exists prepared, prepare_publish [x05] (lc_max_event_bytes proxied) = Ok prepared /\
    stored_under_policy proxied list_sink quiet through_proxy prepared 100
      (100 + lc_retention_days proxied * 86400) demo_publish.2.
Proof.
  assert (stored_and_traced demo_publish = true) as Hb by (vm_compute; reflexivity). split; [exact Hb|].
  destruct demo_publish as [[resp|e] s'] eqn:H; [|discriminate Hb]. unfold stored_and_traced in Hb.
  apply andb_true_iff in Hb as [Hb _]. apply andb_true_iff in Hb as [Hst _].
  destruct (publish_under_policy_in_force proxied list_sink quiet true 5 100 through_proxy [x05] demo_server resp s')
    as (prepared & Hp & _ & _ & _ & Hsu).
  - vm_compute; discriminate.
  - intros i. split; intros; try apply (reflexivity (R := interferes proxied list_sink)). simpl. lia.
  - exact db_policy_reachable.
  - exact H.
  - exact Hst.
  - exists prepared. split; [exact Hp|exact Hsu].
Defined.

(** * A mailbox *)

Definition bob_mail : Mail := {| ml_db := db_event; ml_cursor := 0; ml_got := [] |}.

Definition whole_page (r : LoftResult (FetchResponse * bytes)) : bool :=
  match r with Ok (resp, _) => negb (resp_more resp) && (resp_events resp ≟ [demo_wrap]) | Err _ => false end.

Lemma bob_mail_run : rtc (mail_step cap 1000 (verifying_key bob)) mail_started bob_mail.
Proof.
  eapply rtc_l; [exact (mail_write cap 1000 (verifying_key bob) mail_started _ (step_policy cap (-1) empty_database bob_policy 10))|].
  apply rtc_once. refine (mail_write cap 1000 (verifying_key bob) {| ml_db := db_policy; ml_cursor := 0; ml_got := [] |} _ _).
  refine (step_admit cap (-1) db_policy demo_wrap (wrap_id demo_wrap) 100 200 (Some 3) _ _); lia.
Qed.

Lemma mailbox_delivers_witness :
  exists resp encoded m, fetch_page (verifying_key bob) (ml_cursor bob_mail) 10 1000 (ml_db bob_mail) = Ok (resp, encoded) /\
    rtc (mail_step cap 1000 (verifying_key bob)) bob_mail m /\ ml_got m = [demo_wrap] /\
    (exists e, held cap 1000 (verifying_key bob) m e /\ ev_recipient e = verifying_key bob /\ reads e demo_wrap) /\
    forall e, e ∈ events (ml_db bob_mail) -> ev_recipient e = verifying_key bob -> exists w, reads e w /\ w ∈ ml_got bob_mail ++ [demo_wrap].
Proof.
  assert (whole_page (fetch_page (verifying_key bob) (ml_cursor bob_mail) 10 1000 (ml_db bob_mail)) = true) as Hb by (vm_compute; reflexivity).
  destruct (fetch_page (verifying_key bob) (ml_cursor bob_mail) 10 1000 (ml_db bob_mail)) as [[resp encoded]|e] eqn:H; [|discriminate Hb].
  unfold whole_page in Hb. apply andb_true_iff in Hb as [Hm Hev]. apply negb_true_iff in Hm. apply bool_decide_eq_true in Hev.
  pose proof (mail_fetch cap 1000 (verifying_key bob) bob_mail 10 resp encoded ltac:(lia) H) as St.
  exists resp, encoded. eexists. split; [reflexivity|]. split; [apply rtc_once; exact St|]. split; [exact Hev|]. split.
  - destruct (mailbox_delivers cap 1000 (verifying_key bob) _ ltac:(unfold cap; lia) (rtc_r _ _ _ bob_mail_run St)) as (rows & _ & Hr & Hh & _).
    cbn [ml_got bob_mail app] in Hr. rewrite Hev in Hr. inversion Hr as [|e w rows' ws He Hrs]; subst. exists e. destruct (Hh e) as [? ?]; [by left|]. auto.
  - destruct (mailbox_delivers cap 1000 (verifying_key bob) bob_mail ltac:(unfold cap; lia) bob_mail_run) as (rows & _ & _ & _ & _ & Hf).
    destruct (Hf 10 resp encoded ltac:(lia) H) as [_ Hp]. rewrite Hm, Hev in Hp. exact Hp.
Defined.
