(* ===== verification/Layout.v ===== *)
(** Fixed-width layouts: reading the fields of a record back from the bytes it was
    written to, and cutting a byte string at given offsets.  The codecs of the trace
    records, wrapped keys, segments and manifests are proved with these. *)
From S2P Require Import Prelude Compliance.

#[global] Arguments take_arr : simpl never.

(** * Reading a field of a concatenation *)

Lemma slice_skip (a r : bytes) (k n m : nat) :
  length a = k -> (k <= n)%nat -> slice n m (a ++ r) = slice (n - k) (m - k) r.
Proof.
  intros Hk Hn. unfold slice. rewrite drop_app_ge by lia. rewrite Hk. f_equal. lia.
Qed.

Lemma slice_head (a r : bytes) (m : nat) : length a = m -> slice 0 m (a ++ r) = a.
Proof. intros <-. unfold slice. rewrite drop_0, Nat.sub_0_r. apply take_app_length. Qed.

Lemma slice_all (a : bytes) (m : nat) : length a = m -> slice 0 m a = a.
Proof. intros <-. unfold slice. rewrite drop_0, Nat.sub_0_r. by apply take_ge. Qed.

Lemma byte_at_skip (a r : bytes) (k i : nat) :
  length a = k -> (k <= i)%nat -> byte_at i (a ++ r) = byte_at (i - k) r.
Proof. intros Hk Hi. unfold byte_at. rewrite app_nth2 by lia. by rewrite Hk. Qed.

Lemma byte_at_slice (i j : nat) (bs : bytes) : j = S i -> (i < length bs)%nat -> [byte_at i bs] = slice i j bs.
Proof.
  intros -> Hi. unfold slice, byte_at. replace (S i - i)%nat with 1%nat by lia.
  destruct (drop i bs) as [|x r] eqn:E.
  - apply (f_equal length) in E. rewrite length_drop in E. simpl in E. lia.
  - cbn [take]. f_equal. rewrite <-(take_drop i bs), E, app_nth2 by (rewrite length_take; lia).
    rewrite length_take, Nat.min_l, Nat.sub_diag by lia. done.
Qed.

(** * Cutting a byte string *)

Fixpoint pieces (from : nat) (cuts : list nat) (bs : bytes) : bytes :=
  match cuts with
  | [] => drop from bs
  | c :: cuts => slice from c bs ++ pieces c cuts bs
  end.

Fixpoint ascending (from : nat) (cuts : list nat) : bool :=
  match cuts with
  | [] => true
  | c :: cuts => (from <=? c)%nat && ascending c cuts
  end.

Lemma pieces_drop cuts bs : forall from, ascending from cuts = true -> pieces from cuts bs = drop from bs.
Proof.
  induction cuts as [|c cuts IH]; intros from Ha; [done|]. cbn [ascending] in Ha. b2p.
  cbn [pieces]. rewrite IH by done. symmetry. by apply drop_slice.
Qed.

Lemma cut_at (cuts : list nat) (bs : bytes) : ascending 0 cuts = true -> bs = pieces 0 cuts bs.
Proof. intros H. rewrite pieces_drop by done. done. Qed.

(** * Tactics *)

(** The length of a field, as a literal. *)
Ltac field_length a :=
  lazymatch a with
  | be_bytes ?n _ => constr:(n)
  | @vec_to_list _ ?n _ => constr:(n)
  | [_] => constr:(1%nat)
  | _ =>
      match goal with
      | H : length a = ?n |- _ => constr:(n)
      | _ => let n := eval vm_compute in (length a) in constr:(n)
      end
  end.

Ltac field_len :=
  first [ assumption | apply length_be_bytes | apply length_vec_to_list | reflexivity
        | autorewrite with pigeon; simpl; lia ].

(** Read every [slice] and [byte_at] of a concatenation of fields. *)
Ltac read_layout :=
  repeat match goal with
  | |- context [slice ?n ?m (?a ++ ?r)] =>
      let k := field_length a in
      lazymatch n with
      | O => rewrite (slice_head a r m) by field_len
      | _ => rewrite (slice_skip a r k n m) by (first [lia | field_len]); cbn [Nat.sub]
      end
  | |- context [slice O ?m ?a] => rewrite (slice_all a m) by field_len
  | |- context [byte_at ?n (?a ++ ?r)] =>
      let k := field_length a in
      lazymatch n with
      | O => change (byte_at O (a ++ r)) with (byte_at O a)
      | _ => rewrite (byte_at_skip a r k n) by (first [lia | field_len]); cbn [Nat.sub]
      end
  | |- context [byte_at O [?x]] => change (byte_at O [x]) with x
  end.
