(* ===== verification/TraceRecord.v ===== *)
(** [pigeonpost-compliance-seal/src/trace.rs]: the fixed-width plaintext records the
    trace sealer accepts, with their decoders. *)
From S2P Require Import Prelude Text Network Address Compliance Layout.

(** * error.rs *)

Module SealError.
(** The kinds of [std::io::Error] the sources construct or test. *)
Inductive ErrorKind := NotFound | Unsupported | InvalidInput | OtherKind.
Inductive SealError :=
  | Io (kind : ErrorKind)
  | Format
  | InvalidRecord
  | WrongPurpose
  | InvalidKey
  | Crypto
  | SegmentFull
  | CorruptSegment
  | CorruptManifest
  | BadSignature
  | AlreadyExists
  | LimitExceeded
  | WriterLeaseUnavailable
  | UnsafeWriterLease
  | StorageLimit.
#[global] Instance ErrorKind_eq_dec : EqDecision ErrorKind.
Proof. solve_decision. Defined.
#[global] Instance SealError_eq_dec : EqDecision SealError.
Proof. solve_decision. Defined.
End SealError.

Abbreviation SealResult A := (result SealError.SealError A).

(** [map_err(|_| e)], discarding the error. *)
Definition seal_err {E E' A} (r : result E A) (e : E') : result E' A :=
  match r with Ok a => Ok a | Err _ => Err e end.

Lemma seal_err_Ok {E E' A} (r : result E A) (e : E') a : seal_err r e = Ok a <-> r = Ok a.
Proof. destruct r; simpl; split; congruence. Qed.

(** * Constants *)

Definition TRACE_RECORD_VERSION : byte := x01.
Definition IDENTITY_TRACE_RECORD_VERSION : byte := x01.
Definition FLAG_EVENT_ID : Z := Z.shiftl 1 0.
Definition FLAG_RECIPIENT : Z := Z.shiftl 1 1.
Definition FLAG_OWNER : Z := Z.shiftl 1 2.
Definition FLAG_CORRELATION : Z := Z.shiftl 1 3.
Definition KNOWN_FLAGS : Z :=
  Z.lor (Z.lor (Z.lor FLAG_EVENT_ID FLAG_RECIPIENT) FLAG_OWNER) FLAG_CORRELATION.
Definition TRACE_RECORD_LEN : nat := 195.
Definition IDENTITY_SUBJECT_MAX_LEN : nat := 128.
Definition IDENTITY_TRACE_RECORD_LEN : nat := 205.

(** * Source addresses *)

(** An address is its octets. *)
Inductive TraceIp := TraceV4 (octets : arr 4) | TraceV6 (octets : arr 16).

Definition ip_encode (ip : TraceIp) : byte * arr 16 :=
  match ip with
  | TraceV4 octets => (x04, zeroes 12 +++ octets)
  | TraceV6 octets => (x06, octets)
  end.

Definition ip_decode (family : byte) (bs : arr 16) : SealResult TraceIp :=
  if family ≟ x04 then
    if slice 0 12 (vec_to_list bs) ≟ vec_to_list (zeroes 12)
    then Ok (TraceV4 (take_arr 4 (slice 12 16 (vec_to_list bs))))
    else Err SealError.InvalidRecord
  else if family ≟ x06 then Ok (TraceV6 bs)
  else Err SealError.InvalidRecord.

Definition ip_from (value : IpAddr) : TraceIp :=
  match value with
  | V4 a => TraceV4 [# o0 a; o1 a; o2 a; o3 a]
  | V6 a => TraceV6 (take_arr 16 (concat (map (be_bytes 2) (vec_to_list (segments a)))))
  end.

(** * Network records *)

Inductive NetworkOperation := Publish | Fetch | PutAgent | Claim.

Definition operation_u8 (op : NetworkOperation) : byte :=
  match op with Publish => x01 | Fetch => x02 | PutAgent => x03 | Claim => x04 end.

Definition operation_try_from (value : byte) : SealResult NetworkOperation :=
  if value ≟ x01 then Ok Publish
  else if value ≟ x02 then Ok Fetch
  else if value ≟ x03 then Ok PutAgent
  else if value ≟ x04 then Ok Claim
  else Err SealError.InvalidRecord.

Record TraceRecord := {
  tr_jurisdiction : Jurisdiction;
  operation : NetworkOperation;
  timestamp_ms : Z;
  node_id : arr 32;
  source_ip : TraceIp;
  source_port : Z;
  event_id : option (arr 32);
  recipient : option (arr 32);
  owner : option (arr 32);
  size_bytes : Z;
  correlation_id : option (arr 32);
}.

Definition shape_ok (r : TraceRecord) : bool :=
  match operation r with
  | Publish =>
      is_some (event_id r) && is_some (recipient r) && negb (is_some (owner r))
      && negb (is_some (correlation_id r)) && (0 <? size_bytes r)
  | Fetch =>
      negb (is_some (event_id r)) && negb (is_some (recipient r)) && is_some (owner r)
      && negb (is_some (correlation_id r)) && (size_bytes r =? 0)
  | PutAgent =>
      negb (is_some (event_id r)) && negb (is_some (recipient r)) && negb (is_some (owner r))
      && negb (is_some (correlation_id r)) && (size_bytes r =? 0)
  | Claim =>
      negb (is_some (event_id r)) && negb (is_some (recipient r)) && negb (is_some (owner r))
      && is_some (correlation_id r) && (size_bytes r =? 0)
  end.

Definition trace_validate (r : TraceRecord) : SealResult unit :=
  _ ← guard ((timestamp_ms r =? 0) || (node_id r ≟ zeroes 32) || (source_port r =? 0)) SealError.InvalidRecord;
  guard (negb (shape_ok r)) SealError.InvalidRecord.

(** An absent field stays zero in the buffer. *)
Definition opt32 (o : option (arr 32)) : bytes := vec_to_list (default (zeroes 32) o).

(** [if let Some(..) = field { flags |= flag; .. }] *)
Definition set_flag (o : option (arr 32)) (flag flags : Z) : Z :=
  match o with Some _ => Z.lor flags flag | None => flags end.

Definition trace_flags (r : TraceRecord) : Z :=
  let flags := set_flag (event_id r) FLAG_EVENT_ID 0 in
  let flags := set_flag (recipient r) FLAG_RECIPIENT flags in
  let flags := set_flag (owner r) FLAG_OWNER flags in
  set_flag (correlation_id r) FLAG_CORRELATION flags.

Definition trace_encode (r : TraceRecord) : SealResult bytes :=
  _ ← trace_validate r;
  let '(family, address) := ip_encode (source_ip r) in
  Ok ([TRACE_RECORD_VERSION] ++ [jurisdiction_u8 (tr_jurisdiction r)] ++ [operation_u8 (operation r)] ++ [family]
      ++ be_bytes 8 (timestamp_ms r) ++ vec_to_list (node_id r) ++ vec_to_list address
      ++ be_bytes 2 (source_port r) ++ [to_u8 (trace_flags r)]
      ++ opt32 (event_id r) ++ opt32 (recipient r) ++ opt32 (owner r)
      ++ be_bytes 4 (size_bytes r) ++ opt32 (correlation_id r)).

(** The closure [read_optional]; [range] is [[from, from + 32)]. *)
Definition read_optional (bs : bytes) (flags flag : Z) (from : nat) : SealResult (option (arr 32)) :=
  let value := take_arr 32 (slice from (from + 32) bs) in
  if negb (Z.land flags flag =? 0) then Ok (Some value)
  else if value ≟ zeroes 32 then Ok None
  else Err SealError.InvalidRecord.

Definition trace_decode (bs : bytes) : SealResult TraceRecord :=
  _ ← guard (negb (length bs =? TRACE_RECORD_LEN)%nat || negb (byte_at 0 bs ≟ TRACE_RECORD_VERSION))
        SealError.InvalidRecord;
  let flags := u8 (byte_at 62 bs) in
  _ ← guard (negb (Z.land flags (255 - KNOWN_FLAGS) =? 0)) SealError.InvalidRecord;
  let node_id := take_arr 32 (slice 12 44 bs) in
  let address := take_arr 16 (slice 44 60 bs) in
  jurisdiction ← seal_err (jurisdiction_try_from (byte_at 1 bs)) SealError.InvalidRecord;
  operation ← operation_try_from (byte_at 2 bs);
  source_ip ← ip_decode (byte_at 3 bs) address;
  event_id ← read_optional bs flags FLAG_EVENT_ID 63;
  recipient ← read_optional bs flags FLAG_RECIPIENT 95;
  owner ← read_optional bs flags FLAG_OWNER 127;
  correlation_id ← read_optional bs flags FLAG_CORRELATION 163;
  let record := {| tr_jurisdiction := jurisdiction; operation := operation;
    timestamp_ms := from_be_bytes (slice 4 12 bs); node_id := node_id; source_ip := source_ip;
    source_port := from_be_bytes (slice 60 62 bs); event_id := event_id; recipient := recipient;
    owner := owner; size_bytes := from_be_bytes (slice 159 163 bs); correlation_id := correlation_id |} in
  _ ← trace_validate record;
  Ok record.

(** * Identity records *)

Inductive IdentityProvider := Oidc | Saml | LocalDirectory | Oauth2.

Definition provider_u8 (p : IdentityProvider) : byte :=
  match p with Oidc => x01 | Saml => x02 | LocalDirectory => x03 | Oauth2 => x04 end.

Definition provider_try_from (value : byte) : SealResult IdentityProvider :=
  if value ≟ x01 then Ok Oidc
  else if value ≟ x02 then Ok Saml
  else if value ≟ x03 then Ok LocalDirectory
  else if value ≟ x04 then Ok Oauth2
  else Err SealError.InvalidRecord.

Record IdentityTraceRecord := {
  id_jurisdiction : Jurisdiction;
  id_timestamp_ms : Z;
  id_node_id : arr 32;
  id_correlation_id : arr 32;
  provider : IdentityProvider;
  provider_subject : str;
}.

(** [core::str::from_utf8]: the well-formed byte sequences of the Unicode standard. *)
Definition cont (lo hi : Z) (b : byte) : bool := (lo <=? u8 b) && (u8 b <=? hi).
Fixpoint utf8_valid (bs : bytes) : bool :=
  match bs with
  | [] => true
  | b0 :: s0 =>
      let v := u8 b0 in
      if v <? 0x80 then utf8_valid s0
      else match s0 with
      | [] => false
      | b1 :: s1 =>
          if (0xc2 <=? v) && (v <=? 0xdf) then cont 0x80 0xbf b1 && utf8_valid s1
          else match s1 with
          | [] => false
          | b2 :: s2 =>
              let lo := if v =? 0xe0 then 0xa0 else 0x80 in
              let hi := if v =? 0xed then 0x9f else 0xbf in
              if (0xe0 <=? v) && (v <=? 0xef) then cont lo hi b1 && cont 0x80 0xbf b2 && utf8_valid s2
              else match s2 with
              | [] => false
              | b3 :: s3 =>
                  let lo := if v =? 0xf0 then 0x90 else 0x80 in
                  let hi := if v =? 0xf4 then 0x8f else 0xbf in
                  (0xf0 <=? v) && (v <=? 0xf4) && cont lo hi b1 && cont 0x80 0xbf b2 && cont 0x80 0xbf b3
                  && utf8_valid s3
              end
          end
      end
  end.
Definition from_utf8 (bs : bytes) : option str := if utf8_valid bs then Some bs else None.

Definition identity_validate (r : IdentityTraceRecord) : SealResult unit :=
  let subject_len := length (provider_subject r) in
  guard ((id_timestamp_ms r =? 0) || (id_node_id r ≟ zeroes 32) || (id_correlation_id r ≟ zeroes 32)
         || (subject_len =? 0)%nat || (IDENTITY_SUBJECT_MAX_LEN <? subject_len)%nat
         || existsb is_control (chars (provider_subject r))) SealError.InvalidRecord.

Definition identity_encode (r : IdentityTraceRecord) : SealResult bytes :=
  _ ← identity_validate r;
  let subject := provider_subject r in
  Ok ([IDENTITY_TRACE_RECORD_VERSION] ++ [jurisdiction_u8 (id_jurisdiction r)]
      ++ be_bytes 8 (id_timestamp_ms r) ++ vec_to_list (id_node_id r) ++ vec_to_list (id_correlation_id r)
      ++ [provider_u8 (provider r)] ++ be_bytes 2 (wrap 16 (Z.of_nat (length subject)))
      ++ subject ++ replicate (IDENTITY_TRACE_RECORD_LEN - 77 - length subject) x00).

Definition identity_decode (bs : bytes) : SealResult IdentityTraceRecord :=
  _ ← guard (negb (length bs =? IDENTITY_TRACE_RECORD_LEN)%nat || negb (byte_at 0 bs ≟ IDENTITY_TRACE_RECORD_VERSION))
        SealError.InvalidRecord;
  let subject_len := Z.to_nat (from_be_bytes (slice 75 77 bs)) in
  _ ← guard ((subject_len =? 0)%nat || (IDENTITY_SUBJECT_MAX_LEN <? subject_len)%nat
             || existsb (fun b => negb (b ≟ x00)) (drop (77 + subject_len) bs)) SealError.InvalidRecord;
  let node_id := take_arr 32 (slice 10 42 bs) in
  let correlation_id := take_arr 32 (slice 42 74 bs) in
  jurisdiction ← seal_err (jurisdiction_try_from (byte_at 1 bs)) SealError.InvalidRecord;
  provider ← provider_try_from (byte_at 74 bs);
  provider_subject ← ok_or (from_utf8 (slice 77 (77 + subject_len) bs)) SealError.InvalidRecord;
  let record := {| id_jurisdiction := jurisdiction; id_timestamp_ms := from_be_bytes (slice 2 10 bs);
    id_node_id := node_id; id_correlation_id := correlation_id; provider := provider;
    provider_subject := provider_subject |} in
  _ ← identity_validate record;
  Ok record.

(** * Lemmas *)

Lemma operation_codec b op : operation_try_from b = Ok op <-> b = operation_u8 op.
Proof. unfold operation_try_from. split; [repeat case_bool_decide; intros [=]; subst; done|intros ->; by destruct op]. Qed.

Lemma provider_codec b p : provider_try_from b = Ok p <-> b = provider_u8 p.
Proof. unfold provider_try_from. split; [repeat case_bool_decide; intros [=]; subst; done|intros ->; by destruct p]. Qed.

Lemma vec_app_list {n m} (v : arr n) (w : arr m) : vec_to_list (v +++ w) = vec_to_list v ++ vec_to_list w.
Proof. apply vec_to_list_app. Qed.

Lemma ip_codec family address ip : ip_decode family address = Ok ip <-> ip_encode ip = (family, address).
Proof.
  unfold ip_decode, ip_encode. split.
  - repeat case_bool_decide; intros H'; inv_ok; subst; [|done]. f_equal. apply vec_to_list_inj2. rewrite vec_app_list.
    rewrite vec_slice by (rewrite ?length_vec_to_list; lia). rewrite <-H0.
    etrans; [|symmetry; apply (cut_at [12; 16]%nat); done]. cbn [pieces].
    by rewrite (drop_ge _ 16), app_nil_r by (rewrite length_vec_to_list; lia).
  - destruct ip as [o|o]; intros E; apply pair_equal_spec in E as [<- <-]; [|done]. pose proof (vec_app_list (zeroes 12) o) as Hv. cbn [Nat.add] in Hv.
    rewrite Hv, bool_decide_true by done. read_layout.
    rewrite bool_decide_true by done. by rewrite take_arr_all.
Qed.

(** The flag byte as a function of which fields are present. *)
Definition flags_of (e r o c : bool) : Z :=
  Z.lor (Z.lor (Z.lor (if e then 1 else 0) (if r then 2 else 0)) (if o then 4 else 0)) (if c then 8 else 0).

Lemma trace_flags_of r :
  trace_flags r = flags_of (is_some (event_id r)) (is_some (recipient r)) (is_some (owner r)) (is_some (correlation_id r)).
Proof. unfold trace_flags, set_flag. by destruct (event_id r), (recipient r), (owner r), (correlation_id r). Qed.

Lemma flags_of_byte b :
  Z.land (u8 b) (255 - KNOWN_FLAGS) = 0 ->
  flags_of (negb (Z.land (u8 b) FLAG_EVENT_ID =? 0)) (negb (Z.land (u8 b) FLAG_RECIPIENT =? 0))
           (negb (Z.land (u8 b) FLAG_OWNER =? 0)) (negb (Z.land (u8 b) FLAG_CORRELATION =? 0)) = u8 b.
Proof.
  intros H. apply Z.eqb_eq. apply Z.eqb_eq in H. revert H. apply implb_true_iff. revert b.
  match goal with |- forall b, @?P b = true => apply (byte_forall P); vm_compute; reflexivity end.
Qed.

Lemma flags_of_bits e r o c :
  let f := u8 (to_u8 (flags_of e r o c)) in
  Z.land f (255 - KNOWN_FLAGS) = 0 /\ (negb (Z.land f FLAG_EVENT_ID =? 0)) = e /\ (negb (Z.land f FLAG_RECIPIENT =? 0)) = r
  /\ (negb (Z.land f FLAG_OWNER =? 0)) = o /\ (negb (Z.land f FLAG_CORRELATION =? 0)) = c.
Proof. by destruct e, r, o, c. Qed.

Lemma length_opt32 o : length (opt32 o) = 32%nat.
Proof. apply length_vec_to_list. Qed.

(** An optional field is read back from its slot. *)
Lemma read_optional_slot bs flags flag from o :
  (from + 32 <= length bs)%nat ->
  read_optional bs flags flag from = Ok o <->
  is_some o = negb (Z.land flags flag =? 0) /\ slice from (from + 32) bs = opt32 o.
Proof.
  intros Hl. unfold read_optional, opt32.
  assert (vec_to_list (take_arr 32 (slice from (from + 32) bs)) = slice from (from + 32) bs) as Hv
    by (apply vec_slice; lia).
  generalize dependent (take_arr 32 (slice from (from + 32) bs)). intros v <-.
  destruct (negb _); [split|case_bool_decide as Hz; split].
  - intros H. inv_ok. by subst.
  - intros [Ho Hs]. destruct o as [w|]; [|done]. by rewrite (vec_to_list_inj2 _ _ Hs).
  - intros H. inv_ok. by subst.
  - intros [Ho _]. by destruct o.
  - done.
  - intros [Ho Hs]. destruct o; [done|]. by apply vec_to_list_inj2 in Hs.
Qed.

(** The machine widths of the fields. *)
Definition trace_wf (r : TraceRecord) : Prop :=
  in_uint 64 (timestamp_ms r) /\ in_uint 16 (source_port r) /\ in_uint 32 (size_bytes r).

Lemma slice_uint n m k bs : (n + k = m)%nat -> (m <= length bs)%nat -> in_uint (8 * Z.of_nat k) (from_be_bytes (slice n m bs)).
Proof.
  intros Hk Hm. pose proof (from_be_bytes_range (slice n m bs)) as R. rewrite length_slice in R by lia.
  by replace k with (m - n)%nat by lia.
Qed.

Lemma length_trace_encode r bs : trace_encode r = Ok bs -> length bs = TRACE_RECORD_LEN.
Proof.
  unfold trace_encode. intros H. inv_ok. destruct (ip_encode (source_ip r)) as [f v]. inv_ok. subst bs.
  rewrite !length_app, !length_opt32, !length_be_bytes, !length_vec_to_list. done.
Qed.

Lemma trace_decode_encode bs r : trace_decode bs = Ok r -> trace_wf r /\ trace_encode r = Ok bs.
Proof.
  unfold trace_decode. intros H.
  apply bind_Ok in H as (? & Hl & H). apply bind_Ok in H as (? & Hk & H).
  apply bind_Ok in H as (j & Hj & H). apply bind_Ok in H as (op & Hop & H). apply bind_Ok in H as (ip & Hip & H).
  apply bind_Ok in H as (e & He & H). apply bind_Ok in H as (rc & Hr & H). apply bind_Ok in H as (o & Ho & H).
  apply bind_Ok in H as (c & Hc & H). apply bind_Ok in H as (u & Hval & H). apply guard_Ok, orb_false_iff in Hl as [Hl Hver].
  inv_ok. b2p. destruct u.
  unfold TRACE_RECORD_LEN in Hl. apply seal_err_Ok in Hj. apply jurisdiction_codec in Hj. apply operation_codec in Hop.
  apply ip_codec in Hip.
  apply read_optional_slot in He as [Fe He], Hr as [Fr Hr], Ho as [Fo Ho], Hc as [Fc Hc]; [|lia..].
  cbn [Nat.add] in *. subst r. split.
  - split; [apply (slice_uint 4 12 8); lia|split; [apply (slice_uint 60 62 2); lia|apply (slice_uint 159 163 4); lia]].
  - unfold trace_encode. rewrite Hval. cbn [mbind result_bind source_ip tr_jurisdiction operation timestamp_ms node_id
      source_port event_id recipient owner size_bytes correlation_id]. rewrite Hip, trace_flags_of.
    cbn [event_id recipient owner correlation_id]. rewrite Fe, Fr, Fo, Fc, flags_of_byte, to_u8_u8 by done.
    f_equal. rewrite <-He, <-Hr, <-Ho, <-Hc, <-Hj, <-Hop, <-Hver.
    rewrite !vec_slice, !be_bytes_from by (rewrite ?length_slice; lia).
    rewrite (byte_at_slice 0 1), (byte_at_slice 1 2), (byte_at_slice 2 3), (byte_at_slice 3 4), (byte_at_slice 62 63) by lia.
    etrans; [|symmetry; apply (cut_at [1; 2; 3; 4; 12; 44; 60; 62; 63; 95; 127; 159; 163; 195]%nat); done].
    cbn [pieces]. by rewrite (drop_ge bs 195), app_nil_r by lia.
Qed.

Lemma read_optional_back bs flags flag from o :
  (from + 32 <=? length bs)%nat = true -> negb (Z.land flags flag =? 0) = is_some o ->
  slice from (from + 32) bs = opt32 o -> read_optional bs flags flag from = Ok o.
Proof. intros Hl%Nat.leb_le Hf Hs. by apply read_optional_slot. Qed.

Lemma trace_encode_decode r bs : trace_wf r -> trace_encode r = Ok bs -> trace_decode bs = Ok r.
Proof.
  intros (Wt & Wp & Ws) H. pose proof (length_trace_encode r bs H) as Hl. unfold trace_encode in H.
  apply bind_Ok in H as ([] & Hval & H). destruct (ip_encode (source_ip r)) as [f a] eqn:Hip. apply Ok_inj in H.
  pose proof (length_opt32 (event_id r)). pose proof (length_opt32 (recipient r)).
  pose proof (length_opt32 (owner r)). pose proof (length_opt32 (correlation_id r)).
  destruct (flags_of_bits (is_some (event_id r)) (is_some (recipient r)) (is_some (owner r)) (is_some (correlation_id r)))
    as (F0 & Fe & Fr & Fo & Fc). rewrite <-trace_flags_of in *.
  assert (u8 (byte_at 62 bs) = u8 (to_u8 (trace_flags r))) as Hf by (rewrite <-H; read_layout; done).
  unfold trace_decode. cbv zeta. rewrite Hf, F0, Hl.
  assert (jurisdiction_try_from (byte_at 1 bs) = Ok (tr_jurisdiction r)) as -> by (rewrite <-H; read_layout; by apply jurisdiction_codec).
  assert (operation_try_from (byte_at 2 bs) = Ok (operation r)) as -> by (rewrite <-H; read_layout; by apply operation_codec).
  assert (ip_decode (byte_at 3 bs) (take_arr 16 (slice 44 60 bs)) = Ok (source_ip r)) as ->
    by (rewrite <-H; read_layout; rewrite take_arr_all; by apply ip_codec).
  rewrite (read_optional_back bs _ FLAG_EVENT_ID 63 (event_id r)) by ((by rewrite ?Hl) || (rewrite <-H; cbn [Nat.add]; by read_layout)).
  rewrite (read_optional_back bs _ FLAG_RECIPIENT 95 (recipient r)) by ((by rewrite ?Hl) || (rewrite <-H; cbn [Nat.add]; by read_layout)).
  rewrite (read_optional_back bs _ FLAG_OWNER 127 (owner r)) by ((by rewrite ?Hl) || (rewrite <-H; cbn [Nat.add]; by read_layout)).
  rewrite (read_optional_back bs _ FLAG_CORRELATION 163 (correlation_id r)) by ((by rewrite ?Hl) || (rewrite <-H; cbn [Nat.add]; by read_layout)).
  assert (byte_at 0 bs = TRACE_RECORD_VERSION) as -> by (rewrite <-H; by read_layout).
  cbn [seal_err mbind result_bind]. rewrite <-H. read_layout. rewrite !from_be_bytes_id, !take_arr_all by done.
  rewrite bool_decide_true by done. cbn [Nat.eqb TRACE_RECORD_LEN negb orb guard mbind result_bind Z.eqb].
  replace {| tr_jurisdiction := _ |} with r by by destruct r. by rewrite Hval.
Qed.

(** ** Identity records *)

(** The widths of the fields; a [String] is well-formed UTF-8. *)
Definition identity_wf (r : IdentityTraceRecord) : Prop :=
  in_uint 64 (id_timestamp_ms r) /\ utf8_valid (provider_subject r) = true.

Lemma no_nonzero (l : bytes) : existsb (fun b => negb (b ≟ x00)) l = false <-> l = replicate (length l) x00.
Proof.
  induction l as [|b l IH]; [done|]. cbn [existsb length replicate]. rewrite orb_false_iff, IH, negb_false_iff, bool_decide_eq_true.
  split; [intros [-> <-]; done|intros [= -> ->]; split; [done|]]. by rewrite length_replicate.
Qed.

Lemma identity_validate_len r :
  identity_validate r = Ok tt -> (0 < length (provider_subject r) <= 128)%nat.
Proof. unfold identity_validate. intros H. inv_ok. b2p. unfold IDENTITY_SUBJECT_MAX_LEN in *. lia. Qed.

Lemma subject_len_fits n : (n <= 128)%nat -> in_uint (8 * Z.of_nat 2) (Z.of_nat n) /\ wrap 16 (Z.of_nat n) = Z.of_nat n.
Proof. intros H. unfold wrap, in_uint. compute_pows. simpl. split; [lia|]. apply Z.mod_small. lia. Qed.

Lemma length_identity_encode r bs : identity_encode r = Ok bs -> length bs = IDENTITY_TRACE_RECORD_LEN.
Proof.
  unfold identity_encode. intros H. apply bind_Ok in H as ([] & Hv & H). apply identity_validate_len in Hv. inv_ok. subst bs.
  rewrite !length_app, !length_be_bytes, !length_vec_to_list, length_replicate. unfold IDENTITY_TRACE_RECORD_LEN. simpl. lia.
Qed.

Lemma identity_decode_encode bs r : identity_decode bs = Ok r -> identity_wf r /\ identity_encode r = Ok bs.
Proof.
  unfold identity_decode. cbv zeta. set (n := Z.to_nat (from_be_bytes (slice 75 77 bs))). intros H.
  apply bind_Ok in H as (? & Hl & H). apply bind_Ok in H as (? & Hn & H). apply bind_Ok in H as (j & Hj & H).
  apply bind_Ok in H as (p & Hp & H). apply bind_Ok in H as (sub & Hs & H). apply bind_Ok in H as ([] & Hval & H).
  apply guard_Ok, orb_false_iff in Hl as [Hl Hver]. apply guard_Ok in Hn. apply orb_false_iff in Hn as [Hn Hz].
  inv_ok. b2p. unfold IDENTITY_TRACE_RECORD_LEN, IDENTITY_SUBJECT_MAX_LEN in *. apply no_nonzero in Hz.
  apply seal_err_Ok in Hj. apply jurisdiction_codec in Hj. apply provider_codec in Hp.
  unfold from_utf8 in Hs. destruct (utf8_valid _) eqn:Hu; [|done].
  assert (slice 77 (77 + n) bs = sub) as Hs' by congruence. clear Hs. subst r. split.
  - split; [apply (slice_uint 2 10 8); lia|]. cbn. by rewrite <-Hs'.
  - unfold identity_encode. rewrite Hval. cbn [mbind result_bind id_jurisdiction id_timestamp_ms id_node_id id_correlation_id
      provider provider_subject]. f_equal. assert (length sub = n) as Hsub by (rewrite <-Hs', length_slice; lia).
    pose proof (slice_uint 75 77 2 bs eq_refl ltac:(lia)) as R.
    rewrite Hsub, (proj2 (subject_len_fits n ltac:(lia))). unfold n. rewrite Z2Nat.id by (unfold in_uint in R; lia). fold n.
    rewrite <-Hj, <-Hp, <-Hver, <-Hs'. rewrite !vec_slice, !be_bytes_from by (rewrite ?length_slice; lia).
    rewrite (byte_at_slice 0 1), (byte_at_slice 1 2), (byte_at_slice 74 75) by lia.
    unfold IDENTITY_TRACE_RECORD_LEN. rewrite length_drop, Hl in Hz.
    replace (205 - 77 - n)%nat with (205 - (77 + n))%nat by lia. rewrite <-Hz.
    etrans; [|symmetry; apply (cut_at [1; 2; 10; 42; 74; 75; 77; 77 + n]%nat)]; [done|].
    cbn [ascending]. by rewrite (proj2 (Nat.leb_le 77 (77 + n))) by lia.
Qed.

Lemma identity_encode_decode r bs : identity_wf r -> identity_encode r = Ok bs -> identity_decode bs = Ok r.
Proof.
  intros [Wt Wu] H. pose proof (length_identity_encode r bs H) as Hl. unfold identity_encode in H.
  apply bind_Ok in H as ([] & Hval & H). apply Ok_inj in H. pose proof (identity_validate_len r Hval) as Hn.
  destruct (subject_len_fits (length (provider_subject r)) ltac:(lia)) as [R E]. rewrite E in H. clear E.
  set (n := length (provider_subject r)) in *. assert (length (provider_subject r) = n) as Hsub by done.
  unfold identity_decode. cbv zeta.
  assert (from_be_bytes (slice 75 77 bs) = Z.of_nat n) as -> by (rewrite <-H; read_layout; by apply from_be_bytes_id).
  rewrite Nat2Z.id.
  assert (slice 77 (77 + n) bs = provider_subject r) as ->.
  { rewrite <-H. unfold slice. rewrite !drop_app_ge by (autorewrite with pigeon; simpl; lia).
    autorewrite with pigeon. simpl. rewrite drop_0. replace (n - 0)%nat with n by lia. by apply take_app_length'. }
  assert (existsb (fun b => negb (b ≟ x00)) (drop (77 + n) bs) = false) as ->.
  { apply no_nonzero. rewrite <-H. rewrite !drop_app_ge by (autorewrite with pigeon; simpl; lia).
    autorewrite with pigeon. simpl. rewrite drop_replicate. by rewrite length_replicate. }
  assert (jurisdiction_try_from (byte_at 1 bs) = Ok (id_jurisdiction r)) as -> by (rewrite <-H; read_layout; by apply jurisdiction_codec).
  assert (provider_try_from (byte_at 74 bs) = Ok (provider r)) as -> by (rewrite <-H; read_layout; by apply provider_codec).
  assert (byte_at 0 bs = IDENTITY_TRACE_RECORD_VERSION) as -> by (rewrite <-H; by read_layout).
  rewrite Hl, bool_decide_true by done. unfold from_utf8. rewrite Wu.
  rewrite (proj2 (Nat.eqb_neq n 0)), (proj2 (Nat.ltb_ge IDENTITY_SUBJECT_MAX_LEN n)) by (unfold IDENTITY_SUBJECT_MAX_LEN; lia).
  cbn [Nat.eqb IDENTITY_TRACE_RECORD_LEN negb orb guard mbind result_bind seal_err ok_or].
  rewrite <-H. read_layout. rewrite !from_be_bytes_id, !take_arr_all by done.
  replace {| id_jurisdiction := _ |} with r by by destruct r. by rewrite Hval.
Qed.

(** * Property *)

(** The trace record formats are bijective between valid records and accepted
    byte strings, for network and for identity records: a byte string decodes to a record exactly
    when it is the encoding of that record (of fields of their machine widths, the subject
    well-formed UTF-8).  So decoding inverts encoding, no record has two encodings, and no bytes
    can be hidden in flags, padding or absent fields. *)
Theorem trace_record_codecs (bs : bytes) (r : TraceRecord) (i : IdentityTraceRecord) :
  (trace_decode bs = Ok r <-> trace_wf r /\ trace_encode r = Ok bs) /\
  (identity_decode bs = Ok i <-> identity_wf i /\ identity_encode i = Ok bs).
Proof.
  split; split; [apply trace_decode_encode|intros []; by apply trace_encode_decode
                |apply identity_decode_encode|intros []; by apply identity_encode_decode].
Qed.
