(* ===== verification/TraceKey.v ===== *)
(** [pigeonpost-compliance-seal/src/key.rs]: daily trace sealing keys and the envelope
    that carries one to the offline custodian. *)
From S2P Require Import Prelude Text Crypto Compliance Envelope Layout TraceRecord.

Definition TRACE_KEY_WRAP_VERSION : byte := x01.
Definition TRACE_KEY_WRAP_HKDF_INFO : bytes := lit "pigeonpost/trace-key-wrap/v1".
Definition TRACE_KEY_WRAP_AAD_DOMAIN : bytes := lit "pigeonpost/trace-key-wrap-aad/v1".
Definition WRAPPED_KEY_CIPHERTEXT_LEN : nat := 48.
Definition WRAPPED_EPOCH_KEY_LEN : nat := 216.

(** [curve25519-dalek]'s [MontgomeryPoint::mul_base_clamped] and [mul_clamped]. *)
Class Montgomery := {
  mul_base_clamped : arr 32 -> arr 32;
  (** [mul_clamped point scalar] *)
  mul_clamped : arr 32 -> arr 32 -> arr 32;
}.

(** What the trace sealer relies on: Diffie-Hellman is symmetric, and the AEAD encrypts
    messages of practical size, adds a 16-byte tag and decrypts what it encrypted. *)
Class TraceSealLaws {EC : EnvelopeCrypto} {MC : Montgomery} : Prop := {
  clamped_symmetric a b : mul_clamped (mul_base_clamped b) a = mul_clamped (mul_base_clamped a) b;
  frame_aead_total key nonce aad m :
    Z.of_nat (length m) < 2 ^ 36 ->
    exists c, xchacha_encrypt key nonce aad m = Some c /\ length c = (length m + 16)%nat;
  frame_aead_decrypts key nonce aad m c :
    xchacha_encrypt key nonce aad m = Some c -> xchacha_decrypt key nonce aad c = Some m;
}.

Definition validate_trace_key_id (key_id : ComplianceKeyId) : SealResult unit :=
  _ ← seal_err (key_id_validate key_id) SealError.Format;
  match purpose key_id with
  | NetworkTrace | IdentityTrace => Ok tt
  | Attribution => Err SealError.WrongPurpose
  end.

Record EpochSealingKey := { sk_key_id : ComplianceKeyId; secret : arr 32 }.

Definition sealing_from_bytes (key_id : ComplianceKeyId) (secret : arr 32) : SealResult EpochSealingKey :=
  _ ← validate_trace_key_id key_id;
  _ ← guard (secret ≟ zeroes 32) SealError.InvalidKey;
  Ok {| sk_key_id := key_id; secret := secret |}.

(** [while secret == [0; 32] { fill_bytes }] over the draws of the generator; [None] when
    all of them were zero. *)
Fixpoint draw_secret (secret : arr 32) (draws : list (arr 32)) : option (arr 32) :=
  if secret ≟ zeroes 32 then match draws with d :: draws => draw_secret d draws | [] => None end
  else Some secret.

Definition sealing_generate (key_id : ComplianceKeyId) (draws : list (arr 32)) : option (SealResult EpochSealingKey) :=
  secret ← draw_secret (zeroes 32) draws; Some (sealing_from_bytes key_id secret).

Record WrappedEpochKey := {
  wk_version : byte;
  wk_key_id : ComplianceKeyId;
  compliance_key_digest : arr 32;
  epoch_key_commitment : arr 32;
  ephemeral_public_key : arr 32;
  wk_nonce : arr 24;
  wk_ciphertext : arr 48;
}.

Definition trace_key_wrap_salt (ephemeral_public_key compliance_key_digest : arr 32) : bytes :=
  vec_to_list ephemeral_public_key ++ vec_to_list compliance_key_digest.

Definition trace_key_wrap_aad (version : byte) (key_id : ComplianceKeyId)
  (compliance_key_digest epoch_key_commitment ephemeral_public_key : arr 32) : SealResult bytes :=
  _ ← guard (negb (version ≟ TRACE_KEY_WRAP_VERSION)) SealError.Format;
  _ ← validate_trace_key_id key_id;
  key_id ← seal_err (key_id_encode key_id) SealError.Format;
  Ok (TRACE_KEY_WRAP_AAD_DOMAIN ++ [version] ++ key_id ++ vec_to_list compliance_key_digest
      ++ vec_to_list epoch_key_commitment ++ vec_to_list ephemeral_public_key).

Definition wrapped_aad (w : WrappedEpochKey) : SealResult bytes :=
  trace_key_wrap_aad (wk_version w) (wk_key_id w) (compliance_key_digest w) (epoch_key_commitment w)
    (ephemeral_public_key w).

Section Sealing.
Context {C : Crypto} {EC : EnvelopeCrypto} {MC : Montgomery}.

Definition sealing_commitment (k : EpochSealingKey) : arr 32 := sha256 (vec_to_list (secret k)).

(** [wrap], with the ephemeral secret and the nonce it draws. *)
Definition key_wrap (epoch_key : EpochSealingKey) (compliance_public_key : arr 32)
  (ephemeral_secret : arr 32) (nonce : arr 24) : SealResult WrappedEpochKey :=
  _ ← guard (compliance_public_key ≟ zeroes 32) SealError.InvalidKey;
  let ephemeral_public_key := mul_base_clamped ephemeral_secret in
  let shared := mul_clamped compliance_public_key ephemeral_secret in
  _ ← guard (shared ≟ zeroes 32) SealError.InvalidKey;
  let compliance_key_digest := sha256 (vec_to_list compliance_public_key) in
  let epoch_key_commitment := sealing_commitment epoch_key in
  let key_id := sk_key_id epoch_key in
  aad ← trace_key_wrap_aad TRACE_KEY_WRAP_VERSION key_id compliance_key_digest epoch_key_commitment
          ephemeral_public_key;
  let salt := trace_key_wrap_salt ephemeral_public_key compliance_key_digest in
  let aead_key := hkdf_sha256 (Some salt) (vec_to_list shared) TRACE_KEY_WRAP_HKDF_INFO in
  encrypted ← ok_or (xchacha_encrypt aead_key nonce aad (vec_to_list (secret epoch_key))) SealError.Crypto;
  ciphertext ← ok_or (arr_of_list 48 encrypted) SealError.Crypto;
  Ok {| wk_version := TRACE_KEY_WRAP_VERSION; wk_key_id := key_id;
        compliance_key_digest := compliance_key_digest; epoch_key_commitment := epoch_key_commitment;
        ephemeral_public_key := ephemeral_public_key; wk_nonce := nonce; wk_ciphertext := ciphertext |}.
End Sealing.

Definition wrapped_decode (bs : bytes) : SealResult WrappedEpochKey :=
  _ ← guard (negb (length bs =? WRAPPED_EPOCH_KEY_LEN)%nat || negb (byte_at 0 bs ≟ TRACE_KEY_WRAP_VERSION))
        SealError.Format;
  key_id ← seal_err (key_id_decode (slice 1 48 bs)) SealError.Format;
  _ ← validate_trace_key_id key_id;
  let compliance_key_digest := take_arr 32 (slice 48 80 bs) in
  let epoch_key_commitment := take_arr 32 (slice 80 112 bs) in
  let ephemeral_public_key := take_arr 32 (slice 112 144 bs) in
  let nonce := take_arr 24 (slice 144 168 bs) in
  let ciphertext := take_arr 48 (slice 168 216 bs) in
  _ ← guard ((compliance_key_digest ≟ zeroes 32) || (epoch_key_commitment ≟ zeroes 32)
             || (ephemeral_public_key ≟ zeroes 32)) SealError.InvalidKey;
  Ok {| wk_version := TRACE_KEY_WRAP_VERSION; wk_key_id := key_id;
        compliance_key_digest := compliance_key_digest; epoch_key_commitment := epoch_key_commitment;
        ephemeral_public_key := ephemeral_public_key; wk_nonce := nonce; wk_ciphertext := ciphertext |}.

Definition wrapped_encode (w : WrappedEpochKey) : SealResult bytes :=
  _ ← guard (negb (wk_version w ≟ TRACE_KEY_WRAP_VERSION)) SealError.Format;
  _ ← validate_trace_key_id (wk_key_id w);
  key_id ← seal_err (key_id_encode (wk_key_id w)) SealError.Format;
  Ok ([wk_version w] ++ key_id ++ vec_to_list (compliance_key_digest w) ++ vec_to_list (epoch_key_commitment w)
      ++ vec_to_list (ephemeral_public_key w) ++ vec_to_list (wk_nonce w) ++ vec_to_list (wk_ciphertext w)).

(** * Lemmas *)

(** What the decoder requires beyond the encoding: the fields of a key identifier at their
    widths, and no all-zero key material. *)
Definition wrapped_wf (w : WrappedEpochKey) : Prop :=
  key_id_wf (wk_key_id w) /\ compliance_key_digest w <> zeroes 32 /\ epoch_key_commitment w <> zeroes 32
  /\ ephemeral_public_key w <> zeroes 32.

Lemma wrapped_decode_encode bs w : wrapped_decode bs = Ok w -> wrapped_wf w /\ wrapped_encode w = Ok bs.
Proof.
  unfold wrapped_decode. intros H. apply bind_Ok in H as (? & Hl & H). apply bind_Ok in H as (id & Hid & H).
  apply bind_Ok in H as ([] & Hv & H). apply bind_Ok in H as (? & Hz & H).
  apply guard_Ok, orb_false_iff in Hl as [Hl Hver]. inv_ok. b2p. unfold WRAPPED_EPOCH_KEY_LEN in Hl.
  apply seal_err_Ok, key_id_codec in Hid as [Hwf Hid]. subst w. split; [done|].
  unfold wrapped_encode. cbn [wk_version wk_key_id compliance_key_digest epoch_key_commitment ephemeral_public_key wk_nonce wk_ciphertext].
  rewrite bool_decide_true, Hv, Hid by done. cbn [negb guard mbind result_bind seal_err]. f_equal.
  rewrite !vec_slice, <-Hver, (byte_at_slice 0 1) by lia.
  etrans; [|symmetry; apply (cut_at [1; 48; 80; 112; 144; 168; 216]%nat); done]. cbn [pieces].
  by rewrite (drop_ge bs 216), app_nil_r by lia.
Qed.

Lemma length_wrapped_encode w bs : wrapped_encode w = Ok bs -> length bs = WRAPPED_EPOCH_KEY_LEN.
Proof.
  unfold wrapped_encode. intros H. apply bind_Ok in H as (? & _ & H). apply bind_Ok in H as (? & _ & H).
  apply bind_Ok in H as (k & Hk & H). apply seal_err_Ok, length_key_id_encode in Hk. inv_ok. subst bs.
  rewrite !length_app, Hk, !length_vec_to_list. done.
Qed.

Lemma wrapped_encode_decode w bs : wrapped_wf w -> wrapped_encode w = Ok bs -> wrapped_decode bs = Ok w.
Proof.
  intros (Wid & Wd & We & Wp) H. pose proof (length_wrapped_encode w bs H) as Hl. unfold wrapped_encode in H.
  apply bind_Ok in H as (? & Hver & H). apply bind_Ok in H as ([] & Hv & H). apply bind_Ok in H as (k & Hk & H).
  apply seal_err_Ok in Hk. pose proof (length_key_id_encode _ _ Hk) as Lk. inv_ok. b2p.
  assert (length k = 47%nat) as Lk' by done.
  unfold wrapped_decode. cbv zeta. rewrite Hl. subst bs. read_layout. rewrite !take_arr_all, Hver.
  rewrite (proj2 (seal_err_Ok _ _ (wk_key_id w))) by by apply key_id_codec. cbn [mbind result_bind].
  rewrite Hv, !bool_decide_false, bool_decide_true by done.
  cbn [Nat.eqb WRAPPED_EPOCH_KEY_LEN negb orb guard mbind result_bind]. f_equal. rewrite <-Hver. by destruct w.
Qed.
