(* ===== verification/Segment.v ===== *)
(** [pigeonpost-compliance-seal/src/segment.rs]: the segment format.  Header, frame and
    footer codecs, the hash chain, and the public verification of a complete segment. *)
From S2P Require Import Prelude Text Crypto Compliance Layout TraceRecord TraceKey.

Definition HEADER_MAGIC : bytes := lit "PPTRACE" ++ [x00].
Definition FOOTER_MAGIC : bytes := lit "PPEND" ++ [x00; x00; x00].
Definition SEGMENT_VERSION : byte := x01.
Definition SEGMENT_HEADER_LEN : nat := 348.
Definition SEGMENT_FOOTER_LEN : nat := 149.
Definition FRAME_AAD_DOMAIN : bytes := lit "pigeonpost/trace-frame-aad/v1".
Definition FRAME_CHAIN_DOMAIN : bytes := lit "pigeonpost/trace-frame-chain/v1".
Definition FOOTER_SIGNATURE_DOMAIN : bytes := lit "pigeonpost/trace-segment-footer/v1".
Definition MAX_SEGMENT_RECORDS : Z := 10000.
Definition MAX_SEGMENT_BYTES : Z := 16 * 1024 * 1024.

Record SegmentHeader := {
  segment_id : arr 32;
  sh_key_id : ComplianceKeyId;
  opened_at_ms : Z;
  max_records : Z;
  signer_public_key : arr 32;
  wrapped_epoch_key : WrappedEpochKey;
}.

Record SealedFrame := {
  sequence : Z;
  fr_nonce : arr 24;
  fr_ciphertext : bytes;
  chain_hash : arr 32;
}.

Record SegmentFooter := {
  record_count : Z;
  first_record_hash : arr 32;
  final_chain_hash : arr 32;
  closed_at_ms : Z;
  ft_signature : arr 64;
}.

Record VerifiedSegment := { vs_header : SegmentHeader; vs_frames : list SealedFrame; vs_footer : SegmentFooter }.

Definition plaintext_len (purpose : CompliancePurpose) : SealResult nat :=
  match purpose with
  | NetworkTrace => Ok TRACE_RECORD_LEN
  | IdentityTrace => Ok IDENTITY_TRACE_RECORD_LEN
  | Attribution => Err SealError.WrongPurpose
  end.

Definition frame_len (purpose : CompliancePurpose) : SealResult nat :=
  n ← plaintext_len purpose; Ok (8 + 24 + n + 16 + 32)%nat.

(** [unwrap_or(false)] *)
Definition timestamp_in_epoch (timestamp_ms : Z) (key_id : ComplianceKeyId) : bool :=
  default false (ok (trace_epoch_contains key_id timestamp_ms)).

Definition frame_aad (segment_id : arr 32) (key_id : ComplianceKeyId) (sequence : Z) (previous_hash : arr 32)
  : SealResult bytes :=
  encoded_key_id ← seal_err (key_id_encode key_id) SealError.Format;
  Ok (FRAME_AAD_DOMAIN ++ vec_to_list segment_id ++ encoded_key_id ++ be_bytes 8 sequence
      ++ vec_to_list previous_hash).

Definition footer_signature_preimage (header_hash : arr 32) (record_count : Z)
  (first_record_hash final_chain_hash : arr 32) (closed_at_ms : Z) : bytes :=
  FOOTER_SIGNATURE_DOMAIN ++ vec_to_list header_hash ++ be_bytes 4 record_count ++ vec_to_list first_record_hash
  ++ vec_to_list final_chain_hash ++ be_bytes 8 closed_at_ms.

(** The bytes [frame_chain_hash] digests. *)
Definition frame_chain_input (sequence : Z) (previous_hash : arr 32) (nonce : arr 24) (ciphertext : bytes) : bytes :=
  FRAME_CHAIN_DOMAIN ++ be_bytes 8 sequence ++ vec_to_list previous_hash ++ vec_to_list nonce ++ ciphertext.

Definition frame_encode (f : SealedFrame) (purpose : CompliancePurpose) : SealResult bytes :=
  n ← plaintext_len purpose;
  _ ← guard (negb (length (fr_ciphertext f) =? n + 16)%nat) SealError.CorruptSegment;
  Ok (be_bytes 8 (sequence f) ++ vec_to_list (fr_nonce f) ++ fr_ciphertext f ++ vec_to_list (chain_hash f)).

Definition decode_frame (bs : bytes) (purpose : CompliancePurpose) : SealResult SealedFrame :=
  n ← plaintext_len purpose;
  let ciphertext_len := (n + 16)%nat in
  _ ← guard (negb (length bs =? 8 + 24 + ciphertext_len + 32)%nat) SealError.CorruptSegment;
  Ok {| sequence := from_be_bytes (slice 0 8 bs); fr_nonce := take_arr 24 (slice 8 32 bs);
        fr_ciphertext := slice 32 (32 + ciphertext_len) bs;
        chain_hash := take_arr 32 (drop (32 + ciphertext_len) bs) |}.

Definition footer_encode (f : SegmentFooter) : bytes :=
  FOOTER_MAGIC ++ [SEGMENT_VERSION] ++ be_bytes 4 (record_count f) ++ vec_to_list (first_record_hash f)
  ++ vec_to_list (final_chain_hash f) ++ be_bytes 8 (closed_at_ms f) ++ vec_to_list (ft_signature f).

Definition footer_decode (bs : bytes) : SealResult SegmentFooter :=
  _ ← guard (negb (length bs =? SEGMENT_FOOTER_LEN)%nat || negb (slice 0 8 bs ≟ FOOTER_MAGIC)
             || negb (byte_at 8 bs ≟ SEGMENT_VERSION)) SealError.CorruptSegment;
  Ok {| record_count := from_be_bytes (slice 9 13 bs); first_record_hash := take_arr 32 (slice 13 45 bs);
        final_chain_hash := take_arr 32 (slice 45 77 bs); closed_at_ms := from_be_bytes (slice 77 85 bs);
        ft_signature := take_arr 64 (slice 85 149 bs) |}.

Section Segment.
Context {C : Crypto}.

Definition parse_verifying_key (bs : arr 32) : SealResult VerifyingKey :=
  _ ← guard (negb (vk_decodes bs)) SealError.InvalidKey;
  _ ← guard (vk_is_weak bs) SealError.InvalidKey;
  Ok bs.

Definition validate_header (h : SegmentHeader) : SealResult unit :=
  _ ← guard ((segment_id h ≟ zeroes 32) || (opened_at_ms h =? 0)
             || negb (timestamp_in_epoch (opened_at_ms h) (sh_key_id h))
             || (max_records h =? 0) || (MAX_SEGMENT_RECORDS <? max_records h)
             || (signer_public_key h ≟ zeroes 32)
             || negb (wk_key_id (wrapped_epoch_key h) ≟ sh_key_id h)) SealError.CorruptSegment;
  _ ← plaintext_len (purpose (sh_key_id h));
  _ ← parse_verifying_key (signer_public_key h);
  Ok tt.

Definition header_encode (h : SegmentHeader) : SealResult bytes :=
  _ ← validate_header h;
  key_id ← seal_err (key_id_encode (sh_key_id h)) SealError.Format;
  wrapped ← wrapped_encode (wrapped_epoch_key h);
  Ok (HEADER_MAGIC ++ [SEGMENT_VERSION] ++ vec_to_list (segment_id h) ++ key_id ++ be_bytes 8 (opened_at_ms h)
      ++ be_bytes 4 (max_records h) ++ vec_to_list (signer_public_key h) ++ wrapped).

Definition header_decode (bs : bytes) : SealResult SegmentHeader :=
  _ ← guard (negb (length bs =? SEGMENT_HEADER_LEN)%nat || negb (slice 0 8 bs ≟ HEADER_MAGIC)
             || negb (byte_at 8 bs ≟ SEGMENT_VERSION)) SealError.CorruptSegment;
  let segment_id := take_arr 32 (slice 9 41 bs) in
  key_id ← seal_err (key_id_decode (slice 41 88 bs)) SealError.CorruptSegment;
  let opened_at_ms := from_be_bytes (slice 88 96 bs) in
  let max_records := from_be_bytes (slice 96 100 bs) in
  let signer_public_key := take_arr 32 (slice 100 132 bs) in
  wrapped_epoch_key ← wrapped_decode (slice 132 348 bs);
  let header := {| segment_id := segment_id; sh_key_id := key_id; opened_at_ms := opened_at_ms;
    max_records := max_records; signer_public_key := signer_public_key; wrapped_epoch_key := wrapped_epoch_key |} in
  _ ← validate_header header;
  Ok header.

(** [self.encode().expect(..)]: [None] is the panic. *)
Definition header_hash (h : SegmentHeader) : option (arr 32) := (fun e => sha256 e) <$> ok (header_encode h).

Definition footer_hash (f : SegmentFooter) : arr 32 := sha256 (footer_encode f).

Definition frame_chain_hash (sequence : Z) (previous_hash : arr 32) (nonce : arr 24) (ciphertext : bytes) : arr 32 :=
  sha256 (frame_chain_input sequence previous_hash nonce ciphertext).

Definition verify_frame (f : SealedFrame) (expected_sequence : Z) (previous_hash : arr 32) : SealResult unit :=
  guard (negb (sequence f =? expected_sequence)
         || negb (chain_hash f ≟ frame_chain_hash (sequence f) previous_hash (fr_nonce f) (fr_ciphertext f)))
    SealError.CorruptSegment.

(** The loop of [verify_segment_bytes]: [n] frames from [rest], the next one numbered
    [sequence].  Returns the frames and the last chain hash. *)
Fixpoint verify_frames (purpose : CompliancePurpose) (frame_len : nat) (n : nat) (sequence : Z)
  (previous_hash : arr 32) (rest : bytes) : SealResult (list SealedFrame * arr 32) :=
  match n with
  | O => Ok ([], previous_hash)
  | S n =>
      frame ← decode_frame (take frame_len rest) purpose;
      _ ← verify_frame frame sequence previous_hash;
      '(frames, last) ← verify_frames purpose frame_len n (sequence + 1) (chain_hash frame) (drop frame_len rest);
      Ok (frame :: frames, last)
  end.

(** [frames.first().map_or([0; 32], |frame| frame.chain_hash)] *)
Definition first_hash (frames : list SealedFrame) : arr 32 :=
  match frames with f :: _ => chain_hash f | [] => zeroes 32 end.

(** [None] is the panic of [header.hash()], which a decoded header never reaches.  A
    [usize] is 64 bits wide. *)
Definition verify_segment_bytes (bs : bytes) : option (SealResult VerifiedSegment) :=
  let checked : SealResult (SegmentHeader * SegmentFooter * nat) :=
    _ ← guard ((length bs <? SEGMENT_HEADER_LEN + SEGMENT_FOOTER_LEN)%nat
               || (MAX_SEGMENT_BYTES <? Z.of_nat (length bs))) SealError.CorruptSegment;
    header ← header_decode (take SEGMENT_HEADER_LEN bs);
    footer ← footer_decode (drop (length bs - SEGMENT_FOOTER_LEN) bs);
    _ ← guard ((max_records header <? record_count footer) || (MAX_SEGMENT_RECORDS <? record_count footer))
          SealError.LimitExceeded;
    frame_len ← frame_len (purpose (sh_key_id header));
    body_len ← ok_or (checked_mul 64 (record_count footer) (Z.of_nat frame_len)) SealError.LimitExceeded;
    length_so_far ← ok_or (checked_add 64 (Z.of_nat SEGMENT_HEADER_LEN) body_len) SealError.LimitExceeded;
    expected_len ← ok_or (checked_add 64 length_so_far (Z.of_nat SEGMENT_FOOTER_LEN)) SealError.LimitExceeded;
    _ ← guard (negb (Z.of_nat (length bs) =? expected_len) || (closed_at_ms footer <? opened_at_ms header))
          SealError.CorruptSegment;
    Ok (header, footer, frame_len) in
  match checked with
  | Err e => Some (Err e)
  | Ok (header, footer, frame_len) =>
      header_hash ← header_hash header;
      Some (
        '(frames, previous_hash) ← verify_frames (purpose (sh_key_id header)) frame_len
           (Z.to_nat (record_count footer)) 0 header_hash (drop SEGMENT_HEADER_LEN bs);
        _ ← guard (negb (first_hash frames ≟ first_record_hash footer)
                   || negb (previous_hash ≟ final_chain_hash footer)) SealError.CorruptSegment;
        verifying_key ← parse_verifying_key (signer_public_key header);
        let preimage := footer_signature_preimage header_hash (record_count footer) (first_record_hash footer)
                          (final_chain_hash footer) (closed_at_ms footer) in
        _ ← guard (negb (verify_strict verifying_key preimage (ft_signature footer))) SealError.BadSignature;
        Ok {| vs_header := header; vs_frames := frames; vs_footer := footer |})
  end.
End Segment.
