(* ===== verification/SegmentChain.v ===== *)
(** The trace segment format: its codecs are bijective, the hash chain binds every frame,
    and public verification accepts exactly the signed chains. *)
From S2P Require Import Prelude Text Crypto Compliance Layout TraceRecord TraceKey Segment.

(** * Codecs *)

Section Codecs.
Context {C : Crypto}.

Record header_wf (h : SegmentHeader) : Prop := {
  hw_key_id : key_id_wf (sh_key_id h);
  hw_opened : in_uint 64 (opened_at_ms h);
  hw_max : in_uint 32 (max_records h);
  hw_wrapped : wrapped_wf (wrapped_epoch_key h);
}.

Lemma length_header_encode h bs : header_encode h = Ok bs -> length bs = SEGMENT_HEADER_LEN.
Proof.
  unfold header_encode. intros H. apply bind_Ok in H as (? & _ & H). apply bind_Ok in H as (k & Hk & H).
  apply bind_Ok in H as (w & Hw & H). apply seal_err_Ok, length_key_id_encode in Hk. apply length_wrapped_encode in Hw.
  inv_ok. subst bs. rewrite !length_app, Hk, Hw, !length_vec_to_list, !length_be_bytes. done.
Qed.

Lemma header_decode_encode bs h : header_decode bs = Ok h -> header_wf h /\ header_encode h = Ok bs.
Proof.
  unfold header_decode. intros H. apply bind_Ok in H as (? & Hl & H). apply bind_Ok in H as (id & Hid & H).
  apply bind_Ok in H as (w & Hw & H). apply bind_Ok in H as ([] & Hv & H).
  apply guard_Ok, orb_false_iff in Hl as [Hl Hver]. apply orb_false_iff in Hl as [Hl Hmagic]. inv_ok. b2p.
  unfold SEGMENT_HEADER_LEN in Hl. apply seal_err_Ok, key_id_codec in Hid as [Wid Hid].
  apply wrapped_decode_encode in Hw as [Ww Hw]. subst h. split.
  - split; [done|apply (slice_uint 88 96 8); lia|apply (slice_uint 96 100 4); lia|done].
  - unfold header_encode. rewrite Hv. cbn [mbind result_bind segment_id sh_key_id opened_at_ms max_records
      signer_public_key wrapped_epoch_key]. rewrite Hid, Hw. cbn [seal_err mbind result_bind]. f_equal.
    rewrite !vec_slice, !be_bytes_from by (rewrite ?length_slice; lia). rewrite <-Hmagic, <-Hver, (byte_at_slice 8 9) by lia.
    etrans; [|symmetry; apply (cut_at [8; 9; 41; 88; 96; 100; 132; 348]%nat); done]. cbn [pieces].
    by rewrite (drop_ge bs 348), app_nil_r by lia.
Qed.

Lemma header_encode_decode h bs : header_wf h -> header_encode h = Ok bs -> header_decode bs = Ok h.
Proof.
  intros [Wid Wo Wm Ww] H. pose proof (length_header_encode h bs H) as Hl. unfold header_encode in H.
  apply bind_Ok in H as ([] & Hv & H). apply bind_Ok in H as (k & Hk & H). apply bind_Ok in H as (w & Hw & H).
  apply seal_err_Ok in Hk. assert (length k = 47%nat) by by eapply length_key_id_encode.
  assert (length w = 216%nat) by by eapply length_wrapped_encode. inv_ok.
  assert (length HEADER_MAGIC = 8%nat) by done.
  unfold header_decode. cbv zeta. rewrite Hl. subst bs. read_layout. rewrite !take_arr_all, !from_be_bytes_id by done.
  rewrite (proj2 (seal_err_Ok _ _ (sh_key_id h))) by by apply key_id_codec.
  rewrite (wrapped_encode_decode _ _ Ww Hw), !bool_decide_true by done.
  cbn [Nat.eqb SEGMENT_HEADER_LEN negb orb guard mbind result_bind].
  replace {| segment_id := _ |} with h by by destruct h. by rewrite Hv.
Qed.

Definition frame_bytes (f : SealedFrame) : bytes :=
  be_bytes 8 (sequence f) ++ vec_to_list (fr_nonce f) ++ fr_ciphertext f ++ vec_to_list (chain_hash f).

Lemma plaintext_len_frame p n : plaintext_len p = Ok n -> frame_len p = Ok (8 + 24 + n + 16 + 32)%nat.
Proof. unfold frame_len. by intros ->. Qed.

Lemma frame_codec p n bs f :
  plaintext_len p = Ok n ->
  decode_frame bs p = Ok f <->
  in_uint 64 (sequence f) /\ length (fr_ciphertext f) = (n + 16)%nat /\ bs = frame_bytes f.
Proof.
  intros Hp. unfold decode_frame, frame_bytes. rewrite Hp. cbn [mbind result_bind]. cbv zeta. split.
  - intros H. inv_ok. b2p. subst f. cbn [sequence fr_nonce fr_ciphertext chain_hash].
    split; [apply (slice_uint 0 8 8); lia|]. split; [rewrite length_slice; lia|].
    rewrite be_bytes_from, vec_slice by (rewrite ?length_slice; lia).
    rewrite vec_to_list_take_arr by (rewrite length_drop; lia).
    rewrite (take_ge (drop _ _)) by (rewrite length_drop; lia).
    apply (cut_at [8; 32; 32 + (n + 16)]%nat). cbn [ascending].
    by rewrite (proj2 (Nat.leb_le 32 (32 + (n + 16)))) by lia.
  - intros (Ws & Hc & ->). rewrite !length_app, length_be_bytes, !length_vec_to_list, Hc.
    rewrite (proj2 (Nat.eqb_eq _ (8 + 24 + (n + 16) + 32))) by lia. cbn [negb guard mbind result_bind]. f_equal.
    assert (drop (32 + (n + 16)) (be_bytes 8 (sequence f) ++ fr_nonce f ++ fr_ciphertext f ++ chain_hash f)
            = vec_to_list (chain_hash f)) as ->.
    { rewrite !drop_app_ge by (rewrite ?length_be_bytes, ?length_vec_to_list; lia).
      rewrite length_be_bytes, length_vec_to_list, Hc. by replace (32 + (n + 16) - 8 - 24 - (n + 16))%nat with 0%nat by lia. }
    rewrite (slice_skip (be_bytes 8 _) _ 8 32), (slice_skip (vec_to_list (fr_nonce f)) _ 24 (32 - 8)) by (lia || field_len).
    replace (32 - 8 - 24)%nat with 0%nat by lia. rewrite (slice_head (fr_ciphertext f)) by lia.
    read_layout. rewrite !take_arr_all, from_be_bytes_id by done. by destruct f.
Qed.

Definition footer_wf (f : SegmentFooter) : Prop := in_uint 32 (record_count f) /\ in_uint 64 (closed_at_ms f).

Lemma length_footer_encode f : length (footer_encode f) = SEGMENT_FOOTER_LEN.
Proof. unfold footer_encode. rewrite !length_app, !length_vec_to_list, !length_be_bytes. done. Qed.

Lemma footer_codec bs f : footer_decode bs = Ok f <-> footer_wf f /\ bs = footer_encode f.
Proof.
  unfold footer_decode. split.
  - intros H. apply bind_Ok in H as (? & Hl & H). apply guard_Ok, orb_false_iff in Hl as [Hl Hver].
    apply orb_false_iff in Hl as [Hl Hmagic]. inv_ok. b2p. unfold SEGMENT_FOOTER_LEN in Hl. subst f. split.
    + split; [apply (slice_uint 9 13 4); lia|apply (slice_uint 77 85 8); lia].
    + unfold footer_encode. cbn [record_count first_record_hash final_chain_hash closed_at_ms ft_signature].
      rewrite !vec_slice, !be_bytes_from by (rewrite ?length_slice; lia). rewrite <-Hmagic, <-Hver, (byte_at_slice 8 9) by lia.
      etrans; [apply (cut_at [8; 9; 13; 45; 77; 85; 149]%nat); done|]. cbn [pieces].
      by rewrite (drop_ge bs 149), app_nil_r by lia.
  - intros [[Wr Wc] ->]. rewrite length_footer_encode. assert (length FOOTER_MAGIC = 8%nat) by done.
    unfold footer_encode. read_layout. rewrite !bool_decide_true by done.
    cbn [Nat.eqb SEGMENT_FOOTER_LEN negb orb guard mbind result_bind]. rewrite !take_arr_all, !from_be_bytes_id by done. by destruct f.
Qed.
End Codecs.

(** * The hash chain *)

Section Chain.
Context {C : Crypto}.

(** Frames numbered from [seq], each hashing its predecessor's hash. *)
Fixpoint chained (seq : Z) (prev : arr 32) (frames : list SealedFrame) : Prop :=
  match frames with
  | [] => True
  | f :: fs =>
      sequence f = seq /\ chain_hash f = frame_chain_hash seq prev (fr_nonce f) (fr_ciphertext f)
      /\ chained (seq + 1) (chain_hash f) fs
  end.

Fixpoint last_hash (prev : arr 32) (frames : list SealedFrame) : arr 32 :=
  match frames with [] => prev | f :: fs => last_hash (chain_hash f) fs end.

(** The strings hashed along the chain. *)
Fixpoint chain_inputs (prev : arr 32) (frames : list SealedFrame) : list bytes :=
  match frames with
  | [] => []
  | f :: fs => frame_chain_input (sequence f) prev (fr_nonce f) (fr_ciphertext f) :: chain_inputs (chain_hash f) fs
  end.

Definition frames_bytes (frames : list SealedFrame) : bytes := concat (map frame_bytes frames).

Definition sized (n : nat) (frames : list SealedFrame) : Prop := Forall (fun f => length (fr_ciphertext f) = (n + 16)%nat) frames.

Definition frame_size (n : nat) : nat := (8 + 24 + n + 16 + 32)%nat.

Lemma length_frame_bytes n f : length (fr_ciphertext f) = (n + 16)%nat -> length (frame_bytes f) = frame_size n.
Proof. intros H. unfold frame_bytes, frame_size. rewrite !length_app, length_be_bytes, !length_vec_to_list, H. lia. Qed.

Lemma length_frames_bytes n frames : sized n frames -> length (frames_bytes frames) = (length frames * frame_size n)%nat.
Proof.
  induction 1 as [|f fs Hf Hs IH]; [done|]. unfold frames_bytes in *. cbn [map concat]. rewrite length_app, IH.
  rewrite (length_frame_bytes n) by done. simpl. lia.
Qed.

Lemma frames_bytes_app a b : frames_bytes (a ++ b) = frames_bytes a ++ frames_bytes b.
Proof. unfold frames_bytes. by rewrite map_app, concat_app. Qed.

Lemma chained_app seq prev a b :
  chained seq prev (a ++ b) <-> chained seq prev a /\ chained (seq + Z.of_nat (length a)) (last_hash prev a) b.
Proof.
  revert seq prev; induction a as [|f a IH]; intros seq prev; cbn [app chained last_hash length].
  - rewrite Z.add_0_r. naive_solver.
  - rewrite IH. replace (seq + 1 + Z.of_nat (length a)) with (seq + Z.of_nat (S (length a))) by lia. naive_solver.
Qed.

Lemma last_hash_app prev a b : last_hash prev (a ++ b) = last_hash (last_hash prev a) b.
Proof. revert prev; induction a as [|f a IH]; intros prev; [done|]. apply IH. Qed.

Lemma verify_frame_Ok f seq prev u :
  verify_frame f seq prev = Ok u <->
  sequence f = seq /\ chain_hash f = frame_chain_hash seq prev (fr_nonce f) (fr_ciphertext f).
Proof.
  unfold verify_frame. split.
  - intros H. inv_ok. b2p. subst seq. done.
  - intros [<- <-]. rewrite Z.eqb_refl, bool_decide_true by done. by destruct u.
Qed.

(** The verification loop accepts exactly the encodings of chained frames. *)
Lemma verify_frames_spec p n k : forall seq prev rest frames last,
  plaintext_len p = Ok n -> 0 <= seq -> seq + Z.of_nat k <= 2 ^ 32 -> (k * frame_size n <= length rest)%nat ->
  verify_frames p (frame_size n) k seq prev rest = Ok (frames, last) <->
  length frames = k /\ sized n frames /\ chained seq prev frames /\ last = last_hash prev frames
  /\ take (k * frame_size n) rest = frames_bytes frames.
Proof.
  induction k as [|k IH]; intros seq prev rest frames last Hp H0 Hk Hr.
  - cbn [verify_frames]. split.
    + intros H. inv_ok. simplify_eq. by repeat constructor.
    + intros (Hl & _ & _ & -> & _). destruct frames; [done|discriminate].
  - cbn [verify_frames]. set (L := frame_size n) in *.
    assert (length (take L rest) = L) as HL by (rewrite length_take; lia).
    assert (forall fs, take (S k * L) rest = frames_bytes fs <-> take L rest ++ take (k * L) (drop L rest) = frames_bytes fs) as Hcut.
    { intros fs. replace (S k * L)%nat with (L + k * L)%nat by lia. by rewrite take_take_drop. }
    split.
    + intros H. apply bind_Ok in H as (f & Hf & H). apply bind_Ok in H as ([] & Hv & H).
      apply bind_Ok in H as ([fs l] & Hrec & H). apply Ok_inj in H. simplify_eq.
      apply (frame_codec p n) in Hf as (Ws & Hc & Hb); [|done]. apply verify_frame_Ok in Hv as [Hs Hh].
      apply IH in Hrec as (Hl & Hz & Hch & -> & Hby); [|done|lia|lia|rewrite length_drop; lia].
      split; [by rewrite <-Hl|]. split; [by constructor|]. split; [done|]. split; [done|]. apply Hcut. by rewrite Hby, Hb.
    + intros (Hl & Hz & Hch & -> & Hby). apply Hcut in Hby. destruct frames as [|f fs]; [discriminate|].
      apply Forall_cons in Hz as [Hc Hz]. destruct Hch as (Hs & Hh & Hch). injection Hl as Hl.
      apply app_inj_len in Hby as [Hf Hby]; [|by rewrite HL, (length_frame_bytes n)].
      rewrite (proj2 (frame_codec p n (take L rest) f Hp)) by (rewrite Hs; split; [unfold in_uint; compute_pows; lia|done]).
      cbn [mbind result_bind]. rewrite (proj2 (verify_frame_Ok f seq prev tt)) by done. cbn [mbind result_bind].
      rewrite (proj2 (IH (seq + 1) (chain_hash f) (drop L rest) fs (last_hash (chain_hash f) fs) Hp ltac:(lia) ltac:(lia)
                     ltac:(rewrite length_drop; lia))) by done. done.
Qed.
End Chain.

(** * Public verification *)

Section Verification.
Context {C : Crypto}.

(** What the node's signature covers. *)
Definition signed_preimage (header_hash : arr 32) (f : SegmentFooter) : bytes :=
  footer_signature_preimage header_hash (record_count f) (first_record_hash f) (final_chain_hash f) (closed_at_ms f).

(** A complete segment [s] whose header is encoded by [hb], with [n]-byte plaintexts. *)
Record valid_segment (s : VerifiedSegment) (hb : bytes) (n : nat) : Prop := {
  sv_header : header_encode (vs_header s) = Ok hb;
  sv_header_wf : header_wf (vs_header s);
  sv_purpose : plaintext_len (purpose (sh_key_id (vs_header s))) = Ok n;
  sv_footer_wf : footer_wf (vs_footer s);
  sv_count : record_count (vs_footer s) = Z.of_nat (length (vs_frames s));
  sv_bound : Z.of_nat (length (vs_frames s)) <= max_records (vs_header s);
  sv_sized : sized n (vs_frames s);
  sv_chain : chained 0 (sha256 hb) (vs_frames s);
  sv_first : first_record_hash (vs_footer s) = first_hash (vs_frames s);
  sv_final : final_chain_hash (vs_footer s) = last_hash (sha256 hb) (vs_frames s);
  sv_closed : opened_at_ms (vs_header s) <= closed_at_ms (vs_footer s);
  sv_signed : verify_strict (signer_public_key (vs_header s)) (signed_preimage (sha256 hb) (vs_footer s))
                (ft_signature (vs_footer s)) = true;
}.

Definition segment_bytes (s : VerifiedSegment) (hb : bytes) : bytes :=
  hb ++ frames_bytes (vs_frames s) ++ footer_encode (vs_footer s).

Lemma header_encode_validate h hb :
  header_encode h = Ok hb ->
  validate_header h = Ok tt /\ max_records h <= MAX_SEGMENT_RECORDS
  /\ parse_verifying_key (signer_public_key h) = Ok (signer_public_key h)
  /\ exists n, plaintext_len (purpose (sh_key_id h)) = Ok n /\ (n <= 205)%nat.
Proof.
  intros H. unfold header_encode in H. apply bind_Ok in H as ([] & Hv & _). split; [done|]. unfold validate_header in Hv.
  apply bind_Ok in Hv as (? & Hg & Hv). apply bind_Ok in Hv as (n & Hn & Hv). apply bind_Ok in Hv as (k & Hk & _).
  inv_ok. b2p. split; [done|]. split.
  - assert (k = signer_public_key h) by (unfold parse_verifying_key in Hk; inv_ok; done). by subst.
  - exists n. split; [done|]. unfold plaintext_len in Hn.
    destruct (purpose _); inv_ok; subst; unfold TRACE_RECORD_LEN, IDENTITY_TRACE_RECORD_LEN; lia.
Qed.

Lemma checked_small w a b : a + b < 2 ^ w -> checked_add w a b = Some (a + b).
Proof. intros H. unfold checked_add. by rewrite (proj2 (Z.ltb_lt _ _)) by done. Qed.

Lemma checked_mul_small w a b : a * b < 2 ^ w -> checked_mul w a b = Some (a * b).
Proof. intros H. unfold checked_mul. by rewrite (proj2 (Z.ltb_lt _ _)) by done. Qed.

(** The length the verifier computes never overflows. *)
Lemma expected_len_total count n :
  0 <= count <= MAX_SEGMENT_RECORDS -> (n <= 205)%nat ->
  checked_mul 64 count (Z.of_nat (frame_size n)) = Some (count * Z.of_nat (frame_size n)) /\
  checked_add 64 (Z.of_nat SEGMENT_HEADER_LEN) (count * Z.of_nat (frame_size n))
    = Some (Z.of_nat SEGMENT_HEADER_LEN + count * Z.of_nat (frame_size n)) /\
  checked_add 64 (Z.of_nat SEGMENT_HEADER_LEN + count * Z.of_nat (frame_size n)) (Z.of_nat SEGMENT_FOOTER_LEN)
    = Some (Z.of_nat SEGMENT_HEADER_LEN + count * Z.of_nat (frame_size n) + Z.of_nat SEGMENT_FOOTER_LEN) /\
  Z.of_nat SEGMENT_HEADER_LEN + count * Z.of_nat (frame_size n) + Z.of_nat SEGMENT_FOOTER_LEN <= MAX_SEGMENT_BYTES.
Proof.
  unfold MAX_SEGMENT_RECORDS, MAX_SEGMENT_BYTES, SEGMENT_HEADER_LEN, SEGMENT_FOOTER_LEN, frame_size. intros Hc Hn.
  assert (0 <= count * Z.of_nat (8 + 24 + n + 16 + 32) <= 10000 * 285) by nia.
  split; [|split; [|split]]; [apply checked_mul_small|apply checked_small..|]; compute_pows; lia.
Qed.

Lemma verify_segment_bytes_sound bs s :
  verify_segment_bytes bs = Some (Ok s) -> exists hb n, valid_segment s hb n /\ bs = segment_bytes s hb.
Proof.
  unfold verify_segment_bytes. cbv zeta. destruct (_ ≫= _) as [[[h ft] L]|e] eqn:E; [|intros H; simplify_eq].
  apply bind_Ok in E as (? & Hg & E). apply bind_Ok in E as (h' & Hh & E). apply bind_Ok in E as (f' & Hf & E).
  apply bind_Ok in E as (? & Hmax & E). apply bind_Ok in E as (L' & HL & E). apply bind_Ok in E as (l1 & H1 & E).
  apply bind_Ok in E as (l2 & H2 & E). apply bind_Ok in E as (l3 & H3 & E). apply bind_Ok in E as (? & Hlen & E).
  apply Ok_inj in E. simplify_eq. apply guard_Ok in Hg, Hmax, Hlen. apply ok_or_Ok in H1, H2, H3. b2p.
  apply header_decode_encode in Hh as [Wh Hh]. apply footer_codec in Hf as [[Wr Wc] Hf].
  destruct (header_encode_validate _ _ Hh) as (Hv & Hmax & Hkey & n & Hn & Hn205).
  rewrite (plaintext_len_frame _ _ Hn) in HL. apply Ok_inj in HL. change (frame_size n = L) in HL. subst L.
  unfold header_hash. rewrite Hh. cbn [ok fmap option_fmap option_map mbind option_bind].
  intros V. injection V as V. apply bind_Ok in V as ([frames last] & Hfr & V). apply bind_Ok in V as (? & Hg' & V).
  rewrite Hkey in V. cbn [mbind result_bind] in V. apply bind_Ok in V as (? & Hsig & V). inv_ok. b2p.
  destruct Wr as [Wr0 Wr1]. destruct (expected_len_total (record_count ft) n) as (E1 & E2 & E3 & _); [lia|done|]. simplify_eq.
  unfold SEGMENT_HEADER_LEN, SEGMENT_FOOTER_LEN in *. unfold MAX_SEGMENT_RECORDS in *.
  apply (verify_frames_spec _ n) in Hfr as (Hl & Hz & Hc & Hlast & Hb);
    [|done|lia|compute_pows; lia|rewrite length_drop; nia].
  exists (take 348 bs), n. split.
  - split; try done; cbn [vs_header vs_frames vs_footer]; lia || congruence.
  - unfold segment_bytes. cbn [vs_frames vs_footer]. rewrite <-Hb, <-Hf, <-(take_drop 348 bs) at 1. f_equal.
    rewrite <-(take_drop (Z.to_nat (record_count ft) * frame_size n) (drop 348 bs)) at 1. f_equal.
    rewrite drop_drop. f_equal. nia.
Qed.
Lemma verify_segment_bytes_complete s hb n :
  valid_segment s hb n -> verify_segment_bytes (segment_bytes s hb) = Some (Ok s).
Proof.
  intros [Hh Wh Hn [Wr Wc] Hcount Hbound Hz Hc Hfirst Hfinal Hclosed Hsig].
  destruct (header_encode_validate _ _ Hh) as (Hv & Hmax & Hkey & n' & Hn' & Hn205).
  assert (n = n') as -> by congruence.
  destruct (expected_len_total (record_count (vs_footer s)) n') as (E1 & E2 & E3 & E4); [lia|done|].
  pose proof (length_header_encode _ _ Hh) as Lh. pose proof (length_footer_encode (vs_footer s)) as Lf.
  pose proof (length_frames_bytes _ _ Hz) as Lz.
  assert (length (segment_bytes s hb) = (SEGMENT_HEADER_LEN + length (vs_frames s) * frame_size n' + SEGMENT_FOOTER_LEN)%nat) as Hl
    by (unfold segment_bytes; rewrite !length_app, Lh, Lz, Lf; lia).
  assert (Z.of_nat (length (segment_bytes s hb)) =
    Z.of_nat SEGMENT_HEADER_LEN + record_count (vs_footer s) * Z.of_nat (frame_size n') + Z.of_nat SEGMENT_FOOTER_LEN) as Hlz
    by (rewrite Hl, Hcount, !Nat2Z.inj_add, Nat2Z.inj_mul; done).
  unfold verify_segment_bytes. cbv zeta. rewrite (proj2 (Nat.ltb_ge (length _) _)), (proj2 (Z.ltb_ge MAX_SEGMENT_BYTES _)) by lia.
  cbn [orb guard mbind result_bind].
  assert (take SEGMENT_HEADER_LEN (segment_bytes s hb) = hb) as ->
    by (unfold segment_bytes; rewrite <-Lh; apply take_app_length).
  assert (drop (length (segment_bytes s hb) - SEGMENT_FOOTER_LEN) (segment_bytes s hb) = footer_encode (vs_footer s)) as ->.
  { unfold segment_bytes at 2. rewrite (assoc_L (++)), drop_app_length'; [done|]. rewrite length_app. lia. }
  rewrite (header_encode_decode _ _ Wh Hh), (proj2 (footer_codec _ (vs_footer s))) by done. cbn [mbind result_bind].
  rewrite (proj2 (Z.ltb_ge (max_records _) _)), (proj2 (Z.ltb_ge MAX_SEGMENT_RECORDS _)) by lia.
  cbn [orb guard mbind result_bind]. rewrite (plaintext_len_frame _ _ Hn). cbn [mbind result_bind]. fold (frame_size n').
  rewrite E1. cbn [ok_or mbind result_bind]. rewrite E2. cbn [ok_or mbind result_bind]. rewrite E3. cbn [ok_or mbind result_bind].
  rewrite Hlz, Z.eqb_refl, (proj2 (Z.ltb_ge (closed_at_ms _) _)) by lia. cbn [negb orb guard mbind result_bind].
  unfold header_hash. rewrite Hh. cbn [ok fmap option_fmap option_map mbind option_bind].
  assert (drop SEGMENT_HEADER_LEN (segment_bytes s hb) = frames_bytes (vs_frames s) ++ footer_encode (vs_footer s)) as ->
    by (unfold segment_bytes; rewrite <-Lh; apply drop_app_length).
  replace (Z.to_nat (record_count (vs_footer s))) with (length (vs_frames s)) by lia.
  rewrite (proj2 (verify_frames_spec _ n' (length (vs_frames s)) 0 (sha256 hb) _ (vs_frames s)
    (last_hash (sha256 hb) (vs_frames s)) Hn ltac:(lia) ltac:(unfold MAX_SEGMENT_RECORDS in *; compute_pows; lia)
    ltac:(rewrite length_app, Lz; lia))).
  - cbn [mbind result_bind]. rewrite Hfirst, Hfinal, !bool_decide_true by done. cbn [negb orb guard mbind result_bind].
    rewrite Hkey. cbn [mbind result_bind]. unfold signed_preimage in Hsig. rewrite Hfirst, Hfinal in Hsig. rewrite Hsig.
    by destruct s.
  - split; [lia|]. split; [done|]. split; [done|]. split; [done|].
    rewrite <-Lz. apply take_app_length.
Qed.

(** [header.hash()] never panics on a decoded header. *)
Lemma verify_segment_bytes_total bs : is_Some (verify_segment_bytes bs).
Proof.
  unfold verify_segment_bytes. cbv zeta. destruct (_ ≫= _) as [[[h ft] L]|e] eqn:E; [|done].
  apply bind_Ok in E as (? & _ & E). apply bind_Ok in E as (h' & Hh & E). apply header_decode_encode in Hh as [_ Hh].
  inv_ok. simplify_eq. unfold header_hash. rewrite Hh. cbn [ok fmap option_fmap option_map mbind option_bind]. eauto.
Qed.

(** ** The chain binds its frames *)

Lemma chain_input_inj s s' p p' n n' c c' :
  in_uint (8 * Z.of_nat 8) s -> in_uint (8 * Z.of_nat 8) s' ->
  frame_chain_input s p n c = frame_chain_input s' p' n' c' -> s = s' /\ p = p' /\ n = n' /\ c = c'.
Proof. intros Ws Ws' P. unfold frame_chain_input in P. payload_inj P. done. Qed.

Lemma chain_binds fs : forall fs' seq prev prev',
  length fs = length fs' -> 0 <= seq -> seq + Z.of_nat (length fs) <= 2 ^ 32 ->
  chained seq prev fs -> chained seq prev' fs' -> last_hash prev fs = last_hash prev' fs' ->
  (prev = prev' /\ fs = fs') \/ collision_in (chain_inputs prev fs ++ chain_inputs prev' fs').
Proof.
  induction fs as [|f fs IH]; intros [|f' fs'] seq prev prev' Hl H0 Hs Hc Hc' Hh; try discriminate; [by left|].
  injection Hl as Hl. destruct Hc as (Sf & Cf & Hc), Hc' as (Sf' & Cf' & Hc'). cbn [length] in Hs.
  destruct (IH fs' (seq + 1) (chain_hash f) (chain_hash f') Hl ltac:(lia) ltac:(lia) Hc Hc' Hh) as [[Eh ->]|Hcol].
  - rewrite Cf, Cf' in Eh. apply collision_in_pair in Eh as [Ei|Hcol].
    + apply chain_input_inj in Ei as (_ & -> & En & Ec); [|unfold in_uint; simpl; compute_pows; lia..].
      left. split; [done|]. f_equal. destruct f, f'; simpl in *. congruence.
    + right. revert Hcol. apply collision_in_mono. cbn [chain_inputs]. rewrite Sf, Sf'. set_solver.
  - right. revert Hcol. apply collision_in_mono. cbn [chain_inputs]. set_solver.
Qed.

Lemma signed_preimage_inj h h' f f' :
  footer_wf f -> footer_wf f' -> signed_preimage h f = signed_preimage h' f' ->
  h = h' /\ record_count f = record_count f' /\ first_record_hash f = first_record_hash f'
  /\ final_chain_hash f = final_chain_hash f' /\ closed_at_ms f = closed_at_ms f'.
Proof.
  intros [W1 W2] [W1' W2'] P. unfold signed_preimage, footer_signature_preimage in P.
  change 32 with (8 * Z.of_nat 4) in W1, W1'. change 64 with (8 * Z.of_nat 8) in W2, W2'. payload_inj P. done.
Qed.

(** ** Properties *)

(** Public verification of a trace segment is total and accepts exactly the signed
    chains: it never panics, and a byte string verifies as segment [s] if and only if it is the canonical
    encoding of [s], the header is valid, the frames are numbered from 0 without a gap and each hashes its
    predecessor (the first one the header), there are no more of them than the header and the format allow,
    the footer records their number, first and last hash, the segment closed no earlier than it opened, and
    the header's signer signed the footer.  No arithmetic of the length check overflows. *)
Theorem verify_segment_exact (bs : bytes) (s : VerifiedSegment) :
  is_Some (verify_segment_bytes bs) /\
  (verify_segment_bytes bs = Some (Ok s) <-> exists hb n, valid_segment s hb n /\ bs = segment_bytes s hb).
Proof.
  split; [apply verify_segment_bytes_total|]. split; [apply verify_segment_bytes_sound|].
  intros (hb & n & V & ->). by eapply verify_segment_bytes_complete.
Qed.

(** C30: A segment's signature commits to everything in it: if two segments verify and their
    footers are signed over the same bytes, then their headers, frames and footers (signatures apart) are
    the same, or two different strings among those hashed in the two segments collide under SHA-256.  So
    without a collision no frame can be altered, dropped, added, reordered or moved to another segment
    under a signature the node made. *)
Theorem segment_signature_binds (bs bs' : bytes) (s s' : VerifiedSegment) (hb hb' : bytes) :
  verify_segment_bytes bs = Some (Ok s) -> verify_segment_bytes bs' = Some (Ok s') ->
  header_encode (vs_header s) = Ok hb -> header_encode (vs_header s') = Ok hb' ->
  signed_preimage (sha256 hb) (vs_footer s) = signed_preimage (sha256 hb') (vs_footer s') ->
  (vs_header s = vs_header s' /\ vs_frames s = vs_frames s' /\ closed_at_ms (vs_footer s) = closed_at_ms (vs_footer s')
   /\ (ft_signature (vs_footer s) = ft_signature (vs_footer s') -> bs = bs'))
  \/ collision_in ([hb; hb'] ++ chain_inputs (sha256 hb) (vs_frames s) ++ chain_inputs (sha256 hb') (vs_frames s')).
Proof.
  intros V V' Eh Eh' P. apply verify_segment_bytes_sound in V as (hb1 & n & V & ->), V' as (hb2 & n' & V' & ->).
  destruct V as [Hh Wh Hn Wf Hcount Hbound _ Hc Hfirst Hfinal _ _], V' as [Hh' Wh' Hn' Wf' Hcount' _ _ Hc' Hfirst' Hfinal' _ _].
  assert (hb1 = hb) as -> by congruence. assert (hb2 = hb') as -> by congruence. clear Eh Eh'.
  destruct (header_encode_validate _ _ Hh) as (_ & Hmax & _). unfold MAX_SEGMENT_RECORDS in Hmax.
  apply signed_preimage_inj in P as (Ph & Pn & P1 & P2 & P3); [|done..].
  apply collision_in_pair in Ph as [->|Hcol]; [|right; revert Hcol; apply collision_in_mono; set_solver].
  destruct (chain_binds (vs_frames s) (vs_frames s') 0 (sha256 hb') (sha256 hb')) as [[_ Ef]|Hcol];
    [lia|lia|compute_pows; lia|done|done|congruence| |right; revert Hcol; apply collision_in_mono; set_solver].
  assert (vs_header s = vs_header s') as Eh.
  { pose proof (header_encode_decode _ _ Wh Hh) as D. rewrite (header_encode_decode _ _ Wh' Hh') in D. by apply Ok_inj in D. }
  left. split; [done|]. split; [done|]. split; [done|]. intros Es. unfold segment_bytes. rewrite Ef. do 2 f_equal.
  destruct (vs_footer s), (vs_footer s'); simpl in *. congruence.
Qed.
End Verification.
