(* ===== verification/SegmentWriter.v ===== *)
(** [pigeonpost-compliance-seal/src/segment.rs]: the append-only writer of one segment and
    the recovery of a segment a crash interrupted.

    A segment lives under two names of one directory, [<name>.open] while it is written and
    [<name>] once complete.  The state of the two files is passed explicitly; [synced] counts
    the leading bytes of the open file that an [fsync] made durable.  What the operating
    system and the custody checks (ownership, permissions, link counts, live names) answer
    during a call is its argument [io]; what it draws from the generator are arguments too. *)
From S2P Require Import Prelude Text Crypto Compliance Envelope Layout TraceRecord TraceKey Segment.

Record SegmentDir := { final_file : option bytes; open_file : option bytes; synced : nat }.

(** What publication under the final name came to, besides the refusal of an existing name. *)
Inductive PublishOutcome :=
  | Published
  | FailedBeforeRename (e : SealError.SealError)
  | FailedAfterRename (e : SealError.SealError).

Record Io := {
  (** the custody checks made before the call's first effect *)
  io_checks : SealResult unit;
  (** [None]: [write_all] wrote the whole buffer; [Some n]: it failed after [n] bytes *)
  io_written : option nat;
  io_synced : SealResult unit;
  io_published : PublishOutcome;
}.

Definition io_ok : Io := {| io_checks := Ok tt; io_written := None; io_synced := Ok tt; io_published := Published |}.

Definition with_open (d : SegmentDir) (content : bytes) : SegmentDir :=
  {| final_file := final_file d; open_file := Some content; synced := synced d |}.

(** [file.write_all(buffer)] at the end of the open file. *)
Definition write_all (io : Io) (buffer : bytes) (d : SegmentDir) : SealResult unit * SegmentDir :=
  let content := default [] (open_file d) in
  match io_written io with
  | None => (Ok tt, with_open d (content ++ buffer))
  | Some n => (Err (SealError.Io SealError.OtherKind), with_open d (content ++ take n buffer))
  end.

(** [fsync]: the content as it is becomes durable. *)
Definition sync_file (io : Io) (d : SegmentDir) : SealResult unit * SegmentDir :=
  match io_synced io with
  | Err e => (Err e, d)
  | Ok _ =>
      (Ok tt, {| final_file := final_file d; open_file := open_file d; synced := length (default [] (open_file d)) |})
  end.

(** [publish_no_replace] of the open file under the final name, and the check after it. *)
Definition publish (io : Io) (d : SegmentDir) : SealResult unit * SegmentDir :=
  match final_file d with
  | Some _ => (Err SealError.AlreadyExists, d)
  | None =>
      let renamed := {| final_file := open_file d; open_file := None; synced := 0 |} in
      match io_published io with
      | Published => (Ok tt, renamed)
      | FailedBeforeRename e => (Err e, d)
      | FailedAfterRename e => (Err e, renamed)
      end
  end.

Record SegmentWriter := {
  sw_header : SegmentHeader;
  sw_epoch_key : EpochSealingKey;
  sw_count : Z;
  sw_first_record_hash : arr 32;
  sw_previous_hash : arr 32;
}.

Inductive Recovery := Resumed (writer : SegmentWriter) | Finalized (segment : VerifiedSegment).

Definition require_persistent_writer_platform (supported_persistent_target : bool) : SealResult unit :=
  if supported_persistent_target then Ok tt else Err (SealError.Io SealError.Unsupported).

Section Writer.
Context {C : Crypto} {EC : EnvelopeCrypto} {MC : Montgomery}.

(** * Creation *)

(** The part of [create_for_platform] before the file system is touched. *)
Definition create_header (rnd_segment_id : arr 32) (rnd_ephemeral : arr 32) (rnd_nonce : arr 24)
  (epoch_key : EpochSealingKey) (compliance_public_key signer_public_key : arr 32) (opened_at_ms max_records : Z)
  : SealResult (SegmentHeader * bytes) :=
  _ ← guard ((opened_at_ms =? 0) || (max_records =? 0) || (MAX_SEGMENT_RECORDS <? max_records)) SealError.LimitExceeded;
  _ ← guard (negb (timestamp_in_epoch opened_at_ms (sk_key_id epoch_key))) SealError.InvalidRecord;
  _ ← parse_verifying_key signer_public_key;
  wrapped_epoch_key ← key_wrap epoch_key compliance_public_key rnd_ephemeral rnd_nonce;
  let header := {| segment_id := rnd_segment_id; sh_key_id := sk_key_id epoch_key; opened_at_ms := opened_at_ms;
    max_records := max_records; signer_public_key := signer_public_key; wrapped_epoch_key := wrapped_epoch_key |} in
  header_bytes ← header_encode header;
  Ok (header, header_bytes).

Definition create_for_platform (supported : bool) (io : Io) (rnd_segment_id rnd_ephemeral : arr 32) (rnd_nonce : arr 24)
  (epoch_key : EpochSealingKey) (compliance_public_key signer_public_key : arr 32) (opened_at_ms max_records : Z)
  (d : SegmentDir) : SealResult SegmentWriter * SegmentDir :=
  match
    _ ← require_persistent_writer_platform supported;
    hd ← create_header rnd_segment_id rnd_ephemeral rnd_nonce epoch_key compliance_public_key signer_public_key
           opened_at_ms max_records;
    _ ← io_checks io;
    _ ← guard (is_some (final_file d)) SealError.AlreadyExists;
    _ ← guard (is_some (open_file d)) SealError.AlreadyExists;
    Ok hd
  with
  | Err e => (Err e, d)
  | Ok (header, header_bytes) =>
      let created := {| final_file := final_file d; open_file := Some []; synced := 0 |} in
      match write_all io header_bytes created with
      | (Err e, d) => (Err e, d)
      | (Ok _, d) =>
          match sync_file io d with
          | (Err e, d) => (Err e, d)
          | (Ok _, d) =>
              (Ok {| sw_header := header; sw_epoch_key := epoch_key; sw_count := 0;
                     sw_first_record_hash := zeroes 32; sw_previous_hash := sha256 header_bytes |}, d)
          end
      end
  end.

(** * Appending *)

(** [append_plaintext] up to the write: the frame's nonce drawn, its ciphertext. *)
Definition seal_plaintext (w : SegmentWriter) (nonce : arr 24) (plaintext : bytes) : SealResult bytes :=
  _ ← guard ((max_records (sw_header w) <=? sw_count w) || (MAX_SEGMENT_RECORDS <=? sw_count w)) SealError.SegmentFull;
  aad ← frame_aad (segment_id (sw_header w)) (sh_key_id (sw_header w)) (sw_count w) (sw_previous_hash w);
  ok_or (xchacha_encrypt (secret (sw_epoch_key w)) nonce aad plaintext) SealError.Crypto.

Definition append_plaintext (io : Io) (nonce : arr 24) (plaintext : bytes) (w : SegmentWriter) (d : SegmentDir)
  : SealResult (arr 32) * SegmentWriter * SegmentDir :=
  match seal_plaintext w nonce plaintext with
  | Err e => (Err e, w, d)
  | Ok ciphertext =>
      let sequence := sw_count w in
      let chain_hash := frame_chain_hash sequence (sw_previous_hash w) nonce ciphertext in
      let frame := be_bytes 8 sequence ++ vec_to_list nonce ++ ciphertext ++ vec_to_list chain_hash in
      match write_all io frame d with
      | (Err e, d) => (Err e, w, d)
      | (Ok _, d) =>
          let count := sw_count w + 1 in
          (Ok chain_hash,
           {| sw_header := sw_header w; sw_epoch_key := sw_epoch_key w; sw_count := count;
              sw_first_record_hash := if count =? 1 then chain_hash else sw_first_record_hash w;
              sw_previous_hash := chain_hash |}, d)
      end
  end.

Definition append_network_buffered (io : Io) (nonce : arr 24) (record : TraceRecord) (w : SegmentWriter) (d : SegmentDir)
  : SealResult (arr 32) * SegmentWriter * SegmentDir :=
  match
    _ ← guard (negb (purpose (sh_key_id (sw_header w)) ≟ NetworkTrace)
               || negb (tr_jurisdiction record ≟ jurisdiction (sh_key_id (sw_header w)))) SealError.WrongPurpose;
    _ ← guard (negb (timestamp_in_epoch (timestamp_ms record) (sh_key_id (sw_header w)))) SealError.InvalidRecord;
    trace_encode record
  with
  | Err e => (Err e, w, d)
  | Ok plaintext => append_plaintext io nonce plaintext w d
  end.

Definition append_identity_buffered (io : Io) (nonce : arr 24) (record : IdentityTraceRecord) (w : SegmentWriter)
  (d : SegmentDir) : SealResult (arr 32) * SegmentWriter * SegmentDir :=
  match
    _ ← guard (negb (purpose (sh_key_id (sw_header w)) ≟ IdentityTrace)
               || negb (id_jurisdiction record ≟ jurisdiction (sh_key_id (sw_header w)))) SealError.WrongPurpose;
    _ ← guard (negb (timestamp_in_epoch (id_timestamp_ms record) (sh_key_id (sw_header w)))) SealError.InvalidRecord;
    identity_encode record
  with
  | Err e => (Err e, w, d)
  | Ok plaintext => append_plaintext io nonce plaintext w d
  end.

Definition sync_data (io : Io) (d : SegmentDir) : SealResult unit * SegmentDir :=
  match io_checks io with Err e => (Err e, d) | Ok _ => sync_file io d end.

(** [append_*_buffered] followed by [sync_data]. *)
Definition then_sync (io : Io) (r : SealResult (arr 32) * SegmentWriter * SegmentDir)
  : SealResult (arr 32) * SegmentWriter * SegmentDir :=
  match r with
  | (Err e, w, d) => (Err e, w, d)
  | (Ok chain_hash, w, d) =>
      match sync_data io d with
      | (Err e, d) => (Err e, w, d)
      | (Ok _, d) => (Ok chain_hash, w, d)
      end
  end.

Definition append_network (io : Io) (nonce : arr 24) (record : TraceRecord) (w : SegmentWriter) (d : SegmentDir) :=
  then_sync io (append_network_buffered io nonce record w d).
Definition append_identity (io : Io) (nonce : arr 24) (record : IdentityTraceRecord) (w : SegmentWriter) (d : SegmentDir) :=
  then_sync io (append_identity_buffered io nonce record w d).

(** * Verification of the published file *)

Definition verify_segment (io : Io) (d : SegmentDir) : option (SealResult VerifiedSegment) :=
  match final_file d with
  | None => Some (Err (SealError.Io SealError.NotFound))
  | Some bs =>
      match _ ← io_checks io; guard (MAX_SEGMENT_BYTES <? Z.of_nat (length bs)) SealError.LimitExceeded with
      | Err e => Some (Err e)
      | Ok _ => verify_segment_bytes bs
      end
  end.

(** * Finalization *)

(** The signer is its secret seed; [None] is the panic of [header.hash()]. *)
Definition finalize_durable (io : Io) (closed_at_ms : Z) (signer : arr 32) (w : SegmentWriter) (d : SegmentDir)
  : option (SealResult SegmentFooter * SegmentDir) :=
  match
    _ ← guard (MAX_SEGMENT_BYTES <? Z.of_nat (length (default [] (open_file d)))) SealError.LimitExceeded;
    _ ← io_checks io;
    _ ← guard (negb (public_key signer ≟ signer_public_key (sw_header w))) SealError.InvalidKey;
    guard ((closed_at_ms <? opened_at_ms (sw_header w)) || negb (timestamp_in_epoch closed_at_ms (sh_key_id (sw_header w))))
      SealError.InvalidRecord
  with
  | Err e => Some (Err e, d)
  | Ok _ =>
      header_hash ← header_hash (sw_header w);
      let unsigned := footer_signature_preimage header_hash (sw_count w) (sw_first_record_hash w)
                        (sw_previous_hash w) closed_at_ms in
      let footer := {| record_count := sw_count w; first_record_hash := sw_first_record_hash w;
        final_chain_hash := sw_previous_hash w; closed_at_ms := closed_at_ms;
        ft_signature := ed25519_sign signer unsigned |} in
      Some (
        match write_all io (footer_encode footer) d with
        | (Err e, d) => (Err e, d)
        | (Ok _, d) =>
            match sync_file io d with
            | (Err e, d) => (Err e, d)
            | (Ok _, d) =>
                match publish io d with
                | (Err e, d) => (Err e, d)
                | (Ok _, d) => (Ok footer, d)
                end
            end
        end)
  end.

Definition finalize (io : Io) (closed_at_ms : Z) (signer : arr 32) (w : SegmentWriter) (d : SegmentDir)
  : option (SealResult VerifiedSegment * SegmentDir) :=
  '(r, d) ← finalize_durable io closed_at_ms signer w d;
  match r with
  | Err e => Some (Err e, d)
  | Ok _ => r ← verify_segment io d; Some (r, d)
  end.

(** * Recovery *)

Inductive LoopEnd :=
  | FooterFound
  | Stopped (offset : nat) (count : Z) (first_record_hash previous_hash : arr 32).

(** The loop of [recover_segment_for_platform] at [offset], [rest] being the bytes from there.
    Every turn consumes a frame, so more turns than bytes are never needed: [None] is out of
    fuel. *)
Fixpoint recover_loop (fuel : nat) (header : SegmentHeader) (frame_len : nat) (rest : bytes) (offset : nat) (count : Z)
  (first_record_hash previous_hash : arr 32) : option (SealResult LoopEnd) :=
  match fuel with
  | O => None
  | S fuel =>
      let remaining := length rest in
      if (remaining =? 0)%nat then Some (Ok (Stopped offset count first_record_hash previous_hash))
      else if (8 <=? remaining)%nat && (take 8 rest ≟ FOOTER_MAGIC) then
        if (remaining =? SEGMENT_FOOTER_LEN)%nat then Some (Ok FooterFound)
        else if (remaining <? SEGMENT_FOOTER_LEN)%nat
             then Some (Ok (Stopped offset count first_record_hash previous_hash))
             else Some (Err SealError.CorruptSegment)
      else if (remaining <? frame_len)%nat then Some (Ok (Stopped offset count first_record_hash previous_hash))
      else
        match
          frame ← decode_frame (take frame_len rest) (purpose (sh_key_id header));
          _ ← verify_frame frame count previous_hash;
          count ← ok_or (checked_add 32 count 1) SealError.LimitExceeded;
          _ ← guard ((max_records header <? count) || (MAX_SEGMENT_RECORDS <? count)) SealError.LimitExceeded;
          Ok (frame, count)
        with
        | Err e => Some (Err e)
        | Ok (frame, count) =>
            recover_loop fuel header frame_len (drop frame_len rest) (offset + frame_len) count
              (if count =? 1 then chain_hash frame else first_record_hash) (chain_hash frame)
        end
  end.

(** The checks between reading the open file and the loop. *)
Definition recover_header (epoch_key : EpochSealingKey) (bs : bytes) : SealResult (SegmentHeader * nat) :=
  _ ← guard (length bs <? SEGMENT_HEADER_LEN)%nat SealError.CorruptSegment;
  header ← header_decode (take SEGMENT_HEADER_LEN bs);
  _ ← guard (negb (sh_key_id header ≟ sk_key_id epoch_key)
             || negb (epoch_key_commitment (wrapped_epoch_key header) ≟ sealing_commitment epoch_key)) SealError.InvalidKey;
  frame_len ← frame_len (purpose (sh_key_id header));
  Ok (header, frame_len).

(** What follows the loop: publish a complete segment, or truncate and resume. *)
Definition recover_finish (io : Io) (epoch_key : EpochSealingKey) (bs : bytes) (header : SegmentHeader) (d : SegmentDir)
  (stop : SealResult LoopEnd) : option (SealResult Recovery * SegmentDir) :=
  match stop with
  | Err e => Some (Err e, d)
  | Ok FooterFound =>
      verified ← verify_segment_bytes bs;
      match verified with
      | Err e => Some (Err e, d)
      | Ok verified =>
          match publish io d with
          | (Err e, d) => Some (Err e, d)
          | (Ok _, d) => Some (Ok (Finalized verified), d)
          end
      end
  | Ok (Stopped offset count first_record_hash previous_hash) =>
      (* [set_len(offset)], then [sync_all] *)
      match sync_file io (with_open d (take offset bs)) with
      | (Err e, d) => Some (Err e, d)
      | (Ok _, d) =>
          Some (Ok (Resumed {| sw_header := header; sw_epoch_key := epoch_key; sw_count := count;
                               sw_first_record_hash := first_record_hash; sw_previous_hash := previous_hash |}), d)
      end
  end.

Definition recover_open (io : Io) (epoch_key : EpochSealingKey) (bs : bytes) (d : SegmentDir)
  : option (SealResult Recovery * SegmentDir) :=
  match recover_header epoch_key bs with
  | Err e => Some (Err e, d)
  | Ok (header, frame_len) =>
      header_hash ← header_hash header;
      stop ← recover_loop (S (length bs)) header frame_len (drop SEGMENT_HEADER_LEN bs) SEGMENT_HEADER_LEN 0
               (zeroes 32) header_hash;
      recover_finish io epoch_key bs header d stop
  end.

Definition recover_segment_for_platform (supported : bool) (io : Io) (epoch_key : EpochSealingKey) (d : SegmentDir)
  : option (SealResult Recovery * SegmentDir) :=
  match require_persistent_writer_platform supported with
  | Err e => Some (Err e, d)
  | Ok _ =>
      published ← verify_segment io d;
      match published with
      | Ok segment => Some (Ok (Finalized segment), d)
      | Err (SealError.Io SealError.NotFound) =>
          match open_file d with
          | None => Some (Err (SealError.Io SealError.NotFound), d)
          | Some bs =>
              match _ ← io_checks io; guard (MAX_SEGMENT_BYTES <? Z.of_nat (length bs)) SealError.LimitExceeded with
              | Err e => Some (Err e, d)
              | Ok _ => recover_open io epoch_key bs d
              end
          end
      | Err e => Some (Err e, d)
      end
  end.
End Writer.
