(* ===== verification/SegmentRecovery.v ===== *)
(** The segment writer keeps a valid chain on disk, and recovery restores it after a crash:
    acknowledged records survive, only an incomplete tail is dropped. *)
From S2P Require Import Prelude Text Crypto Compliance Envelope Layout TraceRecord TraceKey Segment SegmentChain SegmentWriter.

(** * The writer's invariant *)

Section Writer.
Context {C : Crypto} {EC : EnvelopeCrypto} {MC : Montgomery}.

(** Writer [w] stands after the frames [fs] of the segment whose header is encoded by [hb]. *)
Record writer_at (w : SegmentWriter) (hb : bytes) (n : nat) (fs : list SealedFrame) : Prop := {
  wa_header : header_encode (sw_header w) = Ok hb;
  wa_wf : header_wf (sw_header w);
  wa_len : plaintext_len (purpose (sh_key_id (sw_header w))) = Ok n;
  wa_count : sw_count w = Z.of_nat (length fs);
  wa_bound : Z.of_nat (length fs) <= max_records (sw_header w);
  wa_sized : sized n fs;
  wa_chained : chained 0 (sha256 hb) fs;
  wa_first : sw_first_record_hash w = first_hash fs;
  wa_previous : sw_previous_hash w = last_hash (sha256 hb) fs;
}.

(** The bytes of an open segment. *)
Definition open_bytes (hb : bytes) (fs : list SealedFrame) : bytes := hb ++ frames_bytes fs.

Lemma writer_at_max w hb n fs : writer_at w hb n fs -> Z.of_nat (length fs) <= 10000 /\ (n <= 205)%nat.
Proof.
  intros W. destruct (header_encode_validate _ _ (wa_header _ _ _ _ W)) as (_ & Hm & _ & n' & Hn & Hle).
  unfold MAX_SEGMENT_RECORDS in Hm. pose proof (wa_bound _ _ _ _ W). pose proof (wa_len _ _ _ _ W) as Hl.
  split; [lia|]. by assert (n = n') as -> by congruence.
Qed.

(** The byte bound holds for every segment the writer can build. *)
Lemma open_bytes_bound w hb n fs :
  writer_at w hb n fs -> Z.of_nat (length (open_bytes hb fs)) + Z.of_nat SEGMENT_FOOTER_LEN <= MAX_SEGMENT_BYTES.
Proof.
  intros W. destruct (writer_at_max _ _ _ _ W) as [Hl Hn]. unfold open_bytes.
  rewrite length_app, (length_header_encode _ _ (wa_header _ _ _ _ W)), (length_frames_bytes n) by apply W.
  unfold SEGMENT_HEADER_LEN, SEGMENT_FOOTER_LEN, MAX_SEGMENT_BYTES, frame_size. nia.
Qed.

Lemma first_hash_snoc fs f : first_hash (fs ++ [f]) = if Z.of_nat (length fs) + 1 =? 1 then chain_hash f else first_hash fs.
Proof. destruct fs as [|g fs]; [done|]. cbn [app first_hash length]. by rewrite (proj2 (Z.eqb_neq _ 1)) by lia. Qed.

Lemma open_bytes_snoc hb fs f : open_bytes hb (fs ++ [f]) = open_bytes hb fs ++ frame_bytes f.
Proof. unfold open_bytes. rewrite frames_bytes_app, <-(assoc_L (++)). unfold frames_bytes at 2. simpl. by rewrite app_nil_r. Qed.

(** The frame [append_plaintext] adds. *)
Definition next_frame (w : SegmentWriter) (nonce : arr 24) (ciphertext : bytes) : SealedFrame :=
  {| sequence := sw_count w; fr_nonce := nonce; fr_ciphertext := ciphertext;
     chain_hash := frame_chain_hash (sw_count w) (sw_previous_hash w) nonce ciphertext |}.

(** The three ways a call of [append_plaintext] ends: refused without a write, a torn write
    with the writer as it was, or the frame appended. *)
Lemma append_plaintext_cases io nonce plaintext w d r w' d' :
  append_plaintext io nonce plaintext w d = (r, w', d') ->
  (exists e, r = Err e /\ w' = w /\ d' = d) \/
  (exists ct, seal_plaintext w nonce plaintext = Ok ct /\
     let f := next_frame w nonce ct in
     let written k := with_open d (default [] (open_file d) ++ take k (frame_bytes f)) in
     (exists k e, r = Err e /\ w' = w /\ d' = written k) \/
     (r = Ok (chain_hash f) /\ d' = with_open d (default [] (open_file d) ++ frame_bytes f) /\
      w' = {| sw_header := sw_header w; sw_epoch_key := sw_epoch_key w; sw_count := sw_count w + 1;
              sw_first_record_hash := if sw_count w + 1 =? 1 then chain_hash f else sw_first_record_hash w;
              sw_previous_hash := chain_hash f |})).
Proof.
  unfold append_plaintext. destruct (seal_plaintext w nonce plaintext) as [ct|e] eqn:Hs.
  - cbv zeta. unfold write_all. destruct (io_written io) as [k|]; intros H; simplify_eq.
    + right. exists ct. split; [done|]. left. by exists k, (SealError.Io SealError.OtherKind).
    + right. exists ct. split; [done|]. by right.
  - intros H. simplify_eq. left. eauto.
Qed.

Lemma seal_plaintext_Ok w nonce plaintext ct :
  seal_plaintext w nonce plaintext = Ok ct ->
  sw_count w < max_records (sw_header w) /\ sw_count w < MAX_SEGMENT_RECORDS /\
  exists aad, frame_aad (segment_id (sw_header w)) (sh_key_id (sw_header w)) (sw_count w) (sw_previous_hash w) = Ok aad /\
    xchacha_encrypt (secret (sw_epoch_key w)) nonce aad plaintext = Some ct.
Proof. unfold seal_plaintext. intros H. inv_ok. b2p. eauto. Qed.

Context {SL : TraceSealLaws}.

Lemma seal_length w nonce plaintext ct :
  (length plaintext <= 205)%nat -> seal_plaintext w nonce plaintext = Ok ct -> length ct = (length plaintext + 16)%nat.
Proof.
  intros Hl H. apply seal_plaintext_Ok in H as (_ & _ & aad & _ & He).
  destruct (frame_aead_total (secret (sw_epoch_key w)) nonce aad plaintext) as (c & Hc & L); [compute_pows; lia|]. congruence.
Qed.

(** A successful append extends the chain by one frame. *)
Lemma append_extends io nonce plaintext w d hb n fs h w' d' :
  writer_at w hb n fs -> length plaintext = n -> append_plaintext io nonce plaintext w d = (Ok h, w', d') ->
  exists ct, seal_plaintext w nonce plaintext = Ok ct /\ sw_epoch_key w' = sw_epoch_key w /\ sw_header w' = sw_header w /\
    writer_at w' hb n (fs ++ [next_frame w nonce ct]) /\
    d' = with_open d (default [] (open_file d) ++ frame_bytes (next_frame w nonce ct)).
Proof.
  intros W Hl H. destruct (writer_at_max _ _ _ _ W) as [_ Hn].
  apply append_plaintext_cases in H as [(e & ? & _)|(ct & Hs & [(k & e & ? & _)|(_ & -> & ->)])]; [done..|].
  exists ct. split; [done|]. split; [done|]. split; [done|]. split; [|done].
  pose proof (seal_length w nonce plaintext ct ltac:(lia) Hs) as Lc. apply seal_plaintext_Ok in Hs as (Hm & _ & _).
  destruct W as [Hh Wh Hp Hc Hb Hz Hch Hf Hprev].
  split; cbn [sw_header sw_count sw_first_record_hash sw_previous_hash sw_epoch_key]; try done.
  - rewrite length_app, Hc. simpl. lia.
  - rewrite length_app. simpl. lia.
  - apply Forall_app. split; [done|]. apply Forall_singleton. cbn. lia.
  - apply chained_app. split; [done|]. cbn [chained next_frame sequence chain_hash fr_nonce fr_ciphertext]. rewrite Hc, Hprev. done.
  - rewrite first_hash_snoc, Hc, Hf. done.
  - rewrite last_hash_app. done.
Qed.
End Writer.

(** * Creation and finalization *)

Section Lifecycle.
Context {C : Crypto} {EC : EnvelopeCrypto} {MC : Montgomery}.

Lemma create_at sup io sid eph non key cpk spk o m d w d' :
  create_for_platform sup io sid eph non key cpk spk o m d = (Ok w, d') -> header_wf (sw_header w) ->
  sw_epoch_key w = key /\ sh_key_id (sw_header w) = sk_key_id key /\
  key_wrap key cpk eph non = Ok (wrapped_epoch_key (sw_header w)) /\
  exists hb n, writer_at w hb n [] /\ d' = {| final_file := None; open_file := Some hb; synced := SEGMENT_HEADER_LEN |}.
Proof.
  unfold create_for_platform. intros H Wh. destruct (_ ≫= _) as [[h hb]|e] eqn:E; [|done].
  apply bind_Ok in E as (? & _ & E). apply bind_Ok in E as ([h' hb'] & Hc & E). apply bind_Ok in E as (? & _ & E).
  apply bind_Ok in E as (? & Hf & E). apply bind_Ok in E as (? & Ho & E). inv_ok. simplify_eq.
  destruct (final_file d) eqn:Ef; [done|]. unfold create_header in Hc. inv_ok. simplify_eq.
  unfold write_all in H. destruct (io_written io); [done|]. cbn [open_file default] in H. rewrite app_nil_l in H.
  unfold sync_file in H. destruct (io_synced io); [|done]. apply pair_equal_spec in H as [H <-]. apply Ok_inj in H. subst w.
  split; [done|]. split; [done|]. split; [done|]. exists hb.
  destruct (header_encode_validate _ _ Ha3) as (Hv & Hm & Hk & n & Hn & _). exists n. split.
  - split; try done; [apply (hw_max _ Wh)|apply Forall_nil_2].
  - cbn. by rewrite (length_header_encode _ _ Ha3).
Qed.

Context {CL : CryptoLaws}.

(** The ways [finalize_durable] ends: with the frames still in the open file, followed by any
    part of the footer, or with a file published that verifies and holds exactly them. *)
Lemma finalize_cases io closed signer w d hb n fs r d' :
  writer_at w hb n fs -> final_file d = None -> open_file d = Some (open_bytes hb fs) -> in_uint 64 closed ->
  finalize_durable io closed signer w d = Some (r, d') ->
  (exists e t, r = Err e /\ final_file d' = None /\ open_file d' = Some (open_bytes hb fs ++ t) /\
     (synced d' = synced d \/ synced d' = length (open_bytes hb fs ++ t))) \/
  (exists ft, let s := {| vs_header := sw_header w; vs_frames := fs; vs_footer := ft |} in
     valid_segment s hb n /\ d' = {| final_file := Some (segment_bytes s hb); open_file := None; synced := 0 |} /\
     (r = Ok ft \/ exists e, r = Err e)).
Proof.
  intros W Hf Ho Wc H. destruct (writer_at_max _ _ _ _ W) as [Hl Hn]. unfold finalize_durable in H.
  destruct (_ ≫= _) as [u|e] eqn:E.
  2: { simplify_eq. left. exists e, []. rewrite app_nil_r. auto. }
  rewrite Ho in E. cbn [from_option] in E. inv_ok. b2p.
  unfold header_hash in H. rewrite (wa_header _ _ _ _ W) in H. cbn [ok fmap option_fmap option_map mbind option_bind] in H.
  set (ft := {| record_count := _ |}) in H. injection H as H. unfold write_all in H. rewrite Ho in H. cbn [from_option] in H. unfold id in H.
  destruct (io_written io) as [k|]; [simplify_eq; left; eexists _, _; cbn; eauto|].
  unfold sync_file in H. cbn [with_open open_file final_file from_option] in H. unfold id in H.
  destruct (io_synced io) as [|e]; [|simplify_eq; left; eexists _, _; cbn; eauto].
  unfold publish in H. cbn [final_file open_file] in H. rewrite Hf in H.
  assert (d' = {| final_file := None; open_file := Some (open_bytes hb fs ++ footer_encode ft);
                  synced := length (open_bytes hb fs ++ footer_encode ft) |} /\ (exists e, r = Err e) \/
          d' = {| final_file := Some (open_bytes hb fs ++ footer_encode ft); open_file := None; synced := 0 |} /\
          (r = Ok ft \/ exists e, r = Err e)) as [[-> [e ->]]|[-> Hr]] by (destruct (io_published io); simplify_eq; eauto).
  { left. eexists _, _. cbn. eauto. }
  right. exists ft. split; [|split; [unfold segment_bytes, open_bytes; cbn [vs_frames vs_footer]; by rewrite (assoc_L (++))|done]].
  split; cbn [vs_header vs_frames vs_footer ft record_count first_record_hash final_chain_hash closed_at_ms ft_signature];
    try apply W; [|done|].
  - split; [|done]. cbn [record_count ft]. rewrite (wa_count _ _ _ _ W). unfold in_uint. compute_pows. lia.
  - match goal with Hk : public_key signer = _ |- _ => rewrite <-Hk end. apply sign_verifies.
Qed.
End Lifecycle.

(** * The recovery loop *)

Section Loop.
Context {C : Crypto}.

(** No frame starts with the footer's magic: its number is below [2^56]. *)
Lemma frame_not_magic f r : 0 <= sequence f < 2 ^ 32 -> take 8 (frame_bytes f ++ r) <> FOOTER_MAGIC.
Proof.
  intros Hs E. unfold frame_bytes in E. rewrite <-!(assoc_L (++)) in E. rewrite take_app_length' in E by by rewrite length_be_bytes.
  apply (f_equal from_be_bytes) in E. rewrite from_be_bytes_id in E by (unfold in_uint; simpl; compute_pows; lia).
  vm_compute (from_be_bytes FOOTER_MAGIC) in E. compute_pows. lia.
Qed.

(** Whole frames at the front of the bytes are consumed one by one. *)
Lemma recover_loop_frames h n gs : forall fuel fs tail off prev0,
  plaintext_len (purpose (sh_key_id h)) = Ok n -> sized n gs -> chained 0 prev0 (fs ++ gs) ->
  Z.of_nat (length (fs ++ gs)) <= max_records h -> max_records h <= MAX_SEGMENT_RECORDS ->
  recover_loop (length gs + fuel) h (frame_size n) (frames_bytes gs ++ tail) off (Z.of_nat (length fs)) (first_hash fs) (last_hash prev0 fs) =
  recover_loop fuel h (frame_size n) tail (off + length gs * frame_size n) (Z.of_nat (length (fs ++ gs)))
    (first_hash (fs ++ gs)) (last_hash prev0 (fs ++ gs)).
Proof.
  induction gs as [|f gs IH]; intros fuel fs tail off prev0 Hp Hz Hc Hm HM.
  - rewrite app_nil_r. cbn. by rewrite Nat.add_0_r.
  - apply Forall_cons in Hz as [Hf Hz]. pose proof (length_frame_bytes n f Hf) as Lf.
    pose proof Hc as Hc'. apply chained_app in Hc' as [_ (Hs & Hh & _)]. rewrite Z.add_0_l in Hs. unfold MAX_SEGMENT_RECORDS in HM.
    rewrite length_app in Hm. cbn [length] in Hm.
    assert (frames_bytes (f :: gs) ++ tail = frame_bytes f ++ frames_bytes gs ++ tail) as ->
      by (unfold frames_bytes; cbn [map concat]; by rewrite (assoc_L (++))).
    cbn [length Nat.add recover_loop]. unfold frame_size in Lf at 1.
    rewrite (proj2 (Nat.eqb_neq _ 0)) by (rewrite length_app; lia).
    rewrite (bool_decide_false (take 8 _ = _)) by (apply frame_not_magic; compute_pows; lia). rewrite andb_false_r.
    rewrite (proj2 (Nat.ltb_ge _ (frame_size n))) by (rewrite length_app; unfold frame_size; lia).
    rewrite take_app_length', drop_app_length' by (unfold frame_size; lia).
    rewrite (proj2 (frame_codec _ n (frame_bytes f) f Hp)) by (split; [rewrite Hs; unfold in_uint; compute_pows; lia|done]).
    cbn [mbind result_bind]. rewrite (proj2 (verify_frame_Ok f _ _ tt)) by done. cbn [mbind result_bind].
    rewrite checked_small by (compute_pows; lia). cbn [ok_or mbind result_bind].
    rewrite (proj2 (Z.ltb_ge (max_records h) _)), (proj2 (Z.ltb_ge MAX_SEGMENT_RECORDS _)) by (unfold MAX_SEGMENT_RECORDS; lia).
    cbn [orb guard mbind result_bind]. replace (fs ++ f :: gs) with ((fs ++ [f]) ++ gs) by by rewrite <-(assoc_L (++)).
    specialize (IH fuel (fs ++ [f]) tail (off + frame_size n)%nat prev0 Hp Hz).
    rewrite <-(assoc_L (++)) in IH. cbn [app] in IH. specialize (IH Hc).
    rewrite first_hash_snoc, last_hash_app, (length_app fs [f]), Nat2Z.inj_add in IH. cbn [length last_hash] in IH.
    change (Z.of_nat 1) with 1 in IH. rewrite IH by (rewrite ?length_app; cbn [length]; unfold MAX_SEGMENT_RECORDS; lia). rewrite <-(assoc_L (++)). cbn [app]. f_equal. lia.
Qed.
(** Enough fuel: every turn consumes a frame. *)
Lemma recover_loop_total h n fuel : forall rest off cnt first prev,
  (length rest < fuel)%nat -> is_Some (recover_loop fuel h (frame_size n) rest off cnt first prev).
Proof.
  induction fuel as [|fuel IH]; intros rest off cnt first prev Hl; [lia|]. cbn [recover_loop].
  destruct (length rest =? 0)%nat; [done|]. destruct (_ && _).
  { destruct (_ =? SEGMENT_FOOTER_LEN)%nat; [done|]. destruct (_ <? _)%nat; done. }
  destruct (length rest <? frame_size n)%nat eqn:E; [done|]. b2p. destruct (_ ≫= _) as [[f c]|e]; [|done].
  apply IH. rewrite length_drop. unfold frame_size in *. lia.
Qed.

(** What the loop, standing after the frames [fs], accepts from any bytes [rest]: chained
    frames up to an incomplete tail, or up to what looks like a footer. *)
Definition loop_result (h : SegmentHeader) (n off : nat) (fs : list SealedFrame) (prev0 : arr 32) (rest : bytes)
  (e : LoopEnd) : Prop :=
  exists gs tail, rest = frames_bytes gs ++ tail /\ sized n (fs ++ gs) /\ chained 0 prev0 (fs ++ gs) /\
    Z.of_nat (length (fs ++ gs)) <= max_records h /\
    match e with
    | FooterFound => length tail = SEGMENT_FOOTER_LEN
    | Stopped off' cnt first prev =>
        (length tail < frame_size n)%nat /\ off' = (off + length gs * frame_size n)%nat /\
        cnt = Z.of_nat (length (fs ++ gs)) /\ first = first_hash (fs ++ gs) /\ prev = last_hash prev0 (fs ++ gs)
    end.

Lemma loop_stopped h n off fs prev0 rest :
  sized n fs -> chained 0 prev0 fs -> Z.of_nat (length fs) <= max_records h -> (length rest < frame_size n)%nat ->
  loop_result h n off fs prev0 rest (Stopped off (Z.of_nat (length fs)) (first_hash fs) (last_hash prev0 fs)).
Proof.
  intros Hz Hc Hm Hl. exists [], rest. rewrite app_nil_r. do 4 (split; [done|]). split; [done|]. split; [simpl; lia|done].
Qed.

(** A footer is shorter than a frame. *)
Lemma footer_lt_frame p n : plaintext_len p = Ok n -> (SEGMENT_FOOTER_LEN < frame_size n)%nat.
Proof.
  unfold plaintext_len, SEGMENT_FOOTER_LEN, frame_size. destruct p; intros H; inv_ok; subst n;
    unfold TRACE_RECORD_LEN, IDENTITY_TRACE_RECORD_LEN; lia.
Qed.

Lemma recover_loop_sound h n fuel : forall rest off fs prev0 e,
  plaintext_len (purpose (sh_key_id h)) = Ok n -> sized n fs -> chained 0 prev0 fs ->
  Z.of_nat (length fs) <= max_records h -> max_records h <= MAX_SEGMENT_RECORDS ->
  recover_loop fuel h (frame_size n) rest off (Z.of_nat (length fs)) (first_hash fs) (last_hash prev0 fs) = Some (Ok e) ->
  loop_result h n off fs prev0 rest e.
Proof.
  induction fuel as [|fuel IH]; intros rest off fs prev0 e Hp Hz Hc Hm HM H; [done|].
  pose proof (loop_stopped h n off fs prev0 rest Hz Hc Hm) as Hstop. pose proof (footer_lt_frame _ _ Hp) as Hlt.
  cbn [recover_loop] in H. unfold MAX_SEGMENT_RECORDS in HM.
  destruct (length rest =? 0)%nat eqn:E0; b2p; [injection H as <-; apply Hstop; lia|].
  destruct (_ && _) eqn:Emagic.
  { destruct (_ =? SEGMENT_FOOTER_LEN)%nat eqn:Ef; b2p.
    - injection H as <-. exists [], rest. by rewrite app_nil_r.
    - destruct (_ <? SEGMENT_FOOTER_LEN)%nat eqn:El; b2p; [|done]. injection H as <-. apply Hstop. lia. }
  destruct (length rest <? frame_size n)%nat eqn:El; b2p; [injection H as <-; apply Hstop; lia|]. clear Hstop.
  destruct (_ ≫= _) as [[f c]|e'] eqn:E; [|done]. apply bind_Ok in E as (f' & Hf & E). apply bind_Ok in E as ([] & Hv & E).
  apply bind_Ok in E as (c' & Hadd & E). apply bind_Ok in E as (? & Hg & E). apply Ok_inj in E. simplify_eq.
  apply ok_or_Ok in Hadd. apply guard_Ok in Hg. b2p. rewrite checked_small in Hadd by (compute_pows; lia). simplify_eq.
  apply (frame_codec _ n) in Hf as (_ & Lf & Hb); [|done]. apply verify_frame_Ok in Hv as [Hs Hh].
  pose proof (first_hash_snoc fs f) as F1. rewrite <-F1 in H.
  replace (Z.of_nat (length fs) + 1) with (Z.of_nat (length (fs ++ [f]))) in * by (rewrite length_app; simpl; lia).
  replace (chain_hash f) with (last_hash prev0 (fs ++ [f])) in H by by rewrite last_hash_app.
  apply IH in H as (gs & tail & Hr & Hz' & Hc' & Hm' & He); [|done| | |done|done].
  - exists (f :: gs), tail. rewrite <-(assoc_L (++)) in *. cbn [app] in *. split.
    + unfold frames_bytes. cbn [map concat]. rewrite <-(assoc_L (++)). fold (frames_bytes gs). rewrite <-Hb, <-Hr.
      symmetry. apply take_drop.
    + split; [done|]. split; [done|]. split; [done|]. destruct e; [done|].
      destruct He as (? & -> & He). split; [done|]. split; [cbn [length]; lia|done].
  - apply Forall_app. split; [done|]. by apply Forall_singleton.
  - apply chained_app. split; [done|]. cbn. by rewrite Z.add_0_l.
Qed.
End Loop.

(** * Recovery of an open segment *)

Section Recover.
Context {C : Crypto} {EC : EnvelopeCrypto} {MC : Montgomery}.

Lemma frame_bytes_inj n f f' r r' :
  length (fr_ciphertext f) = (n + 16)%nat -> length (fr_ciphertext f') = (n + 16)%nat ->
  in_uint 64 (sequence f) -> in_uint 64 (sequence f') -> frame_bytes f ++ r = frame_bytes f' ++ r' -> f = f' /\ r = r'.
Proof.
  intros L L' S S' E. apply app_inj_len in E as [E ->]; [|by rewrite !(length_frame_bytes n)]. split; [|done].
  unfold frame_bytes in E. change 64 with (8 * Z.of_nat 8) in S, S'.
  apply be_app_inj in E as [E1 E]; [|done..]. apply arr_app_inj in E as [E2 E]. apply app_inj_len in E as [E3 E]; [|congruence].
  apply vec_to_list_inj2 in E. destruct f, f'; simpl in *. congruence.
Qed.

Lemma frames_bytes_prefix n a : forall b seq p p' r,
  0 <= seq -> seq + Z.of_nat (length b) <= 2 ^ 32 -> (length a <= length b)%nat ->
  sized n a -> sized n b -> chained seq p a -> chained seq p' b ->
  frames_bytes a ++ r = frames_bytes b -> a `prefix_of` b.
Proof.
  induction a as [|f a IH]; intros [|g b] seq p p' r H0 Hs Hl Ha Hb Ca Cb E; cbn [length] in *; try lia;
    [apply prefix_nil..|].
  apply Forall_cons in Ha as [Lf Ha]. apply Forall_cons in Hb as [Lg Hb].
  destruct Ca as (Sf & _ & Ca), Cb as (Sg & _ & Cb). unfold frames_bytes in E. cbn [map concat] in E. rewrite <-(assoc_L (++)) in E.
  apply (frame_bytes_inj n) in E as [-> E]; [|done|done|unfold in_uint; compute_pows; lia..].
  apply prefix_cons, (IH b (seq + 1) (chain_hash g) (chain_hash g) r); done || lia.
Qed.

Definition key_matches (key : EpochSealingKey) (h : SegmentHeader) : Prop :=
  sk_key_id key = sh_key_id h /\ sealing_commitment key = epoch_key_commitment (wrapped_epoch_key h).

(** The outcomes of recovering an open file that starts with the complete frames [fs] and
    goes on with any bytes [tail]. *)
Definition recovered (w : SegmentWriter) (key : EpochSealingKey) (hb : bytes) (n : nat) (fs : list SealedFrame) (tail : bytes)
  (d : SegmentDir) (r : SealResult Recovery) (d' : SegmentDir) : Prop :=
  let truncated gs := with_open d (open_bytes hb (fs ++ gs)) in
  let renamed := {| final_file := open_file d; open_file := None; synced := 0 |} in
  let valid s := valid_segment s hb n /\ vs_header s = sw_header w /\ open_bytes hb fs ++ tail = segment_bytes s hb
                 /\ fs `prefix_of` vs_frames s /\ final_file d = None in
  match r with
  | Ok (Resumed w') =>
      exists gs rest, tail = frames_bytes gs ++ rest /\ (length rest < frame_size n)%nat /\ writer_at w' hb n (fs ++ gs) /\
        sw_epoch_key w' = key /\ sw_header w' = sw_header w /\
        d' = {| final_file := final_file d; open_file := Some (open_bytes hb (fs ++ gs));
                synced := length (open_bytes hb (fs ++ gs)) |}
  | Ok (Finalized s) => valid s /\ d' = renamed
  | Err _ =>
      d' = d \/ (exists gs rest, tail = frames_bytes gs ++ rest /\ sized n (fs ++ gs) /\ chained 0 (sha256 hb) (fs ++ gs)
                   /\ Z.of_nat (length (fs ++ gs)) <= max_records (sw_header w) /\ d' = truncated gs)
      \/ (exists s, valid s /\ d' = renamed)
  end.

Lemma recover_header_of w key hb n fs tail :
  writer_at w hb n fs -> key_matches key (sw_header w) ->
  recover_header key (open_bytes hb fs ++ tail) = Ok (sw_header w, frame_size n).
Proof.
  intros W [Hk Hc]. pose proof (length_header_encode _ _ (wa_header _ _ _ _ W)) as Lh. unfold recover_header, open_bytes.
  rewrite (proj2 (Nat.ltb_ge _ _)) by (rewrite !length_app; lia). cbn [guard mbind result_bind].
  rewrite <-(assoc_L (++)), <-Lh, take_app_length, (header_encode_decode _ _ (wa_wf _ _ _ _ W) (wa_header _ _ _ _ W)).
  cbn [mbind result_bind]. rewrite Hk, Hc, !bool_decide_true by done. cbn [negb orb guard mbind result_bind].
  by rewrite (plaintext_len_frame _ _ (wa_len _ _ _ _ W)).
Qed.

(** A footer found after whole frames closes exactly those frames. *)
Lemma closed_frames w hb n fs gs rest s :
  writer_at w hb n fs -> sized n (fs ++ gs) -> chained 0 (sha256 hb) (fs ++ gs) -> length rest = SEGMENT_FOOTER_LEN ->
  verify_segment_bytes (open_bytes hb fs ++ frames_bytes gs ++ rest) = Some (Ok s) ->
  valid_segment s hb n /\ vs_header s = sw_header w /\
  open_bytes hb fs ++ frames_bytes gs ++ rest = segment_bytes s hb /\ fs `prefix_of` vs_frames s.
Proof.
  intros W Hz Hc He V. pose proof (length_header_encode _ _ (wa_header _ _ _ _ W)) as Lh.
  destruct (header_encode_validate _ _ (wa_header _ _ _ _ W)) as (_ & HM & _).
  apply verify_segment_bytes_sound in V as (hb' & n' & V & Eb).
  assert (hb' = hb) as ->.
  { unfold open_bytes, segment_bytes in Eb. rewrite <-!(assoc_L (++)) in Eb. apply app_inj_len in Eb as [Eb _]; [done|].
    by rewrite Lh, (length_header_encode _ _ (sv_header _ _ _ V)). }
  assert (vs_header s = sw_header w) as Eh.
  { pose proof (header_encode_decode _ _ (wa_wf _ _ _ _ W) (wa_header _ _ _ _ W)) as D1.
    pose proof (header_encode_decode _ _ (sv_header_wf _ _ _ V) (sv_header _ _ _ V)) as D2. congruence. }
  assert (n' = n) as ->. { pose proof (sv_purpose _ _ _ V) as Hp. rewrite Eh, (wa_len _ _ _ _ W) in Hp. by apply Ok_inj in Hp. }
  split; [done|]. split; [done|]. split; [done|].
  assert (frames_bytes (fs ++ gs) = frames_bytes (vs_frames s)) as Ef.
  { unfold open_bytes, segment_bytes in Eb. rewrite <-!(assoc_L (++)) in Eb. apply app_inv_head in Eb.
    rewrite (assoc_L (++)), <-frames_bytes_app in Eb.
    apply app_inj_2 in Eb as [Eb _]; [done|]. by rewrite He, length_footer_encode. }
  assert (length (fs ++ gs) = length (vs_frames s)) as El.
  { apply (f_equal length) in Ef. rewrite !(length_frames_bytes n) in Ef by (done || apply V). unfold frame_size in Ef. nia. }
  etrans; [by apply prefix_app_r|].
  apply (frames_bytes_prefix n (fs ++ gs) (vs_frames s) 0 (sha256 hb) (sha256 hb) []); rewrite ?app_nil_r; try (done || apply V || lia).
  pose proof (sv_bound _ _ _ V) as B. rewrite Eh in B. unfold MAX_SEGMENT_RECORDS in HM. compute_pows. lia.
Qed.

(** Recovery runs past the complete frames and goes on at the tail. *)
Lemma recover_open_at io w key hb n fs tail d :
  writer_at w hb n fs -> key_matches key (sw_header w) ->
  exists fuel, (length tail < fuel)%nat /\
    recover_open io key (open_bytes hb fs ++ tail) d =
    recover_loop fuel (sw_header w) (frame_size n) tail (SEGMENT_HEADER_LEN + length fs * frame_size n)
      (Z.of_nat (length fs)) (first_hash fs) (last_hash (sha256 hb) fs)
    ≫= recover_finish io key (open_bytes hb fs ++ tail) (sw_header w) d.
Proof.
  intros W Hkey. pose proof (length_header_encode _ _ (wa_header _ _ _ _ W)) as Lh.
  destruct (header_encode_validate _ _ (wa_header _ _ _ _ W)) as (_ & HM & _).
  exists (S (length (open_bytes hb fs ++ tail)) - length fs)%nat.
  assert (length fs <= length (frames_bytes fs))%nat as Hfl by (rewrite (length_frames_bytes n) by apply W; unfold frame_size; nia).
  split; [unfold open_bytes; rewrite !length_app; lia|].
  unfold recover_open. rewrite (recover_header_of w key hb n fs tail W Hkey). unfold header_hash. rewrite (wa_header _ _ _ _ W).
  cbn [ok fmap option_fmap option_map mbind option_bind].
  assert (drop SEGMENT_HEADER_LEN (open_bytes hb fs ++ tail) = frames_bytes fs ++ tail) as ->
    by (unfold open_bytes; rewrite <-(assoc_L (++)), <-Lh; apply drop_app_length).
  pose proof (recover_loop_frames (sw_header w) n fs (S (length (open_bytes hb fs ++ tail)) - length fs) [] tail SEGMENT_HEADER_LEN
    (sha256 hb) (wa_len _ _ _ _ W) (wa_sized _ _ _ _ W) (wa_chained _ _ _ _ W) (wa_bound _ _ _ _ W) HM) as EL.
  cbn [app length first_hash last_hash] in EL. change (Z.of_nat 0) with 0 in EL.
  replace (length fs + _)%nat with (S (length (open_bytes hb fs ++ tail))) in EL by (unfold open_bytes; rewrite !length_app; lia).
  by rewrite EL.
Qed.

(** The bytes up to the end of the frames found. *)
Lemma take_open hb n fs gs rest :
  length hb = SEGMENT_HEADER_LEN -> sized n (fs ++ gs) ->
  take (SEGMENT_HEADER_LEN + length fs * frame_size n + length gs * frame_size n) (open_bytes hb fs ++ frames_bytes gs ++ rest)
  = open_bytes hb (fs ++ gs).
Proof.
  intros Lh Hz. unfold open_bytes. rewrite (assoc_L (++)), <-(assoc_L (++) hb), <-frames_bytes_app. apply take_app_length'.
  rewrite length_app, Lh, (length_frames_bytes n), length_app by done. lia.
Qed.

Lemma recover_open_spec io w key hb n fs tail d :
  writer_at w hb n fs -> key_matches key (sw_header w) ->
  exists r d', recover_open io key (open_bytes hb fs ++ tail) d = Some (r, d') /\ recovered w key hb n fs tail d r d'.
Proof.
  intros W Hkey. pose proof (length_header_encode _ _ (wa_header _ _ _ _ W)) as Lh.
  destruct (header_encode_validate _ _ (wa_header _ _ _ _ W)) as (_ & HM & _).
  destruct (recover_open_at io w key hb n fs tail d W Hkey) as (fuel & Hfuel & ->).
  destruct (recover_loop_total (sw_header w) n fuel tail (SEGMENT_HEADER_LEN + length fs * frame_size n)
    (Z.of_nat (length fs)) (first_hash fs) (last_hash (sha256 hb) fs) Hfuel) as [[e|err] HL]; rewrite HL;
    cbn [mbind option_bind recover_finish].
  2: { exists (Err err), d. split; [done|]. by left. }
  apply recover_loop_sound in HL; [|apply W..|done]. destruct HL as (gs & rest & -> & Hz & Hc & Hm & He). destruct e as [|off cnt first prev].
  - destruct (verify_segment_bytes_total (open_bytes hb fs ++ frames_bytes gs ++ rest)) as [[s|err] V]; rewrite V; cbn [mbind option_bind].
    2: { exists (Err err), d. split; [done|]. by left. }
    pose proof (closed_frames w hb n fs gs rest s W Hz Hc He V) as Hvalid.
    unfold publish. destruct (final_file d) eqn:Ed.
    { exists (Err SealError.AlreadyExists), d. split; [done|]. by left. }
    destruct (io_published io) as [|e1|e1]; eexists _, _; (split; [done|]).
    + naive_solver.
    + by left.
    + right. right. exists s. naive_solver.
  - destruct He as (Hr & -> & -> & -> & ->).
    cbn [recover_finish]. rewrite take_open by done.
    unfold sync_file, with_open. cbn [open_file final_file default]. destruct (io_synced io) as [|e1]; eexists _, _; (split; [done|]).
    + exists gs, rest. split; [done|]. split; [done|]. split; [|done].
      split; cbn [sw_header sw_count sw_first_record_hash sw_previous_hash]; done || apply W.
    + right. left. exists gs, rest. done.
Qed.
End Recover.
