(* ===== verification/SegmentRuns.v ===== *)
(** The life of one trace segment as a step relation: appends, group commits, failed
    writes, crashes that keep only what was synced, recoveries and finalization, in any
    order.  What was acknowledged is never lost. *)
From S2P Require Import Prelude Text Crypto Compliance Envelope Layout TraceRecord TraceKey Segment SegmentChain SegmentWriter SegmentRecovery.

Section Runs.
Context {C : Crypto} {EC : EnvelopeCrypto} {MC : Montgomery}.

(** The process and its directory.  [nd_writer] is the writer its owner still uses; an owner
    drops it after a failed write or sync.  [nd_pending] lists the chain hashes the appends
    returned since the last sync, [nd_acked] those a successful sync or finalization covered:
    only these may be acknowledged. *)
Record Node := {
  nd_writer : option SegmentWriter;
  nd_dir : SegmentDir;
  nd_pending : list (arr 32);
  nd_acked : list (arr 32);
}.

(** A record of either kind, as [custody.rs] names them, and its append. *)
Inductive DisclosedTraceRecord := Network (r : TraceRecord) | Identity (r : IdentityTraceRecord).
Definition append_record (io : Io) (nonce : arr 24) (r : DisclosedTraceRecord) (w : SegmentWriter) (d : SegmentDir) :=
  match r with
  | Network r => append_network_buffered io nonce r w d
  | Identity r => append_identity_buffered io nonce r w d
  end.

(** A crash keeps the synced bytes of the open file; anything may follow them. *)
Definition crash (tail : bytes) (d : SegmentDir) : SegmentDir :=
  {| final_file := final_file d; open_file := (fun bs => take (synced d) bs ++ tail) <$> open_file d; synced := synced d |}.

Definition dropped (st : Node) (d : SegmentDir) : Node :=
  {| nd_writer := None; nd_dir := d; nd_pending := []; nd_acked := nd_acked st |}.

Inductive step (st : Node) : Node -> Prop :=
  | step_append io nonce r w h w' d' :
      nd_writer st = Some w -> append_record io nonce r w (nd_dir st) = (Ok h, w', d') ->
      step st {| nd_writer := Some w'; nd_dir := d'; nd_pending := nd_pending st ++ [h]; nd_acked := nd_acked st |}
  | step_append_failed io nonce r w e w' d' :
      nd_writer st = Some w -> append_record io nonce r w (nd_dir st) = (Err e, w', d') -> step st (dropped st d')
  | step_sync io w d' :
      nd_writer st = Some w -> sync_data io (nd_dir st) = (Ok tt, d') ->
      step st {| nd_writer := Some w; nd_dir := d'; nd_pending := []; nd_acked := nd_acked st ++ nd_pending st |}
  | step_sync_failed io w e d' :
      nd_writer st = Some w -> sync_data io (nd_dir st) = (Err e, d') -> step st (dropped st d')
  | step_finalize io closed signer w ft d' :
      nd_writer st = Some w -> in_uint 64 closed -> finalize_durable io closed signer w (nd_dir st) = Some (Ok ft, d') ->
      step st {| nd_writer := None; nd_dir := d'; nd_pending := []; nd_acked := nd_acked st ++ nd_pending st |}
  | step_finalize_failed io closed signer w e d' :
      nd_writer st = Some w -> in_uint 64 closed -> finalize_durable io closed signer w (nd_dir st) = Some (Err e, d') ->
      step st (dropped st d')
  | step_crash tail : step st (dropped st (crash tail (nd_dir st)))
  | step_recover_resumed io key w d' :
      recover_segment_for_platform true io key (nd_dir st) = Some (Ok (Resumed w), d') ->
      step st {| nd_writer := Some w; nd_dir := d'; nd_pending := []; nd_acked := nd_acked st |}
  | step_recover_finalized io key s d' :
      recover_segment_for_platform true io key (nd_dir st) = Some (Ok (Finalized s), d') -> step st (dropped st d')
  | step_recover_failed io key e d' :
      recover_segment_for_platform true io key (nd_dir st) = Some (Err e, d') -> step st (dropped st d').

(** A segment just created by [SegmentWriter::create]. *)
Definition started (h : SegmentHeader) (st : Node) : Prop :=
  exists io sid eph non key cpk spk o m d w d',
    create_for_platform true io sid eph non key cpk spk o m d = (Ok w, d') /\ sw_header w = h /\ header_wf h /\
    st = {| nd_writer := Some w; nd_dir := d'; nd_pending := []; nd_acked := [] |}.

Definition reachable (h : SegmentHeader) (st : Node) : Prop := exists st0, started h st0 /\ rtc step st0 st.

(** * The invariant *)

(** [fs] is a chain of frames a segment with header [h] may hold. *)
Record chain_ok (h : SegmentHeader) (hb : bytes) (n : nat) (fs : list SealedFrame) : Prop := {
  co_header : header_encode h = Ok hb;
  co_wf : header_wf h;
  co_len : plaintext_len (purpose (sh_key_id h)) = Ok n;
  co_bound : Z.of_nat (length fs) <= max_records h;
  co_sized : sized n fs;
  co_chained : chained 0 (sha256 hb) fs;
}.

Definition hashes (fs : list SealedFrame) : list (arr 32) := map chain_hash fs.

(** The open file starts with durable frames [fs] that include every acknowledged one; a live
    writer stands after them and the frames [gs] still pending. *)
Definition open_inv (h : SegmentHeader) (hb : bytes) (n : nat) (st : Node) : Prop :=
  exists fs tail, chain_ok h hb n fs /\ final_file (nd_dir st) = None /\
    open_file (nd_dir st) = Some (open_bytes hb fs ++ tail) /\ (length (open_bytes hb fs) <= synced (nd_dir st))%nat /\
    nd_acked st `sublist_of` hashes fs /\
    forall w, nd_writer st = Some w ->
      exists gs, tail = frames_bytes gs /\ writer_at w hb n (fs ++ gs) /\ sw_header w = h /\
        nd_pending st `sublist_of` hashes gs.

(** The published file verifies and includes every acknowledged frame. *)
Definition final_inv (h : SegmentHeader) (hb : bytes) (n : nat) (st : Node) : Prop :=
  exists s, final_file (nd_dir st) = Some (segment_bytes s hb) /\ open_file (nd_dir st) = None /\ valid_segment s hb n /\
    vs_header s = h /\ nd_acked st `sublist_of` hashes (vs_frames s) /\ nd_writer st = None.

Definition node_inv (h : SegmentHeader) (hb : bytes) (n : nat) (st : Node) : Prop :=
  open_inv h hb n st \/ final_inv h hb n st.

Lemma writer_chain w hb n fs : writer_at w hb n fs -> chain_ok (sw_header w) hb n fs.
Proof. intros []. by split. Qed.

(** The writer a chain determines. *)
Definition chain_writer (h : SegmentHeader) (key : EpochSealingKey) (hb : bytes) (fs : list SealedFrame) : SegmentWriter :=
  {| sw_header := h; sw_epoch_key := key; sw_count := Z.of_nat (length fs); sw_first_record_hash := first_hash fs;
     sw_previous_hash := last_hash (sha256 hb) fs |}.

Lemma chain_writer_at h key hb n fs : chain_ok h hb n fs -> writer_at (chain_writer h key hb fs) hb n fs.
Proof. intros []. by split. Qed.

Lemma hashes_app a b : hashes (a ++ b) = hashes a ++ hashes b.
Proof. apply map_app. Qed.

Lemma open_bytes_app hb a b : open_bytes hb (a ++ b) = open_bytes hb a ++ frames_bytes b.
Proof. unfold open_bytes. by rewrite frames_bytes_app, (assoc_L (++)). Qed.

(** Dropping the writer, with any bytes after the durable ones, keeps the invariant. *)
Lemma open_inv_dropped h hb n st fs tail d :
  chain_ok h hb n fs -> nd_acked st `sublist_of` hashes fs -> final_file d = None ->
  open_file d = Some (open_bytes hb fs ++ tail) -> (length (open_bytes hb fs) <= synced d)%nat -> node_inv h hb n (dropped st d).
Proof. intros. left. exists fs, tail. do 5 (split; [done|]). done. Qed.
(** * Preservation *)

Lemma append_record_cases io nonce r w d hb n fs res w' d' :
  writer_at w hb n fs -> append_record io nonce r w d = (res, w', d') ->
  (exists e, res = Err e /\ d' = d) \/
  exists pt, length pt = n /\ append_plaintext io nonce pt w d = (res, w', d').
Proof.
  intros W H. pose proof (wa_len _ _ _ _ W) as Hn. destruct r as [r|r]; cbn [append_record] in H;
    unfold append_network_buffered, append_identity_buffered in H.
  all: destruct (_ ≫= _) as [pt|e] eqn:E; [right|left; simplify_eq; by eexists].
  all: exists pt; split; [|done]; apply bind_Ok in E as (? & Hg & E); apply bind_Ok in E as (? & _ & E); apply guard_Ok in Hg; b2p.
  all: match goal with Hp : purpose _ = _ |- _ => rewrite Hp in Hn end; apply Ok_inj in Hn; subst n.
  - by apply length_trace_encode in E.
  - by apply length_identity_encode in E.
Qed.

Lemma sublist_snoc {A} (l k : list A) x : l `sublist_of` k -> l ++ [x] `sublist_of` k ++ [x].
Proof. intros. by apply sublist_app. Qed.

Context {SL : TraceSealLaws} {CL : CryptoLaws}.

Lemma append_preserves h hb n st io nonce r w e w' d' :
  open_inv h hb n st -> nd_writer st = Some w -> append_record io nonce r w (nd_dir st) = (Ok e, w', d') ->
  open_inv h hb n {| nd_writer := Some w'; nd_dir := d'; nd_pending := nd_pending st ++ [e]; nd_acked := nd_acked st |}.
Proof.
  intros (fs & tail & Hc & Hf & Ho & Hs & Ha & Hw) Ew H. destruct (Hw w Ew) as (gs & -> & W & Eh & Hp).
  apply (append_record_cases _ _ _ _ _ _ _ _ _ _ _ W) in H as [(? & ? & _)|(pt & Lp & H)]; [done|].
  pose proof H as H'. apply append_plaintext_cases in H' as [(? & ? & _)|(ct' & Hs' & [(? & ? & ? & _)|(Ee & _ & _)])]; [done..|].
  apply (append_extends _ _ _ _ _ _ _ _ _ _ _ W Lp) in H as (ct & Hs2 & _ & Eh' & W' & ->).
  assert (ct' = ct) as -> by congruence. apply Ok_inj in Ee.
  exists fs, (frames_bytes (gs ++ [next_frame w nonce ct])). cbn [nd_dir nd_acked nd_writer nd_pending with_open final_file open_file synced].
  do 2 (split; [done|]). rewrite Ho. split.
  { cbn [default]. rewrite frames_bytes_app. unfold frames_bytes at 3. simpl. by rewrite app_nil_r, (assoc_L (++)). }
  do 2 (split; [done|]). intros w1 [= <-]. exists (gs ++ [next_frame w nonce ct]).
  rewrite (assoc_L (++)). split; [done|]. split; [done|]. split; [congruence|].
  rewrite hashes_app, Ee. by apply sublist_snoc.
Qed.

Lemma append_failed_preserves h hb n st io nonce r w e w' d' :
  open_inv h hb n st -> nd_writer st = Some w -> append_record io nonce r w (nd_dir st) = (Err e, w', d') ->
  node_inv h hb n (dropped st d').
Proof.
  intros (fs & tail & Hc & Hf & Ho & Hs & Ha & Hw) Ew H. destruct (Hw w Ew) as (gs & -> & W & Eh & Hp).
  apply (append_record_cases _ _ _ _ _ _ _ _ _ _ _ W) in H as [(? & _ & ->)|(pt & Lp & H)].
  { by eapply open_inv_dropped. }
  apply append_plaintext_cases in H as [(? & _ & _ & ->)|(ct & _ & [(k & ? & _ & _ & ->)|(? & _)])]; [by eapply open_inv_dropped| |done].
  eapply open_inv_dropped; [done|done|done| |done]. cbn [with_open open_file]. rewrite Ho.
  cbn [from_option]. unfold id. by rewrite <-(assoc_L (++)).
Qed.

Lemma sync_preserves h hb n st io w d' :
  open_inv h hb n st -> nd_writer st = Some w -> sync_data io (nd_dir st) = (Ok tt, d') ->
  open_inv h hb n {| nd_writer := Some w; nd_dir := d'; nd_pending := []; nd_acked := nd_acked st ++ nd_pending st |}.
Proof.
  intros (fs & tail & Hc & Hf & Ho & Hs & Ha & Hw) Ew H. destruct (Hw w Ew) as (gs & -> & W & Eh & Hp).
  unfold sync_data, sync_file in H. destruct (io_checks io), (io_synced io); try done. injection H as <-.
  exists (fs ++ gs), []. cbn [nd_dir nd_acked nd_writer nd_pending final_file open_file synced]. rewrite Ho, app_nil_r, open_bytes_app.
  split; [rewrite <-Eh; by apply writer_chain|]. split; [done|]. split; [done|]. split; [done|].
  split; [rewrite hashes_app; by apply sublist_app|].
  intros w1 [= <-]. exists []. rewrite app_nil_r. split; [done|]. split; [done|]. split; [done|]. constructor.
Qed.

Lemma finalize_preserves h hb n st io closed signer w ft d' :
  open_inv h hb n st -> nd_writer st = Some w -> in_uint 64 closed ->
  finalize_durable io closed signer w (nd_dir st) = Some (Ok ft, d') ->
  final_inv h hb n {| nd_writer := None; nd_dir := d'; nd_pending := []; nd_acked := nd_acked st ++ nd_pending st |}.
Proof.
  intros (fs & tail & Hc & Hf & Ho & Hs & Ha & Hw) Ew Hcl H. destruct (Hw w Ew) as (gs & -> & W & Eh & Hp).
  eapply finalize_cases in H as [(? & ? & ? & _)|(ft' & V & -> & _)]; [done| |done|done|by rewrite open_bytes_app|done].
  eexists. cbn [nd_dir nd_acked nd_writer final_file open_file]. split; [done|]. split; [done|]. split; [done|]. split; [done|].
  split; [|done]. cbn [vs_frames]. rewrite hashes_app. by apply sublist_app.
Qed.
(** A finalization that fails leaves the frames on disk, under either name. *)
Lemma finalize_failed_preserves h hb n st io closed signer w e d' :
  open_inv h hb n st -> nd_writer st = Some w -> in_uint 64 closed ->
  finalize_durable io closed signer w (nd_dir st) = Some (Err e, d') -> node_inv h hb n (dropped st d').
Proof.
  intros (fs & tail & Hc & Hf & Ho & Hs & Ha & Hw) Ew Hcl H. destruct (Hw w Ew) as (gs & -> & W & Eh & Hp).
  eapply finalize_cases in H as [(e' & t & _ & Hf' & Ho' & Hs')|(ft & V & -> & _)]; [| |done|done|by rewrite open_bytes_app|done].
  - rewrite open_bytes_app, <-(assoc_L (++)) in *. eapply open_inv_dropped; try done.
    destruct Hs' as [->| ->]; [done|]. rewrite length_app. lia.
  - right. eexists. do 4 (split; [done|]). split; [|done]. cbn [vs_frames dropped nd_acked]. rewrite hashes_app.
    by apply sublist_inserts_r.
Qed.

Lemma crash_preserves h hb n st tail : node_inv h hb n st -> node_inv h hb n (dropped st (crash tail (nd_dir st))).
Proof.
  intros [(fs & t & Hc & Hf & Ho & Hs & Ha & _)|(s & Hf & Ho & V & Eh & Ha & _)].
  - eapply (open_inv_dropped h hb n st fs (take (synced (nd_dir st) - length (open_bytes hb fs)) t ++ tail)); try done.
    cbn [crash open_file]. rewrite Ho. cbn [fmap option_fmap option_map]. by rewrite take_app_ge, (assoc_L (++)) by done.
  - right. exists s. cbn [dropped nd_dir crash final_file open_file nd_acked nd_writer]. by rewrite Ho.
Qed.

Lemma recover_open_wrong_key io key h hb n fs tail d :
  chain_ok h hb n fs -> ~ key_matches key h -> recover_open io key (open_bytes hb fs ++ tail) d = Some (Err SealError.InvalidKey, d).
Proof.
  intros Hc Hk. pose proof (length_header_encode _ _ (co_header _ _ _ _ Hc)) as Lh. unfold recover_open, recover_header, open_bytes.
  rewrite (proj2 (Nat.ltb_ge _ _)) by (rewrite !length_app; lia). cbn [guard mbind result_bind].
  rewrite <-(assoc_L (++)), <-Lh, take_app_length, (header_encode_decode _ _ (co_wf _ _ _ _ Hc) (co_header _ _ _ _ Hc)).
  cbn [mbind result_bind]. destruct (_ || _) eqn:E; [done|]. b2p. destruct Hk. by split.
Qed.

(** What recovery does to a node that satisfies the invariant. *)
Lemma recover_preserves h hb n st io key r d' :
  node_inv h hb n st -> recover_segment_for_platform true io key (nd_dir st) = Some (r, d') ->
  node_inv h hb n (dropped st d') /\
  match r with
  | Ok (Resumed w) => open_inv h hb n {| nd_writer := Some w; nd_dir := d'; nd_pending := []; nd_acked := nd_acked st |}
  | Ok (Finalized s) => final_file d' = Some (segment_bytes s hb) /\ valid_segment s hb n /\ vs_header s = h
                        /\ nd_acked st `sublist_of` hashes (vs_frames s)
  | Err _ => True
  end.
Proof.
  unfold recover_segment_for_platform, verify_segment. cbn [require_persistent_writer_platform].
  intros [(fs & tail & Hc & Hf & Ho & Hs & Ha & _)|(s & Hf & Ho & V & Eh & Ha & Hw)] H.
  - rewrite Hf in H. cbn [mbind option_bind] in H. rewrite Ho in H.
    destruct (_ ≫= _); [|simplify_eq; split; [by eapply open_inv_dropped|done]].
    destruct (decide (sk_key_id key = sh_key_id h /\ sealing_commitment key = epoch_key_commitment (wrapped_epoch_key h))) as [Hk|Hk].
    2: { rewrite (recover_open_wrong_key io key h hb n fs tail _ Hc Hk) in H. simplify_eq. split; [by eapply open_inv_dropped|done]. }
    destruct (recover_open_spec io (chain_writer h key hb fs) key hb n fs tail (nd_dir st)) as (r1 & d1 & E & R);
      [by apply chain_writer_at|done|]. rewrite E in H. simplify_eq. unfold recovered in R. cbn [chain_writer sw_header] in R.
    assert (forall gs, chain_ok h hb n (fs ++ gs) -> nd_acked st `sublist_of` hashes (fs ++ gs)) as Hgs
      by (intros; rewrite hashes_app; by apply sublist_inserts_r).
    assert (forall s, fs `prefix_of` vs_frames s -> nd_acked st `sublist_of` hashes (vs_frames s)) as Hpre
      by (intros s [k ->]; rewrite hashes_app; by apply sublist_inserts_r).
    destruct r as [[w|s]|e].
    + destruct R as (gs & rest & -> & _ & W & Ek & Eh & ->). pose proof (writer_chain _ _ _ _ W) as Hc'. rewrite Eh in Hc'. split.
      * eapply (open_inv_dropped h hb n st (fs ++ gs) []); cbn [final_file open_file synced]; rewrite ?app_nil_r; auto.
      * exists (fs ++ gs), []. cbn [nd_dir nd_acked nd_writer nd_pending final_file open_file synced]. rewrite app_nil_r.
        split; [done|]. split; [done|]. split; [done|]. split; [done|]. split; [by apply Hgs|].
        intros w1 [= <-]. exists []. rewrite app_nil_r. split; [done|]. split; [done|]. split; [done|]. constructor.
    + destruct R as ((V & Eh & Eb & Hp & _) & ->). rewrite Ho, Eb. split.
      * right. exists s. do 4 (split; [done|]). split; [by apply Hpre|done].
      * split; [done|]. split; [done|]. split; [done|]. by apply Hpre.
    + split; [|done]. destruct R as [->|[(gs & rest & -> & Hz & Hch & Hb & ->)|(s & (V & Eh & Eb & Hp & _) & ->)]].
      * by eapply open_inv_dropped.
      * eapply (open_inv_dropped h hb n st fs (frames_bytes gs)); try done. cbn [with_open open_file]. by rewrite open_bytes_app.
      * right. exists s. cbn [dropped nd_dir final_file open_file]. rewrite Ho, Eb. do 4 (split; [done|]). split; [by apply Hpre|done].
  - rewrite Hf in H. assert (node_inv h hb n (dropped st (nd_dir st))) as Hd by (right; exists s; done).
    destruct (io_checks io ≫= _) as [u|e]; cbn [mbind option_bind] in H.
    + rewrite (verify_segment_bytes_complete s hb n V) in H. cbn [mbind option_bind] in H. simplify_eq. done.
    + destruct e as [[]| | | | | | | | | | | | | |]; try (simplify_eq; done). rewrite Ho in H. by simplify_eq.
Qed.
(** * Torn writes *)

(** What a write cut short leaves after the last complete frame. *)
Definition torn (n : nat) (tail : bytes) : Prop :=
  (length tail < frame_size n)%nat /\ (take 8 tail = FOOTER_MAGIC -> (length tail < SEGMENT_FOOTER_LEN)%nat).

Lemma recover_loop_torn fuel h n tail off cnt first prev :
  (0 < fuel)%nat -> torn n tail ->
  recover_loop fuel h (frame_size n) tail off cnt first prev = Some (Ok (Stopped off cnt first prev)).
Proof.
  intros Hf [Hl Hm]. destruct fuel as [|fuel]; [lia|]. cbn [recover_loop]. destruct (_ =? 0)%nat; [done|].
  destruct (_ && _) eqn:E; b2p.
  - specialize (Hm ltac:(assumption)). rewrite (proj2 (Nat.eqb_neq _ _)), (proj2 (Nat.ltb_lt _ _)) by lia. done.
  - by rewrite (proj2 (Nat.ltb_lt _ _)) by lia.
Qed.

Lemma cut_frames n f fs : forall j seq prev,
  (SEGMENT_FOOTER_LEN < frame_size n)%nat -> sized n fs -> chained seq prev fs -> 0 <= seq -> seq + Z.of_nat (length fs) <= 2 ^ 32 ->
  (j < length fs * frame_size n + SEGMENT_FOOTER_LEN)%nat ->
  exists tail, take j (frames_bytes fs ++ footer_encode f) = frames_bytes (take (j / frame_size n) fs) ++ tail /\ torn n tail.
Proof.
  induction fs as [|g fs IH]; intros j seq prev HL Hz Hc H0 Hs Hj.
  - exists (take j (footer_encode f)). rewrite take_nil. split; [done|]. unfold torn. rewrite length_take, length_footer_encode.
    cbn [length Nat.mul Nat.add] in Hj. split; [lia|]. lia.
  - apply Forall_cons in Hz as [Lg Hz]. destruct Hc as (Sg & _ & Hc). cbn [length] in *. pose proof (length_frame_bytes n g Lg) as Lb.
    assert (frames_bytes (g :: fs) ++ footer_encode f = frame_bytes g ++ frames_bytes fs ++ footer_encode f) as ->
      by (unfold frames_bytes; cbn [map concat]; by rewrite (assoc_L (++))).
    destruct (decide (j < frame_size n)%nat) as [Hlt|Hge].
    + exists (take j (frame_bytes g)). rewrite Nat.div_small by done. rewrite take_app_le by lia. split; [done|].
      unfold torn. rewrite length_take. split; [lia|]. intros E. exfalso.
      destruct (decide (8 <= j)%nat) as [H8|H8].
      * apply (frame_not_magic g []); [compute_pows; lia|]. rewrite app_nil_r. by rewrite take_take, Nat.min_l in E by lia.
      * apply (f_equal length) in E. rewrite !length_take in E. change (length FOOTER_MAGIC) with 8%nat in E. lia.
    + destruct (IH (j - frame_size n)%nat (seq + 1) (chain_hash g) HL Hz Hc) as (tail & E & Ht); [lia..|].
      exists tail. split; [|done]. rewrite take_app_ge by lia. rewrite Lb, E.
      replace (j / frame_size n)%nat with (S ((j - frame_size n) / frame_size n)).
      * unfold frames_bytes. cbn [take map concat]. by rewrite (assoc_L (++)).
      * replace j with (j - frame_size n + 1 * frame_size n)%nat at 2 by lia. rewrite Nat.div_add by (unfold frame_size; lia). lia.
Qed.

Lemma writer_at_take w hb n fs m : writer_at w hb n fs -> chain_ok (sw_header w) hb n (take m fs).
Proof.
  intros W. destruct (writer_chain _ _ _ _ W) as [Hh Wh Hp Hb Hz Hc]. split; try done.
  - rewrite length_take. lia.
  - by apply Forall_take.
  - rewrite <-(take_drop m fs) in Hc. by apply chained_app in Hc as [Hc _].
Qed.

Lemma recover_torn w key hb n fs f y k :
  writer_at w hb n fs -> key_matches key (sw_header w) ->
  (SEGMENT_HEADER_LEN <= k < length (open_bytes hb fs) + SEGMENT_FOOTER_LEN)%nat ->
  let gs := take ((k - SEGMENT_HEADER_LEN) / frame_size n) fs in
  recover_segment_for_platform true io_ok key
    {| final_file := None; open_file := Some (take k (open_bytes hb fs ++ footer_encode f)); synced := y |} =
  Some (Ok (Resumed (chain_writer (sw_header w) key hb gs)),
        {| final_file := None; open_file := Some (open_bytes hb gs); synced := length (open_bytes hb gs) |}).
Proof.
  intros W Hk Hkl gs. pose proof (length_header_encode _ _ (wa_header _ _ _ _ W)) as Lh. destruct (writer_at_max _ _ _ _ W) as [Hmax _].
  pose proof (open_bytes_bound w hb n fs W) as Hbound. pose proof (footer_lt_frame _ _ (wa_len _ _ _ _ W)) as HL.
  assert (length (open_bytes hb fs) = SEGMENT_HEADER_LEN + length fs * frame_size n)%nat as Lo
    by (unfold open_bytes; rewrite length_app, Lh, (length_frames_bytes n) by apply W; done).
  unfold recover_segment_for_platform, verify_segment. cbn [require_persistent_writer_platform final_file mbind option_bind open_file io_ok io_checks result_bind].
  rewrite (proj2 (Z.ltb_ge MAX_SEGMENT_BYTES _)) by (rewrite length_take, length_app, length_footer_encode; lia). cbn [guard].
  destruct (cut_frames n f fs (k - SEGMENT_HEADER_LEN) 0 (sha256 hb) HL (wa_sized _ _ _ _ W) (wa_chained _ _ _ _ W)) as (tail & E & Ht);
    [lia|compute_pows; lia|lia|].
  assert (take k (open_bytes hb fs ++ footer_encode f) = open_bytes hb gs ++ tail) as ->.
  { unfold open_bytes. rewrite <-(assoc_L (++)), take_app_ge by lia. rewrite Lh, E. by rewrite (assoc_L (++)). }
  destruct (recover_open_at io_ok (chain_writer (sw_header w) key hb gs) key hb n gs tail
    {| final_file := None; open_file := Some (open_bytes hb gs ++ tail); synced := y |}) as (fuel & Hfuel & ->);
    [by apply chain_writer_at, writer_at_take|done|].
  cbn [chain_writer sw_header]. rewrite recover_loop_torn by (done || lia). cbn [mbind option_bind recover_finish].
  pose proof (take_open hb n gs [] tail Lh) as T. rewrite app_nil_r in T. cbn [length Nat.mul] in T. rewrite Nat.add_0_r in T.
  change (frames_bytes []) with (@nil byte) in T. rewrite app_nil_l in T. rewrite T by apply (co_sized _ _ _ _ (writer_at_take _ _ _ _ _ W)).
  done.
Qed.
(** * Properties *)

Lemma step_preserves h hb n st st' : node_inv h hb n st -> step st st' -> node_inv h hb n st'.
Proof.
  intros I S. assert (forall w, nd_writer st = Some w -> open_inv h hb n st) as Hopen
    by (intros w Ew; destruct I as [|(s & _ & _ & _ & _ & _ & Hw)]; [done|congruence]).
  destruct S as [io nonce r w e w' d' Ew H|io nonce r w e w' d' Ew H|io w d' Ew H|io w e d' Ew H|io closed signer w ft d' Ew Hc H
    |io closed signer w e d' Ew Hc H|tail|io key w d' H|io key s d' H|io key e d' H].
  - left. by eapply append_preserves; eauto.
  - by eapply append_failed_preserves; eauto.
  - left. by eapply sync_preserves; eauto.
  - destruct (Hopen w Ew) as (fs & tail & Hc & Hf & Ho & Hs & Ha & _). unfold sync_data, sync_file in H.
    assert (d' = nd_dir st) as -> by (destruct (io_checks io), (io_synced io); congruence). by eapply open_inv_dropped.
  - right. by eapply finalize_preserves; eauto.
  - by eapply finalize_failed_preserves; eauto.
  - by apply crash_preserves.
  - left. by apply (recover_preserves h hb n st io key (Ok (Resumed w)) d' I H).
  - by apply (recover_preserves h hb n st io key _ d' I H).
  - by apply (recover_preserves h hb n st io key _ d' I H).
Qed.

Lemma reachable_inv h st : reachable h st -> exists hb n, header_encode h = Ok hb /\ node_inv h hb n st.
Proof.
  intros (st0 & (io & sid & eph & non & key & cpk & spk & o & m & d & w & d' & Hcr & <- & Wh & ->) & Hrun).
  apply create_at in Hcr as (_ & _ & _ & hb & n & W & ->); [|done]. exists hb, n. split; [apply W|].
  assert (forall a b, rtc step a b -> node_inv (sw_header w) hb n a -> node_inv (sw_header w) hb n b) as Hind
    by (induction 1; eauto using step_preserves).
  apply (Hind _ _ Hrun). left. exists [], []. cbn [nd_dir nd_acked nd_writer nd_pending final_file open_file synced].
  split; [by apply writer_chain|]. split; [done|]. unfold open_bytes. change (frames_bytes []) with (@nil byte).
  rewrite !app_nil_r. split; [done|]. split; [by rewrite (length_header_encode _ _ (wa_header _ _ _ _ W))|]. split; [constructor|].
  intros w1 [= <-]. exists []. split; [done|]. split; [done|]. split; [done|]. constructor.
Qed.

Lemma recover_total h hb n st io key : node_inv h hb n st -> is_Some (recover_segment_for_platform true io key (nd_dir st)).
Proof.
  unfold recover_segment_for_platform, verify_segment. cbn [require_persistent_writer_platform].
  intros [(fs & tail & Hc & Hf & Ho & _)|(s & Hf & Ho & V & _)].
  - rewrite Hf. cbn [mbind option_bind]. rewrite Ho. destruct (_ ≫= _); [|done].
    destruct (decide (sk_key_id key = sh_key_id h /\ sealing_commitment key = epoch_key_commitment (wrapped_epoch_key h))) as [Hk|Hk].
    + destruct (recover_open_spec io (chain_writer h key hb fs) key hb n fs tail (nd_dir st)) as (r & d' & -> & _);
        [by apply chain_writer_at|done|done].
    + by rewrite (recover_open_wrong_key io key h hb n fs tail _ Hc Hk).
  - rewrite Hf. destruct (io_checks io ≫= _) as [|e]; cbn [mbind option_bind].
    + by rewrite (verify_segment_bytes_complete s hb n V).
    + rewrite Ho. by destruct e as [[]| | | | | | | | | | | | | |].
Qed.

(** C5: No acknowledged trace record is ever lost.  Whatever sequence of appends, syncs,
    failed or torn writes, crashes (that keep the synced bytes of the open file and put anything behind
    them), recoveries with any key and finalizations a segment has been through, recovery returns without
    a panic; when it resumes, the writer stands after a valid chain that is exactly the file's content, when
    it reports a finalized segment, the published file verifies as that segment, and in both cases every
    frame covered by a successful sync is still there, in the order they were acknowledged. *)
Theorem acked_records_survive (h : SegmentHeader) (st : Node) (io : Io) (key : EpochSealingKey) :
  reachable h st ->
  exists hb n r d', header_encode h = Ok hb /\ recover_segment_for_platform true io key (nd_dir st) = Some (r, d') /\
    match r with
    | Ok (Resumed w) =>
        exists fs, writer_at w hb n fs /\ sw_header w = h /\ open_file d' = Some (open_bytes hb fs) /\ nd_acked st `sublist_of` hashes fs
    | Ok (Finalized s) =>
        exists bs, final_file d' = Some bs /\ verify_segment_bytes bs = Some (Ok s) /\ vs_header s = h
                   /\ nd_acked st `sublist_of` hashes (vs_frames s)
    | Err _ => node_inv h hb n (dropped st d')
    end.
Proof.
  intros R. apply reachable_inv in R as (hb & n & Hh & I). destruct (recover_total h hb n st io key I) as [[r d'] E].
  exists hb, n, r, d'. split; [done|]. split; [done|].
  destruct (recover_preserves h hb n st io key r d' I E) as [Hd Hr]. destruct r as [[w|s]|e]; [| |done].
  - destruct Hr as (fs & tail & Hc & _ & Ho & _ & Ha & Hw). destruct (Hw w eq_refl) as (gs & -> & W & Eh & _).
    exists (fs ++ gs). split; [done|]. split; [done|]. cbn [nd_dir nd_acked] in *. rewrite open_bytes_app. split; [done|].
    rewrite hashes_app. by apply sublist_inserts_r.
  - destruct Hr as (Hf & V & Eh & Ha). eexists. split; [done|]. split; [by eapply verify_segment_bytes_complete|]. done.
Qed.

(** A torn write costs at most the frame being written.  If a crash cuts the open file of a
    writer that stands after the frames [fs] (and may have begun its footer) at any byte after the header,
    recovery with the segment's key resumes with exactly the frames that are complete, the file truncated to
    them and synced, in the state the writer had then; if the crash came after the whole footer was written,
    recovery publishes the segment. *)
Theorem torn_write_recovers (w : SegmentWriter) (key : EpochSealingKey) (hb : bytes) (n : nat) (fs : list SealedFrame)
  (f : SegmentFooter) (y k : nat) (s : VerifiedSegment) :
  writer_at w hb n fs -> key_matches key (sw_header w) ->
  (SEGMENT_HEADER_LEN <= k < length (open_bytes hb fs) + SEGMENT_FOOTER_LEN)%nat ->
  valid_segment s hb n -> vs_header s = sw_header w ->
  let gs := take ((k - SEGMENT_HEADER_LEN) / frame_size n) fs in
  recover_segment_for_platform true io_ok key
    {| final_file := None; open_file := Some (take k (open_bytes hb fs ++ footer_encode f)); synced := y |} =
  Some (Ok (Resumed (chain_writer (sw_header w) key hb gs)),
        {| final_file := None; open_file := Some (open_bytes hb gs); synced := length (open_bytes hb gs) |}) /\
  recover_segment_for_platform true io_ok key
    {| final_file := None; open_file := Some (segment_bytes s hb); synced := y |} =
  Some (Ok (Finalized s), {| final_file := Some (segment_bytes s hb); open_file := None; synced := 0 |}).
Proof.
  intros W Hk Hkl V Eh gs. split; [by apply recover_torn|].
  assert (writer_at (chain_writer (sw_header w) key hb (vs_frames s)) hb n (vs_frames s)) as W'.
  { apply chain_writer_at. rewrite <-Eh. destruct V. by split. }
  pose proof (open_bytes_bound _ _ _ _ W') as Hbound.
  unfold recover_segment_for_platform, verify_segment.
  cbn [require_persistent_writer_platform final_file mbind option_bind open_file io_ok io_checks result_bind].
  assert (segment_bytes s hb = open_bytes hb (vs_frames s) ++ footer_encode (vs_footer s)) as E
    by (unfold segment_bytes, open_bytes; by rewrite (assoc_L (++))).
  rewrite (proj2 (Z.ltb_ge MAX_SEGMENT_BYTES _)) by (rewrite E, length_app, length_footer_encode; lia). cbn [guard].
  rewrite E at 1. destruct (recover_open_at io_ok _ key hb n (vs_frames s) (footer_encode (vs_footer s))
    {| final_file := None; open_file := Some (segment_bytes s hb); synced := y |} W' Hk) as (fuel & Hfuel & ->).
  destruct fuel as [|fuel]; [lia|]. cbn [recover_loop]. rewrite length_footer_encode, <-E.
  cbn [Nat.eqb SEGMENT_FOOTER_LEN Nat.leb andb]. rewrite bool_decide_true by (unfold footer_encode; by rewrite take_app_length').
  cbn [mbind option_bind recover_finish]. by rewrite (verify_segment_bytes_complete s hb n V).
Qed.
End Runs.
