(* ===== verification/Custody.v ===== *)
(** [pigeonpost-compliance/src/custody.rs]: the offline side of trace sealing.  Unwrapping a
    daily key with the custodian's key, and decrypting the frames of a verified segment under
    an authorization. *)
From S2P Require Import Prelude Text Crypto Compliance Envelope Layout TraceRecord TraceKey Segment SegmentChain SegmentWriter SegmentRecovery SegmentRuns.

Module ComplianceError.
Inductive ComplianceError :=
  | UnsupportedPlatform | InvalidKey | WrongPurpose | Unauthorized | BadApproval | InvalidRequest | Expired
  | StateConflict | Crypto | AttributionInvalid | SegmentInvalid | RetentionActive | LegalHoldActive
  | IncompleteInventory | UnknownCopy | LimitExceeded | Storage.
#[global] Instance ComplianceError_eq_dec : EqDecision ComplianceError.
Proof. solve_decision. Defined.
End ComplianceError.

Abbreviation ComplianceResult A := (result ComplianceError.ComplianceError A).

(** approval.rs: the capability handed to an approved operation. *)
Record AuthorizedDisclosure := {
  ad_request_id : arr 32;
  ad_jurisdiction : Jurisdiction;
  ad_purpose : CompliancePurpose;
  ad_key_ids : list ComplianceKeyId;
}.

Definition permits (a : AuthorizedDisclosure) (key_id : ComplianceKeyId) : bool :=
  (ad_purpose a ≟ purpose key_id) && (ad_jurisdiction a ≟ jurisdiction key_id) && bool_decide (key_id ∈ ad_key_ids a).

Record OfflineEpochKey := { oe_key_id : ComplianceKeyId; oe_secret : arr 32 }.

(** The trait [CustodyBackend]: one custodian. *)
Record CustodyBackend := {
  cb_purpose : CompliancePurpose;
  cb_jurisdiction : Jurisdiction;
  cb_public_key : arr 32;
  cb_agree : arr 32 -> ComplianceResult (arr 32);
}.

Section Custody.
Context {C : Crypto} {EC : EnvelopeCrypto} {MC : Montgomery}.

(** [SoftwareCustodyKey::from_bytes] and its [CustodyBackend] implementation. *)
Definition software_custody (purpose : CompliancePurpose) (jurisdiction : Jurisdiction) (secret : arr 32)
  : ComplianceResult CustodyBackend :=
  _ ← guard (negb (jurisdiction ≟ TestJurisdiction) || (secret ≟ zeroes 32)) ComplianceError.InvalidKey;
  Ok {| cb_purpose := purpose; cb_jurisdiction := jurisdiction; cb_public_key := mul_base_clamped secret;
        cb_agree peer :=
          let shared := mul_clamped peer secret in
          if shared ≟ zeroes 32 then Err ComplianceError.InvalidKey else Ok shared |}.

Definition is_trace_purpose (p : CompliancePurpose) : bool :=
  match p with NetworkTrace | IdentityTrace => true | Attribution => false end.

Definition unwrap_trace_epoch_key (authorization : AuthorizedDisclosure) (expected_purpose : CompliancePurpose)
  (expected_jurisdiction : Jurisdiction) (custody : CustodyBackend) (wrapped : WrappedEpochKey)
  : ComplianceResult OfflineEpochKey :=
  _ ← guard (negb (is_trace_purpose expected_purpose)
             || negb (purpose (wk_key_id wrapped) ≟ expected_purpose)
             || negb (jurisdiction (wk_key_id wrapped) ≟ expected_jurisdiction)
             || negb (cb_purpose custody ≟ expected_purpose)
             || negb (cb_jurisdiction custody ≟ expected_jurisdiction)
             || negb (permits authorization (wk_key_id wrapped))) ComplianceError.WrongPurpose;
  let expected_digest := sha256 (vec_to_list (cb_public_key custody)) in
  _ ← guard (negb (compliance_key_digest wrapped ≟ expected_digest)) ComplianceError.InvalidKey;
  shared ← cb_agree custody (ephemeral_public_key wrapped);
  let salt := trace_key_wrap_salt (ephemeral_public_key wrapped) (compliance_key_digest wrapped) in
  let aead_key := hkdf_sha256 (Some salt) (vec_to_list shared) TRACE_KEY_WRAP_HKDF_INFO in
  aad ← seal_err (wrapped_aad wrapped) ComplianceError.SegmentInvalid;
  plaintext ← ok_or (xchacha_decrypt aead_key (wk_nonce wrapped) aad (vec_to_list (wk_ciphertext wrapped))) ComplianceError.Crypto;
  secret ← ok_or (arr_of_list 32 plaintext) ComplianceError.Crypto;
  _ ← guard (negb (sha256 (vec_to_list secret) ≟ epoch_key_commitment wrapped)) ComplianceError.InvalidKey;
  Ok {| oe_key_id := wk_key_id wrapped; oe_secret := secret |}.

Definition validate_decrypted_trace_identity (record : DisclosedTraceRecord) (expected_jurisdiction : Jurisdiction)
  (expected_node_id : arr 32) : ComplianceResult unit :=
  let '(jurisdiction, node_id) :=
    match record with
    | Network record => (tr_jurisdiction record, node_id record)
    | Identity record => (id_jurisdiction record, id_node_id record)
    end in
  guard ((expected_node_id ≟ zeroes 32) || negb (jurisdiction ≟ expected_jurisdiction) || negb (node_id ≟ expected_node_id))
    ComplianceError.SegmentInvalid.

(** [TraceRecord::decode] or [IdentityTraceRecord::decode], by purpose. *)
Definition decode_disclosed (purpose : CompliancePurpose) (plaintext : bytes) : ComplianceResult DisclosedTraceRecord :=
  match purpose with
  | NetworkTrace => seal_err (Network <$> trace_decode plaintext) ComplianceError.SegmentInvalid
  | IdentityTrace => seal_err (Identity <$> identity_decode plaintext) ComplianceError.SegmentInvalid
  | Attribution => Err ComplianceError.WrongPurpose
  end.

Section Select.
(** The selector is an [FnMut]: it may keep a state. *)
Context {S : Type} (select : S -> DisclosedTraceRecord -> bool * S).

Fixpoint decrypt_frames (header : SegmentHeader) (secret : arr 32) (expected_node_id : arr 32) (max_selected : nat)
  (frames : list SealedFrame) (previous_hash : arr 32) (s : S) (records : list DisclosedTraceRecord)
  : ComplianceResult (list DisclosedTraceRecord) :=
  match frames with
  | [] => Ok records
  | frame :: frames =>
      aad ← seal_err (frame_aad (segment_id header) (sh_key_id header) (sequence frame) previous_hash)
              ComplianceError.SegmentInvalid;
      plaintext ← ok_or (xchacha_decrypt secret (fr_nonce frame) aad (fr_ciphertext frame)) ComplianceError.Crypto;
      record ← decode_disclosed (purpose (sh_key_id header)) plaintext;
      _ ← validate_decrypted_trace_identity record (jurisdiction (sh_key_id header)) expected_node_id;
      let '(selected, s) := select s record in
      _ ← guard (selected && (max_selected <=? length records)%nat) ComplianceError.LimitExceeded;
      decrypt_frames header secret expected_node_id max_selected frames (chain_hash frame) s
        (if selected then records ++ [record] else records)
  end.

(** [None] is the panic of [header.hash()]. *)
Definition decrypt_trace_segment_selected (authorization : AuthorizedDisclosure) (epoch_key : OfflineEpochKey)
  (segment : VerifiedSegment) (expected_node_id : arr 32) (max_selected : nat) (s : S)
  : option (ComplianceResult (list DisclosedTraceRecord)) :=
  let header := vs_header segment in
  match
    _ ← guard (negb (sh_key_id header ≟ oe_key_id epoch_key) || (expected_node_id ≟ zeroes 32)
               || negb (permits authorization (sh_key_id header))) ComplianceError.WrongPurpose;
    guard (negb (epoch_key_commitment (wrapped_epoch_key header) ≟ sha256 (vec_to_list (oe_secret epoch_key))))
      ComplianceError.InvalidKey
  with
  | Err e => Some (Err e)
  | Ok _ =>
      previous_hash ← header_hash header;
      Some (decrypt_frames header (oe_secret epoch_key) expected_node_id max_selected (vs_frames segment) previous_hash s [])
  end.

Definition disclose_trace_segment_selected_bounded (authorization : AuthorizedDisclosure) (expected_purpose : CompliancePurpose)
  (expected_jurisdiction : Jurisdiction) (custody : CustodyBackend) (segment : VerifiedSegment) (expected_node_id : arr 32)
  (max_selected : nat) (s : S) : option (ComplianceResult (list DisclosedTraceRecord)) :=
  match unwrap_trace_epoch_key authorization expected_purpose expected_jurisdiction custody
          (wrapped_epoch_key (vs_header segment)) with
  | Err e => Some (Err e)
  | Ok epoch_key => decrypt_trace_segment_selected authorization epoch_key segment expected_node_id max_selected s
  end.

Definition disclose_trace_segment_selected (authorization : AuthorizedDisclosure) (expected_purpose : CompliancePurpose)
  (expected_jurisdiction : Jurisdiction) (custody : CustodyBackend) (segment : VerifiedSegment) (expected_node_id : arr 32)
  (s : S) : option (ComplianceResult (list DisclosedTraceRecord)) :=
  disclose_trace_segment_selected_bounded authorization expected_purpose expected_jurisdiction custody segment
    expected_node_id (length (vs_frames segment)) s.
End Select.

Definition disclose_trace_segment (authorization : AuthorizedDisclosure) (expected_purpose : CompliancePurpose)
  (expected_jurisdiction : Jurisdiction) (custody : CustodyBackend) (segment : VerifiedSegment) (expected_node_id : arr 32)
  : option (ComplianceResult (list DisclosedTraceRecord)) :=
  disclose_trace_segment_selected (fun _ _ => (true, tt)) authorization expected_purpose expected_jurisdiction custody
    segment expected_node_id tt.
End Custody.
