(* ===== verification/CustodyFlow.v ===== *)
(** From the online node to the offline custodian: what was appended to a trace segment,
    across a crash and a recovery, is what an authorized disclosure returns. *)
From S2P Require Import Prelude Text Crypto Compliance Envelope Layout TraceRecord TraceKey Segment SegmentChain SegmentWriter SegmentRecovery SegmentRuns Custody.

Section Flow.
Context {C : Crypto} {EC : EnvelopeCrypto} {MC : Montgomery}.

(** * Records as the two formats see them *)

Definition record_encode (r : DisclosedTraceRecord) : SealResult bytes :=
  match r with Network r => trace_encode r | Identity r => identity_encode r end.
Definition record_purpose (r : DisclosedTraceRecord) : CompliancePurpose :=
  match r with Network _ => NetworkTrace | Identity _ => IdentityTrace end.
Definition record_jurisdiction (r : DisclosedTraceRecord) : Jurisdiction :=
  match r with Network r => tr_jurisdiction r | Identity r => id_jurisdiction r end.
Definition record_node (r : DisclosedTraceRecord) : arr 32 :=
  match r with Network r => node_id r | Identity r => id_node_id r end.
Definition record_wf (r : DisclosedTraceRecord) : Prop :=
  match r with Network r => trace_wf r | Identity r => identity_wf r end.

Lemma decode_disclosed_encode r pt : record_wf r -> record_encode r = Ok pt -> decode_disclosed (record_purpose r) pt = Ok r.
Proof.
  destruct r as [r|r]; cbn [record_wf record_encode record_purpose decode_disclosed]; intros W E.
  - by rewrite (trace_encode_decode r pt W E).
  - by rewrite (identity_encode_decode r pt W E).
Qed.

(** The frames [fs] after [prev] carry the records [rs], sealed under [secret]. *)
Fixpoint sealed_chain (h : SegmentHeader) (secret : arr 32) (prev : arr 32) (fs : list SealedFrame)
  (rs : list DisclosedTraceRecord) : Prop :=
  match fs, rs with
  | [], [] => True
  | f :: fs, r :: rs =>
      (exists pt aad, record_encode r = Ok pt /\ record_purpose r = purpose (sh_key_id h) /\
         record_jurisdiction r = jurisdiction (sh_key_id h) /\
         frame_aad (segment_id h) (sh_key_id h) (sequence f) prev = Ok aad /\
         xchacha_encrypt secret (fr_nonce f) aad pt = Some (fr_ciphertext f)) /\
      sealed_chain h secret (chain_hash f) fs rs
  | _, _ => False
  end.

Lemma sealed_chain_app h k prev fs rs gs qs :
  sealed_chain h k prev fs rs -> sealed_chain h k (last_hash prev fs) gs qs -> sealed_chain h k prev (fs ++ gs) (rs ++ qs).
Proof.
  revert prev rs; induction fs as [|f fs IH]; intros prev [|r rs] H G; try done.
  destruct H as [Hf H]. split; [done|]. by apply IH.
Qed.

Lemma sealed_chain_take h k m : forall prev fs rs, sealed_chain h k prev fs rs -> sealed_chain h k prev (take m fs) (take m rs).
Proof.
  induction m as [|m IH]; intros prev [|f fs] [|r rs] H; try done. destruct H as [Hf H]. split; [done|]. by apply IH.
Qed.

Lemma sealed_chain_length h k prev fs rs : sealed_chain h k prev fs rs -> length fs = length rs.
Proof. revert prev rs; induction fs as [|f fs IH]; intros prev [|r rs] H; try done. destruct H as [_ H]. simpl. f_equal. by eapply IH. Qed.

(** * The writer's side *)

(** A run of appends that all succeed. *)
Fixpoint append_all (l : list (Io * arr 24 * DisclosedTraceRecord)) (w : SegmentWriter) (d : SegmentDir)
  : option (SegmentWriter * SegmentDir) :=
  match l with
  | [] => Some (w, d)
  | (io, nonce, r) :: l =>
      match append_record io nonce r w d with
      | (Ok _, w, d) => append_all l w d
      | (Err _, _, _) => None
      end
  end.

Definition records (l : list (Io * arr 24 * DisclosedTraceRecord)) : list DisclosedTraceRecord := map snd l.

(** The writer stands after frames that carry [rs], and the open file holds exactly them. *)
Record sealing (w : SegmentWriter) (d : SegmentDir) (hb : bytes) (n : nat) (fs : list SealedFrame)
  (rs : list DisclosedTraceRecord) : Prop := {
  se_writer : writer_at w hb n fs;
  se_sealed : sealed_chain (sw_header w) (secret (sw_epoch_key w)) (sha256 hb) fs rs;
  se_final : final_file d = None;
  se_open : open_file d = Some (open_bytes hb fs);
}.

Context {SL : TraceSealLaws}.

(** What a successful append checked of the record. *)
Lemma append_record_Ok io nonce r w d h w' d' :
  append_record io nonce r w d = (Ok h, w', d') ->
  record_purpose r = purpose (sh_key_id (sw_header w)) /\ record_jurisdiction r = jurisdiction (sh_key_id (sw_header w)) /\
  exists pt, record_encode r = Ok pt /\ append_plaintext io nonce pt w d = (Ok h, w', d').
Proof.
  destruct r as [r|r]; cbn [append_record]; unfold append_network_buffered, append_identity_buffered.
  all: destruct (_ ≫= _) as [pt|e] eqn:E; [|done]; apply bind_Ok in E as (? & Hg & E); apply bind_Ok in E as (? & _ & E).
  all: apply guard_Ok in Hg; b2p; intros; cbn [record_purpose record_jurisdiction record_encode]; eauto 10.
Qed.

Lemma record_length r pt n : record_encode r = Ok pt -> plaintext_len (record_purpose r) = Ok n -> length pt = n.
Proof.
  destruct r as [r|r]; cbn [record_encode record_purpose plaintext_len]; intros E H; apply Ok_inj in H as <-.
  - by apply length_trace_encode in E.
  - by apply length_identity_encode in E.
Qed.

Lemma append_record_sealing io nonce r w d hb n fs rs h w' d' :
  sealing w d hb n fs rs -> append_record io nonce r w d = (Ok h, w', d') ->
  sw_header w' = sw_header w /\ sw_epoch_key w' = sw_epoch_key w /\ exists f, sealing w' d' hb n (fs ++ [f]) (rs ++ [r]).
Proof.
  intros [W S Hf Ho] H. apply append_record_Ok in H as (Hp & Hj & pt & Hpt & H).
  apply (append_extends _ _ _ _ _ hb n fs) in H as (ct & Hs & Ek & Eh & W' & ->); [|done|].
  2: { apply (record_length r); [done|]. rewrite Hp. apply W. }
  split; [done|]. split; [done|]. exists (next_frame w nonce ct). split; [done| |done|].
  - rewrite Eh, Ek. apply sealed_chain_app; [done|]. split; [|done]. apply seal_plaintext_Ok in Hs as (_ & _ & aad & Ha & He).
    exists pt, aad. cbn [next_frame sequence fr_nonce fr_ciphertext]. rewrite <-(wa_previous _ _ _ _ W). done.
  - cbn [with_open open_file]. rewrite Ho, open_bytes_snoc. done.
Qed.

Lemma append_all_sealing l : forall w d hb n fs rs w' d',
  sealing w d hb n fs rs -> append_all l w d = Some (w', d') ->
  sw_header w' = sw_header w /\ sw_epoch_key w' = sw_epoch_key w /\ exists fs', sealing w' d' hb n (fs ++ fs') (rs ++ records l).
Proof.
  induction l as [|[[io nonce] r] l IH]; intros w d hb n fs rs w' d' Hs H; cbn [append_all] in H.
  - simplify_eq. split; [done|]. split; [done|]. exists []. by rewrite !app_nil_r.
  - destruct (append_record io nonce r w d) as [[[h|e] w1] d1] eqn:E; [|done].
    apply (append_record_sealing _ _ _ _ _ _ _ _ _ _ _ _ Hs) in E as (Eh & Ek & f & Hs1).
    apply (IH _ _ _ _ _ _ _ _ Hs1) in H as (Eh' & Ek' & fs' & Hs').
    split; [congruence|]. split; [congruence|]. exists (f :: fs'). rewrite <-!(assoc_L (++)) in Hs'. done.
Qed.

(** * The custodian's side *)

(** The custodian's agreement with an ephemeral key is the one the wrapping used, for keys that
    agree on a non-zero secret. *)
Definition custodian_agrees (c : CustodyBackend) : Prop := forall e,
  mul_clamped (cb_public_key c) e <> zeroes 32 -> cb_agree c (mul_base_clamped e) = Ok (mul_clamped (cb_public_key c) e).

Lemma software_custody_agrees p j k c : software_custody p j k = Ok c -> custodian_agrees c.
Proof.
  unfold software_custody. intros H. inv_ok. subst c. intros e He. cbn [cb_agree cb_public_key] in *.
  rewrite clamped_symmetric in He. rewrite (clamped_symmetric e k), bool_decide_false by done. done.
Qed.

Definition discloses (a : AuthorizedDisclosure) (c : CustodyBackend) (id : ComplianceKeyId) : Prop :=
  cb_purpose c = purpose id /\ cb_jurisdiction c = jurisdiction id /\ permits a id = true /\ custodian_agrees c.

Lemma unwrap_wrapped a c key e nonce w :
  discloses a c (sk_key_id key) -> key_wrap key (cb_public_key c) e nonce = Ok w ->
  unwrap_trace_epoch_key a (purpose (sk_key_id key)) (jurisdiction (sk_key_id key)) c w
    = Ok {| oe_key_id := sk_key_id key; oe_secret := secret key |}.
Proof.
  intros (Hp & Hj & Ha & Hc) H. unfold key_wrap in H. apply bind_Ok in H as (? & _ & H). apply bind_Ok in H as (? & Hsh & H).
  apply bind_Ok in H as (aad & Haad & H). apply bind_Ok in H as (ct & Hct & H). apply bind_Ok in H as (v & Hv & H). inv_ok. b2p.
  apply arr_of_list_Some in Hv. subst w ct.
  assert (is_trace_purpose (purpose (sk_key_id key)) = true) as Ht.
  { unfold trace_key_wrap_aad in Haad. apply bind_Ok in Haad as (? & _ & Haad). apply bind_Ok in Haad as (? & Hv & _).
    unfold validate_trace_key_id in Hv. apply bind_Ok in Hv as (? & _ & Hv). by destruct (purpose _). }
  unfold unwrap_trace_epoch_key. cbn [wk_key_id compliance_key_digest ephemeral_public_key wk_nonce wk_ciphertext epoch_key_commitment].
  rewrite Ht, Hp, Hj, Ha, !bool_decide_true by done. cbn [negb orb guard mbind result_bind]. rewrite Hc by done. cbn [mbind result_bind].
  unfold wrapped_aad. cbn [wk_version wk_key_id compliance_key_digest epoch_key_commitment ephemeral_public_key]. rewrite Haad.
  cbn [seal_err mbind result_bind]. rewrite (frame_aead_decrypts _ _ _ _ _ Hct). cbn [ok_or mbind result_bind].
  rewrite (proj2 (arr_of_list_Some 32 _ (secret key)) eq_refl). cbn [ok_or mbind result_bind].
  unfold sealing_commitment. rewrite bool_decide_true by done. done.
Qed.

Lemma decrypt_sealed h k node m fs : forall prev rs acc,
  sealed_chain h k prev fs rs -> Forall record_wf rs -> Forall (fun r => record_node r = node) rs -> node <> zeroes 32 ->
  (length acc + length fs <= m)%nat ->
  decrypt_frames (fun (_ : unit) _ => (true, tt)) h k node m fs prev tt acc = Ok (acc ++ rs).
Proof.
  induction fs as [|f fs IH]; intros prev [|r rs] acc Hs Hw Hn Hz Hm; try done.
  - cbn [decrypt_frames]. by rewrite app_nil_r.
  - destruct Hs as [(pt & aad & Hpt & Hp & Hj & Ha & He) Hs]. apply Forall_cons in Hw as [Wr Hw], Hn as [Nr Hn]. cbn [length] in Hm.
    cbn [decrypt_frames]. rewrite Ha. cbn [seal_err mbind result_bind]. rewrite (frame_aead_decrypts _ _ _ _ _ He).
    cbn [ok_or mbind result_bind]. rewrite <-Hp, (decode_disclosed_encode r pt Wr Hpt). cbn [mbind result_bind].
    assert (validate_decrypted_trace_identity r (jurisdiction (sh_key_id h)) node = Ok tt) as ->.
    { unfold validate_decrypted_trace_identity. destruct r as [r|r]; cbn [record_jurisdiction record_node] in *;
        rewrite Hj, Nr, bool_decide_false, !bool_decide_true by done; done. }
    cbn [mbind result_bind andb]. rewrite (proj2 (Nat.leb_gt _ _)) by lia. cbn [guard mbind result_bind].
    rewrite (IH (chain_hash f) rs (acc ++ [r])) by (done || (rewrite length_app; simpl; lia)). by rewrite <-(assoc_L (++)).
Qed.
Context {CL : CryptoLaws}.

Lemma disclose_finalized a c key e nonce node fs rs s hb n :
  discloses a c (sk_key_id key) -> key_wrap key (cb_public_key c) e nonce = Ok (wrapped_epoch_key (vs_header s)) ->
  sh_key_id (vs_header s) = sk_key_id key -> valid_segment s hb n -> vs_frames s = fs ->
  sealed_chain (vs_header s) (secret key) (sha256 hb) fs rs ->
  Forall record_wf rs -> Forall (fun r => record_node r = node) rs -> node <> zeroes 32 ->
  disclose_trace_segment a (purpose (sk_key_id key)) (jurisdiction (sk_key_id key)) c s node = Some (Ok rs).
Proof.
  intros Hd Hw Hid V <- Hs Wr Nr Hz. unfold disclose_trace_segment, disclose_trace_segment_selected,
    disclose_trace_segment_selected_bounded. rewrite (unwrap_wrapped a c key e nonce _ Hd Hw).
  assert (epoch_key_commitment (wrapped_epoch_key (vs_header s)) = sha256 (vec_to_list (secret key))) as Hc.
  { unfold key_wrap in Hw. inv_ok. by rewrite <-Hw. }
  destruct Hd as (_ & _ & Ha & _). unfold decrypt_trace_segment_selected. cbn [oe_key_id oe_secret].
  rewrite Hc, Hid, Ha, (bool_decide_false (node = _)), !bool_decide_true by done. cbn [negb orb guard mbind result_bind].
  unfold header_hash. rewrite (sv_header _ _ _ V). cbn [ok fmap option_fmap option_map mbind option_bind]. f_equal.
  by rewrite (decrypt_sealed _ _ node _ _ (sha256 hb) rs []).
Qed.

(** C29: Trace sealing end to end.  A node creates a segment for a custodian's public key, appends
    records [l1], crashes with the open file cut at any byte after the header, recovers with the epoch key,
    appends records [l2] and finalizes.  Then the published file verifies publicly, and a disclosure
    authorized for the key, made by that custodian, returns exactly the records of the frames that were
    complete at the crash followed by [l2], in order; nothing is lost, altered or added. *)
Theorem trace_disclosure_roundtrip
  (a : AuthorizedDisclosure) (c : CustodyBackend) (key : EpochSealingKey) (node : arr 32)
  (io : Io) (sid eph : arr 32) (non : arr 24) (spk : arr 32) (o m : Z) (d d0 d1 d3 d4 : SegmentDir) (w0 w1 w3 : SegmentWriter)
  (l1 l2 : list (Io * arr 24 * DisclosedTraceRecord)) (bs : bytes) (k y : nat) (w2 : SegmentWriter) (d2 : SegmentDir)
  (closed : Z) (signer : arr 32) (ft : SegmentFooter) :
  discloses a c (sk_key_id key) -> node <> zeroes 32 ->
  Forall record_wf (records l1 ++ records l2) -> Forall (fun r => record_node r = node) (records l1 ++ records l2) ->
  create_for_platform true io sid eph non key (cb_public_key c) spk o m d = (Ok w0, d0) -> header_wf (sw_header w0) ->
  append_all l1 w0 d0 = Some (w1, d1) -> open_file d1 = Some bs ->
  (SEGMENT_HEADER_LEN <= k <= length bs)%nat ->
  recover_segment_for_platform true io_ok key {| final_file := None; open_file := Some (take k bs); synced := y |}
    = Some (Ok (Resumed w2), d2) ->
  append_all l2 w2 d2 = Some (w3, d3) -> in_uint 64 closed ->
  finalize_durable io_ok closed signer w3 d3 = Some (Ok ft, d4) ->
  exists n file s, frame_len (purpose (sk_key_id key)) = Ok n /\ final_file d4 = Some file /\ verify_segment_bytes file = Some (Ok s) /\
    disclose_trace_segment a (purpose (sk_key_id key)) (jurisdiction (sk_key_id key)) c s node
      = Some (Ok (take ((k - SEGMENT_HEADER_LEN) / n) (records l1) ++ records l2)).
Proof.
  intros Hd Hz Wr Nr Hcr Wh H1 Hbs Hk Hrec H2 Hcl Hfin.
  apply create_at in Hcr as (Ek & Eid & Hwrap & hb & n & W0 & ->); [|done].
  assert (sealing w0 {| final_file := None; open_file := Some hb; synced := SEGMENT_HEADER_LEN |} hb n [] []) as S0.
  { split; try done. unfold open_bytes. change (frames_bytes []) with (@nil byte). by rewrite app_nil_r. }
  apply (append_all_sealing _ _ _ _ _ _ _ _ _ S0) in H1 as (Eh1 & Ek1 & fs1 & S1). rewrite !app_nil_l in S1.
  destruct S1 as [W1 C1 _ O1]. assert (bs = open_bytes hb fs1) as -> by congruence.
  assert (key_matches key (sw_header w1)) as Hmatch.
  { unfold key_matches. rewrite Eh1. split; [done|]. unfold key_wrap in Hwrap. inv_ok. by rewrite <-Hwrap. }
  pose proof (recover_torn w1 key hb n fs1 {| record_count := 0; first_record_hash := zeroes 32; final_chain_hash := zeroes 32;
    closed_at_ms := 0; ft_signature := zeroes 64 |} y k W1 Hmatch ltac:(unfold SEGMENT_FOOTER_LEN; lia)) as R.
  cbv zeta in R. rewrite take_app_le in R by lia. rewrite R in Hrec. clear R.
  injection Hrec as <- <-. set (q := ((k - SEGMENT_HEADER_LEN) / frame_size n)%nat) in *.
  assert (sealing (chain_writer (sw_header w1) key hb (take q fs1)) {| final_file := None; open_file := Some (open_bytes hb (take q fs1));
    synced := length (open_bytes hb (take q fs1)) |} hb n (take q fs1) (take q (records l1))) as S2.
  { split; try done; [by apply chain_writer_at, writer_at_take|]. cbn [chain_writer sw_header sw_epoch_key].
    rewrite Ek1, Ek in C1. by apply sealed_chain_take. }
  apply (append_all_sealing _ _ _ _ _ _ _ _ _ S2) in H2 as (Eh3 & Ek3 & fs3 & [W3 C3 F3 O3]).
  cbn [chain_writer sw_header sw_epoch_key] in Eh3, Ek3.
  apply (finalize_cases _ _ _ _ _ hb n (take q fs1 ++ fs3)) in Hfin as [(? & ? & ? & _)|(ft' & V & -> & _)]; [done| |done..].
  pose proof (wa_len _ _ _ _ W0) as Hn. rewrite Eid in Hn.
  eexists (frame_size n), _, _. split; [by apply plaintext_len_frame|]. split; [done|]. split; [by eapply verify_segment_bytes_complete|].
  eapply disclose_finalized; cbn [vs_header vs_frames]; try done; rewrite ?Eh3, ?Eh1; try done.
  - rewrite Eh3, Ek3, Eh1 in C3. done.
  - apply Forall_app in Wr as [? ?]. apply Forall_app. split; [by apply Forall_take|done].
  - apply Forall_app in Nr as [? ?]. apply Forall_app. split; [by apply Forall_take|done].
Qed.
End Flow.
