(* ===== verification/Approval.v ===== *)
(** [pigeonpost-compliance/src/approval.rs]: two-person approval of a disclosure.

    A request carries only salted commitments to the sensitive case material; two different
    approvers must sign it within its window, and it can then be used once.  What the code draws
    from the operating system's generator is the argument [draws]: a loop that draws until a
    condition holds is [None] when the listed draws end before it does. *)
From stdpp Require Import sorting.
From S2P Require Import Prelude Text Crypto Compliance Layout TraceRecord Custody.

Definition REQUEST_DOMAIN : bytes := lit "pigeonpost/disclosure-request/v1".
Definition APPROVAL_DOMAIN : bytes := lit "pigeonpost/disclosure-approval/v1".
Definition COMMITMENT_DOMAIN : bytes := lit "pigeonpost/disclosure-private-field/v1".
Definition MAX_DISCLOSURE_KEYS : nat := 64.

Inductive DisclosureState := Pending | Authorized | Consumed | Denied | Expired.

#[global] Instance DisclosureState_eq_dec : EqDecision DisclosureState.
Proof. solve_decision. Defined.

Record SensitiveRequestMaterial := { order_reference : bytes; requester_identity : bytes; selectors : bytes }.

Record CommitmentOpenings := { order_salt : arr 32; requester_salt : arr 32; selector_salt : arr 32 }.

Record DisclosureRequest := {
  rq_request_id : arr 32;
  rq_jurisdiction : Jurisdiction;
  rq_purpose : CompliancePurpose;
  rq_key_ids : list ComplianceKeyId;
  rq_created_at_ms : Z;
  rq_expires_at_ms : Z;
  rq_order_commitment : arr 32;
  rq_requester_commitment : arr 32;
  rq_selector_commitment : arr 32;
  rq_approver_keys : list (arr 32);
  rq_approvers : list (arr 32);
  rq_approver_salts : list (arr 32);
  rq_state : DisclosureState;
}.

Definition with_state (s : DisclosureState) (r : DisclosureRequest) : DisclosureRequest := {|
  rq_request_id := rq_request_id r; rq_jurisdiction := rq_jurisdiction r; rq_purpose := rq_purpose r;
  rq_key_ids := rq_key_ids r; rq_created_at_ms := rq_created_at_ms r; rq_expires_at_ms := rq_expires_at_ms r;
  rq_order_commitment := rq_order_commitment r; rq_requester_commitment := rq_requester_commitment r;
  rq_selector_commitment := rq_selector_commitment r; rq_approver_keys := rq_approver_keys r;
  rq_approvers := rq_approvers r; rq_approver_salts := rq_approver_salts r; rq_state := s |}.

(** The three pushes of [approve]. *)
Definition push_approver (key commitment salt : arr 32) (r : DisclosureRequest) : DisclosureRequest := {|
  rq_request_id := rq_request_id r; rq_jurisdiction := rq_jurisdiction r; rq_purpose := rq_purpose r;
  rq_key_ids := rq_key_ids r; rq_created_at_ms := rq_created_at_ms r; rq_expires_at_ms := rq_expires_at_ms r;
  rq_order_commitment := rq_order_commitment r; rq_requester_commitment := rq_requester_commitment r;
  rq_selector_commitment := rq_selector_commitment r; rq_approver_keys := rq_approver_keys r ++ [key];
  rq_approvers := rq_approvers r ++ [commitment]; rq_approver_salts := rq_approver_salts r ++ [salt];
  rq_state := rq_state r |}.

Section Approval.
Context {C : Crypto}.

(** * Commitments *)

Definition commit_input (label : bytes) (salt : arr 32) (raw : bytes) : bytes :=
  COMMITMENT_DOMAIN ++ be_bytes 2 (Z.of_nat (length label)) ++ label ++ vec_to_list salt
  ++ be_bytes 8 (Z.of_nat (length raw)) ++ raw.
Definition commit (label : bytes) (salt : arr 32) (raw : bytes) : arr 32 := sha256 (commit_input label salt raw).

(** The loops that draw a salt: the salt, its commitment and the draws that are left. *)
Fixpoint draw_commitment (label raw : bytes) (taken : list (arr 32)) (draws : list (arr 32))
  : option (arr 32 * arr 32 * list (arr 32)) :=
  match draws with
  | [] => None
  | salt :: draws =>
      let value := commit label salt raw in
      if (value ≟ zeroes 32) || bool_decide (value ∈ taken) then draw_commitment label raw taken draws
      else Some (salt, value, draws)
  end.

Definition random_commitment (label raw : bytes) (draws : list (arr 32)) : option (arr 32 * arr 32 * list (arr 32)) :=
  draw_commitment label raw [] draws.

Definition verifies_order (o : CommitmentOpenings) (r : DisclosureRequest) (raw : bytes) : bool :=
  commit (lit "order") (order_salt o) raw ≟ rq_order_commitment r.
Definition verifies_requester (o : CommitmentOpenings) (r : DisclosureRequest) (raw : bytes) : bool :=
  commit (lit "requester") (requester_salt o) raw ≟ rq_requester_commitment r.
Definition verifies_selectors (o : CommitmentOpenings) (r : DisclosureRequest) (raw : bytes) : bool :=
  commit (lit "selectors") (selector_salt o) raw ≟ rq_selector_commitment r.

(** * Creation *)

(** [key_id.encode().expect("validated key id")]: [encode] fails only where [validate] does. *)
Definition encoded_key_id (k : ComplianceKeyId) : bytes := default [] (ok (key_id_encode k)).

Definition request_id_input (jurisdiction : Jurisdiction) (purpose : CompliancePurpose) (key_ids : list ComplianceKeyId)
  (created_at_ms expires_at_ms : Z) (order_commitment requester_commitment selector_commitment : arr 32) : bytes :=
  REQUEST_DOMAIN ++ [jurisdiction_u8 jurisdiction; purpose_u8 purpose] ++ be_bytes 8 created_at_ms
  ++ be_bytes 8 expires_at_ms ++ [to_u8 (Z.of_nat (length key_ids))] ++ concat (map encoded_key_id key_ids)
  ++ vec_to_list order_commitment ++ vec_to_list requester_commitment ++ vec_to_list selector_commitment.

Definition request_id (jurisdiction : Jurisdiction) (purpose : CompliancePurpose) (key_ids : list ComplianceKeyId)
  (created_at_ms expires_at_ms : Z) (order_commitment requester_commitment selector_commitment : arr 32) : arr 32 :=
  sha256 (request_id_input jurisdiction purpose key_ids created_at_ms expires_at_ms order_commitment
            requester_commitment selector_commitment).

(** [sort_by_key(encode)] *)
Definition key_id_le (a b : ComplianceKeyId) : Prop := bytes_cmp (encoded_key_id a) (encoded_key_id b) <> Gt.
#[global] Instance key_id_le_dec : RelDecision key_id_le.
Proof. intros a b. unfold key_id_le. apply _. Defined.
Definition sort_key_ids (ks : list ComplianceKeyId) : list ComplianceKeyId := merge_sort key_id_le ks.

(** [windows(2).any(|pair| pair[0] == pair[1])] *)
Fixpoint adjacent_equal (ks : list ComplianceKeyId) : bool :=
  match ks with
  | a :: ((b :: _) as rest) => (a ≟ b) || adjacent_equal rest
  | _ => false
  end.

(** The first loop of [new]: every key is valid and of this purpose and jurisdiction. *)
Definition key_id_fits (jurisdiction : Jurisdiction) (purpose : CompliancePurpose) (k : ComplianceKeyId) : bool :=
  is_ok (key_id_validate k) && (Compliance.purpose k ≟ purpose) && (Compliance.jurisdiction k ≟ jurisdiction).

Definition request_checks (jurisdiction : Jurisdiction) (purpose : CompliancePurpose) (key_ids : list ComplianceKeyId)
  (created_at_ms expires_at_ms : Z) (sensitive : SensitiveRequestMaterial) : ComplianceResult (list ComplianceKeyId) :=
  _ ← guard ((created_at_ms =? 0) || (expires_at_ms <=? created_at_ms) || (length key_ids =? 0)%nat
             || (MAX_DISCLOSURE_KEYS <? length key_ids)%nat || (length (order_reference sensitive) =? 0)%nat
             || (length (requester_identity sensitive) =? 0)%nat || (length (selectors sensitive) =? 0)%nat)
        ComplianceError.InvalidRequest;
  _ ← guard (negb (forallb (key_id_fits jurisdiction purpose) key_ids)) ComplianceError.WrongPurpose;
  let key_ids := sort_key_ids key_ids in
  _ ← guard (adjacent_equal key_ids) ComplianceError.InvalidRequest;
  Ok key_ids.

Definition request_new (draws : list (arr 32)) (jurisdiction : Jurisdiction) (purpose : CompliancePurpose)
  (key_ids : list ComplianceKeyId) (created_at_ms expires_at_ms : Z) (sensitive : SensitiveRequestMaterial)
  : option (ComplianceResult (DisclosureRequest * CommitmentOpenings)) :=
  match request_checks jurisdiction purpose key_ids created_at_ms expires_at_ms sensitive with
  | Err e => Some (Err e)
  | Ok key_ids =>
      '(order_salt, order_commitment, draws) ← random_commitment (lit "order") (order_reference sensitive) draws;
      '(requester_salt, requester_commitment, draws) ←
        random_commitment (lit "requester") (requester_identity sensitive) draws;
      '(selector_salt, selector_commitment, draws) ← random_commitment (lit "selectors") (selectors sensitive) draws;
      Some (Ok ({|
        rq_request_id := request_id jurisdiction purpose key_ids created_at_ms expires_at_ms order_commitment
                           requester_commitment selector_commitment;
        rq_jurisdiction := jurisdiction; rq_purpose := purpose; rq_key_ids := key_ids;
        rq_created_at_ms := created_at_ms; rq_expires_at_ms := expires_at_ms;
        rq_order_commitment := order_commitment; rq_requester_commitment := requester_commitment;
        rq_selector_commitment := selector_commitment; rq_approver_keys := []; rq_approvers := [];
        rq_approver_salts := []; rq_state := Pending |},
        {| order_salt := order_salt; requester_salt := requester_salt; selector_salt := selector_salt |}))
  end.

(** * Approval, denial, use *)

Definition expire_if_needed (now_ms : Z) (r : DisclosureRequest) : DisclosureRequest :=
  if (rq_expires_at_ms r <? now_ms) && ((rq_state r ≟ Pending) || (rq_state r ≟ Authorized)) then with_state Expired r else r.

Definition approval_preimage (r : DisclosureRequest) (approved_at_ms : Z) : bytes :=
  APPROVAL_DOMAIN ++ vec_to_list (rq_request_id r) ++ be_bytes 8 approved_at_ms ++ [x01].

(** The error of a request that is not in the state an operation needs. *)
Definition state_error (s : DisclosureState) (otherwise : ComplianceError.ComplianceError) : ComplianceError.ComplianceError :=
  match s with Expired => ComplianceError.Expired | _ => otherwise end.

Definition approve (draws : list (arr 32)) (approver_public_key : arr 32) (approved_at_ms : Z) (signature : Signature)
  (r : DisclosureRequest) : option (ComplianceResult unit * DisclosureRequest) :=
  let r := expire_if_needed approved_at_ms r in
  match
    _ ← guard (negb (rq_state r ≟ Pending) || (approved_at_ms <? rq_created_at_ms r))
          (state_error (rq_state r) ComplianceError.StateConflict);
    key ← seal_err (verifying_key_from_bytes approver_public_key) ComplianceError.BadApproval;
    _ ← seal_err (verify key (approval_preimage r approved_at_ms) signature) ComplianceError.BadApproval;
    guard (bool_decide (approver_public_key ∈ rq_approver_keys r)) ComplianceError.BadApproval
  with
  | Err e => Some (Err e, r)
  | Ok _ =>
      '(salt, approver_commitment, _) ←
        draw_commitment (lit "approver") (vec_to_list approver_public_key) (rq_approvers r) draws;
      let r := push_approver approver_public_key approver_commitment salt r in
      Some (Ok tt, if (length (rq_approvers r) =? 2)%nat then with_state Authorized r else r)
  end.

Definition deny (at_ms : Z) (r : DisclosureRequest) : ComplianceResult unit * DisclosureRequest :=
  let r := expire_if_needed at_ms r in
  if negb (rq_state r ≟ Pending) then (Err ComplianceError.StateConflict, r) else (Ok tt, with_state Denied r).

Definition consume (at_ms : Z) (r : DisclosureRequest) : ComplianceResult AuthorizedDisclosure * DisclosureRequest :=
  let r := expire_if_needed at_ms r in
  if negb (rq_state r ≟ Authorized) then (Err (state_error (rq_state r) ComplianceError.Unauthorized), r)
  else (Ok {| ad_request_id := rq_request_id r; ad_jurisdiction := rq_jurisdiction r; ad_purpose := rq_purpose r;
              ad_key_ids := rq_key_ids r |}, with_state Consumed r).

Definition ensure_authorized (at_ms : Z) (r : DisclosureRequest) : ComplianceResult unit * DisclosureRequest :=
  let r := expire_if_needed at_ms r in
  if rq_state r ≟ Authorized then (Ok tt, r) else (Err (state_error (rq_state r) ComplianceError.Unauthorized), r).

(** * The life of a request *)

(** One call on a request, whatever its arguments and its outcome. *)
Inductive request_step (r : DisclosureRequest) : DisclosureRequest -> Prop :=
  | step_approve draws key at_ms signature res r' :
      approve draws key at_ms signature r = Some (res, r') -> request_step r r'
  | step_deny at_ms : request_step r (snd (deny at_ms r))
  | step_consume at_ms : request_step r (snd (consume at_ms r))
  | step_ensure at_ms : request_step r (snd (ensure_authorized at_ms r)).

(** The key signed this request at a time within its window. *)
Definition signed_within (r : DisclosureRequest) (key : arr 32) : Prop :=
  exists at_ms signature, rq_created_at_ms r <= at_ms <= rq_expires_at_ms r /\
    vk_decodes key = true /\ vk_is_weak key = false /\ verify_strict key (approval_preimage r at_ms) signature = true.

(** The fields that never change. *)
Definition same_request (r r' : DisclosureRequest) : Prop :=
  rq_request_id r' = rq_request_id r /\ rq_jurisdiction r' = rq_jurisdiction r /\ rq_purpose r' = rq_purpose r /\
  rq_key_ids r' = rq_key_ids r /\ rq_created_at_ms r' = rq_created_at_ms r /\ rq_expires_at_ms r' = rq_expires_at_ms r /\
  rq_order_commitment r' = rq_order_commitment r /\ rq_requester_commitment r' = rq_requester_commitment r /\
  rq_selector_commitment r' = rq_selector_commitment r.

#[global] Instance same_request_preorder : PreOrder same_request.
Proof. split; [intros r; by repeat split|]. intros a b c. unfold same_request. naive_solver congruence. Qed.

Definition approvers_of (r : DisclosureRequest) : nat := length (rq_approver_keys r).

Record request_inv (r : DisclosureRequest) : Prop := {
  ri_signed : Forall (signed_within r) (rq_approver_keys r);
  ri_keys : NoDup (rq_approver_keys r);
  ri_committed : rq_approvers r =
    zip_with (fun salt key => commit (lit "approver") salt (vec_to_list key)) (rq_approver_salts r) (rq_approver_keys r);
  ri_salts : length (rq_approver_salts r) = length (rq_approver_keys r);
  ri_distinct : NoDup (rq_approvers r);
  ri_nonzero : zeroes 32 ∉ rq_approvers r;
  ri_state : match rq_state r with
    | Pending | Denied => (approvers_of r < 2)%nat
    | Authorized | Consumed => approvers_of r = 2%nat
    | Expired => (approvers_of r <= 2)%nat
    end;
}.

Lemma approvers_length r : request_inv r -> length (rq_approvers r) = approvers_of r.
Proof. intros I. rewrite (ri_committed r I), length_zip_with, (ri_salts r I). unfold approvers_of. lia. Qed.

(** A change of state alone keeps everything else. *)
Lemma with_state_inv s r :
  request_inv r ->
  (match s with
   | Pending | Denied => approvers_of r < 2
   | Authorized | Consumed => approvers_of r = 2
   | Expired => approvers_of r <= 2
   end)%nat ->
  request_inv (with_state s r).
Proof. intros [] H. by split. Qed.

Lemma expire_inv now r : request_inv r -> request_inv (expire_if_needed now r).
Proof.
  intros I. unfold expire_if_needed. destruct (_ && _) eqn:E; [|done]. apply with_state_inv; [done|].
  pose proof (ri_state r I) as H. b2p. destruct (rq_state r); lia.
Qed.

Lemma expire_same now r : same_request r (expire_if_needed now r).
Proof. unfold expire_if_needed. case_match; by repeat split. Qed.

Lemma with_state_same s r : same_request r (with_state s r).
Proof. by repeat split. Qed.

(** What an operation that needs a live state knows of the time. *)
Lemma expire_live now r :
  rq_state (expire_if_needed now r) = Pending \/ rq_state (expire_if_needed now r) = Authorized ->
  expire_if_needed now r = r /\ now <= rq_expires_at_ms r.
Proof.
  unfold expire_if_needed. destruct (rq_expires_at_ms r <? now) eqn:Ht; cbn [andb]; b2p; [|done].
  case_match eqn:E; cbn [rq_state with_state]; [naive_solver|]. intros [H|H]; rewrite H in E; discriminate E.
Qed.

Lemma draw_commitment_spec label raw taken draws salt value rest :
  draw_commitment label raw taken draws = Some (salt, value, rest) ->
  value = commit label salt raw /\ value <> zeroes 32 /\ value ∉ taken.
Proof.
  induction draws as [|s draws IH]; [done|]. cbn [draw_commitment]. case_match eqn:E; [done|].
  intros [= <- <- <-]. b2p. done.
Qed.

(** A loop ends as soon as one draw will do. *)
Lemma draw_commitment_ends label raw taken draws salt :
  salt ∈ draws -> commit label salt raw <> zeroes 32 -> commit label salt raw ∉ taken ->
  is_Some (draw_commitment label raw taken draws).
Proof.
  intros Hin Hz Ht. induction draws as [|s draws IH]; [by apply not_elem_of_nil in Hin|].
  cbn [draw_commitment]. case_match eqn:E; [|by eexists]. apply IH. apply elem_of_cons in Hin as [<-|]; [|done].
  by rewrite !bool_decide_false in E by done.
Qed.

(** The branches of [approve]. *)
Lemma approve_cases draws key at_ms signature r res r' :
  approve draws key at_ms signature r = Some (res, r') ->
  (exists e, res = Err e /\ r' = expire_if_needed at_ms r) \/
  (res = Ok tt /\ rq_state r = Pending /\ rq_created_at_ms r <= at_ms <= rq_expires_at_ms r /\
   vk_decodes key = true /\ vk_is_weak key = false /\ verify_strict key (approval_preimage r at_ms) signature = true /\
   key ∉ rq_approver_keys r /\
   exists salt value, value = commit (lit "approver") salt (vec_to_list key) /\ value <> zeroes 32 /\ value ∉ rq_approvers r /\
     r' = let p := push_approver key value salt r in
          if (length (rq_approvers p) =? 2)%nat then with_state Authorized p else p).
Proof.
  intros H. unfold approve in H. cbv zeta in H.
  match type of H with match ?m with _ => _ end = _ => destruct m as [u|e] eqn:E end; [|left; simplify_eq; eauto].
  right. inv_ok. apply seal_err_Ok, verifying_key_from_bytes_Ok in Ha0 as (-> & Hd & Hw). apply seal_err_Ok, verify_Ok in Ha1.
  b2p. destruct (expire_live at_ms r) as [Hs He]; [by left|]. rewrite Hs in *.
  apply bind_Some in H as ([[salt value] rest] & Hdraw & H). apply draw_commitment_spec in Hdraw as (-> & Hz & Ht).
  simplify_eq. do 7 (split; [done || lia|]). by exists salt, (commit (lit "approver") salt (vec_to_list key)).
Qed.

Lemma push_inv key value salt r :
  request_inv r -> rq_state r = Pending -> signed_within r key -> key ∉ rq_approver_keys r ->
  value = commit (lit "approver") salt (vec_to_list key) -> value <> zeroes 32 -> value ∉ rq_approvers r ->
  let p := push_approver key value salt r in
  request_inv (if (length (rq_approvers p) =? 2)%nat then with_state Authorized p else p).
Proof.
  intros I Hp Hs Hk -> Hz Ht p. pose proof (approvers_length r I) as Hl. pose proof (ri_state r I) as Hst. rewrite Hp in Hst.
  assert (approvers_of p = S (approvers_of r)) as Hn by (unfold approvers_of, p; simpl; rewrite length_app; simpl; lia).
  assert (length (rq_approvers p) = S (approvers_of r)) as Hlp by (unfold p; simpl; rewrite length_app, Hl; simpl; lia).
  assert (forall s, (match s with
     | Pending | Denied => approvers_of p < 2 | Authorized | Consumed => approvers_of p = 2
     | Expired => approvers_of p <= 2 end)%nat -> request_inv (with_state s p)) as K.
  { destruct I. intros s Hsn. split; unfold p; cbn [push_approver with_state rq_approver_keys rq_approvers rq_approver_salts rq_state].
    - apply Forall_app. split; [done|]. by apply Forall_singleton.
    - apply NoDup_app. split; [done|]. split; [|apply NoDup_singleton]. by intros x Hx ->%list_elem_of_singleton.
    - by rewrite zip_with_app, <-ri_committed0 by done.
    - rewrite !length_app, ri_salts0. done.
    - apply NoDup_app. split; [done|]. split; [|apply NoDup_singleton]. by intros x Hx ->%list_elem_of_singleton.
    - intros [Hx|Hx%list_elem_of_singleton]%elem_of_app; [done|]. by apply Hz.
    - exact Hsn. }
  destruct (Nat.eqb_spec (length (rq_approvers p)) 2) as [E|E].
  - apply (K Authorized). lia.
  - replace p with (with_state Pending p); [apply K; lia|]. unfold p, with_state, push_approver; simpl. by rewrite Hp.
Qed.

Lemma request_step_inv r r' : request_step r r' -> request_inv r -> request_inv r' /\ same_request r r'.
Proof.
  intros [draws key at_ms sig res r'' H|at_ms|at_ms|at_ms] I.
  - apply approve_cases in H as [(e & -> & ->)|(_ & Hp & Ht & Hd & Hw & Hv & Hk & salt & value & Hc & Hz & Hn & ->)].
    { split; [by apply expire_inv|apply expire_same]. }
    split; [apply push_inv; try done; by exists at_ms, sig|]. cbv zeta. case_match; by repeat split.
  - unfold deny. pose proof (expire_inv at_ms r I) as I'. pose proof (expire_same at_ms r). case_match eqn:E; simpl; [done|]. b2p.
    split; [|by etrans; [|apply with_state_same]]. apply with_state_inv; [done|]. pose proof (ri_state _ I') as H'. by rewrite E in H'.
  - unfold consume. pose proof (expire_inv at_ms r I) as I'. pose proof (expire_same at_ms r). case_match eqn:E; simpl; [done|]. b2p.
    split; [|by etrans; [|apply with_state_same]]. apply with_state_inv; [done|]. pose proof (ri_state _ I') as H'. by rewrite E in H'.
  - unfold ensure_authorized. pose proof (expire_inv at_ms r I). pose proof (expire_same at_ms r). by case_match.
Qed.

Lemma request_run_inv r r' : rtc request_step r r' -> request_inv r -> request_inv r' /\ same_request r r'.
Proof.
  induction 1 as [r|r r1 r2 H _ IH]; intros I; [done|]. apply request_step_inv in H as [I1 S1]; [|done].
  destruct (IH I1) as [I2 S2]. split; [done|]. by etrans.
Qed.

(** ** Creation *)

Lemma bytes_cmp_antisym a : forall b, bytes_cmp a b = CompOpp (bytes_cmp b a).
Proof.
  induction a as [|x a IH]; intros [|y b]; try done. cbn [bytes_cmp]. rewrite (Z.compare_antisym (u8 y)), IH.
  by destruct (u8 y ?= u8 x).
Qed.

Lemma bytes_cmp_Eq a : forall b, bytes_cmp a b = Eq -> a = b.
Proof.
  induction a as [|x a IH]; intros [|y b]; try done. cbn [bytes_cmp].
  destruct (Z.compare_spec (u8 x) (u8 y)) as [E|E|E]; try done. intros H. apply (inj u8) in E. by rewrite E, (IH b H).
Qed.

Lemma key_id_fits_spec j p k :
  key_id_fits j p k = true <-> version k = COMPLIANCE_KEY_ID_VERSION /\ purpose k = p /\ jurisdiction k = j.
Proof.
  unfold key_id_fits. rewrite !andb_true_iff, !bool_decide_eq_true.
  assert (is_ok (key_id_validate k) = true <-> version k = COMPLIANCE_KEY_ID_VERSION) as ->; [|tauto].
  rewrite <-(key_id_validate_Ok k tt). destruct (key_id_validate k) as [[]|]; by split.
Qed.

Lemma encoded_key_id_Ok k : version k = COMPLIANCE_KEY_ID_VERSION -> key_id_encode k = Ok (encoded_key_id k).
Proof.
  intros H. unfold encoded_key_id, key_id_encode. rewrite (proj2 (key_id_validate_Ok k tt) H). done.
Qed.

Lemma request_checks_Ok j p ks c e sens ks' :
  request_checks j p ks c e sens = Ok ks' ->
  c <> 0 /\ c < e /\ (1 <= length ks' <= MAX_DISCLOSURE_KEYS)%nat /\ ks' ≡ₚ ks /\ Sorted key_id_le ks' /\
  adjacent_equal ks' = false /\
  Forall (fun k => version k = COMPLIANCE_KEY_ID_VERSION /\ purpose k = p /\ jurisdiction k = j) ks'.
Proof.
  unfold request_checks. cbv zeta. intros H. inv_ok. subst ks'. b2p.
  assert (sort_key_ids ks ≡ₚ ks) as Hp by apply merge_sort_Permutation.
  rewrite (Permutation_length Hp). split_and!; [done|lia|lia|lia|done| |done|].
  - apply Sorted_merge_sort. intros x y. unfold key_id_le. rewrite (bytes_cmp_antisym (encoded_key_id y)).
    destruct (bytes_cmp (encoded_key_id x) (encoded_key_id y)); simpl; auto.
  - rewrite Hp. apply Forall_forall. intros k Hk. apply key_id_fits_spec.
    eapply forallb_forall; [|by apply list_elem_of_In]. done.
Qed.

Lemma request_new_Ok draws j p ks c e sens r o :
  request_new draws j p ks c e sens = Some (Ok (r, o)) ->
  request_inv r /\ rq_state r = Pending /\ rq_jurisdiction r = j /\ rq_purpose r = p /\ rq_created_at_ms r = c /\
  rq_expires_at_ms r = e /\ request_checks j p ks c e sens = Ok (rq_key_ids r) /\
  rq_request_id r = request_id j p (rq_key_ids r) c e (rq_order_commitment r) (rq_requester_commitment r) (rq_selector_commitment r) /\
  verifies_order o r (order_reference sens) = true /\ verifies_requester o r (requester_identity sens) = true /\
  verifies_selectors o r (selectors sens) = true /\
  rq_order_commitment r <> zeroes 32 /\ rq_requester_commitment r <> zeroes 32 /\ rq_selector_commitment r <> zeroes 32.
Proof.
  unfold request_new, random_commitment. destruct (request_checks j p ks c e sens) as [ks'|] eqn:E; [|done]. intros H.
  apply bind_Some in H as ([[s1 v1] d1] & D1%draw_commitment_spec & H). apply bind_Some in H as ([[s2 v2] d2] & D2%draw_commitment_spec & H).
  apply bind_Some in H as ([[s3 v3] d3] & D3%draw_commitment_spec & H). apply Some_inj, Ok_inj, pair_eq in H as [<- <-].
  destruct_and!. split.
  { split; cbn [rq_approver_keys rq_approvers rq_approver_salts rq_state]; try done; try constructor; auto using not_elem_of_nil. }
  unfold verifies_order, verifies_requester, verifies_selectors. subst. cbn -[commit zeroes]. rewrite !bool_decide_true by done. done.
Qed.

(** ** One use *)

Lemma final_steps s r r' :
  s = Consumed \/ s = Denied \/ s = Expired -> rq_state r = s -> request_step r r' -> rq_state r' = s.
Proof.
  intros Hs Hr H.
  assert (forall t, expire_if_needed t r = r) as He.
  { intros t. unfold expire_if_needed. rewrite Hr. destruct Hs as [-> | [-> | ->]]; by rewrite andb_false_r. }
  destruct H as [draws key t sig res r'' H|t|t|t].
  - apply approve_cases in H as [(e & -> & ->)|(_ & Hp & _)]; [by rewrite He|]. destruct Hs as [-> | [-> | ->]]; congruence.
  - unfold deny. rewrite He, Hr. by destruct Hs as [-> | [-> | ->]].
  - unfold consume. rewrite He, Hr. by destruct Hs as [-> | [-> | ->]].
  - unfold ensure_authorized. rewrite He, Hr. by destruct Hs as [-> | [-> | ->]].
Qed.

Lemma final_run s r r' :
  s = Consumed \/ s = Denied \/ s = Expired -> rq_state r = s -> rtc request_step r r' -> rq_state r' = s.
Proof. intros Hs Hr H. induction H as [|r r1 r2 H _ IH]; [done|]. apply IH. by eapply final_steps. Qed.

Lemma consume_Ok t r a r' :
  consume t r = (Ok a, r') ->
  rq_state r = Authorized /\ t <= rq_expires_at_ms r /\ r' = with_state Consumed r /\
  a = {| ad_request_id := rq_request_id r; ad_jurisdiction := rq_jurisdiction r; ad_purpose := rq_purpose r;
         ad_key_ids := rq_key_ids r |}.
Proof.
  unfold consume. case_match eqn:E; [done|]. b2p. destruct (expire_live t r) as [He Ht]; [by right|]. rewrite He in *. by intros [= <- <-].
Qed.

Lemma consume_consumed t r : rq_state r = Consumed -> fst (consume t r) = Err ComplianceError.Unauthorized.
Proof. intros H. unfold consume, expire_if_needed. by rewrite H, andb_false_r, H. Qed.

(** ** What a commitment and a request identifier bind *)

Lemma commit_binds label salt salt' raw raw' :
  Z.of_nat (length raw) < 2 ^ 64 -> Z.of_nat (length raw') < 2 ^ 64 ->
  commit label salt raw = commit label salt' raw' ->
  (salt = salt' /\ raw = raw') \/ collision_in [commit_input label salt raw; commit_input label salt' raw'].
Proof.
  intros Hr Hr' [E|E]%collision_in_pair; [left|by right].
  assert (in_uint (8 * Z.of_nat 8) (Z.of_nat (length raw))) by (split; [lia|done]).
  assert (in_uint (8 * Z.of_nat 8) (Z.of_nat (length raw'))) by (split; [lia|done]).
  unfold commit_input in E. do 3 apply app_inv_head in E. payload_inj E. done.
Qed.

Lemma concat_keys_inj ks : forall ks' (r r' : bytes),
  length ks = length ks' -> Forall (fun k => version k = COMPLIANCE_KEY_ID_VERSION /\ key_id_wf k) ks ->
  Forall (fun k => version k = COMPLIANCE_KEY_ID_VERSION /\ key_id_wf k) ks' ->
  concat (map encoded_key_id ks) ++ r = concat (map encoded_key_id ks') ++ r' -> ks = ks' /\ r = r'.
Proof.
  induction ks as [|k ks IH]; intros [|k' ks'] r r' Hl H H' E; try discriminate Hl; [done|].
  apply Forall_cons in H as [[Hv Hw] H]. apply Forall_cons in H' as [[Hv' Hw'] H']. cbn [map concat] in E.
  rewrite <-!(assoc_L (++)) in E.
  pose proof (encoded_key_id_Ok k Hv) as Ek. pose proof (encoded_key_id_Ok k' Hv') as Ek'.
  apply app_inj_len in E as [E0 E]; [|by rewrite (length_key_id_encode _ _ Ek), (length_key_id_encode _ _ Ek')].
  rewrite <-E0 in Ek'. apply (IH ks') in E as [-> ->]; [|by injection Hl|done..].
  by rewrite (key_id_encode_inj k k' _ Hw Hw' Ek Ek').
Qed.

(** The key identifiers of a request, as [new] leaves them, within the machine widths. *)
Definition keys_ok (ks : list ComplianceKeyId) : Prop :=
  (length ks <= MAX_DISCLOSURE_KEYS)%nat /\ Forall (fun k => version k = COMPLIANCE_KEY_ID_VERSION /\ key_id_wf k) ks.

Lemma request_id_input_inj j p ks c e o q s j' p' ks' c' e' o' q' s' :
  keys_ok ks -> keys_ok ks' -> in_uint 64 c -> in_uint 64 e -> in_uint 64 c' -> in_uint 64 e' ->
  request_id_input j p ks c e o q s = request_id_input j' p' ks' c' e' o' q' s' ->
  j = j' /\ p = p' /\ ks = ks' /\ c = c' /\ e = e' /\ o = o' /\ q = q' /\ s = s'.
Proof.
  intros [Hn Hk] [Hn' Hk'] Hc He Hc' He' E. unfold request_id_input in E. payload_inj E.
  apply jurisdiction_u8_inj in E0. apply purpose_u8_inj in E1.
  assert (length ks = length ks') as Hl.
  { apply (f_equal u8) in E4. rewrite !u8_to_u8, !Z.mod_small in E4 by (unfold MAX_DISCLOSURE_KEYS in *; lia). lia. }
  apply concat_keys_inj in E as [-> E]; [|done..]. payload_inj E. done.
Qed.

(** * Properties *)

(** C20: two-person rule.  Over any sequence of calls on a request, with any arguments, an
    operation is authorized only if two different keys signed this very request at times inside
    its window, and not after the request expired; the capability then names exactly the request's
    identifier, jurisdiction, purpose and keys, and no later call ever authorizes it again. *)
Theorem two_person_rule draws j p ks created expires sensitive r0 openings r at_ms authorization r' :
  request_new draws j p ks created expires sensitive = Some (Ok (r0, openings)) ->
  rtc request_step r0 r ->
  consume at_ms r = (Ok authorization, r') ->
  (exists k1 k2, k1 <> k2 /\ signed_within r0 k1 /\ signed_within r0 k2) /\
  at_ms <= expires /\
  ad_request_id authorization = rq_request_id r0 /\ ad_jurisdiction authorization = j /\ ad_purpose authorization = p /\
  ad_key_ids authorization ≡ₚ ks /\
  forall r'' at_ms', rtc request_step r' r'' -> fst (consume at_ms' r'') = Err ComplianceError.Unauthorized.
Proof.
  intros Hn Hrun Hc. apply request_new_Ok in Hn as (I0 & _ & Hj & Hp & _ & He & Hk & _).
  apply request_checks_Ok in Hk as (_ & _ & _ & Hk & _).
  destruct (request_run_inv _ _ Hrun I0) as [I (S1 & S2 & S3 & S4 & S5 & S6 & _)].
  apply consume_Ok in Hc as (Ha & Ht & -> & ->). cbn [ad_request_id ad_jurisdiction ad_purpose ad_key_ids].
  split.
  - pose proof (ri_state r I) as Hs. rewrite Ha in Hs. unfold approvers_of in Hs.
    pose proof (ri_signed r I) as Hf. pose proof (ri_keys r I) as Hd. destruct (rq_approver_keys r) as [|k1 [|k2 [|]]]; try done.
    exists k1, k2. apply NoDup_cons in Hd as [Hd _]. rewrite list_elem_of_singleton in Hd. split; [done|].
    apply Forall_cons in Hf as [H1 [Hf _]%Forall_cons].
    unfold signed_within, approval_preimage in *. rewrite S1, S5, S6 in H1, Hf. done.
  - split; [lia|]. do 4 (split; [congruence|]). intros r'' t Hr. apply consume_consumed. by apply (final_run Consumed (with_state Consumed r)); [left|..].
Qed.

(** C25: what an approver signs is one request.  If one signed preimage serves two requests and
    two times, the times are equal and the requests agree in jurisdiction, purpose, keys, window and
    all three private commitments, or two different inputs of SHA-256 with one digest are exhibited;
    and each of the three commitments, to the order, the requester and the selectors, opens to one text only, up to such a collision. *)
Theorem approval_binds_request draws j p ks c e sens r o draws' j' p' ks' c' e' sens' r' o' at_ms at_ms' :
  request_new draws j p ks c e sens = Some (Ok (r, o)) ->
  request_new draws' j' p' ks' c' e' sens' = Some (Ok (r', o')) ->
  Forall key_id_wf ks -> Forall key_id_wf ks' -> in_uint 64 c -> in_uint 64 e -> in_uint 64 c' -> in_uint 64 e' ->
  in_uint 64 at_ms -> in_uint 64 at_ms' ->
  approval_preimage r at_ms = approval_preimage r' at_ms' ->
  at_ms = at_ms' /\ (same_request r r' /\ (forall raw raw',
       Z.of_nat (length raw) < 2 ^ 64 -> Z.of_nat (length raw') < 2 ^ 64 ->
       (verifies_order o r raw = true -> verifies_order o' r' raw' = true ->
        raw = raw' \/ collision_in [commit_input (lit "order") (order_salt o) raw; commit_input (lit "order") (order_salt o') raw']) /\
       (verifies_requester o r raw = true -> verifies_requester o' r' raw' = true ->
        raw = raw' \/ collision_in [commit_input (lit "requester") (requester_salt o) raw;
                                    commit_input (lit "requester") (requester_salt o') raw']) /\
       (verifies_selectors o r raw = true -> verifies_selectors o' r' raw' = true ->
        raw = raw' \/ collision_in [commit_input (lit "selectors") (selector_salt o) raw;
                                    commit_input (lit "selectors") (selector_salt o') raw'])) \/
   collision_in [request_id_input j p (rq_key_ids r) c e (rq_order_commitment r) (rq_requester_commitment r) (rq_selector_commitment r);
                 request_id_input j' p' (rq_key_ids r') c' e' (rq_order_commitment r') (rq_requester_commitment r')
                   (rq_selector_commitment r')]).
Proof.
  intros Hn Hn' Hw Hw' Hc He Hc' He' Ht Ht' E. unfold approval_preimage in E. payload_inj E. split; [done|].
  apply request_new_Ok in Hn as (_ & _ & Hj & Hp & Hcr & Hex & Hk & Hid & _).
  apply request_new_Ok in Hn' as (_ & _ & Hj' & Hp' & Hcr' & Hex' & Hk' & Hid' & _).
  apply request_checks_Ok in Hk as (_ & _ & Hl & Hperm & _ & _ & Hf). apply request_checks_Ok in Hk' as (_ & _ & Hl' & Hperm' & _ & _ & Hf').
  rewrite <-Hperm in Hw. rewrite <-Hperm' in Hw'.
  assert (keys_ok (rq_key_ids r)) as K by (split; [lia|]; apply Forall_and; split; [by eapply Forall_impl; [exact Hf|naive_solver]|done]).
  assert (keys_ok (rq_key_ids r')) as K' by (split; [lia|]; apply Forall_and; split; [by eapply Forall_impl; [exact Hf'|naive_solver]|done]).
  pose proof E0 as Hsame. rewrite Hid, Hid' in E0. apply collision_in_pair in E0 as [E0|]; [left|by right].
  apply request_id_input_inj in E0 as (Ej & Ep & Ek & Ec & Ee & Eo & Eq & Es); [|done..]. split.
  { unfold same_request. split_and!; congruence. }
  intros raw raw' Hr Hr'. unfold verifies_order, verifies_requester, verifies_selectors. rewrite Eo, Eq, Es. split; [|split]; intros V V'; apply bool_decide_eq_true in V, V'; rewrite <-V' in V.
  all: apply commit_binds in V as [[_ ->]|V]; auto.
Qed.
End Approval.
