(* ===== verification/LedgerLeaf.v ===== *)
(** [pigeonpost-compliance/src/ledger.rs], the public leaves of the disclosure log: the intent
    written before a disclosure, the completion written after it, their encodings, and the rules a
    sequence of leaves obeys. *)
From S2P Require Import Prelude Text Crypto Compliance Layout TraceRecord Merkle Custody Approval.

Definition INTENT_VERSION : byte := x01.
Definition COMPLETION_VERSION : byte := x01.
Definition INTENT_DOMAIN : bytes := lit "pigeonpost/disclosure-intent/v1".
Definition COMPLETION_DOMAIN : bytes := lit "pigeonpost/disclosure-completion/v1".
Definition GENERIC_FAILURE_DOMAIN : bytes := lit "pigeonpost/disclosure-operation-failed/v1".

Record DisclosureIntent := {
  di_request_id : arr 32;
  di_timestamp_ms : Z;
  di_jurisdiction : Jurisdiction;
  di_purpose : CompliancePurpose;
  di_key_ids : list ComplianceKeyId;
  di_order_commitment : arr 32;
  di_requester_commitment : arr 32;
  di_selector_commitment : arr 32;
  di_approver_commitments : list (arr 32);
}.

Inductive CompletionStatus := Succeeded | Failed.

#[global] Instance CompletionStatus_eq_dec : EqDecision CompletionStatus.
Proof. solve_decision. Defined.

Record DisclosureCompletion := {
  dc_request_id : arr 32;
  dc_timestamp_ms : Z;
  dc_status : CompletionStatus;
  dc_record_count : Z;
  dc_result_commitment : arr 32;
}.

Inductive DisclosureLeaf := Intent (i : DisclosureIntent) | Completion (c : DisclosureCompletion).

#[global] Instance DisclosureLeaf_eq_dec : EqDecision DisclosureLeaf.
Proof. assert (EqDecision DisclosureIntent) by solve_decision. assert (EqDecision DisclosureCompletion) by solve_decision. solve_decision. Defined.

(** * Encodings *)

Fixpoint strictly_sorted_key_ids (ks : list ComplianceKeyId) : bool :=
  match ks with
  | a :: ((b :: _) as rest) =>
      match key_id_encode a, key_id_encode b with
      | Ok ea, Ok eb => bool_decide (bytes_cmp ea eb = Lt)
      | _, _ => false
      end && strictly_sorted_key_ids rest
  | _ => true
  end.

(** [approver_commitments.len() != 2 || [0] == [1] || contains(&[0u8; 32])] *)
Definition approvers_bad (cs : list (arr 32)) : bool :=
  match cs with
  | [a; b] => (a ≟ b) || bool_decide (zeroes 32 ∈ cs)
  | _ => true
  end.

(** Concatenated encodings of the key identifiers. *)
Fixpoint encode_key_ids (ks : list ComplianceKeyId) : ComplianceResult bytes :=
  match ks with
  | [] => Ok []
  | k :: ks =>
      e ← seal_err (key_id_encode k) ComplianceError.InvalidRequest;
      rest ← encode_key_ids ks;
      Ok (e ++ rest)
  end.

Definition intent_encode (i : DisclosureIntent) : ComplianceResult bytes :=
  _ ← guard ((di_timestamp_ms i =? 0) || (di_request_id i ≟ zeroes 32) || (di_order_commitment i ≟ zeroes 32)
             || (di_requester_commitment i ≟ zeroes 32) || (di_selector_commitment i ≟ zeroes 32)
             || (length (di_key_ids i) =? 0)%nat || (MAX_DISCLOSURE_KEYS <? length (di_key_ids i))%nat
             || approvers_bad (di_approver_commitments i) || negb (strictly_sorted_key_ids (di_key_ids i))
             || negb (forallb (key_id_fits (di_jurisdiction i) (di_purpose i)) (di_key_ids i))) ComplianceError.InvalidRequest;
  keys ← encode_key_ids (di_key_ids i);
  Ok (INTENT_DOMAIN ++ [INTENT_VERSION] ++ vec_to_list (di_request_id i) ++ be_bytes 8 (di_timestamp_ms i)
      ++ [jurisdiction_u8 (di_jurisdiction i); purpose_u8 (di_purpose i); to_u8 (Z.of_nat (length (di_key_ids i)))]
      ++ keys ++ vec_to_list (di_order_commitment i) ++ vec_to_list (di_requester_commitment i)
      ++ vec_to_list (di_selector_commitment i) ++ [to_u8 (Z.of_nat (length (di_approver_commitments i)))]
      ++ concat (map vec_to_list (di_approver_commitments i))).

(** The loop that reads [n] key identifiers. *)
Fixpoint decode_key_ids (n : nat) (bs : bytes) : ComplianceResult (list ComplianceKeyId) :=
  match n with
  | O => Ok []
  | S n =>
      k ← seal_err (key_id_decode (take COMPLIANCE_KEY_ID_LEN bs)) ComplianceError.InvalidRequest;
      rest ← decode_key_ids n (drop COMPLIANCE_KEY_ID_LEN bs);
      Ok (k :: rest)
  end.

(** [cursor] is 75 after the fixed prefix; [tail] is what follows the key identifiers.  No sum
    of [usize]s overflows: at most 64 keys of 47 bytes. *)
Definition intent_decode (bs : bytes) : ComplianceResult DisclosureIntent :=
  _ ← guard ((length bs <? 75 + 96 + 1 + 64)%nat || negb (starts_with INTENT_DOMAIN bs)
             || negb (byte_at 31 bs ≟ INTENT_VERSION)) ComplianceError.InvalidRequest;
  let request_id := take_arr 32 (slice 32 64 bs) in
  let timestamp_ms := from_be_bytes (slice 64 72 bs) in
  jurisdiction ← seal_err (jurisdiction_try_from (byte_at 72 bs)) ComplianceError.InvalidRequest;
  purpose ← seal_err (purpose_try_from (byte_at 73 bs)) ComplianceError.InvalidRequest;
  let key_count := Z.to_nat (u8 (byte_at 74 bs)) in
  _ ← guard ((key_count =? 0)%nat || (MAX_DISCLOSURE_KEYS <? key_count)%nat) ComplianceError.InvalidRequest;
  let cursor := (75 + key_count * COMPLIANCE_KEY_ID_LEN)%nat in
  _ ← guard (negb (length bs =? cursor + (96 + 1 + 64))%nat) ComplianceError.InvalidRequest;
  key_ids ← decode_key_ids key_count (drop 75 bs);
  let tail := drop cursor bs in
  let order_commitment := take_arr 32 (slice 0 32 tail) in
  let requester_commitment := take_arr 32 (slice 32 64 tail) in
  let selector_commitment := take_arr 32 (slice 64 96 tail) in
  _ ← guard (negb (u8 (byte_at 96 tail) =? 2)) ComplianceError.InvalidRequest;
  let approver_commitments := [take_arr 32 (slice 97 129 tail); take_arr 32 (slice 129 161 tail)] in
  let intent := {|
    di_request_id := request_id; di_timestamp_ms := timestamp_ms; di_jurisdiction := jurisdiction; di_purpose := purpose;
    di_key_ids := key_ids; di_order_commitment := order_commitment; di_requester_commitment := requester_commitment;
    di_selector_commitment := selector_commitment; di_approver_commitments := approver_commitments |} in
  _ ← guard (negb (strictly_sorted_key_ids key_ids)) ComplianceError.InvalidRequest;
  _ ← intent_encode intent;
  Ok intent.

Definition status_u8 (s : CompletionStatus) : byte := match s with Succeeded => x01 | Failed => x02 end.
Definition status_from (b : byte) : ComplianceResult CompletionStatus :=
  match u8 b with 1 => Ok Succeeded | 2 => Ok Failed | _ => Err ComplianceError.InvalidRequest end.

Definition completion_encode (c : DisclosureCompletion) : ComplianceResult bytes :=
  _ ← guard ((dc_timestamp_ms c =? 0) || (dc_request_id c ≟ zeroes 32) || (dc_result_commitment c ≟ zeroes 32))
        ComplianceError.InvalidRequest;
  _ ← guard ((dc_status c ≟ Failed) && negb (dc_record_count c =? 0)) ComplianceError.InvalidRequest;
  Ok (COMPLETION_DOMAIN ++ [COMPLETION_VERSION] ++ vec_to_list (dc_request_id c) ++ be_bytes 8 (dc_timestamp_ms c)
      ++ [status_u8 (dc_status c)] ++ be_bytes 4 (dc_record_count c) ++ vec_to_list (dc_result_commitment c)).

Definition completion_decode (bs : bytes) : ComplianceResult DisclosureCompletion :=
  _ ← guard (negb (length bs =? 113)%nat || negb (starts_with COMPLETION_DOMAIN bs)
             || negb (byte_at 35 bs ≟ COMPLETION_VERSION)) ComplianceError.InvalidRequest;
  status ← status_from (byte_at 76 bs);
  let completion := {|
    dc_request_id := take_arr 32 (slice 36 68 bs); dc_timestamp_ms := from_be_bytes (slice 68 76 bs); dc_status := status;
    dc_record_count := from_be_bytes (slice 77 81 bs); dc_result_commitment := take_arr 32 (drop 81 bs) |} in
  _ ← completion_encode completion;
  Ok completion.

Definition leaf_encode (l : DisclosureLeaf) : ComplianceResult bytes :=
  match l with Intent i => intent_encode i | Completion c => completion_encode c end.

Definition leaf_decode (bs : bytes) : ComplianceResult DisclosureLeaf :=
  if starts_with INTENT_DOMAIN bs then Intent <$> intent_decode bs
  else if starts_with COMPLETION_DOMAIN bs then Completion <$> completion_decode bs
  else Err ComplianceError.InvalidRequest.

Definition disclosure_leaf_hash `{Crypto} (l : DisclosureLeaf) : ComplianceResult (arr 32) := leaf_hash <$> leaf_encode l.

(** * The codec is exact *)

(** The machine widths of the fields. *)
Definition intent_wf (i : DisclosureIntent) : Prop := in_uint 64 (di_timestamp_ms i) /\ Forall key_id_wf (di_key_ids i).
Definition completion_wf (c : DisclosureCompletion) : Prop := in_uint 64 (dc_timestamp_ms c) /\ in_uint 32 (dc_record_count c).
Definition leaf_wf (l : DisclosureLeaf) : Prop :=
  match l with Intent i => intent_wf i | Completion c => completion_wf c end.

Lemma status_codec b s : status_from b = Ok s <-> b = status_u8 s.
Proof. revert b s. intros b s. split; [|intros ->; by destruct s]. destruct b; vm_compute; intros H; by destruct s. Qed.

Lemma completion_decode_encode bs c : completion_decode bs = Ok c -> completion_wf c /\ completion_encode c = Ok bs.
Proof.
  unfold completion_decode. intros H. apply bind_Ok in H as (? & Hg%guard_Ok & H). apply bind_Ok in H as (s & Hs & H).
  apply bind_Ok in H as (e & He & H). apply Ok_inj in H. apply orb_false_iff in Hg as [[Hl Hd]%orb_false_iff Hv].
  apply negb_false_iff, starts_with_true in Hd as [r Hd]. b2p. apply status_codec in Hs.
  rewrite <-H at 1. split; [split; [apply (slice_uint 68 76 8); lia|apply (slice_uint 77 81 4); lia]|].
  rewrite <-H. rewrite He. f_equal. unfold completion_encode in He. inv_ok. subst e.
  cbn [dc_request_id dc_timestamp_ms dc_status dc_record_count dc_result_commitment].
  rewrite <-Hs, <-Hv, !be_bytes_from, !vec_slice by (rewrite ?length_slice; lia).
  rewrite vec_to_list_take_arr by (rewrite length_drop; lia). rewrite take_ge by (rewrite length_drop; lia).
  replace COMPLETION_DOMAIN with (slice 0 35 bs) by (rewrite Hd; by apply slice_head).
  rewrite (byte_at_slice 35 36), (byte_at_slice 76 77) by lia.
  symmetry. apply (cut_at [35; 36; 68; 76; 77; 81]%nat). done.
Qed.

Lemma starts_with_app p r : starts_with p (p ++ r) = true.
Proof. apply starts_with_true. by exists r. Qed.

Lemma completion_encode_decode c bs : completion_wf c -> completion_encode c = Ok bs -> completion_decode bs = Ok c.
Proof.
  intros [Wt Wn] H. pose proof H as He. unfold completion_encode in H. inv_ok.
  assert (starts_with COMPLETION_DOMAIN bs = true) as Hd by (rewrite <-H; apply starts_with_app).
  assert (length bs = 113%nat) as Hl by (rewrite <-H, !length_app, !length_be_bytes, !length_vec_to_list; done).
  unfold completion_decode. rewrite Hd, Hl. assert (byte_at 35 bs = COMPLETION_VERSION) as -> by (rewrite <-H; by read_layout).
  assert (status_from (byte_at 76 bs) = Ok (dc_status c)) as -> by (apply status_codec; rewrite <-H; by read_layout).
  rewrite (drop_slice 81 113), (drop_ge bs 113), app_nil_r by lia.
  rewrite <-H. read_layout. rewrite !take_arr_all, !from_be_bytes_id by done.
  rewrite bool_decide_true by done. cbn [Nat.eqb negb orb guard mbind result_bind].
  replace {| dc_request_id := _ |} with c by by destruct c. by rewrite He.
Qed.

Lemma encode_key_ids_length ks e : encode_key_ids ks = Ok e -> length e = (length ks * COMPLIANCE_KEY_ID_LEN)%nat.
Proof.
  revert e; induction ks as [|k ks IH]; intros e H; cbn [encode_key_ids] in H; inv_ok; subst e; [done|].
  apply seal_err_Ok, length_key_id_encode in Ha. rewrite length_app, Ha, (IH _ Ha0). cbn [length]. lia.
Qed.

Lemma decode_key_ids_spec n : forall bs r ks,
  length bs = (n * COMPLIANCE_KEY_ID_LEN)%nat ->
  decode_key_ids n (bs ++ r) = Ok ks <-> length ks = n /\ Forall key_id_wf ks /\ encode_key_ids ks = Ok bs.
Proof.
  unfold COMPLIANCE_KEY_ID_LEN. induction n as [|n IH]; intros bs r ks Hl.
  { destruct bs; [|discriminate Hl]. cbn [decode_key_ids]. split; [intros [= <-]; done|]. intros (H & _ & _). by destruct ks. }
  assert (exists a b, bs = a ++ b /\ length a = 47%nat /\ length b = (n * 47)%nat) as (a & b & -> & Ha & Hb).
  { exists (take 47 bs), (drop 47 bs). split; [by rewrite take_drop|]. rewrite length_take, length_drop. lia. }
  cbn [decode_key_ids]. unfold COMPLIANCE_KEY_ID_LEN.
  rewrite <-(assoc_L (++)), <-Ha, take_app_length, drop_app_length. split.
  - intros H. apply bind_Ok in H as (k & Hk & H). apply bind_Ok in H as (ks' & Hks & H). apply Ok_inj in H. subst ks.
    apply seal_err_Ok, key_id_codec in Hk as [Hw Hk]. apply IH in Hks as (Hn & Hf & He); [|done].
    split; [simpl; lia|]. split; [by constructor|]. cbn [encode_key_ids]. by rewrite Hk, He.
  - intros (Hn & Hf & He). destruct ks as [|k ks]; [done|]. cbn [encode_key_ids] in He. inv_ok. apply seal_err_Ok in Ha0.
    apply Forall_cons in Hf as [Hw Hf]. apply app_inj_len in He as [-> ->]; [|by rewrite (length_key_id_encode _ _ Ha0), Ha].
    rewrite (proj2 (key_id_codec _ _) (conj Hw Ha0)). cbn [seal_err mbind result_bind].
    rewrite (proj2 (IH b r ks Hb)); [done|]. split; [simpl in Hn; lia|done].
Qed.

(** The layout of an intent: a fixed prefix, the keys, a fixed tail. *)
Definition intent_prefix (i : DisclosureIntent) : bytes :=
  INTENT_DOMAIN ++ [INTENT_VERSION] ++ vec_to_list (di_request_id i) ++ be_bytes 8 (di_timestamp_ms i)
  ++ [jurisdiction_u8 (di_jurisdiction i)] ++ [purpose_u8 (di_purpose i)] ++ [to_u8 (Z.of_nat (length (di_key_ids i)))].
Definition intent_tail (i : DisclosureIntent) : bytes :=
  vec_to_list (di_order_commitment i) ++ vec_to_list (di_requester_commitment i) ++ vec_to_list (di_selector_commitment i)
  ++ [to_u8 (Z.of_nat (length (di_approver_commitments i)))] ++ concat (map vec_to_list (di_approver_commitments i)).

Lemma length_intent_prefix i : length (intent_prefix i) = 75%nat.
Proof. unfold intent_prefix. rewrite !length_app, !length_be_bytes, !length_vec_to_list. done. Qed.

(** What a successful encoding tells of the intent, and its bytes. *)
Lemma intent_encode_Ok i bs :
  intent_encode i = Ok bs ->
  (1 <= length (di_key_ids i) <= MAX_DISCLOSURE_KEYS)%nat /\ strictly_sorted_key_ids (di_key_ids i) = true /\
  (exists a b, di_approver_commitments i = [a; b] /\ a <> b) /\
  exists keys, encode_key_ids (di_key_ids i) = Ok keys /\ bs = intent_prefix i ++ keys ++ intent_tail i.
Proof.
  unfold intent_encode. intros H. apply bind_Ok in H as (u & Hg%guard_Ok & H). apply bind_Ok in H as (keys & Hk & H). apply Ok_inj in H.
  b2p. split; [lia|]. split; [done|]. split.
  - unfold approvers_bad in *. destruct (di_approver_commitments i) as [|a [|b [|]]]; try done. exists a, b. by b2p.
  - exists keys. split; [done|]. rewrite <-H. unfold intent_prefix, intent_tail. by rewrite <-!(assoc_L (++)).
Qed.

Lemma intent_tail_two i a b :
  di_approver_commitments i = [a; b] ->
  intent_tail i = vec_to_list (di_order_commitment i) ++ vec_to_list (di_requester_commitment i)
    ++ vec_to_list (di_selector_commitment i) ++ [x02] ++ vec_to_list a ++ vec_to_list b.
Proof. intros E. unfold intent_tail. rewrite E. cbn [map concat length]. by rewrite app_nil_r. Qed.

Lemma length_intent_tail i a b : di_approver_commitments i = [a; b] -> length (intent_tail i) = 161%nat.
Proof. intros E. rewrite (intent_tail_two i a b E), !length_app, !length_vec_to_list. done. Qed.

Lemma intent_decode_encode bs i : intent_decode bs = Ok i -> intent_wf i /\ intent_encode i = Ok bs.
Proof.
  unfold intent_decode. cbv zeta. intros H. apply bind_Ok in H as (? & Hg%guard_Ok & H).
  apply bind_Ok in H as (j & Hj%seal_err_Ok%jurisdiction_codec & H). apply bind_Ok in H as (p & Hp%seal_err_Ok%purpose_codec & H).
  apply bind_Ok in H as (? & Hn%guard_Ok & H). apply bind_Ok in H as (? & Hl%guard_Ok & H). apply bind_Ok in H as (ks & Hks & H).
  apply bind_Ok in H as (? & H2%guard_Ok & H). apply bind_Ok in H as (? & _ & H). apply bind_Ok in H as (e & He & H).
  apply Ok_inj in H. apply orb_false_iff in Hg as [[_ Hd]%orb_false_iff Hv]. apply negb_false_iff, starts_with_true in Hd as [r Hd].
  b2p. set (n := Z.to_nat (u8 (byte_at 74 bs))) in *. set (tail := drop (75 + n * COMPLIANCE_KEY_ID_LEN) bs) in *.
  assert (length tail = 161%nat) as Ht by (unfold tail; rewrite length_drop; lia).
  pose proof (drop_slice 75 (75 + n * COMPLIANCE_KEY_ID_LEN) bs ltac:(lia)) as Hmid. fold tail in Hmid. rewrite Hmid in Hks.
  apply decode_key_ids_spec in Hks as (Hkn & Hkw & Hke); [|rewrite length_slice; lia].
  rewrite H in He. pose proof (intent_encode_Ok i e He) as (_ & _ & _ & keys & Hk' & Ebs).
  rewrite <-H in Hk'. cbn [di_key_ids] in Hk'. rewrite Hke in Hk'. apply Ok_inj in Hk'. subst keys.
  split; [rewrite <-H; split; [apply (slice_uint 64 72 8); lia|done]|]. rewrite He, Ebs. f_equal.
  assert (intent_tail i = tail) as ->.
  { rewrite <-H. erewrite intent_tail_two by reflexivity. cbn [di_order_commitment di_requester_commitment di_selector_commitment].
    rewrite !vec_slice by (rewrite ?Ht; lia). replace x02 with (byte_at 96 tail) by (apply (inj u8); by rewrite H2).
    rewrite (byte_at_slice 96 97) by lia. etrans; [|symmetry; apply (cut_at [32; 64; 96; 97; 129; 161]%nat); done].
    cbn [pieces]. by rewrite (drop_ge tail 161), app_nil_r by lia. }
  assert (intent_prefix i = take 75 bs) as ->; [|by rewrite <-Hmid, take_drop].
  rewrite <-H. unfold intent_prefix. cbn [di_request_id di_timestamp_ms di_jurisdiction di_purpose di_key_ids].
  rewrite Hkn. unfold n. rewrite Z2Nat.id, to_u8_u8 by apply u8_range.
  rewrite <-Hj, <-Hp, <-Hv, be_bytes_from, vec_slice by (rewrite ?length_slice; lia).
  replace INTENT_DOMAIN with (slice 0 31 bs) by (rewrite Hd; by apply slice_head).
  rewrite (byte_at_slice 31 32), (byte_at_slice 72 73), (byte_at_slice 73 74), (byte_at_slice 74 75) by lia.
  apply (app_inv_tail (drop 75 bs)). rewrite take_drop. etrans; [|symmetry; apply (cut_at [31; 32; 64; 72; 73; 74; 75]%nat); done].
  cbn [pieces]. by rewrite <-!(assoc_L (++)).
Qed.

Lemma intent_encode_decode i bs : intent_wf i -> intent_encode i = Ok bs -> intent_decode bs = Ok i.
Proof.
  intros [Wt Wk] He. pose proof (intent_encode_Ok i bs He) as ((Hn0 & Hn) & Hs & (a & b & Hab & _) & keys & Hk & H).
  pose proof (encode_key_ids_length _ _ Hk) as Hkl. pose proof (length_intent_tail i a b Hab) as Ht.
  set (n := length (di_key_ids i)) in *. unfold MAX_DISCLOSURE_KEYS, COMPLIANCE_KEY_ID_LEN in *.
  assert (length bs = 75 + n * 47 + 161)%nat as Hl by (rewrite H, !length_app, length_intent_prefix; lia).
  assert (bs = INTENT_DOMAIN ++ [INTENT_VERSION] ++ vec_to_list (di_request_id i) ++ be_bytes 8 (di_timestamp_ms i)
    ++ [jurisdiction_u8 (di_jurisdiction i)] ++ [purpose_u8 (di_purpose i)] ++ [to_u8 (Z.of_nat n)] ++ keys ++ intent_tail i) as Hf
    by (rewrite H; unfold intent_prefix; by rewrite <-!(assoc_L (++))).
  assert (starts_with INTENT_DOMAIN bs = true) as Hd by (rewrite Hf; apply starts_with_app).
  assert (Z.to_nat (u8 (byte_at 74 bs)) = n) as Hc by (rewrite Hf; read_layout; rewrite u8_to_u8, Z.mod_small; lia).
  unfold intent_decode. cbv zeta. rewrite Hc, Hd, Hl. unfold COMPLIANCE_KEY_ID_LEN.
  assert (byte_at 31 bs = INTENT_VERSION) as -> by (rewrite Hf; by read_layout).
  assert (jurisdiction_try_from (byte_at 72 bs) = Ok (di_jurisdiction i)) as -> by (rewrite Hf; read_layout; by apply jurisdiction_codec).
  assert (purpose_try_from (byte_at 73 bs) = Ok (di_purpose i)) as -> by (rewrite Hf; read_layout; by apply purpose_codec).
  assert (drop 75 bs = keys ++ intent_tail i) as Hmid by (rewrite H, <-(length_intent_prefix i); apply drop_app_length).
  assert (drop (75 + n * 47) bs = intent_tail i) as -> by (rewrite <-drop_drop, Hmid, <-Hkl; apply drop_app_length).
  rewrite Hmid, (proj2 (decode_key_ids_spec n keys (intent_tail i) (di_key_ids i) Hkl)) by done.
  rewrite bool_decide_true by done. unfold MAX_DISCLOSURE_KEYS.
  rewrite (proj2 (Nat.ltb_ge (75 + n * 47 + 161) _)), (proj2 (Nat.eqb_neq n 0)), (proj2 (Nat.ltb_ge 64 n)), Nat.eqb_refl by lia.
  cbn [negb orb guard seal_err mbind result_bind]. rewrite Hs, (intent_tail_two i a b Hab). read_layout. rewrite !take_arr_all.
  cbn [negb Z.eqb u8 guard mbind result_bind]. replace (u8 x02 =? 2) with true by done. cbn [negb guard mbind result_bind].
  assert (take_arr 32 (slice 32 64 bs) = di_request_id i) as -> by (rewrite Hf; read_layout; apply take_arr_all).
  assert (from_be_bytes (slice 64 72 bs) = di_timestamp_ms i) as -> by (rewrite Hf; read_layout; by apply from_be_bytes_id).
  rewrite <-Hab. replace {| di_request_id := _ |} with i by by destruct i. by rewrite He.
Qed.

Lemma completion_not_intent bs : starts_with COMPLETION_DOMAIN bs = true -> starts_with INTENT_DOMAIN bs = false.
Proof.
  intros [r ->]%starts_with_true. apply not_true_iff_false. intros [r' E]%starts_with_true.
  apply (f_equal (take 31)) in E. rewrite (take_app_le INTENT_DOMAIN), take_app_le in E by (vm_compute; lia). vm_compute in E. discriminate E.
Qed.

(** A byte string decodes to a leaf exactly when it is the encoding of that leaf. *)
Lemma leaf_codec_spec bs l : leaf_decode bs = Ok l <-> leaf_wf l /\ leaf_encode l = Ok bs.
Proof.
  unfold leaf_decode. split.
  - destruct (starts_with INTENT_DOMAIN bs); [|destruct (starts_with COMPLETION_DOMAIN bs); [|done]]; intros H.
    + destruct (intent_decode bs) as [i|] eqn:E; [|done]. apply Ok_inj in H. subst l. by apply intent_decode_encode.
    + destruct (completion_decode bs) as [c|] eqn:E; [|done]. apply Ok_inj in H. subst l. by apply completion_decode_encode.
  - intros [W H]. destruct l as [i|c]; cbn [leaf_wf leaf_encode] in *.
    + assert (starts_with INTENT_DOMAIN bs = true) as ->.
      { apply intent_encode_Ok in H as (_ & _ & _ & keys & _ & ->). unfold intent_prefix. rewrite <-(assoc_L (++)). apply starts_with_app. }
      by rewrite (intent_encode_decode i bs W H).
    + assert (starts_with COMPLETION_DOMAIN bs = true) as Hs.
      { pose proof H as E. unfold completion_encode in E. inv_ok. subst bs. apply starts_with_app. }
      by rewrite (completion_not_intent bs Hs), Hs, (completion_encode_decode c bs W H).
Qed.

Lemma leaf_decode_inj bs bs' l : leaf_decode bs = Ok l -> leaf_decode bs' = Ok l -> bs = bs'.
Proof. intros [_ H]%leaf_codec_spec [_ H']%leaf_codec_spec. congruence. Qed.

(** * Sequences of leaves *)

(** Arrays as keys, with an encoding that computes. *)
Lemma arr_of_list_vec n (v : arr n) : arr_of_list n (vec_to_list v) = Some v.
Proof. by apply arr_of_list_Some. Qed.
#[global] Instance arr_countable n : Countable (arr n) := inj_countable vec_to_list (arr_of_list n) (arr_of_list_vec n).

Record PendingIntent := { pi_timestamp_ms : Z; pi_sequence : Z }.

(** The compact indexes the ledger keeps: all request identifiers, and the intents still open. *)
Record LeafIndex := { request_ids : gset (arr 32); incomplete : gmap (arr 32) PendingIntent }.

Definition index_new : LeafIndex := {| request_ids := ∅; incomplete := ∅ |}.

Definition validate_leaf_sequence (x : LeafIndex) (next : DisclosureLeaf) : ComplianceResult unit :=
  match next with
  | Intent intent => guard (bool_decide (di_request_id intent ∈ request_ids x)) ComplianceError.StateConflict
  | Completion completion =>
      match incomplete x !! dc_request_id completion with
      | None => Err ComplianceError.StateConflict
      | Some intent => guard (dc_timestamp_ms completion <? pi_timestamp_ms intent) ComplianceError.StateConflict
      end
  end.

Definition record_leaf_state (x : LeafIndex) (leaf : DisclosureLeaf) (sequence : Z) : LeafIndex :=
  match leaf with
  | Intent intent =>
      {| request_ids := {[di_request_id intent]} ∪ request_ids x;
         incomplete := <[di_request_id intent := {| pi_timestamp_ms := di_timestamp_ms intent; pi_sequence := sequence |}]>
                         (incomplete x) |}
  | Completion completion =>
      {| request_ids := request_ids x; incomplete := delete (dc_request_id completion) (incomplete x) |}
  end.

(** The indexes of a sequence of leaves. *)
Definition index_of (ls : list DisclosureLeaf) : LeafIndex :=
  fold_left (fun x '(k, l) => record_leaf_state x l (Z.of_nat k)) (imap pair ls) index_new.

Lemma index_of_snoc ls l : index_of (ls ++ [l]) = record_leaf_state (index_of ls) l (Z.of_nat (length ls)).
Proof. unfold index_of. rewrite imap_app, fold_left_app. cbn. by rewrite Nat.add_0_r. Qed.

(** The rules of the public log: one intent per request, and a completion closes, once, an earlier
    intent that is not younger. *)
Record well_sequenced (ls : list DisclosureLeaf) : Prop := {
  ws_intent : forall a b i j, ls !! a = Some (Intent i) -> ls !! b = Some (Intent j) -> di_request_id i = di_request_id j -> a = b;
  ws_completion : forall b c, ls !! b = Some (Completion c) ->
    exists a i, (a < b)%nat /\ ls !! a = Some (Intent i) /\ di_request_id i = dc_request_id c /\ di_timestamp_ms i <= dc_timestamp_ms c;
  ws_once : forall a b c d, ls !! a = Some (Completion c) -> ls !! b = Some (Completion d) -> dc_request_id c = dc_request_id d -> a = b;
}.

Definition is_intent_of (id : arr 32) (l : DisclosureLeaf) : Prop := exists i, l = Intent i /\ di_request_id i = id.
Definition is_completion_of (id : arr 32) (l : DisclosureLeaf) : Prop := exists c, l = Completion c /\ dc_request_id c = id.

Lemma elem_of_snoc {A} (x : A) ls l : x ∈ ls ++ [l] <-> x ∈ ls \/ x = l.
Proof. by rewrite elem_of_app, list_elem_of_singleton. Qed.

Lemma lookup_snoc {A} (ls : list A) l a x : (ls ++ [l]) !! a = Some x <-> ls !! a = Some x \/ (a = length ls /\ x = l).
Proof. rewrite lookup_snoc_Some. pose proof (lookup_lt_Some ls a). naive_solver lia. Qed.

Lemma index_ids ls id : id ∈ request_ids (index_of ls) <-> exists i, Intent i ∈ ls /\ di_request_id i = id.
Proof.
  induction ls as [|l ls IH] using rev_ind; [cbn; set_solver|]. rewrite index_of_snoc. setoid_rewrite elem_of_snoc.
  destruct l as [i|c]; cbn [record_leaf_state request_ids]; [rewrite elem_of_union, elem_of_singleton|]; rewrite IH; naive_solver.
Qed.

Lemma well_sequenced_prefix ls l : well_sequenced (ls ++ [l]) -> well_sequenced ls.
Proof.
  intros [H1 H2 H3]. split; intros *; [|intros Hb|]; [eauto using lookup_app_l_Some..| |eauto using lookup_app_l_Some].
  destruct (H2 b c) as (a & i & Hlt & Ha & Hr); [by apply lookup_app_l_Some|]. exists a, i. split; [done|]. split; [|done].
  apply lookup_snoc in Ha as [Ha|[-> _]]; [done|]. apply lookup_lt_Some in Hb. lia.
Qed.

Lemma index_incomplete ls id p :
  well_sequenced ls ->
  incomplete (index_of ls) !! id = Some p <->
  exists a i, ls !! a = Some (Intent i) /\ di_request_id i = id /\
    p = {| pi_timestamp_ms := di_timestamp_ms i; pi_sequence := Z.of_nat a |} /\
    forall c, Completion c ∈ ls -> dc_request_id c <> id.
Proof.
  revert p; induction ls as [|l ls IH] using rev_ind; intros p W.
  { split; [done|]. by intros (a & i & H & _). }
  specialize (IH p (well_sequenced_prefix _ _ W)). rewrite index_of_snoc. setoid_rewrite elem_of_snoc. setoid_rewrite lookup_snoc.
  destruct l as [i|c]; cbn [record_leaf_state incomplete].
  - rewrite lookup_insert_Some, IH. split.
    + intros [[<- <-]|[Hne (a & k & Ha & Hk & -> & Hc)]]; [|exists a, k; split; [by left|]; naive_solver].
      exists (length ls), i. split; [by right|]. do 2 (split; [done|]). intros c [Hc|?] E; [|done].
      apply list_elem_of_lookup in Hc as [b Hb].
      destruct (ws_completion _ W b c) as (a & j & Hlt & Ha & Hj & _); [by apply lookup_app_l_Some|].
      apply lookup_lt_Some in Hb. pose proof (ws_intent _ W a (length ls) j i Ha (proj2 (lookup_snoc _ _ _ _) (or_intror (conj eq_refl eq_refl)))
        ltac:(congruence)). lia.
    + intros (a & k & [Ha|[-> [= ->]]] & Hk & -> & Hc); [|by left]. right. split; [|naive_solver].
      intros E. apply lookup_lt_Some in Ha as Hlt.
      pose proof (ws_intent _ W a (length ls) k i (lookup_app_l_Some _ _ _ _ Ha) (proj2 (lookup_snoc _ _ _ _) (or_intror (conj eq_refl eq_refl)))
        ltac:(congruence)). lia.
  - rewrite lookup_delete_Some, IH. split; [|naive_solver]. intros [Hne (a & k & Ha & Hk & -> & Hc)].
    exists a, k. split; [by left|]. naive_solver.
Qed.

(** The checks against the compact indexes decide the rules of the log. *)
Lemma validate_sequence_spec ls l :
  well_sequenced ls -> validate_leaf_sequence (index_of ls) l = Ok tt <-> well_sequenced (ls ++ [l]).
Proof.
  intros W. assert ((ls ++ [l]) !! length ls = Some l) as Hlast by (apply lookup_snoc; by right). destruct l as [i|c]; cbn [validate_leaf_sequence].
  - unfold guard. case_bool_decide as Hin; rewrite index_ids in Hin; (split; [|intros W']); try done.
    + destruct Hin as (j & [a Ha]%list_elem_of_lookup & Hj). apply lookup_lt_Some in Ha as Hlt.
      pose proof (ws_intent _ W' a (length ls) j i (lookup_app_l_Some _ _ _ _ Ha) Hlast Hj). lia.
    + intros _. split; intros a b; setoid_rewrite lookup_snoc.
      * intros j k [Ha|[-> [= ->]]] [Hb|[-> [= ->]]] E; try done; [by eapply ws_intent|..]; exfalso; apply Hin.
        -- exists j. by split; [eapply list_elem_of_lookup_2|].
        -- exists k. by split; [eapply list_elem_of_lookup_2|].
      * intros [Hb|[_ ?]]; [|done]. destruct (ws_completion _ W _ _ Hb) as (a' & j & H). exists a', j. naive_solver.
      * intros c d [Ha|[_ ?]] [Hb|[_ ?]]; try done. by eapply ws_once.
  - destruct (incomplete (index_of ls) !! dc_request_id c) as [p|] eqn:E.
    + apply index_incomplete in E as (a & i & Ha & Hi & -> & Hc); [|done]. cbn [pi_timestamp_ms]. unfold guard. split.
      * case_match; [done|]. b2p. intros _. split; intros x y; setoid_rewrite lookup_snoc.
        -- intros j k [Hx|[_ ?]] [Hy|[_ ?]]; try done. by eapply ws_intent.
        -- intros [Hx|[-> [= ->]]]; [destruct (ws_completion _ W _ _ Hx) as (a' & j & H'); exists a', j; naive_solver|].
           exists a, i. apply lookup_lt_Some in Ha as Hlt. naive_solver.
        -- intros d e [Hx|[-> [= ->]]] [Hy|[-> [= ->]]] Ee; try done; [by eapply ws_once|..]; exfalso.
           ++ by apply (Hc d); [eapply list_elem_of_lookup_2|].
           ++ by apply (Hc e); [eapply list_elem_of_lookup_2|].
      * intros W'. destruct (ws_completion _ W' _ _ Hlast) as (a' & j & Hlt & Ha' & Hj & Ht).
        apply lookup_snoc in Ha' as [Ha'|[-> _]]; [|lia].
        assert (a = a') as <- by (eapply (ws_intent _ W); [exact Ha|exact Ha'|congruence]). rewrite Ha in Ha'. simplify_eq.
        rewrite (proj2 (Z.ltb_ge _ _)) by lia. done.
    + split; [done|]. intros W'. exfalso. destruct (ws_completion _ W' _ _ Hlast) as (a & i & Hlt & Ha & Hi & Ht).
      apply lookup_snoc in Ha as [Ha|[-> _]]; [|lia].
      enough (incomplete (index_of ls) !! dc_request_id c = Some {| pi_timestamp_ms := di_timestamp_ms i; pi_sequence := Z.of_nat a |}) by congruence.
      apply index_incomplete; [done|]. exists a, i. do 3 (split; [done|]). intros d [b Hb]%list_elem_of_lookup Ed.
      apply lookup_lt_Some in Hb as Hlb. pose proof (ws_once _ W' b (length ls) d c (lookup_app_l_Some _ _ _ _ Hb) Hlast Ed). lia.
Qed.

Lemma well_sequenced_nil : well_sequenced [].
Proof. split; intros *; done. Qed.

(** * Properties *)

(** C28: the public leaves have one encoding and their hash commits to them.  A byte string
    decodes to a leaf exactly when it is the encoding of that leaf and the leaf's fields fit their
    widths, so no two byte strings are one leaf and unknown values, unsorted keys and trailing bytes
    are refused; and two leaves with one hash are equal, or their encodings are a SHA-256 collision. *)
Theorem disclosure_leaf_exact `{Crypto} (bs bs' : bytes) (l l' : DisclosureLeaf) :
  (leaf_decode bs = Ok l <-> leaf_wf l /\ leaf_encode l = Ok bs) /\
  (leaf_decode bs = Ok l -> leaf_decode bs' = Ok l' -> disclosure_leaf_hash l = disclosure_leaf_hash l' ->
   l = l' \/ collision_in [LEAF_PREFIX :: bs; LEAF_PREFIX :: bs']).
Proof.
  split; [apply leaf_codec_spec|]. intros Hd Hd' E. pose proof Hd as [_ He]%leaf_codec_spec. pose proof Hd' as [_ He']%leaf_codec_spec.
  unfold disclosure_leaf_hash in E. rewrite He, He' in E. apply Ok_inj in E. unfold leaf_hash in E.
  destruct (collision_in_pair _ _ E) as [[= ->]|]; [left|by right]. congruence.
Qed.
