(* ===== verification/LedgerState.v ===== *)
(** [pigeonpost-compliance/src/ledger.rs], the authenticated restart state of the disclosure log:
    what is stored beside the log, its encoding, and the checks it must pass against the log
    file. *)
From S2P Require Import Prelude Text Crypto Compliance Layout TraceRecord Merkle Custody Approval LedgerLeaf.

Definition LOG_MAGIC : bytes := lit "PPDISC" ++ [x00; x00].
Definition STATE_MAGIC : bytes := lit "PPDSTAT" ++ [x00].
Definition STATE_VERSION : byte := x02.
Definition STATE_AUTH_DOMAIN : bytes := lit "pigeonpost/disclosure-ledger-state-auth/v1".
Definition STATE_KEY_DOMAIN : bytes := lit "pigeonpost/disclosure-ledger-state-key/v1".
Definition LEDGER_IDENTITY_DOMAIN : bytes := lit "pigeonpost/disclosure-ledger-file/v1".
Definition MAX_LEAF_BYTES : Z := 4 * 1024.
Definition MAX_LOG_BYTES : Z := 512 * 1024 * 1024.
Definition MAX_STATE_BYTES : Z := 16 * 1024.
Definition MAX_RECOVERY_TAIL_BYTES : Z := 4 + MAX_LEAF_BYTES.
Definition MAX_DISCLOSURE_LEAVES : Z := 100000.

Record PersistedLedgerState := {
  ps_file_identity : arr 32;
  ps_mutation_marker : arr 16;
  ps_generation : Z;
  ps_log_len : Z;
  ps_last_leaf_hash : option Hash;
  ps_pending_append : option bytes;
  ps_root : Hash;
}.

(** What [fs::Metadata] tells of the log file, its length aside. *)
Record Metadata := { dev : Z; ino : Z; ctime : Z; ctime_nsec : Z }.

Section State.
Context {C : Crypto}.

Definition derive_state_authentication_key (secret : arr 32) : arr 32 := sha256 (STATE_KEY_DOMAIN ++ vec_to_list secret).
Definition state_authentication_tag (key : arr 32) (bs : bytes) : arr 32 := hmac_sha256 (vec_to_list key) (STATE_AUTH_DOMAIN ++ bs).
Definition verify_state_authentication_tag (key : arr 32) (bs tag : bytes) : ComplianceResult unit :=
  guard (negb (vec_to_list (hmac_sha256 (vec_to_list key) (STATE_AUTH_DOMAIN ++ bs)) ≟ tag)) ComplianceError.Storage.

(** The Unix implementations. *)
Definition ledger_file_identity (m : Metadata) : arr 32 := sha256 (LEDGER_IDENTITY_DOMAIN ++ be_bytes 8 (dev m) ++ be_bytes 8 (ino m)).
Definition ledger_mutation_marker (m : Metadata) : arr 16 := take_arr 16 (be_bytes 8 (ctime m) ++ be_bytes 8 (ctime_nsec m)).

(** * Encoding *)

Definition push_optional_hash (out : bytes) (hash : option Hash) : bytes :=
  out ++ [bool_byte (is_some hash)] ++ vec_to_list (default (zeroes 32) hash).

Definition push_state_u32 (out : bytes) (value : nat) : ComplianceResult bytes :=
  _ ← guard (2 ^ 32 <=? Z.of_nat value) ComplianceError.LimitExceeded;
  Ok (out ++ be_bytes 4 (Z.of_nat value)).

Definition push_state_bytes (out bs : bytes) : ComplianceResult bytes :=
  out ← push_state_u32 out (length bs);
  Ok (out ++ bs).

Definition push_optional_state_bytes (out : bytes) (bs : option bytes) : ComplianceResult bytes :=
  let out := out ++ [bool_byte (is_some bs)] in
  match bs with
  | None => Ok out
  | Some bs =>
      _ ← guard ((length bs =? 0)%nat || (MAX_LEAF_BYTES <? Z.of_nat (length bs))) ComplianceError.LimitExceeded;
      push_state_bytes out bs
  end.

Definition state_payload (s : PersistedLedgerState) : ComplianceResult bytes :=
  let payload := vec_to_list (ps_file_identity s) ++ vec_to_list (ps_mutation_marker s) ++ be_bytes 8 (ps_generation s)
                 ++ be_bytes 8 (ps_log_len s) in
  let payload := push_optional_hash payload (ps_last_leaf_hash s) in
  payload ← push_optional_state_bytes payload (ps_pending_append s);
  Ok (payload ++ vec_to_list (ps_root s)).

Definition encode_authenticated (s : PersistedLedgerState) (authentication_key : arr 32) : ComplianceResult bytes :=
  payload ← state_payload s;
  let encoded := STATE_MAGIC ++ [STATE_VERSION] ++ be_bytes 8 (Z.of_nat (length payload)) ++ payload in
  let encoded := encoded ++ vec_to_list (state_authentication_tag authentication_key encoded) in
  _ ← guard (MAX_STATE_BYTES <? Z.of_nat (length encoded)) ComplianceError.LimitExceeded;
  Ok encoded.

(** * Decoding: [StateReader], as the bytes it has left *)

Definition reader_take (length : nat) (bs : bytes) : ComplianceResult (bytes * bytes) :=
  _ ← guard (List.length bs <? length)%nat ComplianceError.Storage;
  Ok (take length bs, drop length bs).

Definition reader_u32 (bs : bytes) : ComplianceResult (Z * bytes) :=
  '(v, bs) ← reader_take 4 bs;
  Ok (from_be_bytes v, bs).
Definition reader_u64 (bs : bytes) : ComplianceResult (Z * bytes) :=
  '(v, bs) ← reader_take 8 bs;
  Ok (from_be_bytes v, bs).
Definition reader_array16 (bs : bytes) : ComplianceResult (arr 16 * bytes) :=
  '(v, bs) ← reader_take 16 bs;
  Ok (take_arr 16 v, bs).
Definition reader_array32 (bs : bytes) : ComplianceResult (arr 32 * bytes) :=
  '(v, bs) ← reader_take 32 bs;
  Ok (take_arr 32 v, bs).

Definition reader_optional_hash (bs : bytes) : ComplianceResult (option Hash * bytes) :=
  '(present, bs) ← reader_take 1 bs;
  '(hash, bs) ← reader_array32 bs;
  let present := u8 (byte_at 0 present) in
  if (present =? 0) && (hash ≟ zeroes 32) then Ok (None, bs)
  else if present =? 1 then Ok (Some hash, bs)
  else Err ComplianceError.Storage.

Definition reader_bytes (bs : bytes) : ComplianceResult (bytes * bytes) :=
  '(length, bs) ← reader_u32 bs;
  reader_take (Z.to_nat length) bs.

Definition reader_optional_bytes (maximum : Z) (bs : bytes) : ComplianceResult (option bytes * bytes) :=
  '(present, bs) ← reader_take 1 bs;
  match u8 (byte_at 0 present) with
  | 0 => Ok (None, bs)
  | 1 =>
      '(value, bs) ← reader_bytes bs;
      _ ← guard ((length value =? 0)%nat || (maximum <? Z.of_nat (length value))) ComplianceError.LimitExceeded;
      Ok (Some value, bs)
  | _ => Err ComplianceError.Storage
  end.

(** The reads of [decode_authenticated] from the authenticated payload. *)
Definition decode_payload (bs : bytes) : ComplianceResult PersistedLedgerState :=
  '(file_identity, bs) ← reader_array32 bs;
  '(mutation_marker, bs) ← reader_array16 bs;
  '(generation, bs) ← reader_u64 bs;
  '(log_len, bs) ← reader_u64 bs;
  '(last_leaf_hash, bs) ← reader_optional_hash bs;
  '(pending_append, bs) ← reader_optional_bytes MAX_LEAF_BYTES bs;
  '(root, bs) ← reader_array32 bs;
  _ ← guard (negb (length bs =? 0)%nat) ComplianceError.Storage;
  Ok {| ps_file_identity := file_identity; ps_mutation_marker := mutation_marker; ps_generation := generation;
        ps_log_len := log_len; ps_last_leaf_hash := last_leaf_hash; ps_pending_append := pending_append; ps_root := root |}.

(** [prefix_len] is 17; the [usize] sums that overflow are a length that does not match. *)
Definition decode_authenticated (bs : bytes) (authentication_key : arr 32) : ComplianceResult PersistedLedgerState :=
  _ ← guard ((length bs <? 17 + 32)%nat || (MAX_STATE_BYTES <? Z.of_nat (length bs)) || negb (take 8 bs ≟ STATE_MAGIC)
             || negb (byte_at 8 bs ≟ STATE_VERSION)) ComplianceError.Storage;
  let payload_len := from_be_bytes (slice 9 17 bs) in
  authenticated_len ← ok_or (checked_add 64 17 payload_len) ComplianceError.LimitExceeded;
  _ ← guard (negb (authenticated_len + 32 =? Z.of_nat (length bs))) ComplianceError.Storage;
  let authenticated_len := Z.to_nat authenticated_len in
  _ ← verify_state_authentication_tag authentication_key (take authenticated_len bs) (drop authenticated_len bs);
  decode_payload (slice 17 authenticated_len bs).

(** * The checks of a restart state against the log file *)

Definition state_validate (s : PersistedLedgerState) (file_len : Z) (actual_identity : arr 32) (actual_marker : arr 16)
  : ComplianceResult unit :=
  recovery_tail_len ← ok_or (checked_sub file_len (ps_log_len s)) ComplianceError.Storage;
  let expected_recovery_len := (fun encoded => 4 + Z.of_nat (length encoded)) <$> ps_pending_append s in
  _ ← guard (negb (ps_file_identity s ≟ actual_identity) || (MAX_DISCLOSURE_LEAVES <? ps_generation s)
             || (ps_log_len s <? Z.of_nat (length LOG_MAGIC)) || (file_len <? ps_log_len s)
             || (MAX_RECOVERY_TAIL_BYTES <? recovery_tail_len)
             || match expected_recovery_len with
                | None => negb (recovery_tail_len =? 0)
                | Some expected => expected <? recovery_tail_len
                end
             || ((recovery_tail_len =? 0) && negb (ps_mutation_marker s ≟ actual_marker))) ComplianceError.Storage;
  _ ← guard (is_some (ps_pending_append s) && (MAX_DISCLOSURE_LEAVES <=? ps_generation s)) ComplianceError.LimitExceeded;
  _ ← guard (if ps_generation s =? 0
             then negb (ps_log_len s =? Z.of_nat (length LOG_MAGIC)) || is_some (ps_last_leaf_hash s) || negb (ps_root s ≟ empty_root)
             else (ps_log_len s =? Z.of_nat (length LOG_MAGIC)) || negb (is_some (ps_last_leaf_hash s))) ComplianceError.Storage;
  match ps_pending_append s with
  | Some encoded => guard ((length encoded =? 0)%nat || (MAX_LEAF_BYTES <? Z.of_nat (length encoded))) ComplianceError.LimitExceeded
  | None => Ok tt
  end.

(** * The codec *)

Definition state_wf (s : PersistedLedgerState) : Prop := in_uint 64 (ps_generation s) /\ in_uint 64 (ps_log_len s).

Lemma reader_take_app n a r : length a = n -> reader_take n (a ++ r) = Ok (a, r).
Proof.
  intros <-. unfold reader_take. rewrite length_app, (proj2 (Nat.ltb_ge _ _)) by lia. cbn [guard mbind result_bind].
  by rewrite take_app_length, drop_app_length.
Qed.

Lemma reader_array32_app (v : arr 32) r : reader_array32 (vec_to_list v ++ r) = Ok (v, r).
Proof. unfold reader_array32. rewrite reader_take_app by apply length_vec_to_list. cbn [mbind result_bind]. by rewrite take_arr_all. Qed.
Lemma reader_array16_app (v : arr 16) r : reader_array16 (vec_to_list v ++ r) = Ok (v, r).
Proof. unfold reader_array16. rewrite reader_take_app by apply length_vec_to_list. cbn [mbind result_bind]. by rewrite take_arr_all. Qed.
Lemma reader_u64_app z r : in_uint 64 z -> reader_u64 (be_bytes 8 z ++ r) = Ok (z, r).
Proof. intros H. unfold reader_u64. rewrite reader_take_app by apply length_be_bytes. cbn [mbind result_bind]. by rewrite from_be_bytes_id. Qed.
Lemma reader_u32_app z r : in_uint 32 z -> reader_u32 (be_bytes 4 z ++ r) = Ok (z, r).
Proof. intros H. unfold reader_u32. rewrite reader_take_app by apply length_be_bytes. cbn [mbind result_bind]. by rewrite from_be_bytes_id. Qed.

Lemma reader_optional_hash_app o r : reader_optional_hash (push_optional_hash [] o ++ r) = Ok (o, r).
Proof.
  change (push_optional_hash [] o ++ r) with ([bool_byte (is_some o)] ++ vec_to_list (default (zeroes 32) o) ++ r).
  unfold reader_optional_hash. rewrite (reader_take_app 1) by done. cbn [mbind result_bind]. rewrite reader_array32_app. cbn [mbind result_bind].
  destruct o as [h|]; [done|]. cbn [from_option is_some bool_byte byte_at nth]. cbv zeta. by rewrite bool_decide_true.
Qed.

Lemma reader_optional_bytes_app o payload r out :
  push_optional_state_bytes out o = Ok payload ->
  exists mid, payload = out ++ mid /\ reader_optional_bytes MAX_LEAF_BYTES (mid ++ r) = Ok (o, r) /\
    Z.of_nat (length mid) <= 5 + MAX_LEAF_BYTES.
Proof.
  unfold push_optional_state_bytes, push_state_bytes, push_state_u32. intros H. destruct o as [bs|].
  - inv_ok. subst payload a0. b2p. exists ([x01] ++ be_bytes 4 (Z.of_nat (length bs)) ++ bs). unfold MAX_LEAF_BYTES in *.
    split; [by rewrite <-!(assoc_L (++))|]. split; [|rewrite !length_app, length_be_bytes; simpl length; lia].
    unfold reader_optional_bytes, reader_bytes. rewrite <-(assoc_L (++)), (reader_take_app 1) by done. cbn [mbind result_bind].
    change (u8 (byte_at 0 [x01])) with 1. cbv iota. rewrite <-(assoc_L (++)), reader_u32_app by (unfold in_uint; lia).
    cbn [mbind result_bind]. rewrite Nat2Z.id, reader_take_app by done. cbn [mbind result_bind].
    rewrite (proj2 (Nat.eqb_neq _ _)), (proj2 (Z.ltb_ge _ _)) by lia. done.
  - inv_ok. subst payload. exists [x00]. split; [done|]. split; [done|]. unfold MAX_LEAF_BYTES. simpl. lia.
Qed.

(** A stored state reads back, under the key it was written with. *)
Lemma decode_encode_authenticated s key bs :
  state_wf s -> encode_authenticated s key = Ok bs -> decode_authenticated bs key = Ok s.
Proof.
  intros [Wg Wl] H. unfold encode_authenticated in H. cbv zeta in H. apply bind_Ok in H as (payload & Hp & H).
  apply bind_Ok in H as (? & Hg%guard_Ok & H). apply Ok_inj in H. apply Z.ltb_ge in Hg. rewrite H in Hg.
  set (encoded := STATE_MAGIC ++ [STATE_VERSION] ++ be_bytes 8 (Z.of_nat (length payload)) ++ payload) in *.
  assert (length encoded = 17 + length payload)%nat as Hl by (unfold encoded; rewrite !length_app, length_be_bytes; done).
  assert (length bs = 17 + length payload + 32)%nat as Hb by (rewrite <-H, length_app, Hl, length_vec_to_list; lia).
  unfold MAX_STATE_BYTES in *.
  assert (from_be_bytes (slice 9 17 bs) = Z.of_nat (length payload)) as Hn.
  { rewrite <-H. unfold encoded. rewrite <-!(assoc_L (++)). read_layout. apply from_be_bytes_id. unfold in_uint. lia. }
  unfold decode_authenticated. cbv zeta. rewrite Hn. unfold checked_add.
  rewrite (proj2 (Nat.ltb_ge _ _)), (proj2 (Z.ltb_ge MAX_STATE_BYTES _)), (proj2 (Z.ltb_lt _ (2 ^ 64))) by (unfold MAX_STATE_BYTES; lia).
  assert (take 8 bs = STATE_MAGIC) as -> by (rewrite <-H; unfold encoded; rewrite <-!(assoc_L (++)); by apply (take_app_length' _ _ 8)).
  assert (byte_at 8 bs = STATE_VERSION) as -> by (rewrite <-H; unfold encoded; rewrite <-!(assoc_L (++)); by read_layout).
  rewrite !bool_decide_true by done. cbn [negb orb guard ok_or mbind result_bind].
  rewrite (proj2 (Z.eqb_eq _ _)) by lia. cbn [negb guard mbind result_bind].
  replace (Z.to_nat (17 + Z.of_nat (length payload))) with (length encoded) by lia.
  rewrite <-H at 1 2. rewrite take_app_length, drop_app_length. unfold verify_state_authentication_tag, state_authentication_tag.
  rewrite bool_decide_true by done. cbn [negb guard mbind result_bind].
  assert (slice 17 (length encoded) bs = payload) as ->.
  { unfold slice. rewrite <-H. rewrite drop_app_le by lia. unfold encoded at 2. rewrite Hl.
    change (STATE_MAGIC ++ [STATE_VERSION] ++ ?x ++ payload) with ((STATE_MAGIC ++ [STATE_VERSION]) ++ x ++ payload). rewrite (assoc_L (++)).
    rewrite (drop_app_length' _ _ 17) by (rewrite !length_app, length_be_bytes; done).
    replace (17 + length payload - 17)%nat with (length payload) by lia. apply take_app_length. }
  unfold state_payload in Hp. cbv zeta in Hp. apply bind_Ok in Hp as (payload' & Hp' & Hp). apply Ok_inj in Hp.
  apply (reader_optional_bytes_app _ _ (vec_to_list (ps_root s))) in Hp' as (mid & -> & Hr & _). subst payload.
  unfold push_optional_hash, decode_payload. rewrite <-!(assoc_L (++)).
  rewrite reader_array32_app. cbn [mbind result_bind]. rewrite reader_array16_app. cbn [mbind result_bind].
  rewrite reader_u64_app by done. cbn [mbind result_bind]. rewrite reader_u64_app by done. cbn [mbind result_bind].
  change ([bool_byte (is_some (ps_last_leaf_hash s))] ++ vec_to_list (default (zeroes 32) (ps_last_leaf_hash s)) ++ mid ++ vec_to_list (ps_root s))
    with (push_optional_hash [] (ps_last_leaf_hash s) ++ mid ++ vec_to_list (ps_root s)).
  rewrite reader_optional_hash_app. cbn [mbind result_bind]. rewrite Hr. cbn [mbind result_bind].
  rewrite <-(app_nil_r (vec_to_list (ps_root s))), reader_array32_app. cbn [mbind result_bind]. by destruct s.
Qed.
End State.
