(* ===== verification/Ledger.v ===== *)
(** [pigeonpost-compliance/src/ledger.rs]: the disclosure ledger.  Creation, reopening with the
    recovery of one interrupted append, appending, and the execution of an authorized operation
    between its two public leaves.

    The ledger is the one kept in files; the variant without a file exists only under
    [cfg(test)].  The directory is passed explicitly: the log, its metadata, how many of its
    bytes are durable, and the restart state, which is replaced as a whole by a rename, durable once
    the directory is synced.  Nothing makes the change time of the log durable.  What the operating system and the custody checks (ownership, permissions, live names, and reading the
    metadata) answer during a call is its argument [io].  Offsets are natural numbers: the file is
    at most 512 MiB, so that no [u64] sum below overflows. *)
From S2P Require Import Prelude Text Crypto Compliance Layout TraceRecord Merkle MerkleFrontier Custody Approval LedgerLeaf LedgerState.

Definition PROOF_BLOCK_LEAVES : nat := 1024.
Lemma proof_block_pow : PROOF_BLOCK_LEAVES = (2 ^ 10)%nat.
Proof. reflexivity. Qed.
#[global] Arguments PROOF_BLOCK_LEAVES : simpl never.
#[global] Opaque PROOF_BLOCK_LEAVES.

Record LedgerFiles := {
  log_bytes : bytes;
  log_meta : Metadata;
  (** the leading bytes of the log that [sync_data] or [sync_all] made durable *)
  log_synced : nat;
  state_file : option bytes;
  (** the restart state the directory was last synced with *)
  durable_state : option bytes;
}.

(** What replacing the restart state came to. *)
Inductive Replacement :=
  | Replaced
  | NotReplaced (e : ComplianceError.ComplianceError)
  | ReplacedThenFailed (e : ComplianceError.ComplianceError).

(** What [set_len] and the [fsync] after it came to. *)
Inductive Truncation := Truncated | TruncationFailed | TruncatedNotSynced.

Record LedgerIo := {
  (** the answers of the custody checks of a call, in order *)
  li_custody : nat -> ComplianceResult unit;
  li_replace : nat -> Replacement;
  (** [None]: the record was written whole; [Some n]: the write failed after [n] bytes *)
  li_written : option nat;
  li_synced : ComplianceResult unit;
  li_truncate : Truncation;
  (** the change time of the log after a write or a truncation *)
  li_ctime : Z * Z;
}.

(** The indexes rebuilt from the log. *)
Record LedgerCore := {
  leaf_offsets : list nat;
  frontier : MerkleFrontier;
  root : Hash;
  proof_block_roots : list Hash;
  proof_tail_frontier : MerkleFrontier;
  proof_tail_hashes : list Hash;
  index : LeafIndex;
}.

Record LedgerStateStore := {
  authentication_key : arr 32;
  file_identity : arr 32;
  mutation_marker : arr 16;
  st_generation : Z;
  log_len : Z;
  last_leaf_hash : option Hash;
  pending_append : option bytes;
}.

Record DisclosureLedger := { core : LedgerCore; state_store : LedgerStateStore; state_poisoned : bool }.

Section Ledger.
Context {C : Crypto}.

(** * Small updates *)

Definition at_ctime (m : Metadata) (t : Z * Z) : Metadata :=
  {| dev := dev m; ino := ino m; ctime := fst t; ctime_nsec := snd t |}.

Definition with_log (bs : bytes) (m : Metadata) (f : LedgerFiles) : LedgerFiles :=
  {| log_bytes := bs; log_meta := m; log_synced := log_synced f; state_file := state_file f; durable_state := durable_state f |}.
(** [sync_data]: the bytes and the length, and no other metadata. *)
Definition sync_log (f : LedgerFiles) : LedgerFiles :=
  {| log_bytes := log_bytes f; log_meta := log_meta f; log_synced := length (log_bytes f); state_file := state_file f;
     durable_state := durable_state f |}.
(** The rename over the restart state, and whether the directory was synced after it. *)
Definition with_state_file (synced : bool) (bs : bytes) (f : LedgerFiles) : LedgerFiles :=
  {| log_bytes := log_bytes f; log_meta := log_meta f; log_synced := log_synced f; state_file := Some bs;
     durable_state := if synced then Some bs else durable_state f |}.

Definition with_pending (p : option bytes) (s : LedgerStateStore) : LedgerStateStore :=
  {| authentication_key := authentication_key s; file_identity := file_identity s; mutation_marker := mutation_marker s;
     st_generation := st_generation s; log_len := log_len s; last_leaf_hash := last_leaf_hash s; pending_append := p |}.
Definition with_stamp (marker : arr 16) (len : Z) (s : LedgerStateStore) : LedgerStateStore :=
  {| authentication_key := authentication_key s; file_identity := file_identity s; mutation_marker := marker;
     st_generation := st_generation s; log_len := len; last_leaf_hash := last_leaf_hash s; pending_append := pending_append s |}.
Definition with_leaf (generation len : Z) (hash : Hash) (s : LedgerStateStore) : LedgerStateStore :=
  {| authentication_key := authentication_key s; file_identity := file_identity s; mutation_marker := mutation_marker s;
     st_generation := generation; log_len := len; last_leaf_hash := Some hash; pending_append := pending_append s |}.

Definition with_store (s : LedgerStateStore) (l : DisclosureLedger) : DisclosureLedger :=
  {| core := core l; state_store := s; state_poisoned := state_poisoned l |}.
Definition poison (l : DisclosureLedger) : DisclosureLedger :=
  {| core := core l; state_store := state_store l; state_poisoned := true |}.

Definition core_new : LedgerCore :=
  {| leaf_offsets := []; frontier := frontier_new; root := empty_root; proof_block_roots := [];
     proof_tail_frontier := frontier_new; proof_tail_hashes := []; index := index_new |}.

Definition core_leaf_count (c : LedgerCore) : Z := Z.of_N (size (frontier c)).
Definition leaf_count (l : DisclosureLedger) : Z := core_leaf_count (core l).

(** * Records *)

Definition record_bytes (encoded : bytes) : bytes := be_bytes 4 (Z.of_nat (length encoded)) ++ encoded.

(** [file.read_exact] of [n] bytes at [offset]. *)
Definition read_exact (log : bytes) (offset n : nat) : ComplianceResult bytes :=
  _ ← guard (length log <? offset + n)%nat ComplianceError.Storage;
  Ok (slice offset (offset + n) log).

Definition read_record_at (log : bytes) (payload_offset maximum_end : nat) : ComplianceResult (bytes * nat) :=
  _ ← guard (payload_offset <? 4)%nat ComplianceError.Storage;
  length_bytes ← read_exact log (payload_offset - 4) 4;
  let length := from_be_bytes length_bytes in
  _ ← guard ((length =? 0) || (MAX_LEAF_BYTES <? length)) ComplianceError.Storage;
  let end_ := (payload_offset + Z.to_nat length)%nat in
  _ ← guard (maximum_end <? end_)%nat ComplianceError.Storage;
  encoded ← read_exact log payload_offset (Z.to_nat length);
  Ok (encoded, end_).

(** * Absorbing a leaf into the indexes *)

Definition absorb_hash (hash : Hash) (c : LedgerCore) : ComplianceResult LedgerCore :=
  match append_hash (frontier c) hash with
  | (None, _) => Err ComplianceError.LimitExceeded
  | (Some _, frontier) =>
      root ← ok_or (frontier_root frontier) ComplianceError.Storage;
      match append_hash (proof_tail_frontier c) hash with
      | (None, _) => Err ComplianceError.LimitExceeded
      | (Some _, tail_frontier) =>
          let tail_hashes := proof_tail_hashes c ++ [hash] in
          if (length tail_hashes =? PROOF_BLOCK_LEAVES)%nat then
            block_root ← ok_or (frontier_root tail_frontier) ComplianceError.Storage;
            Ok {| leaf_offsets := leaf_offsets c; frontier := frontier; root := root;
                  proof_block_roots := proof_block_roots c ++ [block_root]; proof_tail_frontier := frontier_new;
                  proof_tail_hashes := []; index := index c |}
          else
            Ok {| leaf_offsets := leaf_offsets c; frontier := frontier; root := root;
                  proof_block_roots := proof_block_roots c; proof_tail_frontier := tail_frontier;
                  proof_tail_hashes := tail_hashes; index := index c |}
      end
  end.

Definition push_offset (offset : nat) (c : LedgerCore) : LedgerCore :=
  {| leaf_offsets := leaf_offsets c ++ [offset]; frontier := frontier c; root := root c;
     proof_block_roots := proof_block_roots c; proof_tail_frontier := proof_tail_frontier c;
     proof_tail_hashes := proof_tail_hashes c; index := index c |}.
Definition with_index (x : LeafIndex) (c : LedgerCore) : LedgerCore :=
  {| leaf_offsets := leaf_offsets c; frontier := frontier c; root := root c;
     proof_block_roots := proof_block_roots c; proof_tail_frontier := proof_tail_frontier c;
     proof_tail_hashes := proof_tail_hashes c; index := x |}.

(** What the replay of the log and the recovery of its tail do with one leaf. *)
Definition absorb_leaf (payload_offset : nat) (encoded : bytes) (leaf : DisclosureLeaf) (c : LedgerCore) : ComplianceResult LedgerCore :=
  let sequence := core_leaf_count c in
  c ← absorb_hash (leaf_hash encoded) (push_offset payload_offset c);
  Ok (with_index (record_leaf_state (index c) leaf sequence) c).

(** * The restart state *)

Definition write_private_state_guarded (o : Replacement) (bs : bytes) (f : LedgerFiles) : ComplianceResult unit * LedgerFiles :=
  if MAX_STATE_BYTES <? Z.of_nat (length bs) then (Err ComplianceError.LimitExceeded, f)
  else match o with
       | Replaced => (Ok tt, with_state_file true bs f)
       | NotReplaced e => (Err e, f)
       | ReplacedThenFailed e => (Err e, with_state_file false bs f)
       end.

Definition persisted_of (l : DisclosureLedger) : PersistedLedgerState :=
  let store := state_store l in
  {| ps_file_identity := file_identity store; ps_mutation_marker := mutation_marker store; ps_generation := st_generation store;
     ps_log_len := log_len store; ps_last_leaf_hash := last_leaf_hash store; ps_pending_append := pending_append store;
     ps_root := root (core l) |}.

Definition persist_state (o : Replacement) (l : DisclosureLedger) (f : LedgerFiles) : ComplianceResult unit * LedgerFiles :=
  let store := state_store l in
  match
    _ ← guard (negb (st_generation store =? leaf_count l) || (log_len store <? Z.of_nat (length LOG_MAGIC))
               || negb (eqb (is_some (last_leaf_hash store)) (negb (leaf_count l =? 0)))) ComplianceError.Storage;
    encode_authenticated (persisted_of l) (authentication_key store)
  with
  | Err e => (Err e, f)
  | Ok encoded => write_private_state_guarded o encoded f
  end.

Definition refresh_store_file_stamp (custody : ComplianceResult unit) (l : DisclosureLedger) (f : LedgerFiles)
  : ComplianceResult DisclosureLedger :=
  _ ← custody;
  _ ← guard (negb (ledger_file_identity (log_meta f) ≟ file_identity (state_store l))) ComplianceError.Storage;
  Ok (with_store (with_stamp (ledger_mutation_marker (log_meta f)) (Z.of_nat (length (log_bytes f))) (state_store l)) l).

Definition validate_current_store_file_stamp (custody : ComplianceResult unit) (l : DisclosureLedger) (f : LedgerFiles)
  : ComplianceResult unit :=
  _ ← custody;
  let store := state_store l in
  guard (negb (Z.of_nat (length (log_bytes f)) =? log_len store) || negb (ledger_file_identity (log_meta f) ≟ file_identity store)
         || negb (ledger_mutation_marker (log_meta f) ≟ mutation_marker store)) ComplianceError.Storage.

(** * Appending *)

(** What an append computes before it touches the disk. *)
Record AppendPlan := {
  ap_encoded : bytes;
  ap_hash : Hash;
  ap_frontier : MerkleFrontier;
  ap_root : Hash;
  ap_tail_frontier : MerkleFrontier;
  ap_block_root : option Hash;
}.

(** [frontier.append_hash(hash).ok_or(e)] on a clone. *)
Definition try_append_hash (f : MerkleFrontier) (hash : Hash) : ComplianceResult MerkleFrontier :=
  match append_hash f hash with
  | (Some _, f) => Ok f
  | (None, _) => Err ComplianceError.LimitExceeded
  end.

Definition append_plan (leaf : DisclosureLeaf) (l : DisclosureLedger) : ComplianceResult AppendPlan :=
  let c := core l in
  _ ← guard (state_poisoned l) ComplianceError.Storage;
  _ ← guard (MAX_DISCLOSURE_LEAVES <=? leaf_count l) ComplianceError.LimitExceeded;
  _ ← validate_leaf_sequence (index c) leaf;
  encoded ← leaf_encode leaf;
  _ ← guard (MAX_LEAF_BYTES <? Z.of_nat (length encoded)) ComplianceError.LimitExceeded;
  let hash := leaf_hash encoded in
  next_frontier ← try_append_hash (frontier c) hash;
  next_root ← ok_or (frontier_root next_frontier) ComplianceError.Storage;
  next_tail_frontier ← try_append_hash (proof_tail_frontier c) hash;
  completed_block_root ←
    (if (length (proof_tail_hashes c) + 1 =? PROOF_BLOCK_LEAVES)%nat
     then Some <$> ok_or (frontier_root next_tail_frontier) ComplianceError.Storage
     else Ok None);
  Ok {| ap_encoded := encoded; ap_hash := hash; ap_frontier := next_frontier; ap_root := next_root;
        ap_tail_frontier := next_tail_frontier; ap_block_root := completed_block_root |}.

(** The closure that writes one record at the end of the log. *)
Definition write_record (io : LedgerIo) (encoded : bytes) (f : LedgerFiles) : ComplianceResult (nat * nat) * LedgerFiles :=
  let record_offset := length (log_bytes f) in
  let next_len := (record_offset + 4 + length encoded)%nat in
  if MAX_LOG_BYTES <? Z.of_nat next_len then (Err ComplianceError.LimitExceeded, f)
  else
    match li_written io with
    | Some O => (Err ComplianceError.Storage, f)
    | Some n =>
        (Err ComplianceError.Storage,
         with_log (log_bytes f ++ take n (record_bytes encoded)) (at_ctime (log_meta f) (li_ctime io)) f)
    | None =>
        let f := with_log (log_bytes f ++ record_bytes encoded) (at_ctime (log_meta f) (li_ctime io)) f in
        match li_synced io with
        | Err _ => (Err ComplianceError.Storage, f)
        | Ok _ => (Ok (record_offset, next_len), sync_log f)
        end
    end.

(** The memory of the ledger after a record reached the disk. *)
Definition commit_leaf (leaf : DisclosureLeaf) (p : AppendPlan) (record_offset next_len : nat) (l : DisclosureLedger) : DisclosureLedger :=
  let c := core l in
  let sequence := leaf_count l in
  let c := match ap_block_root p with
    | Some block_root =>
        {| leaf_offsets := leaf_offsets c ++ [record_offset + 4]%nat; frontier := ap_frontier p; root := ap_root p;
           proof_block_roots := proof_block_roots c ++ [block_root]; proof_tail_frontier := frontier_new;
           proof_tail_hashes := []; index := record_leaf_state (index c) leaf sequence |}
    | None =>
        {| leaf_offsets := leaf_offsets c ++ [record_offset + 4]%nat; frontier := ap_frontier p; root := ap_root p;
           proof_block_roots := proof_block_roots c; proof_tail_frontier := ap_tail_frontier p;
           proof_tail_hashes := proof_tail_hashes c ++ [ap_hash p]; index := record_leaf_state (index c) leaf sequence |}
    end in
  {| core := c;
     state_store := with_pending None (with_leaf (core_leaf_count c) (Z.of_nat next_len) (ap_hash p) (state_store l));
     state_poisoned := state_poisoned l |}.

(** The last part of [append]: the memory, then the restart state. *)
Definition append_finish (io : LedgerIo) (leaf : DisclosureLeaf) (p : AppendPlan) (record_offset next_len : nat)
  (l : DisclosureLedger) (f : LedgerFiles) : ComplianceResult unit * DisclosureLedger * LedgerFiles :=
  let l := commit_leaf leaf p record_offset next_len l in
  match refresh_store_file_stamp (li_custody io 3) l f with
  | Err _ => (Err ComplianceError.Storage, poison l, f)
  | Ok l =>
      match persist_state (li_replace io 1) l f with
      | (Err _, f) => (Err ComplianceError.Storage, poison l, f)
      | (Ok _, f) => (Ok tt, l, f)
      end
  end.

Definition append (io : LedgerIo) (leaf : DisclosureLeaf) (l : DisclosureLedger) (f : LedgerFiles)
  : ComplianceResult unit * DisclosureLedger * LedgerFiles :=
  match append_plan leaf l with
  | Err e => (Err e, l, f)
  | Ok p =>
      match validate_current_store_file_stamp (li_custody io 0) l f with
      | Err _ => (Err ComplianceError.Storage, poison l, f)
      | Ok _ =>
          let l := with_store (with_pending (Some (ap_encoded p)) (state_store l)) l in
          match persist_state (li_replace io 0) l f with
          | (Err _, f) => (Err ComplianceError.Storage, poison l, f)
          | (Ok _, f) =>
              match li_custody io 1 with
              | Err e => (Err e, l, f)
              | Ok _ =>
                  match write_record io (ap_encoded p) f with
                  | (Err e, f) => (Err e, poison l, f)
                  | (Ok (record_offset, next_len), f) =>
                      match li_custody io 2 with
                      | Err e => (Err e, l, f)
                      | Ok _ => append_finish io leaf p record_offset next_len l f
                      end
                  end
              end
          end
      end
  end.

Definition append_failure (io : LedgerIo) (request_id : arr 32) (timestamp_ms : Z) (l : DisclosureLedger) (f : LedgerFiles)
  : ComplianceResult unit * DisclosureLedger * LedgerFiles :=
  append io (Completion {| dc_request_id := request_id; dc_timestamp_ms := timestamp_ms; dc_status := Failed;
                           dc_record_count := 0; dc_result_commitment := sha256 GENERIC_FAILURE_DOMAIN |}) l f.

Definition close_incomplete_failure (io : LedgerIo) (request_id : arr 32) (timestamp_ms : Z) (l : DisclosureLedger) (f : LedgerFiles)
  : ComplianceResult unit * DisclosureLedger * LedgerFiles :=
  if negb (bool_decide (is_Some (incomplete (index (core l)) !! request_id))) then (Err ComplianceError.StateConflict, l, f)
  else append_failure io request_id timestamp_ms l f.

(** * Executing an authorized operation *)

Record DisclosureOutput T := { value : T; record_count : Z; result_commitment : arr 32 }.
#[global] Arguments value {T} _.
#[global] Arguments record_count {T} _.
#[global] Arguments result_commitment {T} _.

Definition intent_of (r : DisclosureRequest) (started_at_ms : Z) : DisclosureIntent := {|
  di_request_id := rq_request_id r; di_timestamp_ms := started_at_ms; di_jurisdiction := rq_jurisdiction r;
  di_purpose := rq_purpose r; di_key_ids := rq_key_ids r; di_order_commitment := rq_order_commitment r;
  di_requester_commitment := rq_requester_commitment r; di_selector_commitment := rq_selector_commitment r;
  di_approver_commitments := rq_approvers r |}.

(** The last part of [execute]: the completion leaf for what the operation returned. *)
Definition complete {T} (io : LedgerIo) (authorization : AuthorizedDisclosure) (completed_at_ms : Z)
  (operation_result : ComplianceResult (DisclosureOutput T)) (l : DisclosureLedger) (f : LedgerFiles)
  : ComplianceResult T * DisclosureLedger * LedgerFiles :=
  match operation_result with
  | Ok output =>
      if negb (result_commitment output ≟ zeroes 32) then
        match append io (Completion {| dc_request_id := ad_request_id authorization; dc_timestamp_ms := completed_at_ms;
                dc_status := Succeeded; dc_record_count := record_count output; dc_result_commitment := result_commitment output |}) l f with
        | (Err e, l, f) => (Err e, l, f)
        | (Ok _, l, f) => (Ok (value output), l, f)
        end
      else
        match append_failure io (ad_request_id authorization) completed_at_ms l f with
        | (Err e, l, f) => (Err e, l, f)
        | (Ok _, l, f) => (Err ComplianceError.InvalidRequest, l, f)
        end
  | Err error =>
      match append_failure io (ad_request_id authorization) completed_at_ms l f with
      | (Err e, l, f) => (Err e, l, f)
      | (Ok _, l, f) => (Err error, l, f)
      end
  end.

(** [io] answers the append of the intent, [io'] that of the completion.  The operation runs between the
    two: it acts on a world of its own and can look at the directory as it is when it runs.  The clock is
    read in the world the operation leaves. *)
Definition execute {T W} (io io' : LedgerIo) (started_at_ms : Z) (completion_clock : W -> ComplianceResult Z * W)
  (operation : AuthorizedDisclosure -> LedgerFiles -> W -> ComplianceResult (DisclosureOutput T) * W) (r : DisclosureRequest)
  (l : DisclosureLedger) (f : LedgerFiles) (w : W) : ComplianceResult T * DisclosureRequest * DisclosureLedger * LedgerFiles * W :=
  match ensure_authorized started_at_ms r with
  | (Err e, r) => (Err e, r, l, f, w)
  | (Ok _, r) =>
      match append io (Intent (intent_of r started_at_ms)) l f with
      | (Err e, l, f) => (Err e, r, l, f, w)
      | (Ok _, l, f) =>
          match consume started_at_ms r with
          | (Err e, r) => (Err e, r, l, f, w)
          | (Ok authorization, r) =>
              let '(operation_result, w) := operation authorization f w in
              match completion_clock w with
              | (Err e, w) => (Err e, r, l, f, w)
              | (Ok completed_at_ms, w) =>
                  if completed_at_ms <? started_at_ms then (Err ComplianceError.InvalidRequest, r, l, f, w)
                  else
                    let '(res, l, f) := complete io' authorization completed_at_ms operation_result l f in
                    (res, r, l, f, w)
              end
          end
      end
  end.

(** * Creation *)

Definition require_offline_platform (supported_offline_target : bool) : ComplianceResult unit :=
  if supported_offline_target then Ok tt else Err ComplianceError.UnsupportedPlatform.

(** The ledger of an empty log. *)
Definition fresh_ledger (key : arr 32) (m : Metadata) : DisclosureLedger := {|
  core := core_new;
  state_store := {| authentication_key := key; file_identity := ledger_file_identity m; mutation_marker := ledger_mutation_marker m;
    st_generation := 0; log_len := Z.of_nat (length LOG_MAGIC); last_leaf_hash := None; pending_append := None |};
  state_poisoned := false |}.

(** [existing] tells whether the two files are there already; [m] is the metadata of the new log. *)
Definition create_for_platform (supported : bool) (io : LedgerIo) (m : Metadata) (state_secret : arr 32) (existing : option LedgerFiles)
  : ComplianceResult DisclosureLedger * option LedgerFiles :=
  match _ ← require_offline_platform supported; _ ← li_custody io 0; guard (is_some existing) ComplianceError.Storage with
  | Err e => (Err e, existing)
  | Ok _ =>
      let empty := {| log_bytes := LOG_MAGIC; log_meta := m; log_synced := length LOG_MAGIC; state_file := None; durable_state := None |} in
      let l := fresh_ledger (derive_state_authentication_key state_secret) m in
      match persist_state (li_replace io 0) l empty with
      | (Err e, f) => (Err e, Some f)
      | (Ok _, f) => (Ok l, Some f)
      end
  end.

(** * Reopening *)

(** The loop of [from_persisted] over the committed prefix of the log; [None] when the fuel ends. *)
Fixpoint stream (fuel : nat) (log : bytes) (log_len record_offset : nat) (last : option Hash) (c : LedgerCore)
  : option (ComplianceResult (nat * option Hash * LedgerCore)) :=
  match fuel with
  | O => None
  | S fuel =>
      if (log_len <=? record_offset)%nat then Some (Ok (record_offset, last, c))
      else
        match
          _ ← guard (MAX_DISCLOSURE_LEAVES <=? core_leaf_count c) ComplianceError.LimitExceeded;
          let payload_offset := (record_offset + 4)%nat in
          '(encoded, end_) ← read_record_at log payload_offset log_len;
          leaf ← leaf_decode encoded;
          _ ← validate_leaf_sequence (index c) leaf;
          c ← absorb_leaf payload_offset encoded leaf c;
          Ok (encoded, end_, c)
        with
        | Err e => Some (Err e)
        | Ok (encoded, end_, c) => stream fuel log log_len end_ (Some (leaf_hash encoded)) c
        end
  end.

Definition from_persisted (log : bytes) (key : arr 32) (s : PersistedLedgerState) : option (ComplianceResult DisclosureLedger) :=
  let log_len := Z.to_nat (ps_log_len s) in
  streamed ← stream (S log_len) log log_len (length LOG_MAGIC) None core_new;
  Some
    ('(record_offset, streamed_last_hash, c) ← streamed;
     _ ← guard (negb (record_offset =? log_len)%nat || negb (core_leaf_count c =? ps_generation s) || negb (root c ≟ ps_root s)
                || negb (streamed_last_hash ≟ ps_last_leaf_hash s)) ComplianceError.Storage;
     _ ← match ps_pending_append s with
         | None => Ok tt
         | Some encoded =>
             leaf ← leaf_decode encoded;
             validate_leaf_sequence (index c) leaf
         end;
     Ok {| core := c;
           state_store := {| authentication_key := key; file_identity := ps_file_identity s; mutation_marker := ps_mutation_marker s;
             st_generation := ps_generation s; log_len := ps_log_len s; last_leaf_hash := ps_last_leaf_hash s;
             pending_append := ps_pending_append s |};
           state_poisoned := false |}).

(** [set_len(indexed_len)] and [sync_all]. *)
Definition truncate_log (io : LedgerIo) (len : nat) (f : LedgerFiles) : ComplianceResult unit * LedgerFiles :=
  let truncated :=
    {| log_bytes := take len (log_bytes f); log_meta := at_ctime (log_meta f) (li_ctime io);
       log_synced := Nat.min len (log_synced f); state_file := state_file f; durable_state := durable_state f |} in
  match li_truncate io with
  | Truncated => (Ok tt, sync_log truncated)
  | TruncationFailed => (Err ComplianceError.Storage, f)
  | TruncatedNotSynced => (Err ComplianceError.Storage, truncated)
  end.

(** The leaf of a complete interrupted append. *)
Definition recover_leaf (encoded : bytes) (indexed_len file_len : nat) (l : DisclosureLedger) : ComplianceResult DisclosureLedger :=
  leaf ← leaf_decode encoded;
  _ ← validate_leaf_sequence (index (core l)) leaf;
  _ ← guard (MAX_DISCLOSURE_LEAVES <=? leaf_count l) ComplianceError.LimitExceeded;
  c ← absorb_leaf (indexed_len + 4) encoded leaf (core l);
  Ok {| core := c; state_store := with_leaf (core_leaf_count c) (Z.of_nat file_len) (leaf_hash encoded) (state_store l);
        state_poisoned := state_poisoned l |}.

Definition recover_bounded_tail (io : LedgerIo) (l : DisclosureLedger) (f : LedgerFiles)
  : ComplianceResult (bool * DisclosureLedger) * LedgerFiles :=
  let file_len := length (log_bytes f) in
  let store := state_store l in
  let indexed_len := Z.to_nat (log_len store) in
  match
    _ ← li_custody io 1;
    guard ((Z.of_nat file_len <? log_len store) || (MAX_RECOVERY_TAIL_BYTES <? Z.of_nat file_len - log_len store)) ComplianceError.Storage
  with
  | Err e => (Err e, f)
  | Ok _ =>
      match pending_append store with
      | None => if negb (file_len =? indexed_len)%nat then (Err ComplianceError.Storage, f) else (Ok (false, l), f)
      | Some encoded =>
          let expected_record := record_bytes encoded in
          let actual := drop indexed_len (log_bytes f) in
          let remaining := length actual in
          match guard ((length expected_record <? remaining)%nat || negb (actual ≟ take remaining expected_record)) ComplianceError.Storage with
          | Err e => (Err e, f)
          | Ok _ =>
              let '(recovered, f) :=
                if (remaining <? length expected_record)%nat then
                  match truncate_log io indexed_len f with
                  | (Err e, f) => (Err e, f)
                  | (Ok _, f) => (Ok l, f)
                  end
                else (recover_leaf encoded indexed_len file_len l, f) in
              (l ← recovered;
               _ ← li_custody io 2;
               Ok (true, with_store (with_pending None (state_store l)) l), f)
          end
      end
  end.

(** [read_persisted_state_guarded]; the guards of the file are part of [io]. *)
Definition read_persisted_state_guarded (bs : bytes) (key : arr 32) : ComplianceResult PersistedLedgerState :=
  _ ← guard (MAX_STATE_BYTES <? Z.of_nat (length bs)) ComplianceError.LimitExceeded;
  decode_authenticated bs key.

(** What [open_for_platform] reads before it builds a ledger. *)
Definition open_checks (supported : bool) (io : LedgerIo) (key : arr 32) (f : LedgerFiles) : ComplianceResult (option PersistedLedgerState) :=
  _ ← require_offline_platform supported;
  _ ← li_custody io 0;
  persisted ← match state_file f with
              | None => Ok None
              | Some bs => Some <$> read_persisted_state_guarded bs key
              end;
  _ ← guard (MAX_LOG_BYTES <? Z.of_nat (length (log_bytes f))) ComplianceError.LimitExceeded;
  _ ← guard (length (log_bytes f) <? length LOG_MAGIC)%nat ComplianceError.InvalidRequest;
  _ ← guard (negb (take (length LOG_MAGIC) (log_bytes f) ≟ LOG_MAGIC)) ComplianceError.InvalidRequest;
  _ ← match persisted with
      | None => Ok tt
      | Some s => state_validate s (Z.of_nat (length (log_bytes f))) (ledger_file_identity (log_meta f)) (ledger_mutation_marker (log_meta f))
      end;
  Ok persisted.

(** What follows the recovery of the tail. *)
Definition open_finish (io : LedgerIo) (recovered state_exists : bool) (l : DisclosureLedger) (f : LedgerFiles)
  : ComplianceResult DisclosureLedger * LedgerFiles :=
  let store := state_store l in
  match
    _ ← guard (negb (Z.of_nat (length (log_bytes f)) =? log_len store) || negb (ledger_file_identity (log_meta f) ≟ file_identity store)
               || (negb recovered && negb (ledger_mutation_marker (log_meta f) ≟ mutation_marker store))) ComplianceError.Storage;
    _ ← li_custody io 3;
    if recovered || negb state_exists then refresh_store_file_stamp (li_custody io 4) l f else Ok l
  with
  | Err e => (Err e, f)
  | Ok l =>
      if recovered || negb state_exists then
        match persist_state (li_replace io 0) l f with
        | (Err e, f) => (Err e, f)
        | (Ok _, f) => (Ok l, f)
        end
      else (Ok l, f)
  end.

(** [None] when the replay of the log runs out of fuel. *)
Definition open_for_platform (supported : bool) (io : LedgerIo) (state_secret : arr 32) (f : LedgerFiles)
  : option (ComplianceResult DisclosureLedger * LedgerFiles) :=
  let key := derive_state_authentication_key state_secret in
  match open_checks supported io key f with
  | Err e => Some (Err e, f)
  | Ok persisted =>
      built ← match persisted with
              | Some s => from_persisted (log_bytes f) key s
              | None => Some (Ok (fresh_ledger key (log_meta f)))
              end;
      match built with
      | Err e => Some (Err e, f)
      | Ok l =>
          match recover_bounded_tail io l f with
          | (Err e, f) => Some (Err e, f)
          | (Ok (recovered, l), f) => Some (open_finish io recovered (is_some (state_file f)) l f)
          end
      end
  end.

(** * Reading *)

(** [custody] is what [verify_ledger_custody] answers before and after the read. *)
Definition encoded_leaf (custody : ComplianceResult unit * ComplianceResult unit) (l : DisclosureLedger) (log : bytes) (index : nat)
  : ComplianceResult (option bytes) :=
  if leaf_count l <=? Z.of_nat index then Ok None
  else
    _ ← fst custody;
    payload_offset ← ok_or (leaf_offsets (core l) !! index) ComplianceError.Storage;
    length_bytes ← read_exact log (payload_offset - 4) 4;
    let length := from_be_bytes length_bytes in
    _ ← guard ((length =? 0) || (MAX_LEAF_BYTES <? length)) ComplianceError.Storage;
    encoded ← read_exact log payload_offset (Z.to_nat length);
    _ ← snd custody;
    Ok (Some encoded).

Definition leaf (custody : ComplianceResult unit * ComplianceResult unit) (l : DisclosureLedger) (log : bytes) (index : nat)
  : ComplianceResult (option DisclosureLeaf) :=
  encoded ← encoded_leaf custody l log index;
  match encoded with
  | None => Ok None
  | Some encoded => Some <$> leaf_decode encoded
  end.

(** Sorting the open intents by their place in the log. *)
Fixpoint insert_pending (p : Z * arr 32) (ps : list (Z * arr 32)) : list (Z * arr 32) :=
  match ps with
  | [] => [p]
  | q :: rest => if fst p <=? fst q then p :: ps else q :: insert_pending p rest
  end.

Definition incomplete_request_ids (l : DisclosureLedger) : list (arr 32) :=
  map snd (fold_right insert_pending []
    (map (fun '(request_id, intent) => (pi_sequence intent, request_id)) (map_to_list (incomplete (index (core l)))))).
End Ledger.
