(* ===== verification/LedgerIndex.v ===== *)
(** The indexes of the disclosure ledger describe its log: what [absorb_leaf], [append] and the
    replay of the file build from a sequence of encoded leaves. *)
From S2P Require Import Prelude Text Crypto Compliance Layout TraceRecord Merkle MerkleProofs MerkleFrontier Custody Approval LedgerLeaf LedgerState Ledger.
From Equations Require Import Equations.

Section Index.
Context {C : Crypto}.

(** * The log as bytes *)

Definition records (es : list bytes) : bytes := concat (map record_bytes es).
Definition log_of (es : list bytes) : bytes := LOG_MAGIC ++ records es.

Definition leaf_sized (e : bytes) : Prop := 0 < Z.of_nat (length e) <= MAX_LEAF_BYTES.

Lemma records_app a b : records (a ++ b) = records a ++ records b.
Proof. unfold records. by rewrite map_app, concat_app. Qed.

Lemma log_of_snoc es e : log_of (es ++ [e]) = log_of es ++ record_bytes e.
Proof. unfold log_of. rewrite records_app. unfold records at 2. cbn. by rewrite app_nil_r, (assoc_L (++)). Qed.

Lemma length_record e : length (record_bytes e) = (4 + length e)%nat.
Proof. unfold record_bytes. by rewrite length_app, length_be_bytes. Qed.

Lemma length_log_snoc es e : length (log_of (es ++ [e])) = (length (log_of es) + 4 + length e)%nat.
Proof. rewrite log_of_snoc, length_app, length_record. lia. Qed.

(** Where the payloads of the records are. *)
Fixpoint offsets_from (o : nat) (es : list bytes) : list nat :=
  match es with
  | [] => []
  | e :: es => (o + 4)%nat :: offsets_from (o + 4 + length e) es
  end.
Definition offsets (es : list bytes) : list nat := offsets_from (length LOG_MAGIC) es.

Lemma offsets_from_snoc es e : forall o, offsets_from o (es ++ [e]) = offsets_from o es ++ [o + length (records es) + 4]%nat.
Proof.
  induction es as [|x es IH]; intros o; cbn [offsets_from app]; [unfold records; cbn; by rewrite Nat.add_0_r|].
  rewrite IH. do 3 f_equal. unfold records. cbn [map concat]. rewrite length_app, length_record. lia.
Qed.

Lemma offsets_snoc es e : offsets (es ++ [e]) = offsets es ++ [length (log_of es) + 4]%nat.
Proof. unfold offsets, log_of. rewrite offsets_from_snoc, length_app. done. Qed.

Lemma length_offsets es : length (offsets es) = length es.
Proof. unfold offsets. generalize (length LOG_MAGIC). induction es; intros o; simpl; auto. Qed.

Lemma offsets_lookup es1 e es2 : offsets (es1 ++ e :: es2) !! length es1 = Some (length (log_of es1) + 4)%nat.
Proof.
  replace (es1 ++ e :: es2) with ((es1 ++ [e]) ++ es2) by by rewrite <-(assoc_L (++)).
  assert (forall o a b, offsets_from o (a ++ b) = offsets_from o a ++ offsets_from (o + length (records a)) b) as Happ.
  { intros o a; revert o; induction a as [|x a IH]; intros o b; cbn [app offsets_from]; [unfold records; cbn; by rewrite Nat.add_0_r|].
    rewrite IH. unfold records. cbn [map concat]. rewrite length_app, length_record. do 3 f_equal. lia. }
  unfold offsets. rewrite Happ. apply lookup_app_l_Some. fold (offsets (es1 ++ [e])). rewrite offsets_snoc.
  apply lookup_snoc. right. by rewrite length_offsets.
Qed.

(** * Reading a record back *)

Lemma read_exact_at (a b r : bytes) n : length b = n -> read_exact (a ++ b ++ r) (length a) n = Ok b.
Proof.
  intros <-. unfold read_exact. rewrite !length_app, (proj2 (Nat.ltb_ge _ _)) by lia. cbn [guard mbind result_bind]. f_equal.
  apply slice_app; [done|lia].
Qed.

Lemma read_record_log es e r m :
  leaf_sized e -> (length (log_of es) + 4 + length e <= m)%nat ->
  read_record_at (log_of es ++ record_bytes e ++ r) (length (log_of es) + 4) m = Ok (e, (length (log_of es) + 4 + length e)%nat).
Proof.
  intros [H0 H1] Hm. unfold MAX_LEAF_BYTES in H1. unfold read_record_at. rewrite (proj2 (Nat.ltb_ge _ 4)) by lia. cbn [guard mbind result_bind].
  replace (length (log_of es) + 4 - 4)%nat with (length (log_of es)) by lia. unfold record_bytes. rewrite <-(assoc_L (++)).
  rewrite read_exact_at by apply length_be_bytes. cbn [mbind result_bind]. rewrite from_be_bytes_id by (unfold in_uint; lia).
  unfold MAX_LEAF_BYTES. rewrite (proj2 (Z.eqb_neq _ _)), (proj2 (Z.ltb_ge _ _)) by lia. cbn [orb guard mbind result_bind].
  rewrite Nat2Z.id, (proj2 (Nat.ltb_ge m _)) by lia. cbn [guard mbind result_bind].
  rewrite (assoc_L (++)). replace (length (log_of es) + 4)%nat with (length (log_of es ++ be_bytes 4 (Z.of_nat (length e))))
    by (rewrite length_app, length_be_bytes; done).
  rewrite read_exact_at by done. done.
Qed.

(** A record that was read is one of the file. *)
Lemma read_exact_Ok log o n bs : read_exact log o n = Ok bs -> (o + n <= length log)%nat /\ bs = slice o (o + n) log /\ length bs = n.
Proof. unfold read_exact. intros H. inv_ok. b2p. subst bs. split; [done|]. split; [done|]. rewrite length_slice; lia. Qed.

Lemma read_record_Ok log o m e end_ :
  read_record_at log (o + 4) m = Ok (e, end_) ->
  leaf_sized e /\ end_ = (o + 4 + length e)%nat /\ (end_ <= m)%nat /\ (end_ <= length log)%nat /\ slice o end_ log = record_bytes e.
Proof.
  unfold read_record_at. cbv zeta. intros H. apply bind_Ok in H as (? & Hg%guard_Ok & H). apply bind_Ok in H as (lb & Hlb & H).
  apply bind_Ok in H as (? & Hl%guard_Ok & H). apply bind_Ok in H as (? & Hm%guard_Ok & H). apply bind_Ok in H as (e' & He & H).
  apply Ok_inj, pair_eq in H as [<- <-]. apply read_exact_Ok in Hlb as (Hb1 & -> & Hb2). apply read_exact_Ok in He as (Hb3 & -> & Hb4).
  replace (o + 4 - 4)%nat with o in * by lia. set (n := from_be_bytes (slice o (o + 4) log)) in *.
  pose proof (slice_uint o (o + 4) 4 log eq_refl ltac:(lia)) as Hn. fold n in Hn. unfold in_uint in Hn. b2p.
  unfold leaf_sized. rewrite Hb4. split; [lia|]. split; [done|]. split; [lia|]. split; [lia|].
  unfold record_bytes. rewrite Hb4, Z2Nat.id by lia. unfold n at 2. rewrite be_bytes_from by (rewrite length_slice; lia).
  unfold slice. replace (o + 4 + Z.to_nat n - (o + 4))%nat with (Z.to_nat n) by lia. replace (o + 4 - o)%nat with 4%nat by lia.
  replace (o + 4 + Z.to_nat n - o)%nat with (4 + Z.to_nat n)%nat by lia. rewrite <-(drop_drop log o 4) || rewrite <-(drop_drop log 4 o).
  symmetry. apply take_take_drop.
Qed.

(** * What the indexes stand for *)

Definition decoded (es : list bytes) (ls : list DisclosureLeaf) : Prop := Forall2 (fun e l => leaf_decode e = Ok l) es ls.

(** The blocks of finished proofs and the hashes after them. *)
Record blocks_at (c : LedgerCore) (hs : list Hash) (blocks : list (list Hash)) : Prop := {
  ba_split : hs = concat blocks ++ proof_tail_hashes c;
  ba_full : Forall (fun b => length b = PROOF_BLOCK_LEAVES) blocks;
  ba_roots : proof_block_roots c = map root_range blocks;
  ba_tail : (length (proof_tail_hashes c) < PROOF_BLOCK_LEAVES)%nat;
  ba_frontier : rep (proof_tail_frontier c) (from_leaves (proof_tail_hashes c));
}.

Record core_at (c : LedgerCore) (es : list bytes) (ls : list DisclosureLeaf) : Prop := {
  ca_decoded : decoded es ls;
  ca_sized : Forall leaf_sized es;
  ca_offsets : leaf_offsets c = offsets es;
  ca_frontier : rep (frontier c) (from_leaves (map leaf_hash es));
  ca_root : root c = root_range (map leaf_hash es);
  ca_blocks : exists blocks, blocks_at c (map leaf_hash es) blocks;
  ca_index : index c = index_of ls;
  ca_sequence : well_sequenced ls;
  ca_count : Z.of_nat (length es) <= MAX_DISCLOSURE_LEAVES;
}.

Lemma core_count c es ls : core_at c es ls -> core_leaf_count c = Z.of_nat (length es).
Proof. intros H. unfold core_leaf_count. rewrite (rep_size _ _ (ca_frontier _ _ _ H)). unfold log_size. simpl. rewrite length_map. lia. Qed.

Lemma decoded_length es ls : decoded es ls -> length ls = length es.
Proof. intros H. symmetry. by eapply Forall2_length. Qed.

Lemma core_new_at : core_at core_new [] [].
Proof.
  split; try done; try by constructor.
  - apply rep_new.
  - exists []. split; try done; [rewrite proof_block_pow; simpl; lia|apply rep_new].
Qed.

(** Appending to a frontier far from its limit. *)
Lemma rep_append_hash f hs h :
  rep f (from_leaves hs) -> Z.of_nat (length hs) <= MAX_DISCLOSURE_LEAVES ->
  exists i f', append_hash f h = (Some i, f') /\ rep f' (from_leaves (hs ++ [h])) /\ frontier_root f' = Some (root_range (hs ++ [h])).
Proof.
  intros Hr Hn. pose proof (rep_size _ _ Hr) as Hs. unfold log_size in Hs. cbn [leaves from_leaves] in Hs. unfold MAX_DISCLOSURE_LEAVES in Hn.
  destruct Hr as (Hf & Hv & Hb).
  destruct (append_hash_blocks rooted f hs h h rooted_merge Hf Hv) as (f' & E & _ & Hf' & Hv' & Hb');
    [unfold u64_MAX; lia|done|by unfold rooted; simp root_range|].
  exists (size f), f'. assert (rep f' (from_leaves (hs ++ [h]))) as Hrep by done. split; [done|]. split; [done|].
  rewrite (rep_root _ _ Hrep), log_root_range. done.
Qed.

(** * Absorbing one leaf *)

Lemma absorb_hash_at c hs blocks h :
  rep (frontier c) (from_leaves hs) -> blocks_at c hs blocks -> Z.of_nat (length hs) < MAX_DISCLOSURE_LEAVES ->
  exists c', absorb_hash h c = Ok c' /\ leaf_offsets c' = leaf_offsets c /\ index c' = index c /\
    rep (frontier c') (from_leaves (hs ++ [h])) /\ root c' = root_range (hs ++ [h]) /\ exists blocks', blocks_at c' (hs ++ [h]) blocks'.
Proof.
  intros Hr [Hs Hf Hroots Ht Hrt] Hn. destruct (rep_append_hash _ _ h Hr ltac:(lia)) as (i & f & E & Hrep & Hroot).
  assert (length (proof_tail_hashes c) <= length hs)%nat as Hle by (rewrite Hs, length_app; lia).
  destruct (rep_append_hash _ _ h Hrt ltac:(lia)) as (i' & f' & E' & Hrep' & Hroot').
  unfold absorb_hash. rewrite E, Hroot. cbn [ok_or mbind result_bind]. rewrite E'. cbv zeta.
  destruct (Nat.eqb_spec (length (proof_tail_hashes c ++ [h])) PROOF_BLOCK_LEAVES) as [Eb|Eb]; rewrite length_app in Eb; simpl in Eb.
  - rewrite Hroot'. cbn [ok_or mbind result_bind]. eexists. split; [done|]. cbn. do 4 (split; [done|]).
    exists (blocks ++ [proof_tail_hashes c ++ [h]]). split; cbn.
    + rewrite Hs, concat_app. cbn. by rewrite !app_nil_r, <-(assoc_L (++)).
    + apply Forall_app. split; [done|]. apply Forall_singleton. rewrite length_app. simpl. lia.
    + by rewrite Hroots, map_app.
    + rewrite proof_block_pow. simpl. lia.
    + apply rep_new.
  - eexists. split; [done|]. cbn. do 4 (split; [done|]). exists blocks. split; cbn; try done.
    + by rewrite Hs, <-(assoc_L (++)).
    + rewrite length_app. simpl. lia.
Qed.

Lemma absorb_leaf_at c es ls e l :
  core_at c es ls -> leaf_decode e = Ok l -> leaf_sized e -> validate_leaf_sequence (index c) l = Ok tt ->
  Z.of_nat (length es) < MAX_DISCLOSURE_LEAVES ->
  exists c', absorb_leaf (length (log_of es) + 4) e l c = Ok c' /\ core_at c' (es ++ [e]) (ls ++ [l]).
Proof.
  intros H Hd Hz Hv Hn. pose proof (core_count c es ls H) as Hcount. destruct H as [Dd Ds Do Df Dr [bl Db] Di Dw Dc].
  destruct (absorb_hash_at (push_offset (length (log_of es) + 4) c) (map leaf_hash es) bl (leaf_hash e))
    as (c' & E & Eo & Ei & Hrep & Hroot & Hbl); [done|by destruct Db|by rewrite length_map|].
  unfold absorb_leaf. rewrite E. cbn [mbind result_bind]. eexists. split; [done|].
  rewrite Hcount, Ei. cbn [index push_offset]. rewrite Di in *. split; cbn; rewrite ?map_app; try done.
  - apply Forall2_app; [done|]. by constructor.
  - apply Forall_app. split; [done|]. by apply Forall_singleton.
  - rewrite Eo, offsets_snoc. cbn. by rewrite Do.
  - destruct Hbl as [bl' []]. by exists bl'.
  - by rewrite index_of_snoc, (decoded_length _ _ Dd).
  - by apply validate_sequence_spec.
  - rewrite length_app. simpl. unfold MAX_DISCLOSURE_LEAVES in *. lia.
Qed.

(** What [append] prepares and commits is what the replay of its record builds. *)
Lemma append_plan_absorbs leaf l p off next :
  append_plan leaf l = Ok p ->
  state_poisoned l = false /\ leaf_count l < MAX_DISCLOSURE_LEAVES /\ validate_leaf_sequence (index (core l)) leaf = Ok tt /\
  leaf_encode leaf = Ok (ap_encoded p) /\ Z.of_nat (length (ap_encoded p)) <= MAX_LEAF_BYTES /\ ap_hash p = leaf_hash (ap_encoded p) /\
  absorb_leaf (off + 4) (ap_encoded p) leaf (core l) = Ok (core (commit_leaf leaf p off next l)).
Proof.
  unfold append_plan. cbv zeta. intros H. apply bind_Ok in H as (? & H1%guard_Ok & H). apply bind_Ok in H as (? & H2%guard_Ok & H).
  apply bind_Ok in H as ([] & H3 & H). apply bind_Ok in H as (e & H4 & H). apply bind_Ok in H as (? & H5%guard_Ok & H).
  apply bind_Ok in H as (f & H6 & H). apply bind_Ok in H as (r & H7%ok_or_Ok & H). apply bind_Ok in H as (tf & H8 & H).
  apply bind_Ok in H as (b & H9 & H). apply Ok_inj in H. subst p. b2p. do 6 (split; [done|]).
  unfold try_append_hash in H6, H8. destruct (append_hash (frontier (core l)) _) as [[i|] f'] eqn:E6; [|done].
  destruct (append_hash (proof_tail_frontier (core l)) _) as [[i'|] tf'] eqn:E8; [|done]. apply Ok_inj in H6, H8. subst f' tf'.
  unfold absorb_leaf, absorb_hash, commit_leaf. cbn. rewrite E6. cbn. rewrite H7. cbn. rewrite E8. rewrite length_app. cbn [length].
  destruct (_ =? PROOF_BLOCK_LEAVES)%nat; [|apply Ok_inj in H9; by subst b].
  destruct (frontier_root tf) as [br|]; [|done]. cbn in H9. apply Ok_inj in H9. by subst b.
Qed.

(** * Replaying the log *)

Definition last_of (es : list bytes) : option Hash := leaf_hash <$> last es.

Lemma last_of_snoc es e : last_of (es ++ [e]) = Some (leaf_hash e).
Proof. unfold last_of. by rewrite last_snoc. Qed.

(** The fuel is enough: every record advances the offset. *)
Lemma stream_total fuel log m : forall o last c, (0 < fuel)%nat -> (m < fuel + o)%nat -> is_Some (stream fuel log m o last c).
Proof.
  induction fuel as [|fuel IH]; intros o last c H0 Hf; [lia|]. cbn [stream].
  destruct (Nat.leb_spec m o) as [|Ho]; [by eexists|]. cbv zeta.
  match goal with |- is_Some (match ?x with _ => _ end) => destruct x as [[[e n] c']|] eqn:E end; [|by eexists].
  apply bind_Ok in E as (? & _ & E). apply bind_Ok in E as ([e' n'] & Hr & E). apply bind_Ok in E as (l & _ & E).
  apply bind_Ok in E as (? & _ & E). apply bind_Ok in E as (c2 & _ & E). apply Ok_inj, pair_eq in E as [[<- <-]%pair_eq <-].
  apply read_record_Ok in Hr as (_ & -> & _). apply IH; lia.
Qed.

Lemma log_of_extend es e log :
  take (length (log_of es)) log = log_of es ->
  slice (length (log_of es)) (length (log_of es) + 4 + length e) log = record_bytes e ->
  take (length (log_of (es ++ [e]))) log = log_of (es ++ [e]).
Proof.
  intros Ht Hs. rewrite length_log_snoc, log_of_snoc. transitivity (take (length (log_of es)) log ++ record_bytes e); [|by rewrite Ht].
  rewrite <-Hs. unfold slice.
  replace (length (log_of es) + 4 + length e - length (log_of es))%nat with (4 + length e)%nat by lia.
  replace (length (log_of es) + 4 + length e)%nat with (length (log_of es) + (4 + length e))%nat by lia.
  symmetry. apply take_take_drop.
Qed.

(** Whatever the file holds, what the replay accepts is a log of well-sequenced leaves, and the
    indexes are theirs. *)
Lemma stream_sound fuel log m : forall es ls c o last' c',
  core_at c es ls -> take (length (log_of es)) log = log_of es -> (length (log_of es) <= m)%nat ->
  stream fuel log m (length (log_of es)) (last_of es) c = Some (Ok (o, last', c')) ->
  exists es' ls', core_at c' es' ls' /\ o = m /\ m = length (log_of es') /\ take m log = log_of es' /\ last' = last_of es'.
Proof.
  induction fuel as [|fuel IH]; intros es ls c o last' c' Hc Ht Hm H; cbn [stream] in H; [done|].
  destruct (Nat.leb_spec m (length (log_of es))) as [Ho|Ho].
  { apply Some_inj, Ok_inj, pair_eq in H as [[<- <-]%pair_eq <-]. assert (m = length (log_of es)) as -> by lia. by exists es, ls. }
  cbv zeta in H. match type of H with match ?x with _ => _ end = _ => destruct x as [[[e n] c2]|] eqn:E end; [|done].
  apply bind_Ok in E as (? & Hg%guard_Ok & E). apply bind_Ok in E as ([e' n'] & Hr & E). apply bind_Ok in E as (l & Hl & E).
  apply bind_Ok in E as ([] & Hv & E). apply bind_Ok in E as (c3 & Ha & E). apply Ok_inj, pair_eq in E as [[-> ->]%pair_eq ->]. b2p. rewrite (core_count _ _ _ Hc) in Hg.
  apply read_record_Ok in Hr as (Hz & -> & Hle & Hle' & Hs).
  destruct (absorb_leaf_at c es ls e l Hc Hl Hz Hv Hg) as (c3 & Ha' & Hc'). rewrite Ha in Ha'. apply Ok_inj in Ha'. subst c3.
  apply (log_of_extend es e log Ht) in Hs. rewrite <-length_log_snoc in *. rewrite <-(last_of_snoc es e) in H.
  eapply IH; [exact Hc'|done|done|exact H].
Qed.

(** A log of well-sequenced leaves is replayed to the end. *)
Lemma stream_complete fuel es' : forall es ls ls' c r,
  core_at c es ls -> decoded es' ls' -> Forall leaf_sized es' -> well_sequenced (ls ++ ls') ->
  Z.of_nat (length (es ++ es')) <= MAX_DISCLOSURE_LEAVES -> (length es' < fuel)%nat ->
  exists c', stream fuel (log_of (es ++ es') ++ r) (length (log_of (es ++ es'))) (length (log_of es)) (last_of es) c =
      Some (Ok (length (log_of (es ++ es')), last_of (es ++ es'), c')) /\ core_at c' (es ++ es') (ls ++ ls').
Proof.
  revert fuel; induction es' as [|e es' IH]; intros fuel es ls ls' c r Hc Hd Hz Hw Hn Hf; destruct fuel as [|fuel]; try (simpl in Hf; lia).
  { apply Forall2_nil_inv_l in Hd as ->. rewrite !app_nil_r. cbn [stream]. rewrite Nat.leb_refl. by eexists. }
  apply Forall2_cons_inv_l in Hd as (l & ls2 & Hl & Hd & ->). apply Forall_cons in Hz as [Hz Hzs].
  assert (Z.of_nat (length es) < MAX_DISCLOSURE_LEAVES) as Hlt by (rewrite length_app in Hn; simpl in Hn; lia).
  replace (es ++ e :: es') with ((es ++ [e]) ++ es') in * by by rewrite <-(assoc_L (++)).
  replace (ls ++ l :: ls2) with ((ls ++ [l]) ++ ls2) in * by by rewrite <-(assoc_L (++)).
  assert (validate_leaf_sequence (index c) l = Ok tt) as Hv.
  { rewrite (ca_index _ _ _ Hc). apply validate_sequence_spec; [by eapply ca_sequence|].
    clear -Hw. induction ls2 as [|x ls2 IH] using rev_ind; [by rewrite app_nil_r in Hw|].
    rewrite (assoc_L (++)) in Hw. apply IH. by apply well_sequenced_prefix in Hw. }
  destruct (absorb_leaf_at c es ls e l Hc Hl Hz Hv Hlt) as (c2 & Ha & Hc2).
  destruct (IH fuel (es ++ [e]) (ls ++ [l]) ls2 c2 r) as (c' & Hs & Hc'); [done..|simpl in Hf; lia|].
  exists c'. split; [|done]. cbn [stream].
  assert (length (log_of (es ++ [e])) <= length (log_of ((es ++ [e]) ++ es')))%nat as Hle.
  { unfold log_of. rewrite !length_app, !records_app, !length_app. lia. }
  rewrite length_log_snoc in Hle. rewrite (proj2 (Nat.leb_gt _ _)) by lia. cbv zeta.
  rewrite (core_count _ _ _ Hc), (proj2 (Z.leb_gt _ _)) by done. cbn [guard mbind result_bind].
  assert (log_of ((es ++ [e]) ++ es') ++ r = log_of es ++ record_bytes e ++ records es' ++ r) as Elog.
  { unfold log_of at 1. rewrite records_app, (assoc_L (++)). fold (log_of (es ++ [e])). by rewrite log_of_snoc, <-!(assoc_L (++)). }
  rewrite Elog at 1. rewrite read_record_log by done. cbn [mbind result_bind]. rewrite Hl. cbn [mbind result_bind]. rewrite Hv.
  cbn [mbind result_bind]. rewrite Ha. cbn [mbind result_bind]. rewrite last_of_snoc, length_log_snoc in Hs. exact Hs.
Qed.
End Index.
