(* ===== verification/LedgerIntent.v ===== *)
(** An approved request always has a public intent: the well-formedness a request keeps over its life
    is what the encoding of its intent leaf asks for. *)
From stdpp Require Import sorting.
From S2P Require Import Prelude Text Crypto Compliance Layout TraceRecord Merkle Custody Approval LedgerLeaf LedgerState Ledger LedgerIndex.

Section Intent.
Context {C : Crypto}.

Lemma adjacent_strict ks :
  Sorted key_id_le ks -> adjacent_equal ks = false -> Forall (fun k => version k = COMPLIANCE_KEY_ID_VERSION /\ key_id_wf k) ks ->
  strictly_sorted_key_ids ks = true.
Proof.
  induction ks as [|a [|b ks] IH]; [done..|]. intros Hs Ha Hf.
  change (adjacent_equal (a :: b :: ks)) with ((a ≟ b) || adjacent_equal (b :: ks)) in Ha.
  change (strictly_sorted_key_ids (a :: b :: ks)) with
    (match key_id_encode a, key_id_encode b with Ok ea, Ok eb => bool_decide (bytes_cmp ea eb = Lt) | _, _ => false end
     && strictly_sorted_key_ids (b :: ks)).
  apply Sorted_inv in Hs as [Hs Hh]. apply HdRel_inv in Hh. apply orb_false_iff in Ha as [Hab Ha]. apply bool_decide_eq_false in Hab.
  pose proof Hf as [[Va Wa] [[Vb Wb] _]%Forall_cons]%Forall_cons. apply Forall_cons in Hf as [_ Hf].
  rewrite (encoded_key_id_Ok a Va), (encoded_key_id_Ok b Vb), IH, andb_true_r by done. apply bool_decide_eq_true.
  unfold key_id_le in Hh. destruct (bytes_cmp (encoded_key_id a) (encoded_key_id b)) eqn:E; [|done..].
  apply bytes_cmp_Eq in E. destruct Hab. apply (key_id_encode_inj a b (encoded_key_id a)); [done..|by apply encoded_key_id_Ok|].
  rewrite E. by apply encoded_key_id_Ok.
Qed.

Lemma encode_key_ids_total ks :
  Forall (fun k => version k = COMPLIANCE_KEY_ID_VERSION /\ key_id_wf k) ks -> exists e, encode_key_ids ks = Ok e.
Proof.
  induction 1 as [|k ks [Hv _] _ [e He]]; [by eexists|]. cbn [encode_key_ids]. rewrite (encoded_key_id_Ok k Hv), He. by eexists.
Qed.

(** C26: requests stay well formed.  Whatever calls are made on a created request, its approvals are at most
    two, by distinct keys, each with a distinct non-zero commitment to the key that signed it, and
    its state agrees with their number; and once it is authorized, the intent leaf the ledger writes
    for it encodes, within the size a leaf may have, at every time but zero. *)
Theorem request_well_formed draws j p ks created expires sensitive r0 openings r :
  request_new draws j p ks created expires sensitive = Some (Ok (r0, openings)) -> rtc request_step r0 r ->
  Forall key_id_wf ks ->
  request_inv r /\ same_request r0 r /\
  forall t, rq_state r = Authorized -> in_uint 64 t -> t <> 0 -> rq_request_id r0 <> zeroes 32 ->
    exists e, leaf_encode (Intent (intent_of r t)) = Ok e /\ leaf_decode e = Ok (Intent (intent_of r t)) /\ leaf_sized e.
Proof.
  intros Hnew Hrun Hw. apply request_new_Ok in Hnew as (I0 & _ & Hj & Hp & _ & _ & Hks & _ & _ & _ & _ & Ho & Hq & Hse).
  apply request_checks_Ok in Hks as (_ & _ & Hlen & Hperm & Hsort & Hadj & Hfit).
  destruct (request_run_inv _ _ Hrun I0) as [I S]. split; [done|]. split; [done|]. intros t Ha Ht Ht0 Hid.
  destruct S as (Sid & Sj & Sp & Sk & _ & _ & So & Sq & Ss). rewrite <-Hperm in Hw.
  assert (Forall (fun k => version k = COMPLIANCE_KEY_ID_VERSION /\ key_id_wf k) (rq_key_ids r0)) as Hf.
  { apply Forall_and. split; [|done]. eapply Forall_impl; [exact Hfit|]. naive_solver. }
  assert (forallb (key_id_fits (rq_jurisdiction r) (rq_purpose r)) (rq_key_ids r0) = true) as Hfits.
  { apply forallb_forall. intros k Hk%list_elem_of_In. apply key_id_fits_spec. rewrite Sj, Sp, Hj, Hp. by eapply Forall_forall in Hfit. }
  pose proof (approvers_length r I) as Hn. pose proof (ri_state r I) as Hst. rewrite Ha in Hst. rewrite Hst in Hn.
  assert (approvers_bad (rq_approvers r) = false) as Hbad.
  { pose proof (ri_distinct r I) as Hd. pose proof (ri_nonzero r I) as Hz. destruct (rq_approvers r) as [|a [|b [|]]]; try done.
    apply NoDup_cons in Hd as [Hd _]. rewrite list_elem_of_singleton in Hd. cbn. by rewrite !bool_decide_false. }
  assert (exists e, leaf_encode (Intent (intent_of r t)) = Ok e) as [e He].
  { destruct (encode_key_ids_total _ Hf) as [ek Hek]. cbn [leaf_encode]. unfold intent_encode, intent_of.
    cbn [di_timestamp_ms di_request_id di_order_commitment di_requester_commitment di_selector_commitment di_key_ids di_approver_commitments
         di_jurisdiction di_purpose]. rewrite Sid, So, Sq, Ss, Sk, Hbad, Hfits, (adjacent_strict _ Hsort Hadj Hf), Hek.
    rewrite (proj2 (Z.eqb_neq t 0)), !bool_decide_false, (proj2 (Nat.eqb_neq _ _)), (proj2 (Nat.ltb_ge _ _)) by (done || lia). by eexists. }
  exists e. split; [done|]. split; [apply leaf_codec_spec; split; [split; [done|by rewrite <-Sk in Hw]|done]|].
  cbn [leaf_encode] in He. apply intent_encode_Ok in He as ((_ & Hmax) & _ & (a & b & Hab & _) & keys & Hk & ->).
  apply encode_key_ids_length in Hk. unfold leaf_sized, MAX_LEAF_BYTES, MAX_DISCLOSURE_KEYS, COMPLIANCE_KEY_ID_LEN in *.
  rewrite !length_app, length_intent_prefix, Hk, (length_intent_tail _ _ _ Hab). lia.
Qed.
End Intent.
