(* ===== verification/LedgerMerkle.v ===== *)
(** [pigeonpost-compliance/src/ledger.rs]: the public proofs of the disclosure log.  The ledger keeps
    one hash per finished block of 1024 leaves instead of all leaf hashes; the proofs it computes from
    these, reading single leaves back from the file, are those of the reference log. *)
From S2P Require Import Prelude Text Crypto Compliance Layout TraceRecord Merkle MerkleProofs MerkleFrontier Checkpoint Custody Approval LedgerLeaf LedgerState Ledger LedgerIndex.
From Equations Require Import Equations.

#[local] Open Scope nat_scope.

(** [1 << (63 - (count - 1).leading_zeros())], for [count > 1]. *)
Definition merkle_split (count : nat) : nat := 2 ^ Nat.log2 (count - 1).

Lemma merkle_split_eq n : 2 <= n -> merkle_split n = split n.
Proof. apply split_shift. Qed.

Lemma merkle_split_bounds n : 1 <= merkle_split (S (S n)) < S (S n).
Proof. rewrite merkle_split_eq by lia. apply split_bounds. lia. Qed.

Section Proofs.
Context {C : Crypto}.

(** The module's own [node_hash]. *)
Definition ledger_node_hash (left right : Hash) : Hash := sha256 (Byte.x01 :: vec_to_list left ++ vec_to_list right).

Equations? hash_range (hashes : list Hash) : Hash by wf (length hashes) lt :=
  hash_range [] := empty_root;
  hash_range [h] := h;
  hash_range (a :: b :: rest) :=
    let k := merkle_split (length (a :: b :: rest)) in
    ledger_node_hash (hash_range (take k (a :: b :: rest))) (hash_range (drop k (a :: b :: rest))).
Proof.
  all: pose proof (merkle_split_bounds (length rest)) as H;
    change (S (S (length rest))) with (length (a :: b :: rest)) in *;
    rewrite ?length_take, ?length_drop; lia.
Qed.

Section Paths.
(** [custody] answers the checks around the reading of each leaf; a call reads a leaf at most once. *)
Context (custody : nat -> ComplianceResult unit * ComplianceResult unit) (l : DisclosureLedger) (log : bytes).

Definition leaf_hash_at (index : nat) : ComplianceResult Hash :=
  let completed_leaves := length (proof_block_roots (core l)) * PROOF_BLOCK_LEAVES in
  if completed_leaves <=? index then ok_or (proof_tail_hashes (core l) !! (index - completed_leaves)) ComplianceError.Storage
  else
    encoded ← encoded_leaf (custody index) l log index;
    encoded ← ok_or encoded ComplianceError.Storage;
    Ok (leaf_hash encoded).

(** The root of a range of whole finished blocks. *)
Definition block_range (start count : nat) : option Hash :=
  if (start mod PROOF_BLOCK_LEAVES =? 0) && (count mod PROOF_BLOCK_LEAVES =? 0) then
    let first := start / PROOF_BLOCK_LEAVES in
    let blocks := count / PROOF_BLOCK_LEAVES in
    if first + blocks <=? length (proof_block_roots (core l))
    then Some (hash_range (take blocks (drop first (proof_block_roots (core l)))))
    else None
  else None.

(** A single leaf is never a whole block. *)
Equations? range_root (start count : nat) : ComplianceResult Hash by wf count lt :=
  range_root start 0 := Ok empty_root;
  range_root start 1 := leaf_hash_at start;
  range_root start (S (S n)) :=
    match block_range start (S (S n)) with
    | Some h => Ok h
    | None =>
        left_root ← range_root start (merkle_split (S (S n)));
        right_root ← range_root (start + merkle_split (S (S n))) (S (S n) - merkle_split (S (S n)));
        Ok (ledger_node_hash left_root right_root)
    end.
Proof. all: pose proof (merkle_split_bounds n); lia. Qed.

Equations? inclusion_path (start count index : nat) : ComplianceResult (list Hash) by wf count lt :=
  inclusion_path start 0 index := Ok [];
  inclusion_path start 1 index := Ok [];
  inclusion_path start (S (S n)) index :=
    let split := merkle_split (S (S n)) in
    if index <? start + split then
      proof ← inclusion_path start split index;
      sibling ← range_root (start + split) (S (S n) - split);
      Ok (proof ++ [sibling])
    else
      proof ← inclusion_path (start + split) (S (S n) - split) index;
      sibling ← range_root start split;
      Ok (proof ++ [sibling]).
Proof. all: pose proof (merkle_split_bounds n); lia. Qed.

(** Called with [1 <= old_count <= count] only, where fewer than two leaves are the old tree itself. *)
Equations? consistency_path (start count old_count : nat) (is_root : bool) : ComplianceResult (list Hash) by wf count lt :=
  consistency_path start 0 old_count is_root := if is_root then Ok [] else (fun h => [h]) <$> range_root start 0;
  consistency_path start 1 old_count is_root := if is_root then Ok [] else (fun h => [h]) <$> range_root start 1;
  consistency_path start (S (S n)) old_count is_root :=
    if old_count =? S (S n) then if is_root then Ok [] else (fun h => [h]) <$> range_root start (S (S n))
    else
      let split := merkle_split (S (S n)) in
      if old_count <=? split then
        proof ← consistency_path start split old_count is_root;
        sibling ← range_root (start + split) (S (S n) - split);
        Ok (proof ++ [sibling])
      else
        proof ← consistency_path (start + split) (S (S n) - split) (old_count - split) false;
        sibling ← range_root start split;
        Ok (proof ++ [sibling]).
Proof. all: pose proof (merkle_split_bounds n); lia. Qed.

Definition ledger_inclusion_proof (index : nat) : ComplianceResult (option (list Hash)) :=
  let size := N.to_nat (size (frontier (core l))) in
  if size <=? index then Ok None
  else
    proof ← inclusion_path 0 size index;
    leaf ← leaf_hash_at index;
    _ ← guard (negb (verify_inclusion leaf index size proof (root (core l)))) ComplianceError.Storage;
    Ok (Some proof).

Definition ledger_consistency_proof (old_size : nat) : ComplianceResult (option (list Hash)) :=
  let size := N.to_nat (size (frontier (core l))) in
  if (old_size =? 0) || (size <? old_size) then Ok None
  else Some <$> consistency_path 0 size old_size true.

Definition ledger_checkpoint (origin : str) : Checkpoint :=
  {| cp_origin := origin; cp_size := leaf_count l; cp_root := root (core l) |}.
End Paths.
End Proofs.

(** * Blocks *)

Lemma split_scale n k : 2 <= n -> split (n * 2 ^ k) = split n * 2 ^ k.
Proof.
  intros H. destruct (split_spec n H) as (m & -> & Hm). rewrite <-Nat.pow_add_r. apply split_unique.
  pose proof (Nat.pow_nonzero 2 k ltac:(done)). rewrite Nat.pow_succ_r', Nat.pow_add_r in *. nia.
Qed.

Section Blocks.
Context {A : Type}.

Lemma length_blocks (bs : list (list A)) n : Forall (fun b => length b = n) bs -> length (concat bs) = length bs * n.
Proof. induction 1 as [|b bs Hb _ IH]; [done|]. cbn [concat length]. rewrite length_app, Hb, IH. lia. Qed.

Lemma take_blocks (bs : list (list A)) n k : Forall (fun b => length b = n) bs -> take (k * n) (concat bs) = concat (take k bs).
Proof.
  intros H; revert k; induction H as [|b bs Hb H IH]; intros [|k]; try done; [cbn [concat]; by rewrite !take_nil|].
  cbn [concat take]. rewrite Nat.mul_succ_l, Nat.add_comm, take_app, Hb, (take_ge b) by lia. f_equal.
  replace (n + k * n - n) with (k * n) by lia. apply IH.
Qed.

Lemma drop_blocks (bs : list (list A)) n k : Forall (fun b => length b = n) bs -> drop (k * n) (concat bs) = concat (drop k bs).
Proof.
  intros H; revert k; induction H as [|b bs Hb H IH]; intros [|k]; try done; [cbn [concat]; by rewrite !drop_nil|].
  cbn [concat drop]. rewrite Nat.mul_succ_l, Nat.add_comm, drop_app, Hb, (drop_ge b) by lia.
  replace (n + k * n - n) with (k * n) by lia. apply IH.
Qed.

End Blocks.

Section Correct.
Context {C : Crypto}.

Lemma hash_range_eq hs : hash_range hs = root_range hs.
Proof.
  induction hs as [|h|hs Hl IH1 IH2] using leaves_ind; [by simp hash_range root_range..|].
  rewrite root_range_split by done. rewrite <-IH1, <-IH2. destruct hs as [|a [|b rest]]; [simpl in Hl; lia..|].
  simp hash_range. cbv zeta. by rewrite merkle_split_eq by done.
Qed.

(** The root of the block roots is the root of the blocks. *)
Lemma root_blocks k bs : Forall (fun b => length b = 2 ^ k) bs -> bs <> [] -> root_range (map root_range bs) = root_range (concat bs).
Proof.
  induction bs as [bs IH] using (well_founded_induction (well_founded_ltof _ length)). intros Hf Hne.
  destruct bs as [|b [|b' bs]]; [done|cbn [map concat]; rewrite app_nil_r; by simp root_range|].
  set (l := b :: b' :: bs) in *. assert (2 <= length l) as Hl by (simpl; lia). pose proof (split_bounds (length l) Hl) as Hs.
  pose proof (Nat.pow_nonzero 2 k ltac:(done)).
  rewrite (root_range_split (map root_range l)) by (by rewrite length_map). rewrite length_map.
  rewrite (root_range_split (concat l)) by (rewrite (length_blocks _ _ Hf); nia).
  rewrite (length_blocks _ _ Hf), split_scale, take_blocks, drop_blocks by done. rewrite firstn_map, skipn_map.
  rewrite !IH; try done; unfold ltof; rewrite ?length_take, ?length_drop; try lia; try by apply Forall_take || apply Forall_drop.
  all: intros E; apply (f_equal length) in E; rewrite ?length_take, ?length_drop in E; simpl in *; lia.
Qed.

(** A computation that reads leaves: it gives the answer, or the error of a custody check. *)
Definition checked (custody : nat -> ComplianceResult unit * ComplianceResult unit) {A} (r : ComplianceResult A) (a : A) : Prop :=
  r = Ok a \/ exists i x, (fst (custody i) = Err x \/ snd (custody i) = Err x) /\ r = Err x.

Lemma checked_bind custody {A B} (r : ComplianceResult A) a (k : A -> ComplianceResult B) b :
  checked custody r a -> checked custody (k a) b -> checked custody (r ≫= k) b.
Proof. intros [->|(i & x & Hx & ->)] H; [done|]. right. by exists i, x. Qed.

Lemma checked_fmap custody {A B} (r : ComplianceResult A) a (g : A -> B) : checked custody r a -> checked custody (g <$> r) (g a).
Proof. intros [->|(i & x & Hx & ->)]; [by left|]. right. by exists i, x. Qed.

Lemma checked_Ok custody {A} (a : A) : checked custody (Ok a) a.
Proof. by left. Qed.

Lemma checked_good custody {A} (r : ComplianceResult A) a : (forall i, custody i = (Ok tt, Ok tt)) -> checked custody r a -> r = Ok a.
Proof. intros H [->|(i & x & [Hx|Hx] & _)]; [done|rewrite H in Hx; done..]. Qed.

Context (custody : nat -> ComplianceResult unit * ComplianceResult unit).
Context (l : DisclosureLedger) (es : list bytes) (ls : list DisclosureLeaf) (r : bytes) (Hat : core_at (core l) es ls).
Let hs := map leaf_hash es.
Let log := log_of es ++ r.

(** Reading a leaf back, on every branch of the two checks. *)
Lemma encoded_leaf_at c i e : es !! i = Some e -> encoded_leaf c l log i = (_ ← fst c; _ ← snd c; Ok (Some e)).
Proof.
  intros He. apply list_elem_of_split_length in He as (es1 & es2 & Hes & ->). unfold encoded_leaf, leaf_count.
  rewrite (core_count _ _ _ Hat), (ca_offsets _ _ _ Hat), Hes, offsets_lookup, length_app. cbn [length].
  rewrite (proj2 (Z.leb_gt _ _)) by lia. cbn [ok_or mbind result_bind].
  assert (log = log_of es1 ++ record_bytes e ++ records es2 ++ r) as ->.
  { unfold log, log_of. rewrite Hes, records_app. change (records (e :: es2)) with (record_bytes e ++ records es2). by rewrite <-!(assoc_L (++)). }
  assert (leaf_sized e) as [H0 H1].
  { pose proof (ca_sized _ _ _ Hat) as Hz. rewrite Hes in Hz. by apply Forall_app in Hz as [_ [Hz _]%Forall_cons]. }
  unfold MAX_LEAF_BYTES in *. replace (length (log_of es1) + 4 - 4)%nat with (length (log_of es1)) by lia.
  unfold record_bytes. rewrite <-(assoc_L (++)), read_exact_at by apply length_be_bytes. cbn [mbind result_bind].
  rewrite from_be_bytes_id by (unfold in_uint; lia). unfold MAX_LEAF_BYTES.
  rewrite (proj2 (Z.eqb_neq _ _)), (proj2 (Z.ltb_ge _ _)) by lia. cbn [orb guard mbind result_bind].
  rewrite Nat2Z.id, (assoc_L (++)).
  replace (length (log_of es1) + 4)%nat with (length (log_of es1 ++ be_bytes 4 (Z.of_nat (length e)))) by (rewrite length_app, length_be_bytes; done).
  by rewrite read_exact_at by done.
Qed.

Lemma leaf_hash_at_eq i h : hs !! i = Some h -> checked custody (leaf_hash_at custody l log i) h.
Proof.
  intros Hh. destruct (ca_blocks _ _ _ Hat) as [bl [Hs Hf Hr Ht _]]. unfold leaf_hash_at. rewrite Hr, length_map. fold hs in Hs.
  rewrite <-(length_blocks _ _ Hf). destruct (Nat.leb_spec (length (concat bl)) i) as [Hle|Hlt].
  - rewrite Hs, lookup_app_r in Hh by done. rewrite Hh. apply checked_Ok.
  - unfold hs in Hh. apply list_lookup_fmap_Some in Hh as (e & -> & He) || (rewrite list_lookup_fmap in Hh; apply fmap_Some in Hh as (e & He & ->)).
    rewrite (encoded_leaf_at _ i e He). apply (checked_bind _ _ (Some e)); [|apply checked_Ok].
    destruct (fst (custody i)) eqn:E1; [|right; eauto]. cbn [mbind result_bind]. destruct (snd (custody i)) eqn:E2; [apply checked_Ok|right; eauto].
Qed.

Lemma block_range_eq start count h :
  block_range l start count = Some h -> 0 < count -> h = root_range (take count (drop start hs)).
Proof.
  destruct (ca_blocks _ _ _ Hat) as [bl [Hs Hf Hr Ht _]]. fold hs in Hs. unfold block_range. rewrite Hr, length_map.
  set (B := PROOF_BLOCK_LEAVES) in *. assert (B <> 0) as HB by (unfold B; rewrite proof_block_pow; apply Nat.pow_nonzero; done).
  destruct (Nat.eqb_spec (start mod B) 0) as [Es|]; [|done]. destruct (Nat.eqb_spec (count mod B) 0) as [Ec|]; [|done]. cbn [andb].
  destruct (Nat.leb_spec (start / B + count / B) (length bl)) as [Hle|]; [|done]. intros [= <-] Hc.
  apply Nat.Div0.div_exact in Es, Ec. set (a := start / B) in *. set (n := count / B) in *.
  rewrite Es, Ec, hash_range_eq, skipn_map, firstn_map.
  assert (n <> 0) as Hn by (intros E; rewrite E in Ec; lia).
  rewrite (root_blocks 10).
  - f_equal. rewrite Hs, drop_app_le by (rewrite (length_blocks _ _ Hf); nia). rewrite (Nat.mul_comm B a), drop_blocks by done.
    rewrite take_app_le by (rewrite (length_blocks _ B); [rewrite length_drop; nia|by apply Forall_drop]).
    rewrite (Nat.mul_comm B n), take_blocks; [done|by apply Forall_drop].
  - apply Forall_take, Forall_drop. by rewrite <-proof_block_pow.
  - intros E. apply (f_equal length) in E. rewrite length_take, length_drop in E. simpl in E. lia.
Qed.

(** The leaves of a range that the split of its tree gives to either side. *)
Lemma range_split start n :
  start + S (S n) <= length hs ->
  let k := merkle_split (S (S n)) in let ls := take (S (S n)) (drop start hs) in
  split (length ls) = k /\ 1 <= k < S (S n) /\ take k ls = take k (drop start hs) /\
  drop k ls = take (S (S n) - k) (drop (start + k) hs) /\ 2 <= length ls.
Proof. intros H. cbv zeta. rewrite merkle_split_eq by lia. by apply slice_split. Qed.

Lemma range_root_eq count : forall start, start + count <= length hs ->
  checked custody (range_root custody l log start count) (root_range (take count (drop start hs))).
Proof.
  induction count as [count IH] using lt_wf_ind. intros start H. destruct count as [|[|n]]; simp range_root.
  - rewrite take_0. apply checked_Ok.
  - destruct (hs !! start) as [h|] eqn:Eh; [|apply lookup_ge_None in Eh; lia].
    rewrite (drop_S hs h start Eh). cbn [take]. simp root_range. by apply leaf_hash_at_eq.
  - destruct (block_range l start (S (S n))) as [h|] eqn:Eb; [rewrite (block_range_eq _ _ _ Eb) by lia; apply checked_Ok|].
    destruct (range_split start n H) as (Es & Hk & Et & Ed & Hl).
    rewrite (root_range_split (take (S (S n)) (drop start hs))), Es, Et, Ed by done.
    eapply checked_bind; [apply IH; lia|]. eapply checked_bind; [apply IH; lia|]. apply checked_Ok.
Qed.

Lemma inclusion_path_eq count : forall start index, start + count <= length hs -> start <= index ->
  checked custody (inclusion_path custody l log start count index) (path (take count (drop start hs)) (index - start)).
Proof.
  induction count as [count IH] using lt_wf_ind. intros start index H Hi. destruct count as [|[|n]]; simp inclusion_path.
  - rewrite take_0; simp path. apply checked_Ok.
  - destruct (drop start hs); cbn [take]; simp path; apply checked_Ok.
  - destruct (range_split start n H) as (Es & Hk & Et & Ed & Hl). rewrite (path_split (take (S (S n)) (drop start hs))) by done.
    cbv zeta. rewrite Es, Et, Ed. set (k := merkle_split (S (S n))) in *.
    destruct (Nat.ltb_spec index (start + k)), (Nat.ltb_spec (index - start) k); try lia.
    + eapply checked_bind; [apply IH; lia|]. eapply checked_bind; [apply range_root_eq; lia|]. apply checked_Ok.
    + replace (index - start - k) with (index - (start + k)) by lia.
      eapply checked_bind; [apply IH; lia|]. eapply checked_bind; [apply range_root_eq; lia|]. apply checked_Ok.
Qed.

Lemma consistency_path_eq count : forall start old is_root, start + count <= length hs -> 1 <= old <= count ->
  checked custody (consistency_path custody l log start count old is_root) (consistency (take count (drop start hs)) old is_root).
Proof.
  induction count as [count IH] using lt_wf_ind. intros start old is_root H Ho. destruct count as [|[|n]]; [lia| |]; simp consistency_path.
  - pose proof (length_window hs start 1 H) as Hl. pose proof (range_root_eq 1 start H) as Hr.
    destruct (take 1 (drop start hs)) as [|h [|]]; try (simpl in Hl; lia). simp consistency root_range in *.
    destruct is_root; [apply checked_Ok|]. by apply (checked_fmap _ _ _ (fun h => [h])) in Hr.
  - destruct (range_split start n H) as (Es & Hk & Et & Ed & Hl). rewrite (consistency_split (take (S (S n)) (drop start hs))) by done.
    rewrite length_window in * by done. destruct (old =? S (S n)) eqn:Eo.
    { destruct is_root; [apply checked_Ok|]. apply (checked_fmap _ _ _ (fun h => [h])). by apply range_root_eq. }
    apply Nat.eqb_neq in Eo. cbv zeta. rewrite Es, Et, Ed. set (k := merkle_split (S (S n))) in *.
    destruct (Nat.leb_spec old k); (eapply checked_bind; [apply IH; lia|]; eapply checked_bind; [apply range_root_eq; lia|]; apply checked_Ok).
Qed.

(** The block-compressed ledger gives the reference proofs, unless a custody check fails. *)
Lemma ledger_proofs_eq (index old : nat) :
  checked custody (ledger_inclusion_proof custody l log index) (inclusion_proof (from_leaves hs) index (length es)) /\
  checked custody (ledger_consistency_proof custody l log old) (consistency_proof (from_leaves hs) old (length es)).
Proof.
  assert (length hs = length es) as Hlen by apply length_map.
  assert (N.to_nat (size (frontier (core l))) = length es) as Hsize.
  { rewrite (rep_size _ _ (ca_frontier _ _ _ Hat)). unfold log_size. cbn. fold hs. rewrite Hlen. lia. }
  unfold ledger_inclusion_proof, ledger_consistency_proof, inclusion_proof, consistency_proof. rewrite Hsize. cbn [leaves from_leaves].
  rewrite Hlen, Nat.ltb_irrefl. rewrite (take_ge hs) by lia. split.
  - cbn [orb]. destruct (Nat.leb_spec (length es) index) as [Hle|Hlt]; [apply checked_Ok|].
    eapply checked_bind; [apply inclusion_path_eq; lia|]. rewrite drop_0, Nat.sub_0_r, take_ge by lia.
    destruct (hs !! index) as [h|] eqn:Eh; [|apply lookup_ge_None in Eh; lia]. eapply checked_bind; [by apply leaf_hash_at_eq|].
    assert (verify_inclusion h index (length es) (path hs index) (root (core l)) = true) as ->; [|apply checked_Ok].
    rewrite (ca_root _ _ _ Hat). fold hs. rewrite <-Hlen. apply verify_inclusion_walk. split; [lia|]. by apply path_correct.
  - rewrite orb_false_r. destruct (Nat.eqb_spec old 0) as [->|Hn]; [rewrite orb_true_r; apply checked_Ok|]. cbn [orb]. rewrite orb_false_r.
    destruct (Nat.ltb_spec (length es) old); [apply checked_Ok|]. apply (checked_fmap _ _ _ Some).
    pose proof (consistency_path_eq (length es) 0 old true ltac:(lia) ltac:(lia)) as Hp. by rewrite drop_0, take_ge in Hp by lia.
Qed.
End Correct.
