(* ===== verification/LedgerRuns.v ===== *)
(** What the operations of a disclosure ledger do to its directory, on every path: the public log stays a
    log of well-sequenced leaves followed by a part of the announced one, no byte that is durable and
    counted by the restart states is touched, and a reopening that gets past its checks found the
    directory in order. *)
From S2P Require Import Prelude Text Crypto Compliance Layout TraceRecord Merkle MerkleProofs MerkleFrontier Custody Approval LedgerLeaf LedgerState Ledger LedgerIndex LedgerMerkle.

Section Runs.
Context {C : Crypto}.

(** * The disk *)

(** Identity of the log file: device and inode. *)
Definition same_inode (m m' : Metadata) : Prop := dev m = dev m' /\ ino m = ino m'.

Lemma identity_same m m' : same_inode m m' -> ledger_file_identity m = ledger_file_identity m'.
Proof. unfold ledger_file_identity. by intros [-> ->]. Qed.

(** The restart state of the committed leaves [es]. *)
Definition state_of (es : list bytes) (m : Metadata) (marker : arr 16) (pending : option bytes) : PersistedLedgerState :=
  {| ps_file_identity := ledger_file_identity m; ps_mutation_marker := marker; ps_generation := Z.of_nat (length es);
     ps_log_len := Z.of_nat (length (log_of es)); ps_last_leaf_hash := last_of es; ps_pending_append := pending;
     ps_root := root_range (map leaf_hash es) |}.

(** A log the ledger may have committed. *)
Record committed (es : list bytes) (ls : list DisclosureLeaf) : Prop := {
  cm_decoded : decoded es ls;
  cm_sized : Forall leaf_sized es;
  cm_sequence : well_sequenced ls;
  cm_count : Z.of_nat (length es) <= MAX_DISCLOSURE_LEAVES;
}.

Lemma core_committed c es ls : core_at c es ls -> committed es ls.
Proof. intros []. by split. Qed.

(** A leaf that may follow. *)
Record next_leaf (es : list bytes) (ls : list DisclosureLeaf) (e : bytes) (l : DisclosureLeaf) : Prop := {
  nl_decoded : leaf_decode e = Ok l;
  nl_sized : leaf_sized e;
  nl_sequence : validate_leaf_sequence (index_of ls) l = Ok tt;
  nl_count : Z.of_nat (length es) < MAX_DISCLOSURE_LEAVES;
}.

Lemma committed_snoc es ls e l : committed es ls -> next_leaf es ls e l -> committed (es ++ [e]) (ls ++ [l]).
Proof.
  intros [Hd Hz Hw Hn] [Nd Nz Nv Nn]. split.
  - apply Forall2_app; [done|]. by constructor.
  - apply Forall_app. split; [done|]. by apply Forall_singleton.
  - by apply validate_sequence_spec.
  - rewrite length_app. simpl. unfold MAX_DISCLOSURE_LEAVES in *. lia.
Qed.

(** What the bytes after the committed log may be: nothing, or the beginning of the announced record. *)
Definition tail_ok (es : list bytes) (ls : list DisclosureLeaf) (pending : option bytes) (tail : bytes) : Prop :=
  match pending with
  | None => tail = []
  | Some e => (exists l, next_leaf es ls e l) /\ exists n, (n <= length (record_bytes e))%nat /\ tail = take n (record_bytes e)
  end.

(** The directory holds the committed leaves [es], an announced append [pending] and its [tail]. *)
Record disk_at (key : arr 32) (f : LedgerFiles) (es : list bytes) (ls : list DisclosureLeaf) (marker : arr 16)
  (pending : option bytes) (tail : bytes) : Prop := {
  da_log : log_bytes f = log_of es ++ tail;
  da_committed : committed es ls;
  da_state : exists bs, state_file f = Some bs /\ Z.of_nat (length bs) <= MAX_STATE_BYTES /\
    decode_authenticated bs key = Ok (state_of es (log_meta f) marker pending);
  da_tail : tail_ok es ls pending tail;
  da_small : Z.of_nat (length (log_bytes f)) <= MAX_LOG_BYTES;
  da_synced : (log_synced f <= length (log_bytes f))%nat;
  (** the stamp in the state is the log's, while nothing follows the committed leaves *)
  da_stamp : tail = [] -> marker = ledger_mutation_marker (log_meta f);
}.

(** ** What stays on the disk *)

(** Both restart states a power loss may leave count at least the first [n] bytes of the log. *)
Definition counts (key : arr 32) (n : nat) (f : LedgerFiles) : Prop :=
  forall bs s, state_file f = Some bs \/ durable_state f = Some bs -> decode_authenticated bs key = Ok s -> Z.of_nat n <= ps_log_len s.

Record safe (key : arr 32) (n : nat) (f : LedgerFiles) : Prop := {
  sf_durable : (n <= log_synced f <= length (log_bytes f))%nat;
  sf_counts : counts key n f;
  sf_state : is_Some (state_file f) /\ is_Some (durable_state f);
}.

(** The first [n] bytes of the log are treated well: none that was durable and counted is touched. *)
Definition keeps (key : arr 32) (n : nat) (f f' : LedgerFiles) : Prop :=
  forall m, (m <= n)%nat -> safe key m f -> safe key m f' /\ take m (log_bytes f') = take m (log_bytes f).

#[export] Instance keeps_refl key n : Reflexive (keeps key n).
Proof. intros f m _ H. done. Qed.
#[export] Instance keeps_trans key n : Transitive (keeps key n).
Proof. intros f1 f2 f3 H1 H2 m Hm H. destruct (H1 m Hm H) as [S1 E1]. destruct (H2 m Hm S1) as [S2 E2]. split; [done|]. by rewrite E2. Qed.

Lemma keeps_state key n b bs s f :
  decode_authenticated bs key = Ok s -> Z.of_nat n <= ps_log_len s -> keeps key n f (with_state_file b bs f).
Proof.
  intros Hd Hl m Hm [Sd Sc [S1 S2]]. split; [|done]. split; [done| |split; [by eexists|by destruct b; [eexists|]]].
  intros bs' s' [[= <-]|Hb] Hs; [rewrite Hd in Hs; apply Ok_inj in Hs; subst; lia|]. cbn in Hb. destruct b; [|by eapply Sc; [right|]].
  injection Hb as <-. rewrite Hd in Hs. apply Ok_inj in Hs. subst. lia.
Qed.

(** Growing the log, and cutting it behind the bytes that count. *)
Lemma keeps_log key n f f' :
  state_file f' = state_file f -> durable_state f' = durable_state f -> (Nat.min n (log_synced f) <= log_synced f' <= length (log_bytes f'))%nat ->
  (exists k, (n <= k)%nat /\ take k (log_bytes f) `prefix_of` log_bytes f') -> keeps key n f f'.
Proof.
  intros Hs Hd Hl (k & Hk & [x Hx]) m Hm [Sd Sc Ss]. split.
  - split; [lia| |by rewrite Hs, Hd]. unfold counts. rewrite Hs, Hd. exact Sc.
  - rewrite Hx, take_app, take_take, length_take. replace (m - Nat.min k (length (log_bytes f)))%nat with 0%nat by lia.
    rewrite take_0, app_nil_r. f_equal. lia.
Qed.

Lemma keeps_le key n n' f f' : (n' <= n)%nat -> keeps key n f f' -> keeps key n' f f'.
Proof. intros H K m Hm. apply K. lia. Qed.

(** The memory of a usable ledger. *)
Record memory_at (key : arr 32) (l : DisclosureLedger) (es : list bytes) (ls : list DisclosureLeaf) (m : Metadata) (marker : arr 16) : Prop := {
  ma_core : core_at (core l) es ls;
  ma_key : authentication_key (state_store l) = key;
  ma_identity : file_identity (state_store l) = ledger_file_identity m;
  ma_marker : mutation_marker (state_store l) = marker;
  ma_generation : st_generation (state_store l) = Z.of_nat (length es);
  ma_log_len : log_len (state_store l) = Z.of_nat (length (log_of es));
  ma_last : last_leaf_hash (state_store l) = last_of es;
}.

Lemma memory_persisted key l es ls m marker :
  memory_at key l es ls m marker -> persisted_of l = state_of es m marker (pending_append (state_store l)).
Proof.
  intros H. pose proof (ca_root _ _ _ (ma_core _ _ _ _ _ _ H)) as Hr. destruct H. unfold persisted_of, state_of. by rewrite Hr, ma_identity0,
    ma_marker0, ma_generation0, ma_log_len0, ma_last0.
Qed.

(** ** Writing the restart state *)

Lemma encode_total s key :
  match ps_pending_append s with Some e => leaf_sized e | None => True end ->
  exists bs, encode_authenticated s key = Ok bs /\ Z.of_nat (length bs) <= MAX_STATE_BYTES.
Proof.
  intros Hp. assert (exists payload, state_payload s = Ok payload /\ Z.of_nat (length payload) <= 300 + MAX_LEAF_BYTES) as (payload & E & Hl).
  { unfold state_payload, push_optional_state_bytes, push_state_bytes, push_state_u32. cbv zeta. unfold leaf_sized, MAX_LEAF_BYTES in *.
    destruct (ps_pending_append s) as [e|].
    - rewrite (proj2 (Nat.eqb_neq (length e) 0)) by lia. rewrite (proj2 (Z.ltb_ge (4 * 1024) _)) by lia. rewrite (proj2 (Z.leb_gt (2 ^ 32) _)) by lia. cbn [orb guard mbind result_bind].
      eexists. split; [done|]. unfold push_optional_hash. rewrite !length_app, !length_be_bytes, !length_vec_to_list. simpl length. lia.
    - cbn [mbind result_bind]. eexists. split; [done|]. unfold push_optional_hash.
      rewrite !length_app, !length_be_bytes, !length_vec_to_list. simpl length. lia. }
  unfold encode_authenticated. rewrite E. cbn [mbind result_bind]. unfold MAX_LEAF_BYTES, MAX_STATE_BYTES in *.
  rewrite (proj2 (Z.ltb_ge _ _)); [eexists; split; [done|]|]; rewrite !length_app, length_be_bytes, length_vec_to_list; simpl length; lia.
Qed.

Lemma state_of_wf es m marker p :
  Z.of_nat (length es) <= MAX_DISCLOSURE_LEAVES -> Z.of_nat (length (log_of es)) <= MAX_LOG_BYTES -> state_wf (state_of es m marker p).
Proof. unfold MAX_DISCLOSURE_LEAVES, MAX_LOG_BYTES. intros. split; unfold in_uint; cbn [ps_generation ps_log_len state_of]; lia. Qed.

(** What [persist_state] does for a usable ledger: the state is replaced, or stays as it was. *)
Lemma persist_at o key l es ls m marker f r f' :
  memory_at key l es ls m marker -> Z.of_nat (length (log_of es)) <= MAX_LOG_BYTES ->
  match pending_append (state_store l) with Some e => leaf_sized e | None => True end ->
  persist_state o l f = (r, f') ->
  (f' = f /\ exists e, r = Err e) \/
  exists b bs, f' = with_state_file b bs f /\ (r = Ok tt -> b = true) /\ Z.of_nat (length bs) <= MAX_STATE_BYTES /\
    decode_authenticated bs key = Ok (state_of es m marker (pending_append (state_store l))).
Proof.
  intros M Hlog Hp H. pose proof (core_count _ _ _ (ma_core _ _ _ _ _ _ M)) as Hc. pose proof (ca_count _ _ _ (ma_core _ _ _ _ _ _ M)) as Hn.
  destruct (encode_total (persisted_of l) key) as (bs & E & Hb); [done|]. unfold persist_state in H. cbv zeta in H.
  rewrite (ma_key _ _ _ _ _ _ M) in H. destruct (guard _ _) as [u|e] eqn:Eg; cbn [mbind result_bind] in H; [|left; simplify_eq; eauto].
  rewrite E in H. unfold write_private_state_guarded in H. rewrite (proj2 (Z.ltb_ge _ _)) in H by done.
  assert (decode_authenticated bs key = Ok (state_of es m marker (pending_append (state_store l)))) as Hd.
  { rewrite <-(memory_persisted _ _ _ _ _ _ M). apply decode_encode_authenticated; [|done].
    rewrite (memory_persisted _ _ _ _ _ _ M). by apply state_of_wf. }
  destruct o; simplify_eq; [right; exists true, bs|left; eauto|right; exists false, bs]; done.
Qed.

(** Persisting succeeds when the replacement does. *)
Lemma persist_ok key l es ls m marker f :
  memory_at key l es ls m marker -> match pending_append (state_store l) with Some e => leaf_sized e | None => True end ->
  exists bs, persist_state Replaced l f = (Ok tt, with_state_file true bs f).
Proof.
  intros M Hp. pose proof (core_count _ _ _ (ma_core _ _ _ _ _ _ M)) as Hc.
  destruct (encode_total (persisted_of l) key) as (bs & E & Hb); [done|]. exists bs. unfold persist_state. cbv zeta.
  rewrite (ma_key _ _ _ _ _ _ M), E, (ma_generation _ _ _ _ _ _ M), (ma_log_len _ _ _ _ _ _ M), (ma_last _ _ _ _ _ _ M).
  unfold leaf_count. rewrite Hc, Z.eqb_refl, (proj2 (Z.ltb_ge _ _)) by (unfold log_of; rewrite length_app; lia).
  assert (is_some (last_of es) = negb (Z.of_nat (length es) =? 0)) as ->.
  { unfold last_of. destruct es as [|e es]; [done|]. destruct (last (e :: es)) eqn:El; [done|]. by apply last_None in El. }
  rewrite eqb_reflx. cbn [negb orb guard mbind result_bind]. unfold write_private_state_guarded. by rewrite (proj2 (Z.ltb_ge _ _)).
Qed.

(** * Appending *)

Lemma record_nonempty e : record_bytes e <> [].
Proof. intros E. apply (f_equal length) in E. rewrite length_record in E. simpl in E. lia. Qed.

(** Announcing a leaf in the restart state. *)
Lemma disk_announced key f es ls marker pending b bs e l :
  disk_at key f es ls marker pending [] -> next_leaf es ls e l -> Z.of_nat (length bs) <= MAX_STATE_BYTES ->
  decode_authenticated bs key = Ok (state_of es (log_meta f) marker (Some e)) ->
  disk_at key (with_state_file b bs f) es ls marker (Some e) [].
Proof.
  intros [] N Hb Hd. split; try done; [by exists bs|]. split; [by exists l|]. exists O. split; [lia|done].
Qed.

(** What [write_record] leaves after an announced leaf. *)
Lemma write_record_at io key f es ls marker e r f' :
  disk_at key f es ls marker (Some e) [] -> write_record io e f = (r, f') ->
  exists tail, disk_at key f' es ls marker (Some e) tail /\ same_inode (log_meta f) (log_meta f') /\ keeps key (length (log_of es)) f f' /\
    forall o n, r = Ok (o, n) -> tail = record_bytes e /\ log_synced f' = length (log_bytes f') /\
      o = length (log_of es) /\ n = length (log_of (es ++ [e])).
Proof.
  intros D H. pose proof D as [Dl Dc Ds Dt Dsm Dsy Dst]. destruct Dt as [[l N] _].
  unfold write_record in H. cbv zeta in H. rewrite Dl, app_nil_r in H, Dsy.
  destruct (MAX_LOG_BYTES <? _) eqn:Em; b2p; [simplify_eq; exists []; done|].
  assert (forall n, (0 < n)%nat -> let f' := with_log (log_of es ++ take n (record_bytes e)) (at_ctime (log_meta f) (li_ctime io)) f in
    disk_at key f' es ls marker (Some e) (take n (record_bytes e)) /\ keeps key (length (log_of es)) f f' /\ keeps key (length (log_of es)) f (sync_log f')) as K.
  { intros n Hn. assert (length (take n (record_bytes e)) <= 4 + length e)%nat as Hle by (rewrite length_take, length_record; lia). split_and!.
    - split; try done.
      + split; [by exists l|]. exists (Nat.min n (length (record_bytes e))). split; [lia|]. by rewrite <-take_take, (take_ge (record_bytes e) (length _)) by lia.
      + cbn [log_bytes with_log]. rewrite length_app. lia.
      + cbn [log_bytes log_synced with_log]. rewrite length_app. lia.
      + intros E. apply (f_equal length) in E. rewrite length_take, length_record in E. simpl in E. lia.
    - apply keeps_log; cbn [log_bytes log_synced with_log]; [done..|rewrite length_app; lia|]. exists (length (log_of es)). split; [lia|].
      rewrite Dl, app_nil_r, take_ge by done. by apply prefix_app_r.
    - apply keeps_log; cbn [log_bytes log_synced with_log sync_log]; [done..|rewrite length_app; lia|]. exists (length (log_of es)). split; [lia|].
      rewrite Dl, app_nil_r, take_ge by done. by apply prefix_app_r. }
  destruct (li_written io) as [[|n]|].
  - simplify_eq. by exists [].
  - simplify_eq. exists (take (S n) (record_bytes e)). destruct (K (S n)) as (? & ? & _); [lia|]. done.
  - specialize (K (length (record_bytes e)) ltac:(rewrite length_record; lia)). rewrite take_ge in K by done. destruct K as (KD & K1 & K2).
    destruct (li_synced io); simplify_eq; exists (record_bytes e); [|done]. split_and!; [|done..|].
    + destruct KD. split; try done.
    + intros o n [<- <-]%Ok_inj%pair_eq. split_and!; [done..|]. rewrite length_log_snoc. lia.
Qed.

(** Committing the record in memory and in the restart state. *)
Lemma append_finish_at io key leaf p l f es ls marker e r l' f' :
  disk_at key f es ls marker (Some e) (record_bytes e) -> log_synced f = length (log_bytes f) ->
  next_leaf es ls e leaf -> memory_at key l es ls (log_meta f) marker -> state_poisoned l = false -> ap_hash p = leaf_hash e ->
  core_at (core (commit_leaf leaf p (length (log_of es)) (length (log_of (es ++ [e]))) l)) (es ++ [e]) (ls ++ [leaf]) ->
  append_finish io leaf p (length (log_of es)) (length (log_of (es ++ [e]))) l f = (r, l', f') ->
  keeps key (length (log_of (es ++ [e]))) f f' /\
  ((state_poisoned l' = true /\ (exists e, r = Err e) /\
     (f' = f \/ disk_at key f' (es ++ [e]) (ls ++ [leaf]) (ledger_mutation_marker (log_meta f')) None [])) \/
   (r = Ok tt /\ disk_at key f' (es ++ [e]) (ls ++ [leaf]) (ledger_mutation_marker (log_meta f')) None [] /\ log_synced f' = length (log_bytes f') /\ durable_state f' = state_file f' /\
    memory_at key l' (es ++ [e]) (ls ++ [leaf]) (log_meta f') (ledger_mutation_marker (log_meta f')) /\ state_poisoned l' = false)).
Proof.
  intros D Hsy N M Hp Hh Hc H. set (l1 := commit_leaf _ _ _ _ _) in *.
  assert (memory_at key l1 (es ++ [e]) (ls ++ [leaf]) (log_meta f) marker) as M1.
  { destruct M. split; try done; unfold l1, commit_leaf; cbn.
    - fold l1. change (core_leaf_count (core l1) = Z.of_nat (length (es ++ [e]))). by apply (core_count _ _ (ls ++ [leaf])).
    - by rewrite last_of_snoc, Hh. }
  pose proof D as [Dl Dc Ds Dt Dsm Dsy Dst]. rewrite <-log_of_snoc in Dl.
  unfold append_finish in H. cbv zeta in H. fold l1 in H. unfold refresh_store_file_stamp in H.
  destruct (li_custody io 3) as [u|]; cbn [mbind result_bind] in H; [|simplify_eq; split; [done|]; left; eauto].
  rewrite bool_decide_true in H by (symmetry; apply M1). cbn [negb guard mbind result_bind] in H.
  set (l2 := with_store _ l1) in H.
  assert (memory_at key l2 (es ++ [e]) (ls ++ [leaf]) (log_meta f) (ledger_mutation_marker (log_meta f))) as M2.
  { destruct M1. split; try done. cbn. by rewrite Dl. }
  destruct (persist_state (li_replace io 1) l2 f) as [r2 f2] eqn:Ep.
  assert (forall b bs, Z.of_nat (length bs) <= MAX_STATE_BYTES ->
    decode_authenticated bs key = Ok (state_of (es ++ [e]) (log_meta f) (ledger_mutation_marker (log_meta f)) None) ->
    disk_at key (with_state_file b bs f) (es ++ [e]) (ls ++ [leaf]) (ledger_mutation_marker (log_meta f)) None []) as K.
  { intros b bs Hb Hd. split; try done; [cbn; by rewrite Dl, app_nil_r|by apply committed_snoc|by exists bs]. }
  pose proof (persist_at _ key l2 _ _ _ _ f _ _ M2 ltac:(by rewrite <-Dl) I Ep) as [[-> [x ->]]|(b & bs & -> & Hbt & Hb & Hd)].
  - simplify_eq. split; [done|]. left. split; [done|]. eauto.
  - specialize (K b bs Hb Hd). pose proof (keeps_state key (length (log_of (es ++ [e]))) b bs _ f Hd ltac:(cbn; lia)) as Hk.
    destruct r2 as [[]|]; simplify_eq; (split; [done|]); [right|left].
    + do 3 (split; [done|]). split; [cbn; by rewrite Hbt|]. done.
    + split; [done|]. split; [by eexists|]. by right.
Qed.

(** The stamp check of an append finds nothing after the committed leaves. *)
Lemma stamp_clean c key l f es ls marker marker' pending tail u :
  disk_at key f es ls marker pending tail -> memory_at key l es ls (log_meta f) marker' ->
  validate_current_store_file_stamp c l f = Ok u -> tail = [] /\ marker' = ledger_mutation_marker (log_meta f).
Proof.
  intros D M H. unfold validate_current_store_file_stamp in H. inv_ok. b2p. rewrite (ma_log_len _ _ _ _ _ _ M), (da_log _ _ _ _ _ _ _ D), length_app in *.
  split; [|by rewrite <-(ma_marker _ _ _ _ _ _ M)]. destruct tail; [done|simpl in *; lia].
Qed.

Lemma poisoned_append io leaf l f : state_poisoned l = true -> append io leaf l f = (Err ComplianceError.Storage, l, f).
Proof. intros H. unfold append, append_plan. by rewrite H. Qed.

Lemma leaf_encode_sized l e : leaf_encode l = Ok e -> Z.of_nat (length e) <= MAX_LEAF_BYTES -> leaf_sized e.
Proof.
  intros H Hm. split; [|done]. enough (length e <> 0)%nat by lia. destruct l as [i|c]; cbn [leaf_encode] in H.
  - apply intent_encode_Ok in H as (_ & _ & _ & keys & _ & ->). rewrite length_app, length_intent_prefix. lia.
  - unfold completion_encode in H. inv_ok. subst e. rewrite length_app. change (length COMPLETION_DOMAIN) with 35%nat. lia.
Qed.

(** Everything an append may leave behind, on every path. *)
Definition appended (key : arr 32) (es : list bytes) (ls : list DisclosureLeaf) (leaf : DisclosureLeaf) (r : ComplianceResult unit)
  (l' : DisclosureLedger) (f' : LedgerFiles) : Prop :=
  (exists x marker pending tail, r = Err x /\ disk_at key f' es ls marker pending tail /\
     (state_poisoned l' = false -> memory_at key l' es ls (log_meta f') marker)) \/
  exists e, next_leaf es ls e leaf /\ leaf_encode leaf = Ok e /\
    disk_at key f' (es ++ [e]) (ls ++ [leaf]) (ledger_mutation_marker (log_meta f')) None [] /\
    ((exists x, r = Err x /\ state_poisoned l' = true) \/
     (r = Ok tt /\ log_synced f' = length (log_bytes f') /\ durable_state f' = state_file f' /\ state_poisoned l' = false /\
      memory_at key l' (es ++ [e]) (ls ++ [leaf]) (log_meta f') (ledger_mutation_marker (log_meta f')))).

Lemma append_at io key leaf l f es ls marker pending tail r l' f' :
  disk_at key f es ls marker pending tail -> memory_at key l es ls (log_meta f) marker -> leaf_wf leaf ->
  append io leaf l f = (r, l', f') -> appended key es ls leaf r l' f' /\ keeps key (length (log_of es)) f f'.
Proof.
  intros D M W H. unfold append in H. destruct (append_plan leaf l) as [p|x] eqn:Ep.
  2:{ simplify_eq. split; [|done]. left. exists x, marker, pending, tail. done. }
  destruct (append_plan_absorbs leaf l p (length (log_of es)) (length (log_of (es ++ [ap_encoded p]))) Ep) as (Hp & Hc & Hv & He & Hz & Hh & Ha).
  destruct (validate_current_store_file_stamp (li_custody io 0) l f) as [u|x] eqn:Est.
  2:{ simplify_eq. split; [|done]. left. exists ComplianceError.Storage, marker, pending, tail. done. }
  destruct (stamp_clean _ _ _ _ _ _ _ _ _ _ _ D M Est) as [-> _].
  set (e := ap_encoded p) in *. set (l1 := with_store (with_pending (Some e) (state_store l)) l) in *.
  pose proof (leaf_encode_sized _ _ He Hz) as Hsz.
  assert (next_leaf es ls e leaf) as N.
  { unfold leaf_count in Hc. rewrite (core_count _ _ _ (ma_core _ _ _ _ _ _ M)) in Hc. rewrite (ca_index _ _ _ (ma_core _ _ _ _ _ _ M)) in Hv.
    split; [by apply leaf_codec_spec|done|done|done]. }
  assert (memory_at key l1 es ls (log_meta f) marker) as M1 by (destruct M; by split).
  assert (Z.of_nat (length (log_of es)) <= MAX_LOG_BYTES) as Hlog by (pose proof (da_small _ _ _ _ _ _ _ D) as Hs; by rewrite (da_log _ _ _ _ _ _ _ D), app_nil_r in Hs).
  destruct (persist_state (li_replace io 0) l1 f) as [r1 f1] eqn:E1.
  destruct (persist_at _ _ _ _ _ _ _ _ _ _ M1 Hlog Hsz E1) as [[-> [x ->]]|(b & bs & -> & Hbt & Hb & Hd)].
  { simplify_eq. split; [|done]. left. exists ComplianceError.Storage, marker, pending, []. done. }
  pose proof (disk_announced _ _ _ _ _ _ b bs e leaf D N Hb Hd) as D1.
  pose proof (keeps_state key (length (log_of es)) b bs _ f Hd ltac:(cbn; lia)) as K1.
  destruct r1 as [[]|x]; [|simplify_eq; split; [|done]; left; exists ComplianceError.Storage, marker, (Some e), []; done].
  destruct (li_custody io 1) as [|x]; [|simplify_eq; split; [|done]; left; exists x, marker, (Some e), []; done].
  destruct (write_record io e (with_state_file b bs f)) as [r2 f2] eqn:E2.
  destruct (write_record_at _ _ _ _ _ _ _ _ _ D1 E2) as (tl & D2 & Hin & K2 & Hw). pose proof (keeps_trans _ _ _ _ _ K1 K2) as K12.
  assert (memory_at key l1 es ls (log_meta f2) marker) as M2 by (destruct M1; split; try done; by rewrite <-(identity_same _ _ Hin)).
  destruct r2 as [[off n]|x]; [|simplify_eq; split; [|done]; left; exists x, marker, (Some e), tl; done].
  destruct (Hw off n eq_refl) as (-> & Hs1 & -> & ->).
  destruct (li_custody io 2) as [|x]; [|simplify_eq; split; [|done]; left; exists x, marker, (Some e), (record_bytes e); done].
  assert (core_at (core (commit_leaf leaf p (length (log_of es)) (length (log_of (es ++ [e]))) l1)) (es ++ [e]) (ls ++ [leaf])) as Hcore.
  { destruct (absorb_leaf_at (core l) es ls e leaf (ma_core _ _ _ _ _ _ M) (nl_decoded _ _ _ _ N) Hsz Hv (nl_count _ _ _ _ N)) as (c' & Ha' & Hc').
    fold e in Ha. rewrite Ha in Ha'. apply Ok_inj in Ha'. subst c'. exact Hc'. }
  destruct (append_finish_at _ _ _ _ _ _ _ _ _ _ _ _ _ D2 Hs1 N M2 Hp Hh Hcore H) as [K3 Hr].
  split; [|transitivity f2; [done|]; eapply keeps_le; [|exact K3]; rewrite length_log_snoc; lia].
  destruct Hr as [(Hpo & [x ->] & [->|D3])|(-> & D3 & Hs3 & Hd3 & M3 & Hpo)].
  - left. exists x, marker, (Some e), (record_bytes e). split; [done|]. split; [done|]. by rewrite Hpo.
  - right. exists e. do 3 (split; [done|]). left. by exists x.
  - right. exists e. do 3 (split; [done|]). right. done.
Qed.

(** * Reopening *)

(** An operating system under which every check, write and replacement succeeds. *)
Record io_good (io : LedgerIo) : Prop := {
  ig_custody : forall k, li_custody io k = Ok tt;
  ig_replace : forall k, li_replace io k = Replaced;
  ig_truncate : li_truncate io = Truncated;
}.

Lemma bad_custody io k x : li_custody io k = Err x -> ~ io_good io.
Proof. intros H G. by rewrite (ig_custody _ G) in H. Qed.

Lemma log_long es : (length es + 8 <= length (log_of es))%nat.
Proof.
  unfold log_of. rewrite length_app. change (length LOG_MAGIC) with 8%nat. enough (length es <= length (records es))%nat by lia.
  induction es as [|e es IH]; [done|]. change (records (e :: es)) with (record_bytes e ++ records es). rewrite length_app, length_record. simpl. lia.
Qed.

Lemma tail_bounds es ls pending tail :
  tail_ok es ls pending tail ->
  Z.of_nat (length tail) <= MAX_RECOVERY_TAIL_BYTES /\
  match pending with None => length tail = 0%nat | Some e => (length tail <= 4 + length e)%nat /\ leaf_sized e /\ Z.of_nat (length es) < MAX_DISCLOSURE_LEAVES end.
Proof.
  destruct pending as [e|]; cbn [tail_ok].
  - intros [[l N] (n & Hn & ->)]. rewrite length_take, length_record in *. pose proof (nl_sized _ _ _ _ N) as Hz.
    split; [|split; [lia|split; [done|apply N]]]. destruct Hz as [Hz0 Hz]. unfold MAX_RECOVERY_TAIL_BYTES, MAX_LEAF_BYTES in *. lia.
  - intros ->. done.
Qed.

(** The restart state passes its checks. *)
Lemma state_validate_at key f es ls marker pending tail :
  disk_at key f es ls marker pending tail ->
  state_validate (state_of es (log_meta f) marker pending) (Z.of_nat (length (log_bytes f))) (ledger_file_identity (log_meta f))
    (ledger_mutation_marker (log_meta f)) = Ok tt.
Proof.
  intros D. destruct (tail_bounds _ _ _ _ (da_tail _ _ _ _ _ _ _ D)) as [Ht Hp]. pose proof (cm_count _ _ (da_committed _ _ _ _ _ _ _ D)) as Hn.
  pose proof (log_long es) as Hl. pose proof (da_stamp _ _ _ _ _ _ _ D) as Hst. rewrite (da_log _ _ _ _ _ _ _ D), length_app.
  unfold state_validate, checked_sub. cbn [ps_log_len ps_pending_append ps_file_identity ps_generation ps_mutation_marker ps_last_leaf_hash ps_root state_of].
  rewrite (proj2 (Z.leb_le (Z.of_nat (length (log_of es))) _)) by lia. cbn [ok_or mbind result_bind].
  replace (Z.of_nat (length (log_of es) + length tail) - Z.of_nat (length (log_of es))) with (Z.of_nat (length tail)) by lia.
  change (length LOG_MAGIC) with 8%nat.
  rewrite (bool_decide_eq_true_2 (ledger_file_identity (log_meta f) = ledger_file_identity (log_meta f))) by done.
  rewrite (proj2 (Z.ltb_ge MAX_DISCLOSURE_LEAVES _)), (proj2 (Z.ltb_ge _ (Z.of_nat 8))), (proj2 (Z.ltb_ge (Z.of_nat (length (log_of es) + length tail)) _)),
    (proj2 (Z.ltb_ge MAX_RECOVERY_TAIL_BYTES _)) by lia.
  assert ((Z.of_nat (length tail) =? 0) && negb (marker ≟ ledger_mutation_marker (log_meta f)) = false) as ->.
  { destruct tail; [|done]. rewrite bool_decide_true by by apply Hst. done. }
  assert ((if Z.of_nat (length es) =? 0
    then negb (Z.of_nat (length (log_of es)) =? Z.of_nat 8) || is_some (last_of es) || negb (root_range (map leaf_hash es) ≟ empty_root)
    else (Z.of_nat (length (log_of es)) =? Z.of_nat 8) || negb (is_some (last_of es))) = false) as ->.
  { destruct es as [|e es]; [by rewrite bool_decide_true|]. rewrite (proj2 (Z.eqb_neq _ _)), (proj2 (Z.eqb_neq _ _)) by (simpl length in *; lia).
    unfold last_of. destruct (last (e :: es)) eqn:El; [done|]. by apply last_None in El. }
  destruct pending as [e|]; cbn [fmap option_fmap option_map is_some].
  - destruct Hp as (Hle & [Hz0 Hz] & Hlt). rewrite (proj2 (Z.ltb_ge (4 + _) _)), (proj2 (Z.leb_gt _ _)) by lia. cbn [negb orb andb guard mbind result_bind].
    by rewrite (proj2 (Nat.eqb_neq _ _)), (proj2 (Z.ltb_ge _ _)) by lia.
  - by rewrite Hp.
Qed.

(** The replay rebuilds the memory of the committed leaves. *)
Lemma from_persisted_at key f es ls marker pending tail :
  disk_at key f es ls marker pending tail ->
  exists l, from_persisted (log_bytes f) key (state_of es (log_meta f) marker pending) = Some (Ok l) /\
    memory_at key l es ls (log_meta f) marker /\ pending_append (state_store l) = pending /\ state_poisoned l = false.
Proof.
  intros D. destruct (da_committed _ _ _ _ _ _ _ D) as [Hd Hz Hw Hn]. pose proof (log_long es) as Hl.
  destruct (stream_complete (S (length (log_of es))) es [] [] ls core_new tail core_new_at) as (c & Hs & Hc); [done..|lia|].
  cbn [app] in *. unfold from_persisted. cbn [ps_log_len state_of]. rewrite Nat2Z.id, (da_log _ _ _ _ _ _ _ D).
  change (length (log_of [])) with (length LOG_MAGIC) in Hs. change (last_of []) with (@None Hash) in Hs. rewrite Hs.
  cbn [mbind option_bind result_bind ps_generation ps_root ps_last_leaf_hash ps_pending_append state_of].
  rewrite Nat.eqb_refl, (core_count _ _ _ Hc), Z.eqb_refl, (ca_root _ _ _ Hc), !bool_decide_true by done. cbn [negb orb guard mbind result_bind].
  assert (match pending with None => Ok tt | Some encoded => leaf ← leaf_decode encoded; validate_leaf_sequence (index c) leaf end = Ok tt) as ->.
  { pose proof (da_tail _ _ _ _ _ _ _ D) as Ht. destruct pending as [e|]; [|done]. destruct Ht as [[l N] _].
    rewrite (nl_decoded _ _ _ _ N). cbn [mbind result_bind]. rewrite (ca_index _ _ _ Hc). apply N. }
  cbn [mbind result_bind]. eexists. split; [done|]. split; [by split|]. done.
Qed.

(** A leaf completely on disk is recovered. *)
Lemma recover_leaf_at key l m es ls marker e lf :
  memory_at key l es ls m marker -> next_leaf es ls e lf ->
  exists l', recover_leaf e (length (log_of es)) (length (log_of (es ++ [e]))) l = Ok l' /\
    memory_at key l' (es ++ [e]) (ls ++ [lf]) m marker /\ state_poisoned l' = state_poisoned l.
Proof.
  intros M N. pose proof (ma_core _ _ _ _ _ _ M) as Hc. unfold recover_leaf, leaf_count.
  rewrite (nl_decoded _ _ _ _ N). cbn [mbind result_bind]. rewrite (ca_index _ _ _ Hc), (nl_sequence _ _ _ _ N). cbn [mbind result_bind].
  rewrite (core_count _ _ _ Hc), (proj2 (Z.leb_gt _ _)) by apply N. cbn [guard mbind result_bind].
  destruct (absorb_leaf_at _ _ _ _ _ Hc (nl_decoded _ _ _ _ N) (nl_sized _ _ _ _ N)) as (c & -> & Hc'); [rewrite (ca_index _ _ _ Hc); apply N|apply N|].
  cbn [mbind result_bind]. eexists. split; [done|]. split; [|done]. destruct M. split; try done; cbn.
  - by rewrite (core_count _ _ _ Hc').
  - by rewrite last_of_snoc.
Qed.

(** The committed leaves as they were, or with the announced one. *)
Definition extended (es : list bytes) (ls : list DisclosureLeaf) (es' : list bytes) (ls' : list DisclosureLeaf) : Prop :=
  (es' = es /\ ls' = ls) \/ exists e l, next_leaf es ls e l /\ es' = es ++ [e] /\ ls' = ls ++ [l].

(** A log that holds committed leaves and nothing else, with the state not yet rewritten. *)
Record recovered_at (f f' : LedgerFiles) (es' : list bytes) : Prop := {
  rc_log : log_bytes f' = log_of es';
  rc_small : Z.of_nat (length (log_bytes f')) <= MAX_LOG_BYTES;
  rc_inode : same_inode (log_meta f) (log_meta f');
  rc_synced : (log_synced f' <= length (log_bytes f'))%nat;
  rc_state : state_file f' = state_file f;
}.

Lemma recover_at io key l f es ls marker pending tail r f' :
  disk_at key f es ls marker pending tail -> memory_at key l es ls (log_meta f) marker -> pending_append (state_store l) = pending ->
  recover_bounded_tail io l f = (r, f') ->
  keeps key (length (log_of es)) f f' /\
  ((exists x, r = Err x /\ state_file f' = state_file f /\ ~ io_good io) \/
   (r = Ok (false, l) /\ f' = f /\ pending = None) \/
   (exists l' es' ls', r = Ok (true, l') /\ extended es ls es' ls' /\ memory_at key l' es' ls' (log_meta f') marker /\
      pending_append (state_store l') = None /\ state_poisoned l' = state_poisoned l /\ recovered_at f f' es')).
Proof.
  intros D M Hpe H. pose proof D as [Dl Dc Ds Dt Dsm Dsy Dst]. destruct (tail_bounds _ _ _ _ Dt) as [Hrt _].
  unfold recover_bounded_tail in H. cbv zeta in H. rewrite Hpe, (ma_log_len _ _ _ _ _ _ M), Nat2Z.id in H.
  destruct (li_custody io 1) as [u|x] eqn:E1; cbn [mbind result_bind] in H; [|simplify_eq; split; [done|]; left; eauto using bad_custody].
  rewrite Dl, length_app in H. rewrite (proj2 (Z.ltb_ge _ _)) in H by lia.
  replace (Z.of_nat (length (log_of es) + length tail) - Z.of_nat (length (log_of es))) with (Z.of_nat (length tail)) in H by lia.
  rewrite (proj2 (Z.ltb_ge _ _)) in H by lia. cbn [orb guard] in H. destruct pending as [e|].
  2:{ cbn in Dt. subst tail. cbn [length] in H. rewrite Nat.add_0_r, Nat.eqb_refl in H. cbn [negb] in H. simplify_eq. split; [done|]. right. left. done. }
  destruct Dt as [[lf N] (n & Hn & ->)]. rewrite drop_app_length in H. rewrite length_take, Nat.min_l in H by done.
  rewrite (proj2 (Nat.ltb_ge _ _)), bool_decide_true in H by done. cbn [negb orb guard] in H.
  destruct (Nat.ltb_spec n (length (record_bytes e))) as [Hlt|Hge].
  - unfold truncate_log in H. rewrite Dl, take_app_length in H.
    assert (forall lx, state_poisoned lx = state_poisoned l -> core lx = core l -> state_store lx = with_pending None (state_store l) ->
      memory_at key lx es ls (at_ctime (log_meta f) (li_ctime io)) marker) as K.
    { intros lx Hlx1 Hlx2 Hlx3. destruct M. split; rewrite ?Hlx2, ?Hlx3; try done. }
    assert (forall m y, (Nat.min (length (log_of es)) (log_synced f) <= y <= length (log_of es))%nat ->
      keeps key (length (log_of es)) f {| log_bytes := log_of es; log_meta := m; log_synced := y; state_file := state_file f; durable_state := durable_state f |}) as Kc.
    { intros m y Hy. apply keeps_log; [done..|]. exists (length (log_of es)). split; [done|]. by rewrite Dl, take_app_length. }
    destruct (li_truncate io) eqn:Etr.
    2,3: simplify_eq; split; [done || apply Kc; lia|]; left; eexists; split_and!; [done..|intros []; congruence].
    unfold sync_log in H. cbn [log_bytes log_meta log_synced state_file durable_state] in H.
    destruct (li_custody io 2) eqn:E2'; cbn [mbind result_bind] in H; [|simplify_eq; split; [apply Kc; lia|]; left; eauto using bad_custody].
    simplify_eq. split; [apply Kc; lia|]. right. right. eexists _, es, ls. split; [done|]. split; [by left|]. split; [by apply K|]. do 2 (split; [done|]).
    split; cbn [log_bytes log_meta log_synced]; try done. rewrite Dl, length_app in Dsm. lia.
  - assert (n = length (record_bytes e)) as -> by lia. rewrite take_ge in Dl by done. rewrite <-log_of_snoc in Dl.
    rewrite <-length_app, <-log_of_snoc in H || (replace (length (log_of es) + length (record_bytes e))%nat with (length (log_of (es ++ [e]))) in H
      by (by rewrite log_of_snoc, length_app)).
    destruct (recover_leaf_at key l (log_meta f) es ls marker e lf M N) as (l2 & E2 & M2 & Hp2). rewrite E2 in H. cbn [mbind result_bind] in H.
    destruct (li_custody io 2) eqn:E2'; cbn [mbind result_bind] in H; [|simplify_eq; split; [done|]; left; eauto using bad_custody].
    simplify_eq. split; [done|]. right. right. eexists _, (es ++ [e]), (ls ++ [lf]). split; [done|]. split; [right; by exists e, lf|].
    split; [destruct M2; by split|]. do 2 (split; [done|]). by split.
Qed.

Lemma extended_committed es ls es' ls' : committed es ls -> extended es ls es' ls' -> committed es' ls'.
Proof. intros Hc [[-> ->]|(e & l & N & -> & ->)]; [done|]. by apply committed_snoc. Qed.

(** The restart state written after a recovery. *)
Lemma recovered_disk key f f' es ls es' ls' b bs :
  committed es ls -> extended es ls es' ls' -> recovered_at f f' es' -> Z.of_nat (length bs) <= MAX_STATE_BYTES ->
  decode_authenticated bs key = Ok (state_of es' (log_meta f') (ledger_mutation_marker (log_meta f')) None) ->
  disk_at key (with_state_file b bs f') es' ls' (ledger_mutation_marker (log_meta f')) None [].
Proof.
  intros Hc He [Rl Rs Ri Rsy Rst] Hb Hd. split; try done.
  - cbn. by rewrite app_nil_r.
  - by eapply extended_committed.
  - by exists bs.
Qed.

Lemma extended_longer es ls es' ls' : extended es ls es' ls' -> (length (log_of es) <= length (log_of es'))%nat.
Proof. intros [[-> _]|(e & l & _ & -> & _)]; [done|]. rewrite length_log_snoc. lia. Qed.

(** What a reopening may come to. *)
Definition reopened (io : LedgerIo) (key : arr 32) (f : LedgerFiles) (es : list bytes) (ls : list DisclosureLeaf) (r : ComplianceResult DisclosureLedger)
  (f' : LedgerFiles) : Prop :=
  keeps key (length (log_of es)) f f' /\
  ((exists x, r = Err x /\ state_file f' = state_file f /\ ~ io_good io) \/
   exists es' ls' marker, extended es ls es' ls' /\ disk_at key f' es' ls' marker None [] /\
     ((exists x, r = Err x /\ ~ io_good io) \/ exists l, r = Ok l /\ memory_at key l es' ls' (log_meta f') marker /\ state_poisoned l = false)).

Lemma open_finish_at io key l f0 f es ls es' ls' marker r f' :
  committed es ls -> extended es ls es' ls' -> memory_at key l es' ls' (log_meta f) marker -> pending_append (state_store l) = None ->
  state_poisoned l = false -> recovered_at f0 f es' -> keeps key (length (log_of es)) f0 f ->
  open_finish io true true l f = (r, f') -> reopened io key f0 es ls r f'.
Proof.
  intros Hc He M Hpe Hpo R K H. pose proof R as [Rl Rs Ri Rsy Rst]. unfold open_finish, refresh_store_file_stamp in H. cbn [orb negb andb] in H.
  rewrite (ma_log_len _ _ _ _ _ _ M), (ma_identity _ _ _ _ _ _ M), Rl, Z.eqb_refl, !bool_decide_true in H by done. cbn [negb orb guard mbind result_bind] in H.
  destruct (li_custody io 3) as [u3|] eqn:E3; cbn [mbind result_bind] in H; [|simplify_eq; split; [done|]; left; eauto using bad_custody].
  destruct (li_custody io 4) as [u4|] eqn:E4; cbn [mbind result_bind] in H; [|simplify_eq; split; [done|]; left; eauto using bad_custody].
  set (l2 := with_store _ l) in H.
  assert (memory_at key l2 es' ls' (log_meta f) (ledger_mutation_marker (log_meta f))) as M2 by (destruct M; by split).
  assert (pending_append (state_store l2) = None) as Hp2 by done.
  destruct (persist_state (li_replace io 0) l2 f) as [r2 f2] eqn:Ep.
  assert (io_good io -> r2 = Ok tt) as Hgood.
  { intros G. destruct (persist_ok _ _ _ _ _ _ f M2) as [bs Hbs]; [by rewrite Hp2|]. rewrite (ig_replace _ G) in Ep. congruence. }
  destruct (persist_at _ _ _ _ _ _ _ _ _ _ M2 ltac:(by rewrite <-Rl) ltac:(by rewrite Hp2) Ep) as [[-> [y ->]]|(b & bs & -> & Hbt & Hb & Hd)].
  - simplify_eq. split; [done|]. left. exists y. split; [done|]. split; [done|]. intros G. by specialize (Hgood G).
  - rewrite Hp2 in Hd. pose proof (recovered_disk key f0 f es ls es' ls' b bs Hc He R Hb Hd) as D.
    assert (keeps key (length (log_of es)) f0 (with_state_file b bs f)) as K'.
    { transitivity f; [done|]. eapply keeps_state; [exact Hd|]. cbn. pose proof (extended_longer _ _ _ _ He). lia. }
    destruct r2 as [[]|y]; simplify_eq; (split; [done|]); right; exists es', ls', (ledger_mutation_marker (log_meta f)); (split; [done|]); (split; [exact D|]);
      [right; eauto|left]. exists y. split; [done|]. intros G. by specialize (Hgood G).
Qed.

(** The checks before the replay. *)
Lemma open_checks_at io key f es ls marker pending tail :
  disk_at key f es ls marker pending tail ->
  open_checks true io key f = (_ ← li_custody io 0; Ok (Some (state_of es (log_meta f) marker pending))).
Proof.
  intros D. destruct (da_state _ _ _ _ _ _ _ D) as (bs & Hbs & Hb & Hd). unfold open_checks, read_persisted_state_guarded.
  rewrite Hbs, Hd, (proj2 (Z.ltb_ge MAX_STATE_BYTES _)) by done. cbn [require_offline_platform guard mbind result_bind fmap result_fmap].
  destruct (li_custody io 0); [|done]. cbn [mbind result_bind]. rewrite (proj2 (Z.ltb_ge MAX_LOG_BYTES _)) by apply D. cbn [guard mbind result_bind].
  rewrite (state_validate_at _ _ _ _ _ _ _ D), (da_log _ _ _ _ _ _ _ D). unfold log_of. rewrite <-(assoc_L (++)), take_app_length, !length_app.
  rewrite (proj2 (Nat.ltb_ge _ _)), bool_decide_true by (done || lia). done.
Qed.

Lemma open_at io secret f es ls marker pending tail :
  disk_at (derive_state_authentication_key secret) f es ls marker pending tail ->
  exists r f', open_for_platform true io secret f = Some (r, f') /\ reopened io (derive_state_authentication_key secret) f es ls r f'.
Proof.
  intros D. set (key := derive_state_authentication_key secret) in *. unfold open_for_platform. fold key. rewrite (open_checks_at _ _ _ _ _ _ _ _ D).
  destruct (li_custody io 0) as [u|x] eqn:E0; cbn [mbind result_bind]; [|do 2 eexists; split; [done|]; split; [done|]; left; eauto using bad_custody].
  destruct (da_state _ _ _ _ _ _ _ D) as (bs & Hbs & _).
  destruct (from_persisted_at _ _ _ _ _ _ _ D) as (l & -> & M & Hpe & Hpo). cbn [mbind option_bind].
  destruct (recover_bounded_tail io l f) as [r f1] eqn:Er.
  destruct (recover_at _ _ _ _ _ _ _ _ _ _ _ D M Hpe Er) as [K [(x & -> & Hs & Hg)|[(-> & -> & ->)|(l' & es' & ls' & -> & He & M' & Hpe' & Hpo' & R)]]].
  - do 2 eexists. split; [done|]. split; [done|]. left. eauto.
  - rewrite Hbs. cbn [is_some]. destruct (open_finish io false true l f) as [r f'] eqn:Ef. do 2 eexists. split; [done|].
    assert (tail = []) as -> by apply (da_tail _ _ _ _ _ _ _ D). unfold open_finish in Ef. cbn [orb negb andb] in Ef.
    rewrite (ma_log_len _ _ _ _ _ _ M), (ma_identity _ _ _ _ _ _ M), (ma_marker _ _ _ _ _ _ M), (da_log _ _ _ _ _ _ _ D), app_nil_r, Z.eqb_refl,
      <-(da_stamp _ _ _ _ _ _ _ D eq_refl), !bool_decide_true in Ef by done. cbn [negb orb guard mbind result_bind] in Ef.
    destruct (li_custody io 3) eqn:E3; cbn [mbind result_bind] in Ef; [|simplify_eq; split; [done|]; left; eauto using bad_custody]. simplify_eq.
    split; [done|]. right. exists es, ls, marker. split; [by left|]. split; [done|]. right. eauto.
  - assert (state_file f1 = Some bs) as -> by (by rewrite (rc_state _ _ _ R)). cbn [is_some].
    destruct (open_finish io true true l' f1) as [r f'] eqn:Ef. do 2 eexists. split; [done|].
    eapply open_finish_at; [by apply D|exact He|exact M'|done|by rewrite Hpo'|exact R|exact K|exact Ef].
Qed.

(** ** Reopening an arbitrary directory *)

(** A restart state that passes its checks, and whose log replays, describes the log. *)
Lemma replayed_state key f s l :
  take (length LOG_MAGIC) (log_bytes f) = LOG_MAGIC ->
  state_validate s (Z.of_nat (length (log_bytes f))) (ledger_file_identity (log_meta f)) (ledger_mutation_marker (log_meta f)) = Ok tt ->
  from_persisted (log_bytes f) key s = Some (Ok l) ->
  exists es ls tail, s = state_of es (log_meta f) (ps_mutation_marker s) (ps_pending_append s) /\ committed es ls /\
    log_bytes f = log_of es ++ tail /\ (tail = [] -> ps_mutation_marker s = ledger_mutation_marker (log_meta f)) /\
    state_store l = {| authentication_key := key; file_identity := ps_file_identity s; mutation_marker := ps_mutation_marker s;
      st_generation := ps_generation s; log_len := ps_log_len s; last_leaf_hash := ps_last_leaf_hash s; pending_append := ps_pending_append s |} /\
    forall e, ps_pending_append s = Some e -> exists lf, next_leaf es ls e lf.
Proof.
  intros Hm Hv H. unfold state_validate, checked_sub in Hv. destruct (ps_log_len s <=? Z.of_nat (length (log_bytes f))) eqn:Ele; [|done].
  cbn [ok_or mbind result_bind] in Hv. apply bind_Ok in Hv as (? & Hg%guard_Ok & Hv). apply bind_Ok in Hv as (? & Hn%guard_Ok & Hv).
  apply bind_Ok in Hv as (? & _ & Hv). apply orb_false_iff in Hg as [Hg Hstamp]. do 5 apply orb_false_iff in Hg as [Hg ?]. b2p.
  unfold from_persisted in H. cbv zeta in H. apply bind_Some in H as (st & Hs & H). apply Some_inj in H.
  apply bind_Ok in H as ([[o last] c] & -> & H). apply bind_Ok in H as (? & Hr%guard_Ok & H). apply bind_Ok in H as (? & Hp & H). apply Ok_inj in H. subst l.
  destruct (stream_sound _ (log_bytes f) (Z.to_nat (ps_log_len s)) [] [] core_new _ _ _ core_new_at Hm
    ltac:(change (length (log_of [])) with (length LOG_MAGIC); lia) Hs) as (es & ls & Hc & -> & Hlen & Ht & ->).
  b2p. rewrite (core_count _ _ _ Hc), (ca_root _ _ _ Hc) in *.
  exists es, ls, (drop (length (log_of es)) (log_bytes f)). rewrite Hlen in Ht. split_and!; try done.
  - destruct s; unfold state_of; cbn in *. f_equal; try congruence; lia.
  - by apply (core_committed c).
  - rewrite <-Ht at 1. by rewrite take_drop.
  - intros E. apply (f_equal length) in E. rewrite length_drop in E. cbn [length] in E. apply andb_false_iff in Hstamp as [?|Hst]; b2p; [lia|done].
  - intros e He. rewrite He in *. cbn [is_some andb] in Hn. apply guard_Ok in Hv. b2p.
    apply bind_Ok in Hp as (lf & Hd & Hp). exists lf. split; [done|split; lia| |lia].
    rewrite <-(ca_index _ _ _ Hc), Hp. by match goal with u : unit |- _ => destruct u end.
Qed.

(** A reopening that gets past its checks found the directory in order. *)
Lemma open_changes io secret f r f' :
  is_Some (state_file f) -> (log_synced f <= length (log_bytes f))%nat -> open_for_platform true io secret f = Some (r, f') ->
  (f' = f /\ exists x, r = Err x) \/
  exists es ls marker pending tail, disk_at (derive_state_authentication_key secret) f es ls marker pending tail.
Proof.
  intros [bs Hbs] Hsy H. set (key := derive_state_authentication_key secret) in *. unfold open_for_platform in H. fold key in H.
  destruct (open_checks true io key f) as [persisted|] eqn:Eo; [|left; simplify_eq; eauto].
  unfold open_checks in Eo. rewrite Hbs in Eo. apply bind_Ok in Eo as (? & _ & Eo). apply bind_Ok in Eo as (? & _ & Eo). apply bind_Ok in Eo as (p & Ep & Eo).
  apply bind_Ok in Eo as (? & Hsm%guard_Ok & Eo). apply bind_Ok in Eo as (? & _ & Eo). apply bind_Ok in Eo as (? & Hm%guard_Ok & Eo).
  apply bind_Ok in Eo as ([] & Hv & Eo). apply Ok_inj in Eo. subst p. b2p.
  unfold read_persisted_state_guarded in Ep. destruct (guard (MAX_STATE_BYTES <? Z.of_nat (length bs)) _) eqn:Eg; [|done]. cbn [mbind result_bind] in Ep.
  apply guard_Ok in Eg. b2p. destruct (decode_authenticated bs key) as [s|] eqn:Hd; [|done]. cbn in Ep. apply Ok_inj in Ep. subst persisted.
  apply bind_Some in H as ([l|] & Hb & H); [|left; simplify_eq; eauto].
  destruct (replayed_state _ _ _ _ Hm Hv Hb) as (es & ls & tail & Es & Hc & Hlog & Hst & Hstore & Hnext).
  unfold recover_bounded_tail in H. cbv zeta in H. rewrite Hstore in H. cbn [pending_append log_len] in H.
  assert (ps_log_len s = Z.of_nat (length (log_of es))) as Hll by (by rewrite Es). rewrite Hll, Nat2Z.id in H.
  destruct (_ ≫= _) as [u|] eqn:E0 in H; [|left; simplify_eq; eauto].
  assert (forall t, tail = t -> tail_ok es ls (ps_pending_append s) t -> disk_at key f es ls (ps_mutation_marker s) (ps_pending_append s) t) as K.
  { intros t <- Hok. split; try done. exists bs. rewrite <-Es. done. }
  destruct (ps_pending_append s) as [e|].
  - destruct (guard _ _) as [u'|] eqn:Eg2 in H; [|left; simplify_eq; eauto]. apply guard_Ok, orb_false_iff in Eg2 as [Eg1 Eg2%negb_false_iff%bool_decide_eq_true].
    rewrite Hlog, drop_app_length in Eg1, Eg2. b2p. right. eexists es, ls, _, _, tail. apply K; [done|]. split; [by apply Hnext|]. exists (length tail). done.
  - destruct (Nat.eqb_spec (length (log_bytes f)) (length (log_of es))) as [E|]; cbn [negb] in H; [|left; simplify_eq; eauto].
    right. eexists es, ls, _, _, []. apply K; [|done]. rewrite Hlog, length_app in E. destruct tail; [done|simpl in E; lia].
Qed.

(** Records are read back in one way only. *)
Lemma log_prefix es es' : Forall leaf_sized es -> Forall leaf_sized es' -> log_of es `prefix_of` log_of es' -> es `prefix_of` es'.
Proof.
  intros Hz Hz' H. unfold log_of in H. apply prefix_app_inv in H. revert es' Hz' H. induction Hz as [|e es [He0 He] Hz IH]; intros es' Hz' H; [by exists es'|].
  change (records (e :: es)) with (record_bytes e ++ records es) in H. destruct Hz' as [|e' es' [He0' He'] Hz'].
  { apply prefix_length in H. rewrite length_app, length_record in H. simpl in H. lia. }
  change (records (e' :: es')) with (record_bytes e' ++ records es') in H. unfold record_bytes in H. destruct H as [r H]. rewrite <-!(assoc_L (++)) in H.
  apply app_inj_1 in H as [Hl H]; [|by rewrite !length_be_bytes]. unfold MAX_LEAF_BYTES in *.
  apply (f_equal from_be_bytes) in Hl. rewrite !from_be_bytes_id in Hl by (unfold in_uint; lia).
  apply app_inj_1 in H as [-> H]; [|lia]. apply prefix_cons, IH; [done|]. by exists r.
Qed.

Lemma decoded_prefix es ls es' ls' : decoded es ls -> decoded es' ls' -> es `prefix_of` es' -> ls `prefix_of` ls'.
Proof.
  intros D D' [x ->]. apply Forall2_app_inv_l in D' as (k1 & k2 & D1 & _ & ->). exists k2. f_equal. clear -D D1. revert k1 D1.
  induction D as [|e l es ls He _ IH]; intros k1 D1; inversion D1 as [|e' l' es' ls' He' D1']; subst; [done|]. rewrite He in He'. apply Ok_inj in He' as ->.
  f_equal. by apply IH.
Qed.
End Runs.
