(* ===== verification/LedgerFlow.v ===== *)
(** Properties of the disclosure ledger over its whole life, and of the operations it gates: runs of appends that succeed or fail at any
    point, killed processes, power losses and reopenings, in any order. *)
From S2P Require Import Prelude Text Crypto Compliance Layout TraceRecord Merkle MerkleProofs MerkleFrontier Checkpoint Custody Approval LedgerLeaf LedgerState Ledger LedgerIndex LedgerMerkle LedgerRuns.

Section Flow.
Context {C : Crypto} (secret : arr 32).
Let key := derive_state_authentication_key secret.

(** * Runs *)

(** The process and its directory; [ln_acked] lists the leaves whose append returned [Ok]. *)
Record LedgerNode := { ln_ledger : option DisclosureLedger; ln_files : LedgerFiles; ln_acked : list DisclosureLeaf }.

(** A power loss keeps the synced bytes of the log and puts anything behind them; it leaves any change
    time, and the restart state as the directory was last synced or as it was last renamed. *)
Definition power_loss (tail : bytes) (t : Z * Z) (renamed : bool) (f : LedgerFiles) : LedgerFiles :=
  let bs := take (log_synced f) (log_bytes f) ++ tail in
  let state := if renamed then state_file f else durable_state f in
  {| log_bytes := bs; log_meta := at_ctime (log_meta f) t; log_synced := length bs; state_file := state; durable_state := state |}.

(** A power loss that spares the directory: the first [n] bytes of the log stay, no fewer than the restart
    state counts; and if that leaves nothing of an announced record, the change time is the one in
    the restart state. *)
Record spared (n : nat) (t : Z * Z) (renamed : bool) (f : LedgerFiles) : Prop := {
  sp_log : (log_synced f <= n <= length (log_bytes f))%nat;
  sp_state : renamed = true \/ durable_state f = state_file f;
  sp_stamp bs s : state_file f = Some bs -> decode_authenticated bs key = Ok s ->
    ps_log_len s <= Z.of_nat n /\ (ps_log_len s = Z.of_nat n -> ps_mutation_marker s = ledger_mutation_marker (at_ctime (log_meta f) t));
}.

(** What the ledger is built for: any append, a killed process, a power loss that spares the directory, and
    a reopening that does not stop between the truncation of the log and the rewriting of the restart
    state. *)
Inductive graceful_step (st : LedgerNode) : LedgerNode -> Prop :=
  | gs_append io leaf l l' f' :
      ln_ledger st = Some l -> leaf_wf leaf -> append io leaf l (ln_files st) = (Ok tt, l', f') ->
      graceful_step st {| ln_ledger := Some l'; ln_files := f'; ln_acked := ln_acked st ++ [leaf] |}
  | gs_append_failed io leaf l x l' f' :
      ln_ledger st = Some l -> leaf_wf leaf -> append io leaf l (ln_files st) = (Err x, l', f') ->
      graceful_step st {| ln_ledger := Some l'; ln_files := f'; ln_acked := ln_acked st |}
  | gs_killed : graceful_step st {| ln_ledger := None; ln_files := ln_files st; ln_acked := ln_acked st |}
  | gs_power_loss n t renamed : spared n t renamed (ln_files st) ->
      graceful_step st {| ln_ledger := None; ln_acked := ln_acked st;
        ln_files := power_loss (drop (log_synced (ln_files st)) (take n (log_bytes (ln_files st)))) t renamed (ln_files st) |}
  | gs_open io l f' :
      ln_ledger st = None -> open_for_platform true io secret (ln_files st) = Some (Ok l, f') ->
      graceful_step st {| ln_ledger := Some l; ln_files := f'; ln_acked := ln_acked st |}
  | gs_open_failed io x f' :
      ln_ledger st = None -> open_for_platform true io secret (ln_files st) = Some (Err x, f') ->
      f' = ln_files st \/ state_file f' <> state_file (ln_files st) ->
      graceful_step st {| ln_ledger := None; ln_files := f'; ln_acked := ln_acked st |}.

(** Any run: power losses that spare nothing but the synced bytes, reopenings that fail anywhere. *)
Inductive ledger_step (st : LedgerNode) : LedgerNode -> Prop :=
  | ls_graceful st' : graceful_step st st' -> ledger_step st st'
  | ls_power_loss tail t renamed :
      ledger_step st {| ln_ledger := None; ln_files := power_loss tail t renamed (ln_files st); ln_acked := ln_acked st |}
  | ls_open_failed io x f' :
      ln_ledger st = None -> open_for_platform true io secret (ln_files st) = Some (Err x, f') ->
      ledger_step st {| ln_ledger := None; ln_files := f'; ln_acked := ln_acked st |}.

(** A ledger just created. *)
Definition ledger_started (st : LedgerNode) : Prop :=
  exists io m l f, create_for_platform true io m secret None = (Ok l, Some f) /\
    st = {| ln_ledger := Some l; ln_files := f; ln_acked := [] |}.

Definition ledger_reachable (st : LedgerNode) : Prop := exists st0, ledger_started st0 /\ rtc ledger_step st0 st.
Definition gracefully_reachable (st : LedgerNode) : Prop := exists st0, ledger_started st0 /\ rtc graceful_step st0 st.

Lemma gracefully_is_reachable st : gracefully_reachable st -> ledger_reachable st.
Proof.
  intros (st0 & H0 & H). exists st0. split; [done|]. apply (rtc_congruence (fun x => x) (R := graceful_step)); [|done]. intros x y. apply ls_graceful.
Qed.

(** * Invariants *)

(** The directory is in order, and the memory of a usable ledger matches it. *)
Definition in_order (st : LedgerNode) : Prop :=
  exists es ls marker pending tail, disk_at key (ln_files st) es ls marker pending tail /\
    forall l, ln_ledger st = Some l -> state_poisoned l = false -> memory_at key l es ls (log_meta (ln_files st)) marker.

(** The acknowledged leaves are in the durable part of the log, and both restart states count them. *)
Record recorded (st : LedgerNode) (es : list bytes) (ls : list DisclosureLeaf) : Prop := {
  re_decoded : decoded es ls;
  re_sized : Forall leaf_sized es;
  re_acked : ln_acked st `sublist_of` ls;
  re_safe : safe key (length (log_of es)) (ln_files st);
  re_log : take (length (log_of es)) (log_bytes (ln_files st)) = log_of es;
}.

Definition node_inv (st : LedgerNode) : Prop :=
  (exists es ls, recorded st es ls) /\ forall l, ln_ledger st = Some l -> state_poisoned l = false -> in_order st.

(** What is recorded is a beginning of the log a directory in order holds. *)
Lemma recorded_prefix st es ls es' ls' marker pending tail :
  recorded st es ls -> disk_at key (ln_files st) es' ls' marker pending tail ->
  (length (log_of es) <= length (log_of es'))%nat /\ ls `prefix_of` ls'.
Proof.
  intros [Rd Rz Ra [Rs Rc _] Rl] D. destruct (da_state _ _ _ _ _ _ _ D) as (bs & Hbs & _ & Hd). pose proof (Rc bs _ (or_introl Hbs) Hd) as Hle. cbn in Hle.
  split; [lia|]. pose proof (da_committed _ _ _ _ _ _ _ D) as [Cd Cz _ _]. eapply decoded_prefix; [exact Rd|exact Cd|]. apply log_prefix; [done..|].
  rewrite <-Rl, (da_log _ _ _ _ _ _ _ D), take_app_le by lia. apply prefix_take.
Qed.

Lemma recorded_keeps st es ls f' n l' :
  recorded st es ls -> (length (log_of es) <= n)%nat -> keeps key n (ln_files st) f' ->
  recorded {| ln_ledger := l'; ln_files := f'; ln_acked := ln_acked st |} es ls.
Proof. intros [Rd Rz Ra Rs Rl] Hn K. destruct (K _ Hn Rs) as [K1 K2]. split; try done. cbn. by rewrite K2. Qed.

Lemma started_inv st : ledger_started st -> in_order st /\ recorded st [] [].
Proof.
  intros (io & m & l & f & H & ->). unfold create_for_platform in H. cbn [require_offline_platform mbind result_bind is_some guard] in H.
  destruct (li_custody io 0) as [u|]; cbn [mbind result_bind] in H; [|by simplify_eq]. cbv zeta in H. fold key in H.
  set (f0 := {| log_bytes := LOG_MAGIC |}) in H. destruct (persist_state (li_replace io 0) (fresh_ledger key m) f0) as [r f1] eqn:Ep.
  destruct r as [[]|]; simplify_eq.
  assert (memory_at key (fresh_ledger key m) [] [] m (ledger_mutation_marker m)) as M by (split; try done; apply core_new_at).
  destruct (persist_at _ _ _ _ _ _ _ _ _ _ M ltac:(done) ltac:(done) Ep) as [[_ [x Hx]]|(b & bs & -> & Hbt & Hb & Hd)]; [done|].
  rewrite (Hbt eq_refl) in *. split.
  - exists [], [], (ledger_mutation_marker m), None, []. split; [|by intros l [= <-] _].
    split; try done; [by apply (core_committed core_new), core_new_at|by exists bs].
  - split; try done; [constructor|]. split; [done| |split; by eexists]. intros bs' s [[= <-]|[= <-]] Hs; rewrite Hd in Hs; apply Ok_inj in Hs; by subst s.
Qed.

Lemma state_of_inode es m m' marker p : same_inode m m' -> state_of es m marker p = state_of es m' marker p.
Proof. intros H. unfold state_of. by rewrite (identity_same _ _ H). Qed.

(** A power loss keeps what is recorded, whatever else it does. *)
Lemma power_loss_recorded st tail t renamed es ls :
  recorded st es ls -> recorded {| ln_ledger := None; ln_files := power_loss tail t renamed (ln_files st); ln_acked := ln_acked st |} es ls.
Proof.
  intros [Rd Rz Ra [Rs Rc [R1 R2]] Rl]. split; try done; cbn.
  - split; cbn; [rewrite length_app, length_take; lia| |by destruct renamed]. intros bs s Hb. apply Rc. destruct renamed, Hb; auto.
  - rewrite take_app_le, take_take by (rewrite length_take; lia). by rewrite Nat.min_l by lia.
Qed.

Lemma power_loss_in_order st n t renamed :
  in_order st -> spared n t renamed (ln_files st) ->
  in_order {| ln_ledger := None; ln_acked := ln_acked st;
    ln_files := power_loss (drop (log_synced (ln_files st)) (take n (log_bytes (ln_files st)))) t renamed (ln_files st) |}.
Proof.
  intros (es & ls & marker & pending & tail & D & _) [[Hn1 Hn2] Hk Hst]. pose proof D as [Dl Dc (bs & Hbs & Hb & Hd) Dt Dsm Dsy Dm].
  destruct (Hst _ _ Hbs Hd) as [Hge Hmk]. cbn [ps_log_len ps_mutation_marker state_of] in Hge, Hmk.
  assert (take (log_synced (ln_files st)) (log_bytes (ln_files st)) ++ drop (log_synced (ln_files st)) (take n (log_bytes (ln_files st))) =
    log_of es ++ take (n - length (log_of es)) tail) as E.
  { replace (take (log_synced (ln_files st)) (log_bytes (ln_files st))) with (take (log_synced (ln_files st)) (take n (log_bytes (ln_files st))))
      by (rewrite take_take; f_equal; lia).
    rewrite take_drop, Dl, take_app, (take_ge (log_of es)) by lia. done. }
  rewrite Dl, length_app in Hn2. exists es, ls, marker, pending, (take (n - length (log_of es)) tail). split; [|done].
  split; cbn [ln_files log_bytes log_meta log_synced state_file durable_state power_loss].
  - exact E.
  - done.
  - exists bs. split; [destruct renamed; [done|by destruct Hk as [?| ->]]|]. split; [done|]. by rewrite <-(state_of_inode es (log_meta (ln_files st))) by done.
  - destruct pending as [e|]; cbn [tail_ok] in *; [|subst tail; apply take_nil]. destruct Dt as [N (k & Hk' & ->)].
    split; [done|]. exists (Nat.min (n - length (log_of es)) k). split; [lia|]. apply take_take.
  - rewrite E, length_app, length_take. rewrite Dl, length_app in Dsm. lia.
  - done.
  - intros Et. apply Hmk. apply (f_equal length) in Et. rewrite length_take in Et. cbn [length] in Et. lia.
Qed.

(** An append on a node whose directory is in order. *)
Lemma append_in_order st io leaf l r l' f' acked :
  in_order st -> ln_ledger st = Some l -> leaf_wf leaf -> append io leaf l (ln_files st) = (r, l', f') ->
  in_order {| ln_ledger := Some l'; ln_files := f'; ln_acked := acked |}.
Proof.
  intros (es & ls & marker & pending & tail & D & Hm) Hl W E. destruct (state_poisoned l) eqn:Ep.
  { rewrite poisoned_append in E by done. simplify_eq. exists es, ls, marker, pending, tail. split; [done|]. intros ? [= <-] Hp. cbn in *. congruence. }
  destruct (append_at _ _ _ _ _ _ _ _ _ _ _ _ _ D (Hm l Hl Ep) W E) as [[(y & mk & pd & tl & _ & D' & M')|(e & N & He & D' & Hr)] _].
  - exists es, ls, mk, pd, tl. split; [done|]. by intros ? [= <-] Hp; apply M'.
  - exists (es ++ [e]), (ls ++ [leaf]), (ledger_mutation_marker (log_meta f')), None, []. split; [done|].
    destruct Hr as [(y & _ & Hp)|(_ & _ & _ & _ & M')]; intros ? [= <-] Hp'; [congruence|done].
Qed.

(** A reopening in a directory in order. *)
Lemma open_in_order st io r f' acked :
  in_order st -> open_for_platform true io secret (ln_files st) = Some (r, f') ->
  match r with Ok _ => True | Err _ => f' = ln_files st \/ state_file f' <> state_file (ln_files st) end ->
  in_order {| ln_ledger := ok r; ln_files := f'; ln_acked := acked |}.
Proof.
  intros (es & ls & marker & pending & tail & D & Hm) E Hx. destruct (open_at io secret _ _ _ _ _ _ D) as (r' & f'' & E' & _ & Hr). rewrite E in E'. simplify_eq.
  destruct Hr as [(y & -> & Hs & _)|(es' & ls' & mk & He & D' & Hr)].
  - destruct Hx as [->|Hx]; [|done]. exists es, ls, marker, pending, tail. by split.
  - exists es', ls', mk, None, []. split; [done|]. destruct Hr as [(y & -> & _)|(l2 & -> & M' & Hp)]; [done|]. by intros ? [= <-] _.
Qed.

Lemma graceful_in_order st st' : graceful_step st st' -> in_order st -> in_order st'.
Proof.
  intros H I. destruct H as [io leaf l l' f' Hl W E|io leaf l x l' f' Hl W E| |n t renamed Hsp|io l f' Hl E|io x f' Hl E Hx].
  - by eapply append_in_order.
  - by eapply append_in_order.
  - destruct I as (es & ls & marker & pending & tail & D & _). exists es, ls, marker, pending, tail. by split.
  - by apply power_loss_in_order.
  - by apply (open_in_order st io (Ok l) f').
  - by apply (open_in_order st io (Err x) f').
Qed.

(** A failed append and any reopening keep what is recorded; an acknowledged leaf is recorded. *)
Lemma append_recorded st io leaf l r l' f' es ls :
  recorded st es ls -> (state_poisoned l = false -> in_order st) -> ln_ledger st = Some l -> leaf_wf leaf ->
  append io leaf l (ln_files st) = (r, l', f') ->
  exists es' ls', recorded {| ln_ledger := Some l'; ln_files := f'; ln_acked := match r with Ok _ => ln_acked st ++ [leaf] | Err _ => ln_acked st end |} es' ls'.
Proof.
  intros R I Hl W E. destruct (state_poisoned l) eqn:Ep.
  { rewrite poisoned_append in E by done. simplify_eq. exists es, ls. by apply (recorded_keeps st es ls _ _ _ R (le_n _)). }
  destruct (I eq_refl) as (es0 & ls0 & marker & pending & tail & D & Hm). destruct (recorded_prefix _ _ _ _ _ _ _ _ R D) as [Hle [k Hk]].
  destruct (append_at _ _ _ _ _ _ _ _ _ _ _ _ _ D (Hm l Hl Ep) W E) as [A K].
  assert (forall x, r = Err x -> exists es' ls', recorded {| ln_ledger := Some l'; ln_files := f'; ln_acked := match r with Ok _ => ln_acked st ++ [leaf] | Err _ => ln_acked st end |} es' ls') as Herr
    by (intros x ->; exists es, ls; by apply (recorded_keeps st es ls f' _ _ R Hle)).
  destruct A as [(y & ? & ? & ? & -> & _)|(e & N & He & D' & [(y & -> & _)|(-> & Hs & Hd & _ & M')])]; [by eapply Herr..|].
  exists (es0 ++ [e]), (ls0 ++ [leaf]). destruct (da_committed _ _ _ _ _ _ _ D') as [Cd Cz _ _]. destruct (da_state _ _ _ _ _ _ _ D') as (bs & Hbs & _ & Hdec).
  pose proof (da_log _ _ _ _ _ _ _ D') as Hlog. rewrite app_nil_r in Hlog. split; cbn [ln_files ln_acked]; try done.
  - apply sublist_app; [|done]. rewrite Hk. apply sublist_inserts_r, R.
  - split; [rewrite Hs, Hlog; lia| |rewrite Hd, Hbs; split; by eexists]. unfold counts. rewrite Hd, Hbs.
    intros bs' s [[= <-]|[= <-]] Hs'; rewrite Hdec in Hs'; apply Ok_inj in Hs'; subst s; cbn; lia.
  - by rewrite Hlog, take_ge.
Qed.

Lemma open_recorded st io r f' es ls :
  recorded st es ls -> open_for_platform true io secret (ln_files st) = Some (r, f') ->
  recorded {| ln_ledger := ok r; ln_files := f'; ln_acked := ln_acked st |} es ls.
Proof.
  intros R E. pose proof (re_safe _ _ _ R) as [Hs _ [Hst _]].
  destruct (open_changes io secret _ _ _ Hst ltac:(lia) E) as [[-> [x ->]]|(es0 & ls0 & marker & pending & tail & D)].
  - by apply (recorded_keeps st es ls _ _ _ R (le_n _)).
  - destruct (recorded_prefix _ _ _ _ _ _ _ _ R D) as [Hle _]. destruct (open_at io secret _ _ _ _ _ _ D) as (r' & f'' & E' & K & _).
    rewrite E in E'. simplify_eq. by apply (recorded_keeps st es ls _ _ _ R Hle).
Qed.

(** A ledger that opened is in order, whatever the directory held. *)
Lemma opened_in_order st io l f' acked es ls :
  recorded st es ls -> open_for_platform true io secret (ln_files st) = Some (Ok l, f') ->
  in_order {| ln_ledger := Some l; ln_files := f'; ln_acked := acked |}.
Proof.
  intros R E. pose proof (re_safe _ _ _ R) as [Hs _ [Hst _]].
  destruct (open_changes io secret _ _ _ Hst ltac:(lia) E) as [[-> [x ?]]|(es0 & ls0 & marker & pending & tail & D)]; [done|].
  apply (open_in_order {| ln_ledger := None; ln_files := ln_files st; ln_acked := acked |} io (Ok l) f' acked); [|done..].
  exists es0, ls0, marker, pending, tail. by split.
Qed.

Lemma ledger_step_inv st st' : ledger_step st st' -> node_inv st -> node_inv st'.
Proof.
  intros H [(es & ls & R) I].
  assert (forall io r f', ln_ledger st = None -> open_for_platform true io secret (ln_files st) = Some (r, f') ->
    node_inv {| ln_ledger := ok r; ln_files := f'; ln_acked := ln_acked st |}) as Hopen.
  { intros io r f' _ E. split; [exists es, ls; by eapply open_recorded|]. destruct r as [l|x]; [|done]. intros _ _ _. by eapply opened_in_order. }
  destruct H as [st' [io leaf l l' f' Hl W E|io leaf l x l' f' Hl W E| |n t renamed Hsp|io l f' Hl E|io x f' Hl E Hx]|tail t renamed|io x f' Hl E].
  - split; [by apply (append_recorded st io leaf l (Ok tt) l' f' es ls R (I l Hl) Hl W)|]. intros l2 [= <-] Hp. destruct (state_poisoned l) eqn:Ep; [by rewrite poisoned_append in E|].
    eapply append_in_order; [by eapply I|done..].
  - split; [by apply (append_recorded st io leaf l (Err x) l' f' es ls R (I l Hl) Hl W)|]. intros l2 [= <-] Hp. destruct (state_poisoned l) eqn:Ep.
    { rewrite poisoned_append in E by done. simplify_eq. cbn in Hp. congruence. }
    eapply append_in_order; [by eapply I|done..].
  - split; [exists es, ls; by apply (recorded_keeps st es ls _ _ _ R (le_n _))|done].
  - split; [exists es, ls; by apply power_loss_recorded|done].
  - by apply (Hopen io (Ok l)).
  - by apply (Hopen io (Err x)).
  - split; [exists es, ls; by apply power_loss_recorded|done].
  - by apply (Hopen io (Err x)).
Qed.

Lemma ledger_reachable_inv st : ledger_reachable st -> node_inv st.
Proof.
  intros (st0 & H0 & H). apply started_inv in H0 as [I R]. assert (node_inv st0) as I0 by (split; [by exists [], []|done]). clear I R.
  induction H as [|a b c H _ IH]; [done|]. apply IH. by eapply ledger_step_inv.
Qed.

Lemma graceful_reachable_inv st : gracefully_reachable st -> in_order st.
Proof.
  intros (st0 & H0 & H). apply started_inv in H0 as [I _]. induction H as [|a b c H _ IH]; [done|]. apply IH. by eapply graceful_in_order.
Qed.

(** * Reading *)

(** Every leaf can be read back, and only a failing custody check prevents it. *)
Definition reads_back (l : DisclosureLedger) (log : bytes) (ls : list DisclosureLeaf) : Prop :=
  forall custody i, leaf custody l log i =
    match ls !! i with Some lf => _ ← fst custody; _ ← snd custody; Ok (Some lf) | None => Ok None end.

Lemma leaf_reads l es ls r : core_at (core l) es ls -> reads_back l (log_of es ++ r) ls.
Proof.
  intros Hc c i. unfold leaf. destruct (es !! i) as [e|] eqn:E.
  - rewrite (encoded_leaf_at l es ls r Hc c i e E). pose proof (ca_decoded _ _ _ Hc) as Hd.
    destruct (Forall2_lookup_l _ _ _ _ _ Hd E) as (lf & Hl & Hdec). rewrite Hl. destruct (fst c); [|done]. cbn [mbind result_bind].
    destruct (snd c); [|done]. cbn [mbind result_bind]. by rewrite Hdec.
  - apply lookup_ge_None in E. unfold encoded_leaf, leaf_count. rewrite (core_count _ _ _ Hc), (proj2 (Z.leb_le _ _)) by lia. cbn [mbind result_bind].
    rewrite (proj2 (lookup_ge_None ls i)); [done|]. by rewrite (decoded_length _ _ (ca_decoded _ _ _ Hc)).
Qed.

Lemma insert_pending_perm p ps : insert_pending p ps ≡ₚ p :: ps.
Proof.
  induction ps as [|q ps IH]; [done|]. cbn [insert_pending]. destruct (fst p <=? fst q); [done|]. rewrite IH. apply perm_swap.
Qed.

(** The requests reported as open are those of the index. *)
Lemma incomplete_ids_elem l id : id ∈ incomplete_request_ids l <-> is_Some (incomplete (index (core l)) !! id).
Proof.
  unfold incomplete_request_ids. assert (forall ps, fold_right insert_pending [] ps ≡ₚ ps) as Hp.
  { induction ps as [|p ps IH]; [done|]. cbn [fold_right]. by rewrite insert_pending_perm, IH. }
  rewrite (Hp _), map_map, list_elem_of_fmap. split.
  - intros ([id' a] & -> & H%elem_of_map_to_list). by exists a.
  - intros [a H]. exists (id, a). split; [done|]. by apply elem_of_map_to_list.
Qed.

(** * Reopening an arbitrary directory *)

Lemma recover_sound io l f b l' f' es ls :
  core_at (core l) es ls -> log_len (state_store l) = Z.of_nat (length (log_of es)) ->
  take (length (log_of es)) (log_bytes f) = log_of es -> (forall e, pending_append (state_store l) = Some e -> leaf_sized e) ->
  recover_bounded_tail io l f = (Ok (b, l'), f') ->
  exists es' ls', core_at (core l') es' ls' /\ log_bytes f' = log_of es'.
Proof.
  intros Hc Hl Ht Hz H. unfold recover_bounded_tail in H. cbv zeta in H. rewrite Hl, Nat2Z.id in H.
  destruct (_ ≫= _) as [u|] eqn:E0; [|done]. destruct (pending_append (state_store l)) as [e|].
  2:{ destruct (Nat.eqb_spec (length (log_bytes f)) (length (log_of es))) as [E|]; [|done]. cbn [negb] in H. simplify_eq. exists es, ls.
      split; [done|]. by rewrite take_ge in Ht by lia. }
  destruct (guard _ _) as [u'|] eqn:Eg in H; [|done]. apply guard_Ok, orb_false_iff in Eg as [_ Eg%negb_false_iff%bool_decide_eq_true]. set (tail := drop (length (log_of es)) (log_bytes f)) in *.
  assert (log_bytes f = log_of es ++ tail) as Hlog by (unfold tail; rewrite <-Ht at 1; by rewrite take_drop).
  destruct (Nat.ltb_spec (length tail) (length (record_bytes e))) as [Hlt|Hge].
  - unfold truncate_log in H. destruct (li_truncate io); try done. cbn [mbind result_bind] in H. destruct (li_custody io 2); [|done].
    cbn [mbind result_bind] in H. simplify_eq. exists es, ls. split; [done|]. cbn. by rewrite Hlog, take_app_length.
  - destruct (recover_leaf e _ _ l) as [l2|] eqn:Er; cbn [mbind result_bind] in H; [|done]. destruct (li_custody io 2); [|done].
    cbn [mbind result_bind] in H. simplify_eq. unfold recover_leaf in Er. apply bind_Ok in Er as (lf & Hd & Er). apply bind_Ok in Er as ([] & Hv & Er).
    apply bind_Ok in Er as (? & Hg%guard_Ok & Er). apply bind_Ok in Er as (c & Ha & Er). apply Ok_inj in Er. subst l2. b2p.
    unfold leaf_count in Hg. rewrite (core_count _ _ _ Hc) in Hg.
    destruct (absorb_leaf_at _ _ _ _ _ Hc Hd (Hz e eq_refl) Hv Hg) as (c' & Ha' & Hc'). rewrite Ha in Ha'. apply Ok_inj in Ha'. subst c'.
    exists (es ++ [e]), (ls ++ [lf]). split; [done|]. rewrite Hlog, log_of_snoc. f_equal.
    by rewrite Eg, take_ge.
Qed.

Lemma from_persisted_sound log s l :
  from_persisted log key s = Some (Ok l) -> take (length LOG_MAGIC) log = LOG_MAGIC ->
  Z.of_nat (length LOG_MAGIC) <= ps_log_len s ->
  exists es ls, core_at (core l) es ls /\ log_len (state_store l) = Z.of_nat (length (log_of es)) /\
    take (length (log_of es)) log = log_of es /\ pending_append (state_store l) = ps_pending_append s.
Proof.
  intros H Hm Hl. unfold from_persisted in H. cbv zeta in H. apply bind_Some in H as (st & Hs & H). apply Some_inj in H.
  apply bind_Ok in H as ([[o last] c] & -> & H). apply bind_Ok in H as (? & _ & H). apply bind_Ok in H as (? & _ & H). apply Ok_inj in H. subst l.
  destruct (stream_sound _ log (Z.to_nat (ps_log_len s)) [] [] core_new _ _ _ core_new_at Hm ltac:(change (length (log_of [])) with (length LOG_MAGIC); lia) Hs)
    as (es & ls & Hc & _ & Hlen & Ht & _).
  exists es, ls. cbn. split; [done|]. split; [lia|]. split; [by rewrite <-Hlen|done].
Qed.

Lemma persist_log o l f r f' : persist_state o l f = (r, f') -> log_bytes f' = log_bytes f.
Proof.
  unfold persist_state, write_private_state_guarded. intros H. destruct (_ ≫= _); [|by simplify_eq].
  destruct (_ <? _); [by simplify_eq|]. by destruct o; simplify_eq.
Qed.

Lemma open_sound sup io f l f' :
  open_for_platform sup io secret f = Some (Ok l, f') -> exists es ls, core_at (core l) es ls /\ log_bytes f' = log_of es.
Proof.
  intros H. unfold open_for_platform in H. fold key in H. destruct (open_checks sup io key f) as [persisted|] eqn:Eo; [|done].
  unfold open_checks in Eo. apply bind_Ok in Eo as (? & _ & Eo). apply bind_Ok in Eo as (? & _ & Eo). apply bind_Ok in Eo as (p & Ep & Eo).
  apply bind_Ok in Eo as (? & _ & Eo). apply bind_Ok in Eo as (? & _ & Eo). apply bind_Ok in Eo as (? & Hm%guard_Ok & Eo).
  apply bind_Ok in Eo as (? & Hv & Eo). apply Ok_inj in Eo. subst p. b2p. apply bind_Some in H as (built & Hb & H). destruct built as [l0|]; [|done].
  assert (exists es ls, core_at (core l0) es ls /\ log_len (state_store l0) = Z.of_nat (length (log_of es)) /\
    take (length (log_of es)) (log_bytes f) = log_of es /\ forall e, pending_append (state_store l0) = Some e -> leaf_sized e) as (es & ls & Hc & Hl & Ht & Hz).
  { destruct persisted as [s|].
    - unfold state_validate in Hv. apply bind_Ok in Hv as (? & _ & Hv). apply bind_Ok in Hv as (? & Hg%guard_Ok & Hv). apply bind_Ok in Hv as (? & _ & Hv).
      apply bind_Ok in Hv as (? & _ & Hv). apply orb_false_iff in Hg as [Hg _]. b2p.
      destruct (from_persisted_sound _ _ _ Hb Hm ltac:(lia)) as (es & ls & Hc & Hl & Ht & Hp). exists es, ls. do 3 (split; [done|]).
      intros e He. rewrite Hp in He. rewrite He in Hv. apply guard_Ok in Hv. b2p. split; lia.
    - apply Some_inj, Ok_inj in Hb. subst l0. exists [], []. split; [apply core_new_at|]. split; [done|]. split; [done|]. done. }
  destruct (recover_bounded_tail io l0 f) as [[[b l1]|] f1] eqn:Er; [|done].
  destruct (recover_sound _ _ _ _ _ _ _ _ Hc Hl Ht Hz Er) as (es' & ls' & Hc' & Hlog). exists es', ls'.
  apply Some_inj in H. unfold open_finish in H. destruct (_ ≫= _) as [l2|] eqn:E; [|done].
  assert (core l2 = core l1) as Hcore.
  { apply bind_Ok in E as (? & _ & E). apply bind_Ok in E as (? & _ & E). unfold refresh_store_file_stamp in E. case_match; inv_ok; by subst. }
  destruct (b || negb (is_some (state_file f1))); [|simplify_eq; by rewrite Hcore].
  destruct (persist_state (li_replace io 0) l2 f1) as [r2 f2] eqn:Ep'. pose proof (persist_log _ _ _ _ _ Ep') as Hp. by case_match; simplify_eq; rewrite Hcore, Hp.
Qed.

(** * Gating an operation *)

(** An append only extends the log, and what was durable stays so. *)
Lemma append_grows io lf l f r l' f' :
  append io lf l f = (r, l', f') -> (log_synced f <= length (log_bytes f))%nat ->
  log_bytes f `prefix_of` log_bytes f' /\ (log_synced f <= log_synced f')%nat.
Proof.
  intros H Hs. assert (forall b bs, log_bytes f `prefix_of` log_bytes (with_state_file b bs f) /\ (log_synced f <= log_synced (with_state_file b bs f))%nat) as K0 by done.
  assert (forall o l0 g r0 g', persist_state o l0 g = (r0, g') -> log_bytes f `prefix_of` log_bytes g /\ (log_synced f <= log_synced g)%nat ->
    log_bytes f `prefix_of` log_bytes g' /\ (log_synced f <= log_synced g')%nat) as K.
  { intros o l0 g r0 g' Hp Hg. unfold persist_state, write_private_state_guarded in Hp. destruct (_ ≫= _); [|by simplify_eq].
    destruct (_ <? _); [by simplify_eq|]. by destruct o; simplify_eq. }
  unfold append in H. destruct (append_plan lf l) as [p|]; [|by simplify_eq]. destruct (validate_current_store_file_stamp _ l f); [|by simplify_eq].
  destruct (persist_state (li_replace io 0) _ f) as [r1 f1] eqn:E1. apply K in E1 as K1; [|done]. destruct r1; [|by simplify_eq].
  destruct (li_custody io 1); [|by simplify_eq]. destruct (write_record io (ap_encoded p) f1) as [r2 f2] eqn:E2.
  assert (log_bytes f `prefix_of` log_bytes f2 /\ (log_synced f <= log_synced f2)%nat) as K2.
  { unfold write_record in E2. destruct (_ <? _); [by simplify_eq|]. destruct K1 as [K1 K1'].
    destruct (li_written io) as [[|n]|]; [by simplify_eq|simplify_eq; split; [by apply prefix_app_r|done]|].
    destruct (li_synced io); simplify_eq; (split; [by apply prefix_app_r|]); [|done].
    cbn. apply prefix_length in K1. rewrite length_app. lia. }
  destruct r2 as [[o n]|]; [|by simplify_eq]. destruct (li_custody io 2); [|by simplify_eq].
  unfold append_finish in H. destruct (refresh_store_file_stamp _ _ f2) as [l3|]; [|by simplify_eq].
  destruct (persist_state (li_replace io 1) l3 f2) as [r3 f3] eqn:E3. apply K in E3; [|done]. by destruct r3; simplify_eq.
Qed.

(** The approvers of an authorized request, as they are committed to. *)
Lemma authorized_approvers r :
  request_inv r -> rq_state r = Authorized ->
  exists k1 k2 s1 s2, k1 <> k2 /\ signed_within r k1 /\ signed_within r k2 /\
    rq_approvers r = [commit (lit "approver") s1 (vec_to_list k1); commit (lit "approver") s2 (vec_to_list k2)].
Proof.
  intros I Ha. pose proof (ri_state r I) as Hn. rewrite Ha in Hn. unfold approvers_of in Hn. pose proof (ri_salts r I) as Hs.
  pose proof (ri_signed r I) as Hf. pose proof (ri_keys r I) as Hd. pose proof (ri_committed r I) as Hc.
  destruct (rq_approver_keys r) as [|k1 [|k2 [|]]]; try done. destruct (rq_approver_salts r) as [|s1 [|s2 [|]]]; try done.
  exists k1, k2, s1, s2. apply NoDup_cons in Hd as [Hd _]. rewrite list_elem_of_singleton in Hd.
  apply Forall_cons in Hf as [H1 [H2 _]%Forall_cons]. done.
Qed.

Lemma ensure_authorized_Ok t r u r1 : ensure_authorized t r = (Ok u, r1) -> r1 = r /\ rq_state r = Authorized /\ t <= rq_expires_at_ms r.
Proof.
  unfold ensure_authorized. case_match eqn:E; [|done]. b2p. intros H. destruct (expire_live t r) as [He Ht]; [by right|]. rewrite He in *.
  by simplify_eq.
Qed.

(** An append that returned [Ok], on a ledger of a reachable node. *)
Lemma acked_append io lf l f l' f' es ls marker pending tail :
  disk_at key f es ls marker pending tail -> (state_poisoned l = false -> memory_at key l es ls (log_meta f) marker) -> leaf_wf lf ->
  append io lf l f = (Ok tt, l', f') ->
  exists e, leaf_decode e = Ok lf /\ disk_at key f' (es ++ [e]) (ls ++ [lf]) (ledger_mutation_marker (log_meta f')) None [] /\
    memory_at key l' (es ++ [e]) (ls ++ [lf]) (log_meta f') (ledger_mutation_marker (log_meta f')) /\ log_synced f' = length (log_bytes f').
Proof.
  intros D M W H. destruct (state_poisoned l) eqn:Ep; [by rewrite poisoned_append in H|].
  destruct (append_at _ _ _ _ _ _ _ _ _ _ _ _ _ D (M eq_refl) W H) as [[(x & ? & ? & ? & Hx & _)|(e & N & _ & D' & [(x & Hx & _)|(_ & Hs & _ & _ & M')])] _]; [done..|].
  exists e. split; [apply N|]. done.
Qed.

(** What [complete] returns [Ok] for. *)
Lemma complete_Ok {T} io a t (r : ComplianceResult (DisclosureOutput T)) l f v l' f' :
  complete io a t r l f = (Ok v, l', f') ->
  exists out, r = Ok out /\ v = value out /\
    append io (Completion {| dc_request_id := ad_request_id a; dc_timestamp_ms := t; dc_status := Succeeded; dc_record_count := record_count out;
                             dc_result_commitment := result_commitment out |}) l f = (Ok tt, l', f').
Proof.
  unfold complete. destruct r as [out|x].
  - destruct (negb _); [|destruct (append_failure _ _ _ _ _) as [[[?|?] ?] ?]; done].
    destruct (append _ _ _ _) as [[[[]|?] ?] ?] eqn:E; intros H; simplify_eq. eauto.
  - destruct (append_failure _ _ _ _ _) as [[[?|?] ?] ?]; done.
Qed.

Lemma complete_grows {T} io a t (r : ComplianceResult (DisclosureOutput T)) l f res l' f' :
  complete io a t r l f = (res, l', f') -> (log_synced f <= length (log_bytes f))%nat ->
  log_bytes f `prefix_of` log_bytes f' /\ (log_synced f <= log_synced f')%nat.
Proof.
  unfold complete, append_failure. intros H Hs. destruct r as [out|x]; [destruct (negb _)|].
  all: destruct (append _ _ _ _) as [[r1 l1] f1] eqn:E; apply append_grows in E; [|done]; by destruct r1; simplify_eq.
Qed.

(** * Properties *)

(** C22: no acknowledged leaf is lost.  After any run of appends that succeed or fail at any point, killed
    processes, reopenings that fail anywhere and power losses that spare only the synced bytes of the log
    (with anything behind them, any change time, and either restart state), every acknowledged leaf
    is in order in the durable part of the log; and whatever ledger later opens holds well-sequenced leaves
    and nothing else, the acknowledged ones among them in order, reads each back at its place, and has
    the root of the log.  If moreover every power loss spared the directory ([spared]: the restart state is
    not ahead of the log and the change time it names was kept) and no reopening stopped between
    the truncation of the log and the rewriting of the restart state, then reopening succeeds under an
    operating system that answers. *)
Theorem acked_leaves_survive st :
  ledger_reachable st ->
  (exists es ls, log_of es `prefix_of` take (log_synced (ln_files st)) (log_bytes (ln_files st)) /\ decoded es ls /\ ln_acked st `sublist_of` ls) /\
  (forall io l f', open_for_platform true io secret (ln_files st) = Some (Ok l, f') ->
     exists es ls, log_bytes f' = log_of es /\ decoded es ls /\ well_sequenced ls /\ ln_acked st `sublist_of` ls /\
       reads_back l (log_bytes f') ls /\ root (core l) = log_root (from_leaves (map leaf_hash es))) /\
  (gracefully_reachable st -> forall io, io_good io -> exists l f', open_for_platform true io secret (ln_files st) = Some (Ok l, f')).
Proof.
  intros [(es & ls & R) _]%ledger_reachable_inv. split_and!.
  - exists es, ls. destruct R as [Rd _ Ra [Rs _ _] Rl]. split; [|done]. rewrite <-Rl.
    rewrite <-(Nat.min_l (length (log_of es)) (log_synced (ln_files st))) at 1 by lia. rewrite <-take_take. apply prefix_take.
  - intros io l f' E. pose proof (open_recorded _ _ _ _ _ _ R E) as R'. pose proof (re_safe _ _ _ R) as [Hs _ [Hst _]].
    destruct (open_changes io secret _ _ _ Hst ltac:(lia) E) as [[-> [x ?]]|(es0 & ls0 & marker & pending & tail & D)]; [done|].
    destruct (open_at io secret _ _ _ _ _ _ D) as (r' & f'' & E' & _ & Hr). rewrite E in E'. simplify_eq.
    destruct Hr as [(x & ? & _)|(es' & ls' & mk & _ & D' & [(x & ? & _)|(l2 & [= <-] & M & _)])]; [done..|].
    destruct (recorded_prefix _ _ _ _ _ _ _ _ R' D') as [_ [k Hk]]. pose proof (ma_core _ _ _ _ _ _ M) as Hc. cbn [ln_files] in *.
    exists es', ls'. rewrite (da_log _ _ _ _ _ _ _ D'). split; [apply app_nil_r|]. split; [apply Hc|]. split; [apply Hc|].
    split; [rewrite Hk; apply sublist_inserts_r, R|]. split; [by apply leaf_reads|]. rewrite log_root_range. apply Hc.
  - intros (es0 & ls0 & marker & pending & tail & D & _)%graceful_reachable_inv io G.
    destruct (open_at io secret _ _ _ _ _ _ D) as (r & f' & E & _ & [(x & _ & _ & Hb)|(es' & ls' & mk & He & D' & [(x & _ & Hb)|(l & -> & M & _)])]); [done..|].
    by exists l, f'.
Qed.

(** C23: whatever is in the directory, a ledger that opens is sound.  If reopening succeeds on
    arbitrary files, the log is exactly a sequence of records whose leaves decode and obey the rules of
    the log (one intent per request; a completion closes, once, an earlier intent), every leaf reads
    back, the root is the root of the log, and the open requests it reports are those with an intent
    and no completion. *)
Theorem opened_log_sound sup io f l f' :
  open_for_platform sup io secret f = Some (Ok l, f') ->
  exists es ls, log_bytes f' = log_of es /\ decoded es ls /\ well_sequenced ls /\
    reads_back l (log_bytes f') ls /\ root (core l) = log_root (from_leaves (map leaf_hash es)) /\
    forall id, (id ∈ incomplete_request_ids l <-> is_Some (incomplete (index (core l)) !! id)) /\
      (is_Some (incomplete (index (core l)) !! id) <->
       (exists i, Intent i ∈ ls /\ di_request_id i = id) /\ forall c, Completion c ∈ ls -> dc_request_id c <> id).
Proof.
  intros (es & ls & Hc & Hlog)%open_sound. exists es, ls. split; [done|]. split; [apply Hc|]. split; [apply Hc|].
  split; [rewrite Hlog, <-(app_nil_r (log_of es)); by apply leaf_reads|]. split; [rewrite log_root_range; apply Hc|].
  intros id. split; [apply incomplete_ids_elem|]. rewrite (ca_index _ _ _ Hc). unfold is_Some. setoid_rewrite index_incomplete; [|apply Hc..]. split.
  - intros (p & a & i & Hl & Hi & _ & Hn). split; [|done]. exists i. split; [by eapply list_elem_of_lookup_2|done].
  - intros [(i & [a Hl]%list_elem_of_lookup & Hi) Hn]. do 3 eexists. eauto.
Qed.

(** C24: the proofs of the block-compressed ledger are the reference ones.  For every ledger that
    opened, with one stored hash per 1024 finished leaves and single leaves read back from the file, the
    inclusion and consistency proofs are those of the full Merkle log over all leaves, and the ledger's
    own check of an inclusion proof never fails: the only errors are those of the custody checks around
    the reading of a leaf. *)
Theorem ledger_proofs_reference sup io f l f' :
  open_for_platform sup io secret f = Some (Ok l, f') ->
  exists es, log_bytes f' = log_of es /\ forall custody n,
    checked custody (ledger_inclusion_proof custody l (log_bytes f') n) (inclusion_proof (from_leaves (map leaf_hash es)) n (length es)) /\
    checked custody (ledger_consistency_proof custody l (log_bytes f') n) (consistency_proof (from_leaves (map leaf_hash es)) n (length es)).
Proof.
  intros (es & ls & Hc & Hlog)%open_sound. exists es. split; [done|]. intros custody n. rewrite Hlog, <-(app_nil_r (log_of es)).
  by apply (ledger_proofs_eq custody l es ls).
Qed.

(** C21: no disclosure without its public record.  When an approved request is executed on a ledger of
    any reachable node, either the operation did not run: the outcome is an error, its world is untouched
    and any other operation gives the same; or it ran once, in a directory whose log ended in the
    durable intent leaf of this request, with commitments to two different keys that signed it in its
    window, after leaves that include every acknowledged one.  A value is returned only if
    the operation produced it there for this very authorization and the matching completion leaf, stamped by
    the clock read after it, follows the intent in the log. *)
Theorem disclosure_is_recorded {T W} st draws j p ks created expires sensitive r0 openings r io io' t clock
    (operation : AuthorizedDisclosure -> LedgerFiles -> W -> ComplianceResult (DisclosureOutput T) * W) l w res r' l' f' w' :
  ledger_reachable st -> ln_ledger st = Some l ->
  request_new draws j p ks created expires sensitive = Some (Ok (r0, openings)) -> rtc request_step r0 r ->
  Forall key_id_wf ks -> in_uint 64 t -> (forall w c, fst (clock w) = Ok c -> in_uint 64 c) ->
  (forall a f w out, fst (operation a f w) = Ok out -> in_uint 32 (record_count out)) ->
  execute io io' t clock operation r l (ln_files st) w = (res, r', l', f', w') ->
  ((exists x, res = Err x) /\ w' = w /\ forall operation', execute io io' t clock operation' r l (ln_files st) w = (res, r', l', f', w')) \/
  exists authorization es ls e f1,
    consume t r = (Ok authorization, r') /\
    log_bytes f1 = log_of (es ++ [e]) /\ log_synced f1 = length (log_bytes f1) /\
    w' = snd (clock (snd (operation authorization f1 w))) /\
    log_of (es ++ [e]) `prefix_of` log_bytes f' /\ (length (log_of (es ++ [e])) <= log_synced f')%nat /\
    decoded es ls /\ ln_acked st `sublist_of` ls /\ leaf_decode e = Ok (Intent (intent_of r t)) /\
    (exists k1 k2 s1 s2, k1 <> k2 /\ signed_within r0 k1 /\ signed_within r0 k2 /\
       di_approver_commitments (intent_of r t) = [commit (lit "approver") s1 (vec_to_list k1); commit (lit "approver") s2 (vec_to_list k2)]) /\
    forall v, res = Ok v -> exists out c e', fst (operation authorization f1 w) = Ok out /\ v = value out /\
      fst (clock (snd (operation authorization f1 w))) = Ok c /\ t <= c /\ log_bytes f' = log_of (es ++ [e; e']) /\
      leaf_decode e' = Ok (Completion {| dc_request_id := rq_request_id r0; dc_timestamp_ms := c; dc_status := Succeeded;
                                         dc_record_count := record_count out; dc_result_commitment := result_commitment out |}).
Proof.
  intros [(aes & als & R) I]%ledger_reachable_inv Hl Hnew Hrun Hkeys Ht Hclock Hcount H.
  apply request_new_Ok in Hnew as (I0 & _ & _ & _ & _ & _ & Hks & _). apply request_checks_Ok in Hks as (_ & _ & _ & Hperm & _).
  destruct (request_run_inv _ _ Hrun I0) as [Ir (Sid & _ & _ & Sk & Sc & Se & _)]. unfold execute in H |- *.
  destruct (ensure_authorized t r) as [[u|x] r1] eqn:Ea; [|simplify_eq; left; eauto].
  apply ensure_authorized_Ok in Ea as (-> & Hauth & Hexp).
  assert (leaf_wf (Intent (intent_of r t))) as Wf by (split; [done|]; cbn; by rewrite Sk, Hperm).
  destruct (append io (Intent (intent_of r t)) l (ln_files st)) as [[[[]|x] l1] f1] eqn:E1; [|simplify_eq; left; eauto].
  destruct (state_poisoned l) eqn:Ep; [by rewrite poisoned_append in E1|]. destruct (I l Hl Ep) as (es & ls & marker & pending & tail & D & M).
  destruct (recorded_prefix _ _ _ _ _ _ _ _ R D) as [_ [k Hk]]. assert (ln_acked st `sublist_of` ls) as Ha by (rewrite Hk; apply sublist_inserts_r, R).
  destruct (acked_append _ _ _ _ _ _ _ _ _ _ _ D (M l Hl) Wf E1) as (e & He & D1 & M1 & Hs1).
  destruct (consume t r) as [[a|x] r2] eqn:Ec; [|simplify_eq; left; eauto]. pose proof (consume_Ok _ _ _ _ Ec) as (_ & _ & _ & Hauthz).
  assert (log_bytes f1 = log_of (es ++ [e])) as Hlog1 by (by rewrite (da_log _ _ _ _ _ _ _ D1), app_nil_r).
  assert (exists k1 k2 s1 s2, k1 <> k2 /\ signed_within r0 k1 /\ signed_within r0 k2 /\
    di_approver_commitments (intent_of r t) = [commit (lit "approver") s1 (vec_to_list k1); commit (lit "approver") s2 (vec_to_list k2)]) as Happ.
  { destruct (authorized_approvers r Ir Hauth) as (k1 & k2 & s1 & s2 & Hne & H1 & H2 & Hap). exists k1, k2, s1, s2.
    unfold signed_within, approval_preimage in *. rewrite Sid, Sc, Se in H1, H2. done. }
  right. destruct (operation a f1 w) as [out w1] eqn:Eop. destruct (clock w1) as [cl w2] eqn:Ecl.
  assert (log_of (es ++ [e]) `prefix_of` log_bytes f1 /\ (length (log_of (es ++ [e])) <= log_synced f1)%nat) as [Hp1 Hy1] by (rewrite Hs1, Hlog1; done).
  exists a, es, ls, e, f1. rewrite Eop. cbn [fst snd]. rewrite Ecl. cbn [fst snd].
  destruct cl as [c|x]; [|simplify_eq; split_and!; try done; apply D]. destruct (c <? t) eqn:Et; [simplify_eq; split_and!; try done; apply D|]. b2p.
  destruct (complete io' a c out l1 f1) as [[res2 l2] f2] eqn:E2. simplify_eq.
  destruct (complete_grows _ _ _ _ _ _ _ _ _ E2 ltac:(by rewrite Hs1)) as [Hg1 Hg2]. rewrite Hlog1 in Hg1. rewrite Hs1, Hlog1 in Hg2.
  split_and!; try done; [apply D|]. intros v ->. apply complete_Ok in E2 as (o & -> & -> & E2).
  destruct (fun W2 => acked_append _ _ _ _ _ _ _ _ _ _ _ D1 (fun _ => M1) W2 E2) as (e' & He' & D2 & _ & _);
    [split; cbn; [exact (Hclock w1 c (f_equal fst Ecl))|exact (Hcount _ _ _ o (f_equal fst Eop))]|].
  exists o, c, e'. do 4 (split; [done|]). split; [by rewrite (da_log _ _ _ _ _ _ _ D2), app_nil_r, <-(assoc_L (++))|].
  cbn [ad_request_id] in He'. by rewrite Sid in He'.
Qed.
End Flow.
