(* ===== verification/LedgerWindows.v ===== *)
(** The three windows in which a disclosure ledger becomes unusable: a recovery that truncates the log and
    stops before it rewrites the restart state, a recovered record that was never synced, and a power
    loss that does not keep the change time of the log. *)
From S2P Require Import Prelude Text Crypto Compliance Layout TraceRecord Merkle MerkleProofs MerkleFrontier Custody Approval LedgerLeaf LedgerState Ledger LedgerIndex LedgerMerkle LedgerRuns LedgerFlow.

Section Windows.
Context {C : Crypto} (secret : arr 32).
Let key := derive_state_authentication_key secret.

(** The ledger cannot be opened any more, whatever the operating system answers. *)
Definition unopenable (f : LedgerFiles) : Prop :=
  forall sup io, exists x, open_for_platform sup io secret f = Some (Err x, f).

(** A restart state that fails its checks against the log closes the ledger for good. *)
Lemma invalid_state_unopenable f bs s x :
  state_file f = Some bs -> decode_authenticated bs key = Ok s ->
  state_validate s (Z.of_nat (length (log_bytes f))) (ledger_file_identity (log_meta f)) (ledger_mutation_marker (log_meta f)) = Err x ->
  unopenable f.
Proof.
  intros Hbs Hd Hv sup io. unfold open_for_platform, open_checks. fold key.
  destruct (require_offline_platform sup); cbn [mbind result_bind]; [|by eexists].
  destruct (li_custody io 0); cbn [mbind result_bind]; [|by eexists].
  rewrite Hbs. unfold read_persisted_state_guarded. rewrite Hd. destruct (guard (MAX_STATE_BYTES <? _) _); cbn [mbind result_bind fmap result_fmap]; [|by eexists].
  destruct (guard (MAX_LOG_BYTES <? _) _); cbn [mbind result_bind]; [|by eexists].
  destruct (guard (length (log_bytes f) <? _)%nat _); cbn [mbind result_bind]; [|by eexists].
  destruct (guard (negb _) _); cbn [mbind result_bind]; [|by eexists]. rewrite Hv. by eexists.
Qed.

(** The first checks of a state whose log is as long as it says, but was touched since. *)
Lemma stale_marker_rejected es m marker p meta :
  marker <> ledger_mutation_marker meta ->
  exists x, state_validate (state_of es m marker p) (Z.of_nat (length (log_of es))) (ledger_file_identity meta) (ledger_mutation_marker meta) = Err x.
Proof.
  intros Hne. unfold state_validate, checked_sub. cbn [ps_log_len state_of]. rewrite Z.leb_refl. cbn [ok_or mbind result_bind].
  rewrite Z.sub_diag. cbn [ps_mutation_marker state_of]. rewrite (bool_decide_eq_false_2 (marker = _)) by done. cbn [Z.eqb negb andb].
  rewrite orb_true_r. by eexists.
Qed.

Lemma short_log_rejected es m marker p len id mk :
  len < Z.of_nat (length (log_of es)) -> exists x, state_validate (state_of es m marker p) len id mk = Err x.
Proof.
  intros H. unfold state_validate, checked_sub. cbn [ps_log_len state_of]. rewrite (proj2 (Z.leb_gt (Z.of_nat (length (log_of es))) len)) by done. by eexists.
Qed.

(** Reopening over a torn record, up to the rewriting of the restart state. *)
Lemma open_torn io f es ls marker e n x :
  disk_at key f es ls marker (Some e) (take n (record_bytes e)) -> (n < length (record_bytes e))%nat ->
  (forall k, li_custody io k = Ok tt) -> li_truncate io = Truncated -> li_replace io 0 = NotReplaced x ->
  exists y f', open_for_platform true io secret f = Some (Err y, f') /\ log_bytes f' = log_of es /\
    log_meta f' = at_ctime (log_meta f) (li_ctime io) /\ state_file f' = state_file f.
Proof.
  intros D Hn Hc Ht Hr. unfold open_for_platform. fold key. rewrite (open_checks_at _ _ _ _ _ _ _ _ D), Hc. cbn [mbind result_bind].
  destruct (from_persisted_at _ _ _ _ _ _ _ D) as (l & -> & M & Hpe & Hpo). cbn [mbind option_bind].
  destruct (tail_bounds _ _ _ _ (da_tail _ _ _ _ _ _ _ D)) as [Hrt _]. pose proof (da_log _ _ _ _ _ _ _ D) as Dl.
  unfold recover_bounded_tail. rewrite Hpe, (ma_log_len _ _ _ _ _ _ M), Nat2Z.id, !Hc, Dl, length_app. cbn [mbind result_bind].
  rewrite (proj2 (Z.ltb_ge _ _)) by lia.
  replace (Z.of_nat (length (log_of es) + length (take n (record_bytes e))) - Z.of_nat (length (log_of es)))
    with (Z.of_nat (length (take n (record_bytes e)))) by lia.
  rewrite (proj2 (Z.ltb_ge _ _)) by lia. cbn [orb guard mbind result_bind]. rewrite drop_app_length, length_take, Nat.min_l by lia.
  rewrite (proj2 (Nat.ltb_ge _ _)), bool_decide_true by (done || lia). cbn [negb orb guard]. rewrite (proj2 (Nat.ltb_lt _ _)) by done.
  unfold truncate_log. rewrite Ht, Dl, take_app_length. cbn [mbind result_bind].
  unfold open_finish. cbn [orb]. destruct (_ ≫= _) as [l2|y]; [|do 2 eexists; done].
  unfold persist_state, write_private_state_guarded. rewrite Hr. destruct (_ ≫= _); [|do 2 eexists; done]. destruct (_ <? _); do 2 eexists; done.
Qed.

(** Reopening over a whole announced record: the log is not touched, so it is not synced either. *)
Lemma open_complete io f es ls marker e :
  disk_at key f es ls marker (Some e) (record_bytes e) -> io_good io ->
  exists l bs, open_for_platform true io secret f = Some (Ok l, with_state_file true bs f) /\
    decode_authenticated bs key = Ok (state_of (es ++ [e]) (log_meta f) (ledger_mutation_marker (log_meta f)) None).
Proof.
  intros D G. pose proof (ig_custody _ G) as Hc. unfold open_for_platform. fold key. rewrite (open_checks_at _ _ _ _ _ _ _ _ D), Hc. cbn [mbind result_bind].
  destruct (from_persisted_at _ _ _ _ _ _ _ D) as (l & -> & M & Hpe & Hpo). cbn [mbind option_bind].
  destruct (tail_bounds _ _ _ _ (da_tail _ _ _ _ _ _ _ D)) as [Hrt _]. pose proof (da_log _ _ _ _ _ _ _ D) as Dl.
  destruct (da_tail _ _ _ _ _ _ _ D) as [[lf N] _]. destruct (recover_leaf_at key l (log_meta f) es ls marker e lf M N) as (l2 & E2 & M2 & _).
  assert (recover_bounded_tail io l f = (Ok (true, with_store (with_pending None (state_store l2)) l2), f)) as ->.
  { unfold recover_bounded_tail. rewrite Hpe, (ma_log_len _ _ _ _ _ _ M), Nat2Z.id, !Hc, Dl, length_app. cbn [mbind result_bind].
    rewrite (proj2 (Z.ltb_ge _ _)) by lia.
    replace (Z.of_nat (length (log_of es) + length (record_bytes e)) - Z.of_nat (length (log_of es))) with (Z.of_nat (length (record_bytes e))) by lia.
    rewrite (proj2 (Z.ltb_ge _ _)) by lia. cbn [orb guard mbind result_bind]. rewrite drop_app_length, take_ge, Nat.ltb_irrefl, bool_decide_true by done.
    cbn [negb orb guard]. rewrite <-length_app, <-log_of_snoc, E2. done. }
  set (l3 := with_store _ l2). destruct (da_state _ _ _ _ _ _ _ D) as (bs0 & Hbs0 & _). rewrite Hbs0. cbn [is_some].
  assert (memory_at key l3 (es ++ [e]) (ls ++ [lf]) (log_meta f) marker) as M3 by (destruct M2; by split).
  rewrite <-log_of_snoc in Dl. unfold open_finish, refresh_store_file_stamp. cbn [orb negb andb]. rewrite !Hc, Dl.
  rewrite (ma_log_len _ _ _ _ _ _ M3), (ma_identity _ _ _ _ _ _ M3), Z.eqb_refl, !bool_decide_true by done. cbn [negb orb guard mbind result_bind].
  set (l4 := with_store _ l3).
  assert (memory_at key l4 (es ++ [e]) (ls ++ [lf]) (log_meta f) (ledger_mutation_marker (log_meta f))) as M4 by (destruct M3; by split).
  destruct (persist_ok _ _ _ _ _ _ f M4) as [bs Hbs]; [done|]. rewrite (ig_replace _ G), Hbs. exists l4, bs. split; [done|].
  destruct (persist_at _ _ _ _ _ _ _ _ _ _ M4 ltac:(rewrite <-Dl; apply D) ltac:(done) Hbs) as [[_ [y Hy]]|(b' & bs' & E & _ & _ & Hd)]; [done|].
  assert (bs' = bs) as -> by (injection E; done). done.
Qed.

(** C27: three windows close the ledger for good.  (1) If the recovery of a torn append truncates the log,
    its change time moves, and the process stops before the restart state is rewritten, no later
    reopening succeeds.  (2) The recovery of a whole but unsynced record commits it in the restart state
    without syncing the log; a power loss that drops the record then leaves a state ahead of the log, and
    no later reopening succeeds.  (3) The restart state names the change time of the log, which
    [sync_data] need not make durable: a power loss after an acknowledged append that keeps every byte and
    the restart state, but leaves another change time, makes every later reopening fail. *)
Theorem reopening_windows io f es ls marker e n x :
  (disk_at key f es ls marker (Some e) (take n (record_bytes e)) -> (n < length (record_bytes e))%nat ->
   (forall k, li_custody io k = Ok tt) -> li_truncate io = Truncated -> li_replace io 0 = NotReplaced x ->
   ledger_mutation_marker (at_ctime (log_meta f) (li_ctime io)) <> marker ->
   exists y f', open_for_platform true io secret f = Some (Err y, f') /\ unopenable f') /\
  (disk_at key f es ls marker (Some e) (record_bytes e) -> log_synced f = length (log_of es) -> io_good io ->
   exists l f', open_for_platform true io secret f = Some (Ok l, f') /\ forall t renamed, unopenable (power_loss [] t renamed f')) /\
  (disk_at key f es ls marker None [] -> log_synced f = length (log_bytes f) -> durable_state f = state_file f ->
   forall t renamed, ledger_mutation_marker (at_ctime (log_meta f) t) <> marker ->
     log_bytes (power_loss [] t renamed f) = log_bytes f /\ state_file (power_loss [] t renamed f) = state_file f /\
     unopenable (power_loss [] t renamed f)).
Proof.
  split_and!.
  - intros D Hn Hc Ht Hr Hm. destruct (open_torn _ _ _ _ _ _ _ _ D Hn Hc Ht Hr) as (y & f' & E & Hlog & Hmeta & Hst).
    exists y, f'. split; [done|]. destruct (da_state _ _ _ _ _ _ _ D) as (bs & Hbs & _ & Hd).
    destruct (stale_marker_rejected es (log_meta f) marker (Some e) (log_meta f')) as [z Hz]; [by rewrite Hmeta|].
    eapply invalid_state_unopenable; [by rewrite Hst|exact Hd|]. rewrite Hlog. exact Hz.
  - intros D Hs G. destruct (open_complete _ _ _ _ _ _ D G) as (l & bs & E & Hd). exists l, (with_state_file true bs f). split; [done|]. intros t renamed.
    edestruct (short_log_rejected (es ++ [e])) as [z Hz]; [|eapply invalid_state_unopenable; [by destruct renamed|exact Hd|exact Hz]].
    cbn. rewrite Hs, (da_log _ _ _ _ _ _ _ D), take_app_length, app_nil_r, length_log_snoc. lia.
  - intros D Hs Hds t renamed Hm. assert (log_bytes (power_loss [] t renamed f) = log_bytes f) as Hlog by (cbn; by rewrite Hs, take_ge, app_nil_r).
    assert (state_file (power_loss [] t renamed f) = state_file f) as Hst by (by destruct renamed).
    do 2 (split; [done|]). destruct (da_state _ _ _ _ _ _ _ D) as (bs & Hbs & _ & Hd).
    destruct (stale_marker_rejected es (log_meta f) marker None (log_meta (power_loss [] t renamed f))) as [z Hz]; [cbn; congruence|].
    eapply invalid_state_unopenable; [by rewrite Hst|exact Hd|]. rewrite Hlog, (da_log _ _ _ _ _ _ _ D), app_nil_r. exact Hz.
Qed.
End Windows.
