(* ===== verification/LedgerDemo.v ===== *)
(** A concrete disclosure: a request approved by two keys, executed on a new ledger, a torn append, and
    reopenings.  The properties of the approval and of the ledger apply to it. *)
From S2P Require Import Prelude Text Crypto Compliance Layout TraceRecord Merkle MerkleProofs MerkleFrontier Checkpoint Custody Approval LedgerLeaf LedgerState Ledger LedgerIndex LedgerIntent LedgerMerkle LedgerRuns LedgerFlow LedgerWindows.

#[local] Existing Instance toy_crypto.
#[local] Existing Instance toy_laws.

(** * The request *)

Definition demo_kid : ComplianceKeyId := key_id_new Attribution TestJurisdiction (vreplicate 32 x01) 10 1.
Definition demo_draws : list (arr 32) := [vreplicate 32 x11; vreplicate 32 x12; vreplicate 32 x13].
Definition demo_material : SensitiveRequestMaterial :=
  {| order_reference := lit "order 42"; requester_identity := lit "investigator"; selectors := lit "203.0.113.7" |}.
Definition demo_new : option (ComplianceResult (DisclosureRequest * CommitmentOpenings)) :=
  request_new demo_draws TestJurisdiction Attribution [demo_kid] 100 200 demo_material.

Definition no_request : DisclosureRequest := {|
  rq_request_id := zeroes 32; rq_jurisdiction := Us; rq_purpose := Attribution; rq_key_ids := []; rq_created_at_ms := 0;
  rq_expires_at_ms := 0; rq_order_commitment := zeroes 32; rq_requester_commitment := zeroes 32; rq_selector_commitment := zeroes 32;
  rq_approver_keys := []; rq_approvers := []; rq_approver_salts := []; rq_state := Denied |}.
Definition demo_pair : DisclosureRequest * CommitmentOpenings := Eval vm_compute in
  match demo_new with
  | Some (Ok p) => p
  | _ => (no_request, {| order_salt := zeroes 32; requester_salt := zeroes 32; selector_salt := zeroes 32 |})
  end.
Definition demo_r0 : DisclosureRequest := Eval vm_compute in fst demo_pair.

Lemma demo_new_Ok :
  request_new demo_draws TestJurisdiction Attribution [demo_kid] 100 200 demo_material = Some (Ok (demo_r0, snd demo_pair)).
Proof. vm_compute. reflexivity. Qed.

Definition demo_salt : arr 32 := x15 ::: zeroes 31.
Definition demo_approve (seed salt : arr 32) (r : DisclosureRequest) : option (ComplianceResult unit * DisclosureRequest) :=
  approve [salt] (public_key seed) 150 (ed25519_sign seed (approval_preimage r 150)) r.
Definition approved_by (seed salt : arr 32) (r : DisclosureRequest) : DisclosureRequest :=
  match demo_approve seed salt r with Some (_, r) => r | None => no_request end.
Definition demo_r1 : DisclosureRequest := Eval vm_compute in approved_by (vreplicate 32 x02) (vreplicate 32 x14) demo_r0.
Definition demo_r2 : DisclosureRequest := Eval vm_compute in approved_by (vreplicate 32 x03) demo_salt demo_r1.

Lemma demo_approved : rtc request_step demo_r0 demo_r2.
Proof.
  eapply rtc_l; [apply (step_approve _ [vreplicate 32 x14] (public_key (vreplicate 32 x02)) 150
    (ed25519_sign (vreplicate 32 x02) (approval_preimage demo_r0 150)) (Ok tt) demo_r1); vm_compute; reflexivity|].
  apply rtc_once. apply (step_approve _ [demo_salt] (public_key (vreplicate 32 x03)) 150
    (ed25519_sign (vreplicate 32 x03) (approval_preimage demo_r1 150)) (Ok tt) demo_r2); vm_compute; reflexivity.
Qed.

Definition demo_auth : AuthorizedDisclosure := {|
  ad_request_id := rq_request_id demo_r0; ad_jurisdiction := TestJurisdiction; ad_purpose := Attribution; ad_key_ids := [demo_kid] |}.

Lemma demo_consumed : consume 160 demo_r2 = (Ok demo_auth, with_state Consumed demo_r2).
Proof. vm_compute. reflexivity. Qed.

Lemma two_person_rule_witness :
  (exists k1 k2, k1 <> k2 /\ signed_within demo_r0 k1 /\ signed_within demo_r0 k2) /\ 160 <= 200.
Proof.
  destruct (two_person_rule _ _ _ _ _ _ _ _ _ _ _ _ _ demo_new_Ok demo_approved demo_consumed) as (H & H' & _). exact (conj H H').
Defined.

Lemma no_lone_collision x : ~ collision_in [x; x].
Proof. intros (a & b & Ha & Hb & Hne & _). set_solver. Qed.

(** The three texts of the request open its commitments, and nothing else does short of a collision. *)
Lemma approval_binds_request_witness :
  same_request demo_r0 demo_r0 /\
  verifies_order (snd demo_pair) demo_r0 (lit "order 42") = true /\
  verifies_requester (snd demo_pair) demo_r0 (lit "investigator") = true /\
  verifies_selectors (snd demo_pair) demo_r0 (lit "203.0.113.7") = true /\
  forall raw, Z.of_nat (length raw) < 2 ^ 64 -> verifies_requester (snd demo_pair) demo_r0 raw = true ->
    raw = lit "investigator" \/
    collision_in [commit_input (lit "requester") (requester_salt (snd demo_pair)) raw;
                  commit_input (lit "requester") (requester_salt (snd demo_pair)) (lit "investigator")].
Proof.
  assert (Forall key_id_wf [demo_kid]) as W by (constructor; [split; vm_compute; split; congruence|constructor]).
  assert (in_uint 64 100 /\ in_uint 64 200 /\ in_uint 64 150) as (H1 & H2 & H3) by (vm_compute; repeat split; congruence).
  destruct (approval_binds_request _ _ _ _ _ _ _ _ _ _ _ _ _ _ _ _ _ _ 150 150 demo_new_Ok demo_new_Ok W W H1 H2 H1 H2 H3 H3 eq_refl)
    as (_ & [(Hs & Hb)|Hx]).
  - split; [exact Hs|]. split; [vm_compute; reflexivity|]. split; [vm_compute; reflexivity|]. split; [vm_compute; reflexivity|].
    intros raw Hl Hv. destruct (Hb raw (lit "investigator") Hl ltac:(vm_compute; reflexivity)) as (_ & Hr & _).
    apply Hr; [exact Hv|vm_compute; reflexivity].
  - destruct (no_lone_collision _ Hx).
Defined.

(** * The ledger *)

Definition demo_secret : arr 32 := vreplicate 32 x21.
Definition demo_io (t : Z) : LedgerIo := {|
  li_custody _ := Ok tt; li_replace _ := Replaced; li_written := None; li_synced := Ok tt; li_truncate := Truncated; li_ctime := (t, 0) |}.
Definition demo_meta : Metadata := {| dev := 1; ino := 7; ctime := 1000; ctime_nsec := 0 |}.
Definition demo_created : ComplianceResult DisclosureLedger * option LedgerFiles :=
  create_for_platform true (demo_io 1000) demo_meta demo_secret None.

Definition demo_l0 : DisclosureLedger := Eval vm_compute in
  match demo_created with (Ok l, _) => l | _ => fresh_ledger (zeroes 32) demo_meta end.
Definition demo_f0 : LedgerFiles := Eval vm_compute in
  match demo_created with
  | (_, Some f) => f
  | _ => {| log_bytes := []; log_meta := demo_meta; log_synced := 0; state_file := None; durable_state := None |}
  end.

Lemma demo_created_Ok : create_for_platform true (demo_io 1000) demo_meta demo_secret None = (Ok demo_l0, Some demo_f0).
Proof. vm_compute. reflexivity. Qed.

Definition demo_st0 : LedgerNode := {| ln_ledger := Some demo_l0; ln_files := demo_f0; ln_acked := [] |}.

Lemma demo_reachable0 : ledger_reachable demo_secret demo_st0.
Proof. exists demo_st0. split; [|constructor]. exists (demo_io 1000), demo_meta, demo_l0, demo_f0. split; [exact demo_created_Ok|reflexivity]. Qed.

(** ** The approved request is executed *)

(** The operation notes how long the log is when it runs. *)
Definition demo_operation (a : AuthorizedDisclosure) (f : LedgerFiles) (w : list nat) : ComplianceResult (DisclosureOutput nat) * list nat :=
  (Ok {| value := 7%nat; record_count := 3; result_commitment := vreplicate 32 x31 |}, w ++ [length (log_bytes f)]).
Definition demo_clock (w : list nat) : ComplianceResult Z * list nat := (Ok 170, w).
Definition demo_run : ComplianceResult nat * DisclosureRequest * DisclosureLedger * LedgerFiles * list nat :=
  execute (demo_io 1001) (demo_io 1002) 160 demo_clock demo_operation demo_r2 demo_l0 demo_f0 [].
Definition demo_l1 : DisclosureLedger := Eval vm_compute in snd (fst (fst demo_run)).
Definition demo_f1 : LedgerFiles := Eval vm_compute in snd (fst demo_run).
Definition demo_w1 : list nat := Eval vm_compute in snd demo_run.

Lemma demo_run_Ok :
  execute (demo_io 1001) (demo_io 1002) 160 demo_clock demo_operation demo_r2 demo_l0 demo_f0 [] =
  (Ok 7%nat, with_state Consumed demo_r2, demo_l1, demo_f1, demo_w1).
Proof. vm_compute. reflexivity. Qed.

Lemma demo_widths :
  Forall key_id_wf [demo_kid] /\ in_uint 64 160 /\ (forall w c, fst (demo_clock w) = Ok c -> in_uint 64 c) /\
  forall a f w out, fst (demo_operation a f w) = Ok out -> in_uint 32 (record_count out).
Proof.
  split; [constructor; [split; vm_compute; split; congruence|constructor]|]. split; [by vm_compute|]. split; [intros w c [= <-]; by vm_compute|].
  intros a f w out [= <-]. by vm_compute.
Qed.

Lemma disclosure_is_recorded_witness :
  exists authorization es ls e f1 out c e',
    consume 160 demo_r2 = (Ok authorization, with_state Consumed demo_r2) /\
    log_bytes f1 = log_of (es ++ [e]) /\ log_synced f1 = length (log_bytes f1) /\ demo_w1 = [length (log_of (es ++ [e]))] /\
    decoded es ls /\ leaf_decode e = Ok (Intent (intent_of demo_r2 160)) /\
    (exists k1 k2 s1 s2, k1 <> k2 /\ signed_within demo_r0 k1 /\ signed_within demo_r0 k2 /\
       di_approver_commitments (intent_of demo_r2 160) =
         [commit (lit "approver") s1 (vec_to_list k1); commit (lit "approver") s2 (vec_to_list k2)]) /\
    fst (demo_operation authorization f1 []) = Ok out /\ 7%nat = value out /\ 160 <= c /\ log_bytes demo_f1 = log_of (es ++ [e; e']) /\
    leaf_decode e' = Ok (Completion {| dc_request_id := rq_request_id demo_r0; dc_timestamp_ms := c; dc_status := Succeeded;
                                       dc_record_count := record_count out; dc_result_commitment := result_commitment out |}).
Proof.
  destruct demo_widths as (W & H1 & H2 & H3).
  destruct (disclosure_is_recorded demo_secret demo_st0 demo_draws TestJurisdiction Attribution [demo_kid] 100 200 demo_material demo_r0
    (snd demo_pair) demo_r2 (demo_io 1001) (demo_io 1002) 160 demo_clock demo_operation demo_l0 [] (Ok 7%nat) (with_state Consumed demo_r2) demo_l1 demo_f1
    demo_w1 demo_reachable0 eq_refl demo_new_Ok demo_approved W H1 H2 H3 demo_run_Ok)
    as [([x Hx] & _)|(a & es & ls & e & f1 & Hc & Hl & Hs & Hw & _ & _ & Hd & _ & He & Ha & Hv)]; [discriminate Hx|].
  destruct (Hv 7%nat eq_refl) as (out & c & e' & Ho & Hval & _ & Ht & Hlog & He'). exists a, es, ls, e, f1, out, c, e'.
  do 3 (split; [assumption|]). split; [rewrite Hw; cbn [demo_operation demo_clock fst snd app]; by rewrite Hl|]. by do 7 (split; [assumption|]).
Defined.

(** ** A torn append, a power loss, a reopening *)

Definition demo_intent : DisclosureLeaf := Intent (intent_of demo_r2 160).
Definition demo_step (io : LedgerIo) (lf : DisclosureLeaf) (l : DisclosureLedger) (f : LedgerFiles) : DisclosureLedger * LedgerFiles :=
  let '(_, l, f) := append io lf l f in (l, f).
Definition demo_a1 : DisclosureLedger * LedgerFiles := Eval vm_compute in demo_step (demo_io 1001) demo_intent demo_l0 demo_f0.
Definition demo_completion : DisclosureLeaf := Completion {|
  dc_request_id := rq_request_id demo_r0; dc_timestamp_ms := 170; dc_status := Failed; dc_record_count := 0;
  dc_result_commitment := sha256 GENERIC_FAILURE_DOMAIN |}.
Definition torn_io : LedgerIo := {|
  li_custody _ := Ok tt; li_replace _ := Replaced; li_written := Some 60%nat; li_synced := Ok tt; li_truncate := Truncated; li_ctime := (1002, 0) |}.
Definition demo_a2 : DisclosureLedger * LedgerFiles := Eval vm_compute in demo_step torn_io demo_completion (fst demo_a1) (snd demo_a1).

Lemma demo_a1_Ok : append (demo_io 1001) demo_intent demo_l0 demo_f0 = (Ok tt, fst demo_a1, snd demo_a1).
Proof. vm_compute. reflexivity. Qed.
Lemma demo_a2_Err : append torn_io demo_completion (fst demo_a1) (snd demo_a1) = (Err ComplianceError.Storage, fst demo_a2, snd demo_a2).
Proof. vm_compute. reflexivity. Qed.

Definition demo_kept : nat := Eval vm_compute in (length (log_bytes (snd demo_a2)) - 5)%nat.
Definition demo_torn : LedgerFiles := Eval vm_compute in
  power_loss (drop (log_synced (snd demo_a2)) (take demo_kept (log_bytes (snd demo_a2)))) (1003, 0) true (snd demo_a2).
Definition demo_st3 : LedgerNode := {| ln_ledger := None; ln_files := demo_torn; ln_acked := [demo_intent] |}.
(** The same power loss, with something else behind the synced bytes. *)
Definition demo_st3' : LedgerNode :=
  {| ln_ledger := None; ln_files := power_loss [x05; x06] (1, 2) false (snd demo_a2); ln_acked := [demo_intent] |}.

Lemma demo_intent_wf : leaf_wf demo_intent.
Proof. split; [by vm_compute|]. constructor; [split; vm_compute; split; congruence|constructor]. Qed.
Lemma demo_completion_wf : leaf_wf demo_completion.
Proof. split; by vm_compute. Qed.

Lemma demo_spared : spared demo_secret demo_kept (1003, 0) true (snd demo_a2).
Proof.
  split; [vm_compute; lia|by left|]. intros bs s Hbs Hd. assert (bs = default [] (state_file (snd demo_a2))) as -> by (by rewrite Hbs).
  assert (ok (decode_authenticated (default [] (state_file (snd demo_a2))) (derive_state_authentication_key demo_secret)) = Some s) as E by (by rewrite Hd).
  assert (match ok (decode_authenticated (default [] (state_file (snd demo_a2))) (derive_state_authentication_key demo_secret)) with
    | Some s => ps_log_len s <? Z.of_nat demo_kept | None => true end = true) as K by (vm_compute; reflexivity).
  rewrite E in K. apply Z.ltb_lt in K. lia.
Qed.

Definition demo_st2 : LedgerNode := {| ln_ledger := Some (fst demo_a2); ln_files := snd demo_a2; ln_acked := [demo_intent] |}.

Lemma demo_graceful2 : rtc (graceful_step demo_secret) demo_st0 demo_st2.
Proof.
  eapply rtc_l; [exact (gs_append _ demo_st0 _ _ _ _ _ eq_refl demo_intent_wf demo_a1_Ok)|]. apply rtc_once.
  exact (gs_append_failed _ {| ln_ledger := Some (fst demo_a1); ln_files := snd demo_a1; ln_acked := [demo_intent] |} torn_io demo_completion (fst demo_a1) _ _ _ eq_refl demo_completion_wf demo_a2_Err).
Qed.

Lemma demo_started0 : ledger_started demo_secret demo_st0.
Proof. exists (demo_io 1000), demo_meta, demo_l0, demo_f0. split; [exact demo_created_Ok|reflexivity]. Qed.

Lemma demo_graceful3 : gracefully_reachable demo_secret demo_st3.
Proof.
  exists demo_st0. split; [exact demo_started0|]. eapply rtc_r; [exact demo_graceful2|].
  exact (gs_power_loss demo_secret demo_st2 demo_kept (1003, 0) true demo_spared).
Qed.

Lemma demo_reachable3' : ledger_reachable demo_secret demo_st3'.
Proof.
  destruct (gracefully_is_reachable demo_secret demo_st2) as (st0 & H0 & H); [exists demo_st0; split; [exact demo_started0|exact demo_graceful2]|].
  exists st0. split; [exact H0|]. eapply rtc_r; [exact H|]. exact (ls_power_loss demo_secret demo_st2 [x05; x06] (1, 2) false).
Qed.

Lemma demo_io_good t : io_good (demo_io t).
Proof. by split. Qed.

Lemma acked_leaves_survive_witness :
  (exists l f' es ls, open_for_platform true (demo_io 1004) demo_secret demo_torn = Some (Ok l, f') /\
    log_bytes f' = log_of es /\ decoded es ls /\ well_sequenced ls /\ [demo_intent] `sublist_of` ls /\ reads_back l (log_bytes f') ls) /\
  exists es ls, log_of es `prefix_of` take (log_synced (ln_files demo_st3')) (log_bytes (ln_files demo_st3')) /\ decoded es ls /\ [demo_intent] `sublist_of` ls.
Proof.
  split.
  - destruct (acked_leaves_survive demo_secret demo_st3 (gracefully_is_reachable _ _ demo_graceful3)) as (_ & H2 & H3).
    destruct (H3 demo_graceful3 (demo_io 1004) (demo_io_good 1004)) as (l & f' & E). destruct (H2 _ _ _ E) as (es & ls & ? & ? & ? & ? & ? & _).
    exists l, f', es, ls. do 5 (split; [assumption|]). assumption.
  - exact (proj1 (acked_leaves_survive demo_secret demo_st3' demo_reachable3')).
Defined.

Definition demo_opened : option (ComplianceResult DisclosureLedger * LedgerFiles) := open_for_platform true (demo_io 1004) demo_secret demo_torn.
Definition demo_l4 : DisclosureLedger := Eval vm_compute in match demo_opened with Some (Ok l, _) => l | _ => demo_l0 end.
Definition demo_f4 : LedgerFiles := Eval vm_compute in match demo_opened with Some (_, f) => f | _ => demo_f0 end.
Lemma demo_opened_Ok : open_for_platform true (demo_io 1004) demo_secret demo_torn = Some (Ok demo_l4, demo_f4).
Proof. vm_compute. reflexivity. Qed.

Lemma opened_log_sound_witness :
  exists es ls, log_bytes demo_f4 = log_of es /\ decoded es ls /\ well_sequenced ls.
Proof. destruct (opened_log_sound demo_secret true (demo_io 1004) demo_torn demo_l4 demo_f4 demo_opened_Ok) as (es & ls & H1 & H2 & H3 & _). exact (ex_intro _ es (ex_intro _ ls (conj H1 (conj H2 H3)))). Defined.

Lemma ledger_proofs_reference_witness :
  exists es, log_bytes demo_f4 = log_of es /\ forall n,
    ledger_inclusion_proof (fun _ => (Ok tt, Ok tt)) demo_l4 (log_bytes demo_f4) n = Ok (inclusion_proof (from_leaves (map leaf_hash es)) n (length es)) /\
    ledger_consistency_proof (fun _ => (Ok tt, Ok tt)) demo_l4 (log_bytes demo_f4) n = Ok (consistency_proof (from_leaves (map leaf_hash es)) n (length es)).
Proof.
  destruct (ledger_proofs_reference demo_secret true (demo_io 1004) demo_torn demo_l4 demo_f4 demo_opened_Ok) as (es & Hl & H). exists es.
  split; [exact Hl|]. intros n. destruct (H (fun _ => (Ok tt, Ok tt)) n) as [H1 H2]. split; (eapply checked_good; [|eassumption]; reflexivity).
Defined.

(** ** The torn file again: the recovery stops after it truncated the log *)

Definition demo_enc (l : DisclosureLeaf) : bytes := default [] (ok (leaf_encode l)).
Definition demo_e1 : bytes := Eval vm_compute in demo_enc demo_intent.
Definition demo_e2 : bytes := Eval vm_compute in demo_enc demo_completion.

Lemma demo_sequence : well_sequenced [demo_intent].
Proof. apply (validate_sequence_spec []); [apply well_sequenced_nil|]. vm_compute. reflexivity. Qed.

Lemma demo_committed : committed [demo_e1] [demo_intent].
Proof. split; [constructor; [vm_compute; reflexivity|constructor]|constructor; [by vm_compute|constructor]|exact demo_sequence|by vm_compute]. Qed.
Lemma demo_next : next_leaf [demo_e1] [demo_intent] demo_e2 demo_completion.
Proof. split; [vm_compute; reflexivity|by vm_compute|vm_compute; reflexivity|by vm_compute]. Qed.

#[local] Notation demo_marker := (ledger_mutation_marker (log_meta (snd demo_a1))) (only parsing).
#[local] Notation demo_disk_at f := (disk_at (derive_state_authentication_key demo_secret) f [demo_e1] [demo_intent] demo_marker) (only parsing).

Lemma demo_disk : demo_disk_at demo_torn (Some demo_e2) (take 55 (record_bytes demo_e2)).
Proof.
  split; [vm_compute; reflexivity|exact demo_committed| |split; [exists demo_completion; exact demo_next|exists 55%nat; split; [vm_compute; lia|reflexivity]]
    |by vm_compute|vm_compute; lia|].
  - exists (default [] (state_file demo_torn)). split; [vm_compute; reflexivity|]. split; [by vm_compute|]. vm_compute. reflexivity.
  - intros E. apply (f_equal length) in E. vm_compute in E. discriminate E.
Qed.

Definition stopped_io : LedgerIo := {|
  li_custody _ := Ok tt; li_replace _ := NotReplaced ComplianceError.Storage; li_written := None; li_synced := Ok tt;
  li_truncate := Truncated; li_ctime := (1005, 0) |}.

(** A record written whole whose [sync_data] failed. *)
Definition unsynced_io : LedgerIo := {|
  li_custody _ := Ok tt; li_replace _ := Replaced; li_written := None; li_synced := Err ComplianceError.Storage; li_truncate := Truncated;
  li_ctime := (1002, 0) |}.
Definition demo_whole : LedgerFiles := Eval vm_compute in snd (demo_step unsynced_io demo_completion (fst demo_a1) (snd demo_a1)).

Lemma demo_disk_whole : demo_disk_at demo_whole (Some demo_e2) (record_bytes demo_e2).
Proof.
  split; [vm_compute; reflexivity|exact demo_committed| |split; [exists demo_completion; exact demo_next|exists (length (record_bytes demo_e2)); split; [done|vm_compute; reflexivity]]
    |by vm_compute|vm_compute; lia|].
  - exists (default [] (state_file demo_whole)). split; [vm_compute; reflexivity|]. split; [by vm_compute|]. vm_compute. reflexivity.
  - intros E. apply (f_equal length) in E. vm_compute in E. discriminate E.
Qed.

(** The log after the acknowledged intent. *)
Lemma demo_disk_acked : demo_disk_at (snd demo_a1) None [].
Proof.
  split; [vm_compute; reflexivity|exact demo_committed| |reflexivity|by vm_compute|vm_compute; lia|reflexivity].
  exists (default [] (state_file (snd demo_a1))). split; [vm_compute; reflexivity|]. split; [by vm_compute|]. vm_compute. reflexivity.
Qed.

Lemma reopening_windows_witness :
  (exists y f', open_for_platform true stopped_io demo_secret demo_torn = Some (Err y, f') /\ unopenable demo_secret f') /\
  (exists l f', open_for_platform true (demo_io 1004) demo_secret demo_whole = Some (Ok l, f') /\ forall t renamed, unopenable demo_secret (power_loss [] t renamed f')) /\
  unopenable demo_secret (power_loss [] (1003, 0) true (snd demo_a1)).
Proof.
  split; [|split].
  - refine (proj1 (reopening_windows demo_secret stopped_io demo_torn [demo_e1] [demo_intent] demo_marker demo_e2 55 ComplianceError.Storage)
      demo_disk _ (fun _ => eq_refl) eq_refl eq_refl _).
    + vm_compute. lia.
    + intros E. apply (f_equal vec_to_list) in E. vm_compute in E. discriminate E.
  - refine (proj1 (proj2 (reopening_windows demo_secret (demo_io 1004) demo_whole [demo_e1] [demo_intent] demo_marker demo_e2 0 ComplianceError.Storage))
      demo_disk_whole _ (demo_io_good 1004)). vm_compute. reflexivity.
  - refine (proj2 (proj2 (proj2 (proj2 (reopening_windows demo_secret (demo_io 1004) (snd demo_a1) [demo_e1] [demo_intent] demo_marker [] 0 ComplianceError.Storage))
      demo_disk_acked _ _ (1003, 0) true _))).
    + vm_compute. reflexivity.
    + vm_compute. reflexivity.
    + intros E. apply (f_equal vec_to_list) in E. vm_compute in E. discriminate E.
Defined.

Lemma request_well_formed_witness :
  request_inv demo_r2 /\ exists e, leaf_encode (Intent (intent_of demo_r2 160)) = Ok e /\
    leaf_decode e = Ok (Intent (intent_of demo_r2 160)) /\ leaf_sized e.
Proof.
  destruct demo_widths as (W & H1 & _).
  destruct (request_well_formed _ _ _ _ _ _ _ _ _ _ demo_new_Ok demo_approved W) as (I & _ & H). split; [exact I|].
  refine (H 160 eq_refl H1 _ _); [lia|]. intros E. apply (f_equal vec_to_list) in E. vm_compute in E. discriminate E.
Defined.
