(* ===== verification/TraceDemo.v ===== *)
(** A concrete trace segment: the laws of the primitives can hold, and the properties of the
    segment writer, verifier, recovery and disclosure apply. *)
From S2P Require Import Prelude Text Crypto Compliance Envelope Layout TraceRecord TraceKey Segment SegmentChain SegmentWriter SegmentRecovery SegmentRuns Custody CustodyFlow.

Definition toy_montgomery : Montgomery :=
  {| mul_base_clamped s := s; mul_clamped _ _ := vreplicate 32 x01 |}.

#[local] Existing Instance toy_crypto.
#[local] Existing Instance toy_envelope_crypto.
#[local] Existing Instance toy_montgomery.

Lemma toy_trace_laws : @TraceSealLaws toy_envelope_crypto toy_montgomery.
Proof.
  split.
  - done.
  - apply (@aead_total _ _ _ toy_envelope_laws).
  - apply (@aead_decrypts _ _ _ toy_envelope_laws).
Qed.

#[local] Existing Instance toy_trace_laws.
#[local] Existing Instance toy_laws.

Definition demo_key_id : ComplianceKeyId := key_id_new NetworkTrace TestJurisdiction (vreplicate 32 x09) 86400000 1.
Definition demo_custodian : CustodyBackend := {|
  cb_purpose := NetworkTrace; cb_jurisdiction := TestJurisdiction; cb_public_key := vreplicate 32 x05;
  cb_agree peer := Ok (vreplicate 32 x01) |}.
Definition demo_key : EpochSealingKey := {| sk_key_id := demo_key_id; secret := vreplicate 32 x06 |}.
Definition demo_signer : arr 32 := vreplicate 32 x07.
Definition demo_node : arr 32 := vreplicate 32 x01.
Definition demo_record (t : Z) : DisclosedTraceRecord := Network {|
  tr_jurisdiction := TestJurisdiction; operation := Publish; timestamp_ms := t; node_id := demo_node;
  source_ip := TraceV4 [# x0a; x00; x00; x01]; source_port := 4433; event_id := Some (vreplicate 32 x02);
  recipient := Some (vreplicate 32 x03); owner := None; size_bytes := 4; correlation_id := None |}.
Definition demo_authorization : AuthorizedDisclosure := {|
  ad_request_id := vreplicate 32 x08; ad_jurisdiction := TestJurisdiction; ad_purpose := NetworkTrace;
  ad_key_ids := [demo_key_id] |}.

Definition empty_dir : SegmentDir := {| final_file := None; open_file := None; synced := 0 |}.
Definition demo_create : SealResult SegmentWriter * SegmentDir :=
  create_for_platform true io_ok (vreplicate 32 x0a) (vreplicate 32 x0b) (vreplicate 24 x0c) demo_key
    (cb_public_key demo_custodian) (public_key demo_signer) 86400100 10 empty_dir.
Definition demo_w0 : SegmentWriter := Eval vm_compute in
  match fst demo_create with
  | Ok w => w
  | Err _ =>
      {| sw_header := {| segment_id := zeroes 32; sh_key_id := demo_key_id; opened_at_ms := 0; max_records := 0;
           signer_public_key := zeroes 32; wrapped_epoch_key := {| wk_version := x00; wk_key_id := demo_key_id;
             compliance_key_digest := zeroes 32; epoch_key_commitment := zeroes 32; ephemeral_public_key := zeroes 32;
             wk_nonce := zeroes 24; wk_ciphertext := zeroes 48 |} |};
         sw_epoch_key := demo_key; sw_count := 0; sw_first_record_hash := zeroes 32; sw_previous_hash := zeroes 32 |}
  end.
Definition demo_d0 : SegmentDir := Eval vm_compute in snd demo_create.

Lemma demo_created : demo_create = (Ok demo_w0, demo_d0).
Proof. vm_compute. reflexivity. Qed.

Lemma demo_header_wf : header_wf (sw_header demo_w0).
Proof.
  assert (key_id_wf demo_key_id) as Hk by by split.
  split; [done|done|done|]. split; [done|]. split; [|split]; intros E; apply (f_equal vec_to_list) in E; vm_compute in E; discriminate E.
Qed.

(** ** Appends, a crash in the middle of a frame, recovery, more appends, finalization *)

Definition demo_l1 : list (Io * arr 24 * DisclosedTraceRecord) :=
  [(io_ok, vreplicate 24 x0d, demo_record 86400101); (io_ok, vreplicate 24 x0e, demo_record 86400102)].
Definition demo_l2 : list (Io * arr 24 * DisclosedTraceRecord) := [(io_ok, vreplicate 24 x0f, demo_record 86400103)].

Definition demo_state (r : option (SegmentWriter * SegmentDir)) : SegmentWriter * SegmentDir := default (demo_w0, demo_d0) r.
Definition demo_s1 : SegmentWriter * SegmentDir := Eval vm_compute in demo_state (append_all demo_l1 demo_w0 demo_d0).
Lemma demo_appended : append_all demo_l1 demo_w0 demo_d0 = Some (fst demo_s1, snd demo_s1).
Proof. vm_compute. reflexivity. Qed.

(** The file is cut in the second frame. *)
Definition demo_cut : nat := 700.
Definition demo_torn : SegmentDir :=
  {| final_file := None; open_file := Some (take demo_cut (default [] (open_file (snd demo_s1)))); synced := 623 |}.
Definition demo_s2 : SegmentWriter * SegmentDir := Eval vm_compute in
  match recover_segment_for_platform true io_ok demo_key demo_torn with
  | Some (Ok (Resumed w), d) => (w, d)
  | _ => (demo_w0, demo_d0)
  end.
Lemma demo_recovered : recover_segment_for_platform true io_ok demo_key demo_torn = Some (Ok (Resumed (fst demo_s2)), snd demo_s2).
Proof. vm_compute. reflexivity. Qed.

Definition demo_s3 : SegmentWriter * SegmentDir := Eval vm_compute in demo_state (append_all demo_l2 (fst demo_s2) (snd demo_s2)).
Lemma demo_appended_again : append_all demo_l2 (fst demo_s2) (snd demo_s2) = Some (fst demo_s3, snd demo_s3).
Proof. vm_compute. reflexivity. Qed.

Definition demo_closed : option (SealResult SegmentFooter * SegmentDir) :=
  finalize_durable io_ok 86400200 demo_signer (fst demo_s3) (snd demo_s3).
Definition demo_footer : SegmentFooter := Eval vm_compute in
  match demo_closed with
  | Some (Ok f, _) => f
  | _ => {| record_count := 0; first_record_hash := zeroes 32; final_chain_hash := zeroes 32; closed_at_ms := 0; ft_signature := zeroes 64 |}
  end.
Definition demo_d4 : SegmentDir := Eval vm_compute in match demo_closed with Some (_, d) => d | None => empty_dir end.
Lemma demo_finalized : finalize_durable io_ok 86400200 demo_signer (fst demo_s3) (snd demo_s3) = Some (Ok demo_footer, demo_d4).
Proof. vm_compute. reflexivity. Qed.

Definition demo_file : bytes := default [] (final_file demo_d4).
Definition demo_segment : VerifiedSegment := Eval vm_compute in
  match verify_segment_bytes demo_file with
  | Some (Ok s) => s
  | _ => {| vs_header := sw_header demo_w0; vs_frames := []; vs_footer := demo_footer |}
  end.
Lemma demo_verified : verify_segment_bytes demo_file = Some (Ok demo_segment).
Proof. vm_compute. reflexivity. Qed.
Definition demo_header_bytes : bytes := Eval vm_compute in default [] (ok (header_encode (vs_header demo_segment))).
Lemma demo_header_encoded : header_encode (vs_header demo_segment) = Ok demo_header_bytes.
Proof. vm_compute. reflexivity. Qed.

(** ** Witnesses *)

Lemma segment_signature_binds_witness :
  (vs_header demo_segment = vs_header demo_segment /\ vs_frames demo_segment = vs_frames demo_segment /\
   closed_at_ms (vs_footer demo_segment) = closed_at_ms (vs_footer demo_segment) /\
   (ft_signature (vs_footer demo_segment) = ft_signature (vs_footer demo_segment) -> demo_file = demo_file)) \/
  collision_in ([demo_header_bytes; demo_header_bytes]
    ++ chain_inputs (sha256 demo_header_bytes) (vs_frames demo_segment)
    ++ chain_inputs (sha256 demo_header_bytes) (vs_frames demo_segment)).
Proof.
  exact (segment_signature_binds demo_file demo_file demo_segment demo_segment demo_header_bytes demo_header_bytes
    demo_verified demo_verified demo_header_encoded demo_header_encoded eq_refl).
Defined.

(** A node that appended and synced one record, appended another, and crashed. *)
Definition demo_append (nonce : arr 24) (t : Z) (w : SegmentWriter) (d : SegmentDir) :=
  append_record io_ok nonce (demo_record t) w d.
Definition demo_append1 : SealResult (arr 32) * SegmentWriter * SegmentDir := Eval vm_compute in
  demo_append (vreplicate 24 x0d) 86400101 demo_w0 demo_d0.
Definition demo_hash1 : arr 32 := Eval vm_compute in match demo_append1 with (Ok h, _, _) => h | _ => zeroes 32 end.
Definition demo_synced : SegmentDir := Eval vm_compute in snd (sync_data io_ok (snd demo_append1)).
Definition demo_append2 : SealResult (arr 32) * SegmentWriter * SegmentDir := Eval vm_compute in
  demo_append (vreplicate 24 x0e) 86400102 (snd (fst demo_append1)) demo_synced.
Definition demo_crashed : Node := {|
  nd_writer := None; nd_dir := crash [x01; x02; x03] (snd demo_append2); nd_pending := []; nd_acked := [demo_hash1] |}.

Lemma demo_reachable : reachable (sw_header demo_w0) demo_crashed.
Proof.
  exists {| nd_writer := Some demo_w0; nd_dir := demo_d0; nd_pending := []; nd_acked := [] |}. split.
  - exists io_ok, (vreplicate 32 x0a), (vreplicate 32 x0b), (vreplicate 24 x0c), demo_key, (cb_public_key demo_custodian),
      (public_key demo_signer), 86400100, 10, empty_dir, demo_w0, demo_d0.
    split; [exact demo_created|]. split; [done|]. split; [exact demo_header_wf|done].
  - eapply rtc_l; [eapply (step_append _ io_ok (vreplicate 24 x0d) (demo_record 86400101) demo_w0 demo_hash1
      (snd (fst demo_append1)) (snd demo_append1)); vm_compute; reflexivity|].
    eapply rtc_l; [eapply (step_sync _ io_ok (snd (fst demo_append1)) demo_synced); vm_compute; reflexivity|].
    eapply rtc_l; [eapply (step_append _ io_ok (vreplicate 24 x0e) (demo_record 86400102) (snd (fst demo_append1)) _
      (snd (fst demo_append2)) (snd demo_append2)); vm_compute; reflexivity|].
    eapply rtc_l; [apply (step_crash _ [x01; x02; x03])|]. apply rtc_refl.
Qed.

Lemma acked_records_survive_witness : exists hb n r d', header_encode (sw_header demo_w0) = Ok hb /\
  recover_segment_for_platform true io_ok demo_key (nd_dir demo_crashed) = Some (r, d') /\
  match r with
  | Ok (Resumed w) =>
      exists fs, writer_at w hb n fs /\ sw_header w = sw_header demo_w0 /\ open_file d' = Some (open_bytes hb fs) /\
        [demo_hash1] `sublist_of` hashes fs
  | Ok (Finalized s) =>
      exists bs, final_file d' = Some bs /\ verify_segment_bytes bs = Some (Ok s) /\ vs_header s = sw_header demo_w0
                 /\ [demo_hash1] `sublist_of` hashes (vs_frames s)
  | Err _ => node_inv (sw_header demo_w0) hb n (dropped demo_crashed d')
  end.
Proof. exact (acked_records_survive (sw_header demo_w0) demo_crashed io_ok demo_key demo_reachable). Defined.

(** The writer after two appends, and the segment published later, share a header. *)
Lemma demo_writer_at : exists n fs,
  writer_at (fst demo_s1) demo_header_bytes n fs /\ valid_segment demo_segment demo_header_bytes n /\ (length fs = 2)%nat.
Proof.
  destruct (create_at _ _ _ _ _ _ _ _ _ _ _ _ _ demo_created demo_header_wf) as (_ & _ & _ & hb & n & W0 & Ed).
  assert (hb = demo_header_bytes) as ->.
  { pose proof (wa_header _ _ _ _ W0) as H. change (sw_header demo_w0) with (vs_header demo_segment) in H.
    rewrite demo_header_encoded in H. by apply Ok_inj in H. }
  destruct (append_all_sealing demo_l1 demo_w0 demo_d0 demo_header_bytes n [] [] (fst demo_s1) (snd demo_s1)) as (_ & _ & fs & [W1 S1 _ _]).
  - split; [done|done|done|]. rewrite Ed. unfold open_bytes. change (frames_bytes []) with (@nil byte). by rewrite app_nil_r.
  - exact demo_appended.
  - exists n, fs. split; [done|]. apply sealed_chain_length in S1. split; [|done].
    destruct (verify_segment_bytes_sound _ _ demo_verified) as (hb' & n' & V & _).
    assert (hb' = demo_header_bytes) as ->.
    { pose proof (sv_header _ _ _ V) as H. rewrite demo_header_encoded in H. by apply Ok_inj in H. }
    assert (n' = n) as ->; [|done]. pose proof (sv_purpose _ _ _ V) as H. pose proof (wa_len _ _ _ _ W0) as H'.
    change (sw_header demo_w0) with (vs_header demo_segment) in H'. congruence.
Qed.

Lemma torn_write_recovers_witness : exists n fs,
  let gs := take ((demo_cut - SEGMENT_HEADER_LEN) / frame_size n) fs in
  recover_segment_for_platform true io_ok demo_key
    {| final_file := None; open_file := Some (take demo_cut (open_bytes demo_header_bytes fs ++ footer_encode demo_footer)); synced := 623 |} =
  Some (Ok (Resumed (chain_writer (sw_header (fst demo_s1)) demo_key demo_header_bytes gs)),
        {| final_file := None; open_file := Some (open_bytes demo_header_bytes gs); synced := length (open_bytes demo_header_bytes gs) |}) /\
  recover_segment_for_platform true io_ok demo_key
    {| final_file := None; open_file := Some (segment_bytes demo_segment demo_header_bytes); synced := 623 |} =
  Some (Ok (Finalized demo_segment),
        {| final_file := Some (segment_bytes demo_segment demo_header_bytes); open_file := None; synced := 0 |}).
Proof.
  destruct demo_writer_at as (n & fs & W & V & L). exists n, fs.
  apply (torn_write_recovers (fst demo_s1) demo_key demo_header_bytes n fs demo_footer 623 demo_cut demo_segment W).
  - split; vm_compute; reflexivity.
  - unfold open_bytes. rewrite length_app, (length_frames_bytes n) by apply W. rewrite L.
    unfold demo_cut, SEGMENT_HEADER_LEN, SEGMENT_FOOTER_LEN, frame_size.
    assert (length demo_header_bytes = 348%nat) as -> by reflexivity.
    pose proof (wa_len _ _ _ _ W) as Hn. apply Ok_inj in Hn. rewrite <-Hn. unfold TRACE_RECORD_LEN. lia.
  - exact V.
  - reflexivity.
Defined.

Lemma demo_discloses : discloses demo_authorization demo_custodian (sk_key_id demo_key).
Proof. split; [done|]. split; [done|]. split; [vm_compute; reflexivity|]. intros e _. done. Qed.

Lemma trace_disclosure_roundtrip_witness : exists n file s,
  frame_len NetworkTrace = Ok n /\ final_file demo_d4 = Some file /\ verify_segment_bytes file = Some (Ok s) /\
  disclose_trace_segment demo_authorization NetworkTrace TestJurisdiction demo_custodian s demo_node
    = Some (Ok (take ((demo_cut - SEGMENT_HEADER_LEN) / n) (records demo_l1) ++ records demo_l2)).
Proof.
  apply (trace_disclosure_roundtrip demo_authorization demo_custodian demo_key demo_node io_ok (vreplicate 32 x0a) (vreplicate 32 x0b)
    (vreplicate 24 x0c) (public_key demo_signer) 86400100 10 empty_dir demo_d0 (snd demo_s1) (snd demo_s3) demo_d4 demo_w0
    (fst demo_s1) (fst demo_s3) demo_l1 demo_l2 (default [] (open_file (snd demo_s1))) demo_cut 623 (fst demo_s2) (snd demo_s2)
    86400200 demo_signer demo_footer demo_discloses).
  - intros E. apply (f_equal vec_to_list) in E. vm_compute in E. discriminate E.
  - repeat constructor; vm_compute; intuition discriminate.
  - repeat constructor.
  - exact demo_created.
  - exact demo_header_wf.
  - exact demo_appended.
  - reflexivity.
  - split; vm_compute; lia.
  - exact demo_recovered.
  - exact demo_appended_again.
  - vm_compute. intuition discriminate.
  - exact demo_finalized.
Defined.
